(* ===== verification/_CoqProject ===== *)
-Q . S2P
Prelude.v
Snowflake.v
RingBuffer.v
Semaphore.v
Bloom.v
KVStore.v
RBAC.v
GoStrings.v
GoScan.v
Utf8.v
Crc32.v
Wal.v
WalProofs.v
WalLog.v
RaftLog.v
RaftProofs.v
RaftElection.v
Saga.v
SagaProofs.v
EventSrc.v
EventSrcProofs.v
Ordered.v
GoHeap.v
GoTime.v
Cron.v
CronProofs.v
CronNext.v
CronNextProofs.v
CronDesc.v
CronSched.v
CronSchedProofs.v
Trie.v
TrieProofs.v
ChainHash.v
ChainHashProofs.v
ChainHashMigrate.v
ChainHashSnapshot.v
JobQueue.v
JobQueueProofs.v
JobQueueThms.v
BPlus.v
BPlusShape.v
BPlusInsert.v
BPlusDelete.v
BPlusDeleteLeaf.v
BPlusChain.v
BPlusMap.v
BPlusIter.v
BPlusProofs.v
SkipCore.v
SkipList.v
SkipListProofs.v
LsmEntry.v
LsmSkip.v
LsmSkipProofs.v
LsmTable.v
LsmTableProofs.v
LsmLevel.v
LsmLevelProofs.v
LsmTree.v
LsmDB.v
LsmDBProofs.v
LsmCompact.v
LsmRestart.v
LsmRefine.v
Myers.v
MyersProofs.v
Diff.v
DiffProofs.v
Patch.v
PatchProofs.v
Merge.v
MergeProofs.v
DistLock.v
DistLockProofs.v
Redlock.v
RedlockProofs.v
LeaderElect.v
LeaderElectProofs.v
LeaderElectTraces.v
