(* ===== verification/Prelude.v ===== *)
(** * Verification of solocoder-go

    The repository is a collection of Go packages under src/internal, each a
    self-contained component used in-process: a package owns its state, guards
    it with a mutex and offers methods on it.  Packages do not call each other
    (leaderelect and contentneg, which each import one sibling, are the
    exceptions), so the development has one model per package and states what
    each package promises to its callers.  This part covers the packages that
    carry the storage, consensus and coordination logic.

    ** Files, and the code they model

    - Prelude.v: field update, the type [result] of fallible functions
      (Go's [(T, error)]), its bind notation [let?], generic lemmas on lists,
      maps and integers, the hint database and tactics of the development.
    - Snowflake.v: snowflake/snowflake.go.  State [Snowflake] (the struct's
      fields); [attempt] is one locked iteration of [Next], [Next] the whole
      retry loop over a [Clock] world (wall clock, monotonic clock, sleep).
    - RingBuffer.v: ringbuffer/ringbuffer.go, every method, over an arbitrary
      element type; water-mark callbacks are the list of runs they cause.
    - Semaphore.v: semaphore/semaphore.go, every method and the timer callback
      of a timed [Acquire]; [sent] is what was sent on the waiters' channels.
    - Bloom.v, KVStore.v: kvstore/bloom.go and kvstore/kvstore.go.  SHA-256
      and the logarithm are the parameters of the class [BloomEnv]; the sizing
      is computed in IEEE arithmetic, FNV-1a too.
    - RBAC.v: rbac/rbac.go, every method.
    - GoStrings.v: what the packages use of strconv, strings and fmt (decimal
      numbers, padding, suffixes, splitting) as functions on strings.
    - GoScan.v: prefixes, [strings.SplitN] and [fmt.Sscanf] of numbers.
      Utf8.v: the runes of a string and their encoding.
    - Crc32.v, Wal.v, WalProofs.v, WalLog.v: wal/wal.go.  The directory is a
      finite map from file names to bytes, a reader is the remaining bytes
      behind a 64 KiB buffer; entries are encoded to and scanned from bytes.
    - RaftLog.v, RaftProofs.v, RaftElection.v: raftlog/raftlog.go, the node and
      its handlers (elections, replication, commitment, joint membership,
      snapshots, compaction, application), over an arbitrary [StateMachine].
    - Saga.v, SagaProofs.v: saga/saga.go, the coordinator, over an arbitrary
      world [W] in which the steps run.
    - EventSrc.v, EventSrcProofs.v: eventsrc/*.go, event store, snapshot store
      and engine, over an arbitrary [Aggregate] interface.
    - Ordered.v: the interfaces of the ordered components: a key order
      ([cmp.Ordered], Go's string comparison) and [sort.Slice], which promises
      a sorted permutation and no stability.
    - SkipCore.v, SkipList.v, SkipListProofs.v: skiplist/skiplist.go.  Nodes
      are the cells of a heap with their forward pointers; SkipCore.v holds
      the pointer surgery, its notion of a well-linked list and its lemmas,
      shared with the memtable below.
    - LsmEntry.v, LsmSkip.v, LsmSkipProofs.v (lsm/entry.go, lsm/skiplist.go:
      the memtable), LsmTable.v, LsmTableProofs.v (lsm/sstable.go: writer,
      file format, reader and iterator), LsmLevel.v, LsmLevelProofs.v
      (lsm/level.go and the merge of lsm/compaction.go), LsmDB.v (lsm/config.go,
      lsm/db.go).  LsmTree.v is the abstract specification of the tree of
      levels; LsmDBProofs.v, LsmCompact.v and LsmRestart.v show that writes and
      flushes, compactions, and closing and reopening keep it; LsmRefine.v puts
      the operations together.

    - Myers.v, MyersProofs.v, Diff.v, DiffProofs.v, Patch.v, PatchProofs.v,
      Merge.v, MergeProofs.v: diffpatch/*.go.  Edit scripts (the array and the
      trace of the greedy search, index by index), hunks and their application,
      the unified format as text, the three-way merge.
    - DistLock.v, DistLockProofs.v, Redlock.v, RedlockProofs.v:
      distlock/distlock.go.  The lock manager as a function of its clock
      readings; the class [LockNodeLaws] is what redlock relies on, proved of
      the manager and used for the system of clients and nodes.
    - LeaderElect.v, LeaderElectProofs.v, LeaderElectTraces.v:
      leaderelect/leaderelect.go, electors that compete for a lock.  The class
      [LeaseLaws] is what they rely on, proved of the lock manager of distlock;
      factors are IEEE 754 numbers.
    - Trie.v, TrieProofs.v: trie/trie.go, the tree of nodes as an inductive
      type, every search.
    - ChainHash.v, ChainHashProofs.v, ChainHashMigrate.v, ChainHashSnapshot.v:
      chainhash/*.go, the hash ring, its lookups, its migration reports and
      snapshots.  SHA-1, floating-point estimates, JSON and files are the
      parameters of [RingEnv].
    - GoHeap.v: container/heap on slices, with the laws of its operations.
      GoTime.v: instants, locations and the calendar of package time.
    - Cron.v, CronProofs.v, CronNext.v, CronNextProofs.v, CronDesc.v,
      CronSched.v, CronSchedProofs.v: cronsched/*.go.  The parser, the search
      for the next time, the descriptions, and the scheduler as a system of
      loops, runs and calls that interleave at the holds of the mutex; channels
      and contexts are signals that are closed.
    - JobQueue.v, JobQueueProofs.v, JobQueueThms.v: jobqueue/*.go.  Jobs are
      shared objects in a store; dispatchers, workers, calls and waiters
      interleave at the holds of the mutexes, the atomic operations and the
      channels.
    - BPlus.v: bplustree/bplustree.go, the B+ tree as a heap of nodes with
      parents and chained leaves, and its iterators.  BPlusShape.v says which
      tree such a heap holds and what a path from a leaf to the root is;
      BPlusInsert.v, BPlusDelete.v and BPlusDeleteLeaf.v take the operations
      apart; BPlusChain.v, BPlusMap.v, BPlusIter.v and BPlusProofs.v put them
      together.

    ** How code becomes definitions

    A struct is a record with the field names of the source, prefixed where two
    structs share a name.  A method that holds the mutex from beginning to end
    is a function from the state to the state and its result; a method that
    releases it in between is split at that point ([put_bloom]/[put_segment],
    [Execute_begin]/[Execute_body]/[Execute_end], [attempt]), so that concurrent
    histories are sequences of critical sections.  Errors are values of an
    [Error] type per package, panics included where the code can panic.  A Go
    map is a [gmap] ([gset] where only [true] is stored), and what code reads
    out of a map's iteration order is not observable in the results modelled.
    Objects the caller and the component share (events, executions,
    compensation failures) live in a store and are referred to by address.
    Numbers are [Z] or [nat]; where the width matters (snowflake ids, sizes and
    offsets of the log, permits, hashes) the wrap-around is written out or the
    bound is a hypothesis.  A float64 is a [spec_float] of the Standard Library.
    Counters that go up by one per call (Raft terms and indices, the last offset
    of the log) are unbounded.  The ring buffer's callbacks belong to the step
    that decided to run them; the code runs them after it has unlocked.

    ** What the theorems show

    - Refinement: the segmented log implements an append-only list across
      restarts, for entries that the reader's 64 KiB buffer holds
      ([wal_refines_list]; [oversized_append_poisons_log] for longer ones), the segmented store with its Bloom filter
      one finite map ([kvstore_refines_map]), the ring buffer a bounded queue
      ([ringbuffer_refines_queue]), the access control RBAC0
      ([operations_refine_RBAC0], [CheckPermission_sound_complete]), the skip
      list a sorted map for every outcome of its coin
      ([skiplist_refines_sorted_map]), and the LSM tree one finite map under
      puts, deletes, flushes, restarts and the compactions that drop no
      tombstone over an older entry ([lsm_refines_map], [lsm_reopens]); its files are read back as written ([sstable_roundtrip])
      and its compaction loop ends ([runCompaction_terminates]).  The lock
      manager implements a map of leases ([locks_refine_leases]) and the trie a
      map of words with its searches by prefix, pattern and longest match
      ([trie_refines_map]; [trie_well_formed], [delete_undoes_insert]).  The B+
      tree implements a finite map with ordered scans
      ([bplustree_refines_map]), stays balanced ([bplustree_balanced]), and its
      iterators are positions in the sorted list of the entries
      ([iterator_refines_cursor]).
    - Texts: [myersDiff] finds a shortest script ([myersDiff_shortest]), a
      generated patch turns the old text into the new one
      ([GeneratePatch_applies]), and a merge of changes that do not touch
      applies both ([merge_applies_both]).
    - Consistent hashing: which keys move when the ring changes
      ([ring_minimal_disruption]), replicas ([GetNodes_replicas]), that the
      reported ranges are those that move ([RemoveNode_report_sound]), and that
      a snapshot restores the ring ([snapshot_roundtrip]).
    - Schedules: what parses is well formed ([Parse_well_formed]), a field
      expands to what it matches ([Expand_matches]), the next time is the least
      that matches in locations with a fixed offset ([NextTime_least]), no
      description panics ([description_no_panic]); the scheduler never runs a
      task twice at once and keeps its heap exact ([scheduler_runs_once]),
      starts the earliest due task ([earliest_due_first]), never sleeps past
      one ([no_lost_wakeup]), never starts a cancelled one
      ([cancelled_never_runs]) and stops everything ([stop_reaches_all]).
    - Job queues: every job is in exactly one place until it is done, with
      exact counters and a bounded number of workers
      ([jobqueue_conserves_jobs]); the job taken has the highest priority
      ([highest_priority_first]); no wake-up of the dispatcher is lost while
      the clock stands still within a round ([dispatcher_no_lost_wakeup]); a
      waiter with its own channel is notified ([own_waiter_notified]).
    - Locks on a majority: two clients that rely on unexpired acquisitions of
      one key have the same token ([redlock_mutual_exclusion]), if clocks are
      read within the configured drift, renewals do not shorten, and a token
      that locks again relies on its newest acquisition.
    - Elections: no two electors are leaders within their leases
      ([one_leader_per_lease]), an elector takes over once a lease has run out,
      after stepping down when it still calls itself leader
      ([failover_after_lease]), and a heartbeat keeps the leader or makes it
      step down ([heartbeat_decides]).
    - Consensus: node invariant and monotone counters ([raft_node_invariant]),
      what a successful AppendEntries stores and how far it moves the commit
      index, for any well-formed request ([AppendEntries_success],
      [replication_round]), commitment by (joint) majority of an entry of the
      current term by a leader of its configuration
      ([updateCommitIndex_majority]), in-order application
      ([applyCommitted_in_order]), at most one vote per term for nodes that do
      not stand for election ([follower_votes_once]).
    - Coordination: which functions of a saga run on which data, in order and in
      reverse, with which error, and their atomicity ([saga_runs_and_compensates], [saga_atomic]), the intervention
      flag, mutual exclusion per saga; semaphore queue discipline and permit
      conservation ([semaphore_invariant], [permits_conserved]).
    - Event sourcing: optimistic appends, exact loading, and that a snapshot
      plus the later events gives the state of a full replay
      ([rebuild_is_replay]).
    - Identity: ids increase strictly under any clock, parse back, and are
      disjoint between machines; [Next] terminates.
    - Robustness of the log: an append cut short, in its segment or in a new one,
      loses nothing acknowledged, one
      corrupted byte is detected, every scan terminates on every disk content.
    - Behaviour at the limits, as theorems about concrete traces or general
      states: an append after a torn write is lost, an entry beyond 64 KiB
      makes the log unreadable, a leader's cleared vote elects two leaders in
      one term, a leader being removed counts itself among the new members
      ([removed_leader_counts_itself]), a short request takes the commit index
      back ([commit_index_goes_back]), a follower restored from a snapshot never accepts entries
      again, a re-appended event rewrites history, and a [Put] that overlaps a
      [Restore] is lost.  In the LSM tree a lookup can return the older of two
      level-0 versions, a compaction can bring a deleted key back, a failed
      flush drops the memtable it was writing, and a zero size limit keeps the
      compaction loop from ending; the refinement theorem carries the
      conditions that exclude these.  A patch that removes a line beginning
      with two dashes is refused, a merge can drop one of two deletions, a
      drift of zero gives two owners of one lock, locking again for a shorter
      time ends the first acquisition early ([relock_ends_first_acquisition]),
      a removal from the hash
      ring does not report the range that wraps around, and when the clocks
      go back the next time of a schedule can lie in the past.  The dispatcher
      of the job queue can sleep past a job that becomes due between two
      readings of the clock, stopping can leave a failed job behind, starting
      while a stop waits makes the next stop panic, and a waiter on the channel
      of another can miss a result.  Resigning during a check gives two leaders
      at once, stopping during a start leaves a leader behind, resigning after
      the lease fails, and valid configurations can make the tickers panic.

    ** Fuel and bounds

    The scans of the log recurse on fuel [S (length bytes)]: every step that is
    not final consumes at least one byte, and [wal_scans_terminate] proves that
    the fuel is never exhausted.  [Next] takes the number of loop iterations and
    its waits a number of polls computed from the time limits of the source;
    [Next_terminates] proves that two iterations and those polls are enough.
    The theorems on the log assume fewer than 2^40 calls (the padding of file
    names and the 64-bit offsets); those on the semaphore assume that totals
    fit an int64 ([all_fit]); Raft indices and terms count up by one and are
    not bounded.

    A walk along a skip list recurses on the number of cells of its heap plus
    one, and [find] on the number of levels; the lemmas on well-linked lists
    show that a walk visits every cell at most once.  Reading a table recurses
    on the bytes left, of which each entry consumes at least one.
    The walks of the B+ tree from the root to a leaf and back, and along the
    leaves, take as many steps as nodes were ever allocated; its theorems show
    that these are enough.  They assume fewer than 2^44 keys per node.
    The search for the next time of a schedule counts its 31,622,400 steps in
    binary; the loops for hours end at the end of the day, and the expansion of
    a field visits at most twice its upper limit.
    A round of the dispatcher of the job queue moves at most as many jobs as the
    delay queue holds; [promote_spec] shows that this is enough.
    The compaction loop takes a number of rounds; [runCompaction_terminates]
    gives a bound from the number of tables.  The LSM theorems assume sequence
    numbers below 2^63, fewer than 2^62 levels, tables below 2 GiB (the width
    of the offsets in the file), and, per key, timestamps that increase.

    The search of [myersDiff] takes as many rounds as the texts have lines
    together, its snakes and the walk back as many steps as there are lines;
    the theorem includes that none of these runs out, for texts of fewer than
    2^63-1 lines.  [Redlock.Lock] takes a number of attempts, for which
    [redlock_Lock_returns] gives a bound.  Times are unbounded: durations do
    not overflow.  Decoding a string and the binary search of [sort.Search]
    take as many steps as there are bytes or elements.  The theorems on the
    hash ring assume that its virtual nodes have different hashes and that the
    number of virtual nodes of a node fits an int.

    ** Not modelled

    Goroutine scheduling below the granularity of critical sections, timers
    and random election timeouts (their expiry is an input), wall-clock
    timestamps in logs and events, formatted error texts, failing writes and
    syncs of the operating system except where a component reacts to them (the
    failed flush of the LSM tree), Raft's in-memory transport and its [Cluster]
    test harness, LSM's [DebugInfo] texts and readers that run while a
    compaction has replaced only part of the tables, the B+ tree's [String],
    that Stop of the job queue waits for the goroutines (its end may come at any
    time, as after the timeout), and
    the remaining packages of src/internal, which the modelled ones do not call:
    servers and clients of network protocols, text processing, and further
    caches, limiters and schedulers. *)

From stdpp Require Import base tactics option numbers list gmap strings sorting.
From Stdlib Require Import ZArith Lia SpecFloat.

(** * Record field update

    [r <| f := v |>] is [r] with the field [f] replaced by [v].  A record type
    opts in with an [Eta] instance that rebuilds a value from its projections;
    the setter of a field is then computed from that expansion. *)

Class Eta (R : Type) := eta_of : R → R.

Class FieldSet {R E : Type} (proj : R → E) := set_field : E → R → R.

Ltac solve_field_set :=
  match goal with
  | |- @FieldSet ?R ?E ?proj =>
      let inst := constr:(_ : Eta R) in
      let body := eval hnf in inst in
      match eval pattern proj in body with
      | ?rebuild _ =>
          let setter := eval cbv beta in (fun (v : E) (r : R) => rebuild (fun _ => v) r) in
          exact setter
      end
  end.

#[export] Hint Extern 0 (FieldSet _) => solve_field_set : typeclass_instances.

Declare Scope go_scope.
Delimit Scope go_scope with go.
Open Scope go_scope.

Notation "r <| f := v |>" := (set_field (proj := f) v r)
  (at level 1, left associativity, f at level 1, v at level 200,
   format "r  <| f  :=  v |>") : go_scope.

(** * Results

    A Go function that returns [(T, error)] returns [Ok] of the value or [Err]
    of the error. *)

Inductive result (E A : Type) :=
| Ok (a : A)
| Err (e : E).
Arguments Ok {E A} a.
Arguments Err {E A} e.

Definition rbind {E A B} (m : result E A) (k : A → result E B) : result E B :=
  match m with Ok a => k a | Err e => Err e end.

Notation "'let?' x ':=' m 'in' k" := (rbind m (λ x, k))
  (at level 10, x pattern, m at level 100, k at level 200) : go_scope.

Definition is_ok {E A} (m : result E A) : bool :=
  match m with Ok _ => true | Err _ => false end.

(** * Machine integers

    An [n]-bit Go integer is a [Z] kept in range; the wrap-around of arithmetic
    is written with [uintw] (unsigned) and [intw] (two's complement). *)

Open Scope Z_scope.

Definition uintw (w z : Z) : Z := z mod 2 ^ w.
Definition intw (w z : Z) : Z := (z + 2 ^ (w - 1)) mod 2 ^ w - 2 ^ (w - 1).

Abbreviation uint64 := (uintw 64).
Abbreviation uint32 := (uintw 32).
Abbreviation int64 := (intw 64).

Lemma uintw_small w z : 0 <= z < 2 ^ w -> uintw w z = z.
Proof. intros. unfold uintw. by apply Z.mod_small. Qed.

Lemma uintw_range w z : 0 <= w -> 0 <= uintw w z < 2 ^ w.
Proof. intros. unfold uintw. apply Z.mod_pos_bound. lia. Qed.

Lemma intw_small w z : 0 < w -> - 2 ^ (w - 1) <= z < 2 ^ (w - 1) -> intw w z = z.
Proof.
  intros Hw Hz. unfold intw.
  assert (2 ^ w = 2 * 2 ^ (w - 1)) as Hp.
  { rewrite <- Z.pow_succ_r by lia. f_equal; lia. }
  rewrite Z.mod_small; lia.
Qed.

Lemma int64_small z : - 2 ^ 63 <= z < 2 ^ 63 -> int64 z = z.
Proof. intros. apply intw_small; lia. Qed.

(** Disjoint bit fields: or-ing a value below [2^k] into a multiple of [2^k]
    adds it, and both fields can be read back. *)
Lemma lor_shiftl_add a b k :
  0 <= k -> 0 <= b < 2 ^ k -> Z.lor (Z.shiftl a k) b = a * 2 ^ k + b.
Proof.
  intros Hk Hb. rewrite Z.shiftl_mul_pow2 by lia.
  rewrite <- Z.add_lor_land.
  enough (Z.land (a * 2 ^ k) b = 0) as -> by lia.
  apply Z.bits_inj'. intros i Hi. rewrite Z.land_spec, Z.bits_0.
  destruct (Z.lt_ge_cases i k).
  - by rewrite Z.mul_pow2_bits_low.
  - rewrite <- (Z.mod_small b (2 ^ k)), (Z.mod_pow2_bits_high b k i) by lia.
    apply andb_false_r.
Qed.

Lemma fields_hi a b k : 0 <= k -> 0 <= b < 2 ^ k -> Z.shiftr (a * 2 ^ k + b) k = a.
Proof.
  intros. rewrite Z.shiftr_div_pow2 by lia.
  rewrite Z.div_add_l by lia. rewrite Z.div_small by lia. lia.
Qed.

Lemma fields_lo a b k :
  0 <= k -> 0 <= b < 2 ^ k -> Z.land (a * 2 ^ k + b) (2 ^ k - 1) = b.
Proof.
  intros. replace (2 ^ k - 1) with (Z.ones k) by (rewrite Z.ones_equiv; lia).
  rewrite Z.land_ones by lia. rewrite Z.add_comm, Z_mod_plus_full.
  by apply Z.mod_small.
Qed.

(** * Clocks

    Code that reads the time runs in a world [W]: [wall] is what
    [time.Now().UnixMilli()] reads there (it may move backward), [mono] is the
    monotonic reading, in nanoseconds, used by [time.Since]; [tick] is the
    passing of time between two operations and [sleep d] a [time.Sleep]. *)

Class Clock (W : Type) := {
  wall : W -> Z;
  mono : W -> Z;
  tick : W -> W;
  sleep : Z -> W -> W;
}.

(** What the Go runtime promises of its monotonic clock. *)
Class ClockLaws (W : Type) `{!Clock W} : Prop := {
  tick_mono w : mono w <= mono (tick w);
  sleep_mono d w : mono w + d <= mono (sleep d w);
}.

(** A wall clock, in an int64, that nobody sets back. *)
Class SteadyWall (W : Type) `{!Clock W} : Prop := {
  wall_range w : 0 <= wall w < 2 ^ 63;
  tick_wall w : wall w <= wall (tick w);
  sleep_wall d w : wall w <= wall (sleep d w);
}.

(** A concrete world for examples: a wall clock in milliseconds and a
    monotonic clock in nanoseconds that advances by sleeping. *)
Record SimWorld := { sim_ms : Z; sim_ns : Z }.

#[export] Instance sim_clock : Clock SimWorld := {|
  wall w := Z.max 0 (Z.min (2 ^ 63 - 1) (sim_ms w + sim_ns w / 1000000));
  mono := sim_ns;
  tick w := w;
  sleep d w := {| sim_ms := sim_ms w; sim_ns := sim_ns w + Z.max 0 d |};
|}.

#[export] Instance sim_clock_laws : ClockLaws SimWorld.
Proof. split; intros; simpl; lia. Qed.

#[export] Instance sim_clock_steady : SteadyWall SimWorld.
Proof.
  split; intros; simpl; [lia..|].
  assert (sim_ns w / 1000000 <= (sim_ns w + Z.max 0 d) / 1000000)
    by (apply Z.div_le_mono; lia).
  lia.
Qed.

(** * Automation *)

Create HintDb go discriminated.
#[export] Hint Resolve Z.le_refl Z.le_trans : go.

(** Decide a closed equation by computation. *)
Ltac compute_side := vm_compute; reflexivity.

(** One step of a concrete trace; the state it leads to is computed. *)
Ltac compute_state := match goal with |- rtc _ ?s _ => let s' := eval vm_compute in s in change s with s' end.
Tactic Notation "trace_step" tactic3(tac) := eapply rtc_l; [tac|compute_state].

(** Split the conjunctions of the goal and turn boolean tests of the code into
    propositions, in the goal and in the hypotheses. *)
Ltac bools :=
  repeat match goal with
  | H : (_ && _)%bool = true |- _ => apply andb_true_iff in H as [? ?]
  | H : (_ || _)%bool = false |- _ => apply orb_false_iff in H as [? ?]
  | H : negb _ = true |- _ => apply negb_true_iff in H
  | H : negb _ = false |- _ => apply negb_false_iff in H
  | H : (_ <=? _) = true |- _ => apply Z.leb_le in H
  | H : (_ <=? _) = false |- _ => apply Z.leb_gt in H
  | H : (_ <? _) = true |- _ => apply Z.ltb_lt in H
  | H : (_ <? _) = false |- _ => apply Z.ltb_ge in H
  | H : (_ =? _) = true |- _ => apply Z.eqb_eq in H
  | H : (_ =? _) = false |- _ => apply Z.eqb_neq in H
  | H : bool_decide _ = true |- _ => apply bool_decide_eq_true in H
  | H : bool_decide _ = false |- _ => apply bool_decide_eq_false in H
  end.

(** Case analysis on the conditionals and matches of the code. *)
Ltac break :=
  repeat case_match; simplify_eq/=; bools.

(** * Lists *)

(** Remove the first occurrence of [x]; [None] when there is none. *)
Fixpoint remove_first {A} `{!EqDecision A} (x : A) (l : list A) : option (list A) :=
  match l with
  | [] => None
  | y :: l => if decide (x = y) then Some l else cons y <$> remove_first x l
  end.

Lemma remove_first_Some {A} `{!EqDecision A} (x : A) l l' :
  remove_first x l = Some l' -> exists l1 l2, l = l1 ++ x :: l2 /\ l' = l1 ++ l2.
Proof.
  revert l'. induction l as [|y l IH]; intros l'; simpl; [done|].
  case_decide as Hd; intros Hs; simplify_eq/=.
  - by exists [], l'.
  - apply fmap_Some in Hs as (l'' & Hr & ->). destruct (IH _ Hr) as (l1 & l2 & -> & ->).
    by exists (y :: l1), l2.
Qed.

Lemma StronglySorted_drop_middle {A} (R : relation A) (l1 l2 l3 : list A) :
  StronglySorted R (l1 ++ l2 ++ l3) -> StronglySorted R (l1 ++ l3).
Proof.
  rewrite !StronglySorted_app. intros (H12 & H1 & H23 & H2 & H3).
  split_and!; [|done..]. intros x y Hx Hy. apply H12; [done|]. set_solver.
Qed.

Lemma list_filter_all {A} (P : A -> Prop) `{!forall x, Decision (P x)} (l : list A) :
  Forall P l -> filter P l = l.
Proof. induction 1 as [|x l Hx _ IH]; [done|]. by rewrite filter_cons, decide_True, IH. Qed.

Lemma list_filter_none {A} (P : A -> Prop) `{!forall x, Decision (P x)} (l : list A) :
  Forall (fun x => ~ P x) l -> filter P l = [].
Proof. induction 1 as [|x l Hx _ IH]; [done|]. by rewrite filter_cons, decide_False, IH. Qed.

(** * Bytes

    A byte is a [Z] in [0, 256); a Go string is its list of bytes. *)

Definition byte_of_ascii (c : Ascii.ascii) : Z := Z.of_N (Ascii.N_of_ascii c).

Fixpoint str_bytes (s : string) : list Z :=
  match s with
  | EmptyString => []
  | String c s => byte_of_ascii c :: str_bytes s
  end.

Definition ascii_of_byte (b : Z) : Ascii.ascii := Ascii.ascii_of_N (Z.to_N b).

Fixpoint bytes_str (bs : list Z) : string :=
  match bs with [] => EmptyString | b :: bs => String (ascii_of_byte b) (bytes_str bs) end.

Lemma bytes_str_bytes s : bytes_str (str_bytes s) = s.
Proof.
  induction s as [|c s IH]; simpl; [done|]. rewrite IH. unfold ascii_of_byte, byte_of_ascii.
  by rewrite N2Z.id, Ascii.ascii_N_embedding.
Qed.

Lemma length_str_bytes s : length (str_bytes s) = String.length s.
Proof. induction s; simpl; congruence. Qed.

Definition is_byte (b : Z) : Prop := 0 <= b < 256.

(** [binary.BigEndian.UintN] and [PutUintN] for [n]-byte integers. *)
Definition be_decode (bs : list Z) : Z := foldl (fun acc b => acc * 256 + b) 0 bs.

Fixpoint be_encode (n : nat) (z : Z) : list Z :=
  match n with
  | O => []
  | S n => be_encode n (z / 256) ++ [z mod 256]
  end.

Lemma length_be_encode n z : length (be_encode n z) = n.
Proof. revert z. induction n as [|n IH]; intros z; simpl; [done|]. rewrite length_app, IH. simpl. lia. Qed.

Lemma be_encode_bytes n z : Forall is_byte (be_encode n z).
Proof.
  revert z. induction n as [|n IH]; intros z; simpl; [constructor|].
  apply Forall_app. split; [apply IH|]. repeat constructor; apply Z.mod_pos_bound; lia.
Qed.

Lemma be_decode_snoc bs b : be_decode (bs ++ [b]) = be_decode bs * 256 + b.
Proof. unfold be_decode. by rewrite foldl_app. Qed.

Lemma be_decode_encode n z : be_decode (be_encode n z) = z mod 2 ^ (8 * Z.of_nat n).
Proof.
  revert z. induction n as [|n IH]; intros z; simpl.
  - by rewrite Z.mod_1_r.
  - rewrite be_decode_snoc, IH.
    replace (8 * Z.of_nat (S n)) with (8 + 8 * Z.of_nat n) by lia.
    rewrite Z.pow_add_r by lia. change (2 ^ 8) with 256.
    rewrite Z.rem_mul_r by lia. lia.
Qed.

Lemma be_encode_decode bs :
  Forall is_byte bs -> be_encode (length bs) (be_decode bs) = bs.
Proof.
  induction bs as [|b bs IH] using rev_ind; intros Hb; [done|].
  apply Forall_app in Hb as [Hbs Hb]. rewrite Forall_singleton in Hb. unfold is_byte in Hb.
  rewrite length_app, Nat.add_1_r. simpl. rewrite be_decode_snoc.
  rewrite Z.div_add_l by lia. rewrite (Z.div_small b) by lia. rewrite Z.add_0_r, IH by done.
  by rewrite Z.add_comm, Z_mod_plus_full, Z.mod_small by lia.
Qed.

(** ** float64 *)

Definition float64 : Type := spec_float.
Definition float_of_int (n : Z) : float64 := binary_normalize 53 1024 n 0 false.

(** The conversion of a float to an int64; it is left open by the language for
    what does not fit. *)
Definition int_of_float (f : float64) : option Z :=
  match f with
  | S754_zero _ => Some 0
  | S754_finite s m e =>
      let n := Z.shiftl (Z.pos m) e in
      let n := if s then - n else n in
      if (- 2 ^ 63 <=? n) && (n <? 2 ^ 63) then Some n else None
  | _ => None
  end.

(** Not strictly between 0 and 1. *)
Definition no_fraction (f : float64) : bool := SFleb f (float_of_int 0) || SFleb (float_of_int 1) f.
