(* ===== verification/Snowflake.v ===== *)
(** Snowflake id generator (src/internal/snowflake/snowflake.go).

    [attempt] is the body of one iteration of the loop of [Next] between
    [mu.Lock] and [mu.Unlock]; goroutines interleave at that granularity, so the
    uniqueness theorems quantify over arbitrary sequences of attempts.  [Next]
    is the whole loop of one goroutine, with the clock as a [Clock] world. *)

From stdpp Require Import base tactics list sorting.
From Stdlib Require Import ZArith Lia.
From S2P Require Import Prelude.

(** ** Constants *)

Definition epoch : Z := 1704067200000.
Definition timestampBits : Z := 41.
Definition machineIDBits : Z := 10.
Definition sequenceBits : Z := 12.
Definition maxMachineID : Z := Z.shiftl 1 machineIDBits - 1.
Definition maxSequence : Z := Z.shiftl 1 sequenceBits - 1.
Definition machineIDShift : Z := sequenceBits.
Definition timestampShift : Z := sequenceBits + machineIDBits.
Definition clockBackwardSmallMaxMs : Z := 5.
Definition waitUntilNextMsMaxMs : Z := 200.
Definition sequenceOverflowMaxMs : Z := 200.

Inductive Error :=
| ErrInvalidMachineID
| ErrClockBackward
| ErrClockBackwardMax
| ErrSequenceOverflow.

(** ** State *)

Record ParsedID := { Timestamp : Z; MachineID : Z; Sequence : Z }.

Record Snowflake := { machineID : Z; lastTS : Z; sequence : Z }.

#[export] Instance eta_Snowflake : Eta Snowflake := fun s =>
  {| machineID := machineID s; lastTS := lastTS s; sequence := sequence s |}.

Definition New (id : Z) : result Error Snowflake :=
  if ((id <? 0) || (maxMachineID <? id))%bool then Err ErrInvalidMachineID
  else Ok {| machineID := id; lastTS := -1; sequence := 0 |}.

(** ** Operations *)

(** What one locked iteration of [Next] decides: an id with the new state, a
    wait for the clock to pass [target] (and the error if it does not within
    [limit] ms), or an error. *)
Inductive outcome :=
| Issued (id : Z) (s : Snowflake)
| WaitFor (target limit : Z) (err : Error)
| Failed (err : Error).

Definition compose_id (now mid seq : Z) : Z :=
  int64 (Z.lor (Z.lor (Z.shiftl now timestampShift) (Z.shiftl mid machineIDShift)) seq).

Definition issue (s : Snowflake) (now seq : Z) : outcome :=
  Issued (compose_id now (machineID s) seq) (s <| sequence := seq |> <| lastTS := now |>).

Definition attempt (s : Snowflake) (now : Z) : outcome :=
  if now <? lastTS s then
    let offset := lastTS s - now in
    if offset <=? clockBackwardSmallMaxMs
    then WaitFor (lastTS s) waitUntilNextMsMaxMs ErrClockBackwardMax
    else Failed ErrClockBackward
  else if now =? lastTS s then
    if maxSequence <=? sequence s
    then WaitFor (lastTS s) sequenceOverflowMaxMs ErrSequenceOverflow
    else issue s now (sequence s + 1)
  else issue s now 0.

Definition Parse (id : Z) : ParsedID :=
  {| Timestamp := Z.shiftr id timestampShift;
     MachineID := Z.land (Z.shiftr id machineIDShift) maxMachineID;
     Sequence := Z.land id maxSequence |}.

Definition Decompose (id : Z) : ParsedID := Parse id.

Section clocked.
Context {W : Type} `{!Clock W}.

Definition timestamp (w : W) : Z * W := (int64 (wall w - epoch), tick w).

(** The loop of [waitUntilNextMs]; [start] is the monotonic reading at entry. *)
Fixpoint wait_loop (fuel : nat) (start timeout targetTS : Z) (w : W) : option (bool * W) :=
  match fuel with
  | O => None
  | S fuel =>
      let (ts, w) := timestamp w in
      if ts <=? targetTS then
        let since := mono w - start in
        let w := tick w in
        if timeout <=? since then Some (true, w)
        else wait_loop fuel start timeout targetTS (sleep 100000 w)
      else Some (false, w)
  end.

(** Each iteration sleeps 100us, so a wait of [maxWaitMs] ms takes at most
    [10 * maxWaitMs + 1] iterations. *)
Definition wait_fuel (maxWaitMs : Z) : nat := Z.to_nat (10 * maxWaitMs + 1).

Definition waitUntilNextMs (targetTS maxWaitMs : Z) (w : W) : option (bool * W) :=
  wait_loop (wait_fuel maxWaitMs) (mono w) (maxWaitMs * 1000000) targetTS (tick w).

(** [Next] for one goroutine; [fuel] bounds the iterations of its outer loop. *)
Fixpoint Next (fuel : nat) (s : Snowflake) (w : W) : option (result Error Z * Snowflake * W) :=
  match fuel with
  | O => None
  | S fuel =>
      let (now, w) := timestamp w in
      match attempt s now with
      | Issued id s' => Some (Ok id, s', w)
      | Failed err => Some (Err err, s, w)
      | WaitFor target limit err =>
          match waitUntilNextMs target limit w with
          | None => None
          | Some (true, w) => Some (Err err, s, w)
          | Some (false, w) => Next fuel s w
          end
      end
  end.

End clocked.

(** The critical sections of any number of goroutines, in the order in which
    they take the mutex: attempt [i] reads [nows !! i].  The ids they issue. *)
Fixpoint run_attempts (s : Snowflake) (nows : list Z) : list Z :=
  match nows with
  | [] => []
  | now :: nows =>
      match attempt s now with
      | Issued id s' => id :: run_attempts s' nows
      | WaitFor _ _ _ | Failed _ => run_attempts s nows
      end
  end.

(** ** Invariant *)

Definition wf (s : Snowflake) : Prop :=
  0 <= machineID s <= maxMachineID /\ -1 <= lastTS s < 2 ^ timestampBits
  /\ 0 <= sequence s <= maxSequence.

(** A clock reading that fits the 41 timestamp bits (years 2024 to 2093). *)
Definition in_range (now : Z) : Prop := 0 <= now < 2 ^ timestampBits.

Definition compose_num (now mid seq : Z) : Z := (now * 2 ^ 10 + mid) * 2 ^ 12 + seq.

Lemma compose_id_num now mid seq :
  in_range now -> 0 <= mid <= maxMachineID -> 0 <= seq <= maxSequence ->
  compose_id now mid seq = compose_num now mid seq
  /\ 0 <= compose_num now mid seq < 2 ^ 63.
Proof.
  unfold in_range, compose_num, compose_id, maxMachineID, maxSequence, machineIDShift,
    timestampShift, timestampBits, machineIDBits, sequenceBits.
  change (Z.shiftl 1 10 - 1) with 1023. change (Z.shiftl 1 12 - 1) with 4095.
  intros Hn Hm Hs.
  assert (0 <= (now * 2 ^ 10 + mid) * 2 ^ 12 + seq < 2 ^ 63) as Hb by lia.
  split; [|done].
  replace (12 + 10) with (10 + 12) by lia.
  rewrite <- Z.shiftl_shiftl, <- Z.shiftl_lor, !lor_shiftl_add by lia.
  apply int64_small. lia.
Qed.

Lemma compose_num_parse now mid seq :
  in_range now -> 0 <= mid <= maxMachineID -> 0 <= seq <= maxSequence ->
  Parse (compose_num now mid seq)
  = {| Timestamp := now; MachineID := mid; Sequence := seq |}.
Proof.
  intros Hn Hm Hs. unfold Parse, compose_num, maxMachineID, maxSequence, machineIDShift,
    timestampShift, machineIDBits, sequenceBits in *.
  change (Z.shiftl 1 10 - 1) with (2 ^ 10 - 1) in *.
  change (Z.shiftl 1 12 - 1) with (2 ^ 12 - 1) in *.
  f_equal.
  - rewrite <- Z.shiftr_shiftr, !fields_hi; lia.
  - rewrite fields_hi, fields_lo; lia.
  - rewrite fields_lo; lia.
Qed.

(** The two ways in which an attempt issues an id. *)
Lemma attempt_issued s now id s' :
  attempt s now = Issued id s' ->
  exists seq, id = compose_id now (machineID s) seq
  /\ s' = {| machineID := machineID s; lastTS := now; sequence := seq |}
  /\ ((now = lastTS s /\ seq = sequence s + 1 /\ sequence s < maxSequence)
      \/ (lastTS s < now /\ seq = 0)).
Proof.
  unfold attempt, issue. intros H. break; eexists; split_and!; try done;
    [left|right]; lia.
Qed.

Lemma attempt_wf s now id s' :
  wf s -> in_range now -> attempt s now = Issued id s' -> wf s'.
Proof.
  intros (Hm & Ht & Hs) Hn (seq & -> & -> & Hc)%attempt_issued.
  unfold wf, in_range in *. simpl. change maxSequence with 4095 in *. lia.
Qed.

Lemma New_wf id s : New id = Ok s -> wf s.
Proof.
  unfold New, wf. intros. break.
  change maxSequence with 4095. unfold timestampBits. simpl. lia.
Qed.

(** The ids an attempt can still issue from [s] lie above this bound. *)
Definition floor (s : Snowflake) : Z := compose_num (lastTS s) (machineID s) (sequence s).

Lemma attempt_above s now id s' :
  wf s -> in_range now -> attempt s now = Issued id s' ->
  floor s < id /\ id = floor s'.
Proof.
  intros Hwf Hn Ha. pose proof (attempt_wf _ _ _ _ Hwf Hn Ha) as Hwf'.
  apply attempt_issued in Ha as (seq & -> & -> & Hc).
  destruct Hwf as (Hm & Ht & Hs), Hwf' as (_ & _ & Hs'). simpl in Hs'.
  destruct (compose_id_num now (machineID s) seq) as [-> _]; [done..|].
  unfold floor, compose_num. simpl.
  change maxSequence with 4095 in *. change maxMachineID with 1023 in *.
  split; [|done]. lia.
Qed.

Lemma run_attempts_above nows s :
  wf s -> Forall in_range nows -> Forall (fun id => floor s < id) (run_attempts s nows).
Proof.
  revert s. induction nows as [|now nows IH]; intros s Hwf Hn; simpl; [constructor|].
  apply Forall_cons in Hn as [Hnow Hn].
  destruct (attempt s now) as [id s'| |] eqn:Ha; [|by apply IH..].
  destruct (attempt_above _ _ _ _ Hwf Hnow Ha) as [Hlt Heq].
  constructor; [done|].
  eapply Forall_impl; [apply IH; eauto using attempt_wf|]. simpl. lia.
Qed.

Lemma attempt_parse s now id s' :
  wf s -> in_range now -> attempt s now = Issued id s' ->
  Parse id = {| Timestamp := now; MachineID := machineID s; Sequence := sequence s' |}
  /\ 0 <= id < 2 ^ 63.
Proof.
  intros Hwf Hn Ha. pose proof (attempt_wf _ _ _ _ Hwf Hn Ha) as (_ & _ & Hs').
  apply attempt_issued in Ha as (seq & -> & -> & _). simpl in *.
  destruct Hwf as (Hm & _ & _).
  destruct (compose_id_num now (machineID s) seq) as [-> Hb]; [done..|].
  split; [by apply compose_num_parse|done].
Qed.

Lemma run_attempts_machine nows s :
  wf s -> Forall in_range nows ->
  Forall (fun id => MachineID (Parse id) = machineID s) (run_attempts s nows).
Proof.
  revert s. induction nows as [|now nows IH]; intros s Hwf Hn; simpl; [constructor|].
  apply Forall_cons in Hn as [Hnow Hn].
  destruct (attempt s now) as [id s'| |] eqn:Ha; [|by apply IH..].
  pose proof (attempt_wf _ _ _ _ Hwf Hnow Ha) as Hwf'.
  destruct (attempt_parse _ _ _ _ Hwf Hnow Ha) as [Hp _].
  apply attempt_issued in Ha as (seq & _ & -> & _).
  apply (f_equal MachineID) in Hp.
  constructor; [done|]. by apply (IH _ Hwf').
Qed.

(** ** The waiting loop and [Next] *)

Section clocked_proofs.
Context {W : Type} `{!Clock W, !ClockLaws W, !SteadyWall W}.

(** The wait ends within its fuel, because each round advances the monotonic
    clock by 100us; when it ends without a timeout, the clock has passed the
    target and stays past it. *)
Lemma wait_loop_ends fuel start timeout target (w : W) :
  timeout <= mono w - start + (Z.of_nat fuel - 1) * 100000 ->
  (0 < fuel)%nat ->
  exists b w', wait_loop fuel start timeout target w = Some (b, w')
  /\ (b = false -> exists w0 : W, wall w0 <= wall w' /\ target < int64 (wall w0 - epoch)).
Proof.
  revert w. induction fuel as [|fuel IH]; intros w Hf Hpos; [lia|]. simpl.
  destruct (int64 (wall w - epoch) <=? target) eqn:Hts; bools.
  - destruct (timeout <=? mono (tick w) - start) eqn:Hto; bools; [by eexists _, _|].
    pose proof (tick_mono w). pose proof (tick_mono (tick w)).
    pose proof (sleep_mono 100000 (tick (tick w))).
    destruct fuel as [|fuel]; [lia|]. apply IH; lia.
  - eexists _, _. split; [done|]. intros _. exists w. split; [apply tick_wall|done].
Qed.

Lemma waitUntilNextMs_ends target limit (w : W) :
  0 <= limit ->
  exists b w', waitUntilNextMs target limit w = Some (b, w')
  /\ (b = false -> exists w0 : W, wall w0 <= wall w' /\ target < int64 (wall w0 - epoch)).
Proof.
  intros. unfold waitUntilNextMs, wait_fuel. pose proof (tick_mono w).
  apply wait_loop_ends; lia.
Qed.

Lemma timestamp_exact (w : W) : int64 (wall w - epoch) = wall w - epoch.
Proof. pose proof (wall_range w). apply int64_small. unfold epoch. lia. Qed.

Lemma attempt_past s now :
  lastTS s < now -> exists id s', attempt s now = Issued id s'.
Proof. intros. unfold attempt, issue. break; try lia; eauto. Qed.

Lemma attempt_WaitFor s now target limit err :
  attempt s now = WaitFor target limit err -> target = lastTS s /\ limit = 200.
Proof. unfold attempt, issue. intros. break; done. Qed.

End clocked_proofs.

(** ** Properties *)

(** C24: ids are unique and time-ordered.  However the goroutines interleave and
    however the wall clock moves (backward included), the ids issued by one
    generator form a strictly increasing sequence. *)
Theorem ids_strictly_increasing s nows :
  wf s -> Forall in_range nows -> StronglySorted Z.lt (run_attempts s nows).
Proof.
  revert s. induction nows as [|now nows IH]; intros s Hwf Hn; simpl; [constructor|].
  apply Forall_cons in Hn as [Hnow Hn].
  destruct (attempt s now) as [id s'| |] eqn:Ha; [|by apply IH..].
  pose proof (attempt_wf _ _ _ _ Hwf Hnow Ha) as Hwf'.
  destruct (attempt_above _ _ _ _ Hwf Hnow Ha) as [_ ->].
  constructor; [by apply IH|by apply run_attempts_above].
Qed.

Lemma ids_strictly_increasing_witness :
  run_attempts {| machineID := 7; lastTS := -1; sequence := 0 |} [5; 5; 4; 6; 6]
  = [21000192; 21000193; 25194496; 25194497]
  /\ StronglySorted Z.lt (run_attempts {| machineID := 7; lastTS := -1; sequence := 0 |} [5; 5; 4; 6; 6]).
Proof.
  split; [vm_compute; reflexivity|].
  apply ids_strictly_increasing.
  - unfold wf. vm_compute. intuition congruence.
  - repeat constructor; vm_compute; congruence.
Defined.

(** [Parse] inverts the packing of an issued id: it gives back the clock
    reading, the machine id and the sequence number; and the id is a
    non-negative int64, so it did not overflow. *)
Theorem Parse_issued s now id s' :
  wf s -> in_range now -> attempt s now = Issued id s' ->
  Parse id = {| Timestamp := now; MachineID := machineID s; Sequence := sequence s' |}
  /\ 0 <= id < 2 ^ 63.
Proof. apply attempt_parse. Qed.

Lemma Parse_issued_witness :
  Parse 21000193 = {| Timestamp := 5; MachineID := 7; Sequence := 1 |} /\ 0 <= 21000193 < 2 ^ 63.
Proof.
  apply (Parse_issued {| machineID := 7; lastTS := 5; sequence := 0 |} 5 21000193
           {| machineID := 7; lastTS := 5; sequence := 1 |});
    [unfold wf|unfold in_range|]; vm_compute; intuition congruence.
Defined.


(** Two generators with different machine ids never issue the same id,
    whatever their clocks read. *)
Theorem machines_disjoint s1 s2 nows1 nows2 id :
  wf s1 -> wf s2 -> Forall in_range nows1 -> Forall in_range nows2 ->
  id ∈ run_attempts s1 nows1 -> id ∈ run_attempts s2 nows2 ->
  machineID s1 = machineID s2.
Proof.
  intros H1 H2 Hn1 Hn2 Hi1 Hi2.
  pose proof (run_attempts_machine _ _ H1 Hn1) as HF1.
  pose proof (run_attempts_machine _ _ H2 Hn2) as HF2.
  rewrite Forall_forall in HF1, HF2. by rewrite <- (HF1 _ Hi1), (HF2 _ Hi2).
Qed.

Lemma machines_disjoint_witness :
  machineID {| machineID := 7; lastTS := -1; sequence := 0 |} = 7.
Proof.
  apply (machines_disjoint _ {| machineID := 7; lastTS := 3; sequence := 9 |} [5] [4; 5] 21000192).
  1,2: unfold wf; vm_compute; intuition congruence.
  1,2: repeat constructor; vm_compute; congruence.
  all: apply list_elem_of_In; vm_compute; tauto.
Defined.

(** [Next] terminates.  With a monotonic clock that obeys the runtime's
    laws and a wall clock that is not set back while the call runs, [Next]
    returns within two iterations of its loop and bounded waits: an id, or one
    of the clock errors with the generator unchanged. *)
Theorem Next_terminates {W : Type} `{!Clock W, !ClockLaws W, !SteadyWall W} s (w : W) :
  exists r s' w', Next 2 s w = Some (r, s', w')
  /\ match r with
     | Ok id => exists now, attempt s now = Issued id s'
     | Err e => s' = s /\ e <> ErrInvalidMachineID
     end.
Proof.
  cbn -[waitUntilNextMs].
  destruct (attempt s _) as [id s'|target limit err|err] eqn:Ha.
  - eexists _, _, _. split; [done|]. cbv beta iota. eauto.
  - destruct (attempt_WaitFor _ _ _ _ _ Ha) as [-> ->].
    destruct (waitUntilNextMs_ends (lastTS s) 200 (tick w)) as (b & w' & -> & Hb); [lia|].
    destruct b.
    + eexists _, _, _. split_and!; [done..|].
      unfold attempt, issue in Ha. by break.
    + destruct Hb as (w0 & Hle & Hlt); [done|].
      rewrite timestamp_exact in Hlt.
      destruct (attempt_past s (int64 (wall w' - epoch))) as (id & s' & Ha').
      { rewrite timestamp_exact. lia. }
      rewrite Ha'. eexists _, _, _. split; [done|]. cbv beta iota. eauto.
  - eexists _, _, _. split_and!; [done..|].
    unfold attempt, issue in Ha. by break.
Qed.

Lemma Next_terminates_witness :
  exists r s' w',
    Next 2 {| machineID := 1; lastTS := 100; sequence := 4095 |}
      {| sim_ms := epoch + 100; sim_ns := 0 |} = Some (r, s', w')
    /\ match r with
       | Ok id => exists now, attempt {| machineID := 1; lastTS := 100; sequence := 4095 |} now
                              = Issued id s'
       | Err e => s' = {| machineID := 1; lastTS := 100; sequence := 4095 |}
                  /\ e <> ErrInvalidMachineID
       end.
Proof. apply Next_terminates. Defined.

(** The same call, evaluated: the sequence is exhausted in millisecond 100, the
    generator waits and issues the first id of millisecond 101. *)
Example Next_waits :
  (fst <$> Next 2 {| machineID := 1; lastTS := 100; sequence := 4095 |}
     {| sim_ms := epoch + 100; sim_ns := 0 |})
  = Some (Ok (compose_id 101 1 0), {| machineID := 1; lastTS := 101; sequence := 0 |}).
Proof. vm_compute. reflexivity. Qed.
