(* ===== verification/RingBuffer.v ===== *)
(** Ring buffer (src/internal/ringbuffer/ringbuffer.go).

    Every method changes the buffer under the mutex, so a concurrent history is a
    sequence of the operations below; [step] runs one of them.  The callbacks a
    call has decided to run are part of its step; the code runs them after it
    has released the mutex, so callbacks of concurrent calls may overtake each
    other, and one that is replaced in between may be the new one.  The buffer is proved to
    refine a bounded FIFO queue ([Spec]) with edge-triggered water-mark
    callbacks.  Positions and counts are [nat]: they are never negative once
    the constructor has checked the configuration. *)

From stdpp Require Import base tactics list.
From Stdlib Require Import ZArith Lia.
From S2P Require Import Prelude.

Inductive Error := ErrInvalidCapacity | ErrInvalidHighWater.

(** The two named values of the integer type.  Under any other a full buffer
    would be written over without its oldest element being given up. *)
Inductive OverwriteStrategy := NoOverwrite | Overwrite.

#[export] Instance OverwriteStrategy_eq_dec : EqDecision OverwriteStrategy.
Proof. solve_decision. Defined.

Record Config := { cfg_Capacity : Z; cfg_Strategy : OverwriteStrategy; cfg_HighWaterMark : Z }.

Definition DefaultConfig : Config :=
  {| cfg_Capacity := 1024; cfg_Strategy := NoOverwrite; cfg_HighWaterMark := 0 |}.

Open Scope nat_scope.

Section ringbuffer.
(** [zero] is Go's zero value of the element type, [C] the type of callbacks. *)
Context {T C : Type} (zero : T) (noopCallback : C).

Record RingBuffer := {
  buf : list T;
  capacity : nat;
  readPos : nat;
  writePos : nat;
  count : nat;
  strategy : OverwriteStrategy;
  highWater : nat;
  highWaterAlarm : bool;
  onHighWater : C;
  onLowWater : C;
}.

#[local] Instance eta_RingBuffer : Eta RingBuffer := fun r =>
  {| buf := buf r; capacity := capacity r; readPos := readPos r; writePos := writePos r;
     count := count r; strategy := strategy r; highWater := highWater r;
     highWaterAlarm := highWaterAlarm r; onHighWater := onHighWater r;
     onLowWater := onLowWater r |}.

Definition NewRingBufferWithConfig (cfg : Config) : result Error RingBuffer :=
  if (cfg_Capacity cfg <=? 0)%Z then Err ErrInvalidCapacity
  else if ((cfg_HighWaterMark cfg <? 0) || (cfg_Capacity cfg <? cfg_HighWaterMark cfg))%Z%bool
  then Err ErrInvalidHighWater
  else Ok {| buf := replicate (Z.to_nat (cfg_Capacity cfg)) zero;
             capacity := Z.to_nat (cfg_Capacity cfg);
             readPos := 0; writePos := 0; count := 0;
             strategy := cfg_Strategy cfg;
             highWater := Z.to_nat (cfg_HighWaterMark cfg);
             highWaterAlarm := false;
             onHighWater := noopCallback; onLowWater := noopCallback |}.

Definition NewRingBuffer (cap : Z) : result Error RingBuffer :=
  NewRingBufferWithConfig
    {| cfg_Capacity := cap; cfg_Strategy := cfg_Strategy DefaultConfig;
       cfg_HighWaterMark := cfg_HighWaterMark DefaultConfig |}.

(** Returns the new state, [needHigh] and [needLow]. *)
Definition checkWaterMarkLocked (overwrote : bool) (rb : RingBuffer) : RingBuffer * bool * bool :=
  if highWater rb <=? 0 then (rb, false, false)
  else if (highWater rb <=? count rb) && negb (highWaterAlarm rb)
  then (rb <| highWaterAlarm := true |>, true, false)
  else if (count rb <? highWater rb) && highWaterAlarm rb && negb overwrote
  then (rb <| highWaterAlarm := false |>, false, true)
  else (rb, false, false).

(** The callbacks that run, in order. *)
Definition dispatchCallbacks (rb : RingBuffer) (needHigh needLow : bool) : list C :=
  (if needHigh then [onHighWater rb] else []) ++ (if needLow then [onLowWater rb] else []).

Definition SetHighWaterMark (mark : Z) (rb : RingBuffer) : RingBuffer * result Error unit * list C :=
  if ((mark <? 0) || (Z.of_nat (capacity rb) <? mark))%Z%bool
  then (rb, Err ErrInvalidHighWater, [])
  else
    let '(rb, needHigh, needLow) :=
      checkWaterMarkLocked false (rb <| highWater := Z.to_nat mark |>) in
    (rb, Ok tt, dispatchCallbacks rb needHigh needLow).

Definition OnHighWater (fn : option C) (rb : RingBuffer) : RingBuffer :=
  rb <| onHighWater := default noopCallback fn |>.

Definition OnLowWater (fn : option C) (rb : RingBuffer) : RingBuffer :=
  rb <| onLowWater := default noopCallback fn |>.

Definition Write (value : T) (rb : RingBuffer) : RingBuffer * bool * list C :=
  if bool_decide (strategy rb = NoOverwrite) && (count rb =? capacity rb)
  then (rb, false, [])
  else
    let '(rb, overwrote) :=
      if bool_decide (strategy rb = Overwrite) && (count rb =? capacity rb)
      then (rb <| buf := <[readPos rb := zero]> (buf rb) |>
               <| readPos := (readPos rb + 1) mod capacity rb |>
               <| count := count rb - 1 |>, true)
      else (rb, false) in
    let rb := rb <| buf := <[writePos rb := value]> (buf rb) |>
                 <| writePos := (writePos rb + 1) mod capacity rb |>
                 <| count := count rb + 1 |> in
    let '(rb, needHigh, needLow) := checkWaterMarkLocked overwrote rb in
    (rb, true, dispatchCallbacks rb needHigh needLow).

(** [rb.buf[i]]; the positions in use are always in range (see [inv]). *)
Definition buf_at (rb : RingBuffer) (i : nat) : T := nth i (buf rb) zero.

Definition Read (rb : RingBuffer) : RingBuffer * (T * bool) * list C :=
  if count rb =? 0 then (rb, (zero, false), [])
  else
    let value := buf_at rb (readPos rb) in
    let rb := rb <| buf := <[readPos rb := zero]> (buf rb) |>
                 <| readPos := (readPos rb + 1) mod capacity rb |>
                 <| count := count rb - 1 |> in
    let '(rb, needHigh, needLow) := checkWaterMarkLocked false rb in
    (rb, (value, true), dispatchCallbacks rb needHigh needLow).

Definition Peek (rb : RingBuffer) : T * bool :=
  if count rb =? 0 then (zero, false) else (buf_at rb (readPos rb), true).

Definition Len (rb : RingBuffer) : nat := count rb.
Definition Cap (rb : RingBuffer) : nat := capacity rb.
Definition IsFull (rb : RingBuffer) : bool := count rb =? capacity rb.
Definition IsEmpty (rb : RingBuffer) : bool := count rb =? 0.
Definition SetStrategy (s : OverwriteStrategy) (rb : RingBuffer) : RingBuffer :=
  rb <| strategy := s |>.
Definition GetStrategy (rb : RingBuffer) : OverwriteStrategy := strategy rb.

Definition Clear (rb : RingBuffer) : RingBuffer :=
  rb <| buf := (fun _ => zero) <$> buf rb |>
     <| readPos := 0 |> <| writePos := 0 |> <| count := 0 |> <| highWaterAlarm := false |>.

(** ** Histories *)

Inductive op :=
| OpWrite (v : T) | OpRead | OpPeek | OpLen | OpCap | OpIsFull | OpIsEmpty
| OpSetStrategy (s : OverwriteStrategy) | OpGetStrategy | OpClear
| OpSetHighWaterMark (mark : Z) | OpOnHighWater (fn : option C) | OpOnLowWater (fn : option C).

Inductive response :=
| RDone | RBool (b : bool) | RItem (x : T * bool) | RNat (n : nat)
| RStrategy (s : OverwriteStrategy) | RError (r : result Error unit).

Definition step (rb : RingBuffer) (o : op) : RingBuffer * response * list C :=
  match o with
  | OpWrite v => let '(rb', b, cbs) := Write v rb in (rb', RBool b, cbs)
  | OpRead => let '(rb', x, cbs) := Read rb in (rb', RItem x, cbs)
  | OpPeek => (rb, RItem (Peek rb), [])
  | OpLen => (rb, RNat (Len rb), [])
  | OpCap => (rb, RNat (Cap rb), [])
  | OpIsFull => (rb, RBool (IsFull rb), [])
  | OpIsEmpty => (rb, RBool (IsEmpty rb), [])
  | OpSetStrategy s => (SetStrategy s rb, RDone, [])
  | OpGetStrategy => (rb, RStrategy (GetStrategy rb), [])
  | OpClear => (Clear rb, RDone, [])
  | OpSetHighWaterMark m => let '(rb', r, cbs) := SetHighWaterMark m rb in (rb', RError r, cbs)
  | OpOnHighWater fn => (OnHighWater fn rb, RDone, [])
  | OpOnLowWater fn => (OnLowWater fn rb, RDone, [])
  end.

Fixpoint run (rb : RingBuffer) (os : list op) : list (response * list C) :=
  match os with
  | [] => []
  | o :: os => let '(rb', r, cbs) := step rb o in (r, cbs) :: run rb' os
  end.

(** ** Specification: a bounded FIFO queue

    [items] is the content, oldest first.  The water-mark alarm is level
    [raised]; a callback runs exactly when the level changes. *)

Record Spec := {
  items : list T; bound : nat; policy : OverwriteStrategy;
  mark : nat; raised : bool; high_cb : C; low_cb : C;
}.

#[local] Instance eta_Spec : Eta Spec := fun s =>
  {| items := items s; bound := bound s; policy := policy s; mark := mark s;
     raised := raised s; high_cb := high_cb s; low_cb := low_cb s |}.

Definition spec_init (cfg : Config) : Spec :=
  {| items := []; bound := Z.to_nat (cfg_Capacity cfg); policy := cfg_Strategy cfg;
     mark := Z.to_nat (cfg_HighWaterMark cfg); raised := false;
     high_cb := noopCallback; low_cb := noopCallback |}.

(** Re-evaluate the level; mark 0 switches the alarm off. *)
Definition spec_level (s : Spec) : Spec * list C :=
  if mark s =? 0 then (s, [])
  else
    let level := mark s <=? length (items s) in
    (s <| raised := level |>,
     if bool_decide (level = raised s) then []
     else if level then [high_cb s] else [low_cb s]).

Definition spec_push (v : T) (s : Spec) : option (list T) :=
  if length (items s) <? bound s then Some (items s ++ [v])
  else match policy s with
       | NoOverwrite => None
       | Overwrite => Some (tail (items s) ++ [v])
       end.

Definition spec_step (s : Spec) (o : op) : Spec * response * list C :=
  match o with
  | OpWrite v =>
      match spec_push v s with
      | None => (s, RBool false, [])
      | Some q => let '(s', cbs) := spec_level (s <| items := q |>) in (s', RBool true, cbs)
      end
  | OpRead =>
      match items s with
      | [] => (s, RItem (zero, false), [])
      | x :: q => let '(s', cbs) := spec_level (s <| items := q |>) in (s', RItem (x, true), cbs)
      end
  | OpPeek => (s, RItem (match items s with [] => (zero, false) | x :: _ => (x, true) end), [])
  | OpLen => (s, RNat (length (items s)), [])
  | OpCap => (s, RNat (bound s), [])
  | OpIsFull => (s, RBool (length (items s) =? bound s), [])
  | OpIsEmpty => (s, RBool (length (items s) =? 0), [])
  | OpSetStrategy p => (s <| policy := p |>, RDone, [])
  | OpGetStrategy => (s, RStrategy (policy s), [])
  | OpClear => (s <| items := [] |> <| raised := false |>, RDone, [])
  | OpSetHighWaterMark m =>
      if ((m <? 0) || (Z.of_nat (bound s) <? m))%Z%bool
      then (s, RError (Err ErrInvalidHighWater), [])
      else let '(s', cbs) := spec_level (s <| mark := Z.to_nat m |>) in (s', RError (Ok tt), cbs)
  | OpOnHighWater fn => (s <| high_cb := default noopCallback fn |>, RDone, [])
  | OpOnLowWater fn => (s <| low_cb := default noopCallback fn |>, RDone, [])
  end.

Fixpoint spec_run (s : Spec) (os : list op) : list (response * list C) :=
  match os with
  | [] => []
  | o :: os => let '(s', r, cbs) := spec_step s o in (r, cbs) :: spec_run s' os
  end.

(** ** Representation

    Slot [i] of the queue lives at [(readPos + i) mod capacity]. *)

Definition slot (rb : RingBuffer) (i : nat) : nat := (readPos rb + i) mod capacity rb.

Definition contents (rb : RingBuffer) : list T :=
  (fun i => buf_at rb (slot rb i)) <$> seq 0 (count rb).

Definition abs (rb : RingBuffer) : Spec :=
  {| items := contents rb; bound := capacity rb; policy := strategy rb;
     mark := highWater rb; raised := highWaterAlarm rb;
     high_cb := onHighWater rb; low_cb := onLowWater rb |}.

(** The representation invariant; [inv_free] says that a freed slot holds the
    zero value, so the buffer keeps no reference to a consumed element. *)
Record inv_core (rb : RingBuffer) : Prop := {
  inv_len : length (buf rb) = capacity rb;
  inv_read : readPos rb < capacity rb;
  inv_count : count rb <= capacity rb;
  inv_write : writePos rb = slot rb (count rb);
  inv_mark : highWater rb <= capacity rb;
  inv_free i : count rb <= i < capacity rb -> buf_at rb (slot rb i) = zero;
}.

Definition inv (rb : RingBuffer) : Prop :=
  inv_core rb /\ (0 < highWater rb -> highWaterAlarm rb = (highWater rb <=? count rb)).

Lemma slot_lt rb i : readPos rb < capacity rb -> slot rb i < capacity rb.
Proof. intros. apply Nat.mod_upper_bound. lia. Qed.

Lemma slot_inj rb i j :
  i < capacity rb -> j < capacity rb -> slot rb i = slot rb j -> i = j.
Proof.
  unfold slot. intros Hi Hj Heq.
  assert (capacity rb <> 0) as H0 by lia.
  pose proof (Nat.div_mod (readPos rb + i) _ H0) as Hd1.
  pose proof (Nat.div_mod (readPos rb + j) _ H0) as Hd2.
  rewrite Heq in Hd1.
  destruct (Nat.lt_trichotomy ((readPos rb + i) / capacity rb) ((readPos rb + j) / capacity rb))
    as [|[Hq|]]; [nia|rewrite Hq in Hd1; lia|nia].
Qed.

Lemma slot_full rb : readPos rb < capacity rb -> slot rb (capacity rb) = readPos rb.
Proof.
  intros. unfold slot. rewrite <- Nat.Div0.add_mod_idemp_r, Nat.Div0.mod_same, Nat.add_0_r.
  by apply Nat.mod_small.
Qed.

Lemma slot_0 rb : readPos rb < capacity rb -> slot rb 0 = readPos rb.
Proof. intros. unfold slot. rewrite Nat.add_0_r. by apply Nat.mod_small. Qed.

Lemma length_contents rb : length (contents rb) = count rb.
Proof. unfold contents. by rewrite length_fmap, length_seq. Qed.

Lemma nth_insert (l : list T) i j x :
  i < length l -> nth j (<[i := x]> l) zero = if decide (i = j) then x else nth j l zero.
Proof.
  intros. rewrite !nth_lookup. case_decide; subst.
  - by rewrite list_lookup_insert_eq.
  - by rewrite list_lookup_insert_ne.
Qed.

(** *** The two elementary moves: drop the oldest element, add a newest one. *)

Definition pop (rb : RingBuffer) : RingBuffer :=
  rb <| buf := <[readPos rb := zero]> (buf rb) |>
     <| readPos := (readPos rb + 1) mod capacity rb |>
     <| count := count rb - 1 |>.

Definition push (value : T) (rb : RingBuffer) : RingBuffer :=
  rb <| buf := <[writePos rb := value]> (buf rb) |>
     <| writePos := (writePos rb + 1) mod capacity rb |>
     <| count := count rb + 1 |>.

Lemma slot_pop rb i : slot (pop rb) i = slot rb (S i).
Proof.
  unfold slot, pop; simpl. rewrite Nat.Div0.add_mod_idemp_l. f_equal. lia.
Qed.

Lemma pop_core rb :
  inv_core rb -> 0 < count rb ->
  inv_core (pop rb) /\ contents rb = buf_at rb (readPos rb) :: contents (pop rb).
Proof.
  intros [Hl Hr Hc Hw Hm Hf] Hpos.
  assert (forall i, S i < capacity rb -> buf_at (pop rb) (slot (pop rb) i)
                                         = buf_at rb (slot rb (S i))) as Hbuf.
  { intros i Hi. rewrite slot_pop. unfold buf_at at 1; simpl.
    rewrite nth_insert by lia. rewrite decide_False; [done|].
    rewrite <- slot_0 by done. intros ?%slot_inj; lia. }
  split; [constructor; rewrite ?slot_pop; simpl|].
  - by rewrite length_insert.
  - apply Nat.mod_upper_bound. lia.
  - lia.
  - by replace (S (count rb - 1)) with (count rb) by lia.
  - done.
  - intros i Hi. destruct (decide (S i = capacity rb)) as [He|].
    + rewrite slot_pop, He, slot_full by done. unfold buf_at; simpl.
      rewrite nth_insert by lia. by rewrite decide_True.
    + rewrite Hbuf by lia. apply Hf. lia.
  - unfold contents. destruct (count rb) as [|n] eqn:Hn; [lia|].
    cbn [seq fmap list_fmap]. rewrite slot_0 by done. f_equal.
    rewrite <- fmap_S_seq, <- list_fmap_compose.
    replace (count (pop rb)) with n by (simpl; lia).
    apply list_fmap_ext. intros k x [-> Hx]%lookup_seq. symmetry. apply Hbuf. simpl in *. lia.
Qed.

Lemma push_core v rb :
  inv_core rb -> count rb < capacity rb ->
  inv_core (push v rb) /\ contents (push v rb) = contents rb ++ [v].
Proof.
  intros [Hl Hr Hc Hw Hm Hf] Hlt.
  assert (forall i, i < capacity rb -> i <> count rb ->
            buf_at (push v rb) (slot rb i) = buf_at rb (slot rb i)) as Hbuf.
  { intros i Hi Hne. unfold buf_at at 1; simpl.
    rewrite nth_insert by (rewrite Hw, Hl; by apply slot_lt).
    rewrite decide_False; [done|]. rewrite Hw. intros ?%slot_inj; lia. }
  split; [constructor; simpl|].
  - by rewrite length_insert.
  - done.
  - lia.
  - rewrite Hw. unfold slot; simpl. rewrite Nat.Div0.add_mod_idemp_l. f_equal. lia.
  - done.
  - intros i Hi. change (slot (push v rb) i) with (slot rb i).
    rewrite Hbuf by lia. apply Hf. lia.
  - unfold contents; simpl. rewrite Nat.add_1_r, seq_S, fmap_app. f_equal.
    + apply list_fmap_ext. intros k x [-> Hx]%lookup_seq.
      change (slot (push v rb) (0 + k)) with (slot rb (0 + k)). apply Hbuf; lia.
    + simpl. f_equal. change (slot (push v rb) (count rb)) with (slot rb (count rb)).
      rewrite <- Hw. unfold buf_at; simpl.
      rewrite nth_insert by (rewrite Hw, Hl; by apply slot_lt). by rewrite decide_True.
Qed.

(** *** Water marks and the refinement of one operation *)

Lemma check_refines overwrote rb rb' h l :
  inv_core rb -> (overwrote = true -> highWater rb <= count rb) ->
  checkWaterMarkLocked overwrote rb = (rb', h, l) ->
  inv rb' /\ spec_level (abs rb) = (abs rb', dispatchCallbacks rb' h l).
Proof.
  intros Hcore Hov. unfold checkWaterMarkLocked, spec_level, inv. simpl.
  rewrite length_contents.
  destruct (Nat.leb_spec (highWater rb) 0) as [H0|H0].
  { intros [= <- <- <-]. rewrite (proj2 (Nat.eqb_eq _ 0)) by lia.
    split_and!; [done|lia|done]. }
  rewrite (proj2 (Nat.eqb_neq _ 0)) by lia.
  destruct (Nat.leb_spec (highWater rb) (count rb)), (Nat.ltb_spec (count rb) (highWater rb));
    try lia; destruct (highWaterAlarm rb) eqn:Ha; destruct overwrote; simpl;
    intros [= <- <- <-]; try (specialize (Hov eq_refl); lia);
    (split; [split; [by destruct Hcore; constructor|]|]);
    unfold abs, contents, dispatchCallbacks; simpl; rewrite ?Ha; try done;
    intros _; rewrite ?Nat.leb_gt, ?Nat.leb_le; try done;
    symmetry; rewrite ?Nat.leb_gt, ?Nat.leb_le; lia.
Qed.

Lemma contents_nil rb : count rb = 0 -> contents rb = [].
Proof. unfold contents. by intros ->. Qed.

(** Recognise the specification state of an updated buffer. *)
Ltac fold_level rb0 :=
  match goal with |- context [spec_level ?x] => change x with (abs rb0) end.

Lemma settle overwrote rb :
  inv_core rb -> (overwrote = true -> highWater rb <= count rb) ->
  exists rb' h l, checkWaterMarkLocked overwrote rb = (rb', h, l)
  /\ inv rb' /\ spec_level (abs rb) = (abs rb', dispatchCallbacks rb' h l).
Proof.
  intros Hcore Hov. destruct (checkWaterMarkLocked overwrote rb) as [[rb' h] l] eqn:Hck.
  eexists _, _, _. split; [done|]. eauto using check_refines.
Qed.

Lemma Write_refines v rb rb' b cbs :
  inv rb -> Write v rb = (rb', b, cbs) ->
  inv rb' /\ spec_step (abs rb) (OpWrite v) = (abs rb', RBool b, cbs).
Proof.
  intros [Hcore Ha]. unfold Write. simpl. unfold spec_push; simpl. rewrite length_contents.
  pose proof (inv_count _ Hcore) as Hle. pose proof (inv_read _ Hcore) as Hr.
  destruct (Nat.eqb_spec (count rb) (capacity rb)) as [He|He];
    destruct (Nat.ltb_spec (count rb) (capacity rb)); try lia.
  - destruct (strategy rb) eqn:Hst; simpl; [by intros [= <- <- <-]|].
    destruct (pop_core rb Hcore) as [Hpop Hcons]; [lia|].
    destruct (push_core v (pop rb) Hpop) as [Hpush Happ]; [simpl; lia|].
    destruct (settle true _ Hpush) as (rb1 & h1 & l1 & Hck & Hinv & Hlev).
    { intros _. pose proof (inv_mark _ Hcore). simpl. lia. }
    change (checkWaterMarkLocked true _) with (checkWaterMarkLocked true (push v (pop rb))).
    rewrite Hck, Hcons; simpl. intros [= <- <- <-]. rewrite <- Happ.
    fold_level (push v (pop rb)).
    by rewrite Hlev.
  - rewrite !andb_false_r.
    destruct (push_core v rb Hcore) as [Hpush Happ]; [lia|].
    destruct (settle false _ Hpush) as (rb1 & h1 & l1 & Hck & Hinv & Hlev); [done|].
    change (checkWaterMarkLocked false _) with (checkWaterMarkLocked false (push v rb)).
    rewrite Hck. intros [= <- <- <-]. rewrite <- Happ.
    fold_level (push v rb).
    by rewrite Hlev.
Qed.

Lemma Read_refines rb rb' x cbs :
  inv rb -> Read rb = (rb', x, cbs) ->
  inv rb' /\ spec_step (abs rb) OpRead = (abs rb', RItem x, cbs).
Proof.
  intros [Hcore Ha]. unfold Read. simpl.
  destruct (Nat.eqb_spec (count rb) 0) as [He|He].
  - intros [= <- <- <-]. by rewrite contents_nil.
  - destruct (pop_core rb Hcore) as [Hpop Hcons]; [lia|].
    destruct (settle false _ Hpop) as (rb1 & h1 & l1 & Hck & Hinv & Hlev); [done|].
    change (checkWaterMarkLocked false _) with (checkWaterMarkLocked false (pop rb)).
    rewrite Hck, Hcons. intros [= <- <- <-].
    fold_level (pop rb).
    by rewrite Hlev.
Qed.

Lemma SetHighWaterMark_refines m rb rb' r cbs :
  inv rb -> SetHighWaterMark m rb = (rb', r, cbs) ->
  inv rb' /\ spec_step (abs rb) (OpSetHighWaterMark m) = (abs rb', RError r, cbs).
Proof.
  intros [Hcore Ha]. unfold SetHighWaterMark. simpl.
  destruct ((m <? 0)%Z || (Z.of_nat (capacity rb) <? m)%Z) eqn:Hm.
  - by intros [= <- <- <-].
  - bools.
    assert (inv_core (rb <| highWater := Z.to_nat m |>)) as Hcore'.
    { destruct Hcore. constructor; simpl; try done. lia. }
    destruct (settle false _ Hcore') as (rb1 & h1 & l1 & Hck & Hinv & Hlev); [done|].
    rewrite Hck. intros [= <- <- <-].
    fold_level (rb <| highWater := Z.to_nat m |>).
    by rewrite Hlev.
Qed.

Lemma Clear_inv rb : inv rb -> inv (Clear rb).
Proof.
  intros [[Hl Hr Hc Hw Hm Hf] Ha]. split; [constructor; simpl|].
  - by rewrite length_fmap.
  - lia.
  - lia.
  - unfold slot; simpl. by rewrite Nat.Div0.mod_0_l.
  - done.
  - intros i Hi. unfold buf_at; simpl. rewrite nth_lookup, list_lookup_fmap.
    by destruct (buf rb !! _).
  - simpl. intros. symmetry. apply Nat.leb_gt. lia.
Qed.

Lemma Peek_contents rb :
  inv rb -> Peek rb = match contents rb with [] => (zero, false) | x :: _ => (x, true) end.
Proof.
  intros [Hcore Ha]. unfold Peek. destruct (Nat.eqb_spec (count rb) 0) as [He|He].
  - by rewrite contents_nil.
  - destruct (pop_core rb Hcore) as [_ ->]; [lia|done].
Qed.

Lemma step_refines rb o rb' r cbs :
  inv rb -> step rb o = (rb', r, cbs) ->
  inv rb' /\ spec_step (abs rb) o = (abs rb', r, cbs).
Proof.
  intros Hinv. destruct o; unfold step.
  - destruct (Write _ _) as [[? ?] ?] eqn:E. intros [= <- <- <-]. eauto using Write_refines.
  - destruct (Read _) as [[? ?] ?] eqn:E. intros [= <- <- <-]. eauto using Read_refines.
  - intros [= <- <- <-]. split; [done|]. simpl. by rewrite Peek_contents.
  - intros [= <- <- <-]. split; [done|]. simpl. by rewrite length_contents.
  - by intros [= <- <- <-].
  - intros [= <- <- <-]. split; [done|]. simpl. by rewrite length_contents.
  - intros [= <- <- <-]. split; [done|]. simpl. by rewrite length_contents.
  - intros [= <- <- <-]. destruct Hinv as [[] ?]. by split; [constructor|].
  - by intros [= <- <- <-].
  - intros [= <- <- <-]. split; [by apply Clear_inv|done].
  - destruct (SetHighWaterMark _ _) as [[? ?] ?] eqn:E. intros [= <- <- <-].
    eauto using SetHighWaterMark_refines.
  - intros [= <- <- <-]. destruct Hinv as [[] ?]. by split; [split; [constructor|]|].
  - intros [= <- <- <-]. destruct Hinv as [[] ?]. by split; [split; [constructor|]|].
Qed.

Lemma run_refines rb os : inv rb -> run rb os = spec_run (abs rb) os.
Proof.
  revert rb. induction os as [|o os IH]; intros rb Hinv; [done|]. simpl.
  destruct (step rb o) as [[rb' r] cbs] eqn:Hs.
  destruct (step_refines _ _ _ _ _ Hinv Hs) as [Hinv' ->]. by rewrite IH.
Qed.

Lemma New_ringbuffer_inv cfg rb :
  NewRingBufferWithConfig cfg = Ok rb -> inv rb /\ abs rb = spec_init cfg.
Proof.
  unfold NewRingBufferWithConfig. intros H. break.
  split; [split; [constructor; simpl|]|done].
  - by rewrite length_replicate.
  - lia.
  - lia.
  - unfold slot; simpl. by rewrite Nat.Div0.mod_0_l.
  - lia.
  - intros i Hi. unfold buf_at; simpl. rewrite nth_lookup.
    destruct (replicate _ _ !! _) as [y|] eqn:E; [|done].
    by apply lookup_replicate in E as [-> _].
  - simpl. intros. symmetry. apply Nat.leb_gt. lia.
Qed.

(** ** Properties *)

(** C18: the ring buffer refines a bounded FIFO queue.  From construction, every
    history of operations returns exactly what the bounded queue returns, drops
    the oldest element only under the Overwrite strategy, and runs the water
    mark callbacks exactly at the level's edges. *)
Theorem ringbuffer_refines_queue cfg rb os :
  NewRingBufferWithConfig cfg = Ok rb -> run rb os = spec_run (spec_init cfg) os.
Proof. intros [Hinv <-]%New_ringbuffer_inv. by apply run_refines. Qed.

(** Reachable states satisfy the invariant. *)
Fixpoint exec (rb : RingBuffer) (os : list op) : RingBuffer :=
  match os with
  | [] => rb
  | o :: os => exec (fst (fst (step rb o))) os
  end.

Lemma exec_ringbuffer_inv rb os : inv rb -> inv (exec rb os).
Proof.
  revert rb. induction os as [|o os IH]; intros rb Hinv; [done|]. simpl.
  destruct (step rb o) as [[rb' r] cbs] eqn:Hs. apply IH.
  by destruct (step_refines _ _ _ _ _ Hinv Hs).
Qed.

(** C38: the buffer never exceeds its capacity, keeps its indices in range and
    retains no consumed or overwritten element: in every reachable state each
    slot outside the live window holds the zero value. *)
Theorem ringbuffer_bounds cfg rb os i :
  NewRingBufferWithConfig cfg = Ok rb ->
  let rb' := exec rb os in
  count rb' <= capacity rb' /\ readPos rb' < capacity rb' /\ writePos rb' < capacity rb'
  /\ length (buf rb') = capacity rb'
  /\ (count rb' <= i < capacity rb' -> buf_at rb' ((readPos rb' + i) mod capacity rb') = zero).
Proof.
  intros [Hinv _]%New_ringbuffer_inv. cbv zeta.
  destruct (exec_ringbuffer_inv rb os Hinv) as [[Hl Hr Hc Hw Hm Hf] _].
  split_and!; try done. rewrite Hw. by apply slot_lt. apply Hf.
Qed.

End ringbuffer.

Definition demo_cfg : Config :=
  {| cfg_Capacity := 2; cfg_Strategy := Overwrite; cfg_HighWaterMark := 2 |}.

Definition demo_ops : list (@op nat nat) :=
  [OpOnHighWater (Some 1); OpOnLowWater (Some 2);
   OpWrite 10; OpWrite 11; OpWrite 12; OpRead; OpRead; OpRead].

Definition demo_rb : @RingBuffer nat nat :=
  {| buf := [0; 0]; capacity := 2; readPos := 0; writePos := 0; count := 0;
     strategy := Overwrite; highWater := 2; highWaterAlarm := false;
     onHighWater := 0; onLowWater := 0 |}.

Lemma ringbuffer_refines_queue_witness :
  NewRingBufferWithConfig 0 0 demo_cfg = Ok demo_rb
  /\ run 0 0 demo_rb demo_ops = spec_run 0 0 (spec_init 0 demo_cfg) demo_ops
  /\ run 0 0 demo_rb demo_ops
     = [(RDone, []); (RDone, []); (RBool true, []); (RBool true, [1]); (RBool true, []);
        (RItem (11, true), [2]); (RItem (12, true), []); (RItem (0, false), [])].
Proof.
  split_and!; [reflexivity| |vm_compute; reflexivity].
  apply ringbuffer_refines_queue. reflexivity.
Defined.

Lemma ringbuffer_bounds_witness :
  let rb' := exec 0 0 demo_rb demo_ops in
  count rb' <= capacity rb' /\ readPos rb' < capacity rb' /\ writePos rb' < capacity rb'
  /\ length (buf rb') = capacity rb'
  /\ (count rb' <= 1 < capacity rb' -> buf_at 0 rb' ((readPos rb' + 1) mod capacity rb') = 0).
Proof. apply (ringbuffer_bounds 0 0 demo_cfg). reflexivity. Defined.
