(* ===== verification/Semaphore.v ===== *)
(** Counting semaphore (src/internal/semaphore/semaphore.go).

    Every operation is a critical section under the mutex, the timer callback
    of a timed [Acquire] included, so a concurrent execution is a sequence of
    the calls below.  A waiter is the number of its allocation; [sent] records
    the values sent on the waiters' channels, in order.  A queued [Acquire]
    returns the value sent to its waiter. *)

From stdpp Require Import base tactics list sets sorting.
From Stdlib Require Import ZArith Lia.
From S2P Require Import Prelude.

Inductive Error := ErrInvalidPermits | ErrNegativePermits | ErrInvalidDelta.

Record Semaphore := {
  held : Z;
  totalPermits : Z;
  fair : bool;
  waiters : list nat;
  sent : list (nat * bool);
  timers : list nat;
  allocated : nat;
}.

#[export] Instance eta_Semaphore : Eta Semaphore := fun s =>
  {| held := held s; totalPermits := totalPermits s; fair := fair s; waiters := waiters s;
     sent := sent s; timers := timers s; allocated := allocated s |}.

Definition New (permits : Z) (isFair : bool) : result Error Semaphore :=
  if permits <? 0 then Err ErrInvalidPermits
  else Ok {| held := 0; totalPermits := permits; fair := isFair; waiters := []; sent := [];
             timers := []; allocated := 0 |}.

Definition available (s : Semaphore) : Z :=
  if totalPermits s <=? held s then 0 else totalPermits s - held s.

(** The test both [Acquire] and [TryAcquire] start with. *)
Definition can_take (s : Semaphore) : bool :=
  (0 <? available s) && (negb (fair s) || bool_decide (waiters s = [])).

Inductive acquired := Immediate | Queued (w : nat).

(** [Acquire] up to the point where it blocks on its channel: either a permit
    is taken, or a fresh waiter is queued (with a timer when [timeout > 0]). *)
Definition Acquire (timeout : Z) (s : Semaphore) : Semaphore * acquired :=
  if can_take s then (s <| held := held s + 1 |>, Immediate)
  else
    let w := allocated s in
    let s := s <| allocated := S w |> <| waiters := waiters s ++ [w] |> in
    ((if 0 <? timeout then s <| timers := timers s ++ [w] |> else s), Queued w).

(** The callback of [time.AfterFunc] for waiter [w]. *)
Definition timer_callback (w : nat) (s : Semaphore) : Semaphore :=
  match remove_first w (waiters s) with
  | Some ws => s <| waiters := ws |> <| sent := sent s ++ [(w, false)] |>
  | None => s
  end.

Fixpoint dispatch_loop (ws : list nat) (s : Semaphore) : Semaphore :=
  match ws with
  | [] => s
  | w :: ws =>
      if 0 <? available s
      then dispatch_loop ws (s <| waiters := ws |> <| held := held s + 1 |>
                               <| sent := sent s ++ [(w, true)] |>)
      else s
  end.

Definition dispatchWaiters (s : Semaphore) : Semaphore := dispatch_loop (waiters s) s.

Definition Release (s : Semaphore) : Semaphore :=
  if held s <=? 0 then s else dispatchWaiters (s <| held := held s - 1 |>).

Definition TryAcquire (s : Semaphore) : Semaphore * bool :=
  if can_take s then (s <| held := held s + 1 |>, true) else (s, false).

Definition IncreasePermits (delta : Z) (s : Semaphore) : Semaphore * result Error unit :=
  if delta <=? 0 then (s, Err ErrInvalidDelta)
  else (dispatchWaiters (s <| totalPermits := int64 (totalPermits s + delta) |>), Ok tt).

Definition DecreasePermits (delta : Z) (s : Semaphore) : Semaphore * result Error unit :=
  if delta <=? 0 then (s, Err ErrInvalidDelta)
  else if int64 (totalPermits s - delta) <? 0 then (s, Err ErrNegativePermits)
  else (s <| totalPermits := int64 (totalPermits s - delta) |>, Ok tt).

Definition AvailablePermits (s : Semaphore) : Z := available s.
Definition TotalPermits (s : Semaphore) : Z := totalPermits s.
Definition QueueLength (s : Semaphore) : nat := length (waiters s).
Definition IsFair (s : Semaphore) : bool := fair s.

(** ** Executions *)

Inductive call :=
| CallAcquire (timeout : Z)
| TimerFires (w : nat)
| CallRelease
| CallTryAcquire
| CallIncrease (delta : Z)
| CallDecrease (delta : Z)
| CallAvailable
| CallQueueLength.

Inductive reply :=
| RDone | RAcquired (a : acquired) | RBool (b : bool) | RInt (z : Z)
| RErr (r : result Error unit).

(** A timer fires only for a waiter that armed one. *)
Definition step (s : Semaphore) (c : call) : Semaphore * reply :=
  match c with
  | CallAcquire t => let '(s', a) := Acquire t s in (s', RAcquired a)
  | TimerFires w => (if decide (w ∈ timers s) then timer_callback w s else s, RDone)
  | CallRelease => (Release s, RDone)
  | CallTryAcquire => let '(s', b) := TryAcquire s in (s', RBool b)
  | CallIncrease d => let '(s', r) := IncreasePermits d s in (s', RErr r)
  | CallDecrease d => let '(s', r) := DecreasePermits d s in (s', RErr r)
  | CallAvailable => (s, RInt (AvailablePermits s))
  | CallQueueLength => (s, RInt (Z.of_nat (QueueLength s)))
  end.

Fixpoint exec (s : Semaphore) (cs : list call) : Semaphore * list reply :=
  match cs with
  | [] => (s, [])
  | c :: cs =>
      let '(s', r) := step s c in
      let '(s'', rs) := exec s' cs in
      (s'', r :: rs)
  end.

(** Arguments are int64 values, and no [IncreasePermits] overflows the total. *)
Definition fits (s : Semaphore) (c : call) : bool :=
  match c with
  | CallIncrease d => totalPermits s + d <? 2 ^ 63
  | CallDecrease d => d <? 2 ^ 63
  | _ => true
  end.

Fixpoint all_fit (s : Semaphore) (cs : list call) : bool :=
  match cs with
  | [] => true
  | c :: cs => fits s c && all_fit (fst (step s c)) cs
  end.

(** ** Invariant *)

Definition granted (s : Semaphore) : list nat := (filter (fun p => snd p = true) (sent s)).*1.

(** [inv_no_lost_wakeup]: nobody waits while a permit is available.
    [inv_fifo]: the granted waiters, in order of grant, followed by the waiting
    ones, are in order of arrival.  [inv_once]: a waiter is queued or was sent
    one value, never both and never two. *)
Record inv (s : Semaphore) : Prop := {
  inv_held : 0 <= held s;
  inv_total : 0 <= totalPermits s < 2 ^ 63;
  inv_no_lost_wakeup : waiters s <> [] -> available s = 0;
  inv_fifo : StronglySorted lt (granted s ++ waiters s);
  inv_once : NoDup ((sent s).*1 ++ waiters s);
  inv_alloc w : w ∈ (sent s).*1 ++ waiters s <-> (w < allocated s)%nat;
}.

Lemma available_pos s : 0 < available s <-> held s < totalPermits s.
Proof. unfold available. case_match; bools; lia. Qed.

Lemma available_zero s : available s = 0 <-> totalPermits s <= held s.
Proof. unfold available. case_match; bools; lia. Qed.

Lemma granted_snoc_true s w :
  (filter (fun p : nat * bool => snd p = true) (sent s ++ [(w, true)])).*1 = granted s ++ [w].
Proof. unfold granted. by rewrite filter_app, fmap_app. Qed.

Lemma granted_snoc_false s w :
  (filter (fun p : nat * bool => snd p = true) (sent s ++ [(w, false)])).*1 = granted s.
Proof. unfold granted. by rewrite filter_app, app_nil_r. Qed.

(** With the invariant, being first in line is automatic: the fairness flag
    does not matter. *)
Lemma can_take_available s : inv s -> can_take s = (0 <? available s).
Proof.
  intros Hinv. unfold can_take. destruct (0 <? available s) eqn:H; [|done]. bools. simpl.
  rewrite bool_decide_true; [apply orb_true_r|].
  destruct (waiters s) eqn:Hw; [done|].
  pose proof (inv_no_lost_wakeup _ Hinv) as Hn. rewrite Hw in Hn.
  specialize (Hn ltac:(done)). lia.
Qed.

(** *** The dispatch loop *)

(** The part of the invariant that holds inside the loop. *)
Record inv_loop (s : Semaphore) : Prop := {
  loop_held : 0 <= held s;
  loop_total : 0 <= totalPermits s < 2 ^ 63;
  loop_fifo : StronglySorted lt (granted s ++ waiters s);
  loop_once : NoDup ((sent s).*1 ++ waiters s);
  loop_alloc w : w ∈ (sent s).*1 ++ waiters s <-> (w < allocated s)%nat;
}.

Lemma inv_inv_loop s : inv s -> inv_loop s.
Proof. intros []. by constructor. Qed.

Lemma loop_grant w ws s :
  inv_loop s -> waiters s = w :: ws ->
  inv_loop (s <| waiters := ws |> <| held := held s + 1 |> <| sent := sent s ++ [(w, true)] |>).
Proof.
  intros [Hh Htot Hf Ho Ha] Hw. rewrite Hw in *. constructor; simpl.
  - lia.
  - done.
  - unfold granted; simpl. rewrite granted_snoc_true. by rewrite <- app_assoc.
  - rewrite fmap_app, <- app_assoc. done.
  - intros v. rewrite fmap_app, <- app_assoc. apply Ha.
Qed.

Lemma dispatch_loop_inv ws s :
  inv_loop s -> waiters s = ws ->
  let s' := dispatch_loop ws s in
  inv s' /\ totalPermits s' = totalPermits s /\ fair s' = fair s /\ timers s' = timers s
  /\ allocated s' = allocated s
  /\ exists n, held s' = held s + Z.of_nat n /\ waiters s' = drop n ws
     /\ sent s' = sent s ++ ((fun w => (w, true)) <$> take n ws)
     /\ (n <= length ws)%nat /\ ((0 < n)%nat -> held s' <= totalPermits s').
Proof.
  revert s. induction ws as [|w ws IH]; intros s Hl Hw; simpl.
  { split_and!; try done; [|exists 0%nat; simpl; rewrite app_nil_r; split_and!; (done || lia)].
    destruct Hl. constructor; try done. }
  destruct (0 <? available s) eqn:Hav; bools.
  - destruct (IH _ (loop_grant _ _ _ Hl Hw)) as (Hi & Ht & Hf & Htm & Hal & n & Hh & Hws & Hs & Hn & Hle);
      [done|]. simpl in *.
    split_and!; try done. exists (S n). simpl. split_and!; try done.
    + lia.
    + rewrite Hs, <- app_assoc. done.
    + lia.
    + intros _. apply available_pos in Hav. destruct n; [lia|apply Hle; lia].
  - split_and!; try done; [|exists 0%nat; simpl; rewrite app_nil_r; split_and!; (done || lia)].
    destruct Hl. constructor; try done. intros _.
    apply available_zero. destruct (Z.le_gt_cases (totalPermits s) (held s)); [done|].
    assert (0 < available s) by (apply available_pos; lia). lia.
Qed.

Lemma dispatchWaiters_inv s : inv_loop s -> inv (dispatchWaiters s).
Proof. intros Hl. by destruct (dispatch_loop_inv _ _ Hl eq_refl). Qed.

(** *** The operations preserve the invariant *)

Lemma take_inv s : inv s -> can_take s = true -> inv (s <| held := held s + 1 |>).
Proof.
  intros Hinv Ht. rewrite can_take_available in Ht by done. bools.
  destruct Hinv as [Hh Htot Hn Hf Ho Ha]. constructor; simpl; try done; [lia|].
  intros Hw. specialize (Hn Hw). lia.
Qed.

Lemma granted_sent s w : w ∈ granted s -> w ∈ (sent s).*1.
Proof.
  unfold granted. rewrite !list_elem_of_fmap.
  intros (p & -> & [_ Hp]%list_elem_of_filter). eauto.
Qed.

Lemma enqueue_inv s ts :
  inv s -> can_take s = false ->
  inv (s <| allocated := S (allocated s) |> <| waiters := waiters s ++ [allocated s] |>
         <| timers := ts |>).
Proof.
  intros Hinv Ht. rewrite can_take_available in Ht by done. bools.
  destruct Hinv as [Hh Htot Hn Hf Ho Ha]. constructor; simpl; try done.
  - intros _. pose proof (available_pos s). apply available_zero.
    change (totalPermits s <= held s). lia.
  - change (StronglySorted lt (granted s ++ waiters s ++ [allocated s])).
    rewrite app_assoc. apply StronglySorted_app. split_and!; [|done|by repeat constructor].
    intros x y Hx ->%list_elem_of_singleton. apply Ha.
    apply elem_of_app. apply elem_of_app in Hx as [?%granted_sent|?]; auto.
  - rewrite app_assoc. apply NoDup_app. split_and!; [done| |apply NoDup_singleton].
    intros x Hx%Ha ->%list_elem_of_singleton. lia.
  - intros w. rewrite app_assoc, elem_of_app, Ha, list_elem_of_singleton. lia.
Qed.

Lemma timer_inv w s : inv s -> inv (timer_callback w s).
Proof.
  intros Hinv. unfold timer_callback.
  destruct (remove_first w (waiters s)) as [ws|] eqn:Hr; [|done].
  apply remove_first_Some in Hr as (l1 & l2 & Hw & ->).
  destruct Hinv as [Hh Htot Hn Hf Ho Ha]. rewrite Hw in *.
  assert (((sent s).*1 ++ [w]) ++ l1 ++ l2 ≡ₚ (sent s).*1 ++ l1 ++ w :: l2) as Hp.
  { rewrite <- app_assoc. apply Permutation_app_head. simpl. by rewrite Permutation_middle. }
  constructor; simpl; try done.
  - intros _. change (available s = 0). apply Hn. by destruct l1.
  - unfold granted; simpl. rewrite granted_snoc_false.
    rewrite app_assoc in Hf |- *.
    by apply (StronglySorted_drop_middle _ _ [w]).
  - rewrite fmap_app. simpl. by rewrite Hp.
  - intros v. rewrite fmap_app. simpl. by rewrite Hp.
Qed.

Lemma timer_granted w s :
  granted (timer_callback w s) = granted s /\ held (timer_callback w s) = held s.
Proof.
  unfold timer_callback. destruct (remove_first w (waiters s)); [|done].
  split; [|done]. unfold granted; simpl. apply granted_snoc_false.
Qed.

Lemma step_semaphore_inv s c : inv s -> fits s c = true -> inv (fst (step s c)).
Proof.
  intros Hinv Hfit. pose proof (inv_inv_loop _ Hinv) as Hl. destruct c; simpl; try done.
  - unfold Acquire. destruct (can_take s) eqn:Ht; [by apply take_inv|].
    destruct (0 <? timeout).
    + by apply (enqueue_inv s (timers s ++ [allocated s])).
    + by apply (enqueue_inv s (timers s)).
  - case_decide; [by apply timer_inv|done].
  - unfold Release. destruct (held s <=? 0) eqn:Hh; [done|]. bools.
    apply dispatchWaiters_inv. destruct Hl. constructor; simpl; try done. lia.
  - unfold TryAcquire. destruct (can_take s) eqn:Ht; [by apply take_inv|done].
  - unfold IncreasePermits. destruct (delta <=? 0) eqn:Hd; [done|]. simpl in Hfit. bools.
    apply dispatchWaiters_inv. destruct Hl. constructor; simpl; try done.
    rewrite int64_small; lia.
  - unfold DecreasePermits. destruct (delta <=? 0) eqn:Hd; [done|].
    destruct (int64 _ <? 0) eqn:H0; [done|]. simpl in *. bools.
    destruct Hinv as [Hh Htot Hn Hf Ho Ha].
    assert (int64 (totalPermits s - delta) = totalPermits s - delta) as Hi
      by (apply int64_small; lia).
    rewrite Hi in *. constructor; simpl; try done; [lia|].
    intros Hw. specialize (Hn Hw). apply available_zero in Hn. apply available_zero. simpl. lia.
Qed.

Lemma exec_semaphore_inv s cs : inv s -> all_fit s cs = true -> inv (fst (exec s cs)).
Proof.
  revert s. induction cs as [|c cs IH]; intros s Hinv Hfit; [done|]. simpl in *. bools.
  pose proof (step_semaphore_inv s c Hinv ltac:(done)) as Hinv'.
  destruct (step s c) as [s' r]. simpl in *.
  specialize (IH s' Hinv' ltac:(done)). by destruct (exec s' cs).
Qed.

Lemma New_semaphore_inv p f s : p < 2 ^ 63 -> New p f = Ok s -> inv s.
Proof.
  unfold New. intros Hp H. break. constructor; simpl; try done.
  - by constructor.
  - by apply NoDup_nil.
  - intros w. split; [by intros ?%elem_of_nil|lia].
Qed.

(** ** Properties *)

(** C19: in every execution: no permit is available while somebody waits (no
    lost wake-up), waiters are granted in order of arrival, and every queued
    waiter is sent at most one value, so the sends on the one-slot channels
    never block while the mutex is held. *)
Theorem semaphore_invariant p f s cs :
  p < 2 ^ 63 -> New p f = Ok s -> all_fit s cs = true -> inv (fst (exec s cs)).
Proof. intros Hp HN. apply exec_semaphore_inv. by eapply New_semaphore_inv. Qed.

Definition demo_sem (f : bool) : Semaphore :=
  {| held := 0; totalPermits := 1; fair := f; waiters := []; sent := []; timers := [];
     allocated := 0 |}.

Definition demo_calls : list call :=
  [CallAcquire 0; CallAcquire 0; CallAcquire 10; CallAcquire 0; CallTryAcquire; TimerFires 1;
   CallRelease; CallIncrease 1; CallDecrease 2; CallRelease; CallRelease; CallAvailable].

Lemma semaphore_invariant_witness :
  inv (fst (exec (demo_sem true) demo_calls))
  /\ sent (fst (exec (demo_sem true) demo_calls)) = [(1%nat, false); (0%nat, true); (2%nat, true)].
Proof.
  split; [|vm_compute; reflexivity].
  apply (semaphore_invariant 1 true); vm_compute; reflexivity.
Defined.

(** The permits a call takes for its own caller, and gives back. *)
Definition taken (r : reply) : Z :=
  match r with RAcquired Immediate | RBool true => 1 | _ => 0 end.
Definition released (s : Semaphore) (c : call) : Z :=
  match c with CallRelease => if held s <=? 0 then 0 else 1 | _ => 0 end.

Lemma filter_granted (ws : list nat) :
  filter (fun p : nat * bool => snd p = true) ((fun w => (w, true)) <$> ws)
  = (fun w => (w, true)) <$> ws.
Proof. induction ws as [|w ws IH]; [done|].
  rewrite fmap_cons, filter_cons_True by done. by rewrite IH. Qed.

Lemma dispatch_counts s :
  inv_loop s ->
  let s' := dispatchWaiters s in
  held s' = held s + Z.of_nat (length (granted s') - length (granted s))
  /\ (length (granted s) <= length (granted s'))%nat
  /\ (held s < held s' -> held s' <= totalPermits s').
Proof.
  intros Hl. cbv zeta. unfold dispatchWaiters.
  destruct (dispatch_loop_inv _ _ Hl eq_refl) as (_ & Ht & _ & _ & _ & n & Hh & _ & Hs & Hn & Hle).
  assert (length (granted (dispatch_loop (waiters s) s)) = length (granted s) + n)%nat as Hg.
  { unfold granted. rewrite Hs, filter_app, fmap_app, length_app, !length_fmap. f_equal.
    rewrite filter_granted. by rewrite length_fmap, length_take_le. }
  split_and!; [lia..|]. intros. apply Hle. lia.
Qed.

(** Permits are conserved and never over-granted.  In every reachable state
    each call changes [held] by the permits granted (immediately or to waiters)
    minus the one released, and a call that increases [held] leaves it within
    the current total. *)
Theorem permits_conserved p f s0 cs c s' r :
  p < 2 ^ 63 -> New p f = Ok s0 -> all_fit s0 cs = true ->
  let s := fst (exec s0 cs) in
  fits s c = true -> step s c = (s', r) ->
  held s' = held s + taken r + Z.of_nat (length (granted s') - length (granted s)) - released s c
  /\ (held s < held s' -> held s' <= totalPermits s').
Proof.
  intros Hp HN Hfit s Hc Hs. assert (inv s) as Hinv.
  { apply exec_semaphore_inv; [by eapply New_semaphore_inv|done]. }
  clearbody s. pose proof (inv_inv_loop _ Hinv) as Hl.
  assert (forall t : Semaphore, can_take t = true -> held t < totalPermits t) as Htake.
  { intros t. unfold can_take. intros. bools. by apply available_pos. }
  destruct c; simpl in *; simplify_eq; cbn [taken released].
  - unfold Acquire in Hs. destruct (can_take s) eqn:Ht; simplify_eq; simpl.
    + apply Htake in Ht. unfold granted; simpl. lia.
    + destruct (0 <? timeout); unfold granted; simpl; lia.
  - case_decide; [|lia]. destruct (timer_granted w s) as [-> ->]. lia.
  - unfold Release. destruct (held s <=? 0) eqn:Hh; [lia|]. bools.
    destruct (dispatch_counts (s <| held := held s - 1 |>)) as (He & Hg & Hle).
    { destruct Hl. constructor; simpl; try done. lia. }
    simpl in *. change (granted (s <| held := held s - 1 |>)) with (granted s) in *.
    split; [lia|]. intros. apply Hle. lia.
  - unfold TryAcquire in Hs. destruct (can_take s) eqn:Ht; simplify_eq; simpl; [|lia].
    apply Htake in Ht. unfold granted; simpl. lia.
  - unfold IncreasePermits in Hs. destruct (delta <=? 0) eqn:Hd; simplify_eq; simpl; [lia|]. bools.
    destruct (dispatch_counts (s <| totalPermits := int64 (totalPermits s + delta) |>))
      as (He & Hg & Hle).
    { destruct Hl. constructor; simpl; try done. rewrite int64_small; lia. }
    simpl in *.
    change (granted (s <| totalPermits := int64 (totalPermits s + delta) |>)) with (granted s) in *.
    split; [lia|done].
  - unfold DecreasePermits in Hs. break; unfold granted; simpl; lia.
  - lia.
  - lia.
Qed.

Lemma permits_conserved_witness :
  let s := fst (exec (demo_sem false) (take 6 demo_calls)) in
  held (Release s) = held s + 0
    + Z.of_nat (length (granted (Release s)) - length (granted s)) - 1
  /\ (held s < held (Release s) -> held (Release s) <= totalPermits (Release s)).
Proof.
  apply (permits_conserved 1 false (demo_sem false) (take 6 demo_calls) CallRelease _ RDone);
    try (vm_compute; reflexivity); reflexivity.
Defined.

(** [Release] hands the permit over.  In a reachable state with a waiter and
    no more permits held than the total, [Release] grants exactly the waiter
    that has waited longest; the number of permits held does not change. *)
Theorem Release_hands_over p f s0 cs w ws :
  p < 2 ^ 63 -> New p f = Ok s0 -> all_fit s0 cs = true ->
  let s := fst (exec s0 cs) in
  waiters s = w :: ws -> 0 < held s <= totalPermits s ->
  Release s = s <| waiters := ws |> <| sent := sent s ++ [(w, true)] |>.
Proof.
  intros Hp HN Hfit s Hw Hh. assert (inv s) as Hinv.
  { apply exec_semaphore_inv; [by eapply New_semaphore_inv|done]. }
  clearbody s.
  pose proof (inv_no_lost_wakeup _ Hinv) as Hn. rewrite Hw in Hn.
  specialize (Hn ltac:(done)). apply available_zero in Hn.
  unfold Release. destruct (held s <=? 0) eqn:E; bools; [lia|].
  unfold dispatchWaiters. simpl. rewrite Hw. simpl.
  assert ((0 <? available (s <| held := held s - 1 |>)) = true) as ->.
  { apply Z.ltb_lt, available_pos. simpl. lia. }
  assert (forall ws t, held t = totalPermits t -> dispatch_loop ws t = t) as Hstop.
  { intros [|v vs] t Ht; [done|]. simpl. unfold available. by rewrite Ht, Z.leb_refl. }
  rewrite Hstop by (simpl; lia). unfold set_field. simpl. f_equal. lia.
Qed.

Lemma Release_hands_over_witness :
  let s := fst (exec (demo_sem false) (take 6 demo_calls)) in
  Release s = s <| waiters := [2%nat] |> <| sent := sent s ++ [(0%nat, true)] |>.
Proof.
  apply (Release_hands_over 1 false (demo_sem false) (take 6 demo_calls) 0%nat);
    try (vm_compute; reflexivity). vm_compute. intuition congruence.
Defined.

(** The state without its fairness flag. *)
Definition same_but_fair (s t : Semaphore) : Prop := s <| fair := true |> = t <| fair := true |>.

Lemma same_dispatch l s t :
  same_but_fair s t -> same_but_fair (dispatch_loop l s) (dispatch_loop l t).
Proof.
  revert s t. induction l as [|w l IH]; intros s t He; [done|].
  destruct s, t. unfold same_but_fair, set_field in He. simpl in He.
  injection He as -> -> -> -> -> ->. simpl.
  unfold available; simpl. repeat case_match; first [done|by apply IH].
Qed.

Lemma same_step s t c :
  inv s -> inv t -> same_but_fair s t ->
  same_but_fair (fst (step s c)) (fst (step t c)) /\ snd (step s c) = snd (step t c)
  /\ fits s c = fits t c.
Proof.
  intros Hs Ht He. pose proof (can_take_available s Hs) as Hcs.
  pose proof (can_take_available t Ht) as Hct. clear Hs Ht.
  destruct s as [h tot fs ws se ti al], t as [h' tot' ft ws' se' ti' al'].
  unfold same_but_fair, set_field in He. simpl in He. injection He as -> -> -> -> -> ->.
  change (available _) with (available {| held := h'; totalPermits := tot'; fair := ft;
    waiters := ws'; sent := se'; timers := ti'; allocated := al' |}) in Hcs.
  destruct (0 <? available _) eqn:Hav in Hcs; rewrite Hav in Hct; clear Hav.
  all: destruct c; simpl; try done.
  1,7: unfold Acquire; rewrite Hcs, Hct; by destruct (0 <? timeout).
  1,6: case_decide; [|done]; unfold timer_callback; simpl; by destruct (remove_first w ws').
  1,5: unfold Release; simpl; destruct (h' <=? 0); [done|]; split; [by apply same_dispatch|done].
  1,4: unfold TryAcquire; by rewrite Hcs, Hct.
  1,3: unfold IncreasePermits; simpl; destruct (delta <=? 0); [done|]; split; [|done]; by apply same_dispatch.
  all: unfold DecreasePermits; simpl; by destruct (delta <=? 0), (int64 (tot' - delta) <? 0).
Qed.

Lemma same_exec cs s t :
  inv s -> inv t -> same_but_fair s t -> all_fit s cs = true ->
  same_but_fair (fst (exec s cs)) (fst (exec t cs)) /\ snd (exec s cs) = snd (exec t cs).
Proof.
  revert s t. induction cs as [|c cs IH]; intros s t Hs Ht He Hfit; [done|].
  simpl in *. bools. destruct (same_step s t c Hs Ht He) as (He' & Hr & Hf).
  pose proof (step_semaphore_inv s c Hs ltac:(done)) as Hs'.
  pose proof (step_semaphore_inv t c Ht ltac:(by rewrite <- Hf)) as Ht'.
  destruct (step s c) as [s' r], (step t c) as [t' r']. simpl in *. subst.
  destruct (IH s' t' Hs' Ht' He' ltac:(done)) as [IH1 IH2].
  destruct (exec s' cs), (exec t' cs). simpl in *. by subst.
Qed.

(** The fairness flag is unobservable.  A fair and an unfair semaphore with
    the same permits answer every sequence of calls alike, and send the same
    values to the same waiters: because dispatch leaves no permit free while
    somebody waits, an unfair caller never gets the chance to barge in. *)
Theorem fair_flag_unobservable p s t cs :
  p < 2 ^ 63 -> New p true = Ok s -> New p false = Ok t -> all_fit s cs = true ->
  snd (exec s cs) = snd (exec t cs)
  /\ sent (fst (exec s cs)) = sent (fst (exec t cs))
  /\ waiters (fst (exec s cs)) = waiters (fst (exec t cs)).
Proof.
  intros Hp Hs Ht Hfit.
  destruct (same_exec cs s t) as [He Hr]; [by eapply New_semaphore_inv..| |done|].
  { unfold New in *. by break. }
  split; [done|]. split; [by apply (f_equal sent) in He|by apply (f_equal waiters) in He].
Qed.

Lemma fair_flag_unobservable_witness :
  snd (exec (demo_sem true) demo_calls) = snd (exec (demo_sem false) demo_calls)
  /\ sent (fst (exec (demo_sem true) demo_calls)) = sent (fst (exec (demo_sem false) demo_calls))
  /\ waiters (fst (exec (demo_sem true) demo_calls))
     = waiters (fst (exec (demo_sem false) demo_calls)).
Proof. apply (fair_flag_unobservable 1); vm_compute; reflexivity. Defined.
