(* ===== verification/Bloom.v ===== *)
(** Bloom filter of the key-value store (src/internal/kvstore/bloom.go).

    The sizing is computed in IEEE arithmetic.  The digest [sha256.Sum256], the
    logarithm [math.Log] and what a conversion to uint gives for a float that is
    none (which the language leaves open) are parameters, gathered in
    [BloomEnv]; the theorems hold for every choice of them that yields a
    non-empty filter. *)

From stdpp Require Import base tactics list strings.
From Stdlib Require Import ZArith Lia SpecFloat.
From S2P Require Import Prelude.

Class BloomEnv := {
  Sum256 : string -> list Z;
  math_Log : float64 -> float64;
  uint_wild : float64 -> Z;
}.

(** 0.01 *)
Definition rate_default : float64 := S754_finite false 5764607523034235 (-59).

(** [math.Ceil]: the least integer not below, a zero with the sign of its argument. *)
Definition math_Ceil (f : float64) : float64 :=
  match f with
  | S754_finite s m e =>
      if 0 <=? e then f
      else
        let n := - Z.shiftr (if s then Z.pos m else - Z.pos m) (- e) in
        if n =? 0 then S754_zero s else float_of_int n
  | _ => f
  end.

Section bloom.
Context {env : BloomEnv}.

(** The conversion of a float to a uint. *)
Definition uint_of_float (f : float64) : Z :=
  match f with
  | S754_zero _ => 0
  | S754_finite s m e =>
      let n := Z.shiftl (Z.pos m) e in
      let n := if s then - n else n in
      if (0 <=? n) && (n <? 2 ^ 64) then n else uint64 (uint_wild f)
  | _ => uint64 (uint_wild f)
  end.

Definition Log2 : float64 := math_Log (float_of_int 2).

Definition optimalSize (capacity : Z) (falsePositiveRate : float64) : Z :=
  uint_of_float (math_Ceil
    (SFdiv 53 1024 (SFmul 53 1024 (SFopp (float_of_int capacity)) (math_Log falsePositiveRate))
       (SFmul 53 1024 Log2 Log2))).

Definition optimalHashCount (size capacity : Z) : Z :=
  uint_of_float (math_Ceil
    (SFmul 53 1024 (SFdiv 53 1024 (float_of_int size) (float_of_int capacity)) Log2)).

Record BloomFilter := { bitArray : list bool; bf_size : Z; bf_hashCount : Z }.

#[export] Instance eta_BloomFilter : Eta BloomFilter := fun b =>
  {| bitArray := bitArray b; bf_size := bf_size b; bf_hashCount := bf_hashCount b |}.

Definition NewBloomFilter (capacity : Z) (falsePositiveRate : float64) : BloomFilter :=
  let capacity := if capacity =? 0 then 1000 else capacity in
  let rate := if no_fraction falsePositiveRate then rate_default else falsePositiveRate in
  let size := optimalSize capacity rate in
  let hashCount := optimalHashCount size capacity in
  {| bitArray := replicate (Z.to_nat size) false; bf_size := size; bf_hashCount := hashCount |}.

Definition doubleHash (key : string) (size : Z) : Z * Z :=
  let sum := Sum256 key in
  let h1 := be_decode (take 8 sum) in
  let h2 := be_decode (take 8 (drop 8 sum)) in
  (h1 mod size, h2 mod size).

(** The bit probed by round [i]: [(h1 + i*h2) % size] in uint arithmetic. *)
Definition bit_index (bf : BloomFilter) (key : string) (i : nat) : nat :=
  let '(h1, h2) := doubleHash key (bf_size bf) in
  Z.to_nat (uint64 (h1 + uint64 (Z.of_nat i * h2)) mod bf_size bf).

Definition rounds (bf : BloomFilter) : list nat := seq 0 (Z.to_nat (bf_hashCount bf)).

Definition Add (key : string) (bf : BloomFilter) : BloomFilter :=
  bf <| bitArray := foldl (fun bits i => <[bit_index bf key i := true]> bits) (bitArray bf) (rounds bf) |>.

Definition MightContain (bf : BloomFilter) (key : string) : bool :=
  forallb (fun i => nth (bit_index bf key i) (bitArray bf) false) (rounds bf).

Definition Reset (bf : BloomFilter) : BloomFilter :=
  bf <| bitArray := (fun _ => false) <$> bitArray bf |>.

Definition Size (bf : BloomFilter) : Z := bf_size bf.
Definition HashCount (bf : BloomFilter) : Z := bf_hashCount bf.

(** ** Invariant and lemmas *)

Definition bloom_wf (bf : BloomFilter) : Prop :=
  0 < bf_size bf /\ length (bitArray bf) = Z.to_nat (bf_size bf).

Lemma bit_index_lt bf key i : bloom_wf bf -> (bit_index bf key i < length (bitArray bf))%nat.
Proof.
  intros [Hs ->]. unfold bit_index. destruct (doubleHash _ _) as [h1 h2].
  apply Z2Nat.inj_lt; [apply Z.mod_pos_bound; lia|lia|apply Z.mod_pos_bound; lia].
Qed.

Definition set_bits (l : list nat) (bits : list bool) : list bool :=
  foldl (fun bits i => <[i := true]> bits) bits l.

Lemma length_set_bits l bits : length (set_bits l bits) = length bits.
Proof.
  revert bits. induction l as [|i l IH]; intros bits; [done|]. simpl. by rewrite IH, length_insert.
Qed.

Lemma set_bits_spec l bits j :
  Forall (fun i => (i < length bits)%nat) l ->
  nth j (set_bits l bits) false = (bool_decide (j ∈ l) || nth j bits false)%bool.
Proof.
  revert bits. induction l as [|i l IH]; intros bits Hl.
  { by rewrite (bool_decide_false (j ∈ [])) by apply not_elem_of_nil. }
  change (set_bits (i :: l) bits) with (set_bits l (<[i := true]> bits)).
  apply Forall_cons in Hl as [Hi Hl].
  rewrite IH by (by rewrite length_insert). rewrite !nth_lookup.
  destruct (decide (i = j)) as [->|Hne].
  - rewrite list_lookup_insert_eq by done. simpl.
    rewrite (bool_decide_true (j ∈ j :: l)) by constructor. apply orb_true_r.
  - rewrite list_lookup_insert_ne by done.
    f_equal. apply bool_decide_ext. rewrite elem_of_cons. intuition congruence.
Qed.

Lemma Add_bits bf key :
  bitArray (Add key bf) = set_bits (bit_index bf key <$> rounds bf) (bitArray bf).
Proof.
  simpl. generalize (bitArray bf) as bits. unfold set_bits.
  induction (rounds bf) as [|i l IH]; intros bits; [done|]. simpl. by rewrite IH.
Qed.

Lemma Add_wf bf key : bloom_wf bf -> bloom_wf (Add key bf).
Proof.
  intros [Hs Hl]. split; [done|]. rewrite Add_bits, length_set_bits. done.
Qed.

Lemma Reset_wf bf : bloom_wf bf -> bloom_wf (Reset bf).
Proof. intros [Hs Hl]. split; [done|]. simpl. by rewrite length_fmap. Qed.

Lemma indices_lt bf key :
  bloom_wf bf -> Forall (fun i => (i < length (bitArray bf))%nat) (bit_index bf key <$> rounds bf).
Proof. intros Hwf. apply Forall_fmap, Forall_true. intros i. by apply bit_index_lt. Qed.

Lemma MightContain_iff bf key :
  MightContain bf key = true <->
  forall i, i ∈ rounds bf -> nth (bit_index bf key i) (bitArray bf) false = true.
Proof. unfold MightContain. rewrite forallb_forall. by setoid_rewrite list_elem_of_In. Qed.

Lemma MightContain_Add_eq bf key : bloom_wf bf -> MightContain (Add key bf) key = true.
Proof.
  intros Hwf. apply MightContain_iff. intros i Hi.
  change (bit_index (Add key bf) key i) with (bit_index bf key i).
  rewrite Add_bits, set_bits_spec by (by apply indices_lt).
  rewrite bool_decide_true; [done|]. apply list_elem_of_fmap. eauto.
Qed.

Lemma MightContain_Add_mono bf key key' :
  bloom_wf bf -> MightContain bf key' = true -> MightContain (Add key bf) key' = true.
Proof.
  intros Hwf. rewrite !MightContain_iff. intros H i Hi.
  change (bit_index (Add key bf) key' i) with (bit_index bf key' i).
  rewrite Add_bits, set_bits_spec by (by apply indices_lt).
  rewrite (H i Hi). apply orb_true_r.
Qed.

Lemma MightContain_Reset bf key :
  0 < bf_hashCount bf -> MightContain (Reset bf) key = false.
Proof.
  intros Hk. apply not_true_iff_false. rewrite MightContain_iff. intros H.
  specialize (H 0%nat). simpl in H. rewrite nth_lookup, list_lookup_fmap in H.
  assert (0%nat ∈ rounds bf) as Hin.
  { unfold rounds. simpl. apply elem_of_seq. lia. }
  specialize (H Hin). by destruct (bitArray bf !! _).
Qed.

End bloom.
