(* ===== verification/KVStore.v ===== *)
(** Segmented key-value store (src/internal/kvstore/kvstore.go).

    The store spreads its keys over segments by an FNV-1a hash and guards reads
    with a Bloom filter.  Each operation is the composition of its critical
    sections; run without interference it is proved to implement one finite
    map.  [put_bloom] and [put_segment] are the two critical sections of [Put],
    kept apart because a [Restore] can run between them. *)

From stdpp Require Import base tactics list gmap strings sorting.
From Stdlib Require Import ZArith Lia SpecFloat.
From S2P Require Import Prelude Bloom.

Inductive Error := ErrEmptyBatch | ErrInvalidRange | ErrInvalidLimit | ErrNilSnapshot.

Record KVItem := { Key : string; Value : string }.

Record RangeResult := {
  Items : list KVItem; HasMore : bool; NextKey : string; rr_Total : Z;
}.

(** [hash/fnv.New32a]. *)
Definition fnv32a (key : string) : Z :=
  foldl (fun h b => uint32 (Z.lxor h b * 16777619)) 2166136261 (str_bytes key).

(** ** Sorting by key *)

Definition key_le (a b : KVItem) : Prop := String.le (Key a) (Key b).

#[export] Instance key_le_dec : RelDecision key_le.
Proof. intros a b. unfold key_le. apply _. Defined.
#[export] Instance key_le_total : Total key_le.
Proof. intros a b. unfold key_le. apply (total String.le). Qed.
#[export] Instance key_le_trans : Transitive key_le.
Proof. intros a b c. unfold key_le. apply (transitivity (R := String.le)). Qed.

(** [sort.Slice(items, func(i, j) bool { return items[i].Key < items[j].Key })] *)
Definition sort_items (l : list KVItem) : list KVItem := merge_sort key_le l.

Section kvstore.
Context {env : BloomEnv}.

Record Config := { SegmentCount : Z; BloomCapacity : Z; BloomFalseRate : float64 }.

Record KVStore := {
  segments : list (gmap string string);
  segmentCount : Z;
  bloomFilter : BloomFilter;
}.

#[export] Instance eta_KVStore : Eta KVStore := fun kv =>
  {| segments := segments kv; segmentCount := segmentCount kv; bloomFilter := bloomFilter kv |}.

Definition DefaultConfig : Config :=
  {| SegmentCount := 16; BloomCapacity := 10000; BloomFalseRate := rate_default |}.

Definition NewKVStoreWithConfig (cfg : Config) : KVStore :=
  let n := if SegmentCount cfg <=? 0 then 16 else SegmentCount cfg in
  let capacity := if BloomCapacity cfg =? 0 then 10000 else BloomCapacity cfg in
  let rate := if no_fraction (BloomFalseRate cfg) then rate_default else BloomFalseRate cfg in
  {| segments := replicate (Z.to_nat n) ∅; segmentCount := n;
     bloomFilter := NewBloomFilter capacity rate |}.

Definition NewKVStore : KVStore := NewKVStoreWithConfig DefaultConfig.

Definition getSegmentIndex (kv : KVStore) (key : string) : nat :=
  Z.to_nat (fnv32a key mod uint32 (segmentCount kv)).

(** [kv.getSegment(key).data]. *)
Definition getSegment (kv : KVStore) (key : string) : gmap string string :=
  default ∅ (segments kv !! getSegmentIndex kv key).

Definition put_bloom (key : string) (kv : KVStore) : KVStore :=
  kv <| bloomFilter := Add key (bloomFilter kv) |>.

Definition put_segment (key value : string) (kv : KVStore) : KVStore :=
  kv <| segments := <[getSegmentIndex kv key := <[key := value]> (getSegment kv key)]> (segments kv) |>.

Definition Put (key value : string) (kv : KVStore) : KVStore :=
  put_segment key value (put_bloom key kv).

(** Go's [(value, ok)] is [Some value] or [None]. *)
Definition Get (kv : KVStore) (key : string) : option string :=
  if MightContain (bloomFilter kv) key then getSegment kv key !! key else None.

Definition Delete (key : string) (kv : KVStore) : KVStore * bool :=
  match getSegment kv key !! key with
  | Some _ =>
      (kv <| segments := <[getSegmentIndex kv key := delete key (getSegment kv key)]> (segments kv) |>,
       true)
  | None => (kv, false)
  end.

(** The segments [BatchPut] locks, in the order in which it locks them. *)
Definition batch_locks (kv : KVStore) (pairs : gmap string string) : list nat :=
  merge_sort le (remove_dups ((fun p => getSegmentIndex kv (fst p)) <$> map_to_list pairs)).

Definition BatchPut (pairs : gmap string string) (kv : KVStore) : KVStore * result Error unit :=
  if bool_decide (size pairs = 0%nat) then (kv, Err ErrEmptyBatch)
  else
    let kv := foldl (fun kv p => put_bloom (fst p) kv) kv (map_to_list pairs) in
    let kv := foldl (fun kv p => put_segment (fst p) (snd p) kv) kv (map_to_list pairs) in
    (kv, Ok tt).

Definition in_range (start end_ : string) (p : string * string) : bool :=
  String.leb start (fst p) && String.leb (fst p) end_.

Definition scan_segment (start end_ : string) (seg : gmap string string) : list KVItem :=
  (fun p => {| Key := fst p; Value := snd p |})
    <$> filter (fun p => in_range start end_ p = true) (map_to_list seg).

(** What [RangeScan] makes of the items it has collected. *)
Definition page (limit : Z) (items : list KVItem) : RangeResult :=
  let allItems := sort_items items in
  let total := Z.of_nat (length allItems) in
  if limit <? total
  then {| Items := take (Z.to_nat limit) allItems; HasMore := true;
          NextKey := match allItems !! Z.to_nat limit with Some i => Key i | None => "" end;
          rr_Total := total |}
  else {| Items := allItems; HasMore := false; NextKey := ""; rr_Total := total |}.

Definition RangeScan (start end_ : string) (limit : Z) (kv : KVStore) : result Error RangeResult :=
  if negb (String.leb start end_) then Err ErrInvalidRange
  else if limit <=? 0 then Err ErrInvalidLimit
  else Ok (page limit (take (Z.to_nat (segmentCount kv)) (segments kv) ≫= scan_segment start end_)).

(** [data[k] = v] for every pair of every segment, in turn. *)
Definition Snapshot (kv : KVStore) : gmap string string :=
  foldl (fun data seg => foldl (fun d p => <[fst p := snd p]> d) data (map_to_list seg)) ∅
    (take (Z.to_nat (segmentCount kv)) (segments kv)).

Definition Restore (snapshot : option (gmap string string)) (kv : KVStore) : KVStore * result Error unit :=
  match snapshot with
  | None => (kv, Err ErrNilSnapshot)
  | Some data =>
      let kv := kv <| segments := (fun _ => ∅) <$> segments kv |> in
      let kv := kv <| bloomFilter := Reset (bloomFilter kv) |> in
      (foldl (fun kv p => put_bloom (fst p) (put_segment (fst p) (snd p) kv)) kv (map_to_list data),
       Ok tt)
  end.

Definition Count (kv : KVStore) : nat :=
  sum_list_with size (take (Z.to_nat (segmentCount kv)) (segments kv)).

(** ** Representation *)

Record wf (kv : KVStore) : Prop := {
  wf_len : length (segments kv) = Z.to_nat (segmentCount kv);
  wf_count : 0 < segmentCount kv < 2 ^ 32;
  wf_bloom : bloom_wf (bloomFilter kv);
}.

(** [rep kv m]: the store holds the map [m]; each key sits in its own segment,
    and the filter knows it. *)
Record rep (kv : KVStore) (m : gmap string string) : Prop := {
  rep_wf : wf kv;
  rep_lookup i seg k : segments kv !! i = Some seg ->
    seg !! k = if decide (i = getSegmentIndex kv k) then m !! k else None;
  rep_bloom k : is_Some (m !! k) -> MightContain (bloomFilter kv) k = true;
}.

Lemma getSegmentIndex_lt kv k : wf kv -> (getSegmentIndex kv k < length (segments kv))%nat.
Proof.
  intros [Hl Hc _]. rewrite Hl. unfold getSegmentIndex. rewrite uintw_small by lia.
  apply Z2Nat.inj_lt; [apply Z.mod_pos_bound; lia|lia|apply Z.mod_pos_bound; lia].
Qed.

Lemma getSegment_lookup kv m k : rep kv m -> getSegment kv k !! k = m !! k.
Proof.
  intros [Hwf Hl _]. unfold getSegment.
  destruct (lookup_lt_is_Some_2 _ _ (getSegmentIndex_lt kv k Hwf)) as [seg Hs].
  rewrite Hs. simpl. rewrite (Hl _ _ _ Hs). by rewrite decide_True.
Qed.

Lemma set_segment_rep kv m k seg m' :
  rep kv m -> (forall k', seg !! k' = if decide (getSegmentIndex kv k = getSegmentIndex kv k')
                                       then m' !! k' else None) ->
  (forall k', getSegmentIndex kv k <> getSegmentIndex kv k' -> m' !! k' = m !! k') ->
  (forall k', is_Some (m' !! k') -> MightContain (bloomFilter kv) k' = true) ->
  rep (kv <| segments := <[getSegmentIndex kv k := seg]> (segments kv) |>) m'.
Proof.
  intros [Hwf Hl Hb] Hseg Hother Hbl.
  constructor; [|intros i s k' Hs|done].
  - destruct Hwf. constructor; simpl; try done. by rewrite length_insert.
  - simpl in Hs. change (getSegmentIndex (kv <| segments := _ |>) k') with (getSegmentIndex kv k').
    apply list_lookup_insert_Some in Hs as [(<- & <- & _)|[Hne Hs]].
    + apply Hseg.
    + rewrite (Hl _ _ _ Hs). case_decide as He; [|done]. symmetry. apply Hother. congruence.
Qed.

Lemma put_segment_rep kv m k v :
  rep kv m -> MightContain (bloomFilter kv) k = true ->
  rep (put_segment k v kv) (<[k := v]> m).
Proof.
  intros Hrep Hk. apply (set_segment_rep kv m k); [done|..].
  - intros k'. destruct (decide (k = k')) as [<-|Hne].
    + rewrite !lookup_insert_eq. by rewrite decide_True.
    + rewrite !lookup_insert_ne by done. unfold getSegment.
      destruct (lookup_lt_is_Some_2 _ _ (getSegmentIndex_lt kv k (rep_wf _ _ Hrep))) as [seg Hs].
      rewrite Hs. simpl. apply (rep_lookup _ _ Hrep _ _ _ Hs).
  - intros k' Hne. rewrite lookup_insert_ne; [done|congruence].
  - intros k' [v' Hv']. destruct (decide (k = k')) as [<-|Hne]; [done|].
    rewrite lookup_insert_ne in Hv' by done. apply (rep_bloom _ _ Hrep). eauto.
Qed.

Lemma put_bloom_rep kv m k :
  rep kv m -> rep (put_bloom k kv) m /\ MightContain (bloomFilter (put_bloom k kv)) k = true.
Proof.
  intros [[Hlen Hc Hbw] Hl Hb].
  split; [|by apply MightContain_Add_eq].
  constructor; [|done|].
  - constructor; simpl; try done. by apply Add_wf.
  - intros k' Hk'. apply MightContain_Add_mono; auto.
Qed.

Lemma Put_rep kv m k v : rep kv m -> rep (Put k v kv) (<[k := v]> m).
Proof. intros [Hr Hb]%(put_bloom_rep _ _ k). by apply put_segment_rep. Qed.

Lemma Get_rep kv m k : rep kv m -> Get kv k = m !! k.
Proof.
  intros Hrep. unfold Get. rewrite (getSegment_lookup _ _ _ Hrep).
  destruct (MightContain _ k) eqn:Hm; [done|].
  destruct (m !! k) eqn:Hk; [|done].
  rewrite (rep_bloom _ _ Hrep) in Hm; [done|eauto].
Qed.

Lemma Delete_rep kv m k kv' b :
  rep kv m -> Delete k kv = (kv', b) -> rep kv' (delete k m) /\ b = bool_decide (is_Some (m !! k)).
Proof.
  intros Hrep. unfold Delete. rewrite (getSegment_lookup _ _ _ Hrep).
  destruct (m !! k) as [v|] eqn:Hk; intros [= <- <-].
  - split; [|by rewrite bool_decide_true by eauto].
    apply (set_segment_rep kv m k); [done|..].
    + intros k'. destruct (decide (k = k')) as [<-|Hne].
      * rewrite !lookup_delete_eq. by case_decide.
      * rewrite !lookup_delete_ne by done. unfold getSegment.
        destruct (lookup_lt_is_Some_2 _ _ (getSegmentIndex_lt kv k (rep_wf _ _ Hrep))) as [seg Hs].
        rewrite Hs. simpl. apply (rep_lookup _ _ Hrep _ _ _ Hs).
    + intros k' Hne. rewrite lookup_delete_ne; [done|congruence].
    + intros k' [v' [_ Hv']%lookup_delete_Some]. apply (rep_bloom _ _ Hrep). eauto.
  - rewrite delete_id by done. split; [done|]. rewrite bool_decide_false; [done|].
    by intros [? ?].
Qed.

(** *** Folds over a map's pairs *)

Lemma foldl_insert (l : list (string * string)) (m : gmap string string) :
  NoDup l.*1 -> foldl (fun d p => <[fst p := snd p]> d) m l = list_to_map l ∪ m.
Proof.
  revert m. induction l as [|[k v] l IH]; intros m Hnd; simpl.
  { by rewrite map_empty_union. }
  apply NoDup_cons in Hnd as [Hk Hnd]. rewrite IH by done.
  rewrite <- insert_union_l, <- insert_union_r; [done|].
  by apply not_elem_of_list_to_map_1.
Qed.

Lemma fold_inserts (pairs m : gmap string string) :
  foldl (fun d p => <[fst p := snd p]> d) m (map_to_list pairs) = pairs ∪ m.
Proof.
  rewrite foldl_insert by apply NoDup_fst_map_to_list. by rewrite list_to_map_to_list.
Qed.

Lemma fold_bloom_rep l kv m :
  rep kv m ->
  let kv' := foldl (fun kv p => put_bloom (fst p) kv) kv l : KVStore in
  rep kv' m /\ (forall k, MightContain (bloomFilter kv) k = true -> MightContain (bloomFilter kv') k = true)
  /\ (forall p : string * string, p ∈ l -> MightContain (bloomFilter kv') (fst p) = true).
Proof.
  revert kv. induction l as [|p l IH]; intros kv Hrep; simpl.
  { split_and!; [done..|]. by intros p ?%elem_of_nil. }
  destruct (put_bloom_rep kv m (fst p) Hrep) as [Hrep' Hp].
  destruct (IH _ Hrep') as (H1 & H2 & H3). split_and!; [done| |].
  - intros k Hk. apply H2. apply MightContain_Add_mono; [|done]. apply Hrep.
  - intros q [->|Hq]%elem_of_cons; [by apply H2|by apply H3].
Qed.

Lemma fold_segment_rep l kv m :
  rep kv m -> (forall p : string * string, p ∈ l -> MightContain (bloomFilter kv) (fst p) = true) ->
  rep (foldl (fun kv p => put_segment (fst p) (snd p) kv) kv l)
      (foldl (fun d p => <[fst p := snd p]> d) m l).
Proof.
  revert kv m. induction l as [|p l IH]; intros kv m Hrep Hb; simpl; [done|].
  apply IH; [apply put_segment_rep; [done|apply Hb; constructor]|].
  intros q Hq. apply Hb. by constructor.
Qed.

Lemma BatchPut_rep pairs kv m :
  rep kv m -> pairs <> ∅ -> rep (fst (BatchPut pairs kv)) (pairs ∪ m) /\ snd (BatchPut pairs kv) = Ok tt.
Proof.
  intros Hrep Hne. unfold BatchPut. rewrite bool_decide_false by (by rewrite map_size_empty_iff).
  split; [|done]. simpl. rewrite <- fold_inserts.
  destruct (fold_bloom_rep (map_to_list pairs) kv m Hrep) as (H1 & _ & H3).
  by apply fold_segment_rep.
Qed.

Lemma fold_put_rep l kv m :
  rep kv m ->
  rep (foldl (fun kv p => put_bloom (fst p) (put_segment (fst p) (snd p) kv)) kv l)
      (foldl (fun d p => <[fst p := snd p]> d) m l).
Proof.
  revert kv m. induction l as [|p l IH]; intros kv m Hrep; simpl; [done|].
  apply IH. change (rep (Put (fst p) (snd p) kv) (<[fst p := snd p]> m)). by apply Put_rep.
Qed.

Lemma clear_rep kv m :
  rep kv m ->
  rep (kv <| segments := (fun _ => ∅) <$> segments kv |> <| bloomFilter := Reset (bloomFilter kv) |>) ∅.
Proof.
  intros [[Hlen Hc Hbw] Hl Hb]. constructor; [|intros i seg k Hs|].
  - constructor; simpl; [by rewrite length_fmap|done|by apply Reset_wf].
  - simpl in Hs. apply list_lookup_fmap_Some in Hs as (? & -> & _).
    rewrite !lookup_empty. by case_decide.
  - intros k. rewrite lookup_empty. by intros [? ?].
Qed.

Lemma Restore_rep kv m data :
  rep kv m -> rep (fst (Restore (Some data) kv)) data /\ snd (Restore (Some data) kv) = Ok tt.
Proof.
  intros Hrep. split; [|done]. simpl.
  rewrite <- (map_union_empty data) at 2. rewrite <- fold_inserts.
  by apply fold_put_rep, clear_rep with (1 := Hrep).
Qed.

(** *** Whole-store reads *)

Definition all_pairs (segs : list (gmap string string)) : list (string * string) :=
  segs ≫= map_to_list.

Lemma all_segments kv : wf kv -> take (Z.to_nat (segmentCount kv)) (segments kv) = segments kv.
Proof. intros [Hl _ _]. by rewrite take_ge by lia. Qed.

Lemma elem_of_all_pairs segs k v :
  (k, v) ∈ all_pairs segs <-> exists i seg, segs !! i = Some seg /\ seg !! k = Some v.
Proof.
  unfold all_pairs. rewrite list_elem_of_bind.
  split.
  - intros (seg & Hkv%elem_of_map_to_list & [i Hi]%list_elem_of_lookup). eauto.
  - intros (i & seg & Hi & Hs). exists seg. split; [by apply elem_of_map_to_list|].
    apply list_elem_of_lookup. eauto.
Qed.

(** Segments that place each key by [idx] share no key. *)
Lemma all_pairs_NoDup (idx : string -> nat) off segs :
  (forall i seg k v, segs !! i = Some seg -> seg !! k = Some v -> idx k = (off + i)%nat) ->
  NoDup (all_pairs segs).*1.
Proof.
  revert off. induction segs as [|seg segs IH]; intros off Hidx; [by apply NoDup_nil|].
  change (all_pairs (seg :: segs)) with (map_to_list seg ++ all_pairs segs).
  rewrite fmap_app. apply NoDup_app. split_and!.
  - apply NoDup_fst_map_to_list.
  - intros k (p & -> & Hp)%list_elem_of_fmap (q & Hq & Hin)%list_elem_of_fmap.
    destruct p as [k v], q as [k' v']. simpl in Hq. subst k'.
    apply elem_of_map_to_list in Hp. apply elem_of_all_pairs in Hin as (i & s & Hi & Hs).
    pose proof (Hidx 0%nat seg k v eq_refl Hp). pose proof (Hidx (S i) s k v' Hi Hs). lia.
  - apply (IH (S off)). intros i s k v Hi Hs. rewrite (Hidx (S i) s k v Hi Hs). lia.
Qed.

Lemma all_pairs_perm kv m : rep kv m -> all_pairs (segments kv) ≡ₚ map_to_list m.
Proof.
  intros Hrep. apply NoDup_Permutation.
  - apply NoDup_fmap_1 with fst, (all_pairs_NoDup (getSegmentIndex kv) 0).
    intros i seg k v Hi Hs. rewrite (rep_lookup _ _ Hrep _ _ _ Hi) in Hs. by case_decide.
  - apply NoDup_map_to_list.
  - intros [k v]. rewrite elem_of_all_pairs, elem_of_map_to_list. split.
    + intros (i & seg & Hi & Hs). rewrite (rep_lookup _ _ Hrep _ _ _ Hi) in Hs. by case_decide.
    + intros Hm.
      destruct (lookup_lt_is_Some_2 _ _ (getSegmentIndex_lt kv k (rep_wf _ _ Hrep))) as [seg Hs].
      exists (getSegmentIndex kv k), seg. split; [done|].
      rewrite (rep_lookup _ _ Hrep _ _ _ Hs). by rewrite decide_True.
Qed.

Lemma Count_rep kv m : rep kv m -> Count kv = size m.
Proof.
  intros Hrep. unfold Count. rewrite all_segments by apply Hrep.
  rewrite <- length_map_to_list, <- (all_pairs_perm kv m Hrep). clear Hrep.
  induction (segments kv) as [|seg segs IH]; [done|]. simpl.
  change (all_pairs (seg :: segs)) with (map_to_list seg ++ all_pairs segs).
  by rewrite length_app, length_map_to_list, IH.
Qed.

Lemma Snapshot_rep kv m : rep kv m -> Snapshot kv = m.
Proof.
  intros Hrep. unfold Snapshot. rewrite all_segments by apply Hrep.
  assert (forall segs d, foldl (fun data seg => foldl (fun d p => <[fst p := snd p]> d) data
             (map_to_list seg)) d segs = foldl (fun d p => <[fst p := snd p]> d) d (all_pairs segs)) as ->.
  { induction segs as [|seg segs IH]; intros d; [done|]. simpl.
    change (all_pairs (seg :: segs)) with (map_to_list seg ++ all_pairs segs).
    by rewrite foldl_app, IH. }
  pose proof (all_pairs_perm _ _ Hrep) as Hp.
  assert (NoDup (all_pairs (segments kv)).*1) as Hnd.
  { rewrite Hp. apply NoDup_fst_map_to_list. }
  rewrite foldl_insert, map_union_empty by done.
  rewrite (list_to_map_proper _ (map_to_list m)) by done. apply list_to_map_to_list.
Qed.

Lemma sort_items_perm l1 l2 :
  NoDup (Key <$> l1) -> l1 ≡ₚ l2 -> sort_items l1 = sort_items l2.
Proof.
  intros Hnd Hp. unfold sort_items.
  apply (StronglySorted_unique_strong key_le);
    [|by apply StronglySorted_merge_sort; apply _..|by rewrite !merge_sort_Permutation].
  intros x y Hx Hy Hxy Hyx. rewrite merge_sort_Permutation in Hx, Hy. rewrite <- Hp in Hy.
  assert (Key x = Key y) as Hk by (by apply (anti_symm String.le)).
  apply list_elem_of_lookup in Hx as [i Hi], Hy as [j Hj].
  assert (i = j) as ->; [|congruence].
  eapply NoDup_lookup; [done|by rewrite list_lookup_fmap, Hi|].
  by rewrite list_lookup_fmap, Hj; simpl; rewrite Hk.
Qed.

Lemma scan_all start end_ segs :
  segs ≫= scan_segment start end_
  = (fun p => {| Key := fst p; Value := snd p |})
      <$> filter (fun p => in_range start end_ p = true) (all_pairs segs).
Proof.
  induction segs as [|seg segs IH]; [done|].
  change (all_pairs (seg :: segs)) with (map_to_list seg ++ all_pairs segs).
  rewrite filter_app, fmap_app, <- IH. done.
Qed.

Lemma scan_keys_NoDup start end_ (m : gmap string string) :
  NoDup (Key <$> scan_segment start end_ m).
Proof.
  unfold scan_segment. rewrite <- list_fmap_compose.
  change (Key ∘ _) with (@fst string string).
  eapply sublist_NoDup; [apply (NoDup_fst_map_to_list m)|].
  apply fmap_sublist, sublist_filter.
Qed.

Lemma RangeScan_rep start end_ limit kv m :
  rep kv m ->
  RangeScan start end_ limit kv =
    if negb (String.leb start end_) then Err ErrInvalidRange
    else if limit <=? 0 then Err ErrInvalidLimit
    else Ok (page limit (scan_segment start end_ m)).
Proof.
  intros Hrep. unfold RangeScan. do 2 (case_match; [done|]). f_equal.
  unfold page.
  rewrite (sort_items_perm (scan_segment start end_ m)
             (take (Z.to_nat (segmentCount kv)) (segments kv) ≫= scan_segment start end_)); [done|..].
  - apply scan_keys_NoDup.
  - rewrite all_segments, scan_all by apply Hrep. unfold scan_segment.
    by rewrite (all_pairs_perm _ _ Hrep).
Qed.

Lemma New_rep cfg :
  SegmentCount cfg < 2 ^ 32 -> 0 < Size (bloomFilter (NewKVStoreWithConfig cfg)) -> rep (NewKVStoreWithConfig cfg) ∅.
Proof.
  intros Hn Hc. constructor; [|intros i seg k Hs|].
  - constructor; simpl.
    + by rewrite length_replicate.
    + case_match; bools; lia.
    + split; [exact Hc|]. simpl. by rewrite length_replicate.
  - simpl in Hs. apply lookup_replicate in Hs as [-> _]. rewrite !lookup_empty. by case_decide.
  - intros k. rewrite lookup_empty. by intros [? ?].
Qed.

(** ** Histories *)

Inductive op :=
| OpPut (k v : string) | OpGet (k : string) | OpDelete (k : string)
| OpBatchPut (pairs : gmap string string)
| OpRangeScan (start end_ : string) (limit : Z)
| OpSnapshot | OpRestore (snap : option (gmap string string)) | OpCount.

Inductive response :=
| RDone | RGet (v : option string) | RBool (b : bool) | RErr (r : result Error unit)
| RRange (r : result Error RangeResult) | RSnap (m : gmap string string) | RCount (n : nat).

Definition step (kv : KVStore) (o : op) : KVStore * response :=
  match o with
  | OpPut k v => (Put k v kv, RDone)
  | OpGet k => (kv, RGet (Get kv k))
  | OpDelete k => let '(kv', b) := Delete k kv in (kv', RBool b)
  | OpBatchPut ps => let '(kv', r) := BatchPut ps kv in (kv', RErr r)
  | OpRangeScan s e l => (kv, RRange (RangeScan s e l kv))
  | OpSnapshot => (kv, RSnap (Snapshot kv))
  | OpRestore sn => let '(kv', r) := Restore sn kv in (kv', RErr r)
  | OpCount => (kv, RCount (Count kv))
  end.

(** The specification: one finite map.  A scan takes the entries of the map
    whose keys lie between the bounds, both included, in the order of their
    keys; the answer holds the first of them, how many there are, and the key
    of the first one left out. *)
Definition spec_entries (start end_ : string) (m : gmap string string) : list (string * string) :=
  merge_sort (fun p q => String.le (fst p) (fst q))
    (map_to_list (filter (fun p => String.le start (fst p) /\ String.le (fst p) end_) m)).

Definition spec_scan (start end_ : string) (limit : nat) (m : gmap string string) : RangeResult :=
  let l := spec_entries start end_ m in
  {| Items := (fun p => {| Key := fst p; Value := snd p |}) <$> take limit l;
     HasMore := bool_decide (drop limit l <> []);
     NextKey := match drop limit l with p :: _ => fst p | [] => "" end;
     rr_Total := Z.of_nat (length l) |}.

Definition spec_step (m : gmap string string) (o : op) : gmap string string * response :=
  match o with
  | OpPut k v => (<[k := v]> m, RDone)
  | OpGet k => (m, RGet (m !! k))
  | OpDelete k => (delete k m, RBool (bool_decide (is_Some (m !! k))))
  | OpBatchPut ps => if bool_decide (ps = ∅) then (m, RErr (Err ErrEmptyBatch)) else (ps ∪ m, RErr (Ok tt))
  | OpRangeScan s e l =>
      (m, RRange (if decide (String.le s e)
                  then if decide (0 < l) then Ok (spec_scan s e (Z.to_nat l) m) else Err ErrInvalidLimit
                  else Err ErrInvalidRange))
  | OpSnapshot => (m, RSnap m)
  | OpRestore None => (m, RErr (Err ErrNilSnapshot))
  | OpRestore (Some m') => (m', RErr (Ok tt))
  | OpCount => (m, RCount (size m))
  end.

Fixpoint run (kv : KVStore) (os : list op) : list response :=
  match os with
  | [] => []
  | o :: os => let '(kv', r) := step kv o in r :: run kv' os
  end.

Fixpoint spec_run (m : gmap string string) (os : list op) : list response :=
  match os with
  | [] => []
  | o :: os => let '(m', r) := spec_step m o in r :: spec_run m' os
  end.

Lemma elem_of_scan start end_ (m : gmap string string) i :
  i ∈ scan_segment start end_ m <->
  m !! Key i = Some (Value i) /\ String.le start (Key i) /\ String.le (Key i) end_.
Proof.
  unfold scan_segment. rewrite list_elem_of_fmap. unfold String.le. split.
  - intros ([k v] & -> & [Hr Hm]%list_elem_of_filter). apply elem_of_map_to_list in Hm.
    unfold in_range in Hr. simpl in *. bools. by rewrite !Is_true_true.
  - intros (Hm & Hs & He). exists (Key i, Value i). destruct i. split; [done|].
    apply list_elem_of_filter. split; [|by apply elem_of_map_to_list].
    unfold in_range. simpl in *. apply Is_true_true in Hs, He. by rewrite Hs, He.
Qed.

Lemma sorted_scan start end_ (m : gmap string string) :
  let l := sort_items (scan_segment start end_ m) in
  StronglySorted key_le l /\ NoDup (Key <$> l)
  /\ forall i, i ∈ l <-> i ∈ scan_segment start end_ m.
Proof.
  cbv zeta. unfold sort_items. split_and!.
  - apply StronglySorted_merge_sort; apply _.
  - rewrite merge_sort_Permutation. apply scan_keys_NoDup.
  - intros i. by rewrite merge_sort_Permutation.
Qed.

Lemma elem_of_spec_entries start end_ m k v :
  (k, v) ∈ spec_entries start end_ m <-> m !! k = Some v /\ String.le start k /\ String.le k end_.
Proof. unfold spec_entries. by rewrite merge_sort_Permutation, elem_of_map_to_list, map_lookup_filter_Some. Qed.

Lemma spec_entries_sorted start end_ m :
  StronglySorted (fun p q => String.le (fst p) (fst q)) (spec_entries start end_ m) /\ NoDup (fst <$> spec_entries start end_ m).
Proof.
  unfold spec_entries. split.
  - apply StronglySorted_merge_sort; [intros p q r Hpq Hqr; by etrans|intros p q; apply (total String.le)].
  - rewrite merge_sort_Permutation. apply NoDup_fst_map_to_list.
Qed.

(** The items the code collects and sorts are the entries of the specification. *)
Lemma sorted_scan_spec start end_ (m : gmap string string) :
  sort_items (scan_segment start end_ m) = (fun p => {| Key := fst p; Value := snd p |}) <$> spec_entries start end_ m.
Proof.
  destruct (sorted_scan start end_ m) as (Hs & Hnd & Hin), (spec_entries_sorted start end_ m) as [Hs' Hnd'].
  assert (forall i, i ∈ (fun p => {| Key := fst p; Value := snd p |}) <$> spec_entries start end_ m <-> i ∈ scan_segment start end_ m) as Hin'.
  { intros [k v]. rewrite elem_of_scan, <- elem_of_spec_entries. rewrite list_elem_of_fmap. simpl. split.
    - intros ([k' v'] & E & Hp). by simplify_eq/=.
    - intros Hp. by exists (k, v). }
  apply (StronglySorted_unique_strong key_le); [|done| |].
  - intros x y Hx Hy Hxy Hyx. apply Hin, elem_of_scan in Hx as [Hx _]. apply Hin', elem_of_scan in Hy as [Hy _].
    assert (Key x = Key y) as Hk by (by apply (anti_symm String.le)). destruct x, y. simpl in *. congruence.
  - clear -Hs'. induction Hs' as [|p l Hl IH Hp]; simpl; constructor; [done|]. apply Forall_fmap. eapply Forall_impl; [exact Hp|]. done.
  - apply NoDup_Permutation; [by eapply NoDup_fmap_1| |].
    + apply (NoDup_fmap_1 Key). rewrite <- list_fmap_compose. exact Hnd'.
    + intros i. by rewrite Hin, Hin'.
Qed.

(** What the code makes of the entries of one map. *)
Lemma page_spec start end_ limit m : 0 < limit ->
  page limit (scan_segment start end_ m) = spec_scan start end_ (Z.to_nat limit) m.
Proof.
  intros Hl. unfold page, spec_scan. rewrite sorted_scan_spec, length_fmap, <- fmap_take, list_lookup_fmap.
  set (l := spec_entries start end_ m). destruct (Z.ltb_spec limit (Z.of_nat (length l))) as [Hlt|Hge].
  - destruct (lookup_lt_is_Some_2 l (Z.to_nat limit)) as [p Hp]; [lia|]. rewrite (drop_S _ _ _ Hp), Hp. done.
  - rewrite (drop_ge l), (take_ge l) by lia. done.
Qed.

Lemma step_rep kv m o :
  rep kv m -> rep (fst (step kv o)) (fst (spec_step m o)) /\ snd (step kv o) = snd (spec_step m o).
Proof.
  intros Hrep. destruct o; simpl.
  - split; [by apply Put_rep|done].
  - split; [done|]. by rewrite (Get_rep _ _ _ Hrep).
  - destruct (Delete k kv) as [kv' b] eqn:Hd.
    by destruct (Delete_rep _ _ _ _ _ Hrep Hd) as [? ->].
  - case_bool_decide as Hps.
    + subst. unfold BatchPut. rewrite bool_decide_true by apply map_size_empty. done.
    + destruct (BatchPut_rep pairs kv m Hrep Hps) as [H1 H2].
      destruct (BatchPut pairs kv). simpl in *. by subst.
  - split; [done|]. rewrite (RangeScan_rep _ _ _ _ _ Hrep). unfold String.le. do 2 f_equal.
    destruct (String.leb start end_); simpl; [|done]. destruct (Z.leb_spec limit 0); [by rewrite decide_False by lia|].
    rewrite decide_True by lia. by rewrite page_spec.
  - split; [done|]. by rewrite (Snapshot_rep _ _ Hrep).
  - destruct snap as [m'|]; [|done].
    destruct (Restore_rep kv m m' Hrep) as [H1 H2]. destruct (Restore _ _). simpl in *. by subst.
  - split; [done|]. by rewrite (Count_rep _ _ Hrep).
Qed.

Lemma run_rep os kv m : rep kv m -> run kv os = spec_run m os.
Proof.
  revert kv m. induction os as [|o os IH]; intros kv m Hrep; [done|]. simpl.
  destruct (step_rep kv m o Hrep) as [Hrep' Hr].
  destruct (step kv o), (spec_step m o). simpl in *. subst. f_equal. by apply IH.
Qed.

(** ** Properties *)

(** C9: the segmented store with its Bloom filter is a finite map.  Every
    history of operations from a new store returns what one map would return:
    no Bloom false negative hides a key, no key is lost to a segment, and a
    range scan returns the first entries of the range in the order of their
    keys, both bounds included, how many there are, and where to go on.  The
    configuration asks for fewer than 2^32 segments, and its capacity and rate
    give the filter at least one bit. *)
Theorem kvstore_refines_map cfg os :
  SegmentCount cfg < 2 ^ 32 -> 0 < Size (bloomFilter (NewKVStoreWithConfig cfg)) ->
  run (NewKVStoreWithConfig cfg) os = spec_run ∅ os.
Proof. intros Hn Hc. apply run_rep. by apply New_rep. Qed.

(** *** Paging *)

(** The tail of the sorted scan from position [n] is the scan that starts at
    the key found there. *)
Lemma scan_tail start end_ (m : gmap string string) n x :
  let l := sort_items (scan_segment start end_ m) in
  l !! n = Some x -> drop n l = sort_items (scan_segment (Key x) end_ m).
Proof.
  cbv zeta. destruct (sorted_scan start end_ m) as (Hs & Hnd & Hin).
  set (l := sort_items _) in *. intros Hx.
  assert (l = take n l ++ drop n l) as Hsplit by (by rewrite take_drop).
  rewrite Hsplit in Hs, Hnd. apply StronglySorted_app in Hs as (Hlt & _ & Hsd).
  rewrite fmap_app in Hnd. apply NoDup_app in Hnd as (_ & Hdisj & Hnd).
  assert (drop n l = x :: drop (S n) l) as Hd by (by apply drop_S).
  destruct (sorted_scan (Key x) end_ m) as (Hs' & Hnd' & Hin').
  assert (x ∈ drop n l) as Hxd by (rewrite Hd; constructor).
  assert (String.le start (Key x)) as Hsx.
  { assert (x ∈ l) as Hxl by (rewrite Hsplit; apply elem_of_app; by right).
    apply Hin, elem_of_scan in Hxl. tauto. }
  apply (StronglySorted_unique_strong key_le); [|done|done|].
  - intros a b Ha Hb Hab Hba. apply Hin', elem_of_scan in Hb as (Hb & _).
    assert (a ∈ l) as Hal by (rewrite Hsplit; apply elem_of_app; by right).
    apply Hin, elem_of_scan in Hal as (Ha' & _).
    assert (Key a = Key b) as Hk by (by apply (anti_symm String.le)).
    destruct a, b. simpl in *. congruence.
  - apply NoDup_Permutation; [by eapply NoDup_fmap_1|by eapply NoDup_fmap_1|].
    intros i. rewrite Hin', elem_of_scan. split.
    + intros Hi. assert (i ∈ l) as Hil by (rewrite Hsplit; apply elem_of_app; by right).
      apply Hin, elem_of_scan in Hil as (? & _ & ?). split_and!; [done| |done].
      rewrite Hd in Hi, Hsd. apply StronglySorted_cons in Hsd as [Hall _].
      apply elem_of_cons in Hi as [->|Hi]; [done|]. by eapply (proj1 (Forall_forall _ _) Hall).
    + intros (Hm & Hle & He).
      assert (i ∈ l) as Hil.
      { apply Hin, elem_of_scan. split_and!; [done| |done]. by trans (Key x). }
      rewrite Hsplit in Hil. apply elem_of_app in Hil as [Hil|]; [|done]. exfalso.
      assert (Key i = Key x) as Hk by (apply (anti_symm String.le); [by apply Hlt|done]).
      apply (Hdisj (Key i)); apply list_elem_of_fmap; eauto.
Qed.

(** Range scans page correctly.  A successful scan returns the first
    [limit] pairs of the range in key order; when there are more, they are
    exactly what the scan from [NextKey] enumerates, so following [NextKey]
    visits every pair of the range once. *)
Theorem RangeScan_pages kv m start end_ limit r :
  rep kv m -> RangeScan start end_ limit kv = Ok r ->
  StronglySorted key_le (Items r) /\ NoDup (Key <$> Items r)
  /\ rr_Total r = Z.of_nat (length (scan_segment start end_ m))
  /\ Z.of_nat (length (Items r)) = Z.min limit (rr_Total r)
  /\ HasMore r = bool_decide (limit < rr_Total r)
  /\ sort_items (scan_segment start end_ m)
     = Items r ++ (if HasMore r then sort_items (scan_segment (NextKey r) end_ m) else []).
Proof.
  intros Hrep. rewrite (RangeScan_rep _ _ _ _ _ Hrep).
  destruct (negb _); [done|]. destruct (limit <=? 0) eqn:Hl; [done|]. bools.
  destruct (sorted_scan start end_ m) as (Hs & Hnd & _).
  assert (length (sort_items (scan_segment start end_ m)) = length (scan_segment start end_ m))
    as Hlen by (unfold sort_items; by rewrite merge_sort_Permutation).
  unfold page. rewrite Hlen.
  set (l := sort_items (scan_segment start end_ m)) in *.
  destruct (limit <? Z.of_nat _) eqn:Hm; intros [= <-]; bools; simpl.
  - assert (is_Some (l !! Z.to_nat limit)) as [x Hx] by (apply lookup_lt_is_Some_2; lia).
    rewrite Hx. rewrite <- (scan_tail start end_ m _ x Hx). fold l.
    rewrite <- (take_drop (Z.to_nat limit) l) in Hs, Hnd. rewrite fmap_app in Hnd.
    apply StronglySorted_app_1_l in Hs. apply NoDup_app in Hnd as [Hnd _].
    split_and!; [done|done|done| | |by rewrite take_drop].
    + rewrite length_take. lia.
    + by rewrite bool_decide_true by lia.
  - split_and!; [done|done|done| | |by rewrite app_nil_r].
    + fold l in Hlen. lia.
    + by rewrite bool_decide_false by lia.
Qed.

(** *** Locking *)

(** Lock order.  [BatchPut] locks exactly the segments it writes, each
    once and in strictly ascending order of their index; so two overlapping
    batches acquire the locks they share in the same order. *)
Theorem batch_locks_ordered kv pairs :
  StronglySorted lt (batch_locks kv pairs)
  /\ (forall i, i ∈ batch_locks kv pairs <->
               exists k, is_Some (pairs !! k) /\ i = getSegmentIndex kv k).
Proof.
  unfold batch_locks. set (l := remove_dups _). split.
  - pose proof (Sorted_merge_sort le l) as Hs.
    assert (NoDup (merge_sort le l)) as Hnd
      by (rewrite merge_sort_Permutation; apply NoDup_remove_dups).
    apply Sorted_StronglySorted in Hs; [|apply _]. revert Hnd.
    induction Hs as [|x k Hs IH Hall]; [constructor|]. intros [Hx Hnd]%NoDup_cons.
    constructor; [by apply IH|]. rewrite Forall_forall in Hall |- *. intros y Hy.
    destruct (decide (x = y)) as [->|]; [done|]. specialize (Hall y Hy). lia.
  - intros i. rewrite merge_sort_Permutation. unfold l. rewrite elem_of_remove_dups, list_elem_of_fmap.
    split.
    + intros ([k v] & -> & Hp%elem_of_map_to_list). eauto.
    + intros (k & [v Hv] & ->). exists (k, v). split; [done|]. by apply elem_of_map_to_list.
Qed.

(** A [Put] that overlaps a [Restore] can lose its key.  If [Restore] runs
    between the two critical sections of [Put], the filter forgets the key that
    [Put] then writes: the segment holds it, and [Get] denies it. *)
Theorem Put_Restore_race kv m k v :
  rep kv m -> 0 < bf_hashCount (bloomFilter kv) ->
  let kv' := put_segment k v (fst (Restore (Some ∅) (put_bloom k kv))) in
  getSegment kv' k !! k = Some v /\ Get kv' k = None.
Proof.
  intros Hrep Hk. cbv zeta.
  destruct (put_bloom_rep kv m k Hrep) as [Hrep1 _].
  destruct (Restore_rep _ _ ∅ Hrep1) as [Hrep2 _].
  set (kv2 := fst (Restore (Some ∅) (put_bloom k kv))) in *.
  assert (getSegment (put_segment k v kv2) k !! k = Some v) as Hg.
  { unfold getSegment.
    change (getSegmentIndex (put_segment k v kv2) k) with (getSegmentIndex kv2 k). simpl.
    rewrite list_lookup_insert_eq by (apply getSegmentIndex_lt, Hrep2). apply lookup_insert_eq. }
  split; [done|]. unfold Get.
  assert (MightContain (bloomFilter (put_segment k v kv2)) k = false) as ->; [|done].
  unfold kv2. simpl. by apply MightContain_Reset.
Qed.

End kvstore.

(** ** Witnesses *)

#[local] Instance demo_env : BloomEnv := {|
  Sum256 k := str_bytes k ++ replicate 16 1;
  math_Log x :=
    if SFeqb x (float_of_int 2) then S754_finite false 6243314768165359 (-53)    (* 0.6931471805599453 *)
    else if SFeqb x rate_default then S754_finite true 5184960683398421 (-50)   (* -4.605170185988091 *)
    else S754_nan;
  uint_wild _ := 2 ^ 63;
|}.

(** The default filter: 95851 bits and seven rounds; 39 bits for four keys. *)
Example default_filter_size :
  (optimalSize 10000 rate_default, optimalHashCount 95851 10000, optimalSize 4 rate_default, optimalHashCount 39 4)
  = (95851, 7, 39, 7).
Proof. vm_compute. reflexivity. Qed.

Definition demo_cfg : Config := {| SegmentCount := 3; BloomCapacity := 4; BloomFalseRate := rate_default |}.

Definition demo_ops : list op :=
  [OpPut "b" "2"; OpPut "a" "1"; OpBatchPut {["c" := "3"; "d" := "4"]}; OpDelete "b"; OpGet "b";
   OpGet "c"; OpRangeScan "a" "z" 2; OpCount; OpSnapshot; OpRestore (Some {["x" := "9"]}); OpGet "a"; OpGet "x"].

Lemma kvstore_refines_map_witness :
  run (NewKVStoreWithConfig demo_cfg) demo_ops = spec_run ∅ demo_ops
  /\ run (NewKVStoreWithConfig demo_cfg) (take 6 demo_ops)
     = [RDone; RDone; RErr (Ok tt); RBool true; RGet None; RGet (Some "3")].
Proof.
  split; [|vm_compute; reflexivity].
  apply kvstore_refines_map; [done|vm_compute; done].
Defined.

Definition demo_store : KVStore := Put "c" "3" (Put "a" "1" (Put "b" "2" (NewKVStoreWithConfig demo_cfg))).

Lemma demo_store_rep : rep demo_store (<["c" := "3"]> (<["a" := "1"]> (<["b" := "2"]> ∅))).
Proof. do 3 apply Put_rep. apply New_rep; [done|vm_compute; done]. Qed.

Definition demo_page : RangeResult :=
  {| Items := [{| Key := "a"; Value := "1" |}; {| Key := "b"; Value := "2" |}];
     HasMore := true; NextKey := "c"; rr_Total := 3 |}.

Lemma RangeScan_pages_witness :
  StronglySorted key_le (Items demo_page) /\ NoDup (Key <$> Items demo_page)
  /\ rr_Total demo_page
     = Z.of_nat (length (scan_segment "a" "z" (<["c" := "3"]> (<["a" := "1"]> (<["b" := "2"]> ∅)))))
  /\ Z.of_nat (length (Items demo_page)) = Z.min 2 (rr_Total demo_page)
  /\ HasMore demo_page = bool_decide (2 < rr_Total demo_page)
  /\ sort_items (scan_segment "a" "z" (<["c" := "3"]> (<["a" := "1"]> (<["b" := "2"]> ∅))))
     = Items demo_page ++ sort_items (scan_segment "c" "z" (<["c" := "3"]> (<["a" := "1"]> (<["b" := "2"]> ∅)))).
Proof.
  apply (RangeScan_pages demo_store _ "a" "z" 2 demo_page); [apply demo_store_rep|].
  vm_compute. reflexivity.
Defined.

Lemma Put_Restore_race_witness :
  let kv' := put_segment "k" "v" (fst (Restore (Some ∅) (put_bloom "k" demo_store))) in
  getSegment kv' "k" !! "k" = Some "v" /\ Get kv' "k" = None.
Proof.
  apply (Put_Restore_race demo_store _ "k" "v" demo_store_rep). vm_compute. reflexivity.
Defined.
