(* ===== verification/RBAC.v ===== *)
(** Role-based access control (src/internal/rbac/rbac.go).

    A [map[K]bool] that only ever stores [true] is a [gset].  Every method runs
    under the lock, so an execution is a sequence of the operations below.  The
    component is proved to implement the RBAC0 model: a user-role assignment, a
    role-permission assignment and the access decision they induce.  Callers
    are assumed not to write through the [*Role] that [CreateRole] returns. *)

From stdpp Require Import base tactics list gmap strings sorting.
From Stdlib Require Import Ascii ZArith Lia.
From S2P Require Import Prelude.

(** [NilDereference] stands for the run-time panic of following a nil pointer. *)
Inductive Error :=
| ErrRoleNotFound | ErrRoleExists | ErrPermissionNotFound | ErrPermissionExists
| ErrUserNotFound | ErrEmptyRoleName | ErrEmptyRoleID | ErrEmptyResource | ErrEmptyAction
| ErrEmptyUserID | ErrRoleInUse | ErrPermissionInUse
| ErrInvalidFormat | NilDereference.

Record Role := { ID : string; Name : string; Description : string }.

Record Permission := { Resource : string; Action : string }.

#[export] Instance Role_eq_dec : EqDecision Role.
Proof. solve_decision. Defined.
#[export] Instance Permission_eq_dec : EqDecision Permission.
Proof. solve_decision. Defined.
#[export] Instance Permission_countable : Countable Permission.
Proof.
  apply (inj_countable' (fun p => (Resource p, Action p))
           (fun q => {| Resource := fst q; Action := snd q |})).
  by intros [].
Defined.

Definition Permission_String (p : Permission) : string := Resource p +:+ ":" +:+ Action p.

(** [strings.SplitN(s, ":", 2)]: the text before and after the first colon. *)
Fixpoint split_colon (s : string) : option (string * string) :=
  match s with
  | EmptyString => None
  | String c s' =>
      if decide (c = ":"%char) then Some (EmptyString, s')
      else match split_colon s' with
           | Some (a, b) => Some (String c a, b)
           | None => None
           end
  end.

Definition ParsePermission (s : string) : result Error Permission :=
  match split_colon s with
  | Some (a, b) => Ok {| Resource := a; Action := b |}
  | None => Err ErrInvalidFormat
  end.

Record RoleWithPermissions := { rwp_Role : Role; rwp_Permissions : list Permission }.
Record UserWithRoles := {
  uwr_UserID : string; uwr_Roles : list Role; uwr_Permissions : list Permission;
}.
Record AccessDecision := { Allowed : bool; Reason : string }.

Record RBAC := {
  roles : gmap string Role;
  roleByName : gmap string string;
  permissions : gset Permission;
  rolePermissions : gmap string (gset Permission);
  userRoles : gmap string (gset string);
}.

#[export] Instance eta_RBAC : Eta RBAC := fun r =>
  {| roles := roles r; roleByName := roleByName r; permissions := permissions r;
     rolePermissions := rolePermissions r; userRoles := userRoles r |}.

Definition NewRBAC : RBAC :=
  {| roles := ∅; roleByName := ∅; permissions := ∅; rolePermissions := ∅; userRoles := ∅ |}.

(** ** Orders used for listings *)

Definition role_le (a b : Role) : Prop := String.le (ID a) (ID b).
#[export] Instance role_le_dec : RelDecision role_le.
Proof. intros a b. unfold role_le. apply _. Defined.

Definition perm_le (a b : Permission) : Prop :=
  if decide (Resource a = Resource b) then String.le (Action a) (Action b)
  else String.le (Resource a) (Resource b).
#[export] Instance perm_le_dec : RelDecision perm_le.
Proof. intros a b. unfold perm_le. destruct (decide _); apply _. Defined.

Definition sort_perms (ps : gset Permission) : list Permission := merge_sort perm_le (elements ps).

(** ** Roles *)

Definition CreateRole (roleID name description : string) (r : RBAC) : RBAC * result Error Role :=
  if decide (roleID = "") then (r, Err ErrEmptyRoleID)
  else if decide (name = "") then (r, Err ErrEmptyRoleName)
  else if roles r !! roleID is Some _ then (r, Err ErrRoleExists)
  else if roleByName r !! name is Some _ then (r, Err ErrRoleExists)
  else
    let role := {| ID := roleID; Name := name; Description := description |} in
    (r <| roles := <[roleID := role]> (roles r) |>
       <| roleByName := <[name := roleID]> (roleByName r) |>
       <| rolePermissions := <[roleID := ∅]> (rolePermissions r) |>, Ok role).

(** Some user holds the role. *)
Definition role_in_use (roleID : string) (r : RBAC) : bool :=
  bool_decide (Exists (fun p => roleID ∈ snd p) (map_to_list (userRoles r))).

Definition DeleteRole (roleID : string) (r : RBAC) : RBAC * result Error unit :=
  if decide (roleID = "") then (r, Err ErrEmptyRoleID)
  else match roles r !! roleID with
       | None => (r, Err ErrRoleNotFound)
       | Some role =>
           if role_in_use roleID r then (r, Err ErrRoleInUse)
           else (r <| roles := delete roleID (roles r) |>
                   <| roleByName := delete (Name role) (roleByName r) |>
                   <| rolePermissions := delete roleID (rolePermissions r) |>, Ok tt)
       end.

Definition GetRole (roleID : string) (r : RBAC) : result Error Role :=
  if decide (roleID = "") then Err ErrEmptyRoleID
  else match roles r !! roleID with
       | None => Err ErrRoleNotFound
       | Some role => Ok role
       end.

Definition GetRoleByName (name : string) (r : RBAC) : result Error Role :=
  if decide (name = "") then Err ErrEmptyRoleName
  else match roleByName r !! name with
       | None => Err ErrRoleNotFound
       | Some roleID =>
           match roles r !! roleID with
           | None => Err NilDereference
           | Some role => Ok role
           end
       end.

Definition ListRoles (r : RBAC) : list Role := merge_sort role_le ((map_to_list (roles r)).*2).

(** ** Permissions *)

Definition RegisterPermission (resource action : string) (r : RBAC) : RBAC * result Error Permission :=
  if decide (resource = "") then (r, Err ErrEmptyResource)
  else if decide (action = "") then (r, Err ErrEmptyAction)
  else
    let perm := {| Resource := resource; Action := action |} in
    if decide (perm ∈ permissions r) then (r, Err ErrPermissionExists)
    else (r <| permissions := {[perm]} ∪ permissions r |>, Ok perm).

(** Some role grants the permission. *)
Definition perm_in_use (perm : Permission) (r : RBAC) : bool :=
  bool_decide (Exists (fun p => perm ∈ snd p) (map_to_list (rolePermissions r))).

Definition UnregisterPermission (resource action : string) (r : RBAC) : RBAC * result Error unit :=
  if decide (resource = "") then (r, Err ErrEmptyResource)
  else if decide (action = "") then (r, Err ErrEmptyAction)
  else
    let perm := {| Resource := resource; Action := action |} in
    if decide (perm ∉ permissions r) then (r, Err ErrPermissionNotFound)
    else if perm_in_use perm r then (r, Err ErrPermissionInUse)
    else (r <| permissions := permissions r ∖ {[perm]} |>, Ok tt).

Definition HasPermission (resource action : string) (r : RBAC) : bool :=
  bool_decide ({| Resource := resource; Action := action |} ∈ permissions r).

Definition ListPermissions (r : RBAC) : list Permission := sort_perms (permissions r).

Definition GrantPermission (roleID resource action : string) (r : RBAC) : RBAC * result Error unit :=
  if decide (roleID = "") then (r, Err ErrEmptyRoleID)
  else if decide (resource = "") then (r, Err ErrEmptyResource)
  else if decide (action = "") then (r, Err ErrEmptyAction)
  else
    let perm := {| Resource := resource; Action := action |} in
    if roles r !! roleID is None then (r, Err ErrRoleNotFound)
    else if decide (perm ∉ permissions r) then (r, Err ErrPermissionNotFound)
    else
      let perms := default ∅ (rolePermissions r !! roleID) in
      (r <| rolePermissions := <[roleID := {[perm]} ∪ perms]> (rolePermissions r) |>, Ok tt).

Definition RevokePermission (roleID resource action : string) (r : RBAC) : RBAC * result Error unit :=
  if decide (roleID = "") then (r, Err ErrEmptyRoleID)
  else if decide (resource = "") then (r, Err ErrEmptyResource)
  else if decide (action = "") then (r, Err ErrEmptyAction)
  else
    let perm := {| Resource := resource; Action := action |} in
    if roles r !! roleID is None then (r, Err ErrRoleNotFound)
    else match rolePermissions r !! roleID with
         | Some perms =>
             if decide (perm ∉ perms) then (r, Err ErrPermissionNotFound)
             else (r <| rolePermissions := <[roleID := perms ∖ {[perm]}]> (rolePermissions r) |>, Ok tt)
         | None => (r, Err ErrPermissionNotFound)
         end.

Definition GetRolePermissions (roleID : string) (r : RBAC) : result Error (list Permission) :=
  if decide (roleID = "") then Err ErrEmptyRoleID
  else if roles r !! roleID is None then Err ErrRoleNotFound
  else match rolePermissions r !! roleID with
       | None => Ok []
       | Some perms => Ok (sort_perms perms)
       end.

Definition GetRoleWithPermissions (roleID : string) (r : RBAC) : result Error RoleWithPermissions :=
  let? role := GetRole roleID r in
  let? perms := GetRolePermissions roleID r in
  Ok {| rwp_Role := role; rwp_Permissions := perms |}.

(** ** Users *)

Definition AssignRole (userID roleID : string) (r : RBAC) : RBAC * result Error unit :=
  if decide (userID = "") then (r, Err ErrEmptyUserID)
  else if decide (roleID = "") then (r, Err ErrEmptyRoleID)
  else if roles r !! roleID is None then (r, Err ErrRoleNotFound)
  else
    let rs := default ∅ (userRoles r !! userID) in
    (r <| userRoles := <[userID := {[roleID]} ∪ rs]> (userRoles r) |>, Ok tt).

Definition RevokeRole (userID roleID : string) (r : RBAC) : RBAC * result Error unit :=
  if decide (userID = "") then (r, Err ErrEmptyUserID)
  else if decide (roleID = "") then (r, Err ErrEmptyRoleID)
  else match userRoles r !! userID with
       | None => (r, Err ErrRoleNotFound)
       | Some rs =>
           if decide (roleID ∉ rs) then (r, Err ErrRoleNotFound)
           else
             let rs := rs ∖ {[roleID]} in
             (r <| userRoles := if decide (size rs = 0%nat) then delete userID (userRoles r)
                                else <[userID := rs]> (userRoles r) |>, Ok tt)
       end.

Definition GetUserRoles (userID : string) (r : RBAC) : result Error (list Role) :=
  if decide (userID = "") then Err ErrEmptyUserID
  else match userRoles r !! userID with
       | None => Err ErrUserNotFound
       | Some roleIDs =>
           Ok (merge_sort role_le (omap (fun id => roles r !! id) (elements roleIDs)))
       end.

(** The union of the permissions of some roles. *)
Definition perms_of (r : RBAC) (roleIDs : gset string) : gset Permission :=
  ⋃ ((fun id => default ∅ (rolePermissions r !! id)) <$> elements roleIDs).

Definition GetUserPermissions (userID : string) (r : RBAC) : result Error (list Permission) :=
  if decide (userID = "") then Err ErrEmptyUserID
  else match userRoles r !! userID with
       | None => Err ErrUserNotFound
       | Some roleIDs => Ok (sort_perms (perms_of r roleIDs))
       end.

Definition GetUserWithRoles (userID : string) (r : RBAC) : result Error UserWithRoles :=
  if decide (userID = "") then Err ErrEmptyUserID
  else
    let? rs := GetUserRoles userID r in
    let? perms := GetUserPermissions userID r in
    Ok {| uwr_UserID := userID; uwr_Roles := rs; uwr_Permissions := perms |}.

Definition deny (why : string) : AccessDecision := {| Allowed := false; Reason := why |}.

Definition CheckPermission (userID resource action : string) (r : RBAC) : AccessDecision :=
  if decide (userID = "") then deny "user id cannot be empty"
  else if decide (resource = "") then deny "resource cannot be empty"
  else if decide (action = "") then deny "action cannot be empty"
  else
    let requested := {| Resource := resource; Action := action |} in
    if decide (requested ∉ permissions r)
    then deny ("permission " +:+ Permission_String requested +:+ " is not registered")
    else match userRoles r !! userID with
         | None => deny "user not found"
         | Some roleIDs =>
             if decide (size roleIDs = 0%nat)
             then deny ("user " +:+ userID +:+ " has no roles assigned")
             else if decide (Exists (fun id => requested ∈ default ∅ (rolePermissions r !! id)) (elements roleIDs))
             then {| Allowed := true; Reason := "" |}
             else deny ("user " +:+ userID +:+ " does not have permission " +:+ Permission_String requested)
         end.

Definition RoleCount (r : RBAC) : nat := size (roles r).
Definition PermissionCount (r : RBAC) : nat := size (permissions r).
Definition UserCount (r : RBAC) : nat := size (userRoles r).

(** ** Executions *)

Inductive op :=
| OpCreateRole (id name descr : string) | OpDeleteRole (id : string)
| OpRegister (res act : string) | OpUnregister (res act : string)
| OpGrant (id res act : string) | OpRevokePermission (id res act : string)
| OpAssign (u id : string) | OpRevokeRole (u id : string).

Definition error_of {A} (x : result Error A) : option Error :=
  match x with Ok _ => None | Err e => Some e end.

(** The state-changing operations; [None] is success. *)
Definition step (r : RBAC) (o : op) : RBAC * option Error :=
  match o with
  | OpCreateRole id name d => let '(r', x) := CreateRole id name d r in (r', error_of x)
  | OpDeleteRole id => let '(r', x) := DeleteRole id r in (r', error_of x)
  | OpRegister res act => let '(r', x) := RegisterPermission res act r in (r', error_of x)
  | OpUnregister res act => let '(r', x) := UnregisterPermission res act r in (r', error_of x)
  | OpGrant id res act => let '(r', x) := GrantPermission id res act r in (r', error_of x)
  | OpRevokePermission id res act => let '(r', x) := RevokePermission id res act r in (r', error_of x)
  | OpAssign u id => let '(r', x) := AssignRole u id r in (r', error_of x)
  | OpRevokeRole u id => let '(r', x) := RevokeRole u id r in (r', error_of x)
  end.

Inductive reachable : RBAC -> Prop :=
| reachable_new : reachable NewRBAC
| reachable_step r o : reachable r -> reachable (fst (step r o)).

(** ** Invariant: referential integrity *)

Record inv (r : RBAC) : Prop := {
  inv_names name id :
    roleByName r !! name = Some id <-> exists role, roles r !! id = Some role /\ Name role = name;
  inv_ids id role : roles r !! id = Some role -> ID role = id /\ id <> "" /\ Name role <> "";
  inv_rp : dom (rolePermissions r) = dom (roles r);
  inv_granted id ps : rolePermissions r !! id = Some ps -> ps ⊆ permissions r;
  inv_users u rs : userRoles r !! u = Some rs -> u <> "" /\ rs <> ∅ /\ rs ⊆ dom (roles r);
  inv_perms p : p ∈ permissions r -> Resource p <> "" /\ Action p <> "";
}.

Lemma NewRBAC_inv : inv NewRBAC.
Proof.
  constructor; simpl; try done; intros *; rewrite ?lookup_empty; try done.
  split; [done|]. by intros (role & Hr & _).
Qed.

Lemma role_in_use_false id r :
  role_in_use id r = false -> forall u rs, userRoles r !! u = Some rs -> id ∉ rs.
Proof.
  unfold role_in_use. intros H u rs Hu Hin. bools. apply H, Exists_exists.
  exists (u, rs). split; [by apply elem_of_map_to_list|done].
Qed.

Lemma perm_in_use_false p r :
  perm_in_use p r = false -> forall id ps, rolePermissions r !! id = Some ps -> p ∉ ps.
Proof.
  unfold perm_in_use. intros H id ps Hu Hin. bools. apply H, Exists_exists.
  exists (id, ps). split; [by apply elem_of_map_to_list|done].
Qed.

Lemma role_has_perms r id role :
  inv r -> roles r !! id = Some role -> exists ps, rolePermissions r !! id = Some ps.
Proof.
  intros Hinv Hr. apply elem_of_dom. rewrite (inv_rp _ Hinv). apply elem_of_dom. eauto.
Qed.

Lemma no_role_no_perms r id :
  inv r -> roles r !! id = None -> rolePermissions r !! id = None.
Proof.
  intros Hinv Hr. apply not_elem_of_dom. rewrite (inv_rp _ Hinv). by apply not_elem_of_dom.
Qed.

Ltac case_op := repeat (case_match; simplify_eq/=; try done).

Lemma CreateRole_inv id name d r : inv r -> inv (fst (CreateRole id name d r)).
Proof.
  intros Hinv. unfold CreateRole. case_op.
  destruct Hinv as [Hn Hi Hrp Hg Hu Hp]. constructor; simpl; try done.
  - intros name' id'. destruct (decide (name' = name)) as [->|Hne].
    + rewrite lookup_insert_eq. split.
      * intros [= <-]. eexists. by rewrite lookup_insert_eq.
      * intros (role & Hr & Hname). destruct (decide (id = id')) as [<-|]; [done|].
        rewrite lookup_insert_ne in Hr by done.
        assert (roleByName r !! name = Some id') by (apply Hn; eauto). congruence.
    + rewrite lookup_insert_ne, Hn by done. split.
      * intros (role & Hr & Hname). exists role. rewrite lookup_insert_ne; [done|]. congruence.
      * intros (role & Hr & Hname). exists role.
        apply lookup_insert_Some in Hr as [[<- <-]|[_ Hr]]; [done|]. done.
  - intros id' role [[<- <-]|[_ Hr]]%lookup_insert_Some; [done|by eauto].
  - by rewrite !dom_insert_L, Hrp.
  - intros id' ps [[<- <-]|[_ Hps]]%lookup_insert_Some; [set_solver|by eauto].
  - intros u rs Hrs. destruct (Hu u rs Hrs) as (? & ? & ?). rewrite dom_insert_L. set_solver.
Qed.

Lemma DeleteRole_inv id r : inv r -> inv (fst (DeleteRole id r)).
Proof.
  intros Hinv. unfold DeleteRole. case_op.
  pose proof (role_in_use_false _ _ ltac:(eassumption)) as Hfree.
  destruct Hinv as [Hn Hi Hrp Hg Hu Hp]. constructor; simpl; try done.
  - intros name' id'. rewrite lookup_delete_Some, Hn. split.
    + intros (Hne & role & Hr & Hname). exists role. rewrite lookup_delete_ne; [done|]. congruence.
    + intros (role & [Hne Hr]%lookup_delete_Some & Hname). split; [|by eauto].
      intros Heq. apply Hne.
      assert (roleByName r !! name' = Some id') by (apply Hn; eauto).
      assert (roleByName r !! name' = Some id) by (apply Hn; eauto). congruence.
  - intros id' role [_ Hr]%lookup_delete_Some. eauto.
  - by rewrite !dom_delete_L, Hrp.
  - intros id' ps [_ Hps]%lookup_delete_Some. eauto.
  - intros u rs Hrs. destruct (Hu u rs Hrs) as (? & ? & ?). specialize (Hfree u rs Hrs).
    rewrite dom_delete_L. set_solver.
Qed.

Lemma RegisterPermission_inv res act r : inv r -> inv (fst (RegisterPermission res act r)).
Proof.
  intros Hinv. unfold RegisterPermission. case_op.
  destruct Hinv as [Hn Hi Hrp Hg Hu Hp]. constructor; simpl; try done.
  - intros id ps Hps. specialize (Hg id ps Hps). set_solver.
  - intros p [->%elem_of_singleton|?]%elem_of_union; [done|by apply Hp].
Qed.

Lemma UnregisterPermission_inv res act r : inv r -> inv (fst (UnregisterPermission res act r)).
Proof.
  intros Hinv. unfold UnregisterPermission. case_op.
  pose proof (perm_in_use_false _ _ ltac:(eassumption)) as Hfree.
  destruct Hinv as [Hn Hi Hrp Hg Hu Hp]. constructor; simpl; try done.
  - intros id ps Hps. specialize (Hg id ps Hps). specialize (Hfree id ps Hps). set_solver.
  - intros p [? _]%elem_of_difference. by apply Hp.
Qed.

Lemma set_perms_inv id role ps r :
  inv r -> roles r !! id = Some role -> ps ⊆ permissions r ->
  inv (r <| rolePermissions := <[id := ps]> (rolePermissions r) |>).
Proof.
  intros [Hn Hi Hrp Hg Hu Hp] Hr Hps. constructor; simpl; try done.
  - rewrite dom_insert_L, Hrp. assert (id ∈ dom (roles r)) by (apply elem_of_dom; eauto). set_solver.
  - intros id' ps' [[<- <-]|[_ ?]]%lookup_insert_Some; [done|by eauto].
Qed.

Lemma GrantPermission_inv id res act r : inv r -> inv (fst (GrantPermission id res act r)).
Proof.
  intros Hinv. unfold GrantPermission. case_op. eapply set_perms_inv; [done..|].
  destruct (role_has_perms _ _ _ Hinv ltac:(eassumption)) as [ps Hps]. rewrite Hps. simpl.
  pose proof (inv_granted _ Hinv _ _ Hps).
  assert ({| Resource := res; Action := act |} ∈ permissions r) by (by apply dec_stable). set_solver.
Qed.

Lemma RevokePermission_inv id res act r : inv r -> inv (fst (RevokePermission id res act r)).
Proof.
  intros Hinv. unfold RevokePermission. case_op. eapply set_perms_inv; [done..|].
  pose proof (inv_granted _ Hinv _ _ ltac:(eassumption)). set_solver.
Qed.

Lemma AssignRole_inv u id r : inv r -> inv (fst (AssignRole u id r)).
Proof.
  intros Hinv. unfold AssignRole. case_op.
  destruct Hinv as [Hn Hi Hrp Hg Hu Hp]. constructor; simpl; try done.
  intros u' rs [[<- <-]|[_ ?]]%lookup_insert_Some; [|by eauto].
  assert (id ∈ dom (roles r)) by (apply elem_of_dom; eauto).
  split_and!; [done|set_solver|]. destruct (userRoles r !! u) as [rs|] eqn:Hrs; simpl; [|set_solver].
  destruct (Hu _ _ Hrs) as (_ & _ & ?). set_solver.
Qed.

Lemma RevokeRole_inv u id r : inv r -> inv (fst (RevokeRole u id r)).
Proof.
  intros Hinv. unfold RevokeRole. do 2 (case_match; [done|]).
  destruct (userRoles r !! u) as [rs0|] eqn:Hrs0; [|done]. case_match; [done|]. simpl.
  destruct Hinv as [Hn Hi Hrp Hg Hu Hp]. constructor; simpl; try done.
  intros u' rs. destruct (decide (size (rs0 ∖ {[id]}) = 0%nat)) as [Hsz|Hsz].
  - intros [_ ?]%lookup_delete_Some. eauto.
  - intros [[<- <-]|[_ ?]]%lookup_insert_Some; [|by eauto].
    destruct (Hu _ _ Hrs0) as (? & _ & ?).
    split_and!; [done| |set_solver]. intros Hemp. apply Hsz. by rewrite Hemp.
Qed.

Lemma step_rbac_inv r o : inv r -> inv (fst (step r o)).
Proof.
  intros Hinv. destruct o; simpl.
  - pose proof (CreateRole_inv id name descr r Hinv). by destruct (CreateRole _ _ _ _).
  - pose proof (DeleteRole_inv id r Hinv). by destruct (DeleteRole _ _).
  - pose proof (RegisterPermission_inv res act r Hinv). by destruct (RegisterPermission _ _ _).
  - pose proof (UnregisterPermission_inv res act r Hinv). by destruct (UnregisterPermission _ _ _).
  - pose proof (GrantPermission_inv id res act r Hinv). by destruct (GrantPermission _ _ _ _).
  - pose proof (RevokePermission_inv id res act r Hinv). by destruct (RevokePermission _ _ _ _).
  - pose proof (AssignRole_inv u id r Hinv). by destruct (AssignRole _ _ _).
  - pose proof (RevokeRole_inv u id r Hinv). by destruct (RevokeRole _ _ _).
Qed.

Lemma reachable_rbac_inv r : reachable r -> inv r.
Proof. induction 1; [apply NewRBAC_inv|by apply step_rbac_inv]. Qed.

(** ** The RBAC0 relations *)

(** User-role assignment, role-permission assignment, and access. *)
Definition UA (r : RBAC) (u id : string) : Prop := id ∈ default ∅ (userRoles r !! u).
Definition PA (r : RBAC) (id : string) (p : Permission) : Prop :=
  p ∈ default ∅ (rolePermissions r !! id).
Definition can (r : RBAC) (u : string) (p : Permission) : Prop :=
  exists id, UA r u id /\ PA r id p.

(** A successful operation [o] takes the assignments [ua], [pa] to ... *)
Definition ua_after (o : op) (ua : string -> string -> Prop) (u id : string) : Prop :=
  match o with
  | OpAssign u0 id0 => ua u id \/ (u = u0 /\ id = id0)
  | OpRevokeRole u0 id0 => ua u id /\ ~ (u = u0 /\ id = id0)
  | _ => ua u id
  end.

Definition pa_after (o : op) (pa : string -> Permission -> Prop) (id : string) (p : Permission) : Prop :=
  match o with
  | OpGrant id0 res act => pa id p \/ (id = id0 /\ p = {| Resource := res; Action := act |})
  | OpRevokePermission id0 res act => pa id p /\ ~ (id = id0 /\ p = {| Resource := res; Action := act |})
  | OpDeleteRole id0 => pa id p /\ id <> id0
  | _ => pa id p
  end.

Lemma UA_dom r u id : inv r -> UA r u id -> is_Some (roles r !! id).
Proof.
  intros Hinv. unfold UA. destruct (userRoles r !! u) as [rs|] eqn:Hu; simpl; [|set_solver].
  destruct (inv_users _ Hinv _ _ Hu) as (_ & _ & Hsub). intros Hin%Hsub. by apply elem_of_dom.
Qed.

Lemma lookup_insert_default {A} `{Countable A} (m : gmap string (gset A)) k X k' (x : A) :
  x ∈ default ∅ (<[k := X]> m !! k') <->
  (k' = k /\ x ∈ X) \/ (k' <> k /\ x ∈ default ∅ (m !! k')).
Proof.
  destruct (decide (k' = k)) as [->|Hne].
  - rewrite lookup_insert_eq. simpl. naive_solver.
  - rewrite lookup_insert_ne by done. naive_solver.
Qed.

Lemma lookup_delete_default {A} `{Countable A} (m : gmap string (gset A)) k k' (x : A) :
  x ∈ default ∅ (delete k m !! k') <-> k' <> k /\ x ∈ default ∅ (m !! k').
Proof.
  destruct (decide (k' = k)) as [->|Hne].
  - rewrite lookup_delete_eq. simpl. set_solver.
  - rewrite lookup_delete_ne by done. naive_solver.
Qed.

(** One step of each kind, on success. *)
Lemma step_assignments r o r' :
  inv r -> step r o = (r', None) ->
  (forall u id, UA r' u id <-> ua_after o (UA r) u id)
  /\ (forall id p, PA r' id p <-> pa_after o (PA r) id p).
Proof.
  intros Hinv Hs. destruct o; simpl in Hs.
  - destruct (CreateRole _ _ _ _) as [r1 x] eqn:E. simplify_eq. unfold CreateRole in E.
    case_op. split; [done|]. intros id' p. unfold PA; simpl. rewrite lookup_insert_default.
    destruct (decide (id' = id)) as [->|]; [|naive_solver].
    rewrite (no_role_no_perms r id) by done. simpl. set_solver.
  - destruct (DeleteRole _ _) as [r1 x] eqn:E. simplify_eq. unfold DeleteRole in E.
    case_op. split; [done|]. intros id' p. unfold PA; simpl. rewrite lookup_delete_default. naive_solver.
  - destruct (RegisterPermission _ _ _) as [r1 x] eqn:E. simplify_eq. unfold RegisterPermission in E.
    by case_op.
  - destruct (UnregisterPermission _ _ _) as [r1 x] eqn:E. simplify_eq. unfold UnregisterPermission in E.
    by case_op.
  - destruct (GrantPermission _ _ _ _) as [r1 x] eqn:E. simplify_eq. unfold GrantPermission in E.
    case_op. split; [done|]. intros id' p. unfold PA; simpl. rewrite lookup_insert_default.
    destruct (decide (id' = id)) as [->|]; set_solver.
  - destruct (RevokePermission _ _ _ _) as [r1 x] eqn:E. simplify_eq. unfold RevokePermission in E.
    case_op. split; [done|]. intros id' p. unfold PA; simpl. rewrite lookup_insert_default.
    destruct (decide (id' = id)) as [->|]; [|naive_solver].
    match goal with H : rolePermissions r !! id = Some _ |- _ => rewrite H end. set_solver.
  - destruct (AssignRole _ _ _) as [r1 x] eqn:E. simplify_eq. unfold AssignRole in E.
    case_op. split; [|done]. intros u' id'. unfold UA; simpl. rewrite lookup_insert_default.
    destruct (decide (u' = u)) as [->|]; set_solver.
  - destruct (RevokeRole _ _ _) as [r1 x] eqn:E. simplify_eq. unfold RevokeRole in E.
    do 2 (case_match; [by simplify_eq/=|]).
    destruct (userRoles r !! u) as [rs|] eqn:Hrs; [|by simplify_eq/=].
    case_match; [by simplify_eq/=|]. simplify_eq/=. split; [|done]. intros u' id'. unfold UA; simpl.
    destruct (decide (size (rs ∖ {[id]}) = 0%nat)) as [Hsz|Hsz].
    + rewrite lookup_delete_default. apply size_empty_inv in Hsz.
      destruct (decide (u' = u)) as [->|]; [|naive_solver]. rewrite Hrs. simpl. set_solver.
    + rewrite lookup_insert_default.
      destruct (decide (u' = u)) as [->|]; [|naive_solver]. rewrite Hrs. simpl. set_solver.
Qed.

Lemma step_error r o r' e : step r o = (r', Some e) -> r' = r.
Proof.
  destruct o; simpl; intros Hs;
    match type of Hs with context [let '(_, _) := ?x in _] => destruct x as [r1 x0] eqn:E end;
    simplify_eq; destruct x0; simplify_eq/=;
    unfold CreateRole, DeleteRole, RegisterPermission, UnregisterPermission, GrantPermission,
      RevokePermission, AssignRole, RevokeRole in E; by case_op.
Qed.

(** Access is decided by the registered permissions and the two assignments. *)
Lemma CheckPermission_can r u res act :
  inv r ->
  Allowed (CheckPermission u res act r) = true <-> can r u {| Resource := res; Action := act |}.
Proof.
  intros Hinv. unfold CheckPermission, can, UA, PA. set (p := {| Resource := res; Action := act |}).
  assert (forall id, p ∈ default ∅ (rolePermissions r !! id) -> p ∈ permissions r) as Hreg.
  { intros id. destruct (rolePermissions r !! id) as [ps|] eqn:Hps; simpl; [|set_solver].
    pose proof (inv_granted _ Hinv _ _ Hps). set_solver. }
  destruct (userRoles r !! u) as [rs|] eqn:Hu; simpl.
  2: { repeat case_match; simpl; (split; [done|]); intros (id & Hid & _); set_solver. }
  destruct (inv_users _ Hinv _ _ Hu) as (Hu0 & Hrs & _).
  rewrite decide_False by done.
  assert (forall P : Prop, ((exists id, id ∈ rs /\ p ∈ default ∅ (rolePermissions r !! id)) -> P) ->
            ~ P -> false = true <-> exists id, id ∈ rs /\ p ∈ default ∅ (rolePermissions r !! id)) as Hno.
  { intros P H1 H2. split; [done|]. intros H. by apply H1 in H. }
  destruct (decide (res = "")) as [->|Hres].
  { apply (Hno (p ∈ permissions r)); [naive_solver|]. intros [? _]%(inv_perms _ Hinv). done. }
  destruct (decide (act = "")) as [->|Hact].
  { apply (Hno (p ∈ permissions r)); [naive_solver|]. intros [_ ?]%(inv_perms _ Hinv). done. }
  destruct (decide (p ∉ permissions r)) as [Hp|Hp].
  { apply (Hno (p ∈ permissions r)); [naive_solver|done]. }
  destruct (decide (size rs = 0%nat)) as [Hsz|_].
  { apply size_empty_inv in Hsz. by apply leibniz_equiv in Hsz. }
  case_decide as Hex; simpl; rewrite Exists_exists in Hex; setoid_rewrite elem_of_elements in Hex.
  - done.
  - split; [done|]. intros H. done.
Qed.

(** ** Properties *)

(** Referential integrity.  In every reachable state the name index is the
    inverse of the role table, every role has its permission set and every
    granted permission is registered, and users hold only existing roles; so
    [GetRoleByName] never follows a dangling id. *)
Theorem rbac_integrity r name :
  reachable r -> inv r /\ GetRoleByName name r <> Err NilDereference.
Proof.
  intros Hinv%reachable_rbac_inv. split; [done|]. unfold GetRoleByName.
  destruct (decide (name = "")); [done|]. destruct (roleByName r !! name) as [id|] eqn:Hn; [|done].
  apply (inv_names _ Hinv) in Hn as (role & -> & _). done.
Qed.

(** The access decision is the RBAC0 one.  In every reachable state
    [CheckPermission] allows exactly the users who hold a role that grants the
    permission, and the listing of [GetUserPermissions] agrees with it. *)
Theorem CheckPermission_sound_complete r u res act :
  reachable r ->
  let p := {| Resource := res; Action := act |} in
  (Allowed (CheckPermission u res act r) = true <-> can r u p)
  /\ (forall ps, GetUserPermissions u r = Ok ps -> (p ∈ ps <-> can r u p)).
Proof.
  intros Hinv%reachable_rbac_inv. cbv zeta. split; [by apply CheckPermission_can|].
  unfold GetUserPermissions, can, UA. intros ps. destruct (decide (u = "")); [done|].
  destruct (userRoles r !! u) as [rs|] eqn:Hu; [|done]. intros [= <-].
  unfold sort_perms, perms_of. rewrite merge_sort_Permutation, elem_of_elements, elem_of_union_list.
  setoid_rewrite list_elem_of_fmap. setoid_rewrite elem_of_elements. unfold PA. simpl. naive_solver.
Qed.

(** Every operation changes access exactly as RBAC0 says.  A failed
    operation changes nothing; a successful one updates the assignments
    pointwise, and only assigning a role or granting a permission can give
    anybody a new access: deleting roles and unregistering permissions leave
    every user's access unchanged. *)
Theorem operations_refine_RBAC0 r o r' err :
  reachable r -> step r o = (r', err) ->
  match err with
  | Some _ => r' = r
  | None =>
      (forall u id, UA r' u id <-> ua_after o (UA r) u id)
      /\ (forall id p, PA r' id p <-> pa_after o (PA r) id p)
      /\ (forall u p, can r' u p -> ~ can r u p ->
            (exists id, o = OpAssign u id) \/ (exists id, o = OpGrant id (Resource p) (Action p)))
      /\ (forall u p, match o with
                      | OpDeleteRole _ | OpUnregister _ _ | OpCreateRole _ _ _ | OpRegister _ _ =>
                          can r' u p <-> can r u p
                      | _ => True
                      end)
  end.
Proof.
  intros Hinv%reachable_rbac_inv Hs. destruct err as [e|]; [by eapply step_error|].
  destruct (step_assignments _ _ _ Hinv Hs) as [Hua Hpa]. split_and!; [done|done| |].
  - intros u p (id & Hu & Hp) Hno. apply Hua in Hu. apply Hpa in Hp.
    destruct o; simpl in *; try (exfalso; apply Hno; exists id; tauto).
    + destruct Hp as [Hp|[-> ->]]; [exfalso; apply Hno; by exists id|]. simpl. eauto.
    + destruct Hu as [Hu|[-> ->]]; [exfalso; apply Hno; by exists id|]. eauto.
  - intros u p. unfold can. destruct o; try done; setoid_rewrite Hua; setoid_rewrite Hpa; simpl; try done.
    split; [naive_solver|]. intros (id' & Hu & Hp). exists id'. split_and!; [done..|].
    intros ->. unfold step, DeleteRole in Hs. case_op.
    pose proof (role_in_use_false _ _ ltac:(eassumption)) as Hfree.
    unfold UA in Hu. destruct (userRoles r !! u) as [rs|] eqn:Hrs; simpl in Hu; [|set_solver].
    by apply (Hfree u rs).
Qed.

Lemma split_colon_Some s a b : split_colon s = Some (a, b) -> s = a +:+ ":" +:+ b.
Proof.
  revert a b. induction s as [|c s IH]; intros a b; simpl; [done|].
  case_decide as Hc; [intros [= <- <-]; by subst|].
  destruct (split_colon s) as [[a' b']|]; [|done]. intros [= <- <-].
  rewrite (IH _ _ eq_refl). done.
Qed.

Lemma split_colon_app a b : split_colon a = None -> split_colon (a +:+ ":" +:+ b) = Some (a, b).
Proof.
  induction a as [|c a IH]; intros H; simpl in *; [done|].
  case_decide; [done|]. destruct (split_colon a) as [[? ?]|]; [done|]. by rewrite IH.
Qed.

(** Permission strings.  What [ParsePermission] accepts, printing gives
    back; and a permission whose resource contains no colon is read back as
    itself. *)
Theorem ParsePermission_roundtrip s p :
  (ParsePermission s = Ok p -> Permission_String p = s)
  /\ (split_colon (Resource p) = None -> ParsePermission (Permission_String p) = Ok p).
Proof.
  unfold ParsePermission, Permission_String. split.
  - destruct (split_colon s) as [[a b]|] eqn:H; [|done]. intros [= <-]. simpl.
    by rewrite (split_colon_Some _ _ _ H).
  - intros H. rewrite (split_colon_app _ _ H). by destruct p.
Qed.

(** ** Witnesses *)

Definition exec (r : RBAC) (os : list op) : RBAC := foldl (fun r o => fst (step r o)) r os.

Lemma reachable_exec os r : reachable r -> reachable (exec r os).
Proof.
  revert r. induction os as [|o os IH]; intros r Hr; [done|]. simpl. apply IH. by constructor.
Qed.

Definition demo_ops : list op :=
  [OpCreateRole "r1" "editor" ""; OpRegister "doc" "write"; OpGrant "r1" "doc" "write";
   OpAssign "ann" "r1"; OpCreateRole "r2" "guest" ""].

Definition demo : RBAC := exec NewRBAC demo_ops.

Lemma demo_reachable : reachable demo.
Proof. apply reachable_exec. constructor. Qed.

Lemma rbac_integrity_witness :
  (inv demo /\ GetRoleByName "editor" demo <> Err NilDereference)
  /\ GetRoleByName "editor" demo = Ok {| ID := "r1"; Name := "editor"; Description := "" |}.
Proof. split; [apply (rbac_integrity demo "editor" demo_reachable)|vm_compute; reflexivity]. Defined.

Lemma CheckPermission_sound_complete_witness :
  ((Allowed (CheckPermission "ann" "doc" "write" demo) = true
      <-> can demo "ann" {| Resource := "doc"; Action := "write" |})
   /\ (forall ps, GetUserPermissions "ann" demo = Ok ps ->
         ({| Resource := "doc"; Action := "write" |} ∈ ps
          <-> can demo "ann" {| Resource := "doc"; Action := "write" |})))
  /\ Allowed (CheckPermission "ann" "doc" "write" demo) = true
  /\ Allowed (CheckPermission "bob" "doc" "write" demo) = false.
Proof.
  split; [apply (CheckPermission_sound_complete demo "ann" "doc" "write" demo_reachable)|].
  vm_compute. done.
Defined.

Lemma operations_refine_RBAC0_witness :
  fst (step demo (OpDeleteRole "r1")) = demo
  /\ snd (step demo (OpDeleteRole "r1")) = Some ErrRoleInUse
  /\ snd (step demo (OpDeleteRole "r2")) = None.
Proof.
  split; [|vm_compute; done].
  apply (operations_refine_RBAC0 demo (OpDeleteRole "r1") _ (Some ErrRoleInUse) demo_reachable).
  vm_compute. reflexivity.
Defined.

Lemma ParsePermission_roundtrip_witness :
  Permission_String {| Resource := "doc"; Action := "read:own" |} = "doc:read:own"
  /\ ParsePermission "doc:read:own" = Ok {| Resource := "doc"; Action := "read:own" |}
  /\ ParsePermission "doc" = Err ErrInvalidFormat.
Proof.
  split; [|vm_compute; done].
  apply (ParsePermission_roundtrip "doc:read:own"). vm_compute. reflexivity.
Defined.
