(* ===== verification/GoStrings.v ===== *)
(** Decimal numbers and string functions of Go's standard library: [%d] and
    [%0nd] of fmt, [strconv.Atoi], [strings.HasSuffix], [strings.Split]. *)

From stdpp Require Import base tactics list strings.
From Stdlib Require Import Ascii ZArith Lia.
From S2P Require Import Prelude.

Definition digit (n : Z) : ascii := ascii_of_nat (Z.to_nat (48 + n)).

Fixpoint digits (fuel : nat) (n : Z) (acc : string) : string :=
  match fuel with
  | O => acc
  | S fuel =>
      let acc := String (digit (n mod 10)) acc in
      if n / 10 =? 0 then acc else digits fuel (n / 10) acc
  end.

Fixpoint zeros (n : nat) (s : string) : string :=
  match n with O => s | S n => String "0"%char (zeros n s) end.

(** [%0wd]: padded with zeros to [w] characters, the sign among them; an int64
    has at most 19 digits.  [%d] is the width 0. *)
Definition fmt_padded (w : nat) (id : Z) : string :=
  let ds := digits 19 (Z.abs id) "" in
  if id <? 0 then String "-"%char (zeros (w - 1 - String.length ds) ds)
  else zeros (w - String.length ds) ds.

Definition digit_value (c : ascii) : option Z :=
  let n := byte_of_ascii c - 48 in
  if (0 <=? n) && (n <=? 9) then Some n else None.

Fixpoint parse_digits (s : string) (v : Z) : option Z :=
  match s with
  | EmptyString => Some v
  | String c s => match digit_value c with Some d => parse_digits s (v * 10 + d) | None => None end
  end.

(** [strconv.Atoi]: an optional sign, one or more digits, int64 range. *)
Definition Atoi (s : string) : option Z :=
  let unsigned s := if decide (s = "") then None else parse_digits s 0 in
  let v := match s with
           | String "-"%char s => Z.opp <$> unsigned s
           | String "+"%char s => unsigned s
           | _ => unsigned s
           end in
  match v with
  | Some n => if (- 2 ^ 63 <=? n) && (n <? 2 ^ 63) then Some n else None
  | None => None
  end.

(** Cut the last [n] characters. *)
Definition trim_suffix_len (n : nat) (s : string) : string :=
  String.substring 0 (String.length s - n) s.

Definition has_suffix (suf s : string) : bool :=
  (String.length suf <=? String.length s)%nat
  && bool_decide (String.substring (String.length s - String.length suf) (String.length suf) s = suf).

(** [strings.Split] at a separator of one character. *)
Fixpoint split_on (c : ascii) (s : string) : list string :=
  match s with
  | EmptyString => [EmptyString]
  | String x s =>
      if decide (x = c) then EmptyString :: split_on c s
      else match split_on c s with
           | [] => [String x EmptyString]
           | part :: parts => String x part :: parts
           end
  end.

(** ** Round trips *)

Lemma digit_value_digit d : 0 <= d < 10 -> digit_value (digit d) = Some d.
Proof.
  intros Hd. assert (d ∈ [0;1;2;3;4;5;6;7;8;9]) as Hin by (rewrite !elem_of_cons; lia).
  repeat (apply elem_of_cons in Hin as [->|Hin]; [reflexivity|]). by apply elem_of_nil in Hin.
Qed.

Lemma digits_S fuel n acc :
  digits (S fuel) n acc =
    if n / 10 =? 0 then String (digit (n mod 10)) acc
    else digits fuel (n / 10) (String (digit (n mod 10)) acc).
Proof. done. Qed.

Lemma parse_digits_digits fuel n acc :
  0 <= n < 10 ^ Z.of_nat (S fuel) -> parse_digits (digits (S fuel) n acc) 0 = parse_digits acc n.
Proof.
  revert n acc. induction fuel as [|fuel IH]; intros n acc Hn; rewrite digits_S;
    pose proof (Z.mod_pos_bound n 10 ltac:(lia)); pose proof (Z.div_mod n 10 ltac:(lia)).
  - change (10 ^ Z.of_nat 1) with 10 in Hn. rewrite Z.div_small by lia. simpl. rewrite digit_value_digit by lia. f_equal. rewrite Z.mod_small; lia.
  - destruct (Z.eqb_spec (n / 10) 0) as [E|E].
    + simpl. rewrite digit_value_digit by lia. f_equal. lia.
    + rewrite IH.
      * simpl. rewrite digit_value_digit by lia. f_equal. lia.
      * split; [lia|]. apply Z.div_lt_upper_bound; [lia|].
        rewrite (Nat2Z.inj_succ (S fuel)), Z.pow_succ_r in Hn; lia.
Qed.

(** A string that starts with a decimal digit. *)
Definition numeric (s : string) : Prop :=
  match s with String c _ => is_Some (digit_value c) | EmptyString => False end.

Lemma digits_numeric fuel n acc : 0 <= n -> numeric (digits (S fuel) n acc).
Proof.
  revert n acc. induction fuel as [|fuel IH]; intros n acc Hn; rewrite digits_S;
    pose proof (Z.mod_pos_bound n 10 ltac:(lia)); destruct (n / 10 =? 0); simpl;
    rewrite ?digit_value_digit by lia; eauto. apply IH. apply Z.div_pos; lia.
Qed.

Lemma zeros_numeric k s : numeric s -> numeric (zeros k s).
Proof. destruct k; [done|]. simpl. by eexists. Qed.

Lemma parse_zeros k s : parse_digits (zeros k s) 0 = parse_digits s 0.
Proof. induction k as [|k IH]; [done|]. simpl. apply IH. Qed.

Lemma Atoi_numeric s n :
  numeric s -> parse_digits s 0 = Some n -> - 2 ^ 63 <= n < 2 ^ 63 -> Atoi s = Some n.
Proof.
  destruct s as [|c s]; [done|]. simpl numeric. intros [d Hc] Hp Hn.
  assert (forall b : bool, (if (- 2 ^ 63 <=? n) && (n <? 2 ^ 63) then Some n else None) = Some n) as Hr.
  { intros _. rewrite (proj2 (Z.leb_le _ _)), (proj2 (Z.ltb_lt _ _)) by lia. done. }
  unfold Atoi. destruct c as [[] [] [] [] [] [] [] []]; vm_compute in Hc; try discriminate Hc;
    case_decide; try done; rewrite Hp; exact (Hr true).
Qed.

Lemma fmt_padded_Atoi w i : 0 <= i < 2 ^ 63 -> Atoi (fmt_padded w i) = Some i.
Proof.
  intros Hi. unfold fmt_padded. destruct (Z.ltb_spec i 0); [lia|]. rewrite Z.abs_eq by lia.
  apply Atoi_numeric; [apply zeros_numeric, digits_numeric; lia| |lia].
  rewrite parse_zeros, parse_digits_digits; [done|]. lia.
Qed.

Lemma substring_all b : String.substring 0 (String.length b) b = b.
Proof. induction b as [|c b IH]; simpl; [done|]. by rewrite IH. Qed.

Lemma string_nil_r s : s +:+ "" = s.
Proof. induction s as [|c s IH]; [done|]. by apply (f_equal (String c)). Qed.

Lemma substring_app_l a b : String.substring 0 (String.length a) (a +:+ b) = a.
Proof. induction a as [|c a IH]; simpl; [by destruct b|]. by rewrite IH. Qed.

Lemma substring_app_r a b : String.substring (String.length a) (String.length b) (a +:+ b) = b.
Proof.
  induction a as [|c a IH]; [|done]. apply substring_all.
Qed.

Lemma string_length_app a b : String.length (a +:+ b) = (String.length a + String.length b)%nat.
Proof. induction a as [|c a IH]; simpl; [done|]. by rewrite IH. Qed.

Lemma trim_suffix_app s suf : trim_suffix_len (String.length suf) (s +:+ suf) = s.
Proof.
  unfold trim_suffix_len. rewrite string_length_app, Nat.add_sub. apply substring_app_l.
Qed.

Lemma has_suffix_app s suf : has_suffix suf (s +:+ suf) = true.
Proof.
  unfold has_suffix. rewrite string_length_app, Nat.add_sub.
  rewrite substring_app_r, bool_decide_eq_true_2 by done.
  by rewrite (proj2 (Nat.leb_le _ _)) by lia.
Qed.

Lemma string_assoc a b c : (a +:+ b) +:+ c = a +:+ (b +:+ c).
Proof. induction a as [|x a IH]; [done|]. by apply (f_equal (String x)). Qed.

Lemma prefix_nil s : String.prefix "" s = true.
Proof. by destruct s. Qed.

(** ** Splitting *)

(** The character does not occur. *)
Fixpoint free_of (c : ascii) (s : string) : Prop :=
  match s with EmptyString => True | String x s => x <> c /\ free_of c s end.

Lemma split_on_free c s : free_of c s -> split_on c s = [s].
Proof. induction s as [|x s IH]; simpl; [done|]. intros [Hx Hs]. rewrite decide_False by done. by rewrite IH. Qed.

Lemma split_on_app c a b : free_of c a -> split_on c (a +:+ String c b) = a :: split_on c b.
Proof.
  induction a as [|x a IH]; intros Ha.
  - change ("" +:+ String c b) with (String c b). simpl. by rewrite decide_True.
  - destruct Ha as [Hx Ha]. change (String x a +:+ String c b) with (String x (a +:+ String c b)). simpl.
    rewrite decide_False by done. by rewrite IH.
Qed.

Lemma digit_free d c : 0 <= d < 10 -> digit_value c = None -> digit d <> c.
Proof. intros Hd Hc <-. by rewrite digit_value_digit in Hc. Qed.

Lemma digits_free fuel n acc c : 0 <= n -> digit_value c = None -> free_of c acc -> free_of c (digits fuel n acc).
Proof.
  intros Hn Hc. revert n acc Hn. induction fuel as [|fuel IH]; intros n acc Hn Ha; [done|]. rewrite digits_S.
  assert (free_of c (String (digit (n mod 10)) acc)) as Ha'.
  { split; [|done]. apply digit_free; [|done]. apply Z.mod_pos_bound. lia. }
  destruct (n / 10 =? 0); [done|]. apply IH; [|done]. apply Z.div_pos; lia.
Qed.

Lemma zeros_free k s c : digit_value c = None -> free_of c s -> free_of c (zeros k s).
Proof. intros Hc Hs. induction k as [|k IH]; [done|]. split; [|done]. by apply (digit_free 0). Qed.

Lemma fmt_padded_free w i c : 0 <= i -> digit_value c = None -> free_of c (fmt_padded w i).
Proof.
  intros Hi Hc. unfold fmt_padded. destruct (Z.ltb_spec i 0); [lia|]. rewrite Z.abs_eq by lia.
  apply zeros_free; [done|]. by apply digits_free.
Qed.
