(* ===== verification/GoScan.v ===== *)
(** String scanning of Go's standard library: [strings.HasPrefix],
    [strings.TrimPrefix], the part before [strings.Index], [strings.SplitN] into
    two, and [fmt.Sscanf] with the format [%d]. *)

From stdpp Require Import base tactics option list strings.
From Stdlib Require Import Ascii ZArith Lia.
From S2P Require Import Prelude GoStrings.

Fixpoint drop_string (n : nat) (s : string) : string :=
  match n, s with
  | S n, String _ s => drop_string n s
  | _, _ => s
  end.

Definition HasPrefix (s p : string) : bool := String.prefix p s.

Definition TrimPrefix (s p : string) : string :=
  if HasPrefix s p then drop_string (String.length p) s else s.

(** [s[:strings.Index(s, sub)]], [None] when the index is -1. *)
Fixpoint before (sub s : string) : option string :=
  if HasPrefix s sub then Some ""
  else match s with
       | EmptyString => None
       | String c s => String c <$> before sub s
       end.

(** [strings.SplitN(s, sep, 2)] at a separator of one character. *)
Fixpoint SplitN2 (s : string) (sep : ascii) : string * option string :=
  match s with
  | EmptyString => ("", None)
  | String c s =>
      if decide (c = sep) then ("", Some s)
      else let '(l, r) := SplitN2 s sep in (String c l, r)
  end.

(** ** Sscanf with %d *)

(** The bytes of the white space character at the front of a string, 0 when
    there is none: the table of package fmt, in UTF-8. *)
Definition space_bytes (bs : list Z) : nat :=
  match bs with
  | 194 :: b :: _ => if (b =? 133) || (b =? 160) then 2 else 0
  | 225 :: 154 :: 128 :: _ => 3
  | 226 :: 128 :: b :: _ =>
      if ((128 <=? b) && (b <=? 138)) || (b =? 168) || (b =? 169) || (b =? 175) then 3 else 0
  | 226 :: 129 :: 159 :: _ => 3
  | 227 :: 128 :: 128 :: _ => 3
  | b :: _ => if ((9 <=? b) && (b <=? 13)) || (b =? 32) then 1 else 0
  | [] => 0
  end.

(** [SkipSpace]: a newline is an error. *)
Fixpoint skip_space (fuel : nat) (s : string) : option string :=
  match fuel with
  | O => Some s
  | S fuel =>
      match str_bytes s with
      | 10 :: _ => None
      | bs => match space_bytes bs with
              | O => Some s
              | n => skip_space fuel (drop_string n s)
              end
      end
  end.

(** The digits at the front of a string: their value and whether there are any. *)
Fixpoint scan_digits (s : string) (v : Z) (any : bool) : option Z :=
  match s with
  | String c s' =>
      match digit_value c with
      | Some d => scan_digits s' (v * 10 + d) true
      | None => if any then Some v else None
      end
  | EmptyString => if any then Some v else None
  end.

(** [fmt.Sscanf(s, "%d", &x)]: what follows the number is ignored. *)
Definition Sscanf_d (s : string) : option Z :=
  s ← skip_space (S (String.length s)) s;
  v ← match s with
      | String "-"%char s => Z.opp <$> scan_digits s 0 false
      | String "+"%char s => scan_digits s 0 false
      | _ => scan_digits s 0 false
      end;
  if (- 2 ^ 63 <=? v) && (v <? 2 ^ 63) then Some v else None.

Example Sscanf_d_tail : Sscanf_d "  -12x" = Some (-12).
Proof. vm_compute. reflexivity. Qed.

(** ** Lemmas *)

Lemma HasPrefix_app p s : HasPrefix (p +:+ s) p = true.
Proof.
  unfold HasPrefix. induction p as [|c p IH]; [by destruct s|].
  change (String c p +:+ s) with (String c (p +:+ s)). simpl. by destruct (ascii_dec c c).
Qed.

Lemma drop_string_app p s : drop_string (String.length p) (p +:+ s) = s.
Proof. induction p as [|c p IH]; [by destruct s|]. apply IH. Qed.

Lemma TrimPrefix_app p s : TrimPrefix (p +:+ s) p = s.
Proof. unfold TrimPrefix. by rewrite HasPrefix_app, drop_string_app. Qed.

Lemma SplitN2_app s t sep : free_of sep s -> SplitN2 (s +:+ String sep t) sep = (s, Some t).
Proof.
  induction s as [|c s IH]; intros Hs.
  - change ("" +:+ String sep t) with (String sep t). simpl. by rewrite decide_True.
  - destruct Hs as [Hc Hs]. change (String c s +:+ String sep t) with (String c (s +:+ String sep t)). simpl.
    rewrite decide_False by done. by rewrite IH.
Qed.

Lemma scan_parse s v any x : numeric s \/ any = true -> parse_digits s v = Some x -> scan_digits s v any = Some x.
Proof.
  revert v any. induction s as [|c s IH]; intros v any Hn Hp; simpl in *.
  - destruct Hn as [[]| ->]. done.
  - destruct (digit_value c) as [d|] eqn:Ed; [|done]. apply IH; [by right|done].
Qed.

Lemma numeric_byte c s : numeric (String c s) -> 48 <= byte_of_ascii c <= 57.
Proof. simpl. unfold digit_value. intros [d Hd]. case_match; [|done]. bools. lia. Qed.

Lemma Sscanf_numeric s n : numeric s -> parse_digits s 0 = Some n -> 0 <= n < 2 ^ 63 -> Sscanf_d s = Some n.
Proof.
  intros Hs Hp Hn. pose proof (scan_parse s 0 false n (or_introl Hs) Hp) as Hsc.
  destruct s as [|c s]; [done|]. pose proof (numeric_byte _ _ Hs) as Hb. unfold Sscanf_d.
  assert (forall fuel, skip_space (S fuel) (String c s) = Some (String c s)) as ->.
  { intros fuel. simpl. destruct (byte_of_ascii c) as [|p|p] eqn:E; try lia.
    do 8 (try (destruct p as [p|p|]; try lia)); reflexivity. }
  assert (((- 2 ^ 63 <=? n) && (n <? 2 ^ 63))%Z = true) as Hr.
  { rewrite (proj2 (Z.leb_le _ _)), (proj2 (Z.ltb_lt _ _)) by lia. done. }
  cbn [mbind option_bind]. destruct Hs as [d Hd].
  destruct c as [[] [] [] [] [] [] [] []]; vm_compute in Hd; try discriminate Hd; rewrite Hsc; cbn [mbind option_bind]; by rewrite Hr.
Qed.
