(* ===== verification/Utf8.v ===== *)
(** Runes: how Go reads the characters of a string and writes them back.

    [runes] is the sequence of runes of [for _, ch := range s] and of
    [[]rune(s)]: UTF-8, where a byte that begins no well-formed sequence is the
    replacement character and counts for one byte.  [encode_rune] is
    [string(ch)]. *)

From stdpp Require Import base tactics list strings.
From Stdlib Require Import ZArith Lia.
From S2P Require Import Prelude GoStrings.

Definition RuneError : Z := 0xFFFD.

(** A Unicode scalar value: what a rune read from a string always is. *)
Definition scalar (r : Z) : Prop := 0 <= r < 0xD800 \/ 0xE000 <= r < 0x110000.

#[export] Instance scalar_dec r : Decision (scalar r) := _.

Definition between (lo hi b : Z) : bool := (lo <=? b) && (b <=? hi).
Definition continuation (b : Z) : bool := between 0x80 0xBF b.

(** The bytes that may follow a first byte of a three- or four-byte sequence:
    no overlong forms, no surrogates, nothing beyond U+10FFFF. *)
Definition second_ok (b0 b1 : Z) : bool :=
  if b0 =? 0xE0 then between 0xA0 0xBF b1
  else if b0 =? 0xED then between 0x80 0x9F b1
  else if b0 =? 0xF0 then between 0x90 0xBF b1
  else if b0 =? 0xF4 then between 0x80 0x8F b1
  else continuation b1.

(** [utf8.DecodeRune]: the first rune and the bytes behind it. *)
Definition decode_rune (b0 : Z) (bs : list Z) : Z * list Z :=
  if b0 <? 0x80 then (b0, bs)
  else if between 0xC2 0xDF b0 then
    match bs with
    | b1 :: bs1 => if continuation b1 then ((b0 - 0xC0) * 64 + (b1 - 0x80), bs1) else (RuneError, bs)
    | _ => (RuneError, bs)
    end
  else if between 0xE0 0xEF b0 then
    match bs with
    | b1 :: b2 :: bs2 =>
        if second_ok b0 b1 && continuation b2
        then ((b0 - 0xE0) * 4096 + (b1 - 0x80) * 64 + (b2 - 0x80), bs2) else (RuneError, bs)
    | _ => (RuneError, bs)
    end
  else if between 0xF0 0xF4 b0 then
    match bs with
    | b1 :: b2 :: b3 :: bs3 =>
        if second_ok b0 b1 && continuation b2 && continuation b3
        then ((b0 - 0xF0) * 262144 + (b1 - 0x80) * 4096 + (b2 - 0x80) * 64 + (b3 - 0x80), bs3)
        else (RuneError, bs)
    | _ => (RuneError, bs)
    end
  else (RuneError, bs).

(** Every rune consumes a byte, so the number of bytes is fuel enough. *)
Fixpoint decode_runes (fuel : nat) (bs : list Z) : list Z :=
  match fuel, bs with
  | S fuel, b0 :: bs => let '(r, bs) := decode_rune b0 bs in r :: decode_runes fuel bs
  | _, _ => []
  end.

Definition runes (s : string) : list Z := decode_runes (String.length s) (str_bytes s).

(** [string(r)]. *)
Definition encode_bytes (r : Z) : list Z :=
  if (r <? 0) || (0x10FFFF <? r) || between 0xD800 0xDFFF r then [0xEF; 0xBF; 0xBD]
  else if r <? 0x80 then [r]
  else if r <? 0x800 then [0xC0 + r / 64; 0x80 + r mod 64]
  else if r <? 0x10000 then [0xE0 + r / 4096; 0x80 + r / 64 mod 64; 0x80 + r mod 64]
  else [0xF0 + r / 262144; 0x80 + r / 4096 mod 64; 0x80 + r / 64 mod 64; 0x80 + r mod 64].

Definition encode_rune (r : Z) : string := bytes_str (encode_bytes r).

(** [string(rs)], the runes written one after the other. *)
Definition string_of_runes (rs : list Z) : string := foldr (fun r s => encode_rune r +:+ s) "" rs.

(** ** Decoding *)

Ltac range_tests :=
  unfold continuation, between, scalar, RuneError, is_byte in *;
  repeat match goal with
  | |- context [?a <=? ?b] => destruct (Z.leb_spec a b)
  | |- context [?a <? ?b] => destruct (Z.ltb_spec a b)
  | |- context [?a =? ?b] => destruct (Z.eqb_spec a b)
  end; cbn [andb orb]; try lia.

Lemma decode_rune_shorter b0 bs : (length (decode_rune b0 bs).2 <= length bs)%nat.
Proof. unfold decode_rune. destruct bs as [|? [|? [|? ?]]]; repeat case_match; simpl; lia. Qed.

Lemma decode_runes_fuel n m bs :
  (length bs <= n)%nat -> (length bs <= m)%nat -> decode_runes n bs = decode_runes m bs.
Proof.
  revert m bs. induction n as [|n IH]; intros m bs Hn Hm; destruct m as [|m], bs as [|b bs]; simpl in *; try done; try lia.
  pose proof (decode_rune_shorter b bs) as Hs. destruct (decode_rune b bs) as [r bs']. simpl in Hs.
  f_equal. apply IH; lia.
Qed.

Lemma second_ok_range b0 b1 :
  second_ok b0 b1 = true -> 0x80 <= b1 <= 0xBF /\ (b0 = 0xE0 -> 0xA0 <= b1) /\ (b0 = 0xED -> b1 <= 0x9F) /\
    (b0 = 0xF0 -> 0x90 <= b1) /\ (b0 = 0xF4 -> b1 <= 0x8F).
Proof. unfold second_ok, continuation, between. intros H. break; lia. Qed.

Lemma decode_rune_scalar b0 bs : is_byte b0 -> scalar (decode_rune b0 bs).1.
Proof.
  intros Hb. unfold decode_rune. unfold scalar, is_byte, RuneError, continuation, between in *.
  repeat case_match; simpl; try lia; bools;
    repeat match goal with H : second_ok _ _ = true |- _ => apply second_ok_range in H end; lia.
Qed.

Lemma decode_rune_tail b0 bs : Forall is_byte bs -> Forall is_byte (decode_rune b0 bs).2.
Proof.
  intros Hb. unfold decode_rune. repeat case_match; simpl; try done;
    repeat match goal with H : Forall _ (_ :: _) |- _ => apply Forall_cons in H as [_ H] end; done.
Qed.

Lemma str_bytes_byte s : Forall is_byte (str_bytes s).
Proof.
  induction s as [|c s IH]; simpl; constructor; [|done]. unfold is_byte, byte_of_ascii.
  pose proof (Ascii.N_ascii_bounded c). lia.
Qed.

Lemma runes_scalar s : Forall scalar (runes s).
Proof.
  unfold runes. generalize (String.length s) (str_bytes s) (str_bytes_byte s). intros n.
  induction n as [|n IH]; intros bs Hb; [constructor|]. destruct bs as [|b bs]; [constructor|].
  apply Forall_cons in Hb as [Hb Hbs]. simpl. pose proof (decode_rune_scalar b bs Hb) as Hr.
  pose proof (decode_rune_tail b bs Hbs) as Ht. destruct (decode_rune b bs) as [r bs']. simpl in *.
  constructor; [done|]. by apply IH.
Qed.

Lemma runes_nil s : runes s = [] <-> s = "".
Proof.
  split; [|by intros ->]. destruct s as [|c s]; [done|]. unfold runes. simpl.
  by destruct (decode_rune _ _).
Qed.

(** ** Encoding *)

Lemma str_bytes_app s t : str_bytes (s +:+ t) = str_bytes s ++ str_bytes t.
Proof. induction s as [|c s IH]; simpl; [done|]. by rewrite IH. Qed.

Lemma str_bytes_str bs : Forall is_byte bs -> str_bytes (bytes_str bs) = bs.
Proof.
  induction 1 as [|b bs Hb _ IH]; simpl; [done|]. rewrite IH. f_equal.
  unfold byte_of_ascii, ascii_of_byte, is_byte in *. rewrite Ascii.N_ascii_embedding by lia. lia.
Qed.

Lemma encode_bytes_byte r : Forall is_byte (encode_bytes r).
Proof.
  unfold encode_bytes. pose proof (Z.mod_pos_bound r 64). pose proof (Z.mod_pos_bound (r / 64) 64).
  pose proof (Z.mod_pos_bound (r / 4096) 64). unfold between, is_byte in *.
  repeat case_match; bools; repeat constructor; try lia; Z.to_euclidean_division_equations; lia.
Qed.

Lemma encode_bytes_cons r : exists b bs, encode_bytes r = b :: bs.
Proof. unfold encode_bytes. repeat case_match; eauto. Qed.

Lemma continuation_mod x : continuation (0x80 + x mod 64) = true.
Proof. unfold continuation, between. pose proof (Z.mod_pos_bound x 64). apply andb_true_iff; lia. Qed.

Lemma split3 r : r = r / 4096 * 4096 + r / 64 mod 64 * 64 + r mod 64.
Proof. Z.to_euclidean_division_equations. lia. Qed.

Lemma split4 r : r = r / 262144 * 262144 + r / 4096 mod 64 * 4096 + r / 64 mod 64 * 64 + r mod 64.
Proof. Z.to_euclidean_division_equations. lia. Qed.

(** The first rune of a string that begins with an encoded rune is that rune. *)
Lemma decode_encode r b bs rest :
  scalar r -> encode_bytes r = b :: bs -> decode_rune b (bs ++ rest) = (r, rest).
Proof.
  intros Hr He. unfold encode_bytes in He.
  assert ((r <? 0) || (0x10FFFF <? r) || between 0xD800 0xDFFF r = false) as Hv.
  { unfold scalar in Hr. range_tests. }
  rewrite Hv in He. clear Hv. unfold scalar in Hr.
  repeat case_match; simplify_eq/=; bools; unfold decode_rune.
  - range_tests. done.
  - rewrite continuation_mod. range_tests; Z.to_euclidean_division_equations; try lia. f_equal. lia.
  - rewrite !continuation_mod, !andb_true_r. pose proof (split3 r).
    pose proof (Z.mod_pos_bound r 64). pose proof (Z.mod_pos_bound (r / 64) 64).
    assert (second_ok (0xE0 + r / 4096) (0x80 + r / 64 mod 64) = true) as ->
      by (unfold second_ok; range_tests).
    range_tests. f_equal. lia.
  - rewrite !continuation_mod, !andb_true_r. pose proof (split4 r). pose proof (Z.mod_pos_bound r 64).
    pose proof (Z.mod_pos_bound (r / 64) 64). pose proof (Z.mod_pos_bound (r / 4096) 64).
    assert (second_ok (0xF0 + r / 262144) (0x80 + r / 4096 mod 64) = true) as ->
      by (unfold second_ok; range_tests).
    range_tests. f_equal. lia.
Qed.

Lemma str_bytes_runes_cons r rs :
  str_bytes (string_of_runes (r :: rs)) = encode_bytes r ++ str_bytes (string_of_runes rs).
Proof. simpl. rewrite str_bytes_app. unfold encode_rune. by rewrite str_bytes_str by apply encode_bytes_byte. Qed.

(** Writing runes and reading them back. *)
Lemma runes_of_string rs : Forall scalar rs -> runes (string_of_runes rs) = rs.
Proof.
  intros Hs. unfold runes. rewrite <- length_str_bytes.
  induction Hs as [|r rs Hr _ IH]; [done|]. rewrite str_bytes_runes_cons.
  destruct (encode_bytes_cons r) as (b & bs & He). rewrite He. simpl. rewrite (decode_encode r b bs) by done.
  f_equal. etrans; [|exact IH]. apply decode_runes_fuel; rewrite ?length_app; lia.
Qed.

Lemma string_of_runes_app rs1 rs2 :
  string_of_runes (rs1 ++ rs2) = string_of_runes rs1 +:+ string_of_runes rs2.
Proof. induction rs1 as [|r rs1 IH]; simpl; [done|]. by rewrite IH, string_assoc. Qed.

Lemma string_of_runes_snoc rs r : string_of_runes (rs ++ [r]) = string_of_runes rs +:+ encode_rune r.
Proof. rewrite string_of_runes_app. simpl. f_equal. apply string_nil_r. Qed.

Lemma string_of_runes_inj rs1 rs2 :
  Forall scalar rs1 -> Forall scalar rs2 -> string_of_runes rs1 = string_of_runes rs2 -> rs1 = rs2.
Proof. intros H1 H2 E. rewrite <- (runes_of_string rs1), <- (runes_of_string rs2) by done. by rewrite E. Qed.

(** Valid text is what its runes spell. *)
Definition valid_utf8 (s : string) : Prop := string_of_runes (runes s) = s.

#[export] Instance valid_utf8_dec s : Decision (valid_utf8 s) := _.

Lemma string_of_runes_valid rs : Forall scalar rs -> valid_utf8 (string_of_runes rs).
Proof. intros Hs. unfold valid_utf8. by rewrite runes_of_string. Qed.
