(* ===== verification/Crc32.v ===== *)
(** The checksum of the write-ahead log: [hash/crc32.ChecksumIEEE].

    The reflected CRC-32 with polynomial 0xEDB88320, one bit at a time (the
    table-driven code of the library computes the same function).  Its state
    update is injective in the state and in the byte, so a checksum detects
    every change of a single byte. *)

From stdpp Require Import base tactics list strings.
From Stdlib Require Import ZArith Lia.
From S2P Require Import Prelude.

Definition crc_poly : Z := 0xEDB88320.

Definition crc_bit (s : Z) : Z :=
  if Z.testbit s 0 then Z.lxor (Z.shiftr s 1) crc_poly else Z.shiftr s 1.

Definition crc_byte (s b : Z) : Z := Nat.iter 8 crc_bit (Z.lxor s b).

Definition ChecksumIEEE (bs : list Z) : Z :=
  Z.lxor (foldl crc_byte 0xFFFFFFFF bs) 0xFFFFFFFF.

Example crc_check_value : ChecksumIEEE (str_bytes "123456789") = 0xCBF43926.
Proof. vm_compute. reflexivity. Qed.

Definition is_u32 (s : Z) : Prop := 0 <= s < 2 ^ 32.

Lemma bits_above w s i : 0 <= s < 2 ^ w -> 0 <= w <= i -> Z.testbit s i = false.
Proof. intros Hs Hi. rewrite <- (Z.mod_small s (2 ^ w)) by lia. apply Z.mod_pow2_bits_high. lia. Qed.

Lemma below_pow w s : 0 <= w -> 0 <= s -> (forall i, w <= i -> Z.testbit s i = false) -> 0 <= s < 2 ^ w.
Proof.
  intros Hw Hs Hb. split; [done|].
  assert (s = s mod 2 ^ w) as ->; [|apply Z.mod_pos_bound; lia].
  apply Z.bits_inj'. intros i Hi. destruct (Z.lt_ge_cases i w).
  - by rewrite Z.mod_pow2_bits_low by lia.
  - rewrite Z.mod_pow2_bits_high by lia. by apply Hb.
Qed.

Lemma lxor_u32 a b : is_u32 a -> is_u32 b -> is_u32 (Z.lxor a b).
Proof.
  intros Ha Hb. apply below_pow; [lia|apply Z.lxor_nonneg; unfold is_u32 in *; lia|].
  intros i Hi. rewrite Z.lxor_spec, !(bits_above 32) by (unfold is_u32 in *; lia). done.
Qed.

Lemma shiftr_u31 s : is_u32 s -> 0 <= Z.shiftr s 1 < 2 ^ 31.
Proof.
  intros Hs. unfold is_u32 in Hs. rewrite Z.shiftr_div_pow2 by lia.
  split; [apply Z.div_pos; lia|apply Z.div_lt_upper_bound; lia].
Qed.

Lemma crc_bit_u32 s : is_u32 s -> is_u32 (crc_bit s).
Proof.
  intros Hs. pose proof (shiftr_u31 s Hs). unfold crc_bit.
  destruct (Z.testbit s 0); [apply lxor_u32|]; unfold is_u32, crc_poly; lia.
Qed.

(** Bit 31 of the result tells which branch was taken. *)
Lemma crc_bit_top s : is_u32 s -> Z.testbit (crc_bit s) 31 = Z.testbit s 0.
Proof.
  intros Hs. pose proof (shiftr_u31 s Hs). unfold crc_bit.
  destruct (Z.testbit s 0); rewrite ?Z.lxor_spec, (bits_above 31) by lia; done.
Qed.

Lemma crc_bit_inj s t : is_u32 s -> is_u32 t -> crc_bit s = crc_bit t -> s = t.
Proof.
  intros Hs Ht Heq.
  assert (Z.testbit s 0 = Z.testbit t 0) as H0.
  { by rewrite <- crc_bit_top, Heq, crc_bit_top. }
  assert (Z.shiftr s 1 = Z.shiftr t 1) as H1.
  { unfold crc_bit in Heq. rewrite H0 in Heq. destruct (Z.testbit t 0); [|done].
    apply (f_equal (fun x => Z.lxor x crc_poly)) in Heq.
    by rewrite !Z.lxor_assoc, !Z.lxor_nilpotent, !Z.lxor_0_r in Heq. }
  apply Z.bits_inj'. intros i Hi. destruct (decide (i = 0)) as [->|]; [done|].
  apply (f_equal (fun x => Z.testbit x (i - 1))) in H1.
  rewrite !Z.shiftr_spec in H1 by lia. by replace (i - 1 + 1) with i in H1 by lia.
Qed.

Lemma iter_u32 n s : is_u32 s -> is_u32 (Nat.iter n crc_bit s).
Proof. intros Hs. induction n as [|n IH]; [done|]. simpl. by apply crc_bit_u32. Qed.

Lemma iter_inj n s t :
  is_u32 s -> is_u32 t -> Nat.iter n crc_bit s = Nat.iter n crc_bit t -> s = t.
Proof.
  intros Hs Ht. induction n as [|n IH]; [done|]. simpl. intros Heq.
  apply IH, crc_bit_inj; [by apply iter_u32..|done].
Qed.

Lemma byte_u32 b : is_byte b -> is_u32 b.
Proof. unfold is_byte, is_u32. lia. Qed.

Lemma crc_byte_u32 s b : is_u32 s -> is_byte b -> is_u32 (crc_byte s b).
Proof. intros. apply iter_u32, lxor_u32; auto using byte_u32. Qed.

Lemma lxor_inj_r s a b : Z.lxor s a = Z.lxor s b -> a = b.
Proof.
  intros H. apply (f_equal (Z.lxor s)) in H.
  by rewrite <- !Z.lxor_assoc, !Z.lxor_nilpotent, !Z.lxor_0_l in H.
Qed.

Lemma lxor_inj_l s a b : Z.lxor a s = Z.lxor b s -> a = b.
Proof. rewrite !(Z.lxor_comm _ s). apply lxor_inj_r. Qed.

Lemma crc_byte_inj_state s t b :
  is_u32 s -> is_u32 t -> is_byte b -> crc_byte s b = crc_byte t b -> s = t.
Proof.
  intros Hs Ht Hb Heq. eapply lxor_inj_l, iter_inj; [..|exact Heq];
    apply lxor_u32; auto using byte_u32.
Qed.

Lemma crc_byte_inj_byte s a b :
  is_u32 s -> is_byte a -> is_byte b -> crc_byte s a = crc_byte s b -> a = b.
Proof.
  intros Hs Ha Hb Heq. eapply lxor_inj_r, iter_inj; [..|exact Heq];
    apply lxor_u32; auto using byte_u32.
Qed.

Lemma crc_fold_u32 bs s : is_u32 s -> Forall is_byte bs -> is_u32 (foldl crc_byte s bs).
Proof.
  revert s. induction bs as [|b bs IH]; intros s Hs Hb; [done|]. simpl.
  apply Forall_cons in Hb as [Hb Hbs]. apply IH; [by apply crc_byte_u32|done].
Qed.

Lemma crc_fold_inj bs s t :
  is_u32 s -> is_u32 t -> Forall is_byte bs ->
  foldl crc_byte s bs = foldl crc_byte t bs -> s = t.
Proof.
  revert s t. induction bs as [|b bs IH]; intros s t Hs Ht Hb Heq; [done|]. simpl in Heq.
  apply Forall_cons in Hb as [Hb Hbs].
  eapply crc_byte_inj_state; [done..|]. by apply IH; auto using crc_byte_u32.
Qed.

Lemma crc_init_u32 : is_u32 0xFFFFFFFF.
Proof. unfold is_u32. lia. Qed.

Lemma ChecksumIEEE_u32 bs : Forall is_byte bs -> is_u32 (ChecksumIEEE bs).
Proof. intros. apply lxor_u32; [apply crc_fold_u32; [|done]|]; apply crc_init_u32. Qed.

(** Two byte strings that differ in exactly one position have different
    checksums. *)
Lemma ChecksumIEEE_single_byte pre x y post :
  Forall is_byte pre -> is_byte x -> is_byte y -> Forall is_byte post ->
  ChecksumIEEE (pre ++ x :: post) = ChecksumIEEE (pre ++ y :: post) -> x = y.
Proof.
  intros Hpre Hx Hy Hpost Heq. apply lxor_inj_l in Heq. rewrite !foldl_app in Heq. simpl in Heq.
  assert (is_u32 (foldl crc_byte 0xFFFFFFFF pre)) by (by apply crc_fold_u32; [apply crc_init_u32|]).
  eapply crc_byte_inj_byte; [done..|].
  eapply crc_fold_inj; [by apply crc_byte_u32..|done|exact Heq].
Qed.
