(* ===== verification/Wal.v ===== *)
(** Write-ahead log (src/internal/wal/wal.go): data, codec and operations.

    The directory is a finite map from file names to contents; a file opened
    for reading is its remaining bytes, seen through a [bufio.Reader] of 64 KiB.
    Writes, syncs and closes of the operating system are taken to succeed; the
    failures modelled are a missing file and the reader's own errors.  The
    theorems are in WalProofs.v and WalLog.v. *)

From stdpp Require Import base tactics list gmap strings sorting.
From Stdlib Require Import Ascii ZArith Lia.
From S2P Require Import Prelude GoStrings Crc32.

Abbreviation zlen l := (Z.of_nat (length l)).

Inductive Error :=
| ErrClosed | ErrInvalidOffset | ErrEmptyData | ErrInvalidConfig
| ErrCallbackNil            (* errors.New("callback is nil") *)
| ErrOpen                   (* os.Open on a missing file *)
| ErrInvalidFile            (* os.ErrInvalid: a method of a nil *os.File *)
| PanicNilSegment           (* a nil activeSeg is dereferenced *)
| ErrBufferFull             (* bufio.ErrBufferFull *)
| ErrFromCallback (n : Z).  (* whatever the recovery callback returns *)

Inductive DecodeError := DataTooShort | InvalidMagic | UnexpectedEOF | ChecksumMismatch.

(** [OpType] is a byte; any value can be stored. *)
Definition OpPut : Z := 1.
Definition OpDelete : Z := 2.
Definition OpCheckpoint : Z := 3.

Definition entryHeaderSize : Z := 19.
Definition magicNumber : Z := 0x5741.

Record Entry := { Offset : Z; Type_ : Z; Data : list Z }.

Record CorruptedEntryWarning := { SegmentID : Z; Position : Z; Reason : DecodeError }.

Record Config := { Dir : string; MaxSegmentSize : Z; FSyncOnWrite : bool }.

Definition DefaultConfig : Config :=
  {| Dir := "./wal"; MaxSegmentSize := 64 * 1024 * 1024; FSyncOnWrite := false |}.

(** ** Entry codec *)

Definition slice (i j : nat) (bs : list Z) : list Z := take (j - i) (drop i bs).

Definition checksum_payload (off : Z) (ty : Z) (data : list Z) : list Z :=
  be_encode 8 off ++ [ty] ++ be_encode 4 (zlen data) ++ data.

Definition encodeEntry (e : Entry) : list Z :=
  let payload := checksum_payload (Offset e) (Type_ e) (Data e) in
  be_encode 2 magicNumber ++ be_encode 4 (ChecksumIEEE payload) ++ payload.

Definition decodeEntry (data : list Z) : result DecodeError (Entry * Z) :=
  if zlen data <? entryHeaderSize then Err DataTooShort
  else if negb (be_decode (slice 0 2 data) =? magicNumber) then Err InvalidMagic
  else
    let checksum := be_decode (slice 2 6 data) in
    let dataLen := be_decode (slice 15 19 data) in
    let totalLen := entryHeaderSize + dataLen in
    if zlen data <? totalLen then Err UnexpectedEOF
    else
      let body := slice 19 (Z.to_nat totalLen) data in
      let payload := slice 6 14 data ++ [nth 14 data 0] ++ slice 15 19 data ++ body in
      if negb (ChecksumIEEE payload =? checksum) then Err ChecksumMismatch
      else Ok ({| Offset := int64 (be_decode (slice 6 14 data)); Type_ := nth 14 data 0; Data := body |},
               totalLen).

(** ** Segment file names *)

Definition fmt08d (id : Z) : string := fmt_padded 8 id.

Definition segmentFileName (id : Z) : string := "wal_" +:+ fmt08d id +:+ ".log".

Definition parseSegmentID (filename : string) : option Z :=
  if negb (String.prefix "wal_" filename && has_suffix ".log" filename) then None
  else
    let trimmed := trim_suffix_len 4 filename in
    (* TrimPrefix removes nothing when the prefix is gone after TrimSuffix *)
    let numStr := if String.prefix "wal_" trimmed
                  then String.substring 4 (String.length trimmed - 4) trimmed else trimmed in
    Atoi numStr.

(** ** The buffered reader *)

Definition bufSize : Z := 64 * 1024.

Inductive PeekError := PeekEOF | PeekBufferFull.

(** [bufio.Reader.Peek(n)] on the unread bytes [br]. *)
Definition Peek (n : Z) (br : list Z) : list Z * option PeekError :=
  if bufSize <? n then (take (Z.to_nat bufSize) br, Some PeekBufferFull)
  else if zlen br <? n then (br, Some PeekEOF)
  else (take (Z.to_nat n) br, None).

Definition Discard (n : Z) (br : list Z) : list Z := drop (Z.to_nat n) br.

(** The results of [streamScanEntry]: end of file, a read error, a byte skipped
    because no entry starts here, or an entry. *)
Inductive scanned :=
| ScanEOF
| ScanError (e : Error)
| Skipped (advanced : Z) (why : DecodeError) (br : list Z)
| Scanned (e : Entry) (advanced : Z) (br : list Z).

Definition peek_failure (err : option PeekError) : scanned :=
  match err with
  | None | Some PeekEOF => ScanEOF
  | Some PeekBufferFull => ScanError ErrBufferFull
  end.

Definition streamScanEntry (br : list Z) : scanned :=
  let '(headerPeek, err) := Peek entryHeaderSize br in
  if zlen headerPeek <? entryHeaderSize then peek_failure err
  else if negb (be_decode (slice 0 2 headerPeek) =? magicNumber)
  then Skipped 1 InvalidMagic (Discard 1 br)
  else
    let dataLen := be_decode (slice 15 19 headerPeek) in
    let totalLen := entryHeaderSize + dataLen in
    let '(fullPeek, err) := Peek totalLen br in
    if zlen fullPeek <? totalLen then peek_failure err
    else match decodeEntry (take (Z.to_nat totalLen) fullPeek) with
         | Err why => Skipped 1 why (Discard 1 br)
         | Ok (e, _) => Scanned e totalLen (Discard totalLen br)
         end.

(** *** The three loops over a segment

    Every iteration consumes at least one byte, so [S (length br)] iterations
    are enough; [None] means that the fuel ran out. *)

Fixpoint scan_offsets_loop (fuel : nat) (br : list Z) (firstOffset lastOffset : Z)
    : option (result Error (Z * Z)) :=
  match fuel with
  | O => None
  | S fuel =>
      match streamScanEntry br with
      | ScanEOF => Some (Ok (firstOffset, lastOffset))
      | ScanError e => Some (Err e)
      | Skipped _ _ br => scan_offsets_loop fuel br firstOffset lastOffset
      | Scanned e _ br =>
          scan_offsets_loop fuel br (if firstOffset =? -1 then Offset e else firstOffset) (Offset e)
      end
  end.

Definition scanSegmentOffsets (f : list Z) : option (result Error (Z * Z)) :=
  scan_offsets_loop (S (length f)) f (-1) (-1).

Fixpoint read_loop (fuel : nat) (br : list Z) (minOffset : Z) (entries : list Entry)
    : option (result Error (list Entry)) :=
  match fuel with
  | O => None
  | S fuel =>
      match streamScanEntry br with
      | ScanEOF => Some (Ok entries)
      | ScanError e => Some (Err e)
      | Skipped _ _ br => read_loop fuel br minOffset entries
      | Scanned e _ br =>
          read_loop fuel br minOffset
            (if minOffset <=? Offset e then entries ++ [e] else entries)
      end
  end.

Definition readSegmentEntriesStream (f : list Z) (minOffset : Z) : option (result Error (list Entry)) :=
  read_loop (S (length f)) f minOffset [].

(** The recovery callback updates a state [S] of the caller's. *)
Section recover.
Context {St : Type}.

Definition RecoverCallback := St -> Entry -> St * option Error.

Fixpoint recover_loop (fuel : nat) (br : list Z) (segID minOffset : Z) (cb : RecoverCallback)
    (warnings : list CorruptedEntryWarning) (filePos : Z) (st : St)
    : option (St * list CorruptedEntryWarning * option Error) :=
  match fuel with
  | O => None
  | S fuel =>
      match streamScanEntry br with
      | ScanEOF => Some (st, warnings, None)
      | ScanError e => Some (st, warnings, Some e)
      | Skipped adv why br =>
          recover_loop fuel br segID minOffset cb
            (warnings ++ [{| SegmentID := segID; Position := filePos; Reason := why |}])
            (filePos + adv) st
      | Scanned e adv br =>
          if minOffset <=? Offset e then
            match cb st e with
            | (st, Some err) => Some (st, warnings, Some err)
            | (st, None) => recover_loop fuel br segID minOffset cb warnings (filePos + adv) st
            end
          else recover_loop fuel br segID minOffset cb warnings (filePos + adv) st
      end
  end.

Definition recoverSegmentStream (f : list Z) (segID minOffset : Z) (cb : RecoverCallback) (st : St)
    : option (St * list CorruptedEntryWarning * option Error) :=
  recover_loop (S (length f)) f segID minOffset cb [] 0 st.

End recover.
Arguments RecoverCallback : clear implicits.

(** ** Segments and the log

    [path] is the file name inside [Dir]; [file] tells whether the segment
    holds an open append handle. *)

Record segment := {
  id : Z;
  path : string;
  file : bool;
  size : Z;
  startOffset : Z;
  endOffset : Z;
}.

#[export] Instance segment_eta : Eta segment := fun s =>
  {| id := id s; path := path s; file := file s; size := size s;
     startOffset := startOffset s; endOffset := endOffset s |}.

(** [activeSeg] points into [segments]: it is the index of its segment. *)
Record WAL := {
  config : Config;
  segments : list segment;
  activeSeg : option nat;
  nextOffset : Z;
  closed : bool;
}.

#[export] Instance WAL_eta : Eta WAL := fun w =>
  {| config := config w; segments := segments w; activeSeg := activeSeg w;
     nextOffset := nextOffset w; closed := closed w |}.

(** The regular files of the log directory. *)
Abbreviation disk := (gmap string (list Z)).

Definition openSegment (d : disk) (i : Z) : option (result Error segment) :=
  let path := segmentFileName i in
  match d !! path with
  | None => Some (Err ErrOpen)
  | Some f =>
      let seg := {| id := i; path := path; file := false; size := zlen f;
                    startOffset := -1; endOffset := -1 |} in
      if 0 <? size seg then
        match scanSegmentOffsets f with
        | None => None
        | Some (Err e) => Some (Err e)
        | Some (Ok (first, last)) => Some (Ok (seg <| startOffset := first |> <| endOffset := last |>))
        end
      else Some (Ok seg)
  end.

Fixpoint load_loop (d : disk) (ids : list Z) (segs : list segment) : option (result Error (list segment)) :=
  match ids with
  | [] => Some (Ok segs)
  | i :: ids =>
      match openSegment d i with
      | None => None
      | Some (Err e) => Some (Err e)
      | Some (Ok seg) => load_loop d ids (segs ++ [seg])
      end
  end.

Definition segment_ids (d : disk) : list Z :=
  merge_sort Z.le (omap (fun kv => parseSegmentID kv.1) (map_to_list d)).

Definition loadExistingSegments (d : disk) (w : WAL) : option (result Error WAL) :=
  match load_loop d (segment_ids d) (segments w) with
  | None => None
  | Some (Err e) => Some (Err e)
  | Some (Ok segs) => Some (Ok (w <| segments := segs |>))
  end.

(** [O_CREATE|O_APPEND]: an existing file keeps its contents. *)
Definition createSegment (d : disk) (w : WAL) (i : Z) : disk * WAL :=
  let path := segmentFileName i in
  let d := match d !! path with Some _ => d | None => <[path := []]> d end in
  let seg := {| id := i; path := path; file := true; size := 0;
                startOffset := -1; endOffset := -1 |} in
  (d, w <| segments := segments w ++ [seg] |> <| activeSeg := Some (length (segments w)) |>).

Definition New (cfg : option Config) (d : disk) : option (disk * result Error WAL) :=
  let c := default DefaultConfig cfg in
  if decide (Dir c = "") then Some (d, Err ErrInvalidConfig)
  else
    let c := {| Dir := Dir c;
                MaxSegmentSize := if MaxSegmentSize c <=? 0 then MaxSegmentSize DefaultConfig
                                  else MaxSegmentSize c;
                FSyncOnWrite := FSyncOnWrite c |} in
    let wal := {| config := c; segments := []; activeSeg := None; nextOffset := 0; closed := false |} in
    match loadExistingSegments d wal with
    | None => None
    | Some (Err e) => Some (d, Err e)
    | Some (Ok wal) =>
        match last (segments wal) with
        | None => let '(d, wal) := createSegment d wal 1 in Some (d, Ok wal)
        | Some lastSeg =>
            if decide (is_Some (d !! path lastSeg)) then
              let n := pred (length (segments wal)) in
              Some (d, Ok (wal <| segments := <[n := lastSeg <| file := true |> ]> (segments wal) |>
                               <| activeSeg := Some n |>
                               <| nextOffset := if 0 <=? endOffset lastSeg
                                                then int64 (endOffset lastSeg + 1) else 0 |>))
            else Some (d, Err ErrOpen)
        end
    end.

Definition active (w : WAL) : option (nat * segment) :=
  match activeSeg w with
  | Some n => match segments w !! n with Some seg => Some (n, seg) | None => None end
  | None => None
  end.

Definition rotateSegment (d : disk) (w : WAL) : disk * WAL * option Error :=
  match active w with
  | None => (d, w, Some PanicNilSegment)
  | Some (n, seg) =>
      if negb (file seg) then (d, w, Some ErrInvalidFile)   (* Sync of a nil file *)
      else
        let w := w <| segments := <[n := seg <| file := false |> ]> (segments w) |> in
        let '(d, w) := createSegment d w (int64 (id seg + 1)) in
        (d, w, None)
  end.

(** Append's file write: the handle is in append mode. *)
Definition write_file (p : string) (bs : list Z) (d : disk) : disk :=
  <[p := default [] (d !! p) ++ bs]> d.

(** The part of [Append] after the segment has been chosen. *)
Definition append_active (d : disk) (w : WAL) (offset : Z) (encoded : list Z)
    : disk * WAL * result Error Z :=
  match active w with
  | None => (d, w, Err PanicNilSegment)
  | Some (n, seg) =>
      if negb (file seg) then (d, w, Err ErrInvalidFile)    (* Write to a nil file *)
      else
        let d := write_file (path seg) encoded d in
        let seg := seg <| size := int64 (size seg + zlen encoded) |>
                       <| startOffset := if startOffset seg =? -1 then offset else startOffset seg |>
                       <| endOffset := offset |> in
        (d, w <| segments := <[n := seg]> (segments w) |> <| nextOffset := int64 (offset + 1) |>,
         Ok offset)
  end.

Definition Append (d : disk) (w : WAL) (opType : Z) (data : list Z) : disk * WAL * result Error Z :=
  if closed w then (d, w, Err ErrClosed)
  else if negb (opType =? OpCheckpoint) && (zlen data =? 0) then (d, w, Err ErrEmptyData)
  else
    let offset := nextOffset w in
    let encoded := encodeEntry {| Offset := offset; Type_ := opType; Data := data |} in
    match active w with
    | None => (d, w, Err PanicNilSegment)
    | Some (_, seg) =>
        if (0 <? MaxSegmentSize (config w))
           && (MaxSegmentSize (config w) <? int64 (size seg + zlen encoded)) then
          match rotateSegment d w with
          | (d, w, Some e) => (d, w, Err e)
          | (d, w, None) => append_active d w offset encoded
          end
        else append_active d w offset encoded
    end.

(** *** Reading *)

(** The scan of [ReadFrom] for its first segment. *)
Fixpoint read_start (start : Z) (segs : list segment) : option segment :=
  match segs with
  | [] => None
  | seg :: segs =>
      if startOffset seg =? -1 then read_start start segs
      else if (startOffset seg <=? start) && ((endOffset seg =? -1) || (start <=? endOffset seg))
      then Some seg
      else if start <? startOffset seg then Some seg
      else read_start start segs
  end.

(** The scan of [RecoverFrom] for its first segment. *)
Fixpoint recover_start (start : Z) (segs : list segment) : option segment :=
  match segs with
  | [] => None
  | seg :: segs =>
      if startOffset seg =? -1 then recover_start start segs
      else if (start <=? endOffset seg) || (endOffset seg =? -1) then Some seg
      else if start <? startOffset seg then Some seg
      else recover_start start segs
  end.

(** The segments from the first one that has the identifier [i]. *)
Fixpoint segments_from (i : Z) (segs : list segment) : list segment :=
  match segs with
  | [] => []
  | seg :: rest => if id seg =? i then segs else segments_from i rest
  end.

Definition readSegmentEntries (d : disk) (seg : segment) (minOffset : Z) : option (result Error (list Entry)) :=
  match d !! path seg with
  | None => Some (Err ErrOpen)
  | Some f => readSegmentEntriesStream f minOffset
  end.

Fixpoint read_segments (d : disk) (segs : list segment) (start : Z) (res : list Entry)
    : option (list Entry * option Error) :=
  match segs with
  | [] => Some (res, None)
  | seg :: segs =>
      match readSegmentEntries d seg start with
      | None => None
      | Some (Err e) => Some (res, Some e)
      | Some (Ok entries) => read_segments d segs start (res ++ entries)
      end
  end.

Definition ReadFrom (d : disk) (w : WAL) (start : Z) : option (list Entry * option Error) :=
  if closed w then Some ([], Some ErrClosed)
  else if start <? 0 then Some ([], Some ErrInvalidOffset)
  else match read_start start (segments w) with
       | None => Some ([], None)
       | Some startSeg => read_segments d (segments_from (id startSeg) (segments w)) start []
       end.

Section recover_log.
Context {St : Type}.

Definition recoverSegment (d : disk) (seg : segment) (minOffset : Z) (cb : RecoverCallback St) (st : St)
    : option (St * list CorruptedEntryWarning * option Error) :=
  match d !! path seg with
  | None => Some (st, [], Some ErrOpen)
  | Some f => recoverSegmentStream f (id seg) minOffset cb st
  end.

Fixpoint recover_segments (d : disk) (segs : list segment) (start : Z) (cb : RecoverCallback St)
    (warnings : list CorruptedEntryWarning) (st : St)
    : option (St * list CorruptedEntryWarning * option Error) :=
  match segs with
  | [] => Some (st, warnings, None)
  | seg :: segs =>
      match recoverSegment d seg start cb st with
      | None => None
      | Some (st, segWarnings, Some e) => Some (st, warnings ++ segWarnings, Some e)
      | Some (st, segWarnings, None) => recover_segments d segs start cb (warnings ++ segWarnings) st
      end
  end.

Definition RecoverFrom (d : disk) (w : WAL) (start : Z) (cb : option (RecoverCallback St)) (st : St)
    : option (St * list CorruptedEntryWarning * option Error) :=
  if closed w then Some (st, [], Some ErrClosed)
  else if start <? 0 then Some (st, [], Some ErrInvalidOffset)
  else match cb with
       | None => Some (st, [], Some ErrCallbackNil)
       | Some cb =>
           match recover_start start (segments w) with
           | None => Some (st, [], None)
           | Some startSeg =>
               recover_segments d (segments_from (id startSeg) (segments w)) start cb [] st
           end
       end.

End recover_log.

(** *** Closing and observers *)

Definition Close (w : WAL) : WAL :=
  if closed w then w
  else w <| closed := true |> <| segments := (fun seg => seg <| file := false |>) <$> segments w |>.

Definition SegmentCount (w : WAL) : Z := zlen (segments w).

Definition LastOffset (w : WAL) : Z := if nextOffset w =? 0 then -1 else nextOffset w - 1.

Definition ActiveSegmentSize (w : WAL) : Z :=
  match active w with Some (_, seg) => size seg | None => 0 end.
