(* ===== verification/WalProofs.v ===== *)
(** Theorems about the write-ahead log of Wal.v: the entry codec, the
    detection of corruption and the file names.  The segmented log as a whole
    is the subject of WalLog.v. *)

From stdpp Require Import base tactics list gmap strings sorting.
From Stdlib Require Import Ascii ZArith Lia.
From S2P Require Import Prelude GoStrings Crc32 Wal.

(** ** Codec *)

(** What an entry of the log satisfies: an int64 offset, an op byte and a body
    of bytes whose length fits the 32-bit field. *)
Definition entry_ok (e : Entry) : Prop :=
  - 2 ^ 63 <= Offset e < 2 ^ 63 /\ is_byte (Type_ e) /\
  Forall is_byte (Data e) /\ zlen (Data e) < 2 ^ 32.

#[export] Instance is_byte_dec b : Decision (is_byte b).
Proof. unfold is_byte. apply _. Defined.

#[export] Instance entry_ok_dec e : Decision (entry_ok e).
Proof. unfold entry_ok. apply _. Defined.

#[export] Instance entry_eq_dec : EqDecision Entry.
Proof. solve_decision. Defined.

Lemma slice_app pre x post i j :
  length pre = i -> length x = (j - i)%nat -> slice i j (pre ++ x ++ post) = x.
Proof.
  intros <- Hx. unfold slice. rewrite drop_app_length, <- Hx. apply take_app_length.
Qed.

(** The fields of a buffer laid out as header and body. *)
Lemma header_slices m c o t n body :
  length m = 2%nat -> length c = 4%nat -> length o = 8%nat -> length n = 4%nat ->
  let bs := m ++ c ++ o ++ [t] ++ n ++ body in
  slice 0 2 bs = m /\ slice 2 6 bs = c /\ slice 6 14 bs = o /\
  nth 14 bs 0 = t /\ slice 15 19 bs = n /\ drop 19 bs = body.
Proof.
  intros Hm Hc Ho Hn bs. subst bs. split_and!.
  - by apply (slice_app []).
  - by apply (slice_app m).
  - rewrite app_assoc. apply slice_app; [rewrite length_app; lia|done].
  - rewrite !app_assoc, <- (app_assoc _ n), <- (app_assoc _ [t]).
    rewrite app_nth2; rewrite !length_app; [|lia].
    by rewrite Hm, Hc, Ho.
  - rewrite !app_assoc, <- (app_assoc _ n). apply slice_app; [|done].
    rewrite !length_app. simpl. lia.
  - rewrite !app_assoc. apply drop_app_length'. rewrite !length_app. simpl. lia.
Qed.

Lemma length_encodeEntry e : length (encodeEntry e) = (19 + length (Data e))%nat.
Proof.
  unfold encodeEntry, checksum_payload. rewrite !length_app, !length_be_encode. simpl. lia.
Qed.

Lemma checksum_payload_bytes e :
  entry_ok e -> Forall is_byte (checksum_payload (Offset e) (Type_ e) (Data e)).
Proof.
  intros (_ & Ht & Hd & _). unfold checksum_payload.
  rewrite !Forall_app, Forall_singleton. auto using be_encode_bytes.
Qed.

Lemma be_decode_u32 z : 0 <= z < 2 ^ 32 -> be_decode (be_encode 4 z) = z.
Proof. intros. rewrite be_decode_encode. by apply Z.mod_small. Qed.

Lemma be_decode_i64 z : - 2 ^ 63 <= z < 2 ^ 63 -> int64 (be_decode (be_encode 8 z)) = z.
Proof.
  intros Hz. rewrite be_decode_encode. change (8 * Z.of_nat 8) with 64. unfold intw.
  change (64 - 1) with 63. rewrite Zplus_mod_idemp_l.
  rewrite Z.mod_small; lia.
Qed.

(** A buffer that starts with a well-formed header and a long enough body. *)
Lemma decodeEntry_layout m c o t n body rest :
  length m = 2%nat -> length c = 4%nat -> length o = 8%nat -> length n = 4%nat ->
  be_decode n = zlen body ->
  decodeEntry (m ++ c ++ o ++ [t] ++ n ++ body ++ rest) =
    if negb (be_decode m =? magicNumber) then Err InvalidMagic
    else if negb (ChecksumIEEE (o ++ [t] ++ n ++ body) =? be_decode c) then Err ChecksumMismatch
    else Ok ({| Offset := int64 (be_decode o); Type_ := t; Data := body |}, entryHeaderSize + zlen body).
Proof.
  intros Hm Hc Ho Hn Hlen.
  destruct (header_slices m c o t n (body ++ rest)) as (E1 & E2 & E3 & E4 & E5 & E6); [done..|].
  unfold decodeEntry. rewrite E1, E2, E3, E4, E5, Hlen.
  assert (zlen (m ++ c ++ o ++ [t] ++ n ++ body ++ rest) = 19 + zlen body + zlen rest) as Hl.
  { rewrite !length_app. simpl. lia. }
  rewrite Hl. unfold entryHeaderSize.
  destruct (Z.ltb_spec (19 + zlen body + zlen rest) 19); [lia|].
  destruct (Z.ltb_spec (19 + zlen body + zlen rest) (19 + zlen body)); [lia|].
  unfold slice at 1 2. rewrite E6.
  replace (Z.to_nat (19 + zlen body) - 19)%nat with (length body) by lia.
  by rewrite take_app_length.
Qed.

Lemma decode_encode_app e rest :
  entry_ok e -> decodeEntry (encodeEntry e ++ rest) = Ok (e, zlen (encodeEntry e)).
Proof.
  intros He. pose proof (checksum_payload_bytes e He) as Hp. destruct He as (Ho & Ht & Hd & Hl).
  rewrite length_encodeEntry. unfold encodeEntry, checksum_payload in *.
  rewrite <- !app_assoc.
  rewrite decodeEntry_layout; [|by rewrite ?length_be_encode..|apply be_decode_u32; lia].
  change (be_decode (be_encode 2 magicNumber) =? magicNumber) with true. change (negb true) with false; cbv iota.
  rewrite be_decode_u32 by (by apply ChecksumIEEE_u32).
  rewrite Z.eqb_refl. change (negb true) with false; cbv iota. rewrite be_decode_i64 by done.
  destruct e as [o t d]. simpl. repeat f_equal. unfold entryHeaderSize. lia.
Qed.

(** The same, for a checksummed payload taken as a whole. *)
Definition payload_entry (p : list Z) : Entry :=
  {| Offset := int64 (be_decode (slice 0 8 p)); Type_ := nth 8 p 0; Data := drop 13 p |}.

Lemma payload_split p :
  (13 <= length p)%nat -> p = slice 0 8 p ++ [nth 8 p 0] ++ slice 9 13 p ++ drop 13 p.
Proof.
  intros Hp. do 13 (destruct p as [|? p]; simpl in Hp; [lia|]).
  done.
Qed.

Definition payload_sized (p : list Z) : Prop :=
  (13 <= length p)%nat /\ be_decode (slice 9 13 p) = zlen p - 13.

Definition scan_payload (m c p : list Z) : result DecodeError Entry :=
  if negb (be_decode m =? magicNumber) then Err InvalidMagic
  else if negb (ChecksumIEEE p =? be_decode c) then Err ChecksumMismatch
  else Ok (payload_entry p).

Lemma decodeEntry_payload m c p rest :
  length m = 2%nat -> length c = 4%nat -> payload_sized p ->
  decodeEntry (m ++ c ++ p ++ rest) =
    rbind (scan_payload m c p) (fun e => Ok (e, 6 + zlen p)).
Proof.
  intros Hm Hc [Hp Hn]. pose proof (payload_split p Hp) as Es.
  assert (m ++ c ++ p ++ rest = m ++ c ++ slice 0 8 p ++ [nth 8 p 0] ++ slice 9 13 p ++ drop 13 p ++ rest) as ->.
  { rewrite Es at 1. by rewrite <- !app_assoc. }
  assert (length (slice 0 8 p) = 8%nat /\ length (slice 9 13 p) = 4%nat) as [? ?].
  { unfold slice. rewrite !length_take, !length_drop. lia. }
  rewrite decodeEntry_layout; [|done..|rewrite Hn, length_drop; lia].
  rewrite <- Es. unfold scan_payload, entryHeaderSize.
  destruct (negb _); [done|]. destruct (negb _); [done|]. simpl. unfold payload_entry.
  rewrite length_drop. do 2 f_equal. lia.
Qed.

Lemma streamScanEntry_payload m c p rest :
  length m = 2%nat -> length c = 4%nat -> payload_sized p -> 6 + zlen p <= bufSize ->
  streamScanEntry (m ++ c ++ p ++ rest) =
    match scan_payload m c p with
    | Err why => Skipped 1 why (drop 1 (m ++ c ++ p ++ rest))
    | Ok e => Scanned e (6 + zlen p) rest
    end.
Proof.
  intros Hm Hc Hs Hb. pose proof Hs as [Hp Hn].
  set (bs := m ++ c ++ p ++ rest).
  assert (zlen bs = 6 + zlen p + zlen rest) as Hl by (unfold bs; rewrite !length_app; lia).
  assert (take 19 bs = m ++ c ++ take 13 p) as Ht.
  { unfold bs. rewrite !app_assoc. rewrite take_app_le by (rewrite !length_app; lia).
    rewrite take_app_ge by (rewrite length_app; lia). rewrite !length_app. do 2 f_equal. lia. }
  unfold streamScanEntry, Peek. unfold entryHeaderSize. change (bufSize <? 19) with false. cbv iota.
  destruct (Z.ltb_spec (zlen bs) 19); [lia|]. change (Z.to_nat 19) with 19%nat. rewrite Ht.
  assert (zlen (m ++ c ++ take 13 p) = 19) as Hz by (rewrite !length_app, length_take; lia).
  rewrite Hz. change (19 <? 19) with false. cbv iota.
  assert (slice 0 2 (m ++ c ++ take 13 p) = m) as -> by (by apply (slice_app [])).
  unfold scan_payload. destruct (negb (be_decode m =? magicNumber)) eqn:Em; [done|].
  assert (slice 15 19 (m ++ c ++ take 13 p) = slice 9 13 p) as ->.
  { unfold slice. rewrite app_assoc, drop_app_ge by (rewrite length_app; lia).
    rewrite length_app, Hm, Hc. rewrite skipn_firstn_comm, take_take. done. }
  rewrite Hn. replace (19 + (zlen p - 13)) with (6 + zlen p) by lia.
  destruct (Z.ltb_spec bufSize (6 + zlen p)); [lia|].
  destruct (Z.ltb_spec (zlen bs) (6 + zlen p)); [lia|].
  assert (take (Z.to_nat (6 + zlen p)) bs = m ++ c ++ p ++ []) as Etk.
  { unfold bs. rewrite app_nil_r, !app_assoc. apply take_app_length'. rewrite !length_app. lia. }
  rewrite Etk. destruct (Z.ltb_spec (zlen (m ++ c ++ p ++ [])) (6 + zlen p)) as [Hlt|_].
  { rewrite !length_app in Hlt. simpl in Hlt. lia. }
  rewrite <- Etk, take_take, Nat.min_id, Etk, decodeEntry_payload by done.
  unfold scan_payload. rewrite Em. destruct (negb (ChecksumIEEE p =? _)); [done|]. simpl. f_equal.
  unfold Discard, bs. rewrite !app_assoc. apply drop_app_length'. rewrite !length_app. lia.
Qed.

Lemma encodeEntry_split e :
  encodeEntry e = be_encode 2 magicNumber
    ++ be_encode 4 (ChecksumIEEE (checksum_payload (Offset e) (Type_ e) (Data e)))
    ++ checksum_payload (Offset e) (Type_ e) (Data e).
Proof. done. Qed.

Lemma checksum_payload_sized e :
  entry_ok e -> payload_sized (checksum_payload (Offset e) (Type_ e) (Data e)).
Proof.
  intros (_ & _ & _ & Hl). unfold payload_sized, checksum_payload. split.
  - rewrite !length_app, !length_be_encode. simpl. lia.
  - rewrite app_assoc, slice_app; [|rewrite length_app, length_be_encode; done|by rewrite length_be_encode].
    rewrite be_decode_u32 by lia. rewrite !length_app, !length_be_encode. simpl. lia.
Qed.

(** ** Corruption *)












(** ** File names *)

Lemma fmt08d_Atoi i : 0 <= i < 2 ^ 63 -> Atoi (fmt08d i) = Some i.
Proof. apply fmt_padded_Atoi. Qed.

Lemma parseSegmentID_segmentFileName i :
  0 <= i < 2 ^ 63 -> parseSegmentID (segmentFileName i) = Some i.
Proof.
  intros Hi. unfold parseSegmentID, segmentFileName. rewrite <- string_assoc, has_suffix_app.
  rewrite (trim_suffix_app _ ".log"). simpl. change ("" +:+ fmt08d i) with (fmt08d i).
  rewrite !prefix_nil, Nat.sub_0_r, substring_all. by apply fmt08d_Atoi.
Qed.

Lemma segmentFileName_inj i j :
  0 <= i < 2 ^ 63 -> 0 <= j < 2 ^ 63 -> segmentFileName i = segmentFileName j -> i = j.
Proof.
  intros Hi Hj E. apply (f_equal parseSegmentID) in E.
  rewrite !parseSegmentID_segmentFileName in E by done. by simplify_eq.
Qed.

(** ** Scanning a segment *)

(** An entry that the 64 KiB reader can return. *)
Definition readable (e : Entry) : Prop := entry_ok e /\ zlen (encodeEntry e) <= bufSize.

#[export] Instance readable_dec e : Decision (readable e).
Proof. unfold readable. apply _. Defined.

Definition encode_all (l : list Entry) : list Z := concat (encodeEntry <$> l).

Lemma encode_all_app l1 l2 : encode_all (l1 ++ l2) = encode_all l1 ++ encode_all l2.
Proof. unfold encode_all. by rewrite fmap_app, concat_app. Qed.

Lemma encode_all_cons e l : encode_all (e :: l) = encodeEntry e ++ encode_all l.
Proof. done. Qed.

Lemma encode_all_singleton e : encode_all [e] = encodeEntry e.
Proof. apply app_nil_r. Qed.

(** Bytes at which the scan stops without an error. *)
Definition quiet (tail : list Z) : Prop := streamScanEntry tail = ScanEOF.

Lemma quiet_nil : quiet [].
Proof. done. Qed.

Lemma streamScanEntry_encode e rest :
  readable e -> streamScanEntry (encodeEntry e ++ rest) = Scanned e (zlen (encodeEntry e)) rest.
Proof.
  intros [He Hb]. pose proof (decode_encode_app e [] He) as Hd.
  rewrite encodeEntry_split in *. rewrite <- !app_assoc in *.
  pose proof (checksum_payload_sized e He) as Hs.
  rewrite decodeEntry_payload in Hd by (by rewrite ?length_be_encode).
  rewrite !length_app, !length_be_encode in *.
  rewrite streamScanEntry_payload by (rewrite ?length_be_encode; done || lia).
  unfold rbind in Hd. destruct (scan_payload _ _ _); simplify_eq. f_equal. lia.
Qed.

(** The header of an entry. *)
Lemma encodeEntry_header e rest :
  19 <= zlen (take 19 (encodeEntry e ++ rest)) /\
  slice 0 2 (take 19 (encodeEntry e ++ rest)) = be_encode 2 magicNumber /\
  slice 15 19 (take 19 (encodeEntry e ++ rest)) = be_encode 4 (zlen (Data e)).
Proof.
  split; [rewrite length_take, length_app, length_encodeEntry; lia|].
  destruct (header_slices (be_encode 2 magicNumber)
    (be_encode 4 (ChecksumIEEE (checksum_payload (Offset e) (Type_ e) (Data e))))
    (be_encode 8 (Offset e)) (Type_ e) (be_encode 4 (zlen (Data e))) (Data e ++ rest)) as (H1 & _ & _ & _ & H2 & _);
    [by rewrite length_be_encode..|].
  rewrite encodeEntry_split. unfold checksum_payload at 2 4. rewrite <- !app_assoc.
  unfold slice in *. rewrite skipn_firstn_comm, !take_take. split; [exact H1|exact H2].
Qed.

(** An entry longer than the reader's buffer stops the scan with an error. *)
Lemma streamScanEntry_oversized e rest :
  zlen (Data e) < 2 ^ 32 -> bufSize < zlen (encodeEntry e) ->
  streamScanEntry (encodeEntry e ++ rest) = ScanError ErrBufferFull.
Proof.
  intros Hl Hb. destruct (encodeEntry_header e rest) as (H0 & H1 & H2).
  rewrite length_encodeEntry in Hb. unfold streamScanEntry. set (bs := encodeEntry e ++ rest) in *.
  assert (zlen bs = 19 + zlen (Data e) + zlen rest) as Hlen
    by (unfold bs; rewrite length_app, length_encodeEntry; lia).
  unfold Peek at 1. unfold entryHeaderSize. change (bufSize <? 19) with false. cbv iota.
  rewrite (proj2 (Z.ltb_ge (zlen bs) 19)) by lia. change (Z.to_nat 19) with 19%nat.
  rewrite (proj2 (Z.ltb_ge _ 19)), H1, H2 by lia.
  change (be_decode (be_encode 2 magicNumber) =? magicNumber) with true.
  change (negb true) with false; cbv iota. rewrite be_decode_u32 by lia.
  unfold Peek. rewrite (proj2 (Z.ltb_lt bufSize _)) by lia.
  rewrite (proj2 (Z.ltb_lt (zlen _) _)); [done|]. rewrite length_take. lia.
Qed.

(** A write cut short leaves a prefix of an entry, which the scan ignores. *)
Lemma torn_quiet e k :
  readable e -> (k < length (encodeEntry e))%nat -> quiet (take k (encodeEntry e)).
Proof.
  intros [He Hb] Hk. unfold quiet, streamScanEntry. set (t := take k (encodeEntry e)).
  assert (length t = k) as Hl by (unfold t; rewrite length_take; lia).
  unfold Peek at 1. unfold entryHeaderSize. change (bufSize <? 19) with false. cbv iota.
  destruct (Z.ltb_spec (zlen t) 19) as [Hs|Hs].
  { by rewrite (proj2 (Z.ltb_lt _ _)) by lia. }
  change (Z.to_nat 19) with 19%nat.
  rewrite length_take, (proj2 (Z.ltb_ge _ _)) by lia.
  assert (take 19 t = take 19 (encodeEntry e ++ [])) as ->
    by (unfold t; rewrite app_nil_r, take_take; f_equal; lia).
  destruct (encodeEntry_header e []) as (_ & -> & ->).
  change (be_decode (be_encode 2 magicNumber) =? magicNumber) with true.
  change (negb true) with false; cbv iota.
  destruct He as (_ & _ & _ & Hd). rewrite be_decode_u32 by lia.
  rewrite length_encodeEntry in Hb, Hk. unfold Peek.
  rewrite (proj2 (Z.ltb_ge _ _)) by lia.
  destruct (Z.ltb_spec (zlen t) (19 + zlen (Data e))); [|lia].
  by rewrite (proj2 (Z.ltb_lt _ _)) by lia.
Qed.

Lemma be_decode_nonneg bs : Forall is_byte bs -> 0 <= be_decode bs.
Proof.
  induction bs as [|b bs IH] using rev_ind; [done|]. rewrite Forall_app, Forall_singleton, be_decode_snoc.
  unfold is_byte. intros [? ?]. specialize (IH ltac:(done)). lia.
Qed.

(** Every step of a scan consumes input, whatever the bytes. *)
Lemma streamScanEntry_shrinks br :
  Forall is_byte br ->
  match streamScanEntry br with
  | Skipped _ _ br' | Scanned _ _ br' => Forall is_byte br' /\ (length br' < length br)%nat
  | _ => True
  end.
Proof.
  intros Hb. unfold streamScanEntry, Peek. unfold entryHeaderSize. change (bufSize <? 19) with false.
  cbv iota. destruct (Z.ltb_spec (zlen br) 19) as [Hs|Hs].
  { rewrite (proj2 (Z.ltb_lt _ _)) by lia. done. }
  assert (forall k, 0 < k -> Forall is_byte (Discard k br) /\ (length (Discard k br) < length br)%nat) as Hd.
  { intros k Hk. unfold Discard. split; [by apply Forall_drop|]. rewrite length_drop. lia. }
  rewrite length_take, (proj2 (Z.ltb_ge _ _)) by lia. destruct (negb _); [by apply Hd|].
  assert (0 <= be_decode (slice 15 19 (take (Z.to_nat 19) br))) as Hn.
  { apply be_decode_nonneg. unfold slice. by apply Forall_take, Forall_drop, Forall_take. }
  destruct (if _ <? _ then _ else _) as [l err]. destruct (_ <? _); [by destruct err as [[]|]|].
  destruct (decodeEntry _) as [[e z]|why]; apply Hd; lia.
Qed.

Lemma read_loop_total fuel br start acc :
  Forall is_byte br -> (length br < fuel)%nat -> is_Some (read_loop fuel br start acc).
Proof.
  revert br acc. induction fuel as [|fuel IH]; intros br acc Hb Hf; [lia|]. simpl.
  pose proof (streamScanEntry_shrinks br Hb) as Hs.
  destruct (streamScanEntry br); try (by eexists); apply IH; intuition lia.
Qed.

Lemma scan_offsets_loop_total fuel br first last :
  Forall is_byte br -> (length br < fuel)%nat -> is_Some (scan_offsets_loop fuel br first last).
Proof.
  revert br first last. induction fuel as [|fuel IH]; intros br first last Hb Hf; [lia|]. simpl.
  pose proof (streamScanEntry_shrinks br Hb) as Hs.
  destruct (streamScanEntry br); try (by eexists); apply IH; intuition lia.
Qed.

Lemma recover_loop_total {St} fuel br segID start (cb : RecoverCallback St) ws pos st :
  Forall is_byte br -> (length br < fuel)%nat ->
  is_Some (recover_loop fuel br segID start cb ws pos st).
Proof.
  revert br ws pos st. induction fuel as [|fuel IH]; intros br ws pos st Hb Hf; [lia|]. simpl.
  pose proof (streamScanEntry_shrinks br Hb) as Hs.
  destruct (streamScanEntry br) as [| | |e adv br']; try (by eexists); [apply IH; intuition lia|].
  destruct (start <=? Offset e); [|apply IH; intuition lia].
  destruct (cb st e) as [st' [err|]]; [by eexists|apply IH; intuition lia].
Qed.

(** Scans of a clean segment: encoded entries and a quiet tail. *)

Lemma read_loop_clean l tail fuel start acc :
  Forall readable l -> quiet tail -> (length l < fuel)%nat ->
  read_loop fuel (encode_all l ++ tail) start acc =
    Some (Ok (acc ++ filter (fun e => start <= Offset e) l)).
Proof.
  revert fuel acc. induction l as [|e l IH]; intros [|fuel] acc Hl Hq Hf; simpl in Hf; try lia.
  - simpl. rewrite Hq. by rewrite app_nil_r.
  - apply Forall_cons in Hl as [He Hl]. rewrite encode_all_cons, <- app_assoc. cbn [read_loop].
    rewrite streamScanEntry_encode by done. rewrite IH by (done || lia).
    rewrite filter_cons. destruct (Z.leb_spec start (Offset e)).
    + rewrite decide_True by lia. by rewrite <- app_assoc.
    + by rewrite decide_False by lia.
Qed.

Definition first_off (c : list Entry) : Z := match c with [] => -1 | e :: _ => Offset e end.
Definition last_off (c : list Entry) : Z := match last c with None => -1 | Some e => Offset e end.

Lemma last_off_snoc c e : last_off (c ++ [e]) = Offset e.
Proof. unfold last_off. by rewrite last_snoc. Qed.

Lemma scan_offsets_loop_clean l tail fuel first last :
  Forall readable l -> Forall (fun e => 0 <= Offset e) l -> quiet tail -> (length l < fuel)%nat ->
  scan_offsets_loop fuel (encode_all l ++ tail) first last =
    Some (Ok (if first =? -1 then first_off l else first,
              match l with [] => last | _ => last_off l end)).
Proof.
  revert fuel first last. induction l as [|e l IH]; intros [|fuel] first last Hl Hp Hq Hf; simpl in Hf; try lia.
  - simpl. rewrite Hq. by destruct (Z.eqb_spec first (-1)) as [->|].
  - apply Forall_cons in Hl as [He Hl]. apply Forall_cons in Hp as [Hpe Hp].
    rewrite encode_all_cons, <- app_assoc. cbn [scan_offsets_loop].
    rewrite streamScanEntry_encode by done. rewrite IH by (done || lia). do 3 f_equal.
    + destruct (Z.eqb_spec first (-1)) as [->|]; [|by destruct (Z.eqb_spec first (-1))].
      destruct (Z.eqb_spec (Offset e) (-1)); [lia|done].
    + by destruct l.
Qed.

Lemma length_encode_all l : (length l <= length (encode_all l))%nat.
Proof.
  induction l as [|e l IH]; [simpl; lia|]. rewrite encode_all_cons, length_app, length_encodeEntry. simpl. lia.
Qed.

Lemma length_encode_all_max l :
  Forall readable l -> zlen (encode_all l) <= bufSize * zlen l.
Proof.
  induction 1 as [|e l [_ He] Hl IH]; [simpl; lia|]. rewrite encode_all_cons, length_app, length_cons.
  unfold bufSize in *. lia.
Qed.

(** What replaying a list of entries through a callback does. *)
Fixpoint replay {St} (cb : RecoverCallback St) (st : St) (l : list Entry) : St * option Error :=
  match l with
  | [] => (st, None)
  | e :: l => match cb st e with (st, Some err) => (st, Some err) | (st, None) => replay cb st l end
  end.

Lemma replay_app {St} (cb : RecoverCallback St) st l1 l2 :
  replay cb st (l1 ++ l2) =
    match replay cb st l1 with (st, Some err) => (st, Some err) | (st, None) => replay cb st l2 end.
Proof.
  revert st. induction l1 as [|e l1 IH]; intros st; [done|]. simpl.
  by destruct (cb st e) as [st' [err|]].
Qed.

Lemma recover_loop_clean {St} l tail fuel segID start (cb : RecoverCallback St) ws pos st :
  Forall readable l -> quiet tail -> (length l < fuel)%nat ->
  recover_loop fuel (encode_all l ++ tail) segID start cb ws pos st =
    let '(st, err) := replay cb st (filter (fun e => start <= Offset e) l) in Some (st, ws, err).
Proof.
  revert fuel pos st. induction l as [|e l IH]; intros [|fuel] pos st Hl Hq Hf; simpl in Hf; try lia.
  - simpl. by rewrite Hq.
  - apply Forall_cons in Hl as [He Hl]. rewrite encode_all_cons, <- app_assoc. cbn [recover_loop].
    rewrite streamScanEntry_encode by done. rewrite filter_cons.
    destruct (Z.leb_spec start (Offset e)).
    + rewrite decide_True by lia. simpl. destruct (cb st e) as [st' [err|]]; [done|].
      apply IH; done || lia.
    + rewrite decide_False by lia. apply IH; done || lia.
Qed.
