(* ===== verification/WalLog.v ===== *)
(** The segmented log of Wal.v refines an append-only list of entries.

    [wal_inv] ties the in-memory segments and the directory to the list of
    entries appended so far; appends, reads, recovery, closing, reopening and an
    append cut short by a crash ([Append_cut], with or without a rotation) are
    proved against that list. *)

From stdpp Require Import base tactics list gmap strings sorting.
From Stdlib Require Import ZArith Lia.
From S2P Require Import Prelude Crc32 Wal WalProofs.

#[local] Opaque encodeEntry streamScanEntry segmentFileName parseSegmentID.

(** ** The invariant *)

Section invariant.
(** What may follow the entries of a file: nothing while the process runs, a
    torn write after a crash. *)
Context (Q : list Z -> Prop).

Definition seg_rel (d : disk) (seg : segment) (chunk : list Entry) : Prop :=
  path seg = segmentFileName (id seg) /\
  startOffset seg = first_off chunk /\ endOffset seg = last_off chunk /\
  exists tail, Q tail /\ d !! path seg = Some (encode_all chunk ++ tail) /\
    size seg = zlen (encode_all chunk ++ tail).

Definition log_ok (log : list Entry) : Prop :=
  Forall readable log /\ forall i e, log !! i = Some e -> Offset e = Z.of_nat i.

(** The names in the directory that parse as segments are the segments. *)
Definition names_ok (d : disk) (n : Z) : Prop :=
  forall name i, is_Some (d !! name) -> parseSegmentID name = Some i ->
  1 <= i <= n /\ name = segmentFileName i.

Record wal_core (d : disk) (w : WAL) (log : list Entry) : Prop := {
  inv_chunks : exists chunks, log = concat chunks /\ Forall2 (seg_rel d) (segments w) chunks;
  inv_ids : id <$> segments w = seqZ 1 (zlen (segments w));
  inv_active : activeSeg w = Some (pred (length (segments w)));
  inv_nonempty : segments w <> [];
  inv_open : closed w = false -> file <$> last (segments w) = Some true;
  inv_next : nextOffset w = zlen log;
  inv_log : log_ok log;
  inv_names : names_ok d (zlen (segments w));
}.

(** Between operations the last segment is empty only if the log is, and
    every other segment but the first has an entry. *)
Record wal_inv (d : disk) (w : WAL) (log : list Entry) : Prop := {
  inv_core : wal_core d w log;
  inv_last : forall s, last (segments w) = Some s -> endOffset s = -1 -> log = [];
  inv_count : (length (segments w) <= length log + 1)%nat;
}.

End invariant.

(** A log of fewer than 2^40 entries: no file size or segment number overflows. *)
Definition log_small (log : list Entry) : Prop := zlen log < 2 ^ 40.

Definition clean : list Z -> Prop := eq [].

Lemma clean_quiet tail : clean tail -> quiet tail.
Proof. intros <-. apply quiet_nil. Qed.

Lemma seg_rel_weaken (Q1 Q2 : list Z -> Prop) d seg c :
  (forall t, Q1 t -> Q2 t) -> seg_rel Q1 d seg c -> seg_rel Q2 d seg c.
Proof. unfold seg_rel. naive_solver. Qed.

Lemma wal_inv_weaken (Q1 Q2 : list Z -> Prop) d w log :
  (forall t, Q1 t -> Q2 t) -> wal_inv Q1 d w log -> wal_inv Q2 d w log.
Proof.
  intros HQ [[] ? ?]. split; [split|..]; try done. destruct inv_chunks0 as (chunks & -> & HF).
  exists chunks. split; [done|]. eapply Forall2_impl; eauto using seg_rel_weaken.
Qed.

(** ** Reading *)

Definition chunk_ok (c : list Entry) : Prop :=
  Forall readable c /\ Forall (fun e => 0 <= Offset e <= last_off c) c.

Lemma log_chunk_ok pre c post : log_ok (pre ++ c ++ post) -> chunk_ok c.
Proof.
  intros [Hr Ho]. split; [by rewrite !Forall_app in Hr; tauto|].
  assert (forall j e, c !! j = Some e -> Offset e = Z.of_nat (length pre + j)) as Hc.
  { intros j e Hj. apply Ho. rewrite lookup_app_r by lia.
    rewrite lookup_app_l; [by rewrite Nat.add_comm, Nat.add_sub|].
    apply lookup_lt_Some in Hj. lia. }
  apply Forall_lookup. intros j e Hj. pose proof (Hc _ _ Hj). pose proof (lookup_lt_Some _ _ _ Hj).
  unfold last_off. rewrite last_lookup.
  destruct (lookup_lt_is_Some_2 c (pred (length c)) ltac:(lia)) as [x Hx]. rewrite Hx.
  pose proof (Hc _ _ Hx). lia.
Qed.

Lemma log_chunks_ok chunks : log_ok (concat chunks) -> Forall chunk_ok chunks.
Proof.
  intros H. apply Forall_forall. intros c Hc. apply list_elem_of_split in Hc as (l1 & l2 & ->).
  rewrite concat_app in H. simpl in H. by eapply log_chunk_ok.
Qed.

Definition from (start : Z) (log : list Entry) : list Entry := filter (fun e => start <= Offset e) log.

Lemma from_app start l1 l2 : from start (l1 ++ l2) = from start l1 ++ from start l2.
Proof. apply filter_app. Qed.

Lemma from_before start c : Forall (fun e => Offset e < start) c -> from start c = [].
Proof. unfold from. induction 1; [done|]. rewrite filter_cons, decide_False; [done|lia]. Qed.

Lemma chunk_past start c : chunk_ok c -> last_off c < start -> from start c = [].
Proof.
  intros [_ Hc] Hl. apply from_before. eapply Forall_impl; [exact Hc|]. simpl. lia.
Qed.

Lemma first_off_none c : chunk_ok c -> first_off c = -1 -> c = [].
Proof. intros [_ Hc]. destruct c as [|e c]; [done|]. apply Forall_cons in Hc as [Hc _]. simpl. lia. Qed.

(** Where a reader starts: the chunks before it hold nothing of interest. *)
Definition start_ok (sel : option segment) (start : Z) (segs : list segment) (chunks : list (list Entry)) : Prop :=
  match sel with
  | None => from start (concat chunks) = []
  | Some seg => exists pre post cpre cpost,
      segs = pre ++ seg :: post /\ chunks = cpre ++ cpost /\ length cpre = length pre /\
      from start (concat cpre) = []
  end.

Lemma start_ok_cons sel start seg segs c chunks :
  from start c = [] -> start_ok sel start segs chunks -> start_ok sel start (seg :: segs) (c :: chunks).
Proof.
  intros Hc. destruct sel as [s|]; simpl.
  - intros (pre & post & cpre & cpost & -> & -> & Hl & Hf).
    exists (seg :: pre), post, (c :: cpre), cpost. split_and!; [done..|by simpl; f_equal|].
    simpl. by rewrite from_app, Hc.
  - intros Hf. by rewrite from_app, Hc.
Qed.

Lemma start_ok_here start seg segs chunks : start_ok (Some seg) start (seg :: segs) chunks.
Proof. by exists [], segs, [], chunks. Qed.

Lemma read_start_ok Q d start segs chunks :
  Forall2 (seg_rel Q d) segs chunks -> Forall chunk_ok chunks ->
  start_ok (read_start start segs) start segs chunks /\
  start_ok (recover_start start segs) start segs chunks.
Proof.
  induction 1 as [|seg c segs chunks (_ & Hs & He & _) HF IH]; intros Hc; [done|].
  apply Forall_cons in Hc as [Hc Hcs]. destruct (IH Hcs) as [IH1 IH2]. simpl. rewrite Hs, He.
  destruct (Z.eqb_spec (first_off c) (-1)) as [E|E].
  { apply first_off_none in E as ->; [|done]. split; by apply start_ok_cons. }
  split.
  - destruct (_ && _) eqn:E1; [apply start_ok_here|].
    destruct (Z.ltb_spec start (first_off c)); [apply start_ok_here|].
    apply start_ok_cons; [|done]. apply chunk_past; [done|].
    rewrite (proj2 (Z.leb_le _ _)) in E1 by lia. simpl in E1. bools. lia.
  - destruct (_ || _) eqn:E1; [apply start_ok_here|]. bools.
    destruct (Z.ltb_spec start (first_off c)); [apply start_ok_here|].
    apply start_ok_cons; [|done]. by apply chunk_past.
Qed.

Lemma segments_from_split pre seg post :
  NoDup (id <$> pre ++ seg :: post) -> segments_from (id seg) (pre ++ seg :: post) = seg :: post.
Proof.
  induction pre as [|s pre IH]; simpl; intros Hn.
  - by rewrite Z.eqb_refl.
  - apply NoDup_cons in Hn as [Hs Hn]. destruct (Z.eqb_spec (id s) (id seg)) as [E|E].
    + destruct Hs. rewrite fmap_app. set_solver.
    + by apply IH.
Qed.

Section reading.
Context (Q : list Z -> Prop) (HQ : forall t, Q t -> quiet t).

Lemma readSegmentEntries_chunk d seg c start :
  seg_rel Q d seg c -> chunk_ok c -> readSegmentEntries d seg start = Some (Ok (from start c)).
Proof.
  intros (_ & _ & _ & tail & Ht & Hf & _) [Hc _]. unfold readSegmentEntries. rewrite Hf.
  apply read_loop_clean; [done|by apply HQ|]. rewrite length_app. pose proof (length_encode_all c). lia.
Qed.

Lemma read_segments_chunks d segs chunks start acc :
  Forall2 (seg_rel Q d) segs chunks -> Forall chunk_ok chunks ->
  read_segments d segs start acc = Some (acc ++ from start (concat chunks), None).
Proof.
  intros HF. revert acc. induction HF as [|seg c segs chunks Hr HF IH]; intros acc Hc; simpl.
  - by rewrite app_nil_r.
  - apply Forall_cons in Hc as [Hc Hcs]. rewrite (readSegmentEntries_chunk _ _ c) by done.
    by rewrite IH, from_app, app_assoc by done.
Qed.

Lemma recover_segments_chunks {St} d segs chunks start (cb : RecoverCallback St) ws st :
  Forall2 (seg_rel Q d) segs chunks -> Forall chunk_ok chunks ->
  recover_segments d segs start cb ws st =
    let '(st, err) := replay cb st (from start (concat chunks)) in Some (st, ws, err).
Proof.
  intros HF. revert st. induction HF as [|seg c segs chunks Hr HF IH]; intros st Hc; simpl; [done|].
  apply Forall_cons in Hc as [Hc Hcs]. destruct Hr as (_ & _ & _ & tail & Ht & Hf & _).
  unfold recoverSegment, recoverSegmentStream. rewrite Hf.
  rewrite recover_loop_clean; [|apply Hc|by apply HQ|rewrite length_app; pose proof (length_encode_all c); lia].
  change (filter _ c) with (from start c). rewrite from_app, replay_app.
  destruct (replay cb st (from start c)) as [st' [err|]]; rewrite app_nil_r; [done|]. by apply IH.
Qed.

Lemma NoDup_ids d w log : wal_core Q d w log -> NoDup (id <$> segments w).
Proof. intros H. rewrite (inv_ids _ _ _ _ H). apply NoDup_seqZ. Qed.

Lemma Forall2_split d pre seg post cpre cpost :
  Forall2 (seg_rel Q d) (pre ++ seg :: post) (cpre ++ cpost) -> length cpre = length pre ->
  Forall2 (seg_rel Q d) (seg :: post) cpost.
Proof. intros HF Hl. by apply Forall2_app_inv in HF as [_ HF]. Qed.

Lemma ReadFrom_log d w log start :
  wal_core Q d w log -> closed w = false -> 0 <= start ->
  ReadFrom d w start = Some (from start log, None).
Proof.
  intros Hi Hc Hs. unfold ReadFrom. rewrite Hc, (proj2 (Z.ltb_ge _ _)) by lia.
  pose proof (NoDup_ids _ _ _ Hi) as Hn. pose proof (inv_log _ _ _ _ Hi) as Hl.
  destruct (inv_chunks _ _ _ _ Hi) as (chunks & -> & HF).
  apply log_chunks_ok in Hl. destruct (read_start_ok Q d start _ _ HF Hl) as [Hr _].
  destruct (read_start start (segments w)) as [seg|]; simpl in Hr; [|by rewrite Hr].
  destruct Hr as (pre & post & cpre & cpost & Es & -> & Hlen & Hf). rewrite Es in *.
  rewrite segments_from_split by done. rewrite (read_segments_chunks _ _ cpost).
  - by rewrite concat_app, from_app, Hf.
  - by eapply Forall2_split.
  - by apply Forall_app in Hl as [_ ?].
Qed.

Lemma RecoverFrom_log {St} d w log start (cb : RecoverCallback St) st :
  wal_core Q d w log -> closed w = false -> 0 <= start ->
  RecoverFrom d w start (Some cb) st =
    let '(st, err) := replay cb st (from start log) in Some (st, [], err).
Proof.
  intros Hi Hc Hs. unfold RecoverFrom. rewrite Hc, (proj2 (Z.ltb_ge _ _)) by lia.
  pose proof (NoDup_ids _ _ _ Hi) as Hn. pose proof (inv_log _ _ _ _ Hi) as Hl.
  destruct (inv_chunks _ _ _ _ Hi) as (chunks & -> & HF).
  apply log_chunks_ok in Hl. destruct (read_start_ok Q d start _ _ HF Hl) as [_ Hr].
  destruct (recover_start start (segments w)) as [seg|]; simpl in Hr; [|by rewrite Hr].
  destruct Hr as (pre & post & cpre & cpost & Es & -> & Hlen & Hf). rewrite Es in *.
  rewrite segments_from_split by done. rewrite (recover_segments_chunks _ _ cpost).
  - by rewrite concat_app, from_app, Hf.
  - by eapply Forall2_split.
  - by apply Forall_app in Hl as [_ ?].
Qed.
End reading.

(** ** Appending *)

(** The segment an append goes to. *)
Lemma core_snoc Q d w log :
  wal_core Q d w log -> exists segs seg cs c,
    segments w = segs ++ [seg] /\ log = concat cs ++ c /\
    Forall2 (seg_rel Q d) segs cs /\ seg_rel Q d seg c /\
    id seg = zlen segs + 1 /\ active w = Some (length segs, seg) /\
    (closed w = false -> file seg = true) /\
    Forall (fun s => 1 <= id s <= zlen segs) segs.
Proof.
  intros [(chunks & -> & HF) Hids Hact Hne Hop _ _ _].
  destruct (exists_last Hne) as (segs & seg & Es). rewrite Es in *.
  apply Forall2_app_inv_l in HF as (cs & l & HF1 & HF2 & ->).
  apply Forall2_cons_inv_l in HF2 as (c & l' & Hr & HF2 & ->). apply Forall2_nil_inv_l in HF2 as ->.
  exists segs, seg, cs, c. rewrite concat_app. simpl. rewrite app_nil_r.
  rewrite length_app, fmap_app, Nat2Z.inj_add, seqZ_app in Hids by lia. simpl in Hids.
  apply app_inj_2 in Hids as [Hi1 Hi2]; [|done].
  change (seqZ (1 + zlen segs) (Z.of_nat 1)) with [0 + (1 + zlen segs)] in Hi2. injection Hi2 as Hi2.
  split_and!; try done.
  - lia.
  - unfold active. rewrite Hact, length_app, Nat.add_1_r. simpl. by rewrite Es, list_lookup_middle.
  - rewrite last_snoc in Hop. simpl in Hop. intros Hc. specialize (Hop Hc). by simplify_eq.
  - apply Forall_forall. intros s Hs. apply (list_elem_of_fmap_2 id) in Hs.
    rewrite Hi1 in Hs. apply elem_of_seqZ in Hs. lia.
Qed.

(** Files other than the one written to are untouched. *)
Lemma seg_rel_frame Q d i f segs cs :
  Forall2 (seg_rel Q d) segs cs -> 0 <= i < 2 ^ 63 -> Forall (fun s => 1 <= id s < i) segs ->
  Forall2 (seg_rel Q (<[segmentFileName i := f]> d)) segs cs.
Proof.
  intros HF Hi. induction HF as [|s c segs cs Hr HF IH]; intros Hs; [done|].
  apply Forall_cons in Hs as [Hs Hss]. constructor; [|by apply IH].
  destruct Hr as (Hp & Hso & Heo & tail & HQ & Hf & Hz). split_and!; try done. exists tail.
  rewrite lookup_insert_ne; [done|]. rewrite Hp. intros E. apply segmentFileName_inj in E; lia.
Qed.

Lemma names_ok_insert d n m i f :
  names_ok d n -> n <= m -> 1 <= i <= m -> i < 2 ^ 63 -> names_ok (<[segmentFileName i := f]> d) m.
Proof.
  intros Hn Hm Hi Hb name j Hs Hp. destruct (decide (name = segmentFileName i)) as [->|Hne].
  - rewrite parseSegmentID_segmentFileName in Hp by lia. by simplify_eq.
  - rewrite lookup_insert_ne in Hs by done. destruct (Hn _ _ Hs Hp). split; [lia|done].
Qed.

Lemma log_ok_snoc log e :
  log_ok log -> readable e -> Offset e = zlen log -> log_ok (log ++ [e]).
Proof.
  intros [Hr Ho] He Hoff. split; [by apply Forall_app; auto|].
  intros i x. rewrite lookup_app_Some. intros [Hi|[Hi Hx]]; [by apply Ho|].
  destruct (i - length log)%nat eqn:E; simplify_eq/=. lia.
Qed.

Lemma first_off_snoc c e : first_off (c ++ [e]) = if first_off c =? -1 then
  (match c with [] => Offset e | x :: _ => Offset x end) else first_off c.
Proof. destruct c as [|x c]; [done|]. simpl. by destruct (Z.eqb_spec (Offset x) (-1)). Qed.

Lemma insert_last {A} (l : list A) x y : <[length l := x]> (l ++ [y]) = l ++ [x].
Proof. by rewrite insert_app_r_alt, Nat.sub_diag by lia. Qed.

(** The write at the end of [Append]: one more entry in the last segment. *)
Lemma append_active_core d w log e :
  wal_core clean d w log -> closed w = false -> log_small log -> readable e -> Offset e = zlen log ->
  zlen (segments w) < 2 ^ 62 ->
  exists d' w', append_active d w (Offset e) (encodeEntry e) = (d', w', Ok (zlen log)) /\
    wal_core clean d' w' (log ++ [e]) /\ closed w' = false /\ config w' = config w /\
    length (segments w') = length (segments w) /\
    (forall s, last (segments w') = Some s -> endOffset s = zlen log).
Proof.
  intros Hcore Hcl Hsm He Hoff Hseg.
  destruct (core_snoc _ _ _ _ Hcore) as (segs & seg & cs & c & Es & El & HF & Hr & Hid & Hact & Hf & Hids).
  destruct Hcore as [_ Hi1 Hi2 Hi3 Hi4 Hi5 Hi6 Hi7].
  destruct Hr as (Hp & Hso & Heo & tail & Ht & Hd & Hz). unfold clean in Ht. subst tail. rewrite app_nil_r in *.
  assert (zlen (encode_all (c ++ [e])) < 2 ^ 63) as Hbig.
  { assert (Forall readable (c ++ [e])) as Hrd.
    { rewrite Forall_app, Forall_singleton. destruct Hi6 as [Hrd _]. rewrite El, Forall_app in Hrd. tauto. }
    pose proof (length_encode_all_max _ Hrd). unfold log_small in Hsm. rewrite El, !length_app in *.
    unfold bufSize in *. simpl in *. lia. }
  rewrite encode_all_app, encode_all_singleton, length_app in Hbig.
  unfold append_active. rewrite Hact, Hf by done. simpl negb. cbv iota.
  eexists _, _. split; [by rewrite Hoff|]. rewrite Hp, Es in *.
  unfold write_file. rewrite Hd. simpl default.
  rewrite insert_last. split_and!; simpl; try done.
  - split; simpl; rewrite ?length_app in *; try done.
    + exists (cs ++ [c ++ [e]]). rewrite concat_app. simpl. rewrite app_nil_r, El, <- app_assoc.
      split; [done|]. apply Forall2_app; [|repeat constructor].
      * apply seg_rel_frame; [done|lia|]. eapply Forall_impl; [exact Hids|]. simpl. lia.
      * simpl. exact Hp.
      * simpl. rewrite Hso, first_off_snoc. destruct (Z.eqb_spec (first_off c) (-1)) as [E|]; [|done].
        assert (chunk_ok c) as Hck by (eapply log_chunk_ok; rewrite app_nil_r, <- El; done).
        destruct c; [congruence|]. by apply first_off_none in E.
      * simpl. rewrite last_off_snoc. congruence.
      * exists []. rewrite app_nil_r, encode_all_app, encode_all_singleton. simpl. rewrite Hp.
        split_and!; [done|by rewrite lookup_insert_eq|]. rewrite Hz, length_app, int64_small; lia.
    + etransitivity; [|exact Hi1]. by rewrite !fmap_app.
    + by destruct segs.
    + intros _. rewrite last_snoc. simpl. by rewrite Hf.
    + unfold log_small in Hsm. rewrite int64_small by lia. simpl. lia.
    + by apply log_ok_snoc.
    + apply (names_ok_insert _ _ _ _ _ Hi7); simpl; lia.
  - by rewrite !length_app.
  - intros s Hs. rewrite last_snoc in Hs. by simplify_eq.
Qed.

Lemma seqZ_snoc n : seqZ 1 (Z.of_nat (S n)) = seqZ 1 (Z.of_nat n) ++ [Z.of_nat n + 1].
Proof.
  replace (Z.of_nat (S n)) with (Z.of_nat n + 1) by lia. rewrite seqZ_app by lia. f_equal.
  change (seqZ (1 + Z.of_nat n) 1) with [0 + (1 + Z.of_nat n)]. f_equal. lia.
Qed.

(** A new, empty last segment. *)
Lemma createSegment_core Q d w cs :
  Q [] -> Forall2 (seg_rel Q d) (segments w) cs -> id <$> segments w = seqZ 1 (zlen (segments w)) ->
  names_ok d (zlen (segments w)) -> zlen (segments w) < 2 ^ 62 ->
  nextOffset w = zlen (concat cs) -> log_ok (concat cs) ->
  exists d' w', createSegment d w (zlen (segments w) + 1) = (d', w') /\
    wal_core Q d' w' (concat cs) /\ closed w' = closed w /\ config w' = config w /\
    length (segments w') = S (length (segments w)) /\
    (forall s, last (segments w') = Some s -> endOffset s = -1).
Proof.
  intros HQ HF Hids Hn Hsm Hnext Hlog. unfold createSegment. set (n := zlen (segments w)) in *.
  assert (d !! segmentFileName (n + 1) = None) as Hnone.
  { apply eq_None_not_Some. intros Hs. destruct (Hn _ (n + 1) Hs); [|lia].
    apply parseSegmentID_segmentFileName. lia. }
  rewrite Hnone. eexists _, _. split; [done|].
  split_and!; simpl; try done; [|rewrite length_app; simpl; lia|intros s; rewrite last_snoc; naive_solver].
  assert (Forall (fun s => 1 <= id s < n + 1) (segments w)) as Hlt.
  { apply Forall_forall. intros s Hs. apply (list_elem_of_fmap_2 id) in Hs.
    rewrite Hids in Hs. apply elem_of_seqZ in Hs. lia. }
  split; simpl; rewrite ?length_app; simpl; try done.
  - exists (cs ++ [[]]). rewrite concat_app. simpl. rewrite !app_nil_r. split; [done|].
    apply Forall2_app; [apply seg_rel_frame; done || lia|]. repeat constructor.
    exists []. simpl. by rewrite lookup_insert_eq.
  - rewrite Nat.add_1_r, seqZ_snoc, fmap_app, Hids. done.
  - f_equal. lia.
  - by destruct (segments w).
  - intros _. by rewrite last_snoc.
  - rewrite Nat.add_1_r. apply (names_ok_insert _ n); [done|lia..].
Qed.

#[local] Opaque createSegment.

Lemma seg_rel_file Q d seg c b : seg_rel Q d seg c -> seg_rel Q d (seg <| file := b |>) c.
Proof. done. Qed.

Lemma rotateSegment_core d w log :
  wal_core clean d w log -> closed w = false -> zlen (segments w) < 2 ^ 62 ->
  exists d' w', rotateSegment d w = (d', w', None) /\ wal_core clean d' w' log /\
    closed w' = false /\ config w' = config w /\
    length (segments w') = S (length (segments w)) /\
    (forall s, last (segments w') = Some s -> endOffset s = -1).
Proof.
  intros Hcore Hcl Hseg.
  destruct (core_snoc _ _ _ _ Hcore) as (segs & seg & cs & c & Es & El & HF & Hr & Hid & Hact & Hf & Hids).
  destruct Hcore as [_ Hi1 Hi2 Hi3 Hi4 Hi5 Hi6 Hi7].
  unfold rotateSegment. rewrite Hact, Hf by done. simpl negb. cbv iota.
  rewrite Es, insert_last in *. set (segs' := segs ++ [seg <| file := false |>]).
  assert (length segs' = length (segs ++ [seg])) as Hlen by (unfold segs'; by rewrite !length_app).
  assert (id <$> segs' = id <$> (segs ++ [seg])) as Hid' by (unfold segs'; by rewrite !fmap_app).
  destruct (createSegment_core clean d (w <| segments := segs' |>) (cs ++ [c]))
    as (d' & w' & Hc & Hcore' & Hcl' & Hcfg & Hlen' & Hend); simpl; rewrite ?Hlen, ?Hid', ?concat_app; simpl;
    rewrite ?app_nil_r, <- ?El; try done.
  { unfold segs'. apply Forall2_app; [done|]. repeat constructor; apply Hr. }
  simpl in Hc. rewrite Hlen in Hc.
  replace (int64 (id seg + 1)) with (zlen (segs ++ [seg]) + 1).
  2:{ rewrite length_app in *. simpl in *. rewrite int64_small; lia. }
  rewrite Hc. exists d', w'. rewrite concat_app in Hcore'. simpl in Hcore', Hlen'. rewrite app_nil_r, <- El in Hcore'.
  split_and!; try done; [by rewrite Hcl'|]. by rewrite Hlen', Hlen.
Qed.

Definition new_entry (log : list Entry) (ty : Z) (data : list Z) : Entry :=
  {| Offset := zlen log; Type_ := ty; Data := data |}.

(** An append that is accepted adds one entry at the end of the log. *)
Lemma Append_log d w log ty data :
  wal_inv clean d w log -> closed w = false -> log_small log ->
  readable (new_entry log ty data) -> negb (ty =? OpCheckpoint) && (zlen data =? 0) = false ->
  exists d' w', Append d w ty data = (d', w', Ok (zlen log)) /\
    wal_inv clean d' w' (log ++ [new_entry log ty data]) /\ closed w' = false /\ config w' = config w.
Proof.
  intros [Hcore Hlast Hcount] Hcl Hsm Hrd Hne.
  assert (zlen (segments w) < 2 ^ 61) as Hseg by (unfold log_small in Hsm; lia).
  pose proof (inv_next _ _ _ _ Hcore) as Hnext.
  destruct (core_snoc _ _ _ _ Hcore) as (segs & seg & cs & c & Es & El & HF & Hr & Hid & Hact & Hf & Hids).
  unfold Append. rewrite Hcl, Hne, Hact, Hnext. change (Build_Entry _ _ _) with (new_entry log ty data).
  assert (forall d1 w1, wal_core clean d1 w1 log -> closed w1 = false -> config w1 = config w ->
    (length (segments w1) <= S (length (segments w)))%nat ->
    exists d' w', append_active d1 w1 (zlen log) (encodeEntry (new_entry log ty data)) = (d', w', Ok (zlen log)) /\
    wal_inv clean d' w' (log ++ [new_entry log ty data]) /\ closed w' = false /\ config w' = config w) as Happ.
  { intros d1 w1 Hc1 Hcl1 Hcfg1 Hlen1.
    destruct (append_active_core d1 w1 log (new_entry log ty data)) as (d' & w' & Ha & Hc' & Hcl' & Hcfg' & Hl' & He');
      try done; [lia|]. exists d', w'. split_and!; [done| |done|congruence].
    split; [done| |rewrite length_app; simpl; lia]. intros s Hs He. specialize (He' s Hs). lia. }
  destruct ((0 <? _) && _); [|by apply Happ; auto].
  destruct (rotateSegment_core d w log) as (d1 & w1 & -> & Hc1 & Hcl1 & Hcfg1 & Hl1 & _); [done..|lia|].
  apply Happ; try done. lia.
Qed.

(** ** Opening *)

Lemma omap_inj_NoDup {A B} (f : A -> option B) (l : list A) :
  (forall x y b, x ∈ l -> y ∈ l -> f x = Some b -> f y = Some b -> x = y) -> NoDup l -> NoDup (omap f l).
Proof.
  intros Hinj. induction 1 as [|x l Hx Hn IH]; [constructor|]. simpl.
  assert (NoDup (omap f l)) as IH' by (apply IH; intros; eapply Hinj; eauto using list_elem_of_further).
  destruct (f x) as [b|] eqn:E; [|done]. constructor; [|done].
  intros (y & Hy & Hfy)%list_elem_of_omap. destruct Hx.
  rewrite (Hinj x y b); eauto using list_elem_of_here, list_elem_of_further.
Qed.

Lemma seqZ_sorted m n : Sorted Z.le (seqZ m (Z.of_nat n)).
Proof.
  revert m. induction n as [|n IH]; intros m; [constructor|].
  rewrite seqZ_cons by lia. replace (Z.pred (Z.of_nat (S n))) with (Z.of_nat n) by lia.
  constructor; [apply IH|]. destruct n; [constructor|]. rewrite seqZ_cons by lia. constructor. lia.
Qed.

(** [ReadDir], [parseSegmentID] and the sort recover the segment numbers. *)
Lemma segment_ids_seqZ d n :
  names_ok d (Z.of_nat n) -> Z.of_nat n < 2 ^ 62 ->
  (forall i, 1 <= i <= Z.of_nat n -> is_Some (d !! segmentFileName i)) ->
  segment_ids d = seqZ 1 (Z.of_nat n).
Proof.
  intros Hn Hb Hd. unfold segment_ids. apply (Sorted_unique Z.le).
  - apply (Sorted_merge_sort _).
  - apply seqZ_sorted.
  - rewrite merge_sort_Permutation. apply NoDup_Permutation; [|apply NoDup_seqZ|].
    + apply omap_inj_NoDup; [|apply NoDup_map_to_list]. intros [k1 f1] [k2 f2] i H1 H2 Hp1 Hp2. simpl in *.
      apply elem_of_map_to_list in H1, H2.
      destruct (Hn k1 i) as [_ E1]; [by eexists|done|]. destruct (Hn k2 i) as [_ E2]; [by eexists|done|].
      subst. by simplify_eq.
    + intros i. rewrite list_elem_of_omap, elem_of_seqZ. split.
      * intros ([k f] & Hk & Hp). apply elem_of_map_to_list in Hk.
        destruct (Hn k i) as [? _]; [by eexists|done|]. lia.
      * intros Hi. destruct (Hd i) as [f Hf]; [lia|]. exists (segmentFileName i, f).
        split; [by apply elem_of_map_to_list|]. apply parseSegmentID_segmentFileName. lia.
Qed.

Section opening.
Context (Q : list Z -> Prop) (HQ : forall t, Q t -> quiet t).

Lemma encode_all_empty c tail : encode_all c ++ tail = [] -> c = [].
Proof.
  destruct c as [|e c]; [done|]. rewrite encode_all_cons. intros E. apply (f_equal length) in E.
  rewrite !length_app, length_encodeEntry in E. simpl in E. lia.
Qed.

Lemma openSegment_chunk d seg c :
  seg_rel Q d seg c -> chunk_ok c -> openSegment d (id seg) = Some (Ok (seg <| file := false |>)).
Proof.
  intros (Hp & Hs & He & tail & Ht & Hf & Hz) [Hc Hp0].
  unfold openSegment. rewrite <- Hp, Hf. simpl.
  destruct (Z.ltb_spec 0 (zlen (encode_all c ++ tail))) as [Hl|Hl].
  - unfold scanSegmentOffsets. rewrite scan_offsets_loop_clean; [|done| |by apply HQ|].
    + destruct seg. cbn in *. do 2 f_equal. unfold set_field. cbn. f_equal; try done. by destruct c.
    + eapply Forall_impl; [exact Hp0|]. simpl. lia.
    + rewrite length_app. pose proof (length_encode_all c). lia.
  - assert (c = []) as ->. { apply (encode_all_empty c tail), length_zero_iff_nil. lia. }
    destruct seg. cbn in *. by subst.
Qed.

Lemma load_loop_chunks d segs cs acc :
  Forall2 (seg_rel Q d) segs cs -> Forall chunk_ok cs ->
  load_loop d (id <$> segs) acc = Some (Ok (acc ++ ((fun s => s <| file := false |>) <$> segs))).
Proof.
  intros HF. revert acc. induction HF as [|seg c segs cs Hr HF IH]; intros acc Hc; simpl.
  - by rewrite app_nil_r.
  - apply Forall_cons in Hc as [Hc Hcs]. rewrite (openSegment_chunk _ _ c) by done.
    rewrite IH by done. by rewrite <- app_assoc.
Qed.

Lemma segment_ids_core d w log :
  wal_core Q d w log -> zlen (segments w) < 2 ^ 62 -> segment_ids d = id <$> segments w.
Proof.
  intros Hcore Hb. rewrite (inv_ids _ _ _ _ Hcore). apply segment_ids_seqZ; [apply Hcore|done|].
  intros i Hi. assert (i ∈ id <$> segments w) as Hin.
  { rewrite (inv_ids _ _ _ _ Hcore), elem_of_seqZ. lia. }
  apply list_elem_of_fmap in Hin as (s & -> & Hs).
  destruct (inv_chunks _ _ _ _ Hcore) as (cs & _ & HF).
  apply list_elem_of_lookup in Hs as [k Hk]. destruct (Forall2_lookup_l _ _ _ _ _ HF Hk) as (c & _ & Hr).
  destruct Hr as (<- & _ & _ & tail & _ & Hf & _). by rewrite Hf.
Qed.

(** The next offset is read off the last entry of the last segment. *)
Lemma next_from_last cs c :
  log_ok (concat cs ++ c) -> (last_off c = -1 -> concat cs ++ c = []) ->
  (if 0 <=? last_off c then last_off c + 1 else 0) = zlen (concat cs ++ c).
Proof.
  intros [_ Ho] Hl. unfold last_off in *. destruct (last c) as [e|] eqn:E; [|by rewrite Hl].
  apply last_Some in E as [c' ->]. rewrite app_assoc in *.
  rewrite (Ho (length (concat cs ++ c')) e) by (by rewrite list_lookup_middle).
  rewrite (proj2 (Z.leb_le _ _)), (length_app (_ ++ _)) by lia. simpl. lia.
Qed.

Definition close_seg (s : segment) : segment := s <| file := false |>.

Lemma close_segs_rel d segs cs :
  Forall2 (seg_rel Q d) segs cs -> Forall2 (seg_rel Q d) (close_seg <$> segs) cs.
Proof. intros HF. apply Forall2_fmap_l. eapply Forall2_impl; [exact HF|]. done. Qed.

Lemma close_segs_ids (segs : list segment) : id <$> (close_seg <$> segs) = id <$> segs.
Proof. rewrite <- list_fmap_compose. done. Qed.

Definition valid_config (c : Config) : Prop := Dir c <> "".

(** The number [New] gives to the next entry, from the last segment. *)
Definition next_after (seg : segment) : Z := if 0 <=? endOffset seg then int64 (endOffset seg + 1) else 0.

(** Opening the directory of a log rebuilds its segments. *)
Lemma New_reopen_core d w log seg c :
  wal_core Q d w log -> zlen (segments w) < 2 ^ 62 -> valid_config c -> last (segments w) = Some seg ->
  exists w', New (Some c) d = Some (d, Ok w') /\ wal_core Q d (w' <| nextOffset := zlen log |>) log /\
    nextOffset w' = next_after seg /\ closed w' = false /\
    close_seg <$> segments w' = close_seg <$> segments w.
Proof.
  intros Hcore Hb Hc Hlast. pose proof (segment_ids_core _ _ _ Hcore Hb) as Hids.
  destruct (core_snoc _ _ _ _ Hcore) as (segs & seg' & cs & ch & Es & El & HF & Hr & Hid & _ & _ & Hlt).
  rewrite Es, last_snoc in Hlast. injection Hlast as ->.
  assert (Forall chunk_ok (cs ++ [ch])) as Hck.
  { apply log_chunks_ok. rewrite concat_app. simpl. rewrite app_nil_r, <- El. apply Hcore. }
  destruct Hcore as [_ Hi1 _ _ _ _ Hi6 Hi7].
  unfold New. simpl default. rewrite decide_False by done.
  unfold loadExistingSegments. cbn [segments].
  rewrite Hids, Es, (load_loop_chunks _ _ (cs ++ [ch])) by (done || (by apply Forall2_app; auto)).
  simpl. fold close_seg. rewrite fmap_app. simpl. rewrite last_snoc.
  assert (d !! path (close_seg seg) = d !! path seg) as Hpath by done.
  destruct Hr as (Hp & Hso & Heo & tail & Ht & Hf & Hz). rewrite Hpath, Hf, decide_True by done.
  assert (pred (length ((close_seg <$> segs) ++ [close_seg seg])) = length (close_seg <$> segs)) as Hpred
    by (rewrite length_app; simpl; lia).
  eexists. split; [done|]. rewrite Hpred, insert_last. split_and!; [|done|done|].
  2: { simpl. by rewrite fmap_app, <- list_fmap_compose. }
  assert (length (close_seg <$> segs) = length segs) as Hlen by apply length_fmap.
  split; simpl; rewrite ?length_app, ?Hlen; try done.
  - exists (cs ++ [ch]). rewrite concat_app. simpl. rewrite app_nil_r. split; [done|].
    apply Forall2_app; [by apply close_segs_rel|]. repeat constructor; try done. by exists tail.
  - rewrite fmap_app, close_segs_ids. rewrite Es, fmap_app, length_app in Hi1. exact Hi1.
  - f_equal. simpl. lia.
  - by destruct (close_seg <$> segs).
  - intros _. by rewrite last_snoc.
  - rewrite Es, length_app in Hi7. exact Hi7.
Qed.

Lemma wal_core_next d w log n :
  wal_core Q d (w <| nextOffset := n |>) log -> nextOffset w = n -> wal_core Q d w log.
Proof. by destruct w; simpl; intros H <-. Qed.

(** Opening the directory of a log rebuilds its state. *)
Lemma New_reopen d w log c :
  wal_inv Q d w log -> log_small log -> valid_config c ->
  exists w', New (Some c) d = Some (d, Ok w') /\ wal_inv Q d w' log /\ closed w' = false /\
    close_seg <$> segments w' = close_seg <$> segments w.
Proof.
  intros [Hcore Hlast Hcount] Hsm Hc.
  assert (zlen (segments w) < 2 ^ 62) as Hb by (unfold log_small in Hsm; lia).
  destruct (core_snoc _ _ _ _ Hcore) as (segs & seg & cs & ch & Es & El & _ & Hr & _).
  assert (last (segments w) = Some seg) as Hl by (by rewrite Es, last_snoc).
  destruct (New_reopen_core d w log seg c) as (w' & Hnew & Hcore' & Hnext & Hcl & Hsegs); [done..|].
  assert (endOffset seg = last_off ch) as Heo by apply Hr.
  assert (next_after seg = zlen log) as Hz.
  { pose proof (next_from_last cs ch) as Hn. rewrite <- El, <- Heo in Hn.
    specialize (Hn (inv_log _ _ _ _ Hcore) (Hlast seg Hl)). unfold next_after, log_small in *.
    destruct (Z.leb_spec 0 (endOffset seg)); [rewrite int64_small; lia|done]. }
  exists w'. split_and!; [done| |done..].
  assert (length (segments w') = length (segments w)) as Hlen
    by (by rewrite <- (length_fmap close_seg (segments w')), Hsegs, length_fmap).
  split; [by eapply wal_core_next, eq_trans| |by rewrite Hlen].
  intros s Hs He. apply (Hlast seg); [done|].
  apply (f_equal last) in Hsegs. rewrite !fmap_last, Hs, Hl in Hsegs. simpl in Hsegs. by destruct s, seg; simplify_eq/=.
Qed.

End opening.

(** A directory without segment files: a fresh log. *)
Lemma New_fresh d c :
  names_ok d 0 -> valid_config c ->
  exists d' w, New (Some c) d = Some (d', Ok w) /\ wal_inv clean d' w [] /\ closed w = false.
Proof.
  intros Hn Hc. unfold New. simpl default. rewrite decide_False by done. unfold loadExistingSegments.
  rewrite (segment_ids_seqZ d 0) by (done || lia). simpl.
  match goal with |- context [createSegment d ?w 1] =>
    destruct (createSegment_core clean d w []) as (d' & w' & Hcr & Hcore & Hcl & _ & Hlen & _) end; try done.
  cbn [segments set_field] in Hcr. change (zlen [] + 1) with 1 in Hcr. rewrite Hcr. exists d', w'.
  split_and!; [done| |done]. split; [done|done|]. simpl in Hlen. rewrite Hlen. simpl. lia.
Qed.

(** ** Refinement *)

(** Calls of a client.  [Reopen] is the end of the process followed by [New]
    on the same directory. *)
Inductive call :=
| CallAppend (ty : Z) (data : list Z)
| CallReadFrom (start : Z)
| CallRecoverFrom (start : Z)
| CallLastOffset
| CallClose
| CallReopen (c : Config).

Inductive reply :=
| ReplyAppend (r : result Error Z)
| ReplyRead (entries : list Entry) (err : option Error)
| ReplyRecover (entries : list Entry) (warnings : list CorruptedEntryWarning) (err : option Error)
| ReplyOffset (n : Z)
| ReplyDone
| ReplyFailed (e : Error)
| ReplyStuck.            (* a loop ran out of fuel *)

(** A callback that collects the entries it is given. *)
Definition collect : RecoverCallback (list Entry) := fun st e => (st ++ [e], None).

Definition wal_step (s : disk * WAL) (op : call) : disk * WAL * reply :=
  let '(d, w) := s in
  match op with
  | CallAppend ty data => let '(d, w, r) := Append d w ty data in (d, w, ReplyAppend r)
  | CallReadFrom start =>
      (d, w, match ReadFrom d w start with Some (l, e) => ReplyRead l e | None => ReplyStuck end)
  | CallRecoverFrom start =>
      (d, w, match RecoverFrom d w start (Some collect) [] with
             | Some (l, ws, e) => ReplyRecover l ws e | None => ReplyStuck end)
  | CallLastOffset => (d, w, ReplyOffset (LastOffset w))
  | CallClose => (d, Close w, ReplyDone)
  | CallReopen c =>
      match New (Some c) d with
      | Some (d, Ok w) => (d, w, ReplyDone)
      | Some (d, Err e) => (d, w, ReplyFailed e)
      | None => (d, w, ReplyStuck)
      end
  end.

(** The specification: a list of entries and whether the handle is closed. *)
Definition spec_step (s : list Entry * bool) (op : call) : list Entry * bool * reply :=
  let '(log, closed) := s in
  match op with
  | CallAppend ty data =>
      if closed then (log, closed, ReplyAppend (Err ErrClosed))
      else if negb (ty =? OpCheckpoint) && (zlen data =? 0) then (log, closed, ReplyAppend (Err ErrEmptyData))
      else (log ++ [new_entry log ty data], closed, ReplyAppend (Ok (zlen log)))
  | CallReadFrom start =>
      (log, closed, if closed then ReplyRead [] (Some ErrClosed)
                    else if start <? 0 then ReplyRead [] (Some ErrInvalidOffset)
                    else ReplyRead (from start log) None)
  | CallRecoverFrom start =>
      (log, closed, if closed then ReplyRecover [] [] (Some ErrClosed)
                    else if start <? 0 then ReplyRecover [] [] (Some ErrInvalidOffset)
                    else ReplyRecover (from start log) [] None)
  | CallLastOffset => (log, closed, ReplyOffset (zlen log - 1))
  | CallClose => (log, true, ReplyDone)
  | CallReopen c => (log, false, ReplyDone)
  end.

Fixpoint run {S} (step : S -> call -> S * reply) (s : S) (ops : list call) : S * list reply :=
  match ops with
  | [] => (s, [])
  | op :: ops => let '(s, r) := step s op in let '(s, rs) := run step s ops in (s, r :: rs)
  end.

(** The calls of the theorem: op types and data are bytes, an encoded entry
    fits the 64 KiB reader, a configuration names a directory. *)
Definition call_ok (op : call) : Prop :=
  match op with
  | CallAppend ty data => is_byte ty /\ Forall is_byte data /\ zlen data + entryHeaderSize <= bufSize
  | CallReopen c => valid_config c
  | _ => True
  end.

Definition wal_abs (s : disk * WAL) (a : list Entry * bool) : Prop :=
  wal_inv clean s.1 s.2 a.1 /\ closed s.2 = a.2.

Lemma new_entry_readable log ty data :
  log_small log -> call_ok (CallAppend ty data) -> readable (new_entry log ty data).
Proof.
  unfold log_small, readable, entry_ok, bufSize, entryHeaderSize. intros Hl (Ht & Hd & Hs).
  rewrite length_encodeEntry. simpl. split_and!; try done; unfold bufSize, entryHeaderSize in *; lia.
Qed.

Lemma Close_inv d w log : wal_inv clean d w log -> wal_inv clean d (Close w) log /\ closed (Close w) = true.
Proof.
  intros Hi. unfold Close. destruct (closed w) eqn:Hc; [done|]. split; [|done].
  destruct Hi as [[(cs & -> & HF) Hi1 Hi2 Hi3 Hi4 Hi5 Hi6 Hi7] Hl Hn]. fold close_seg.
  split; [split|..]; simpl; rewrite ?length_fmap; try done.
  - exists cs. split; [done|]. by apply close_segs_rel.
  - by rewrite close_segs_ids.
  - by destruct (segments w).
  - intros s Hs. rewrite fmap_last in Hs. apply fmap_Some in Hs as (s' & Hs & ->). exact (Hl s' Hs).
Qed.

Lemma replay_collect l acc : replay collect acc l = (acc ++ l, None).
Proof.
  revert acc. induction l as [|e l IH]; intros acc; simpl; [by rewrite app_nil_r|].
  by rewrite IH, <- app_assoc.
Qed.

Lemma LastOffset_log Q d w log : wal_core Q d w log -> LastOffset w = zlen log - 1.
Proof. intros H. unfold LastOffset. rewrite (inv_next _ _ _ _ H). destruct (Z.eqb_spec (zlen log) 0); lia. Qed.

(** One call refines one step of the specification. *)
Lemma wal_step_refines s a op :
  wal_abs s a -> call_ok op -> log_small (spec_step a op).1.1 ->
  (wal_step s op).2 = (spec_step a op).2 /\ wal_abs (wal_step s op).1 (spec_step a op).1.
Proof.
  destruct s as [d w], a as [log cl]. intros [Hi Hcl] Hop Hsm. simpl in Hi, Hcl.
  assert (log_small log) as Hsm'.
  { destruct op; simpl in Hsm; try done. repeat case_match; try done.
    unfold log_small in *. simpl in Hsm. rewrite length_app in Hsm. lia. }
  destruct op as [ty data|start|start| | |c]; simpl.
  - destruct cl.
    { unfold Append. rewrite Hcl. done. }
    destruct (negb _ && _) eqn:Ee.
    { unfold Append. rewrite Hcl, Ee. done. }
    destruct (Append_log d w log ty data) as (d' & w' & -> & Hi' & Hcl' & _); try done.
    by apply new_entry_readable.
  - split; [|done]. destruct cl; [unfold ReadFrom; by rewrite Hcl|].
    destruct (Z.ltb_spec start 0); [unfold ReadFrom; by rewrite Hcl, (proj2 (Z.ltb_lt _ _)) by lia|].
    rewrite (ReadFrom_log clean) with (log := log); try done; [apply clean_quiet|apply Hi].
  - split; [|done]. destruct cl; [unfold RecoverFrom; by rewrite Hcl|].
    destruct (Z.ltb_spec start 0); [unfold RecoverFrom; by rewrite Hcl, (proj2 (Z.ltb_lt _ _)) by lia|].
    rewrite (RecoverFrom_log clean) with (log := log); try done; [|apply clean_quiet|apply Hi].
    by rewrite replay_collect.
  - split; [|done]. by rewrite (LastOffset_log _ _ _ _ (inv_core _ _ _ _ Hi)).
  - split; [done|]. by apply Close_inv.
  - destruct (New_reopen clean clean_quiet d w log c) as (w' & -> & Hi' & Hcl' & _); try done.
Qed.

Lemma spec_step_grows a op : zlen (spec_step a op).1.1 <= zlen a.1 + 1.
Proof.
  destruct a as [log cl], op; simpl; repeat case_match; simpl; rewrite ?length_app; simpl; lia.
Qed.

Lemma spec_run_grows ops a : zlen (run spec_step a ops).1.1 <= zlen a.1 + zlen ops.
Proof.
  revert a. induction ops as [|op ops IH]; intros a; [simpl; lia|].
  pose proof (spec_step_grows a op). rewrite length_cons. simpl. destruct (spec_step a op) as [a' r].
  specialize (IH a'). destruct (run spec_step a' ops). simpl in *. lia.
Qed.

Lemma wal_run_refines ops s a :
  wal_abs s a -> Forall call_ok ops -> zlen a.1 + zlen ops < 2 ^ 40 ->
  (run wal_step s ops).2 = (run spec_step a ops).2 /\
  wal_abs (run wal_step s ops).1 (run spec_step a ops).1.
Proof.
  revert s a. induction ops as [|op ops IH]; intros s a Ha Hops Hsm; [done|].
  apply Forall_cons in Hops as [Hop Hops]. pose proof (spec_step_grows a op) as Hg.
  rewrite length_cons in Hsm.
  destruct (wal_step_refines s a op Ha Hop) as [Hr Ha']; [unfold log_small; lia|].
  simpl. destruct (wal_step s op) as [s' r], (spec_step a op) as [a' r']. simpl in *.
  destruct (IH s' a' Ha' Hops) as [Hrs Ha'']; [lia|].
  destruct (run wal_step s' ops), (run spec_step a' ops). simpl in *. by subst.
Qed.

(** C1: the segmented log refines an append-only list.  Starting from a
    directory without segment files, every sequence of calls (appends of any
    op type and of at most 65517 data bytes, reads and recoveries from any
    offset, last offset, closing, restarting) gets exactly the replies of the
    list: appends are numbered 0, 1, 2, ..., a read from [start] returns the
    entries from [start] on, in order, whatever the segment boundaries, recovery
    passes the same entries to the callback without warnings, and a restart
    loses nothing.  No loop runs out of fuel.  The limit is [call_ok]: with its
    header the entry fits the reader's 64 KiB buffer.  [Append] accepts more,
    and [oversized_append_poisons_log] says what becomes of such an entry.  A
    history has fewer than 2^40 calls. *)
Theorem wal_refines_list c d ops :
  names_ok d 0 -> valid_config c -> Forall call_ok ops -> zlen ops < 2 ^ 40 ->
  exists d0 w0, New (Some c) d = Some (d0, Ok w0) /\
    (run wal_step (d0, w0) ops).2 = (run spec_step ([], false) ops).2.
Proof.
  intros Hn Hc Hops Hl. destruct (New_fresh d c Hn Hc) as (d0 & w0 & Hnew & Hi & Hcl).
  exists d0, w0. split; [done|]. apply wal_run_refines; done.
Qed.

Lemma wal_refines_list_witness :
  let c := {| Dir := "wal"; MaxSegmentSize := 50; FSyncOnWrite := false |} in
  let ops := [CallAppend OpPut [1; 2]; CallAppend OpDelete [3]; CallAppend OpPut [];
              CallAppend OpCheckpoint []; CallReopen c; CallAppend OpPut [4]; CallReadFrom 1] in
  exists d0 w0, New (Some c) ∅ = Some (d0, Ok w0) /\
    (run wal_step (d0, w0) ops).2 =
      [ReplyAppend (Ok 0); ReplyAppend (Ok 1); ReplyAppend (Err ErrEmptyData); ReplyAppend (Ok 2);
       ReplyDone; ReplyAppend (Ok 3);
       ReplyRead [{| Offset := 1; Type_ := OpDelete; Data := [3] |};
                  {| Offset := 2; Type_ := OpCheckpoint; Data := [] |};
                  {| Offset := 3; Type_ := OpPut; Data := [4] |}] None].
Proof.
  intros c ops. apply (wal_refines_list c ∅ ops).
  - intros name i Hs. rewrite lookup_empty in Hs. by destruct Hs.
  - discriminate.
  - repeat constructor; try discriminate; vm_compute; try discriminate; try reflexivity.
  - reflexivity.
Defined.

(** ** Crashes *)

(** [Append] stopped in the middle: the guards, the rotation when the entry
    does not fit the segment, then only the first [k] bytes of the entry reach
    the file.  What is left is the directory. *)
Definition rotates (w : WAL) (opType : Z) (data : list Z) : bool :=
  match active w with
  | None => false
  | Some (_, seg) =>
      (0 <? MaxSegmentSize (config w)) &&
      (MaxSegmentSize (config w) <?
         int64 (size seg + zlen (encodeEntry {| Offset := nextOffset w; Type_ := opType; Data := data |})))
  end.

Definition Append_cut (d : disk) (w : WAL) (opType : Z) (data : list Z) (k : nat) : disk :=
  if closed w then d
  else if negb (opType =? OpCheckpoint) && (zlen data =? 0) then d
  else
    let cut := take k (encodeEntry {| Offset := nextOffset w; Type_ := opType; Data := data |}) in
    if rotates w opType data then
      match rotateSegment d w with
      | (d, _, Some _) => d
      | (d, w, None) => (append_active d w (nextOffset w) cut).1.1
      end
    else (append_active d w (nextOffset w) cut).1.1.

Lemma active_none_append d w offset bs : active w = None -> (append_active d w offset bs).1.1 = d.
Proof. unfold append_active. by intros ->. Qed.

Lemma append_active_disk d w o1 o2 bs : (append_active d w o1 bs).1.1 = (append_active d w o2 bs).1.1.
Proof. unfold append_active. by destruct (active w) as [[n seg]|]; [destruct (file seg)|]. Qed.

(** Cut nowhere, the append leaves the directory that [Append] leaves. *)
Lemma Append_cut_all d w ty data k :
  (length (encodeEntry {| Offset := nextOffset w; Type_ := ty; Data := data |}) <= k)%nat ->
  Append_cut d w ty data k = (Append d w ty data).1.1.
Proof.
  intros Hk. unfold Append_cut, Append, rotates. rewrite take_ge by done.
  destruct (closed w); [done|]. destruct (_ && (_ =? 0)); [done|].
  destruct (active w) as [[n seg]|] eqn:Ha; [|by apply active_none_append].
  destruct ((0 <? _) && _); [|done].
  destruct (rotateSegment d w) as [[d' w'] [e|]]; [done|]. apply append_active_disk.
Qed.

(** A write cut short leaves the log as it was. *)
Lemma torn_core d w log e k seg :
  wal_core clean d w log -> closed w = false -> zlen (segments w) < 2 ^ 62 ->
  readable e -> (k < length (encodeEntry e))%nat -> last (segments w) = Some seg ->
  exists w' seg', wal_core quiet (append_active d w (nextOffset w) (take k (encodeEntry e))).1.1 w' log /\
    last (segments w') = Some seg' /\ endOffset seg' = endOffset seg /\
    length (segments w') = length (segments w).
Proof.
  intros Hcore Hcl Hb He Hk Hlast.
  destruct (core_snoc _ _ _ _ Hcore) as (segs & seg0 & cs & ch & Es & El & HF & Hr & Hid & Hact & Hf & Hlt).
  rewrite Es, last_snoc in Hlast. injection Hlast as ->.
  destruct Hcore as [_ Hi1 Hi2 Hi3 Hi4 Hi5 Hi6 Hi7]. set (torn := take k (encodeEntry e)).
  exists (w <| segments := <[length segs := seg <| size := size seg + zlen torn |> ]> (segments w) |>).
  unfold append_active. rewrite Hact, Hf by done. simpl.
  destruct Hr as (Hp & Hso & Heo & tail & Ht & Hd & Hz). unfold clean in Ht. subst tail. rewrite app_nil_r in *.
  rewrite Es, length_app in *. simpl in Hb, Hi7. unfold write_file. rewrite Hp in Hd |- *.
  rewrite Hd. simpl default. rewrite insert_last. eexists. rewrite last_snoc, length_app.
  split_and!; [|done|done|done]. split; simpl; rewrite ?length_app; simpl; try done.
  - exists (cs ++ [ch]). rewrite concat_app. simpl. rewrite app_nil_r. split; [done|].
    apply Forall2_app; [|repeat constructor; try done].
    + apply seg_rel_frame; [|lia|]; [eapply Forall2_impl; [exact HF|]|eapply Forall_impl; [exact Hlt|simpl; lia]].
      intros. eapply seg_rel_weaken; [apply clean_quiet|done].
    + exists torn. simpl. rewrite Hp, lookup_insert_eq. split_and!; [by apply torn_quiet|done|].
      rewrite length_app. lia.
  - rewrite fmap_app in *. exact Hi1.
  - by destruct segs.
  - rewrite last_snoc in *. exact Hi4.
  - apply (names_ok_insert _ _ _ _ _ Hi7); lia.
Qed.

(** What a crash in the middle of an append leaves is a log with the same
    entries; its last segment is empty exactly when a new one was begun. *)
Lemma Append_cut_core d w log ty data k :
  wal_inv clean d w log -> closed w = false -> log_small log ->
  negb (ty =? OpCheckpoint) && (zlen data =? 0) = false -> readable (new_entry log ty data) ->
  (k < length (encodeEntry (new_entry log ty data)))%nat ->
  exists w', wal_core quiet (Append_cut d w ty data k) w' log /\ zlen (segments w') < 2 ^ 62 /\
    if rotates w ty data then exists seg, last (segments w') = Some seg /\ endOffset seg = -1
    else wal_inv quiet (Append_cut d w ty data k) w' log.
Proof.
  intros [Hcore Hlast Hcount] Hcl Hsm Hne Hrd Hk.
  assert (zlen (segments w) < 2 ^ 61) as Hb by (unfold log_small in Hsm; lia).
  unfold Append_cut. rewrite Hcl, Hne, (inv_next _ _ _ _ Hcore).
  change (Build_Entry _ _ _) with (new_entry log ty data). destruct (rotates w ty data).
  - destruct (rotateSegment_core d w log) as (d1 & w1 & -> & Hc1 & Hcl1 & _ & Hl1 & He1); [done..|lia|].
    destruct (core_snoc _ _ _ _ Hc1) as (segs & seg & _ & _ & Es & _).
    assert (last (segments w1) = Some seg) as Hs by (by rewrite Es, last_snoc).
    destruct (torn_core d1 w1 log _ k seg Hc1 Hcl1 ltac:(lia) Hrd Hk Hs) as (w' & seg' & Hc' & Hs' & He' & Hl').
    exists w'. split_and!; [done|lia|]. exists seg'. split; [done|]. rewrite He'. by apply He1.
  - destruct (core_snoc _ _ _ _ Hcore) as (segs & seg & _ & _ & Es & _).
    assert (last (segments w) = Some seg) as Hs by (by rewrite Es, last_snoc).
    destruct (torn_core d w log _ k seg Hcore Hcl ltac:(lia) Hrd Hk Hs) as (w' & seg' & Hc' & Hs' & He' & Hl').
    rewrite (inv_next _ _ _ _ Hcore) in Hc'.
    exists w'. split_and!; [done|lia|]. split; [done| |lia]. intros s Hs2 He2.
    apply (Hlast seg); [done|]. congruence.
Qed.

(** C29: a crash in the middle of an append loses nothing that was
    acknowledged.  After any sequence of calls, let an append that would be
    accepted stop after the first [k] bytes of its entry, in the active segment
    or in the new one it had to begin.  Opening the directory again succeeds,
    and the new handle reads and recovers exactly the entries acknowledged
    before: the torn bytes give neither an entry nor a warning.  The numbering
    goes on after the last of them, unless the append had begun a new segment:
    then it starts at 0 again.  Entries have at most 65517 data bytes, as in
    [wal_refines_list]. *)
Theorem torn_append_recovers c d0 ops ty data k c' start :
  names_ok d0 0 -> valid_config c -> Forall call_ok ops -> zlen ops < 2 ^ 40 - 1 ->
  call_ok (CallAppend ty data) -> valid_config c' -> 0 <= start ->
  let '(log, closed) := (run spec_step ([], false) ops).1 in
  (spec_step (log, closed) (CallAppend ty data)).2 = ReplyAppend (Ok (zlen log)) ->
  (k < length (encodeEntry (new_entry log ty data)))%nat ->
  exists d1 w1 d w d' w',
    New (Some c) d0 = Some (d1, Ok w1) /\ (run wal_step (d1, w1) ops).1 = (d, w) /\
    Append_cut d w ty data k = d' /\ New (Some c') d' = Some (d', Ok w') /\
    ReadFrom d' w' start = Some (from start log, None) /\
    RecoverFrom d' w' start (Some collect) [] = Some (from start log, [], None) /\
    LastOffset w' = if rotates w ty data then -1 else zlen log - 1.
Proof.
  intros Hn Hc Hops Hl Hop Hc' Hst.
  destruct (New_fresh d0 c Hn Hc) as (d1 & w1 & Hnew & Hi1 & Hcl1).
  destruct (wal_run_refines ops (d1, w1) ([], false)) as [_ Ha]; [done..|simpl; lia|].
  pose proof (spec_run_grows ops ([], false)) as Hg.
  destruct (run spec_step ([], false) ops).1 as [log cl]. intros Hok Hk.
  destruct (run wal_step (d1, w1) ops).1 as [d w] eqn:Er. destruct Ha as [Hi Hcl]. simpl in Hi, Hcl, Hg, Hok.
  assert (log_small log) as Hsm by (unfold log_small; lia).
  destruct cl; [done|]. destruct (negb (ty =? OpCheckpoint) && (zlen data =? 0)) eqn:Hne; [done|].
  pose proof (new_entry_readable log ty data Hsm Hop) as Hrd.
  destruct (Append_cut_core d w log ty data k) as (wc & Hcore & Hb & Hrot); [done..|].
  set (d' := Append_cut d w ty data k) in *.
  destruct (core_snoc _ _ _ _ Hcore) as (segs & seg & _ & _ & Es & _).
  assert (last (segments wc) = Some seg) as Hs by (by rewrite Es, last_snoc).
  destruct (New_reopen_core quiet (fun _ H => H) d' wc log seg c') as (w' & Hnew' & Hcore' & Hnx & Hcl' & _); [done..|].
  exists d1, w1, d, w, d', w'. split_and!; [done..| | |].
  - by rewrite <- (ReadFrom_log quiet (fun _ H => H) d' _ log start Hcore').
  - pose proof (RecoverFrom_log quiet (fun _ H => H) d' _ log start collect [] Hcore') as Hrec.
    rewrite replay_collect in Hrec. by apply Hrec.
  - destruct (rotates w ty data).
    + destruct Hrot as (seg' & Hs' & He'). rewrite Hs in Hs'. injection Hs' as <-.
      unfold LastOffset. rewrite Hnx. unfold next_after. by rewrite He'.
    + destruct (New_reopen quiet (fun _ H => H) d' wc log c' Hrot Hsm Hc') as (w'' & Hnew'' & Hi'' & _).
      rewrite Hnew' in Hnew''. injection Hnew'' as <-. apply (LastOffset_log quiet d'), Hi''.
Qed.

Lemma torn_append_recovers_witness :
  let c := {| Dir := "wal"; MaxSegmentSize := 1000; FSyncOnWrite := true |} in
  let log := [{| Offset := 0; Type_ := OpPut; Data := [1; 2] |}] in
  exists d1 w1 d w d' w',
    New (Some c) ∅ = Some (d1, Ok w1) /\
    (run wal_step (d1, w1) [CallAppend OpPut [1; 2]]).1 = (d, w) /\
    Append_cut d w OpDelete [3; 4; 5] 20 = d' /\ New (Some c) d' = Some (d', Ok w') /\
    ReadFrom d' w' 0 = Some (log, None) /\
    RecoverFrom d' w' 0 (Some collect) [] = Some (log, [], None) /\
    LastOffset w' = if rotates w OpDelete [3; 4; 5] then -1 else 0.
Proof.
  intros c log.
  apply (torn_append_recovers c ∅ [CallAppend OpPut [1; 2]] OpDelete [3; 4; 5] 20 c 0);
    try discriminate; try reflexivity.
  - intros name i Hs. rewrite lookup_empty in Hs. by destruct Hs.
  - repeat constructor; try discriminate; vm_compute; try discriminate; try reflexivity.
  - repeat constructor; try discriminate; vm_compute; try discriminate; try reflexivity.
  - rewrite length_encodeEntry. simpl. lia.
Defined.

(** After such a crash the log accepts an append that it then cannot
    read.  The torn bytes stay in the file; the next append is written after
    them, and the scan takes it for the missing body of the torn entry.  Here
    the append is acknowledged with offset 1, yet a read from 0 returns only
    entry 0, and a second restart hands out offset 1 again. *)
Theorem append_after_torn_write_lost :
  let c := {| Dir := "wal"; MaxSegmentSize := 1000; FSyncOnWrite := true |} in
  let e0 := {| Offset := 0; Type_ := OpPut; Data := [1; 2] |} in
  let torn := take 19 (encodeEntry {| Offset := 1; Type_ := OpPut; Data := repeat 7 60 |}) in
  match New (Some c) ∅ with
  | Some (d0, Ok w0) =>
      let '(d1, w1, r0) := Append d0 w0 OpPut [1; 2] in
      let d2 := write_file (segmentFileName 1) torn d1 in
      match New (Some c) d2 with
      | Some (d3, Ok w3) =>
          let '(d4, w4, r1) := Append d3 w3 OpPut [9] in
          r0 = Ok 0 /\ r1 = Ok 1 /\ ReadFrom d4 w4 0 = Some ([e0], None) /\
          match New (Some c) d4 with
          | Some (d5, Ok w5) => (Append d5 w5 OpPut [8]).2 = Ok 1
          | _ => False
          end
      | _ => False
      end
  | _ => False
  end.
Proof. vm_compute. repeat split. Qed.

(** A crash between the creation of a new segment and the first write to it:
    the log restarts its numbering at 0 although it holds an entry 0. *)
Theorem empty_last_segment_resets_offsets :
  let c := {| Dir := "wal"; MaxSegmentSize := 1000; FSyncOnWrite := true |} in
  match New (Some c) ∅ with
  | Some (d0, Ok w0) =>
      let '(d1, w1, r0) := Append d0 w0 OpPut [1; 2] in
      let '(d2, w2, err) := rotateSegment d1 w1 in
      match New (Some c) d2 with
      | Some (d3, Ok w3) => r0 = Ok 0 /\ err = None /\ (Append d3 w3 OpPut [9]).2 = Ok 0
      | _ => False
      end
  | _ => False
  end.
Proof. vm_compute. repeat split. Qed.

(** The default log just created, in an empty directory. *)
Definition fresh_disk : disk := <[segmentFileName 1 := []]> ∅.

Definition fresh_segment : segment :=
  {| id := 1; path := segmentFileName 1; file := true; size := 0; startOffset := -1; endOffset := -1 |}.

Definition fresh_wal : WAL :=
  {| config := DefaultConfig; segments := [fresh_segment]; activeSeg := Some 0%nat; nextOffset := 0;
     closed := false |}.

Lemma New_default : New None ∅ = Some (fresh_disk, Ok fresh_wal).
Proof. vm_compute. reflexivity. Qed.

Lemma fresh_names f : names_ok (<[segmentFileName 1 := f]> fresh_disk) 1.
Proof.
  unfold fresh_disk. rewrite insert_insert_eq.
  apply (names_ok_insert _ 0); [|lia..]. intros name i Hs. rewrite lookup_empty in Hs. by destruct Hs.
Qed.

Lemma scan_fails_first f rest err :
  streamScanEntry (f :: rest) = ScanError err ->
  scanSegmentOffsets (f :: rest) = Some (Err err) /\
  forall start, readSegmentEntriesStream (f :: rest) start = Some (Err err).
Proof.
  intros H. unfold scanSegmentOffsets, readSegmentEntriesStream. cbn [scan_offsets_loop read_loop].
  by rewrite H.
Qed.

(** C40: an entry of more than 65517 bytes is accepted and makes the log
    unusable: on a new log with the default configuration, whatever the data as
    long as it fits a segment, it is written and acknowledged, but no read can
    return it (the 64 KiB reader fails with [bufio.ErrBufferFull]) and the
    directory cannot be opened again. *)
Theorem oversized_append_poisons_log data :
  bufSize < entryHeaderSize + zlen data -> entryHeaderSize + zlen data <= MaxSegmentSize DefaultConfig ->
  exists d0 w0 d1 w1,
    New None ∅ = Some (d0, Ok w0) /\ Append d0 w0 OpPut data = (d1, w1, Ok 0) /\
    ReadFrom d1 w1 0 = Some ([], Some ErrBufferFull) /\
    New None d1 = Some (d1, Err ErrBufferFull).
Proof.
  cbv [bufSize entryHeaderSize DefaultConfig MaxSegmentSize]. intros Hb Hm.
  set (e := {| Offset := 0; Type_ := OpPut; Data := data |}).
  assert (zlen (encodeEntry e) = 19 + zlen data) as Hlen by (rewrite length_encodeEntry; simpl; lia).
  assert (streamScanEntry (encodeEntry e) = ScanError ErrBufferFull) as Hscan.
  { rewrite <- (app_nil_r (encodeEntry e)). apply streamScanEntry_oversized; cbv [bufSize]; simpl Data; lia. }
  destruct (encodeEntry e) as [|b bs] eqn:Ee; [simpl in Hlen; lia|]. rewrite <- Ee in Hlen.
  destruct (scan_fails_first _ _ _ Hscan) as [Hoff Hread].
  set (d1 := <[segmentFileName 1 := b :: bs]> fresh_disk).
  assert (d1 !! segmentFileName 1 = Some (b :: bs)) as Hd1 by apply lookup_insert_eq.
  exists fresh_disk, fresh_wal, d1. eexists. split; [apply New_default|]. split.
  { unfold Append. change (closed fresh_wal) with false. change (negb (OpPut =? OpCheckpoint)) with true.
    rewrite (proj2 (Z.eqb_neq (zlen data) 0)) by lia. cbv iota beta zeta.
    change (active fresh_wal) with (Some (0%nat, fresh_segment)). cbv iota.
    change (nextOffset fresh_wal) with 0. fold e. change (size fresh_segment + _) with (zlen (encodeEntry e)).
    change (MaxSegmentSize (config fresh_wal)) with (64 * 1024 * 1024).
    rewrite int64_small, (proj2 (Z.ltb_ge (64 * 1024 * 1024) _)) by lia. rewrite andb_false_r.
    unfold append_active. change (active fresh_wal) with (Some (0%nat, fresh_segment)). simpl negb. cbv iota.
    unfold write_file. change (path fresh_segment) with (segmentFileName 1).
    assert (fresh_disk !! segmentFileName 1 = Some []) as -> by apply lookup_insert_eq.
    simpl default.
    rewrite Ee. simpl app. reflexivity. }
  split.
  - unfold ReadFrom. cbn -[readSegmentEntries]. unfold readSegmentEntries. cbn [path set_field].
    change (path fresh_segment) with (segmentFileName 1). by rewrite Hd1, Hread.
  - unfold New. simpl default. rewrite decide_False by done. unfold loadExistingSegments.
    rewrite (segment_ids_seqZ d1 1); [|apply fresh_names|lia|].
    + change (seqZ 1 (Z.of_nat 1)) with [1]. cbn [load_loop]. unfold openSegment. rewrite Hd1. simpl size.
      rewrite (proj2 (Z.ltb_lt 0 _)) by lia. by rewrite Hoff.
    + intros i Hi. replace i with 1 by lia. by rewrite Hd1.
Qed.

Lemma oversized_append_witness :
  exists d0 w0 d1 w1,
    New None ∅ = Some (d0, Ok w0) /\ Append d0 w0 OpPut (repeat 0 (Z.to_nat 65518)) = (d1, w1, Ok 0) /\
    ReadFrom d1 w1 0 = Some ([], Some ErrBufferFull) /\
    New None d1 = Some (d1, Err ErrBufferFull).
Proof.
  apply oversized_append_poisons_log; rewrite repeat_length, Z2Nat.id by lia;
    cbv [bufSize entryHeaderSize DefaultConfig MaxSegmentSize]; lia.
Defined.

(** ** Totality *)

Definition disk_bytes (d : disk) : Prop := map_Forall (fun _ f => Forall is_byte f) d.

Lemma openSegment_total d i : disk_bytes d -> is_Some (openSegment d i).
Proof.
  intros Hd. unfold openSegment. destruct (d !! segmentFileName i) as [f|] eqn:Ef; [|by eexists].
  destruct (0 <? _); [|by eexists].
  destruct (scan_offsets_loop_total (S (length f)) f (-1) (-1)) as [[[a b]|err] Hs]; [by apply (Hd _ _ Ef)|lia|..];
    unfold scanSegmentOffsets; rewrite Hs; by eexists.
Qed.

Lemma load_loop_total d ids acc : disk_bytes d -> is_Some (load_loop d ids acc).
Proof.
  intros Hd. revert acc. induction ids as [|i ids IH]; intros acc; simpl; [by eexists|].
  destruct (openSegment_total d i Hd) as [[seg|err] ->]; [apply IH|by eexists].
Qed.

Lemma read_segments_total d segs start acc : disk_bytes d -> is_Some (read_segments d segs start acc).
Proof.
  intros Hd. revert acc. induction segs as [|seg segs IH]; intros acc; simpl; [by eexists|].
  unfold readSegmentEntries. destruct (d !! path seg) as [f|] eqn:Ef; [|by eexists].
  destruct (read_loop_total (S (length f)) f start []) as [[l|err] Hs]; [by apply (Hd _ _ Ef)|lia|..];
    unfold readSegmentEntriesStream; rewrite Hs; [apply IH|by eexists].
Qed.

Lemma recover_segments_total {St} d segs start (cb : RecoverCallback St) ws st :
  disk_bytes d -> is_Some (recover_segments d segs start cb ws st).
Proof.
  intros Hd. revert ws st. induction segs as [|seg segs IH]; intros ws st; simpl; [by eexists|].
  unfold recoverSegment. destruct (d !! path seg) as [f|] eqn:Ef; [|by eexists].
  destruct (recover_loop_total (S (length f)) f (id seg) start cb [] 0 st) as [[[st' ws'] [err|]] Hs];
    [by apply (Hd _ _ Ef)|lia|..]; unfold recoverSegmentStream; rewrite Hs; [by eexists|apply IH].
Qed.

(** C35: whatever bytes are on disk (corrupted, truncated, foreign), opening,
    reading and recovering return: no scan of the log can loop. *)
Theorem wal_scans_terminate {St} cfg d w start (cb : option (RecoverCallback St)) st :
  disk_bytes d ->
  is_Some (New cfg d) /\ is_Some (ReadFrom d w start) /\ is_Some (RecoverFrom d w start cb st).
Proof.
  intros Hd. split_and!.
  - unfold New, loadExistingSegments. destruct (decide _); [by eexists|]. simpl segments.
    destruct (load_loop_total d (segment_ids d) [] Hd) as [[segs|err] ->]; [|by eexists]. simpl.
    destruct (last segs); [destruct (decide _); by eexists|]. destruct (createSegment _ _ _). by eexists.
  - unfold ReadFrom. destruct (closed w); [by eexists|]. destruct (_ <? _); [by eexists|].
    destruct (read_start _ _); [by apply read_segments_total|by eexists].
  - unfold RecoverFrom. destruct (closed w); [by eexists|]. destruct (_ <? _); [by eexists|].
    destruct cb; [|by eexists]. destruct (recover_start _ _); [by apply recover_segments_total|by eexists].
Qed.

Lemma wal_scans_terminate_witness :
  let d : disk := {[ segmentFileName 1 := [0x57; 0x41; 0; 0; 255; 255] ]} in
  is_Some (New None d) /\ is_Some (ReadFrom d fresh_wal 0) /\
  is_Some (RecoverFrom d fresh_wal 0 (Some collect) []).
Proof.
  intros d. apply wal_scans_terminate. apply map_Forall_singleton.
  repeat constructor; unfold is_byte; lia.
Defined.
