(* ===== verification/RaftLog.v ===== *)
(** A Raft node (src/internal/raftlog/raftlog.go): data and handlers.

    Every handler of [RaftNode] that runs under the node's mutex is a function
    from the node to the node and its reply; what goroutines do between two
    critical sections (sending a request, waiting for the reply) is left to
    whoever composes the handlers.  Timers are not part of the state: an
    election or heartbeat timeout is an input.  Terms and indices are [Z] (Go's
    64-bit int, which only ever counts up by one).  The theorems are in
    RaftProofs.v and RaftElection.v. *)

From stdpp Require Import base tactics list gmap strings.
From Stdlib Require Import ZArith Lia.
From S2P Require Import Prelude.

Inductive Error :=
| ErrNodeStopped | ErrNotLeader | ErrInvalidIndex | ErrLogCompacted | ErrSnapshotInstalling
| ErrConfigChangeInFlight | ErrEmptyConfig | ErrNodeNotFound | ErrNodeExists
| ErrTransportClosed | ErrApplyFailed.

Inductive NodeState := Follower | Candidate | Leader.

#[export] Instance NodeState_dec : EqDecision NodeState.
Proof. solve_decision. Defined.

Inductive LogEntryType := LogEntryNormal | LogEntryConfigJoint | LogEntryConfigNew.

#[export] Instance LogEntryType_dec : EqDecision LogEntryType.
Proof. solve_decision. Defined.

Record LogEntry := { Term : Z; Index : Z; Type_ : LogEntryType; Command : list Z }.

#[export] Instance LogEntry_dec : EqDecision LogEntry.
Proof. solve_decision. Defined.

(** ** Configurations

    [map[string]bool] with only [true] values: a set of node ids. *)

Abbreviation Configuration := (gset string).

Definition NewConfiguration (nodes : list string) : Configuration := list_to_set nodes.

Definition Contains (c : Configuration) (nodeID : string) : bool := bool_decide (nodeID ∈ c).

Definition Size (c : Configuration) : Z := Z.of_nat (size c).

Definition Quorum (c : Configuration) : Z := Size c / 2 + 1.

Record JointConfiguration := { Old : Configuration; New : Configuration }.

(** ** Messages *)

Record Snapshot := {
  snap_LastIncludedIndex : Z;
  snap_LastIncludedTerm : Z;
  snap_Config : option Configuration;
  snap_Data : list Z;
}.

Record RequestVoteRequest := {
  rv_Term : Z; rv_CandidateID : string; rv_LastLogIndex : Z; rv_LastLogTerm : Z; rv_IsConfig : bool }.

Record RequestVoteReply := { rvr_Term : Z; rvr_VoteGranted : bool }.

Record AppendEntriesRequest := {
  ae_Term : Z;
  ae_LeaderID : string;
  ae_PrevLogIndex : Z;
  ae_PrevLogTerm : Z;
  ae_Entries : list LogEntry;
  ae_LeaderCommit : Z;
}.

Record AppendEntriesReply := {
  aer_Term : Z;
  aer_Success : bool;
  aer_MatchIndex : Z;
  aer_ConflictTerm : Z;
  aer_ConflictIndex : Z;
}.

#[export] Instance AppendEntriesReply_eta : Eta AppendEntriesReply := fun r =>
  {| aer_Term := aer_Term r; aer_Success := aer_Success r; aer_MatchIndex := aer_MatchIndex r;
     aer_ConflictTerm := aer_ConflictTerm r; aer_ConflictIndex := aer_ConflictIndex r |}.

Record InstallSnapshotRequest := {
  is_Term : Z;
  is_LeaderID : string;
  is_LastIncludedIndex : Z;
  is_LastIncludedTerm : Z;
  is_Config : option Configuration;
  is_Data : list Z;
  is_Done : bool;
}.

Record InstallSnapshotReply := { isr_Term : Z; isr_Success : bool }.

(** ** The state machine interface *)

Class StateMachine (SM : Type) := {
  Apply : SM -> LogEntry -> SM * bool;            (* false: Apply returned an error *)
  ApplySnapshot : SM -> Snapshot -> option SM;
  TakeSnapshot : SM -> option (list Z);
}.

(** [MemoryStateMachine]; the [encoding/gob] codec is a parameter. *)
Module MemoryStateMachine.
Section memory.
Context (gob_encode : gmap (list Z) (list Z) -> list Z).
Context (gob_decode : list Z -> option (gmap (list Z) (list Z))).

Definition apply (sm : gmap (list Z) (list Z)) (entry : LogEntry) : gmap (list Z) (list Z) * bool :=
  match Type_ entry with
  | LogEntryNormal => (<[Command entry := Command entry]> sm, true)
  | _ => (sm, true)
  end.

Definition apply_snapshot (sm : gmap (list Z) (list Z)) (s : Snapshot) : option (gmap (list Z) (list Z)) :=
  match snap_Data s with [] => Some ∅ | data => gob_decode data end.

Definition instance : StateMachine (gmap (list Z) (list Z)) :=
  {| Apply := apply; ApplySnapshot := apply_snapshot; TakeSnapshot sm := Some (gob_encode sm) |}.

End memory.
End MemoryStateMachine.

Record ApplyResult := { ar_Index : Z; ar_Term : Z; ar_Ok : bool }.

(** ** The node *)

Section node.
Context {SM : Type} `{!StateMachine SM}.

Record RaftNode := {
  id : string;
  state : NodeState;
  sm : SM;
  currentTerm : Z;
  votedFor : string;
  log : list LogEntry;
  logOffset : Z;
  commitIndex : Z;
  lastApplied : Z;
  nextIndex : gmap string Z;
  matchIndex : gmap string Z;
  votesReceived : gset string;
  leaderID : string;
  config : Configuration;
  joint : option JointConfiguration;
  configCommitted : bool;
  running : bool;
  stopped : bool;
  commitReady : bool;              (* a token in the channel of capacity 1 *)
  applyCh : list ApplyResult;      (* buffered channel of capacity 256 *)
  lastSnapshotIndex : Z;
  lastSnapshotTerm : Z;
  configChangeInFlight : bool;
  snapshotInFlight : Z;
}.

#[export] Instance RaftNode_eta : Eta RaftNode := fun n =>
  {| id := id n; state := state n; sm := sm n; currentTerm := currentTerm n; votedFor := votedFor n;
     log := log n; logOffset := logOffset n; commitIndex := commitIndex n; lastApplied := lastApplied n;
     nextIndex := nextIndex n; matchIndex := matchIndex n; votesReceived := votesReceived n;
     leaderID := leaderID n; config := config n; joint := joint n; configCommitted := configCommitted n;
     running := running n; stopped := stopped n; commitReady := commitReady n; applyCh := applyCh n;
     lastSnapshotIndex := lastSnapshotIndex n; lastSnapshotTerm := lastSnapshotTerm n;
     configChangeInFlight := configChangeInFlight n; snapshotInFlight := snapshotInFlight n |}.

(** *** The log *)

Definition lastLogIndex (n : RaftNode) : Z :=
  match last (log n) with None => logOffset n | Some e => Index e end.

Definition lastLogTerm (n : RaftNode) : Z :=
  match last (log n) with None => lastSnapshotTerm n | Some e => Term e end.

Definition getLogEntry (n : RaftNode) (index : Z) : option LogEntry :=
  if index <? logOffset n then None else log n !! Z.to_nat (index - logOffset n).

Definition GetLogEntry (n : RaftNode) (index : Z) : result Error LogEntry :=
  if index <? logOffset n then Err ErrLogCompacted
  else match getLogEntry n index with None => Err ErrInvalidIndex | Some e => Ok e end.

Definition appendEntry (n : RaftNode) (entry : LogEntry) : RaftNode := n <| log := log n ++ [entry] |>.

Definition truncateLog (n : RaftNode) (index : Z) : RaftNode :=
  if index <? logOffset n then n <| log := [] |> <| logOffset := index |>
  else
    let idx := index - logOffset n in
    if idx <? Z.of_nat (length (log n)) then n <| log := take (Z.to_nat idx) (log n) |> else n.

Definition NewRaftNode (i : string) (s : SM) (initialNodes : list string) : RaftNode :=
  appendEntry
    {| id := i; state := Follower; sm := s; currentTerm := 0; votedFor := ""; log := []; logOffset := 0;
       commitIndex := 0; lastApplied := 0; nextIndex := ∅; matchIndex := ∅; votesReceived := ∅;
       leaderID := ""; config := NewConfiguration initialNodes; joint := None; configCommitted := false;
       running := false; stopped := false; commitReady := false; applyCh := [];
       lastSnapshotIndex := 0; lastSnapshotTerm := 0; configChangeInFlight := false;
       snapshotInFlight := 0 |}
    {| Term := 0; Index := 0; Type_ := LogEntryNormal; Command := [] |}.

Definition Start (n : RaftNode) : RaftNode :=
  if running n then n else n <| running := true |> <| stopped := false |>.

Definition Stop (n : RaftNode) : RaftNode :=
  if stopped n then n else n <| stopped := true |> <| running := false |>.

(** *** Roles *)

Definition notifyApply (n : RaftNode) : RaftNode := n <| commitReady := true |>.

(** [run]'s select on [commitReady]: the token is taken and [notifyApply]
    called. *)
Definition run_commitReady (n : RaftNode) : RaftNode := notifyApply (n <| commitReady := false |>).

Definition currentNodes (n : RaftNode) : gset string :=
  match joint n with Some j => Old j ∪ New j | None => config n end.

Definition becomeFollower (n : RaftNode) (term : Z) : RaftNode :=
  n <| state := Follower |> <| currentTerm := term |> <| votedFor := "" |> <| leaderID := "" |>.

Definition becomeLeader (n : RaftNode) : RaftNode :=
  let n := n <| state := Leader |> <| votedFor := "" |> <| leaderID := id n |> in
  let lastIdx := lastLogIndex n in
  let others := currentNodes n ∖ {[id n]} in
  n <| nextIndex := gset_to_gmap (lastIdx + 1) others ∪ nextIndex n |>
    <| matchIndex := gset_to_gmap 0 others ∪ matchIndex n |>.

Definition votes_in (n : RaftNode) (c : Configuration) : Z := Size (votesReceived n ∩ c).

Definition checkElectionWin (n : RaftNode) : RaftNode :=
  if negb (bool_decide (state n = Candidate)) then n
  else match joint n with
       | Some j =>
           if (Quorum (Old j) <=? votes_in n (Old j)) && (Quorum (New j) <=? votes_in n (New j))
           then becomeLeader n else n
       | None => if Quorum (config n) <=? Size (votesReceived n) then becomeLeader n else n
       end.

Definition becomeCandidate (n : RaftNode) : RaftNode :=
  checkElectionWin
    (n <| state := Candidate |> <| currentTerm := currentTerm n + 1 |> <| votedFor := id n |>
       <| votesReceived := {[id n]} |> <| leaderID := "" |>).

(** The critical section of [handleElectionTimeout]; [true] when an election
    starts. *)
Definition handleElectionTimeout (n : RaftNode) : RaftNode * bool :=
  if bool_decide (state n = Leader) || negb (running n) then (n, false)
  else (becomeCandidate n, true).

(** The request that [startElection] sends to each of its targets. *)
Definition startElection (n : RaftNode) : RequestVoteRequest * gset string :=
  ({| rv_Term := currentTerm n; rv_CandidateID := id n; rv_LastLogIndex := lastLogIndex n;
      rv_LastLogTerm := lastLogTerm n; rv_IsConfig := false |}, currentNodes n ∖ {[id n]}).

Definition isLogUpToDate (n : RaftNode) (otherIndex otherTerm : Z) : bool :=
  if lastLogTerm n <? otherTerm then true
  else (otherTerm =? lastLogTerm n) && (lastLogIndex n <=? otherIndex).

Definition HandleRequestVote (n : RaftNode) (req : RequestVoteRequest) : RaftNode * RequestVoteReply :=
  let n := if currentTerm n <? rv_Term req then becomeFollower n (rv_Term req) else n in
  if rv_Term req <? currentTerm n then (n, {| rvr_Term := currentTerm n; rvr_VoteGranted := false |})
  else
    let canVote := bool_decide (votedFor n = "") || bool_decide (votedFor n = rv_CandidateID req) in
    let logOk := isLogUpToDate n (rv_LastLogIndex req) (rv_LastLogTerm req) in
    if canVote && logOk
    then (n <| votedFor := rv_CandidateID req |>, {| rvr_Term := currentTerm n; rvr_VoteGranted := true |})
    else (n, {| rvr_Term := currentTerm n; rvr_VoteGranted := false |}).

Definition handleRequestVoteReply (n : RaftNode) (originalTerm : Z) (voterID : string)
    (reply : RequestVoteReply) : RaftNode :=
  if negb (bool_decide (state n = Candidate)) then n
  else if currentTerm n <? rvr_Term reply then becomeFollower n (rvr_Term reply)
  else if rvr_Term reply <? originalTerm then n
  else
    let n := if rvr_VoteGranted reply then n <| votesReceived := {[voterID]} ∪ votesReceived n |> else n in
    checkElectionWin n.

(** *** Replication *)

(** What [sendHeartbeats] reads first: nothing unless the node leads. *)
Definition heartbeat_targets (n : RaftNode) : option (Z * Z * gset string) :=
  if negb (bool_decide (state n = Leader)) then None
  else Some (currentTerm n, commitIndex n, currentNodes n ∖ {[id n]}).

Inductive heartbeat :=
| SendAppendEntries (req : AppendEntriesRequest)
| SendInstallSnapshot (req : InstallSnapshotRequest)
| SnapshotFailed.

Definition prev_log_term (n : RaftNode) (prevLogIndex : Z) : Z :=
  if logOffset n <=? prevLogIndex then
    match getLogEntry n prevLogIndex with Some e => Term e | None => 0 end
  else if (prevLogIndex =? logOffset n - 1) && (prevLogIndex =? lastSnapshotIndex n)
  then lastSnapshotTerm n else 0.

(** The entries from [nextIdx] on. *)
Definition entries_from (n : RaftNode) (nextIdx : Z) : list LogEntry :=
  if nextIdx <=? lastLogIndex n then
    let start := nextIdx - logOffset n in
    if (0 <=? start) && (start <? Z.of_nat (length (log n))) then drop (Z.to_nat start) (log n) else []
  else [].

(** The goroutine for one target: [term] and [commit] were read before. *)
Definition heartbeat_for (n : RaftNode) (term commit : Z) (target : string) : RaftNode * heartbeat :=
  let nextIdx := default 0 (nextIndex n !! target) in
  let nextIdx := if nextIdx =? 0 then lastLogIndex n + 1 else nextIdx in
  if nextIdx <=? logOffset n then
    (n <| snapshotInFlight := snapshotInFlight n + 1 |>,
     match TakeSnapshot (sm n) with
     | None => SnapshotFailed
     | Some data => SendInstallSnapshot
         {| is_Term := currentTerm n; is_LeaderID := id n; is_LastIncludedIndex := lastSnapshotIndex n;
            is_LastIncludedTerm := lastSnapshotTerm n; is_Config := Some (config n); is_Data := data;
            is_Done := true |}
     end)
  else
    let prevLogIndex := nextIdx - 1 in
    (n, SendAppendEntries
          {| ae_Term := term; ae_LeaderID := id n; ae_PrevLogIndex := prevLogIndex;
             ae_PrevLogTerm := prev_log_term n prevLogIndex; ae_Entries := entries_from n nextIdx;
             ae_LeaderCommit := commit |}).

(** [atomic.AddInt32(&n.snapshotInFlight, -1)] after the transfer. *)
Definition heartbeat_snapshot_done (n : RaftNode) : RaftNode :=
  n <| snapshotInFlight := snapshotInFlight n - 1 |>.

(** The search for the conflict index: downward from [PrevLogIndex - 1]. *)
Definition conflict_index (n : RaftNode) (prev conflictTerm : Z) : Z :=
  let differs i := match getLogEntry n i with
                   | Some e => (conflictTerm =? 0) || negb (Term e =? conflictTerm)
                   | None => false
                   end in
  match List.find differs (reverse (seqZ (logOffset n) (prev - logOffset n))) with
  | Some i => if i + 1 =? 0 then logOffset n + 1 else i + 1
  | None => logOffset n + 1
  end.

(** The consistency check: [None] when the request's entries may be stored,
    else the conflict term and index of the reply. *)
Definition check_prev (n : RaftNode) (req : AppendEntriesRequest) : option (Z * Z) :=
  let prev := ae_PrevLogIndex req in
  if prev =? 0 then None
  else if prev <? logOffset n then
    if (prev =? lastSnapshotIndex n) && (lastSnapshotTerm n =? ae_PrevLogTerm req) then None
    else Some (lastSnapshotTerm n, logOffset n + 1)
  else if lastLogIndex n <? prev then Some (-1, lastLogIndex n + 1)
  else match getLogEntry n prev with
       | None => Some (0, conflict_index n prev 0)
       | Some e => if Term e =? ae_PrevLogTerm req then None
                   else Some (Term e, conflict_index n prev (Term e))
       end.

(** The loop over the request's entries. *)
Fixpoint store_entries (n : RaftNode) (insertIdx : Z) (entries : list LogEntry) : RaftNode :=
  match entries with
  | [] => n
  | entry :: entries =>
      let n :=
        if insertIdx <=? lastLogIndex n then
          match getLogEntry n insertIdx with
          | Some existing =>
              if negb (Term existing =? Term entry) then appendEntry (truncateLog n insertIdx) entry else n
          | None => n
          end
        else appendEntry n entry in
      store_entries n (insertIdx + 1) entries
  end.

Definition HandleAppendEntries (n : RaftNode) (req : AppendEntriesRequest) : RaftNode * AppendEntriesReply :=
  let reply := {| aer_Term := currentTerm n; aer_Success := false; aer_MatchIndex := 0;
                  aer_ConflictTerm := 0; aer_ConflictIndex := 0 |} in
  let n := if currentTerm n <? ae_Term req then becomeFollower n (ae_Term req) else n in
  if ae_Term req <? currentTerm n then (n, reply <| aer_Term := currentTerm n |>)
  else
    let n := if bool_decide (state n = Candidate) then becomeFollower n (ae_Term req) else n in
    let n := n <| leaderID := ae_LeaderID req |> in
    match check_prev n req with
    | Some (t, i) => (n, reply <| aer_ConflictTerm := t |> <| aer_ConflictIndex := i |>)
    | None =>
        let n := store_entries n (ae_PrevLogIndex req + 1) (ae_Entries req) in
        let lastNewEntry := ae_PrevLogIndex req + Z.of_nat (length (ae_Entries req)) in
        let reply := reply <| aer_MatchIndex := lastNewEntry |> <| aer_Success := true |> in
        let n := if commitIndex n <? ae_LeaderCommit req
                 then notifyApply (n <| commitIndex := if ae_LeaderCommit req <? lastNewEntry
                                                       then ae_LeaderCommit req else lastNewEntry |>)
                 else n in
        (n, reply <| aer_Term := currentTerm n |>)
    end.

(** *** Commitment *)

(** The members of [c] known to store the log up to [i], counting the node
    itself once, whether or not it is a member. *)
Definition match_count (n : RaftNode) (c : Configuration) (i : Z) : Z :=
  1 + Size (filter (fun nodeID => nodeID <> id n /\ i <= default 0 (matchIndex n !! nodeID)) c).

Definition has_quorum (n : RaftNode) (c : Configuration) (i : Z) : bool :=
  Quorum c <=? match_count n c i.

Definition joint_quorum (n : RaftNode) (j : JointConfiguration) (i : Z) : bool :=
  has_quorum n (Old j) i && has_quorum n (New j) i.

(** Whether the loop of [updateCommitIndex] commits index [i]. *)
Definition committable (n : RaftNode) (i : Z) : bool :=
  match getLogEntry n i with
  | None => false
  | Some e =>
      (Term e =? currentTerm n) &&
      match joint n with
      | Some j => bool_decide (Type_ e = LogEntryNormal) && joint_quorum n j i
      | None => has_quorum n (config n) i
      end
  end.

Definition commit_at (n : RaftNode) (i : Z) : RaftNode := notifyApply (n <| commitIndex := i |>).

Definition updateCommitIndex (n : RaftNode) : RaftNode :=
  if negb (bool_decide (state n = Leader)) then n
  else foldl (fun n i => if committable n i then commit_at n i else n) n
         (seqZ (commitIndex n + 1) (lastLogIndex n - commitIndex n)).

Definition is_type (n : RaftNode) (t : LogEntryType) (i : Z) : bool :=
  match getLogEntry n i with Some e => bool_decide (Type_ e = t) | None => false end.

(** The indices above the commit index, upward. *)
Definition uncommitted (n : RaftNode) : list Z :=
  seqZ (commitIndex n + 1) (lastLogIndex n - commitIndex n).

Definition advance_joint (n : RaftNode) (j : JointConfiguration) : RaftNode :=
  match List.find (is_type n LogEntryConfigJoint) (uncommitted n) with
  | Some jointIndex =>
      if (0 <? jointIndex) && joint_quorum n j jointIndex then
        let n := if commitIndex n <? jointIndex then commit_at n jointIndex else n in
        appendEntry n {| Term := currentTerm n; Index := lastLogIndex n + 1;
                         Type_ := LogEntryConfigNew; Command := [] |}
      else n
  | None => n
  end.

Definition advance_new (n : RaftNode) (j : JointConfiguration) : RaftNode :=
  match List.find (is_type n LogEntryConfigNew) (reverse (uncommitted n)) with
  | Some newConfigIndex =>
      if (0 <? newConfigIndex) && joint_quorum n j newConfigIndex then
        let n := if commitIndex n <? newConfigIndex then commit_at n newConfigIndex else n in
        n <| config := New j |> <| joint := None |> <| configCommitted := true |>
          <| configChangeInFlight := false |>
      else n
  | None => n
  end.

Definition checkConfigProgress (n : RaftNode) : RaftNode :=
  match joint n with
  | None => n
  | Some j => if negb (bool_decide (state n = Leader)) then n else advance_new (advance_joint n j) j
  end.

(** Where to retry after a conflict: after the leader's last entry of the
    conflicting term, or at the follower's hint. *)
Definition retry_index (n : RaftNode) (reply : AppendEntriesReply) : Z :=
  if aer_ConflictTerm reply <? 0 then aer_ConflictIndex reply
  else
    let same i := match getLogEntry n i with
                  | Some e => Term e =? aer_ConflictTerm reply | None => false end in
    match List.find same (reverse (seqZ (logOffset n) (lastLogIndex n - logOffset n + 1))) with
    | Some i => i + 1
    | None => aer_ConflictIndex reply
    end.

Definition handleAppendEntriesReply (n : RaftNode) (target : string) (reply : AppendEntriesReply) : RaftNode :=
  if negb (bool_decide (state n = Leader)) then n
  else if currentTerm n <? aer_Term reply then becomeFollower n (aer_Term reply)
  else if aer_Term reply <? currentTerm n then n
  else if aer_Success reply then
    let n := n <| matchIndex := <[target := aer_MatchIndex reply]> (matchIndex n) |>
               <| nextIndex := <[target := aer_MatchIndex reply + 1]> (nextIndex n) |> in
    checkConfigProgress (updateCommitIndex n)
  else
    let next := retry_index n reply in
    n <| nextIndex := <[target := if next <? 1 then 1 else next]> (nextIndex n) |>.

(** *** Applying *)

Definition applyCap : nat := 256.

(** A non-blocking send on [applyCh]. *)
Definition send_applied (n : RaftNode) (r : ApplyResult) : RaftNode :=
  if (length (applyCh n) <? applyCap)%nat then n <| applyCh := applyCh n ++ [r] |> else n.

(** One iteration of [applyCommitted]. *)
Definition apply_next (n : RaftNode) : RaftNode :=
  let n := n <| lastApplied := lastApplied n + 1 |> in
  match getLogEntry n (lastApplied n) with
  | None => n
  | Some entry =>
      let '(s, ok) := match Type_ entry with
                      | LogEntryConfigJoint | LogEntryConfigNew => (sm n, true)
                      | LogEntryNormal => Apply (sm n) entry
                      end in
      send_applied (n <| sm := s |>) {| ar_Index := Index entry; ar_Term := Term entry; ar_Ok := ok |}
  end.

(** The loop runs [commitIndex - lastApplied] times: an iteration changes
    neither the commit index nor the log. *)
Definition applyCommitted (n : RaftNode) : RaftNode :=
  Nat.iter (Z.to_nat (commitIndex n - lastApplied n)) apply_next n.

Definition applyLoop_iteration (n : RaftNode) : RaftNode :=
  if negb (running n) then n
  else if lastApplied n <? commitIndex n then applyCommitted n else n.

(** *** Clients and membership *)

Definition next_entry (n : RaftNode) (t : LogEntryType) (command : list Z) : LogEntry :=
  {| Term := currentTerm n; Index := lastLogIndex n + 1; Type_ := t; Command := command |}.

Definition Propose (n : RaftNode) (command : list Z) : RaftNode * result Error (Z * Z) :=
  if 0 <? snapshotInFlight n then (n, Err ErrSnapshotInstalling)
  else if negb (bool_decide (state n = Leader)) then (n, Err ErrNotLeader)
  else if negb (running n) then (n, Err ErrNodeStopped)
  else if configChangeInFlight n then (n, Err ErrConfigChangeInFlight)
  else
    let entry := next_entry n LogEntryNormal command in
    (appendEntry n entry, Ok (Index entry, Term entry)).

Definition enter_joint (n : RaftNode) (newConfig : Configuration) : RaftNode :=
  let n := n <| joint := Some {| Old := config n; New := newConfig |} |> in
  let n := appendEntry n (next_entry n LogEntryConfigJoint []) in
  n <| configChangeInFlight := true |> <| configCommitted := false |>.

Definition AddNode (n : RaftNode) (nodeID : string) : RaftNode * option Error :=
  if negb (bool_decide (state n = Leader)) then (n, Some ErrNotLeader)
  else if configChangeInFlight n then (n, Some ErrConfigChangeInFlight)
  else if Contains (config n) nodeID then (n, Some ErrNodeExists)
  else (enter_joint n (NewConfiguration (elements (config n) ++ [nodeID])), None).

Definition RemoveNode (n : RaftNode) (nodeID : string) : RaftNode * option Error :=
  if negb (bool_decide (state n = Leader)) then (n, Some ErrNotLeader)
  else if configChangeInFlight n then (n, Some ErrConfigChangeInFlight)
  else if negb (Contains (config n) nodeID) then (n, Some ErrNodeNotFound)
  else
    let newNodes := filter (fun i => i <> nodeID) (elements (config n)) in
    if bool_decide (newNodes = []) then (n, Some ErrEmptyConfig)
    else (enter_joint n (NewConfiguration newNodes), None).

(** *** Snapshots *)

Definition HandleInstallSnapshot (n : RaftNode) (req : InstallSnapshotRequest) : RaftNode * InstallSnapshotReply :=
  let reply ok t := {| isr_Term := t; isr_Success := ok |} in
  let term0 := currentTerm n in
  let n := if currentTerm n <? is_Term req then becomeFollower n (is_Term req) else n in
  if is_Term req <? currentTerm n then (n, reply false (currentTerm n))
  else if is_LastIncludedIndex req <=? lastSnapshotIndex n then (n, reply true term0)
  else
    match ApplySnapshot (sm n)
            {| snap_LastIncludedIndex := is_LastIncludedIndex req;
               snap_LastIncludedTerm := is_LastIncludedTerm req;
               snap_Config := is_Config req; snap_Data := is_Data req |} with
    | None => (n, reply false term0)
    | Some s =>
        let n := n <| sm := s |> <| lastSnapshotIndex := is_LastIncludedIndex req |>
                   <| lastSnapshotTerm := is_LastIncludedTerm req |>
                   <| logOffset := is_LastIncludedIndex req |> <| log := [] |> in
        let n := match is_Config req with Some c => n <| config := c |> | None => n end in
        let n := if commitIndex n <? is_LastIncludedIndex req
                 then n <| commitIndex := is_LastIncludedIndex req |> else n in
        let n := if lastApplied n <? is_LastIncludedIndex req
                 then n <| lastApplied := is_LastIncludedIndex req |> else n in
        (n, reply true term0)
    end.

Definition handleInstallSnapshotReply (n : RaftNode) (target : string) (reply : InstallSnapshotReply) : RaftNode :=
  if negb (bool_decide (state n = Leader)) then n
  else if currentTerm n <? isr_Term reply then becomeFollower n (isr_Term reply)
  else if isr_Term reply <? currentTerm n then n
  else if isr_Success reply then
    n <| matchIndex := <[target := lastSnapshotIndex n]> (matchIndex n) |>
      <| nextIndex := <[target := lastSnapshotIndex n + 1]> (nextIndex n) |>
  else n.

Definition CompactLog (n : RaftNode) (index : Z) : RaftNode * option Error :=
  if commitIndex n <? index then (n, Some ErrInvalidIndex)
  else if index <=? logOffset n then (n, None)
  else match getLogEntry n index with
       | None => (n, Some ErrInvalidIndex)
       | Some entry =>
           let n' := n <| lastSnapshotIndex := index |> <| lastSnapshotTerm := Term entry |>
                       <| log := if index - logOffset n <? Z.of_nat (length (log n))
                                 then drop (Z.to_nat (index - logOffset n)) (log n) else [] |>
                       <| logOffset := index |> in
           (n', None)
       end.

End node.

Arguments RaftNode : clear implicits.
