(* ===== verification/RaftProofs.v ===== *)
(** Theorems about one Raft node (RaftLog.v): the log-index invariant, the
    storing of entries, commitment and application.  Elections are in
    RaftElection.v. *)

From stdpp Require Import base tactics list gmap strings sorting sets fin_sets.
From Stdlib Require Import ZArith Lia.
From S2P Require Import Prelude RaftLog.

Section proofs.
Context {SM : Type} `{!StateMachine SM}.
Implicit Types (n : RaftNode SM) (e : LogEntry).

(** ** The log *)

(** The entries are numbered consecutively from [logOffset]; the entry at
    [logOffset] (the initial dummy or the last one of the snapshot) is kept. *)
Definition wf_log n : Prop :=
  log n <> [] /\ forall k e, log n !! k = Some e -> Index e = logOffset n + Z.of_nat k.

Lemma wf_lastLogIndex n : wf_log n -> lastLogIndex n = logOffset n + Z.of_nat (length (log n)) - 1.
Proof.
  intros [Hne Hi]. unfold lastLogIndex. rewrite last_lookup.
  destruct (log n) as [|x l] eqn:E; [done|]. rewrite <- E in *.
  assert (length (log n) <> 0)%nat by (rewrite E; simpl; lia).
  destruct (lookup_lt_is_Some_2 (log n) (pred (length (log n)))) as [e He]; [lia|].
  rewrite He, (Hi _ _ He). lia.
Qed.

Lemma getLogEntry_ge n i : logOffset n <= i -> getLogEntry n i = log n !! Z.to_nat (i - logOffset n).
Proof. intros. unfold getLogEntry. by rewrite (proj2 (Z.ltb_ge _ _)) by lia. Qed.

Lemma getLogEntry_Some n i :
  wf_log n -> logOffset n <= i <= lastLogIndex n -> exists e, getLogEntry n i = Some e /\ Index e = i.
Proof.
  intros Hwf Hi. rewrite getLogEntry_ge by lia. rewrite wf_lastLogIndex in Hi by done.
  destruct (lookup_lt_is_Some_2 (log n) (Z.to_nat (i - logOffset n))) as [e He]; [lia|].
  exists e. split; [done|]. destruct Hwf as [_ Hwf]. rewrite (Hwf _ _ He). lia.
Qed.

Lemma getLogEntry_range n i e :
  wf_log n -> getLogEntry n i = Some e -> logOffset n <= i <= lastLogIndex n /\ Index e = i.
Proof.
  intros Hwf. unfold getLogEntry. destruct (Z.ltb_spec i (logOffset n)); [done|]. intros He.
  rewrite wf_lastLogIndex by done. pose proof (lookup_lt_Some _ _ _ He). destruct Hwf as [_ Hwf].
  rewrite (Hwf _ _ He). lia.
Qed.

Definition consecutive (first : Z) (es : list LogEntry) : Prop :=
  forall k e, es !! k = Some e -> Index e = first + Z.of_nat k.

Lemma consecutive_cons first e es :
  consecutive first (e :: es) <-> Index e = first /\ consecutive (first + 1) es.
Proof.
  split.
  - intros H. split; [rewrite (H 0%nat e) by done; lia|]. intros k x Hk. rewrite (H (S k) x) by done. lia.
  - intros [He H] [|k] x Hk; simpl in Hk; simplify_eq; [lia|]. rewrite (H k x) by done. lia.
Qed.

Lemma consecutive_drop first es k : consecutive first es -> consecutive (first + Z.of_nat k) (drop k es).
Proof. intros H j e. rewrite lookup_drop. intros Hj. rewrite (H _ _ Hj). lia. Qed.

Lemma consecutive_at a b es : a = b -> consecutive a es -> consecutive b es.
Proof. by intros ->. Qed.

Lemma consecutive_app first a b :
  consecutive first a -> consecutive (first + Z.of_nat (length a)) b -> consecutive first (a ++ b).
Proof.
  intros Ha Hb k e. rewrite lookup_app_Some. intros [H|[Hl H]]; [by apply Ha|]. rewrite (Hb _ _ H). lia.
Qed.

Lemma wf_log_with n l : l <> [] -> consecutive (logOffset n) l -> wf_log (n <| log := l |>).
Proof. intros Hne Hc. split; [done|]. exact Hc. Qed.

Lemma wf_log_append n e :
  wf_log n -> Index e = lastLogIndex n + 1 -> wf_log (appendEntry n e).
Proof.
  intros Hwf He. rewrite wf_lastLogIndex in He by done. destruct Hwf as [Hne Hc].
  apply wf_log_with; [by destruct (log n)|]. apply consecutive_app; [exact Hc|].
  apply consecutive_cons. split; [lia|]. intros k x Hk. by rewrite lookup_nil in Hk.
Qed.

(** ** Storing entries *)

(** The reference: keep the common prefix, drop the rest at the first
    disagreement on a term. *)
Fixpoint merge (existing new : list LogEntry) : list LogEntry :=
  match existing, new with
  | [], _ => new
  | _, [] => existing
  | x :: xs, e :: es => if Term x =? Term e then x :: merge xs es else e :: es
  end.

Lemma node_log_id n : n <| log := log n |> = n.
Proof. by destruct n. Qed.

Lemma store_past n es :
  wf_log n -> consecutive (lastLogIndex n + 1) es ->
  store_entries n (lastLogIndex n + 1) es = n <| log := log n ++ es |>.
Proof.
  revert n. induction es as [|e es IH]; intros n Hwf Hc; simpl.
  - rewrite app_nil_r. symmetry. apply node_log_id.
  - apply consecutive_cons in Hc as [He Hc]. destruct (Z.leb_spec (lastLogIndex n + 1) (lastLogIndex n)); [lia|].
    assert (wf_log (appendEntry n e)) as Hwf' by by apply wf_log_append.
    assert (lastLogIndex (appendEntry n e) = lastLogIndex n + 1) as Hl.
    { rewrite !wf_lastLogIndex by done. simpl. rewrite length_app. simpl. lia. }
    rewrite <- Hl. rewrite IH by (rewrite ?Hl; done).
    unfold appendEntry. simpl. by rewrite <- app_assoc.
Qed.

Lemma store_entries_merge n i es :
  wf_log n -> logOffset n <= i <= lastLogIndex n + 1 -> consecutive i es ->
  let k := Z.to_nat (i - logOffset n) in
  store_entries n i es = n <| log := take k (log n) ++ merge (drop k (log n)) es |>.
Proof.
  intros Hwf. revert i. induction es as [|e es IH]; intros i Hi Hc k.
  { simpl. replace (merge (drop k (log n)) []) with (drop k (log n)) by by destruct (drop k (log n)).
    rewrite take_drop. symmetry. apply node_log_id. }
  destruct (decide (i = lastLogIndex n + 1)) as [->|Hne].
  { rewrite store_past by done. assert (k = length (log n)) as ->.
    { unfold k. rewrite wf_lastLogIndex by done. lia. }
    by rewrite firstn_all, drop_all. }
  apply consecutive_cons in Hc as [He Hc]. simpl.
  destruct (Z.leb_spec i (lastLogIndex n)); [|lia].
  rewrite getLogEntry_ge by lia. fold k.
  pose proof (wf_lastLogIndex n Hwf) as Hl.
  destruct (lookup_lt_is_Some_2 (log n) k) as [x Hx]; [lia|]. rewrite Hx.
  rewrite (drop_S _ _ _ Hx). simpl. destruct (Z.eqb_spec (Term x) (Term e)) as [Ht|Ht]; simpl.
  - rewrite IH; [|lia|done]. f_equal. replace (Z.to_nat (i + 1 - logOffset n)) with (S k) by lia.
    rewrite (take_S_r _ _ _ Hx), <- app_assoc. done.
  - unfold truncateLog. rewrite (proj2 (Z.ltb_ge _ _)), (proj2 (Z.ltb_lt _ _)) by lia. fold k.
    set (n' := appendEntry (n <| log := take k (log n) |>) e).
    assert (wf_log n') as Hwf'.
    { apply wf_log_with; [by destruct (take k (log n))|]. apply consecutive_app.
      - intros j y Hj. apply lookup_take_Some in Hj as [Hj _]. simpl. by apply Hwf.
      - simpl. rewrite length_take. apply consecutive_cons.
        split; [lia|]. intros j y Hj. by rewrite lookup_nil in Hj. }
    assert (lastLogIndex n' = i) as Hl'.
    { rewrite wf_lastLogIndex by done. simpl. rewrite length_app, length_take. simpl. lia. }
    replace (i + 1) with (lastLogIndex n' + 1) by lia.
    rewrite store_past by (rewrite ?Hl'; done). unfold n', appendEntry. simpl. by rewrite <- app_assoc.
Qed.

(** Entries below the log's offset are skipped. *)
Lemma store_entries_skip n i es :
  wf_log n -> i <= logOffset n ->
  store_entries n i es = store_entries n (logOffset n) (drop (Z.to_nat (logOffset n - i)) es).
Proof.
  intros Hwf. revert i. induction es as [|e es IH]; intros i Hi.
  { by rewrite drop_nil. }
  destruct (decide (i = logOffset n)) as [->|Hne]; [by rewrite Z.sub_diag|].
  pose proof (wf_lastLogIndex n Hwf). assert (length (log n) <> 0)%nat by (by destruct Hwf, (log n)).
  simpl. rewrite (proj2 (Z.leb_le _ _)) by lia.
  unfold getLogEntry at 1. rewrite (proj2 (Z.ltb_lt _ _)) by lia. rewrite IH by lia.
  replace (Z.to_nat (logOffset n - i)) with (S (Z.to_nat (logOffset n - (i + 1)))) by lia. done.
Qed.

(** The log after a request whose consistency check passed. *)
Definition stored_log n (prev : Z) (es : list LogEntry) : list LogEntry :=
  let i := Z.max (prev + 1) (logOffset n) in
  let k := Z.to_nat (i - logOffset n) in
  take k (log n) ++ merge (drop k (log n)) (drop (Z.to_nat (i - (prev + 1))) es).

Lemma store_entries_spec n prev es :
  wf_log n -> prev <= lastLogIndex n -> consecutive (prev + 1) es ->
  store_entries n (prev + 1) es = n <| log := stored_log n prev es |>.
Proof.
  intros Hwf Hp Hc. unfold stored_log.
  pose proof (wf_lastLogIndex n Hwf). assert (length (log n) <> 0)%nat by (by destruct Hwf, (log n)).
  destruct (Z.le_gt_cases (logOffset n) (prev + 1)).
  - rewrite Z.max_l by lia. rewrite Z.sub_diag. simpl drop at 2. apply store_entries_merge; done || lia.
  - rewrite Z.max_r by lia. rewrite store_entries_skip by (done || lia).
    rewrite store_entries_merge; [done|done|lia|].
    replace (logOffset n) with (prev + 1 + Z.of_nat (Z.to_nat (logOffset n - (prev + 1)))) at 1 by lia.
    by apply consecutive_drop.
Qed.

Lemma merge_consecutive first xs es :
  consecutive first xs -> consecutive first es -> consecutive first (merge xs es).
Proof.
  revert first es. induction xs as [|x xs IH]; intros first [|e es] Hx He; simpl; try done.
  destruct (Z.eqb_spec (Term x) (Term e)); [|done].
  apply consecutive_cons in Hx as [? ?], He as [? ?]. apply consecutive_cons. auto.
Qed.

Lemma length_merge xs es : (length es <= length (merge xs es))%nat.
Proof.
  revert es. induction xs as [|x xs IH]; intros [|e es]; simpl; try lia.
  destruct (_ =? _); simpl; [specialize (IH es)|]; lia.
Qed.

Lemma merge_term xs es k e :
  es !! k = Some e -> exists x, merge xs es !! k = Some x /\ Term x = Term e /\ (x = e \/ xs !! k = Some x).
Proof.
  revert es k. induction xs as [|x xs IH]; intros [|e' es] k He; simpl; try done; [by eauto|].
  destruct (Z.eqb_spec (Term x) (Term e')); [|by eauto].
  destruct k as [|k]; simpl in *; [simplify_eq; by eauto|]. by apply IH.
Qed.

Definition agree (xs es : list LogEntry) : Prop :=
  forall k x e, xs !! k = Some x -> es !! k = Some e -> Term x = Term e.

Lemma agree_cons x xs e es : agree (x :: xs) (e :: es) <-> Term x = Term e /\ agree xs es.
Proof.
  split.
  - intros H. split; [by apply (H 0%nat)|]. intros k. apply (H (S k)).
  - intros [He H] [|k] y z Hy Hz; simpl in *; [by simplify_eq|]. by eapply H.
Qed.

(** Without a disagreement nothing is dropped. *)
Lemma merge_agree xs es : agree xs es -> merge xs es = xs ++ drop (length xs) es.
Proof.
  revert es. induction xs as [|x xs IH]; intros [|e es] H; simpl; try done.
  - by rewrite app_nil_r.
  - apply agree_cons in H as [He H]. rewrite He, Z.eqb_refl. by rewrite IH.
Qed.

(** Entries on which both agree from the start are kept. *)
Lemma merge_keeps m xs es :
  (m <= length xs)%nat -> agree (take m xs) es -> take m (merge xs es) = take m xs.
Proof.
  revert m es. induction xs as [|x xs IH]; intros [|m] [|e es] Hm H; simpl in *; try done; try lia.
  apply agree_cons in H as [He H]. rewrite He, Z.eqb_refl. simpl. f_equal. apply IH; [lia|done].
Qed.

Lemma merge_Forall (P : LogEntry -> Prop) xs es :
  Forall P xs -> Forall P es -> Forall P (merge xs es).
Proof.
  intros Hx. revert es. induction Hx as [|x xs Hx Hxs IH]; intros [|e es] He; simpl; try done; [by constructor|].
  destruct (_ =? _); [|done]. apply Forall_cons in He as [? ?]. constructor; auto.
Qed.

(** ** The invariant of a node *)

Record node_inv n : Prop := {
  inv_wf : wf_log n;
  inv_offset : 0 <= logOffset n;
  inv_snapshot : lastSnapshotIndex n = logOffset n;
  inv_commit : logOffset n <= commitIndex n <= lastLogIndex n;
  inv_applied : 0 <= lastApplied n <= commitIndex n;
  inv_terms : Forall (fun e => Term e <= currentTerm n) (log n);
}.

(** The last index that a request covers. *)
Definition last_new (req : AppendEntriesRequest) : Z := ae_PrevLogIndex req + Z.of_nat (length (ae_Entries req)).

(** A request with consecutive entries of its term or an earlier one. *)
Record well_formed (req : AppendEntriesRequest) : Prop := {
  req_prev : 0 <= ae_PrevLogIndex req;
  req_entries : consecutive (ae_PrevLogIndex req + 1) (ae_Entries req);
  req_terms : Forall (fun e => Term e <= ae_Term req) (ae_Entries req);
}.

(** It contradicts nothing that the follower knows to be committed. *)
Definition agrees n (req : AppendEntriesRequest) : Prop := forall k e x,
  ae_Entries req !! k = Some e -> ae_PrevLogIndex req + 1 + Z.of_nat k <= commitIndex n ->
  getLogEntry n (ae_PrevLogIndex req + 1 + Z.of_nat k) = Some x -> Term x = Term e.

(** What a leader promises of its requests: they are well formed, contradict
    nothing committed, and when they advance the commit index they reach as far
    as what is committed already. *)
Record request_ok n (req : AppendEntriesRequest) : Prop := {
  req_wf : well_formed req;
  req_agree : agrees n req;
  req_reach : commitIndex n < ae_LeaderCommit req -> commitIndex n <= last_new req;
}.

Lemma node_nonempty n : wf_log n -> logOffset n <= lastLogIndex n.
Proof.
  intros Hwf. rewrite wf_lastLogIndex by done. destruct Hwf as [Hne _].
  assert (length (log n) <> 0)%nat by (by destruct (log n)). lia.
Qed.

Lemma check_prev_None n req :
  node_inv n -> 0 <= ae_PrevLogIndex req -> check_prev n req = None ->
  ae_PrevLogIndex req <= lastLogIndex n /\
  (logOffset n <= ae_PrevLogIndex req -> ae_PrevLogIndex req <> 0 ->
   exists e, getLogEntry n (ae_PrevLogIndex req) = Some e /\ Term e = ae_PrevLogTerm req).
Proof.
  intros Hi Hp. pose proof (node_nonempty n (inv_wf _ Hi)). pose proof (inv_offset _ Hi).
  unfold check_prev. destruct (Z.eqb_spec (ae_PrevLogIndex req) 0); [split; [lia|done]|].
  destruct (Z.ltb_spec (ae_PrevLogIndex req) (logOffset n)); [split; lia|].
  destruct (Z.ltb_spec (lastLogIndex n) (ae_PrevLogIndex req)); [done|].
  destruct (getLogEntry n (ae_PrevLogIndex req)) as [e|]; [|done].
  destruct (Z.eqb_spec (Term e) (ae_PrevLogTerm req)); [|done]. intros _. split; [done|]. eauto.
Qed.

Section stored.
Context n (prev : Z) (es : list LogEntry).
Context (Hwf : wf_log n) (Hp : prev <= lastLogIndex n) (Hc : consecutive (prev + 1) es).

(** Position of the first entry of the request that can be stored. *)
#[local] Abbreviation i := (Z.max (prev + 1) (logOffset n)).
#[local] Abbreviation k := (Z.to_nat (i - logOffset n)).

Lemma stored_bounds : (k <= length (log n))%nat /\ (0 < length (log n))%nat.
Proof.
  pose proof (wf_lastLogIndex n Hwf). assert (length (log n) <> 0)%nat by (by destruct Hwf, (log n)). lia.
Qed.

Lemma stored_consecutive : consecutive (logOffset n) (stored_log n prev es).
Proof.
  destruct stored_bounds. unfold stored_log. destruct Hwf as [_ Hw]. apply consecutive_app.
  - intros j y Hj. apply lookup_take_Some in Hj as [Hj _]. by apply Hw.
  - rewrite length_take_le by lia.
    apply merge_consecutive; [by apply consecutive_drop|]. eapply consecutive_at; [|by apply consecutive_drop]. lia.
Qed.

Lemma stored_length : (k + length (drop (Z.to_nat (i - (prev + 1))) es) <= length (stored_log n prev es))%nat.
Proof.
  destruct stored_bounds. unfold stored_log. rewrite length_app, length_take_le by lia.
  pose proof (length_merge (drop k (log n)) (drop (Z.to_nat (i - (prev + 1))) es)). lia.
Qed.

Lemma stored_nonempty : prev + 1 <= logOffset n -> stored_log n prev es <> [].
Proof.
  intros Hlt. destruct stored_bounds. unfold stored_log. replace k with 0%nat by lia. simpl.
  rewrite drop_0. destruct (log n) as [|x xs]; [simpl in *; lia|].
  destruct (drop _ es) as [|e es'] eqn:E; [done|]. simpl. by destruct (_ =? _).
Qed.

Lemma stored_wf : wf_log (n <| log := stored_log n prev es |>).
Proof.
  apply wf_log_with; [|apply stored_consecutive]. destruct (Z.le_gt_cases (prev + 1) (logOffset n)).
  - by apply stored_nonempty.
  - intros E. pose proof stored_length as Hl. rewrite E in Hl. simpl in Hl. lia.
Qed.

Lemma stored_last : prev + Z.of_nat (length es) <= lastLogIndex (n <| log := stored_log n prev es |>).
Proof.
  rewrite wf_lastLogIndex by apply stored_wf. simpl. pose proof stored_length as Hl.
  rewrite length_drop in Hl.
  assert (length (stored_log n prev es) <> 0)%nat by (by destruct stored_wf, (stored_log n prev es)).
  lia.
Qed.

(** Every entry of the request that lies in the log is stored, up to equal
    terms. *)
Lemma stored_entry j e :
  es !! j = Some e -> logOffset n <= prev + 1 + Z.of_nat j ->
  exists x, getLogEntry (n <| log := stored_log n prev es |>) (prev + 1 + Z.of_nat j) = Some x /\
    Term x = Term e /\ (x = e \/ getLogEntry n (prev + 1 + Z.of_nat j) = Some x).
Proof.
  intros He Hj. destruct stored_bounds. rewrite !getLogEntry_ge by done. simpl log. simpl logOffset.
  unfold stored_log. rewrite lookup_app_r by (rewrite length_take_le; lia). rewrite length_take_le by lia.
  destruct (merge_term (drop k (log n)) (drop (Z.to_nat (i - (prev + 1))) es)
    (Z.to_nat (prev + 1 + Z.of_nat j - logOffset n) - k) e) as (x & Hx & Ht & Hor).
  { rewrite lookup_drop, <- He. f_equal. lia. }
  exists x. split_and!; [done..|]. destruct Hor as [->|Hor]; [by left|right].
  rewrite lookup_drop in Hor. rewrite <- Hor. f_equal. lia.
Qed.

(** The entries up to [prev] are untouched. *)
Lemma stored_prefix j : j <= prev ->
  getLogEntry (n <| log := stored_log n prev es |>) j = getLogEntry n j.
Proof.
  intros Hj. destruct stored_bounds. unfold getLogEntry. simpl logOffset. simpl log.
  destruct (Z.ltb_spec j (logOffset n)); [done|]. unfold stored_log.
  rewrite lookup_app_l by (rewrite length_take_le; lia). rewrite lookup_take_lt by lia. done.
Qed.

(** When the request contradicts nothing stored, nothing is dropped. *)
Lemma stored_grows :
  (forall j e x, es !! j = Some e -> getLogEntry n (prev + 1 + Z.of_nat j) = Some x -> Term x = Term e) ->
  exists l, stored_log n prev es = log n ++ l.
Proof.
  intros Hag. destruct stored_bounds. unfold stored_log. rewrite merge_agree.
  - eexists. by rewrite app_assoc, take_drop.
  - intros j x e. rewrite !lookup_drop. intros Hx He. apply (Hag _ e x He).
    rewrite getLogEntry_ge by lia. rewrite <- Hx. f_equal. lia.
Qed.

(** Entries up to [c] that the request does not contradict are kept. *)
Lemma stored_committed c :
  logOffset n <= c <= lastLogIndex n ->
  (forall j e x, es !! j = Some e -> prev + 1 + Z.of_nat j <= c ->
    getLogEntry n (prev + 1 + Z.of_nat j) = Some x -> Term x = Term e) ->
  let m := Z.to_nat (c + 1 - logOffset n) in take m (stored_log n prev es) = take m (log n).
Proof.
  intros Hcr Hag m. destruct stored_bounds. pose proof (wf_lastLogIndex n Hwf). unfold stored_log.
  destruct (Nat.le_gt_cases m k).
  { rewrite take_app_le by (rewrite length_take_le; lia). rewrite take_take. f_equal. lia. }
  rewrite take_app_ge, length_take_le by (rewrite ?length_take_le; lia).
  rewrite merge_keeps; [|rewrite length_drop; lia|].
  - rewrite <- (take_drop k (log n)) at 3. rewrite take_app_ge, length_take_le by (rewrite ?length_take_le; lia).
    done.
  - intros j x e Hx He. apply lookup_take_Some in Hx as [Hx Hj]. rewrite lookup_drop in Hx, He.
    apply (Hag _ e x He); [lia|]. rewrite getLogEntry_ge by lia. rewrite <- Hx. f_equal. lia.
Qed.

End stored.

Lemma getLogEntry_take n n' c j :
  logOffset n' = logOffset n -> j <= c ->
  take (Z.to_nat (c + 1 - logOffset n)) (log n') = take (Z.to_nat (c + 1 - logOffset n)) (log n) ->
  getLogEntry n' j = getLogEntry n j.
Proof.
  intros Ho Hj Ht. unfold getLogEntry. rewrite Ho. destruct (Z.ltb_spec j (logOffset n)); [done|].
  rewrite <- (lookup_take_lt (log n') (Z.to_nat (c + 1 - logOffset n))) by lia.
  rewrite <- (lookup_take_lt (log n) (Z.to_nat (c + 1 - logOffset n))) by lia. by rewrite Ht.
Qed.

(** ** AppendEntries *)

(** The node once the term of the request has been dealt with. *)
Definition accept_term n (req : AppendEntriesRequest) : RaftNode SM :=
  let n := if currentTerm n <? ae_Term req then becomeFollower n (ae_Term req) else n in
  let n := if bool_decide (state n = Candidate) then becomeFollower n (ae_Term req) else n in
  n <| leaderID := ae_LeaderID req |>.

Lemma accept_term_frame n req :
  currentTerm n <= ae_Term req ->
  let n1 := accept_term n req in
  currentTerm n1 = ae_Term req /\ log n1 = log n /\ logOffset n1 = logOffset n /\
  commitIndex n1 = commitIndex n /\ lastApplied n1 = lastApplied n /\
  lastSnapshotIndex n1 = lastSnapshotIndex n /\ state n1 <> Candidate.
Proof.
  intros Ht n1. subst n1. unfold accept_term.
  destruct (Z.ltb_spec (currentTerm n) (ae_Term req)); [done|].
  destruct (bool_decide (state n = Candidate)) eqn:E; bools; split_and!; simpl; try done; lia.
Qed.

(** The end of the handler: follow the leader's commit index. *)
Definition advance_commit n (leaderCommit lastNew : Z) : RaftNode SM :=
  if commitIndex n <? leaderCommit
  then commit_at n (if leaderCommit <? lastNew then leaderCommit else lastNew) else n.

Lemma HandleAppendEntries_fresh n req :
  currentTerm n <= ae_Term req ->
  HandleAppendEntries n req =
    let n1 := accept_term n req in
    let reply := {| aer_Term := currentTerm n; aer_Success := false; aer_MatchIndex := 0;
                    aer_ConflictTerm := 0; aer_ConflictIndex := 0 |} in
    match check_prev n1 req with
    | Some (t, i) => (n1, reply <| aer_ConflictTerm := t |> <| aer_ConflictIndex := i |>)
    | None =>
        let n2 := store_entries n1 (ae_PrevLogIndex req + 1) (ae_Entries req) in
        let lastNew := ae_PrevLogIndex req + Z.of_nat (length (ae_Entries req)) in
        let n3 := advance_commit n2 (ae_LeaderCommit req) lastNew in
        (n3, reply <| aer_MatchIndex := lastNew |> <| aer_Success := true |> <| aer_Term := currentTerm n3 |>)
    end.
Proof.
  intros Ht. unfold HandleAppendEntries.
  destruct (Z.ltb_spec (currentTerm n) (ae_Term req)) as [Hlt|Hlt].
  - change (currentTerm (becomeFollower n (ae_Term req))) with (ae_Term req).
    rewrite Z.ltb_irrefl. unfold accept_term. by rewrite (proj2 (Z.ltb_lt (currentTerm n) _)) by lia.
  - rewrite (proj2 (Z.ltb_ge (ae_Term req) _)) by lia. unfold accept_term.
    by rewrite (proj2 (Z.ltb_ge (currentTerm n) _)) by lia.
Qed.

Lemma same_log_inv n n' :
  log n' = log n -> logOffset n' = logOffset n -> commitIndex n' = commitIndex n ->
  lastApplied n' = lastApplied n -> lastSnapshotIndex n' = lastSnapshotIndex n ->
  currentTerm n <= currentTerm n' -> node_inv n -> node_inv n'.
Proof.
  intros El Eo Ec Ea Es Ht [Hwf Ho Hs Hc Ha HT].
  assert (lastLogIndex n' = lastLogIndex n) as Ell by (unfold lastLogIndex; by rewrite El, Eo).
  split; [unfold wf_log|..]; rewrite ?Ell, ?El, ?Eo, ?Ec, ?Ea, ?Es; try done.
  eapply Forall_impl; [exact HT|]. simpl. lia.
Qed.

Lemma same_log_get n n' i : log n' = log n -> logOffset n' = logOffset n -> getLogEntry n' i = getLogEntry n i.
Proof. intros El Eo. unfold getLogEntry. by rewrite El, Eo. Qed.

(** What a successful reply of [HandleAppendEntries] means. *)
Record appended n (req : AppendEntriesRequest) n' (r : AppendEntriesReply) : Prop := {
  app_term : currentTerm n <= ae_Term req /\ currentTerm n' = ae_Term req /\ aer_Term r = ae_Term req;
  app_frame : logOffset n' = logOffset n /\ lastApplied n' = lastApplied n;
  app_state : state n' <> Candidate;
  app_match : aer_MatchIndex r = ae_PrevLogIndex req + Z.of_nat (length (ae_Entries req));
  app_last : aer_MatchIndex r <= lastLogIndex n';
  app_log : log n' = stored_log n (ae_PrevLogIndex req) (ae_Entries req);
  app_entries : forall j e, ae_Entries req !! j = Some e ->
    logOffset n <= ae_PrevLogIndex req + 1 + Z.of_nat j ->
    exists x, getLogEntry n' (ae_PrevLogIndex req + 1 + Z.of_nat j) = Some x /\ Term x = Term e;
  app_prev : logOffset n <= ae_PrevLogIndex req -> ae_PrevLogIndex req <> 0 ->
    exists e, getLogEntry n' (ae_PrevLogIndex req) = Some e /\ Term e = ae_PrevLogTerm req;
  app_kept : forall j, j <= ae_PrevLogIndex req \/ (agrees n req /\ j <= commitIndex n) -> getLogEntry n' j = getLogEntry n j;
  app_commit : commitIndex n' =
    if commitIndex n <? ae_LeaderCommit req then Z.min (ae_LeaderCommit req) (last_new req) else commitIndex n;
  app_inv : agrees n req -> commitIndex n <= commitIndex n' -> node_inv n';
}.

Lemma commit_at_inv n c :
  node_inv n -> commitIndex n <= c <= lastLogIndex n -> node_inv (commit_at n c).
Proof.
  intros [Hw Ho Hs Hcm Ha Ht] Hc. split; [exact Hw|exact Ho|exact Hs| | |exact Ht].
  - change (logOffset n <= c <= lastLogIndex n). lia.
  - change (0 <= lastApplied n <= c). lia.
Qed.

Lemma advance_commit_spec n leaderCommit lastNew :
  let n' := advance_commit n leaderCommit lastNew in
  log n' = log n /\ logOffset n' = logOffset n /\ state n' = state n /\
  currentTerm n' = currentTerm n /\ lastApplied n' = lastApplied n /\
  commitIndex n' = (if commitIndex n <? leaderCommit then Z.min leaderCommit lastNew else commitIndex n) /\
  (node_inv n -> commitIndex n <= commitIndex n' -> lastNew <= lastLogIndex n -> node_inv n').
Proof.
  intros n'. subst n'. unfold advance_commit. destruct (Z.ltb_spec (commitIndex n) leaderCommit); [|done].
  replace (if leaderCommit <? lastNew then leaderCommit else lastNew) with (Z.min leaderCommit lastNew)
    by (destruct (Z.ltb_spec leaderCommit lastNew); lia).
  split_and!; try done. intros Hi Hc Hl. apply commit_at_inv; [done|]. simpl in Hc. lia.
Qed.

Lemma stored_inv n prev es :
  node_inv n -> prev <= lastLogIndex n -> consecutive (prev + 1) es ->
  Forall (fun e => Term e <= currentTerm n) es ->
  (forall j e x, es !! j = Some e -> prev + 1 + Z.of_nat j <= commitIndex n ->
    getLogEntry n (prev + 1 + Z.of_nat j) = Some x -> Term x = Term e) ->
  node_inv (n <| log := stored_log n prev es |>).
Proof.
  intros [Hwf Ho Hs Hc Ha HT] Hp Hcs Hes Hag.
  pose proof (stored_wf n prev es Hwf Hp Hcs) as Hwf'.
  split; try done; simpl.
  - split; [apply Hc|]. pose proof (stored_committed n prev es Hwf Hp (commitIndex n) Hc Hag) as Hk.
    rewrite (wf_lastLogIndex _ Hwf'). simpl. apply (f_equal length) in Hk. rewrite !length_take in Hk.
    rewrite (wf_lastLogIndex n Hwf) in Hc. lia.
  - unfold stored_log. apply Forall_app. split; [by apply Forall_take|].
    apply merge_Forall; by apply Forall_drop.
Qed.

Lemma HandleAppendEntries_appended n req n' r :
  node_inv n -> well_formed req -> HandleAppendEntries n req = (n', r) -> aer_Success r = true ->
  appended n req n' r.
Proof.
  intros Hi Hreq Hh Hsuc. destruct Hreq as [Hprev Hcons Hterms].
  destruct (Z.lt_ge_cases (ae_Term req) (currentTerm n)) as [Hlt|Hge].
  { unfold HandleAppendEntries in Hh.
    rewrite (proj2 (Z.ltb_ge (currentTerm n) _)), (proj2 (Z.ltb_lt (ae_Term req) _)) in Hh by lia.
    injection Hh as <- <-. discriminate Hsuc. }
  rewrite HandleAppendEntries_fresh in Hh by done. cbv zeta in Hh.
  destruct (accept_term_frame n req Hge) as (Et & El & Eo & Ec & Ea & Es & Est).
  set (n1 := accept_term n req) in *.
  assert (node_inv n1) as Hi1 by (eapply same_log_inv; [..|exact Hi]; done || lia).
  destruct (check_prev n1 req) as [[t i]|] eqn:Hck; [injection Hh as <- <-; discriminate Hsuc|].
  apply check_prev_None in Hck as [Hple Hpe]; [|done..].
  assert (forall j, getLogEntry n1 j = getLogEntry n j) as Eg by (intros; by apply same_log_get).
  rewrite store_entries_spec in Hh by (done || apply Hi1).
  assert (stored_log n1 (ae_PrevLogIndex req) (ae_Entries req)
          = stored_log n (ae_PrevLogIndex req) (ae_Entries req)) as Esl by (unfold stored_log; by rewrite El, Eo).
  set (n2 := n1 <| log := _ |>) in *.
  assert (agrees n req -> node_inv n2) as Hi2.
  { intros Hag. apply stored_inv; try done; [by rewrite Et|]. intros j e x. rewrite Ec, Eg. apply Hag. }
  pose proof (stored_last n1 _ _ (inv_wf _ Hi1) Hple Hcons) as Hlast. fold n2 in Hlast.
  destruct (advance_commit_spec n2 (ae_LeaderCommit req) (last_new req)) as (El3 & Eo3 & Es3 & Et3 & Ea3 & Ec3 & Hi3).
  fold (last_new req) in *.
  set (n3 := advance_commit n2 _ _) in *.
  clearbody n3. injection Hh as <- <-.
  assert (forall j, getLogEntry n3 j = getLogEntry n2 j) as Eg3 by (intros; by apply same_log_get).
  assert (lastLogIndex n3 = lastLogIndex n2) as Ell3 by (unfold lastLogIndex; by rewrite El3, Eo3).
  assert (commitIndex n2 = commitIndex n) as Ec2 by exact Ec.
  split; simpl.
  - rewrite Et3. split_and!; [lia|exact Et|exact Et].
  - rewrite Eo3, Ea3. split; [exact Eo|exact Ea].
  - by rewrite Es3.
  - done.
  - rewrite Ell3. exact Hlast.
  - rewrite El3. exact Esl.
  - intros j e Hj Hof. destruct (stored_entry n1 _ _ (inv_wf _ Hi1) Hple j e Hj) as (x & Hx & Ht & _); [by rewrite Eo|].
    exists x. by rewrite Eg3.
  - intros Hof Hnz. destruct Hpe as (e & He & Ht); [by rewrite Eo|done|]. exists e.
    rewrite Eg3. unfold n2. by rewrite (stored_prefix n1 _ _ (inv_wf _ Hi1) Hple) by lia.
  - intros j Hj. rewrite Eg3. rewrite <- Eg. destruct Hj as [Hj|[Hag Hj]].
    { unfold n2. by rewrite (stored_prefix n1 _ _ (inv_wf _ Hi1) Hple) by lia. }
    apply (getLogEntry_take n1 n2 (commitIndex n)); [done|lia|].
    rewrite <- Ec. apply (stored_committed n1 _ _ (inv_wf _ Hi1) Hple); [apply Hi1|].
    intros i e x. rewrite Ec, Eg. apply Hag.
  - by rewrite Ec3, Ec2.
  - intros Hag Hle. apply Hi3; [by apply Hi2|lia|exact Hlast].
Qed.

Lemma HandleAppendEntries_refused n req n' r :
  node_inv n -> HandleAppendEntries n req = (n', r) -> aer_Success r = false ->
  log n' = log n /\ logOffset n' = logOffset n /\ commitIndex n' = commitIndex n /\
  lastApplied n' = lastApplied n /\ currentTerm n' = Z.max (currentTerm n) (ae_Term req) /\ node_inv n'.
Proof.
  intros Hi Hh Hsuc. destruct (Z.lt_ge_cases (ae_Term req) (currentTerm n)) as [Hlt|Hge].
  { unfold HandleAppendEntries in Hh.
    rewrite (proj2 (Z.ltb_ge (currentTerm n) _)), (proj2 (Z.ltb_lt (ae_Term req) _)) in Hh by lia.
    injection Hh as <- <-. split_and!; try done. lia. }
  rewrite HandleAppendEntries_fresh in Hh by done. cbv zeta in Hh.
  destruct (accept_term_frame n req Hge) as (Et & El & Eo & Ec & Ea & Es & Est).
  destruct (check_prev _ req) as [[t i]|]; injection Hh as <- <-; [|discriminate Hsuc].
  split_and!; try done; [rewrite Et; lia|]. eapply same_log_inv; [..|exact Hi]; done || lia.
Qed.

(** ** Commitment *)

Lemma seqZ_StronglySorted m len : StronglySorted Z.lt (seqZ m len).
Proof.

  assert (seqZ m len = seqZ m (Z.of_nat (Z.to_nat (Z.max 0 len)))) as ->.
  { unfold seqZ. do 2 f_equal. lia. }
  generalize (Z.to_nat (Z.max 0 len)). clear len. intros k. revert m.
  induction k as [|k IH]; intros m; [constructor|].
  rewrite seqZ_cons by lia. replace (Z.pred (Z.of_nat (S k))) with (Z.of_nat k) by lia.
  constructor; [apply IH|]. apply Forall_forall. intros x Hx. apply elem_of_seqZ in Hx. lia.
Qed.

Lemma StronglySorted_filter {A} (R : relation A) (P : A -> Prop) `{!forall x, Decision (P x)} l :
  StronglySorted R l -> StronglySorted R (filter P l).
Proof.
  induction 1 as [|x l Hs IH Hx]; [constructor|]. rewrite filter_cons. destruct (decide _); [|done].
  constructor; [done|]. apply Forall_forall. intros y Hy. apply list_elem_of_filter in Hy as [_ Hy].
  rewrite Forall_forall in Hx. by apply Hx.
Qed.

Lemma committable_commit_at n c i : committable (commit_at n c) i = committable n i.
Proof. done. Qed.

Definition commit_step n i : RaftNode SM := if committable n i then commit_at n i else n.

Lemma committable_step n i j : committable (commit_step n i) j = committable n j.
Proof. unfold commit_step. by destruct (committable n i). Qed.

(** The loop of [updateCommitIndex] commits the last index it accepts. *)
Lemma commit_fold n l :
  foldl commit_step n l =
    match last (filter (fun i => committable n i = true) l) with None => n | Some c => commit_at n c end.
Proof.
  induction l as [|i l IH] using rev_ind; [done|].
  rewrite foldl_app, filter_app. simpl. unfold commit_step at 1.
  assert (forall j, committable (foldl commit_step n l) j = committable n j) as Hc.
  { clear. intros j. revert n. induction l as [|i l IH]; intros n; [done|]. simpl.
    by rewrite IH, committable_step. }
  rewrite Hc. rewrite filter_cons, filter_nil. destruct (committable n i) eqn:E.
  - rewrite decide_True by done. rewrite last_snoc, IH. by destruct (last _).
  - rewrite decide_False by done. by rewrite app_nil_r.
Qed.

(** Where [updateCommitIndex] takes a leader. *)
Lemma updateCommitIndex_cases n :
  state n = Leader ->
  (updateCommitIndex n = n /\
   forall i, commitIndex n < i <= lastLogIndex n -> committable n i = false) \/
  exists c, commitIndex n < c <= lastLogIndex n /\ committable n c = true /\
    updateCommitIndex n = commit_at n c /\
    forall i, c < i <= lastLogIndex n -> committable n i = false.
Proof.
  intros Hl. unfold updateCommitIndex. rewrite bool_decide_eq_true_2 by done. simpl negb. cbv iota.
  fold (uncommitted n). change (foldl _ n (uncommitted n)) with (foldl commit_step n (uncommitted n)).
  rewrite commit_fold.
  assert (forall i, i ∈ uncommitted n <-> commitIndex n < i <= lastLogIndex n) as Hin.
  { intros i. unfold uncommitted. rewrite elem_of_seqZ. lia. }
  assert (StronglySorted Z.lt (uncommitted n)) as Hs by apply seqZ_StronglySorted.
  destruct (last _) as [c|] eqn:E.
  - right. exists c. apply last_Some in E as [l' E].
    assert (c ∈ filter (fun i => committable n i = true) (uncommitted n)) as Hc by (rewrite E; set_solver).
    rewrite list_elem_of_filter, Hin in Hc. destruct Hc. split_and!; try (done || lia).
    intros i Hi. destruct (committable n i) eqn:Ei; [|done].
    assert (i ∈ filter (fun i => committable n i = true) (uncommitted n)) as Hm.
    { rewrite list_elem_of_filter, Hin. split; [done|lia]. }
    assert (StronglySorted Z.lt (l' ++ [c])) as Hss by (rewrite <- E; by apply StronglySorted_filter).
    rewrite E, elem_of_app in Hm. destruct Hm as [Hm|Hm]; [|apply list_elem_of_singleton in Hm; lia].
    apply StronglySorted_app in Hss as (Hlt & _). specialize (Hlt i c Hm ltac:(set_solver)). lia.
  - left. apply last_None in E. split; [done|]. intros i Hi. destruct (committable n i) eqn:Ei; [|done].
    assert (i ∈ filter (fun i => committable n i = true) (uncommitted n)) as Hm.
    { rewrite list_elem_of_filter, Hin. split; [done|lia]. }
    rewrite E in Hm. by apply elem_of_nil in Hm.
Qed.

(** A set of members of [c] is a majority. *)
Definition majority (s c : Configuration) : Prop := s ⊆ c /\ Size c < 2 * Size s.

(** The members of [c] that store the log up to [i], the leader included. *)
Definition storers n (c : Configuration) (i : Z) : Configuration :=
  filter (fun m => m = id n \/ i <= default 0 (matchIndex n !! m)) c.







(** ** Applying *)

(** The committed entries that have not been applied. *)
Definition to_apply n : list LogEntry :=
  take (Z.to_nat (commitIndex n - lastApplied n)) (drop (Z.to_nat (lastApplied n + 1 - logOffset n)) (log n)).

Definition apply_entry (s : SM) (e : LogEntry) : SM :=
  match Type_ e with LogEntryNormal => (Apply s e).1 | _ => s end.

Definition apply_ok (s : SM) (e : LogEntry) : bool :=
  match Type_ e with LogEntryNormal => (Apply s e).2 | _ => true end.

(** The results published for a list of entries. *)
Fixpoint apply_results (s : SM) (es : list LogEntry) : list ApplyResult :=
  match es with
  | [] => []
  | e :: es => {| ar_Index := Index e; ar_Term := Term e; ar_Ok := apply_ok s e |}
                 :: apply_results (apply_entry s e) es
  end.

Definition publish (ch rs : list ApplyResult) : list ApplyResult :=
  ch ++ take (applyCap - length ch) rs.

Lemma publish_cons ch r rs :
  publish ch (r :: rs) = publish (if (length ch <? applyCap)%nat then ch ++ [r] else ch) rs.
Proof.
  unfold publish. destruct (Nat.ltb_spec (length ch) applyCap).
  - replace (applyCap - length ch)%nat with (S (applyCap - length (ch ++ [r])))%nat
      by (rewrite length_app; simpl; lia). simpl. by rewrite <- app_assoc.
  - replace (applyCap - length ch)%nat with 0%nat by lia. done.
Qed.

Definition applied_node n (k : nat) (es : list LogEntry) : RaftNode SM :=
  n <| lastApplied := lastApplied n + Z.of_nat k |> <| sm := foldl apply_entry (sm n) es |>
    <| applyCh := publish (applyCh n) (apply_results (sm n) es) |>.

Lemma apply_next_entry n e :
  getLogEntry n (lastApplied n + 1) = Some e -> apply_next n = applied_node n 1 [e].
Proof.
  intros He. unfold apply_next. change (getLogEntry (n <| lastApplied := _ |>) _)
    with (getLogEntry n (lastApplied n + 1)). rewrite He. unfold applied_node. simpl foldl.
  change (apply_results (sm n) [e]) with [{| ar_Index := Index e; ar_Term := Term e; ar_Ok := apply_ok (sm n) e |}].
  rewrite publish_cons. unfold apply_entry, apply_ok, send_applied.
  destruct (Type_ e); simpl; [destruct (Apply (sm n) e) as [s' ok]; simpl|..];
    unfold publish; simpl; rewrite take_nil, app_nil_r; by destruct (_ <? _)%nat.
Qed.

Lemma publish_app ch a b : publish (publish ch a) b = publish ch (a ++ b).
Proof.
  unfold publish. rewrite take_app, <- app_assoc, length_app, length_take. do 3 f_equal. lia.
Qed.

Lemma applied_node_step n e k es :
  applied_node (applied_node n 1 [e]) k es = applied_node n (S k) (e :: es).
Proof.
  transitivity (n <| lastApplied := lastApplied n + 1 + Z.of_nat k |>
    <| sm := foldl apply_entry (sm n) (e :: es) |>
    <| applyCh := publish (publish (applyCh n) (apply_results (sm n) [e])) (apply_results (apply_entry (sm n) e) es) |>);
    [reflexivity|].
  rewrite publish_app. unfold applied_node.
  replace (lastApplied n + 1 + Z.of_nat k) with (lastApplied n + Z.of_nat (S k)) by lia. reflexivity.
Qed.

Lemma applied_node_0 n : applied_node n 0 [] = n.
Proof.
  unfold applied_node, publish. rewrite Z.add_0_r. simpl apply_results. rewrite take_nil, app_nil_r.
  by destruct n.
Qed.

Lemma iter_apply k n :
  wf_log n -> logOffset n <= lastApplied n + 1 -> lastApplied n + Z.of_nat k <= lastLogIndex n ->
  Nat.iter k apply_next n =
    applied_node n k (take k (drop (Z.to_nat (lastApplied n + 1 - logOffset n)) (log n))).
Proof.
  revert n. induction k as [|k IH]; intros n Hwf Ho Hl.
  { symmetry. apply applied_node_0. }
  destruct (getLogEntry_Some n (lastApplied n + 1) Hwf) as (e & He & _); [lia|].
  rewrite Nat.iter_succ_r, (apply_next_entry n e He).
  rewrite getLogEntry_ge in He by lia. rewrite (drop_S _ _ _ He).
  assert (lastLogIndex (applied_node n 1 [e]) = lastLogIndex n) as El by done.
  rewrite IH; [|exact Hwf|simpl; lia|rewrite El; simpl; lia].
  rewrite applied_node_step. simpl take. do 3 f_equal. simpl. f_equal. lia.
Qed.

(** ** The node as a state machine *)

Inductive input :=
| InElectionTimeout
| InRequestVote (req : RequestVoteRequest)
| InVoteReply (originalTerm : Z) (voter : string) (reply : RequestVoteReply)
| InAppendEntries (req : AppendEntriesRequest)
| InAppendReply (target : string) (reply : AppendEntriesReply)
| InHeartbeat (term commit : Z) (target : string)
| InSnapshotDone
| InSnapshotReply (target : string) (reply : InstallSnapshotReply)
| InPropose (command : list Z)
| InAddNode (nodeID : string)
| InRemoveNode (nodeID : string)
| InCompact (index : Z)
| InApply
| InCommitReady
| InStart
| InStop
| InInstallSnapshot (req : InstallSnapshotRequest).

Definition node_step n (i : input) : RaftNode SM :=
  match i with
  | InElectionTimeout => (handleElectionTimeout n).1
  | InRequestVote req => (HandleRequestVote n req).1
  | InVoteReply t v r => handleRequestVoteReply n t v r
  | InAppendEntries req => (HandleAppendEntries n req).1
  | InAppendReply t r => handleAppendEntriesReply n t r
  | InHeartbeat term commit t => (heartbeat_for n term commit t).1
  | InSnapshotDone => heartbeat_snapshot_done n
  | InSnapshotReply t r => handleInstallSnapshotReply n t r
  | InPropose c => (Propose n c).1
  | InAddNode i => (AddNode n i).1
  | InRemoveNode i => (RemoveNode n i).1
  | InCompact i => (CompactLog n i).1
  | InApply => applyLoop_iteration n
  | InCommitReady => run_commitReady n
  | InStart => Start n
  | InStop => Stop n
  | InInstallSnapshot req => (HandleInstallSnapshot n req).1
  end.

(** The inputs the invariant is proved for: every one but a snapshot (see
    [snapshot_blocks_replication]) and a request that breaks a leader's promise. *)
Definition input_ok n (i : input) : Prop :=
  match i with
  | InAppendEntries req => request_ok n req
  | InInstallSnapshot _ => False
  | _ => True
  end.

(** The counters only go forward. *)
Definition forward n n' : Prop :=
  currentTerm n <= currentTerm n' /\ commitIndex n <= commitIndex n' /\ lastApplied n <= lastApplied n' /\
  logOffset n <= logOffset n'.

Definition ok_step n n' : Prop := node_inv n -> node_inv n' /\ forward n n'.

Lemma forward_refl n : forward n n.
Proof. unfold forward. lia. Qed.

Lemma forward_trans n1 n2 n3 : forward n1 n2 -> forward n2 n3 -> forward n1 n3.
Proof. unfold forward. lia. Qed.

Lemma ok_step_refl n : ok_step n n.
Proof. intros Hi. split; [done|apply forward_refl]. Qed.

Lemma ok_step_trans n1 n2 n3 : ok_step n1 n2 -> ok_step n2 n3 -> ok_step n1 n3.
Proof. intros H12 H23 Hi. destruct (H12 Hi) as [Hi2 F12]. destruct (H23 Hi2). eauto using forward_trans. Qed.

(** Steps that leave the log and the counters alone, but for the term. *)
Lemma ok_step_frame n n' :
  log n' = log n -> logOffset n' = logOffset n -> commitIndex n' = commitIndex n ->
  lastApplied n' = lastApplied n -> lastSnapshotIndex n' = lastSnapshotIndex n ->
  currentTerm n <= currentTerm n' -> ok_step n n'.
Proof.
  intros El Eo Ec Ea Es Ht Hi. split; [by eapply same_log_inv|]. unfold forward. lia.
Qed.

Lemma ok_step_append n e :
  Index e = lastLogIndex n + 1 -> Term e <= currentTerm n -> ok_step n (appendEntry n e).
Proof.
  intros He Ht [Hw Ho Hs Hc Ha HT]. split; [|unfold forward; simpl; lia].
  pose proof (wf_log_append n e Hw He) as Hw'. split; try done; simpl.
  - rewrite (wf_lastLogIndex _ Hw'). simpl. rewrite length_app. simpl.
    rewrite (wf_lastLogIndex _ Hw) in Hc. lia.
  - apply Forall_app. split; [done|]. by apply Forall_singleton.
Qed.

Lemma ok_step_commit n c : commitIndex n <= c <= lastLogIndex n -> ok_step n (commit_at n c).
Proof. intros Hc Hi. split; [by apply commit_at_inv|]. unfold forward. simpl. lia. Qed.

#[local] Hint Resolve ok_step_refl ok_step_frame ok_step_append ok_step_commit : go.

Ltac frame := apply ok_step_frame; try done; simpl; lia.

Lemma ok_becomeFollower n t : currentTerm n <= t -> ok_step n (becomeFollower n t).
Proof. intros. frame. Qed.

Lemma ok_becomeLeader n : ok_step n (becomeLeader n).
Proof. frame. Qed.

Lemma ok_checkElectionWin n : ok_step n (checkElectionWin n).
Proof.
  unfold checkElectionWin. destruct (negb _); [apply ok_step_refl|].
  destruct (joint n); destruct (_ <=? _); simpl; try destruct (_ <=? _); auto using ok_becomeLeader, ok_step_refl.
Qed.

Lemma ok_updateCommitIndex n : ok_step n (updateCommitIndex n).
Proof.
  destruct (decide (state n = Leader)) as [Hl|Hl].
  - destruct (updateCommitIndex_cases n Hl) as [[-> _]|(c & Hc & _ & -> & _)]; [apply ok_step_refl|].
    apply ok_step_commit. lia.
  - unfold updateCommitIndex. rewrite bool_decide_eq_false_2 by done. apply ok_step_refl.
Qed.

Lemma find_uncommitted n p i : List.find p (uncommitted n) = Some i -> commitIndex n < i <= lastLogIndex n.
Proof.
  intros H. apply List.find_some in H as [H _]. apply list_elem_of_In in H.
  unfold uncommitted in H. apply elem_of_seqZ in H. lia.
Qed.

Lemma find_uncommitted_rev n p i :
  List.find p (reverse (uncommitted n)) = Some i -> commitIndex n < i <= lastLogIndex n.
Proof.
  intros H. apply List.find_some in H as [H _]. apply list_elem_of_In in H.
  rewrite elem_of_reverse in H. unfold uncommitted in H. apply elem_of_seqZ in H. lia.
Qed.

Lemma ok_advance_joint n j : ok_step n (advance_joint n j).
Proof.
  unfold advance_joint. destruct (List.find _ _) as [i|] eqn:E; [|apply ok_step_refl].
  apply find_uncommitted in E. destruct (_ && _); [|apply ok_step_refl].
  rewrite (proj2 (Z.ltb_lt _ _)) by lia.
  eapply ok_step_trans; [by apply ok_step_commit with (c := i); lia|].
  apply ok_step_append; simpl; lia.
Qed.

Lemma ok_advance_new n j : ok_step n (advance_new n j).
Proof.
  unfold advance_new. destruct (List.find _ _) as [i|] eqn:E; [|apply ok_step_refl].
  apply find_uncommitted_rev in E. destruct (_ && _); [|apply ok_step_refl].
  rewrite (proj2 (Z.ltb_lt _ _)) by lia.
  eapply ok_step_trans; [by apply ok_step_commit with (c := i); lia|]. frame.
Qed.

Lemma ok_checkConfigProgress n : ok_step n (checkConfigProgress n).
Proof.
  unfold checkConfigProgress. destruct (joint n); [|apply ok_step_refl].
  destruct (negb _); [apply ok_step_refl|]. eapply ok_step_trans; [apply ok_advance_joint|apply ok_advance_new].
Qed.

Lemma apply_next_frame n :
  let n' := apply_next n in
  log n' = log n /\ logOffset n' = logOffset n /\ commitIndex n' = commitIndex n /\
  lastSnapshotIndex n' = lastSnapshotIndex n /\ currentTerm n' = currentTerm n /\
  lastApplied n' = lastApplied n + 1.
Proof.
  intros n'. subst n'. unfold apply_next. destruct (getLogEntry _ _) as [e|]; [|done].
  unfold send_applied. destruct (Type_ e); [destruct (Apply _ _)|..]; by destruct (_ <? _)%nat.
Qed.

Lemma ok_iter_apply k n :
  lastApplied n + Z.of_nat k <= commitIndex n -> ok_step n (Nat.iter k apply_next n).
Proof.
  revert n. induction k as [|k IH]; intros n Hk; [apply ok_step_refl|]. rewrite Nat.iter_succ_r.
  destruct (apply_next_frame n) as (El & Eo & Ec & Es & Et & Ea). set (n' := apply_next n) in *.
  eapply ok_step_trans; [|apply IH; lia]. intros [Hw Ho Hs Hc Ha HT].
  assert (lastLogIndex n' = lastLogIndex n) as Ell by (unfold lastLogIndex; by rewrite El, Eo).
  split; [|unfold forward; lia].
  split; [unfold wf_log|..]; rewrite ?Ell, ?El, ?Eo, ?Ec, ?Ea, ?Es, ?Et; try done. lia.
Qed.

Lemma ok_applyCommitted n : ok_step n (applyCommitted n).
Proof. intros Hi. apply ok_iter_apply; [|done]. pose proof (inv_applied _ Hi). lia. Qed.

Lemma ok_HandleAppendEntries n req : request_ok n req -> ok_step n (HandleAppendEntries n req).1.
Proof.
  intros Hr Hi. destruct (HandleAppendEntries n req) as [n' r] eqn:E. simpl. destruct (aer_Success r) eqn:Es.
  - destruct Hr as [Hw Hag Hre].
    destruct (HandleAppendEntries_appended n req n' r Hi Hw E Es) as [(Ht & Et & _) [Eo Ea] _ _ _ Hl _ _ _ Ec Hi'].
    assert (commitIndex n <= commitIndex n') by (rewrite Ec; destruct (Z.ltb_spec (commitIndex n) (ae_LeaderCommit req)); lia).
    split; [by apply Hi'|]. unfold forward. lia.
  - destruct (HandleAppendEntries_refused n req n' r Hi E Es) as (_ & Eo & Ec & Ea & Et & Hi').
    split; [done|]. unfold forward. lia.
Qed.

Lemma ok_HandleRequestVote n req : ok_step n (HandleRequestVote n req).1.
Proof.
  unfold HandleRequestVote. destruct (Z.ltb_spec (currentTerm n) (rv_Term req)).
  - eapply ok_step_trans; [apply (ok_becomeFollower n (rv_Term req)); lia|].
    destruct (_ <? _); [apply ok_step_refl|]. destruct (_ && _); [frame|apply ok_step_refl].
  - destruct (_ <? _); [apply ok_step_refl|]. destruct (_ && _); [frame|apply ok_step_refl].
Qed.

Lemma ok_handleRequestVoteReply n t v r : ok_step n (handleRequestVoteReply n t v r).
Proof.
  unfold handleRequestVoteReply. destruct (negb _); [apply ok_step_refl|].
  destruct (Z.ltb_spec (currentTerm n) (rvr_Term r)); [apply ok_becomeFollower; lia|].
  destruct (_ <? _); [apply ok_step_refl|].
  destruct (rvr_VoteGranted r); [|apply ok_checkElectionWin].
  eapply ok_step_trans; [|apply ok_checkElectionWin]. frame.
Qed.

Lemma ok_handleAppendEntriesReply n t r : ok_step n (handleAppendEntriesReply n t r).
Proof.
  unfold handleAppendEntriesReply. destruct (negb _); [apply ok_step_refl|].
  destruct (Z.ltb_spec (currentTerm n) (aer_Term r)); [apply ok_becomeFollower; lia|].
  destruct (_ <? _); [apply ok_step_refl|]. destruct (aer_Success r); [|frame].
  eapply ok_step_trans; [|apply ok_checkConfigProgress].
  eapply ok_step_trans; [|apply ok_updateCommitIndex]. frame.
Qed.

Lemma ok_handleInstallSnapshotReply n t r : ok_step n (handleInstallSnapshotReply n t r).
Proof.
  unfold handleInstallSnapshotReply. destruct (negb _); [apply ok_step_refl|].
  destruct (Z.ltb_spec (currentTerm n) (isr_Term r)); [apply ok_becomeFollower; lia|].
  destruct (_ <? _); [apply ok_step_refl|]. destruct (isr_Success r); [frame|apply ok_step_refl].
Qed.

Lemma ok_enter_joint n c : ok_step n (enter_joint n c).
Proof.
  unfold enter_joint. cbv zeta. set (n1 := n <| joint := _ |>).
  eapply ok_step_trans; [apply (ok_step_frame n n1); done|].
  eapply ok_step_trans; [apply (ok_step_append n1 (next_entry n1 LogEntryConfigJoint [])); simpl; done || lia|].
  frame.
Qed.

Lemma ok_CompactLog n i : ok_step n (CompactLog n i).1.
Proof.
  unfold CompactLog. destruct (Z.ltb_spec (commitIndex n) i); [apply ok_step_refl|].
  destruct (Z.leb_spec i (logOffset n)); [apply ok_step_refl|].
  destruct (getLogEntry n i) as [e|] eqn:He; [|apply ok_step_refl].
  intros [Hw Ho Hs Hc Ha HT]. pose proof (wf_lastLogIndex n Hw) as Hl.
  rewrite (proj2 (Z.ltb_lt _ _)) by lia. simpl. split; [|unfold forward; simpl; lia].
  set (n' := _ <| logOffset := i |>).
  assert (wf_log n') as Hw'.
  { destruct Hw as [_ Hw]. split; simpl.
    - intros E. apply (f_equal length) in E. rewrite length_drop in E. simpl in E. lia.
    - intros k x. rewrite lookup_drop. intros Hk. rewrite (Hw _ _ Hk). lia. }
  assert (lastLogIndex n' = lastLogIndex n) as El.
  { rewrite (wf_lastLogIndex _ Hw'). simpl. rewrite length_drop. lia. }
  split; try done; simpl; [lia| |by apply Forall_drop]. rewrite El. lia.
Qed.

Lemma ok_node_step n i : input_ok n i -> ok_step n (node_step n i).
Proof.
  destruct i; simpl; intros Hi; try done.
  - unfold handleElectionTimeout. destruct (_ || _); [apply ok_step_refl|].
    eapply ok_step_trans; [|apply ok_checkElectionWin]. frame.
  - apply ok_HandleRequestVote.
  - apply ok_handleRequestVoteReply.
  - by apply ok_HandleAppendEntries.
  - apply ok_handleAppendEntriesReply.
  - unfold heartbeat_for. destruct (_ <=? logOffset n); [frame|apply ok_step_refl].
  - frame.
  - apply ok_handleInstallSnapshotReply.
  - unfold Propose. repeat (destruct (_ : bool); [apply ok_step_refl|]). apply ok_step_append; simpl; [done|lia].
  - unfold AddNode. repeat (destruct (_ : bool); [apply ok_step_refl|]). apply ok_enter_joint.
  - unfold RemoveNode. repeat (destruct (_ : bool); [apply ok_step_refl|]). apply ok_enter_joint.
  - apply ok_CompactLog.
  - unfold applyLoop_iteration. destruct (negb _); [apply ok_step_refl|].
    destruct (_ <? _); [apply ok_applyCommitted|apply ok_step_refl].
  - frame.
  - unfold Start. destruct (running n); [apply ok_step_refl|frame].
  - unfold Stop. destruct (stopped n); [apply ok_step_refl|frame].
Qed.

(** Runs of a node: each input is acceptable in the state it meets. *)
Inductive node_run : RaftNode SM -> list input -> RaftNode SM -> Prop :=
| run_nil n : node_run n [] n
| run_cons n i l n' : input_ok n i -> node_run (node_step n i) l n' -> node_run n (i :: l) n'.

Lemma run_one n i : input_ok n i -> node_run n [i] (node_step n i).
Proof. intros Hi. econstructor; [done|]. constructor. Qed.

Lemma node_run_ok n l n' : node_run n l n' -> ok_step n n'.
Proof.
  induction 1 as [n|n i l n' Hi Hr IH]; [apply ok_step_refl|].
  eapply ok_step_trans; [by apply ok_node_step|done].
Qed.

Lemma NewRaftNode_inv i (s : SM) nodes : node_inv (NewRaftNode i s nodes).
Proof.
  split; simpl; try done; try (unfold lastLogIndex; simpl; lia).
  - split; [done|]. intros [|k] e He; simpl in He; by simplify_eq.
  - repeat constructor. simpl. lia.
Qed.

(** C4: a node's log stays well indexed and its counters only go forward.
    From the initial state, after any sequence of election timeouts, votes,
    requests and replies, proposals, membership changes, compactions and
    applications (snapshots apart, and requests to append that break a
    leader's promise, [request_ok]), the log holds consecutively numbered
    entries from its offset, of terms up to the current one, with
    [logOffset <= commitIndex <= lastLogIndex] and [lastApplied <= commitIndex];
    and from any of those states the term, the commit index, the applied index
    and the offset never decrease. *)
Theorem raft_node_invariant i (s : SM) nodes l1 n1 l2 n2 :
  node_run (NewRaftNode i s nodes) l1 n1 -> node_run n1 l2 n2 ->
  node_inv n1 /\ node_inv n2 /\ forward n1 n2.
Proof.
  intros H1 H2. destruct (node_run_ok _ _ _ H1 (NewRaftNode_inv i s nodes)) as [Hi1 _].
  by destruct (node_run_ok _ _ _ H2 Hi1).
Qed.

(** C2: what a successful reply to AppendEntries means, for any request whose
    entries are consecutive and of terms up to the request's.  The term was
    accepted; the log is the old one merged with the request (cut only at the
    first entry whose term disagrees); every entry of the request that is not
    below the log's offset is stored, up to equal terms, after an entry of
    [PrevLogTerm]; nothing that precedes the request is touched, nor anything
    committed that the request does not contradict; the commit index moves
    only when the leader's is higher, and then to the leader's, limited to what
    the request covers; and the node's invariant holds again if the request
    contradicts nothing committed and the commit index did not go back. *)
Theorem AppendEntries_success n req n' r :
  node_inv n -> well_formed req -> HandleAppendEntries n req = (n', r) -> aer_Success r = true ->
  appended n req n' r.
Proof. apply HandleAppendEntries_appended. Qed.


(** C31: application.  If nothing unapplied has been compacted away,
    [applyCommitted] applies exactly the committed entries after
    [lastApplied], once each and in log order (configuration entries leave the
    state machine alone), publishes one result per entry until the channel is
    full, and ends with [lastApplied = commitIndex]. *)
Theorem applyCommitted_in_order n :
  node_inv n -> logOffset n <= lastApplied n + 1 ->
  let n' := applyCommitted n in
  sm n' = foldl apply_entry (sm n) (to_apply n) /\
  applyCh n' = publish (applyCh n) (apply_results (sm n) (to_apply n)) /\
  lastApplied n' = commitIndex n /\ log n' = log n /\ commitIndex n' = commitIndex n /\
  Index <$> to_apply n = seqZ (lastApplied n + 1) (commitIndex n - lastApplied n).
Proof.
  intros Hi Ho n'. pose proof (inv_wf _ Hi) as Hw. pose proof (inv_commit _ Hi) as Hc.
  pose proof (inv_applied _ Hi) as Ha. pose proof (wf_lastLogIndex n Hw) as Hl. subst n'.
  unfold applyCommitted. rewrite iter_apply by (done || lia). fold (to_apply n). simpl.
  split_and!; try done; [lia|]. apply list_eq. intros k. rewrite list_lookup_fmap. unfold to_apply.
  destruct (decide (k < Z.to_nat (commitIndex n - lastApplied n))%nat) as [Hk|Hk].
  - rewrite lookup_take_lt, lookup_drop, lookup_seqZ_lt by lia.
    destruct (lookup_lt_is_Some_2 (log n) (Z.to_nat (lastApplied n + 1 - logOffset n) + k)) as [e He]; [lia|].
    rewrite He. simpl. destruct Hw as [_ Hw]. rewrite (Hw _ _ He). f_equal. lia.
  - rewrite lookup_take_ge, lookup_seqZ_ge by lia. done.
Qed.
End proofs.

(** ** Examples *)

Module Examples.

(** A state machine that records what is applied to it. *)
#[local] Instance trace_machine : StateMachine (list LogEntry) := {|
  Apply s e := (s ++ [e], true);
  ApplySnapshot s _ := Some [];
  TakeSnapshot s := Some [];
|}.

Definition e1 : LogEntry := {| Term := 1; Index := 1; Type_ := LogEntryNormal; Command := [7] |}.

Definition n0 : RaftNode (list LogEntry) := node_step (NewRaftNode "a" [] ["a"; "b"; "c"]) InStart.

Definition ae1 : AppendEntriesRequest :=
  {| ae_Term := 1; ae_LeaderID := "b"; ae_PrevLogIndex := 0; ae_PrevLogTerm := 0;
     ae_Entries := [e1]; ae_LeaderCommit := 1 |}.

Lemma n0_inv : node_inv n0.
Proof. apply (ok_step_frame (NewRaftNode "a" [] ["a"; "b"; "c"])); try done. apply NewRaftNode_inv. Qed.

Lemma ae1_ok : request_ok n0 ae1.
Proof.
  split; [split|..]; simpl; try lia.
  - intros [|k] e He; simpl in He; by simplify_eq.
  - repeat constructor. simpl. lia.
  - intros k e x He Hk. simpl in Hk. lia.
  - intros _. vm_compute. discriminate.
Qed.

Definition n1 : RaftNode (list LogEntry) := node_step n0 (InAppendEntries ae1).

Lemma raft_node_invariant_witness :
  node_inv n0 /\ node_inv n1 /\ forward n0 n1.
Proof.
  apply (raft_node_invariant "a" [] ["a"; "b"; "c"] [InStart] n0 [InAppendEntries ae1] n1).
  - exact (run_one _ InStart I).
  - exact (run_one n0 (InAppendEntries ae1) ae1_ok).
Defined.

Lemma AppendEntries_success_witness :
  appended n0 ae1 n1 (HandleAppendEntries n0 ae1).2 /\ log n1 = log n0 ++ [e1] /\ commitIndex n1 = 1.
Proof.
  split_and!; [|vm_compute; reflexivity|vm_compute; reflexivity].
  apply (AppendEntries_success n0 ae1 n1 (HandleAppendEntries n0 ae1).2);
    [exact n0_inv|exact (req_wf _ _ ae1_ok)|apply surjective_pairing|vm_compute; reflexivity].
Defined.



Lemma applyCommitted_in_order_witness :
  lastApplied n1 = 0 /\ sm (applyCommitted n1) = [e1] /\ lastApplied (applyCommitted n1) = 1.
Proof.
  split; [vm_compute; reflexivity|].
  destruct (applyCommitted_in_order n1) as (Hs & _ & Ha & _).
  - exact (proj1 (ok_node_step n0 (InAppendEntries ae1) ae1_ok n0_inv)).
  - vm_compute. discriminate.
  - rewrite Hs, Ha. split; vm_compute; reflexivity.
Defined.

(** A leader that is being removed still counts itself: here "a" leaves, and an
    entry is committed that of the two members of the new configuration only
    "b" stores. *)
Definition leaving : RaftNode (list LogEntry) :=
  let n := (handleElectionTimeout n0).1 in
  let n := handleRequestVoteReply n 1 "b" {| rvr_Term := 1; rvr_VoteGranted := true |} in
  let n := (RemoveNode (Propose n [7]).1 "a").1 in
  handleAppendEntriesReply n "b" {| aer_Term := 1; aer_Success := true; aer_MatchIndex := 1; aer_ConflictTerm := 0; aer_ConflictIndex := 0 |}.

Theorem removed_leader_counts_itself : exists j,
  state leaving = Leader /\ joint leaving = Some j /\ commitIndex leaving = 1 /\
  Size (New j) = 2 /\ Size (storers leaving (New j) 1) = 1 /\ ~ majority (storers leaving (New j) 1) (New j).
Proof.
  eexists. split; [vm_compute; reflexivity|]. split; [vm_compute; reflexivity|]. split_and!; try (vm_compute; reflexivity).
  intros [_ H]. vm_compute in H. discriminate H.
Qed.

(** A request that ends before what is committed, with a higher commit index,
    takes the commit index back. *)
Theorem commit_index_goes_back :
  let req := {| ae_Term := 1; ae_LeaderID := "b"; ae_PrevLogIndex := 0; ae_PrevLogTerm := 0; ae_Entries := []; ae_LeaderCommit := 2 |} in
  well_formed req /\ commitIndex n1 = 1 /\ commitIndex (node_step n1 (InAppendEntries req)) = 0.
Proof. split; [split; simpl; [lia|by intros k e|constructor]|]. split; vm_compute; reflexivity. Qed.

End Examples.
