(* ===== verification/RaftElection.v ===== *)
(** Raft across nodes: quorums, votes, a leader's requests and what a follower
    makes of them, and the traces that show where the protocol is broken. *)

From stdpp Require Import base tactics list gmap strings sorting sets fin_sets.
From Stdlib Require Import ZArith Lia.
From S2P Require Import Prelude RaftLog RaftProofs.

(** ** Quorums *)

Lemma majority_intersect (s1 s2 c : Configuration) :
  majority s1 c -> majority s2 c -> exists m, m ∈ s1 /\ m ∈ s2.
Proof.
  unfold majority, Size. intros [H1 Hs1] [H2 Hs2].
  destruct (set_choose_or_empty (s1 ∩ s2)) as [[m Hm]|Hd]; [exists m; set_solver|].
  assert (size (s1 ∪ s2) = size s1 + size s2)%nat as Hu by (apply size_union; set_solver).
  assert (size (s1 ∪ s2) <= size c)%nat by (apply subseteq_size; set_solver). lia.
Qed.

Section election.
Context {SM : Type} `{!StateMachine SM}.
Implicit Types (n l f : RaftNode SM).

(** ** Votes *)

(** The vote a step grants: its term and its candidate. *)
Definition vote_of n (i : input) : list (Z * string) :=
  match i with
  | InRequestVote req =>
      if rvr_VoteGranted (HandleRequestVote n req).2 then [(rv_Term req, rv_CandidateID req)] else []
  | _ => []
  end.

Fixpoint votes n (is_ : list input) : list (Z * string) :=
  match is_ with
  | [] => []
  | i :: is_ => vote_of n i ++ votes (node_step n i) is_
  end.

Definition not_timeout (i : input) : Prop :=
  match i with
  | InElectionTimeout => False
  | InRequestVote req => rv_CandidateID req <> ""
  | _ => True
  end.

(** Steps that are not votes keep a follower's vote until the term changes. *)
Definition keeps_vote n n' : Prop :=
  state n' = Follower /\
  ((currentTerm n' = currentTerm n /\ votedFor n' = votedFor n) \/ currentTerm n < currentTerm n').

Lemma keeps_same n n' :
  state n = Follower -> state n' = state n -> currentTerm n' = currentTerm n -> votedFor n' = votedFor n ->
  keeps_vote n n'.
Proof. intros Hs Es Et Ev. split; [congruence|]. left. done. Qed.

Lemma keeps_follower n t : currentTerm n < t -> keeps_vote n (becomeFollower n t).
Proof. intros. split; [done|]. right. done. Qed.

Lemma store_entries_frame n i es :
  state (store_entries n i es) = state n /\ currentTerm (store_entries n i es) = currentTerm n /\
  votedFor (store_entries n i es) = votedFor n /\ commitIndex (store_entries n i es) = commitIndex n.
Proof.
  revert n i. induction es as [|e es IH]; intros n i; [done|]. simpl.
  match goal with |- state (store_entries ?n' _ _) = _ /\ _ => destruct (IH n' (i + 1)) as (-> & -> & -> & ->) end.
  destruct (_ <=? _); [|done]. destruct (getLogEntry n i); [|done]. destruct (negb _); [|done].
  unfold truncateLog. destruct (_ <? logOffset n); [done|]. by destruct (_ <? _).
Qed.

Lemma iter_apply_frame k n :
  state (Nat.iter k apply_next n) = state n /\ currentTerm (Nat.iter k apply_next n) = currentTerm n /\
  votedFor (Nat.iter k apply_next n) = votedFor n.
Proof.
  induction k as [|k IH]; [done|]. simpl. destruct IH as (<- & <- & <-). generalize (Nat.iter k apply_next n).
  clear n. intros n. unfold apply_next. destruct (getLogEntry _ _) as [e|]; [|done].
  unfold send_applied. destruct (Type_ e); [destruct (Apply _ _)|..]; by destruct (_ <? _)%nat.
Qed.

Lemma keeps_HandleAppendEntries n req : state n = Follower -> keeps_vote n (HandleAppendEntries n req).1.
Proof.
  intros Hs. destruct (Z.lt_ge_cases (ae_Term req) (currentTerm n)).
  { unfold HandleAppendEntries.
    rewrite (proj2 (Z.ltb_ge (currentTerm n) _)), (proj2 (Z.ltb_lt (ae_Term req) _)) by lia.
    by apply keeps_same. }
  rewrite HandleAppendEntries_fresh by done. cbv zeta.
  assert (keeps_vote n (accept_term n req)) as Hk.
  { unfold accept_term. destruct (Z.ltb_spec (currentTerm n) (ae_Term req)).
    - simpl. split; [done|]. by right.
    - rewrite Hs. by apply keeps_same. }
  destruct (check_prev _ req) as [[t i]|]; [exact Hk|]. simpl.
  destruct (store_entries_frame (accept_term n req) (ae_PrevLogIndex req + 1) (ae_Entries req)) as (E1 & E2 & E3 & _).
  set (n2 := store_entries _ _ _) in *. unfold keeps_vote in *. rewrite <- E1, <- E2, <- E3 in Hk.
  unfold advance_commit. by destruct (_ <? _).
Qed.

Lemma keeps_step n i :
  state n = Follower -> not_timeout i -> (forall req, i <> InRequestVote req) -> keeps_vote n (node_step n i).
Proof.
  intros Hs Hnt Hnr. destruct i; simpl in *; try done; try (by apply keeps_same).
  - exfalso. by eapply Hnr.
  - unfold handleRequestVoteReply. rewrite Hs. by apply keeps_same.
  - by apply keeps_HandleAppendEntries.
  - unfold handleAppendEntriesReply. rewrite Hs. by apply keeps_same.
  - unfold heartbeat_for. destruct (_ <=? logOffset n); by apply keeps_same.
  - unfold handleInstallSnapshotReply. rewrite Hs. by apply keeps_same.
  - unfold Propose. rewrite Hs. destruct (0 <? _); by apply keeps_same.
  - unfold AddNode. rewrite Hs. by apply keeps_same.
  - unfold RemoveNode. rewrite Hs. by apply keeps_same.
  - unfold CompactLog. destruct (_ <? _); [by apply keeps_same|]. destruct (_ <=? _); [by apply keeps_same|].
    destruct (getLogEntry n _); by apply keeps_same.
  - unfold applyLoop_iteration. destruct (negb _); [by apply keeps_same|].
    destruct (_ <? _); [|by apply keeps_same].
    destruct (iter_apply_frame (Z.to_nat (commitIndex n - lastApplied n)) n) as (? & ? & ?). by apply keeps_same.
  - unfold Start. destruct (running n); by apply keeps_same.
  - unfold Stop. destruct (stopped n); by apply keeps_same.
  - unfold HandleInstallSnapshot. destruct (Z.ltb_spec (currentTerm n) (is_Term req)) as [Hlt|Hge].
    + change (currentTerm (becomeFollower n _)) with (is_Term req). rewrite Z.ltb_irrefl.
      destruct (_ <=? _); [by apply keeps_follower|].
      destruct (ApplySnapshot _ _); [|by apply keeps_follower].
      destruct (is_Config req); repeat destruct (_ <? _); simpl; (split; [done|right; exact Hlt]).
    + destruct (_ <? currentTerm n); [by apply keeps_same|]. destruct (_ <=? _); [by apply keeps_same|].
      destruct (ApplySnapshot _ _); [|by apply keeps_same].
      destruct (is_Config req); repeat destruct (_ <? _); simpl; by apply keeps_same.
Qed.

(** What a follower has promised: its votes of the current term are for
    [votedFor]. *)
Definition vote_inv n (hist : list (Z * string)) : Prop :=
  state n = Follower /\
  (forall t c, (t, c) ∈ hist -> c <> "" /\ t <= currentTerm n /\ (t = currentTerm n -> votedFor n = c)) /\
  (forall t c1 c2, (t, c1) ∈ hist -> (t, c2) ∈ hist -> c1 = c2).

Lemma keeps_vote_inv n n' hist : vote_inv n hist -> keeps_vote n n' -> vote_inv n' hist.
Proof.
  intros (Hs & Hh & Hu) [Hs' Hk]. split_and!; [done| |done]. intros t c Hin.
  destruct (Hh t c Hin) as (Hc & Ht & Hv). destruct Hk as [[Et Ev]|Hlt].
  - rewrite Et, Ev. done.
  - split_and!; [done|lia|lia].
Qed.

Lemma vote_inv_request n req hist :
  vote_inv n hist -> rv_CandidateID req <> "" ->
  vote_inv (HandleRequestVote n req).1 (hist ++ vote_of n (InRequestVote req)).
Proof.
  intros Hv Hc. unfold vote_of, HandleRequestVote.
  set (n1 := if currentTerm n <? rv_Term req then _ else n).
  assert (vote_inv n1 hist /\ rv_Term req <= currentTerm n1) as [Hv1 Ht1].
  { unfold n1. destruct (Z.ltb_spec (currentTerm n) (rv_Term req)).
    - split; [|done]. eapply keeps_vote_inv; [exact Hv|by apply keeps_follower].
    - split; [done|lia]. }
  clearbody n1. destruct (Z.ltb_spec (rv_Term req) (currentTerm n1)); [by rewrite app_nil_r|].
  destruct (_ && _) eqn:E; [|by rewrite app_nil_r]. simpl.
  assert (rv_Term req = currentTerm n1) as Et by lia.
  apply andb_true_iff in E as [E _]. apply orb_true_iff in E. rewrite !bool_decide_eq_true in E.
  destruct Hv1 as (Hs & Hh & Hu).
  assert (forall c, (currentTerm n1, c) ∈ hist -> c = rv_CandidateID req) as Hsame.
  { intros c Hin. destruct (Hh _ _ Hin) as (Hne & _ & Hvc). specialize (Hvc eq_refl). destruct E; congruence. }
  split_and!; [done|..].
  - intros t c. rewrite elem_of_app, list_elem_of_singleton. intros [Hin|[= -> ->]].
    + destruct (Hh t c Hin) as (Hne & Ht & _). split_and!; [done|done|]. intros ->. symmetry. by apply Hsame.
    + simpl. split_and!; [done|lia|done].
  - intros t c1 c2. rewrite !elem_of_app, !list_elem_of_singleton. rewrite Et.
    intros [H1|[= -> ->]] [H2|E2].
    + by eapply Hu.
    + injection E2 as -> ->. by apply Hsame.
    + symmetry. by apply Hsame.
    + by injection E2 as ->.
Qed.

Lemma votes_inv n is_ hist :
  vote_inv n hist -> Forall not_timeout is_ ->
  forall t c1 c2, (t, c1) ∈ hist ++ votes n is_ -> (t, c2) ∈ hist ++ votes n is_ -> c1 = c2.
Proof.
  revert n hist. induction is_ as [|i is_ IH]; intros n hist Hv Hnt.
  { simpl. rewrite app_nil_r. apply Hv. }
  apply Forall_cons in Hnt as [Hi Hnt]. simpl. rewrite app_assoc. apply IH; [|done].
  assert ((exists req, i = InRequestVote req) \/ (forall req, i <> InRequestVote req)) as [[req ->]|Hno]
    by (destruct i; eauto; by right).
  - by apply vote_inv_request.
  - assert (vote_of n i = []) as -> by (destruct i; try done; by destruct (Hno req)). rewrite app_nil_r.
    eapply keeps_vote_inv; [done|]. apply keeps_step; [apply Hv|done..].
Qed.

(** One vote per term.  A node that never starts an election grants, in
    each term, its vote to at most one candidate, whatever requests,
    replies, snapshots and client calls arrive in between. *)
Theorem follower_votes_once i (s : SM) nodes is_ t c1 c2 :
  Forall not_timeout is_ ->
  let vs := votes (NewRaftNode i s nodes) is_ in (t, c1) ∈ vs -> (t, c2) ∈ vs -> c1 = c2.
Proof.
  intros Hnt vs. apply (votes_inv _ is_ []); [|done]. split_and!; [done|..]; intros; set_solver.
Qed.

(** ** A leader's requests *)

Definition agree_up_to l f (c : Z) : Prop :=
  forall i x y, i <= c -> getLogEntry l i = Some x -> getLogEntry f i = Some y -> Term x = Term y.

Lemma prev_log_term_spec l p : wf_log l -> logOffset l <= p <= lastLogIndex l ->
  exists e, getLogEntry l p = Some e /\ prev_log_term l p = Term e.
Proof.
  intros Hw Hp. destruct (getLogEntry_Some l p Hw Hp) as (e & He & _). exists e. split; [done|].
  unfold prev_log_term. by rewrite (proj2 (Z.leb_le _ _)), He by lia.
Qed.

Lemma entries_from_lookup l nx k :
  wf_log l -> logOffset l <= nx -> entries_from l nx !! k = getLogEntry l (nx + Z.of_nat k).
Proof.
  intros Hw Hn. pose proof (wf_lastLogIndex l Hw) as Hl. rewrite getLogEntry_ge by lia.
  unfold entries_from. destruct (Z.leb_spec nx (lastLogIndex l)).
  - rewrite (proj2 (Z.leb_le _ _)), (proj2 (Z.ltb_lt _ _)) by lia. simpl. rewrite lookup_drop. f_equal. lia.
  - rewrite lookup_nil. symmetry. apply lookup_ge_None. lia.
Qed.

Lemma entries_from_length l nx :
  wf_log l -> logOffset l <= nx -> Z.of_nat (length (entries_from l nx)) = Z.max 0 (lastLogIndex l + 1 - nx).
Proof.
  intros Hw Hn. pose proof (wf_lastLogIndex l Hw) as Hl. unfold entries_from.
  destruct (Z.leb_spec nx (lastLogIndex l)); [|simpl; lia].
  rewrite (proj2 (Z.leb_le _ _)), (proj2 (Z.ltb_lt _ _)) by lia. simpl. rewrite length_drop. lia.
Qed.

(** What [heartbeat_for] sends keeps a leader's promise. *)
Lemma heartbeat_request_ok l f term commit target l' req :
  node_inv l -> currentTerm l <= term -> commit <= lastLogIndex l ->
  heartbeat_for l term commit target = (l', SendAppendEntries req) ->
  agree_up_to l f (commitIndex f) -> request_ok f req.
Proof.
  intros Hi Ht Hc Hh Hag. unfold heartbeat_for in Hh.
  set (nx := if default 0 (nextIndex l !! target) =? 0 then _ else _) in Hh.
  destruct (Z.leb_spec nx (logOffset l)); [by destruct (TakeSnapshot (sm l))|].
  injection Hh as <- <-. pose proof (inv_wf _ Hi) as Hw. pose proof (inv_offset _ Hi).
  split; [split|..]; unfold agrees, last_new; simpl; replace (nx - 1 + 1) with nx by lia.
  - lia.
  - intros k e. rewrite entries_from_lookup by (done || lia). intros He.
    by apply getLogEntry_range in He as [_ ?].
  - apply Forall_lookup. intros k e. rewrite entries_from_lookup by (done || lia). intros He.
    pose proof (inv_terms _ Hi) as HT. rewrite Forall_lookup in HT.
    rewrite getLogEntry_ge in He by lia. specialize (HT _ _ He). simpl in HT. lia.
  - intros k e x. rewrite entries_from_lookup by (done || lia). intros He Hk Hx.
    symmetry. by eapply Hag.
  - rewrite entries_from_length by (done || lia). lia.
Qed.

(** A successful round of replication.  If leader and follower agree on
    the entries the follower has committed and the follower accepts the
    request the leader builds for it, then from [prevLogIndex] to the end of
    the leader's log the follower's log has the leader's terms, the reported
    match index is the leader's last index (or the heartbeat's position when
    there was nothing to send), and nothing the follower had committed
    changes. *)
Theorem replication_round l f target l' req f' r :
  node_inv l -> node_inv f -> agree_up_to l f (commitIndex f) ->
  heartbeat_for l (currentTerm l) (commitIndex l) target = (l', SendAppendEntries req) ->
  HandleAppendEntries f req = (f', r) -> aer_Success r = true ->
  (forall i x, ae_PrevLogIndex req < i <= lastLogIndex l -> logOffset f <= i ->
     getLogEntry l i = Some x -> exists y, getLogEntry f' i = Some y /\ Term y = Term x) /\
  aer_MatchIndex r = Z.max (lastLogIndex l) (ae_PrevLogIndex req) /\
  (forall i, i <= commitIndex f -> getLogEntry f' i = getLogEntry f i) /\
  commitIndex f <= commitIndex f' <= Z.max (commitIndex f) (commitIndex l).
Proof.
  intros Hl Hf Hag Hh Hr Hs. pose proof (inv_commit _ Hl) as Hc. pose proof (inv_wf _ Hl) as Hw.
  assert (request_ok f req) as Hreq 
    by (apply (heartbeat_request_ok l f (currentTerm l) (commitIndex l) target l'); done || lia).
  destruct Hreq as [Hwf Hagr Hre].
  destruct (HandleAppendEntries_appended f req f' r Hf Hwf Hr Hs) as [_ _ _ Hm _ _ He _ Hk Ec _]. unfold last_new in *.
  unfold heartbeat_for in Hh.
  set (nx := if default 0 (nextIndex l !! target) =? 0 then _ else _) in Hh.
  destruct (Z.leb_spec nx (logOffset l)); [by destruct (TakeSnapshot (sm l))|].
  injection Hh as <- <-. simpl in *. rewrite entries_from_length in Hm, Ec, Hre by (done || lia).
  split_and!.
  - intros i x Hi Ho Hx.
    destruct (He (Z.to_nat (i - nx)) x) as (y & Hy & Ht).
    + rewrite entries_from_lookup by (done || lia). rewrite <- Hx. f_equal. lia.
    + lia.
    + exists y. split; [|done]. rewrite <- Hy. f_equal. lia.
  - lia.
  - intros i Hi. apply Hk. right. by split.
  - destruct (Z.ltb_spec (commitIndex f) (commitIndex l)); lia.
  - destruct (Z.ltb_spec (commitIndex f) (commitIndex l)); lia.
Qed.

(** ** After a snapshot *)

(** One exchange between a leader and a follower, without delay. *)
Definition exchange (target : string) (s : RaftNode SM * RaftNode SM) : RaftNode SM * RaftNode SM :=
  let '(l, f) := s in
  match heartbeat_for l (currentTerm l) (commitIndex l) target with
  | (l, SendAppendEntries req) =>
      let '(f, r) := HandleAppendEntries f req in (handleAppendEntriesReply l target r, f)
  | (l, _) => (l, f)
  end.

(** A follower restored from a snapshot at [L], and a leader that knows. *)
Record after_snapshot (target : string) (L : Z) l f : Prop := {
  as_L : 0 < L;
  as_leader : state l = Leader;
  as_next : nextIndex l !! target = Some (L + 1);
  as_offset : logOffset l <= L;
  as_terms : Forall (fun e => Term e <> 0) (log l);
  as_term : currentTerm f = currentTerm l;
  as_log : log f = [];
  as_flog : logOffset f = L;
}.

Lemma restored_refuses f req :
  log f = [] -> logOffset f = ae_PrevLogIndex req -> 0 < ae_PrevLogIndex req -> ae_Term req = currentTerm f ->
  exists f', HandleAppendEntries f req =
    (f', {| aer_Term := currentTerm f; aer_Success := false; aer_MatchIndex := 0;
            aer_ConflictTerm := 0; aer_ConflictIndex := ae_PrevLogIndex req + 1 |}) /\
    log f' = [] /\ logOffset f' = logOffset f /\ currentTerm f' = currentTerm f.
Proof.
  intros El Eo Hp Ht. rewrite HandleAppendEntries_fresh by lia. cbv zeta.
  destruct (accept_term_frame f req ltac:(lia)) as (Et & El1 & Eo1 & _). set (n1 := accept_term f req) in *.
  rewrite El in El1. rewrite Eo in Eo1.
  assert (lastLogIndex n1 = ae_PrevLogIndex req) as Ell by (unfold lastLogIndex; by rewrite El1).
  assert (getLogEntry n1 (ae_PrevLogIndex req) = None) as Eg.
  { rewrite getLogEntry_ge by lia. by rewrite El1. }
  assert (check_prev n1 req = Some (0, ae_PrevLogIndex req + 1)) as ->.
  { unfold check_prev. rewrite (proj2 (Z.eqb_neq _ _)), Eo1, Z.ltb_irrefl, Ell, Z.ltb_irrefl, Eg by lia.
    unfold conflict_index. rewrite Eo1, Z.sub_diag. done. }
  exists n1. split_and!; try done; congruence.
Qed.

Lemma retry_same l t L r :
  Forall (fun e => Term e <> 0) (log l) -> aer_ConflictTerm r = 0 -> aer_ConflictIndex r = L + 1 ->
  0 < L -> aer_Success r = false -> state l = Leader -> aer_Term r = currentTerm l ->
  handleAppendEntriesReply l t r = l <| nextIndex := <[t := L + 1]> (nextIndex l) |>.
Proof.
  intros HT Hc Hi HL Hs Hst Ht. unfold handleAppendEntriesReply.
  rewrite bool_decide_eq_true_2, Ht, Z.ltb_irrefl, Hs by done. simpl negb. cbv iota.
  assert (retry_index l r = L + 1) as ->.
  { unfold retry_index. rewrite Hc. simpl. destruct (List.find _ _) as [i|] eqn:E; [|done].
    apply List.find_some in E as [_ E]. destruct (getLogEntry l i) as [e|] eqn:He; [|done].
    unfold getLogEntry in He. destruct (i <? logOffset l); [done|].
    rewrite Forall_lookup in HT. specialize (HT _ _ He). bools. lia. }
  by rewrite (proj2 (Z.ltb_ge (L + 1) 1)) by lia.
Qed.

Lemma exchange_stuck target L l f :
  after_snapshot target L l f ->
  after_snapshot target L (exchange target (l, f)).1 (exchange target (l, f)).2.
Proof.
  intros [HL Hst Hnx Ho HT Ht El Eo]. unfold exchange, heartbeat_for. rewrite Hnx. simpl default.
  rewrite (proj2 (Z.eqb_neq (L + 1) 0)), (proj2 (Z.leb_gt (L + 1) _)) by lia.
  match goal with |- context [HandleAppendEntries f ?q] =>
    destruct (restored_refuses f q) as (f' & -> & El' & Eo' & Et') end; simpl; try done; [lia..|].
  replace (L + 1 - 1 + 1) with (L + 1) by lia.
  rewrite (retry_same l target L) by (done || simpl; congruence).
  split; try done; simpl; [|congruence..]. apply lookup_insert_eq.
Qed.

(** Replication never resumes after a snapshot.  A follower restored from
    a snapshot at index [L] keeps no entry at [L], so it refuses every request
    whose [PrevLogIndex] is [L], with a conflict index that makes the leader
    send the same request again: however many exchanges take place, the
    follower's log stays empty. *)
Theorem snapshot_blocks_replication target L l f k :
  after_snapshot target L l f ->
  log (Nat.iter k (exchange target) (l, f)).2 = [] /\
  nextIndex (Nat.iter k (exchange target) (l, f)).1 !! target = Some (L + 1).
Proof.
  intros H. assert (after_snapshot target L (Nat.iter k (exchange target) (l, f)).1
                      (Nat.iter k (exchange target) (l, f)).2) as [].
  { induction k as [|k IH]; [done|]. simpl. destruct (Nat.iter k _ _) as [l' f']. by apply exchange_stuck. }
  done.
Qed.

(** A snapshot leaves the follower in that state. *)
Lemma HandleInstallSnapshot_restores f req f' r :
  HandleInstallSnapshot f req = (f', r) -> isr_Success r = true ->
  lastSnapshotIndex f < is_LastIncludedIndex req ->
  log f' = [] /\ logOffset f' = is_LastIncludedIndex req /\ currentTerm f' = Z.max (currentTerm f) (is_Term req).
Proof.
  unfold HandleInstallSnapshot. intros Hh Hs Hlt. destruct (Z.ltb_spec (currentTerm f) (is_Term req)).
  - change (currentTerm (becomeFollower f _)) with (is_Term req) in Hh.
    change (lastSnapshotIndex (becomeFollower f _)) with (lastSnapshotIndex f) in Hh.
    rewrite Z.ltb_irrefl, (proj2 (Z.leb_gt _ _)) in Hh by lia.
    destruct (ApplySnapshot _ _); [|injection Hh as <- <-; discriminate Hs].
    destruct (is_Config req); repeat destruct (_ <? is_LastIncludedIndex req); injection Hh as <- <-;
      simpl; split_and!; done || lia.
  - destruct (Z.ltb_spec (is_Term req) (currentTerm f)); [injection Hh as <- <-; discriminate Hs|].
    rewrite (proj2 (Z.leb_gt _ _)) in Hh by lia.
    destruct (ApplySnapshot _ _); [|injection Hh as <- <-; discriminate Hs].
    destruct (is_Config req); repeat destruct (_ <? is_LastIncludedIndex req); injection Hh as <- <-;
      simpl; split_and!; done || lia.
Qed.

(** [run] puts the token back that it takes: the channel never drains and the
    select loop spins. *)
Lemma commitReady_never_drained n : commitReady (run_commitReady n) = true.
Proof. done. Qed.
End election.

(** ** Traces *)

Module Traces.

#[local] Existing Instance Examples.trace_machine.

Definition ids : list string := ["a"; "b"; "c"].
Definition boot (i : string) : RaftNode (list LogEntry) := Start (NewRaftNode i [] ids).

(** The candidate [c] asks [v] for its vote and handles the answer. *)
Definition ask (c v : RaftNode (list LogEntry)) : RaftNode (list LogEntry) * RaftNode (list LogEntry) :=
  let req := (startElection c).1 in
  let '(v, reply) := HandleRequestVote v req in
  (handleRequestVoteReply c (rv_Term req) (id v) reply, v).

Lemma follower_votes_once_witness :
  let req c := {| rv_Term := 1; rv_CandidateID := c; rv_LastLogIndex := 0; rv_LastLogTerm := 0; rv_IsConfig := false |} in
  let is_ := [InRequestVote (req "b"); InRequestVote (req "c"); InRequestVote (req "b")] in
  votes (NewRaftNode "a" [] ids) is_ = [(1, "b"); (1, "b")] /\
  forall c, (1, c) ∈ votes (NewRaftNode "a" [] ids) is_ -> c = "b".
Proof.
  intros req is_. split; [vm_compute; reflexivity|]. intros c Hc.
  apply (follower_votes_once "a" [] ids is_ 1 c "b"); [repeat constructor; discriminate|exact Hc|].
  apply list_elem_of_here.
Defined.

Definition leader_run : list input :=
  [InStart; InElectionTimeout; InVoteReply 1 "b" {| rvr_Term := 1; rvr_VoteGranted := true |}; InPropose [7]].

Definition leader_of (is_ : list input) : RaftNode (list LogEntry) :=
  foldl node_step (NewRaftNode "a" [] ids) is_.

Lemma leader_inv : node_inv (leader_of leader_run).
Proof.
  unfold leader_of, leader_run, foldl.
  do 4 (apply ok_node_step; [exact I|]). apply NewRaftNode_inv.
Qed.

Lemma boot_inv i : node_inv (boot i).
Proof. apply (ok_node_step (NewRaftNode i [] ids) InStart I), NewRaftNode_inv. Qed.

Definition first_request : AppendEntriesRequest :=
  {| ae_Term := 1; ae_LeaderID := "a"; ae_PrevLogIndex := 0; ae_PrevLogTerm := 0;
     ae_Entries := [Examples.e1]; ae_LeaderCommit := 0 |}.

Lemma replication_round_witness :
  let l := leader_of leader_run in
  heartbeat_for l (currentTerm l) (commitIndex l) "b" = (l, SendAppendEntries first_request) /\
  exists y, getLogEntry (HandleAppendEntries (boot "b") first_request).1 1 = Some y /\ Term y = 1.
Proof.
  intros l.
  assert (heartbeat_for l (currentTerm l) (commitIndex l) "b" = (l, SendAppendEntries first_request)) as Hh
    by (vm_compute; reflexivity).
  split; [exact Hh|].
  destruct (replication_round l (boot "b") "b" l first_request
    (HandleAppendEntries (boot "b") first_request).1 (HandleAppendEntries (boot "b") first_request).2)
    as [H _].
  - exact leader_inv.
  - exact (boot_inv "b").
  - intros i x y Hi Hx Hy. destruct (getLogEntry_range (boot "b") i y (inv_wf _ (boot_inv "b")) Hy) as [Hr _].
    change (0 <= i <= 0) in Hr. assert (i = 0) as -> by lia.
    vm_compute in Hx, Hy. congruence.
  - exact Hh.
  - apply surjective_pairing.
  - vm_compute. reflexivity.
  - apply (H 1 Examples.e1); vm_compute; [split; [reflexivity|discriminate]|discriminate|reflexivity].
Defined.

(** The transfer of a snapshot. *)
Definition snapshot_exchange (target : string) (s : RaftNode (list LogEntry) * RaftNode (list LogEntry))
    : RaftNode (list LogEntry) * RaftNode (list LogEntry) :=
  let '(l, f) := s in
  match heartbeat_for l (currentTerm l) (commitIndex l) target with
  | (l, SendInstallSnapshot req) =>
      let '(f, r) := HandleInstallSnapshot f req in
      (handleInstallSnapshotReply (heartbeat_snapshot_done l) target r, f)
  | (l, _) => (l, f)
  end.

(** "a" leads, entry 1 is committed with "b" and compacted, entry 2 is
    proposed; "c" joins late and is sent the snapshot (twice: the first reply
    carries the follower's old term and is ignored). *)
Definition late_follower : RaftNode (list LogEntry) * RaftNode (list LogEntry) :=
  let stored := {| aer_Term := 1; aer_Success := true; aer_MatchIndex := 1; aer_ConflictTerm := 0; aer_ConflictIndex := 0 |} in
  let l := leader_of (leader_run ++ [InAppendReply "b" stored; InCompact 1; InPropose [8]]) in
  Nat.iter 2 (snapshot_exchange "c") (l, boot "c").

Lemma late_follower_restored : after_snapshot "c" 1 late_follower.1 late_follower.2.
Proof.
  split; try (vm_compute; reflexivity); try (vm_compute; discriminate).
  vm_compute. repeat constructor; discriminate.
Qed.

Lemma snapshot_blocks_replication_witness :
  log late_follower.1 <> [] /\ log (Nat.iter 100 (exchange "c") late_follower).2 = [] /\
  nextIndex (Nat.iter 100 (exchange "c") late_follower).1 !! "c" = Some 2.
Proof.
  split; [vm_compute; discriminate|].
  rewrite (surjective_pairing late_follower).
  exact (snapshot_blocks_replication "c" 1 late_follower.1 late_follower.2 100 late_follower_restored).
Defined.

(** Two leaders in one term.  [becomeLeader] clears the node's vote, so a
    leader grants its vote to a second candidate of its own term.  "a" wins
    term 1 with the vote of "b"; "c", candidate of term 1 as well, asks "a",
    is granted the vote and wins term 1 too. *)
Theorem two_leaders_one_term :
  let a := (handleElectionTimeout (boot "a")).1 in
  let c := (handleElectionTimeout (boot "c")).1 in
  let '(a, b) := ask a (boot "b") in
  let '(c, a) := ask c a in
  state a = Leader /\ state c = Leader /\ currentTerm a = 1 /\ currentTerm c = 1 /\ votedFor b = "a".
Proof. vm_compute. repeat split. Qed.

(** A vote granted in an earlier election counts in a later one: "b" votes in
    term 1, its reply arrives when "a" is a candidate of term 2, and "a" leads
    term 2 although nobody else voted in it. *)
Theorem stale_vote_elects :
  let a1 := (handleElectionTimeout (boot "a")).1 in
  let '(b, reply) := HandleRequestVote (boot "b") (startElection a1).1 in
  let a2 := (handleElectionTimeout a1).1 in
  let a3 := handleRequestVoteReply a2 1 "b" reply in
  rvr_VoteGranted reply = true /\ currentTerm b = 1 /\
  state a2 = Candidate /\ currentTerm a2 = 2 /\ state a3 = Leader /\ currentTerm a3 = 2.
Proof. vm_compute. repeat split. Qed.

(** [CompactLog] accepts any index up to the commit index, applied or not: an
    entry that is committed, compacted and then "applied" never reaches the
    state machine. *)
Theorem compaction_skips_entries :
  let e2 := {| Term := 1; Index := 2; Type_ := LogEntryNormal; Command := [8] |} in
  let req := {| ae_Term := 1; ae_LeaderID := "b"; ae_PrevLogIndex := 0; ae_PrevLogTerm := 0;
                ae_Entries := [Examples.e1; e2]; ae_LeaderCommit := 2 |} in
  let n := (HandleAppendEntries (boot "a") req).1 in
  let '(n, err) := CompactLog n 2 in
  err = None /\ commitIndex n = 2 /\ lastApplied n = 0 /\
  sm (applyCommitted n) = [e2] /\ lastApplied (applyCommitted n) = 2.
Proof. vm_compute. repeat split. Qed.

End Traces.
