(* ===== verification/Saga.v ===== *)
(** Saga coordinator (src/internal/saga/saga.go).

    A step function runs in a world [W] of the caller's (the services it
    calls) and on the execution's data map; it returns an output, an error or
    panics.  [ctx] gives, for the i-th look at [ctx.Done()], the error of a
    cancelled context.  Executions and compensation failures are shared
    objects: the coordinator keeps executions by id, and failures in a store
    that [pendingInterventions] and [InterventionNotes] point into.  Times are
    not modelled, log details are structured instead of formatted. *)

From stdpp Require Import base tactics list gmap strings pretty.
From Stdlib Require Import ZArith Lia.
From S2P Require Import Prelude.

Section saga.
(** [V]: values of the data map, [E]: errors of step functions and contexts. *)
Context {W V E : Type}.

Inductive Error :=
| ErrSagaNotFound | ErrSagaAlreadyExists | ErrStepNotFound | ErrStepAlreadyExists | ErrSagaRunning
| ErrNoStepsRegistered | ErrInvalidStepID | ErrInterventionNotFound | ErrExecutionNotFound
| ErrForwardNil                        (* forward function cannot be nil *)
| StepError (e : E)                    (* returned by a step function *)
| StepPanic (e : E)                    (* saga: operation panicked *)
| ContextError (e : E)                 (* ctx.Err() *)
| ErrCompensationFailed (e : Error).   (* wraps the forward error *)

Inductive OperationStatus := StatusPending | StatusRunning | StatusSuccess | StatusFailed.
Inductive OperationType := OpTypeForward | OpTypeCompensation.

#[export] Instance OperationStatus_dec : EqDecision OperationStatus.
Proof. solve_decision. Defined.
#[export] Instance OperationType_dec : EqDecision OperationType.
Proof. solve_decision. Defined.

Abbreviation data_map := (gmap string V).

Inductive outcome := Returned (output : option V) | Failed (e : E) | Panicked (e : E).

Definition StepFunc := W -> data_map -> W * data_map * outcome.

Record Step := {
  step_ID : string;
  step_Name : string;
  ForwardFunc : StepFunc;
  CompensateFunc : option StepFunc;
}.

Record StepResult := {
  sr_StepID : string;
  sr_Status : OperationStatus;
  sr_Output : option V;
  sr_Error : option Error;
}.

(** What the [Details] strings say. *)
Inductive Details :=
| ExecutionStarted | ForwardCancelled | ExecutionFailed | ExecutionCompleted
| StepStarting (index : nat) (name : string)
| StepFailed (index : nat) (name : string)
| StepCompleted (index : nat) (name : string)
| CompensationStarting (name : string)
| CompensationFailedFor (name : string)
| CompensationCompleted (name : string)
| MarkedForIntervention (name : string).

Record LogEntry := {
  log_ID : Z;
  log_TransactionID : string;
  log_StepID : string;
  log_OperationType : OperationType;
  log_Status : OperationStatus;
  log_Error : option Error;
  log_Details : Details;
}.

Record CompensationFailure := {
  cf_TransactionID : string;
  cf_StepID : string;
  cf_ForwardStepID : string;
  cf_Error : option Error;
  Resolved : bool;
  ResolutionNotes : string;
}.

#[export] Instance CompensationFailure_eta : Eta CompensationFailure := fun r =>
  {| cf_TransactionID := cf_TransactionID r; cf_StepID := cf_StepID r;
     cf_ForwardStepID := cf_ForwardStepID r; cf_Error := cf_Error r; Resolved := Resolved r;
     ResolutionNotes := ResolutionNotes r |}.

Record Saga := { saga_ID : string; saga_Name : string; Steps : list Step; stepMap : gmap string Step }.

#[export] Instance Saga_eta : Eta Saga := fun s =>
  {| saga_ID := saga_ID s; saga_Name := saga_Name s; Steps := Steps s; stepMap := stepMap s |}.

(** [InterventionNotes] holds positions in the coordinator's failure store. *)
Record SagaExecution := {
  ex_ID : string;
  ex_SagaID : string;
  ex_Name : string;
  Status : OperationStatus;
  ex_Steps : list Step;
  StepResults : gmap string StepResult;
  Compensations : gmap string StepResult;
  Data : data_map;
  ex_Error : option Error;
  NeedsIntervention : bool;
  InterventionNotes : list nat;
}.

#[export] Instance SagaExecution_eta : Eta SagaExecution := fun e =>
  {| ex_ID := ex_ID e; ex_SagaID := ex_SagaID e; ex_Name := ex_Name e; Status := Status e;
     ex_Steps := ex_Steps e; StepResults := StepResults e; Compensations := Compensations e;
     Data := Data e; ex_Error := ex_Error e; NeedsIntervention := NeedsIntervention e;
     InterventionNotes := InterventionNotes e |}.

Record Coordinator := {
  nextLogID : Z;
  nextExecID : Z;
  sagas : gmap string Saga;
  executions : gmap string SagaExecution;
  logs : list LogEntry;
  logsByTransaction : gmap string (list LogEntry);
  failures : list CompensationFailure;          (* the store *)
  pendingInterventions : list nat;
  runningSagas : gset string;
}.

#[export] Instance Coordinator_eta : Eta Coordinator := fun c =>
  {| nextLogID := nextLogID c; nextExecID := nextExecID c; sagas := sagas c; executions := executions c;
     logs := logs c; logsByTransaction := logsByTransaction c; failures := failures c;
     pendingInterventions := pendingInterventions c; runningSagas := runningSagas c |}.

Definition NewCoordinator : Coordinator :=
  {| nextLogID := 0; nextExecID := 0; sagas := ∅; executions := ∅; logs := []; logsByTransaction := ∅;
     failures := []; pendingInterventions := []; runningSagas := ∅ |}.

(** ** Definitions of sagas *)

Definition NewSaga (c : Coordinator) (id name : string) : Coordinator * result Error Saga :=
  match sagas c !! id with
  | Some _ => (c, Err ErrSagaAlreadyExists)
  | None =>
      let saga := {| saga_ID := id; saga_Name := name; Steps := []; stepMap := ∅ |} in
      (c <| sagas := <[id := saga]> (sagas c) |>, Ok saga)
  end.

Definition AddStep (s : Saga) (id name : string) (forwardFunc compensateFunc : option StepFunc)
    : Saga * option Error :=
  if bool_decide (id = "") then (s, Some ErrInvalidStepID)
  else match stepMap s !! id with
  | Some _ => (s, Some ErrStepAlreadyExists)
  | None =>
      match forwardFunc with
      | None => (s, Some ErrForwardNil)
      | Some f =>
          let step := {| step_ID := id; step_Name := name; ForwardFunc := f; CompensateFunc := compensateFunc |} in
          (s <| Steps := Steps s ++ [step] |> <| stepMap := <[id := step]> (stepMap s) |>, None)
      end
  end.

(** [AddStep] on the saga object the coordinator holds. *)
Definition add_step (c : Coordinator) (sagaID id name : string) (f g : option StepFunc)
    : Coordinator * option Error :=
  match sagas c !! sagaID with
  | None => (c, Some ErrSagaNotFound)
  | Some s => let '(s, err) := AddStep s id name f g in (c <| sagas := <[sagaID := s]> (sagas c) |>, err)
  end.

Definition GetStep (s : Saga) (id : string) : result Error Step :=
  match stepMap s !! id with Some step => Ok step | None => Err ErrStepNotFound end.

Definition GetSaga (c : Coordinator) (id : string) : result Error Saga :=
  match sagas c !! id with Some s => Ok s | None => Err ErrSagaNotFound end.

Definition RemoveSaga (c : Coordinator) (id : string) : Coordinator * option Error :=
  match sagas c !! id with
  | None => (c, Some ErrSagaNotFound)
  | Some _ => (c <| sagas := delete id (sagas c) |>, None)
  end.

(** ** Running *)

Definition logOperation (c : Coordinator) (transactionID stepID : string) (opType : OperationType)
    (status : OperationStatus) (err : option Error) (details : Details) : Coordinator :=
  let entry := {| log_ID := nextLogID c + 1; log_TransactionID := transactionID; log_StepID := stepID;
                  log_OperationType := opType; log_Status := status; log_Error := err;
                  log_Details := details |} in
  c <| nextLogID := nextLogID c + 1 |> <| logs := logs c ++ [entry] |>
    <| logsByTransaction :=
         <[transactionID := default [] (logsByTransaction c !! transactionID) ++ [entry]]>
           (logsByTransaction c) |>.

(** A panic becomes an error. *)
Definition safeExecute (w : W) (fn : StepFunc) (data : data_map)
    : W * data_map * result Error (option V) :=
  match fn w data with
  | (w, data, Returned out) => (w, data, Ok out)
  | (w, data, Failed e) => (w, data, Err (StepError e))
  | (w, data, Panicked e) => (w, data, Err (StepPanic e))
  end.

Definition executeForward (c : Coordinator) (w : W) (ex : SagaExecution) (step : Step) (index : nat)
    : Coordinator * W * SagaExecution * StepResult :=
  let c := logOperation c (ex_ID ex) (step_ID step) OpTypeForward StatusRunning None
             (StepStarting index (step_Name step)) in
  match safeExecute w (ForwardFunc step) (Data ex) with
  | (w, data, Err err) =>
      (logOperation c (ex_ID ex) (step_ID step) OpTypeForward StatusFailed (Some err)
         (StepFailed index (step_Name step)),
       w, ex <| Data := data |>,
       {| sr_StepID := step_ID step; sr_Status := StatusFailed; sr_Output := None; sr_Error := Some err |})
  | (w, data, Ok out) =>
      (logOperation c (ex_ID ex) (step_ID step) OpTypeForward StatusSuccess None
         (StepCompleted index (step_Name step)),
       w, ex <| Data := data |>,
       {| sr_StepID := step_ID step; sr_Status := StatusSuccess; sr_Output := out; sr_Error := None |})
  end.

(** The loop of [Execute] over the steps. *)
Fixpoint forward_loop (ctx : nat -> option E) (c : Coordinator) (w : W) (ex : SagaExecution) (i : nat)
    (steps successfulSteps : list Step) : Coordinator * W * SagaExecution * list Step * option Error :=
  match steps with
  | [] => (c, w, ex, successfulSteps, None)
  | step :: steps =>
      match ctx i with
      | Some e =>
          (logOperation c (ex_ID ex) (step_ID step) OpTypeForward StatusFailed (Some (ContextError e)) ForwardCancelled,
           w, ex, successfulSteps, Some (ContextError e))
      | None =>
          let '(c, w, ex, r) := executeForward c w ex step i in
          let ex := ex <| StepResults := <[step_ID step := r]> (StepResults ex) |> in
          if bool_decide (sr_Status r = StatusSuccess) then
            let ex := match sr_Output r with
                      | Some out => ex <| Data := <[step_ID step := out]> (Data ex) |>
                      | None => ex
                      end in
            forward_loop ctx c w ex (S i) steps (successfulSteps ++ [step])
          else (c, w, ex, successfulSteps, sr_Error r)
      end
  end.

Definition executeCompensation (c : Coordinator) (w : W) (ex : SagaExecution) (step : Step) (fn : StepFunc)
    (compStepID : string) : Coordinator * W * SagaExecution * StepResult :=
  let c := logOperation c (ex_ID ex) compStepID OpTypeCompensation StatusRunning None
             (CompensationStarting (step_Name step)) in
  match safeExecute w fn (Data ex) with
  | (w, data, Err err) =>
      (logOperation c (ex_ID ex) compStepID OpTypeCompensation StatusFailed (Some err)
         (CompensationFailedFor (step_Name step)),
       w, ex <| Data := data |>,
       {| sr_StepID := compStepID; sr_Status := StatusFailed; sr_Output := None; sr_Error := Some err |})
  | (w, data, Ok _) =>
      (logOperation c (ex_ID ex) compStepID OpTypeCompensation StatusSuccess None
         (CompensationCompleted (step_Name step)),
       w, ex <| Data := data |>,
       {| sr_StepID := compStepID; sr_Status := StatusSuccess; sr_Output := None; sr_Error := None |})
  end.

Definition compensate_id (id : string) : string := id +:+ "-compensate".

(** The failure record of a compensation, shared by both lists. *)
Definition record_failure (c : Coordinator) (ex : SagaExecution) (step : Step) (r : StepResult)
    : Coordinator * SagaExecution :=
  let failure := {| cf_TransactionID := ex_ID ex; cf_StepID := compensate_id (step_ID step);
                    cf_ForwardStepID := step_ID step; cf_Error := sr_Error r;
                    Resolved := false; ResolutionNotes := "" |} in
  let addr := length (failures c) in
  let c := c <| failures := failures c ++ [failure] |>
             <| pendingInterventions := pendingInterventions c ++ [addr] |> in
  let ex := ex <| NeedsIntervention := true |> <| InterventionNotes := InterventionNotes ex ++ [addr] |> in
  (logOperation c (ex_ID ex) (compensate_id (step_ID step)) OpTypeCompensation StatusFailed (sr_Error r)
     (MarkedForIntervention (step_Name step)), ex).

(** The loop of [executeCompensations]; [steps] in the order of the loop. *)
Fixpoint compensate_loop (c : Coordinator) (w : W) (ex : SagaExecution) (steps : list Step)
    : Coordinator * W * SagaExecution :=
  match steps with
  | [] => (c, w, ex)
  | step :: steps =>
      match CompensateFunc step with
      | None => compensate_loop c w ex steps
      | Some fn =>
          let compStepID := compensate_id (step_ID step) in
          let '(c, w, ex, r) := executeCompensation c w ex step fn compStepID in
          let ex := ex <| Compensations := <[compStepID := r]> (Compensations ex) |> in
          let '(c, ex) := if bool_decide (sr_Status r = StatusFailed) then record_failure c ex step r else (c, ex) in
          compensate_loop c w ex steps
      end
  end.

Definition executeCompensations (c : Coordinator) (w : W) (ex : SagaExecution) (successfulSteps : list Step)
    : Coordinator * W * SagaExecution :=
  compensate_loop c w ex (reverse successfulSteps).

Definition execution_id (sagaID : string) (n : Z) : string := sagaID +:+ "-exec-" +:+ pretty n.

(** The first critical section of [Execute]. *)
Definition Execute_begin (c : Coordinator) (sagaID : string) (initialData : data_map)
    : result Error (Coordinator * Saga * SagaExecution) :=
  match sagas c !! sagaID with
  | None => Err ErrSagaNotFound
  | Some saga =>
      if bool_decide (Steps saga = []) then Err ErrNoStepsRegistered
      else if bool_decide (sagaID ∈ runningSagas c) then Err ErrSagaRunning
      else
        let execID := nextExecID c + 1 in
        let ex := {| ex_ID := execution_id sagaID execID; ex_SagaID := sagaID; ex_Name := saga_Name saga;
                     Status := StatusRunning; ex_Steps := Steps saga; StepResults := ∅; Compensations := ∅;
                     Data := initialData; ex_Error := None; NeedsIntervention := false;
                     InterventionNotes := [] |} in
        Ok (c <| runningSagas := {[sagaID]} ∪ runningSagas c |> <| nextExecID := execID |>
              <| executions := <[ex_ID ex := ex]> (executions c) |>, saga, ex)
  end.

(** From the first log line to the final status. *)
Definition Execute_body (ctx : nat -> option E) (c : Coordinator) (w : W) (ex : SagaExecution) (steps : list Step)
    : Coordinator * W * SagaExecution :=
  let c := logOperation c (ex_ID ex) "" OpTypeForward StatusRunning None ExecutionStarted in
  match forward_loop ctx c w ex 0 steps [] with
  | (c, w, ex, successfulSteps, Some err) =>
      let ex := ex <| Status := StatusFailed |> <| ex_Error := Some err |> in
      let c := logOperation c (ex_ID ex) "" OpTypeForward StatusFailed (Some err) ExecutionFailed in
      let '(c, w, ex) := executeCompensations c w ex successfulSteps in
      let ex := if NeedsIntervention ex then ex <| ex_Error := Some (ErrCompensationFailed err) |> else ex in
      (c, w, ex)
  | (c, w, ex, _, None) =>
      (logOperation c (ex_ID ex) "" OpTypeForward StatusSuccess None ExecutionCompleted,
       w, ex <| Status := StatusSuccess |>)
  end.

(** The end of [Execute], with its deferred function. *)
Definition Execute_end (c : Coordinator) (sagaID : string) (ex : SagaExecution) : Coordinator :=
  c <| executions := <[ex_ID ex := ex]> (executions c) |> <| runningSagas := runningSagas c ∖ {[sagaID]} |>.

Definition Execute (ctx : nat -> option E) (c : Coordinator) (w : W) (sagaID : string) (initialData : data_map)
    : Coordinator * W * result Error SagaExecution :=
  match Execute_begin c sagaID initialData with
  | Err e => (c, w, Err e)
  | Ok (c, saga, ex) =>
      let '(c, w, ex) := Execute_body ctx c w ex (Steps saga) in
      (Execute_end c sagaID ex, w, Ok ex)
  end.

(** ** Queries and interventions *)

Definition GetLogs (c : Coordinator) (transactionID : string) : result Error (list LogEntry) :=
  match logsByTransaction c !! transactionID with Some l => Ok l | None => Err ErrExecutionNotFound end.

Definition GetAllLogs (c : Coordinator) : list LogEntry := logs c.

Definition is_resolved (c : Coordinator) (addr : nat) : bool :=
  match failures c !! addr with Some f => Resolved f | None => true end.

Definition GetPendingInterventions (c : Coordinator) : list CompensationFailure :=
  omap (fun a => match failures c !! a with
                 | Some f => if Resolved f then None else Some f
                 | None => None end) (pendingInterventions c).

Definition GetExecution (c : Coordinator) (executionID : string) : result Error SagaExecution :=
  match executions c !! executionID with Some ex => Ok ex | None => Err ErrExecutionNotFound end.

Definition GetExecutionsBySaga (c : Coordinator) (sagaID : string) : list SagaExecution :=
  filter (fun ex => ex_SagaID ex = sagaID) (map_to_list (executions c)).*2.

(** Whether [ResolveIntervention]'s loop stops at this failure. *)
Definition matches (transactionID stepID : string) (f : CompensationFailure) : bool :=
  bool_decide (cf_TransactionID f = transactionID) && bool_decide (cf_StepID f = stepID) && negb (Resolved f).

Definition ResolveIntervention (c : Coordinator) (transactionID stepID notes : string)
    : Coordinator * option Error :=
  let hit a := match failures c !! a with Some f => matches transactionID stepID f | None => false end in
  match List.find hit (pendingInterventions c) with
  | None => (c, Some ErrInterventionNotFound)
  | Some a =>
      let c := c <| failures := alter (fun f => f <| Resolved := true |> <| ResolutionNotes := notes |>) a (failures c) |> in
      match executions c !! transactionID with
      | None => (c, None)
      | Some ex =>
          if forallb (is_resolved c) (InterventionNotes ex)
          then (c <| executions := <[transactionID := ex <| NeedsIntervention := false |> ]> (executions c) |>, None)
          else (c, None)
      end
  end.

End saga.
