(* ===== verification/SagaProofs.v ===== *)
(** Theorems about the saga coordinator (Saga.v). *)

From stdpp Require Import base tactics list gmap strings pretty sets.
From Stdlib Require Import ZArith Lia.
From S2P Require Import Prelude Saga.

Section proofs.
Context {W V E : Type}.
Implicit Types (c : @Coordinator W V E) (ex : @SagaExecution W V E) (s : @Step W V E) (w : W).

(** ** The trace of an execution *)

(** The steps a piece of the log says were started, completed and compensated. *)
Definition started (l : list (@LogEntry E)) : list string :=
  omap (fun e => match log_Details e with StepStarting _ _ => Some (log_StepID e) | _ => None end) l.

Definition completed (l : list (@LogEntry E)) : list string :=
  omap (fun e => match log_Details e with StepCompleted _ _ => Some (log_StepID e) | _ => None end) l.

Definition compensated (l : list (@LogEntry E)) : list string :=
  omap (fun e => match log_Details e with CompensationStarting _ => Some (log_StepID e) | _ => None end) l.

Lemma started_app a b : started (a ++ b) = started a ++ started b.
Proof. apply omap_app. Qed.
Lemma completed_app a b : completed (a ++ b) = completed a ++ completed b.
Proof. apply omap_app. Qed.
Lemma compensated_app a b : compensated (a ++ b) = compensated a ++ compensated b.
Proof. apply omap_app. Qed.

(** [c'] is [c] with the entries [new], all of transaction [tx], logged. *)
Record extends_log c (tx : string) (new : list LogEntry) c' : Prop := {
  ext_logs : logs c' = logs c ++ new;
  ext_tx : Forall (fun e => log_TransactionID e = tx) new;
  ext_next : nextLogID c' = nextLogID c + Z.of_nat (length new);
  ext_by_tx : default [] (logsByTransaction c' !! tx) = default [] (logsByTransaction c !! tx) ++ new;
}.

Lemma extends_nil c tx : extends_log c tx [] c.
Proof. split; rewrite ?app_nil_r; try done. simpl. lia. Qed.

Lemma extends_trans c1 c2 c3 tx a b :
  extends_log c1 tx a c2 -> extends_log c2 tx b c3 -> extends_log c1 tx (a ++ b) c3.
Proof.
  intros [E1 F1 N1 L1] [E2 F2 N2 L2].
  split; rewrite ?E2, ?E1, ?L2, ?L1, ?length_app, <- ?app_assoc; try done; [by apply Forall_app|lia].
Qed.

Definition new_entry c tx id op st err d : @LogEntry E :=
  {| log_ID := nextLogID c + 1; log_TransactionID := tx; log_StepID := id; log_OperationType := op;
     log_Status := st; log_Error := err; log_Details := d |}.

Lemma extends_log_op c tx id op st err d :
  extends_log c tx [new_entry c tx id op st err d] (logOperation c tx id op st err d).
Proof.
  split; simpl; try done; [by repeat constructor|]. by rewrite lookup_insert_eq.
Qed.

(** The parts of the coordinator that logging leaves alone. *)
Record same_registry c c' : Prop := {
  reg_sagas : sagas c' = sagas c;
  reg_executions : executions c' = executions c;
  reg_running : runningSagas c' = runningSagas c;
  reg_next : nextExecID c' = nextExecID c;
}.

Record same_failures c c' : Prop := {
  sf_failures : failures c' = failures c;
  sf_pending : pendingInterventions c' = pendingInterventions c;
}.

Record same_notes ex ex' : Prop := {
  sn_ID : ex_ID ex' = ex_ID ex;
  sn_notes : InterventionNotes ex' = InterventionNotes ex;
  sn_needs : NeedsIntervention ex' = NeedsIntervention ex;
}.

Implicit Types (steps acc succ : list (@Step W V E)) (err : option (@Error E)).

Definition forward_result s (r : result (@Error E) (option V)) : @StepResult V E :=
  match r with
  | Ok out => {| sr_StepID := step_ID s; sr_Status := StatusSuccess; sr_Output := out; sr_Error := None |}
  | Err e => {| sr_StepID := step_ID s; sr_Status := StatusFailed; sr_Output := None; sr_Error := Some e |}
  end.

Lemma executeForward_spec c w ex s i w' data r :
  safeExecute w (ForwardFunc s) (Data ex) = (w', data, r) ->
  exists c' new, executeForward c w ex s i = (c', w', ex <| Data := data |>, forward_result s r) /\
    same_registry c c' /\ same_failures c c' /\ extends_log c (ex_ID ex) new c' /\
    started new = [step_ID s] /\ compensated new = [] /\ completed new = (if is_ok r then [step_ID s] else []).
Proof.
  intros Hs. unfold executeForward. rewrite Hs. destruct r as [out|e]; eexists _, _; (split; [done|]);
    (split; [done|]); (split; [done|]); (split; [eapply extends_trans; apply extends_log_op|]); done.
Qed.

Record forward_spec c ex steps acc c' ex' succ err : Prop := {
  fw_trace : exists k new,
    succ = acc ++ take k steps /\ extends_log c (ex_ID ex) new c' /\
    completed new = step_ID <$> take k steps /\ compensated new = [] /\
    (exists k', (k <= k' <= S k)%nat /\ started new = step_ID <$> take k' steps) /\
    match err with None => k = length steps | Some _ => (k < length steps)%nat end;
  fw_registry : same_registry c c';
  fw_failures : same_failures c c';
  fw_notes : same_notes ex ex';
}.

Lemma same_registry_trans c1 c2 c3 : same_registry c1 c2 -> same_registry c2 c3 -> same_registry c1 c3.
Proof. intros [] []. split; congruence. Qed.

Lemma same_failures_trans c1 c2 c3 : same_failures c1 c2 -> same_failures c2 c3 -> same_failures c1 c3.
Proof. intros [] []. split; congruence. Qed.

Lemma same_notes_trans e1 e2 e3 : same_notes e1 e2 -> same_notes e2 e3 -> same_notes e1 e3.
Proof. intros [] []. split; congruence. Qed.

Lemma forward_loop_spec ctx c w ex i steps acc c' w' ex' succ err :
  forward_loop ctx c w ex i steps acc = (c', w', ex', succ, err) ->
  forward_spec c ex steps acc c' ex' succ err.
Proof.
  revert c w ex i acc. induction steps as [|s steps IH]; intros c w ex i acc H; simpl in H.
  { injection H as <- <- <- <- <-. split; try done. exists 0%nat, []. rewrite app_nil_r.
    split_and!; try done; [apply extends_nil|]. exists 0%nat. split; [lia|done]. }
  destruct (ctx i) as [e|].
  { injection H as <- <- <- <- <-. split; try done. eexists 0%nat, _. rewrite app_nil_r.
    split_and!; [done|apply extends_log_op|done..| |simpl; lia]. exists 0%nat. split; [lia|done]. }
  destruct (safeExecute w (ForwardFunc s) (Data ex)) as [[w1 data] r] eqn:Es.
  destruct (executeForward_spec c w ex s i w1 data r Es) as (c1 & new & Hx & Hr & Hf & Hl & H1 & H2 & H3).
  rewrite Hx in H. destruct r as [out|er]; simpl in H, H3.
  - apply IH in H as [(k & new' & -> & Hl' & Hc' & Hp' & (k' & Hk' & Hst') & Herr) Hr' Hf' Hn'].
    split; [|by eapply same_registry_trans|by eapply same_failures_trans|].
    + exists (S k), (new ++ new'). rewrite completed_app, compensated_app, started_app, H1, H2, H3, Hc', Hp', Hst'.
      split_and!; [by rewrite <- app_assoc| |done|done| |destruct err; simpl; lia].
      * eapply extends_trans; [exact Hl|]. by destruct out.
      * exists (S k'). split; [lia|done].
    + eapply same_notes_trans; [|exact Hn']. by destruct out.
  - injection H as <- <- <- <- <-. split; try done. exists 0%nat, new. rewrite app_nil_r.
    split_and!; [done..| |simpl; lia]. exists 1%nat. split; [lia|]. by rewrite H1.
Qed.

(** ** Compensation *)

Definition has_compensation s : Prop := is_Some (CompensateFunc s).

#[export] Instance has_compensation_dec s : Decision (has_compensation s).
Proof. unfold has_compensation. apply _. Defined.

Definition comp_result s (r : result (@Error E) (option V)) : @StepResult V E :=
  match r with
  | Ok _ => {| sr_StepID := compensate_id (step_ID s); sr_Status := StatusSuccess; sr_Output := None; sr_Error := None |}
  | Err e => {| sr_StepID := compensate_id (step_ID s); sr_Status := StatusFailed; sr_Output := None; sr_Error := Some e |}
  end.

Lemma executeCompensation_spec c w ex s fn w' data r :
  safeExecute w fn (Data ex) = (w', data, r) ->
  exists c' new, executeCompensation c w ex s fn (compensate_id (step_ID s))
      = (c', w', ex <| Data := data |>, comp_result s r) /\
    same_registry c c' /\ same_failures c c' /\ extends_log c (ex_ID ex) new c' /\
    started new = [] /\ completed new = [] /\ compensated new = [compensate_id (step_ID s)].
Proof.
  intros Hs. unfold executeCompensation. rewrite Hs. destruct r as [out|e]; eexists _, _; (split; [done|]);
    (split; [done|]); (split; [done|]); (split; [eapply extends_trans; apply extends_log_op|]); done.
Qed.

(** The failures a compensation adds: unresolved, of this transaction, and
    known to both the execution and the coordinator. *)
Record adds_failures c ex (new : list (@CompensationFailure E)) c' ex' : Prop := {
  af_failures : failures c' = failures c ++ new;
  af_pending : pendingInterventions c' = pendingInterventions c ++ seq (length (failures c)) (length new);
  af_notes : InterventionNotes ex' = InterventionNotes ex ++ seq (length (failures c)) (length new);
  af_needs : NeedsIntervention ex' = NeedsIntervention ex || (0 <? length new)%nat;
  af_new : Forall (fun f => cf_TransactionID f = ex_ID ex /\ Resolved f = false) new;
  af_ID : ex_ID ex' = ex_ID ex;
}.

Lemma adds_failures_nil c ex c' ex' : same_failures c c' -> same_notes ex ex' -> adds_failures c ex [] c' ex'.
Proof.
  intros [E1 E2] [E3 E4 E5]. split; rewrite ?E1, ?E2, ?E3, ?E4, ?E5, ?app_nil_r; try done. by rewrite orb_false_r.
Qed.

Lemma adds_failures_trans c1 ex1 a c2 ex2 b c3 ex3 :
  adds_failures c1 ex1 a c2 ex2 -> adds_failures c2 ex2 b c3 ex3 -> adds_failures c1 ex1 (a ++ b) c3 ex3.
Proof.
  intros [F1 P1 I1 N1 A1 X1] [F2 P2 I2 N2 A2 X2]. rewrite F1, length_app in *.
  split; rewrite ?F2, ?P2, ?P1, ?I2, ?I1, ?N2, ?N1, <- ?app_assoc, ?length_app, ?seq_app; try done.
  - by destruct a, b, (NeedsIntervention ex1).
  - rewrite X1 in A2. by apply Forall_app.
  - congruence.
Qed.

Lemma record_failure_spec c ex s r c' ex' :
  record_failure c ex s r = (c', ex') ->
  exists f e, same_registry c c' /\ extends_log c (ex_ID ex) [e] c' /\
    log_Details e = MarkedForIntervention (step_Name s) /\ adds_failures c ex [f] c' ex' /\
    Status ex' = Status ex /\ ex_Error ex' = ex_Error ex.
Proof.
  unfold record_failure. intros H. injection H as <- <-.
  eexists _, (new_entry c (ex_ID ex) (compensate_id (step_ID s)) OpTypeCompensation StatusFailed (sr_Error r)
                (MarkedForIntervention (step_Name s))).
  split; [done|]. split; [split; simpl; try done; [by repeat constructor|by rewrite lookup_insert_eq]|].
  split; [done|]. split; [|done]. split; simpl; try done; [by rewrite orb_true_r|]. by repeat constructor.
Qed.

#[local] Opaque record_failure.

Record compensate_spec c ex steps c' ex' : Prop := {
  cp_trace : exists new, extends_log c (ex_ID ex) new c' /\ started new = [] /\ completed new = [] /\
    compensated new = (fun s => compensate_id (step_ID s)) <$> filter has_compensation steps;
  cp_registry : same_registry c c';
  cp_failures : exists new, adds_failures c ex new c' ex';
  cp_status : Status ex' = Status ex /\ ex_Error ex' = ex_Error ex;
}.

Lemma compensate_loop_spec c w ex steps c' w' ex' :
  compensate_loop c w ex steps = (c', w', ex') -> compensate_spec c ex steps c' ex'.
Proof.
  revert c w ex. induction steps as [|s steps IH]; intros c w ex H; simpl in H.
  { injection H as <- <- <-. split; try done; [exists []; split; [apply extends_nil|done]|].
    exists []. by apply adds_failures_nil. }
  destruct (CompensateFunc s) as [fn|] eqn:Ec.
  2:{ apply IH in H as [(new & Hl & H1 & H2 & H3) Hr Hf Hs]. split; try done. exists new. split_and!; try done.
      rewrite filter_cons, decide_False; [done|]. unfold has_compensation. rewrite Ec. by intros []. }
  assert (has_compensation s) as Hc by (unfold has_compensation; rewrite Ec; by eexists).
  destruct (safeExecute w fn (Data ex)) as [[w1 data] r] eqn:Es.
  destruct (executeCompensation_spec c w ex s fn w1 data r Es) as (c1 & new & Hx & Hr & Hf & Hl & H1 & H2 & H3).
  rewrite Hx in H. destruct r as [out|er]; simpl in H.
  - apply IH in H as [(new' & Hl' & H1' & H2' & H3') Hr' (fs & Hf') Hs'].
    split; [|by eapply same_registry_trans| |done].
    + exists (new ++ new'). rewrite started_app, completed_app, compensated_app, H1, H2, H3, H1', H2', H3'.
      rewrite (filter_cons has_compensation), decide_True by done.
      split_and!; try done. by eapply extends_trans.
    + exists ([] ++ fs). eapply adds_failures_trans; [|exact Hf']. by apply adds_failures_nil.
  - destruct (record_failure c1 _ s _) as [c2 ex2] eqn:Er in H.
    apply record_failure_spec in Er as (f & e & Hr2 & Hl2 & Hd2 & Hf2 & Hs2). simpl in Hl2, Hf2.
    apply IH in H as [(new' & Hl' & H1' & H2' & H3') Hr' (fs & Hf') Hs'].
    assert (ex_ID ex2 = ex_ID ex) as Hid by apply Hf2. rewrite Hid in Hl'.
    split; [|eauto using same_registry_trans| |].
    + exists (new ++ [e] ++ new'). rewrite !started_app, !completed_app, !compensated_app, H1, H2, H3, H1', H2', H3'.
      unfold started, completed, compensated. simpl. rewrite Hd2, filter_cons, decide_True by done.
      split_and!; try done. eapply extends_trans; [exact Hl|]. by apply (extends_trans _ c2 _ _ [e]).
    + exists ([] ++ [f] ++ fs).
      eapply adds_failures_trans; [|by eapply adds_failures_trans]. by apply adds_failures_nil.
    + destruct Hs2, Hs'. simpl in *. split; congruence.
Qed.

(** ** What is run

    The effects of an execution on the world and on the data, independently of
    the loops and of the log. *)

(** The output of a step is kept in the data under its id. *)
Definition keep_output s (out : option V) (d : gmap string V) : gmap string V :=
  match out with Some v => <[step_ID s := v]> d | None => d end.

(** The forward functions of the steps run in order, and each returns. *)
Inductive forwards : list (@Step W V E) -> W -> gmap string V -> W -> gmap string V -> Prop :=
| forwards_nil w d : forwards [] w d w d
| forwards_cons s ss w d w1 d1 out w2 d2 :
    ForwardFunc s w d = (w1, d1, Returned out) -> forwards ss w1 (keep_output s out d1) w2 d2 -> forwards (s :: ss) w d w2 d2.

(** The execution stops before or in step [s], the [k]-th. *)
Inductive stops (ctx : nat -> option E) (k : nat) s w d : W -> gmap string V -> @Error E -> Prop :=
| stops_cancelled e : ctx k = Some e -> stops ctx k s w d w d (ContextError e)
| stops_failed w' d' e : ctx k = None -> ForwardFunc s w d = (w', d', Failed e) -> stops ctx k s w d w' d' (StepError e)
| stops_panicked w' d' e : ctx k = None -> ForwardFunc s w d = (w', d', Panicked e) -> stops ctx k s w d w' d' (StepPanic e).

(** Functions run one after the other, whatever they return. *)
Definition run_all (fs : list (@StepFunc W V E)) (wd : W * gmap string V) : W * gmap string V :=
  foldl (fun wd f => (f wd.1 wd.2).1) wd fs.

(** The first [k] steps complete; then either there are no more, or the
    execution stops and the compensations of these steps run, last first. *)
Definition ran (ctx : nat -> option E) steps w d (k : nat) (err : option (@Error E)) w' (d' : gmap string V) : Prop :=
  exists w1 d1, forwards (take k steps) w d w1 d1 /\ (forall j, (j < k)%nat -> ctx j = None) /\
    match err with
    | None => k = length steps /\ (w', d') = (w1, d1)
    | Some e => exists s w2 d2, steps !! k = Some s /\ stops ctx k s w1 d1 w2 d2 e /\
        (w', d') = run_all (omap CompensateFunc (reverse (take k steps))) (w2, d2)
    end.

Lemma forward_loop_effect ctx c w ex i steps acc c' w' ex' succ err :
  forward_loop ctx c w ex i steps acc = (c', w', ex', succ, err) ->
  exists k w1 d1, succ = acc ++ take k steps /\ (k <= length steps)%nat /\ forwards (take k steps) w (Data ex) w1 d1 /\
    (forall j, (j < k)%nat -> ctx (i + j)%nat = None) /\
    match err with
    | None => k = length steps /\ (w', Data ex') = (w1, d1)
    | Some e => exists s, steps !! k = Some s /\ stops ctx (i + k) s w1 d1 w' (Data ex') e
    end.
Proof.
  revert c w ex i acc. induction steps as [|s steps IH]; intros c w ex i acc Hl; simpl in Hl.
  { simplify_eq. exists 0%nat, w', (Data ex'). rewrite app_nil_r. split_and!; try done; [constructor|lia]. }
  destruct (ctx i) as [e|] eqn:Ei.
  { simplify_eq. exists 0%nat, w', (Data ex'). rewrite app_nil_r. split_and!; try done; [lia|constructor|lia|].
    exists s. split; [done|]. rewrite Nat.add_0_r. by constructor. }
  unfold executeForward, safeExecute in Hl. destruct (ForwardFunc s w (Data ex)) as [[w1 d1] o] eqn:Ef. destruct o as [out|e|e]; simpl in Hl.
  - apply IH in Hl as (k & w2 & d2 & -> & Hk & Hf & Hc & Herr).
    exists (S k), w2, d2. split_and!; [by rewrite <- app_assoc|simpl; lia| | |].
    + econstructor; [exact Ef|]. destruct out; exact Hf.
    + intros [|j] Hj; [by rewrite Nat.add_0_r|]. rewrite Nat.add_succ_r. apply (Hc j). lia.
    + destruct err; [|naive_solver]. destruct Herr as (s' & Hs' & Hst). exists s'. rewrite Nat.add_succ_r. done.
  - simplify_eq. exists 0%nat, w, (Data ex). rewrite app_nil_r. split_and!; try done; [lia|constructor|lia|].
    exists s. split; [done|]. rewrite Nat.add_0_r. by constructor.
  - simplify_eq. exists 0%nat, w, (Data ex). rewrite app_nil_r. split_and!; try done; [lia|constructor|lia|].
    exists s. split; [done|]. rewrite Nat.add_0_r. by constructor.
Qed.

Lemma record_failure_data c ex s r : Data (record_failure c ex s r).2 = Data ex.
Proof. done. Qed.

Lemma compensate_loop_effect c w ex steps c' w' ex' :
  compensate_loop c w ex steps = (c', w', ex') -> (w', Data ex') = run_all (omap CompensateFunc steps) (w, Data ex).
Proof.
  revert c w ex. induction steps as [|s steps IH]; intros c w ex Hl; simpl in Hl |- *; [by simplify_eq|].
  destruct (CompensateFunc s) as [fn|]; [|by eapply IH].
  unfold executeCompensation, safeExecute in Hl. unfold run_all. simpl.
  destruct (fn w (Data ex)) as [[w1 d1] o] eqn:Ef. simpl.
  destruct o as [out|e|e]; simpl in Hl; [by eapply IH in Hl|..];
    (destruct (record_failure _ _ s _) as [c2 ex2] eqn:Er; apply (f_equal (fun x => Data x.2)) in Er;
     rewrite record_failure_data in Er; simpl in Er; eapply IH in Hl; rewrite <- Er in Hl; exact Hl).
Qed.

(** ** A whole execution *)

Record body_spec (ctx : nat -> option E) c w ex steps c' w' ex' : Prop := {
  bd_trace : exists k new, extends_log c (ex_ID ex) new c' /\
    completed new = step_ID <$> take k steps /\
    (exists k', (k <= k' <= S k)%nat /\ started new = step_ID <$> take k' steps) /\
    ((Status ex' = StatusSuccess /\ ran ctx steps w (Data ex) k None w' (Data ex') /\ compensated new = []) \/
     (exists err : @Error E, Status ex' = StatusFailed /\ ran ctx steps w (Data ex) k (Some err) w' (Data ex') /\
      ex_Error ex' = Some (if NeedsIntervention ex' then ErrCompensationFailed err else err) /\
      compensated new = (fun s => compensate_id (step_ID s)) <$> filter has_compensation (reverse (take k steps))));
  bd_registry : same_registry c c';
  bd_failures : exists new, adds_failures c ex new c' ex' /\ (Status ex' = StatusSuccess -> new = []);
}.

Lemma log_op_registry c tx id op st err d : same_registry c (logOperation c tx id op st err d).
Proof. done. Qed.

Lemma log_op_failures c tx id op st err d : same_failures c (logOperation c tx id op st err d).
Proof. done. Qed.

#[local] Hint Resolve log_op_registry log_op_failures same_registry_trans same_failures_trans : go.

Lemma Execute_body_spec ctx c w ex steps c' w' ex' :
  Execute_body ctx c w ex steps = (c', w', ex') -> body_spec ctx c w ex steps c' w' ex'.
Proof.
  unfold Execute_body. intros H.
  pose proof (extends_log_op c (ex_ID ex) "" OpTypeForward StatusRunning None ExecutionStarted) as HL0.
  set (c0 := logOperation c (ex_ID ex) "" _ _ _ _) in *.
  destruct (forward_loop ctx c0 w ex 0 steps []) as [[[[c1 w1] ex1] succ] err] eqn:Ef.
  destruct (forward_loop_effect _ _ _ _ _ _ _ _ _ _ _ _ Ef) as (k0 & wa & da & Esucc & Hk0 & Hfw & Hctx & Hend).
  apply forward_loop_spec in Ef as [(k & new & -> & Hl & Hc & Hp & Hst & Herr) Hr Hf Hn].
  assert (k = k0) as <-.
  { apply (f_equal length) in Esucc. simpl in Esucc. rewrite !length_take in Esucc. destruct err; lia. }
  assert (ex_ID ex1 = ex_ID ex) as Hid by apply Hn.
  assert (same_registry c c1) as Hr1 by (eapply same_registry_trans; [|exact Hr]; done).
  assert (same_failures c c1) as Hf1 by (eapply same_failures_trans; [|exact Hf]; done).
  destruct err as [err|].
  - simpl app in H. pose proof (extends_log_op c1 (ex_ID ex1) "" OpTypeForward StatusFailed (Some err) ExecutionFailed) as HL1.
    change (ex_ID (ex1 <| Status := _ |> <| ex_Error := _ |>)) with (ex_ID ex1) in H.
    rewrite Hid in HL1, H. set (c2 := logOperation c1 (ex_ID ex) "" _ _ _ _) in *.
    destruct (executeCompensations c2 w1 _ (take k steps)) as [[c3 w3] ex3] eqn:Ec.
    pose proof (compensate_loop_effect _ _ _ _ _ _ _ Ec) as Heff. simpl in Heff.
    apply compensate_loop_spec in Ec as [(new' & Hl' & H1' & H2' & H3') Hr' (fs & Hfs) [Hs' He']].
    simpl in Hl', Hs', He'. rewrite Hid in Hl'. injection H as <- <- <-.
    assert (extends_log c (ex_ID ex) ([_] ++ new ++ [_] ++ new') c3) as HL
      by (eapply extends_trans; [exact HL0|]; eapply extends_trans; [exact Hl|]; by eapply extends_trans).
    split; [| |exists ([] ++ fs); split].
    + eexists k, _. split; [exact HL|].
      rewrite !completed_app, !started_app, !compensated_app, Hc, Hp, H1', H2', H3'.
      unfold completed, started, compensated. simpl. rewrite !app_nil_r. split; [done|]. split; [done|].
      right. exists err. destruct Hend as (s & Hs & Hstop).
      assert (ran ctx steps w (Data ex) k (Some err) w3 (Data ex3)) as Hran by (exists wa, da; split_and!; try done; by exists s, w1, (Data ex1)).
      destruct (NeedsIntervention ex3) eqn:En; simpl; rewrite ?Hs', ?He', ?En; done.
    + eapply same_registry_trans; [exact Hr1|]. eapply same_registry_trans; [|exact Hr']. done.
    + eapply adds_failures_trans; [|destruct (NeedsIntervention ex3); destruct Hfs; split; done].
      apply adds_failures_nil; [|by destruct Hn]. eapply same_failures_trans; [exact Hf1|done].
    + destruct (NeedsIntervention ex3); simpl; rewrite Hs'; discriminate.
  - injection H as <- <- <-. rewrite Hid.
    assert (extends_log c (ex_ID ex) ([_] ++ new ++ [_])
      (logOperation c1 (ex_ID ex) "" OpTypeForward StatusSuccess None ExecutionCompleted)) as HL
      by (eapply extends_trans; [exact HL0|]; eapply extends_trans; [exact Hl|]; apply extends_log_op).
    split; [| |exists []; split; [|done]].
    + eexists k, _. split; [exact HL|].
      rewrite !completed_app, !started_app, !compensated_app, Hc, Hp.
      unfold completed, started, compensated. simpl. rewrite !app_nil_r. split; [done|]. split; [done|]. left.
      split; [done|]. split; [|done]. by exists wa, da.
    + eapply same_registry_trans; [exact Hr1|done].
    + apply adds_failures_nil; [|by destruct Hn]. eapply same_failures_trans; [exact Hf1|done].
Qed.

Lemma Execute_cases ctx c w sagaID init c' w' ex :
  Execute ctx c w sagaID init = (c', w', Ok ex) ->
  exists saga c1 c2 ex0, Execute_begin c sagaID init = Ok (c1, saga, ex0) /\
    sagas c !! sagaID = Some saga /\ sagaID ∉ runningSagas c /\
    Execute_body ctx c1 w ex0 (Steps saga) = (c2, w', ex) /\ c' = Execute_end c2 sagaID ex /\
    logs c1 = logs c /\ failures c1 = failures c /\ pendingInterventions c1 = pendingInterventions c /\
    executions c1 = <[ex_ID ex0 := ex0]> (executions c) /\ runningSagas c1 = {[sagaID]} ∪ runningSagas c /\
    InterventionNotes ex0 = [] /\ NeedsIntervention ex0 = false.
Proof.
  unfold Execute. intros H. destruct (Execute_begin c sagaID init) as [[[c1 saga] ex0]|] eqn:Eb; [|done].
  destruct (Execute_body ctx c1 w ex0 (Steps saga)) as [[c2 w2] ex2] eqn:Ed. injection H as <- <- <-.
  exists saga, c1, c2, ex0. unfold Execute_begin in Eb. destruct (sagas c !! sagaID) as [saga'|] eqn:Es; [|done].
  destruct (bool_decide (Steps saga' = [])); [done|].
  destruct (bool_decide (sagaID ∈ runningSagas c)) eqn:Er; [done|]. bools.
  injection Eb as <- <- <-. done.
Qed.

(** C8: forward in order, back in reverse.  An execution runs the forward
    functions of a prefix of the saga's steps, in order, each on the world and
    the data that the one before left, with its output kept in the data.  If
    that is all of them, it succeeds and nothing else is run.  Otherwise it
    stops at the next step, for a cancelled context, an error or a panic, and
    fails with that error; then exactly the compensations of the completed
    steps that have one are run, each once, last completed step first, whether
    or not earlier ones fail.  The log tells the same under the execution's id,
    and the saga can be run again afterwards. *)
Theorem saga_runs_and_compensates ctx c w sagaID init c' w' ex saga :
  sagas c !! sagaID = Some saga -> Execute ctx c w sagaID init = (c', w', Ok ex) ->
  (exists k new, logs c' = logs c ++ new /\ Forall (fun e => log_TransactionID e = ex_ID ex) new /\
    completed new = step_ID <$> take k (Steps saga) /\
    (exists k', (k <= k' <= S k)%nat /\ started new = step_ID <$> take k' (Steps saga)) /\
    ((Status ex = StatusSuccess /\ ran ctx (Steps saga) w init k None w' (Data ex) /\ compensated new = []) \/
     (exists err : @Error E, Status ex = StatusFailed /\ ran ctx (Steps saga) w init k (Some err) w' (Data ex) /\
      ex_Error ex = Some (if NeedsIntervention ex then ErrCompensationFailed err else err) /\
      compensated new =
        (fun s => compensate_id (step_ID s)) <$> filter has_compensation (reverse (take k (Steps saga)))))) /\
  runningSagas c' = runningSagas c.
Proof.
  intros Hsaga H. apply Execute_cases in H as
    (saga' & c1 & c2 & ex0 & Hbeg & Hs & Hnr & Hb & -> & El & _ & _ & _ & Er & _). simplify_eq.
  assert (Data ex0 = init) as Hd by (unfold Execute_begin in Hbeg; repeat case_match; by simplify_eq).
  apply Execute_body_spec in Hb as [(k & new & HL & Hc & Hst & Hend) Hr (fs & Hfs & _)].
  assert (ex_ID ex = ex_ID ex0) as Hid by apply Hfs. rewrite Hd in Hend. split.
  - exists k, new. rewrite Hid, <- El. destruct HL as [HL HF _ _]. done.
  - unfold Execute_end. simpl. rewrite (reg_running _ _ Hr), Er. set_solver.
Qed.

(** ** Atomicity *)

(** The compensation of [s] undoes its forward function, whatever the data. *)
Definition undoes s : Prop := forall w d w1 d1 out,
  ForwardFunc s w d = (w1, d1, Returned out) ->
  exists g, CompensateFunc s = Some g /\ forall d', exists d'' out', g w1 d' = (w, d'', Returned out').

(** A forward function that fails leaves the world as it was. *)
Definition clean_failure s : Prop := forall w d w1 d1 e,
  ForwardFunc s w d = (w1, d1, Failed e) \/ ForwardFunc s w d = (w1, d1, Panicked e) -> w1 = w.

(** Compensating [rs], in this order, leads from [w] to [w0]. *)
Fixpoint undoable (rs : list (@Step W V E)) w (w0 : W) : Prop :=
  match rs with
  | [] => w = w0
  | s :: rs => exists g wm, CompensateFunc s = Some g /\
      (forall d, exists d' out, g w d = (wm, d', Returned out)) /\ undoable rs wm w0
  end.

Lemma compensate_undoes rs c w ex c' w' ex' w0 :
  undoable rs w w0 -> compensate_loop c w ex rs = (c', w', ex') ->
  w' = w0 /\ NeedsIntervention ex' = NeedsIntervention ex.
Proof.
  revert c w ex. induction rs as [|s rs IH]; intros c w ex Hu H; simpl in Hu, H.
  { by injection H as <- <- <-. }
  destruct Hu as (g & wm & Hg & Hw & Hu). rewrite Hg in H.
  destruct (Hw (Data ex)) as (d' & out & Hr). unfold executeCompensation, safeExecute in H. rewrite Hr in H.
  simpl in H. by apply IH in H.
Qed.

Lemma forward_undoable ctx c w ex i steps acc c' w' ex' succ err w0 :
  forward_loop ctx c w ex i steps acc = (c', w', ex', succ, err) ->
  Forall undoes steps -> Forall clean_failure steps ->
  undoable (reverse acc) w w0 -> undoable (reverse succ) w' w0.
Proof.
  revert c w ex i acc. induction steps as [|s steps IH]; intros c w ex i acc H Hun Hcl Hu; simpl in H.
  { by injection H as <- <- <- <- <-. }
  apply Forall_cons in Hun as [Hs Hun], Hcl as [Hk Hcl].
  destruct (ctx i); [by injection H as <- <- <- <- <-|].
  unfold executeForward, safeExecute in H.
  destruct (ForwardFunc s w (Data ex)) as [[w1 d1] [out|e|e]] eqn:Ef; simpl in H.
  - eapply IH in H; [done..|]. rewrite reverse_snoc. simpl.
    destruct (Hs _ _ _ _ _ Ef) as (g & Hg & Hgu). eauto.
  - injection H as <- <- <- <- <-. rewrite (Hk w (Data ex) w1 d1 e); auto.
  - injection H as <- <- <- <- <-. rewrite (Hk w (Data ex) w1 d1 e); auto.
Qed.

(** C32: a failed saga leaves no trace.  If the compensation of every step
    undoes the step and a failing step changes nothing, then an execution that
    fails (by an error, a panic or a cancelled context, at any step) ends in
    the world it started from, without calling for intervention. *)
Theorem saga_atomic ctx c w sagaID init c' w' ex saga :
  sagas c !! sagaID = Some saga -> Forall undoes (Steps saga) -> Forall clean_failure (Steps saga) ->
  Execute ctx c w sagaID init = (c', w', Ok ex) -> Status ex = StatusFailed ->
  w' = w /\ NeedsIntervention ex = false.
Proof.
  intros Hsaga Hun Hcl H Hst. apply Execute_cases in H as
    (saga' & c1 & c2 & ex0 & _ & Hs & _ & Hb & _ & _ & _ & _ & _ & _ & _ & Hne). simplify_eq.
  unfold Execute_body in Hb.
  destruct (forward_loop _ _ w ex0 0 (Steps saga) []) as [[[[c3 w3] ex3] succ] err] eqn:Ef.
  pose proof (forward_loop_spec _ _ _ _ _ _ _ _ _ _ _ _ Ef) as [_ _ _ Hn].
  apply (forward_undoable _ _ _ _ _ _ _ _ _ _ _ _ w) in Ef; [|done..].
  destruct err as [err|]; [|injection Hb as <- <- <-; discriminate Hst].
  destruct (executeCompensations _ w3 _ succ) as [[c4 w4] ex4] eqn:Ec.
  apply (compensate_undoes _ _ _ _ _ _ _ w) in Ec as [-> Hi]; [|done].
  simpl in Hi. rewrite (sn_needs _ _ Hn), Hne in Hi. rewrite Hi in Hb. by injection Hb as <- <- <-.
Qed.

(** ** Interventions *)

Definition unresolved c (a : nat) : bool := negb (is_resolved c a).

(** The flag of every execution tells whether one of its failures is open,
    and its failures are its own and known to the coordinator. *)
Definition flags_ok c : Prop := forall id ex,
  executions c !! id = Some ex ->
  NeedsIntervention ex = existsb (unresolved c) (InterventionNotes ex) /\
  Forall (fun a => a ∈ pendingInterventions c /\
                   exists f, failures c !! a = Some f /\ cf_TransactionID f = id) (InterventionNotes ex).

(** Adding failures does not affect the old ones. *)
Lemma flags_frame c c' fs ps :
  flags_ok c -> failures c' = failures c ++ fs -> pendingInterventions c' = pendingInterventions c ++ ps ->
  executions c' = executions c -> flags_ok c'.
Proof.
  intros Hok Ef Ep Ee id ex. rewrite Ee. intros Hex. destruct (Hok id ex Hex) as [Hn HF].
  assert (Forall (fun a => unresolved c' a = unresolved c a) (InterventionNotes ex)) as Hsame.
  { eapply Forall_impl; [exact HF|]. intros a (_ & f & Hf & _). unfold unresolved, is_resolved.
    by rewrite Ef, (lookup_app_l_Some _ _ _ _ Hf), Hf. }
  split.
  - rewrite Hn. clear -Hsame. induction Hsame as [|a l Ha _ IH]; [done|]. simpl. by rewrite Ha, IH.
  - eapply Forall_impl; [exact HF|]. intros a (Hp & f & Hf & Ht). rewrite Ep, Ef.
    split; [set_solver|]. exists f. split; [by apply lookup_app_l_Some|done].
Qed.

Lemma flags_insert c id ex :
  flags_ok c -> NeedsIntervention ex = existsb (unresolved c) (InterventionNotes ex) ->
  Forall (fun a => a ∈ pendingInterventions c /\
                   exists f, failures c !! a = Some f /\ cf_TransactionID f = id) (InterventionNotes ex) ->
  forall c', failures c' = failures c -> pendingInterventions c' = pendingInterventions c ->
  executions c' = <[id := ex]> (executions c) -> flags_ok c'.
Proof.
  intros Hok Hn HF c' Ef Ep Ee j ex'. rewrite Ee. unfold unresolved, is_resolved. rewrite Ef, Ep.
  destruct (decide (j = id)) as [->|Hne].
  - rewrite lookup_insert_eq. intros [= <-]. done.
  - rewrite lookup_insert_ne by done. apply Hok.
Qed.

Lemma existsb_new c (fs : list CompensationFailure) c' :
  failures c' = failures c ++ fs -> Forall (fun f => Resolved f = false) fs ->
  existsb (unresolved c') (seq (length (failures c)) (length fs)) = (0 <? length fs)%nat.
Proof.
  intros Ef HF. destruct fs as [|f fs]; [done|]. simpl. apply Forall_cons in HF as [Hf _].
  unfold unresolved at 1, is_resolved. rewrite Ef, list_lookup_middle by done. by rewrite Hf.
Qed.

Lemma Execute_flags ctx c w sagaID init c' w' r :
  Execute ctx c w sagaID init = (c', w', r) -> flags_ok c -> flags_ok c'.
Proof.
  intros H Hok. destruct r as [ex|e].
  2:{ unfold Execute in H. destruct (Execute_begin c sagaID init) as [[[? ?] ?]|];
      [destruct (Execute_body _ _ _ _ _) as [[? ?] ?]; done|]. by injection H as <- <- <-. }
  apply Execute_cases in H as
    (saga & c1 & c2 & ex0 & _ & _ & _ & Hb & -> & _ & Ef1 & Ep1 & Ee1 & _ & Hn0 & Hni0).
  assert (flags_ok c1) as Hok1 by (eapply (flags_insert c (ex_ID ex0) ex0); rewrite ?Hn0; done).
  apply Execute_body_spec in Hb as [_ Hr (fs & [Hf Hp Hi Hne Hnew Hid] & _)].
  assert (flags_ok c2) as Hok2 by (eapply flags_frame; [exact Hok1|exact Hf|exact Hp|apply Hr]).
  eapply (flags_insert c2 (ex_ID ex) ex); [exact Hok2|..]; try done.
  - rewrite Hi, Hn0, Hne, Hni0. simpl. symmetry. apply existsb_new; [done|].
    eapply Forall_impl; [exact Hnew|]. by intros f [_ ?].
  - rewrite Hi, Hn0. simpl. apply Forall_forall. intros a Ha. rewrite Hp, Hf. split; [set_solver|].
    apply elem_of_seq in Ha.
    destruct (lookup_lt_is_Some_2 fs (a - length (failures c1))) as [f Hf']; [lia|]. exists f.
    rewrite lookup_app_r by lia. split; [done|]. rewrite Forall_lookup in Hnew.
    rewrite Hid. by apply (Hnew _ _ Hf').
Qed.

(** Resolving one failure. *)
Definition resolve_at c (a : nat) (notes : string) : @Coordinator W V E :=
  c <| failures := alter (fun f => f <| Resolved := true |> <| ResolutionNotes := notes |>) a (failures c) |>.

Section resolve.
Context c (a : nat) (notes tx : string) (f : @CompensationFailure E).
Context (Hf : failures c !! a = Some f) (Htx : cf_TransactionID f = tx).

Lemma resolve_other b : b <> a -> unresolved (resolve_at c a notes) b = unresolved c b.
Proof. intros Hb. unfold unresolved, is_resolved. simpl. by rewrite list_lookup_alter_ne. Qed.

Lemma resolve_self : unresolved (resolve_at c a notes) a = false.
Proof. unfold unresolved, is_resolved. simpl. by rewrite list_lookup_alter_eq, Hf. Qed.

Lemma resolve_mono b : unresolved (resolve_at c a notes) b = true -> unresolved c b = true.
Proof. destruct (decide (b = a)) as [->|]; [by rewrite resolve_self|by rewrite resolve_other]. Qed.

Lemma resolve_tx b id :
  (exists f', failures c !! b = Some f' /\ cf_TransactionID f' = id) ->
  exists f', failures (resolve_at c a notes) !! b = Some f' /\ cf_TransactionID f' = id.
Proof.
  intros (f' & Hb & Ht). simpl. destruct (decide (b = a)) as [->|Hne].
  - rewrite list_lookup_alter_eq, Hb. eexists. split; [done|]. done.
  - rewrite list_lookup_alter_ne by done. eauto.
Qed.

(** Executions of other transactions do not notice. *)
Lemma resolve_flags_other id ex :
  flags_ok c -> executions c !! id = Some ex -> id <> tx ->
  existsb (unresolved (resolve_at c a notes)) (InterventionNotes ex) = existsb (unresolved c) (InterventionNotes ex).
Proof.
  intros Hok Hex Hne. destruct (Hok id ex Hex) as [_ HF].
  induction HF as [|b l (_ & f' & Hf' & Ht) _ IH]; [done|]. simpl. rewrite IH, resolve_other; [done|].
  intros ->. congruence.
Qed.

Lemma resolve_flags_ok c' :
  flags_ok c -> failures c' = failures (resolve_at c a notes) ->
  pendingInterventions c' = pendingInterventions c ->
  (forall id ex', executions c' !! id = Some ex' -> exists ex, executions c !! id = Some ex /\
     InterventionNotes ex' = InterventionNotes ex /\
     NeedsIntervention ex' = (if decide (id = tx) then existsb (unresolved (resolve_at c a notes)) (InterventionNotes ex)
                              else NeedsIntervention ex)) ->
  flags_ok c'.
Proof.
  intros Hok Ef Ep Hall id ex' Hex'. destruct (Hall id ex' Hex') as (ex & Hex & -> & ->).
  destruct (Hok id ex Hex) as [Hn HF].
  assert (forall b, unresolved c' b = unresolved (resolve_at c a notes) b) as Hu
    by (intros; unfold unresolved, is_resolved; by rewrite Ef).
  split.
  - assert (forall l, existsb (unresolved c') l = existsb (unresolved (resolve_at c a notes)) l) as ->
      by (induction l as [|b l IH]; [done|]; simpl; by rewrite Hu, IH).
    destruct (decide (id = tx)); [done|]. by rewrite (resolve_flags_other id ex).
  - eapply Forall_impl; [exact HF|]. intros b [Hp Hb]. rewrite Ep, Ef. split; [done|]. by apply resolve_tx.
Qed.
End resolve.

Lemma forallb_resolved c l : forallb (is_resolved c) l = negb (existsb (unresolved c) l).
Proof.
  induction l as [|b l IH]; [done|]. simpl. unfold unresolved at 1. rewrite IH. by destruct (is_resolved c b).
Qed.

(** What [ResolveIntervention] looks for. *)
Lemma find_intervention c tx id a :
  List.find (fun a => match failures c !! a with Some f => matches tx id f | None => false end)
    (pendingInterventions c) = Some a ->
  exists f, failures c !! a = Some f /\ cf_TransactionID f = tx /\ cf_StepID f = id /\ Resolved f = false.
Proof.
  intros H. apply List.find_some in H as [_ H]. destruct (failures c !! a) as [f|]; [|done]. exists f.
  unfold matches in H. apply andb_true_iff in H as [H H3]. bools. done.
Qed.

Lemma ResolveIntervention_flags c tx id notes c' err :
  ResolveIntervention c tx id notes = (c', err) -> flags_ok c -> flags_ok c'.
Proof.
  unfold ResolveIntervention. intros H Hok. destruct (List.find _ _) as [a|] eqn:Ea; [|by injection H as <- <-].
  apply find_intervention in Ea as (f & Hf & Ht & _ & Hr). fold (resolve_at c a notes) in H.
  change (executions (resolve_at c a notes)) with (executions c) in H.
  destruct (executions c !! tx) as [ex|] eqn:Hex; [destruct (forallb _ _) eqn:Hall|]; injection H as <- <-;
    apply (resolve_flags_ok c a notes tx f Hf Ht); try done; intros j ex' Hj; simpl in Hj.
  - rewrite forallb_resolved in Hall. bools. destruct (decide (j = tx)) as [->|Hne].
    + rewrite lookup_insert_eq in Hj. injection Hj as <-. exists ex. by rewrite Hall.
    + rewrite lookup_insert_ne in Hj by done. by exists ex'.
  - exists ex'. split_and!; try done. destruct (decide (j = tx)) as [->|]; [|done].
    rewrite Hex in Hj. injection Hj as <-. destruct (Hok tx ex Hex) as [-> _]. rewrite forallb_resolved in Hall. bools. rewrite Hall.
    apply List.existsb_exists in Hall as (b & Hb & Hub). apply List.existsb_exists.
    exists b. split; [done|]. by eapply resolve_mono.
  - exists ex'. split_and!; try done. rewrite decide_False; [done|]. congruence.
Qed.

(** ** The coordinator as a whole *)

Inductive op :=
| DoNewSaga (id name : string)
| DoAddStep (sagaID id name : string) (f g : option (@StepFunc W V E))
| DoRemoveSaga (id : string)
| DoExecute (ctx : nat -> option E) (sagaID : string) (data : gmap string V)
| DoResolve (tx id notes : string).

Definition step c w (o : op) : @Coordinator W V E * W :=
  match o with
  | DoNewSaga id name => ((NewSaga c id name).1, w)
  | DoAddStep sagaID id name f g => ((add_step c sagaID id name f g).1, w)
  | DoRemoveSaga id => ((RemoveSaga c id).1, w)
  | DoExecute ctx sagaID data => (Execute ctx c w sagaID data).1
  | DoResolve tx id notes => ((ResolveIntervention c tx id notes).1, w)
  end.

Inductive reachable w0 : @Coordinator W V E -> W -> Prop :=
| reach_init : reachable w0 NewCoordinator w0
| reach_step c w o : reachable w0 c w -> reachable w0 (step c w o).1 (step c w o).2.

Lemma step_flags c w o : flags_ok c -> flags_ok (step c w o).1.
Proof.
  intros Hok. destruct o; simpl.
  - unfold NewSaga. by destruct (sagas c !! id).
  - unfold add_step. destruct (sagas c !! sagaID); [|done]. by destruct (AddStep _ _ _ _ _).
  - unfold RemoveSaga. by destruct (sagas c !! id).
  - destruct (Execute ctx c w sagaID data) as [[c' w'] r] eqn:Ex. simpl. by eapply Execute_flags.
  - destruct (ResolveIntervention c tx id notes) as [c' err] eqn:Er. simpl. by eapply ResolveIntervention_flags.
Qed.

(** The intervention flag is exact.  After any sequence of saga
    definitions, executions and resolutions, an execution is marked as needing
    intervention exactly if one of its compensation failures is unresolved,
    and every unresolved failure of a marked execution is among the pending
    interventions the coordinator reports, under that execution's id. *)
Theorem intervention_flag_exact w0 c w id ex :
  reachable w0 c w -> executions c !! id = Some ex ->
  NeedsIntervention ex = existsb (unresolved c) (InterventionNotes ex) /\
  (NeedsIntervention ex = true -> exists f, f ∈ GetPendingInterventions c /\ cf_TransactionID f = id).
Proof.
  intros Hr Hex.
  assert (flags_ok c) as Hok.
  { clear Hex. induction Hr as [|c w o Hr IH]; [intros j e He; simpl in He; by rewrite lookup_empty in He|by apply step_flags]. }
  destruct (Hok id ex Hex) as [Hn HF]. split; [done|]. rewrite Hn. intros Hu.
  apply List.existsb_exists in Hu as (a & Ha & Hua). apply list_elem_of_In in Ha.
  rewrite Forall_forall in HF. destruct (HF a Ha) as (Hp & f & Hf & Ht). exists f. split; [|done].
  apply list_elem_of_omap. exists a. split; [done|]. unfold unresolved, is_resolved in Hua. rewrite Hf in Hua |- *.
  bools. by rewrite Hua.
Qed.

(** ** Concurrent executions

    The critical sections of the coordinator, interleaved in any order by any
    number of goroutines; [act] lists the sagas of the executions that have
    begun and not ended. *)
Inductive concurrent : @Coordinator W V E -> list string -> Prop :=
| conc_init : concurrent NewCoordinator []
| conc_begin c act sagaID data c1 saga ex :
    concurrent c act -> Execute_begin c sagaID data = Ok (c1, saga, ex) -> concurrent c1 (sagaID :: act)
| conc_log c act tx id op st err d :
    concurrent c act -> concurrent (logOperation c tx id op st err d) act
| conc_failure c act ex s r :
    concurrent c act -> concurrent (record_failure c ex s r).1 act
| conc_end c act1 sagaID act2 ex :
    concurrent c (act1 ++ sagaID :: act2) -> concurrent (Execute_end c sagaID ex) (act1 ++ act2)
| conc_new c act id name : concurrent c act -> concurrent (NewSaga c id name).1 act
| conc_add c act sagaID id name f g : concurrent c act -> concurrent (add_step c sagaID id name f g).1 act
| conc_remove c act id : concurrent c act -> concurrent (RemoveSaga c id).1 act
| conc_resolve c act tx id notes : concurrent c act -> concurrent (ResolveIntervention c tx id notes).1 act.

Lemma ResolveIntervention_running c tx id notes :
  runningSagas (ResolveIntervention c tx id notes).1 = runningSagas c.
Proof.
  unfold ResolveIntervention. destruct (List.find _ _); [|done]. simpl. destruct (executions c !! tx); [|done].
  by destruct (forallb _ _).
Qed.

Lemma concurrent_running c act :
  concurrent c act -> NoDup act /\ runningSagas c = list_to_set act.
Proof.
  induction 1 as [|c act sagaID data c1 saga ex _ [Hn Hr] Hb| | c act ex s r _ [Hn Hr]
    |c act1 sagaID act2 ex _ [Hn Hr]|c act id name _ [Hn Hr]|c act sagaID id name f g _ [Hn Hr]
    |c act id _ [Hn Hr]|c act tx id notes _ [Hn Hr]]; simpl; try done.
  - split; [constructor|done].
  - unfold Execute_begin in Hb. destruct (sagas c !! sagaID); [|done]. destruct (bool_decide (Steps _ = [])); [done|].
    destruct (bool_decide (sagaID ∈ runningSagas c)) eqn:Er; [done|]. bools. injection Hb as <- <- <-.
    rewrite Hr in Er. split; [constructor; [set_solver|done]|]. simpl. by rewrite Hr.
  - apply NoDup_app in Hn as (Hn1 & Hd & Hn2). apply NoDup_cons in Hn2 as [Hs Hn2].
    split; [apply NoDup_app; split_and!; [done| |done]; set_solver|].
    rewrite Hr, !list_to_set_app_L. simpl. set_solver.
  - unfold NewSaga. by destruct (sagas c !! id).
  - unfold add_step. destruct (sagas c !! sagaID); [|done]. by destruct (AddStep _ _ _ _ _).
  - unfold RemoveSaga. by destruct (sagas c !! id).
  - by rewrite ResolveIntervention_running.
Qed.

(** One execution at a time per saga.  However the coordinator's critical
    sections interleave, no saga has two executions in progress, and an
    execution of a saga with steps is refused as already running exactly while
    one is in progress. *)
Theorem one_execution_per_saga c act sagaID saga data :
  concurrent c act -> sagas c !! sagaID = Some saga -> Steps saga <> [] ->
  NoDup act /\ (Execute_begin c sagaID data = Err ErrSagaRunning <-> sagaID ∈ act).
Proof.
  intros Hc Hs Hne. destruct (concurrent_running c act Hc) as [Hn Hr]. split; [done|].
  unfold Execute_begin. rewrite Hs, bool_decide_eq_false_2, Hr by done.
  destruct (bool_decide (sagaID ∈ list_to_set act)) eqn:Eb; bools; set_solver.
Qed.
End proofs.

(** ** Examples *)

Module Examples.
Local Open Scope string_scope.

(** Steps that count in the world, and one that fails. *)
Definition plus_one : @Step nat unit string :=
  {| step_ID := "inc"; step_Name := "increment";
     ForwardFunc := fun w d => (S w, d, Returned None);
     CompensateFunc := Some (fun w d => (pred w, d, Returned None)) |}.

Definition boom : @Step nat unit string :=
  {| step_ID := "boom"; step_Name := "explode";
     ForwardFunc := fun w d => (w, d, Panicked "no");
     CompensateFunc := Some (fun w d => (w, d, Failed "never")) |}.

Definition coordinator : @Coordinator nat unit string :=
  let c := (NewSaga NewCoordinator "s" "demo").1 in
  let c := (add_step c "s" "inc" "increment" (Some (ForwardFunc plus_one)) (CompensateFunc plus_one)).1 in
  (add_step c "s" "boom" "explode" (Some (ForwardFunc boom)) (CompensateFunc boom)).1.

Definition saga : @Saga nat unit string :=
  {| saga_ID := "s"; saga_Name := "demo"; Steps := [plus_one; boom];
     stepMap := <["boom" := boom]> (<["inc" := plus_one]> ∅) |}.

Definition no_cancel : nat -> option string := fun _ => None.

Lemma coordinator_saga : sagas coordinator !! "s" = Some saga.
Proof. reflexivity. Qed.

Lemma run_result : exists c' ex, Execute no_cancel coordinator 5%nat "s" ∅ = (c', 5%nat, Ok ex) /\ Status ex = StatusFailed.
Proof. eexists _, _. split; vm_compute; reflexivity. Qed.

Lemma saga_runs_and_compensates_witness : exists c' ex,
  Execute no_cancel coordinator 5%nat "s" ∅ = (c', 5%nat, Ok ex) /\ runningSagas c' = ∅.
Proof.
  destruct run_result as (c' & ex & Hx & _). exists c', ex. split; [exact Hx|].
  exact (proj2 (saga_runs_and_compensates no_cancel coordinator 5%nat "s" ∅ c' 5%nat ex saga coordinator_saga Hx)).
Defined.

Lemma saga_atomic_witness : exists c' w' ex,
  Execute no_cancel coordinator 5%nat "s" ∅ = (c', w', Ok ex) /\ w' = 5%nat /\ NeedsIntervention ex = false.
Proof.
  destruct run_result as (c' & ex & Hx & Hs). exists c', 5%nat, ex. split; [exact Hx|].
  apply (saga_atomic no_cancel coordinator 5%nat "s" ∅ c' 5%nat ex saga coordinator_saga); [..|exact Hx|exact Hs].
  - repeat constructor.
    + intros w d w1 d1 out H. injection H as <- <- <-. eexists. split; [reflexivity|]. intros d'. by eexists _, _.
    + intros w d w1 d1 out H. discriminate H.
  - repeat constructor.
    + intros w d w1 d1 e [H|H]; discriminate H.
    + intros w d w1 d1 e [H|H]; [discriminate H|]. by injection H as <- _ _.
Defined.

(** A saga whose compensation fails. *)
Definition stuck_ops : list (@op nat unit string) :=
  [DoNewSaga "s" "demo";
   DoAddStep "s" "a" "a" (Some (fun w d => (S w, d, Returned None))) (Some (fun w d => (w, d, Failed "cannot")));
   DoAddStep "s" "boom" "explode" (Some (ForwardFunc boom)) None;
   DoExecute no_cancel "s" ∅].

Definition run_ops (ops : list (@op nat unit string)) : @Coordinator nat unit string * nat :=
  foldl (fun s o => step s.1 s.2 o) (NewCoordinator, 0%nat) ops.

Lemma run_ops_reachable ops : reachable 0%nat (run_ops ops).1 (run_ops ops).2.
Proof.
  induction ops as [|o ops IH] using rev_ind; [constructor|].
  unfold run_ops in *. rewrite foldl_app. simpl. by apply reach_step.
Qed.

Lemma intervention_flag_exact_witness : exists ex f,
  executions (run_ops stuck_ops).1 !! "s-exec-1" = Some ex /\ NeedsIntervention ex = true /\
  f ∈ GetPendingInterventions (run_ops stuck_ops).1 /\ cf_TransactionID f = "s-exec-1".
Proof.
  destruct (executions (run_ops stuck_ops).1 !! "s-exec-1") as [ex|] eqn:Hex; [|vm_compute in Hex; discriminate Hex].
  assert (NeedsIntervention ex = true) as Hn by (vm_compute in Hex; injection Hex as <-; reflexivity).
  destruct (intervention_flag_exact 0%nat _ _ _ _ (run_ops_reachable stuck_ops) Hex) as [_ H].
  destruct (H Hn) as (f & Hf & Ht). exists ex, f. auto.
Defined.

Lemma one_execution_per_saga_witness : exists c saga ex,
  Execute_begin coordinator "s" ∅ = Ok (c, saga, ex) /\ Execute_begin c "s" ∅ = Err ErrSagaRunning.
Proof.
  destruct (Execute_begin coordinator "s" ∅) as [[[c saga'] ex]|] eqn:Hb; [|vm_compute in Hb; discriminate Hb].
  exists c, saga', ex. split; [reflexivity|].
  assert (sagas c !! "s" = Some saga) as Hs by (vm_compute in Hb; injection Hb as <- _ _; reflexivity).
  apply (one_execution_per_saga c ["s"] "s" saga ∅); [|exact Hs|discriminate|apply list_elem_of_here].
  eapply conc_begin; [|exact Hb]. apply conc_add, conc_add, conc_new, conc_init.
Defined.
End Examples.
