(* ===== verification/EventSrc.v ===== *)
(** Event sourcing (src/internal/eventsrc): event store, snapshot store, engine.

    Events are objects that the caller shares with the store ([AppendEvents]
    writes the aggregate id and the version into the caller's objects and keeps
    the pointers), so the model has a heap of events and the store holds
    addresses.  Timestamps are not modelled; the aggregate is an interface. *)

From stdpp Require Import base tactics list gmap strings sorting sets.
From Stdlib Require Import ZArith Lia.
From S2P Require Import Prelude.

Inductive Error :=
| ErrAggregateNotFound | ErrVersionConflict | ErrInvalidEvent | ErrSnapshotNotFound | ErrAggregateNil
| ErrEventNil | ErrSnapshotNil | ErrInvalidAggregateID | ErrAggregateIDMismatch
| ErrAggregate (n : Z).       (* an error of the aggregate's own *)

Record Event := { AggregateID : string; EventType : string; EventData : list Z; Version : Z }.

#[export] Instance Event_eta : Eta Event := fun e =>
  {| AggregateID := AggregateID e; EventType := EventType e; EventData := EventData e; Version := Version e |}.

Definition NewEvent (aggregateID eventType : string) (data : list Z) (version : Z) : Event :=
  {| AggregateID := aggregateID; EventType := eventType; EventData := data; Version := version |}.

Record Snapshot := { snap_AggregateID : string; snap_Version : Z; State : list Z }.

Definition NewSnapshot (aggregateID : string) (version : Z) (state : list Z) : Snapshot :=
  {| snap_AggregateID := aggregateID; snap_Version := version; State := state |}.

(** ** The in-memory event store *)

Record InMemoryEventStore := {
  heap : gmap nat Event;                 (* the event objects, the caller's too *)
  events : gmap string (list nat);
  versions : gmap string Z;
}.

#[export] Instance InMemoryEventStore_eta : Eta InMemoryEventStore := fun s =>
  {| heap := heap s; events := events s; versions := versions s |}.

Definition NewInMemoryEventStore (h : gmap nat Event) : InMemoryEventStore :=
  {| heap := h; events := ∅; versions := ∅ |}.

(** The checks before the lock; a pointer is [None] when nil. *)
Fixpoint check_events (h : gmap nat Event) (aggregateID : string) (evs : list (option nat))
    : result Error (list nat) :=
  match evs with
  | [] => Ok []
  | None :: _ => Err ErrEventNil
  | Some a :: evs =>
      match h !! a with
      | None => Err ErrEventNil          (* no such object: cannot happen *)
      | Some e =>
          if negb (bool_decide (AggregateID e = "")) && negb (bool_decide (AggregateID e = aggregateID))
          then Err ErrAggregateIDMismatch
          else let? l := check_events h aggregateID evs in Ok (a :: l)
      end
  end.

(** The loop under the lock. *)
Fixpoint store_events (s : InMemoryEventStore) (aggregateID : string) (currentVersion : Z) (evs : list nat)
    : InMemoryEventStore * Z :=
  match evs with
  | [] => (s, currentVersion)
  | a :: evs =>
      let currentVersion := int64 (currentVersion + 1) in
      let s := s <| heap := alter (fun e => e <| AggregateID := aggregateID |> <| Version := currentVersion |>) a (heap s) |>
                 <| events := <[aggregateID := default [] (events s !! aggregateID) ++ [a]]> (events s) |> in
      store_events s aggregateID currentVersion evs
  end.

Definition AppendEvents (s : InMemoryEventStore) (aggregateID : string) (expectedVersion : Z)
    (evs : list (option nat)) : InMemoryEventStore * option Error :=
  if bool_decide (aggregateID = "") then (s, Some ErrInvalidAggregateID)
  else if bool_decide (evs = []) then (s, Some ErrInvalidEvent)
  else match check_events (heap s) aggregateID evs with
  | Err e => (s, Some e)
  | Ok l =>
      let currentVersion := default 0 (versions s !! aggregateID) in
      if negb (currentVersion =? expectedVersion) then (s, Some ErrVersionConflict)
      else
        let '(s, v) := store_events s aggregateID currentVersion l in
        (s <| versions := <[aggregateID := v]> (versions s) |>, None)
  end.

(** The event objects a list of addresses denotes. *)
Definition deref (s : InMemoryEventStore) (l : list nat) : list Event := omap (fun a => heap s !! a) l.

Definition le_version (e1 e2 : Event) : Prop := Version e1 <= Version e2.

#[export] Instance le_version_dec e1 e2 : Decision (le_version e1 e2).
Proof. unfold le_version. apply _. Defined.

Definition LoadEvents (s : InMemoryEventStore) (aggregateID : string) (fromVersion : Z)
    : result Error (list Event) :=
  if bool_decide (aggregateID = "") then Err ErrInvalidAggregateID
  else match events s !! aggregateID with
  | None => Err ErrAggregateNotFound
  | Some allEvents =>
      Ok (merge_sort le_version (filter (fun e => fromVersion < Version e) (deref s allEvents)))
  end.

Definition GetVersion (s : InMemoryEventStore) (aggregateID : string) : result Error Z :=
  if bool_decide (aggregateID = "") then Err ErrInvalidAggregateID
  else match versions s !! aggregateID with None => Err ErrAggregateNotFound | Some v => Ok v end.

(** ** The in-memory snapshot store *)

Abbreviation InMemorySnapshotStore := (gmap string Snapshot).

Definition SaveSnapshot (s : InMemorySnapshotStore) (snapshot : option Snapshot)
    : InMemorySnapshotStore * option Error :=
  match snapshot with
  | None => (s, Some ErrSnapshotNil)
  | Some snap =>
      if bool_decide (snap_AggregateID snap = "") then (s, Some ErrInvalidAggregateID)
      else (<[snap_AggregateID snap := snap]> s, None)
  end.

Definition LoadSnapshot (s : InMemorySnapshotStore) (aggregateID : string) : result Error Snapshot :=
  if bool_decide (aggregateID = "") then Err ErrInvalidAggregateID
  else match s !! aggregateID with None => Err ErrSnapshotNotFound | Some snap => Ok snap end.

(** ** Aggregates and the engine *)

Class Aggregate (A : Type) := {
  agg_id : A -> string;
  agg_version : A -> Z;
  SetVersion : Z -> A -> A;
  Apply : A -> Event -> A * option Error;
  MarshalState : A -> result Error (list Z);
  UnmarshalState : A -> list Z -> A * option Error;
}.

Section engine.
Context {A : Type} `{!Aggregate A}.

Record EventSourcingEngine := { eventStore : InMemoryEventStore; snapshotStore : InMemorySnapshotStore }.

(** An error stops the replay and leaves the aggregate as it is then. *)
Fixpoint replay_loop (a : A) (evs : list Event) : A * option Error :=
  match evs with
  | [] => (a, None)
  | e :: evs => match Apply a e with (a, Some err) => (a, Some err) | (a, None) => replay_loop a evs end
  end.

Definition ReplayEvents (aggregate : option A) (evs : list Event) : option A * option Error :=
  match aggregate with
  | None => (None, Some ErrAggregateNil)
  | Some a => let '(a, err) := replay_loop a evs in (Some a, err)
  end.

(** The events after [fromVersion], applied to [a]. *)
Definition rebuild_from (en : EventSourcingEngine) (a : A) (fromVersion : Z) : A * option Error :=
  match LoadEvents (eventStore en) (agg_id a) fromVersion with
  | Err ErrAggregateNotFound => if fromVersion =? 0 then (a, None) else (a, Some ErrAggregateNotFound)
  | Err e => (a, Some e)
  | Ok evs => replay_loop a evs
  end.

Definition RebuildState (en : EventSourcingEngine) (aggregate : option A) : option A * option Error :=
  match aggregate with
  | None => (None, Some ErrAggregateNil)
  | Some a =>
      if bool_decide (agg_id a = "") then (Some a, Some ErrInvalidAggregateID)
      else
        let '(a, err) :=
          match LoadSnapshot (snapshotStore en) (agg_id a) with
          | Err ErrSnapshotNotFound => rebuild_from en a 0
          | Err e => (a, Some e)
          | Ok snap =>
              match UnmarshalState a (State snap) with
              | (a', Some e) => (a', Some e)
              | (a', None) =>
                  (* the id was read before the state was overwritten *)
                  let a'' := SetVersion (snap_Version snap) a' in
                  match LoadEvents (eventStore en) (agg_id a) (snap_Version snap) with
                  | Err ErrAggregateNotFound =>
                      if snap_Version snap =? 0 then (a'', None) else (a'', Some ErrAggregateNotFound)
                  | Err e => (a'', Some e)
                  | Ok evs => replay_loop a'' evs
                  end
              end
          end in
        (Some a, err)
  end.

Definition CreateSnapshot (en : EventSourcingEngine) (aggregate : option A) : EventSourcingEngine * option Error :=
  match aggregate with
  | None => (en, Some ErrAggregateNil)
  | Some a =>
      if bool_decide (agg_id a = "") then (en, Some ErrInvalidAggregateID)
      else match MarshalState a with
      | Err e => (en, Some e)
      | Ok state =>
          let '(ss, err) := SaveSnapshot (snapshotStore en) (Some (NewSnapshot (agg_id a) (agg_version a) state)) in
          ({| eventStore := eventStore en; snapshotStore := ss |}, err)
      end
  end.

End engine.
