(* ===== verification/EventSrcProofs.v ===== *)
(** Theorems about event sourcing (EventSrc.v). *)

From stdpp Require Import base tactics list gmap strings sorting sets.
From Stdlib Require Import ZArith Lia.
From S2P Require Import Prelude EventSrc.

Abbreviation zlen l := (Z.of_nat (length l)).

(** ** The event store *)

Definition stored (s : InMemoryEventStore) (id : string) : list nat := default [] (events s !! id).

Definition history (s : InMemoryEventStore) (id : string) : list Event := deref s (stored s id).

Definition version_of (s : InMemoryEventStore) (id : string) : Z := default 0 (versions s !! id).

(** Event number [k] of an aggregate carries its id and version [k+1]; the
    version of an aggregate is the number of its events. *)
Record store_inv (s : InMemoryEventStore) : Prop := {
  inv_events : forall id k a, stored s id !! k = Some a ->
    exists e, heap s !! a = Some e /\ AggregateID e = id /\ Version e = Z.of_nat k + 1;
  inv_version : forall id, version_of s id = zlen (stored s id);
  inv_known : forall id, is_Some (events s !! id) <-> is_Some (versions s !! id);
}.

Lemma new_store_inv h : store_inv (NewInMemoryEventStore h).
Proof.
  unfold NewInMemoryEventStore. split; unfold stored, version_of; simpl.
  - intros id k a. by rewrite lookup_empty.
  - intros id. by rewrite !lookup_empty.
  - intros id. rewrite !lookup_empty. done.
Qed.

(** Pointers that may be handed to [AppendEvents]: live, pairwise different,
    and not in the store already. *)
Record fresh (s : InMemoryEventStore) (l : list nat) : Prop := {
  fresh_nodup : NoDup l;
  fresh_live : Forall (fun a => is_Some (heap s !! a)) l;
  fresh_new : forall id a, a ∈ l -> a ∉ stored s id;
}.

Definition stamp (id : string) (v : Z) (e : Event) : Event := e <| AggregateID := id |> <| Version := v |>.

(** [evs] numbered from [v+1] on. *)
Definition stamped (id : string) (v : Z) (evs : list Event) : list Event :=
  imap (fun k e => stamp id (v + 1 + Z.of_nat k) e) evs.

Lemma store_events_spec l s id v s' v' :
  store_events s id v l = (s', v') -> NoDup l -> 0 <= v -> v + zlen l < 2 ^ 63 ->
  v' = v + zlen l /\ versions s' = versions s /\
  (forall b, b ∉ l -> heap s' !! b = heap s !! b) /\
  (forall k a, l !! k = Some a -> heap s' !! a = stamp id (v + 1 + Z.of_nat k) <$> heap s !! a) /\
  (forall j, stored s' j = if decide (j = id) then stored s j ++ l else stored s j) /\
  (forall j, j <> id -> events s' !! j = events s !! j) /\
  (l <> [] -> is_Some (events s' !! id)).
Proof.
  revert s v. induction l as [|a l IH]; intros s v H Hn Hv Hb; simpl in H.
  { injection H as <- <-. split_and!; try done; [simpl; lia|]. intros j. rewrite app_nil_r. by destruct (decide _). }
  rewrite length_cons in *. apply NoDup_cons in Hn as [Ha Hn]. rewrite int64_small in H by lia.
  apply IH in H as (-> & Ev & Hh & Hl & He & Ho & _); [|done|lia|lia]. simpl in Ev, Hh, Hl.
  split_and!.
  - lia.
  - done.
  - intros b Hb'. rewrite Hh by set_solver. apply lookup_alter_ne. set_solver.
  - intros [|k] b Hk; simpl in Hk.
    + injection Hk as <-. rewrite Hh, lookup_alter_eq by done. unfold stamp.
      by replace (v + 1 + Z.of_nat 0) with (v + 1) by lia.
    + rewrite (Hl k b Hk), lookup_alter_ne.
      * f_equal. f_equal. lia.
      * intros ->. apply Ha. by eapply list_elem_of_lookup_2.
  - intros j. rewrite He. destruct (decide (j = id)) as [->|Hne]; unfold stored; simpl.
    + rewrite lookup_insert_eq. simpl. by rewrite <- app_assoc.
    + by rewrite lookup_insert_ne.
  - intros j Hj. rewrite Ho by done. simpl. by apply lookup_insert_ne.
  - intros _. unfold stored in He. specialize (He id). rewrite decide_True in He by done. simpl in He.
    destruct (events s' !! id) eqn:E; [by eexists|]. simpl in He. rewrite lookup_insert_eq in He. simpl in He.
    by destruct (default [] (events s !! id)).
Qed.

Lemma check_events_ok h id l :
  Forall (fun a => exists e, h !! a = Some e /\ (AggregateID e = "" \/ AggregateID e = id)) l ->
  check_events h id (Some <$> l) = Ok l.
Proof.
  induction 1 as [|a l (e & He & Hid) Hl IH]; [done|]. simpl. rewrite He.
  assert (negb (bool_decide (AggregateID e = "")) && negb (bool_decide (AggregateID e = id)) = false) as ->.
  { destruct Hid as [->| ->]; [done|]. rewrite (bool_decide_eq_true_2 (id = id)) by done. apply andb_false_r. }
  change (list_fmap _ _ Some l) with (Some <$> l). by rewrite IH.
Qed.

Lemma deref_lookup s l :
  Forall (fun a => is_Some (heap s !! a)) l -> forall k, deref s l !! k = (l !! k) ≫= (fun a => heap s !! a).
Proof.
  induction 1 as [|a l [e He] Hl IH]; intros k; [by rewrite !lookup_nil|].
  unfold deref. simpl. rewrite He. destruct k as [|k]; simpl; [done|]. apply IH.
Qed.

Lemma stored_live s id : store_inv s -> Forall (fun a => is_Some (heap s !! a)) (stored s id).
Proof. intros Hi. apply Forall_lookup. intros k a Hk. destruct (inv_events _ Hi _ _ _ Hk) as (e & He & _). by eexists. Qed.

Lemma length_history s id : store_inv s -> length (history s id) = length (stored s id).
Proof.
  intros Hi. unfold history. generalize (stored_live s id Hi). generalize (stored s id) as l.
  induction 1 as [|a l [e He] Hl IH]; [done|]. unfold deref. simpl. rewrite He. simpl. by f_equal.
Qed.

Lemma history_lookup s id k e :
  store_inv s -> history s id !! k = Some e -> AggregateID e = id /\ Version e = Z.of_nat k + 1.
Proof.
  intros Hi. unfold history. rewrite deref_lookup by by apply stored_live. intros H.
  apply bind_Some in H as (a & Ha & He). destruct (inv_events _ Hi _ _ _ Ha) as (e' & He' & ? & ?). by simplify_eq.
Qed.

Lemma history_ext s1 s2 id :
  stored s1 id = stored s2 id -> (forall a, a ∈ stored s1 id -> heap s1 !! a = heap s2 !! a) ->
  history s1 id = history s2 id.
Proof.
  unfold history, deref. intros <- Hh. apply list_omap_ext, Forall_Forall2_diag, Forall_forall. exact Hh.
Qed.

Section append.
Context (s : InMemoryEventStore) (id : string) (l : list nat) (s1 : InMemoryEventStore) (v1 : Z).
Context (Hinv : store_inv s) (Hfr : fresh s l) (Hne : l <> []).
Context (Hb : version_of s id + zlen l < 2 ^ 63).
Context (Hst : store_events s id (version_of s id) l = (s1, v1)).

#[local] Abbreviation s' := (s1 <| versions := <[id := v1]> (versions s1) |>).

Lemma version_nonneg j : 0 <= version_of s j.
Proof. rewrite (inv_version _ Hinv). lia. Qed.

Lemma append_facts :
  v1 = version_of s id + zlen l /\ versions s1 = versions s /\
  (forall b, b ∉ l -> heap s1 !! b = heap s !! b) /\
  (forall k a, l !! k = Some a -> heap s1 !! a = stamp id (version_of s id + 1 + Z.of_nat k) <$> heap s !! a) /\
  (forall j, stored s1 j = if decide (j = id) then stored s j ++ l else stored s j) /\
  (forall j, j <> id -> events s1 !! j = events s !! j) /\ is_Some (events s1 !! id).
Proof.
  pose proof (store_events_spec l s id _ s1 v1 Hst (fresh_nodup _ _ Hfr) (version_nonneg id) Hb)
    as (H1 & H2 & H3 & H4 & H5 & H6 & H7). by split_and!; auto.
Qed.

Lemma old_heap j a : a ∈ stored s j -> heap s1 !! a = heap s !! a.
Proof.
  destruct append_facts as (_ & _ & H3 & _). intros Ha. apply H3. intros Hl. by eapply (fresh_new _ _ Hfr).
Qed.

Lemma append_inv : store_inv s'.
Proof.
  destruct append_facts as (Ev & Evs & H3 & H4 & H5 & H6 & H7). split.
  - intros j k a. change (stored s' j) with (stored s1 j). change (heap s') with (heap s1). rewrite H5.
    assert (stored s j !! k = Some a -> exists e, heap s1 !! a = Some e /\ AggregateID e = j /\
      Version e = Z.of_nat k + 1) as Hold.
    { intros Hk. rewrite (old_heap j a) by (by eapply list_elem_of_lookup_2). by apply (inv_events _ Hinv). }
    destruct (decide (j = id)) as [->|]; [|done]. rewrite lookup_app_Some. intros [Hk|[Hk Ha]]; [by apply Hold|].
    rewrite (H4 _ _ Ha). pose proof (fresh_live _ _ Hfr) as Hlive. rewrite Forall_lookup in Hlive.
    destruct (Hlive _ _ Ha) as [e He]. rewrite He. eexists. split; [done|]. split; [done|]. simpl.
    rewrite (inv_version _ Hinv). lia.
  - intros j. unfold version_of. simpl. change (stored s' j) with (stored s1 j). rewrite H5, Evs.
    destruct (decide (j = id)) as [->|Hj].
    + rewrite lookup_insert_eq. simpl. rewrite Ev, (inv_version _ Hinv), length_app. lia.
    + rewrite lookup_insert_ne by done. apply (inv_version _ Hinv).
  - intros j. simpl. rewrite Evs. destruct (decide (j = id)) as [->|Hj].
    + rewrite lookup_insert_eq. split; [by eexists|]. by intros _.
    + rewrite lookup_insert_ne, H6 by done. apply (inv_known _ Hinv).
Qed.

Lemma append_history j :
  history s' j = if decide (j = id) then history s id ++ stamped id (version_of s id) (deref s l) else history s j.
Proof.
  destruct append_facts as (_ & _ & _ & H4 & H5 & _).
  destruct (decide (j = id)) as [->|Hj].
  2:{ apply history_ext; change (stored s' j) with (stored s1 j); rewrite H5, decide_False by done; [done|].
      intros a Ha. by apply (old_heap j). }
  assert (history s' id = deref s1 (stored s id) ++ deref s1 l) as ->.
  { unfold history. change (stored s' id) with (stored s1 id). rewrite H5, decide_True by done.
    unfold deref. by rewrite omap_app. }
  f_equal.
  - unfold deref, history. apply list_omap_ext, Forall_Forall2_diag, Forall_forall.
    intros a Ha. by apply (old_heap id).
  - apply list_eq. intros k. unfold stamped. rewrite list_lookup_imap.
    pose proof (fresh_live _ _ Hfr) as Hlive.
    rewrite !deref_lookup; [|done|].
    + destruct (l !! k) as [a|] eqn:Hk; [|done]. simpl. by rewrite (H4 _ _ Hk).
    + apply Forall_lookup. intros i a Hi. rewrite (H4 _ _ Hi).
      rewrite Forall_lookup in Hlive. destruct (Hlive _ _ Hi) as [e ->]. by eexists.
Qed.
End append.

(** Arguments that [AppendEvents] accepts. *)
Record append_args (s : InMemoryEventStore) (id : string) (l : list nat) : Prop := {
  arg_id : id <> "";
  arg_some : l <> [];
  arg_fresh : fresh s l;
  arg_ids : Forall (fun a => exists e, heap s !! a = Some e /\ (AggregateID e = "" \/ AggregateID e = id)) l;
  arg_bound : version_of s id + zlen l < 2 ^ 63;
}.

Lemma AppendEvents_valid s id v l :
  append_args s id l ->
  AppendEvents s id v (Some <$> l) =
    if negb (version_of s id =? v) then (s, Some ErrVersionConflict)
    else let '(s1, v1) := store_events s id (version_of s id) l in
         (s1 <| versions := <[id := v1]> (versions s1) |>, None).
Proof.
  intros [Hid Hne _ Hids _]. unfold AppendEvents.
  assert (Some <$> l <> []) as Hne' by (by destruct l).
  rewrite !bool_decide_eq_false_2 by done. by rewrite check_events_ok.
Qed.

(** C23: optimistic concurrency.  An append of fresh events succeeds exactly if
    the expected version is the aggregate's version.  It then adds the events
    at the end of the aggregate's history, with the aggregate's id and the
    next versions, and touches no other history; otherwise it reports a
    version conflict and changes nothing. *)
Theorem AppendEvents_optimistic s id expected l s' err :
  store_inv s -> append_args s id l -> AppendEvents s id expected (Some <$> l) = (s', err) ->
  (err = None <-> expected = version_of s id) /\
  (err = None ->
     history s' id = history s id ++ stamped id (version_of s id) (deref s l) /\
     (forall j, j <> id -> history s' j = history s j) /\ store_inv s') /\
  (err <> None -> err = Some ErrVersionConflict /\ s' = s).
Proof.
  intros Hi Ha H. rewrite AppendEvents_valid in H by done.
  destruct (Z.eqb_spec (version_of s id) expected) as [Heq|Hne]; simpl in H.
  2:{ injection H as <- <-. split_and!; done || congruence. }
  destruct (store_events s id (version_of s id) l) as [s1 v1] eqn:Est. injection H as <- <-. destruct Ha.
  split; [done|]. split; [|done]. intros _. split_and!.
  - by rewrite (append_history s id l s1 v1), decide_True.
  - intros j Hj. by rewrite (append_history s id l s1 v1), decide_False.
  - by apply (append_inv s id l s1 v1).
Qed.

(** Stores built by appends of fresh events, whatever the other arguments. *)
Inductive reachable (h : gmap nat Event) : InMemoryEventStore -> Prop :=
| reach_new : reachable h (NewInMemoryEventStore h)
| reach_append s id v evs :
    reachable h s -> fresh s (omap (fun p => p) evs) -> version_of s id + zlen evs < 2 ^ 63 ->
    reachable h (AppendEvents s id v evs).1.

Lemma check_events_inv h id evs l :
  check_events h id evs = Ok l ->
  evs = Some <$> l /\
  Forall (fun a => exists e, h !! a = Some e /\ (AggregateID e = "" \/ AggregateID e = id)) l.
Proof.
  revert l. induction evs as [|[a|] evs IH]; intros l H; simpl in H; [by injection H as <-| |done].
  destruct (h !! a) as [e|] eqn:He; [|done]. destruct (negb _ && negb _) eqn:Ec; [done|].
  destruct (check_events h id evs) as [l'|]; [|done]. simpl in H. injection H as <-.
  destruct (IH l' eq_refl) as [-> HF]. split; [done|]. constructor; [|done]. exists e. split; [done|].
  destruct (decide (AggregateID e = "")); [by left|right].
  destruct (decide (AggregateID e = id)); [done|]. by rewrite !bool_decide_eq_false_2 in Ec.
Qed.

Lemma omap_fmap_Some (l : list nat) : omap (fun p => p) (Some <$> l) = l.
Proof. induction l as [|a l IH]; [done|]. simpl. f_equal. exact IH. Qed.

Lemma reachable_store_inv h s : reachable h s -> store_inv s.
Proof.
  induction 1 as [|s id v evs _ Hi Hf Hb]; [apply new_store_inv|].
  destruct (AppendEvents s id v evs) as [s' err] eqn:Ea. simpl.
  unfold AppendEvents in Ea. destruct (bool_decide (id = "")) eqn:Eid; [by injection Ea as <- <-|].
  destruct (bool_decide (evs = [])) eqn:Een; [by injection Ea as <- <-|]. bools.
  destruct (check_events (heap s) id evs) as [l|] eqn:Ec; [|by injection Ea as <- <-].
  apply check_events_inv in Ec as [-> HF]. rewrite omap_fmap_Some in Hf. rewrite length_fmap in Hb.
  destruct (negb _); [by injection Ea as <- <-|]. fold (version_of s id) in Ea.
  destruct (store_events s id (version_of s id) l) as [s1 v1] eqn:Es. injection Ea as <- <-.
  apply (append_inv s id l s1 v1); try done. by intros ->.
Qed.

(** ** Loading *)

Lemma filter_versions (l : list Event) (v from : Z) :
  (forall k e, l !! k = Some e -> Version e = v + Z.of_nat k + 1) ->
  filter (fun e => from < Version e) l = drop (Z.to_nat (from - v)) l.
Proof.
  revert v. induction l as [|e l IH]; intros v Hv; [by rewrite drop_nil|].
  assert (Version e = v + 1) as He by (rewrite (Hv 0%nat e); [lia|done]).
  assert (filter (fun e => from < Version e) l = drop (Z.to_nat (from - (v + 1))) l) as IHv.
  { apply IH. intros k x Hk. rewrite (Hv (S k) x); [lia|done]. }
  rewrite filter_cons. destruct (decide (from < Version e)).
  - rewrite IHv. replace (Z.to_nat (from - (v + 1))) with 0%nat by lia.
    by replace (Z.to_nat (from - v)) with 0%nat by lia.
  - rewrite IHv. by replace (Z.to_nat (from - v)) with (S (Z.to_nat (from - (v + 1)))) by lia.
Qed.

Lemma versions_sorted (l : list Event) (v : Z) :
  (forall k e, l !! k = Some e -> Version e = v + Z.of_nat k + 1) ->
  Sorted le_version l /\ forall e1 e2, e1 ∈ l -> e2 ∈ l -> Version e1 = Version e2 -> e1 = e2.
Proof.
  intros Hv. split.
  - revert v Hv. induction l as [|e l IH]; intros v Hv; [constructor|].
    constructor; [apply (IH (v + 1)); intros k x Hk; rewrite (Hv (S k) x); [lia|done]|].
    destruct l as [|e2 l]; constructor. unfold le_version.
    rewrite (Hv 0%nat e), (Hv 1%nat e2) by done. lia.
  - intros e1 e2 [i Hi]%list_elem_of_lookup [j Hj]%list_elem_of_lookup E.
    rewrite (Hv _ _ Hi), (Hv _ _ Hj) in E. assert (i = j) as -> by lia. by simplify_eq.
Qed.

Lemma merge_sort_versions (l : list Event) (v : Z) :
  (forall k e, l !! k = Some e -> Version e = v + Z.of_nat k + 1) -> merge_sort le_version l = l.
Proof.
  intros Hv. destruct (versions_sorted l v Hv) as [Hs Hinj].
  assert (Transitive le_version) by (intros ???; unfold le_version; lia).
  assert (Total le_version) by (intros ??; unfold le_version; lia).
  apply (Sorted_unique_strong le_version); [|apply (Sorted_merge_sort _)|done|apply merge_sort_Permutation].
  intros x1 x2 H1 H2 Ha Hb. rewrite merge_sort_Permutation in H1. apply Hinj; [done..|].
  unfold le_version in *. lia.
Qed.

Lemma LoadEvents_history s id from :
  store_inv s -> id <> "" -> is_Some (events s !! id) -> 0 <= from ->
  LoadEvents s id from = Ok (drop (Z.to_nat from) (history s id)).
Proof.
  intros Hi Hid [l Hl] Hf. unfold LoadEvents. rewrite bool_decide_eq_false_2, Hl by done.
  assert (deref s l = history s id) as -> by (unfold history, stored; by rewrite Hl).
  assert (forall k e, history s id !! k = Some e -> Version e = 0 + Z.of_nat k + 1) as Hv
    by (intros k e Hk; apply history_lookup in Hk; [lia|done]).
  rewrite (filter_versions _ 0) by done. rewrite Z.sub_0_r.
  rewrite (merge_sort_versions _ (Z.of_nat (Z.to_nat from))); [done|].
  intros k e Hk. rewrite lookup_drop in Hk. rewrite (Hv _ _ Hk). lia.
Qed.

(** Exact loading.  In a store built by appends of fresh events, the
    history of an aggregate is numbered 1, 2, ..., n without gaps, carries the
    aggregate's id, and [n] is its version; loading from version [v] returns
    exactly the events [v+1 .. n] in version order. *)
Theorem LoadEvents_exact h s id from :
  reachable h s -> id <> "" -> is_Some (events s !! id) -> 0 <= from ->
  LoadEvents s id from = Ok (drop (Z.to_nat from) (history s id)) /\
  GetVersion s id = Ok (zlen (history s id)) /\
  (forall k e, history s id !! k = Some e -> AggregateID e = id /\ Version e = Z.of_nat k + 1).
Proof.
  intros Hr Hid Hk Hf. pose proof (reachable_store_inv h s Hr) as Hi. split_and!.
  - by apply LoadEvents_history.
  - unfold GetVersion. rewrite bool_decide_eq_false_2 by done. rewrite length_history by done.
    rewrite <- (inv_version _ Hi). apply (inv_known _ Hi) in Hk as [v Hv]. unfold version_of. by rewrite Hv.
  - intros k e. by apply history_lookup.
Qed.

(** ** Rebuilding an aggregate *)

(** What an aggregate promises the engine. *)
Class AggregateLaws (A : Type) `{!Aggregate A} : Prop := {
  apply_id a e a' : Apply a e = (a', None) -> agg_id a' = agg_id a;
  apply_version a e a' : Apply a e = (a', None) -> agg_version a' = agg_version a + 1;
  restore a b st : MarshalState a = Ok st -> agg_id b = agg_id a ->
    exists b', UnmarshalState b st = (b', None) /\ SetVersion (agg_version a) b' = a;
}.

Section rebuild.
Context {A : Type} `{!Aggregate A, !AggregateLaws A}.

Lemma replay_loop_app a l1 l2 :
  replay_loop a (l1 ++ l2) =
    match replay_loop a l1 with (a, Some err) => (a, Some err) | (a, None) => replay_loop a l2 end.
Proof.
  revert a. induction l1 as [|e l1 IH]; intros a; [done|]. simpl. by destruct (Apply a e) as [a' [err|]].
Qed.

Lemma replay_facts a l a' :
  replay_loop a l = (a', None) -> agg_id a' = agg_id a /\ agg_version a' = agg_version a + zlen l.
Proof.
  revert a. induction l as [|e l IH]; intros a H; simpl in H; [injection H as <-; split; [done|simpl; lia]|].
  destruct (Apply a e) as [a1 [err|]] eqn:Ea; [done|]. apply IH in H as [-> ->].
  rewrite (apply_id _ _ _ Ea), (apply_version _ _ _ Ea), length_cons. split; [done|lia].
Qed.

(** A snapshot plus the later events is the whole history.  Take an
    aggregate that has replayed the first [k] events of its history and
    snapshot it.  Rebuilding any instance with the same id from the engine
    gives the state that replaying the entire history from the start gives;
    so does rebuilding without a snapshot. *)
Theorem rebuild_is_replay h (en : EventSourcingEngine) (a0 ak an b : A) (k : nat) st :
  reachable h (eventStore en) -> agg_id a0 <> "" -> is_Some (events (eventStore en) !! agg_id a0) ->
  agg_version a0 = 0 -> (k <= length (history (eventStore en) (agg_id a0)))%nat ->
  replay_loop a0 (take k (history (eventStore en) (agg_id a0))) = (ak, None) ->
  replay_loop a0 (history (eventStore en) (agg_id a0)) = (an, None) ->
  MarshalState ak = Ok st -> agg_id b = agg_id a0 ->
  RebuildState (CreateSnapshot en (Some ak)).1 (Some b) = (Some an, None) /\
  (snapshotStore en !! agg_id a0 = None -> RebuildState en (Some a0) = (Some an, None)).
Proof.
  intros Hr Hid Hev Hv0 Hk Hak Han Hst Hb. pose proof (reachable_store_inv _ _ Hr) as Hi.
  destruct (replay_facts _ _ _ Hak) as [Ei Ev].
  rewrite length_take_le, Hv0 in Ev by lia. split.
  - assert (CreateSnapshot en (Some ak) =
      ({| eventStore := eventStore en;
          snapshotStore := <[agg_id a0 := NewSnapshot (agg_id a0) (agg_version ak) st]> (snapshotStore en) |}, None)) as ->.
    { unfold CreateSnapshot, SaveSnapshot. rewrite Ei, bool_decide_eq_false_2, Hst by done.
      simpl snap_AggregateID. by rewrite bool_decide_eq_false_2. }
    cbn [fst]. unfold RebuildState.
    rewrite Hb, bool_decide_eq_false_2 by done. unfold LoadSnapshot. cbn [snapshotStore eventStore].
    rewrite bool_decide_eq_false_2, lookup_insert_eq by done. cbn [State snap_Version NewSnapshot].
    destruct (restore ak b st Hst) as (b' & -> & ->); [by rewrite Ei|].
    rewrite LoadEvents_history by (done || lia).
    replace (Z.to_nat (agg_version ak)) with k by lia.
    rewrite <- (take_drop k (history _ _)) in Han at 1. rewrite replay_loop_app, Hak in Han. by rewrite Han.
  - intros Hns. unfold RebuildState. rewrite bool_decide_eq_false_2 by done. unfold LoadSnapshot.
    rewrite bool_decide_eq_false_2, Hns by done. unfold rebuild_from.
    rewrite LoadEvents_history by (done || lia). rewrite drop_0. by rewrite Han.
Qed.
End rebuild.

(** ** Examples *)

Module Examples.

(** An aggregate that adds up the bytes of its events. *)
Record sum := { sum_id : string; sum_version : Z; total : Z }.

#[local] Instance sum_aggregate : Aggregate sum := {|
  agg_id := sum_id;
  agg_version := sum_version;
  SetVersion v a := {| sum_id := sum_id a; sum_version := v; total := total a |};
  Apply a e := ({| sum_id := sum_id a; sum_version := sum_version a + 1;
                   total := total a + foldr Z.add 0 (EventData e) |}, None);
  MarshalState a := Ok [total a];
  UnmarshalState a st := ({| sum_id := sum_id a; sum_version := sum_version a;
                             total := default 0 (head st) |}, None);
|}.

#[local] Instance sum_laws : AggregateLaws sum.
Proof.
  split.
  - intros a e a' H. by injection H as <-.
  - intros a e a' H. by injection H as <-.
  - intros a b st H Hid. injection H as <-. eexists. split; [done|]. destruct a, b. simpl in *. by subst.
Qed.

Definition ev (n : Z) : Event := NewEvent "" "Added" [n] 0.
Definition objects : gmap nat Event := <[0%nat := ev 3]> (<[1%nat := ev 4]> (<[2%nat := ev 5]> ∅)).
Definition store0 : InMemoryEventStore := NewInMemoryEventStore objects.
Definition store1 : InMemoryEventStore := (AppendEvents store0 "acc" 0 [Some 0%nat; Some 1%nat]).1.

Lemma fresh01 : fresh store0 [0%nat; 1%nat].
Proof.
  split.
  - apply (bool_decide_unpack _). vm_compute. exact I.
  - repeat constructor; eexists; reflexivity.
  - intros id a _. unfold stored. simpl. rewrite lookup_empty. apply not_elem_of_nil.
Qed.

Lemma store1_reachable : reachable objects store1.
Proof. apply reach_append; [apply reach_new|exact fresh01|vm_compute; reflexivity]. Qed.

Lemma AppendEvents_optimistic_witness :
  let r := AppendEvents store0 "acc" 0 [Some 0%nat; Some 1%nat] in
  r.2 = None /\ length (history r.1 "acc") = 2%nat /\
  (AppendEvents r.1 "acc" 0 [Some 2%nat]).2 = Some ErrVersionConflict.
Proof.
  intros r. split; [vm_compute; reflexivity|]. split; [|vm_compute; reflexivity].
  destruct (AppendEvents_optimistic store0 "acc" 0 [0%nat; 1%nat] r.1 r.2) as (_ & H & _).
  - apply new_store_inv.
  - split; [discriminate|discriminate|exact fresh01| |vm_compute; reflexivity].
    repeat constructor; eexists; (split; [reflexivity|left; reflexivity]).
  - apply surjective_pairing.
  - destruct H as [-> _]; vm_compute; reflexivity.
Defined.

Lemma LoadEvents_exact_witness :
  LoadEvents store1 "acc" 1 = Ok [stamp "acc" 2 (ev 4)] /\ GetVersion store1 "acc" = Ok 2.
Proof.
  destruct (LoadEvents_exact objects store1 "acc" 1) as (H1 & H2 & _).
  - exact store1_reachable.
  - discriminate.
  - eexists. vm_compute. reflexivity.
  - discriminate.
  - rewrite H1, H2. split; vm_compute; reflexivity.
Defined.

Lemma rebuild_is_replay_witness :
  let en := {| eventStore := store1; snapshotStore := ∅ |} in
  let a0 := {| sum_id := "acc"; sum_version := 0; total := 0 |} in
  let a1 := {| sum_id := "acc"; sum_version := 1; total := 3 |} in
  let a2 := {| sum_id := "acc"; sum_version := 2; total := 7 |} in
  RebuildState (CreateSnapshot en (Some a1)).1 (Some a0) = (Some a2, None) /\
  RebuildState en (Some a0) = (Some a2, None).
Proof.
  intros en a0 a1 a2.
  destruct (rebuild_is_replay objects en a0 a1 a2 a0 1 [3]) as [H1 H2].
  - exact store1_reachable.
  - discriminate.
  - eexists. vm_compute. reflexivity.
  - reflexivity.
  - apply Nat.leb_le. vm_compute. reflexivity.
  - vm_compute. reflexivity.
  - vm_compute. reflexivity.
  - reflexivity.
  - reflexivity.
  - split; [exact H1|]. apply H2. reflexivity.
Defined.

(** The store shares its events with the caller.  Appending an event
    object a second time overwrites the version of the entry that is already
    stored: the history then holds version 2 twice and version 1 not at all. *)
Theorem reused_event_rewrites_history :
  let '(s1, err1) := AppendEvents store0 "acc" 0 [Some 0%nat] in
  let '(s2, err2) := AppendEvents s1 "acc" 1 [Some 0%nat] in
  err1 = None /\ err2 = None /\
  LoadEvents s1 "acc" 0 = Ok [stamp "acc" 1 (ev 3)] /\
  LoadEvents s2 "acc" 0 = Ok [stamp "acc" 2 (ev 3); stamp "acc" 2 (ev 3)] /\ GetVersion s2 "acc" = Ok 2.
Proof. vm_compute. repeat split. Qed.

End Examples.
