(* ===== verification/Ordered.v ===== *)
(** Ordered keys and sorting, as the Go code uses them.

    [Ordered] is the constraint [cmp.Ordered]: keys with a strict total order
    that the code tests with [<] and [==].  (Floating-point keys belong here as
    long as they are not NaN.)  [SortSlice] is [sort.Slice]: it promises a
    sorted permutation and nothing about the order of equal elements. *)

From stdpp Require Import base tactics sets list strings sorting.
From Stdlib Require Import ZArith Lia.

Class Ordered (K : Type) := {
  key_lt : relation K;
  #[global] key_eq_dec :: EqDecision K;
  #[global] key_lt_dec :: RelDecision key_lt;
  #[global] key_lt_strict :: StrictOrder key_lt;
  #[global] key_lt_trichotomy :: Trichotomy key_lt;
}.

Arguments key_lt : simpl never.

(** Go strings are compared byte by byte. *)
#[export] Instance string_trichotomy : Trichotomy (strict String.le).
Proof.
  intros a b. unfold strict. destruct (decide (a = b)) as [->|Hne]; [auto|].
  destruct (total String.le a b) as [H|H]; [left|right; right]; split; try done;
    intros H'; apply Hne; by apply (anti_symm String.le).
Qed.

#[export] Instance string_ordered : Ordered string :=
  {| key_lt := strict String.le; key_eq_dec := _; key_lt_dec := _; key_lt_strict := _; key_lt_trichotomy := _ |}.

#[export] Instance Z_trichotomy : Trichotomy Z.lt.
Proof. intros a b. lia. Qed.

#[export] Instance Z_ordered : Ordered Z :=
  {| key_lt := Z.lt; key_eq_dec := _; key_lt_dec := _; key_lt_strict := _; key_lt_trichotomy := _ |}.

Section ordered.
Context {K : Type} `{!Ordered K}.

Lemma key_lt_irrefl (a : K) : ~ key_lt a a.
Proof. apply irreflexivity, _. Qed.

Lemma key_lt_trans (a b c : K) : key_lt a b -> key_lt b c -> key_lt a c.
Proof. apply transitivity. Qed.

Lemma key_lt_asym (a b : K) : key_lt a b -> ~ key_lt b a.
Proof. intros H1 H2. by eapply key_lt_irrefl, key_lt_trans. Qed.

Lemma key_not_lt (a b : K) : ~ key_lt a b -> a = b \/ key_lt b a.
Proof. intros H. destruct (trichotomy key_lt a b) as [?|[?|?]]; auto. done. Qed.

Lemma key_lt_ne (a b : K) : key_lt a b -> a <> b.
Proof. intros H ->. by eapply key_lt_irrefl. Qed.

Lemma key_not_lt_trans (a b c : K) : ~ key_lt a b -> ~ key_lt b c -> ~ key_lt a c.
Proof.
  intros H1 H2 H3. destruct (key_not_lt a b H1) as [->|Hba]; [done|].
  apply H2. by eapply key_lt_trans.
Qed.

End ordered.

#[export] Hint Resolve key_lt_irrefl key_lt_asym key_lt_ne : core.

(** ** sort.Slice *)

(** [sort.Slice(s, func(i, j int) bool { return key(s[i]) < key(s[j]) })]. *)
Class SortSlice := {
  sort_slice {A K} `{!Ordered K} : (A -> K) -> list A -> list A;
  sort_slice_perm {A K} `{!Ordered K} (f : A -> K) l : sort_slice f l ≡ₚ l;
  sort_slice_sorted {A K} `{!Ordered K} (f : A -> K) l :
    StronglySorted (fun a b => ~ key_lt (f b) (f a)) (sort_slice f l);
}.

(** Insertion sort is one implementation. *)
Section insertion_sort.
Context {A K : Type} `{!Ordered K} (f : A -> K).

Fixpoint insert_by (x : A) (l : list A) : list A :=
  match l with
  | [] => [x]
  | y :: l' => if decide (key_lt (f y) (f x)) then y :: insert_by x l' else x :: l
  end.

Definition insertion_sort (l : list A) : list A := foldr insert_by [] l.

Lemma insert_by_perm x l : insert_by x l ≡ₚ x :: l.
Proof. induction l as [|y l IH]; simpl; [done|]. case_decide; [|done]. rewrite IH. constructor. Qed.

Lemma insertion_sort_perm l : insertion_sort l ≡ₚ l.
Proof. induction l as [|x l IH]; simpl; [done|]. by rewrite insert_by_perm, IH. Qed.

Lemma insert_by_sorted x l :
  StronglySorted (fun a b => ~ key_lt (f b) (f a)) l ->
  StronglySorted (fun a b => ~ key_lt (f b) (f a)) (insert_by x l).
Proof.
  induction 1 as [|y l Hs IH Hy]; simpl; [repeat constructor|]. case_decide as Hlt.
  - constructor; [done|]. rewrite insert_by_perm. constructor; [by apply key_lt_asym|done].
  - constructor; [by constructor|]. constructor; [done|]. eapply Forall_impl; [exact Hy|].
    intros z Hz. exact (key_not_lt_trans _ _ _ Hz Hlt).
Qed.

Lemma insertion_sort_sorted l : StronglySorted (fun a b => ~ key_lt (f b) (f a)) (insertion_sort l).
Proof. induction l as [|x l IH]; simpl; [constructor|]. by apply insert_by_sorted. Qed.

End insertion_sort.

Definition stable_sort_slice : SortSlice :=
  {| sort_slice := @insertion_sort; sort_slice_perm := @insertion_sort_perm;
     sort_slice_sorted := @insertion_sort_sorted |}.

Lemma StronglySorted_impl {A} (R1 R2 : relation A) l :
  (forall a b, R1 a b -> R2 a b) -> StronglySorted R1 l -> StronglySorted R2 l.
Proof. intros H Hs. rewrite <- (list_fmap_id l). by apply (StronglySorted_fmap id R1). Qed.

(** Sorting has one result where the keys differ. *)
Lemma sorted_perm_unique {A K} `{!Ordered K} (f : A -> K) (l1 l2 : list A) :
  StronglySorted (fun a b => key_lt (f a) (f b)) l1 ->
  StronglySorted (fun a b => ~ key_lt (f b) (f a)) l2 -> l1 ≡ₚ l2 -> l1 = l2.
Proof.
  revert l2. induction l1 as [|x l1 IH]; intros l2 H1 H2 Hp; [by apply Permutation_nil_l in Hp|].
  destruct l2 as [|y l2]; [by apply Permutation_nil_r in Hp|].
  apply StronglySorted_inv in H1 as [H1 Hx], H2 as [H2 Hy].
  assert (x = y) as <-.
  { assert (x ∈ y :: l2) as Hin by (rewrite <- Hp; set_solver).
    assert (y ∈ x :: l1) as Hin' by (rewrite Hp; set_solver).
    apply elem_of_cons in Hin as [?|Hin]; [done|]. apply elem_of_cons in Hin' as [?|Hin']; [done|].
    rewrite Forall_forall in Hx, Hy. by destruct (Hy _ Hin (Hx _ Hin')). }
  f_equal. apply IH; [done|done|]. by apply Permutation_cons_inv in Hp.
Qed.

Lemma sort_slice_strict `{!SortSlice} {A K} `{!Ordered K} (f : A -> K) l :
  NoDup (f <$> l) -> StronglySorted (fun a b => key_lt (f a) (f b)) (sort_slice f l).
Proof.
  intros Hnd. pose proof (sort_slice_sorted f l) as Hs. rewrite <- (sort_slice_perm f l) in Hnd. revert Hnd Hs.
  generalize (sort_slice f l). clear l. intros l. induction l as [|x l IH]; [constructor|]. rewrite fmap_cons.
  intros [Hx Hnd]%NoDup_cons [Hs Hf]%StronglySorted_inv. constructor; [by apply IH|].
  rewrite Forall_forall in Hf |- *. intros y Hy. destruct (key_not_lt _ _ (Hf y Hy)) as [E|]; [|done].
  destruct Hx. rewrite <- E. by apply list_elem_of_fmap_2.
Qed.

(** ** sort.Search *)

(** The binary search of the standard library, over indices; the interval
    shrinks with every round, so [n] rounds are enough. *)
Fixpoint search_loop (fuel i j : nat) (f : nat -> bool) : nat :=
  match fuel with
  | O => i
  | S fuel =>
      if (i <? j)%nat then
        let h := Nat.div2 (i + j) in
        if f h then search_loop fuel i h f else search_loop fuel (S h) j f
      else i
  end.

Definition sort_Search (n : nat) (f : nat -> bool) : nat := search_loop n 0 n f.

Lemma search_loop_spec n f fuel i j :
  (forall a b, (a <= b < n)%nat -> f a = true -> f b = true) ->
  (j - i <= fuel)%nat -> (i <= j <= n)%nat ->
  (forall k, (k < i)%nat -> f k = false) -> (forall k, (j <= k < n)%nat -> f k = true) ->
  let r := search_loop fuel i j f in
  (r <= n)%nat /\ (forall k, (k < r)%nat -> f k = false) /\ (forall k, (r <= k < n)%nat -> f k = true).
Proof.
  intros Hm. revert i j. induction fuel as [|fuel IH]; intros i j Hf Hij Hlo Hhi; simpl.
  - split_and!; [lia|done|]. intros k Hk. apply Hhi. lia.
  - destruct (Nat.ltb_spec i j) as [Hlt|Hge]; [|split_and!; [lia|done|]; intros k Hk; apply Hhi; lia].
    pose proof (Nat.div2_decr (i + j)) as Hd1.
    assert (i <= Nat.div2 (i + j) < j)%nat as Hd by (rewrite Nat.div2_div; split;
      [apply Nat.div_le_lower_bound; lia|apply Nat.Div0.div_lt_upper_bound; lia]).
    destruct (f (Nat.div2 (i + j))) eqn:E; apply IH; try lia; try done.
    + intros k Hk. apply (Hm (Nat.div2 (i + j))); [lia|done].
    + intros k Hk. destruct (f k) eqn:Ek; [|done]. rewrite (Hm k (Nat.div2 (i + j))) in E; [done|lia|done].
Qed.

Lemma sort_Search_spec n f :
  (forall a b, (a <= b < n)%nat -> f a = true -> f b = true) ->
  (sort_Search n f <= n)%nat /\ (forall k, (k < sort_Search n f)%nat -> f k = false) /\
  (forall k, (sort_Search n f <= k < n)%nat -> f k = true).
Proof. intros Hm. apply (search_loop_spec n f n 0 n Hm); lia. Qed.
