(* ===== verification/GoHeap.v ===== *)
(** container/heap, on a slice with the methods of [sort.Interface]: sifting
    up and down, [Push], [Pop], [Remove], [Fix] and [Init].

    [less] is the method [Less] on the elements of the slice.  Under the laws
    of [WeakOrder] the operations keep the heap order and the elements, and
    [Pop] takes a least element. *)

From stdpp Require Import base tactics list.
From Stdlib Require Import Lia.

Section heap.
Context {A : Type} `{!Inhabited A} (less : A -> A -> bool).

Definition swap (l : list A) (i j : nat) : list A :=
  match l !! i, l !! j with
  | Some x, Some y => <[j := x]> (<[i := y]> l)
  | _, _ => l
  end.

(** The parent of an index; the parent of the root is the root. *)
Definition parent (j : nat) : nat := Nat.div2 (j - 1).

(** Every round moves to a smaller index, so [j] rounds are enough. *)
Fixpoint up_loop (fuel : nat) (l : list A) (j : nat) : list A :=
  match fuel with
  | O => l
  | S fuel =>
      let i := parent j in
      if (i =? j) || negb (less (l !!! j) (l !!! i)) then l
      else up_loop fuel (swap l i j) i
  end.

Definition up (l : list A) (j : nat) : list A := up_loop j l j.

(** The index moves to one of its children, below [n]. *)
Fixpoint down_loop (fuel : nat) (l : list A) (i n : nat) : list A * nat :=
  match fuel with
  | O => (l, i)
  | S fuel =>
      let j1 := 2 * i + 1 in
      if n <=? j1 then (l, i)
      else
        let j2 := S j1 in
        let j := if (j2 <? n) && less (l !!! j2) (l !!! j1) then j2 else j1 in
        if negb (less (l !!! j) (l !!! i)) then (l, i)
        else down_loop fuel (swap l i j) j n
  end.

Definition down (l : list A) (i0 n : nat) : list A * bool :=
  let '(l, i) := down_loop n l i0 n in (l, i0 <? i).

Definition heap_Push (l : list A) (x : A) : list A :=
  let l := l ++ [x] in up l (length l - 1).

(** The method [Pop] of the slice: its last element. *)
Definition slice_Pop (l : list A) : option (A * list A) :=
  match last l with Some x => Some (x, take (length l - 1) l) | None => None end.

Definition heap_Pop (l : list A) : option (A * list A) :=
  let n := length l - 1 in
  slice_Pop (down (swap l 0 n) 0 n).1.

Definition heap_Fix (l : list A) (i : nat) : list A :=
  let '(l, moved) := down l i (length l) in if moved then l else up l i.

Definition heap_Remove (l : list A) (i : nat) : option (A * list A) :=
  let n := length l - 1 in
  slice_Pop (if n =? i then l
             else let '(l, moved) := down (swap l i n) i n in if moved then l else up l i).

Definition heap_Init (l : list A) : list A :=
  foldl (fun l i => (down l i (length l)).1) l (reverse (seq 0 (length l / 2))).

(** ** Laws *)

Class WeakOrder : Prop := {
  less_asym a b : less a b = true -> less b a = false;
  less_ntrans a b c : less b a = false -> less c b = false -> less c a = false;
}.

Definition le (a b : A) : Prop := less b a = false.

(** The first [n] elements are in heap order. *)
Definition heap_upto (n : nat) (l : list A) : Prop :=
  forall k, 0 < k < n -> le (l !!! parent k) (l !!! k).

Definition is_heap (l : list A) : Prop := heap_upto (length l) l.

Lemma parent_lt k : 0 < k -> parent k < k.
Proof. intros Hk. unfold parent. pose proof (Nat.div2_decr (k - 1) (k - 1)). lia. Qed.

Lemma parent_children k i : 0 < k -> parent k = i <-> k = 2 * i + 1 \/ k = 2 * i + 2.
Proof.
  intros Hk. unfold parent. pose proof (Nat.div2_odd (k - 1)) as Ho.
  split; [intros <-|intros [->| ->]].
  - destruct (Nat.odd (k - 1)); simpl in Ho; lia.
  - replace (2 * i + 1 - 1) with (2 * i) by lia. apply Nat.div2_double.
  - replace (2 * i + 2 - 1) with (S (2 * i)) by lia. apply Nat.div2_succ_double.
Qed.

Lemma swap_perm l i j : swap l i j ≡ₚ l.
Proof.
  unfold swap. destruct (l !! i) eqn:Hi, (l !! j) eqn:Hj; try done. by apply Permutation_insert_swap.
Qed.

Lemma length_swap l i j : length (swap l i j) = length l.
Proof. apply Permutation_length, swap_perm. Qed.

Lemma lookup_swap l i j k : i < length l -> j < length l ->
  swap l i j !!! k = if decide (k = j) then l !!! i else if decide (k = i) then l !!! j else l !!! k.
Proof.
  intros Hi Hj. unfold swap.
  rewrite (list_lookup_lookup_total_lt l i Hi), (list_lookup_lookup_total_lt l j Hj).
  rewrite !list_lookup_total_insert, length_insert.
  destruct (decide (k = j)) as [->|Hkj]; [by rewrite decide_True by done|]. rewrite decide_False by naive_solver.
  destruct (decide (k = i)) as [->|Hki]; [by rewrite decide_True by done|]. by rewrite decide_False by naive_solver.
Qed.

Lemma up_loop_perm fuel l j : up_loop fuel l j ≡ₚ l.
Proof.
  revert l j. induction fuel as [|fuel IH]; intros l j; simpl; [done|]. case_match; [done|]. by rewrite IH, swap_perm.
Qed.

Lemma down_loop_perm fuel l i n : (down_loop fuel l i n).1 ≡ₚ l.
Proof.
  revert l i. induction fuel as [|fuel IH]; intros l i; simpl; [done|]. repeat case_match; try done; by rewrite IH, swap_perm.
Qed.

Lemma down_perm l i n : (down l i n).1 ≡ₚ l.
Proof. unfold down. pose proof (down_loop_perm n l i n). by destruct (down_loop n l i n). Qed.

Lemma up_perm l j : up l j ≡ₚ l.
Proof. apply up_loop_perm. Qed.

Context `{WO : !WeakOrder}.

Lemma le_trans a b c : le a b -> le b c -> le a c.
Proof. unfold le. intros H1 H2. by eapply less_ntrans. Qed.

Lemma less_le a b : less a b = true -> le a b.
Proof. unfold le. apply less_asym. Qed.

Lemma le_refl a : le a a.
Proof. unfold le. destruct (less a a) eqn:E; [|done]. pose proof (less_asym a a E). congruence. Qed.

(** *** Sifting up *)

(** In order but for [j], which may be smaller than its parent. *)
Definition up_inv (n : nat) (l : list A) (j : nat) : Prop :=
  (forall k, 0 < k < n -> k <> j -> le (l !!! parent k) (l !!! k)) /\
  (forall k, 0 < k < n -> parent k = j -> 0 < j -> le (l !!! parent j) (l !!! k)).

Lemma up_step n l j : n <= length l -> j < n -> 0 < j -> less (l !!! j) (l !!! parent j) = true ->
  up_inv n l j -> up_inv n (swap l (parent j) j) (parent j).
Proof.
  intros Hn Hj Hj0 Hl [H1 H2]. pose proof (parent_lt j Hj0) as Hp. set (i := parent j) in *.
  apply less_le in Hl. split.
  - intros k Hk Hki. rewrite !lookup_swap by lia. destruct (decide (k = j)) as [->|Hkj].
    + fold i. rewrite decide_False by lia. by rewrite decide_True.
    + rewrite (decide_False (P := k = i)) by done. destruct (decide (parent k = j)) as [Hpj|].
      * by apply H2.
      * destruct (decide (parent k = i)) as [Hpi|].
        -- apply (le_trans _ (l !!! i)); [done|]. rewrite <- Hpi. by apply H1.
        -- by apply H1.
  - intros k Hk Hki Hi. pose proof (parent_lt i Hi). rewrite !lookup_swap by lia.
    rewrite (decide_False (P := parent i = j)), (decide_False (P := parent i = i)) by lia.
    assert (le (l !!! parent i) (l !!! i)) as Hpi by (apply H1; lia).
    destruct (decide (k = j)) as [->|Hkj]; [done|].
    assert (k <> i) by (pose proof (parent_lt k); lia). rewrite decide_False by done.
    apply (le_trans _ (l !!! i)); [done|]. rewrite <- Hki. by apply H1.
Qed.

Lemma up_loop_heap n fuel l j :
  j <= fuel -> n <= length l -> j < n -> up_inv n l j -> heap_upto n (up_loop fuel l j).
Proof.
  revert l j. induction fuel as [|fuel IH]; intros l j Hf Hn Hj Hi.
  - assert (j = 0) as -> by lia. intros k Hk. simpl. apply Hi; lia.
  - simpl. destruct (Nat.eqb_spec (parent j) j) as [E|E]; simpl.
    + assert (j = 0) as -> by (destruct j; [done|pose proof (parent_lt (S j)); lia]). intros k Hk. apply Hi; lia.
    + assert (0 < j) as Hj0 by (destruct j; [done|lia]). pose proof (parent_lt j Hj0).
      destruct (less (l !!! j) (l !!! parent j)) eqn:Hl; simpl.
      * apply IH; [lia|by rewrite length_swap|lia|]. by apply up_step.
      * intros k Hk. destruct (decide (k = j)) as [->|]; [done|]. by apply Hi.
Qed.

Lemma up_heap n l j : n <= length l -> j < n -> up_inv n l j -> heap_upto n (up l j).
Proof. by apply up_loop_heap. Qed.

(** *** Sifting down *)

(** In order but for [i], which may be larger than its children and smaller
    than its parent. *)
Definition down_inv (n : nat) (l : list A) (i : nat) : Prop :=
  (forall k, 0 < k < n -> parent k <> i -> k <> i -> le (l !!! parent k) (l !!! k)) /\
  (forall k, 0 < k < n -> parent k = i -> 0 < i -> le (l !!! parent i) (l !!! k)).

Lemma down_step n l i j : n <= length l -> i < n -> 0 < j < n -> parent j = i -> less (l !!! j) (l !!! i) = true ->
  (forall k, 0 < k < n -> parent k = i -> le (l !!! j) (l !!! k)) -> down_inv n l i ->
  down_inv n (swap l i j) j /\ le (swap l i j !!! parent j) (swap l i j !!! j).
Proof.
  intros Hn Hi Hj Hp Hl Hmin [H1 H2]. pose proof (parent_lt j ltac:(lia)) as Hlt. apply less_le in Hl.
  assert (le (swap l i j !!! parent j) (swap l i j !!! j)) as Hij.
  { rewrite !lookup_swap, Hp by lia. rewrite (decide_False (P := i = j)) by lia. by rewrite !decide_True. }
  split; [|done]. split.
  - intros k Hk Hkp Hkj. rewrite !lookup_swap by lia. rewrite (decide_False (P := parent k = j)) by done.
    rewrite (decide_False (P := k = j)) by done. destruct (decide (parent k = i)) as [Hpi|Hpi].
    + assert (k <> i) by (pose proof (parent_lt k); lia). rewrite decide_False by done. by apply Hmin.
    + destruct (decide (k = i)) as [->|Hki]; [|by apply H1]. apply H2; [lia|done|lia].
  - intros k Hk Hkp _. assert (k <> j) by (pose proof (parent_lt k); lia). assert (k <> i) by (pose proof (parent_lt k); lia).
    rewrite !lookup_swap, Hp by lia. rewrite (decide_False (P := i = j)) by lia. rewrite decide_True by done.
    rewrite !decide_False by done. rewrite <- Hkp. apply H1; [lia|lia|done].
Qed.

Lemma down_loop_spec n fuel l i : n <= length l -> i < n -> n <= i + fuel -> down_inv n l i ->
  let '(l', i') := down_loop fuel l i n in
  (i' = i /\ l' = l /\ forall k, 0 < k < n -> parent k = i -> le (l !!! i) (l !!! k)) \/ (i < i' /\ heap_upto n l').
Proof.
  revert l i. induction fuel as [|fuel IH]; intros l i Hn Hi Hf Hd; simpl; [lia|].
  destruct (Nat.leb_spec n (i + (i + 0) + 1)) as [Hge|Hlt].
  { left. split_and!; [done|done|]. intros k Hk [->| ->]%parent_children; lia. }
  set (j1 := i + (i + 0) + 1) in *. set (j := if _ && _ then S j1 else j1).
  assert (0 < j < n /\ parent j = i /\ i < j /\ forall k, 0 < k < n -> parent k = i -> le (l !!! j) (l !!! k)) as (Hj & Hp & Hij & Hmin).
  { unfold j. destruct (Nat.ltb_spec (S j1) n) as [H2|H2]; simpl.
    - destruct (less (l !!! S j1) (l !!! j1)) eqn:El; (split; [lia|]); (split; [apply parent_children; lia|]);
        (split; [lia|]); intros k Hk [Ek|Ek]%parent_children; try lia.
      + replace k with j1 by lia. by apply less_le.
      + replace k with (S j1) by lia. apply le_refl.
      + replace k with j1 by lia. apply le_refl.
      + replace k with (S j1) by lia. done.
    - split; [lia|]. split; [apply parent_children; lia|]. split; [lia|].
      intros k Hk [Ek|Ek]%parent_children; try lia. replace k with j1 by lia. apply le_refl. }
  destruct (less (l !!! j) (l !!! i)) eqn:Hl; simpl.
  - destruct (down_step n l i j Hn Hi Hj Hp Hl Hmin Hd) as [Hd' He].
    specialize (IH (swap l i j) j). rewrite length_swap in IH. specialize (IH Hn ltac:(lia) ltac:(lia) Hd').
    destruct (down_loop fuel (swap l i j) j n) as [l' i']. destruct IH as [(-> & -> & Hc)|[Hi' Hh]]; [|right; split; [lia|done]].
    right. split; [done|]. intros k Hk. destruct (decide (parent k = j)) as [E|E]; [rewrite E; by apply Hc|].
    destruct (decide (k = j)) as [->|]; [done|]. by apply Hd'.
  - left. split_and!; [done|done|]. intros k Hk Hpk. apply (le_trans _ (l !!! j)); [done|]. by apply Hmin.
Qed.

Lemma down_spec n l i : n <= length l -> i < n -> down_inv n l i ->
  (down l i n = (l, false) /\ forall k, 0 < k < n -> parent k = i -> le (l !!! i) (l !!! k)) \/
  (exists l', down l i n = (l', true) /\ heap_upto n l').
Proof.
  intros Hn Hi Hd. unfold down. pose proof (down_loop_spec n n l i Hn Hi ltac:(lia) Hd) as Hs.
  destruct (down_loop n l i n) as [l' i']. destruct Hs as [(-> & -> & Hc)|[Hlt Hh]].
  - left. rewrite Nat.ltb_irrefl. done.
  - right. exists l'. rewrite (proj2 (Nat.ltb_lt i i')) by done. done.
Qed.

(** An element put in place of another in a heap, sifted both ways. *)
Lemma sift_heap n l i : n <= length l -> i < n -> down_inv n l i ->
  heap_upto n (let '(l, moved) := down l i n in if moved then l else up l i).
Proof.
  intros Hn Hi Hd. destruct (down_spec n l i Hn Hi Hd) as [[-> Hc]|(l' & -> & Hh)]; [|done].
  apply up_heap; [done|done|]. destruct Hd as [H1 H2]. split; [|done].
  intros k Hk Hki. destruct (decide (parent k = i)) as [E|E]; [rewrite E; by apply Hc|]. by apply H1.
Qed.

(** *** Indices that are not touched *)

Lemma lookup_swap_other l i j k : k <> i -> k <> j -> swap l i j !! k = l !! k.
Proof.
  intros Hi Hj. unfold swap. destruct (l !! i), (l !! j); try done. by rewrite !list_lookup_insert_ne.
Qed.

Lemma down_loop_above fuel l i n k : i < n -> n <= k -> (down_loop fuel l i n).1 !! k = l !! k.
Proof.
  revert l i. induction fuel as [|fuel IH]; intros l i Hi Hk; simpl; [done|].
  destruct (Nat.leb_spec n (i + (i + 0) + 1)); [done|]. set (j := if _ && _ then _ else _).
  assert (j < n) by (unfold j; case_match eqn:E; [apply andb_true_iff in E as [E%Nat.ltb_lt _]|]; lia).
  case_match; [done|]. rewrite IH by lia. apply lookup_swap_other; lia.
Qed.

Lemma down_above l i n k : i < n -> n <= k -> (down l i n).1 !! k = l !! k.
Proof.
  intros Hi Hk. unfold down. pose proof (down_loop_above n l i n k Hi Hk). by destruct (down_loop n l i n).
Qed.

Lemma up_above l j k : j < k -> up l j !! k = l !! k.
Proof.
  unfold up. generalize j at 2. intros fuel. revert l j. induction fuel as [|fuel IH]; intros l j Hk; simpl; [done|].
  case_match eqn:E; [done|]. apply orb_false_iff in E as [E%Nat.eqb_neq _].
  assert (parent j < j) by (apply parent_lt; destruct j; [done|lia]).
  rewrite IH by lia. apply lookup_swap_other; lia.
Qed.

(** *** The operations *)

Lemma heap_min l x : is_heap l -> l !! 0 = Some x -> forall y, y ∈ l -> le x y.
Proof.
  intros Hh Hx y [k Hk]%list_elem_of_lookup_1. revert y Hk. induction k as [k IH] using lt_wf_ind. intros y Hk.
  destruct (decide (k = 0)) as [->|Hk0]; [simplify_eq; apply le_refl|].
  pose proof (lookup_lt_Some _ _ _ Hk) as Hlt. pose proof (parent_lt k ltac:(lia)) as Hp.
  destruct (lookup_lt_is_Some_2 l (parent k)) as [z Hz]; [lia|].
  apply (le_trans _ z); [by apply (IH (parent k))|]. specialize (Hh k ltac:(lia)).
  by rewrite (list_lookup_total_correct _ _ _ Hz), (list_lookup_total_correct _ _ _ Hk) in Hh.
Qed.

Lemma heap_take n l : n <= length l -> heap_upto n l -> is_heap (take n l).
Proof.
  intros Hn Hh k Hk. rewrite length_take in Hk. pose proof (parent_lt k ltac:(lia)).
  rewrite !lookup_total_take_lt by lia. apply Hh. lia.
Qed.

Lemma slice_Pop_spec l x n : length l = S n -> l !! n = Some x -> slice_Pop l = Some (x, take n l) /\ l ≡ₚ x :: take n l.
Proof.
  intros Hl Hx. unfold slice_Pop. rewrite last_lookup, Hl. simpl. rewrite Hx, Nat.sub_0_r. split; [done|].
  rewrite <- (take_drop n l) at 1. rewrite (drop_S l x n) by done. rewrite drop_ge by lia.
  by rewrite Permutation_app_comm.
Qed.

Lemma heap_Push_spec l x : is_heap l -> is_heap (heap_Push l x) /\ heap_Push l x ≡ₚ x :: l.
Proof.
  intros Hh. unfold heap_Push. rewrite length_app, Nat.add_sub. split; [|by rewrite up_perm, Permutation_app_comm].
  unfold is_heap. rewrite (Permutation_length (up_perm _ _)), length_app. apply up_heap; [rewrite length_app; simpl; lia|simpl; lia|].
  split.
  - intros k Hk Hne. simpl in Hk. pose proof (parent_lt k ltac:(lia)). rewrite !lookup_total_app_l by lia. apply Hh. lia.
  - intros k Hk Hp. simpl in Hk. pose proof (parent_lt k ltac:(lia)). lia.
Qed.

Lemma swap_last_down l i n : is_heap l -> length l = S n -> i < n -> down_inv n (swap l i n) i.
Proof.
  intros Hh Hl Hi. split.
  - intros k Hk Hp Hki. pose proof (parent_lt k ltac:(lia)). rewrite !lookup_swap by lia.
    rewrite !decide_False by lia. apply Hh. lia.
  - intros k Hk Hp Hi0. pose proof (parent_lt k ltac:(lia)). pose proof (parent_lt i Hi0).
    rewrite !lookup_swap by lia. rewrite !decide_False by lia.
    apply (le_trans _ (l !!! i)); [apply Hh; lia|]. rewrite <- Hp. apply Hh. lia.
Qed.

(** The removed element ends at the end of the slice. *)
Lemma removed_spec l l' x n : length l = S n -> l' ≡ₚ l -> heap_upto n l' -> l' !! n = Some x ->
  exists rest, slice_Pop l' = Some (x, rest) /\ l ≡ₚ x :: rest /\ is_heap rest.
Proof.
  intros Hl Hp Hh Hx. assert (length l' = S n) as Hl' by (by rewrite Hp).
  destruct (slice_Pop_spec l' x n Hl' Hx) as [Hs Hperm]. exists (take n l').
  split_and!; [done|by rewrite <- Hp|]. apply heap_take; [lia|done].
Qed.

Lemma heap_Remove_spec l i x : is_heap l -> l !! i = Some x ->
  exists rest, heap_Remove l i = Some (x, rest) /\ l ≡ₚ x :: rest /\ is_heap rest.
Proof.
  intros Hh Hx. pose proof (lookup_lt_Some _ _ _ Hx) as Hi. unfold heap_Remove.
  destruct (length l) as [|n] eqn:Hl; [lia|]. simpl. rewrite Nat.sub_0_r.
  destruct (Nat.eqb_spec n i) as [->|Hne].
  - apply removed_spec with (n := i); [done|done| |done]. intros k Hk. apply Hh. lia.
  - assert (i < n) as Hin by lia. pose proof (swap_last_down l i n Hh Hl Hin) as Hd.
    assert (swap l i n !! n = Some x) as Hlast.
    { unfold swap. rewrite Hx. destruct (lookup_lt_is_Some_2 l n) as [y Hy]; [lia|]. rewrite Hy.
      apply list_lookup_insert_eq. rewrite length_insert. lia. }
    pose proof (sift_heap n (swap l i n) i) as Hs. rewrite length_swap, Hl in Hs. specialize (Hs ltac:(lia) Hin Hd).
    pose proof (down_perm (swap l i n) i n) as Hp. pose proof (down_above (swap l i n) i n n Hin ltac:(lia)) as Ha.
    destruct (down (swap l i n) i n) as [l1 moved]. simpl in *.
    apply (removed_spec l _ x n Hl); [| |destruct moved; [by rewrite Ha|by rewrite up_above, Ha]]; destruct moved; try done.
    + by rewrite Hp, swap_perm.
    + by rewrite up_perm, Hp, swap_perm.
Qed.

Lemma heap_Pop_spec l x : is_heap l -> l !! 0 = Some x ->
  exists rest, heap_Pop l = Some (x, rest) /\ l ≡ₚ x :: rest /\ is_heap rest /\ forall y, y ∈ l -> le x y.
Proof.
  intros Hh Hx. pose proof (lookup_lt_Some _ _ _ Hx) as Hi. unfold heap_Pop.
  destruct (length l) as [|n] eqn:Hl; [lia|]. simpl. rewrite Nat.sub_0_r.
  assert (swap l 0 n !! n = Some x) as Hlast.
  { unfold swap. rewrite Hx. destruct (lookup_lt_is_Some_2 l n) as [y Hy]; [lia|]. rewrite Hy.
    apply list_lookup_insert_eq. rewrite length_insert. lia. }
  enough (heap_upto n (down (swap l 0 n) 0 n).1 /\ (down (swap l 0 n) 0 n).1 !! n = Some x) as [H1 H2].
  { destruct (removed_spec l (down (swap l 0 n) 0 n).1 x n Hl) as (rest & ? & ? & ?); [by rewrite down_perm, swap_perm|done|done|].
    exists rest. split_and!; [done..|]. by apply heap_min. }
  destruct (decide (n = 0)) as [->|Hn]; [split; [intros k Hk; lia|done]|].
  pose proof (swap_last_down l 0 n Hh Hl ltac:(lia)) as Hd. split; [|by rewrite down_above by lia].
  destruct (down_spec n (swap l 0 n) 0) as [[-> Hc]|(l' & -> & ?)]; [rewrite length_swap; lia|lia|done| |done].
  intros k Hk. simpl. destruct (decide (parent k = 0)) as [E|E]; [rewrite E; by apply Hc|]. apply Hd; lia.
Qed.
End heap.

(** ** Heaps of keys *)

#[export] Instance key_weak_order {A} (key : A -> Z) : WeakOrder (fun a b => Z.ltb (key a) (key b)).
Proof. split; intros; rewrite ?Z.ltb_lt, ?Z.ltb_ge in *; lia. Qed.

(** The order of a heap depends on its elements only. *)
Lemma is_heap_ext {A} `{!Inhabited A} (less1 less2 : A -> A -> bool) (l : list A) :
  (forall x y, x ∈ l -> y ∈ l -> less1 x y = less2 x y) -> is_heap less1 l -> is_heap less2 l.
Proof.
  intros He Hh k Hk. specialize (Hh k Hk). unfold le in *. rewrite <- He; [done|..].
  all: apply list_elem_of_lookup_total_2; pose proof (parent_lt k ltac:(lia)); lia.
Qed.
