(* ===== verification/GoTime.v ===== *)
(** Civil time: what the packages use of Go's package time.

    An instant is a number of seconds (or nanoseconds) since 1970-01-01 UTC.  A
    [Location] gives the offset of local time at an instant, and the offset
    that [time.Date] takes for a local time; they differ only around changes of
    the offset, where the documentation leaves the choice open.  Dates are
    those of the proleptic Gregorian calendar. *)

From stdpp Require Import base tactics list.
From Stdlib Require Import ZArith Lia.
From S2P Require Import Prelude.

(** * The calendar *)

Definition leap (y : Z) : bool := (y mod 4 =? 0) && (negb (y mod 100 =? 0) || (y mod 400 =? 0)).

(** Days from 0001-01-01 to the first of January of [y]. *)
Definition days_before_year (y : Z) : Z :=
  let q := y - 1 in 365 * q + q / 4 - q / 100 + q / 400.

Definition days_to_epoch : Z := days_before_year 1970.

Definition month_lengths (lp : bool) : list Z :=
  [31; if lp then 29 else 28; 31; 30; 31; 30; 31; 31; 30; 31; 30; 31].

(** The days of the months before the [m]th, and the length of the [m]th, of
    months counted from 0. *)
Definition days_before_month (lp : bool) (m : Z) : Z := foldr Z.add 0 (take (Z.to_nat m) (month_lengths lp)).
Definition month_length (lp : bool) (m : Z) : Z := default 0 (month_lengths lp !! Z.to_nat m).

(** Days from 1970-01-01; the day may lie outside the month. *)
Definition days_of_date (y m d : Z) : Z :=
  let y := y + (m - 1) / 12 in
  let m := (m - 1) mod 12 in
  days_before_year y - days_to_epoch + days_before_month (leap y) m + (d - 1).

(** The year of a day, from an estimate that is off by at most one. *)
Definition year_of_day (days : Z) : Z :=
  let n := days + days_to_epoch in
  let y := n * 400 / 146097 + 1 in
  if n <? days_before_year y then y - 1
  else if days_before_year (y + 1) <=? n then y + 1 else y.

Fixpoint find_month (lengths : list Z) (m yday : Z) : Z * Z :=
  match lengths with
  | [] => (m, yday)
  | len :: lengths => if yday <? len then (m, yday) else find_month lengths (m + 1) (yday - len)
  end.

(** Month, from 1, and day of the month, from 1, of a day. *)
Definition month_day (days : Z) : Z * Z :=
  let y := year_of_day days in
  let '(m, d) := find_month (month_lengths (leap y)) 0 (days + days_to_epoch - days_before_year y) in
  (m + 1, d + 1).

(** * Locations *)

Record Location := {
  utc_offset : Z -> Z;
  date_offset : Z -> Z;
}.

Definition FixedZone (offset : Z) : Location := {| utc_offset _ := offset; date_offset _ := offset |}.
Definition UTC : Location := FixedZone 0.

(** What the documentation of [time.Date] promises of a location: a local time
    that exists is hit. *)
Definition location_ok (loc : Location) : Prop :=
  forall u, let l := u + utc_offset loc u in
    let u' := l - date_offset loc l in u' + utc_offset loc u' = l.

Definition local (loc : Location) (u : Z) : Z := u + utc_offset loc u.

(** [time.Date(y, m, d, h, mi, s, 0, loc)]. *)
Definition Date (y m d h mi s : Z) (loc : Location) : Z :=
  let l := days_of_date y m d * 86400 + h * 3600 + mi * 60 + s in
  l - date_offset loc l.

Definition day_number (loc : Location) (u : Z) : Z := local loc u / 86400.
Definition Year (loc : Location) (u : Z) : Z := year_of_day (day_number loc u).
Definition Month (loc : Location) (u : Z) : Z := (month_day (day_number loc u)).1.
Definition Day (loc : Location) (u : Z) : Z := (month_day (day_number loc u)).2.
Definition Hour (loc : Location) (u : Z) : Z := local loc u mod 86400 / 3600.
Definition Minute (loc : Location) (u : Z) : Z := local loc u mod 3600 / 60.
Definition Second (loc : Location) (u : Z) : Z := local loc u mod 60.

(** 1970-01-01 was a Thursday; Sunday is 0. *)
Definition Weekday (loc : Location) (u : Z) : Z := (day_number loc u + 4) mod 7.

(** * Lemmas *)

Lemma days_before_year_step y : days_before_year (y + 1) = days_before_year y + (if leap y then 366 else 365).
Proof.
  unfold days_before_year, leap.
  destruct (Z.eqb_spec (y mod 4) 0), (Z.eqb_spec (y mod 100) 0), (Z.eqb_spec (y mod 400) 0);
    cbn [andb orb negb]; Z.to_euclidean_division_equations; lia.
Qed.

Lemma days_before_year_mono y y' : y < y' -> days_before_year y + 365 <= days_before_year y'.
Proof. unfold days_before_year. intros. Z.to_euclidean_division_equations. lia. Qed.

Lemma year_of_day_spec days :
  let n := days + days_to_epoch in
  days_before_year (year_of_day days) <= n < days_before_year (year_of_day days + 1).
Proof.
  intros n. unfold year_of_day. fold n. clearbody n. set (y := n * 400 / 146097 + 1).
  assert (days_before_year (y - 1) <= n /\ n < days_before_year (y + 2)) as [Hlo Hhi].
  { unfold days_before_year, y. clear. split; Z.to_euclidean_division_equations; lia. }
  destruct (Z.ltb_spec n (days_before_year y)) as [H1|H1].
  - replace (y - 1 + 1) with y by lia. lia.
  - destruct (Z.leb_spec (days_before_year (y + 1)) n) as [H2|H2]; [|lia].
    replace (y + 1 + 1) with (y + 2) by lia. lia.
Qed.

Lemma year_of_day_unique days y :
  days_before_year y <= days + days_to_epoch < days_before_year (y + 1) -> year_of_day days = y.
Proof.
  intros H. pose proof (year_of_day_spec days) as H'. simpl in H'.
  destruct (Z.lt_trichotomy (year_of_day days) y) as [Hlt|[?|Hlt]]; [|done|].
  - destruct (decide (year_of_day days + 1 = y)) as [E|]; [rewrite E in H'; lia|].
    pose proof (days_before_year_mono (year_of_day days + 1) y ltac:(lia)). lia.
  - destruct (decide (y + 1 = year_of_day days)) as [E|]; [rewrite E in H; lia|].
    pose proof (days_before_year_mono (y + 1) (year_of_day days) ltac:(lia)). lia.
Qed.

Lemma find_month_unique lengths m0 k yday :
  Forall (fun len => 0 <= len) lengths -> (k < length lengths)%nat ->
  foldr Z.add 0 (take k lengths) <= yday < foldr Z.add 0 (take (S k) lengths) ->
  find_month lengths m0 yday = (m0 + Z.of_nat k, yday - foldr Z.add 0 (take k lengths)).
Proof.
  intros Hl. revert m0 k yday. induction Hl as [|len lengths Hlen Hl IH]; intros m0 k yday Hk Hy; [simpl in Hk; lia|].
  destruct k as [|k]; simpl in *.
  - rewrite (proj2 (Z.ltb_lt _ _)) by lia. f_equal; lia.
  - assert (0 <= foldr Z.add 0 (take k lengths)).
    { clear -Hl. revert k. induction Hl as [|x l Hx Hl IH]; intros [|k]; simpl; try lia. specialize (IH k). lia. }
    rewrite (proj2 (Z.ltb_ge _ _)) by lia. rewrite (IH _ k) by lia. f_equal; lia.
Qed.

Lemma month_lengths_pos lp : Forall (fun len => 0 <= len) (month_lengths lp).
Proof. destruct lp; repeat constructor; lia. Qed.

Lemma find_month_cases (lp : bool) (yday : Z) : 0 <= yday < (if lp then 366 else 365) ->
  exists m, 0 <= m < 12 /\ days_before_month lp m <= yday < days_before_month lp (m + 1).
Proof.
  intros Hy. set (P := fun m => days_before_month lp m <= yday < days_before_month lp (m + 1)).
  assert (P 0 \/ P 1 \/ P 2 \/ P 3 \/ P 4 \/ P 5 \/ P 6 \/ P 7 \/ P 8 \/ P 9 \/ P 10 \/ P 11) as H
    by (unfold P; destruct lp; vm_compute days_before_month; lia).
  repeat destruct H as [H|H]; match type of H with P ?m => exists m end; (split; [lia|exact H]).
Qed.

(** The months [(y, m)] of the year, by their first days. *)
Definition month_start (y m : Z) : Z := days_of_date y m 1.

Lemma month_start_eq y m : 1 <= m <= 12 ->
  month_start y m = days_before_year y - days_to_epoch + days_before_month (leap y) (m - 1).
Proof.
  intros Hm. unfold month_start, days_of_date. cbv zeta. rewrite Z.div_small, Z.mod_small by lia.
  replace (y + 0) with y by lia. lia.
Qed.

Lemma days_before_month_12 lp : days_before_month lp 12 = if lp then 366 else 365.
Proof. by destruct lp. Qed.

Lemma month_end_eq y m : 1 <= m <= 12 ->
  month_start y (m + 1) = days_before_year y - days_to_epoch + days_before_month (leap y) m.
Proof.
  intros Hm. destruct (decide (m = 12)) as [->|].
  - transitivity (month_start (y + 1) 1); [unfold month_start, days_of_date|].
    + change ((12 + 1 - 1) / 12) with 1. change ((12 + 1 - 1) mod 12) with 0.
      change ((1 - 1) / 12) with 0. change ((1 - 1) mod 12) with 0. replace (y + 1 + 0) with (y + 1) by lia. reflexivity.
    + rewrite month_start_eq, days_before_year_step, days_before_month_12 by lia.
      change (days_before_month (leap (y + 1)) (1 - 1)) with 0. destruct (leap y); lia.
  - rewrite month_start_eq by lia. do 2 f_equal. lia.
Qed.

Lemma days_of_date_split y m d : days_of_date y m d = month_start y m + (d - 1).
Proof. unfold month_start, days_of_date. lia. Qed.

Lemma date_unique days y m :
  1 <= m <= 12 -> month_start y m <= days < month_start y (m + 1) ->
  year_of_day days = y /\ month_day days = (m, days - month_start y m + 1).
Proof.
  intros Hm. rewrite month_start_eq, month_end_eq by done. intros Hd.
  assert (0 <= days_before_month (leap y) (m - 1) /\
    days_before_month (leap y) m <= (if leap y then 366 else 365)) as [H0 H1].
  { assert (m ∈ [1;2;3;4;5;6;7;8;9;10;11;12]) as Hin by (rewrite !elem_of_cons; lia).
    repeat (apply elem_of_cons in Hin as [->|Hin]; [destruct (leap y); vm_compute; split; discriminate|]).
    by apply elem_of_nil in Hin. }
  assert (year_of_day days = y) as Hy.
  { apply year_of_day_unique. rewrite days_before_year_step. lia. }
  split; [done|]. unfold month_day. rewrite Hy.
  rewrite (find_month_unique _ 0 (Z.to_nat (m - 1))).
  - f_equal; [lia|]. unfold days_before_month. lia.
  - apply month_lengths_pos.
  - destruct (leap y); simpl; lia.
  - unfold days_before_month in *. replace (S (Z.to_nat (m - 1))) with (Z.to_nat m) by lia. lia.
Qed.

(** Every day lies in the month that its fields name. *)
Lemma date_exists days :
  let y := year_of_day days in let m := (month_day days).1 in let d := (month_day days).2 in
  1 <= m <= 12 /\ 1 <= d /\ month_start y m <= days < month_start y (m + 1) /\ days = days_of_date y m d.
Proof.
  intros y m d. pose proof (year_of_day_spec days) as Hy. simpl in Hy. fold y in Hy.
  rewrite days_before_year_step in Hy.
  destruct (find_month_cases (leap y) (days + days_to_epoch - days_before_year y)) as (k & Hk & Hb); [lia|].
  assert (1 <= k + 1 <= 12) as Hk1 by lia.
  assert (month_start y (k + 1) <= days < month_start y (k + 1 + 1)) as Hin.
  { rewrite month_start_eq, month_end_eq by done. replace (k + 1 - 1) with k by lia. lia. }
  destruct (date_unique days y (k + 1) Hk1 Hin) as [_ E]. unfold m, d. rewrite E. simpl.
  split_and!; [lia|lia|lia|lia|lia|]. rewrite days_of_date_split. lia.
Qed.

(** The last day of a month, as the code asks for it: day 0 of the next. *)
Lemma last_day_of_month y m : 1 <= m <= 12 ->
  (month_day (days_of_date y (m + 1) 0)).2 = month_start y (m + 1) - month_start y m.
Proof.
  intros Hm. rewrite days_of_date_split. pose proof (month_start_eq y m Hm). pose proof (month_end_eq y m Hm).
  assert (days_before_month (leap y) (m - 1) < days_before_month (leap y) m) as Hlt.
  { assert (m ∈ [1;2;3;4;5;6;7;8;9;10;11;12]) as Hin by (rewrite !elem_of_cons; lia).
    repeat (apply elem_of_cons in Hin as [->|Hin]; [destruct (leap y); reflexivity|]). by apply elem_of_nil in Hin. }
  destruct (date_unique (month_start y (m + 1) + (0 - 1)) y m Hm) as [_ E]; [lia|]. rewrite E. simpl. lia.
Qed.

Lemma month_length_bound y m : 1 <= m <= 12 -> 1 <= month_start y (m + 1) - month_start y m <= 31.
Proof.
  intros Hm. rewrite (month_end_eq y m), (month_start_eq y m) by done.
  enough (1 <= days_before_month (leap y) m - days_before_month (leap y) (m - 1) <= 31) by lia.
  assert (m ∈ [1;2;3;4;5;6;7;8;9;10;11;12]) as Hin by (rewrite !elem_of_cons; lia).
  repeat (apply elem_of_cons in Hin as [->|Hin]; [destruct (leap y); vm_compute; split; discriminate|]).
  by apply elem_of_nil in Hin.
Qed.
