(* ===== verification/Cron.v ===== *)
(** cronsched/types.go, errors.go and parser.go: cron expressions.

    Six or seven fields (second, minute, hour, day, month, weekday and
    optionally year), each a list of wildcards, values, ranges and steps.
    Errors of the parser keep the field, position and text they point to; their
    message is the constructor of [Message].  Whitespace is that of
    [unicode.IsSpace]. *)

From stdpp Require Import base tactics list gmap strings.
From Stdlib Require Import Ascii ZArith Lia.
From S2P Require Import Prelude GoStrings GoScan Ordered Utf8 GoTime.

Inductive FieldType := FieldSecond | FieldMinute | FieldHour | FieldDay | FieldMonth | FieldWeekday | FieldYear.

#[export] Instance field_type_eq_dec : EqDecision FieldType.
Proof. solve_decision. Defined.

Definition FieldType_String (f : FieldType) : string :=
  match f with
  | FieldSecond => "second"
  | FieldMinute => "minute"
  | FieldHour => "hour"
  | FieldDay => "day"
  | FieldMonth => "month"
  | FieldWeekday => "weekday"
  | FieldYear => "year"
  end.

Inductive ValueType := ValueWildcard | ValueSingle | ValueList | ValueRange | ValueStep.

#[export] Instance value_type_eq_dec : EqDecision ValueType.
Proof. solve_decision. Defined.

Record FieldValue := {
  Type_ : ValueType;
  Value : Z;
  Values : list Z;
  RangeLow : Z;
  RangeHigh : Z;
  Step : Z;
}.

#[export] Instance field_value_eta : Eta FieldValue :=
  fun r => {| Type_ := Type_ r; Value := Value r; Values := Values r; RangeLow := RangeLow r;
              RangeHigh := RangeHigh r; Step := Step r |}.

(** [FieldValue{}]. *)
Definition zero_value : FieldValue :=
  {| Type_ := ValueWildcard; Value := 0; Values := []; RangeLow := 0; RangeHigh := 0; Step := 0 |}.

Record CronField := {
  cf_Type : FieldType;
  cf_Raw : string;
  cf_Values : list FieldValue;
  Min : Z;
  Max : Z;
}.

Record CronExpression := {
  Raw : string;
  Fields : list CronField;
  SecondField : CronField;
  MinuteField : CronField;
  HourField : CronField;
  DayField : CronField;
  MonthField : CronField;
  WeekdayField : CronField;
  YearField : CronField;
  ExprLocation : option Location;
  HasYear : bool;
}.

Inductive Message :=
| MsgFieldCount
| MsgEmptyValue
| MsgEmptyPart
| MsgOutOfRange (value low high : Z)
| MsgRangeFormat
| MsgEmptyBound
| MsgLowOutOfRange (value low high : Z)
| MsgHighOutOfRange (value low high : Z)
| MsgLowAboveHigh (low high : Z)
| MsgTooManySlashes (count : Z)
| MsgStepFormat
| MsgEmptyStep
| MsgInvalidStep (text : string)
| MsgStepNotPositive (step : Z)
| MsgRangeInStep
| MsgNotNumeric (text : string).

Inductive Error :=
| ErrInvalidExpression
| ErrDayWeekdayMutex
| ErrNoNextTime
| ErrSchedulerStopped
| ErrTaskNotFound
| ErrTaskAlreadyExists
| ErrTaskRunning
| ErrInvalidTimezone
| ParseError (field : FieldType) (position : Z) (rawValue : string) (message : Message).

(** ** Text *)

Definition blank (c : ascii) : bool := bool_decide (c = " "%char) || bool_decide (c = "009"%char).

Record fieldPos := { fp_value : string; fp_pos : Z }.

(** The scan of [fieldsWithPositions]: [word] is the field that is being read,
    in reverse, and [start] its position. *)
Fixpoint scan_fields (s : string) (i : Z) (word : option (string * Z)) : list fieldPos :=
  match s with
  | EmptyString => match word with Some (w, start) => [{| fp_value := w; fp_pos := start |}] | None => [] end
  | String c s =>
      if blank c then
        match word with
        | Some (w, start) => {| fp_value := w; fp_pos := start |} :: scan_fields s (i + 1) None
        | None => scan_fields s (i + 1) None
        end
      else
        match word with
        | Some (w, start) => scan_fields s (i + 1) (Some (w +:+ String c "", start))
        | None => scan_fields s (i + 1) (Some (String c "", i))
        end
  end.

Definition fieldsWithPositions (expr : string) : list fieldPos := scan_fields expr 0 None.

(** [unicode.IsSpace], by the encodings of its runes. *)
Definition space_runes : list Z :=
  [9; 10; 11; 12; 13; 32; 0x85; 0xA0; 0x1680; 0x2000; 0x2001; 0x2002; 0x2003; 0x2004; 0x2005; 0x2006; 0x2007;
   0x2008; 0x2009; 0x200A; 0x2028; 0x2029; 0x202F; 0x205F; 0x3000].

Definition spaces : list string := encode_rune <$> space_runes.

Fixpoint trim_left (fuel : nat) (s : string) : string :=
  match fuel with
  | O => s
  | S fuel =>
      match list_find (fun sp => HasPrefix s sp = true) spaces with
      | Some (_, sp) => trim_left fuel (TrimPrefix s sp)
      | None => s
      end
  end.

Fixpoint trim_right (fuel : nat) (s : string) : string :=
  match fuel with
  | O => s
  | S fuel =>
      match list_find (fun sp => has_suffix sp s = true) spaces with
      | Some (_, sp) => trim_right fuel (trim_suffix_len (String.length sp) s)
      | None => s
      end
  end.

Definition TrimSpace (s : string) : string :=
  trim_right (String.length s) (trim_left (String.length s) s).

(** [strings.Index]. *)
Fixpoint Index_from (s sub : string) (i : Z) : Z :=
  if HasPrefix s sub then i
  else match s with EmptyString => -1 | String _ s => Index_from s sub (i + 1) end.

Definition Index (s sub : string) : Z := Index_from s sub 0.

(** [strings.Contains] of one character. *)
Fixpoint Contains (s : string) (c : ascii) : bool :=
  match s with EmptyString => false | String x s => bool_decide (x = c) || Contains s c end.

(** ** Fields *)

Definition fieldRanges (ft : FieldType) : Z * Z :=
  match ft with
  | FieldSecond => (0, 59)
  | FieldMinute => (0, 59)
  | FieldHour => (0, 23)
  | FieldDay => (1, 31)
  | FieldMonth => (1, 12)
  | FieldWeekday => (0, 6)
  | FieldYear => (1970, 2100)
  end.

Definition weekdayNames : list (string * Z) :=
  [("SUN", 0); ("MON", 1); ("TUE", 2); ("WED", 3); ("THU", 4); ("FRI", 5); ("SAT", 6);
   ("sun", 0); ("mon", 1); ("tue", 2); ("wed", 3); ("thu", 4); ("fri", 5); ("sat", 6)].

Definition monthNames : list (string * Z) :=
  [("JAN", 1); ("FEB", 2); ("MAR", 3); ("APR", 4); ("MAY", 5); ("JUN", 6);
   ("JUL", 7); ("AUG", 8); ("SEP", 9); ("OCT", 10); ("NOV", 11); ("DEC", 12);
   ("jan", 1); ("feb", 2); ("mar", 3); ("apr", 4); ("may", 5); ("jun", 6);
   ("jul", 7); ("aug", 8); ("sep", 9); ("oct", 10); ("nov", 11); ("dec", 12)].

Definition named (names : list (string * Z)) (s : string) : option Z :=
  match list_find (fun kv => kv.1 = s) names with Some (_, (_, v)) => Some v | None => None end.

Definition parseNumericValue (s : string) (ft : FieldType) (offset : Z) : result Error Z :=
  let name := match ft with FieldWeekday => named weekdayNames s | FieldMonth => named monthNames s | _ => None end in
  match name with
  | Some v => Ok v
  | None =>
      match Atoi s with
      | Some v => Ok v
      | None => Err (ParseError ft offset s (MsgNotNumeric s))
      end
  end.

Section values.
Context (ft : FieldType) (minVal maxVal : Z).

Definition outside (v : Z) : bool := (v <? minVal) || (maxVal <? v).

Definition parseSingle (part : string) (offset : Z) : result Error FieldValue :=
  let? val := parseNumericValue part ft offset in
  if outside val then Err (ParseError ft offset part (MsgOutOfRange val minVal maxVal))
  else Ok (zero_value <| Type_ := ValueSingle |> <| Value := val |>).

(** The checks on the bounds of a range, the same for ranges and steps. *)
Definition check_bounds (part : string) (offset low high : Z) (fv : FieldValue) : result Error FieldValue :=
  if outside low then Err (ParseError ft offset part (MsgLowOutOfRange low minVal maxVal))
  else if outside high then Err (ParseError ft offset part (MsgHighOutOfRange high minVal maxVal))
  else if high <? low then Err (ParseError ft offset part (MsgLowAboveHigh low high))
  else Ok fv.

Definition parseRange (part : string) (offset : Z) : result Error FieldValue :=
  match split_on "-" part with
  | [lowStr; highStr] =>
      let lowStr := TrimSpace lowStr in
      let highStr := TrimSpace highStr in
      if bool_decide (lowStr = "") || bool_decide (highStr = "") then
        Err (ParseError ft offset part MsgEmptyBound)
      else
        let? low := parseNumericValue lowStr ft offset in
        let? high := parseNumericValue highStr ft (offset + Index part "-" + 1) in
        check_bounds part offset low high
          (zero_value <| Type_ := ValueRange |> <| RangeLow := low |> <| RangeHigh := high |>)
  | _ => Err (ParseError ft offset part MsgRangeFormat)
  end.

Definition step_value (low high step : Z) : FieldValue :=
  zero_value <| Type_ := ValueStep |> <| RangeLow := low |> <| RangeHigh := high |> <| Step := step |>.

(** The part before the slash. *)
Definition step_base (part rangePart : string) (offset step : Z) : result Error FieldValue :=
  if decide (rangePart = "*") then Ok (step_value minVal maxVal step)
  else if Contains rangePart "-" then
    match split_on "-" rangePart with
    | [lowStr; highStr] =>
        let? low := parseNumericValue (TrimSpace lowStr) ft offset in
        let? high := parseNumericValue (TrimSpace highStr) ft (offset + Index rangePart "-" + 1) in
        check_bounds part offset low high (step_value low high step)
    | _ => Err (ParseError ft offset part MsgRangeInStep)
    end
  else
    let? low := parseNumericValue rangePart ft offset in
    if outside low then Err (ParseError ft offset part (MsgOutOfRange low minVal maxVal))
    else Ok (step_value low maxVal step).

Definition parseStep (part : string) (offset : Z) : result Error FieldValue :=
  match split_on "/" part with
  | [rangePart; stepStr] =>
      let rangePart := TrimSpace rangePart in
      let stepStr := TrimSpace stepStr in
      if decide (stepStr = "") then Err (ParseError ft offset part MsgEmptyStep)
      else
        let stepOffset := offset + Index part "/" + 1 in
        match Atoi stepStr with
        | None => Err (ParseError ft stepOffset part (MsgInvalidStep stepStr))
        | Some step =>
            if step <=? 0 then Err (ParseError ft stepOffset part (MsgStepNotPositive step))
            else step_base part rangePart offset step
        end
  | _ :: _ :: _ :: _ as parts => Err (ParseError ft offset part (MsgTooManySlashes (Z.of_nat (length parts) - 1)))
  | _ => Err (ParseError ft offset part MsgStepFormat)
  end.

Definition parseValuePart (part : string) (offset : Z) : result Error FieldValue :=
  if decide (part = "*") then Ok zero_value
  else if Contains part "/" then parseStep part offset
  else if Contains part "-" then parseRange part offset
  else parseSingle part offset.

(** The loop over the parts of a list. *)
Fixpoint parse_parts (raw : string) (fieldOffset : Z) (parts : list string) (partOffset : Z) :
    result Error (list FieldValue) :=
  match parts with
  | [] => Ok []
  | part :: parts =>
      let part := TrimSpace part in
      if decide (part = "") then Err (ParseError ft (fieldOffset + partOffset) raw MsgEmptyPart)
      else
        let idx := Index (drop_string (Z.to_nat partOffset) raw) part in
        let partStart := if 0 <=? idx then fieldOffset + partOffset + idx else fieldOffset + partOffset in
        let? fv := parseValuePart part partStart in
        let? rest := parse_parts raw fieldOffset parts (partOffset + Z.of_nat (String.length part) + 1) in
        Ok (fv :: rest)
  end.

End values.

Definition parseField (raw : string) (ft : FieldType) (fieldOffset : Z) : result Error CronField :=
  let '(minVal, maxVal) := fieldRanges ft in
  if decide (raw = "") then Err (ParseError ft fieldOffset raw MsgEmptyValue)
  else
    let? vs := parse_parts ft minVal maxVal raw fieldOffset (split_on "," raw) 0 in
    Ok {| cf_Type := ft; cf_Raw := raw; cf_Values := vs; Min := minVal; Max := maxVal |}.

Definition isWildcard (cf : CronField) : bool :=
  match cf_Values cf with [fv] => bool_decide (Type_ fv = ValueWildcard) | _ => false end.

Definition fieldTypes : list FieldType :=
  [FieldSecond; FieldMinute; FieldHour; FieldDay; FieldMonth; FieldWeekday; FieldYear].

Fixpoint parse_fields (fp : list fieldPos) (fts : list FieldType) : result Error (list CronField) :=
  match fp, fts with
  | f :: fp, ft :: fts =>
      let? cf := parseField (fp_value f) ft (fp_pos f) in
      let? rest := parse_fields fp fts in
      Ok (cf :: rest)
  | _, _ => Ok []
  end.

Definition ParseWithLocation (expr : string) (loc : option Location) : result Error CronExpression :=
  match loc with
  | None => Err ErrInvalidTimezone
  | Some _ =>
      let fp := fieldsWithPositions expr in
      if negb (length fp =? 6)%nat && negb (length fp =? 7)%nat then
        Err (ParseError FieldSecond 0 expr MsgFieldCount)
      else
        let hasYear := (length fp =? 7)%nat in
        let fp :=
          if hasYear then fp
          else
            let lastEnd := match last fp with Some f => fp_pos f + Z.of_nat (String.length (fp_value f)) | None => 0 end in
            fp ++ [{| fp_value := "*"; fp_pos := lastEnd |}] in
        let? cronFields := parse_fields fp fieldTypes in
        match cronFields with
        | [sec; minute; hour; day; month; weekday; year] =>
            if negb (isWildcard day) && negb (isWildcard weekday) then Err ErrDayWeekdayMutex
            else
              Ok {| Raw := expr; Fields := cronFields; SecondField := sec; MinuteField := minute; HourField := hour;
                    DayField := day; MonthField := month; WeekdayField := weekday; YearField := year;
                    ExprLocation := loc; HasYear := hasYear |}
        | _ => Err ErrInvalidExpression
        end
  end.

Definition Parse (expr : string) : result Error CronExpression := ParseWithLocation expr (Some UTC).

(** ** Matching *)

(** A step of 0, which the parser refuses, would divide by zero. *)
Definition matches (fv : FieldValue) (value : Z) : bool :=
  match Type_ fv with
  | ValueWildcard => true
  | ValueSingle => value =? Value fv
  | ValueRange => (RangeLow fv <=? value) && (value <=? RangeHigh fv)
  | ValueStep =>
      if (value <? RangeLow fv) || (RangeHigh fv <? value) then false
      else Z.rem (value - RangeLow fv) (Step fv) =? 0
  | ValueList => false
  end.

Definition Matches (cf : CronField) (value : Z) : bool := existsb (fun fv => matches fv value) (cf_Values cf).
Definition Has (cf : CronField) (value : Z) : bool := Matches cf value.

Definition next (fv : FieldValue) (value : Z) : option Z :=
  match Type_ fv with
  | ValueWildcard => Some value
  | ValueSingle => if value <=? Value fv then Some (Value fv) else None
  | ValueRange =>
      if value <=? RangeHigh fv then Some (if value <? RangeLow fv then RangeLow fv else value) else None
  | ValueStep =>
      if RangeHigh fv <? value then None
      else
        let start := RangeLow fv in
        if start <? value then
          let remainder := Z.rem (value - start) (Step fv) in
          if remainder =? 0 then Some value
          else let n := int64 (value + (Step fv - remainder)) in if n <=? RangeHigh fv then Some n else None
        else Some start
  | ValueList => None
  end.

Fixpoint next_of (fvs : list FieldValue) (value : Z) : option Z :=
  match fvs with
  | [] => None
  | fv :: fvs => match next fv value with Some n => Some n | None => next_of fvs value end
  end.

Definition Next (cf : CronField) (value : Z) : option Z := next_of (cf_Values cf) value.

(** ** Expansion *)

(** [for i := low; i <= high; i += step], for bounds of at most 2100: a step
    near 2^63 wraps around, more than [2 * high] times for none of them. *)
Fixpoint count_up (fuel : nat) (i high step : Z) : list Z :=
  match fuel with
  | O => []
  | S fuel => if i <=? high then i :: count_up fuel (int64 (i + step)) high step else []
  end.

Definition range_values (low high step : Z) : list Z := count_up (Z.to_nat (2 * high + 4)) low high step.

Definition fv_Expand (fv : FieldValue) (min max : Z) : list Z :=
  match Type_ fv with
  | ValueWildcard => range_values min max 1
  | ValueSingle => [Value fv]
  | ValueRange => range_values (RangeLow fv) (RangeHigh fv) 1
  | ValueStep => range_values (RangeLow fv) (RangeHigh fv) (Step fv)
  | ValueList => []
  end.

(** The loop with the map [seen]. *)
Fixpoint unseen (vs : list Z) (seen : gset Z) (result : list Z) : gset Z * list Z :=
  match vs with
  | [] => (seen, result)
  | v :: vs => if decide (v ∈ seen) then unseen vs seen result else unseen vs ({[ v ]} ∪ seen) (result ++ [v])
  end.

Definition Expand `{!SortSlice} (cf : CronField) : list Z :=
  let '(_, result) := unseen (concat ((fun fv => fv_Expand fv (Min cf) (Max cf)) <$> cf_Values cf)) ∅ [] in
  sort_slice (fun v => v) result.
