(* ===== verification/CronProofs.v ===== *)
(** What the parser of cron expressions guarantees, and the expansion of a
    field to the list of its values. *)

From stdpp Require Import base tactics list gmap strings sorting.
From Stdlib Require Import ZArith Lia.
From S2P Require Import Prelude GoStrings Ordered GoTime Cron.

(** * Well-formed fields *)

Definition wf_value (low high : Z) (fv : FieldValue) : Prop :=
  match Type_ fv with
  | ValueWildcard => True
  | ValueSingle => low <= Value fv <= high
  | ValueRange => low <= RangeLow fv <= RangeHigh fv /\ RangeHigh fv <= high
  | ValueStep => (low <= RangeLow fv <= RangeHigh fv /\ RangeHigh fv <= high) /\ 0 < Step fv
  | ValueList => False
  end.

Definition wf_field (ft : FieldType) (cf : CronField) : Prop :=
  cf_Type cf = ft /\ (Min cf, Max cf) = fieldRanges ft /\ cf_Values cf <> [] /\
  Forall (wf_value (Min cf) (Max cf)) (cf_Values cf).

Lemma rbind_Ok {E A B} (m : result E A) (k : A -> result E B) b :
  rbind m k = Ok b -> exists a, m = Ok a /\ k a = Ok b.
Proof. destruct m as [a|e]; simpl; [eauto|done]. Qed.

(** Run through the binds and tests of a parsing function that succeeds. *)
Ltac parsed :=
  repeat match goal with
  | H : rbind _ _ = Ok _ |- _ => apply rbind_Ok in H as (? & ? & H)
  | H : context [match ?x with _ => _ end] |- _ => destruct x eqn:?; simplify_eq/=; try done
  end.

Section values.
Context (ft : FieldType) (low high : Z).

Lemma check_bounds_wf part o a b fv fv' :
  check_bounds ft low high part o a b fv = Ok fv' -> fv' = fv /\ low <= a <= b /\ b <= high.
Proof. unfold check_bounds, outside. intros H. parsed. bools. split; [done|lia]. Qed.

Lemma parseSingle_wf part o fv : parseSingle ft low high part o = Ok fv -> wf_value low high fv.
Proof. unfold parseSingle, outside, wf_value. intros H. parsed. bools. simpl. lia. Qed.

Lemma parseRange_wf part o fv : parseRange ft low high part o = Ok fv -> wf_value low high fv.
Proof. unfold parseRange. intros H. parsed. by apply check_bounds_wf in H as (-> & ?). Qed.

Lemma step_base_wf part r o st fv :
  low <= high -> 0 < st -> step_base ft low high part r o st = Ok fv -> wf_value low high fv.
Proof.
  unfold step_base, outside. intros Hlh Hst H. parsed.
  - by apply check_bounds_wf in H as (-> & ?).
  - bools. unfold wf_value. simpl. lia.
Qed.

Lemma parseStep_wf part o fv : low <= high -> parseStep ft low high part o = Ok fv -> wf_value low high fv.
Proof. unfold parseStep. intros Hlh H. parsed. bools. by eapply step_base_wf. Qed.

Lemma parseValuePart_wf part o fv : low <= high -> parseValuePart ft low high part o = Ok fv -> wf_value low high fv.
Proof.
  unfold parseValuePart. intros Hlh H. parsed.
  - by eapply parseStep_wf.
  - by eapply parseRange_wf.
  - by eapply parseSingle_wf.
Qed.

Lemma parse_parts_wf raw fo parts po vs :
  low <= high -> parse_parts ft low high raw fo parts po = Ok vs ->
  length vs = length parts /\ Forall (wf_value low high) vs.
Proof.
  intros Hlh. revert po vs. induction parts as [|p parts IH]; intros po vs H; cbn [parse_parts] in H.
  { simplify_eq. done. }
  destruct (decide _); [done|]. parsed.
  all: match goal with H : parse_parts _ _ _ _ _ _ _ = _ |- _ => apply IH in H as [? ?] end.
  all: split; [simpl; by f_equal|]. all: constructor; [by eapply parseValuePart_wf|done].
Qed.
End values.

Lemma fieldRanges_le ft : (fieldRanges ft).1 <= (fieldRanges ft).2.
Proof. by destruct ft. Qed.

Lemma parseField_wf raw ft o cf : parseField raw ft o = Ok cf -> wf_field ft cf.
Proof.
  unfold parseField, wf_field. pose proof (fieldRanges_le ft). destruct (fieldRanges ft) as [low high].
  destruct (decide (raw = "")); [done|]. intros (vs & Hv & [= <-])%rbind_Ok. simpl.
  apply parse_parts_wf in Hv as [Hl Hf]; [|done]. split_and!; [done..| |done].
  intros ->. destruct raw; simpl in Hl; [done|]. destruct (decide _); [done|]. by destruct (split_on _ _).
Qed.

Lemma parse_fields_wf fp fts cfs : parse_fields fp fts = Ok cfs -> length fp = length fts -> Forall2 wf_field fts cfs.
Proof.
  revert fp cfs. induction fts as [|ft fts IH]; intros [|f fp] cfs H Hl; simpl in *; simplify_eq; [constructor|].
  apply rbind_Ok in H as (cf & Hc & (rest & Hr & [= <-])%rbind_Ok). constructor; [by eapply parseField_wf|eauto].
Qed.

Lemma wildcard_year o cf : parseField "*" FieldYear o = Ok cf -> isWildcard cf = true.
Proof. intros H. vm_compute in H. by injection H as <-. Qed.

Definition wf_expression (ce : CronExpression) : Prop :=
  Fields ce = [SecondField ce; MinuteField ce; HourField ce; DayField ce; MonthField ce; WeekdayField ce; YearField ce] /\
  Forall2 wf_field fieldTypes (Fields ce) /\
  isWildcard (DayField ce) || isWildcard (WeekdayField ce) = true /\
  (HasYear ce = false -> isWildcard (YearField ce) = true).

Lemma parsed_expression expr loc ce :
  ParseWithLocation expr loc = Ok ce -> wf_expression ce /\ ExprLocation ce = loc /\ loc <> None.
Proof.
  unfold ParseWithLocation. destruct loc as [loc|]; [|done].
  set (fp := fieldsWithPositions expr). destruct (negb (length fp =? 6)%nat && _) eqn:Hn; [done|].
  intros (cfs & Hc & H)%rbind_Ok. pose proof Hc as Hw. apply parse_fields_wf in Hw.
  2:{ destruct (Nat.eqb_spec (length fp) 7) as [->|?]; [done|]. rewrite length_app. simpl.
      destruct (Nat.eqb_spec (length fp) 6); [lia|done]. }
  destruct cfs as [|se [|mi [|ho [|da [|mo [|we [|ye [|]]]]]]]]; try done.
  destruct (negb (isWildcard da) && _) eqn:Hx; [done|]. injection H as <-. cbn.
  unfold wf_expression. cbn. split_and!; try done.
  - by destruct (isWildcard da), (isWildcard we).
  - intros Hy. rewrite Hy in Hc. destruct (Nat.eqb_spec (length fp) 6) as [Hl|]; [|by rewrite Hy in Hn].
    destruct fp as [|f1 [|f2 [|f3 [|f4 [|f5 [|f6 [|]]]]]]]; try done. cbn [app parse_fields fieldTypes] in Hc.
    repeat match goal with H : rbind _ _ = Ok _ |- _ => apply rbind_Ok in H as (? & ? & H) end.
    repeat match goal with H : Ok _ = Ok _ |- _ => injection H; clear H; intros; subst end.
    match goal with H : parseField _ FieldYear _ = Ok _ |- _ => by apply wildcard_year in H end.
Qed.

(** An expression that parses has its seven fields, each with one value or
    more, all within the limits of the field, with ranges in ascending order
    and positive steps; day or weekday is a wildcard, and so is a year that
    was not given. *)
Theorem Parse_well_formed expr loc ce :
  ParseWithLocation expr loc = Ok ce -> wf_expression ce /\ ExprLocation ce = loc /\ loc <> None.
Proof. apply parsed_expression. Qed.

(** * Expansion *)

Lemma count_up_elem fuel i high step v :
  0 < step -> 0 <= i -> high + step < 2 ^ 63 -> high - i < Z.of_nat fuel ->
  v ∈ count_up fuel i high step <-> i <= v <= high /\ Z.rem (v - i) step = 0.
Proof.
  intros Hst. revert i. induction fuel as [|fuel IH]; intros i Hi Hh Hf; cbn [count_up].
  { rewrite elem_of_nil. split; [done|]. lia. }
  destruct (Z.leb_spec i high); [|rewrite elem_of_nil; split; [done|lia]].
  rewrite int64_small by lia. rewrite elem_of_cons, IH by lia.
  split.
  - intros [->|[Hv Hr]]; [rewrite Z.sub_diag; split; [lia|done]|].
    split; [lia|]. rewrite !Z.rem_mod_nonneg in * by lia.
    replace (v - i) with (v - (i + step) + 1 * step) by lia. by rewrite Z_mod_plus_full.
  - intros [Hv Hr]. destruct (decide (v = i)) as [->|Hne]; [by left|right].
    rewrite Z.rem_mod_nonneg in Hr by lia. apply Z.mod_divide in Hr as [q Hq]; [|lia].
    assert (1 <= q) by nia. split; [nia|]. rewrite Z.rem_mod_nonneg by nia.
    apply Z.mod_divide; [lia|]. exists (q - 1). lia.
Qed.

Lemma range_values_elem low high step v :
  0 < step -> 0 <= low -> high + step < 2 ^ 63 ->
  v ∈ range_values low high step <-> low <= v <= high /\ Z.rem (v - low) step = 0.
Proof.
  intros. unfold range_values. destruct (Z.lt_ge_cases high 0).
  - destruct (Z.to_nat _); cbn [count_up].
    + rewrite elem_of_nil. split; [done|lia].
    + destruct (Z.leb_spec low high); [lia|]. rewrite elem_of_nil. split; [done|lia].
  - apply count_up_elem; lia.
Qed.

Lemma fv_Expand_elem low high fv v :
  wf_value low high fv -> 0 <= low -> high < 2 ^ 62 -> Step fv < 2 ^ 62 ->
  v ∈ fv_Expand fv low high <-> low <= v <= high /\ matches fv v = true.
Proof.
  unfold wf_value, fv_Expand, matches. intros Hw Hl Hh Hs. destruct (Type_ fv).
  - rewrite range_values_elem by lia. rewrite Z.rem_1_r. split; intros; split; try done; lia.
  - rewrite list_elem_of_singleton, Z.eqb_eq. lia.
  - done.
  - rewrite range_values_elem, Z.rem_1_r by lia. rewrite andb_true_iff, !Z.leb_le. lia.
  - rewrite range_values_elem by lia. destruct (Z.ltb_spec v (RangeLow fv)), (Z.ltb_spec (RangeHigh fv) v); simpl;
      rewrite ?Z.eqb_eq; split; intros [? ?]; split; try done; lia.
Qed.

Lemma unseen_spec vs seen acc :
  (forall v, v ∈ seen <-> v ∈ acc) -> NoDup acc ->
  NoDup (unseen vs seen acc).2 /\ forall v, v ∈ (unseen vs seen acc).2 <-> v ∈ acc \/ v ∈ vs.
Proof.
  revert seen acc. induction vs as [|x vs IH]; intros seen acc Hs Hn; cbn [unseen].
  { split; [done|]. intros v. rewrite elem_of_nil. tauto. }
  destruct (decide (x ∈ seen)) as [Hx|Hx].
  - destruct (IH seen acc Hs Hn) as [H1 H2]. split; [done|]. intros v. rewrite H2, elem_of_cons.
    split; [tauto|]. intros [?|[->|?]]; auto. left. by apply Hs.
  - destruct (IH ({[ x ]} ∪ seen) (acc ++ [x])) as [H1 H2].
    + intros v. rewrite elem_of_union, elem_of_singleton, Hs, elem_of_app, list_elem_of_singleton. tauto.
    + apply NoDup_app. split_and!; [done| |apply NoDup_singleton]. intros v Hv ->%list_elem_of_singleton.
      apply Hx. by apply Hs.
    + split; [done|]. intros v. rewrite H2, elem_of_app, list_elem_of_singleton, elem_of_cons. tauto.
Qed.

(** C34: the expansion of a well-formed field lists, in ascending order and
    without repetition, exactly the values within its limits that it matches,
    as long as no step comes near the limit of an integer. *)
Theorem Expand_matches `{!SortSlice} ft cf :
  wf_field ft cf -> Forall (fun fv => Step fv < 2 ^ 62) (cf_Values cf) ->
  StronglySorted Z.lt (Expand cf) /\
  forall v, v ∈ Expand cf <-> Min cf <= v <= Max cf /\ Matches cf v = true.
Proof.
  intros (_ & Hr & _ & Hw) Hs. unfold Expand.
  assert (0 <= Min cf /\ Max cf < 2 ^ 62) as [Hmin Hmax] by (destruct ft; simplify_eq/=; lia).
  set (vs := concat _). destruct (unseen vs ∅ []) as [seen r] eqn:E.
  destruct (unseen_spec vs ∅ []) as [Hn He]; [set_solver|constructor|]. rewrite E in Hn, He. cbn [snd] in Hn, He. split.
  - pose proof (sort_slice_sorted (fun v : Z => v) r) as Hss.
    rewrite <- (sort_slice_perm (fun v : Z => v) r) in Hn. induction Hss as [|x l _ IH Hx]; [constructor|].
    apply NoDup_cons in Hn as [Hxl Hn]. constructor; [by apply IH|]. apply Forall_forall. intros y Hy.
    rewrite Forall_forall in Hx. specialize (Hx y Hy). destruct (key_not_lt _ _ Hx) as [->|?]; [done|done].
  - intros v. rewrite (elem_of_Permutation_proper v _ _ (sort_slice_perm (fun v : Z => v) r)), He, elem_of_nil.
    unfold vs, Matches. rewrite existsb_exists. rewrite list_elem_of_In, in_concat.
    setoid_rewrite <- list_elem_of_In. rewrite Forall_forall in Hw, Hs. split.
    + intros [[]|(l & (fv & -> & Hfv)%list_elem_of_fmap & Hv)].
      apply fv_Expand_elem in Hv as [? ?]; eauto.
    + intros [Hv (fv & Hfv & Hm)]. right. exists (fv_Expand fv (Min cf) (Max cf)). split; [apply list_elem_of_fmap; by exists fv|].
      apply fv_Expand_elem; eauto.
Qed.

(** ** A concrete field, and a step that overflows *)

Definition no_field : CronField := {| cf_Type := FieldSecond; cf_Raw := ""; cf_Values := []; Min := 0; Max := 0 |}.

Definition ok_or {E A} (d : A) (r : result E A) : A := match r with Ok a => a | Err _ => d end.

Lemma Parse_well_formed_witness :
  let expr := "0 */15 8-18 * jan-mar,DEC mon-fri 2030" in
  is_ok (Parse expr) = true /\
  match Parse expr with
  | Ok ce => wf_value 1 12 (zero_value <| Type_ := ValueRange |> <| RangeLow := 1 |> <| RangeHigh := 3 |>) /\
             isWildcard (DayField ce) || isWildcard (WeekdayField ce) = true
  | Err _ => False
  end.
Proof.
  cbv zeta. split; [vm_compute; reflexivity|].
  destruct (Parse "0 */15 8-18 * jan-mar,DEC mon-fri 2030") as [ce|e] eqn:E; [|vm_compute in E; discriminate E].
  destruct (Parse_well_formed _ _ ce E) as ((_ & _ & H & _) & _). split; [|exact H].
  repeat split; discriminate.
Defined.

Lemma Expand_matches_witness :
  let cf := ok_or no_field (parseField "50/5,3,1-4" FieldMinute 0) in
  @Expand stable_sort_slice cf = [1; 2; 3; 4; 50; 55] /\ Matches cf 55 = true.
Proof.
  cbv zeta. split; [vm_compute; reflexivity|].
  destruct (parseField "50/5,3,1-4" FieldMinute 0) as [cf|e] eqn:E; [|vm_compute in E; discriminate E].
  pose proof (parseField_wf _ _ _ _ E) as Hw. vm_compute in E. injection E as E.
  assert (Forall (fun fv => Step fv < 2 ^ 62) (cf_Values cf)) as Hs by (rewrite <- E; repeat constructor).
  apply (@Expand_matches stable_sort_slice FieldMinute cf Hw Hs).
  rewrite <- E. vm_compute. repeat constructor.
Defined.

(** A step near the limit wraps around in the loop of the expansion, which then
    lists negative values; the field still matches only its first value. *)
Example step_overflow_expands :
  let cf := ok_or no_field (parseField "1/9223372036854775807" FieldMinute 0) in
  @Expand stable_sort_slice cf = [-9223372036854775808; -1; 1] /\ Matches cf (-1) = false /\ Matches cf 1 = true.
Proof. vm_compute. split_and!; reflexivity. Qed.

(** [Next] answers with the first part of a list that has a next value, not
    with the least next value. *)
Example next_not_least :
  let cf := ok_or no_field (parseField "30,10" FieldMinute 0) in Next cf 5 = Some 30 /\ Matches cf 10 = true.
Proof. vm_compute. split; reflexivity. Qed.
