(* ===== verification/CronNext.v ===== *)
(** cronsched/scheduler.go, the search for the next time of an expression
    ([NextTime] and what it calls) and [Matches].

    Candidates are whole seconds since 1970.  The search takes up to
    [MaxIterations] steps, counted in binary so that the 366 days of seconds of
    the default configuration can be run: [repeat_step] stops at the first step
    that returns. *)

From stdpp Require Import base tactics list strings.
From Stdlib Require Import ZArith Lia.
From S2P Require Import Prelude GoStrings GoTime Cron.

Record SchedulerConfig := { MaxIterations : Z }.

Definition DefaultConfig : SchedulerConfig := {| MaxIterations := 366 * 24 * 60 * 60 |}.

(** [n] steps, or fewer when one returns. *)
Fixpoint repeat_step {S R} (f : S -> S + R) (n : positive) (s : S) : S + R :=
  match n with
  | xH => f s
  | xO n => match repeat_step f n s with inl s => repeat_step f n s | inr r => inr r end
  | xI n =>
      match f s with
      | inl s => match repeat_step f n s with inl s => repeat_step f n s | inr r => inr r end
      | inr r => inr r
      end
  end.

(** [t.In(loc)], to UTC and back: the same instant. *)
Definition adjustForDST (t : Z) (loc : Location) : Z :=
  let tInLoc := t in
  let convertedBack := tInLoc in
  if negb (Hour loc tInLoc =? Hour loc convertedBack) || negb (Minute loc tInLoc =? Minute loc convertedBack)
     || negb (Second loc tInLoc =? Second loc convertedBack)
  then convertedBack else tInLoc.

Definition isValidDay (year month day : Z) : bool :=
  if (day <? 1) || (31 <? day) then false
  else day <=? Day UTC (Date year (month + 1) 0 0 0 0 UTC).

(** The test of day and weekday, of which one is a wildcard. *)
Definition day_matches (expr : CronExpression) (day weekday : Z) : bool :=
  let daySet := negb (isWildcard (DayField expr)) in
  let weekdaySet := negb (isWildcard (WeekdayField expr)) in
  if daySet || weekdaySet then
    negb (daySet && negb (Matches (DayField expr) day)) && negb (weekdaySet && negb (Matches (WeekdayField expr) weekday))
  else Matches (DayField expr) day && Matches (WeekdayField expr) weekday.

Section step.
Context (expr : CronExpression) (loc : Location).

Definition same_day (c year month day : Z) : bool :=
  (Year loc c =? year) && (Month loc c =? month) && (Day loc c =? day).

(** The loop after a jump to the hour [targetHour] of a day. *)
Fixpoint hour_loop (fuel : nat) (year month day targetHour candidate : Z) : Z :=
  match fuel with
  | O => candidate
  | S fuel =>
      if negb (Hour loc candidate =? targetHour) && same_day candidate year month day then
        let targetHour := targetHour + 1 in
        if 23 <? targetHour then Date year month (day + 1) 0 0 0 loc
        else hour_loop fuel year month day targetHour (Date year month day targetHour 0 0 loc)
      else candidate
  end.

(** The same in the branch for minutes, which counts [hour] instead. *)
Fixpoint minute_loop (fuel : nat) (year month day hour candidate : Z) : Z :=
  match fuel with
  | O => candidate
  | S fuel =>
      if negb (Hour loc candidate =? hour + 1) && same_day candidate year month day then
        let hour := hour + 1 in
        if 23 <? hour then Date year month (day + 1) 0 0 0 loc
        else minute_loop fuel year month day hour (Date year month day (hour + 1) 0 0 loc)
      else candidate
  end.

(** One iteration: the next candidate, or the result.  The inner loops end
    when the hour passes 23. *)
Definition next_step (candidate : Z) : Z + Z :=
  let candidate := adjustForDST candidate loc in
  let year := Year loc candidate in
  let month := Month loc candidate in
  let day := Day loc candidate in
  let hour := Hour loc candidate in
  let minute := Minute loc candidate in
  let second := Second loc candidate in
  let weekday := Weekday loc candidate in
  if HasYear expr && negb (Matches (YearField expr) year) then inl (Date (year + 1) 1 1 0 0 0 loc)
  else if negb (Matches (MonthField expr) month) then
    inl (if month =? 12 then Date (year + 1) 1 1 0 0 0 loc else Date year (month + 1) 1 0 0 0 loc)
  else if negb (day_matches expr day weekday) then inl (Date year month (day + 1) 0 0 0 loc)
  else if negb (Matches (HourField expr) hour) then
    inl (hour_loop 24 year month day (hour + 1) (Date year month day (hour + 1) 0 0 loc))
  else if negb (Matches (MinuteField expr) minute) then
    let c := Date year month day hour (minute + 1) 0 loc in
    inl (if negb (Hour loc c =? hour) || negb (Day loc c =? day)
         then minute_loop 25 year month day hour (Date year month day (hour + 1) 0 0 loc)
         else c)
  else if negb (Matches (SecondField expr) second) then
    let c := Date year month day hour minute (second + 1) loc in
    inl (if negb (Minute loc c =? minute) || negb (Hour loc c =? hour) then
           let c := Date year month day hour (minute + 1) 0 loc in
           if negb (Hour loc c =? hour) || negb (Day loc c =? day) then Date year month day (hour + 1) 0 0 loc else c
         else c)
  else if negb (isValidDay year month day) then inl (Date year month (day + 1) 0 0 0 loc)
  else inr candidate.

End step.

Definition expr_location (expr : CronExpression) : Location := default UTC (ExprLocation expr).

(** [from] and the result are in nanoseconds since 1970. *)
Definition NextTimeWithConfig (expr : option CronExpression) (from : Z) (config : option SchedulerConfig) :
    result Error Z :=
  match expr with
  | None => Err ErrInvalidExpression
  | Some expr =>
      let config := default DefaultConfig config in
      let loc := expr_location expr in
      let candidate := (from + 1000000000) / 1000000000 in
      match MaxIterations config with
      | Zpos n =>
          match repeat_step (next_step expr loc) n candidate with
          | inr c => Ok (c * 1000000000)
          | inl _ => Err ErrNoNextTime
          end
      | _ => Err ErrNoNextTime
      end
  end.

Definition NextTime (expr : option CronExpression) (from : Z) : result Error Z :=
  NextTimeWithConfig expr from (Some DefaultConfig).

Fixpoint next_times (expr : option CronExpression) (current : Z) (count : nat) : result Error (list Z) :=
  match count with
  | O => Ok []
  | S count =>
      let? n := NextTime expr current in
      let? rest := next_times expr n count in
      Ok (n :: rest)
  end.

Definition NextTimes (expr : option CronExpression) (from count : Z) : result Error (list Z) :=
  next_times expr from (Z.to_nat count).

Definition expr_Next (ce : CronExpression) (from : Z) : result Error Z := NextTime (Some ce) from.
Definition expr_NextN (ce : CronExpression) (from count : Z) : result Error (list Z) := NextTimes (Some ce) from count.

(** [ce.Matches(t)], of a time in nanoseconds. *)
Definition expr_Matches (ce : CronExpression) (t : Z) : bool :=
  let loc := expr_location ce in
  let u := t / 1000000000 in
  if HasYear ce && negb (Matches (YearField ce) (Year loc u)) then false
  else if negb (Matches (MonthField ce) (Month loc u)) then false
  else if negb (day_matches ce (Day loc u) (Weekday loc u)) then false
  else if negb (Matches (HourField ce) (Hour loc u)) then false
  else if negb (Matches (MinuteField ce) (Minute loc u)) then false
  else if negb (Matches (SecondField ce) (Second loc u)) then false
  else isValidDay (Year loc u) (Month loc u) (Day loc u).
