(* ===== verification/CronNextProofs.v ===== *)
(** The next time of a cron expression is the least matching second after the
    given time, in locations with a fixed offset; in every location it
    matches. *)

From stdpp Require Import base tactics list strings.
From Stdlib Require Import ZArith Lia.
From S2P Require Import Prelude GoStrings GoTime Cron CronNext.

(** * Steps *)

Section steps.
Context {St R : Type} (f : St -> St + R).

Fixpoint nsteps (n : nat) (s : St) : St + R :=
  match n with O => inl s | S n => match f s with inl s => nsteps n s | inr r => inr r end end.

Lemma nsteps_add a b s : nsteps (a + b) s = match nsteps a s with inl s => nsteps b s | inr r => inr r end.
Proof. revert s. induction a as [|a IH]; intros s; simpl; [done|]. by destruct (f s). Qed.

Lemma repeat_nsteps p s : repeat_step f p s = nsteps (Pos.to_nat p) s.
Proof.
  revert s. induction p as [p IH|p IH|]; intros s; [rewrite Pos2Nat.inj_xI|rewrite Pos2Nat.inj_xO|]; simpl.
  - destruct (f s); [|done]. rewrite Nat.add_0_r, nsteps_add, IH.
    by destruct (nsteps _ _).
  - rewrite Nat.add_0_r, nsteps_add, IH. by destruct (nsteps _ _).
  - by destruct (f s).
Qed.
End steps.

(** * Fixed offsets *)

Section fixed.
Context (k : Z).
Let loc := FixedZone k.

Lemma local_fixed u : local loc u = u + k.
Proof. done. Qed.

Lemma Date_fixed y m d h mi s : Date y m d h mi s loc = days_of_date y m d * 86400 + h * 3600 + mi * 60 + s - k.
Proof. done. Qed.

(** The local time of [c], split into a day and the time of day. *)
Lemma time_parts c :
  c + k = day_number loc c * 86400 + Hour loc c * 3600 + Minute loc c * 60 + Second loc c /\
  0 <= Hour loc c < 24 /\ 0 <= Minute loc c < 60 /\ 0 <= Second loc c < 60.
Proof.
  unfold day_number, Hour, Minute, Second. rewrite local_fixed. generalize (c + k). intros l.
  Z.to_euclidean_division_equations. lia.
Qed.

Lemma parts_unique c d h mi s :
  c + k = d * 86400 + h * 3600 + mi * 60 + s -> 0 <= h < 24 -> 0 <= mi < 60 -> 0 <= s < 60 ->
  day_number loc c = d /\ Hour loc c = h /\ Minute loc c = mi /\ Second loc c = s.
Proof.
  unfold day_number, Hour, Minute, Second. rewrite local_fixed. generalize (c + k). intros l -> ? ? ?.
  Z.to_euclidean_division_equations. lia.
Qed.

Lemma date_of_day c : days_of_date (Year loc c) (Month loc c) (Day loc c) = day_number loc c.
Proof. unfold Year, Month, Day. symmetry. apply date_exists. Qed.

(** [time.Date] on the date of [c]. *)
Lemma Date_same_day c d h mi s :
  Date (Year loc c) (Month loc c) (Day loc c + d) h mi s loc =
    (day_number loc c + d) * 86400 + h * 3600 + mi * 60 + s - k.
Proof.
  rewrite Date_fixed, <- date_of_day, !days_of_date_split. lia.
Qed.

Lemma Date_on_day c h mi s :
  Date (Year loc c) (Month loc c) (Day loc c) h mi s loc = day_number loc c * 86400 + h * 3600 + mi * 60 + s - k.
Proof. rewrite <- (Z.add_0_r (Day loc c)), Date_same_day. lia. Qed.

Lemma same_day_spec c c' :
  same_day loc c' (Year loc c) (Month loc c) (Day loc c) = true <-> day_number loc c' = day_number loc c.
Proof.
  unfold same_day. rewrite !andb_true_iff, !Z.eqb_eq. split.
  - intros [[Hy Hm] Hd]. by rewrite <- (date_of_day c'), Hy, Hm, Hd, date_of_day.
  - intros E. unfold Year, Month, Day. by rewrite E.
Qed.

Lemma valid_day c : isValidDay (Year loc c) (Month loc c) (Day loc c) = true.
Proof.
  destruct (date_exists (day_number loc c)) as (Hm & Hd & Hb & E). fold (Year loc c) (Month loc c) (Day loc c) in *.
  rewrite days_of_date_split in E. unfold isValidDay.
  assert (Day UTC (Date (Year loc c) (Month loc c + 1) 0 0 0 0 UTC) =
    month_start (Year loc c) (Month loc c + 1) - month_start (Year loc c) (Month loc c)) as EL.
  { rewrite <- last_day_of_month by done. unfold Day at 1, day_number, local, Date, UTC, FixedZone.
    cbn [utc_offset date_offset]. set (D := days_of_date _ _ _). do 2 f_equal.
    replace (D * 86400 + 0 * 3600 + 0 * 60 + 0 - 0 + 0) with (D * 86400) by lia. by apply Z.div_mul. }
  rewrite EL. assert (month_start (Year loc c) (Month loc c + 1) - month_start (Year loc c) (Month loc c) <= 31)
    by (by apply month_length_bound).
  rewrite (proj2 (Z.ltb_ge _ _)), (proj2 (Z.ltb_ge _ _)) by lia. simpl. apply Z.leb_le. lia.
Qed.

(** ** Where the branches of a step lead *)

Lemma start_of_month_fixed y m : Date y m 1 0 0 0 loc = month_start y m * 86400 - k.
Proof. rewrite Date_fixed, days_of_date_split. lia. Qed.

(** Between a time and the start of the next year, month, day, hour or minute
    these fields stay. *)
Lemma year_stays c u : c <= u < Date (Year loc c + 1) 1 1 0 0 0 loc -> Year loc u = Year loc c.
Proof.
  rewrite start_of_month_fixed. intros Hu. unfold Year in *. apply year_of_day_unique.
  pose proof (year_of_day_spec (day_number loc c)) as Hs. simpl in Hs.
  rewrite month_start_eq in Hu by lia. change (days_before_month _ (1 - 1)) with 0 in Hu.
  assert (day_number loc c <= day_number loc u) by (unfold day_number; rewrite !local_fixed; apply Z.div_le_mono; lia).
  assert (day_number loc u < days_before_year (year_of_day (day_number loc c) + 1) - days_to_epoch).
  { unfold day_number at 1. rewrite local_fixed. apply Z.div_lt_upper_bound; lia. }
  lia.
Qed.

Lemma month_stays c u : c <= u < Date (Year loc c) (Month loc c + 1) 1 0 0 0 loc ->
  Year loc u = Year loc c /\ Month loc u = Month loc c.
Proof.
  rewrite start_of_month_fixed. intros Hu. destruct (date_exists (day_number loc c)) as (Hm & _ & Hb & _).
  fold (Year loc c) (Month loc c) in *.
  destruct (date_unique (day_number loc u) (Year loc c) (Month loc c)) as [Hy Hmd]; [done| |].
  - assert (day_number loc c <= day_number loc u) by (unfold day_number; rewrite !local_fixed; apply Z.div_le_mono; lia).
    assert (day_number loc u < month_start (Year loc c) (Month loc c + 1)).
    { unfold day_number. rewrite local_fixed. apply Z.div_lt_upper_bound; lia. }
    lia.
  - split; [done|]. unfold Month at 1. by rewrite Hmd.
Qed.

Lemma next_january c : Month loc c = 12 ->
  Date (Year loc c + 1) 1 1 0 0 0 loc = Date (Year loc c) (Month loc c + 1) 1 0 0 0 loc.
Proof.
  intros E. rewrite !start_of_month_fixed, E. do 2 f_equal.
  rewrite month_end_eq, month_start_eq, days_before_year_step, days_before_month_12 by lia.
  change (days_before_month _ (1 - 1)) with 0. destruct (leap _); lia.
Qed.

Lemma day_stays c u : day_number loc u = day_number loc c ->
  Year loc u = Year loc c /\ Month loc u = Month loc c /\ Day loc u = Day loc c /\ Weekday loc u = Weekday loc c.
Proof. intros E. unfold Year, Month, Day, Weekday. by rewrite E. Qed.

Lemma before_next_year c : c < Date (Year loc c + 1) 1 1 0 0 0 loc.
Proof.
  rewrite start_of_month_fixed, month_start_eq by lia. change (days_before_month _ (1 - 1)) with 0.
  pose proof (year_of_day_spec (day_number loc c)) as Hs. simpl in Hs. fold (Year loc c) in Hs.
  destruct (time_parts c). lia.
Qed.

Lemma before_next_month c : c < Date (Year loc c) (Month loc c + 1) 1 0 0 0 loc.
Proof.
  rewrite start_of_month_fixed. destruct (date_exists (day_number loc c)) as (_ & _ & Hb & _).
  fold (Year loc c) (Month loc c) in Hb. destruct (time_parts c). lia.
Qed.

Lemma day_between c u : c <= u < (day_number loc c + 1) * 86400 - k -> day_number loc u = day_number loc c.
Proof. unfold day_number. rewrite !local_fixed. intros. Z.to_euclidean_division_equations. lia. Qed.

Lemma hour_between c u : c <= u < day_number loc c * 86400 + (Hour loc c + 1) * 3600 - k ->
  day_number loc u = day_number loc c /\ Hour loc u = Hour loc c.
Proof.
  destruct (time_parts c) as (Hc & Hh & Hm & Hs), (time_parts u) as (Hu & Hh' & Hm' & Hs'). lia.
Qed.

Lemma minute_between c u : c <= u < day_number loc c * 86400 + Hour loc c * 3600 + (Minute loc c + 1) * 60 - k ->
  day_number loc u = day_number loc c /\ Hour loc u = Hour loc c /\ Minute loc u = Minute loc c.
Proof.
  destruct (time_parts c) as (Hc & Hh & Hm & Hs), (time_parts u) as (Hu & Hh' & Hm' & Hs'). lia.
Qed.

(** The jumps of the inner branches are to the next hour, minute, second. *)
Lemma hour_jump c :
  let c' := Date (Year loc c) (Month loc c) (Day loc c) (Hour loc c + 1) 0 0 loc in
  hour_loop loc 24 (Year loc c) (Month loc c) (Day loc c) (Hour loc c + 1) c' = c' /\
  minute_loop loc 25 (Year loc c) (Month loc c) (Day loc c) (Hour loc c) c' = c' /\
  c' = day_number loc c * 86400 + (Hour loc c + 1) * 3600 - k.
Proof.
  intros c'. destruct (time_parts c) as (Hc & Hh & Hm & Hs).
  assert (c' = day_number loc c * 86400 + (Hour loc c + 1) * 3600 - k) as E by (unfold c'; rewrite Date_on_day; lia).
  assert (negb (Hour loc c' =? Hour loc c + 1) && same_day loc c' (Year loc c) (Month loc c) (Day loc c) = false) as Hexit.
  { destruct (decide (Hour loc c = 23)) as [E23|Hne].
    - destruct (parts_unique c' (day_number loc c + 1) 0 0 0) as (Hd & _); [lia..|].
      apply andb_false_iff. right. apply not_true_is_false. rewrite same_day_spec. lia.
    - destruct (parts_unique c' (day_number loc c) (Hour loc c + 1) 0 0) as (_ & -> & _); [lia..|]. by rewrite Z.eqb_refl. }
  split_and!; [|..|done]; cbn [hour_loop minute_loop]; by rewrite Hexit.
Qed.

Lemma minute_jump c :
  let c' := Date (Year loc c) (Month loc c) (Day loc c) (Hour loc c) (Minute loc c + 1) 0 loc in
  let h' := Date (Year loc c) (Month loc c) (Day loc c) (Hour loc c + 1) 0 0 loc in
  let t := day_number loc c * 86400 + Hour loc c * 3600 + (Minute loc c + 1) * 60 - k in
  c' = t /\ (negb (Hour loc c' =? Hour loc c) || negb (Day loc c' =? Day loc c) = true -> h' = t).
Proof.
  intros c' h' t. destruct (time_parts c) as (Hc & Hh & Hm & Hs).
  assert (c' = t) as E by (unfold c', t; rewrite Date_on_day; lia). split; [done|].
  intros Hor. destruct (decide (Minute loc c = 59)) as [E59|Hne].
  - unfold h', t. rewrite Date_on_day. lia.
  - destruct (parts_unique c' (day_number loc c) (Hour loc c) (Minute loc c + 1) 0) as (Hd & Hh' & _); [lia..|].
    destruct (day_stays c c' Hd) as (_ & _ & Hday & _). rewrite Hh', Hday, !Z.eqb_refl in Hor. discriminate Hor.
Qed.

Lemma second_jump c :
  let c' := Date (Year loc c) (Month loc c) (Day loc c) (Hour loc c) (Minute loc c) (Second loc c + 1) loc in
  c' = c + 1 /\
  (negb (Minute loc c' =? Minute loc c) || negb (Hour loc c' =? Hour loc c) = true ->
   day_number loc c * 86400 + Hour loc c * 3600 + (Minute loc c + 1) * 60 - k = c + 1).
Proof.
  intros c'. destruct (time_parts c) as (Hc & Hh & Hm & Hs).
  assert (c' = c + 1) as E by (unfold c'; rewrite Date_on_day; lia). split; [done|].
  intros Hor. destruct (decide (Second loc c = 59)) as [E59|Hne]; [lia|].
  destruct (parts_unique c' (day_number loc c) (Hour loc c) (Minute loc c) (Second loc c + 1)) as (_ & Hh' & Hm' & _); [lia..|].
  rewrite Hh', Hm', !Z.eqb_refl in Hor. discriminate Hor.
Qed.
End fixed.

(** * The search *)

(** [Matches] of a whole second. *)
Definition at_second (ce : CronExpression) (loc : Location) (u : Z) : bool :=
  if HasYear ce && negb (Matches (YearField ce) (Year loc u)) then false
  else if negb (Matches (MonthField ce) (Month loc u)) then false
  else if negb (day_matches ce (Day loc u) (Weekday loc u)) then false
  else if negb (Matches (HourField ce) (Hour loc u)) then false
  else if negb (Matches (MinuteField ce) (Minute loc u)) then false
  else if negb (Matches (SecondField ce) (Second loc u)) then false
  else isValidDay (Year loc u) (Month loc u) (Day loc u).

Lemma expr_Matches_second ce t : expr_Matches ce t = at_second ce (expr_location ce) (t / 1000000000).
Proof. done. Qed.

Lemma adjust_same c loc : adjustForDST c loc = c.
Proof. unfold adjustForDST. by rewrite !Z.eqb_refl. Qed.

Section search.
Context (ce : CronExpression).

(** In every location a step that returns has found a match. *)
Lemma next_step_found loc c r : next_step ce loc c = inr r -> r = c /\ at_second ce loc c = true.
Proof.
  unfold next_step, at_second. rewrite adjust_same. cbv zeta.
  repeat (match goal with |- context [if ?b then inl _ else _] => destruct b eqn:? end; [discriminate|]).
  intros [= <-]. split; [done|].
  repeat match goal with H : _ = false |- _ => rewrite H; clear H end.
  repeat match goal with H : negb _ = false |- _ => apply negb_false_iff in H end. done.
Qed.

(** A field that does not match at [c] excludes the times that share it. *)
Lemma no_match_month loc c u :
  Matches (MonthField ce) (Month loc c) = false -> Month loc u = Month loc c -> at_second ce loc u = false.
Proof. unfold at_second. intros H ->. rewrite H. by destruct (_ && _). Qed.

Lemma no_match_day loc c u :
  day_matches ce (Day loc c) (Weekday loc c) = false -> day_number loc u = day_number loc c -> at_second ce loc u = false.
Proof.
  unfold at_second. intros H E. unfold Day, Weekday in *. rewrite E, H. simpl. by repeat case_match.
Qed.

Lemma no_match_hour loc c u :
  Matches (HourField ce) (Hour loc c) = false -> Hour loc u = Hour loc c -> at_second ce loc u = false.
Proof. unfold at_second. intros H ->. rewrite H. simpl. by repeat case_match. Qed.

Lemma no_match_minute loc c u :
  Matches (MinuteField ce) (Minute loc c) = false -> Minute loc u = Minute loc c -> at_second ce loc u = false.
Proof. unfold at_second. intros H ->. rewrite H. simpl. by repeat case_match. Qed.

Lemma no_match_second loc c : Matches (SecondField ce) (Second loc c) = false -> at_second ce loc c = false.
Proof. unfold at_second. intros H. rewrite H. simpl. by repeat case_match. Qed.

(** With a fixed offset, a step that goes on skips no match. *)
Lemma next_step_skips k c c' :
  next_step ce (FixedZone k) c = inl c' ->
  c < c' /\ forall u, c <= u < c' -> at_second ce (FixedZone k) u = false.
Proof.
  set (loc := FixedZone k). destruct (time_parts k c) as (Hc & Hh & Hmi & Hs). fold loc in Hc, Hh, Hmi, Hs.
  unfold next_step. rewrite adjust_same. cbv zeta.
  destruct (HasYear ce && negb (Matches (YearField ce) (Year loc c))) eqn:Ey.
  { intros <-%(inj inl). split; [apply (before_next_year k c)|]. intros u Hu. unfold at_second.
    pose proof (year_stays k c u Hu) as E. fold loc in E. by rewrite E, Ey. }
  destruct (Matches (MonthField ce) (Month loc c)) eqn:Em; cbn [negb].
  2: { intros Heq. assert (c' = Date (Year loc c) (Month loc c + 1) 1 0 0 0 loc) as ->.
    { apply (inj inl) in Heq as <-. destruct (Z.eqb_spec (Month loc c) 12); [by apply next_january|done]. }
    split; [apply (before_next_month k c)|]. intros u Hu.
    destruct (month_stays k c u Hu) as [_ E]. by eapply no_match_month. }
  destruct (day_matches ce (Day loc c) (Weekday loc c)) eqn:Ed; cbn [negb].
  2: { intros <-%(inj inl). unfold loc. rewrite (Date_same_day k c 1). fold loc. split; [lia|]. intros u Hu.
    eapply no_match_day; [done|]. apply day_between. fold loc. lia. }
  destruct (Matches (HourField ce) (Hour loc c)) eqn:Eh; cbn [negb].
  2: { destruct (hour_jump k c) as (E1 & _ & E3). fold loc in E1, E3. rewrite E1, E3. intros <-%(inj inl). split; [lia|].
    intros u Hu. eapply no_match_hour; [done|]. apply (hour_between k c u). fold loc. lia. }
  destruct (Matches (MinuteField ce) (Minute loc c)) eqn:Emi; cbn [negb].
  2: { destruct (hour_jump k c) as (_ & E2 & _), (minute_jump k c) as [E4 E5]. fold loc in E2, E4, E5. rewrite E2.
    intros Heq. assert (c' = day_number loc c * 86400 + Hour loc c * 3600 + (Minute loc c + 1) * 60 - k) as ->.
    { apply (inj inl) in Heq as <-. destruct (_ || _) eqn:Eo; [exact (E5 eq_refl)|exact E4]. }
    split; [lia|]. intros u Hu. eapply no_match_minute; [done|]. by apply (minute_between k c u). }
  destruct (Matches (SecondField ce) (Second loc c)) eqn:Es; cbn [negb].
  2: { destruct (minute_jump k c) as [E4 E5], (second_jump k c) as [E6 E7]. fold loc in E4, E5, E6, E7.
    intros Heq. assert (c' = c + 1) as ->.
    { apply (inj inl) in Heq as <-. destruct (negb (Minute loc _ =? _) || _) eqn:Eo; [|exact E6]. rewrite <- (E7 eq_refl).
      destruct (negb (Hour loc (Date _ _ _ _ (_ + 1) _ _) =? _) || _) eqn:Eo'; [exact (E5 eq_refl)|exact E4]. }
    split; [lia|]. intros u Hu. replace u with c by lia. by apply no_match_second. }
  unfold loc. rewrite valid_day. cbn [negb]. discriminate.
Qed.

Lemma nsteps_found loc n c r : nsteps (next_step ce loc) n c = inr r -> at_second ce loc r = true.
Proof.
  revert c. induction n as [|n IH]; intros c; simpl; [done|]. destruct (next_step ce loc c) as [c'|r'] eqn:E; [apply IH|].
  intros [= ->]. by destruct (next_step_found loc c r E) as [-> ?].
Qed.

Lemma nsteps_least k n c :
  match nsteps (next_step ce (FixedZone k)) n c with
  | inl c' => c + Z.of_nat n <= c' /\ forall u, c <= u < c' -> at_second ce (FixedZone k) u = false
  | inr r => c <= r /\ forall u, c <= u < r -> at_second ce (FixedZone k) u = false
  end.
Proof.
  revert c. induction n as [|n IH]; intros c; [simpl; split; lia|]. cbn [nsteps].
  destruct (next_step ce (FixedZone k) c) as [c1|r] eqn:E.
  - destruct (next_step_skips k c c1 E) as [Hlt Hno]. specialize (IH c1). destruct (nsteps _ n c1) as [c'|r].
    + destruct IH as [H1 H2]. split; [lia|]. intros u Hu. destruct (Z.lt_ge_cases u c1); [apply Hno; lia|apply H2; lia].
    + destruct IH as [H1 H2]. split; [lia|]. intros u Hu. destruct (Z.lt_ge_cases u c1); [apply Hno; lia|apply H2; lia].
  - destruct (next_step_found _ c r E) as [-> _]. split; [lia|]. intros. lia.
Qed.
End search.

Definition second_ns : Z := 1000000000.

Lemma start_second from : (from + 1000000000) / 1000000000 = from / second_ns + 1.
Proof. unfold second_ns. rewrite <- (Z.mul_1_l 1000000000) at 1. by rewrite Z.div_add by lia. Qed.

Lemma whole_seconds t : t mod second_ns = 0 -> t = t / second_ns * second_ns.
Proof. unfold second_ns. intros. Z.to_euclidean_division_equations. lia. Qed.

Lemma NextTime_unfold ce from :
  NextTime (Some ce) from =
    match nsteps (next_step ce (expr_location ce)) (Pos.to_nat 31622400) (from / second_ns + 1) with
    | inr c => Ok (c * second_ns)
    | inl _ => Err ErrNoNextTime
    end.
Proof.
  unfold NextTime, NextTimeWithConfig.
  replace (MaxIterations (default DefaultConfig (Some DefaultConfig))) with (Zpos 31622400) by (vm_compute; reflexivity).
  by rewrite repeat_nsteps, start_second.
Qed.

(** C12: In a location with a fixed offset, UTC in particular, NextTime answers
    with the least whole second after the given time that the expression
    matches; when it gives up, nothing matches in the next 366 days. *)
Theorem NextTime_least ce k from :
  expr_location ce = FixedZone k ->
  match NextTime (Some ce) from with
  | Ok t =>
      from < t /\ t mod second_ns = 0 /\ expr_Matches ce t = true /\
      forall t', from < t' < t -> t' mod second_ns = 0 -> expr_Matches ce t' = false
  | Err e =>
      e = ErrNoNextTime /\
      forall t', from < t' <= from + 366 * 86400 * second_ns -> t' mod second_ns = 0 -> expr_Matches ce t' = false
  end.
Proof.
  intros Hloc. rewrite NextTime_unfold, Hloc.
  set (c := from / second_ns + 1). assert (forall t', from < t' -> t' mod second_ns = 0 -> c <= t' / second_ns) as Hc.
  { intros t' Ht' Hm. unfold c, second_ns in *. Z.to_euclidean_division_equations. lia. }
  pose proof (nsteps_least ce k (Pos.to_nat 31622400) c) as Hl.
  pose proof (nsteps_found ce (FixedZone k) (Pos.to_nat 31622400) c) as Hf.
  destruct (nsteps _ (Pos.to_nat 31622400) c) as [c'|r].
  - rewrite positive_nat_Z in Hl. destruct Hl as [Hn Hno]. split; [done|]. intros t' Ht' Hm.
    rewrite expr_Matches_second, Hloc. apply Hno. split; [apply Hc; [lia|done]|].
    unfold c, second_ns in *. Z.to_euclidean_division_equations. lia.
  - destruct Hl as [Hr Hno]. specialize (Hf r eq_refl).
    split_and!.
    + unfold c, second_ns in *. Z.to_euclidean_division_equations. lia.
    + by apply Z.mod_mul.
    + rewrite expr_Matches_second, Hloc. fold second_ns. by rewrite Z.div_mul.
    + intros t' Ht' Hm. rewrite expr_Matches_second, Hloc. apply Hno. fold second_ns.
      split; [apply Hc; [lia|done]|]. apply Z.div_lt_upper_bound; [done|]. lia.
Qed.

(** In every location the answer matches. *)
Lemma NextTime_matches ce from t : NextTime (Some ce) from = Ok t -> expr_Matches ce t = true.
Proof.
  rewrite NextTime_unfold. destruct (nsteps _ _ _) as [c|r] eqn:E; [done|]. intros [= <-].
  rewrite expr_Matches_second, Z.div_mul by done. by eapply nsteps_found.
Qed.

(** ** A concrete search, and a change of the offset *)

Definition demo_expr : CronExpression :=
  match Parse "0 45 * * * *" with
  | Ok e => e
  | Err _ => {| Raw := ""; Fields := []; SecondField := Build_CronField FieldSecond "" [] 0 0;
      MinuteField := Build_CronField FieldSecond "" [] 0 0; HourField := Build_CronField FieldSecond "" [] 0 0;
      DayField := Build_CronField FieldSecond "" [] 0 0; MonthField := Build_CronField FieldSecond "" [] 0 0;
      WeekdayField := Build_CronField FieldSecond "" [] 0 0; YearField := Build_CronField FieldSecond "" [] 0 0;
      ExprLocation := None; HasYear := false |}
  end.

Lemma NextTime_least_witness :
  expr_location demo_expr = FixedZone 0 /\
  match NextTime (Some demo_expr) (100 * second_ns + 7) with
  | Ok t => t = 2700 * second_ns /\ expr_Matches demo_expr t = true
  | Err _ => False
  end.
Proof.
  split; [vm_compute; reflexivity|].
  pose proof (NextTime_least demo_expr 0 (100 * second_ns + 7) ltac:(vm_compute; reflexivity)) as H.
  assert (NextTime (Some demo_expr) (100 * second_ns + 7) = Ok (2700 * second_ns)) as E by (vm_compute; reflexivity).
  rewrite E in H |- *. destruct H as (_ & _ & H & _). split; [reflexivity|exact H].
Defined.

(** New York in 2024: at 06:00 UTC of the third of November the clocks go back
    from two to one.  A local time that occurs twice is taken to be the first. *)
Definition clocks_back : Z := 1730613600.

Definition new_york : Location := {|
  utc_offset u := if u <? clocks_back then -14400 else -18000;
  date_offset l := if l + 14400 <? clocks_back then -14400 else -18000;
|}.

Lemma new_york_ok : location_ok new_york.
Proof.
  intros u. unfold new_york, clocks_back. cbn [utc_offset date_offset]. cbv zeta.
  repeat (match goal with |- context [?a <? ?b] => destruct (Z.ltb_spec a b) end); lia.
Qed.

(** In the hour that the clocks repeat, the next time can lie before the
    time it is asked for: the scheduler, which asks again after every run,
    would run the task over and over. *)
Theorem repeated_hour_goes_back :
  location_ok new_york /\
  match ParseWithLocation "0 45 * * * *" (Some new_york) with
  | Ok ce =>
      let from := (clocks_back + 40 * 60) * second_ns in
      NextTime (Some ce) from = Ok (from - 55 * 60 * second_ns)
  | Err _ => False
  end.
Proof. split; [exact new_york_ok|]. vm_compute. reflexivity. Qed.
