(* ===== verification/CronDesc.v ===== *)
(** cronsched/scheduler.go, descriptions and validation of expressions.

    The texts are the UTF-8 literals of the source.  [None] is a panic: an
    index out of the range of a table of names. *)

From stdpp Require Import base tactics option list strings.
From Stdlib Require Import ZArith Lia.
From S2P Require Import Prelude GoStrings GoTime Cron CronNext CronProofs.

Definition Join (parts : list string) (sep : string) : string :=
  match parts with
  | [] => ""
  | p :: parts => p +:+ foldr (fun q acc => sep +:+ q +:+ acc) "" parts
  end.

Definition fmt_d (n : Z) : string := fmt_padded 0 n.

Definition describe_value (fv : FieldValue) : option string :=
  match Type_ fv with
  | ValueSingle => Some (fmt_d (Value fv))
  | ValueRange => Some (fmt_d (RangeLow fv) +:+ "-" +:+ fmt_d (RangeHigh fv))
  | ValueStep => Some (fmt_d (RangeLow fv) +:+ "-" +:+ fmt_d (RangeHigh fv) +:+ "/" +:+ fmt_d (Step fv))
  | ValueWildcard | ValueList => None
  end.

Definition describe_list (cf : CronField) (unit : string) : string :=
  Join (omap describe_value (cf_Values cf)) "," +:+ unit.

Definition describeField (cf : CronField) (unit : string) : string :=
  match cf_Values cf with
  | [fv] =>
      match Type_ fv with
      | ValueWildcard => "每" +:+ unit
      | ValueSingle => fmt_d (Value fv) +:+ unit
      | ValueRange => fmt_d (RangeLow fv) +:+ "-" +:+ fmt_d (RangeHigh fv) +:+ unit
      | ValueStep =>
          if (RangeLow fv =? Min cf) && (RangeHigh fv =? Max cf) then "每" +:+ fmt_d (Step fv) +:+ unit
          else fmt_d (RangeLow fv) +:+ "-" +:+ fmt_d (RangeHigh fv) +:+ unit +:+ " 每" +:+ fmt_d (Step fv) +:+ unit
      | ValueList => describe_list cf unit
      end
  | _ => describe_list cf unit
  end.

(** [names[i]]. *)
Definition index (names : list string) (i : Z) : option string :=
  if 0 <=? i then names !! Z.to_nat i else None.

Definition month_texts : list string :=
  ["一月"; "二月"; "三月"; "四月"; "五月"; "六月"; "七月"; "八月"; "九月"; "十月"; "十一月"; "十二月"].

Definition describeMonthField (cf : CronField) : option string :=
  let month i := index month_texts (i - 1) in
  let rest := Some ("在 " +:+ describeField cf "月") in
  match cf_Values cf with
  | [fv] =>
      match Type_ fv with
      | ValueSingle => m ← month (Value fv); Some ("在 " +:+ m)
      | ValueRange => a ← month (RangeLow fv); b ← month (RangeHigh fv); Some ("从 " +:+ a +:+ " 到 " +:+ b)
      | ValueStep =>
          a ← month (RangeLow fv); b ← month (RangeHigh fv);
          Some ("从 " +:+ a +:+ " 到 " +:+ b +:+ " 每" +:+ fmt_d (Step fv) +:+ "个月")
      | ValueWildcard | ValueList => rest
      end
  | _ => rest
  end.

Definition weekday_texts : list string := ["周日"; "周一"; "周二"; "周三"; "周四"; "周五"; "周六"].

Definition weekday_text (i : Z) : option string := index weekday_texts i.

Fixpoint describe_weekdays (fvs : list FieldValue) : option (list string) :=
  match fvs with
  | [] => Some []
  | fv :: fvs =>
      text ← match Type_ fv with
             | ValueSingle => a ← weekday_text (Value fv); Some [a]
             | ValueRange => a ← weekday_text (RangeLow fv); b ← weekday_text (RangeHigh fv); Some [a +:+ "-" +:+ b]
             | ValueStep =>
                 a ← weekday_text (RangeLow fv); b ← weekday_text (RangeHigh fv);
                 Some [a +:+ "-" +:+ b +:+ "/" +:+ fmt_d (Step fv)]
             | ValueWildcard | ValueList => Some []
             end;
      rest ← describe_weekdays fvs;
      Some (text ++ rest)
  end.

Definition describeWeekdayField (cf : CronField) : option string :=
  let rest := texts ← describe_weekdays (cf_Values cf); Some (Join texts ",") in
  match cf_Values cf with
  | [fv] =>
      match Type_ fv with
      | ValueSingle => weekday_text (Value fv)
      | ValueRange => a ← weekday_text (RangeLow fv); b ← weekday_text (RangeHigh fv); Some (a +:+ " 到 " +:+ b)
      | ValueStep =>
          a ← weekday_text (RangeLow fv); b ← weekday_text (RangeHigh fv);
          Some (a +:+ " 到 " +:+ b +:+ " 每" +:+ fmt_d (Step fv) +:+ "天")
      | ValueWildcard | ValueList => rest
      end
  | _ => rest
  end.

(** [parts = append(parts, ...)] of a field that is not a wildcard. *)
Definition unless_wildcard (cf : CronField) (text : option string) : option (list string) :=
  if isWildcard cf then Some [] else t ← text; Some [t].

Definition GenerateDescription (expr : option CronExpression) : option string :=
  match expr with
  | None => Some ""
  | Some expr =>
      second ← unless_wildcard (SecondField expr) (Some (describeField (SecondField expr) "秒"));
      minute ← unless_wildcard (MinuteField expr) (Some (describeField (MinuteField expr) "分"));
      hour ← unless_wildcard (HourField expr) (Some (describeField (HourField expr) "时"));
      day ← unless_wildcard (DayField expr) (Some ("在每月的 " +:+ describeField (DayField expr) "日"));
      month ← unless_wildcard (MonthField expr) (describeMonthField (MonthField expr));
      weekday ← unless_wildcard (WeekdayField expr)
        (w ← describeWeekdayField (WeekdayField expr); Some ("在每" +:+ w));
      year ← (if HasYear expr then unless_wildcard (YearField expr) (Some (describeField (YearField expr) "年"))
              else Some []);
      let parts := second ++ minute ++ hour ++ day ++ month ++ weekday ++ year in
      if (length parts =? 0)%nat then Some "每秒执行" else Some (Join parts "，" +:+ " 执行")
  end.

Record ValidationResult := { Valid : bool; Description : string; Errors : list Error }.

(** [time.Now()] is an argument. *)
Definition ValidateWithLocation (now : Z) (expr : string) (loc : option Location) : option ValidationResult :=
  match ParseWithLocation expr loc with
  | Err e => Some {| Valid := false; Description := ""; Errors := [e] |}
  | Ok cronExpr =>
      description ← GenerateDescription (Some cronExpr);
      match NextTime (Some cronExpr) now with
      | Ok _ => Some {| Valid := true; Description := description; Errors := [] |}
      | Err e => Some {| Valid := false; Description := description; Errors := [e] |}
      end
  end.

Definition Validate (now : Z) (expr : string) : option ValidationResult := ValidateWithLocation now expr (Some UTC).

(** A wildcard in a list is left out of its description: this expression matches
    in every month. *)
Example wildcard_undescribed :
  match Parse "* * * * *,5 *" with
  | Ok ce => GenerateDescription (Some ce) = Some "在 5月 执行" /\ Matches (MonthField ce) 7 = true
  | Err _ => False
  end.
Proof. vm_compute. split; reflexivity. Qed.

(** * No panics *)

Lemma index_Some names i : 0 <= i < Z.of_nat (length names) -> is_Some (index names i).
Proof. intros Hi. unfold index. destruct (Z.leb_spec 0 i); [|lia]. apply lookup_lt_is_Some. lia. Qed.

Lemma bind_is_Some {A B} (m : option A) (f : A -> option B) :
  is_Some m -> (forall a, is_Some (f a)) -> is_Some (m ≫= f).
Proof. intros [a ->] H. apply H. Qed.

(** Discharge the lookups of a description, in turn. *)
Ltac texts :=
  repeat first [by eauto | apply bind_is_Some; [|intros ?] | apply index_Some; simpl; lia].

Lemma describe_month_Some cf : wf_field FieldMonth cf -> is_Some (describeMonthField cf).
Proof.
  intros (_ & [= Hmin Hmax] & _ & Hf). unfold describeMonthField. rewrite Hmin, Hmax in Hf.
  destruct (cf_Values cf) as [|fv [|]]; [by eauto| |by eauto].
  rewrite Forall_singleton in Hf. unfold wf_value in Hf. destruct (Type_ fv); texts.
Qed.

Lemma describe_weekdays_Some fvs : Forall (wf_value 0 6) fvs -> is_Some (describe_weekdays fvs).
Proof.
  induction 1 as [|fv fvs Hf _ IH]; [by eauto|]. cbn [describe_weekdays]. unfold wf_value in Hf.
  apply bind_is_Some; [|intros ?; by texts]. unfold weekday_text. destruct (Type_ fv); texts.
Qed.

Lemma describe_weekday_Some cf : wf_field FieldWeekday cf -> is_Some (describeWeekdayField cf).
Proof.
  intros (_ & [= Hmin Hmax] & _ & Hf). unfold describeWeekdayField. rewrite Hmin, Hmax in Hf.
  pose proof (describe_weekdays_Some _ Hf) as Hd.
  destruct (cf_Values cf) as [|fv [|]]; [by texts| |by texts].
  rewrite Forall_singleton in Hf. unfold wf_value in Hf. unfold weekday_text. destruct (Type_ fv); texts.
Qed.

Lemma unless_wildcard_Some cf text : is_Some text -> is_Some (unless_wildcard cf text).
Proof. intros H. unfold unless_wildcard. destruct (isWildcard cf); texts. Qed.

(** The description of an expression that parses, and its validation, look
    up no name outside the tables: they return, whatever the expression. *)
Theorem description_no_panic now expr loc :
  is_Some (ValidateWithLocation now expr loc) /\
  forall ce, ParseWithLocation expr loc = Ok ce -> is_Some (GenerateDescription (Some ce)).
Proof.
  assert (forall ce, ParseWithLocation expr loc = Ok ce -> is_Some (GenerateDescription (Some ce))) as H.
  { intros ce ((HF & Hf & _) & _)%parsed_expression. rewrite HF in Hf. unfold fieldTypes in Hf.
    repeat (apply Forall2_cons in Hf as [? Hf]). unfold GenerateDescription.
    repeat (apply bind_is_Some; [|intros ?]); try (apply unless_wildcard_Some).
    all: try by eauto.
    - by apply describe_month_Some.
    - apply bind_is_Some; [by apply describe_weekday_Some|by eauto].
    - destruct (HasYear ce); [apply unless_wildcard_Some|]; by eauto.
    - case_match; by eauto. }
  split; [|done]. unfold ValidateWithLocation. destruct (ParseWithLocation expr loc) as [ce|e] eqn:E; [|by eauto].
  apply bind_is_Some; [by apply H|]. intros ?. case_match; by eauto.
Qed.
