(* ===== verification/CronSched.v ===== *)
(** cronsched/scheduler.go, the scheduler: tasks in a heap by their next run, a
    goroutine that waits for the first of them, and one goroutine per run.

    Tasks are objects shared by the map [tasks], the heap and the running
    goroutines, so they live in a store and are referred to by pointers.
    Channels and contexts are signals: [closed] holds those that were closed or
    cancelled.  Every function here is what happens under one hold of the
    mutex; [sys_step] interleaves them.  [task.Func] is the time between the
    start and the end of a run: it holds no lock, its panics are recovered, and
    what it calls on the scheduler is a step like any other. *)

From stdpp Require Import base tactics option list gmap strings.
From Stdlib Require Import ZArith Lia.
From S2P Require Import Prelude GoStrings GoTime GoHeap Cron CronNext.

Inductive TaskStatus := StatusPending | StatusRunning | StatusCancelled | StatusDone.

#[export] Instance task_status_eq_dec : EqDecision TaskStatus.
Proof. solve_decision. Defined.

(** Times are in nanoseconds; [LastRun] is [None] before the first run. *)
Record CronTask := {
  ID : string;
  CronExpr : CronExpression;
  Status : TaskStatus;
  NextRun : Z;
  TaskLocation : Location;
  CreatedAt : Z;
  LastRun : option Z;
  RunCount : Z;
}.

#[export] Instance cron_task_eta : Eta CronTask :=
  fun t => {| ID := ID t; CronExpr := CronExpr t; Status := Status t; NextRun := NextRun t;
              TaskLocation := TaskLocation t; CreatedAt := CreatedAt t; LastRun := LastRun t; RunCount := RunCount t |}.

Record Scheduler := {
  store : gmap nat CronTask;
  next_ptr : nat;
  closed : gset nat;
  next_signal : nat;
  heap : list nat;
  tasks : gmap string nat;
  running : bool;
  stopCh : nat;
  wakeCh : nat;
  ctx : nat;
  nextID : Z;
  config : SchedulerConfig;
}.

#[export] Instance scheduler_eta : Eta Scheduler :=
  fun s => {| store := store s; next_ptr := next_ptr s; closed := closed s; next_signal := next_signal s;
              heap := heap s; tasks := tasks s; running := running s; stopCh := stopCh s; wakeCh := wakeCh s;
              ctx := ctx s; nextID := nextID s; config := config s |}.

(** The key of the heap; [Less] compares it. *)
Definition next_run (s : Scheduler) (p : nat) : Z := match store s !! p with Some t => NextRun t | None => 0 end.
Definition Less (s : Scheduler) (p q : nat) : bool := next_run s p <? next_run s q.

Definition NewSchedulerWithConfig (cfg : option SchedulerConfig) : Scheduler :=
  {| store := ∅; next_ptr := 0; closed := ∅; next_signal := 3; heap := []; tasks := ∅; running := false;
     stopCh := 0; wakeCh := 1; ctx := 2; nextID := 0; config := default DefaultConfig cfg |}%nat.

Definition NewScheduler : Scheduler := NewSchedulerWithConfig None.

Definition generateID (now : Z) (s : Scheduler) : string * Scheduler :=
  let s := s <| nextID := uint64 (nextID s + 1) |> in
  ("cron-" +:+ fmt_padded 0 now +:+ "-" +:+ fmt_padded 0 (nextID s), s).

Definition close_signal (c : nat) (s : Scheduler) : Scheduler := s <| closed := {[ c ]} ∪ closed s |>.

Definition wake (s : Scheduler) : Scheduler :=
  let s := close_signal (wakeCh s) s in
  s <| wakeCh := next_signal s |> <| next_signal := S (next_signal s) |>.

Definition set_task (p : nat) (t : CronTask) (s : Scheduler) : Scheduler := s <| store := <[p := t]> (store s) |>.

Definition heap_push (p : nat) (s : Scheduler) : Scheduler := s <| heap := heap_Push (Less s) (heap s) p |>.

Definition heap_pop (s : Scheduler) : Scheduler :=
  match heap_Pop (Less s) (heap s) with Some (_, rest) => s <| heap := rest |> | None => s end.

(** ** Adding *)

Definition new_task (id : string) (cronExpr : CronExpression) (nextRun : Z) (loc : Location) (created : Z) : CronTask :=
  {| ID := id; CronExpr := cronExpr; Status := StatusPending; NextRun := nextRun; TaskLocation := loc;
     CreatedAt := created; LastRun := None; RunCount := 0 |}.

(** The second hold of the mutex. *)
Definition insert_task (task : CronTask) (s : Scheduler) : result Error Scheduler :=
  if negb (running s) then Err ErrSchedulerStopped
  else match tasks s !! ID task with
       | Some _ => Err ErrTaskAlreadyExists
       | None =>
           let p := next_ptr s in
           let s := set_task p task s <| next_ptr := S p |> in
           let s := s <| tasks := <[ID task := p]> (tasks s) |> in
           Ok (wake (heap_push p s))
       end.

(** All of it, when nothing happens between the two holds. *)
Definition AddWithIDAndLocation (now created : Z) (id expr : string) (loc : option Location) (s : Scheduler) :
    result Error Scheduler :=
  match loc with
  | None => Err ErrInvalidTimezone
  | Some l =>
      let? cronExpr := ParseWithLocation expr loc in
      if negb (running s) then Err ErrSchedulerStopped
      else
        let? nextRun := NextTime (Some cronExpr) now in
        insert_task (new_task id cronExpr nextRun l created) s
  end.

Definition AddWithID (now created : Z) (id expr : string) (s : Scheduler) : result Error Scheduler :=
  AddWithIDAndLocation now created id expr (Some UTC) s.

(** The counter of the identifiers advances even when the task is refused. *)
Definition AddWithLocation (now0 now created : Z) (expr : string) (loc : option Location) (s : Scheduler) :
    result Error string * Scheduler :=
  let '(id, s) := generateID now0 s in
  match AddWithIDAndLocation now created id expr loc s with
  | Ok s => (Ok id, s)
  | Err e => (Err e, s)
  end.

Definition Add (now0 now created : Z) (expr : string) (s : Scheduler) : result Error string * Scheduler :=
  AddWithLocation now0 now created expr (Some UTC) s.

(** ** Cancelling and queries *)

Definition Cancel (id : string) (s : Scheduler) : option Error * Scheduler :=
  match tasks s !! id with
  | None => (Some ErrTaskNotFound, s)
  | Some p =>
      match store s !! p with
      | None => (None, s)
      | Some task =>
          match Status task with
          | StatusPending =>
              let s := match list_find (fun q => q = p) (heap s) with
                       | Some (idx, _) =>
                           match heap_Remove (Less s) (heap s) idx with
                           | Some (_, rest) => s <| heap := rest |>
                           | None => s
                           end
                       | None => s
                       end in
              (None, wake (s <| tasks := delete id (tasks s) |>))
          | StatusRunning => (Some ErrTaskRunning, set_task p (task <| Status := StatusCancelled |>) s)
          | StatusCancelled => (None, s)
          | StatusDone => (None, s)
          end
      end
  end.

Definition GetTask (id : string) (s : Scheduler) : result Error CronTask :=
  match tasks s !! id with
  | Some p => match store s !! p with Some t => Ok t | None => Err ErrTaskNotFound end
  | None => Err ErrTaskNotFound
  end.

Definition active (s : Scheduler) (p : nat) : bool :=
  match store s !! p with
  | Some t => bool_decide (Status t = StatusPending) || bool_decide (Status t = StatusRunning)
  | None => false
  end.

Definition TaskCount (s : Scheduler) : Z := Z.of_nat (length (List.filter (active s) (map_to_list (tasks s)).*2)).

(** ** Starting and stopping *)

(** [Start]: whether a loop is started. *)
Definition Start (s : Scheduler) : Scheduler * bool :=
  if running s then (s, false)
  else
    let n := next_signal s in
    (s <| running := true |> <| ctx := n |> <| stopCh := S n |> <| wakeCh := S (S n) |> <| next_signal := S (S (S n)) |>,
     true).

(** [Stop], up to its wait for the goroutines. *)
Definition Stop (s : Scheduler) : Scheduler :=
  if negb (running s) then s
  else
    let s := s <| running := false |> in
    wake (close_signal (stopCh s) (close_signal (ctx s) s)).

(** ** The loop *)

Definition finished_status (s : Scheduler) (p : nat) : bool :=
  match store s !! p with
  | Some t => bool_decide (Status t = StatusCancelled) || bool_decide (Status t = StatusDone)
  | None => false
  end.

(** Every round pops one task, so the length of the heap bounds them. *)
Fixpoint prune (fuel : nat) (s : Scheduler) : Scheduler :=
  match fuel with
  | O => s
  | S fuel =>
      match heap s with
      | [] => s
      | p :: _ => if finished_status s p then prune fuel (heap_pop s) else s
      end
  end.

(** [t.Sub(u)], which saturates. *)
Definition Sub (t u : Z) : Z := Z.max (- 2 ^ 63) (Z.min (2 ^ 63 - 1) (t - u)).

Inductive outcome :=
| LoopExit
| LoopIdle (wakeCh : nat)
| LoopRun (p : nat)
| LoopTimer (wakeCh : nat) (deadline : Z).

(** The body of the loop up to its select, or to the start of a run. *)
Definition loop_section (now : Z) (s : Scheduler) : Scheduler * outcome :=
  if negb (running s) then (s, LoopExit)
  else
    let s := prune (length (heap s)) s in
    match heap s with
    | [] => (s, LoopIdle (wakeCh s))
    | p :: _ =>
        let waitTime := Sub (next_run s p) now in
        if waitTime <=? 0 then
          let s := heap_pop s in
          let s := match store s !! p with Some t => set_task p (t <| Status := StatusRunning |>) s | None => s end in
          (s, LoopRun p)
        else (s, LoopTimer (wakeCh s) (now + waitTime))
    end.

(** ** The end of a run *)

(** [executeTask] after [task.Func] returned. *)
Definition finish_task (p : nat) (now now' : Z) (s : Scheduler) : Scheduler :=
  match store s !! p with
  | None => s
  | Some task =>
      let task := task <| LastRun := Some now |> <| RunCount := uint64 (RunCount task + 1) |> in
      let s := set_task p task s in
      if decide (Status task = StatusCancelled) then s <| tasks := delete (ID task) (tasks s) |>
      else match tasks s !! ID task with
           | None => s
           | Some _ =>
               match NextTime (Some (CronExpr task)) now' with
               | Err _ => set_task p (task <| Status := StatusDone |>) (s <| tasks := delete (ID task) (tasks s) |>)
               | Ok nextRun =>
                   let s := set_task p (task <| NextRun := nextRun |> <| Status := StatusPending |>) s in
                   wake (heap_push p s)
               end
           end
  end.

(** * The system *)

(** A goroutine of [runLoop]: about to take the mutex; past it, with the wake
    channel and the deadline of its select; in the select, with the stop
    channel it read; or returned. *)
Inductive loop :=
| AtTop
| Selecting (wakeCh : nat) (deadline : option Z)
| Waiting (wakeCh stopCh : nat) (deadline : option Z)
| Exited.

(** [execs] are the goroutines of [executeTask]: the task, and the context once
    it was read. *)
Record System := { sched : Scheduler; loops : list loop; execs : list (nat * option nat) }.

Definition loop_next (o : outcome) : loop :=
  match o with
  | LoopExit => Exited
  | LoopIdle w => Selecting w None
  | LoopRun _ => AtTop
  | LoopTimer w dl => Selecting w (Some dl)
  end.

Definition spawned (o : outcome) : list (nat * option nat) := match o with LoopRun p => [(p, None)] | _ => [] end.

Inductive sys_step : System -> System -> Prop :=
| StepInsert expr loc now created ce next id s' sys :
    ParseWithLocation expr (Some loc) = Ok ce -> NextTime (Some ce) now = Ok next ->
    insert_task (new_task id ce next loc created) (sched sys) = Ok s' ->
    sys_step sys {| sched := s'; loops := loops sys; execs := execs sys |}
| StepGenerateID now sys :
    sys_step sys {| sched := (generateID now (sched sys)).2; loops := loops sys; execs := execs sys |}
| StepCancel id sys :
    sys_step sys {| sched := (Cancel id (sched sys)).2; loops := loops sys; execs := execs sys |}
| StepStart s' started sys :
    Start (sched sys) = (s', started) ->
    sys_step sys {| sched := s'; loops := loops sys ++ (if started then [AtTop] else []); execs := execs sys |}
| StepStop sys :
    sys_step sys {| sched := Stop (sched sys); loops := loops sys; execs := execs sys |}
| StepLoop i now s' o sys :
    loops sys !! i = Some AtTop -> loop_section now (sched sys) = (s', o) ->
    sys_step sys {| sched := s'; loops := <[i := loop_next o]> (loops sys); execs := execs sys ++ spawned o |}
| StepSelect i w dl sys :
    loops sys !! i = Some (Selecting w dl) ->
    sys_step sys {| sched := sched sys; loops := <[i := Waiting w (stopCh (sched sys)) dl]> (loops sys); execs := execs sys |}
| StepWoken i w st dl sys :
    loops sys !! i = Some (Waiting w st dl) -> w ∈ closed (sched sys) ->
    sys_step sys {| sched := sched sys; loops := <[i := AtTop]> (loops sys); execs := execs sys |}
| StepTimer i w st deadline now sys :
    loops sys !! i = Some (Waiting w st (Some deadline)) -> deadline <= now ->
    sys_step sys {| sched := sched sys; loops := <[i := AtTop]> (loops sys); execs := execs sys |}
| StepStopped i w st dl sys :
    loops sys !! i = Some (Waiting w st dl) -> st ∈ closed (sched sys) ->
    sys_step sys {| sched := sched sys; loops := <[i := Exited]> (loops sys); execs := execs sys |}
| StepBegin i p sys :
    execs sys !! i = Some (p, None) ->
    sys_step sys {| sched := sched sys; loops := loops sys; execs := <[i := (p, Some (ctx (sched sys)))]> (execs sys) |}
| StepFinish i p c now now' sys :
    execs sys !! i = Some (p, Some c) ->
    sys_step sys {| sched := finish_task p now now' (sched sys); loops := loops sys; execs := delete i (execs sys) |}.

Definition init_system (cfg : option SchedulerConfig) : System :=
  {| sched := NewSchedulerWithConfig cfg; loops := []; execs := [] |}.

Definition reachable (cfg : option SchedulerConfig) (sys : System) : Prop := rtc sys_step (init_system cfg) sys.
