(* ===== verification/CronSchedProofs.v ===== *)
(** The scheduler: a task runs at most once at a time, the loop never sleeps
    past a task that is due, a cancelled task does not run again. *)

From stdpp Require Import base tactics option list gmap sets strings.
From Stdlib Require Import ZArith Lia.
From S2P Require Import Prelude GoStrings GoTime GoHeap Cron CronNext CronSched CronProofs CronNextProofs.

(** * The invariant *)

Definition in_run (t : CronTask) : Prop := Status t = StatusRunning \/ Status t = StatusCancelled.

(** [ex] are the tasks that are running. *)
Record tasks_inv (s : Scheduler) (ex : list nat) : Prop := {
  inv_heap : is_heap (Less s) (heap s);
  inv_heap_nodup : NoDup (heap s);
  inv_ex_nodup : NoDup ex;
  inv_fresh p t : store s !! p = Some t -> (p < next_ptr s)%nat;
  inv_pending p : p ∈ heap s -> exists t, store s !! p = Some t /\ tasks s !! ID t = Some p /\ Status t = StatusPending;
  inv_running p : p ∈ ex -> exists t, store s !! p = Some t /\ tasks s !! ID t = Some p /\ in_run t;
  inv_tasks id p : tasks s !! id = Some p ->
    exists t, store s !! p = Some t /\ ID t = id /\ (Status t = StatusPending /\ p ∈ heap s \/ in_run t /\ p ∈ ex);
}.

Definition covers (s : Scheduler) (deadline : option Z) : Prop :=
  match deadline with
  | None => heap s = []
  | Some dl => forall p, p ∈ heap s -> dl <= next_run s p
  end.

(** A loop that waits will be woken, or need not be. *)
Definition loop_ok (s : Scheduler) (l : loop) : Prop :=
  match l with
  | Selecting w dl | Waiting w _ dl => w ∈ closed s \/ (w = wakeCh s /\ running s = true /\ covers s dl)
  | AtTop | Exited => True
  end.

Record signals_inv (s : Scheduler) : Prop := {
  inv_closed c : c ∈ closed s -> (c < next_signal s)%nat;
  inv_signals : (wakeCh s < next_signal s /\ stopCh s < next_signal s /\ ctx s < next_signal s)%nat;
  inv_distinct : wakeCh s <> stopCh s /\ wakeCh s <> ctx s;
  inv_wake_open : wakeCh s ∉ closed s;
  inv_stop_open : running s = true -> stopCh s ∉ closed s;
}.

Record sys_inv (sys : System) : Prop := {
  inv_sched : tasks_inv (sched sys) (execs sys).*1;
  inv_sig : signals_inv (sched sys);
  inv_loops : Forall (loop_ok (sched sys)) (loops sys);
  inv_ctx : running (sched sys) = true \/ ctx (sched sys) ∈ closed (sched sys) \/ (loops sys = [] /\ execs sys = []);
  inv_execs p c : (p, Some c) ∈ execs sys ->
    c ∈ closed (sched sys) \/ (c = ctx (sched sys) /\ running (sched sys) = true);
}.

(** * The parts of the state an operation changes *)

Definition same_tasks (s s' : Scheduler) : Prop :=
  store s' = store s /\ heap s' = heap s /\ tasks s' = tasks s /\ next_ptr s' = next_ptr s.

Lemma tasks_inv_same s s' ex : same_tasks s s' -> tasks_inv s ex -> tasks_inv s' ex.
Proof.
  intros (Hs & Hh & Ht & Hp) [H1 H2 H3 H4 H5 H6 H7].
  split; rewrite ?Hs, ?Hh, ?Ht, ?Hp; try done. eapply is_heap_ext; [|exact H1].
  intros x y _ _. unfold Less, next_run. by rewrite Hs.
Qed.

Lemma next_run_same s s' p : store s' !! p = store s !! p -> next_run s' p = next_run s p.
Proof. unfold next_run. by intros ->. Qed.

Lemma less_heap s s' l : (forall p, p ∈ l -> next_run s' p = next_run s p) -> is_heap (Less s) l -> is_heap (Less s') l.
Proof. intros H. apply is_heap_ext. intros x y Hx Hy. unfold Less. by rewrite !H. Qed.

Lemma wake_same s : same_tasks s (wake s).
Proof. done. Qed.

Lemma wake_signals s : signals_inv s -> signals_inv (wake s).
Proof.
  intros [H1 H2 H3 H4 H5]. unfold wake, close_signal. split; simpl.
  - intros c. rewrite elem_of_union, elem_of_singleton. intros [->|Hc%H1]; lia.
  - lia.
  - lia.
  - rewrite elem_of_union, elem_of_singleton. intros [?|Hc%H1]; lia.
  - intros Hr. rewrite elem_of_union, elem_of_singleton. intros [?|?]; [lia|]. by apply H5.
Qed.

(** Whatever happened before, a wake-up is enough for the loops. *)
Lemma wake_loops s s' ls :
  wakeCh s' = wakeCh s -> closed s ⊆ closed s' -> Forall (loop_ok s) ls -> Forall (loop_ok (wake s')) ls.
Proof.
  intros Hw Hc Hl. eapply Forall_impl; [exact Hl|]. intros [|w dl|w st dl|]; simpl; try done; rewrite Hw; set_solver.
Qed.

(** Without one, the heap may only lose tasks. *)
Lemma shrink_loops s s' ls :
  wakeCh s' = wakeCh s -> closed s' = closed s -> running s' = running s ->
  (forall p, p ∈ heap s' -> p ∈ heap s /\ next_run s' p = next_run s p) ->
  Forall (loop_ok s) ls -> Forall (loop_ok s') ls.
Proof.
  intros Hw Hc Hr Hh Hl. eapply Forall_impl; [exact Hl|].
  assert (forall dl, covers s dl -> covers s' dl) as Hcov.
  { intros [dl|]; simpl; [intros H p Hp; destruct (Hh p Hp) as [? ->]; auto|].
    intros H0. destruct (heap s') as [|p l]; [done|]. destruct (Hh p) as [Hp _]; [left|]. rewrite H0 in Hp. set_solver. }
  intros [|w dl|w st dl|]; simpl; try done; rewrite Hw, Hc, Hr; naive_solver.
Qed.

(** * Updates of the tasks *)

Section updates.
Context (s : Scheduler) (ex : list nat).
Hypothesis HI : tasks_inv s ex.

Lemma heap_not_running p : p ∈ heap s -> p ∉ ex.
Proof.
  intros Hp Hx. destruct (inv_pending _ _ HI p Hp) as (t & Ht & _ & Hs). destruct (inv_running _ _ HI p Hx) as (t' & Ht' & _ & Hr).
  rewrite Ht in Ht'. simplify_eq. destruct Hr; congruence.
Qed.

(** The store changes at [p] only. *)
Lemma next_run_set s' p t q : store s' = <[p := t]> (store s) -> q <> p -> next_run s' q = next_run s q.
Proof. intros Hs Hq. apply next_run_same. rewrite Hs. by rewrite lookup_insert_ne. Qed.

Lemma heap_pop_spec p l : heap s = p :: l ->
  heap s ≡ₚ p :: heap (heap_pop s) /\ is_heap (Less s) (heap (heap_pop s)) /\
  (forall q, q ∈ heap s -> next_run s p <= next_run s q) /\
  store (heap_pop s) = store s /\ tasks (heap_pop s) = tasks s /\ next_ptr (heap_pop s) = next_ptr s /\
  closed (heap_pop s) = closed s /\ next_signal (heap_pop s) = next_signal s /\ wakeCh (heap_pop s) = wakeCh s /\
  stopCh (heap_pop s) = stopCh s /\ ctx (heap_pop s) = ctx s /\ running (heap_pop s) = running s.
Proof.
  intros Hh. destruct (heap_Pop_spec (Less s) (heap s) p (inv_heap _ _ HI)) as (rest & He & Hp & Hr & Hm); [by rewrite Hh|].
  unfold heap_pop. rewrite He. simpl. split_and!; try done. intros q Hq. specialize (Hm q Hq). unfold le, Less in Hm. bools. lia.
Qed.

(** The task at the top starts to run. *)
Lemma run_task p l t : heap s = p :: l -> store s !! p = Some t ->
  tasks_inv (set_task p (t <| Status := StatusRunning |>) (heap_pop s)) (ex ++ [p]).
Proof.
  intros Hh Ht. destruct (heap_pop_spec p l Hh) as (Hp & Hr & _ & Es & Et & En & _).
  set (h := heap (heap_pop s)) in *. pose proof (inv_heap_nodup _ _ HI) as Hn. rewrite Hp in Hn. apply NoDup_cons in Hn as [Hnp Hn].
  destruct (inv_pending _ _ HI p) as (t' & Ht' & Hid & _); [rewrite Hh; left|]. rewrite Ht in Ht'. simplify_eq.
  assert (p ∉ ex) as Hpx by (apply heap_not_running; rewrite Hh; left).
  split; simpl; rewrite ?Es, ?Et, ?En; fold h.
  - eapply less_heap; [|exact Hr]. intros q Hq. eapply next_run_set; [simpl; by rewrite Es|congruence].
  - done.
  - apply NoDup_app. split_and!; [apply (inv_ex_nodup _ _ HI)| |apply NoDup_singleton]. intros q Hq ->%list_elem_of_singleton. done.
  - intros q t0 [[-> _]|[_ Hq]]%lookup_insert_Some; eapply (inv_fresh _ _ HI); eauto.
  - intros q Hq. assert (q <> p) by congruence. rewrite lookup_insert_ne by done. apply (inv_pending _ _ HI). rewrite Hp. by right.
  - intros q [Hq| ->%list_elem_of_singleton]%elem_of_app.
    + rewrite lookup_insert_ne by congruence. by apply (inv_running _ _ HI).
    + rewrite lookup_insert_eq. eexists. split; [done|]. simpl. split; [done|]. by left.
  - intros id q Hq. destruct (inv_tasks _ _ HI id q Hq) as (t1 & Ht1 & Hid1 & Hst). destruct (decide (q = p)) as [->|Hne].
    + rewrite lookup_insert_eq. eexists. split; [done|]. simpl. simplify_eq. split; [done|]. right. split; [by left|set_solver].
    + rewrite lookup_insert_ne by done. exists t1. split_and!; [done..|]. rewrite Hp in Hst. set_solver.
Qed.
End updates.

Lemma tasks_inv_perm s ex ex' : ex ≡ₚ ex' -> tasks_inv s ex -> tasks_inv s ex'.
Proof.
  intros He [H1 H2 H3 H4 H5 H6 H7]. split; try done.
  - by rewrite <- He.
  - intros p. rewrite <- He. apply H6.
  - intros id p Hp. setoid_rewrite <- He. by apply H7.
Qed.

Lemma heap_push_spec p s : is_heap (Less s) (heap s) ->
  is_heap (Less s) (heap (heap_push p s)) /\ heap (heap_push p s) ≡ₚ p :: heap s.
Proof. intros Hh. by apply (heap_Push_spec (Less s)). Qed.

(** A pending task [t] at [p], new or back from a run, joins the heap. *)
Lemma push_task s ex p t tks np :
  is_heap (Less s) (heap s) -> NoDup (heap s) -> NoDup ex -> p ∉ heap s -> p ∉ ex -> Status t = StatusPending ->
  (forall q t', q <> p -> store s !! q = Some t' -> (q < np)%nat) -> (p < np)%nat -> tks !! ID t = Some p ->
  (forall q, q ∈ heap s -> exists t', store s !! q = Some t' /\ tks !! ID t' = Some q /\ Status t' = StatusPending) ->
  (forall q, q ∈ ex -> exists t', store s !! q = Some t' /\ tks !! ID t' = Some q /\ in_run t') ->
  (forall id q, tks !! id = Some q -> q = p /\ id = ID t \/ q <> p /\ exists t', store s !! q = Some t' /\ ID t' = id /\
     (Status t' = StatusPending /\ q ∈ heap s \/ in_run t' /\ q ∈ ex)) ->
  tasks_inv (heap_push p (set_task p t s <| next_ptr := np |> <| tasks := tks |>)) ex.
Proof.
  intros Hh Hn Hx Hp Hpx Hst Hf Hpf Hid H5 H6 H7. set (s1 := set_task p t s <| next_ptr := np |> <| tasks := tks |>).
  assert (is_heap (Less s1) (heap s)) as Hh1.
  { eapply less_heap; [|exact Hh]. intros q Hq. eapply next_run_set; [done|congruence]. }
  destruct (heap_push_spec p s1 Hh1) as [Hh2 Hperm]. set (h := heap (heap_push p s1)) in *.
  change (heap s1) with (heap s) in Hperm.
  split; fold h; simpl.
  - eapply less_heap; [|exact Hh2]. done.
  - rewrite Hperm. by apply NoDup_cons.
  - done.
  - intros q t' [[<- _]|[Hne Hq]]%lookup_insert_Some; [done|]. by eapply Hf.
  - intros q. rewrite Hperm, elem_of_cons. intros [->|Hq]; [rewrite lookup_insert_eq; by exists t|].
    rewrite lookup_insert_ne by congruence. by apply H5.
  - intros q Hq. rewrite lookup_insert_ne by congruence. by apply H6.
  - intros id q Hq. destruct (H7 id q Hq) as [[-> ->]|[Hne (t' & ? & ? & Ho)]].
    + rewrite lookup_insert_eq. exists t. split_and!; [done..|]. left. split; [done|]. rewrite Hperm. by left.
    + rewrite lookup_insert_ne by done. exists t'. split_and!; [done..|]. destruct Ho as [[? Ho]|?]; [left|by right].
      split; [done|]. rewrite Hperm. by right.
Qed.

Lemma insert_task_inv t s s' ex : tasks_inv s ex -> Status t = StatusPending -> insert_task t s = Ok s' -> tasks_inv s' ex.
Proof.
  intros HI Hst. unfold insert_task. destruct (negb (running s)); [done|]. destruct (tasks s !! ID t) eqn:Hid; [done|].
  intros [= <-]. eapply tasks_inv_same; [apply wake_same|].
  assert (store s !! next_ptr s = None) as Hnew.
  { destruct (store s !! next_ptr s) as [t'|] eqn:E; [|done]. pose proof (inv_fresh _ _ HI _ _ E). lia. }
  assert (forall q t', store s !! q = Some t' -> q <> next_ptr s /\ (q < S (next_ptr s))%nat) as Hold.
  { intros q t' Hq. pose proof (inv_fresh _ _ HI _ _ Hq). lia. }
  apply (push_task s ex (next_ptr s) t (<[ID t := next_ptr s]> (tasks s)) (S (next_ptr s))); try apply HI; try done.
  - intros (t' & Ht' & _)%(inv_pending _ _ HI). congruence.
  - intros (t' & Ht' & _)%(inv_running _ _ HI). congruence.
  - intros q t' _ Hq. apply (Hold q t' Hq).
  - lia.
  - apply lookup_insert_eq.
  - intros q (t' & Ht' & Hq & ?)%(inv_pending _ _ HI). exists t'. split_and!; [done| |done].
    rewrite lookup_insert_ne; [done|]. congruence.
  - intros q (t' & Ht' & Hq & ?)%(inv_running _ _ HI). exists t'. split_and!; [done| |done].
    rewrite lookup_insert_ne; [done|]. congruence.
  - intros id q [[<- <-]|[Hne Hq]]%lookup_insert_Some; [by left|right].
    destruct (inv_tasks _ _ HI id q Hq) as (t' & Ht' & ? & ?). split; [by eapply Hold|eauto].
Qed.

(** A task leaves the map, when it was cancelled or will not run again. *)
Lemma drop_task s ex p t t' :
  tasks_inv s (p :: ex) -> store s !! p = Some t -> ID t' = ID t ->
  tasks_inv (set_task p t' s <| tasks := delete (ID t) (tasks s) |>) ex.
Proof.
  intros HI Ht Hid. destruct (inv_running _ _ HI p) as (t0 & Ht0 & Hp & _); [left|]. rewrite Ht in Ht0. simplify_eq.
  pose proof (inv_ex_nodup _ _ HI) as [Hpx Hx]%NoDup_cons.
  assert (p ∉ heap s) as Hph by (intros H; apply (heap_not_running _ _ HI) in H; set_solver).
  split; simpl; try apply HI; try done.
  - eapply less_heap; [|apply HI]. intros q Hq. eapply next_run_set; [done|congruence].
  - intros q t1 [[<- _]|[_ Hq]]%lookup_insert_Some; by eapply (inv_fresh _ _ HI).
  - intros q Hq. assert (q <> p) by congruence. rewrite lookup_insert_ne by done.
    destruct (inv_pending _ _ HI q Hq) as (t1 & ? & Hq1 & ?). exists t1. split_and!; [done| |done].
    rewrite lookup_delete_ne by congruence. done.
  - intros q Hq. assert (q <> p) by congruence. rewrite lookup_insert_ne by done.
    destruct (inv_running _ _ HI q) as (t1 & ? & Hq1 & ?); [by right|]. exists t1. split_and!; [done| |done].
    rewrite lookup_delete_ne by congruence. done.
  - intros id q [Hne Hq]%lookup_delete_Some. destruct (inv_tasks _ _ HI id q Hq) as (t1 & Ht1 & Hid1 & Ho).
    assert (q <> p) as Hqp by congruence. rewrite lookup_insert_ne by done. exists t1. split_and!; [done..|]. set_solver.
Qed.

Lemma finish_task_inv p now now' s ex : tasks_inv s (p :: ex) -> tasks_inv (finish_task p now now' s) ex.
Proof.
  intros HI. destruct (inv_running _ _ HI p) as (t & Ht & Hp & Hr); [left|].
  pose proof (inv_ex_nodup _ _ HI) as [Hpx Hx]%NoDup_cons.
  assert (p ∉ heap s) as Hph by (intros H; apply (heap_not_running _ _ HI) in H; set_solver).
  unfold finish_task. rewrite Ht. cbv zeta. destruct (decide _) as [Hc|Hc].
  { by apply (drop_task s ex p t). }
  change (tasks (set_task _ _ s)) with (tasks s). change (ID (t <| LastRun := _ |> <| RunCount := _ |>)) with (ID t).
  rewrite Hp. destruct (NextTime _ _) as [nextRun|e].
  - eapply tasks_inv_same; [apply wake_same|].
    set (t' := _ <| Status := StatusPending |>).
    eapply tasks_inv_same; [|apply (push_task s ex p t' (tasks s) (next_ptr s))]; try apply HI; try done.
    + unfold same_tasks, set_task, heap_push. simpl. rewrite insert_insert_eq. split_and!; try done.
    + intros q t1 _ Hq. by eapply (inv_fresh _ _ HI).
    + by eapply (inv_fresh _ _ HI).
    + intros q Hq. apply (inv_running _ _ HI). by right.
    + intros id q Hq. destruct (inv_tasks _ _ HI id q Hq) as (t1 & Ht1 & Hid1 & Ho).
      destruct (decide (q = p)) as [->|Hne]; [left; split; [done|]; rewrite Ht in Ht1; by simplify_eq|right].
      split; [done|]. exists t1. split_and!; [done..|]. set_solver.
  - eapply tasks_inv_same; [|apply (drop_task s ex p t (t <| LastRun := Some now |> <| RunCount := uint64 (RunCount t + 1) |> <| Status := StatusDone |>))]; try done.
    unfold same_tasks, set_task. simpl. by rewrite insert_insert_eq.
Qed.

(** A pending task is taken out. *)
Lemma remove_task s ex p t rest :
  tasks_inv s ex -> store s !! p = Some t -> heap s ≡ₚ p :: rest -> is_heap (Less s) rest ->
  tasks_inv (s <| heap := rest |> <| tasks := delete (ID t) (tasks s) |>) ex.
Proof.
  intros HI Ht Hp Hh. pose proof (inv_heap_nodup _ _ HI) as Hn. rewrite Hp in Hn. apply NoDup_cons in Hn as [Hnp Hn].
  assert (p ∈ heap s) as Hin by (rewrite Hp; left). pose proof (heap_not_running _ _ HI p Hin) as Hpx.
  destruct (inv_pending _ _ HI p Hin) as (t0 & Ht0 & Hid & _). rewrite Ht in Ht0. simplify_eq.
  split; simpl; try apply HI; try done.
  - intros q Hq. assert (q <> p) by congruence. destruct (inv_pending _ _ HI q) as (t1 & ? & Hq1 & ?); [rewrite Hp; by right|].
    exists t1. split_and!; [done| |done]. rewrite lookup_delete_ne by congruence. done.
  - intros q Hq. assert (q <> p) by congruence. destruct (inv_running _ _ HI q Hq) as (t1 & ? & Hq1 & ?).
    exists t1. split_and!; [done| |done]. rewrite lookup_delete_ne by congruence. done.
  - intros id q [Hne Hq]%lookup_delete_Some. destruct (inv_tasks _ _ HI id q Hq) as (t1 & Ht1 & Hid1 & Ho).
    assert (q <> p) as Hqp by congruence. exists t1. split_and!; [done..|]. rewrite Hp in Ho. set_solver.
Qed.

Lemma find_pointer (p : nat) l : p ∈ l -> exists i, list_find (fun q => q = p) l = Some (i, p) /\ l !! i = Some p.
Proof.
  intros Hp. destruct (list_find_elem_of (fun q => q = p) l p Hp eq_refl) as [[i q] Hf].
  pose proof Hf as (Hi & -> & _)%list_find_Some. by exists i.
Qed.

(** What [Cancel] does to the task under the name. *)
Lemma Cancel_cases id s ex : tasks_inv s ex ->
  match tasks s !! id with
  | None => Cancel id s = (Some ErrTaskNotFound, s)
  | Some p =>
      exists t, store s !! p = Some t /\ ID t = id /\
      (Status t = StatusPending /\ p ∈ heap s /\
         (exists rest, heap s ≡ₚ p :: rest /\ is_heap (Less s) rest /\
            Cancel id s = (None, wake (s <| heap := rest |> <| tasks := delete id (tasks s) |>))) \/
       Status t = StatusRunning /\ Cancel id s = (Some ErrTaskRunning, set_task p (t <| Status := StatusCancelled |>) s) \/
       Status t = StatusCancelled /\ Cancel id s = (None, s))
  end.
Proof.
  intros HI. unfold Cancel. destruct (tasks s !! id) as [p|] eqn:Hp; [|done].
  destruct (inv_tasks _ _ HI id p Hp) as (t & Ht & Hid & Ho). exists t. rewrite Ht. split_and!; [done..|].
  destruct Ho as [[Hst Hh]|[[Hst|Hst] Hx]]; rewrite Hst; [left|right; by left|right; by right].
  split_and!; [done..|]. destruct (find_pointer p (heap s) Hh) as (i & -> & Hi).
  destruct (heap_Remove_spec (Less s) (heap s) i p (inv_heap _ _ HI) Hi) as (rest & -> & ? & ?). by exists rest.
Qed.

Lemma Cancel_inv id s ex : tasks_inv s ex -> tasks_inv (Cancel id s).2 ex.
Proof.
  intros HI. pose proof (Cancel_cases id s ex HI) as Hc. destruct (tasks s !! id) as [p|] eqn:Hp; [|by rewrite Hc].
  destruct Hc as (t & Ht & <- & [(Hst & Hh & rest & Hr & Hrh & ->)|[[Hst ->]|[Hst ->]]]); [..|done]; simpl.
  - eapply tasks_inv_same; [apply wake_same|]. by eapply remove_task.
  - assert (p ∉ heap s) as Hnh.
    { intros (t1 & Ht1 & _ & Hs1)%(inv_pending _ _ HI). congruence. }
    split; simpl; try apply HI.
    + eapply less_heap; [|apply HI]. intros q Hq. eapply next_run_set; [done|congruence].
    + intros q t1 [[<- _]|[_ Hq]]%lookup_insert_Some; by eapply (inv_fresh _ _ HI).
    + intros q Hq. rewrite lookup_insert_ne by congruence. by apply (inv_pending _ _ HI).
    + intros q Hq. destruct (inv_running _ _ HI q Hq) as (t1 & Ht1 & ? & ?). destruct (decide (q = p)) as [->|].
      * rewrite lookup_insert_eq. eexists. split; [done|]. simpl. simplify_eq. split; [done|by right].
      * rewrite lookup_insert_ne by done. by exists t1.
    + intros id q Hq. destruct (inv_tasks _ _ HI id q Hq) as (t1 & Ht1 & ? & Ho). destruct (decide (q = p)) as [->|].
      * rewrite lookup_insert_eq. eexists. split; [done|]. simpl. simplify_eq. split; [done|]. right.
        split; [by right|]. destruct Ho as [[_ ?]|[_ ?]]; done.
      * rewrite lookup_insert_ne by done. by exists t1.
Qed.

(** Tasks in the heap are pending, so there is nothing to prune. *)
Lemma prune_nothing n s ex : tasks_inv s ex -> prune n s = s.
Proof.
  intros HI. destruct n; [done|]. cbn [prune]. destruct (heap s) as [|p l] eqn:Hh; [done|].
  destruct (inv_pending _ _ HI p) as (t & Ht & _ & Hst); [rewrite Hh; left|].
  unfold finished_status. by rewrite Ht, Hst.
Qed.

(** The four ways through the loop. *)
Lemma loop_section_cases now s ex : tasks_inv s ex ->
  (running s = false /\ loop_section now s = (s, LoopExit)) \/
  (running s = true /\ heap s = [] /\ loop_section now s = (s, LoopIdle (wakeCh s))) \/
  (running s = true /\ exists p l t, heap s = p :: l /\ store s !! p = Some t /\ next_run s p <= now /\
     loop_section now s = (set_task p (t <| Status := StatusRunning |>) (heap_pop s), LoopRun p)) \/
  (running s = true /\ exists p l dl, heap s = p :: l /\ now < dl <= next_run s p /\
     loop_section now s = (s, LoopTimer (wakeCh s) dl)).
Proof.
  intros HI. unfold loop_section. destruct (running s) eqn:Hr; [|by left]. right. simpl.
  rewrite (prune_nothing _ s ex HI). destruct (heap s) as [|p l] eqn:Hh; [by left|right].
  destruct (inv_pending _ _ HI p) as (t & Ht & _); [rewrite Hh; left|].
  destruct (heap_pop_spec s ex HI p l Hh) as (_ & _ & _ & Es & _). unfold Sub.
  destruct (Z.leb_spec (Z.max (- 2 ^ 63) (Z.min (2 ^ 63 - 1) (next_run s p - now))) 0); [left|right]; (split; [done|]).
  - exists p, l, t. rewrite Es, Ht. split_and!; [done..|lia|done].
  - exists p, l, (now + Z.max (- 2 ^ 63) (Z.min (2 ^ 63 - 1) (next_run s p - now))). split_and!; [done|lia|lia|done].
Qed.

(** * Steps of the system *)

Definition same_signals (s s' : Scheduler) : Prop :=
  closed s' = closed s /\ next_signal s' = next_signal s /\ running s' = running s /\ stopCh s' = stopCh s /\
  wakeCh s' = wakeCh s /\ ctx s' = ctx s.

(** An operation that leaves the signals alone wakes the loops when it adds to
    the heap. *)
Definition modest (s s' : Scheduler) : Prop :=
  (exists s1, same_signals s s1 /\ s' = wake s1) \/
  (same_signals s s' /\ forall p, p ∈ heap s' -> p ∈ heap s /\ next_run s' p = next_run s p).

Lemma signals_inv_same s s' : same_signals s s' -> signals_inv s -> signals_inv s'.
Proof. intros (H1 & H2 & H3 & H4 & H5 & H6) []. split; rewrite ?H1, ?H2, ?H3, ?H4, ?H5, ?H6; done. Qed.

Lemma modest_signals s s' : modest s s' -> signals_inv s ->
  signals_inv s' /\ running s' = running s /\ ctx s' = ctx s /\ closed s ⊆ closed s'.
Proof.
  intros [(s1 & Hs & ->)|[Hs _]] HI; (split; [|destruct Hs as (? & ? & ? & ? & ? & ?); simpl; split_and!; try done; set_solver]).
  - by eapply wake_signals, signals_inv_same.
  - by eapply signals_inv_same.
Qed.

Lemma modest_loops s s' ls : modest s s' -> Forall (loop_ok s) ls -> Forall (loop_ok s') ls.
Proof.
  intros [(s1 & (Hc & _ & _ & _ & Hw & _) & ->)|[(Hc & _ & Hr & _ & Hw & _) Hh]] Hl.
  - eapply wake_loops; [done| |done]. by rewrite Hc.
  - by eapply shrink_loops.
Qed.

(** A modest operation, with loops that still fit and fewer runs. *)
Lemma sys_modest sys s' ls ex :
  sys_inv sys -> modest (sched sys) s' -> tasks_inv s' ex.*1 -> Forall (loop_ok s') ls ->
  (loops sys = [] -> ls = []) -> (forall x, x ∈ ex -> x ∈ execs sys \/ x.2 = None /\ loops sys <> []) ->
  sys_inv {| sched := s'; loops := ls; execs := ex |}.
Proof.
  intros HI Hm Ht Hl Hls Hex. destruct (modest_signals _ _ Hm (inv_sig _ HI)) as (Hs & Hr & Hc & Hcl). split; simpl; try done.
  - rewrite Hr, Hc. destruct (inv_ctx _ HI) as [?|[?|[H1 H2]]]; [by left|right; left; set_solver|]. right. right.
    split; [by apply Hls|]. destruct ex as [|x ex]; [done|]. destruct (Hex x) as [Hx|[_ ?]]; [left| |done].
    rewrite H2 in Hx. set_solver.
  - intros p c Hx. rewrite Hr, Hc. destruct (Hex _ Hx) as [Hx'|[? _]]; [|done].
    destruct (inv_execs _ HI p c Hx') as [?|?]; [left; set_solver|by right].
Qed.

Lemma quiet_refl s : same_signals s s.
Proof. done. Qed.

Lemma Cancel_modest id s ex : tasks_inv s ex -> modest s (Cancel id s).2.
Proof.
  intros HI. pose proof (Cancel_cases id s ex HI) as Hc. destruct (tasks s !! id) as [p|]; [|rewrite Hc; right; by split].
  destruct Hc as (t & Ht & _ & [(_ & _ & rest & _ & _ & ->)|[[Hst ->]|[_ ->]]]); [left; eexists; split; [|reflexivity]; done|right..]; split; try done.
  intros q Hq. split; [done|]. eapply next_run_set; [done|]. intros ->.
  destruct (inv_pending _ _ HI p Hq) as (t1 & Ht1 & _ & Hs1). congruence.
Qed.

Lemma finish_modest p now now' s ex : tasks_inv s ex -> p ∈ ex -> modest s (finish_task p now now' s).
Proof.
  intros HI Hp. assert (p ∉ heap s) as Hh by (intros H; by apply (heap_not_running _ _ HI) in H).
  unfold finish_task. destruct (store s !! p) as [t|]; [|right; by split].
  assert (forall t' s', store s' = <[p := t']> (store s) -> forall q, q ∈ heap s -> next_run s' q = next_run s q) as Hn.
  { intros t' s' Hs q Hq. eapply next_run_set; [done|congruence]. }
  cbv zeta. destruct (decide _); [right; split; [done|]; intros q Hq; split; [done|]; by eapply Hn|].
  destruct (tasks _ !! _); [|right; split; [done|]; intros q Hq; split; [done|]; by eapply Hn].
  destruct (NextTime _ _); [left; eexists; split; [|reflexivity]; done|right]. split; [done|]. intros q Hq. split; [done|].
  eapply Hn; [|done]. simpl. by rewrite insert_insert_eq.
Qed.

Lemma run_modest s ex p l t : tasks_inv s ex -> heap s = p :: l -> store s !! p = Some t ->
  modest s (set_task p (t <| Status := StatusRunning |>) (heap_pop s)).
Proof.
  intros HI Hh Ht. destruct (heap_pop_spec s ex HI p l Hh) as (Hp & _ & _ & Es & ? & ? & ? & ? & ? & ? & ? & ?).
  right. split; [done|]. intros q Hq. simpl in Hq. split; [rewrite Hp; by right|].
  destruct (decide (q = p)) as [->|]; [|eapply next_run_set; [simpl; by rewrite Es|done]].
  unfold next_run. simpl. by rewrite lookup_insert_eq, Ht.
Qed.

Lemma Start_inv sys s' started : sys_inv sys -> Start (sched sys) = (s', started) ->
  sys_inv {| sched := s'; loops := loops sys ++ (if started then [AtTop] else []); execs := execs sys |}.
Proof.
  intros HI. unfold Start. destruct (running (sched sys)) eqn:Hr; intros [= <- <-].
  { rewrite app_nil_r. by destruct sys. }
  destruct (inv_sig _ HI) as [H1 H2 H3 H4 H5]. split; simpl.
  - eapply tasks_inv_same; [|apply HI]. done.
  - split; simpl; [intros c Hc%H1; lia|lia|lia|intros Hc%H1; lia|intros _ Hc%H1; lia].
  - apply Forall_app. split; [|by repeat constructor]. eapply Forall_impl; [apply HI|].
    intros [|w dl|w st dl|]; simpl; try done; rewrite Hr; naive_solver.
  - by left.
  - intros p c Hx. destruct (inv_execs _ HI p c Hx) as [?|[_ ?]]; [by left|congruence].
Qed.

Lemma Stop_inv sys : sys_inv sys -> sys_inv {| sched := Stop (sched sys); loops := loops sys; execs := execs sys |}.
Proof.
  intros HI. unfold Stop. destruct (running (sched sys)) eqn:Hr; [simpl|by destruct sys].
  destruct (inv_sig _ HI) as [H1 H2 H3 H4 H5]. split; simpl.
  - eapply tasks_inv_same; [|apply HI]. done.
  - apply wake_signals. split; simpl; try done.
    + intros c. rewrite !elem_of_union, !elem_of_singleton. intros [->|[->|Hc%H1]]; lia.
    + rewrite !elem_of_union, !elem_of_singleton. intros [?|[?|?]]; [lia|lia|done].
  - eapply wake_loops; [| |apply HI]; [done|]. simpl. set_solver.
  - right. left. set_solver.
  - intros p c Hx. left. destruct (inv_execs _ HI p c Hx) as [?|[-> _]]; set_solver.
Qed.

Lemma keep_modest s : modest s s.
Proof. right. by split. Qed.

Lemma loops_nonempty {A} (l : list A) i x : l !! i = Some x -> l <> [].
Proof. by intros H ->. Qed.

(** A loop moves on, and nothing else changes. *)
Lemma loop_moves sys i l0 l :
  sys_inv sys -> loops sys !! i = Some l0 -> loop_ok (sched sys) l ->
  sys_inv {| sched := sched sys; loops := <[i := l]> (loops sys); execs := execs sys |}.
Proof.
  intros HI Hi Hl. eapply sys_modest; [done|apply keep_modest|apply HI| | |by left].
  - apply Forall_insert; [apply HI|done].
  - intros H0. by rewrite H0 in Hi.
Qed.

Lemma waiting_ok sys i l : sys_inv sys -> loops sys !! i = Some l -> loop_ok (sched sys) l.
Proof. intros HI Hi. exact (Forall_lookup_1 _ _ _ _ (inv_loops _ HI) Hi). Qed.

Lemma loop_section_inv sys i now s' o :
  sys_inv sys -> loops sys !! i = Some AtTop -> loop_section now (sched sys) = (s', o) ->
  sys_inv {| sched := s'; loops := <[i := loop_next o]> (loops sys); execs := execs sys ++ spawned o |}.
Proof.
  intros HI Hi. pose proof (inv_sched _ HI) as Ht.
  destruct (loop_section_cases now (sched sys) _ Ht) as
    [[_ ->]|[(Hr & Hh & ->)|[(Hr & p & l & t & Hh & Hp & _ & ->)|(Hr & p & l & dl & Hh & Hdl & ->)]]]; intros [= <- <-]; simpl.
  - rewrite app_nil_r. by eapply loop_moves.
  - rewrite app_nil_r. eapply loop_moves; [done..|]. by right.
  - pose proof (run_modest _ _ p l t Ht Hh Hp) as Hm. eapply sys_modest; [done|done| | | |].
    + rewrite fmap_app. by eapply run_task.
    + apply Forall_insert; [|done]. eapply modest_loops; [done|apply HI].
    + intros H0. by rewrite H0 in Hi.
    + intros x [?| ->%list_elem_of_singleton]%elem_of_app; [by left|right]. split; [done|]. by eapply loops_nonempty.
  - rewrite app_nil_r. eapply loop_moves; [done..|]. right. split_and!; [done..|]. intros q Hq.
    destruct (heap_pop_spec _ _ Ht p l Hh) as (_ & _ & Hmin & _). specialize (Hmin q Hq). lia.
Qed.

Lemma cron_step_inv sys sys' : sys_step sys sys' -> sys_inv sys -> sys_inv sys'.
Proof.
  intros Hstep HI. pose proof (inv_sched _ HI) as Ht. destruct Hstep; simpl.
  - assert (tasks_inv s' (execs sys).*1) as Ht' by (exact (insert_task_inv (new_task id ce next loc created) _ _ _ Ht eq_refl H1)).
    assert (modest (sched sys) s') as Hm.
    { unfold insert_task in H1. destruct (negb _); [done|]. destruct (_ !! _); [done|]. injection H1 as <-.
      left. eexists. split; [|reflexivity]. done. }
    eapply sys_modest; [done|done|done| |done|by left]. eapply modest_loops; [done|apply HI].
  - assert (modest (sched sys) (generateID now (sched sys)).2) as Hm by (right; by split).
    eapply sys_modest; [done|done| | |done|by left]; [|eapply modest_loops; [done|apply HI]].
    eapply tasks_inv_same; [|exact Ht]. done.
  - pose proof (Cancel_modest id _ _ Ht) as Hm. eapply sys_modest; [done|done|by apply Cancel_inv| |done|by left].
    eapply modest_loops; [done|apply HI].
  - by eapply Start_inv.
  - by apply Stop_inv.
  - by eapply loop_section_inv.
  - eapply loop_moves; [done..|]. by apply (waiting_ok _ _ _ HI) in H.
  - by eapply loop_moves.
  - by eapply loop_moves.
  - by eapply loop_moves.
  - destruct HI as [H1 H2 H3 H4 H5]. split; simpl; try done.
    + rewrite list_fmap_insert, list_insert_id; [done|]. by rewrite list_lookup_fmap, H.
    + destruct H4 as [?|[?|[? H0]]]; [by left|right; by left|]. by rewrite H0 in H.
    + intros q c [j Hj]%list_elem_of_lookup_1. destruct (decide (i = j)) as [<-|Hne].
      * rewrite list_lookup_insert_eq in Hj by (by eapply lookup_lt_Some). simplify_eq.
        destruct H4 as [?|[?|[? H0]]]; [by right|by left|]. by rewrite H0 in H.
      * rewrite list_lookup_insert_ne in Hj by done. apply H5 with q. by eapply list_elem_of_lookup_2.
  - assert ((execs sys).*1 ≡ₚ p :: (delete i (execs sys)).*1) as Hp.
    { change p with ((p, Some c).1). rewrite <- fmap_cons. by rewrite <- delete_Permutation. }
    assert (modest (sched sys) (finish_task p now now' (sched sys))) as Hm.
    { eapply finish_modest; [done|]. rewrite Hp. left. }
    eapply sys_modest; [done|done| | |done|].
    + apply finish_task_inv. by eapply tasks_inv_perm.
    + eapply modest_loops; [done|apply HI].
    + intros x Hx. left. rewrite (delete_Permutation _ _ _ H). by right.
Qed.

Lemma init_inv cfg : sys_inv (init_system cfg).
Proof.
  split; simpl.
  - split; simpl; [intros k Hk; simpl in Hk; lia|constructor..|by intros p t|set_solver|set_solver|by intros id p].
  - split; simpl; [set_solver|lia|lia|set_solver|done].
  - constructor.
  - by right; right.
  - set_solver.
Qed.

Lemma steps_inv sys sys' : rtc sys_step sys sys' -> sys_inv sys -> sys_inv sys'.
Proof. induction 1 as [|x y z Hs _ IH]; [done|]. intros HI. apply IH. by eapply cron_step_inv. Qed.

Lemma reachable_inv cfg sys : reachable cfg sys -> sys_inv sys.
Proof. intros H. eapply steps_inv; [exact H|apply init_inv]. Qed.

(** * What the scheduler promises *)

(** C27: Whatever the interleaving of calls, loops and runs: no task is run by
    two goroutines at once; the heap is in order and holds every task that is
    pending in the map, and no other; a task in the map that is not pending is
    being run, and every task that is being run is in the map; no channel is
    closed twice. *)
Theorem scheduler_runs_once cfg sys :
  reachable cfg sys ->
  let s := sched sys in
  NoDup (execs sys).*1 /\ NoDup (heap s) /\ is_heap (Less s) (heap s) /\
  (forall p, p ∈ heap s <-> exists t, store s !! p = Some t /\ tasks s !! ID t = Some p /\ Status t = StatusPending) /\
  (forall p, p ∈ (execs sys).*1 <-> exists t, store s !! p = Some t /\ tasks s !! ID t = Some p /\ in_run t) /\
  wakeCh s ∉ closed s /\ (running s = true -> stopCh s ∉ closed s).
Proof.
  intros HI%reachable_inv. pose proof (inv_sched _ HI) as Ht. cbv zeta.
  split_and!; [apply Ht..| | |apply (inv_sig _ HI)|apply (inv_sig _ HI)]; intros p.
  - split; [apply Ht|]. intros (t & Hp & Hid & Hst). destruct (inv_tasks _ _ Ht _ _ Hid) as (t1 & Ht1 & _ & [[_ ?]|[Hr _]]); [done|].
    rewrite Hp in Ht1. simplify_eq. destruct Hr; congruence.
  - split; [apply Ht|]. intros (t & Hp & Hid & Hst). destruct (inv_tasks _ _ Ht _ _ Hid) as (t1 & Ht1 & _ & [[Hr _]|[_ ?]]); [|done].
    rewrite Hp in Ht1. simplify_eq. destruct Hst; congruence.
Qed.

(** C13: No wake-up is lost: a loop that stays asleep, because neither channel
    of its select is closed, belongs to a scheduler that runs, and no task is
    pending, or its timer goes off before or when the first of them is due. *)
Theorem no_lost_wakeup cfg sys i w st deadline :
  reachable cfg sys -> loops sys !! i = Some (Waiting w st deadline) -> w ∉ closed (sched sys) ->
  running (sched sys) = true /\
  forall id p t, tasks (sched sys) !! id = Some p -> store (sched sys) !! p = Some t -> Status t = StatusPending ->
    exists dl, deadline = Some dl /\ dl <= NextRun t.
Proof.
  intros HI%reachable_inv Hi Hw. destruct (waiting_ok _ _ _ HI Hi) as [?|(_ & Hr & Hc)]; [done|]. split; [done|].
  intros id p t Hid Hp Hst. destruct (inv_tasks _ _ (inv_sched _ HI) _ _ Hid) as (t1 & Ht1 & _ & Ho).
  rewrite Hp in Ht1. simplify_eq. destruct Ho as [[_ Hh]|[[?|?] _]]; [|congruence..].
  destruct deadline as [dl|]; simpl in Hc; [|rewrite Hc in Hh; set_solver].
  exists dl. split; [done|]. specialize (Hc p Hh). unfold next_run in Hc. by rewrite Hp in Hc.
Qed.

(** The loop starts a task only when it is pending and due, and then the
    one whose next run is the earliest; it leaves the heap and runs. *)
Theorem earliest_due_first cfg sys now s' p :
  reachable cfg sys -> loop_section now (sched sys) = (s', LoopRun p) ->
  exists t, store (sched sys) !! p = Some t /\ Status t = StatusPending /\ NextRun t <= now /\
    (forall q t', q ∈ heap (sched sys) -> store (sched sys) !! q = Some t' -> NextRun t <= NextRun t') /\
    store s' !! p = Some (t <| Status := StatusRunning |>) /\ heap (sched sys) ≡ₚ p :: heap s'.
Proof.
  intros HI%reachable_inv. pose proof (inv_sched _ HI) as Ht.
  destruct (loop_section_cases now (sched sys) _ Ht) as
    [[_ ->]|[(_ & _ & ->)|[(_ & q & l & t & Hh & Hp & Hd & ->)|(_ & q & l & dl & _ & _ & ->)]]]; try done.
  intros [= <- <-]. destruct (heap_pop_spec _ _ Ht q l Hh) as (Hperm & _ & Hmin & _).
  destruct (inv_pending _ _ Ht q) as (t1 & Ht1 & _ & Hst); [rewrite Hh; left|]. rewrite Hp in Ht1. simplify_eq.
  exists t1. unfold next_run in Hd, Hmin. rewrite Hp in Hd, Hmin. split_and!; try done; [|apply lookup_insert_eq].
  intros q' t' Hq' Ht'. specialize (Hmin q' Hq'). by rewrite Ht' in Hmin.
Qed.

(** ** Cancelling *)

(** A task that will not run again: out of the map, or cancelled during its
    last run. *)
Definition gone (s : Scheduler) (p : nat) : Prop :=
  exists t, store s !! p = Some t /\ (tasks s !! ID t = Some p -> Status t = StatusCancelled).

Lemma gone_not_pending s ex p : tasks_inv s ex -> gone s p -> p ∉ heap s.
Proof.
  intros HI (t & Ht & Hg) (t1 & Ht1 & Hid & Hst)%(inv_pending _ _ HI). rewrite Ht in Ht1. simplify_eq.
  specialize (Hg Hid). congruence.
Qed.

Lemma gone_frame s s' p :
  store s' !! p = store s !! p -> (forall id, tasks s' !! id = Some p -> tasks s !! id = Some p) -> gone s p -> gone s' p.
Proof. intros Hs Ht (t & Hp & Hg). exists t. rewrite Hs. split; [done|]. intros Hid. by apply Hg, Ht. Qed.

Lemma Cancel_gone id s ex p : tasks_inv s ex -> gone s p -> gone (Cancel id s).2 p.
Proof.
  intros HI Hg. pose proof (Cancel_cases id s ex HI) as Hc. destruct (tasks s !! id) as [q|] eqn:Hq; [|by rewrite Hc].
  destruct Hc as (t & Ht & <- & [(_ & _ & rest & _ & _ & ->)|[[Hst ->]|[_ ->]]]); [| |done]; simpl.
  - apply (gone_frame s); [done| |done]. simpl. intros id'. rewrite lookup_delete_Some. by intros [_ ?].
  - destruct (decide (p = q)) as [->|Hne].
    + eexists. split; [apply lookup_insert_eq|]. done.
    + apply (gone_frame s); [|done|done]. by apply lookup_insert_ne.
Qed.

Lemma finish_gone q now now' s ex p :
  tasks_inv s ex -> q ∈ ex -> gone s p -> gone (finish_task q now now' s) p.
Proof.
  intros HI Hq Hg. destruct (inv_running _ _ HI q Hq) as (t & Ht & Hid & Hr). unfold finish_task. rewrite Ht. cbv zeta.
  destruct (decide (p = q)) as [->|Hne].
  - destruct Hg as (t1 & Ht1 & Hc). rewrite Ht in Ht1. simplify_eq. specialize (Hc Hid). rewrite decide_True by done.
    eexists. split; [apply lookup_insert_eq|]. simpl. by rewrite lookup_delete_eq.
  - destruct (decide _).
    { apply (gone_frame s); [by apply lookup_insert_ne| |done]. simpl. intros id. rewrite lookup_delete_Some. by intros [_ ?]. }
    destruct (tasks _ !! _); [|apply (gone_frame s); [by apply lookup_insert_ne|done|done]].
    destruct (NextTime _ _).
    + apply (gone_frame s); [|done|done]. simpl. by rewrite !lookup_insert_ne.
    + apply (gone_frame s); [| |done]; simpl; [by rewrite !lookup_insert_ne|]. intros id. rewrite lookup_delete_Some. by intros [_ ?].
Qed.

Lemma step_gone sys sys' p : sys_step sys sys' -> sys_inv sys -> gone (sched sys) p -> gone (sched sys') p.
Proof.
  intros Hstep HI Hg. pose proof (inv_sched _ HI) as Ht. destruct Hstep; simpl; try done.
  - unfold insert_task in H1. destruct (negb _); [done|]. destruct (_ !! _); [done|]. injection H1 as <-.
    assert (p <> next_ptr (sched sys)) as Hne.
    { destruct Hg as (t & Hp & _). pose proof (inv_fresh _ _ Ht _ _ Hp). lia. }
    apply (gone_frame (sched sys)); [| |done]; simpl; [by rewrite lookup_insert_ne|].
    intros id' [[_ ?]|[_ ?]]%lookup_insert_Some; congruence.
  - by eapply Cancel_gone.
  - unfold Start in H. destruct (running _); by simplify_eq.
  - unfold Stop. by destruct (running _).
  - destruct (loop_section_cases now (sched sys) _ Ht) as
      [[_ Hs]|[(_ & _ & Hs)|[(_ & q & l & t & Hh & Hp & _ & Hs)|(_ & q & l & dl & _ & _ & Hs)]]]; rewrite Hs in H0; simplify_eq; try done.
    destruct (heap_pop_spec _ _ Ht q l Hh) as (_ & _ & _ & Es & Et & _). pose proof (gone_not_pending _ _ _ Ht Hg) as Hn.
    apply (gone_frame (sched sys)); [| |done]; simpl; [|by rewrite Et]. rewrite Es, lookup_insert_ne; [done|].
    intros ->. apply Hn. rewrite Hh. left.
  - eapply finish_gone; [done| |done]. apply list_elem_of_fmap. exists (p0, Some c). split; [done|].
    by eapply list_elem_of_lookup_2.
Qed.

Lemma steps_gone sys sys' p : rtc sys_step sys sys' -> sys_inv sys -> gone (sched sys) p -> gone (sched sys') p.
Proof. induction 1 as [|x y z Hs _ IH]; [done|]. intros HI Hg. apply IH; [by eapply cron_step_inv|by eapply step_gone]. Qed.

(** Cancelling is final: once [Cancel] was called for a task in the map,
    whether it was waiting or running, no later step starts that task; the
    call says whether it was running. *)
Theorem cancelled_never_runs cfg sys id p err s' sys' now s'' :
  reachable cfg sys -> tasks (sched sys) !! id = Some p -> Cancel id (sched sys) = (err, s') ->
  rtc sys_step {| sched := s'; loops := loops sys; execs := execs sys |} sys' ->
  (err = None \/ err = Some ErrTaskRunning) /\ loop_section now (sched sys') <> (s'', LoopRun p).
Proof.
  intros HI%reachable_inv Hp Hc Hsteps. pose proof (inv_sched _ HI) as Ht.
  pose proof (Cancel_cases id _ _ Ht) as Hk. rewrite Hp in Hk.
  assert (gone s' p /\ (err = None \/ err = Some ErrTaskRunning)) as [Hg Herr].
  { destruct Hk as (t & Hst & Hid & [(_ & _ & rest & _ & _ & Hk)|[[Hs Hk]|[Hs Hk]]]); rewrite Hc in Hk; simplify_eq; (split; [|by auto]).
    - exists t. split; [done|]. simpl. by rewrite lookup_delete_eq.
    - eexists. split; [apply lookup_insert_eq|]. done.
    - by exists t. }
  split; [done|]. intros Hrun.
  assert (sys_inv {| sched := s'; loops := loops sys; execs := execs sys |}) as HI1.
  { eapply cron_step_inv; [|exact HI]. replace s' with (Cancel id (sched sys)).2 by (by rewrite Hc). constructor. }
  pose proof (steps_inv _ _ Hsteps HI1) as HI'. pose proof (gone_not_pending _ _ _ (inv_sched _ HI') (steps_gone _ _ _ Hsteps HI1 Hg)) as Hn.
  destruct (loop_section_cases now (sched sys') _ (inv_sched _ HI')) as
    [[_ Hl]|[(_ & _ & Hl)|[(_ & q & l & t & Hh & _ & _ & Hl)|(_ & q & l & dl & _ & _ & Hl)]]]; rewrite Hl in Hrun; simplify_eq.
  apply Hn. rewrite Hh. left.
Qed.

(** [Stop] reaches everyone: when the scheduler is stopped every loop that
    waits has a closed channel in its select, and leaves at its next turn, and
    the context of every run that was started is cancelled. *)
Theorem stop_reaches_all cfg sys :
  reachable cfg sys -> running (sched sys) = false ->
  (forall i w dl, loops sys !! i = Some (Selecting w dl) -> w ∈ closed (sched sys)) /\
  (forall i w st dl, loops sys !! i = Some (Waiting w st dl) -> w ∈ closed (sched sys)) /\
  (forall now, loop_section now (sched sys) = (sched sys, LoopExit)) /\
  (forall p c, (p, Some c) ∈ execs sys -> c ∈ closed (sched sys)).
Proof.
  intros HI%reachable_inv Hr. split_and!.
  - intros i w dl Hi. destruct (waiting_ok _ _ _ HI Hi) as [?|(_ & ? & _)]; [done|congruence].
  - intros i w st dl Hi. destruct (waiting_ok _ _ _ HI Hi) as [?|(_ & ? & _)]; [done|congruence].
  - intros now. unfold loop_section. by rewrite Hr.
  - intros p c Hx. destruct (inv_execs _ HI p c Hx) as [?|[_ ?]]; [done|congruence].
Qed.

(** * A run of the scheduler *)

(** Started, with one task for 00:45 that was added at 00:01:40 and for which
    the loop waits. *)
Definition demo_task : CronTask := new_task "a" demo_expr (2700 * second_ns) UTC 0.

Definition demo_started : Scheduler := (Start NewScheduler).1.
Definition demo_added : Scheduler := ok_or demo_started (insert_task demo_task demo_started).

Definition demo_system (l : loop) : System := {| sched := demo_added; loops := [l]; execs := [] |}.
Definition demo_deadline : Z := 2700 * second_ns.
Definition demo_waiting : System := demo_system (Waiting (wakeCh demo_added) (stopCh demo_added) (Some demo_deadline)).

Lemma demo_parse : Parse "0 45 * * * *" = Ok demo_expr.
Proof. vm_compute. reflexivity. Qed.

Lemma demo_added_ok : insert_task demo_task demo_started = Ok demo_added.
Proof. vm_compute. reflexivity. Qed.

Lemma demo_added_reachable : reachable None (demo_system AtTop).
Proof.
  apply rtc_l with {| sched := demo_started; loops := [AtTop]; execs := [] |}.
  { apply (StepStart demo_started true (init_system None)). reflexivity. }
  apply rtc_once.
  apply (StepInsert "0 45 * * * *" UTC (100 * second_ns) 0 demo_expr (2700 * second_ns) "a" demo_added
    {| sched := demo_started; loops := [AtTop]; execs := [] |}).
  - exact demo_parse.
  - vm_compute. reflexivity.
  - exact demo_added_ok.
Qed.

Lemma demo_waiting_reachable : reachable None demo_waiting.
Proof.
  eapply rtc_r; [eapply rtc_r; [exact demo_added_reachable|]|].
  - apply (StepLoop 0 (200 * second_ns) demo_added (LoopTimer (wakeCh demo_added) demo_deadline)); [reflexivity|].
    vm_compute. reflexivity.
  - apply (StepSelect 0 (wakeCh demo_added) (Some demo_deadline)). reflexivity.
Qed.

Definition demo_stopped : System := {| sched := Stop (sched demo_waiting); loops := loops demo_waiting; execs := [] |}.

Lemma demo_stopped_reachable : reachable None demo_stopped.
Proof. eapply rtc_r; [exact demo_waiting_reachable|]. apply (StepStop demo_waiting). Qed.

Lemma scheduler_runs_once_witness : heap (sched demo_waiting) = [0%nat] /\ is_heap (Less (sched demo_waiting)) (heap (sched demo_waiting)).
Proof. split; [vm_compute; reflexivity|]. apply (scheduler_runs_once None demo_waiting demo_waiting_reachable). Defined.

Lemma no_lost_wakeup_witness :
  wakeCh demo_added ∉ closed demo_added /\ exists dl, Some demo_deadline = Some dl /\ dl <= NextRun demo_task.
Proof.
  assert (wakeCh demo_added ∉ closed demo_added) as Hw.
  { apply (bool_decide_unpack _). vm_compute. exact I. }
  split; [exact Hw|].
  pose proof (no_lost_wakeup None demo_waiting 0 (wakeCh demo_added) (stopCh demo_added) (Some demo_deadline)
    demo_waiting_reachable eq_refl Hw) as [_ H].
  apply (H "a" 0%nat demo_task); vm_compute; reflexivity.
Defined.

Lemma earliest_due_first_witness :
  exists s', loop_section (2700 * second_ns) (sched (demo_system AtTop)) = (s', LoopRun 0) /\
  exists t, store (sched (demo_system AtTop)) !! 0%nat = Some t /\ NextRun t <= 2700 * second_ns.
Proof.
  destruct (loop_section (2700 * second_ns) (sched (demo_system AtTop))) as [s' o] eqn:E.
  assert (o = LoopRun 0) as -> by (apply (f_equal snd) in E; vm_compute in E; symmetry; exact E).
  exists s'. split; [reflexivity|].
  destruct (earliest_due_first None (demo_system AtTop) (2700 * second_ns) s' 0 demo_added_reachable E) as (t & Ht & _ & Hn & _).
  exists t. split; [exact Ht|exact Hn].
Defined.

Lemma cancelled_never_runs_witness :
  (Cancel "a" demo_added).1 = None /\
  loop_section (2700 * second_ns) (Cancel "a" demo_added).2 <> ((Cancel "a" demo_added).2, LoopRun 0).
Proof.
  split; [vm_compute; reflexivity|].
  refine (proj2 (cancelled_never_runs None demo_waiting "a" 0 _ _ _ _ _ demo_waiting_reachable _ (surjective_pairing _) (rtc_refl _ _))).
  vm_compute. reflexivity.
Defined.

Lemma stop_reaches_all_witness : running (sched demo_stopped) = false /\ wakeCh demo_added ∈ closed (sched demo_stopped).
Proof.
  split; [vm_compute; reflexivity|].
  destruct (stop_reaches_all None demo_stopped demo_stopped_reachable ltac:(vm_compute; reflexivity)) as (_ & H & _).
  apply (H 0%nat _ (stopCh demo_added) (Some demo_deadline)). reflexivity.
Defined.

(** [NewSchedulerWithConfig] keeps a limit for the search that nothing reads:
    with a limit of 0 a task is added all the same. *)
Example config_unused :
  let s := (Start (NewSchedulerWithConfig (Some {| MaxIterations := 0 |}))).1 in
  MaxIterations (config s) = 0 /\ is_ok (AddWithID (100 * second_ns) 0 "a" "0 45 * * * *" s) = true /\
  is_ok (NextTimeWithConfig (Some demo_expr) (100 * second_ns) (Some (config s))) = false.
Proof. vm_compute. split_and!; reflexivity. Qed.
