(* ===== verification/Trie.v ===== *)
(** trie/trie.go: a prefix tree over runes.

    A node is reached by exactly one path from the root, so the tree of
    pointers is the inductive type [trieNode], with a Go map as a [gmap].  The
    descent of [Delete] and its walk back along the path are one recursion
    whose result says whether the walk is still removing nodes.  Ranging over
    a node's children is a fold; every list of results is sorted before it is
    returned. *)

From stdpp Require Import base tactics list gmap strings.
From Stdlib Require Import ZArith Lia.
From S2P Require Import Prelude Ordered Utf8.

Inductive Error :=
| ErrEmptyWord
| ErrEmptyPrefix
| ErrEmptyPattern
| ErrEmptyQuery
| ErrInvalidMaxResult
| ErrWordNotFound.

#[export] Instance trie_error_eq_dec : EqDecision Error.
Proof. solve_decision. Defined.

(** The wildcards of a pattern. *)
Definition star : Z := 42.
Definition dot : Z := 46.

Section trie.
Context {D : Type}.

(** The data of a word is an [interface{}]; [None] is nil. *)
Record SearchResult := { Word : string; Data : option D }.

#[warnings="-register-all"]
Inductive trieNode := Node (children : gmap Z trieNode) (isEnd : bool) (data : option D).

Definition children (n : trieNode) : gmap Z trieNode := let 'Node cs _ _ := n in cs.
Definition isEnd (n : trieNode) : bool := let 'Node _ e _ := n in e.
Definition data (n : trieNode) : option D := let 'Node _ _ d := n in d.

Definition newTrieNode : trieNode := Node ∅ false None.

Record Trie := { root : trieNode; t_size : Z }.

Definition NewTrie : Trie := {| root := newTrieNode; t_size := 0 |}.

(** The node at the end of [rs], if it is there. *)
Fixpoint descend (n : trieNode) (rs : list Z) : option trieNode :=
  match rs with
  | [] => Some n
  | ch :: rs => match children n !! ch with Some child => descend child rs | None => None end
  end.

(** ** Insert, Search, Delete *)

(** The tree with the word below [n], and whether it was not yet there. *)
Fixpoint insert_path (n : trieNode) (rs : list Z) (d : option D) : trieNode * bool :=
  match rs with
  | [] => (Node (children n) true d, negb (isEnd n))
  | ch :: rs =>
      let child := default newTrieNode (children n !! ch) in
      let '(child, fresh) := insert_path child rs d in
      (Node (<[ch := child]> (children n)) (isEnd n) (data n), fresh)
  end.

Definition Insert (t : Trie) (word : string) (d : option D) : result Error Trie :=
  if decide (word = "") then Err ErrEmptyWord
  else
    let '(n, fresh) := insert_path (root t) (runes word) d in
    Ok {| root := n; t_size := if fresh then t_size t + 1 else t_size t |}.

Definition Search (t : Trie) (word : string) : result Error (option D * bool) :=
  if decide (word = "") then Err ErrEmptyWord
  else
    match descend (root t) (runes word) with
    | None => Ok (None, false)
    | Some n => Ok (data n, isEnd n)
    end.

(** [None]: the word is not there.  The flag: every node visited on the way
    back so far was removed. *)
Fixpoint delete_path (n : trieNode) (rs : list Z) : option (trieNode * bool) :=
  match rs with
  | [] => if isEnd n then Some (Node (children n) false None, true) else None
  | ch :: rs =>
      child ← children n !! ch;
      '(child, pruning) ← delete_path child rs;
      if pruning && negb (isEnd child) && bool_decide (children child = ∅)
      then Some (Node (delete ch (children n)) (isEnd n) (data n), true)
      else Some (Node (<[ch := child]> (children n)) (isEnd n) (data n), false)
  end.

Definition Delete (t : Trie) (word : string) : result Error Trie :=
  if decide (word = "") then Err ErrEmptyWord
  else
    match delete_path (root t) (runes word) with
    | None => Err ErrWordNotFound
    | Some (n, _) => Ok {| root := n; t_size := t_size t - 1 |}
    end.

(** ** Searches by prefix and pattern *)

Fixpoint collectWords (n : trieNode) (prefix : string) (results : list SearchResult) : list SearchResult :=
  match n with
  | Node cs e d =>
      let results := if e then results ++ [{| Word := prefix; Data := d |}] else results in
      map_fold (fun ch child results => collectWords child (prefix +:+ encode_rune ch) results) results cs
  end.

Definition sort_results `{!SortSlice} : list SearchResult -> list SearchResult := sort_slice Word.

Definition PrefixMatchLimit `{!SortSlice} (t : Trie) (prefix : string) (maxResults : Z) :
    result Error (list SearchResult) :=
  if decide (prefix = "") then Err ErrEmptyPrefix
  else if maxResults <? 0 then Err ErrInvalidMaxResult
  else
    match descend (root t) (runes prefix) with
    | None => Ok []
    | Some n =>
        let results := sort_results (collectWords n prefix []) in
        if (0 <? maxResults) && (maxResults <? Z.of_nat (length results))
        then Ok (take (Z.to_nat maxResults) results)
        else Ok results
    end.

Definition PrefixMatch `{!SortSlice} (t : Trie) (prefix : string) : result Error (list SearchResult) :=
  PrefixMatchLimit t prefix 0.

(** The results and the map [seen] are updated in place through the search. *)
Definition found : Type := list SearchResult * gset string.

Definition report (n : trieNode) (currentWord : string) (st : found) : found :=
  let '(results, seen) := st in
  if isEnd n && negb (bool_decide (currentWord ∈ seen))
  then (results ++ [{| Word := currentWord; Data := data n |}], {[ currentWord ]} ∪ seen)
  else st.

Fixpoint wildcardDFS (n : trieNode) : list Z -> string -> found -> found :=
  match n with
  | Node cs e d =>
      fix dfs (pattern : list Z) (currentWord : string) (st : found) : found :=
        match pattern with
        | [] => report (Node cs e d) currentWord st
        | ch :: rest =>
            if ch =? star then
              map_fold (fun childCh child st => wildcardDFS child pattern (currentWord +:+ encode_rune childCh) st)
                (dfs rest currentWord st) cs
            else if ch =? dot then
              map_fold (fun childCh child st => wildcardDFS child rest (currentWord +:+ encode_rune childCh) st)
                st cs
            else
              match (wildcardDFS <$> cs) !! ch with
              | Some search_child => search_child rest (currentWord +:+ encode_rune ch) st
              | None => st
              end
        end
  end.

Definition WildcardSearch `{!SortSlice} (t : Trie) (pattern : string) : result Error (list SearchResult) :=
  if decide (pattern = "") then Err ErrEmptyPattern
  else Ok (sort_results (wildcardDFS (root t) (runes pattern) "" ([], ∅)).1).

(** ** LongestMatch, Size, GetAllWords *)

Fixpoint longest_loop (n : trieNode) (rs : list Z) (currentWord : string) (longest : option SearchResult) :
    option SearchResult :=
  match rs with
  | [] => longest
  | ch :: rs =>
      match children n !! ch with
      | None => longest
      | Some child =>
          let currentWord := currentWord +:+ encode_rune ch in
          longest_loop child rs currentWord
            (if isEnd child then Some {| Word := currentWord; Data := data child |} else longest)
      end
  end.

Definition LongestMatch (t : Trie) (query : string) : result Error SearchResult :=
  if decide (query = "") then Err ErrEmptyQuery
  else
    match longest_loop (root t) (runes query) "" None with
    | None => Err ErrWordNotFound
    | Some r => Ok r
    end.

Definition Size (t : Trie) : Z := t_size t.

Definition GetAllWords `{!SortSlice} (t : Trie) : list SearchResult :=
  sort_results (collectWords (root t) "" []).

End trie.

Arguments SearchResult D : clear implicits.
Arguments trieNode D : clear implicits.
Arguments Trie D : clear implicits.

(** Words that are not valid UTF-8 are stored under the runes they read as:
    two of them can be one word, and come back as a third. *)
Example invalid_words_collide :
  let bad b := bytes_str [b] in
  (let? t := Insert (D := Z) NewTrie (bad 0xFF) (Some 1) in
   let? t := Insert t (bad 0xFE) (Some 2) in
   let? r := Search t (bad 0xFF) in
   Ok (Size t, r, GetAllWords (H := stable_sort_slice) t))
  = Ok (1, (Some 2, true), [{| Word := bytes_str [0xEF; 0xBF; 0xBD]; Data := Some 2 |}]).
Proof. vm_compute. reflexivity. Qed.
