(* ===== verification/TrieProofs.v ===== *)
(** The prefix tree is a map from words to data.

    [node_get] reads the map a tree stands for and [clean] is its shape: no
    data outside words, no branch without a word.  A clean tree is determined
    by its map, so deleting a new word restores the tree.  The searches report
    each word once; sorted, their results are those of the specification on
    the map. *)

From stdpp Require Import base tactics list gmap strings.
From Stdlib Require Import ZArith Lia.
From S2P Require Import Prelude GoStrings Ordered Utf8 Trie.

Section nodes.
Context {D : Type}.
Implicit Types (n c : trieNode D) (rs : list Z).

(** ** Induction on trees *)

Fixpoint nsize n : nat :=
  match n with Node cs _ _ => S (map_fold (fun _ c k => (nsize c + k)%nat) 0%nat cs) end.

Lemma nsize_child cs (e : bool) (d : option D) ch c : cs !! ch = Some c -> (nsize c < nsize (Node cs e d))%nat.
Proof.
  intros Hc. simpl. rewrite (map_fold_delete_L _ _ ch c cs); [lia| |done]. intros. lia.
Qed.

Lemma trieNode_tree_ind (P : trieNode D -> Prop) :
  (forall cs e d, (forall ch c, cs !! ch = Some c -> P c) -> P (Node cs e d)) -> forall n, P n.
Proof.
  intros HP n. induction n as [n IH] using (well_founded_induction (well_founded_ltof _ nsize)).
  destruct n as [cs e d]. apply HP. intros ch c Hc. apply IH. by eapply nsize_child.
Qed.

(** ** The map of a tree *)

Definition node_get n rs : option (option D) :=
  match descend n rs with Some n' => if isEnd n' then Some (data n') else None | None => None end.

Lemma node_get_nil n : node_get n [] = if isEnd n then Some (data n) else None.
Proof. done. Qed.

Lemma node_get_cons n ch rs :
  node_get n (ch :: rs) = match children n !! ch with Some c => node_get c rs | None => None end.
Proof. unfold node_get. simpl. by destruct (children n !! ch). Qed.

Lemma node_get_new rs : node_get newTrieNode rs = None.
Proof. destruct rs; [done|]. rewrite node_get_cons. simpl. by rewrite lookup_empty. Qed.

Lemma node_get_child n ch rs : node_get n (ch :: rs) = node_get (default newTrieNode (children n !! ch)) rs.
Proof. rewrite node_get_cons. destruct (children n !! ch); simpl; [done|]. by rewrite node_get_new. Qed.

Lemma node_get_app n n' rs1 rs2 : descend n rs1 = Some n' -> node_get n (rs1 ++ rs2) = node_get n' rs2.
Proof.
  revert n. induction rs1 as [|ch rs1 IH]; intros n; simpl; [by intros [= ->]|].
  rewrite node_get_cons. destruct (children n !! ch); [|done]. by apply IH.
Qed.

Lemma node_get_app_None n rs1 rs2 : descend n rs1 = None -> node_get n (rs1 ++ rs2) = None.
Proof.
  revert n. induction rs1 as [|ch rs1 IH]; intros n; simpl; [done|].
  rewrite node_get_cons. destruct (children n !! ch); [|done]. by apply IH.
Qed.

Lemma insert_path_get n rs d rs' :
  node_get (insert_path n rs d).1 rs' = if decide (rs = rs') then Some d else node_get n rs'.
Proof.
  revert n rs'. induction rs as [|ch rs IH]; intros n rs'; simpl.
  - destruct rs' as [|ch' rs']; [done|]. rewrite decide_False by done. by rewrite !node_get_cons.
  - specialize (IH (default newTrieNode (children n !! ch))).
    destruct (insert_path _ rs d) as [c fresh]. simpl in *.
    destruct rs' as [|ch' rs']; [by rewrite decide_False by done|].
    rewrite (node_get_cons (Node _ _ _)). simpl. destruct (decide (ch = ch')) as [<-|Hne].
    + rewrite lookup_insert_eq, IH, (node_get_child n).
      destruct (decide (rs = rs')) as [<-|Hr]; [by rewrite decide_True|]. rewrite decide_False; [done|congruence].
    + rewrite lookup_insert_ne by done. rewrite decide_False by congruence. by rewrite node_get_cons.
Qed.

Lemma insert_path_fresh n rs d :
  (insert_path n rs d).2 = match node_get n rs with None => true | Some _ => false end.
Proof.
  revert n. induction rs as [|ch rs IH]; intros n; simpl.
  - rewrite node_get_nil. by destruct (isEnd n).
  - rewrite node_get_child, <- IH. by destruct (insert_path _ rs d).
Qed.

Lemma dead_get n rs : isEnd n = false -> children n = ∅ -> node_get n rs = None.
Proof.
  intros He Hc. destruct rs as [|ch rs]; [by rewrite node_get_nil, He|].
  by rewrite node_get_cons, Hc, lookup_empty.
Qed.

Lemma delete_path_get n rs :
  match delete_path n rs with
  | None => node_get n rs = None
  | Some (n', _) => is_Some (node_get n rs) /\
      forall rs', node_get n' rs' = if decide (rs = rs') then None else node_get n rs'
  end.
Proof.
  revert n. induction rs as [|ch rs IH]; intros n; simpl.
  - destruct (isEnd n) eqn:He; [|by rewrite node_get_nil, He]. split; [by rewrite node_get_nil, He|].
    intros [|ch' rs']; [done|]. by rewrite decide_False, !node_get_cons.
  - rewrite node_get_cons. destruct (children n !! ch) as [c|] eqn:Hc; simpl; [|done].
    specialize (IH c). destruct (delete_path c rs) as [[c' pruning]|]; simpl; [|done].
    destruct IH as [Hs Hg]. destruct (_ && bool_decide _) eqn:Hp; simpl; (split; [done|]);
      (intros [|ch' rs']; [by rewrite decide_False by done|]); rewrite (node_get_cons (Node _ _ _)); simpl;
      (destruct (decide (ch = ch')) as [<-|Hne];
       [|rewrite ?lookup_insert_ne, ?lookup_delete_ne, decide_False by congruence; by rewrite node_get_cons]).
    + rewrite lookup_delete_eq. bools. specialize (Hg rs'). rewrite dead_get in Hg by done.
      rewrite node_get_cons, Hc. destruct (decide (rs = rs')) as [<-|Hr]; [by rewrite decide_True|].
      rewrite decide_False by congruence. done.
    + rewrite lookup_insert_eq, Hg, node_get_cons, Hc.
      destruct (decide (rs = rs')) as [<-|Hr]; [by rewrite decide_True|]. rewrite decide_False; [done|congruence].
Qed.

(** ** Clean trees *)

(** A node below the root is there for a word. *)
Definition alive n : Prop := isEnd n = true \/ children n <> ∅.

Inductive clean : trieNode D -> Prop :=
| clean_node cs e d :
    (e = false -> d = None) ->
    (forall ch c, cs !! ch = Some c -> scalar ch /\ alive c /\ clean c) ->
    clean (Node cs e d).

Lemma clean_inv n : clean n ->
  (isEnd n = false -> data n = None) /\
  forall ch c, children n !! ch = Some c -> scalar ch /\ alive c /\ clean c.
Proof. by intros [cs e d Hd Hc]. Qed.

Lemma clean_new : clean newTrieNode.
Proof. constructor; [done|]. intros ch c. by rewrite lookup_empty. Qed.

Lemma clean_descend n rs n' : clean n -> descend n rs = Some n' -> clean n'.
Proof.
  revert n. induction rs as [|ch rs IH]; intros n Hn; simpl; [by intros [= <-]|].
  destruct (children n !! ch) as [c|] eqn:Hc; [|done]. apply IH. by eapply clean_inv.
Qed.

Lemma clean_get_scalar n rs d : clean n -> node_get n rs = Some d -> Forall scalar rs.
Proof.
  revert n. induction rs as [|ch rs IH]; intros n Hn; [constructor|]. rewrite node_get_cons.
  destruct (children n !! ch) as [c|] eqn:Hc; [|done]. destruct (proj2 (clean_inv n Hn) _ _ Hc) as (Hs & _ & Hcl).
  intros Hg. constructor; [done|]. by eapply IH.
Qed.

Lemma clean_insert_child n ch c : clean n -> scalar ch -> alive c -> clean c ->
  clean (Node (<[ch := c]> (children n)) (isEnd n) (data n)).
Proof.
  intros Hn Hs Ha Hc. destruct (clean_inv n Hn) as [Hd Hch].
  constructor; [done|]. intros ch' c' [[<- <-]|[_ H]]%lookup_insert_Some; [done|]. by apply Hch.
Qed.

Lemma insert_path_clean n rs d :
  clean n -> Forall scalar rs -> clean (insert_path n rs d).1 /\ alive (insert_path n rs d).1.
Proof.
  intros Hn Hs. revert n Hn. induction Hs as [|ch rs Hch _ IH]; intros n Hn; simpl.
  - destruct (clean_inv n Hn) as [Hd Hc]. split; [|by left]. by constructor.
  - assert (clean (default newTrieNode (children n !! ch))) as Hdef.
    { destruct (children n !! ch) as [c|] eqn:Hc; simpl; [by eapply clean_inv|apply clean_new]. }
    destruct (IH _ Hdef) as [Hc Ha]. destruct (insert_path _ rs d) as [c fresh]. simpl in *.
    split; [by apply clean_insert_child|]. right. apply insert_non_empty.
Qed.

Lemma delete_path_clean n rs n' pruning :
  clean n -> delete_path n rs = Some (n', pruning) -> clean n' /\ (pruning = false -> alive n').
Proof.
  revert n n' pruning. induction rs as [|ch rs IH]; intros n n' pruning Hn; simpl;
    destruct (clean_inv n Hn) as [Hd Hch].
  - destruct (isEnd n); [|done]. intros [= <- <-]. split; [|done].
    by constructor.
  - destruct (children n !! ch) as [c|] eqn:Hc; simpl; [|done]. destruct (Hch _ _ Hc) as (Hs & _ & Hcl).
    destruct (delete_path c rs) as [[c' p]|] eqn:Hdel; simpl; [|done]. destruct (IH _ _ _ Hcl Hdel) as [Hc' Ha].
    destruct (_ && bool_decide _) eqn:Hp; intros [= <- <-].
    + split; [|done]. constructor; [done|]. intros ch' x [_ H]%lookup_delete_Some. by apply Hch.
    + split; [|intros _; right; apply insert_non_empty]. apply clean_insert_child; [done..| |done].
      destruct p; [|by apply Ha]. unfold alive. simpl in Hp.
      destruct (isEnd c'); [by left|]. right. simpl in Hp. by bools.
Qed.

(** A branch leads to a word, and a tree is determined by its words. *)
Lemma alive_word n : clean n -> alive n -> exists rs d, node_get n rs = Some d.
Proof.
  induction n as [cs e d IH] using trieNode_tree_ind. intros Hn [He|Hc].
  - exists [], d. rewrite node_get_nil. by simpl in *; subst.
  - apply map_choose in Hc as (ch & c & Hc). destruct (proj2 (clean_inv _ Hn) ch c Hc) as (_ & Ha & Hcl).
    destruct (IH ch c Hc Hcl Ha) as (rs & d' & Hg). exists (ch :: rs), d'. rewrite node_get_cons. simpl in *.
    by rewrite Hc.
Qed.

Lemma branch_kept n1 n2 ch c :
  clean n1 -> (forall rs, node_get n1 rs = node_get n2 rs) -> children n1 !! ch = Some c ->
  is_Some (children n2 !! ch).
Proof.
  intros H1 Hg Hc. destruct (proj2 (clean_inv n1 H1) ch c Hc) as (_ & Ha & Hcl).
  destruct (alive_word c Hcl Ha) as (rs & d & Hw). specialize (Hg (ch :: rs)).
  rewrite !node_get_cons, Hc, Hw in Hg. destruct (children n2 !! ch); by eauto.
Qed.

Lemma clean_canonical n1 n2 :
  clean n1 -> clean n2 -> (forall rs, node_get n1 rs = node_get n2 rs) -> n1 = n2.
Proof.
  revert n2. induction n1 as [cs1 e1 d1 IH] using trieNode_tree_ind. intros [cs2 e2 d2] H1 H2 Hg.
  destruct (clean_inv _ H1) as [Hd1 Hc1], (clean_inv _ H2) as [Hd2 Hc2]. simpl in *.
  assert (e1 = e2 /\ d1 = d2) as [-> ->].
  { pose proof (Hg []) as E. rewrite !node_get_nil in E. simpl in E.
    destruct e1, e2; simplify_eq; [done|]. by rewrite Hd1, Hd2. }
  f_equal. apply map_eq. intros ch.
  destruct (cs1 !! ch) as [c1|] eqn:E1, (cs2 !! ch) as [c2|] eqn:E2; [|..|done].
  - f_equal. apply (IH ch); [done|by eapply Hc1|by eapply Hc2|]. intros rs. specialize (Hg (ch :: rs)).
    rewrite !node_get_cons in Hg. simpl in Hg. by rewrite E1, E2 in Hg.
  - destruct (branch_kept _ _ ch c1 H1 Hg E1) as [? K]. simpl in K. congruence.
  - destruct (branch_kept _ _ ch c2 H2 (fun rs => eq_sym (Hg rs)) E2) as [? K]. simpl in K. congruence.
Qed.

(** Deleting a word that an insertion added restores the tree. *)
Lemma delete_insert_path n rs d :
  clean n -> Forall scalar rs -> node_get n rs = None ->
  exists pruning, delete_path (insert_path n rs d).1 rs = Some (n, pruning).
Proof.
  intros Hn Hs Hg. destruct (insert_path_clean n rs d Hn Hs) as [Hi _].
  pose proof (delete_path_get (insert_path n rs d).1 rs) as Hd.
  destruct (delete_path _ rs) as [[n' p]|] eqn:E; [|by rewrite insert_path_get, decide_True in Hd].
  exists p. do 2 f_equal. destruct Hd as [_ Hd]. apply clean_canonical; [by eapply delete_path_clean|done|].
  intros rs'. rewrite Hd, insert_path_get. by destruct (decide (rs = rs')) as [<-|].
Qed.

(** ** Collecting words *)

Definition entry (p : string) rs (d : option D) : SearchResult D :=
  {| Word := p +:+ string_of_runes rs; Data := d |}.

(** [l] holds, once each, the words of [Q] written behind [p]. *)
Definition lists (p : string) (Q : list Z -> option D -> Prop) (l : list (SearchResult D)) : Prop :=
  NoDup (Word <$> l) /\ forall r, r ∈ l <-> exists rs d, Q rs d /\ r = entry p rs d.

Lemma entry_cons p ch rs d : entry p (ch :: rs) d = entry (p +:+ encode_rune ch) rs d.
Proof. unfold entry. simpl. by rewrite string_assoc. Qed.

Lemma entry_inj p rs1 rs2 d1 d2 :
  Forall scalar rs1 -> Forall scalar rs2 -> Word (entry p rs1 d1) = Word (entry p rs2 d2) -> rs1 = rs2.
Proof. intros H1 H2 E. apply (inj (String.append p)) in E. by apply string_of_runes_inj. Qed.

Lemma lists_app p Q1 Q2 l1 l2 :
  lists p Q1 l1 -> lists p Q2 l2 ->
  (forall rs1 rs2 d1 d2, Q1 rs1 d1 -> Q2 rs2 d2 -> Forall scalar rs1 /\ Forall scalar rs2 /\ rs1 <> rs2) ->
  lists p (fun rs d => Q1 rs d \/ Q2 rs d) (l1 ++ l2).
Proof.
  intros [N1 E1] [N2 E2] Hd. split.
  - rewrite fmap_app. apply NoDup_app. split_and!; [done| |done].
    intros w (r1 & -> & (rs1 & d1 & Q1' & ->)%E1)%list_elem_of_fmap (r2 & E & (rs2 & d2 & Q2' & ->)%E2)%list_elem_of_fmap.
    destruct (Hd _ _ _ _ Q1' Q2') as (S1 & S2 & Hne). by apply Hne, (entry_inj p _ _ d1 d2).
  - intros r. rewrite elem_of_app, E1, E2. naive_solver.
Qed.

Lemma lists_iff p (Q Q' : list Z -> option D -> Prop) l :
  (forall rs d, Q rs d <-> Q' rs d) -> lists p Q l -> lists p Q' l.
Proof. intros HQ [N E]. split; [done|]. intros r. rewrite E. naive_solver. Qed.

Lemma lists_below p ch Q l :
  lists (p +:+ encode_rune ch) Q l -> lists p (fun rs d => exists rs', rs = ch :: rs' /\ Q rs' d) l.
Proof.
  intros [N E]. split; [done|]. intros r. rewrite E. split.
  - intros (rs & d & HQ & ->). exists (ch :: rs), d. rewrite entry_cons. naive_solver.
  - intros (? & d & (rs & -> & HQ) & ->). exists rs, d. by rewrite entry_cons.
Qed.

Lemma entry_nil p d : entry p [] d = {| Word := p; Data := d |}.
Proof. unfold entry. simpl. by rewrite string_nil_r. Qed.

Lemma lists_end p (e : bool) (d : option D) :
  lists p (fun rs d' => rs = [] /\ e = true /\ d' = d) (if e then [{| Word := p; Data := d |}] else []).
Proof.
  rewrite <- (entry_nil p d). destruct e; split; try (repeat constructor; set_solver).
  intros r. rewrite list_elem_of_singleton. naive_solver.
Qed.

(** The words below the children in a list. *)
Definition below (kvs : list (Z * trieNode D)) rs (d : option D) : Prop :=
  exists ch c rs', (ch, c) ∈ kvs /\ rs = ch :: rs' /\ node_get c rs' = Some d.

Lemma below_cons ch c kvs rs d :
  below ((ch, c) :: kvs) rs d <-> below kvs rs d \/ exists rs', rs = ch :: rs' /\ node_get c rs' = Some d.
Proof. unfold below. setoid_rewrite elem_of_cons. naive_solver. Qed.

Lemma node_get_below n rs d :
  node_get n rs = Some d <-> (rs = [] /\ isEnd n = true /\ d = data n) \/ below (map_to_list (children n)) rs d.
Proof.
  unfold below. setoid_rewrite elem_of_map_to_list. destruct rs as [|ch rs].
  - rewrite node_get_nil. destruct (isEnd n); naive_solver.
  - rewrite node_get_cons. destruct (children n !! ch) eqn:E; naive_solver.
Qed.

Lemma collectWords_fold kvs p results :
  NoDup kvs.*1 ->
  (forall ch c, (ch, c) ∈ kvs -> scalar ch /\ clean c /\ forall p results, exists l,
     collectWords c p results = results ++ l /\ lists p (fun rs d => node_get c rs = Some d) l) ->
  exists l, foldr (uncurry (fun ch c results => collectWords c (p +:+ encode_rune ch) results)) results kvs = results ++ l
    /\ lists p (below kvs) l.
Proof.
  induction kvs as [|[ch c] kvs IH]; intros Hnd Hk; simpl.
  - exists []. rewrite app_nil_r. split; [done|]. split; [constructor|]. unfold below. set_solver.
  - rewrite fmap_cons in Hnd. apply NoDup_cons in Hnd as [Hch Hnd].
    destruct IH as (l & -> & Hl); [done|intros; apply Hk; set_solver|].
    destruct (Hk ch c) as (Hs & Hcl & Hc); [set_solver|].
    destruct (Hc (p +:+ encode_rune ch) (results ++ l)) as (lc & -> & Hlc). exists (l ++ lc).
    split; [by rewrite app_assoc|]. eapply lists_iff; [intros; symmetry; apply below_cons|].
    apply lists_app; [done|by apply lists_below|].
    intros rs1 rs2 d1 d2 (ch' & c' & rs' & Hin & -> & Hg) (rs & -> & Hg2).
    destruct (Hk ch' c') as (Hs' & Hcl' & _); [set_solver|].
    split_and!; [by constructor; eauto using clean_get_scalar..|]. intros [= -> ->].
    apply Hch. by apply (list_elem_of_fmap_2 fst) in Hin.
Qed.

Lemma collectWords_lists n p results : clean n -> exists l,
  collectWords n p results = results ++ l /\ lists p (fun rs d => node_get n rs = Some d) l.
Proof.
  revert p results. induction n as [cs e d IH] using trieNode_tree_ind. intros p results Hn.
  destruct (clean_inv _ Hn) as [_ Hc]. cbn [collectWords]. rewrite map_fold_foldr.
  edestruct (collectWords_fold (map_to_list cs) p) as (l & -> & Hl).
  { apply NoDup_fst_map_to_list. }
  { intros ch c Hk%elem_of_map_to_list. destruct (Hc _ _ Hk) as (Hs & _ & Hcl). split_and!; [done..|]. eauto. }
  exists ((if e then [{| Word := p; Data := d |}] else []) ++ l).
  split; [destruct e; [by rewrite <- (assoc_L (++))|done]|].
  eapply lists_iff; [intros; symmetry; apply node_get_below|]. apply lists_app; [apply lists_end|done|].
  simpl. intros rs1 rs2 d1 d2 (-> & _) (ch & c & rs & Hk%elem_of_map_to_list & -> & Hg).
  destruct (Hc _ _ Hk) as (Hs & _ & Hcl). split_and!; [constructor| |done].
  constructor; [done|by eapply clean_get_scalar].
Qed.

(** ** Wildcards *)

(** The suffixes of a word. *)
Fixpoint tails rs : list (list Z) :=
  rs :: match rs with [] => [] | _ :: rs => tails rs end.

(** The reference definition: a star stands for any runes, a dot for one. *)
Fixpoint glob_match (pattern rs : list Z) : bool :=
  match pattern with
  | [] => bool_decide (rs = [])
  | ch :: pattern =>
      if ch =? star then existsb (glob_match pattern) (tails rs)
      else match rs with
           | [] => false
           | r :: rs => ((ch =? dot) || (ch =? r)) && glob_match pattern rs
           end
  end.

Lemma glob_match_star ch pattern rs : ch =? star = true ->
  glob_match (ch :: pattern) rs =
    glob_match pattern rs || match rs with [] => false | _ :: rs => glob_match (ch :: pattern) rs end.
Proof. intros E. simpl. rewrite E. by destruct rs. Qed.

(** The state of the search: [seen] is what was reported, once. *)
Definition found_ok (st : found (D := D)) : Prop :=
  NoDup (Word <$> st.1) /\ forall w, w ∈ st.2 <-> w ∈ Word <$> st.1.

(** Between the two states exactly the words of [Q] were searched. *)
Record searched (cur : string) (Q : list Z -> option D -> Prop) (st st' : found (D := D)) : Prop := {
  searched_ok : found_ok st -> found_ok st';
  searched_keeps r : r ∈ st.1 -> r ∈ st'.1;
  searched_sound r : r ∈ st'.1 -> r ∈ st.1 \/ exists rs d, Q rs d /\ r = entry cur rs d;
  searched_complete rs d : found_ok st -> Q rs d -> Word (entry cur rs d) ∈ Word <$> st'.1;
}.

Lemma searched_nothing cur (Q : list Z -> option D -> Prop) st :
  (forall rs d, ~ Q rs d) -> searched cur Q st st.
Proof. intros HQ. split; [auto..|]. intros rs d _ H. by apply HQ in H. Qed.

Lemma searched_iff cur (Q Q' : list Z -> option D -> Prop) st st' :
  (forall rs d, Q rs d <-> Q' rs d) -> searched cur Q st st' -> searched cur Q' st st'.
Proof. intros HQ [H1 H2 H3 H4]. split; [done..| |]; [intros r Hr; destruct (H3 r Hr); naive_solver|naive_solver]. Qed.

Lemma searched_trans cur Q1 Q2 st st' st'' :
  searched cur Q1 st st' -> searched cur Q2 st' st'' -> searched cur (fun rs d => Q1 rs d \/ Q2 rs d) st st''.
Proof.
  intros [A1 A2 A3 A4] [B1 B2 B3 B4]. split; [auto..| |].
  - intros r [[H|H]%A3|H]%B3; naive_solver.
  - intros rs d Hok [H|H]; [|by auto]. apply A4 in H as (r & -> & Hr)%list_elem_of_fmap; [|done].
    apply list_elem_of_fmap_2. auto.
Qed.

Lemma searched_below cur ch Q st st' :
  searched (cur +:+ encode_rune ch) Q st st' ->
  searched cur (fun rs d => exists rs', rs = ch :: rs' /\ Q rs' d) st st'.
Proof.
  intros [H1 H2 H3 H4]. split; [done..| |].
  - intros r [H|(rs & d & HQ & ->)]%H3; [by left|]. right. exists (ch :: rs), d. rewrite entry_cons. naive_solver.
  - intros ? d Hok (rs & -> & HQ). rewrite entry_cons. auto.
Qed.

Lemma report_searched n cur st :
  searched cur (fun rs d => rs = [] /\ isEnd n = true /\ d = data n) st (report n cur st).
Proof.
  destruct st as [results seen]. unfold report. destruct (isEnd n); simpl; [|apply searched_nothing; naive_solver].
  case_bool_decide as Hs; simpl.
  - split; [done|done|by left|]. intros rs d [_ Hw] (-> & _ & ->). rewrite entry_nil. by apply Hw.
  - split; simpl.
    + intros [Hnd Hw]. simpl in *. split; simpl.
      * rewrite fmap_app. apply NoDup_app. split_and!; [done| |apply NoDup_singleton].
        intros w Hin Hin'%list_elem_of_singleton. simpl in *. subst. by apply Hs, Hw.
      * intros w. rewrite fmap_app, elem_of_union, elem_of_singleton, elem_of_app, Hw. simpl. set_solver.
    + set_solver.
    + intros r [H|H%list_elem_of_singleton]%elem_of_app; [by left|]. right. exists [], (data n).
      by rewrite entry_nil.
    + intros rs d _ (-> & _ & ->). rewrite fmap_app. simpl. rewrite string_nil_r. set_solver.
Qed.

Lemma wildcard_fold kvs cur pattern (f : trieNode D -> list Z -> string -> found -> found) st :
  (forall ch c, (ch, c) ∈ kvs -> forall cur st,
     searched cur (fun rs d => node_get c rs = Some d /\ glob_match pattern rs = true) st (f c pattern cur st)) ->
  searched cur (fun rs d => exists ch rs', rs = ch :: rs' /\ glob_match pattern rs' = true /\ below kvs rs d) st
    (foldr (uncurry (fun ch c st => f c pattern (cur +:+ encode_rune ch) st)) st kvs).
Proof.
  induction kvs as [|[ch c] kvs IH]; intros Hk; simpl.
  - apply searched_nothing. unfold below. set_solver.
  - eapply searched_iff; [|eapply searched_trans; [apply IH; intros ch1 c1 H1; apply (Hk ch1); set_solver|]].
    2: { apply searched_below, (Hk ch). set_solver. }
    intros rs d. setoid_rewrite below_cons. naive_solver.
Qed.

Lemma wildcardDFS_cons cs e d ch rest cur st :
  wildcardDFS (Node cs e d) (ch :: rest) cur st =
    if ch =? star then
      map_fold (fun ch' c st => wildcardDFS c (ch :: rest) (cur +:+ encode_rune ch') st)
        (wildcardDFS (Node (D := D) cs e d) rest cur st) cs
    else if ch =? dot then map_fold (fun ch' c st => wildcardDFS c rest (cur +:+ encode_rune ch') st) st cs
    else match cs !! ch with Some c => wildcardDFS c rest (cur +:+ encode_rune ch) st | None => st end.
Proof. cbn. rewrite lookup_fmap. by destruct (cs !! ch). Qed.

Lemma wildcardDFS_searched n pattern cur st :
  searched cur (fun rs d => node_get n rs = Some d /\ glob_match pattern rs = true) st (wildcardDFS n pattern cur st).
Proof.
  revert pattern cur st. induction n as [cs e d IH] using trieNode_tree_ind. intros pattern.
  assert (forall kv, kv ∈ map_to_list cs -> cs !! kv.1 = Some kv.2) as Hkv
    by (intros [ch c]; apply elem_of_map_to_list).
  induction pattern as [|ch rest IHp]; intros cur st.
  { eapply searched_iff; [|apply report_searched]. intros rs d'. simpl. rewrite bool_decide_eq_true.
    destruct rs; [|naive_solver]. rewrite node_get_nil. simpl. destruct e; naive_solver. }
  rewrite wildcardDFS_cons, !map_fold_foldr. destruct (ch =? star) eqn:Hst; [|destruct (ch =? dot) eqn:Hdot].
  - eapply searched_iff; [|eapply searched_trans; [apply IHp|
      apply (wildcard_fold _ _ _ wildcardDFS); intros ch' c' Hin; apply (IH ch'), (Hkv (ch', c') Hin)]].
    intros rs d'. cbv beta. rewrite (glob_match_star _ _ rs), orb_true_iff, (node_get_below _ rs) by done.
    cbn [children]. destruct rs as [|r rs]; [|naive_solver]. unfold below. naive_solver.
  - eapply searched_iff; [|apply (wildcard_fold _ _ _ wildcardDFS); intros ch' c' Hin; apply (IH ch'), (Hkv (ch', c') Hin)].
    intros rs d'. rewrite (node_get_below _ rs). simpl. rewrite Hst, Hdot.
    destruct rs as [|r rs]; [naive_solver|]. simpl. naive_solver.
  - destruct (cs !! ch) as [c|] eqn:Hc.
    + eapply searched_iff; [|apply searched_below, (IH ch c Hc)]. intros rs d'. simpl. rewrite Hst, Hdot.
      destruct rs as [|r rs]; [naive_solver|]. rewrite node_get_cons, andb_true_iff. simpl. rewrite Z.eqb_eq.
      split; [intros (rs' & [= -> ->] & Hg & Hm); by rewrite Hc|]. intros [Hg [<- Hm]]. rewrite Hc in Hg. eauto.
    + apply searched_nothing. intros rs d'. simpl. rewrite Hst, Hdot. destruct rs as [|r rs]; [naive_solver|].
      rewrite node_get_cons, andb_true_iff. simpl. rewrite Z.eqb_eq. intros [Hg [<- _]]. by rewrite Hc in Hg.
Qed.

(** ** The longest match *)

(** The prefixes of a word, the shortest first, without the empty one. *)
Fixpoint prefixes rs : list (list Z) :=
  match rs with [] => [] | r :: rs => [r] :: (cons r <$> prefixes rs) end.

Definition prefix_words (get : list Z -> option (option D)) cur rs : list (SearchResult D) :=
  omap (fun p => entry cur p <$> get p) (prefixes rs).

Lemma prefix_words_cons get get' cur ch rs :
  (forall p, get (ch :: p) = get' p) ->
  prefix_words get cur (ch :: rs) =
    match get' [] with Some d => [entry cur [ch] d] | None => [] end ++
    prefix_words get' (cur +:+ encode_rune ch) rs.
Proof.
  intros Hg. unfold prefix_words.
  assert (omap (fun p => entry cur p <$> get p) (cons ch <$> prefixes rs) =
    omap (fun p => entry (cur +:+ encode_rune ch) p <$> get' p) (prefixes rs)) as E.
  { induction (prefixes rs) as [|p ps IH]; simpl; [done|]. rewrite Hg.
    destruct (get' p); simpl; [|exact IH]. rewrite entry_cons. f_equal. exact IH. }
  rewrite <- E. simpl. rewrite Hg. by destruct (get' []).
Qed.

Lemma prefix_words_none get cur rs : (forall p, get p = None) -> prefix_words get cur rs = [].
Proof. intros Hg. unfold prefix_words. induction (prefixes rs) as [|p ps IH]; simpl; [done|]. by rewrite Hg. Qed.

Lemma prefix_words_ext get get' cur rs :
  (forall p, get p = get' p) -> prefix_words get cur rs = prefix_words get' cur rs.
Proof. intros Hg. apply list_omap_ext, Forall_Forall2_diag, Forall_true. intros p. by rewrite Hg. Qed.

Lemma longest_loop_spec n rs cur longest :
  longest_loop n rs cur longest =
    match last (prefix_words (node_get n) cur rs) with Some r => Some r | None => longest end.
Proof.
  revert n cur longest. induction rs as [|ch rs IH]; intros n cur longest; [done|].
  simpl. destruct (children n !! ch) as [c|] eqn:Hc.
  - rewrite (prefix_words_cons _ (node_get c)) by (intros p; by rewrite node_get_cons, Hc).
    rewrite IH, last_app. destruct (last _) as [r|]; [done|]. rewrite node_get_nil.
    destruct (isEnd c); [|done]. simpl. by rewrite entry_cons, entry_nil.
  - rewrite (prefix_words_cons _ (fun _ => None)) by (intros p; by rewrite node_get_cons, Hc).
    by rewrite prefix_words_none.
Qed.
End nodes.

(** * The specification: a map from words to data *)

Section refinement.
Context {D : Type} `{!SortSlice}.

Abbreviation dict := (gmap (list Z) (option D)).

Inductive op :=
| OInsert (word : string) (d : option D)
| OSearch (word : string)
| ODelete (word : string)
| OPrefixMatchLimit (prefix : string) (maxResults : Z)
| OWildcardSearch (pattern : string)
| OLongestMatch (query : string)
| OSize
| OGetAllWords.

Inductive output :=
| RDone (r : result Error ())
| RSearch (r : result Error (option D * bool))
| RWords (r : result Error (list (SearchResult D)))
| RWord (r : result Error (SearchResult D))
| RSize (k : Z).

(** An update that fails leaves the state as it is. *)
Definition updated {S} (s : S) (r : result Error S) : S * output :=
  match r with Ok s' => (s', RDone (Ok ())) | Err e => (s, RDone (Err e)) end.

Definition trie_op (t : Trie D) (o : op) : Trie D * output :=
  match o with
  | OInsert w d => updated t (Insert t w d)
  | OSearch w => (t, RSearch (Search t w))
  | ODelete w => updated t (Delete t w)
  | OPrefixMatchLimit p k => (t, RWords (PrefixMatchLimit t p k))
  | OWildcardSearch p => (t, RWords (WildcardSearch t p))
  | OLongestMatch q => (t, RWord (LongestMatch t q))
  | OSize => (t, RSize (Size t))
  | OGetAllWords => (t, RWords (Ok (GetAllWords t)))
  end.

(** The entries of the map that [name] gives a name, sorted by it. *)
Definition named (m : dict) (name : list Z -> option string) : list (SearchResult D) :=
  sort_results (omap (fun '(rs, d) => w ← name rs; Some {| Word := w; Data := d |}) (map_to_list m)).

Fixpoint strip (pre rs : list Z) : option (list Z) :=
  match pre, rs with
  | [], _ => Some rs
  | p :: pre, r :: rs => if p =? r then strip pre rs else None
  | _, [] => None
  end.

Definition dict_op (m : dict) (o : op) : dict * output :=
  match o with
  | OInsert w d => updated m (if decide (w = "") then Err ErrEmptyWord else Ok (<[runes w := d]> m))
  | OSearch w =>
      (m, RSearch (if decide (w = "") then Err ErrEmptyWord
                   else match m !! runes w with Some d => Ok (d, true) | None => Ok (None, false) end))
  | ODelete w =>
      updated m (if decide (w = "") then Err ErrEmptyWord
                 else match m !! runes w with Some _ => Ok (delete (runes w) m) | None => Err ErrWordNotFound end)
  | OPrefixMatchLimit p k =>
      (m, RWords (if decide (p = "") then Err ErrEmptyPrefix else if k <? 0 then Err ErrInvalidMaxResult
                  else let l := named m (fun rs => (fun suf => p +:+ string_of_runes suf) <$> strip (runes p) rs) in
                       Ok (if k =? 0 then l else take (Z.to_nat k) l)))
  | OWildcardSearch p =>
      (m, RWords (if decide (p = "") then Err ErrEmptyPattern
                  else Ok (named m (fun rs => if glob_match (runes p) rs then Some (string_of_runes rs) else None))))
  | OLongestMatch q =>
      (m, RWord (if decide (q = "") then Err ErrEmptyQuery
                 else match last (prefix_words (fun rs => m !! rs) "" (runes q)) with
                      | Some r => Ok r
                      | None => Err ErrWordNotFound
                      end))
  | OSize => (m, RSize (Z.of_nat (size m)))
  | OGetAllWords => (m, RWords (Ok (named m (fun rs => Some (string_of_runes rs)))))
  end.

Fixpoint outputs {S} (step : S -> op -> S * output) (s : S) (ops : list op) : list output :=
  match ops with [] => [] | o :: ops => let '(s, r) := step s o in r :: outputs step s ops end.

(** ** The relation *)

Record stands_for (t : Trie D) (m : dict) : Prop := {
  sf_clean : clean (root t);
  sf_get rs : node_get (root t) rs = m !! rs;
  sf_size : t_size t = Z.of_nat (size m);
}.

Lemma stands_new : stands_for NewTrie ∅.
Proof. split; [apply clean_new| |done]. intros rs. rewrite lookup_empty. apply node_get_new. Qed.

Lemma stands_Insert t m w d : stands_for t m -> w <> "" ->
  exists t', Insert t w d = Ok t' /\ stands_for t' (<[runes w := d]> m).
Proof.
  intros [Hc Hg Hs] Hw. unfold Insert. rewrite decide_False by done.
  pose proof (insert_path_clean _ (runes w) d Hc (runes_scalar w)) as [Hc' _].
  pose proof (insert_path_get (root t) (runes w) d) as Hg'. pose proof (insert_path_fresh (root t) (runes w) d) as Hf.
  destruct (insert_path _ _ _) as [n fresh]. simpl in *. eexists. split; [done|]. split; simpl; [done| |].
  - intros rs. rewrite Hg'. destruct (decide (runes w = rs)) as [<-|]; [by rewrite lookup_insert_eq|].
    by rewrite lookup_insert_ne.
  - rewrite Hf, Hg, map_size_insert, Hs. destruct (m !! runes w); cbn; lia.
Qed.

Lemma stands_Delete t m w : stands_for t m -> w <> "" ->
  match m !! runes w with
  | Some _ => exists t', Delete t w = Ok t' /\ stands_for t' (delete (runes w) m)
  | None => Delete t w = Err ErrWordNotFound
  end.
Proof.
  intros [Hc Hg Hs] Hw. unfold Delete. rewrite decide_False by done.
  pose proof (delete_path_get (root t) (runes w)) as Hd. rewrite Hg in Hd.
  destruct (delete_path (root t) (runes w)) as [[n p]|] eqn:E; [|by rewrite Hd].
  destruct Hd as [[d Hd] Hn]. rewrite Hd. eexists. split; [done|]. split; simpl.
  - by eapply delete_path_clean.
  - intros rs. rewrite Hn, Hg. destruct (decide (runes w = rs)) as [<-|]; [by rewrite lookup_delete_eq|].
    by rewrite lookup_delete_ne.
  - assert (0 < size m)%nat.
    { destruct (size m) eqn:E0; [|lia]. apply map_size_empty_inv in E0. subst. by rewrite lookup_empty in Hd. }
    rewrite map_size_delete_Some by done. lia.
Qed.

Lemma stands_Search t m w : stands_for t m -> w <> "" ->
  Search t w = match m !! runes w with Some d => Ok (d, true) | None => Ok (None, false) end.
Proof.
  intros [Hc Hg Hs] Hw. unfold Search. rewrite decide_False by done. rewrite <- Hg. unfold node_get.
  destruct (descend (root t) (runes w)) as [n|] eqn:E; [|done].
  destruct (isEnd n) eqn:He; [done|]. apply clean_descend in E; [|done]. by rewrite (proj1 (clean_inv n E)).
Qed.

(** ** Searches *)

Lemma elem_of_named (m : dict) name r :
  r ∈ named m name <-> exists rs d w, m !! rs = Some d /\ name rs = Some w /\ r = {| Word := w; Data := d |}.
Proof.
  unfold named, sort_results. rewrite (sort_slice_perm Word), list_elem_of_omap. split.
  - intros ([rs d] & Hin%elem_of_map_to_list & (w & Hw & [= <-])%bind_Some). eauto 10.
  - intros (rs & d & w & Hg & Hw & ->). exists (rs, d). rewrite elem_of_map_to_list, Hw. done.
Qed.

(** A list that has the named entries, once each, is what sorting gives. *)
Lemma named_unique (m : dict) name (l : list (SearchResult D)) :
  (forall rs1 rs2 w, is_Some (m !! rs1) -> is_Some (m !! rs2) -> name rs1 = Some w -> name rs2 = Some w -> rs1 = rs2) ->
  NoDup (Word <$> l) ->
  (forall r, r ∈ l <-> exists rs d w, m !! rs = Some d /\ name rs = Some w /\ r = {| Word := w; Data := d |}) ->
  sort_results l = named m name.
Proof.
  intros Hinj Hnd Hl. pose proof (sort_slice_strict Word l Hnd) as Hs1.
  apply (sorted_perm_unique Word); [done|apply sort_slice_sorted|].
  apply NoDup_Permutation; [| |intros r; unfold sort_results; by rewrite (sort_slice_perm Word), elem_of_named, Hl].
  - unfold sort_results. rewrite (sort_slice_perm Word). by eapply NoDup_fmap_1.
  - unfold named, sort_results. rewrite (sort_slice_perm Word). apply (NoDup_fmap_1 Word).
    pose proof (NoDup_map_to_list m) as Hm.
    assert (forall rs d, (rs, d) ∈ map_to_list m -> m !! rs = Some d) as Hin by (intros; by apply elem_of_map_to_list).
    induction (map_to_list m) as [|[rs d] kvs IH]; [constructor|]. apply NoDup_cons in Hm as [Hx Hm]. simpl.
    specialize (IH Hm ltac:(set_solver)). destruct (name rs) as [w|] eqn:Hw; simpl; [|done].
    apply NoDup_cons. split; [|done]. rewrite list_elem_of_fmap.
    intros (r & Hr & ([rs' d'] & Hk & (w' & Hw' & [= <-])%bind_Some)%list_elem_of_omap). simpl in Hr. subst w'.
    assert (m !! rs = Some d) as E1 by (apply Hin; set_solver). assert (m !! rs' = Some d') as E2 by (apply Hin; set_solver).
    assert (rs = rs') as <- by (eapply Hinj; eauto). apply Hx. congruence.
Qed.

Lemma strip_app pre suf : strip pre (pre ++ suf) = Some suf.
Proof. induction pre as [|p pre IH]; simpl; [done|]. by rewrite Z.eqb_refl. Qed.

Lemma strip_Some pre rs suf : strip pre rs = Some suf <-> rs = pre ++ suf.
Proof.
  split; [|intros ->; apply strip_app]. revert rs. induction pre as [|p pre IH]; intros rs; simpl; [by intros [= ->]|].
  destruct rs as [|r rs]; [done|]. destruct (Z.eqb_spec p r) as [<-|]; [|done]. by intros ->%IH.
Qed.

Lemma stands_scalar t m rs : stands_for t m -> is_Some (m !! rs) -> Forall scalar rs.
Proof. intros [Hc Hg _] [d Hd]. rewrite <- Hg in Hd. by eapply clean_get_scalar. Qed.

Lemma scalar_app_r pre suf : Forall scalar (pre ++ suf) -> Forall scalar suf.
Proof. rewrite Forall_app. by intros [_ ?]. Qed.

Lemma stands_collect t m n pre p : stands_for t m -> descend (root t) pre = Some n ->
  sort_results (collectWords n p []) = named m (fun rs => (fun suf => p +:+ string_of_runes suf) <$> strip pre rs).
Proof.
  intros Hst Hn. destruct (Hst) as [Hc Hg _]. pose proof (clean_descend _ _ _ Hc Hn) as Hcn.
  destruct (collectWords_lists n p [] Hcn) as (l & -> & [Hnd Hl]). rewrite app_nil_l. apply named_unique; [|done|].
  - intros rs1 rs2 w H1 H2 (s1 & ->%strip_Some & ->)%fmap_Some (s2 & ->%strip_Some & E)%fmap_Some.
    f_equal. apply (entry_inj p _ _ (None : option D) None); [| |done];
      eapply scalar_app_r, stands_scalar; eauto.
  - intros r. rewrite Hl. split.
    + intros (rs & d & Hd & ->). exists (pre ++ rs), d, (p +:+ string_of_runes rs).
      by rewrite <- Hg, (node_get_app _ n), strip_app.
    + intros (? & d & w & Hd & (rs & ->%strip_Some & ->)%fmap_Some & ->). exists rs, d.
      by rewrite <- (node_get_app (root t) n pre), Hg.
Qed.

Lemma stands_collect_all t m : stands_for t m ->
  GetAllWords t = named m (fun rs => Some (string_of_runes rs)).
Proof. intros Hst. unfold GetAllWords. by rewrite (stands_collect t m (root t) [] "" Hst). Qed.

Lemma stands_PrefixMatch t m p k : stands_for t m -> p <> "" -> 0 <= k ->
  PrefixMatchLimit t p k =
    Ok (let l := named m (fun rs => (fun suf => p +:+ string_of_runes suf) <$> strip (runes p) rs) in
        if k =? 0 then l else take (Z.to_nat k) l).
Proof.
  intros Hst Hp Hk. unfold PrefixMatchLimit. rewrite decide_False, (proj2 (Z.ltb_ge k 0)) by done.
  destruct (descend (root t) (runes p)) as [n|] eqn:Hn; cbn zeta.
  - rewrite (stands_collect t m n (runes p) p Hst Hn). set (l := named _ _).
    destruct (Z.eqb_spec k 0) as [->|]; [done|]. rewrite (proj2 (Z.ltb_lt 0 k)) by lia. cbn [andb].
    destruct (Z.ltb_spec k (Z.of_nat (length l))); [done|]. by rewrite take_ge by lia.
  - f_equal. set (l := named _ _). enough (l = []) as ->; [by rewrite take_nil; destruct (k =? 0)|].
    apply elem_of_nil_inv. intros r (rs & d & w & Hd & (suf & ->%strip_Some & ->)%fmap_Some & _)%elem_of_named.
    rewrite <- (sf_get _ _ Hst), node_get_app_None in Hd; done.
Qed.

Lemma stands_Wildcard t m p : stands_for t m ->
  sort_results (wildcardDFS (root t) p "" ([], ∅)).1 =
    named m (fun rs => if glob_match p rs then Some (string_of_runes rs) else None).
Proof.
  intros Hst. destruct (wildcardDFS_searched (root t) p "" ([], ∅)) as [Hok _ Hsd Hcp].
  assert (found_ok (D := D) ([], ∅)) as H0 by (split; [constructor|set_solver]).
  destruct (wildcardDFS _ _ _ _) as [l seen]. simpl in *. destruct (Hok H0) as [Hnd _]. simpl in Hnd.
  assert (forall rs d, node_get (root t) rs = Some d -> Forall scalar rs) as Hsc.
  { intros rs d. apply clean_get_scalar, (sf_clean _ _ Hst). }
  apply named_unique; [|done|].
  - intros rs1 rs2 w H1 H2 E1 E2. repeat case_match; simplify_eq.
    apply string_of_runes_inj; [by eapply stands_scalar..|done].
  - intros r. setoid_rewrite <- (sf_get _ _ Hst). split.
    + intros [Hr|(rs & d & [Hd Hm] & ->)]%Hsd; [set_solver|]. exists rs, d, (string_of_runes rs). by rewrite Hm.
    + intros (rs & d & w & Hd & Hw & ->). destruct (glob_match p rs) eqn:Hm; [|done]. injection Hw as <-.
      destruct (proj1 (list_elem_of_fmap _ _ _) (Hcp rs d H0 (conj Hd Hm))) as (r & E & Hr).
      destruct (Hsd r Hr) as [Hr'|(rs' & d' & [Hd' _] & ->)]; [set_solver|].
      apply string_of_runes_inj in E as <-; [|by eapply Hsc..]. rewrite Hd in Hd'. by injection Hd' as <-.
Qed.

(** ** Every history *)

Lemma trie_op_refines t m o : stands_for t m ->
  stands_for (trie_op t o).1 (dict_op m o).1 /\ (trie_op t o).2 = (dict_op m o).2.
Proof.
  intros Hst. destruct o as [w d|w|w|p k|p|q| |]; simpl.
  - destruct (decide (w = "")) as [->|Hw]; [done|]. destruct (stands_Insert t m w d Hst Hw) as (t' & -> & H'). done.
  - split; [done|]. f_equal. case_decide; [by subst|]. by apply stands_Search.
  - destruct (decide (w = "")) as [->|Hw]; [done|]. pose proof (stands_Delete t m w Hst Hw) as Hd.
    destruct (m !! runes w); [by destruct Hd as (t' & -> & H')|by rewrite Hd].
  - split; [done|]. f_equal. case_decide; [by subst|]. destruct (Z.ltb_spec k 0) as [Hk|Hk].
    + unfold PrefixMatchLimit. by rewrite decide_False, (proj2 (Z.ltb_lt k 0)).
    + by apply stands_PrefixMatch.
  - split; [done|]. unfold WildcardSearch. case_decide; [done|]. do 2 f_equal. by apply stands_Wildcard.
  - split; [done|]. unfold LongestMatch. case_decide; [done|]. rewrite longest_loop_spec.
    rewrite (prefix_words_ext _ (fun rs => m !! rs)) by apply Hst. by destruct (last _).
  - split; [done|]. f_equal. apply Hst.
  - split; [done|]. do 2 f_equal. by apply stands_collect_all.
Qed.

Fixpoint run (t : Trie D) (ops : list op) : Trie D :=
  match ops with [] => t | o :: ops => run (trie_op t o).1 ops end.

Fixpoint dict_run (m : dict) (ops : list op) : dict :=
  match ops with [] => m | o :: ops => dict_run (dict_op m o).1 ops end.

Lemma run_stands t m ops : stands_for t m -> stands_for (run t ops) (dict_run m ops).
Proof.
  revert t m. induction ops as [|o ops IH]; intros t m Hst; [done|]. by apply IH, trie_op_refines.
Qed.

(** C16: Every history of operations on a new trie gives the answers of a finite
    map from words (as runes) to data: insertion, search and deletion with
    their errors, the size, all words in order, the words under a prefix up to
    a limit, those that match a pattern of stars and dots, and the longest
    word a query begins with. *)
Theorem trie_refines_map ops : outputs trie_op NewTrie ops = outputs dict_op ∅ ops.
Proof.
  pose proof stands_new as Hst. revert Hst. generalize (NewTrie (D := D)) (∅ : dict).
  induction ops as [|o ops IH]; intros t m Hst; [done|]. simpl.
  destruct (trie_op_refines t m o Hst) as [H' E].
  destruct (trie_op t o), (dict_op m o). simpl in *. by rewrite E, (IH _ _ H').
Qed.

(** C37: in every trie that operations reach, data sits only on words, every
    branch leads to a word, every edge is a Unicode scalar value, and the size
    is the number of words. *)
Theorem trie_well_formed ops :
  clean (root (run NewTrie ops)) /\
  Size (run NewTrie ops) = Z.of_nat (length (GetAllWords (run NewTrie ops))).
Proof.
  destruct (run_stands NewTrie ∅ ops stands_new) as [Hc Hg Hs]. split; [done|]. unfold Size. rewrite Hs.
  rewrite (stands_collect_all _ (dict_run ∅ ops)) by done. unfold named, sort_results.
  rewrite (Permutation_length (sort_slice_perm Word _)). f_equal. rewrite <- length_map_to_list.
  by induction (map_to_list (dict_run ∅ ops)) as [|[rs d] l IH]; simpl; [|rewrite IH].
Qed.

(** Deleting a word that was just inserted, and was not there before, gives
    back the very same trie: no node and no count is left over. *)
Theorem delete_undoes_insert ops w d t :
  t = run NewTrie ops -> w <> "" -> Search t w = Ok (None, false) ->
  exists t', Insert t w d = Ok t' /\ Delete t' w = Ok t.
Proof.
  intros -> Hw Hs. pose proof (run_stands NewTrie ∅ ops stands_new) as Hst. set (t := run NewTrie ops) in *.
  destruct (stands_Insert t _ w d Hst Hw) as (t' & Hi & Hst'). exists t'. split; [done|].
  rewrite (stands_Search t _ w Hst Hw) in Hs. destruct (_ !! runes w) eqn:Hn; [done|].
  unfold Insert in Hi. rewrite decide_False in Hi by done. rewrite <- (sf_get _ _ Hst) in Hn.
  pose proof (insert_path_fresh (root t) (runes w) d) as Hf. rewrite Hn in Hf.
  destruct (delete_insert_path (root t) (runes w) d (sf_clean _ _ Hst) (runes_scalar w) Hn) as [b Hd].
  destruct (insert_path _ _ _) as [n fresh]. simpl in *. injection Hi as <-. subst fresh.
  unfold Delete. rewrite decide_False by done. simpl. rewrite Hd. f_equal. destruct t. simpl. f_equal. lia.
Qed.
End refinement.

Arguments op D : clear implicits.

Definition demo_ops : list (op Z) := [OInsert "tea" (Some 1); OInsert "ten" None; OInsert "to" (Some 3)].

Lemma delete_undoes_insert_witness :
  let t := run (H := stable_sort_slice) NewTrie demo_ops in
  exists t', Insert t "teapot" (Some 4) = Ok t' /\ Delete t' "teapot" = Ok t.
Proof.
  apply (delete_undoes_insert (H := stable_sort_slice) demo_ops "teapot" (Some 4)); [done|done|].
  vm_compute. reflexivity.
Defined.

Example wildcard_demo :
  outputs (trie_op (H := stable_sort_slice)) NewTrie
    (demo_ops ++ [OWildcardSearch "t*n"; OWildcardSearch "t."; OLongestMatch "teas"; OPrefixMatchLimit "t" 2]) =
  [RDone (Ok ()); RDone (Ok ()); RDone (Ok ());
   RWords (Ok [{| Word := "ten"; Data := None |}]); RWords (Ok [{| Word := "to"; Data := Some 3 |}]);
   RWord (Ok {| Word := "tea"; Data := Some 1 |});
   RWords (Ok [{| Word := "tea"; Data := Some 1 |}; {| Word := "ten"; Data := None |}])].
Proof. vm_compute. reflexivity. Qed.
