(* ===== verification/ChainHash.v ===== *)
(** chainhash: a ring of hashes for consistent hashing (chainhash.go, types.go,
    errors.go, serialize.go).

    The estimates are computed in IEEE arithmetic.  The digest of SHA-1, the JSON
    codec, the file system and what a conversion to int64 gives for a float that
    is none are the parameters of [RingEnv].  [MigrationInfo] values are
    produced in the order in which Go ranges over a map, which is not
    specified; the model takes the order of [map_to_list].  Values of the
    types [V] and [R] stand for the references that the code stores and hands
    out without looking at them (the data of nodes and of metadata). *)

From stdpp Require Import base tactics list gmap strings.
From Stdlib Require Import ZArith Lia SpecFloat.
From S2P Require Import Prelude GoStrings Ordered.

Definition DefaultVirtualNodes : Z := 100.
Definition DefaultWeight : Z := 1.
Definition MaxHashValue : Z := 2 ^ 64 - 1.
Definition CurrentVersion : Z := 1.

Inductive Error :=
| ErrNodeNotFound
| ErrNodeAlreadyExists
| ErrEmptyRing
| ErrInvalidWeight
| ErrInvalidVirtualNodes
| ErrEmptyNodeID
| ErrSerializationFailed
| ErrDeserializationFailed
| ErrFileIO
| PanicIndex.

#[export] Instance ring_error_eq_dec : EqDecision Error.
Proof. solve_decision. Defined.

Record HashRange := { Start : Z; End : Z }.

#[export] Instance hash_range_eq_dec : EqDecision HashRange.
Proof. solve_decision. Defined.

Record VirtualNode := { Hash : Z; NodeID : string; Index : Z }.

Record MigrationInfo := {
  AffectedRanges : list HashRange;
  FromNode : string;
  ToNode : string;
  EstimatedCount : Z;
  MTotalKeys : Z;
  MigrationRatio : float64;
}.

Section model.
Context {R V : Type}.

Record NodeInfo := { ID : string; Weight : Z; Addr : string; Data : R }.

#[export] Instance node_info_eta : Eta NodeInfo :=
  fun r => {| ID := ID r; Weight := Weight r; Addr := Addr r; Data := Data r |}.

Record RingSnapshot := {
  Version : Z;
  VirtualNodes : Z;
  Nodes : list NodeInfo;
  VNodes : list VirtualNode;
  TotalKeys : Z;
  Metadata : gmap string V;
}.

Record HashRing := {
  virtualNodes : Z;
  nodes : gmap string NodeInfo;
  vnodeMap : gmap Z string;
  ring : list Z;
  totalKeys : Z;
  metadata : gmap string V;
}.

#[export] Instance hash_ring_eta : Eta HashRing :=
  fun r => {| virtualNodes := virtualNodes r; nodes := nodes r; vnodeMap := vnodeMap r; ring := ring r;
              totalKeys := totalKeys r; metadata := metadata r |}.

(** What the package calls and does not define. *)
Class RingEnv := {
  sha1_Sum : string -> list Z;
  int64_wild : float64 -> Z;
  Bytes : Type;
  json_Marshal : RingSnapshot -> option Bytes;
  json_Unmarshal : Bytes -> option RingSnapshot;
  FS : Type;
  WriteFile : FS -> string -> Bytes -> option FS;
  ReadFile : FS -> string -> option Bytes;
}.

(** SHA-1 digests are 20 bytes. *)
Class RingEnvLaws `{!RingEnv} : Prop := {
  sha1_length s : length (sha1_Sum s) = 20%nat;
  sha1_bytes s : Forall is_byte (sha1_Sum s);
}.

Context `{!RingEnv, !SortSlice}.

Definition hashKey (key : string) : Z := be_decode (take 8 (sha1_Sum key)).

Definition generateVirtualKey (nodeID : string) (index : Z) : string :=
  nodeID +:+ "#vn" +:+ fmt_padded 0 index.

Definition NewHashRing (virtualNodes : Z) : result Error HashRing :=
  if virtualNodes <=? 0 then Err ErrInvalidVirtualNodes
  else Ok {| virtualNodes := virtualNodes; nodes := ∅; vnodeMap := ∅; ring := []; totalKeys := 0; metadata := ∅ |}.

Definition calculateVirtualNodeCount (hr : HashRing) (weight : Z) : Z :=
  let weight := if weight <=? 0 then DefaultWeight else weight in
  int64 (virtualNodes hr * weight).

Definition sort_hashes : list Z -> list Z := sort_slice (fun h => h).

Definition rebuildRing (hr : HashRing) : HashRing :=
  hr <| ring := sort_hashes (map_to_list (vnodeMap hr)).*1 |>.

(** The hashes of a node's virtual keys 0, ..., vnCount-1. *)
Definition vnode_hashes (nodeID : string) (vnCount : Z) : list Z :=
  (fun i => hashKey (generateVirtualKey nodeID i)) <$> seqZ 0 vnCount.

Definition add_vnodes (nodeID : string) (hs : list Z) (m : gmap Z string) : gmap Z string :=
  foldl (fun m h => <[h := nodeID]> m) m hs.

Definition remove_vnodes (hs : list Z) (m : gmap Z string) : gmap Z string :=
  foldl (fun m h => delete h m) m hs.

Definition AddNodeWithInfo (hr : HashRing) (info : NodeInfo) : result Error HashRing :=
  if decide (ID info = "") then Err ErrEmptyNodeID
  else if Weight info <=? 0 then Err ErrInvalidWeight
  else
    match nodes hr !! ID info with
    | Some _ => Err ErrNodeAlreadyExists
    | None =>
        let hs := vnode_hashes (ID info) (calculateVirtualNodeCount hr (Weight info)) in
        Ok (hr <| nodes := <[ID info := info]> (nodes hr) |>
               <| vnodeMap := add_vnodes (ID info) hs (vnodeMap hr) |>
               <| ring := sort_hashes (ring hr ++ hs) |>)
    end.

(** [nil_data] is the nil map. *)
Definition AddNode (nil_data : R) (hr : HashRing) (nodeID : string) (weight : Z) : result Error HashRing :=
  AddNodeWithInfo hr {| ID := nodeID; Weight := weight; Addr := ""; Data := nil_data |}.

(** ** Lookups *)

(** [sort.Search] for the first hash of the ring that is at least [hash]. *)
Definition search_ring (l : list Z) (hash : Z) : nat :=
  sort_Search (length l) (fun i => match l !! i with Some x => hash <=? x | None => true end).

(** The same, back to the start behind the last. *)
Definition ring_index (l : list Z) (hash : Z) : nat :=
  let idx := search_ring l hash in
  if (idx =? length l)%nat then 0%nat else idx.

(** [hr.vnodeMap[hr.ring[idx]]]. *)
Definition owner_at (hr : HashRing) (idx : nat) : result Error string :=
  match ring hr !! idx with
  | None => Err PanicIndex
  | Some h => Ok (default "" (vnodeMap hr !! h))
  end.

Definition GetNode (hr : HashRing) (key : string) : result Error string :=
  if (length (ring hr) =? 0)%nat then Err ErrEmptyRing
  else owner_at hr (ring_index (ring hr) (hashKey key)).

Fixpoint collect_nodes (hr : HashRing) (n : Z) (idx i rounds : nat) (visited : gset string) (result : list string) :
    Prelude.result Error (list string) :=
  match rounds with
  | O => Ok result
  | S rounds =>
      if Z.of_nat (length result) <? n then
        let? nodeID := owner_at hr ((idx + i) mod length (ring hr)) in
        if decide (nodeID ∈ visited) then collect_nodes hr n idx (S i) rounds visited result
        else collect_nodes hr n idx (S i) rounds ({[ nodeID ]} ∪ visited) (result ++ [nodeID])
      else Ok result
  end.

Definition GetNodes (hr : HashRing) (key : string) (n : Z) : result Error (list string) :=
  if (length (ring hr) =? 0)%nat then Err ErrEmptyRing
  else if n <=? 0 then Ok []
  else
    let n := if Z.of_nat (size (nodes hr)) <? n then Z.of_nat (size (nodes hr)) else n in
    collect_nodes hr n (ring_index (ring hr) (hashKey key)) 0 (length (ring hr)) ∅ [].

Definition NodeExists (hr : HashRing) (nodeID : string) : bool := bool_decide (is_Some (nodes hr !! nodeID)).

Definition GetNodeInfo (hr : HashRing) (nodeID : string) : result Error NodeInfo :=
  match nodes hr !! nodeID with None => Err ErrNodeNotFound | Some info => Ok info end.

Definition GetAllNodes (hr : HashRing) : list NodeInfo := (map_to_list (nodes hr)).*2.
Definition NodeCount (hr : HashRing) : Z := Z.of_nat (size (nodes hr)).
Definition VirtualNodeCount (hr : HashRing) : Z := Z.of_nat (size (vnodeMap hr)).
Definition SetTotalKeys (hr : HashRing) (count : Z) : HashRing := hr <| totalKeys := count |>.
Definition GetTotalKeys (hr : HashRing) : Z := totalKeys hr.
Definition GetMetadata (hr : HashRing) (key : string) : option V := metadata hr !! key.
Definition SetMetadata (hr : HashRing) (key : string) (value : V) : HashRing :=
  hr <| metadata := <[key := value]> (metadata hr) |>.

(** ** Migration estimates *)

Fixpoint merge_loop (current : HashRange) (ranges : list HashRange) : list HashRange :=
  match ranges with
  | [] => [current]
  | r :: ranges =>
      if Start r <=? uint64 (End current + 1) then
        merge_loop (if End current <? End r then {| Start := Start current; End := End r |} else current) ranges
      else current :: merge_loop r ranges
  end.

Definition mergeRanges (ranges : list HashRange) : list HashRange :=
  if (length ranges <=? 1)%nat then ranges
  else match sort_slice Start ranges with [] => [] | r :: ranges => merge_loop r ranges end.

Definition maxInt64 (a b : Z) : Z := if b <? a then a else b.

Definition range_size (r : HashRange) : Z :=
  if Start r <=? End r then End r - Start r + 1 else (MaxHashValue - Start r + 1) + End r.

(** [float64(a) / float64(b)] *)
Definition ratio (a b : Z) : float64 := SFdiv 53 1024 (float_of_int a) (float_of_int b).

Definition estimateAffectedKeys (hr : HashRing) (ranges : list HashRange) : Z :=
  if totalKeys hr <=? 0 then 0
  else
    let totalRange := foldl (fun total r => uint64 (total + range_size r)) 0 ranges in
    let estimate := SFmul 53 1024 (float_of_int (totalKeys hr)) (ratio totalRange MaxHashValue) in
    default (int64 (int64_wild estimate)) (int_of_float estimate).

(** The range that ends at [hash]: it starts behind the hash before it in [l]. *)
Definition range_to (l : list Z) (hash : Z) : result Error HashRange :=
  let idx := search_ring l hash in
  match (if (idx =? 0)%nat then last l else l !! (idx - 1)%nat) with
  | None => Err PanicIndex
  | Some h => Ok {| Start := uint64 (h + 1); End := hash |}
  end.

Fixpoint ranges_to (l : list Z) (hashes : list Z) : result Error (list HashRange) :=
  match hashes with
  | [] => Ok []
  | h :: hashes => let? r := range_to l h in let? rs := ranges_to l hashes in Ok (r :: rs)
  end.

(** The next owner clockwise of [idx] other than [nodeID]. *)
Fixpoint next_owner (hr : HashRing) (nodeID : string) (idx nextIdx rounds : nat) : result Error (option string) :=
  match rounds with
  | O => Ok None
  | S rounds =>
      if (nextIdx =? idx)%nat then Ok None
      else
        let? nextNode := owner_at hr nextIdx in
        if decide (nextNode = nodeID)
        then next_owner hr nodeID idx (S nextIdx mod length (ring hr)) rounds
        else Ok (Some nextNode)
  end.

Definition successor_of (hr : HashRing) (nodeID : string) (r : HashRange) : result Error (option string) :=
  let idx := ring_index (ring hr) (End r) in
  if (length (ring hr) =? 0)%nat then Err PanicIndex
  else next_owner hr nodeID idx (S idx mod length (ring hr)) (length (ring hr)).

Definition append_range (m : gmap string (list HashRange)) (node : string) (r : HashRange) :
    gmap string (list HashRange) :=
  <[node := default [] (m !! node) ++ [r]]> m.

Fixpoint successors (hr : HashRing) (nodeID : string) (ranges : list HashRange) (m : gmap string (list HashRange)) :
    result Error (gmap string (list HashRange)) :=
  match ranges with
  | [] => Ok m
  | r :: ranges =>
      let? node := successor_of hr nodeID r in
      successors hr nodeID ranges (match node with None => m | Some node => append_range m node r end)
  end.

Definition migration (hr : HashRing) (from to : string) (ranges : list HashRange) : MigrationInfo :=
  let estimatedCount := estimateAffectedKeys hr ranges in
  {| AffectedRanges := ranges; FromNode := from; ToNode := to; EstimatedCount := estimatedCount;
     MTotalKeys := totalKeys hr; MigrationRatio := ratio estimatedCount (maxInt64 (totalKeys hr) 1) |}.

Definition migrations_from (hr : HashRing) (nodeID : string) (m : gmap string (list HashRange)) : list MigrationInfo :=
  (fun '(to, ranges) => migration hr nodeID to (mergeRanges ranges)) <$> map_to_list m.

Definition calculateRemoveMigration (hr : HashRing) (nodeID : string) : result Error (list MigrationInfo) :=
  if (size (nodes hr) <=? 1)%nat then Ok []
  else
    match nodes hr !! nodeID with
    | None => Err PanicIndex
    | Some node =>
        let vnCount := calculateVirtualNodeCount hr (Weight node) in
        let? affectedRanges := ranges_to (ring hr) (vnode_hashes nodeID vnCount) in
        let? migrationMap := successors hr nodeID (mergeRanges affectedRanges) ∅ in
        Ok (migrations_from hr nodeID migrationMap)
    end.

Definition calculateWeightMigration (hr : HashRing) (nodeID : string) (oldWeight newWeight : Z) :
    result Error (list MigrationInfo) :=
  let oldVnCount := calculateVirtualNodeCount hr oldWeight in
  let newVnCount := calculateVirtualNodeCount hr newWeight in
  if oldVnCount =? newVnCount then Ok []
  else
    let oldHashes : gset Z := list_to_set (vnode_hashes nodeID oldVnCount) in
    let newHashes : gset Z := list_to_set (vnode_hashes nodeID newVnCount) in
    let? removedRanges := ranges_to (ring hr) (elements (oldHashes ∖ newHashes)) in
    let? addedRanges := ranges_to (ring hr) (elements (newHashes ∖ oldHashes)) in
    let? migrationMap := successors hr nodeID (mergeRanges removedRanges) ∅ in
    let addedRanges := mergeRanges addedRanges in
    Ok (migrations_from hr nodeID migrationMap ++
        (if (length addedRanges =? 0)%nat then [] else [migration hr "" nodeID addedRanges])).

Fixpoint former_owners (hr : HashRing) (ranges : list HashRange) (m : gmap string (list HashRange)) :
    result Error (gmap string (list HashRange)) :=
  match ranges with
  | [] => Ok m
  | r :: ranges =>
      let? fromNode := owner_at hr (ring_index (ring hr) (End r)) in
      former_owners hr ranges (append_range m fromNode r)
  end.

Definition CalculateAddMigration (hr : HashRing) (nodeID : string) (weight : Z) : result Error (list MigrationInfo) :=
  if decide (nodeID = "") then Err ErrEmptyNodeID
  else if weight <=? 0 then Err ErrInvalidWeight
  else
    match nodes hr !! nodeID with
    | Some _ => Err ErrNodeAlreadyExists
    | None =>
        let newHashes := sort_hashes (vnode_hashes nodeID (calculateVirtualNodeCount hr weight)) in
        let allHashes := sort_hashes (ring hr ++ newHashes) in
        let? affectedRanges := ranges_to allHashes newHashes in
        let? migrationMap := former_owners hr (mergeRanges affectedRanges) ∅ in
        Ok ((fun '(from, ranges) => migration hr from nodeID (mergeRanges ranges)) <$> map_to_list migrationMap)
    end.

(** ** Removing and reweighting *)

Definition RemoveNode (hr : HashRing) (nodeID : string) : result Error (HashRing * list MigrationInfo) :=
  if decide (nodeID = "") then Err ErrEmptyNodeID
  else
    match nodes hr !! nodeID with
    | None => Err ErrNodeNotFound
    | Some node =>
        let? migrationInfos := calculateRemoveMigration hr nodeID in
        let hs := vnode_hashes nodeID (calculateVirtualNodeCount hr (Weight node)) in
        Ok (rebuildRing (hr <| vnodeMap := remove_vnodes hs (vnodeMap hr) |>
                            <| nodes := delete nodeID (nodes hr) |>), migrationInfos)
    end.

Definition UpdateNodeWeight (hr : HashRing) (nodeID : string) (newWeight : Z) :
    result Error (HashRing * list MigrationInfo) :=
  if decide (nodeID = "") then Err ErrEmptyNodeID
  else if newWeight <=? 0 then Err ErrInvalidWeight
  else
    match nodes hr !! nodeID with
    | None => Err ErrNodeNotFound
    | Some node =>
        if Weight node =? newWeight then Ok (hr, [])
        else
          let? migrationInfos := calculateWeightMigration hr nodeID (Weight node) newWeight in
          let old := vnode_hashes nodeID (calculateVirtualNodeCount hr (Weight node)) in
          let new := vnode_hashes nodeID (calculateVirtualNodeCount hr newWeight) in
          Ok (rebuildRing (hr <| vnodeMap := add_vnodes nodeID new (remove_vnodes old (vnodeMap hr)) |>
                              <| nodes := <[nodeID := node <| Weight := newWeight |>]> (nodes hr) |>),
              migrationInfos)
    end.

(** ** Snapshots *)

Definition node_vnodes (hr : HashRing) (node : NodeInfo) : list VirtualNode :=
  (fun i => {| Hash := hashKey (generateVirtualKey (ID node) i); NodeID := ID node; Index := i |})
    <$> seqZ 0 (calculateVirtualNodeCount hr (Weight node)).

Definition Snapshot (hr : HashRing) : RingSnapshot :=
  {| Version := CurrentVersion;
     VirtualNodes := virtualNodes hr;
     Nodes := sort_slice ID (map_to_list (nodes hr)).*2;
     VNodes := sort_slice Hash (concat (node_vnodes hr <$> (map_to_list (nodes hr)).*2));
     TotalKeys := totalKeys hr;
     Metadata := metadata hr |}.

(** The loops of [Restore] stop at the first bad entry; the ring keeps what
    was stored before it. *)
Fixpoint restore_nodes (l : list NodeInfo) (m : gmap string NodeInfo) : gmap string NodeInfo * bool :=
  match l with
  | [] => (m, true)
  | node :: l =>
      if decide (ID node = "") then (m, false)
      else if Weight node <=? 0 then (m, false)
      else restore_nodes l (<[ID node := node]> m)
  end.

Fixpoint restore_vnodes (known : gmap string NodeInfo) (l : list VirtualNode) (m : gmap Z string) (r : list Z) :
    gmap Z string * list Z * bool :=
  match l with
  | [] => (m, r, true)
  | vn :: l =>
      match known !! NodeID vn with
      | None => (m, r, false)
      | Some _ => restore_vnodes known l (<[Hash vn := NodeID vn]> m) (r ++ [Hash vn])
      end
  end.

Definition Restore (hr : HashRing) (snapshot : option RingSnapshot) : HashRing * result Error () :=
  match snapshot with
  | None => (hr, Err ErrDeserializationFailed)
  | Some s =>
      if Version s <? 1 then (hr, Err ErrDeserializationFailed)
      else if VirtualNodes s <=? 0 then (hr, Err ErrInvalidVirtualNodes)
      else
        let hr := hr <| virtualNodes := VirtualNodes s |> <| totalKeys := TotalKeys s |> in
        let '(ns, ok) := restore_nodes (Nodes s) ∅ in
        let hr := hr <| nodes := ns |> in
        if negb ok then (hr, Err ErrDeserializationFailed)
        else
          let '(m, r, ok) := restore_vnodes ns (VNodes s) ∅ [] in
          let hr := hr <| vnodeMap := m |> <| ring := r |> in
          if negb ok then (hr, Err ErrDeserializationFailed)
          else (hr <| ring := sort_hashes r |> <| metadata := Metadata s |>, Ok ())
  end.

Definition MarshalJSON (hr : HashRing) : result Error Bytes :=
  match json_Marshal (Snapshot hr) with None => Err ErrSerializationFailed | Some data => Ok data end.

Definition UnmarshalJSON (hr : HashRing) (data : Bytes) : HashRing * result Error () :=
  match json_Unmarshal data with
  | None => (hr, Err ErrDeserializationFailed)
  | Some s => Restore hr (Some s)
  end.

Definition SaveToFile (hr : HashRing) (fs : FS) (path : string) : result Error FS :=
  let? data := MarshalJSON hr in
  match WriteFile fs path data with None => Err ErrFileIO | Some fs => Ok fs end.

Definition LoadFromFile (fs : FS) (path : string) : result Error HashRing :=
  match ReadFile fs path with
  | None => Err ErrFileIO
  | Some data =>
      let? hr := NewHashRing DefaultVirtualNodes in
      match UnmarshalJSON hr data with (hr, Ok _) => Ok hr | (_, Err e) => Err e end
  end.

End model.
