(* ===== verification/ChainHashProofs.v ===== *)
(** Consistent hashing: what the ring promises.

    A hash belongs to the virtual node at the least clockwise distance, so
    lookups in two rings are compared by comparing sets of hashes.  The
    theorems assume that the virtual nodes of the ring have different hashes
    ([collision_free]) and that a node's number of virtual nodes does not
    overflow. *)

From stdpp Require Import base tactics list gmap strings sorting.
From Stdlib Require Import ZArith Lia.
From S2P Require Import Prelude GoStrings Ordered ChainHash.

(** * The circle of hashes *)

Definition is_hash (h : Z) : Prop := 0 <= h < 2 ^ 64.

(** The clockwise distance from [h] to [x]. *)
Definition cdist (h x : Z) : Z := (x - h) mod 2 ^ 64.

Lemma cdist_cases h x : is_hash h -> is_hash x -> cdist h x = if h <=? x then x - h else x - h + 2 ^ 64.
Proof.
  unfold is_hash, cdist. intros Hh Hx. destruct (Z.leb_spec h x).
  - apply Z.mod_small. lia.
  - rewrite <- (Z_mod_plus_full (x - h) 1 (2 ^ 64)). rewrite Z.mod_small; lia.
Qed.

Lemma cdist_inj h x y : is_hash h -> is_hash x -> is_hash y -> cdist h x = cdist h y -> x = y.
Proof.
  intros Hh Hx Hy. rewrite !cdist_cases by done. unfold is_hash in *.
  destruct (Z.leb_spec h x), (Z.leb_spec h y); lia.
Qed.

(** The first of [S] from [h] clockwise. *)
Definition is_succ (S : Z -> Prop) (h x : Z) : Prop := S x /\ forall y, S y -> cdist h x <= cdist h y.

Lemma is_succ_unique (S : Z -> Prop) h x y :
  (forall z, S z -> is_hash z) -> is_hash h -> is_succ S h x -> is_succ S h y -> x = y.
Proof.
  intros HS Hh [Hx Hmx] [Hy Hmy]. apply (cdist_inj h); [done|by apply HS..|].
  specialize (Hmx y Hy). specialize (Hmy x Hx). lia.
Qed.

Lemma is_succ_mono (S S' : Z -> Prop) h x :
  (forall z, S' z -> S z) -> S' x -> is_succ S h x -> is_succ S' h x.
Proof. intros HS Hx [_ Hm]. split; [done|]. auto. Qed.

(** ** The binary search *)

Lemma sorted_lookup_lt l i j x y :
  StronglySorted Z.lt l -> (i < j)%nat -> l !! i = Some x -> l !! j = Some y -> x < y.
Proof.
  intros Hs. revert i j. induction Hs as [|a l Hs IH Ha]; intros i j Hij Hi Hj; [done|].
  destruct j as [|j]; [lia|]. destruct i as [|i]; simpl in *.
  - injection Hi as ->. rewrite Forall_forall in Ha. apply Ha. by eapply list_elem_of_lookup_2.
  - apply (IH i j); [lia|done|done].
Qed.

Lemma search_ring_spec l h :
  StronglySorted Z.lt l ->
  (search_ring l h <= length l)%nat /\
  (forall k x, l !! k = Some x -> (k < search_ring l h)%nat -> x < h) /\
  (forall k x, l !! k = Some x -> (search_ring l h <= k)%nat -> h <= x).
Proof.
  intros Hs. unfold search_ring. set (f := fun i => match l !! i with Some x => h <=? x | None => true end).
  destruct (sort_Search_spec (length l) f) as (Hn & Hlo & Hhi).
  - intros a b Hab. unfold f. destruct (l !! a) as [x|] eqn:Ha, (l !! b) as [y|] eqn:Hb; try done.
    + destruct (decide (a = b)) as [->|]; [by simplify_eq|].
      assert (x < y) by (apply (sorted_lookup_lt l a b); [done|lia|done|done]). intros ?%Z.leb_le. apply Z.leb_le. lia.
    + apply lookup_ge_None in Ha. lia.
  - split_and!; [done| |]; intros k x Hk Hlt.
    + specialize (Hlo k Hlt). unfold f in Hlo. rewrite Hk in Hlo. by apply Z.leb_gt.
    + pose proof (lookup_lt_Some _ _ _ Hk). specialize (Hhi k ltac:(lia)). unfold f in Hhi. rewrite Hk in Hhi.
      by apply Z.leb_le.
Qed.

Lemma ring_index_succ l h :
  StronglySorted Z.lt l -> Forall is_hash l -> l <> [] -> is_hash h ->
  exists x, l !! ring_index l h = Some x /\ is_succ (fun y => y ∈ l) h x.
Proof.
  intros Hs Hr Hne Hh. destruct (search_ring_spec l h Hs) as (Hn & Hlo & Hhi). unfold ring_index.
  assert (length l <> 0%nat) by (by destruct l). rewrite Forall_forall in Hr.
  destruct (Nat.eqb_spec (search_ring l h) (length l)) as [E|E].
  - destruct (l !! 0%nat) as [x|] eqn:H0; [|apply lookup_ge_None in H0; lia]. exists x. split; [done|].
    assert (x ∈ l) as Hx by (by eapply list_elem_of_lookup_2). split; [done|].
    intros y [k Hk]%list_elem_of_lookup_1. assert (y ∈ l) as Hy by (by eapply list_elem_of_lookup_2).
    pose proof (lookup_lt_Some _ _ _ Hk). rewrite !cdist_cases by auto.
    pose proof (Hlo k y Hk ltac:(lia)). pose proof (Hlo 0%nat x H0 ltac:(lia)).
    rewrite !(proj2 (Z.leb_gt _ _)) by lia. destruct (decide (k = 0%nat)) as [->|]; [by simplify_eq|].
    pose proof (sorted_lookup_lt l 0 k x y Hs ltac:(lia) H0 Hk). lia.
  - destruct (l !! search_ring l h) as [x|] eqn:Hx; [|apply lookup_ge_None in Hx; lia]. exists x. split; [done|].
    assert (x ∈ l) as Hin by (by eapply list_elem_of_lookup_2). split; [done|].
    intros y [k Hk]%list_elem_of_lookup_1. assert (y ∈ l) as Hy by (by eapply list_elem_of_lookup_2).
    pose proof (Hhi _ _ Hx ltac:(lia)). rewrite !cdist_cases by auto.
    rewrite (proj2 (Z.leb_le h x)) by lia. pose proof (Hr x Hin) as Hbx. pose proof (Hr y Hy) as Hby. unfold is_hash in *.
    destruct (decide (k < search_ring l h)%nat) as [Hlt|Hge].
    + pose proof (Hlo _ _ Hk Hlt). rewrite (proj2 (Z.leb_gt h y)) by lia. lia.
    + pose proof (Hhi _ _ Hk ltac:(lia)). rewrite (proj2 (Z.leb_le h y)) by lia.
      destruct (decide (k = search_ring l h)) as [->|]; [by simplify_eq|].
      pose proof (sorted_lookup_lt l (search_ring l h) k x y Hs ltac:(lia) Hx Hk). lia.
Qed.

(** * Rings *)

Section rings.
Context {R V : Type} `{ENV : !RingEnv (R := R) (V := V), LAWS : !RingEnvLaws, SRT : !SortSlice}.
Abbreviation HashRing := (@HashRing R V).
Implicit Types (hr : HashRing).

Definition vhash (id : string) (i : Z) : Z := hashKey (generateVirtualKey id i).

Lemma hashKey_range key : is_hash (hashKey key).
Proof.
  unfold hashKey, is_hash. set (bs := take 8 (sha1_Sum key)).
  assert (length bs = 8%nat) as Hl by (unfold bs; rewrite length_take, sha1_length; lia).
  assert (Forall is_byte bs) as Hb by (apply Forall_take, sha1_bytes).
  rewrite <- (be_encode_decode bs Hb), be_decode_encode, Hl. apply Z.mod_pos_bound. lia.
Qed.

(** [h] is the hash of a virtual node of [id]. *)
Definition active hr (id : string) (h : Z) : Prop :=
  exists info i, nodes hr !! id = Some info /\ 0 <= i < calculateVirtualNodeCount hr (Weight info) /\ h = vhash id i.

Definition collision_free hr : Prop :=
  forall id1 id2 info1 info2 i1 i2,
    nodes hr !! id1 = Some info1 -> nodes hr !! id2 = Some info2 ->
    0 <= i1 < calculateVirtualNodeCount hr (Weight info1) -> 0 <= i2 < calculateVirtualNodeCount hr (Weight info2) ->
    vhash id1 i1 = vhash id2 i2 -> id1 = id2 /\ i1 = i2.

(** The number of virtual nodes of every node fits an int. *)
Definition counts_fit hr : Prop :=
  forall id info, nodes hr !! id = Some info -> virtualNodes hr * Weight info < 2 ^ 63.

Record ring_ok hr : Prop := {
  ok_sorted : StronglySorted Z.lt (ring hr);
  ok_ring h : h ∈ ring hr <-> is_Some (vnodeMap hr !! h);
  ok_vnodes h id : vnodeMap hr !! h = Some id <-> active hr id h;
  ok_nodes id info : nodes hr !! id = Some info -> ID info = id /\ id <> "" /\ 0 < Weight info;
  ok_count : 0 < virtualNodes hr;
  ok_free : collision_free hr;
}.

Lemma count_fits hr id info : ring_ok hr -> counts_fit hr -> nodes hr !! id = Some info ->
  calculateVirtualNodeCount hr (Weight info) = virtualNodes hr * Weight info /\
  0 < calculateVirtualNodeCount hr (Weight info).
Proof.
  intros Hok Hf Hn. destruct (ok_nodes _ Hok _ _ Hn) as (_ & _ & Hw). pose proof (ok_count _ Hok).
  specialize (Hf _ _ Hn). unfold calculateVirtualNodeCount. rewrite (proj2 (Z.leb_gt _ _)) by lia.
  rewrite int64_small; nia.
Qed.

(** ** Updating the map of virtual nodes *)

Lemma elem_of_vnode_hashes id n h : h ∈ vnode_hashes id n <-> exists i, 0 <= i < n /\ h = vhash id i.
Proof.
  unfold vnode_hashes. rewrite list_elem_of_fmap. setoid_rewrite elem_of_seqZ. unfold vhash.
  split; intros (i & H1 & H2); exists i; split; (done || lia).
Qed.

Lemma lookup_add_vnodes id hs m h :
  add_vnodes id hs m !! h = if decide (h ∈ hs) then Some id else m !! h.
Proof.
  unfold add_vnodes. revert m. induction hs as [|x hs IH]; intros m; simpl; [done|]. rewrite IH.
  destruct (decide (h ∈ hs)) as [Hin|Hin]; [by rewrite decide_True by set_solver|].
  destruct (decide (h = x)) as [->|Hne].
  - rewrite lookup_insert_eq, decide_True by set_solver. done.
  - rewrite lookup_insert_ne, decide_False by set_solver. done.
Qed.

Lemma lookup_remove_vnodes hs m h :
  remove_vnodes hs m !! h = if decide (h ∈ hs) then None else m !! h.
Proof.
  unfold remove_vnodes. revert m. induction hs as [|x hs IH]; intros m; simpl; [done|]. rewrite IH.
  destruct (decide (h ∈ hs)) as [Hin|Hin]; [by rewrite decide_True by set_solver|].
  destruct (decide (h = x)) as [->|Hne].
  - rewrite lookup_delete_eq, decide_True by set_solver. done.
  - rewrite lookup_delete_ne, decide_False by set_solver. done.
Qed.

Lemma sort_hashes_strict l : NoDup l -> StronglySorted Z.lt (sort_hashes l).
Proof. intros Hl. unfold sort_hashes. eapply StronglySorted_impl; [|apply (sort_slice_strict (fun h : Z => h)); by rewrite list_fmap_id]. done. Qed.

Lemma elem_of_sort_hashes l h : h ∈ sort_hashes l <-> h ∈ l.
Proof. unfold sort_hashes. by rewrite (sort_slice_perm (fun h : Z => h) l). Qed.

Lemma sorted_nodup l : StronglySorted Z.lt l -> NoDup l.
Proof.
  induction 1 as [|a l Hs IH Ha]; constructor; [|done]. rewrite Forall_forall in Ha.
  intros Hin. specialize (Ha a Hin). lia.
Qed.

(** Sorted without repetition, a ring is determined by its elements. *)
Lemma sorted_hashes_ext l1 l2 :
  StronglySorted Z.lt l1 -> StronglySorted Z.lt l2 -> (forall h, h ∈ l1 <-> h ∈ l2) -> l1 = l2.
Proof.
  intros H1 H2 E.
  apply (sorted_perm_unique (fun h : Z => h)); [done| |].
  - eapply StronglySorted_impl; [|exact H2]. intros a b Hab Hba. change (b < a) in Hba. lia.
  - apply NoDup_Permutation; auto using sorted_nodup.
Qed.

Lemma rebuild_ok hr : StronglySorted Z.lt (ring (rebuildRing hr)) /\
  forall h, h ∈ ring (rebuildRing hr) <-> is_Some (vnodeMap hr !! h).
Proof.
  unfold rebuildRing. simpl. split; [apply sort_hashes_strict, NoDup_fst_map_to_list|].
  intros h. rewrite elem_of_sort_hashes, list_elem_of_fmap. split.
  - intros ([h' id] & -> & Hin%elem_of_map_to_list). by eexists.
  - intros [id Hid]. exists (h, id). by rewrite elem_of_map_to_list.
Qed.

(** ** The operations keep the ring in order *)

Lemma active_range hr id h : active hr id h -> is_hash h.
Proof. intros (info & i & _ & _ & ->). apply hashKey_range. Qed.

Lemma active_owner hr id1 id2 h : collision_free hr -> active hr id1 h -> active hr id2 h -> id1 = id2.
Proof. intros Hf (n1 & i1 & H1 & B1 & E1) (n2 & i2 & H2 & B2 & E2). eapply Hf; eauto. congruence. Qed.

Lemma ring_active hr h : ring_ok hr -> h ∈ ring hr <-> exists id, active hr id h.
Proof. intros Hok. rewrite (ok_ring _ Hok). setoid_rewrite <- (ok_vnodes _ Hok). done. Qed.

Lemma active_hashes hr id info h : nodes hr !! id = Some info ->
  active hr id h <-> h ∈ vnode_hashes id (calculateVirtualNodeCount hr (Weight info)).
Proof.
  intros Hn. rewrite elem_of_vnode_hashes. split.
  - intros (info' & i & Hn' & Hi & ->). simplify_eq. eauto.
  - intros (i & Hi & ->). by exists info, i.
Qed.

Lemma ring_nodup hr : ring_ok hr -> NoDup (ring hr).
Proof. intros Hok. apply sorted_nodup, Hok. Qed.

Lemma vnode_hashes_nodup hr id info : collision_free hr -> nodes hr !! id = Some info ->
  NoDup (vnode_hashes id (calculateVirtualNodeCount hr (Weight info))).
Proof.
  intros Hf Hn. unfold vnode_hashes. apply NoDup_fmap_2_strong; [|apply NoDup_seqZ].
  intros i1 i2 H1%elem_of_seqZ H2%elem_of_seqZ E.
  destruct (Hf id id info info i1 i2 Hn Hn ltac:(lia) ltac:(lia) E) as [_ ?]. done.
Qed.

Lemma NewHashRing_ok n hr : NewHashRing n = Ok hr -> ring_ok hr.
Proof.
  unfold NewHashRing. destruct (Z.leb_spec n 0); [done|]. intros [= <-].
  split; simpl; [constructor| | | |done|]; unfold collision_free, active; simpl.
  - intros h. rewrite lookup_empty, is_Some_alt. set_solver.
  - intros h id. rewrite lookup_empty. split; [done|]. intros (info & i & Hn & _). by rewrite lookup_empty in Hn.
  - intros id info. by rewrite lookup_empty.
  - intros. by rewrite lookup_empty in *.
Qed.

Lemma AddNode_inv hr info hr' : AddNodeWithInfo hr info = Ok hr' ->
  ID info <> "" /\ 0 < Weight info /\ nodes hr !! ID info = None /\
  nodes hr' = <[ID info := info]> (nodes hr) /\ virtualNodes hr' = virtualNodes hr /\
  let hs := vnode_hashes (ID info) (calculateVirtualNodeCount hr (Weight info)) in
  vnodeMap hr' = add_vnodes (ID info) hs (vnodeMap hr) /\ ring hr' = sort_hashes (ring hr ++ hs).
Proof.
  unfold AddNodeWithInfo. intros H. case_decide; [done|]. destruct (Z.leb_spec (Weight info) 0); [done|].
  destruct (nodes hr !! ID info) eqn:E; [done|]. by injection H as <-.
Qed.

Lemma count_same hr hr' w : virtualNodes hr' = virtualNodes hr ->
  calculateVirtualNodeCount hr' w = calculateVirtualNodeCount hr w.
Proof. intros E. unfold calculateVirtualNodeCount. by rewrite E. Qed.

Lemma active_insert hr hr' n info id h :
  nodes hr' = <[n := info]> (nodes hr) -> virtualNodes hr' = virtualNodes hr ->
  active hr' id h <->
    (id = n /\ h ∈ vnode_hashes n (calculateVirtualNodeCount hr (Weight info))) \/ (id <> n /\ active hr id h).
Proof.
  intros Hn Hv. rewrite elem_of_vnode_hashes. unfold active. rewrite Hn. setoid_rewrite (count_same hr hr' _ Hv). split.
  - intros (info' & i & [[<- <-]|[Hne Hid]]%lookup_insert_Some & Hi & ->); [left; eauto|right; eauto 10].
  - intros [[-> (i & Hi & ->)]|[Hne (info' & i & Hid & Hi & ->)]].
    + exists info, i. by rewrite lookup_insert_eq.
    + exists info', i. by rewrite lookup_insert_ne.
Qed.

Lemma AddNode_active hr info hr' id h : AddNodeWithInfo hr info = Ok hr' ->
  active hr' id h <-> (id = ID info /\ h ∈ vnode_hashes (ID info) (calculateVirtualNodeCount hr (Weight info))) \/ active hr id h.
Proof.
  intros (_ & _ & Hnone & Hn & Hv & _)%AddNode_inv. rewrite (active_insert hr hr' _ info id h Hn Hv).
  split; [naive_solver|]. intros [?|Ha]; [naive_solver|]. right. split; [|done]. intros ->.
  destruct Ha as (? & ? & Hs & _). congruence.
Qed.

Lemma AddNode_ok hr info hr' :
  ring_ok hr -> AddNodeWithInfo hr info = Ok hr' -> collision_free hr' -> ring_ok hr'.
Proof.
  intros Hok Ha Hf. destruct (AddNode_inv _ _ _ Ha) as (Hne & Hw & Hnone & Hn & Hv & Hm & Hr).
  set (hs := vnode_hashes _ _) in *.
  assert (forall h id, h ∈ hs -> active hr id h -> False) as Hdis.
  { intros h id Hh Hid. assert (id = ID info) as ->.
    { apply (active_owner hr' _ _ h Hf); apply (AddNode_active _ _ _ _ _ Ha); auto. }
    destruct Hid as (? & ? & Hs & _). congruence. }
  assert (forall h id, vnodeMap hr' !! h = Some id <-> active hr' id h) as Hvn.
  { intros h id. rewrite Hm, lookup_add_vnodes, (AddNode_active _ _ _ _ _ Ha). fold hs. rewrite <- (ok_vnodes _ Hok).
    case_decide as Hin; split; [naive_solver| |naive_solver|naive_solver].
    intros [[-> _]|Hid]; [done|]. apply (ok_vnodes _ Hok) in Hid. by destruct (Hdis h id). }
  assert (forall h, h ∈ ring hr' <-> is_Some (vnodeMap hr' !! h)) as Hring.
  { intros h. rewrite Hr, elem_of_sort_hashes, elem_of_app, (ok_ring _ Hok), Hm, lookup_add_vnodes.
    case_decide; split; [by eauto|by auto|naive_solver|naive_solver]. }
  split; [|done|done| |by rewrite Hv; apply Hok|done].
  - rewrite Hr. apply sort_hashes_strict, NoDup_app. split_and!; [by apply ring_nodup| |].
    + intros h [id Hid]%(ring_active hr h Hok) Hh. by eapply Hdis.
    + unfold hs. rewrite <- (count_same hr hr') by done. apply vnode_hashes_nodup; [done|]. by rewrite Hn, lookup_insert_eq.
  - intros id info'. rewrite Hn. intros [[<- <-]|[_ H']]%lookup_insert_Some; [done|]. by apply Hok.
Qed.

(** The state that removing a node leaves. *)
Definition removed hr (id : string) (node : NodeInfo (R := R)) : HashRing :=
  rebuildRing (hr <| vnodeMap := remove_vnodes (vnode_hashes id (calculateVirtualNodeCount hr (Weight node))) (vnodeMap hr) |>
                  <| nodes := delete id (nodes hr) |>).

Lemma RemoveNode_inv hr id hr' ms : RemoveNode hr id = Ok (hr', ms) ->
  exists node, nodes hr !! id = Some node /\ hr' = removed hr id node /\ calculateRemoveMigration hr id = Ok ms.
Proof.
  unfold RemoveNode. case_decide; [done|]. destruct (nodes hr !! id) as [node|] eqn:E; [|done].
  destruct (calculateRemoveMigration hr id) as [l|]; [|done]. simpl. intros [= <- <-]. eauto.
Qed.

Lemma removed_active hr id node id' h :
  nodes hr !! id = Some node -> active (removed hr id node) id' h <-> id' <> id /\ active hr id' h.
Proof.
  intros Hn. unfold active, removed. simpl. split.
  - intros (info & i & [Hne Hi]%lookup_delete_Some & Hb & ->). split; [done|]. eauto.
  - intros [Hne (info & i & Hi & Hb & ->)]. exists info, i. by rewrite lookup_delete_ne.
Qed.

Lemma removed_ok hr id node : ring_ok hr -> nodes hr !! id = Some node -> ring_ok (removed hr id node).
Proof.
  intros Hok Hn. unfold removed. set (hs := vnode_hashes _ _). set (hr1 := _ <| nodes := _ |>).
  destruct (rebuild_ok hr1) as [Hs Hr]. split; [done|done| | |apply Hok|].
  - intros h id'. change (vnodeMap hr1 !! h = Some id' <-> active (removed hr id node) id' h).
    rewrite removed_active by done. unfold hr1. simpl. rewrite lookup_remove_vnodes, <- (ok_vnodes _ Hok).
    unfold hs. case_decide as Hin; rewrite <- (active_hashes hr id node h Hn), <- (ok_vnodes _ Hok) in Hin; naive_solver.
  - intros id' info. unfold hr1. simpl. intros [_ H']%lookup_delete_Some. by apply Hok.
  - intros id1 id2 n1 n2 i1 i2. unfold hr1. simpl. intros [_ H1]%lookup_delete_Some [_ H2]%lookup_delete_Some.
    by apply (ok_free _ Hok).
Qed.

Definition reweighted hr (id : string) (node : NodeInfo (R := R)) (w : Z) : HashRing :=
  let old := vnode_hashes id (calculateVirtualNodeCount hr (Weight node)) in
  let new := vnode_hashes id (calculateVirtualNodeCount hr w) in
  rebuildRing (hr <| vnodeMap := add_vnodes id new (remove_vnodes old (vnodeMap hr)) |>
                  <| nodes := <[id := node <| Weight := w |>]> (nodes hr) |>).

Lemma UpdateNodeWeight_inv hr id w hr' ms : UpdateNodeWeight hr id w = Ok (hr', ms) ->
  0 < w /\ exists node, nodes hr !! id = Some node /\
    ((Weight node = w /\ hr' = hr) \/ (Weight node <> w /\ hr' = reweighted hr id node w)).
Proof.
  unfold UpdateNodeWeight. case_decide; [done|]. destruct (Z.leb_spec w 0); [done|].
  destruct (nodes hr !! id) as [node|] eqn:E; [|done]. destruct (Z.eqb_spec (Weight node) w).
  - intros [= <- <-]. naive_solver.
  - destruct (calculateWeightMigration _ _ _ _) as [l|]; [|done]. intros [= <- <-]. naive_solver.
Qed.

Lemma reweighted_active hr id node w id' h :
  active (reweighted hr id node w) id' h <->
    (id' = id /\ h ∈ vnode_hashes id (calculateVirtualNodeCount hr w)) \/ (id' <> id /\ active hr id' h).
Proof. by rewrite (active_insert hr _ id (node <| Weight := w |>) id' h). Qed.

Lemma reweighted_ok hr id node w : ring_ok hr -> nodes hr !! id = Some node -> 0 < w ->
  collision_free (reweighted hr id node w) -> ring_ok (reweighted hr id node w).
Proof.
  intros Hok Hn Hw Hf. pose proof (reweighted_active hr id node w) as Hact. revert Hf Hact. unfold reweighted.
  set (old := vnode_hashes id (calculateVirtualNodeCount hr (Weight node))).
  set (new := vnode_hashes id (calculateVirtualNodeCount hr w)). set (hr1 := _ <| nodes := _ |>). intros Hf Hact.
  destruct (rebuild_ok hr1) as [Hs Hr]. split; [done|done| | |apply Hok|done].
  - intros h id'. rewrite Hact. unfold hr1. simpl. rewrite lookup_add_vnodes, lookup_remove_vnodes, <- (ok_vnodes _ Hok).
    case_decide as Hin; [|case_decide as Hin'].
    + split; [naive_solver|]. intros [[-> _]|[Hne Ha]]; [done|]. f_equal.
      apply (active_owner (rebuildRing hr1) _ _ h Hf); apply Hact; [by left|right]. by rewrite <- (ok_vnodes _ Hok).
    + unfold old in Hin'. rewrite <- (active_hashes hr id node h Hn), <- (ok_vnodes _ Hok) in Hin'. naive_solver.
    + unfold old in Hin'. rewrite <- (active_hashes hr id node h Hn), <- (ok_vnodes _ Hok) in Hin'. naive_solver.
  - intros id' info. unfold hr1. simpl. intros [[<- <-]|[_ H']]%lookup_insert_Some; [|by apply Hok].
    simpl. destruct (ok_nodes _ Hok _ _ Hn) as (? & ? & ?). done.
Qed.

(** ** Lookups find the next virtual node clockwise *)

Definition vnode hr (h : Z) : Prop := exists id, active hr id h.

Lemma GetNode_Ok hr key id : ring_ok hr ->
  GetNode hr key = Ok id <-> exists x, is_succ (vnode hr) (hashKey key) x /\ active hr id x.
Proof.
  intros Hok. unfold GetNode, owner_at. destruct (Nat.eqb_spec (length (ring hr)) 0) as [E|E].
  - split; [done|]. intros (x & [Hx%ring_active _] & _); [|done]. by destruct (ring hr); [apply elem_of_nil in Hx|].
  - destruct (ring_index_succ (ring hr) (hashKey key)) as (x & -> & Hx).
    + apply Hok.
    + apply Forall_forall. intros h [id' Ha]%(ring_active hr h Hok). by eapply active_range.
    + by destruct (ring hr).
    + apply hashKey_range.
    + assert (is_succ (vnode hr) (hashKey key) x) as Hx'.
      { destruct Hx as [Hin Hm]. split; [by apply ring_active|]. intros y Hy%ring_active; auto. }
      destruct Hx' as [[id' Ha] Hm]. pose proof Ha as Hl. apply (ok_vnodes _ Hok) in Hl. rewrite Hl. simpl. split.
      * intros [= <-]. exists x. split; [|done]. split; [by exists id'|done].
      * intros (y & Hy & Hay). assert (x = y) as <-.
        { eapply (is_succ_unique (vnode hr)); [|apply hashKey_range|split; [by exists id'|exact Hm]|done].
          intros z [? Hz]. by eapply active_range. }
        f_equal. eapply active_owner; [apply Hok|done..].
Qed.

Lemma GetNode_cases hr key : ring_ok hr ->
  (exists id, GetNode hr key = Ok id) \/ (GetNode hr key = Err ErrEmptyRing /\ forall h, ~ vnode hr h).
Proof.
  intros Hok. unfold GetNode. destruct (Nat.eqb_spec (length (ring hr)) 0) as [E|E].
  - right. split; [done|]. intros h Hh%(ring_active hr h Hok). by destruct (ring hr); [apply elem_of_nil in Hh|].
  - left. unfold owner_at. destruct (ring_index_succ (ring hr) (hashKey key)) as (x & -> & Hx); [apply Hok| | | |eauto].
    + apply Forall_forall. intros h [id' Ha]%(ring_active hr h Hok). by eapply active_range.
    + by destruct (ring hr).
    + apply hashKey_range.
Qed.

(** A ring with more virtual nodes, all of one node, sends keys only there. *)
Lemma grown_lookup hr hr' n key :
  ring_ok hr -> ring_ok hr' ->
  (forall id h, active hr id h -> active hr' id h) ->
  (forall id h, active hr' id h -> active hr id h \/ id = n) ->
  GetNode hr' key = GetNode hr key \/ GetNode hr' key = Ok n.
Proof.
  intros Hok Hok' Hsub Hnew. destruct (GetNode_cases hr' key Hok') as [[id Hid]|[He Hno]].
  - pose proof Hid as (x & Hx & Ha)%GetNode_Ok; [|done]. destruct (Hnew _ _ Ha) as [Ha'| ->]; [|by right].
    left. rewrite Hid. symmetry. apply GetNode_Ok; [done|]. exists x. split; [|done].
    eapply is_succ_mono; [|by exists id|exact Hx]. intros z [id' Hz]. exists id'. auto.
  - left. destruct (GetNode_cases hr key Hok) as [[id (x & _ & Ha)%GetNode_Ok]|[-> _]]; [|done|by rewrite He].
    destruct (Hno x). exists id. auto.
Qed.

(** ** The estimates do not fail *)

Lemma range_to_Ok l h : StronglySorted Z.lt l -> l <> [] -> exists r, range_to l h = Ok r.
Proof.
  intros Hs Hne. unfold range_to. destruct (search_ring_spec l h Hs) as (Hn & _ & _).
  assert (length l <> 0%nat) by (by destruct l). destruct (Nat.eqb_spec (search_ring l h) 0).
  - destruct (last l) eqn:E; [by eauto|]. by apply last_None in E.
  - destruct (l !! (search_ring l h - 1)%nat) eqn:E; [by eauto|]. apply lookup_ge_None in E. lia.
Qed.

Lemma ranges_to_Ok l hs : StronglySorted Z.lt l -> l <> [] -> exists rs, ranges_to l hs = Ok rs.
Proof.
  intros Hs Hne. induction hs as [|h hs [rs IH]]; simpl; [by eauto|].
  destruct (range_to_Ok l h Hs Hne) as [r ->]. rewrite IH. simpl. eauto.
Qed.

Lemma owner_at_Ok hr i : (i < length (ring hr))%nat -> exists id, owner_at hr i = Ok id.
Proof.
  intros Hi. unfold owner_at. destruct (ring hr !! i) eqn:E; [by eauto|]. apply lookup_ge_None in E. lia.
Qed.

Lemma successor_of_Ok hr id r : ring hr <> [] -> exists o, successor_of hr id r = Ok o.
Proof.
  intros Hne. unfold successor_of. assert (length (ring hr) <> 0%nat) as Hl by (by destruct (ring hr)).
  rewrite (proj2 (Nat.eqb_neq _ _) Hl). set (idx := ring_index _ _).
  assert (S idx mod length (ring hr) < length (ring hr))%nat as Hn by (by apply Nat.mod_upper_bound).
  revert Hn. generalize (S idx mod length (ring hr))%nat. generalize (length (ring hr)) at 2.
  intros rounds. induction rounds as [|rounds IH]; intros j Hj; simpl; [by eauto|].
  destruct (j =? idx)%nat; [by eauto|]. destruct (owner_at_Ok hr j Hj) as [n ->]. simpl.
  case_decide; [|by eauto]. apply IH. by apply Nat.mod_upper_bound.
Qed.

Lemma successors_Ok hr id rs m : ring hr <> [] -> exists m', successors hr id rs m = Ok m'.
Proof.
  intros Hne. revert m. induction rs as [|r rs IH]; intros m; simpl; [by eauto|].
  destruct (successor_of_Ok hr id r Hne) as [o ->]. simpl. apply IH.
Qed.

Lemma RemoveNode_Ok hr id node : ring_ok hr -> nodes hr !! id = Some node ->
  exists ms, RemoveNode hr id = Ok (removed hr id node, ms).
Proof.
  intros Hok Hn. unfold RemoveNode. destruct (ok_nodes _ Hok _ _ Hn) as (_ & Hne & _).
  rewrite decide_False, Hn by done. unfold calculateRemoveMigration. rewrite Hn.
  destruct (size (nodes hr) <=? 1)%nat; [by eexists|].
  destruct (decide (ring hr = [])) as [Hr|Hr].
  - assert (vnode_hashes id (calculateVirtualNodeCount hr (Weight node)) = []) as E.
    { apply elem_of_nil_inv. intros h Hh%(active_hashes hr id node h Hn).
      assert (h ∈ ring hr) as Hin by (apply ring_active; [done|by exists id]). rewrite Hr in Hin. by apply elem_of_nil in Hin. }
    unfold removed. rewrite E. simpl. by eexists.
  - destruct (ranges_to_Ok (ring hr) (vnode_hashes id (calculateVirtualNodeCount hr (Weight node)))) as [rs ->];
      [apply Hok|done|]. simpl. destruct (successors_Ok hr id (mergeRanges rs) ∅ Hr) as [m ->]. simpl. by eexists.
Qed.

(** A heavier node has more virtual nodes. *)
Lemma weights_nested hr id node w :
  ring_ok hr -> nodes hr !! id = Some node -> 0 < w -> counts_fit hr -> counts_fit (reweighted hr id node w) ->
  collision_free (reweighted hr id node w) ->
  (Weight node <= w -> forall id' h, active hr id' h -> active (reweighted hr id node w) id' h) /\
  (w <= Weight node -> forall id' h, active (reweighted hr id node w) id' h -> active hr id' h).
Proof.
  intros Hok Hn Hw Hc Hc' Hf. destruct (count_fits hr id node Hok Hc Hn) as [E1 _].
  assert (nodes (reweighted hr id node w) !! id = Some (node <| Weight := w |>)) as Hn' by (simpl; apply lookup_insert_eq).
  destruct (count_fits _ id _ (reweighted_ok _ _ _ _ Hok Hn Hw Hf) Hc' Hn') as [E2 _]. simpl in E2.
  change (calculateVirtualNodeCount hr w = virtualNodes hr * w) in E2. pose proof (ok_count _ Hok).
  assert (forall h, active hr id h <-> exists i, 0 <= i < virtualNodes hr * Weight node /\ h = vhash id i) as Ha.
  { intros h. by rewrite (active_hashes hr id node h Hn), elem_of_vnode_hashes, E1. }
  split; intros Hle id' h; rewrite reweighted_active, elem_of_vnode_hashes, E2.
  - intros Hact. destruct (decide (id' = id)) as [->|]; [left|by right]. apply Ha in Hact as (i & Hi & ->).
    split; [done|]. exists i. split; [nia|done].
  - intros [[-> (i & Hi & ->)]|[_ ?]]; [|done]. apply Ha. exists i. split; [nia|done].
Qed.

(** ** Reachable rings *)

Inductive reachable : HashRing -> Prop :=
| reach_new n hr : NewHashRing n = Ok hr -> reachable hr
| reach_add hr info hr' :
    reachable hr -> AddNodeWithInfo hr info = Ok hr' -> collision_free hr' -> reachable hr'
| reach_remove hr id hr' ms : reachable hr -> RemoveNode hr id = Ok (hr', ms) -> reachable hr'
| reach_weight hr id w hr' ms :
    reachable hr -> UpdateNodeWeight hr id w = Ok (hr', ms) -> collision_free hr' -> reachable hr'
| reach_keys hr n : reachable hr -> reachable (SetTotalKeys hr n)
| reach_meta hr k v : reachable hr -> reachable (SetMetadata hr k v).

Lemma reachable_ok hr : reachable hr -> ring_ok hr.
Proof.
  induction 1 as [n hr Hn|hr info hr' _ IH Ha Hf|hr id hr' ms _ IH Hr|hr id w hr' ms _ IH Hu Hf|hr n _ IH|hr k v _ IH].
  - by eapply NewHashRing_ok.
  - by eapply AddNode_ok.
  - apply RemoveNode_inv in Hr as (node & Hn & -> & _). by apply removed_ok.
  - apply UpdateNodeWeight_inv in Hu as (Hw & node & Hn & [[_ ->]|[_ ->]]); [done|]. by apply reweighted_ok.
  - by destruct IH.
  - by destruct IH.
Qed.

(** C15: Consistent hashing: adding a node moves keys only to it, removing a node
    (which always succeeds for a node of the ring) moves only its own keys and
    none to it, and a change of weight moves keys only to a node that becomes
    heavier and only from a node that becomes lighter. *)
Theorem ring_minimal_disruption hr key :
  reachable hr ->
  (forall info hr', AddNodeWithInfo hr info = Ok hr' -> collision_free hr' ->
     GetNode hr' key = GetNode hr key \/ GetNode hr' key = Ok (ID info)) /\
  (forall id, is_Some (nodes hr !! id) -> exists hr' ms, RemoveNode hr id = Ok (hr', ms) /\
     GetNode hr' key <> Ok id /\ (GetNode hr key <> Ok id -> GetNode hr' key = GetNode hr key)) /\
  (forall id w hr' ms, UpdateNodeWeight hr id w = Ok (hr', ms) -> collision_free hr' -> counts_fit hr -> counts_fit hr' ->
     exists node, nodes hr !! id = Some node /\
     (Weight node <= w -> GetNode hr' key = GetNode hr key \/ GetNode hr' key = Ok id) /\
     (w <= Weight node -> GetNode hr key <> Ok id -> GetNode hr' key = GetNode hr key)).
Proof.
  intros Hok%reachable_ok. split_and!.
  - intros info hr' Ha Hf. pose proof (AddNode_ok _ _ _ Hok Ha Hf) as Hok'. apply grown_lookup; [done|done| |];
      intros id h; rewrite (AddNode_active _ _ _ _ _ Ha); naive_solver.
  - intros id [node Hn]. destruct (RemoveNode_Ok hr id node Hok Hn) as [ms ->]. eexists _, ms. split; [done|].
    pose proof (removed_ok _ _ _ Hok Hn) as Hok'. pose proof (removed_active hr id node) as Hact. split.
    + intros (x & _ & Ha)%GetNode_Ok; [|done]. by apply Hact in Ha as [? _].
    + intros Hne. destruct (grown_lookup (removed hr id node) hr id key) as [->|]; [done|done|..|done|done].
      * intros id' h [_ Ha]%Hact; done.
      * intros id' h Ha. destruct (decide (id' = id)); [by right|left]. by apply Hact.
  - intros id w hr' ms Hu Hf Hc Hc'. apply UpdateNodeWeight_inv in Hu as (Hw & node & Hn & [[_ ->]|[Hne ->]]); [by eauto|].
    exists node. split; [done|]. pose proof (reweighted_ok _ _ _ _ Hok Hn Hw Hf) as Hok'.
    destruct (weights_nested hr id node w Hok Hn Hw Hc Hc' Hf) as [Hup Hdown]. split.
    + intros Hle. apply grown_lookup; [done|done|by apply Hup|]. intros id' h. rewrite reweighted_active. naive_solver.
    + intros Hle Hkey. destruct (grown_lookup (reweighted hr id node w) hr id key) as [->|]; [done|done|by apply Hdown| |done|done].
      intros id' h Ha. destruct (decide (id' = id)); [by right|left]. apply reweighted_active. by right.
Qed.

(** ** Replicas *)

Lemma owner_at_registered hr i : ring_ok hr -> (i < length (ring hr))%nat ->
  exists id h, owner_at hr i = Ok id /\ ring hr !! i = Some h /\ active hr id h /\ is_Some (nodes hr !! id).
Proof.
  intros Hok Hi. unfold owner_at. destruct (ring hr !! i) as [h|] eqn:E; [|apply lookup_ge_None in E; lia].
  assert (h ∈ ring hr) as [id Ha]%(ring_active hr h Hok) by (by eapply list_elem_of_lookup_2).
  pose proof Ha as Hl. apply (ok_vnodes _ Hok) in Hl. rewrite Hl. exists id, h. split_and!; [done..|].
  destruct Ha as (info & i' & Hn & _). by eexists.
Qed.

(** What the loop of [GetNodes] has collected after [i] steps. *)
Record collected hr (n : Z) (idx i : nat) (visited : gset string) (l : list string) : Prop := {
  col_visited id : id ∈ visited <-> id ∈ l;
  col_nodup : NoDup l;
  col_nodes id : id ∈ l -> is_Some (nodes hr !! id);
  col_seen k id : (k < i)%nat -> owner_at hr ((idx + k) mod length (ring hr)) = Ok id -> id ∈ l;
  col_head : (0 < i)%nat -> exists id, owner_at hr (idx mod length (ring hr)) = Ok id /\ head l = Some id;
  col_le : Z.of_nat (length l) <= n;
}.

Lemma collect_nodes_spec hr n idx i rounds visited l :
  ring_ok hr -> ring hr <> [] -> 0 < n -> collected hr n idx i visited l -> (i = 0%nat -> l = []) ->
  (0 < i + rounds)%nat ->
  exists l' i' visited', collect_nodes hr n idx i rounds visited l = Ok l' /\ collected hr n idx i' visited' l' /\
    (0 < i')%nat /\ (Z.of_nat (length l') = n \/ i' = (i + rounds)%nat).
Proof.
  intros Hok Hne Hn. assert (length (ring hr) <> 0%nat) as Hl by (by destruct (ring hr)).
  revert i visited l. induction rounds as [|rounds IH]; intros i visited l Hc Hi Hpos; simpl.
  { exists l, i, visited. split_and!; [done|done|lia|right; lia]. }
  pose proof (col_le _ _ _ _ _ _ Hc) as Hle. destruct (Z.ltb_spec (Z.of_nat (length l)) n) as [Hlt|Hge].
  2: { exists l, i, visited. split_and!; [done|done| |left; lia]. destruct i; [|lia].
       rewrite Hi in Hge by done. simpl in Hge. lia. }
  destruct (owner_at_registered hr ((idx + i) mod length (ring hr)) Hok) as (id & h & Ho & _ & _ & Hreg);
    [by apply Nat.mod_upper_bound|]. rewrite Ho. simpl. destruct Hc as [Hv Hnd Hns Hseen Hhead _].
  replace (i + S rounds)%nat with (S i + rounds)%nat by lia.
  destruct (decide (id ∈ visited)) as [Hin|Hin].
  - apply IH; [|lia|lia]. split; [done|done|done| | |done].
    + intros k id' Hk Hok'. destruct (decide (k = i)) as [->|]; [|apply (Hseen k); [lia|done]].
      rewrite Ho in Hok'. injection Hok' as <-. by apply Hv.
    + intros _. apply Hhead. destruct i; [|lia]. rewrite Hi in Hv by done. set_solver.
  - apply IH; [|lia|lia]. rewrite Hv in Hin. split.
    + intros id'. rewrite elem_of_union, elem_of_singleton, Hv, elem_of_app, list_elem_of_singleton. naive_solver.
    + apply NoDup_app. split_and!; [done|set_solver|apply NoDup_singleton].
    + intros id' [?| ->%list_elem_of_singleton]%elem_of_app; auto.
    + intros k id' Hk Hok'. apply elem_of_app. destruct (decide (k = i)) as [->|].
      * rewrite Ho in Hok'. injection Hok' as <-. set_solver.
      * left. apply (Hseen k); [lia|done].
    + intros _. destruct i as [|i].
      * exists id. rewrite Nat.add_0_r in Ho. by rewrite Hi.
      * destruct (Hhead ltac:(lia)) as (id' & ? & Hh). exists id'. split; [done|]. by destruct l.
    + rewrite length_app. simpl. lia.
Qed.

Lemma registered_in_ring hr id : ring_ok hr -> counts_fit hr -> is_Some (nodes hr !! id) ->
  exists k, (k < length (ring hr))%nat /\ owner_at hr k = Ok id.
Proof.
  intros Hok Hf [info Hn]. destruct (count_fits hr id info Hok Hf Hn) as [_ Hpos].
  assert (active hr id (vhash id 0)) as Ha by (exists info, 0; split_and!; [done|lia|lia|done]).
  assert (vhash id 0 ∈ ring hr) as [k Hk]%list_elem_of_lookup_1 by (apply ring_active; [done|by exists id]).
  exists k. split; [by eapply lookup_lt_Some|]. unfold owner_at. rewrite Hk.
  apply (ok_vnodes _ Hok) in Ha. by rewrite Ha.
Qed.

Lemma mod_reaches idx k len : (idx < len)%nat -> (k < len)%nat -> exists j, (j < len)%nat /\ ((idx + j) mod len = k)%nat.
Proof.
  intros Hi Hk. destruct (decide (idx <= k)%nat).
  - exists (k - idx)%nat. split; [lia|]. replace (idx + (k - idx))%nat with k by lia. by apply Nat.mod_small.
  - exists (k + len - idx)%nat. split; [lia|]. replace (idx + (k + len - idx))%nat with (k + 1 * len)%nat by lia.
    rewrite Nat.Div0.mod_add. by apply Nat.mod_small.
Qed.

(** For a positive [n], GetNodes answers with different registered nodes, as
    many as asked for or as there are, the first being the owner of the key. *)
Theorem GetNodes_replicas hr key n :
  reachable hr -> counts_fit hr -> 0 < n -> nodes hr <> ∅ ->
  exists l, GetNodes hr key n = Ok l /\ NoDup l /\ Forall (fun id => NodeExists hr id = true) l /\
    Z.of_nat (length l) = Z.min n (NodeCount hr) /\ (exists id, GetNode hr key = Ok id /\ head l = Some id).
Proof.
  intros Hok%reachable_ok Hf Hn Hnodes.
  assert (ring hr <> []) as Hne.
  { apply map_choose in Hnodes as (id & info & Hid). destruct (registered_in_ring hr id Hok Hf) as (k & Hk & _); [by eexists|].
    intros E. rewrite E in Hk. simpl in Hk. lia. }
  assert (length (ring hr) <> 0%nat) as Hl by (by destruct (ring hr)).
  assert (0 < size (nodes hr))%nat as Hsz.
  { destruct (size (nodes hr)) eqn:E; [|lia]. by apply map_size_empty_inv in E. }
  unfold GetNodes, GetNode, NodeCount. rewrite (proj2 (Nat.eqb_neq _ _) Hl), (proj2 (Z.leb_gt n 0)) by done. cbn zeta.
  set (m := if _ <? _ then _ else _). assert (m = Z.min n (Z.of_nat (size (nodes hr)))) as Hm.
  { unfold m. destruct (Z.ltb_spec (Z.of_nat (size (nodes hr))) n); lia. }
  set (idx := ring_index _ _). assert (idx < length (ring hr))%nat as Hidx.
  { destruct (ring_index_succ (ring hr) (hashKey key)) as (x & Hx & _); [apply Hok| |done|apply hashKey_range|].
    - apply Forall_forall. intros h [id' Ha]%(ring_active hr h Hok). by eapply active_range.
    - by eapply lookup_lt_Some. }
  destruct (collect_nodes_spec hr m idx 0 (length (ring hr)) ∅ []) as (l & i & vis & -> & Hc & Hi & Hend);
    [done|done|lia| |done|lia|].
  { split; [set_solver|constructor|set_solver|lia|lia|simpl; lia]. }
  exists l. destruct Hc as [_ Hnd Hns Hseen Hhead Hle]. split_and!; [done|done| | |].
  - apply Forall_forall. intros id Hid. apply bool_decide_eq_true. auto.
  - rewrite <- Hm. destruct Hend as [->|Hend]; [done|]. simpl in Hend.
    enough (size (nodes hr) <= length l)%nat by lia. rewrite <- (size_dom (nodes hr)), <- (size_list_to_set (C := gset string) l) by done.
    apply subseteq_size. intros id Hid%elem_of_dom. apply elem_of_list_to_set.
    destruct (registered_in_ring hr id Hok Hf Hid) as (k & Hk & Ho).
    destruct (mod_reaches idx k (length (ring hr)) Hidx Hk) as (j & Hj & E). apply (Hseen j); [lia|]. by rewrite E.
  - destruct (Hhead Hi) as (id & Ho & Hh). rewrite Nat.mod_small in Ho by done. eauto.
Qed.
End rings.
