(* ===== verification/ChainHashMigrate.v ===== *)
(** Migration reports and snapshots of the hash ring.

    A range is an interval of the circle ([in_range]).  Merging ranges never
    adds a hash, and the report of a removal names, for every hash it covers,
    the node that owns it before and the node that owns it after. *)

From stdpp Require Import base tactics list gmap strings sorting.
From Stdlib Require Import ZArith Lia.
From S2P Require Import Prelude GoStrings Ordered ChainHash ChainHashProofs.

(** * Intervals of the circle *)

Definition in_range (r : HashRange) (p : Z) : Prop := cdist (Start r) p <= cdist (Start r) (End r).

#[export] Instance in_range_dec r p : Decision (in_range r p) := Z_le_dec _ _.

Definition range_ok (r : HashRange) : Prop := is_hash (Start r) /\ is_hash (End r).

Lemma in_range_cases r p : range_ok r -> is_hash p ->
  in_range r p <-> if Start r <=? End r then Start r <= p <= End r else Start r <= p \/ p <= End r.
Proof.
  intros [Hs He] Hp. unfold in_range. rewrite !cdist_cases by done. unfold is_hash in *.
  destruct (Z.leb_spec (Start r) p), (Z.leb_spec (Start r) (End r)); lia.
Qed.

Lemma in_range_end r : in_range r (End r).
Proof. unfold in_range. lia. Qed.

(** One step of the merge covers no hash that its two ranges do not. *)
Lemma merge_step_points cur r p :
  range_ok cur -> range_ok r -> is_hash p -> Start cur <= Start r -> Start r <= uint64 (End cur + 1) ->
  in_range (if End cur <? End r then {| Start := Start cur; End := End r |} else cur) p ->
  in_range cur p \/ in_range r p.
Proof.
  intros Hc Hr Hp Hle Hm. destruct (Z.ltb_spec (End cur) (End r)) as [Hlt|]; [|by left].
  pose proof Hc as [Hc1 Hc2]. pose proof Hr as [Hr1 Hr2].
  assert (End cur + 1 < 2 ^ 64) as Hov by (unfold is_hash in *; lia).
  rewrite uintw_small in Hm by (unfold is_hash in *; lia).
  rewrite (in_range_cases cur p), (in_range_cases r p), in_range_cases by done. simpl.
  unfold is_hash in *. destruct (Z.leb_spec (Start cur) (End r)), (Z.leb_spec (Start cur) (End cur)),
    (Z.leb_spec (Start r) (End r)); lia.
Qed.

Lemma merge_loop_points cur rs r' p :
  range_ok cur -> Forall range_ok rs -> StronglySorted (fun a b => Start a <= Start b) (cur :: rs) -> is_hash p ->
  r' ∈ merge_loop cur rs -> in_range r' p -> exists r, r ∈ cur :: rs /\ in_range r p.
Proof.
  revert cur. induction rs as [|r rs IH]; intros cur Hc Hrs Hs Hp; simpl.
  - intros ->%list_elem_of_singleton Hin. exists cur. set_solver.
  - apply Forall_cons in Hrs as [Hr Hrs]. apply StronglySorted_inv in Hs as [Hs Hall].
    apply Forall_cons in Hall as [Hle Hall]. destruct (Z.leb_spec (Start r) (uint64 (End cur + 1))) as [Hm|Hm].
    + set (new := if _ <? _ then _ else _). intros Hin Hpt. assert (Start new = Start cur) as Es by (unfold new; by case_match).
      destruct (IH new) as (r0 & Hr0 & Hp0); [| |constructor|done|done|done|].
      * destruct Hc, Hr. unfold new. by case_match.
      * done.
      * by apply StronglySorted_inv in Hs as [? _].
      * rewrite Es. done.
      * apply elem_of_cons in Hr0 as [->|Hr0]; [|exists r0; set_solver].
        destruct (merge_step_points cur r p) as [?|?]; [done..|exists cur; set_solver|exists r; set_solver].
    + intros [ ->|Hin]%elem_of_cons Hpt; [exists cur; set_solver|].
      destruct (IH r Hr Hrs Hs Hp Hin Hpt) as (r0 & ? & ?). exists r0. set_solver.
Qed.

(** A range that the merge keeps ends where one of its parts does. *)
Lemma merge_loop_ends cur rs r' :
  range_ok cur -> Forall range_ok rs -> r' ∈ merge_loop cur rs ->
  range_ok r' /\ exists r, r ∈ cur :: rs /\ End r' = End r.
Proof.
  revert cur. induction rs as [|r rs IH]; intros cur Hc Hrs; simpl.
  - intros ->%list_elem_of_singleton. split; [done|]. exists cur. set_solver.
  - apply Forall_cons in Hrs as [Hr Hrs]. case_match.
    + set (new := if _ <? _ then _ else _). intros Hin.
      assert (range_ok new /\ exists r0, r0 ∈ [cur; r] /\ End new = End r0) as (Hn & r1 & Hr1 & E1).
      { destruct Hc, Hr. unfold new. case_match; (split; [done|]); [exists r|exists cur]; set_solver. }
      destruct (IH new Hn Hrs Hin) as (Hok & r0 & [->|Hr0]%elem_of_cons & E0); (split; [done|]).
      * exists r1. rewrite E0. set_solver.
      * exists r0. set_solver.
    + intros [ ->|Hin]%elem_of_cons; [split; [done|]; exists cur; set_solver|].
      destruct (IH r Hr Hrs Hin) as (Hok & r0 & ? & ?). split; [done|]. exists r0. set_solver.
Qed.

Section merge.
Context `{SRT : !SortSlice}.

Lemma mergeRanges_sorted rs : exists l, l ≡ₚ rs /\ StronglySorted (fun a b => Start a <= Start b) l /\
  mergeRanges rs = match l with [] => [] | r :: l => merge_loop r l end.
Proof.
  unfold mergeRanges. destruct (Nat.leb_spec (length rs) 1).
  - exists rs. destruct rs as [|r [|? ?]]; simpl in *; try lia; split_and!; try done; repeat constructor.
  - exists (sort_slice Start rs). split_and!; [apply sort_slice_perm| |done].
    eapply StronglySorted_impl; [|apply sort_slice_sorted]. intros a b Hab.
    apply Znot_lt_ge in Hab. lia.
Qed.

Lemma mergeRanges_points rs r' p :
  Forall range_ok rs -> is_hash p -> r' ∈ mergeRanges rs -> in_range r' p -> exists r, r ∈ rs /\ in_range r p.
Proof.
  intros Hrs Hp. destruct (mergeRanges_sorted rs) as (l & Hl & Hs & ->). rewrite <- Hl in Hrs.
  destruct l as [|r l]; [intros Hin; by apply elem_of_nil in Hin|]. intros Hin Hpt.
  apply Forall_cons in Hrs as [Hr Hrs]. destruct (merge_loop_points r l r' p) as (r0 & H0 & ?); [done..|].
  exists r0. by rewrite <- Hl.
Qed.

Lemma mergeRanges_ends rs r' :
  Forall range_ok rs -> r' ∈ mergeRanges rs -> range_ok r' /\ exists r, r ∈ rs /\ End r' = End r.
Proof.
  intros Hrs. destruct (mergeRanges_sorted rs) as (l & Hl & Hs & ->). rewrite <- Hl in Hrs.
  destruct l as [|r l]; [intros Hin; by apply elem_of_nil in Hin|]. intros Hin.
  apply Forall_cons in Hrs as [Hr Hrs]. destruct (merge_loop_ends r l r') as (Hok & r0 & H0 & ?); [done..|].
  split; [done|]. exists r0. by rewrite <- Hl.
Qed.
End merge.

(** * The circle seen from a hash *)

Lemma cdist_shift p e y : is_hash p -> is_hash e -> is_hash y ->
  cdist p e <= cdist p y -> cdist e y = cdist p y - cdist p e.
Proof.
  intros Hp He Hy. rewrite !cdist_cases by done. unfold is_hash in *.
  destruct (Z.leb_spec p e), (Z.leb_spec p y), (Z.leb_spec e y); lia.
Qed.

Lemma in_range_tail r p z : range_ok r -> is_hash p -> is_hash z ->
  in_range r p -> cdist p z <= cdist p (End r) -> in_range r z.
Proof.
  intros Hr Hp Hz. rewrite !in_range_cases by done. destruct Hr as [Hs He]. rewrite !cdist_cases by done.
  unfold is_hash in *. destruct (Z.leb_spec (Start r) (End r)), (Z.leb_spec p z), (Z.leb_spec p (End r)); lia.
Qed.

Lemma is_succ_shift (F : Z -> Prop) p e x :
  is_hash p -> is_hash e -> (forall y, F y -> is_hash y /\ cdist p e <= cdist p y) -> is_succ F e x -> is_succ F p x.
Proof.
  intros Hp He HF [Hx Hm]. split; [done|]. intros y Hy. destruct (HF x Hx), (HF y Hy).
  pose proof (Hm y Hy) as Hxy. rewrite !(cdist_shift p e) in Hxy by done. lia.
Qed.

(** Indices from [idx] on, around the ring, are hashes from [l !! idx] on. *)
Lemma circular_mono l idx j k x y z :
  StronglySorted Z.lt l -> Forall is_hash l -> (j < k < length l)%nat ->
  l !! idx = Some x -> l !! ((idx + j) mod length l)%nat = Some y -> l !! ((idx + k) mod length l)%nat = Some z ->
  cdist x y < cdist x z.
Proof.
  intros Hs Hh Hjk Hx Hy Hz. pose proof (lookup_lt_Some _ _ _ Hx) as Hi.
  assert (forall i v, l !! i = Some v -> is_hash v) as Hr by (intros i v; by apply Forall_lookup_1).
  assert (forall n, (n < length l)%nat -> ((idx + n) mod length l = if decide (idx + n < length l)%nat then idx + n else idx + n - length l)%nat) as Hmod.
  { intros n Hn. case_decide; [by apply Nat.mod_small|]. replace (idx + n)%nat with ((idx + n - length l) + 1 * length l)%nat at 1 by lia.
    rewrite Nat.Div0.mod_add. apply Nat.mod_small. lia. }
  rewrite Hmod in Hy by lia. rewrite Hmod in Hz by lia.
  pose proof (Hr _ _ Hx) as Bx. pose proof (Hr _ _ Hy) as By. pose proof (Hr _ _ Hz) as Bz.
  rewrite !cdist_cases by done.
  assert (forall a b u v, l !! a = Some u -> l !! b = Some v -> (a < b)%nat -> u < v) as Hlt
    by (intros; by eapply sorted_lookup_lt).
  assert (forall a u, l !! a = Some u -> ((a < idx)%nat -> u < x) /\ ((idx <= a)%nat -> x <= u)) as Hside.
  { intros a u Ha. split; intros; [by eapply Hlt|]. destruct (decide (a = idx)) as [->|]; [simplify_eq; lia|].
    assert (x < u) by (eapply Hlt; [exact Hx|exact Ha|lia]). lia. }
  unfold is_hash in *. destruct (Hside _ _ Hy) as [Y1 Y2], (Hside _ _ Hz) as [Z1 Z2].
  case_decide; case_decide; try lia.
  - specialize (Y2 ltac:(lia)). specialize (Z2 ltac:(lia)). pose proof (Hlt _ _ _ _ Hy Hz ltac:(lia)).
    destruct (Z.leb_spec x y), (Z.leb_spec x z); lia.
  - specialize (Y2 ltac:(lia)). specialize (Z1 ltac:(lia)). destruct (Z.leb_spec x y), (Z.leb_spec x z); lia.
  - specialize (Y1 ltac:(lia)). specialize (Z1 ltac:(lia)). pose proof (Hlt _ _ _ _ Hy Hz ltac:(lia)).
    destruct (Z.leb_spec x y), (Z.leb_spec x z); lia.
Qed.

Lemma search_ring_found l h : StronglySorted Z.lt l -> h ∈ l -> l !! search_ring l h = Some h.
Proof.
  intros Hs [k Hk]%list_elem_of_lookup_1. destruct (search_ring_spec l h Hs) as (Hn & Hlo & Hhi).
  destruct (decide (k < search_ring l h)%nat) as [Hlt|Hge]; [specialize (Hlo _ _ Hk Hlt); lia|].
  pose proof (lookup_lt_Some _ _ _ Hk). destruct (l !! search_ring l h) as [x|] eqn:Hx; [|apply lookup_ge_None in Hx; lia].
  pose proof (Hhi _ _ Hx ltac:(lia)). destruct (decide (search_ring l h = k)) as [E|]; [rewrite E in Hx; congruence|].
  pose proof (sorted_lookup_lt l (search_ring l h) k x h Hs ltac:(lia) Hx Hk). lia.
Qed.

Lemma ring_index_found l h : StronglySorted Z.lt l -> h ∈ l -> l !! ring_index l h = Some h.
Proof.
  intros Hs Hin. pose proof (search_ring_found l h Hs Hin) as Hf. pose proof (lookup_lt_Some _ _ _ Hf).
  unfold ring_index. by rewrite (proj2 (Nat.eqb_neq _ _)) by lia.
Qed.

(** The range to a hash of the ring is what belongs to it. *)
Lemma range_to_points l h r :
  StronglySorted Z.lt l -> Forall is_hash l -> h ∈ l -> range_to l h = Ok r ->
  range_ok r /\ End r = h /\ forall p, is_hash p -> in_range r p -> is_succ (fun y => y ∈ l) p h.
Proof.
  intros Hs Hh Hin. rewrite Forall_forall in Hh. pose proof (search_ring_found l h Hs Hin) as Hf.
  destruct (search_ring_spec l h Hs) as (_ & Hlo & Hhi). unfold range_to. set (idx := search_ring l h) in *.
  destruct (if (idx =? 0)%nat then _ else _) as [e|] eqn:He; [|done]. intros [= <-]. simpl.
  assert (e ∈ l /\ forall y, y ∈ l -> (y <= e < h \/ h <= y) /\ (h <= e -> h <= y <= e)) as [Hel Hy].
  { destruct (Nat.eqb_spec idx 0) as [E0|E0].
    - rewrite last_lookup in He. split; [by eapply list_elem_of_lookup_2|]. intros y [k Hk]%list_elem_of_lookup_1.
      pose proof (Hhi k y Hk ltac:(lia)). pose proof (Hhi _ _ He ltac:(lia)). pose proof (lookup_lt_Some _ _ _ Hk).
      destruct (decide (k = pred (length l))) as [->|]; [rewrite He in Hk; simplify_eq; lia|].
      pose proof (sorted_lookup_lt l k (pred (length l)) y e Hs ltac:(lia) Hk He). lia.
    - split; [by eapply list_elem_of_lookup_2|]. intros y [k Hk]%list_elem_of_lookup_1.
      pose proof (Hlo _ _ He ltac:(lia)). destruct (decide (k < idx)%nat) as [Hk'|Hk'].
      + destruct (decide (k = idx - 1)%nat) as [->|]; [rewrite He in Hk; simplify_eq; lia|].
        pose proof (sorted_lookup_lt l k (idx - 1) y e Hs ltac:(lia) Hk He). lia.
      + pose proof (Hhi _ _ Hk ltac:(lia)). lia. }
  pose proof (Hh e Hel) as Be. pose proof (Hh h Hin) as Bh.
  assert (is_hash (uint64 (e + 1))) as Bs by (unfold is_hash; apply uintw_range; lia).
  split_and!; [done|done|]. intros p Hp Hpt. split; [done|]. intros y Hyl. specialize (Hy y Hyl). pose proof (Hh y Hyl) as By.
  rewrite in_range_cases in Hpt by done. simpl in Hpt. rewrite !cdist_cases by done. unfold is_hash in *.
  assert (uint64 (e + 1) = e + 1 \/ (e = 2 ^ 64 - 1 /\ uint64 (e + 1) = 0)) as Hu.
  { destruct (decide (e = 2 ^ 64 - 1)) as [->|]; [right; split; [done|reflexivity]|left; apply uintw_small; lia]. }
  destruct (Z.leb_spec (uint64 (e + 1)) h), (Z.leb_spec p h), (Z.leb_spec p y); lia.
Qed.

(** * Reports *)

Section reports.
Context {R V : Type} `{ENV : !RingEnv (R := R) (V := V), LAWS : !RingEnvLaws, SRT : !SortSlice}.
Abbreviation HashRing := (@HashRing R V).
Implicit Types (hr : HashRing).

(** The hash [h] belongs to a virtual node of [id]. *)
Definition belongs hr (h : Z) (id : string) : Prop := exists x, is_succ (vnode hr) h x /\ active hr id x.

Lemma ring_hashes hr : ring_ok hr -> Forall is_hash (ring hr).
Proof. intros Hok. apply Forall_forall. intros h [id Ha]%(ring_active hr h Hok). by eapply active_range. Qed.

Lemma next_owner_spec hr id idx k rounds n :
  ring_ok hr -> (idx < length (ring hr))%nat -> (0 < k <= length (ring hr))%nat ->
  (forall j, (0 < j < k)%nat -> owner_at hr ((idx + j) mod length (ring hr)) = Ok id) ->
  next_owner hr id idx ((idx + k) mod length (ring hr)) rounds = Ok (Some n) ->
  exists k0, (0 < k0 < length (ring hr))%nat /\ owner_at hr ((idx + k0) mod length (ring hr)) = Ok n /\ n <> id /\
    forall j, (0 < j < k0)%nat -> owner_at hr ((idx + j) mod length (ring hr)) = Ok id.
Proof.
  intros Hok Hidx. revert k. induction rounds as [|rounds IH]; intros k Hk Hj; simpl; [done|].
  destruct (Nat.eqb_spec ((idx + k) mod length (ring hr)) idx) as [|Hne]; [done|].
  assert (k <> length (ring hr)) as Hk'.
  { intros ->. apply Hne. replace (idx + length (ring hr))%nat with (idx + 1 * length (ring hr))%nat by lia.
    rewrite Nat.Div0.mod_add. by apply Nat.mod_small. }
  destruct (owner_at hr _) as [m|] eqn:Ho; simpl; [|done]. case_decide as Hm.
  - replace (S ((idx + k) mod length (ring hr)) mod length (ring hr))%nat with ((idx + S k) mod length (ring hr))%nat.
    + apply IH; [lia|]. intros j Hj'. destruct (decide (j = k)) as [->|]; [by subst m|]. apply Hj. lia.
    + rewrite <- (Nat.add_1_r ((idx + k) mod _)), Nat.Div0.add_mod_idemp_l. f_equal. lia.
  - intros [= <-]. exists k. split_and!; [lia|lia|done|done|done].
Qed.

(** The walk of a removal finds the next owner of the hashes that fall free. *)
Lemma successor_of_spec hr id node r n :
  ring_ok hr -> nodes hr !! id = Some node -> active hr id (End r) ->
  successor_of hr id r = Ok (Some n) -> belongs (removed hr id node) (End r) n.
Proof.
  intros Hok Hn Ha. unfold successor_of. destruct (length (ring hr) =? 0)%nat; [done|].
  pose proof (ring_index_found (ring hr) (End r) (ok_sorted _ Hok)
    (proj2 (ring_active hr _ Hok) (ex_intro _ id Ha))) as Hidx.
  set (idx := ring_index _ _) in *. pose proof (lookup_lt_Some _ _ _ Hidx) as Hlt.
  rewrite <- (Nat.add_1_r idx). intros (k0 & Hk0 & Ho & Hne & Hj)%next_owner_spec; [|done|done|lia|lia].
  destruct (owner_at_registered hr ((idx + k0) mod length (ring hr)) Hok) as (n' & x & Ho' & Hx & Hax & _);
    [apply Nat.mod_upper_bound; lia|]. rewrite Ho in Ho'. injection Ho' as <-.
  exists x. split; [split; [exists n; by apply removed_active|]|by apply removed_active].
  intros y [id' [Hne' Hy]%removed_active]; [|done].
  assert (y ∈ ring hr) as [k Hk]%list_elem_of_lookup_1 by (apply ring_active; [done|by exists id']).
  destruct (mod_reaches idx k (length (ring hr)) Hlt (lookup_lt_Some _ _ _ Hk)) as (j & Hjl & E).
  assert (owner_at hr ((idx + j) mod length (ring hr)) = Ok id') as Hoj.
  { unfold owner_at. rewrite E, Hk. apply (ok_vnodes _ Hok) in Hy. by rewrite Hy. }
  rewrite <- E in Hk. destruct (decide (j = k0)) as [->|]; [by simplify_eq|].
  assert (k0 < j)%nat as Hlt'.
  { destruct (decide (j < k0)%nat); [|lia]. destruct (decide (j = 0%nat)) as [->|].
    - rewrite Nat.add_0_r, Nat.mod_small, Hidx in Hk by lia. injection Hk as <-.
      by destruct Hne'; eapply active_owner; [apply Hok|..].
    - rewrite Hj in Hoj by lia. congruence. }
  apply Z.lt_le_incl. eapply circular_mono; [apply Hok|by apply ring_hashes| |exact Hidx|exact Hx|exact Hk]. lia.
Qed.

(** What a removal reports for a range: its hashes move from [id] to [to]. *)
Definition moves hr (id : string) (node : NodeInfo (R := R)) (to : string) (r : HashRange) : Prop :=
  range_ok r /\ forall p, is_hash p -> in_range r p -> belongs hr p id /\ belongs (removed hr id node) p to.

Lemma ranges_to_elem l hs rs r : ranges_to l hs = Ok rs -> r ∈ rs -> exists h, h ∈ hs /\ range_to l h = Ok r.
Proof.
  revert rs. induction hs as [|h hs IH]; intros rs; simpl; [intros [= <-] Hr; by apply elem_of_nil in Hr|].
  destruct (range_to l h) as [r0|] eqn:E; [|done]. destruct (ranges_to l hs) as [rs0|]; [|done]. simpl.
  intros [= <-] [->|Hr]%elem_of_cons; [exists h; set_solver|]. destruct (IH rs0 eq_refl Hr) as (h' & ? & ?).
  exists h'. set_solver.
Qed.

Lemma owned_range_moves hr id node r n :
  ring_ok hr -> nodes hr !! id = Some node -> range_ok r -> active hr id (End r) ->
  (forall p, is_hash p -> in_range r p -> belongs hr p id) ->
  successor_of hr id r = Ok (Some n) -> moves hr id node n r.
Proof.
  intros Hok Hn Hr Ha Hown Hs. split; [done|]. intros p Hp Hpt. split; [by apply Hown|].
  destruct (successor_of_spec hr id node r n Hok Hn Ha Hs) as (x & Hx & Hax). exists x. split; [|done].
  apply (is_succ_shift _ p (End r)); [done|apply Hr| |done].
  intros y [id' Hy]. split; [by eapply active_range|]. apply removed_active in Hy as [Hne Hy]; [|done].
  destruct (Z_le_gt_dec (cdist p (End r)) (cdist p y)) as [|Hgt]; [done|]. exfalso. apply Hne.
  pose proof (active_range hr id' y Hy) as By.
  destruct (Hown y By) as (z & [_ Hmin] & Haz); [apply (in_range_tail r p); [done..|lia]|].
  assert (z = y) as ->.
  { pose proof (active_range hr id z Haz) as Bz. apply (cdist_inj y); [done..|]. specialize (Hmin y (ex_intro _ id' Hy)).
    assert (cdist y y = 0) by (unfold cdist; by rewrite Z.sub_diag).
    assert (0 <= cdist y z) by (apply Z.mod_pos_bound; lia). lia. }
  by eapply active_owner; [apply Hok|..].
Qed.

Lemma successors_moves hr id node rs m m' :
  ring_ok hr -> nodes hr !! id = Some node ->
  (forall r, r ∈ rs -> range_ok r /\ active hr id (End r) /\ forall p, is_hash p -> in_range r p -> belongs hr p id) ->
  (forall to l, m !! to = Some l -> Forall (moves hr id node to) l) ->
  successors hr id rs m = Ok m' -> forall to l, m' !! to = Some l -> Forall (moves hr id node to) l.
Proof.
  intros Hok Hn. revert m. induction rs as [|r rs IH]; intros m Hrs Hm; simpl; [by intros [= <-]|].
  destruct (successor_of hr id r) as [o|] eqn:Hs; [|done]. simpl. apply IH; [intros; apply Hrs; set_solver|].
  destruct o as [n|]; [|done]. unfold append_range. intros to l [[<- <-]|[_ Hl]]%lookup_insert_Some; [|by apply Hm].
  apply Forall_app. split.
  - destruct (m !! n) as [l|] eqn:E; simpl; [by apply Hm|constructor].
  - apply Forall_singleton. destruct (Hrs r) as (Hr & Ha & Hown); [set_solver|]. by apply owned_range_moves.
Qed.

Lemma remove_report hr id node ms mi : ring_ok hr -> nodes hr !! id = Some node ->
  calculateRemoveMigration hr id = Ok ms -> mi ∈ ms ->
  FromNode mi = id /\ Forall (moves hr id node (ToNode mi)) (AffectedRanges mi).
Proof.
  intros Hok Hn. unfold calculateRemoveMigration. rewrite Hn.
  destruct (_ <=? 1)%nat; [intros [= <-] Hin; by apply elem_of_nil in Hin|].
  destruct (ranges_to _ _) as [rs|] eqn:Hr; [|done]. simpl.
  assert (forall r, r ∈ rs -> range_ok r /\ active hr id (End r) /\ forall p, is_hash p -> in_range r p -> belongs hr p id) as H0.
  { intros r Hin. destruct (ranges_to_elem _ _ _ _ Hr Hin) as (h & Hh & Hrt).
    apply (active_hashes hr id node h Hn) in Hh.
    destruct (range_to_points (ring hr) h r) as (Hro & He & Hp); [apply Hok|by apply ring_hashes| |done|].
    - apply ring_active; [done|by exists id].
    - rewrite He. split_and!; [done|done|]. intros p Hip Hpt. exists h. split; [|done].
      destruct (Hp p Hip Hpt) as [Hin' Hmin]. split; [by exists id|]. intros y [id' Hy]. apply Hmin.
      apply ring_active; [done|by exists id']. }
  assert (Forall range_ok rs) as Hall by (apply Forall_forall; intros; by apply H0).
  destruct (successors hr id (mergeRanges rs) ∅) as [m|] eqn:Hsu; [|done]. simpl. intros [= <-].
  unfold migrations_from. intros ([to l] & -> & Hin%elem_of_map_to_list)%list_elem_of_fmap. simpl. split; [done|].
  assert (Forall (moves hr id node to) l) as Hl.
  { eapply successors_moves; [done|done| | |exact Hsu|exact Hin]; [|intros ? ?; by rewrite lookup_empty].
    intros r Hin'. destruct (mergeRanges_ends rs r Hall Hin') as (Hro & r0 & Hr0 & ->). destruct (H0 r0 Hr0) as (_ & Ha & _).
    split_and!; [done|done|]. intros p Hp Hpt. destruct (mergeRanges_points rs r p) as (r1 & Hr1 & Hp1); [done..|].
    by eapply H0. }
  assert (Forall range_ok l) as Hlr by (eapply Forall_impl; [exact Hl|]; intros r Hr'; apply Hr').
  apply Forall_forall. intros r Hin'. destruct (mergeRanges_ends l r Hlr Hin') as (Hro & _). split; [done|].
  intros p Hp Hpt. destruct (mergeRanges_points l r p) as (r1 & Hr1 & Hp1); [done..|].
  rewrite Forall_forall in Hl. by apply (Hl r1 Hr1).
Qed.

(** Every key whose hash lies in a range that RemoveNode reports belonged to
    the removed node and belongs, after the removal, to the node that the
    report names. *)
Theorem RemoveNode_report_sound hr id hr' ms mi r key :
  reachable hr -> RemoveNode hr id = Ok (hr', ms) -> mi ∈ ms -> r ∈ AffectedRanges mi -> in_range r (hashKey key) ->
  FromNode mi = id /\ GetNode hr key = Ok id /\ GetNode hr' key = Ok (ToNode mi).
Proof.
  intros Hok%reachable_ok Hrm Hmi Hr Hpt. apply RemoveNode_inv in Hrm as (node & Hn & -> & Hms).
  destruct (remove_report hr id node ms mi Hok Hn Hms Hmi) as [Hfrom Hall]. rewrite Forall_forall in Hall.
  destruct (Hall r Hr) as [_ Hmv]. destruct (Hmv _ (hashKey_range key) Hpt) as [Hb Ha].
  split_and!; [done|by apply GetNode_Ok|]. by apply GetNode_Ok; [apply removed_ok|].
Qed.
End reports.
