(* ===== verification/ChainHashSnapshot.v ===== *)
(** Snapshots of the hash ring, its file, a concrete ring, and what the code
    does at its limits. *)

From stdpp Require Import base tactics list gmap strings sorting.
From Stdlib Require Import ZArith Lia SpecFloat.
From S2P Require Import Prelude GoStrings Ordered ChainHash ChainHashProofs ChainHashMigrate.

Lemma list_elem_of_concat {A} (x : A) (ls : list (list A)) : x ∈ concat ls <-> exists l, x ∈ l /\ l ∈ ls.
Proof. induction ls as [|l ls IH]; simpl; [set_solver|]. rewrite elem_of_app, IH. set_solver. Qed.

(** Inserting a list of entries of which no two differ for one key. *)
Lemma foldl_insert_lookup {A B K} `{Countable K} (key : A -> K) (val : A -> B) l (m : gmap K B) i b :
  (forall x, x ∈ l -> key x = i -> val x = b) ->
  (foldl (fun m x => <[key x := val x]> m) m l) !! i = if decide (Exists (fun x => key x = i) l) then Some b else m !! i.
Proof.
  intros Hval. induction l as [|x l IH] using rev_ind; simpl; [done|]. rewrite foldl_app. simpl.
  assert (forall y, y ∈ l -> key y = i -> val y = b) as Hval' by (intros y Hy; apply Hval; set_solver).
  destruct (decide (key x = i)) as [E|Hne].
  - rewrite E, lookup_insert_eq, decide_True by (apply Exists_app; right; by constructor).
    f_equal. apply Hval; [set_solver|done].
  - rewrite lookup_insert_ne, IH by done. apply decide_ext. rewrite Exists_app, Exists_cons, Exists_nil. naive_solver.
Qed.

Section snapshots.
Context {R V : Type} `{ENV : !RingEnv (R := R) (V := V), LAWS : !RingEnvLaws, SRT : !SortSlice}.
Abbreviation HashRing := (@HashRing R V).
Implicit Types (hr : HashRing).

Lemma restore_nodes_good l m :
  Forall (fun n : NodeInfo (R := R) => ID n <> "" /\ 0 < Weight n) l ->
  restore_nodes l m = (foldl (fun m n => <[ID n := n]> m) m l, true).
Proof.
  intros Hl. revert m. induction Hl as [|n l [Hid Hw] _ IH]; intros m; simpl; [done|].
  rewrite decide_False by done. rewrite (proj2 (Z.leb_gt (Weight n) 0)) by lia. apply IH.
Qed.

Lemma restore_vnodes_good (known : gmap string (NodeInfo (R := R))) l m r :
  Forall (fun vn => is_Some (known !! NodeID vn)) l ->
  restore_vnodes known l m r = (foldl (fun m vn => <[Hash vn := NodeID vn]> m) m l, r ++ (Hash <$> l), true).
Proof.
  intros Hl. revert m r. induction Hl as [|vn l [n Hn] _ IH]; intros m r; simpl; [by rewrite app_nil_r|].
  rewrite Hn, IH. by rewrite <- (assoc_L (++)).
Qed.

Lemma elem_of_nodes hr n : ring_ok hr -> n ∈ (map_to_list (nodes hr)).*2 <-> nodes hr !! ID n = Some n.
Proof.
  intros Hok. rewrite list_elem_of_fmap. split.
  - intros ([id n'] & -> & Hin%elem_of_map_to_list). simpl. by destruct (ok_nodes _ Hok _ _ Hin) as [-> _].
  - intros Hn. exists (ID n, n). by rewrite elem_of_map_to_list.
Qed.

(** All hashes of all virtual nodes. *)
Definition all_hashes hr (ns : list (NodeInfo (R := R))) : list Z :=
  concat ((fun n => vnode_hashes (ID n) (calculateVirtualNodeCount hr (Weight n))) <$> ns).

Lemma snapshot_hashes hr ns : Hash <$> concat (node_vnodes hr <$> ns) = all_hashes hr ns.
Proof.
  unfold all_hashes. induction ns as [|n ns IH]; [done|]. rewrite !fmap_cons. cbn [concat]. rewrite fmap_app, IH. f_equal.
  unfold node_vnodes, vnode_hashes. by rewrite <- list_fmap_compose.
Qed.

Lemma elem_of_all_hashes hr ns h :
  h ∈ all_hashes hr ns <-> exists n, n ∈ ns /\ h ∈ vnode_hashes (ID n) (calculateVirtualNodeCount hr (Weight n)).
Proof.
  unfold all_hashes. rewrite list_elem_of_concat. split.
  - intros (l & Hh & (n & -> & Hn)%list_elem_of_fmap). eauto.
  - intros (n & Hn & Hh). eexists. split; [exact Hh|]. apply list_elem_of_fmap. by exists n.
Qed.

Lemma nodup_snd_ids hr : ring_ok hr -> NoDup (ID <$> (map_to_list (nodes hr)).*2).
Proof.
  intros Hok. rewrite <- list_fmap_compose. erewrite list_fmap_ext; [apply NoDup_fst_map_to_list|].
  intros i [id n] Hi. simpl. assert ((id, n) ∈ map_to_list (nodes hr)) as Hin%elem_of_map_to_list by (by eapply list_elem_of_lookup_2).
  by destruct (ok_nodes _ Hok _ _ Hin).
Qed.

Lemma all_hashes_nodup hr : ring_ok hr -> NoDup (all_hashes hr (map_to_list (nodes hr)).*2).
Proof.
  intros Hok. pose proof (nodup_snd_ids hr Hok) as Hnd.
  assert (forall n, n ∈ (map_to_list (nodes hr)).*2 -> nodes hr !! ID n = Some n) as Hin by (intros n; by apply elem_of_nodes).
  induction (map_to_list (nodes hr)).*2 as [|n ns IH]; [constructor|]. rewrite fmap_cons in Hnd. apply NoDup_cons in Hnd as [Hn Hnd].
  unfold all_hashes. simpl. apply NoDup_app. split_and!.
  - apply (vnode_hashes_nodup hr); [apply Hok|]. apply Hin. set_solver.
  - intros h Hh (n' & Hn' & Hh')%elem_of_all_hashes. apply Hn.
    apply (active_hashes hr (ID n) n) in Hh; [|apply Hin; set_solver].
    apply (active_hashes hr (ID n') n') in Hh'; [|apply Hin; set_solver].
    rewrite (active_owner hr (ID n) (ID n') h); [by apply list_elem_of_fmap_2|apply Hok|done|done].
  - apply IH; [done|]. intros n' Hn'. apply Hin. set_solver.
Qed.

Lemma vnode_active hr vn : ring_ok hr ->
  vn ∈ concat (node_vnodes hr <$> (map_to_list (nodes hr)).*2) -> active hr (NodeID vn) (Hash vn).
Proof.
  intros Hok Hin. apply list_elem_of_concat in Hin as (l & Hvn & (n & -> & Hn)%list_elem_of_fmap).
  apply elem_of_nodes in Hn; [|done]. unfold node_vnodes in Hvn.
  apply list_elem_of_fmap in Hvn as (i & -> & Hi%elem_of_seqZ). simpl. exists n, i. split_and!; [done|lia|lia|done].
Qed.

(** Restoring a snapshot, into any ring, gives the ring it was taken of. *)
Theorem snapshot_roundtrip hr hr0 : reachable hr -> Restore hr0 (Some (Snapshot hr)) = (hr, Ok ()).
Proof.
  intros Hok%reachable_ok. set (ns := (map_to_list (nodes hr)).*2).
  unfold Restore, Snapshot. cbn [Version VirtualNodes Nodes VNodes TotalKeys Metadata].
  rewrite (proj2 (Z.ltb_ge CurrentVersion 1)) by done. rewrite (proj2 (Z.leb_gt (virtualNodes hr) 0)) by apply Hok.
  fold ns. set (sn := sort_slice ID ns). set (sv := sort_slice Hash _).
  assert (forall n, n ∈ sn <-> nodes hr !! ID n = Some n) as Hsn.
  { intros n. unfold sn. rewrite (sort_slice_perm ID ns). by apply elem_of_nodes. }
  assert (forall vn, vn ∈ sv -> active hr (NodeID vn) (Hash vn)) as Hsv.
  { intros vn. unfold sv. rewrite (sort_slice_perm Hash). by apply vnode_active. }
  assert (forall h, h ∈ Hash <$> sv <-> h ∈ ring hr) as Hring.
  { intros h. unfold sv. rewrite (sort_slice_perm Hash), snapshot_hashes, elem_of_all_hashes, ring_active by done. split.
    - intros (n & Hn%elem_of_nodes & Hh); [|done]. exists (ID n). by apply (active_hashes hr (ID n) n).
    - intros [id Ha]. pose proof Ha as (n & i & Hn & _). destruct (ok_nodes _ Hok _ _ Hn) as [E _]. subst id.
      exists n. split; [by apply elem_of_nodes|]. by apply (active_hashes hr (ID n) n). }
  rewrite restore_nodes_good.
  2: { apply Forall_forall. intros n Hn%Hsn. by destruct (ok_nodes _ Hok _ _ Hn) as (_ & ? & ?). }
  assert (foldl (fun m n => <[ID n := n]> m) ∅ sn = nodes hr) as ->.
  { apply map_eq. intros id. destruct (nodes hr !! id) as [n|] eqn:E.
    - pose proof (proj1 (ok_nodes _ Hok _ _ E)) as Eid. rewrite (foldl_insert_lookup ID (fun n => n) _ _ _ n).
      + rewrite decide_True; [done|]. apply Exists_exists. exists n. split; [|done]. apply Hsn. by rewrite Eid.
      + intros x Hx%Hsn Ex. congruence.
    - destruct (foldl _ _ _ !! id) as [n|] eqn:F; [|done].
      rewrite (foldl_insert_lookup ID (fun n => n) _ _ _ n) in F.
      + case_decide as Hex; [|by rewrite lookup_empty in F]. apply Exists_exists in Hex as (x & Hx%Hsn & Ex). congruence.
      + intros x Hx%Hsn Ex. congruence. }
  cbn [negb]. rewrite restore_vnodes_good.
  2: { apply Forall_forall. intros vn (n & i & Hn & _)%Hsv. by eexists. }
  assert (foldl (fun m vn => <[Hash vn := NodeID vn]> m) ∅ sv = vnodeMap hr) as ->.
  { apply map_eq. intros h. destruct (vnodeMap hr !! h) as [id|] eqn:E.
    - rewrite (foldl_insert_lookup Hash NodeID _ _ _ id).
      + rewrite decide_True; [done|]. apply Exists_exists. assert (h ∈ ring hr) as Hh by (apply (ok_ring _ Hok); by eexists).
        apply Hring, list_elem_of_fmap in Hh as (vn & -> & Hvn). eauto.
      + intros vn Hvn%Hsv <-. apply (ok_vnodes _ Hok) in Hvn. congruence.
    - rewrite (foldl_insert_lookup Hash NodeID _ _ _ "").
      + rewrite decide_False; [done|]. intros (vn & Hvn%Hsv & <-)%Exists_exists. apply (ok_vnodes _ Hok) in Hvn. congruence.
      + intros vn Hvn%Hsv <-. apply (ok_vnodes _ Hok) in Hvn. congruence. }
  cbn [negb app]. replace (sort_hashes (Hash <$> sv)) with (ring hr); [by destruct hr|].
  apply sorted_hashes_ext; [apply Hok|apply sort_hashes_strict|intros h; by rewrite elem_of_sort_hashes, Hring].
  unfold sv. rewrite (sort_slice_perm Hash), snapshot_hashes. by apply all_hashes_nodup.
Qed.

(** Saving to a file and loading it, when the codec and the file system give
    back what they were given. *)
Lemma save_load_roundtrip hr fs fs' path data :
  reachable hr -> MarshalJSON hr = Ok data -> json_Unmarshal data = Some (Snapshot hr) ->
  SaveToFile hr fs path = Ok fs' -> ReadFile fs' path = Some data -> LoadFromFile fs' path = Ok hr.
Proof.
  intros Hr Hm Hu _ Hrd. unfold LoadFromFile. rewrite Hrd. simpl. unfold UnmarshalJSON. rewrite Hu.
  by rewrite snapshot_roundtrip.
Qed.

(** [collision_free] can be computed. *)
Lemma collision_free_check hr :
  (forall id n, nodes hr !! id = Some n -> ID n = id) ->
  NoDup (all_hashes hr (map_to_list (nodes hr)).*2) -> collision_free hr.
Proof.
  intros Hid Hnd id1 id2 n1 n2 i1 i2 H1 H2 B1 B2 E.
  assert (forall id n, nodes hr !! id = Some n -> n ∈ (map_to_list (nodes hr)).*2) as Hin.
  { intros id n Hn. apply list_elem_of_fmap. exists (id, n). by rewrite elem_of_map_to_list. }
  pose proof (Hin _ _ H1) as M1. pose proof (Hin _ _ H2) as M2. apply Hid in H1, H2. subst id1 id2.
  unfold all_hashes in Hnd. revert Hnd M1 M2. generalize (map_to_list (nodes hr)).*2. intros ns Hnd M1 M2.
  assert (n1 = n2 /\ NoDup (vnode_hashes (ID n1) (calculateVirtualNodeCount hr (Weight n1)))) as [<- Hnd1].
  { assert (forall (n : NodeInfo (R := R)) i, 0 <= i < calculateVirtualNodeCount hr (Weight n) ->
      vhash (ID n) i ∈ vnode_hashes (ID n) (calculateVirtualNodeCount hr (Weight n))) as Hv by (intros; apply elem_of_vnode_hashes; eauto).
    specialize (Hv n1 i1 B1) as V1. specialize (Hv n2 i2 B2) as V2. rewrite <- E in V2. clear -Hnd M1 M2 V1 V2.
    induction ns as [|n ns IH]; [by apply elem_of_nil in M1|]. simpl in Hnd. apply NoDup_app in Hnd as (Ha & Hb & Hc).
    apply elem_of_cons in M1 as [->|M1], M2 as [->|M2]; [done| | |by apply IH].
    - destruct (Hb _ V1). apply elem_of_all_hashes. eauto.
    - destruct (Hb _ V2). apply elem_of_all_hashes. eauto. }
  split; [done|]. unfold vnode_hashes in Hnd1.
  assert (i1 ∈ seqZ 0 (calculateVirtualNodeCount hr (Weight n1))) as [k1 K1]%list_elem_of_lookup_1 by (apply elem_of_seqZ; lia).
  assert (i2 ∈ seqZ 0 (calculateVirtualNodeCount hr (Weight n1))) as [k2 K2]%list_elem_of_lookup_1 by (apply elem_of_seqZ; lia).
  assert (k1 = k2) as <-; [|congruence].
  eapply NoDup_lookup; [exact Hnd1|rewrite list_lookup_fmap, K1; done|].
  rewrite list_lookup_fmap, K2. simpl. f_equal. symmetry. exact E.
Qed.
End snapshots.

(** * A concrete ring *)

Definition demo_table : list (string * Z) :=
  [("a#vn0", 10); ("a#vn1", 100); ("b#vn0", 50); ("b#vn1", 60); ("c#vn0", 10); ("c#vn1", 70)].

Definition demo_hash (s : string) : Z :=
  match list_find (fun kv => kv.1 = s) demo_table with Some (_, (_, h)) => h | None => Z.of_nat (String.length s) end.

#[local] Instance demo_env : RingEnv (R := ()) (V := ()) := {|
  sha1_Sum s := be_encode 8 (demo_hash s) ++ replicate 12 0;
  int64_wild _ := - 2 ^ 63;
  Bytes := RingSnapshot;
  json_Marshal := Some;
  json_Unmarshal := Some;
  FS := gmap string RingSnapshot;
  WriteFile fs path data := Some (<[path := data]> fs);
  ReadFile fs path := fs !! path;
|}.

#[local] Instance demo_env_laws : RingEnvLaws.
Proof.
  split; intros s; change (sha1_Sum s) with (be_encode 8 (demo_hash s) ++ replicate 12 0).
  - by rewrite length_app, length_be_encode, length_replicate.
  - apply Forall_app. split; [apply be_encode_bytes|]. apply Forall_replicate. by unfold is_byte.
Qed.

#[local] Existing Instance stable_sort_slice.

Definition demo_node (id : string) : NodeInfo := {| ID := id; Weight := 1; Addr := ""; Data := () |}.

Definition ok_or {E A} (r : result E A) (d : A) : A := match r with Ok a => a | Err _ => d end.

Definition ring0 : HashRing (R := ()) (V := ()) :=
  ok_or (NewHashRing 2) {| virtualNodes := 0; nodes := ∅; vnodeMap := ∅; ring := []; totalKeys := 0; metadata := ∅ |}.
Definition ring1 : HashRing := ok_or (AddNodeWithInfo ring0 (demo_node "a")) ring0.
Definition ring2 : HashRing := ok_or (AddNodeWithInfo ring1 (demo_node "b")) ring1.

(** Check by computation that the hashes of a concrete ring differ. *)
Ltac check_free :=
  apply collision_free_check;
  [ intros id n; rewrite <- elem_of_map_to_list; vm_compute map_to_list; rewrite !elem_of_cons; intros Hin;
    repeat (destruct Hin as [[= -> ->]|Hin]; [reflexivity|]); by apply elem_of_nil in Hin
  | apply (bool_decide_unpack _); vm_compute; exact I ].

Lemma ring1_reachable : reachable ring1.
Proof.
  apply (reach_add ring0 (demo_node "a")); [by apply (reach_new 2)|vm_compute; reflexivity|]. check_free.
Qed.

Lemma ring2_reachable : reachable ring2.
Proof.
  apply (reach_add ring1 (demo_node "b")); [exact ring1_reachable|vm_compute; reflexivity|]. check_free.
Qed.

(** The ring after the removal of "a" from a ring of "a" and "b". *)
Definition without_a : HashRing * list MigrationInfo := ok_or (RemoveNode ring2 "a") (ring2, []).

Lemma ring_minimal_disruption_witness :
  GetNode ring2 "key" = Ok "a" /\
  exists hr' ms, RemoveNode ring2 "a" = Ok (hr', ms) /\ GetNode hr' "key" <> Ok "a".
Proof.
  split; [vm_compute; reflexivity|].
  destruct (ring_minimal_disruption ring2 "key" ring2_reachable) as (_ & Hr & _).
  destruct (Hr "a") as (hr' & ms & H1 & H2 & _); [exists (demo_node "a"); vm_compute; reflexivity|]. exists hr', ms. exact (conj H1 H2).
Defined.

Lemma GetNodes_replicas_witness :
  exists l, GetNodes ring2 "key" 5 = Ok l /\ Z.of_nat (length l) = 2.
Proof.
  destruct (GetNodes_replicas ring2 "key" 5) as (l & H1 & _ & _ & H2 & _).
  - exact ring2_reachable.
  - intros id info Hn. apply elem_of_map_to_list in Hn. vm_compute map_to_list in Hn. rewrite !elem_of_cons in Hn.
    repeat (destruct Hn as [[= -> ->]|Hn]; [vm_compute; reflexivity|]). by apply elem_of_nil in Hn.
  - reflexivity.
  - intros E. apply (f_equal size) in E. vm_compute in E. discriminate.
  - exists l. split; [exact H1|]. rewrite H2. vm_compute. reflexivity.
Defined.

Lemma RemoveNode_report_sound_witness :
  exists mi, mi ∈ without_a.2 /\ GetNode ring2 "a key, seventy-nine characters long, so that its demonstration hash is near 80" = Ok "a" /\
    GetNode without_a.1 "a key, seventy-nine characters long, so that its demonstration hash is near 80" = Ok (ToNode mi).
Proof.
  set (mi := {| AffectedRanges := [{| Start := 61; End := 100 |}]; FromNode := "a"; ToNode := "b"; EstimatedCount := 0;
    MTotalKeys := 0; MigrationRatio := S754_zero false |}).
  exists mi. assert (mi ∈ without_a.2) as Hmi by (vm_compute; left).
  destruct (RemoveNode_report_sound (ENV := demo_env) ring2 "a" without_a.1 without_a.2 mi {| Start := 61; End := 100 |}
    "a key, seventy-nine characters long, so that its demonstration hash is near 80") as (_ & H1 & H2).
  - exact ring2_reachable.
  - vm_compute. reflexivity.
  - exact Hmi.
  - vm_compute. left.
  - vm_compute. discriminate.
  - exact (conj Hmi (conj H1 H2)).
Defined.

Lemma snapshot_roundtrip_witness : Restore ring0 (Some (Snapshot ring2)) = (ring2, Ok ()).
Proof. apply (snapshot_roundtrip ring2 ring0). exact ring2_reachable. Defined.

(** * Limits *)

(** When the removed node owns the last and the first virtual node of the
    circle, the range that wraps around is swallowed by the merge: a key
    moves, and no report covers it. *)
Theorem wraparound_range_lost :
  GetNode ring2 "key" = Ok "a" /\ GetNode without_a.1 "key" = Ok "b" /\
  Forall (fun mi => Forall (fun r => ~ in_range r (hashKey "key")) (AffectedRanges mi)) without_a.2.
Proof.
  split; [vm_compute; reflexivity|]. split; [vm_compute; reflexivity|].
  apply (bool_decide_unpack _). vm_compute. exact I.
Qed.

(** CalculateAddMigration panics on a ring without nodes. *)
Example add_migration_panics : CalculateAddMigration ring0 "a" 1 = Err PanicIndex.
Proof. vm_compute. reflexivity. Qed.

(** A Restore that fails has already replaced the nodes: lookups answer with a
    node that is no longer registered. *)
Example failed_restore_half_done :
  let bad := {| Version := 1; VirtualNodes := 2; Nodes := [demo_node "b"; demo_node ""]; VNodes := [];
                TotalKeys := 0; Metadata := ∅ |} in
  let '(hr, r) := Restore ring1 (Some bad) in
  r = Err ErrDeserializationFailed /\ GetNode hr "key" = Ok "a" /\ NodeExists hr "a" = false.
Proof. vm_compute. split; [reflexivity|]. split; reflexivity. Qed.

(** Two virtual nodes with one hash: removing the second node takes the
    virtual node of the first away. *)
Example collision_takes_both :
  let hr := ok_or (AddNodeWithInfo ring1 (demo_node "c")) ring1 in
  let hr := (ok_or (RemoveNode hr "c") (hr, [])).1 in
  VirtualNodeCount ring1 = 2 /\ VirtualNodeCount hr = 1 /\ NodeCount hr = 1.
Proof. vm_compute. split; [reflexivity|]. split; reflexivity. Qed.
