(* ===== verification/JobQueue.v ===== *)
(** jobqueue/*.go: jobs in a priority queue and a delay queue, a goroutine that
    dispatches them to a bounded number of workers, retries and results.

    Jobs are objects shared by the map, the queues and the goroutines, so they
    live in a store and are referred to by pointers.  Channels that are only
    closed are signals; [closed] holds those that were.  Every function here is
    what happens under one hold of a mutex or in one atomic operation, and
    [sys_step] interleaves them.  A clock gives every reading of the time in
    the order in which the code asks for it.  The handler runs between
    [start_job] and [finish_job] and holds no lock. *)

From stdpp Require Import base tactics option list gmap sets strings.
From Stdlib Require Import ZArith Lia.
From S2P Require Import Prelude GoStrings GoHeap.

Inductive Error := ErrQueueStopped | ErrJobNotFound | ErrHandlerNotSet | ErrPoolSizeInvalid.

Inductive JobStatus := JobStatusPending | JobStatusRunning | JobStatusCompleted | JobStatusFailed | JobStatusDeadLetter.

#[export] Instance job_status_eq_dec : EqDecision JobStatus.
Proof. solve_decision. Defined.

(** What a handler ends with: a value, an error, or a panic. *)
Inductive JobError := HandlerError (e : string) | JobPanicked (r : string).

Record Config := { PoolSize : Z; DefaultMaxRetry : Z; ShutdownTimeout : Z }.

#[export] Instance job_config_eta : Eta Config :=
  fun c => {| PoolSize := PoolSize c; DefaultMaxRetry := DefaultMaxRetry c; ShutdownTimeout := ShutdownTimeout c |}.

(** [any] is the type of payloads and results, interface{} in the source. *)
Section jobs.
Context {any : Type}.

(** Times are in nanoseconds. *)
Record Job := {
  ID : string;
  Priority : Z;
  Payload : any;
  Delay : Z;
  EnqueueTime : Z;
  ReadyTime : Z;
  RetryCount : Z;
  MaxRetries : Z;
  Status : JobStatus;
  Result : option any;
  JobErr : option JobError;
}.

#[local] Instance job_eta : Eta Job :=
  fun j => {| ID := ID j; Priority := Priority j; Payload := Payload j; Delay := Delay j; EnqueueTime := EnqueueTime j;
              ReadyTime := ReadyTime j; RetryCount := RetryCount j; MaxRetries := MaxRetries j; Status := Status j;
              Result := Result j; JobErr := JobErr j |}.

Record JobResult := { JobID : string; ResResult : option any; ResError : option JobError }.

Definition NewJob (now : Z) (id : string) (priority : Z) (payload : any) (maxRetries delay : Z) : Job :=
  {| ID := id; Priority := priority; Payload := payload; Delay := delay; EnqueueTime := now; ReadyTime := now + delay;
     RetryCount := 0; MaxRetries := maxRetries; Status := JobStatusPending; Result := None; JobErr := None |}.

(** The clock is read twice. *)
Definition IsReady (t1 t2 : Z) (j : Job) : bool := (ReadyTime j <? t1) || (t2 =? ReadyTime j).

Definition BackoffDelay (j : Job) : Z := int64 (100000000 * int64 (Z.shiftl 1 (uint64 (RetryCount j)))).

Record JobQueue := {
  cfg : Config;
  store : gmap nat Job;
  next_ptr : nat;
  pq : list nat;
  dq : list nat;
  deadLetters : list nat;
  jobs : gmap string nat;
  handler : bool;
  running : bool;
  closed : gset nat;
  next_signal : nat;
  stopCh : nat;
  shutdownCh : nat;
  wakeCh : nat;
  sem : Z;
  activeCount : Z;
  waitingDispatch : Z;
  nextID : Z;
  successResults : gmap string JobResult;
  deadLetterResults : gmap string JobResult;
  notifyChan : gmap string nat;
}.

#[local] Instance job_queue_eta : Eta JobQueue :=
  fun q => {| cfg := cfg q; store := store q; next_ptr := next_ptr q; pq := pq q; dq := dq q; deadLetters := deadLetters q;
              jobs := jobs q; handler := handler q; running := running q; closed := closed q; next_signal := next_signal q;
              stopCh := stopCh q; shutdownCh := shutdownCh q; wakeCh := wakeCh q; sem := sem q; activeCount := activeCount q;
              waitingDispatch := waitingDispatch q; nextID := nextID q; successResults := successResults q;
              deadLetterResults := deadLetterResults q; notifyChan := notifyChan q |}.

Definition NewJobQueue (c : Config) : result Error JobQueue :=
  if PoolSize c <=? 0 then Err ErrPoolSizeInvalid
  else
    let c := if DefaultMaxRetry c <? 0 then c <| DefaultMaxRetry := 0 |> else c in
    let c := if ShutdownTimeout c <=? 0 then c <| ShutdownTimeout := 30000000000 |> else c in
    Ok {| cfg := c; store := ∅; next_ptr := 0; pq := []; dq := []; deadLetters := []; jobs := ∅; handler := false;
          running := false; closed := ∅; next_signal := 3; stopCh := 0; shutdownCh := 1; wakeCh := 2; sem := 0;
          activeCount := 0; waitingDispatch := 0; nextID := 0; successResults := ∅; deadLetterResults := ∅;
          notifyChan := ∅ |}%nat.

(** ** The two queues *)

Definition set_job (p : nat) (j : Job) (q : JobQueue) : JobQueue := q <| store := <[p := j]> (store q) |>.

(** The keys that [priorityQueue.Less] and [delayQueue.Less] compare, of
    pointers into the store. *)
Definition pq_key (q : JobQueue) (p : nat) : Z * Z :=
  match store q !! p with Some j => (Priority j, EnqueueTime j) | None => (0, 0) end.

Definition pq_Less (q : JobQueue) (p1 p2 : nat) : bool :=
  let '(a, ta) := pq_key q p1 in
  let '(b, tb) := pq_key q p2 in
  if a =? b then ta <? tb else b <? a.

Definition ready_time (q : JobQueue) (p : nat) : Z := match store q !! p with Some j => ReadyTime j | None => 0 end.
Definition dq_Less (q : JobQueue) (p1 p2 : nat) : bool := ready_time q p1 <? ready_time q p2.

Definition pq_Push (p : nat) (q : JobQueue) : JobQueue := q <| pq := heap_Push (pq_Less q) (pq q) p |>.
Definition dq_Push (p : nat) (q : JobQueue) : JobQueue := q <| dq := heap_Push (dq_Less q) (dq q) p |>.
Definition dq_Pop (q : JobQueue) : JobQueue :=
  match heap_Pop (dq_Less q) (dq q) with Some (_, rest) => q <| dq := rest |> | None => q end.
Definition pq_Pop (q : JobQueue) : JobQueue :=
  match heap_Pop (pq_Less q) (pq q) with Some (_, rest) => q <| pq := rest |> | None => q end.

(** ** Signals, starting and stopping *)

Definition close_signal (c : nat) (q : JobQueue) : JobQueue := q <| closed := {[ c ]} ∪ closed q |>.

Definition wake (q : JobQueue) : JobQueue :=
  let q := close_signal (wakeCh q) q in
  q <| wakeCh := next_signal q |> <| next_signal := S (next_signal q) |>.

Definition SetHandler (h : bool) (q : JobQueue) : JobQueue := q <| handler := h |>.

(** The error, and whether a dispatcher is started. *)
Definition Start (q : JobQueue) : option Error * bool * JobQueue :=
  if negb (handler q) then (Some ErrHandlerNotSet, false, q)
  else if running q then (None, false, q)
  else
    let n := next_signal q in
    (None, true, q <| running := true |> <| stopCh := n |> <| shutdownCh := S n |> <| wakeCh := S (S n) |>
                   <| next_signal := S (S (S n)) |>).

(** [Stop] up to its wait for the goroutines, and whether it waits. *)
Definition Stop (q : JobQueue) : JobQueue * bool :=
  if negb (running q) then (q, false)
  else
    let q := q <| running := false |> in
    (wake (close_signal (stopCh q) q), true).

(** The end of [Stop]: closing a closed channel panics. *)
Definition Stop_end (q : JobQueue) : option JobQueue :=
  if decide (shutdownCh q ∈ closed q) then None else Some (close_signal (shutdownCh q) q).

(** ** Enqueuing *)

Definition generateID (now : Z) (q : JobQueue) : string * JobQueue :=
  let q := q <| nextID := uint64 (nextID q + 1) |> in
  ("job-" +:+ fmt_padded 0 now +:+ "-" +:+ fmt_padded 0 (nextID q), q).

(** The second hold of the mutex in [enqueueInternal]. *)
Definition insert_job (job : Job) (q : JobQueue) : result Error JobQueue :=
  if negb (running q) then Err ErrQueueStopped
  else match jobs q !! ID job with
       | Some _ => Ok q
       | None =>
           let p := next_ptr q in
           let q := (set_job p job q) <| next_ptr := S p |> in
           let q := q <| jobs := <[ID job := p]> (jobs q) |> in
           Ok (wake (if 0 <? Delay job then dq_Push p q else pq_Push p q))
       end.

(** All of it, when nothing happens between the holds. *)
Definition enqueueInternal (now0 now : Z) (id : string) (priority : Z) (payload : any) (delay maxRetries : Z) (q : JobQueue) :
    result Error string * JobQueue :=
  if negb (running q) then (Err ErrQueueStopped, q)
  else
    let '(id, q) := if decide (id = "") then generateID now0 q else (id, q) in
    match insert_job (NewJob now id priority payload maxRetries delay) q with
    | Ok q => (Ok id, q)
    | Err e => (Err e, q)
    end.

(** The number of retries that [Enqueue] or [EnqueueWithRetry] asks for. *)
Definition retries (maxRetries : option Z) (q : JobQueue) : Z :=
  match maxRetries with
  | None => DefaultMaxRetry (cfg q)
  | Some n => if n <? 0 then 0 else n
  end.

Definition Enqueue (now0 now : Z) (id : string) (priority : Z) (payload : any) (delay : Z) (q : JobQueue) :
    result Error string * JobQueue :=
  enqueueInternal now0 now id priority payload delay (retries None q) q.

Definition EnqueueWithRetry (now0 now : Z) (id : string) (priority : Z) (payload : any) (delay maxRetries : Z) (q : JobQueue) :
    result Error string * JobQueue :=
  enqueueInternal now0 now id priority payload delay (retries (Some maxRetries) q) q.

(** ** The dispatcher *)

(** Delayed jobs that are ready move to the priority queue; each round takes
    two readings of the clock.  The number of readings taken is returned. *)
Fixpoint promote (fuel : nat) (clock : nat -> Z) (i : nat) (q : JobQueue) : JobQueue * nat :=
  match fuel with
  | O => (q, i)
  | S fuel =>
      match dq q with
      | [] => (q, i)
      | p :: _ =>
          match store q !! p with
          | Some job =>
              if IsReady (clock i) (clock (S i)) job then promote fuel clock (S (S i)) (pq_Push p (dq_Pop q))
              else (q, S (S i))
          | None => (q, i)
          end
      end
  end.

Inductive outcome :=
| DispatchExit
| DispatchWait (wakeCh stopCh : nat) (deadline : option Z)
| DispatchSleep
| DispatchAgain
| DispatchJob (p : nat) (wakeCh stopCh : nat) (stopping : bool).

Definition finished_status (j : Job) : bool :=
  bool_decide (Status j = JobStatusDeadLetter) || bool_decide (Status j = JobStatusCompleted).

(** One round of [dispatchLoop] up to where it releases the mutex. *)
Definition dispatch (clock : nat -> Z) (q : JobQueue) : JobQueue * outcome :=
  let '(q, i) := promote (length (dq q)) clock 0 q in
  if negb (running q) && (length (pq q) =? 0)%nat && (length (dq q) =? 0)%nat && (waitingDispatch q =? 0) then (q, DispatchExit)
  else
    match pq q with
    | [] =>
        let waitTime := match dq q with [] => 0 | p :: _ => ready_time q p - clock i end in
        if 0 <? waitTime then (q, DispatchWait (wakeCh q) (stopCh q) (Some (clock i + waitTime)))
        else if negb (running q) then (q, DispatchSleep)
        else (q, DispatchWait (wakeCh q) (stopCh q) None)
    | p :: _ =>
        let q := pq_Pop q in
        match store q !! p with
        | Some job =>
            if finished_status job then (q <| jobs := delete (ID job) (jobs q) |>, DispatchAgain)
            else (q <| waitingDispatch := waitingDispatch q + 1 |>, DispatchJob p (wakeCh q) (stopCh q) (negb (running q)))
        | None => (q, DispatchAgain)
        end
    end.

(** The job goes back when no worker was free. *)
Definition give_back (p : nat) (q : JobQueue) : JobQueue := wake (pq_Push p q).

(** ** Execution *)

Definition start_job (p : nat) (q : JobQueue) : JobQueue :=
  match store q !! p with Some j => set_job p (j <| Status := JobStatusRunning |>) q | None => q end.

Inductive handled := Returned (r : any) | Failed (e : string) | Panicked (r : string).

Definition safeExecute (h : handled) : result JobError any :=
  match h with Returned r => Ok r | Failed e => Err (HandlerError e) | Panicked r => Err (JobPanicked r) end.

Definition storeSuccessResult (id : string) (r : any) (q : JobQueue) : JobQueue :=
  q <| successResults := <[id := {| JobID := id; ResResult := Some r; ResError := None |}]> (successResults q) |>.

Definition storeDeadLetterResult (id : string) (e : JobError) (q : JobQueue) : JobQueue :=
  q <| deadLetterResults := <[id := {| JobID := id; ResResult := None; ResError := Some e |}]> (deadLetterResults q) |>.

Definition notifyJobComplete (id : string) (q : JobQueue) : JobQueue :=
  match notifyChan q !! id with
  | Some ch => (close_signal ch q) <| notifyChan := delete id (notifyChan q) |>
  | None => q
  end.

(** [executeJob] after the handler returned. *)
Definition finish_job (p : nat) (res : result JobError any) (now1 now2 : Z) (q : JobQueue) : JobQueue :=
  match store q !! p with
  | None => q
  | Some job =>
      match res with
      | Ok r =>
          let q := set_job p (job <| Status := JobStatusCompleted |> <| Result := Some r |> <| JobErr := None |>) q in
          let q := notifyJobComplete (ID job) (storeSuccessResult (ID job) r q) in
          q <| jobs := delete (ID job) (jobs q) |>
      | Err e =>
          let job := job <| RetryCount := RetryCount job + 1 |> <| JobErr := Some e |> in
          if MaxRetries job <? RetryCount job then
            let q := set_job p (job <| Status := JobStatusDeadLetter |>) q in
            let q := q <| deadLetters := deadLetters q ++ [p] |> in
            let q := notifyJobComplete (ID job) (storeDeadLetterResult (ID job) e q) in
            q <| jobs := delete (ID job) (jobs q) |>
          else
            let job := job <| ReadyTime := now1 + BackoffDelay job |> <| EnqueueTime := now2 |> <| Status := JobStatusFailed |> in
            wake (dq_Push p (set_job p job q))
      end
  end.

(** ** Results and counters *)

Definition lookupResult (id : string) (q : JobQueue) : option JobResult :=
  match successResults q !! id with Some r => Some r | None => deadLetterResults q !! id end.

Definition GetResult (id : string) (q : JobQueue) : result Error JobResult :=
  match lookupResult id q with Some r => Ok r | None => Err ErrJobNotFound end.

(** ** Waiting for a result *)

(** The channel of [WaitForResult], and whether another waiter made it. *)
Definition subscribe (id : string) (q : JobQueue) : nat * bool * JobQueue :=
  match notifyChan q !! id with
  | Some ch => (ch, true, q)
  | None =>
      let ch := next_signal q in
      (ch, false, q <| notifyChan := <[id := ch]> (notifyChan q) |> <| next_signal := S ch |>)
  end.

(** [WaitForResult]: before its first look at the results, before it asks for
    the channel, before its second look, in the select, before its last look,
    or returned, [None] being the error of the context. *)
Inductive waiter :=
| WLookup (id : string)
| WSubscribe (id : string)
| WRecheck (id : string) (ch : nat)
| WSelect (id : string) (ch : nat) (own : bool)
| WFinal (id : string)
| WReturned (id : string) (r : option (result Error JobResult)).

Inductive wait_step : JobQueue -> waiter -> JobQueue -> waiter -> Prop :=
| WaitFound id r q : lookupResult id q = Some r -> wait_step q (WLookup id) q (WReturned id (Some (Ok r)))
| WaitMissing id q : lookupResult id q = None -> wait_step q (WLookup id) q (WSubscribe id)
| WaitSubscribe id ch (ok : bool) q q' :
    subscribe id q = (ch, ok, q') -> wait_step q (WSubscribe id) q' (if ok then WSelect id ch false else WRecheck id ch)
| WaitRecheckFound id ch r q : lookupResult id q = Some r -> wait_step q (WRecheck id ch) q (WReturned id (Some (Ok r)))
| WaitRecheckMissing id ch q : lookupResult id q = None -> wait_step q (WRecheck id ch) q (WSelect id ch true)
| WaitCancelled id ch own q : wait_step q (WSelect id ch own) q (WReturned id None)
| WaitNotified id ch own q : ch ∈ closed q -> wait_step q (WSelect id ch own) q (WFinal id)
| WaitFinal id q : wait_step q (WFinal id) q (WReturned id (Some (GetResult id q))).

Definition GetJobStatus (id : string) (q : JobQueue) : result Error JobStatus :=
  match jobs q !! id ≫= (store q !!.) with
  | Some j => Ok (Status j)
  | None =>
      match list_find (fun j => ID j = id) (omap (store q !!.) (deadLetters q)) with
      | Some (_, j) => Ok (Status j)
      | None => match successResults q !! id with Some _ => Ok JobStatusCompleted | None => Err ErrJobNotFound end
      end
  end.

Definition PendingCount (q : JobQueue) : Z := Z.of_nat (length (pq q)) + Z.of_nat (length (dq q)) + waitingDispatch q.
Definition ActiveCount (q : JobQueue) : Z := activeCount q.
Definition DeadLetterCount (q : JobQueue) : Z := Z.of_nat (length (deadLetters q)).
Definition GetDeadLetters (q : JobQueue) : list Job := omap (store q !!.) (deadLetters q).
Definition ClearDeadLetters (q : JobQueue) : JobQueue := q <| deadLetters := [] |>.
Definition CompletedCount (q : JobQueue) : Z := Z.of_nat (size (successResults q)).
Definition FailedCount (q : JobQueue) : Z := Z.of_nat (size (deadLetterResults q)).
Definition ClearResults (q : JobQueue) : JobQueue := q <| successResults := ∅ |> <| deadLetterResults := ∅ |>.

(** * The system *)

(** A dispatcher: about to take the mutex; in a select without a job; asleep
    for a moment; with a job, waiting for a worker; past that, with or without
    one, before and after it has counted down [waitingDispatch]; or returned. *)
Inductive loop :=
| AtTop
| Waiting (wakeCh stopCh : nat) (deadline : option Z)
| Sleeping
| Holding (p : nat) (wakeCh stopCh : nat) (stopping : bool)
| Decided (p : nat) (acquired : bool)
| Counted (p : nat) (acquired : bool)
| Exited.

(** A worker: about to mark the job as running; in the handler; done, but still
    counted in the semaphore; done, but still counted as active. *)
Inductive exec := Spawned (p : nat) | Executing (p : nat) | Finished | Released.

Record System := { queue : JobQueue; loops : list loop; execs : list exec; stops : nat }.

Definition loop_next (o : outcome) : loop :=
  match o with
  | DispatchExit => Exited
  | DispatchWait w st dl => Waiting w st dl
  | DispatchSleep => Sleeping
  | DispatchAgain => AtTop
  | DispatchJob p w st b => Holding p w st b
  end.

(** The clocks that the system runs with. *)
Context (clock_ok : (nat -> Z) -> Prop).

Inductive sys_step : System -> System -> Prop :=
| StepSetHandler h sys :
    sys_step sys {| queue := SetHandler h (queue sys); loops := loops sys; execs := execs sys; stops := stops sys |}
| StepGenerateID now sys :
    sys_step sys {| queue := (generateID now (queue sys)).2; loops := loops sys; execs := execs sys; stops := stops sys |}
| StepInsert now id priority payload maxRetries delay q' sys :
    insert_job (NewJob now id priority payload (retries maxRetries (queue sys)) delay) (queue sys) = Ok q' ->
    sys_step sys {| queue := q'; loops := loops sys; execs := execs sys; stops := stops sys |}
| StepStart e started q' sys :
    Start (queue sys) = (e, started, q') ->
    sys_step sys {| queue := q'; loops := (if started then [AtTop] else []) ++ loops sys; execs := execs sys; stops := stops sys |}
| StepStop q' (waits : bool) sys :
    Stop (queue sys) = (q', waits) ->
    sys_step sys {| queue := q'; loops := loops sys; execs := execs sys; stops := ((if waits then 1 else 0) + stops sys)%nat |}
| StepStopEnd q' n sys :
    stops sys = S n -> Stop_end (queue sys) = Some q' ->
    sys_step sys {| queue := q'; loops := loops sys; execs := execs sys; stops := n |}
| StepDispatch i clock q' o sys :
    loops sys !! i = Some AtTop -> clock_ok clock -> dispatch clock (queue sys) = (q', o) ->
    sys_step sys {| queue := q'; loops := <[i := loop_next o]> (loops sys); execs := execs sys; stops := stops sys |}
| StepWoken i w st dl sys :
    loops sys !! i = Some (Waiting w st dl) -> w ∈ closed (queue sys) \/ st ∈ closed (queue sys) ->
    sys_step sys {| queue := queue sys; loops := <[i := AtTop]> (loops sys); execs := execs sys; stops := stops sys |}
| StepTimer i w st deadline now sys :
    loops sys !! i = Some (Waiting w st (Some deadline)) -> deadline <= now ->
    sys_step sys {| queue := queue sys; loops := <[i := AtTop]> (loops sys); execs := execs sys; stops := stops sys |}
| StepSlept i sys :
    loops sys !! i = Some Sleeping ->
    sys_step sys {| queue := queue sys; loops := <[i := AtTop]> (loops sys); execs := execs sys; stops := stops sys |}
| StepAcquire i p w st b sys :
    loops sys !! i = Some (Holding p w st b) -> sem (queue sys) < PoolSize (cfg (queue sys)) ->
    sys_step sys {| queue := (queue sys) <| sem := sem (queue sys) + 1 |>; loops := <[i := Decided p true]> (loops sys);
                    execs := execs sys; stops := stops sys |}
| StepGiveUp i p w st sys :
    loops sys !! i = Some (Holding p w st false) -> w ∈ closed (queue sys) \/ st ∈ closed (queue sys) ->
    sys_step sys {| queue := queue sys; loops := <[i := Decided p false]> (loops sys); execs := execs sys; stops := stops sys |}
| StepCountDown i p b sys :
    loops sys !! i = Some (Decided p b) ->
    sys_step sys {| queue := (queue sys) <| waitingDispatch := waitingDispatch (queue sys) - 1 |>;
                    loops := <[i := Counted p b]> (loops sys); execs := execs sys; stops := stops sys |}
| StepGiveBack i p sys :
    loops sys !! i = Some (Counted p false) ->
    sys_step sys {| queue := give_back p (queue sys); loops := <[i := AtTop]> (loops sys); execs := execs sys; stops := stops sys |}
| StepSpawn i p sys :
    loops sys !! i = Some (Counted p true) ->
    sys_step sys {| queue := (queue sys) <| activeCount := activeCount (queue sys) + 1 |>; loops := <[i := AtTop]> (loops sys);
                    execs := Spawned p :: execs sys; stops := stops sys |}
| StepBegin i p sys :
    execs sys !! i = Some (Spawned p) ->
    sys_step sys {| queue := start_job p (queue sys); loops := loops sys; execs := <[i := Executing p]> (execs sys); stops := stops sys |}
| StepFinish i p h now1 now2 sys :
    execs sys !! i = Some (Executing p) ->
    sys_step sys {| queue := finish_job p (safeExecute h) now1 now2 (queue sys); loops := loops sys;
                    execs := <[i := Finished]> (execs sys); stops := stops sys |}
| StepRelease i sys :
    execs sys !! i = Some Finished ->
    sys_step sys {| queue := (queue sys) <| sem := sem (queue sys) - 1 |>; loops := loops sys;
                    execs := <[i := Released]> (execs sys); stops := stops sys |}
| StepLeave i sys :
    execs sys !! i = Some Released ->
    sys_step sys {| queue := (queue sys) <| activeCount := activeCount (queue sys) - 1 |>; loops := loops sys;
                    execs := delete i (execs sys); stops := stops sys |}
| StepSubscribe id ch ok q' sys :
    subscribe id (queue sys) = (ch, ok, q') ->
    sys_step sys {| queue := q'; loops := loops sys; execs := execs sys; stops := stops sys |}
| StepClearDeadLetters sys :
    sys_step sys {| queue := ClearDeadLetters (queue sys); loops := loops sys; execs := execs sys; stops := stops sys |}
| StepClearResults sys :
    sys_step sys {| queue := ClearResults (queue sys); loops := loops sys; execs := execs sys; stops := stops sys |}.

Definition init_system (q : JobQueue) : System := {| queue := q; loops := []; execs := []; stops := 0 |}.

Definition reachable (c : Config) (sys : System) : Prop :=
  exists q, NewJobQueue c = Ok q /\ rtc sys_step (init_system q) sys.

(** ** Waiters and the end of jobs *)

(** The waiters, and the job whose result was stored but not yet announced;
    the mutex allows one at a time. *)
Record Waits := { wq : JobQueue; waiters : list waiter; announcing : option string }.

Inductive waits_step : Waits -> Waits -> Prop :=
| StepWait i w w' q' s :
    waiters s !! i = Some w -> wait_step (wq s) w q' w' ->
    waits_step s {| wq := q'; waiters := <[i := w']> (waiters s); announcing := announcing s |}
| StepCall id s : waits_step s {| wq := wq s; waiters := waiters s ++ [WLookup id]; announcing := announcing s |}
| StepStoreSuccess id r s :
    announcing s = None ->
    waits_step s {| wq := storeSuccessResult id r (wq s); waiters := waiters s; announcing := Some id |}
| StepStoreDeadLetter id e s :
    announcing s = None ->
    waits_step s {| wq := storeDeadLetterResult id e (wq s); waiters := waiters s; announcing := Some id |}
| StepNotify id s :
    announcing s = Some id ->
    waits_step s {| wq := notifyJobComplete id (wq s); waiters := waiters s; announcing := None |}
| StepForget s : waits_step s {| wq := ClearResults (wq s); waiters := waiters s; announcing := announcing s |}.

Definition waits_reachable (c : Config) (s : Waits) : Prop :=
  exists q, NewJobQueue c = Ok q /\ rtc waits_step {| wq := q; waiters := []; announcing := None |} s.
End jobs.

Arguments waiter : clear implicits.
Arguments Waits : clear implicits.
Arguments Job : clear implicits.
Arguments JobResult : clear implicits.
Arguments JobQueue : clear implicits.
Arguments System : clear implicits.
Arguments handled : clear implicits.

#[export] Instance eta_job any : Eta (Job any) := job_eta.
#[export] Instance eta_job_queue any : Eta (JobQueue any) := job_queue_eta.
