(* ===== verification/JobQueueProofs.v ===== *)
(** The job queue: every job is in exactly one place until it is done, the
    counters are exact, no more workers run than the pool has, and no job is
    tried more often than it may be; and whom a change of the queues wakes. *)

From stdpp Require Import base tactics option list gmap sets strings.
From Stdlib Require Import ZArith Lia.
From S2P Require Import Prelude GoStrings GoHeap JobQueue.

(** * The invariant *)

Definition loop_job (l : loop) : option nat :=
  match l with Holding p _ _ _ | Decided p _ | Counted p _ => Some p | _ => None end.
Definition exec_job (e : exec) : option nat := match e with Spawned p | Executing p => Some p | _ => None end.

(** What a goroutine is counted for. *)
Definition waits (l : loop) : nat := match l with Holding _ _ _ _ | Decided _ _ => 1 | _ => 0 end.
Definition loop_sem (l : loop) : nat := match l with Decided _ true | Counted _ true => 1 | _ => 0 end.
Definition exec_sem (e : exec) : nat := match e with Released => 0 | _ => 1 end.

Section inv.
Context {any : Type}.
Implicit Types (q : JobQueue any) (j : Job any).

Definition places q (ls : list loop) (es : list exec) : list nat := pq q ++ dq q ++ omap loop_job ls ++ omap exec_job es.

Record jobs_inv q (pl : list nat) : Prop := {
  ji_nodup : NoDup pl;
  ji_fresh p j : store q !! p = Some j -> (p < next_ptr q)%nat;
  ji_place p : p ∈ pl -> exists j, store q !! p = Some j /\ jobs q !! ID j = Some p /\ finished_status j = false /\ 0 <= RetryCount j <= MaxRetries j;
  ji_jobs id p : jobs q !! id = Some p -> p ∈ pl /\ exists j, store q !! p = Some j /\ ID j = id;
  ji_dead p : p ∈ deadLetters q -> exists j, store q !! p = Some j /\ Status j = JobStatusDeadLetter /\ RetryCount j = MaxRetries j + 1;
}.

Definition heaps_inv q : Prop := is_heap (pq_Less q) (pq q) /\ is_heap (dq_Less q) (dq q).

Record counts_inv q (ls : list loop) (es : list exec) : Prop := {
  ci_pool : 0 < PoolSize (cfg q) /\ 0 <= DefaultMaxRetry (cfg q);
  ci_waiting : waitingDispatch q = Z.of_nat (sum_list_with waits ls);
  ci_sem : sem q = Z.of_nat (sum_list_with loop_sem ls + sum_list_with exec_sem es);
  ci_bound : sem q <= PoolSize (cfg q);
  ci_active : activeCount q = Z.of_nat (length es);
}.

Definition queue_inv q ls es : Prop := jobs_inv q (places q ls es) /\ heaps_inv q /\ counts_inv q ls es.

(** ** Orders of the queues *)

#[export] Instance pq_order q : WeakOrder (pq_Less q).
Proof.
  split; unfold pq_Less; intros *; repeat destruct (pq_key q _) as [? ?]; repeat case_match; bools; try lia; intros; bools; lia.
Qed.

#[export] Instance dq_order q : WeakOrder (dq_Less q).
Proof. split; unfold dq_Less; intros; bools; lia. Qed.

Lemma keys_same q q' p : store q' !! p = store q !! p -> pq_key q' p = pq_key q p /\ ready_time q' p = ready_time q p.
Proof. unfold pq_key, ready_time. by intros ->. Qed.

(** Heaps stay heaps when the jobs in them do not change. *)
Lemma heaps_same q q' l1 l2 : (forall p, p ∈ l1 ++ l2 -> store q' !! p = store q !! p) ->
  is_heap (pq_Less q) l1 -> is_heap (dq_Less q) l2 -> is_heap (pq_Less q') l1 /\ is_heap (dq_Less q') l2.
Proof.
  intros Hs H1 H2. split.
  - eapply is_heap_ext; [|exact H1]. intros x y Hx Hy. unfold pq_Less.
    rewrite (proj1 (keys_same q q' x ltac:(apply Hs; set_solver))), (proj1 (keys_same q q' y ltac:(apply Hs; set_solver))). done.
  - eapply is_heap_ext; [|exact H2]. intros x y Hx Hy. unfold dq_Less.
    rewrite (proj2 (keys_same q q' x ltac:(apply Hs; set_solver))), (proj2 (keys_same q q' y ltac:(apply Hs; set_solver))). done.
Qed.

Lemma jobs_inv_perm q pl pl' : pl ≡ₚ pl' -> jobs_inv q pl -> jobs_inv q pl'.
Proof.
  intros Hp [H1 H2 H3 H4 H5]. split; try done.
  - by rewrite <- Hp.
  - intros p. rewrite <- Hp. apply H3.
  - intros id p. rewrite <- Hp. apply H4.
Qed.

(** The parts of the queue that say where jobs are and what they are. *)
Definition same_jobs q q' : Prop :=
  store q' = store q /\ next_ptr q' = next_ptr q /\ jobs q' = jobs q /\ deadLetters q' = deadLetters q.

Lemma jobs_inv_same q q' pl : same_jobs q q' -> jobs_inv q pl -> jobs_inv q' pl.
Proof. intros (Hs & Hn & Hj & Hd) [H1 H2 H3 H4 H5]. split; rewrite ?Hs, ?Hn, ?Hj, ?Hd; done. Qed.

(** A goroutine moves on. *)
Lemma perm_update {A} (l : list A) i x y : l !! i = Some x -> exists rest, l ≡ₚ x :: rest /\ <[i := y]> l ≡ₚ y :: rest /\ delete i l ≡ₚ rest.
Proof.
  intros (l1 & l2 & -> & ->)%list_elem_of_split_length. exists (l1 ++ l2). rewrite insert_app_r_alt, Nat.sub_diag, delete_middle by lia.
  split_and!; [by rewrite Permutation_middle|by rewrite Permutation_middle|done].
Qed.

Lemma sum_perm {A} (f : A -> nat) l l' : l ≡ₚ l' -> sum_list_with f l = sum_list_with f l'.
Proof. induction 1; simpl; lia. Qed.

Lemma queue_inv_perm q ls ls' es es' : ls ≡ₚ ls' -> es ≡ₚ es' -> queue_inv q ls es -> queue_inv q ls' es'.
Proof.
  intros Hl He (Hj & Hh & [H1 H2 H3 H4 H5]). split; [|split; [done|]].
  - eapply jobs_inv_perm; [|exact Hj]. unfold places. by rewrite Hl, He.
  - split; try done; rewrite <- ?(sum_perm _ _ _ Hl), <- ?(sum_perm _ _ _ He); [done..|]. by rewrite <- He.
Qed.

(** ** The queues *)

Lemma pq_Push_spec p q : heaps_inv q ->
  let q' := pq_Push p q in q' = q <| pq := pq q' |> /\ pq q' ≡ₚ p :: pq q /\ heaps_inv q'.
Proof. intros [H1 H2]. destruct (heap_Push_spec (pq_Less q) (pq q) p H1) as [H3 H4]. split; [done|]. split; [exact H4|]. split; [exact H3|exact H2]. Qed.

Lemma dq_Push_spec p q : heaps_inv q ->
  let q' := dq_Push p q in q' = q <| dq := dq q' |> /\ dq q' ≡ₚ p :: dq q /\ heaps_inv q'.
Proof. intros [H1 H2]. destruct (heap_Push_spec (dq_Less q) (dq q) p H2) as [H3 H4]. split; [done|]. split; [exact H4|]. split; [exact H1|exact H3]. Qed.

Lemma pq_Pop_spec p l q : heaps_inv q -> pq q = p :: l ->
  let q' := pq_Pop q in q' = q <| pq := pq q' |> /\ pq q ≡ₚ p :: pq q' /\ heaps_inv q' /\ forall r, r ∈ pq q -> pq_Less q r p = false.
Proof.
  intros [H1 H2] Hp. destruct (heap_Pop_spec (pq_Less q) (pq q) p H1) as (rest & He & Hperm & Hr & Hm); [by rewrite Hp|].
  unfold pq_Pop. rewrite He. split; [done|]. split; [exact Hperm|]. split; [split; [exact Hr|exact H2]|exact Hm].
Qed.

Lemma dq_Pop_spec p l q : heaps_inv q -> dq q = p :: l ->
  let q' := dq_Pop q in q' = q <| dq := dq q' |> /\ dq q ≡ₚ p :: dq q' /\ heaps_inv q'.
Proof.
  intros [H1 H2] Hp. destruct (heap_Pop_spec (dq_Less q) (dq q) p H2) as (rest & He & Hperm & Hr & Hm); [by rewrite Hp|].
  unfold dq_Pop. rewrite He. split; [done|]. split; [exact Hperm|]. split; [exact H1|exact Hr].
Qed.

(** Jobs that are ready move over; the first that stays was not ready at the
    last two readings of the clock. *)
Lemma promote_spec fuel clock i q q' n : (length (dq q) <= fuel)%nat -> heaps_inv q -> (forall p, p ∈ dq q -> is_Some (store q !! p)) ->
  promote fuel clock i q = (q', n) ->
  q' = q <| pq := pq q' |> <| dq := dq q' |> /\ heaps_inv q' /\ pq q' ++ dq q' ≡ₚ pq q ++ dq q /\
  (forall p l, dq q' = p :: l -> exists j m, store q !! p = Some j /\ n = S (S m) /\ IsReady (clock m) (clock (S m)) j = false).
Proof.
  revert i q. induction fuel as [|fuel IH]; intros i q Hf Hh Hs Hp; cbn [promote] in Hp.
  { destruct (dq q) eqn:E; [|simpl in Hf; lia]. simplify_eq. split; [by destruct q'|]. split; [done|]. split; [by rewrite E|]. intros p l. by rewrite E. }
  destruct (dq q) as [|p l] eqn:E; [simplify_eq; split; [by destruct q'|]; split; [done|]; split; [by rewrite E|]; intros p l; by rewrite E|].
  destruct (Hs p) as [j Hj]; [left|]. rewrite Hj in Hp.
  destruct (IsReady (clock i) (clock (S i)) j) eqn:Er.
  2:{ simplify_eq. split; [by destruct q'|]. split; [done|]. split; [by rewrite E|]. intros p' l'. rewrite E. intros [= <- <-]. by exists j, i. }
  destruct (dq_Pop_spec p l q Hh E) as (E1 & Hp1 & Hh1). destruct (pq_Push_spec p (dq_Pop q) Hh1) as (E2 & Hp2 & Hh2).
  assert (pq (dq_Pop q) = pq q) as Epq by (by rewrite E1).
  assert (dq (pq_Push p (dq_Pop q)) = dq (dq_Pop q)) as Edq by (by rewrite E2).
  assert (store (pq_Push p (dq_Pop q)) = store q) as Est by (rewrite E2; cbn; by rewrite E1).
  destruct (IH (S (S i)) (pq_Push p (dq_Pop q))) as (E3 & Hh3 & Hp3 & Hlast); try done.
  - rewrite Edq. apply Permutation_length in Hp1. rewrite E in Hp1. simpl in *. lia.
  - intros r. rewrite Edq, Est. intros Hr. apply Hs. rewrite <- E, Hp1. by right.
  - split_and!; try done.
    + etrans; [exact E3|]. change ((dq_Pop q) <| pq := pq q' |> <| dq := dq q' |> = q <| pq := pq q' |> <| dq := dq q' |>). by rewrite E1 at 1.
    + rewrite Hp3, Hp2, Edq, Epq. rewrite <- E. rewrite Hp1. solve_Permutation.
    + intros r l' Hr. destruct (Hlast r l' Hr) as (j' & m & Hj' & ?). rewrite Est in Hj'. eauto.
Qed.

Lemma promote_shrinks fuel clock i q q' n p : heaps_inv q -> promote fuel clock i q = (q', n) -> p ∈ dq q' -> p ∈ dq q.
Proof.
  revert i q. induction fuel as [|fuel IH]; intros i q Hh Hp Hin; cbn [promote] in Hp; [by simplify_eq|].
  destruct (dq q) as [|r l] eqn:E; [simplify_eq; by rewrite E in Hin|]. destruct (store q !! r) as [j|]; [|simplify_eq; by rewrite E in Hin].
  destruct (IsReady _ _ j); [|simplify_eq; by rewrite E in Hin]. destruct (dq_Pop_spec r l q Hh E) as (E1 & Hp1 & Hh1).
  destruct (pq_Push_spec r (dq_Pop q) Hh1) as (_ & _ & Hh2). apply IH in Hp; [|done|done]. rewrite <- E, Hp1. right. exact Hp.
Qed.

(** ** Operations *)

(** Only signals, results and the like differ. *)
Definition same_core q q' : Prop :=
  same_jobs q q' /\ pq q' = pq q /\ dq q' = dq q /\ sem q' = sem q /\ activeCount q' = activeCount q /\
  waitingDispatch q' = waitingDispatch q /\ cfg q' = cfg q.

Lemma queue_inv_same q q' ls es : same_core q q' -> queue_inv q ls es -> queue_inv q' ls es.
Proof.
  intros (Hj & Hp & Hd & Hs & Ha & Hw & Hc) (HJ & [H1 H2] & [C1 C2 C3 C4 C5]). split; [|split].
  - eapply jobs_inv_same; [exact Hj|]. unfold places. by rewrite Hp, Hd.
  - rewrite <- Hp in H1. rewrite <- Hd in H2. apply (heaps_same q); [|done|done]. intros p _. by rewrite (proj1 Hj).
  - split; rewrite ?Hs, ?Ha, ?Hw, ?Hc; done.
Qed.

Lemma wake_core q : same_core q (wake q).
Proof. done. Qed.

Lemma dispatch_inv clock q ls es q' o : queue_inv q (AtTop :: ls) es -> dispatch clock q = (q', o) ->
  o <> DispatchAgain /\ queue_inv q' (loop_next o :: ls) es.
Proof.
  intros (HJ & Hh & HC) Hd. unfold dispatch in Hd. destruct (promote (length (dq q)) clock 0 q) as [q1 n] eqn:Ep.
  assert (forall p, p ∈ dq q -> is_Some (store q !! p)) as Hsome.
  { intros p Hp. destruct (ji_place _ _ HJ p) as (j & Hj & _); [unfold places; set_solver|]. by eexists. }
  destruct (promote_spec _ _ _ _ _ _ (le_n _) Hh Hsome Ep) as (E1 & Hh1 & Hp1 & _).
  assert (same_jobs q q1) as Hs1 by (by rewrite E1). assert (counts_inv q1 (AtTop :: ls) es) as HC1 by (destruct HC; rewrite E1; by split).
  assert (jobs_inv q1 (places q1 (AtTop :: ls) es)) as HJ1.
  { eapply jobs_inv_same; [exact Hs1|]. eapply jobs_inv_perm; [|exact HJ]. unfold places. rewrite !(app_assoc (pq _)). by rewrite Hp1. }
  clear E1 Hs1 HC HJ Hh Hp1 Hsome Ep q. rename q1 into q.
  assert (forall l, loop_job l = None -> waits l = 0%nat -> loop_sem l = 0%nat -> queue_inv q (l :: ls) es) as Hstay.
  { intros l H1 H2 H3. destruct HC1 as [C1 C2 C3 C4 C5]. split; [|split; [done|]].
    - unfold places in *. cbn [omap list_omap] in *. rewrite H1. exact HJ1.
    - split; cbn [sum_list_with] in *; rewrite ?H2, ?H3; done. }
  destruct (_ && _ && _ && _); [simplify_eq; split; [done|]; by apply Hstay|].
  destruct (pq q) as [|p l] eqn:Epq; [repeat case_match; simplify_eq; (split; [done|]); by apply Hstay|].
  destruct (pq_Pop_spec p l q Hh1 Epq) as (E2 & Hp2 & Hh2 & _).
  destruct (ji_place _ _ HJ1 p) as (j & Hj & Hid & Hfin & _); [unfold places; rewrite Epq; left|].
  assert (store (pq_Pop q) = store q) as Est by (by rewrite E2). rewrite Est, Hj, Hfin in Hd. simplify_eq. split; [done|].
  destruct HC1 as [C1 C2 C3 C4 C5]. split; [|split].
  - eapply (jobs_inv_same q); [by rewrite E2|]. eapply jobs_inv_perm; [|exact HJ1]. unfold places. cbn. rewrite Hp2.
    assert (dq (pq_Pop q) = dq q) as -> by (by rewrite E2). solve_Permutation.
  - exact Hh2.
  - rewrite E2. split; cbn in *; try done. lia.
Qed.

Lemma give_back_inv p q ls es : queue_inv q (Counted p false :: ls) es -> queue_inv (give_back p q) (AtTop :: ls) es.
Proof.
  intros (HJ & Hh & [C1 C2 C3 C4 C5]). eapply queue_inv_same; [apply wake_core|]. destruct (pq_Push_spec p q Hh) as (E & Hp & Hh').
  split; [|split; [done|]].
  - eapply (jobs_inv_same q); [done|]. eapply jobs_inv_perm; [|exact HJ]. unfold places. cbn [omap list_omap loop_job]. rewrite Hp.
    change (dq (pq_Push p q)) with (dq q). solve_Permutation.
  - by split.
Qed.

Lemma place_not_dead q pl p : jobs_inv q pl -> p ∈ pl -> p ∉ deadLetters q.
Proof.
  intros HJ Hp Hd. destruct (ji_place _ _ HJ p Hp) as (j & Hj & _ & Hf & _). destruct (ji_dead _ _ HJ p Hd) as (j' & Hj' & Hs & _).
  simplify_eq. unfold finished_status in Hf. rewrite Hs in Hf. done.
Qed.

(** A new job. *)
Lemma jobs_inv_new q pl job : jobs_inv q pl -> jobs q !! ID job = None -> finished_status job = false -> 0 <= RetryCount job <= MaxRetries job ->
  jobs_inv ((set_job (next_ptr q) job q) <| next_ptr := S (next_ptr q) |> <| jobs := <[ID job := next_ptr q]> (jobs q) |>) (next_ptr q :: pl).
Proof.
  intros HJ Hid Hf Hr. assert (store q !! next_ptr q = None) as Hnew.
  { destruct (store q !! next_ptr q) eqn:E; [|done]. apply (ji_fresh _ _ HJ) in E. lia. }
  assert (next_ptr q ∉ pl) as Hnp by (intros Hp; destruct (ji_place _ _ HJ _ Hp) as (j & Hj & _); congruence).
  split; cbn.
  - constructor; [done|apply HJ].
  - intros p j [[<- _]|[_ Hj]]%lookup_insert_Some; [lia|]. apply (ji_fresh _ _ HJ) in Hj. lia.
  - intros p [->|Hp]%elem_of_cons; [exists job; rewrite !lookup_insert_eq; done|].
    destruct (ji_place _ _ HJ p Hp) as (j & Hj & Hjid & ?). exists j. rewrite !lookup_insert_ne by congruence. done.
  - intros id p [[<- <-]|[Hne Hp]]%lookup_insert_Some; [split; [left|]; exists job; by rewrite lookup_insert_eq|].
    destruct (ji_jobs _ _ HJ id p Hp) as (Hin & j & Hj & ?). split; [by right|]. exists j. rewrite lookup_insert_ne by congruence. done.
  - intros p Hp. destruct (ji_dead _ _ HJ p Hp) as (j & Hj & ?). exists j. rewrite lookup_insert_ne by congruence. done.
Qed.

(** A job that changes where it is. *)
Lemma jobs_inv_update q pl p job job' : jobs_inv q pl -> p ∈ pl -> store q !! p = Some job -> ID job' = ID job ->
  finished_status job' = false -> 0 <= RetryCount job' <= MaxRetries job' -> jobs_inv (set_job p job' q) pl.
Proof.
  intros HJ Hp Hj Hid Hf Hr. split; cbn.
  - apply HJ.
  - intros r j [[<- _]|[_ Hr']]%lookup_insert_Some; [by apply (ji_fresh _ _ HJ) in Hj|by apply (ji_fresh _ _ HJ) in Hr'].
  - intros r Hin. destruct (decide (r = p)) as [->|Hne].
    + exists job'. rewrite lookup_insert_eq, Hid. destruct (ji_place _ _ HJ p Hp) as (j & Hj' & ? & _). simplify_eq. done.
    + rewrite lookup_insert_ne by done. by apply (ji_place _ _ HJ).
  - intros id r Hid'. destruct (ji_jobs _ _ HJ id r Hid') as (Hin & j & Hr' & ?). split; [done|]. destruct (decide (r = p)) as [->|Hne].
    + exists job'. rewrite lookup_insert_eq. simplify_eq. split; [done|congruence].
    + exists j. by rewrite lookup_insert_ne.
  - intros r Hin. assert (r <> p) by (intros ->; by eapply place_not_dead). rewrite lookup_insert_ne by done. by apply (ji_dead _ _ HJ).
Qed.

(** A job that is done, with success or as a dead letter. *)
Lemma jobs_inv_done q q' pl p job job' : jobs_inv q (p :: pl) -> store q !! p = Some job ->
  store q' = <[p := job']> (store q) -> next_ptr q' = next_ptr q -> jobs q' = delete (ID job) (jobs q) ->
  deadLetters q' = deadLetters q \/ (deadLetters q' = deadLetters q ++ [p] /\ Status job' = JobStatusDeadLetter /\ RetryCount job' = MaxRetries job' + 1) ->
  jobs_inv q' pl.
Proof.
  intros HJ Hj Es En Ejobs Hdead. pose proof (ji_nodup _ _ HJ) as [Hnp Hnd]%NoDup_cons.
  destruct (ji_place _ _ HJ p) as (j & Hj' & Hid & _); [left|]. simplify_eq.
  split; rewrite ?Es, ?En, ?Ejobs; cbn.
  - done.
  - intros r j [[<- _]|[_ Hr']]%lookup_insert_Some; [by apply (ji_fresh _ _ HJ) in Hj|by apply (ji_fresh _ _ HJ) in Hr'].
  - intros r Hin. assert (r <> p) by congruence. destruct (ji_place _ _ HJ r) as (j & Hr & Hrid & ?); [by right|]. exists j.
    rewrite lookup_insert_ne by done. split; [done|]. split; [|done]. rewrite lookup_delete_ne by congruence. done.
  - intros id r [Hne Hr]%lookup_delete_Some. destruct (ji_jobs _ _ HJ id r Hr) as (Hin & j & Hrj & Hjid).
    assert (r <> p) by congruence. split; [set_solver|]. exists j. by rewrite lookup_insert_ne.
  - intros r Hin. assert (r ∈ deadLetters q -> exists j, <[p:=job']> (store q) !! r = Some j /\ Status j = JobStatusDeadLetter /\ RetryCount j = MaxRetries j + 1) as Hold.
    { intros Hin'. assert (r <> p) by (intros ->; eapply place_not_dead; [exact HJ|left|done]). rewrite lookup_insert_ne by done. by apply (ji_dead _ _ HJ). }
    destruct Hdead as [E|(E & Hst & Hrc)]; rewrite E in Hin; [by apply Hold|]. apply elem_of_app in Hin as [Hin| ->%list_elem_of_singleton]; [by apply Hold|].
    exists job'. by rewrite lookup_insert_eq.
Qed.

(** Heaps do not see a job that is in neither. *)
Lemma heaps_set p job q : p ∉ pq q ++ dq q -> heaps_inv q -> heaps_inv (set_job p job q).
Proof. intros Hp [H1 H2]. apply (heaps_same q); [|done|done]. intros r Hr. cbn. rewrite lookup_insert_ne; [done|]. by intros ->. Qed.

Lemma insert_job_inv now id priority payload maxRetries delay q q' ls es : queue_inv q ls es ->
  insert_job (NewJob now id priority payload (retries maxRetries q) delay) q = Ok q' -> queue_inv q' ls es.
Proof.
  intros HI Hq. unfold insert_job in Hq. destruct (negb (running q)); [done|]. cbn [ID NewJob Delay] in Hq.
  destruct (jobs q !! id) eqn:Hid; [by simplify_eq|]. destruct HI as (HJ & Hh & HC).
  set (job := NewJob now id priority payload (retries maxRetries q) delay) in *. injection Hq as <-. eapply queue_inv_same; [apply wake_core|].
  set (q1 := (set_job (next_ptr q) job q) <| next_ptr := S (next_ptr q) |> <| jobs := <[id := next_ptr q]> (jobs q) |>).
  assert (0 <= retries maxRetries q) as Hr0.
  { unfold retries. destruct maxRetries as [n|]; [destruct (Z.ltb_spec n 0); lia|apply HC]. }
  assert (jobs_inv q1 (next_ptr q :: places q ls es)) as HJ1 by (apply (jobs_inv_new q _ job); cbn; [done|done|done|lia]).
  assert (heaps_inv q1) as Hh1.
  { apply (heaps_set (next_ptr q) job) in Hh; [exact Hh|]. intros Hin. destruct (ji_place _ _ HJ (next_ptr q)) as (j & Hj & _); [unfold places; set_solver|].
    apply (ji_fresh _ _ HJ) in Hj. lia. }
  destruct (0 <? delay).
  - destruct (dq_Push_spec (next_ptr q) q1 Hh1) as (E & Hp & Hh2). split; [|split; [exact Hh2|by destruct HC]].
    eapply (jobs_inv_same q1); [done|]. eapply jobs_inv_perm; [|exact HJ1]. unfold places.
    change (pq (dq_Push (next_ptr q) q1)) with (pq q). rewrite Hp. change (dq q1) with (dq q). solve_Permutation.
  - destruct (pq_Push_spec (next_ptr q) q1 Hh1) as (E & Hp & Hh2). split; [|split; [exact Hh2|by destruct HC]].
    eapply (jobs_inv_same q1); [done|]. eapply jobs_inv_perm; [|exact HJ1]. unfold places.
    change (dq (pq_Push (next_ptr q) q1)) with (dq q). rewrite Hp. done.
Qed.

(** A worker's job is in no queue. *)
Lemma worker_not_queued p q ls e es : exec_job e = Some p -> jobs_inv q (places q ls (e :: es)) ->
  p ∉ pq q ++ dq q /\ places q ls (e :: es) ≡ₚ p :: places q ls es.
Proof.
  intros He HJ. assert (places q ls (e :: es) ≡ₚ p :: places q ls es) as Hp.
  { unfold places. cbn [omap list_omap]. rewrite He. solve_Permutation. }
  split; [|done]. pose proof (ji_nodup _ _ HJ) as Hn. rewrite Hp in Hn. apply NoDup_cons in Hn as [Hn _]. unfold places in Hn. set_solver.
Qed.

Lemma start_job_inv p q ls es : queue_inv q ls (Spawned p :: es) -> queue_inv (start_job p q) ls (Executing p :: es).
Proof.
  intros (HJ & Hh & HC). destruct (worker_not_queued p q ls (Spawned p) es eq_refl HJ) as [Hnq Hperm].
  destruct (ji_place _ _ HJ p) as (j & Hj & Hid & Hf & Hr); [rewrite Hperm; left|]. unfold start_job. rewrite Hj. split; [|split].
  - apply (jobs_inv_update q (places q ls (Spawned p :: es)) p j); try done. rewrite Hperm. left.
  - by apply heaps_set.
  - by destruct HC.
Qed.

Lemma notify_core id q : same_core q (notifyJobComplete id q).
Proof. unfold notifyJobComplete. by destruct (notifyChan q !! id). Qed.

(** The job leaves the system of places. *)
Lemma done_inv q q' ls p es job job' : queue_inv q ls (Executing p :: es) -> store q !! p = Some job ->
  store q' = <[p := job']> (store q) -> next_ptr q' = next_ptr q -> jobs q' = delete (ID job) (jobs q) -> pq q' = pq q -> dq q' = dq q ->
  sem q' = sem q -> activeCount q' = activeCount q -> waitingDispatch q' = waitingDispatch q -> cfg q' = cfg q ->
  deadLetters q' = deadLetters q \/ (deadLetters q' = deadLetters q ++ [p] /\ Status job' = JobStatusDeadLetter /\ RetryCount job' = MaxRetries job' + 1) ->
  queue_inv q' ls (Finished :: es).
Proof.
  intros (HJ & [H1 H2] & [C1 C2 C3 C4 C5]) Hj Es En Ejobs Ep Ed Esem Ea Ew Ec Hdead.
  destruct (worker_not_queued p q ls (Executing p) es eq_refl HJ) as [Hnq Hperm]. split; [|split].
  - eapply (jobs_inv_done q q' _ p job job'); try done. eapply jobs_inv_perm; [|exact HJ]. rewrite Hperm. unfold places. rewrite Ep, Ed. done.
  - unfold heaps_inv. rewrite Ep, Ed. apply (heaps_same q); [|done|done]. intros r Hr. rewrite Es, lookup_insert_ne; [done|]. by intros <-.
  - split; rewrite ?Ec, ?Ew, ?Esem, ?Ea; done.
Qed.

Lemma finish_job_inv p res now1 now2 q ls es : queue_inv q ls (Executing p :: es) -> queue_inv (finish_job p res now1 now2 q) ls (Finished :: es).
Proof.
  intros HI. pose proof HI as (HJ & Hh & HC). destruct (worker_not_queued p q ls (Executing p) es eq_refl HJ) as [Hnq Hperm].
  destruct (ji_place _ _ HJ p) as (job & Hj & Hid & Hf & Hr); [rewrite Hperm; left|]. unfold finish_job. rewrite Hj. destruct res as [r|e].
  - eapply (done_inv q _ ls p es job); try done; try (unfold notifyJobComplete; case_match; done). left. unfold notifyJobComplete. by case_match.
  - cbn [RetryCount MaxRetries set_field]. set (job1 := job <| RetryCount := RetryCount job + 1 |> <| JobErr := Some e |>).
    change (MaxRetries job1) with (MaxRetries job). change (RetryCount job1) with (RetryCount job + 1).
    destruct (Z.ltb_spec (MaxRetries job) (RetryCount job + 1)) as [Hlt|Hge].
    + eapply (done_inv q _ ls p es job); try done; try (unfold notifyJobComplete; case_match; done).
      right. split; [unfold notifyJobComplete; case_match; done|]. split; [done|]. cbn. lia.
    + set (job2 := job1 <| ReadyTime := _ |> <| EnqueueTime := _ |> <| Status := _ |>). eapply queue_inv_same; [apply wake_core|].
      set (q1 := set_job p job2 q). assert (heaps_inv q1) as Hh1 by (by apply heaps_set). destruct (dq_Push_spec p q1 Hh1) as (E & Hp & Hh2).
      split; [|split; [exact Hh2|by destruct HC]]. eapply (jobs_inv_same q1); [done|].
      eapply (jobs_inv_perm _ (places q ls (Executing p :: es))).
      { unfold places. change (pq (dq_Push p q1)) with (pq q). rewrite Hp. cbn. solve_Permutation. }
      apply (jobs_inv_update q _ p job); try done; [rewrite Hperm; left|]. cbn. lia.
Qed.

(** ** Every step *)

Definition sys_inv (sys : System any) : Prop := queue_inv (queue sys) (loops sys) (execs sys).

(** A goroutine and the queue move on together. *)
Lemma job_loop_moves q q' ls es i l l' : ls !! i = Some l -> queue_inv q ls es ->
  (forall rest, queue_inv q (l :: rest) es -> queue_inv q' (l' :: rest) es) -> queue_inv q' (<[i := l']> ls) es.
Proof.
  intros Hi HI H. destruct (perm_update ls i l l' Hi) as (rest & E1 & E2 & _). eapply queue_inv_perm; [symmetry; exact E2|done|]. apply H.
  by eapply queue_inv_perm; [exact E1|done|].
Qed.

Lemma exec_moves q q' ls es i e e' : es !! i = Some e -> queue_inv q ls es ->
  (forall rest, queue_inv q ls (e :: rest) -> queue_inv q' ls (e' :: rest)) -> queue_inv q' ls (<[i := e']> es).
Proof.
  intros Hi HI H. destruct (perm_update es i e e' Hi) as (rest & E1 & E2 & _). eapply queue_inv_perm; [done|symmetry; exact E2|]. apply H.
  by eapply queue_inv_perm; [done|exact E1|].
Qed.

(** Loops that stand for the same job and are counted alike. *)
Lemma loop_swap q ls es l l' : loop_job l = loop_job l' -> waits l = waits l' -> loop_sem l = loop_sem l' -> queue_inv q (l :: ls) es -> queue_inv q (l' :: ls) es.
Proof.
  intros H1 H2 H3 (HJ & Hh & [C1 C2 C3 C4 C5]). split; [|split; [done|]].
  - unfold places in *. cbn [omap list_omap] in *. by rewrite <- H1.
  - split; cbn [sum_list_with] in *; rewrite <- ?H2, <- ?H3; done.
Qed.

Lemma job_sys_step_inv clock_ok (sys sys' : System any) : sys_step clock_ok sys sys' -> sys_inv sys -> sys_inv sys'.
Proof.
  unfold sys_inv. intros Hstep HI. destruct Hstep; cbn [queue loops execs stops] in *.
  - by apply (queue_inv_same (queue sys)).
  - by apply (queue_inv_same (queue sys)).
  - by eapply insert_job_inv.
  - unfold Start in H. repeat case_match; simplify_eq; [done|done|]. cbn [app].
    destruct HI as (HJ & Hh & [C1 C2 C3 C4 C5]). split; [|split; [exact Hh|by split]].
    by apply (jobs_inv_same (queue sys)).
  - unfold Stop in H. case_match; simplify_eq; [done|]. by apply (queue_inv_same (queue sys)).
  - unfold Stop_end in H0. case_decide; [done|]. injection H0 as <-. by apply (queue_inv_same (queue sys)).
  - eapply job_loop_moves; [done..|]. intros rest Hr. by eapply dispatch_inv.
  - eapply job_loop_moves; [done..|]. intros rest. by apply loop_swap.
  - eapply job_loop_moves; [done..|]. intros rest. by apply loop_swap.
  - eapply job_loop_moves; [done..|]. intros rest. by apply loop_swap.
  - eapply job_loop_moves; [done..|]. intros rest (HJ & Hh & [C1 C2 C3 C4 C5]). split; [by apply (jobs_inv_same (queue sys))|]. split; [exact Hh|]. split; cbn in *; try done; lia.
  - eapply job_loop_moves; [done..|]. intros rest. by apply loop_swap.
  - eapply job_loop_moves; [done..|]. intros rest (HJ & Hh & [C1 C2 C3 C4 C5]). split; [by apply (jobs_inv_same (queue sys))|]. split; [exact Hh|]. split; cbn in *; try done; lia.
  - eapply job_loop_moves; [done..|]. intros rest. apply give_back_inv.
  - destruct (perm_update _ i _ AtTop H) as (rest & E1 & E2 & _). eapply queue_inv_perm; [symmetry; exact E2|done|].
    eapply queue_inv_perm in HI; [|exact E1|done]. destruct HI as (HJ & Hh & [C1 C2 C3 C4 C5]). split; [|split; [exact Hh|]].
    + eapply (jobs_inv_same (queue sys)); [done|]. eapply jobs_inv_perm; [|exact HJ]. unfold places. cbn. solve_Permutation.
    + split; cbn in *; try done; lia.
  - eapply exec_moves; [done..|]. intros rest. apply start_job_inv.
  - eapply exec_moves; [done..|]. intros rest. apply finish_job_inv.
  - eapply exec_moves; [done..|]. intros rest (HJ & Hh & [C1 C2 C3 C4 C5]). split; [by apply (jobs_inv_same (queue sys))|]. split; [exact Hh|]. split; cbn in *; try done; lia.
  - destruct (perm_update _ i _ Released H) as (rest & E1 & _ & E2). eapply queue_inv_perm; [done|symmetry; exact E2|].
    eapply queue_inv_perm in HI; [|done|exact E1]. destruct HI as (HJ & Hh & [C1 C2 C3 C4 C5]). split; [by apply (jobs_inv_same (queue sys))|]. split; [exact Hh|]. split; cbn in *; try done; lia.
  - unfold subscribe in H. case_match; simplify_eq; [done|]. by apply (queue_inv_same (queue sys)).
  - destruct HI as (HJ & Hh & HC). split; [|split; [exact Hh|by destruct HC]]. destruct HJ as [J1 J2 J3 J4 J5]. split; try done. intros p Hp. by apply elem_of_nil in Hp.
  - by apply (queue_inv_same (queue sys)).
Qed.

Lemma new_queue_inv c (q : JobQueue any) : NewJobQueue c = Ok q -> queue_inv q [] [].
Proof.
  unfold NewJobQueue. destruct (Z.leb_spec (PoolSize c) 0); [done|]. intros [= <-]. split_and!.
  - split; try done; try set_solver. constructor.
  - split; intros k Hk; simpl in Hk; lia.
  - split; cbn; try done; destruct (Z.ltb_spec (DefaultMaxRetry c) 0); cbn; case_match; cbn; lia.
Qed.

Lemma job_reachable_inv clock_ok c (sys : System any) : reachable clock_ok c sys -> sys_inv sys.
Proof.
  intros (q & Hq & Hsteps). assert (sys_inv (init_system q)) as H0 by (by eapply new_queue_inv).
  revert H0. induction Hsteps as [|s1 s2 s3 Hstep _ IH]; [done|]. intros H1. apply IH. by eapply job_sys_step_inv.
Qed.
End inv.

(** * Wake-ups *)

(** Within one hold of the mutex the clock stands still. *)
Definition steady (clock : nat -> Z) : Prop := forall i, clock i = clock 0%nat.

Section wake.
Context {any : Type}.
Implicit Types (q : JobQueue any) (j : Job any).

(** * Signals *)

Record signals_inv q : Prop := {
  si_closed c : c ∈ closed q -> (c < next_signal q)%nat;
  si_bound : (wakeCh q < next_signal q /\ stopCh q < next_signal q /\ shutdownCh q < next_signal q)%nat;
  si_distinct : wakeCh q <> stopCh q /\ wakeCh q <> shutdownCh q;
  si_wake : wakeCh q ∉ closed q;
  si_notify id ch : notifyChan q !! id = Some ch ->
    (ch < next_signal q)%nat /\ ch <> wakeCh q /\ ch <> stopCh q /\ ch <> shutdownCh q /\ ch ∉ closed q;
  si_inj id id' ch : notifyChan q !! id = Some ch -> notifyChan q !! id' = Some ch -> id = id';
}.

(** A dispatcher that will go on by itself. *)
Definition live q (l : loop) : Prop :=
  match l with
  | Waiting w st _ => w ∈ closed q \/ st ∈ closed q
  | Exited => False
  | _ => True
  end.

(** The timer goes off before a delayed job is ready, or there is none. *)
Definition covers q (deadline : option Z) : Prop :=
  match deadline with
  | Some d => forall p, p ∈ dq q -> d <= ready_time q p
  | None => dq q = []
  end.

Definition loop_ok q (l : loop) : Prop :=
  match l with
  | Waiting w st dl => live q l \/ (w = wakeCh q /\ st = stopCh q /\ covers q dl)
  | _ => True
  end.

Record wake_inv q (ls : list loop) : Prop := {
  wi_signals : signals_inv q;
  wi_loops : Forall (loop_ok q) ls;
  wi_ready : pq q <> [] -> Exists (live q) ls;
  wi_running : running q = true -> Exists (fun l => l <> Exited) ls;
  wi_stopped : running q = false -> stopCh q ∈ closed q \/ ls = [];
}.

Lemma wake_inv_perm q ls ls' : ls ≡ₚ ls' -> wake_inv q ls -> wake_inv q ls'.
Proof.
  intros Hp [H1 H2 H3 H4 H5]. split; try done.
  - by rewrite <- Hp.
  - intros H. rewrite <- Hp. by apply H3.
  - intros H. rewrite <- Hp. by apply H4.
  - intros H. destruct (H5 H) as [?| ->]; [by left|right]. by apply Permutation_nil_l in Hp.
Qed.

(** ** Closing the wake channel *)

Lemma wake_signals_jq q : signals_inv q -> signals_inv (wake q).
Proof.
  intros [H1 H2 H3 H4 H5 H6]. unfold wake, close_signal. split; cbn; try done.
  - intros c. rewrite elem_of_union, elem_of_singleton. intros [->|Hc%H1]; lia.
  - lia.
  - lia.
  - rewrite elem_of_union, elem_of_singleton. intros [?|Hc%H1]; lia.
  - intros id ch Hch. destruct (H5 id ch Hch) as (? & ? & ? & ? & ?). split_and!; [lia..|]. set_solver.
Qed.

Lemma live_mono q q' l : closed q ⊆ closed q' -> live q l -> live q' l.
Proof. intros Hc. destruct l; cbn; try done. intros [?|?]; set_solver. Qed.

(** Whatever was pushed before, waking is enough. *)
Lemma wake_inv_wake q q' ls : wake_inv q ls -> signals_inv q' -> wakeCh q' = wakeCh q -> closed q ⊆ closed q' -> running q' = running q -> stopCh q' = stopCh q ->
  running q' = true \/ pq q' = pq q \/ AtTop ∈ ls -> wake_inv (wake q') ls.
Proof.
  intros [H1 H2 H3 H4 H5] Hs Hw Hc Hr Hst Hor. assert (forall l, live q l -> live (wake q') l) as Hlive by (intros l; apply live_mono; cbn; set_solver).
  assert (forall l, loop_ok q l -> l <> Exited -> live (wake q') l) as Hall.
  { intros [|w st dl| | | | |] Hok Hne; try done. destruct Hok as [?|(-> & _)]; [by apply Hlive|]. left. cbn. rewrite Hw. set_solver. }
  split.
  - by apply wake_signals_jq.
  - eapply Forall_impl; [exact H2|]. intros l Hl. destruct l; try done. left. by apply Hall.
  - intros Hpq. destruct Hor as [Hrun|[E|Htop]].
    + rewrite Hr in Hrun. apply Exists_exists. destruct (proj1 (Exists_exists _ _) (H4 Hrun)) as (l & Hin & Hne). exists l. split; [done|].
      apply Hall; [|done]. rewrite Forall_forall in H2. by apply H2.
    + cbn in Hpq. rewrite E in Hpq. eapply Exists_impl; [by apply H3|]. done.
    + apply Exists_exists. by exists AtTop.
  - cbn. rewrite Hr. done.
  - cbn. rewrite Hr, Hst. intros Hf. destruct (H5 Hf); [left; set_solver|by right].
Qed.

(** Nothing a dispatcher depends on changes, or the queues only shrink. *)
Lemma wake_inv_same q q' ls : wake_inv q ls -> signals_inv q' -> wakeCh q' = wakeCh q -> closed q ⊆ closed q' -> running q' = running q -> stopCh q' = stopCh q ->
  (pq q' <> [] -> pq q <> []) -> (forall p, p ∈ dq q' -> p ∈ dq q /\ ready_time q' p = ready_time q p) -> wake_inv q' ls.
Proof.
  intros [H1 H2 H3 H4 H5] Hs Hw Hc Hr Hst Hpq Hdq. assert (forall l, live q l -> live q' l) as Hlive by (intros l; by apply live_mono).
  split; [done| | | |].
  - eapply Forall_impl; [exact H2|]. intros l Hl. destruct l as [|w st dl| | | | |]; try done. destruct Hl as [?|(-> & -> & Hcov)]; [left; by apply Hlive|right].
    rewrite Hw, Hst. split; [done|]. split; [done|]. destruct dl as [d|]; cbn in *.
    + intros p Hp. destruct (Hdq p Hp) as [? ->]. by apply Hcov.
    + destruct (dq q') as [|p l]; [done|]. destruct (Hdq p) as [Hp _]; [left|]. rewrite Hcov in Hp. by apply elem_of_nil in Hp.
  - intros Hne. eapply Exists_impl; [by apply H3, Hpq|]. done.
  - by rewrite Hr.
  - rewrite Hr, Hst. intros Hf. destruct (H5 Hf); [left; set_solver|by right].
Qed.

(** ** The steps *)

(** Signals only depend on the channels. *)
Definition same_signals q q' : Prop :=
  closed q' = closed q /\ next_signal q' = next_signal q /\ wakeCh q' = wakeCh q /\ stopCh q' = stopCh q /\
  shutdownCh q' = shutdownCh q /\ notifyChan q' = notifyChan q.

Lemma signals_same q q' : same_signals q q' -> signals_inv q -> signals_inv q'.
Proof. intros (E1 & E2 & E3 & E4 & E5 & E6) [H1 H2 H3 H4 H5 H6]. split; rewrite ?E1, ?E2, ?E3, ?E4, ?E5, ?E6; done. Qed.

(** Closing a channel that nobody else uses. *)
Lemma close_signals c q : signals_inv q -> (c < next_signal q)%nat -> c <> wakeCh q -> (forall id, notifyChan q !! id <> Some c) -> signals_inv (close_signal c q).
Proof.
  intros [H1 H2 H3 H4 H5 H6] Hc Hw Hn. split; cbn; try done.
  - intros c'. rewrite elem_of_union, elem_of_singleton. intros [->|?]; auto.
  - set_solver.
  - intros id ch Hch. destruct (H5 id ch Hch) as (? & ? & ? & ? & ?). split_and!; try done. assert (ch <> c) by (intros ->; by eapply Hn). set_solver.
Qed.

Lemma subscribe_wake id ch ok q q' ls : subscribe id q = (ch, ok, q') -> wake_inv q ls -> wake_inv q' ls.
Proof.
  unfold subscribe. destruct (notifyChan q !! id) as [c|] eqn:E; intros Hq Hw; simplify_eq; [done|].
  apply (wake_inv_same q); try done. destruct (wi_signals _ _ Hw) as [H1 H2 H3 H4 H5 H6]. split; cbn; try done.
  - intros c Hc%H1. lia.
  - lia.
  - intros id' ch. rewrite lookup_insert_Some. intros [[<- <-]|[_ Hch]]; [split_and!; [lia..|]; by intros ?%H1; lia|].
    destruct (H5 id' ch Hch) as (? & ? & ? & ? & ?). split_and!; try done; lia.
  - intros id1 id2 ch. rewrite !lookup_insert_Some. intros [[<- <-]|[Hn1 Hc1]] [[<- E2]|[Hn2 Hc2]]; try done.
    + apply H5 in Hc2. lia.
    + subst ch. apply H5 in Hc1. lia.
    + by eapply H6.
Qed.

Lemma notify_signals id q : signals_inv q -> signals_inv (notifyJobComplete id q) /\ closed q ⊆ closed (notifyJobComplete id q).
Proof.
  intros Hs. unfold notifyJobComplete. destruct (notifyChan q !! id) as [ch|] eqn:E; [|done]. split; [|cbn; set_solver].
  destruct Hs as [H1 H2 H3 H4 H5 H6]. destruct (H5 id ch E) as (? & ? & ? & ? & ?). split; cbn; try done.
  - intros c. rewrite elem_of_union, elem_of_singleton. intros [->|?]; auto.
  - set_solver.
  - intros id' ch' [Hne Hch]%lookup_delete_Some. destruct (H5 id' ch' Hch) as (? & ? & ? & ? & ?). split_and!; try done.
    assert (ch' <> ch) by (intros ->; apply Hne; by eapply H6). set_solver.
  - intros id1 id2 ch' [_ Hc1]%lookup_delete_Some [_ Hc2]%lookup_delete_Some. by eapply H6.
Qed.

Lemma Start_wake e started q q' ls : Start q = (e, started, q') -> wake_inv q ls -> wake_inv q' ((if started then [AtTop] else []) ++ ls).
Proof.
  unfold Start. intros Hq Hw. repeat case_match; simplify_eq; cbn [app]; [done|done|]. destruct Hw as [[H1 H2 H3 H4 H5 H6] HL _ _ Hstop]. split.
  - split; cbn.
    + intros c Hc%H1. lia.
    + lia.
    + lia.
    + intros Hc%H1. lia.
    + intros id ch Hch. destruct (H5 id ch Hch) as (? & ? & ? & ? & ?). split_and!; try done; lia.
    + done.
  - constructor; [done|]. destruct (Hstop ltac:(done)) as [Hst| ->]; [|constructor]. eapply Forall_impl; [exact HL|].
    intros [|w st dl| | | | |] Hl; try done. left. destruct Hl as [?|(-> & -> & _)]; [done|]. by right.
  - intros _. by left.
  - intros _. by left.
  - done.
Qed.

Lemma Stop_wake (waits : bool) q q' ls : Stop q = (q', waits) -> wake_inv q ls -> wake_inv q' ls.
Proof.
  unfold Stop. intros Hq Hw. case_match; simplify_eq; [done|]. set (q1 := close_signal (stopCh q) (q <| running := false |>)).
  assert (wake_inv q1 ls) as Hw1.
  { destruct Hw as [Hs HL HP _ _]. assert (forall l, live q l -> live q1 l) as Hlive by (intros l; apply live_mono; cbn; set_solver). split.
    - apply close_signals; cbn; [by apply (signals_same q)|pose proof (si_bound _ Hs); cbn in *; lia|pose proof (si_distinct _ Hs); cbn in *; lia|].
      intros id Hid. apply (si_notify _ Hs) in Hid. cbn in *. lia.
    - eapply Forall_impl; [exact HL|]. intros [|w st dl| | | | |] Hl; try done. left. destruct Hl as [?|(_ & -> & _)]; [by apply Hlive|]. right. cbn. set_solver.
    - intros Hpq. eapply Exists_impl; [by apply HP|]. done.
    - done.
    - left. cbn. set_solver. }
  apply (wake_inv_wake q1); try done; [apply Hw1|]. by right; left.
Qed.

Lemma Stop_end_wake q q' ls : Stop_end q = Some q' -> wake_inv q ls -> wake_inv q' ls.
Proof.
  unfold Stop_end. case_decide; [done|]. intros [= <-] Hw. apply (wake_inv_same q); try done; [|cbn; set_solver].
  pose proof (wi_signals _ _ Hw) as Hs. apply close_signals; [done|pose proof (si_bound _ Hs); lia|pose proof (si_distinct _ Hs); lia|].
  intros id Hid. apply (si_notify _ Hs) in Hid. lia.
Qed.

Lemma insert_wake job q q' ls : insert_job job q = Ok q' -> wake_inv q ls -> wake_inv q' ls.
Proof.
  unfold insert_job. intros Hq Hw. destruct (negb (running q)) eqn:Er; [done|]. destruct (jobs q !! ID job); [by simplify_eq|]. injection Hq as <-.
  apply negb_false_iff in Er. destruct (0 <? Delay job); (apply (wake_inv_wake q); try done; [by apply (signals_same q), Hw|by left]).
Qed.

(** One dispatcher moves on; the delay queue may shrink. *)
Lemma wake_inv_head q q' l0 l ls : wake_inv q (l0 :: ls) -> same_signals q q' -> running q' = running q ->
  (forall p, p ∈ dq q' -> p ∈ dq q /\ ready_time q' p = ready_time q p) ->
  loop_ok q' l -> (l <> Exited \/ running q = false) -> (pq q' = [] \/ live q' l) -> wake_inv q' (l :: ls).
Proof.
  intros [Hs HL _ _ Hstop] Hsig Hr Hdq Hok Hex Hpq. pose proof Hsig as (Ec & _ & Ew & Est & _ & _). apply Forall_cons in HL as [_ HL].
  split.
  - by eapply signals_same.
  - constructor; [done|]. eapply Forall_impl; [exact HL|]. intros [|w st dl| | | | |] Hl; try done.
    destruct Hl as [Hl|(-> & -> & Hcov)]; [left; eapply live_mono; [|exact Hl]; by rewrite Ec|right]. rewrite Ew, Est. split; [done|]. split; [done|].
    destruct dl as [d|]; cbn in *.
    + intros p Hp. destruct (Hdq p Hp) as [? ->]. by apply Hcov.
    + destruct (dq q') as [|p r]; [done|]. destruct (Hdq p) as [Hp _]; [left|]. rewrite Hcov in Hp. by apply elem_of_nil in Hp.
  - intros Hne. left. by destruct Hpq.
  - rewrite Hr. intros Hrun. left. destruct Hex; [done|congruence].
  - rewrite Hr, Est, Ec. intros Hf. left. by destruct (Hstop Hf).
Qed.

(** The dispatcher itself, when the clock stands still. *)
Lemma dispatch_wake clock q ls es q' o : steady clock -> queue_inv q (AtTop :: ls) es -> dispatch clock q = (q', o) ->
  wake_inv q (AtTop :: ls) -> wake_inv q' (loop_next o :: ls).
Proof.
  intros Hclock (HJ & Hh & HC) Hd Hw. unfold dispatch in Hd. destruct (promote (length (dq q)) clock 0 q) as [q1 n] eqn:Ep.
  assert (forall p, p ∈ dq q -> is_Some (store q !! p)) as Hsome.
  { intros p Hp. destruct (ji_place _ _ HJ p) as (j & Hj & _); [unfold places; set_solver|]. by eexists. }
  destruct (promote_spec _ _ _ _ _ _ (le_n _) Hh Hsome Ep) as (E1 & Hh1 & Hp1 & Hlast).
  assert (forall p, p ∈ pq q1 -> exists j, store q1 !! p = Some j /\ finished_status j = false) as Hpqj.
  { intros p Hp. destruct (ji_place _ _ HJ p) as (j & Hj & _ & Hf & _); [unfold places; rewrite !elem_of_app; assert (p ∈ pq q ++ dq q) by (rewrite <- Hp1; set_solver); set_solver|].
    exists j. by rewrite E1. }
  assert (forall p, p ∈ dq q1 -> p ∈ dq q /\ ready_time q1 p = ready_time q p) as Hdq.
  { intros p Hp. split; [|by rewrite E1]. by eapply promote_shrinks. }
  assert (same_signals q q1 /\ running q1 = running q) as [Hsig Hrun] by (by rewrite E1).
  destruct (_ && _ && _ && _) eqn:Ecnd.
  { assert (pq q1 = [] /\ running q1 = false) as [Hnil Hstopped] by (by destruct (pq q1), (running q1)).
    simplify_eq. apply (wake_inv_head q q' AtTop Exited); try done; [right; congruence|by left]. }
  destruct (pq q1) as [|p l] eqn:Epq.
  - destruct (Z.ltb_spec 0 (match dq q1 with [] => 0 | p :: _ => ready_time q1 p - clock n end)) as [Hlt|Hge].
    + simplify_eq. apply (wake_inv_head q q' AtTop); try done; [right|by left|by left]. split; [done|]. split; [done|]. cbn.
      destruct (dq q') as [|p l] eqn:Edq; [lia|]. intros r Hr. destruct Hh1 as [_ Hh1]. rewrite Edq in Hh1.
      pose proof (heap_min (dq_Less q') (p :: l) p Hh1 eq_refl r Hr) as Hm. unfold le, dq_Less in Hm. bools. lia.
    + destruct (negb (running q1)); simplify_eq; apply (wake_inv_head q q' AtTop); try done; try (by left). right. split; [done|]. split; [done|]. cbn.
      destruct (dq q') as [|p l] eqn:Edq; [done|]. exfalso. destruct (Hlast p l eq_refl) as (j & m & Hj & -> & Hrd).
      assert (ready_time q' p = ReadyTime j) as Ert by (unfold ready_time; rewrite E1; cbn; by rewrite Hj). rewrite Ert in Hge.
      unfold IsReady in Hrd. rewrite (Hclock m), (Hclock (S m)) in Hrd. rewrite (Hclock (S (S m))) in Hge. bools. lia.
  - destruct (pq_Pop_spec p l q1 Hh1 Epq) as (E2 & _). destruct (Hpqj p) as (j & Hj & Hf); [left|].
    assert (store (pq_Pop q1) = store q1) as Est by (by rewrite E2). rewrite Est, Hj, Hf in Hd. simplify_eq.
    set (q2 := pq_Pop q1) in *. rewrite E2. apply (wake_inv_head q _ AtTop); try done; [by left|by right].
Qed.

Lemma finish_wake p res now1 now2 q ls es : queue_inv q ls (Executing p :: es) -> wake_inv q ls -> wake_inv (finish_job p res now1 now2 q) ls.
Proof.
  intros (HJ & _ & _) Hw. destruct (worker_not_queued p q ls (Executing p) es eq_refl HJ) as [Hnq Hperm].
  unfold finish_job. destruct (store q !! p) as [job|] eqn:Hj; [|done].
  assert (forall q1 id job', same_signals q q1 -> running q1 = running q -> store q1 = <[p := job']> (store q) -> pq q1 = pq q -> dq q1 = dq q ->
    wake_inv ((notifyJobComplete id q1) <| jobs := delete (ID job) (jobs (notifyJobComplete id q1)) |>) ls) as Hdone.
  { intros q1 id job' Hsig Hr Est Epq Edq. destruct (notify_signals id q1) as [Hs1 Hc1]; [by apply (signals_same q), Hw|]. destruct Hsig as (Ec & _ & Ew & Es & _ & _).
    assert (same_core q1 (notifyJobComplete id q1)) as ((Est1 & _) & Ep1 & Ed1 & _) by apply notify_core.
    apply (wake_inv_same q); try done; cbn.
    - by apply (signals_same (notifyJobComplete id q1)).
    - rewrite <- Ew. unfold notifyJobComplete. by case_match.
    - by rewrite <- Ec.
    - rewrite <- Hr. unfold notifyJobComplete. by case_match.
    - rewrite <- Es. unfold notifyJobComplete. by case_match.
    - by rewrite Ep1, Epq.
    - intros r Hr'. rewrite Ed1, Edq in Hr'. split; [done|]. unfold ready_time. cbn. rewrite Est1, Est, lookup_insert_ne; [done|]. intros <-. set_solver. }
  destruct res as [r|e]; [by eapply Hdone|]. cbn zeta. case_match; [by eapply Hdone|].
  apply (wake_inv_wake q); try done; [by apply (signals_same q), Hw|by right; left].
Qed.

(** A dispatcher moves on without the queues. *)
Lemma loop_goes q q' ls i l l' : ls !! i = Some l -> wake_inv q ls -> same_signals q q' -> running q' = running q -> pq q' = pq q -> dq q' = dq q -> store q' = store q ->
  loop_ok q' l' -> l' <> Exited -> live q' l' -> wake_inv q' (<[i := l']> ls).
Proof.
  intros Hi Hw Hsig Hr Hp Hd Hst Hok Hne Hl. destruct (perm_update ls i l l' Hi) as (rest & E1 & E2 & _). eapply wake_inv_perm; [symmetry; exact E2|].
  eapply wake_inv_perm in Hw; [|exact E1]. apply (wake_inv_head q q' l l'); auto. intros p. rewrite Hd. unfold ready_time. by rewrite Hst.
Qed.

Lemma sys_step_wake (sys sys' : System any) : sys_step steady sys sys' -> sys_inv sys -> wake_inv (queue sys) (loops sys) -> wake_inv (queue sys') (loops sys').
Proof.
  unfold sys_inv. intros Hstep HI Hw. destruct Hstep; cbn [queue loops execs stops] in *;
    try (by eapply loop_goes); try (by apply (wake_inv_same (queue sys)); try done; apply (signals_same (queue sys)), Hw).
  - by eapply insert_wake.
  - by eapply Start_wake.
  - by eapply Stop_wake.
  - by eapply Stop_end_wake.
  - destruct (perm_update _ i _ (loop_next o) H) as (rest & E1 & E2 & _). eapply wake_inv_perm; [symmetry; exact E2|].
    eapply dispatch_wake; [done| |done|]; [by eapply queue_inv_perm; [exact E1|done|exact HI]|by eapply wake_inv_perm].
  - assert (wake_inv (queue sys) (<[i := AtTop]> (loops sys))) as Hw1 by (by eapply loop_goes).
    apply (wake_inv_wake (queue sys)); try done; [by apply (signals_same (queue sys)), Hw|]. right. right.
    apply list_elem_of_lookup_2 with i. apply list_lookup_insert_eq. by eapply lookup_lt_Some.
  - destruct (perm_update _ i _ Finished H) as (rest & E1 & _). unfold start_job. destruct (store (queue sys) !! p) as [j|] eqn:Hj; [|done].
    apply (wake_inv_same (queue sys)); try done; [by apply (signals_same (queue sys)), Hw|]. intros r Hr. split; [done|]. unfold ready_time. cbn.
    destruct (decide (r = p)) as [->|]; [by rewrite lookup_insert_eq, Hj|by rewrite lookup_insert_ne].
  - destruct (perm_update _ i _ Finished H) as (rest & E1 & _). eapply finish_wake; [|done]. by eapply queue_inv_perm; [|exact E1|exact HI].
  - by eapply subscribe_wake.
Qed.

Lemma reachable_wake c (sys : System any) : reachable steady c sys -> wake_inv (queue sys) (loops sys).
Proof.
  intros (q & Hq & Hsteps). assert (sys_inv (init_system q)) as H0 by (by eapply new_queue_inv).
  assert (wake_inv (queue (init_system q)) (loops (init_system q))) as H1.
  { unfold NewJobQueue in Hq. destruct (PoolSize c <=? 0); [done|]. injection Hq as <-. split; cbn; try done; [|by right].
    split; cbn; try done; [set_solver|lia..]. }
  revert H0 H1. induction Hsteps as [|s1 s2 s3 Hstep _ IH]; [done|]. intros H1 H2. apply IH; [by eapply job_sys_step_inv|by eapply sys_step_wake].
Qed.
End wake.
