(* ===== verification/JobQueueThms.v ===== *)
(** The theorems on the job queue, and traces of what goes wrong in it. *)

From stdpp Require Import base tactics option list gmap sets strings.
From Stdlib Require Import ZArith Lia.
From S2P Require Import Prelude GoStrings GoHeap JobQueue JobQueueProofs.

Section theorems.
Context {any : Type}.
Implicit Types (q : JobQueue any) (j : Job any).

(** C28: whatever the interleaving, the jobs the queue knows are exactly those
    waiting in one of the queues, held by a dispatcher or run by a worker, each
    in one of these places only; none of them is finished or has failed more
    often than it may; a dead letter has failed once more than its retries
    allow; the counters of pending and active jobs are exact up to the jobs
    that change hands; and no more jobs run than the pool has workers. *)
Theorem jobqueue_conserves_jobs clock_ok (c : Config) (sys : System any) :
  reachable clock_ok c sys ->
  let q := queue sys in let pl := pq q ++ dq q ++ omap loop_job (loops sys) ++ omap exec_job (execs sys) in
  NoDup pl /\ (forall p, p ∈ pl <-> exists id, jobs q !! id = Some p) /\
  (forall p, p ∈ pl -> exists j, store q !! p = Some j /\ finished_status j = false /\ 0 <= RetryCount j <= MaxRetries j) /\
  (forall p, p ∈ deadLetters q -> exists j, store q !! p = Some j /\ Status j = JobStatusDeadLetter /\ RetryCount j = MaxRetries j + 1) /\
  PendingCount q = Z.of_nat (length (pq q) + length (dq q) + sum_list_with waits (loops sys)) /\
  ActiveCount q = Z.of_nat (length (execs sys)) /\ Z.of_nat (length (omap exec_job (execs sys))) <= PoolSize (cfg q).
Proof.
  intros (HJ & _ & [C1 C2 C3 C4 C5])%job_reachable_inv. cbn zeta. split_and!.
  - apply HJ.
  - intros p. split; [intros Hp; destruct (ji_place _ _ HJ p Hp) as (j & _ & Hid & _); by eexists|]. intros [id Hid]. by apply (ji_jobs _ _ HJ) in Hid as [? _].
  - intros p Hp. destruct (ji_place _ _ HJ p Hp) as (j & ? & _ & ?). by exists j.
  - apply HJ.
  - unfold PendingCount. rewrite C2. lia.
  - exact C5.
  - etrans; [|exact C4]. rewrite C3. apply inj_le. clear. induction (execs sys) as [|[] es IH]; cbn; lia.
Qed.

(** The job a dispatcher takes has the highest priority of those that are
    ready, and of these it was enqueued first. *)
Theorem highest_priority_first clock_ok (c : Config) (sys : System any) i clock q' p w st b :
  reachable clock_ok c sys -> loops sys !! i = Some AtTop -> dispatch clock (queue sys) = (q', DispatchJob p w st b) ->
  exists j, store q' !! p = Some j /\ p ∉ pq q' /\ forall r j', r ∈ pq q' -> store q' !! r = Some j' ->
    Priority j' < Priority j \/ (Priority j' = Priority j /\ EnqueueTime j <= EnqueueTime j').
Proof.
  intros HI%job_reachable_inv Hi Hd. destruct (perm_update _ i _ AtTop Hi) as (rest & E & _).
  eapply queue_inv_perm in HI; [|exact E|done]. destruct (dispatch_inv _ _ _ _ _ _ HI Hd) as [_ (HJ' & _)].
  destruct (ji_place _ _ HJ' p) as (j & Hj & _); [unfold places; cbn; set_solver|]. exists j. split; [done|]. split.
  { pose proof (ji_nodup _ _ HJ') as Hn. unfold places in Hn. cbn in Hn. apply NoDup_app in Hn as (_ & Hn & _). intros Hp. apply (Hn p Hp). set_solver. }
  destruct HI as (HJ & Hh & _). unfold dispatch in Hd. destruct (promote (length (dq (queue sys))) clock 0 (queue sys)) as [q1 n] eqn:Ep.
  assert (forall r, r ∈ dq (queue sys) -> is_Some (store (queue sys) !! r)) as Hsome.
  { intros r Hr. destruct (ji_place _ _ HJ r) as (j1 & Hj1 & _); [unfold places; set_solver|]. by eexists. }
  destruct (promote_spec _ _ _ _ _ _ (le_n _) Hh Hsome Ep) as (_ & Hh1 & _ & _).
  destruct (_ && _ && _ && _); [done|]. destruct (pq q1) as [|p0 l] eqn:Epq; [repeat case_match; done|].
  destruct (pq_Pop_spec p0 l q1 Hh1 Epq) as (E2 & Hperm & _ & Hmin). repeat case_match; simplify_eq. intros r j' Hr Hj'.
  assert (r ∈ pq q1) as Hin by (rewrite Hperm; by right). specialize (Hmin r Hin). rewrite E2 in Hj, Hj'. cbn in Hj, Hj'.
  unfold pq_Less, pq_key in Hmin. rewrite Hj, Hj' in Hmin. destruct (Z.eqb_spec (Priority j') (Priority j)); bools; lia.
Qed.

(** C33: no wake-up is lost while the clock stands still within a round: when
    the queue runs and no dispatcher can go on by itself, no job is ready, and
    some dispatcher has a timer that goes off before any delayed job is ready,
    if there is one. *)
Theorem dispatcher_no_lost_wakeup (c : Config) (sys : System any) :
  reachable steady c sys -> running (queue sys) = true -> (forall l, l ∈ loops sys -> ~ live (queue sys) l) ->
  pq (queue sys) = [] /\
  (dq (queue sys) = [] \/ exists w st d, Waiting w st (Some d) ∈ loops sys /\ forall p, p ∈ dq (queue sys) -> d <= ready_time (queue sys) p).
Proof.
  intros Hw%reachable_wake Hrun Hdead. destruct Hw as [_ HL HP Hex _]. split.
  - destruct (pq (queue sys)) as [|p l]; [done|]. destruct (proj1 (Exists_exists _ _) (HP ltac:(done))) as (l' & Hin & Hl'). by destruct (Hdead l' Hin).
  - destruct (proj1 (Exists_exists _ _) (Hex Hrun)) as (l & Hin & Hne). rewrite Forall_forall in HL. specialize (HL l Hin). specialize (Hdead l Hin).
    destruct l as [|w st [d|]| | | | |]; cbn in *; try tauto; destruct HL as [?|(_ & _ & Hcov)]; try done; right; by exists w, st, d.
Qed.

(** An Enqueue that returns without an error is made of steps of the system;
    one that returns an error only used up an id. *)
Lemma enqueue_steps clock_ok (sys : System any) now0 now id priority payload delay r res q' :
  enqueueInternal now0 now id priority payload delay (retries r (queue sys)) (queue sys) = (res, q') ->
  rtc (sys_step clock_ok) sys {| queue := q'; loops := loops sys; execs := execs sys; stops := stops sys |} /\
  match res with
  | Ok id' => running q' = true /\ is_Some (jobs q' !! id') /\ (id <> "" -> id' = id)
  | Err e => e = ErrQueueStopped /\ running (queue sys) = false /\ q' = queue sys
  end.
Proof.
  destruct sys as [q ls es n]. unfold enqueueInternal. cbn [queue loops execs stops]. intros He.
  destruct (running q) eqn:Hr; cbn [negb] in He; [|simplify_eq; done].
  set (gen := if decide (id = "") then generateID now0 q else (id, q)) in *.
  assert (rtc (sys_step clock_ok) {| queue := q; loops := ls; execs := es; stops := n |} {| queue := gen.2; loops := ls; execs := es; stops := n |} /\
    running gen.2 = true /\ retries r gen.2 = retries r q /\ (id <> "" -> gen.1 = id)) as (Hg & Hr' & Hret & Hid).
  { unfold gen. destruct (decide (id = "")) as [->|]; [|done]. split_and!; [|done..]. apply rtc_once, (StepGenerateID clock_ok now0 {| queue := q; loops := ls; execs := es; stops := n |}). }
  destruct gen as [id1 q1]. cbn [fst snd] in *. destruct (insert_job _ q1) as [q2|e] eqn:Ei; simplify_eq.
  - split.
    + etrans; [exact Hg|]. apply rtc_once. rewrite <- Hret in Ei. by apply (StepInsert clock_ok now id1 priority payload r delay q' {| queue := q1; loops := ls; execs := es; stops := n |}).
    + unfold insert_job in Ei. rewrite Hr' in Ei. cbn in Ei. destruct (jobs q1 !! _) eqn:E; simplify_eq; [by rewrite E|].
      destruct (0 <? delay); (split_and!; [done|cbn; rewrite lookup_insert_eq; by eexists|done]).
  - unfold insert_job in Ei. rewrite Hr' in Ei. cbn in Ei. by case_match.
Qed.

(** The status of a job that is not finished is found exactly for the jobs the
    queue knows; a job that is forgotten is found among the dead letters or
    the successes, as finished. *)
Theorem GetJobStatus_known clock_ok (c : Config) (sys : System any) id :
  reachable clock_ok c sys ->
  (is_Some (jobs (queue sys) !! id) <-> exists st, GetJobStatus id (queue sys) = Ok st /\ st <> JobStatusDeadLetter /\ st <> JobStatusCompleted).
Proof.
  intros (HJ & _ & _)%job_reachable_inv. unfold GetJobStatus. destruct (jobs (queue sys) !! id) as [p|] eqn:E; cbn.
  - split; [intros _|by eexists]. apply (ji_jobs _ _ HJ) in E as [Hp _]. destruct (ji_place _ _ HJ p Hp) as (j & Hj & _ & Hf & _). rewrite Hj.
    exists (Status j). split; [done|]. unfold finished_status in Hf. apply orb_false_iff in Hf as [?%bool_decide_eq_false ?%bool_decide_eq_false]. done.
  - split; [by intros []|]. intros (st & Hst & Hn1 & Hn2). destruct (list_find _ _) as [[k j]|] eqn:Ef.
    + apply list_find_Some in Ef as (Hk & _ & _). apply list_elem_of_lookup_2, list_elem_of_omap in Hk as (p & Hp & Hj).
      destruct (ji_dead _ _ HJ p Hp) as (j' & Hj' & Hs & _). congruence.
    + case_match; simplify_eq.
Qed.

(** ** Waiters *)

(** A waiter that made its channel itself is announced to. *)
Definition waiter_ok (s : Waits any) (w : waiter any) : Prop :=
  match w with
  | WRecheck id ch => ch ∈ closed (wq s) \/ notifyChan (wq s) !! id = Some ch
  | WSelect id ch true => ch ∈ closed (wq s) \/
      (notifyChan (wq s) !! id = Some ch /\ (lookupResult id (wq s) = None \/ announcing s = Some id))
  | _ => True
  end.

Lemma wait_step_ok q w q' w' : wait_step q w q' w' -> closed q' = closed q /\ successResults q' = successResults q /\
  deadLetterResults q' = deadLetterResults q /\ (forall id ch, notifyChan q !! id = Some ch -> notifyChan q' !! id = Some ch).
Proof.
  destruct 1 as [| |id ch ok q q' Hs| | | | |]; try done. unfold subscribe in Hs. destruct (notifyChan q !! id) eqn:E; simplify_eq; [done|].
  split_and!; try done. intros id' ch' Hid. cbn. rewrite lookup_insert_ne; [done|congruence].
Qed.

Lemma waits_step_ok (s s' : Waits any) : waits_step s s' -> Forall (waiter_ok s) (waiters s) -> Forall (waiter_ok s') (waiters s').
Proof.
  destruct 1 as [i w w' q' s Hi Hw|id s|id r s Ha|id e s Ha|id s Ha|s]; intros HF; cbn [waiters].
  - destruct (wait_step_ok _ _ _ _ Hw) as (Ec & E1 & E2 & En). apply Forall_insert.
    + eapply Forall_impl; [exact HF|]. intros [| |id ch|id ch []| |]; cbn; try done; rewrite Ec; unfold lookupResult; cbn; rewrite ?E1, ?E2; naive_solver.
    + assert (waiter_ok s w) as Hok by (rewrite Forall_forall in HF; apply HF; by eapply list_elem_of_lookup_2).
      inversion Hw as [| |id ch ok q0 q0' Hs| |id ch q0 Hn| | |]; subst; try done.
      * destruct ok; [done|]. cbn. unfold subscribe in Hs. case_match; simplify_eq. right. cbn. apply lookup_insert_eq.
      * cbn in *. destruct Hok as [?|?]; [by left|right]. split; [done|]. by left.
  - apply Forall_app. split; [exact HF|]. by repeat constructor.
  - eapply Forall_impl; [exact HF|]. intros [| |id' ch|id' ch []| |]; cbn; try done. intros [?|[? Hor]]; [by left|right]. split; [done|].
    destruct (decide (id' = id)) as [->|Hne]; [by right|left]. destruct Hor as [Hor|Hor]; [|congruence]. unfold lookupResult in *. cbn. by rewrite lookup_insert_ne.
  - eapply Forall_impl; [exact HF|]. intros [| |id' ch|id' ch []| |]; cbn; try done. intros [?|[? Hor]]; [by left|right]. split; [done|].
    destruct (decide (id' = id)) as [->|Hne]; [by right|left]. destruct Hor as [Hor|Hor]; [|congruence]. unfold lookupResult in *. cbn. by rewrite lookup_insert_ne.
  - eapply Forall_impl; [exact HF|]. unfold waiter_ok, notifyJobComplete. destruct (notifyChan (wq s) !! id) as [c|] eqn:E.
    + intros [| |id' ch|id' ch []| |]; cbn; try done; rewrite elem_of_union, elem_of_singleton; destruct (decide (id' = id)) as [->|Hne];
        rewrite ?lookup_delete_eq, ?lookup_delete_ne by done; rewrite ?E; unfold lookupResult; cbn; rewrite ?Ha; naive_solver.
    + intros [| |id' ch|id' ch []| |]; cbn; try done. rewrite Ha. intros [?|[Hn Hor]]; [by left|right]. split; [done|]. left.
      destruct Hor as [?|Hor]; [done|]. injection Hor as ->. congruence.
  - eapply Forall_impl; [exact HF|]. intros [| |id' ch|id' ch []| |]; cbn; try done. intros [?|[? _]]; [by left|right]. split; [done|]. by left.
Qed.

(** A call of WaitForResult that made its channel itself does not sleep on
    when the result is there and its announcement is done: the channel is
    closed. *)
Theorem own_waiter_notified (c : Config) (s : Waits any) i id ch :
  waits_reachable c s -> waiters s !! i = Some (WSelect id ch true) -> is_Some (lookupResult id (wq s)) -> announcing s = None ->
  ch ∈ closed (wq s).
Proof.
  intros (q & _ & Hsteps) Hi [r Hr] Ha. assert (Forall (waiter_ok s) (waiters s)) as HF.
  { assert (Forall (waiter_ok {| wq := q; waiters := []; announcing := None |}) []) as H0 by constructor.
    clear Hi Hr Ha. remember {| wq := q; waiters := []; announcing := None |} as s0. change (@nil (waiter any)) with (waiters {| wq := q; waiters := @nil (waiter any); announcing := None |}) in H0.
    rewrite <- Heqs0 in H0. clear Heqs0. induction Hsteps as [|s1 s2 s3 Hstep _ IH]; [done|]. apply IH. by eapply waits_step_ok. }
  rewrite Forall_forall in HF. specialize (HF (WSelect id ch true) ltac:(by eapply list_elem_of_lookup_2)). cbn in HF.
  destruct HF as [?|[_ [Hn|Hn]]]; [done|congruence..].
Qed.
End theorems.

(** ** What goes wrong *)

Definition trace_config : Config := {| PoolSize := 1; DefaultMaxRetry := 0; ShutdownTimeout := 1 |}.

(** A clock that does not run backwards. *)
Definition monotone (clock : nat -> Z) : Prop := forall i, clock i <= clock (S i).

Definition ticking : nat -> Z := fun i => if (i <? 2)%nat then 99 else 100.

Lemma ticking_monotone : monotone ticking.
Proof. intros [|[|i]]; cbn; lia. Qed.

(** A dispatcher can sleep past a job that is due: when the clock reaches
    the job's ready time between the last test of [IsReady] and the reading
    that the wait is computed from, the dispatcher waits without a timer, and
    only another call or another job wakes it. *)
Theorem dispatcher_sleeps_past_due : exists sys : System unit,
  reachable monotone trace_config sys /\ running (queue sys) = true /\ execs sys = [] /\ (dq (queue sys) <> []) /\
  exists w st, loops sys = [Waiting w st None] /\ w ∉ closed (queue sys) /\ st ∉ closed (queue sys).
Proof.
  eexists. split.
  { eexists. split; [compute_side|].
    trace_step (apply (StepSetHandler _ true)). trace_step (eapply StepStart; compute_side).
    trace_step (apply (StepInsert _ 0 "a" 0 tt None 100); compute_side).
    trace_step (apply (StepDispatch _ 0 ticking); [compute_side|exact ticking_monotone|compute_side]). apply rtc_refl. }
  cbn. split_and!; try done. do 2 eexists. split; [done|]. split; by vm_compute.
Qed.

(** [Stop] can leave a job behind: the dispatcher exits when the queues are
    empty although a job is still run, and when that job fails it is queued
    again with nobody to take it; [Stop] returns with the job neither done nor
    a dead letter. *)
Theorem stop_strands_retry : exists (sys : System unit) j,
  reachable steady trace_config sys /\ loops sys = [Exited] /\ execs sys = [] /\ stops sys = 0%nat /\
  dq (queue sys) = [0%nat] /\ store (queue sys) !! 0%nat = Some j /\ Status j = JobStatusFailed /\ RetryCount j = MaxRetries j /\
  GetResult (ID j) (queue sys) = Err ErrJobNotFound.
Proof.
  do 2 eexists. split.
  { eexists. split; [compute_side|].
    trace_step (apply (StepSetHandler _ true)). trace_step (eapply StepStart; compute_side).
    trace_step (apply (StepInsert _ 0 "a" 0 tt (Some 1) 0); compute_side).
    trace_step (apply (StepDispatch _ 0 (fun _ => 0)); [compute_side|done|compute_side]).
    trace_step (eapply (StepAcquire _ 0); compute_side). trace_step (eapply (StepCountDown _ 0); compute_side).
    trace_step (eapply (StepSpawn _ 0); compute_side). trace_step (eapply (StepBegin _ 0); compute_side).
    trace_step (eapply StepStop; compute_side).
    trace_step (apply (StepDispatch _ 0 (fun _ => 0)); [compute_side|done|compute_side]).
    trace_step (apply (StepFinish _ 0 0 (Failed "x") 0 0); compute_side).
    trace_step (apply (StepRelease _ 0); compute_side). trace_step (apply (StepLeave _ 0); compute_side).
    trace_step (eapply StepStopEnd; compute_side). apply rtc_refl. }
  split_and!; compute_side.
Qed.

(** A [Start] while [Stop] still waits replaces the channel that [Stop]
    will close, so that the next [Stop] closes it again and panics. *)
Theorem double_close_panics : exists sys : System unit,
  reachable steady trace_config sys /\ stops sys = 1%nat /\ Stop_end (queue sys) = None.
Proof.
  eexists. split.
  { eexists. split; [compute_side|].
    trace_step (apply (StepSetHandler _ true)). trace_step (eapply StepStart; compute_side).
    trace_step (eapply StepStop; compute_side). trace_step (eapply StepStart; compute_side).
    trace_step (eapply StepStopEnd; compute_side). trace_step (eapply StepStop; compute_side). apply rtc_refl. }
  split; compute_side.
Qed.

(** A waiter that found the channel of another can sleep although the
    result is there and announced: the other made the channel after the
    announcement, saw the result on its second look and left the channel. *)
Theorem waiter_misses_result : exists (s : Waits unit) ch,
  waits_reachable trace_config s /\ waiters s !! 0%nat = Some (WSelect "a" ch false) /\
  is_Some (lookupResult "a" (wq s)) /\ announcing s = None /\ ch ∉ closed (wq s).
Proof.
  do 2 eexists. split.
  { eexists. split; [compute_side|].
    trace_step (apply (StepCall "a")). trace_step (apply (StepCall "a")).
    trace_step (eapply (StepWait 0); [compute_side|apply WaitMissing; compute_side]).
    trace_step (eapply (StepWait 1); [compute_side|apply WaitMissing; compute_side]).
    trace_step (apply (StepStoreSuccess "a" tt); compute_side). trace_step (apply (StepNotify "a"); compute_side).
    trace_step (eapply (StepWait 1); [compute_side|eapply WaitSubscribe; compute_side]).
    trace_step (eapply (StepWait 1); [compute_side|eapply WaitRecheckFound; compute_side]).
    trace_step (eapply (StepWait 0); [compute_side|eapply WaitSubscribe; compute_side]). apply rtc_refl. }
  cbn. split_and!; [compute_side|eexists; compute_side|done|by vm_compute].
Qed.

(** ** The theorems at work *)

(** One job runs, another waits for the only worker. *)
Lemma running_trace : exists sys : System unit,
  reachable steady trace_config sys /\ loops sys = [AtTop] /\ execs sys = [Executing 0] /\ pq (queue sys) = [1%nat] /\ dq (queue sys) = [].
Proof.
  eexists. split.
  { eexists. split; [compute_side|].
    trace_step (apply (StepSetHandler _ true)). trace_step (eapply StepStart; compute_side).
    trace_step (apply (StepInsert _ 0 "a" 2 tt (Some 1) 0); compute_side). trace_step (apply (StepInsert _ 0 "b" 1 tt None 0); compute_side).
    trace_step (apply (StepDispatch _ 0 (fun _ => 0)); [compute_side|done|compute_side]).
    trace_step (eapply (StepAcquire _ 0); compute_side). trace_step (eapply (StepCountDown _ 0); compute_side).
    trace_step (eapply (StepSpawn _ 0); compute_side). trace_step (eapply (StepBegin _ 0); compute_side). apply rtc_refl. }
  split_and!; compute_side.
Qed.

Lemma jobqueue_conserves_jobs_witness : exists sys : System unit,
  reachable steady trace_config sys /\ NoDup [1; 0]%nat /\ PendingCount (queue sys) = 1 /\ ActiveCount (queue sys) = 1 /\
  exists j, store (queue sys) !! 0%nat = Some j /\ finished_status j = false.
Proof.
  destruct running_trace as (sys & Hr & Hl & He & Hp & Hd). exists sys. split; [exact Hr|].
  pose proof (jobqueue_conserves_jobs steady trace_config sys Hr) as (H1 & _ & H3 & _ & H5 & H6 & _). cbn zeta in *.
  rewrite Hl, He, Hp, Hd in *. cbn in *. split_and!; [exact H1|exact H5|exact H6|].
  destruct (H3 0%nat) as (j & Hj & Hf & _); [set_solver|]. by exists j.
Defined.

(** A delayed job and a dispatcher with a timer for it. *)
Lemma timer_trace : exists sys : System unit,
  reachable steady trace_config sys /\ running (queue sys) = true /\ loops sys = [Waiting 6 3 (Some 100)] /\
  ~ live (queue sys) (Waiting 6 3 (Some 100)) /\ dq (queue sys) = [0%nat] /\ ready_time (queue sys) 0 = 100.
Proof.
  eexists. split.
  { eexists. split; [compute_side|].
    trace_step (apply (StepSetHandler _ true)). trace_step (eapply StepStart; compute_side).
    trace_step (apply (StepInsert _ 0 "a" 2 tt None 100); compute_side).
    trace_step (apply (StepDispatch _ 0 (fun _ => 7)); [compute_side|done|compute_side]). apply rtc_refl. }
  split_and!; try compute_side. vm_compute. naive_solver.
Qed.

Lemma dispatcher_no_lost_wakeup_witness : exists sys : System unit,
  reachable steady trace_config sys /\ pq (queue sys) = [] /\ exists d, Waiting 6 3 (Some d) ∈ loops sys /\ d <= ready_time (queue sys) 0.
Proof.
  destruct timer_trace as (sys & Hr & Hrun & Hl & Hlive & Hd & _). exists sys. split; [exact Hr|].
  destruct (dispatcher_no_lost_wakeup trace_config sys Hr Hrun) as [H1 [H2|(w & st & d & Hin & Hle)]].
  - intros l. rewrite Hl, list_elem_of_singleton. intros ->. exact Hlive.
  - split; [exact H1|]. rewrite Hd in H2. discriminate H2.
  - split; [exact H1|]. exists d. pose proof Hin as Hin'. rewrite Hl, list_elem_of_singleton in Hin'. injection Hin' as -> -> Ed. split; [exact Hin|].
    apply Hle. rewrite Hd. set_solver.
Defined.

(** A waiter that subscribed before the result came. *)
Lemma waiter_trace : exists s : Waits unit,
  waits_reachable trace_config s /\ waiters s !! 0%nat = Some (WSelect "a" 3 true) /\ is_Some (lookupResult "a" (wq s)) /\ announcing s = None.
Proof.
  eexists. split.
  { eexists. split; [compute_side|]. trace_step (apply (StepCall "a")).
    trace_step (eapply (StepWait 0); [compute_side|apply WaitMissing; compute_side]).
    trace_step (eapply (StepWait 0); [compute_side|eapply WaitSubscribe; compute_side]).
    trace_step (eapply (StepWait 0); [compute_side|eapply WaitRecheckMissing; compute_side]).
    trace_step (apply (StepStoreSuccess "a" tt); compute_side). trace_step (apply (StepNotify "a"); compute_side). apply rtc_refl. }
  split_and!; [compute_side|eexists; compute_side|done].
Qed.

Lemma own_waiter_notified_witness : exists s : Waits unit, waits_reachable trace_config s /\ 3%nat ∈ closed (wq s).
Proof.
  destruct waiter_trace as (s & Hr & Hi & Hl & Ha). exists s. split; [exact Hr|].
  exact (own_waiter_notified trace_config s 0 "a" 3 Hr Hi Hl Ha).
Defined.

(** A dispatcher about to choose between two jobs. *)
Lemma choice_trace : exists (sys : System unit) q',
  reachable steady trace_config sys /\ loops sys !! 0%nat = Some AtTop /\
  dispatch (fun _ => 0) (queue sys) = (q', DispatchJob 1 7 3 false) /\ pq q' = [0%nat] /\
  (Priority <$> store q' !! 0%nat = Some 1) /\ is_Some (store q' !! 0%nat).
Proof.
  do 2 eexists. split.
  { eexists. split; [compute_side|].
    trace_step (apply (StepSetHandler _ true)). trace_step (eapply StepStart; compute_side).
    trace_step (apply (StepInsert _ 0 "a" 1 tt None 0); compute_side). trace_step (apply (StepInsert _ 5 "b" 2 tt None 0); compute_side). apply rtc_refl. }
  split_and!; [compute_side..|]. eexists. compute_side.
Qed.

Lemma highest_priority_first_witness : exists q' : JobQueue unit, exists j, store q' !! 1%nat = Some j /\ 1 <= Priority j.
Proof.
  destruct choice_trace as (sys & q' & Hr & Hi & Hd & Hpq & Hp & [j' Hj']). exists q'.
  destruct (highest_priority_first steady trace_config sys 0 (fun _ => 0) q' 1 7 3 false Hr Hi Hd) as (j & Hj & _ & Hmax).
  exists j. split; [exact Hj|]. specialize (Hmax 0%nat j' ltac:(rewrite Hpq; set_solver) Hj'). rewrite Hj' in Hp. injection Hp as Hp. lia.
Defined.
