(* ===== verification/BPlus.v ===== *)
(** bplustree/bplustree.go: the B+ tree.

    Nodes are the cells of a heap and refer to each other by address: children,
    parent, and the leaves also their neighbours.  A function that can
    dereference nil or index out of range returns [None] there.  The loops that
    shift a slice by one place are [insert_at] and [delete_at].  The recursions
    that climb to the root take fuel; the proofs show that the number of nodes
    is enough.  Memory is unbounded: [make] succeeds, and [count] is the number
    of entries as an unbounded integer. *)

From stdpp Require Import base tactics option list gmap strings.
From Stdlib Require Import ZArith Lia.
From S2P Require Import Prelude Ordered.

Inductive Error := ErrKeyNotFound | ErrInvalidRange | ErrInvalidMaxKeys | ErrIteratorInvalid | ErrIteratorDone.

Record Config := { MaxKeys : Z }.

Definition DefaultConfig : Config := {| MaxKeys := 32 |}.

Record KVItem := { Key : string; Val : string }.

Record node := {
  keys : list string;
  isLeaf : bool;
  parent : option nat;
  next : option nat;
  prev : option nat;
  children : list nat;
  values : list string;
}.

#[export] Instance bplus_node_eta : Eta node :=
  fun n => {| keys := keys n; isLeaf := isLeaf n; parent := parent n; next := next n; prev := prev n;
              children := children n; values := values n |}.

Record BPlusTree := {
  nodes : gmap nat node;
  fresh : nat;
  root : nat;
  maxKeys : Z;
  count : Z;
}.

#[export] Instance bplus_tree_eta : Eta BPlusTree :=
  fun t => {| nodes := nodes t; fresh := fresh t; root := root t; maxKeys := maxKeys t; count := count t |}.

Definition NewBPlusTreeWithConfig (cfg : Config) : BPlusTree :=
  let m := if MaxKeys cfg <? 2 then 32 else MaxKeys cfg in
  let m := if negb (Z.rem m 2 =? 0) then int64 (m + 1) else m in
  let leaf := {| keys := []; isLeaf := true; parent := None; next := None; prev := None; children := []; values := [] |} in
  {| nodes := {[ 0%nat := leaf ]}; fresh := 1; root := 0; maxKeys := m; count := 0 |}.

Definition NewBPlusTree : BPlusTree := NewBPlusTreeWithConfig DefaultConfig.

Definition Count (t : BPlusTree) : Z := count t.

(** [maxKeys] is even, so that the sum does not overflow. *)
Definition minKeys (t : BPlusTree) : Z := Z.quot (maxKeys t + 1) 2.

(** ** Slices and the heap *)

Definition len {A} (l : list A) : Z := Z.of_nat (length l).

Definition insert_at {A} (i : nat) (x : A) (l : list A) : list A := take i l ++ x :: drop i l.
Definition delete_at {A} (i : nat) (l : list A) : list A := take i l ++ drop (S i) l.

(** The index at which a scan stops that goes on while [P] holds. *)
Fixpoint scan {A} (P : A -> bool) (l : list A) : nat :=
  match l with [] => 0 | x :: l => if P x then S (scan P l) else 0 end%nat.

Definition lt (a b : string) : bool := bool_decide (key_lt a b).

Definition modify (p : nat) (f : node -> node) (t : BPlusTree) : option BPlusTree :=
  n ← nodes t !! p; Some (t <| nodes := <[p := f n]> (nodes t) |>).

(** The assignment through a pointer that may be nil, after a test. *)
Definition modify_if (p : option nat) (f : node -> node) (t : BPlusTree) : option BPlusTree :=
  match p with Some p => modify p f t | None => Some t end.

Definition alloc (n : node) (t : BPlusTree) : nat * BPlusTree :=
  (fresh t, t <| nodes := <[fresh t := n]> (nodes t) |> <| fresh := S (fresh t) |>).

(** [child.parent = p] for every child. *)
Fixpoint set_parents (p : nat) (cs : list nat) (t : BPlusTree) : option BPlusTree :=
  match cs with
  | [] => Some t
  | c :: cs => t ← modify c (fun n => n <| parent := Some p |>) t; set_parents p cs t
  end.

(** ** Searching *)

Fixpoint find_leaf (fuel : nat) (t : BPlusTree) (key : string) (current : nat) : option nat :=
  match fuel with
  | O => None
  | S fuel =>
      n ← nodes t !! current;
      if isLeaf n then Some current
      else
        c ← children n !! scan (fun k => negb (lt key k)) (keys n);
        find_leaf fuel t key c
  end.

Definition findLeaf (t : BPlusTree) (key : string) : option nat := find_leaf (fresh t) t key (root t).

(** The first index of [key]. *)
Definition index_of (key : string) (ks : list string) : option nat := fst <$> list_find (fun k => k = key) ks.

Definition Search (t : BPlusTree) (key : string) : option (option string) :=
  if count t =? 0 then Some None
  else
    leaf ← findLeaf t key;
    n ← nodes t !! leaf;
    match index_of key (keys n) with
    | None => Some None
    | Some i => v ← values n !! i; Some (Some v)
    end.

(** ** Insertion *)

(** [splitInternal], up to its call of [insertIntoParent]: the separator and
    the new right node. *)
Definition splitInternal (internal : nat) (t : BPlusTree) : option (string * nat * BPlusTree) :=
  n ← nodes t !! internal;
  let mid := (length (keys n) / 2)%nat in
  midKey ← keys n !! mid;
  let rightKeys := drop (S mid) (keys n) in
  let rightChildren := drop (S mid) (children n) in
  let '(rightInternal, t) :=
    alloc {| keys := rightKeys; isLeaf := false; parent := parent n; next := None; prev := None;
             children := rightChildren; values := [] |} t in
  t ← set_parents rightInternal rightChildren t;
  t ← modify internal (fun n => n <| keys := take mid (keys n) |> <| children := take (S mid) (children n) |>) t;
  Some (midKey, rightInternal, t).

Fixpoint insertIntoParent (fuel : nat) (left : nat) (key : string) (right : nat) (t : BPlusTree) : option BPlusTree :=
  match fuel with
  | O => None
  | S fuel =>
      l ← nodes t !! left;
      match parent l with
      | None =>
          let '(newRoot, t) :=
            alloc {| keys := [key]; isLeaf := false; parent := None; next := None; prev := None;
                     children := [left; right]; values := [] |} t in
          t ← modify left (fun n => n <| parent := Some newRoot |>) t;
          t ← modify right (fun n => n <| parent := Some newRoot |>) t;
          Some (t <| root := newRoot |>)
      | Some p =>
          pn ← nodes t !! p;
          let idx := scan (fun k => lt k key) (keys pn) in
          t ← modify p (fun n => n <| keys := insert_at idx key (keys n) |>
                                   <| children := insert_at (S idx) right (children n) |>) t;
          t ← modify right (fun n => n <| parent := Some p |>) t;
          pn ← nodes t !! p;
          if maxKeys t <? len (keys pn) then
            '(midKey, rightInternal, t) ← splitInternal p t;
            insertIntoParent fuel p midKey rightInternal t
          else Some t
      end
  end.

Definition splitLeaf (leaf : nat) (t : BPlusTree) : option BPlusTree :=
  n ← nodes t !! leaf;
  let mid := (length (keys n) / 2)%nat in
  let rightKeys := drop mid (keys n) in
  let '(rightLeaf, t) :=
    alloc {| keys := rightKeys; isLeaf := true; parent := None; next := next n; prev := Some leaf;
             children := []; values := drop mid (values n) |} t in
  t ← modify_if (next n) (fun m => m <| prev := Some rightLeaf |>) t;
  t ← modify leaf (fun m => m <| next := Some rightLeaf |> <| keys := take mid (keys m) |> <| values := take mid (values m) |>) t;
  midKey ← rightKeys !! 0%nat;
  insertIntoParent (fresh t) leaf midKey rightLeaf t.

Definition Insert (key value : string) (t : BPlusTree) : option BPlusTree :=
  leaf ← findLeaf t key;
  n ← nodes t !! leaf;
  let idx := scan (fun k => lt k key) (keys n) in
  if bool_decide (keys n !! idx = Some key) then modify leaf (fun n => n <| values := <[idx := value]> (values n) |>) t
  else
    t ← modify leaf (fun n => n <| keys := insert_at idx key (keys n) |> <| values := insert_at idx value (values n) |>) t;
    let t := t <| count := count t + 1 |> in
    n ← nodes t !! leaf;
    if maxKeys t <? len (keys n) then splitLeaf leaf t else Some t.

(** ** Deletion *)

(** [findNodeIndex]: [Some None] is -1. *)
Definition findNodeIndex (t : BPlusTree) (child : nat) : option (option nat) :=
  n ← nodes t !! child;
  match parent n with
  | None => Some None
  | Some p => pn ← nodes t !! p; Some (fst <$> list_find (fun c => c = child) (children pn))
  end.

(** [n.keys[i] = k], which panics when [i] is out of range. *)
Definition set_key (p i : nat) (k : string) (t : BPlusTree) : option BPlusTree :=
  n ← nodes t !! p;
  if (i <? length (keys n))%nat then modify p (fun n => n <| keys := <[i := k]> (keys n) |>) t else None.

Definition updateParentSeparatorAfterLeafDelete (leaf : nat) (t : BPlusTree) : option BPlusTree :=
  n ← nodes t !! leaf;
  match parent n with
  | None => Some t
  | Some p =>
      nodeIdx ← findNodeIndex t leaf;
      match nodeIdx, keys n with
      | Some (S i), k :: _ => set_key p i k t
      | _, _ => Some t
      end
  end.

(** A node that has lost one key and one child. *)
Definition drop_child (p keyIdx childIdx : nat) (t : BPlusTree) : option BPlusTree :=
  modify p (fun n => n <| keys := delete_at keyIdx (keys n) |> <| children := delete_at childIdx (children n) |>) t.

(** The indices of the call of [removeChildFromInternal] that ends a merge. *)
Definition removal : Type := nat * nat * nat.

Definition borrowFromLeftInternal (internal leftSibling nodeIdx : nat) (t : BPlusTree) : option BPlusTree :=
  n ← nodes t !! internal;
  p ← parent n;
  pn ← nodes t !! p;
  separatorKey ← keys pn !! (nodeIdx - 1)%nat;
  l ← nodes t !! leftSibling;
  movedKey ← last (keys l);
  movedChild ← last (children l);
  t ← modify leftSibling (fun l => l <| keys := take (length (keys l) - 1) (keys l) |>
                                     <| children := take (length (children l) - 1) (children l) |>) t;
  t ← modify internal (fun n => n <| keys := separatorKey :: keys n |> <| children := movedChild :: children n |>) t;
  t ← modify movedChild (fun c => c <| parent := Some internal |>) t;
  set_key p (nodeIdx - 1) movedKey t.

Definition borrowFromRightInternal (internal rightSibling nodeIdx : nat) (t : BPlusTree) : option BPlusTree :=
  n ← nodes t !! internal;
  p ← parent n;
  pn ← nodes t !! p;
  separatorKey ← keys pn !! nodeIdx;
  r ← nodes t !! rightSibling;
  movedKey ← keys r !! 0%nat;
  movedChild ← children r !! 0%nat;
  t ← modify rightSibling (fun r => r <| keys := delete_at 0 (keys r) |> <| children := delete_at 0 (children r) |>) t;
  t ← modify internal (fun n => n <| keys := keys n ++ [separatorKey] |> <| children := children n ++ [movedChild] |>) t;
  t ← modify movedChild (fun c => c <| parent := Some internal |>) t;
  set_key p nodeIdx movedKey t.

Definition mergeWithLeftInternal (internal leftSibling nodeIdx : nat) (t : BPlusTree) : option (removal * BPlusTree) :=
  n ← nodes t !! internal;
  p ← parent n;
  pn ← nodes t !! p;
  separatorKey ← keys pn !! (nodeIdx - 1)%nat;
  t ← modify leftSibling (fun l => l <| keys := keys l ++ separatorKey :: keys n |> <| children := children l ++ children n |>) t;
  t ← set_parents leftSibling (children n) t;
  Some ((p, nodeIdx - 1, nodeIdx)%nat, t).

Definition mergeWithRightInternal (internal rightSibling nodeIdx : nat) (t : BPlusTree) : option (removal * BPlusTree) :=
  n ← nodes t !! internal;
  p ← parent n;
  pn ← nodes t !! p;
  separatorKey ← keys pn !! nodeIdx;
  r ← nodes t !! rightSibling;
  t ← modify internal (fun n => n <| keys := keys n ++ separatorKey :: keys r |> <| children := children n ++ children r |>) t;
  t ← set_parents internal (children r) t;
  Some ((p, nodeIdx, nodeIdx + 1)%nat, t).

(** [sibling != nil && len(sibling.keys) > minKeys]. *)
Definition can_lend (sibling : option nat) (t : BPlusTree) : option bool :=
  match sibling with
  | None => Some false
  | Some s => n ← nodes t !! s; Some (minKeys t <? len (keys n))
  end.

Definition done (t : BPlusTree) : option (option removal * BPlusTree) := Some (None, t).
Definition continue (r : removal * BPlusTree) : option (option removal * BPlusTree) := Some (Some r.1, r.2).

Definition rebalanceInternal (internal : nat) (t : BPlusTree) : option (option removal * BPlusTree) :=
  nodeIdx ← findNodeIndex t internal;
  match nodeIdx with
  | None => done t
  | Some nodeIdx =>
      n ← nodes t !! internal;
      p ← parent n;
      pn ← nodes t !! p;
      let leftSibling := match nodeIdx with O => None | S i => children pn !! i end in
      let rightSibling := children pn !! S nodeIdx in
      lendLeft ← can_lend leftSibling t;
      lendRight ← can_lend rightSibling t;
      match leftSibling, rightSibling with
      | Some l, r =>
          if (lendLeft : bool) then t ← borrowFromLeftInternal internal l nodeIdx t; done t
          else match r with
               | Some r => if (lendRight : bool) then t ← borrowFromRightInternal internal r nodeIdx t; done t
                           else x ← mergeWithLeftInternal internal l nodeIdx t; continue x
               | None => x ← mergeWithLeftInternal internal l nodeIdx t; continue x
               end
      | None, Some r =>
          if (lendRight : bool) then t ← borrowFromRightInternal internal r nodeIdx t; done t
          else x ← mergeWithRightInternal internal r nodeIdx t; continue x
      | None, None => done t
      end
  end.

Fixpoint removeChildFromInternal (fuel : nat) (p keyIdx childIdx : nat) (t : BPlusTree) : option BPlusTree :=
  match fuel with
  | O => None
  | S fuel =>
      t ← drop_child p keyIdx childIdx t;
      n ← nodes t !! p;
      if (p =? root t)%nat then
        match keys n, children n with
        | [], [c] => t ← modify c (fun m => m <| parent := None |>) t; Some (t <| root := c |>)
        | _, _ => Some t
        end
      else if len (keys n) <? minKeys t then
        '(todo, t) ← rebalanceInternal p t;
        match todo with
        | Some (p, keyIdx, childIdx) => removeChildFromInternal fuel p keyIdx childIdx t
        | None => Some t
        end
      else Some t
  end.

Definition borrowFromLeftLeaf (leaf leftSibling nodeIdx : nat) (t : BPlusTree) : option BPlusTree :=
  l ← nodes t !! leftSibling;
  borrowedKey ← last (keys l);
  borrowedValue ← last (values l);
  t ← modify leftSibling (fun l => l <| keys := take (length (keys l) - 1) (keys l) |>
                                     <| values := take (length (values l) - 1) (values l) |>) t;
  t ← modify leaf (fun n => n <| keys := borrowedKey :: keys n |> <| values := borrowedValue :: values n |>) t;
  n ← nodes t !! leaf;
  match parent n, nodeIdx with
  | Some p, S i => set_key p i borrowedKey t
  | _, _ => Some t
  end.

Definition borrowFromRightLeaf (leaf rightSibling nodeIdx : nat) (t : BPlusTree) : option BPlusTree :=
  r ← nodes t !! rightSibling;
  borrowedKey ← keys r !! 0%nat;
  borrowedValue ← values r !! 0%nat;
  t ← modify rightSibling (fun r => r <| keys := delete_at 0 (keys r) |> <| values := delete_at 0 (values r) |>) t;
  t ← modify leaf (fun n => n <| keys := keys n ++ [borrowedKey] |> <| values := values n ++ [borrowedValue] |>) t;
  n ← nodes t !! leaf;
  match parent n with
  | Some p =>
      pn ← nodes t !! p;
      if (nodeIdx <? length (keys pn))%nat then
        r ← nodes t !! rightSibling;
        k ← keys r !! 0%nat;
        set_key p nodeIdx k t
      else Some t
  | None => Some t
  end.

Definition mergeWithLeftLeaf (leaf leftSibling nodeIdx : nat) (t : BPlusTree) : option BPlusTree :=
  n ← nodes t !! leaf;
  t ← modify leftSibling (fun l => l <| keys := keys l ++ keys n |> <| values := values l ++ values n |> <| next := next n |>) t;
  t ← modify_if (next n) (fun m => m <| prev := Some leftSibling |>) t;
  p ← parent n;
  removeChildFromInternal (fresh t) p (nodeIdx - 1) nodeIdx t.

Definition mergeWithRightLeaf (leaf rightSibling nodeIdx : nat) (t : BPlusTree) : option BPlusTree :=
  r ← nodes t !! rightSibling;
  t ← modify leaf (fun n => n <| keys := keys n ++ keys r |> <| values := values n ++ values r |> <| next := next r |>) t;
  t ← modify_if (next r) (fun m => m <| prev := Some leaf |>) t;
  n ← nodes t !! leaf;
  p ← parent n;
  removeChildFromInternal (fresh t) p nodeIdx (nodeIdx + 1) t.

(** [sibling != nil && sibling.parent == parent]: the sibling, and whether it
    has a key to spare. *)
Definition true_sibling (sibling p : option nat) (t : BPlusTree) : option (option (nat * bool)) :=
  match sibling with
  | None => Some None
  | Some s => n ← nodes t !! s; Some (if bool_decide (parent n = p) then Some (s, minKeys t <? len (keys n)) else None)
  end.

Definition rebalanceLeaf (leaf : nat) (t : BPlusTree) : option BPlusTree :=
  nodeIdx ← findNodeIndex t leaf;
  match nodeIdx with
  | None => Some t
  | Some nodeIdx =>
      n ← nodes t !! leaf;
      left ← true_sibling (prev n) (parent n) t;
      right ← true_sibling (next n) (parent n) t;
      match left, right with
      | Some (l, true), _ => borrowFromLeftLeaf leaf l nodeIdx t
      | _, Some (r, true) => borrowFromRightLeaf leaf r nodeIdx t
      | Some (l, false), _ => mergeWithLeftLeaf leaf l nodeIdx t
      | None, Some (r, false) => mergeWithRightLeaf leaf r nodeIdx t
      | None, None => Some t
      end
  end.

Definition deleteFromLeaf (leaf idx : nat) (t : BPlusTree) : option BPlusTree :=
  t ← modify leaf (fun n => n <| keys := delete_at idx (keys n) |> <| values := delete_at idx (values n) |>) t;
  if (leaf =? root t)%nat then Some t
  else
    t ← updateParentSeparatorAfterLeafDelete leaf t;
    n ← nodes t !! leaf;
    if len (keys n) <? minKeys t then rebalanceLeaf leaf t else Some t.

Definition Delete (key : string) (t : BPlusTree) : option (bool * BPlusTree) :=
  if count t =? 0 then Some (false, t)
  else
    leaf ← findLeaf t key;
    n ← nodes t !! leaf;
    match index_of key (keys n) with
    | None => Some (false, t)
    | Some idx => t ← deleteFromLeaf leaf idx t; Some (true, t <| count := count t - 1 |>)
    end.

(** ** Range scans *)

(** The entries of one leaf from index [i] on, and whether the scan ends in it. *)
Fixpoint scan_leaf (ks vs : list string) (last : string) : option (list KVItem * bool) :=
  match ks with
  | [] => Some ([], false)
  | k :: ks =>
      if lt last k then Some ([], true)
      else match vs with
           | v :: vs => '(items, stop) ← scan_leaf ks vs last; Some ({| Key := k; Val := v |} :: items, stop)
           | [] => None
           end
  end.

Fixpoint scan_leaves (fuel : nat) (t : BPlusTree) (current : option nat) (i : nat) (last : string) : option (list KVItem) :=
  match current with
  | None => Some []
  | Some p =>
      match fuel with
      | O => None
      | S fuel =>
          n ← nodes t !! p;
          '(items, stop) ← scan_leaf (drop i (keys n)) (drop i (values n)) last;
          if (stop : bool) then Some items
          else rest ← scan_leaves fuel t (next n) 0 last; Some (items ++ rest)
      end
  end.

Definition RangeScan (t : BPlusTree) (start last : string) : option (result Error (list KVItem)) :=
  if lt last start then Some (Err ErrInvalidRange)
  else if count t =? 0 then Some (Ok [])
  else
    leaf ← findLeaf t start;
    n ← nodes t !! leaf;
    items ← scan_leaves (fresh t) t (Some leaf) (scan (fun k => lt k start) (keys n)) last;
    Some (Ok items).

(** ** Iterators *)

Record Iterator := { it_node : option nat; it_index : Z; it_key : string; it_valid : bool }.

#[export] Instance bplus_iterator_eta : Eta Iterator :=
  fun it => {| it_node := it_node it; it_index := it_index it; it_key := it_key it; it_valid := it_valid it |}.

Definition no_iterator : Iterator := {| it_node := None; it_index := 0; it_key := ""; it_valid := false |}.

(** An iterator at index [i] of the node [p]. *)
Definition iterator_at (t : BPlusTree) (p : nat) (i : nat) : option Iterator :=
  n ← nodes t !! p;
  k ← keys n !! i;
  Some {| it_node := Some p; it_index := Z.of_nat i; it_key := k; it_valid := true |}.

Fixpoint first_leaf (fuel : nat) (t : BPlusTree) (current : nat) : option nat :=
  match fuel with
  | O => None
  | S fuel =>
      n ← nodes t !! current;
      if isLeaf n then Some current else c ← children n !! 0%nat; first_leaf fuel t c
  end.

Definition NewIterator (t : BPlusTree) : option Iterator :=
  if count t =? 0 then Some no_iterator
  else leaf ← first_leaf (fresh t) t (root t); iterator_at t leaf 0.

Definition NewIteratorAt (t : BPlusTree) (key : string) : option Iterator :=
  if count t =? 0 then Some no_iterator
  else
    leaf ← findLeaf t key;
    n ← nodes t !! leaf;
    let idx := scan (fun k => lt k key) (keys n) in
    if (length (keys n) <=? idx)%nat then
      match next n with Some p => iterator_at t p 0 | None => Some no_iterator end
    else iterator_at t leaf idx.

Definition it_Valid (it : Iterator) : bool := it_valid it.

(** An index that may be negative. *)
Definition at_index {A} (l : list A) (i : Z) : option A := if 0 <=? i then l !! Z.to_nat i else None.

Definition it_Key (t : BPlusTree) (it : Iterator) : option (result Error string) :=
  if negb (it_valid it) then Some (Err ErrIteratorInvalid)
  else p ← it_node it; n ← nodes t !! p; k ← at_index (keys n) (it_index it); Some (Ok k).

Definition it_Value (t : BPlusTree) (it : Iterator) : option (result Error string) :=
  if negb (it_valid it) then Some (Err ErrIteratorInvalid)
  else p ← it_node it; n ← nodes t !! p; v ← at_index (values n) (it_index it); Some (Ok v).

(** The error, nil when there is none, and the iterator afterwards. *)
Definition it_Next (t : BPlusTree) (it : Iterator) : option (option Error * Iterator) :=
  if negb (it_valid it) then Some (Some ErrIteratorInvalid, it)
  else
    let it := it <| it_index := it_index it + 1 |> in
    p ← it_node it;
    n ← nodes t !! p;
    if it_index it <? len (keys n) then
      k ← at_index (keys n) (it_index it); Some (None, it <| it_key := k |>)
    else
      match next n with
      | Some q =>
          let it := it <| it_node := Some q |> <| it_index := 0 |> in
          m ← nodes t !! q;
          match keys m with
          | k :: _ => Some (None, it <| it_key := k |>)
          | [] => Some (Some ErrIteratorDone, it <| it_valid := false |>)
          end
      | None => Some (Some ErrIteratorDone, it <| it_valid := false |>)
      end.

Definition it_Prev (t : BPlusTree) (it : Iterator) : option (option Error * Iterator) :=
  if negb (it_valid it) then Some (Some ErrIteratorInvalid, it)
  else
    let it := it <| it_index := it_index it - 1 |> in
    p ← it_node it;
    n ← nodes t !! p;
    if 0 <=? it_index it then
      k ← at_index (keys n) (it_index it); Some (None, it <| it_key := k |>)
    else
      match prev n with
      | Some q =>
          m ← nodes t !! q;
          let it := it <| it_node := Some q |> <| it_index := len (keys m) - 1 |> in
          if 0 <=? it_index it then
            k ← at_index (keys m) (it_index it); Some (None, it <| it_key := k |>)
          else Some (Some ErrIteratorDone, it <| it_valid := false |>)
      | None => Some (Some ErrIteratorDone, it <| it_valid := false |>)
      end.

Definition it_Delete (it : Iterator) (t : BPlusTree) : option (option Error * Iterator * BPlusTree) :=
  if negb (it_valid it) then Some (Some ErrIteratorInvalid, it, t)
  else
    p ← it_node it;
    n ← nodes t !! p;
    if negb (bool_decide (at_index (keys n) (it_index it) = Some (it_key it)))
    then Some (Some ErrKeyNotFound, it <| it_valid := false |>, t)
    else
      let keyToDelete := it_key it in
      '(err, before) ← it_Prev t it;
      let prevKey := match err with None => Some (it_key before) | Some _ => None end in
      '(deleted, t) ← Delete keyToDelete t;
      if negb deleted then Some (Some ErrKeyNotFound, it <| it_valid := false |>, t)
      else
        nextIt ← NewIteratorAt t keyToDelete;
        if it_valid nextIt then Some (None, nextIt, t)
        else
          match prevKey with
          | None => Some (None, it <| it_valid := false |>, t)
          | Some prevKey =>
              prevIt ← NewIteratorAt t prevKey;
              if it_valid prevIt then Some (None, prevIt, t) else Some (None, it <| it_valid := false |>, t)
          end.
