(* ===== verification/BPlusShape.v ===== *)
(** The shape of a B+ tree in the heap.

    [tree] is the tree with the addresses of its nodes; [cells] lists the nodes
    the heap must hold for it, and [owns] says that it does.  A context is the
    path from a node to the root: [plug] puts a tree into it.  [tokens] is the
    sequence of entries and separators from left to right: rebalancing inside
    the tree leaves it as it is, and its order is all the search relies on. *)

From stdpp Require Import base tactics option list gmap sets strings sorting.
From Stdlib Require Import ZArith Lia.
From S2P Require Import Prelude Ordered BPlus.

#[local] Open Scope nat_scope.

Inductive tree :=
| Leaf (p : nat) (kvs : list (string * string))
| Node (p : nat) (ks : list string) (ts : list tree).

Definition ptr (t : tree) : nat := match t with Leaf p _ => p | Node p _ _ => p end.

(** The neighbours of a leaf. *)
Definition links : Type := nat -> option nat * option nat.

Definition leaf_node (lk : links) (p : nat) (par : option nat) (kvs : list (string * string)) : node :=
  {| keys := kvs.*1; isLeaf := true; parent := par; next := (lk p).2; prev := (lk p).1; children := []; values := kvs.*2 |}.

Definition inner_node (par : option nat) (ks : list string) (cs : list nat) : node :=
  {| keys := ks; isLeaf := false; parent := par; next := None; prev := None; children := cs; values := [] |}.

Definition top (lk : links) (par : option nat) (t : tree) : node :=
  match t with
  | Leaf p kvs => leaf_node lk p par kvs
  | Node p ks ts => inner_node par ks (ptr <$> ts)
  end.

(** The nodes below the root. *)
Fixpoint below (lk : links) (t : tree) : list (nat * node) :=
  match t with
  | Leaf _ _ => []
  | Node p ks ts => concat ((fun t => (ptr t, top lk (Some p) t) :: below lk t) <$> ts)
  end.

Definition cells (lk : links) (par : option nat) (t : tree) : list (nat * node) := (ptr t, top lk par t) :: below lk t.

Definition forest (lk : links) (p : nat) (ts : list tree) : list (nat * node) := concat (cells lk (Some p) <$> ts).

Fixpoint leaves (t : tree) : list nat :=
  match t with Leaf p _ => [p] | Node _ _ ts => concat (leaves <$> ts) end.

(** ** Entries and separators *)

Inductive token := Entry (k v : string) | Sep (s : string).

Definition entry (kv : string * string) : token := Entry kv.1 kv.2.

Fixpoint inter (ks : list string) (tss : list (list token)) : list token :=
  match tss with
  | [] => []
  | l :: tss => l ++ match ks with [] => concat tss | k :: ks => Sep k :: inter ks tss end
  end.

Fixpoint tokens (t : tree) : list token :=
  match t with Leaf _ kvs => entry <$> kvs | Node _ ks ts => inter ks (tokens <$> ts) end.

(** An entry lies before a separator of its key or of a greater one. *)
Definition token_lt (a b : token) : Prop :=
  match a, b with
  | Entry k _, Entry k' _ => key_lt k k'
  | Entry k _, Sep s => key_lt k s
  | Sep s, Entry k _ => ~ key_lt k s
  | Sep s, Sep s' => key_lt s s'
  end.

Definition token_entry (a : token) : option (string * string) := match a with Entry k v => Some (k, v) | Sep _ => None end.
Definition entries (l : list token) : list (string * string) := omap token_entry l.

(** ** Contexts *)

Record frame := { f_ptr : nat; f_lk : list string; f_lc : list tree; f_rk : list string; f_rc : list tree }.

Definition fill (f : frame) (t : tree) : tree := Node (f_ptr f) (f_lk f ++ f_rk f) (f_lc f ++ t :: f_rc f).
Definition plug (ctx : list frame) (t : tree) : tree := foldl (fun t f => fill f t) t ctx.
Definition par_of (ctx : list frame) : option nat := f_ptr <$> head ctx.

Fixpoint ctx_cells (lk : links) (ctx : list frame) (hole : nat) : list (nat * node) :=
  match ctx with
  | [] => []
  | f :: ctx =>
      (f_ptr f, inner_node (par_of ctx) (f_lk f ++ f_rk f) ((ptr <$> f_lc f) ++ hole :: (ptr <$> f_rc f)))
      :: forest lk (f_ptr f) (f_lc f ++ f_rc f) ++ ctx_cells lk ctx (f_ptr f)
  end.

Definition left_tokens (f : frame) : list token := concat (zip_with (fun t k => tokens t ++ [Sep k]) (f_lc f) (f_lk f)).
Definition right_tokens (f : frame) : list token := concat (zip_with (fun t k => Sep k :: tokens t) (f_rc f) (f_rk f)).

Fixpoint ctx_left (ctx : list frame) : list token :=
  match ctx with [] => [] | f :: ctx => ctx_left ctx ++ left_tokens f end.
Fixpoint ctx_right (ctx : list frame) : list token :=
  match ctx with [] => [] | f :: ctx => right_tokens f ++ ctx_right ctx end.

Fixpoint left_leaves (ctx : list frame) : list nat :=
  match ctx with [] => [] | f :: ctx => left_leaves ctx ++ concat (leaves <$> f_lc f) end.
Fixpoint right_leaves (ctx : list frame) : list nat :=
  match ctx with [] => [] | f :: ctx => concat (leaves <$> f_rc f) ++ right_leaves ctx end.

(** ** Sizes and heights *)

Section sizes.
Context (mn mx : nat).

(** A tree of height [n] below the root. *)
Fixpoint sub (n : nat) (t : tree) : Prop :=
  match n, t with
  | O, Leaf _ kvs => mn <= length kvs <= mx
  | S n, Node _ ks ts => mn <= length ks <= mx /\ length ts = S (length ks) /\ Forall (sub n) ts
  | _, _ => False
  end.

Definition root_ok (n : nat) (t : tree) : Prop :=
  match n, t with
  | O, Leaf _ kvs => length kvs <= mx
  | S n, Node _ ks ts => 1 <= length ks <= mx /\ length ts = S (length ks) /\ Forall (sub n) ts
  | _, _ => False
  end.

Fixpoint ctx_ok (n : nat) (ctx : list frame) : Prop :=
  match ctx with
  | [] => True
  | f :: ctx =>
      length (f_lk f) = length (f_lc f) /\ length (f_rk f) = length (f_rc f) /\
      Forall (sub n) (f_lc f) /\ Forall (sub n) (f_rc f) /\
      (match ctx with [] => 1 | _ => mn end) <= length (f_lk f) + length (f_rk f) <= mx /\
      ctx_ok (S n) ctx
  end.

Definition place_ok (n : nat) (ctx : list frame) (t : tree) : Prop :=
  ctx_ok n ctx /\ match ctx with [] => root_ok n t | _ => sub n t end.
End sizes.

(** * Lemmas *)

Lemma forest_cons lk p t ts : forest lk p (t :: ts) = cells lk (Some p) t ++ forest lk p ts.
Proof. done. Qed.

Lemma forest_app lk p ts1 ts2 : forest lk p (ts1 ++ ts2) = forest lk p ts1 ++ forest lk p ts2.
Proof. unfold forest. by rewrite fmap_app, concat_app. Qed.

Lemma cells_Node lk par p ks ts : cells lk par (Node p ks ts) = (p, inner_node par ks (ptr <$> ts)) :: forest lk p ts.
Proof. done. Qed.

Lemma cells_Leaf lk par p kvs : cells lk par (Leaf p kvs) = [(p, leaf_node lk p par kvs)].
Proof. done. Qed.

Lemma inter_right rks l rtss :
  length rks = length rtss -> inter rks (l :: rtss) = l ++ concat (zip_with (fun t k => Sep k :: t) rtss rks).
Proof.
  revert l rtss. induction rks as [|k rks IH]; intros l [|t rtss] Hr; simplify_eq/=; [done|].
  do 2 f_equal. by apply IH.
Qed.

Lemma inter_app lks rks ltss l rtss :
  length lks = length ltss -> length rks = length rtss ->
  inter (lks ++ rks) (ltss ++ l :: rtss) =
    concat (zip_with (fun t k => t ++ [Sep k]) ltss lks) ++ l ++ concat (zip_with (fun t k => Sep k :: t) rtss rks).
Proof.
  intros Hl Hr. revert ltss Hl. induction lks as [|k lks IH]; intros [|t ltss] Hl; simplify_eq/=.
  - by apply inter_right.
  - rewrite IH by done. by rewrite <- !app_assoc.
Qed.

Lemma zip_with_fmap_l {A B C D} (g : A -> B) (h : B -> C -> D) l k : zip_with h (g <$> l) k = zip_with (fun a c => h (g a) c) l k.
Proof. revert k. induction l as [|a l IH]; intros [|c k]; simpl; [done..|]. by rewrite IH. Qed.

Lemma tokens_fill f t : length (f_lk f) = length (f_lc f) -> length (f_rk f) = length (f_rc f) ->
  tokens (fill f t) = left_tokens f ++ tokens t ++ right_tokens f.
Proof.
  intros Hl Hr. simpl. rewrite fmap_app, fmap_cons, inter_app by (by rewrite length_fmap).
  unfold left_tokens, right_tokens. by rewrite !zip_with_fmap_l.
Qed.

Lemma tokens_plug mn mx n ctx t : ctx_ok mn mx n ctx -> tokens (plug ctx t) = ctx_left ctx ++ tokens t ++ ctx_right ctx.
Proof.
  revert n t. induction ctx as [|f ctx IH]; intros n t Hok; [cbn; by rewrite app_nil_r|].
  destruct Hok as (Hl & Hr & _ & _ & _ & Hok). change (plug (f :: ctx) t) with (plug ctx (fill f t)).
  rewrite (IH _ _ Hok), tokens_fill by done. cbn [ctx_left ctx_right]. by rewrite <- !app_assoc.
Qed.

Lemma leaves_plug ctx t : leaves (plug ctx t) = left_leaves ctx ++ leaves t ++ right_leaves ctx.
Proof.
  revert t. induction ctx as [|f ctx IH]; intros t; [cbn; by rewrite app_nil_r|].
  change (plug (f :: ctx) t) with (plug ctx (fill f t)). rewrite IH. cbn [left_leaves right_leaves leaves fill].
  rewrite fmap_app, fmap_cons, concat_app. cbn [concat]. by rewrite <- !app_assoc.
Qed.

Lemma ptr_plug ctx t : ptr (plug ctx t) = default (ptr t) (f_ptr <$> last ctx).
Proof.
  induction ctx as [|f ctx IH] using rev_ind; [done|]. unfold plug. rewrite foldl_app. cbn. by rewrite last_snoc.
Qed.

Lemma ptr_plug_same ctx t t' : ptr t = ptr t' -> ptr (plug ctx t) = ptr (plug ctx t').
Proof. rewrite !ptr_plug. by intros ->. Qed.

Lemma cells_plug lk ctx t : cells lk None (plug ctx t) ≡ₚ cells lk (par_of ctx) t ++ ctx_cells lk ctx (ptr t).
Proof.
  revert t. induction ctx as [|f ctx IH]; intros t; [cbn [ctx_cells par_of plug foldl]; by rewrite app_nil_r|].
  change (plug (f :: ctx) t) with (plug ctx (fill f t)). rewrite IH. unfold fill. cbn [ctx_cells ptr].
  rewrite cells_Node, forest_app, forest_cons, fmap_app, fmap_cons. change (par_of (f :: ctx)) with (Some (f_ptr f)).
  rewrite forest_app. solve_Permutation.
Qed.

(** * Ownership *)

Definition owns (t : BPlusTree) (cs : list (nat * node)) : Prop :=
  Forall (fun pn => nodes t !! pn.1 = Some pn.2) cs /\ NoDup cs.*1 /\
  (forall p, is_Some (nodes t !! p) -> p < fresh t).

Definition put (p : nat) (n : node) (t : BPlusTree) : BPlusTree := t <| nodes := <[p := n]> (nodes t) |>.

#[export] Instance owns_proper t : Proper ((≡ₚ) ==> iff) (owns t).
Proof. intros cs1 cs2 H. unfold owns. by rewrite H. Qed.

Lemma owns_perm t cs cs' : cs ≡ₚ cs' -> owns t cs -> owns t cs'.
Proof. by intros ->. Qed.

Lemma owns_lookup t p n cs : owns t ((p, n) :: cs) -> nodes t !! p = Some n.
Proof. intros (H & _). by apply Forall_cons in H as [? _]. Qed.

Lemma owns_app_r t cs1 cs2 : owns t (cs1 ++ cs2) -> owns t cs2.
Proof.
  intros (H & Hn & Hf). split_and!; [by apply Forall_app in H as [_ ?]| |done].
  rewrite fmap_app in Hn. by apply NoDup_app in Hn as (_ & _ & ?).
Qed.

Lemma owns_put t p n n' cs : owns t ((p, n) :: cs) -> owns (put p n' t) ((p, n') :: cs).
Proof.
  intros (H & Hn & Hf). apply Forall_cons in H as [Hp H]. apply NoDup_cons in Hn as [Hni Hn].
  split_and!; simpl.
  - constructor; [apply lookup_insert_eq|]. apply Forall_forall. intros [q m] Hq. rewrite Forall_forall in H. specialize (H _ Hq).
    simpl in *. rewrite lookup_insert_ne; [done|]. intros ->. apply Hni. apply list_elem_of_fmap. by exists (q, m).
  - by constructor.
  - intros q Hq. simpl in Hq. destruct (decide (p = q)) as [->|]; [apply Hf; by exists n|].
    rewrite lookup_insert_ne in Hq by done. by apply Hf.
Qed.

Lemma modify_owns t p n cs f : owns t ((p, n) :: cs) -> modify p f t = Some (put p (f n) t).
Proof. intros H. unfold modify. by rewrite (owns_lookup _ _ _ _ H). Qed.

Lemma owns_new t cs : owns t cs -> fresh t ∉ cs.*1.
Proof.
  intros (H & _ & Hf) ([p n] & Hq & Hp)%list_elem_of_fmap. rewrite Forall_forall in H. specialize (H _ Hp). simpl in *.
  specialize (Hf p ltac:(by eauto)). lia.
Qed.

Lemma alloc_owns t n cs : owns t cs -> owns (alloc n t).2 ((fresh t, n) :: cs).
Proof.
  intros Ho. pose proof (owns_new _ _ Ho) as Hnew. destruct Ho as (H & Hn & Hf). split_and!; simpl.
  - constructor; [apply lookup_insert_eq|]. apply Forall_forall. intros [q m] Hq. rewrite Forall_forall in H. specialize (H _ Hq).
    simpl in *. rewrite lookup_insert_ne; [done|]. intros <-. apply Hnew. apply list_elem_of_fmap. by exists (fresh t, m).
  - by constructor.
  - intros q Hq. destruct (decide (fresh t = q)) as [->|]; [lia|]. rewrite lookup_insert_ne in Hq by done. specialize (Hf q Hq). lia.
Qed.

(** The number of nodes is bounded by the next address. *)
Lemma owns_length t cs : owns t cs -> length cs <= fresh t.
Proof.
  intros (H & Hn & Hf). enough (length cs.*1 <= length (seq 0 (fresh t))) as Hl by (by rewrite length_fmap, length_seq in Hl).
  apply submseteq_length, NoDup_submseteq; [done|]. intros p [[q n] [-> Hq]]%list_elem_of_fmap. rewrite Forall_forall in H. specialize (H _ Hq).
  simpl in *. apply elem_of_seq. specialize (Hf q ltac:(by eauto)). lia.
Qed.

(** The scalars an operation on nodes leaves alone. *)
Definition same_scalars (t t' : BPlusTree) : Prop :=
  root t' = root t /\ maxKeys t' = maxKeys t /\ count t' = count t /\ fresh t' = fresh t.

Lemma set_parents_owns lk p q ts t cs :
  owns t (forest lk p ts ++ cs) ->
  exists t', set_parents q (ptr <$> ts) t = Some t' /\ owns t' (forest lk q ts ++ cs) /\ same_scalars t t'.
Proof.
  revert t cs. induction ts as [|x ts IH]; intros t cs Ho; [by exists t|].
  rewrite forest_cons in *. cbn [fmap list_fmap set_parents]. unfold cells in Ho. cbn [app] in Ho.
  rewrite (modify_owns _ _ _ _ _ Ho). cbn [mbind option_bind].
  destruct (IH (put (ptr x) ((top lk (Some p) x) <| parent := Some q |>) t) (cells lk (Some q) x ++ cs)) as (t' & -> & Ho' & Hs).
  { eapply owns_perm; [|apply (owns_put _ _ _ ((top lk (Some p) x) <| parent := Some q |>) _ Ho)].
    replace ((top lk (Some p) x) <| parent := Some q |>) with (top lk (Some q) x) by (by destruct x).
    unfold cells. solve_Permutation. }
  exists t'. split; [done|]. split; [|done]. eapply owns_perm; [|exact Ho']. solve_Permutation.
Qed.

(** * Order *)

Lemma le_lt_trans (a b c : string) : ~ key_lt b a -> key_lt b c -> key_lt a c.
Proof. intros H1 H2. destruct (key_not_lt _ _ H1) as [->|H3]; [done|]. by eapply key_lt_trans. Qed.

Lemma lt_le_trans (a b c : string) : key_lt a b -> ~ key_lt c b -> key_lt a c.
Proof. intros H1 H2. destruct (key_not_lt _ _ H2) as [->|H3]; [done|]. by eapply key_lt_trans. Qed.

#[local] Hint Resolve key_lt_trans le_lt_trans lt_le_trans : core.

Lemma token_lt_trans a b c : token_lt a b -> token_lt b c -> token_lt a c.
Proof. destruct a as [k ?|s], b as [k' ?|s'], c as [k'' ?|s'']; simpl; intros H1 H2; eauto; intros H3; eauto. Qed.

(** Where a key lies with respect to a token. *)
Definition before_key (key : string) (a : token) : Prop :=
  match a with Entry k _ => key_lt k key | Sep s => ~ key_lt key s end.
Definition after_key (key : string) (a : token) : Prop :=
  match a with Entry k _ => key_lt key k | Sep s => key_lt key s end.

Lemma before_sep key s a : ~ key_lt key s -> token_lt a (Sep s) -> before_key key a.
Proof. destruct a as [k v|s']; simpl; eauto. Qed.

Lemma after_sep key s a : key_lt key s -> token_lt (Sep s) a -> after_key key a.
Proof. destruct a as [k v|s']; simpl; eauto. Qed.

(** * Scans *)

Lemma scan_app {A} (P : A -> bool) l1 l2 :
  Forall (fun x => P x = true) l1 -> (forall x, head l2 = Some x -> P x = false) -> scan P (l1 ++ l2) = length l1.
Proof.
  induction 1 as [|x l1 Hx _ IH]; intros Hh; simpl; [destruct l2 as [|y l2]; [done|]; simpl; by rewrite Hh|].
  rewrite Hx. by rewrite IH.
Qed.

Lemma scan_split {A} (P : A -> bool) l :
  exists l1 l2, l = l1 ++ l2 /\ scan P l = length l1 /\ Forall (fun x => P x = true) l1 /\ (forall x, head l2 = Some x -> P x = false).
Proof.
  induction l as [|x l IH]; [by exists [], []|]. simpl. destruct (P x) eqn:Hx; [|exists [], (x :: l); split_and!; try done; by intros ? [= <-]].
  destruct IH as (l1 & l2 & -> & -> & H1 & H2). exists (x :: l1), l2. split_and!; try done. by constructor.
Qed.

(** * Descending *)

Lemma left_before key lts lks :
  StronglySorted token_lt (concat (zip_with (fun t k => tokens t ++ [Sep k]) lts lks)) ->
  Forall (fun k => ~ key_lt key k) lks -> Forall (before_key key) (concat (zip_with (fun t k => tokens t ++ [Sep k]) lts lks)).
Proof.
  revert lks. induction lts as [|t lts IH]; intros [|k lks] Hs Hk; try by constructor. cbn [zip_with concat] in *.
  apply StronglySorted_app in Hs as (_ & Hs1 & Hs2). apply Forall_cons in Hk as [Hk Hks].
  apply Forall_app. split; [|by apply IH]. apply StronglySorted_app in Hs1 as (Hb & _ & _).
  apply Forall_app. split; [|by repeat constructor]. apply Forall_forall. intros a Ha. eapply before_sep; [exact Hk|].
  apply Hb; [done|]. by left.
Qed.

Lemma right_after key rts rks :
  StronglySorted token_lt (concat (zip_with (fun t k => Sep k :: tokens t) rts rks)) ->
  (forall k, head rks = Some k -> key_lt key k) -> Forall (after_key key) (concat (zip_with (fun t k => Sep k :: tokens t) rts rks)).
Proof.
  destruct rts as [|t rts], rks as [|k rks]; intros Hs Hk; try by constructor. cbn [zip_with concat app] in *.
  specialize (Hk k eq_refl). apply StronglySorted_inv in Hs as [_ Hs]. constructor; [done|].
  eapply Forall_impl; [exact Hs|]. intros a. by apply after_sep.
Qed.

Lemma root_plug mn mx n ctx t : place_ok mn mx n ctx t -> root_ok mn mx (n + length ctx) (plug ctx t).
Proof.
  revert n t. induction ctx as [|f ctx IH]; intros n t [Hc Ht]; [simpl; by rewrite Nat.add_0_r|].
  destruct Hc as (Hl & Hr & Hls & Hrs & Hsz & Hc). change (plug (f :: ctx) t) with (plug ctx (fill f t)).
  replace (n + length (f :: ctx)) with (S n + length ctx) by (simpl; lia). apply IH. split; [done|].
  assert (length (f_lc f ++ t :: f_rc f) = S (length (f_lk f ++ f_rk f))) as Hlen.
  { rewrite !length_app. simpl. lia. }
  assert (Forall (sub mn mx n) (f_lc f ++ t :: f_rc f)) as Hall.
  { apply Forall_app. split; [done|]. by constructor. }
  assert (length (f_lk f ++ f_rk f) = length (f_lk f) + length (f_rk f)) as Hk by apply length_app.
  destruct ctx; cbn [root_ok sub fill]; split_and!; done || lia.
Qed.

Definition frame_at (p : nat) (ks : list string) (ts : list tree) (i : nat) : frame :=
  {| f_ptr := p; f_lk := take i ks; f_lc := take i ts; f_rk := drop i ks; f_rc := drop (S i) ts |}.

Lemma fill_frame_at p ks ts i c : ts !! i = Some c -> fill (frame_at p ks ts i) c = Node p ks ts.
Proof. intros Hc. unfold fill, frame_at. simpl. by rewrite take_drop, (take_drop_middle _ _ _ Hc). Qed.

Lemma place_child mn mx n ctx p ks ts i c :
  place_ok mn mx (S n) ctx (Node p ks ts) -> ts !! i = Some c -> place_ok mn mx n (frame_at p ks ts i :: ctx) c.
Proof.
  intros [Hc Ht] Hi. assert (length ts = S (length ks) /\ Forall (sub mn mx n) ts) as [Hl Hs].
  { by destruct ctx; simpl in Ht; destruct Ht as (_ & ? & ?). }
  pose proof (lookup_lt_Some _ _ _ Hi) as Hlt. split.
  - simpl. rewrite !length_take, !length_drop. split_and!; try done; try lia.
    + by apply Forall_take.
    + by apply Forall_drop.
    + destruct ctx; simpl in Ht; lia.
    + destruct ctx; simpl in Ht; lia.
  - by eapply Forall_lookup_1.
Qed.

Lemma find_leaf_spec mn mx lk T key n ctx x fuel :
  n < fuel -> owns T (cells lk None (plug ctx x)) -> place_ok mn mx n ctx x ->
  StronglySorted token_lt (ctx_left ctx ++ tokens x ++ ctx_right ctx) ->
  Forall (before_key key) (ctx_left ctx) -> Forall (after_key key) (ctx_right ctx) ->
  exists ctx' p kvs, find_leaf fuel T key (ptr x) = Some p /\ plug ctx' (Leaf p kvs) = plug ctx x /\
    place_ok mn mx 0 ctx' (Leaf p kvs) /\ Forall (before_key key) (ctx_left ctx') /\ Forall (after_key key) (ctx_right ctx').
Proof.
  revert ctx x fuel. induction n as [|n IH]; intros ctx x [|fuel] Hfuel Ho Hp Hs Hb Ha; try lia.
  - assert (exists p kvs, x = Leaf p kvs) as (p & kvs & ->).
    { destruct Hp as [_ Hp]. destruct x; [by eauto|]. by destruct ctx. }
    exists ctx, p, kvs. split; [|done]. rewrite cells_plug in Ho. cbn [find_leaf]. by rewrite (owns_lookup _ _ _ _ Ho).
  - assert (exists p ks ts, x = Node p ks ts) as (p & ks & ts & ->).
    { destruct Hp as [_ Hp]. destruct x; [by destruct ctx|by eauto]. }
    pose proof Ho as Ho'. rewrite cells_plug in Ho'. cbn [find_leaf]. rewrite (owns_lookup _ _ _ _ Ho').
    cbn [mbind option_bind top inner_node isLeaf keys children ptr].
    destruct (scan_split (fun k => negb (lt key k)) ks) as (lks & rks & -> & Hidx & Hlks & Hrks).
    rewrite Hidx. assert (length ts = S (length (lks ++ rks))) as Hlen by (by destruct ctx; destruct Hp as [_ (_ & ? & _)]).
    rewrite length_app in Hlen. destruct (lookup_lt_is_Some_2 ts (length lks)) as [c Hc]; [lia|].
    rewrite list_lookup_fmap, Hc. cbn [fmap option_fmap option_map mbind option_bind].
    set (f := frame_at p (lks ++ rks) ts (length lks)).
    pose proof (place_child _ _ _ _ _ _ _ _ _ Hp Hc) as Hp'. fold f in Hp'. pose proof Hp' as [Hok' _].
    assert (tokens (Node p (lks ++ rks) ts) = left_tokens f ++ tokens c ++ right_tokens f) as Htok.
    { unfold f. erewrite <- (fill_frame_at p _ _ _ _ Hc). apply tokens_fill; apply Hok'. }
    rewrite Htok in Hs.
    assert (StronglySorted token_lt (ctx_left (f :: ctx) ++ tokens c ++ ctx_right (f :: ctx))) as Hs'.
    { cbn [ctx_left ctx_right]. by rewrite <- !app_assoc in *. }
    pose proof Hs as (_ & _ & Hs2)%StronglySorted_app. apply StronglySorted_app in Hs2 as (_ & Hs2 & _).
    apply StronglySorted_app in Hs2 as (_ & Hsl & Hsr). apply StronglySorted_app in Hsr as (_ & _ & Hsr).
    destruct (IH (f :: ctx) c fuel) as (ctx' & q & kvs & Hf & Hq & ?); try done.
    + lia.
    + unfold plug in *. cbn [foldl]. unfold f. by rewrite (fill_frame_at _ _ _ _ _ Hc).
    + cbn [ctx_left]. apply Forall_app. split; [done|]. apply left_before; [done|]. unfold f. cbn [frame_at f_lk].
      rewrite take_app_length. eapply Forall_impl; [exact Hlks|]. intros k Hk. unfold lt in Hk. bools. done.
    + cbn [ctx_right]. apply Forall_app. split; [|done]. apply right_after; [done|]. unfold f. cbn [frame_at f_rk].
      rewrite drop_app_length. intros k Hk%Hrks. unfold lt in Hk. bools. done.
    + exists ctx', q, kvs. split; [done|]. split; [|done]. rewrite Hq. unfold plug. cbn [foldl]. unfold f. by rewrite (fill_frame_at _ _ _ _ _ Hc).
Qed.

(** * The chain of leaves *)

Lemma tree_induction (P : tree -> Prop) :
  (forall p kvs, P (Leaf p kvs)) -> (forall p ks ts, Forall P ts -> P (Node p ks ts)) -> forall t, P t.
Proof.
  intros HL HN. fix IH 1. intros [p kvs|p ks ts]; [apply HL|apply HN].
  induction ts as [|t ts IHts]; constructor; [apply IH|apply IHts].
Qed.

Definition lk_of (ls : list nat) : links := fun p =>
  match list_find (fun q => q = p) ls with
  | Some (i, _) => (match i with O => None | S i => ls !! i end, ls !! S i)
  | None => (None, None)
  end.

Lemma lk_of_at l1 p l2 : NoDup (l1 ++ p :: l2) -> lk_of (l1 ++ p :: l2) p = (last l1, head l2).
Proof.
  intros Hn. unfold lk_of.
  assert (list_find (fun q => q = p) (l1 ++ p :: l2) = Some (length l1, p)) as ->.
  { apply list_find_Some. split_and!; [apply list_lookup_middle; done|done|]. intros j y Hj Hlt ->.
    apply NoDup_app in Hn as (_ & Hd & _). rewrite lookup_app_l in Hj by done.
    apply (Hd p); [by eapply list_elem_of_lookup_2|left]. }
  f_equal.
  - destruct l1 as [|x l1] using rev_ind; [done|]. rewrite length_app, Nat.add_1_r, last_snoc, <- app_assoc.
    by apply list_lookup_middle.
  - rewrite lookup_app_r by lia. replace (S (length l1) - length l1) with 1 by lia. by destruct l2.
Qed.

Lemma lk_of_eq ls l1 p l2 : NoDup ls -> ls = l1 ++ p :: l2 -> lk_of ls p = (last l1, head l2).
Proof. intros Hn ->. by apply lk_of_at. Qed.

Definition relink (lk : links) (pn : nat * node) : nat * node :=
  (pn.1, if isLeaf pn.2 then pn.2 <| prev := (lk pn.1).1 |> <| next := (lk pn.1).2 |> else pn.2).

Lemma relink_cells lk lk' par t : relink lk' <$> cells lk par t = cells lk' par t.
Proof.
  revert par. induction t as [p kvs|p ks ts IH] using tree_induction; intros par; [done|].
  rewrite !cells_Node. cbn [fmap list_fmap]. f_equal. unfold forest. induction IH as [|t ts Ht _ IHt]; [done|].
  cbn [fmap list_fmap concat]. rewrite fmap_app. by rewrite Ht, IHt.
Qed.

Lemma relink_forest lk lk' p ts : relink lk' <$> forest lk p ts = forest lk' p ts.
Proof. induction ts as [|t ts IH]; [done|]. rewrite !forest_cons, fmap_app, relink_cells. by f_equal. Qed.

Lemma relink_ctx lk lk' ctx h : relink lk' <$> ctx_cells lk ctx h = ctx_cells lk' ctx h.
Proof.
  revert h. induction ctx as [|f ctx IH]; intros h; [done|]. cbn [ctx_cells fmap list_fmap].
  f_equal. change (list_fmap _ _ (relink lk')) with (fmap (M := list) (relink lk')). by rewrite fmap_app, relink_forest, IH.
Qed.

(** The leaves among the nodes, with their links. *)
Definition leaf_cells (lk : links) (cs : list (nat * node)) (ls : list nat) : Prop :=
  (forall q n, (q, n) ∈ cs -> isLeaf n = true -> q ∈ ls /\ (prev n, next n) = lk q) /\
  (forall q, q ∈ ls -> exists n, (q, n) ∈ cs /\ isLeaf n = true).

Lemma leaf_cells_app lk cs1 cs2 ls1 ls2 :
  leaf_cells lk cs1 ls1 -> leaf_cells lk cs2 ls2 -> leaf_cells lk (cs1 ++ cs2) (ls1 ++ ls2).
Proof.
  intros [H1 H2] [H3 H4]. split.
  - intros q n [Hq|Hq]%elem_of_app Hl; [destruct (H1 q n Hq Hl)|destruct (H3 q n Hq Hl)]; set_solver.
  - intros q [Hq|Hq]%elem_of_app; [destruct (H2 q Hq) as (n & ? & ?)|destruct (H4 q Hq) as (n & ? & ?)]; exists n; set_solver.
Qed.

Lemma leaf_cells_inner lk p n cs ls : isLeaf n = false -> leaf_cells lk cs ls -> leaf_cells lk ((p, n) :: cs) ls.
Proof.
  intros Hn [H1 H2]. split.
  - intros q m [?|Hq]%elem_of_cons Hl; [simplify_eq; congruence|by apply H1].
  - intros q Hq. destruct (H2 q Hq) as (m & ? & ?). exists m. set_solver.
Qed.

Lemma leaf_cells_nil lk : leaf_cells lk [] [].
Proof. split; set_solver. Qed.

Lemma leaf_cells_forest lk p ts : Forall (fun t => forall par, leaf_cells lk (cells lk par t) (leaves t)) ts ->
  leaf_cells lk (forest lk p ts) (concat (leaves <$> ts)).
Proof.
  induction 1 as [|t ts Ht _ IH]; [apply leaf_cells_nil|]. rewrite forest_cons. cbn [fmap list_fmap concat]. by apply leaf_cells_app.
Qed.

Lemma leaf_cells_tree lk par t : leaf_cells lk (cells lk par t) (leaves t).
Proof.
  revert par. induction t as [p kvs|p ks ts IH] using tree_induction; intros par.
  - rewrite cells_Leaf. split.
    + intros q n Hq%list_elem_of_singleton Hl. simplify_eq. split; [by left|]. cbn. by destruct (lk p).
    + intros q ->%list_elem_of_singleton. eexists. split; [by left|done].
  - rewrite cells_Node. apply leaf_cells_inner; [done|]. by apply leaf_cells_forest.
Qed.

Lemma leaf_cells_trees lk p ts : leaf_cells lk (forest lk p ts) (concat (leaves <$> ts)).
Proof. apply leaf_cells_forest, Forall_forall. intros t _ par. apply leaf_cells_tree. Qed.

Lemma leaf_cells_perm lk cs ls ls' : ls ≡ₚ ls' -> leaf_cells lk cs ls -> leaf_cells lk cs ls'.
Proof. intros H [H1 H2]. split; [setoid_rewrite <- H; done|]. intros q. rewrite <- H. apply H2. Qed.

Lemma leaf_cells_ctx lk ctx h : leaf_cells lk (ctx_cells lk ctx h) (left_leaves ctx ++ right_leaves ctx).
Proof.
  revert h. induction ctx as [|f ctx IH]; intros h; [apply leaf_cells_nil|]. cbn [ctx_cells left_leaves right_leaves].
  apply leaf_cells_inner; [done|]. eapply leaf_cells_perm; [|apply leaf_cells_app; [apply leaf_cells_trees|apply IH]].
  rewrite fmap_app, concat_app. solve_Permutation.
Qed.

Lemma sublist_leaves lk par t : sublist (leaves t) (cells lk par t).*1.
Proof.
  revert par. induction t as [p kvs|p ks ts IH] using tree_induction; intros par; [done|]. rewrite cells_Node.
  cbn [leaves fmap list_fmap]. apply sublist_cons. change (sublist (concat (leaves <$> ts)) (forest lk p ts).*1).
  induction IH as [|t ts Ht _ IHt]; [constructor|]. rewrite forest_cons, fmap_app. cbn [fmap list_fmap concat].
  by apply sublist_app.
Qed.

Lemma owns_leaves lk T par t cs : owns T (cells lk par t ++ cs) -> NoDup (leaves t).
Proof.
  intros (_ & Hn & _). rewrite fmap_app in Hn. apply NoDup_app in Hn as (Hn & _ & _).
  eapply sublist_NoDup; [exact Hn|apply sublist_leaves].
Qed.

(** Giving nodes the links they have changes nothing. *)
Lemma relink_id lk (cs : list (nat * node)) : (forall q n, (q, n) ∈ cs -> isLeaf n = true -> lk q = (prev n, next n)) -> relink lk <$> cs = cs.
Proof.
  intros H. rewrite <- (list_fmap_id cs) at 2. apply list_fmap_ext. intros i [q n] Hi%list_elem_of_lookup_2.
  unfold relink. cbn. destruct (isLeaf n) eqn:E; [|done]. rewrite (H q n Hi E). by destruct n.
Qed.

(** One leaf gets another predecessor. *)
Lemma modify_prev_owns lk T cs0 cs b nb x :
  owns T (cs0 ++ cs) -> (b, nb) ∈ cs -> isLeaf nb = true -> lk b = (x, next nb) ->
  (forall q n, (q, n) ∈ cs -> isLeaf n = true -> q <> b -> lk q = (prev n, next n)) ->
  modify b (fun m => m <| prev := x |>) T = Some (put b (nb <| prev := x |>) T) /\
  owns (put b (nb <| prev := x |>) T) (cs0 ++ (relink lk <$> cs)).
Proof.
  intros Ho Hb Hl Hx Hlk. apply list_elem_of_split in Hb as (cs1 & cs2 & ->).
  assert (owns T ((b, nb) :: cs0 ++ cs1 ++ cs2)) as Ho' by (eapply owns_perm; [|exact Ho]; solve_Permutation).
  split; [by eapply modify_owns|]. pose proof (owns_put _ _ _ (nb <| prev := x |>) _ Ho') as Hp.
  rewrite fmap_app, fmap_cons, <- Permutation_middle, <- fmap_app. rewrite (relink_id lk (cs1 ++ cs2)).
  - replace (relink lk (b, nb)) with (b, nb <| prev := x |>); [eapply owns_perm; [|exact Hp]; solve_Permutation|].
    unfold relink. cbn. rewrite Hl, Hx. by destruct nb.
  - intros q n Hq Hn. apply Hlk; [set_solver|done|]. intros ->. destruct Ho' as (_ & Hnd & _). cbn in Hnd.
    apply NoDup_cons in Hnd as [Hnd _]. apply Hnd. apply list_elem_of_fmap. exists (b, n). split; [done|]. apply elem_of_app. by right.
Qed.

(** The next leaf, if there is one, gets [x] as its predecessor. *)
Lemma modify_if_prev_owns lk lk' T cs0 cs ls (b : option nat) x :
  owns T (cs0 ++ cs) -> leaf_cells lk cs ls -> (forall q, b = Some q -> q ∈ ls /\ lk' q = (x, (lk q).2)) ->
  (forall q, q ∈ ls -> b <> Some q -> lk' q = lk q) ->
  exists T', modify_if b (fun m => m <| prev := x |>) T = Some T' /\ owns T' (cs0 ++ (relink lk' <$> cs)) /\ same_scalars T T'.
Proof.
  intros Ho [H1 H2] Hb Hlk. destruct b as [b|]; cbn [modify_if].
  - destruct (Hb b eq_refl) as [Hin Hx]. destruct (H2 b Hin) as (nb & Hnb & Hl). destruct (H1 b nb Hnb Hl) as [_ Hlb].
    rewrite <- Hlb in Hx. cbn in Hx. destruct (modify_prev_owns lk' T cs0 cs b nb x Ho Hnb Hl Hx) as [-> Ho'].
    + intros q n Hq Hn Hne. destruct (H1 q n Hq Hn) as [Hq' ->]. apply Hlk; [done|congruence].
    + eexists. split; [done|]. split; done.
  - exists T. split; [done|]. split; [|done]. rewrite relink_id; [done|]. intros q n Hq Hn.
    destruct (H1 q n Hq Hn) as [Hq' ->]. by apply Hlk.
Qed.

(** A new leaf [r] after [p] changes the links of its neighbours only. *)
Lemma lk_of_insert l1 p r l2 q :
  NoDup (l1 ++ p :: r :: l2) -> q ∈ l1 ++ l2 -> head l2 <> Some q ->
  lk_of (l1 ++ p :: r :: l2) q = lk_of (l1 ++ p :: l2) q.
Proof.
  intros Hn Hq Hh. assert (NoDup (l1 ++ p :: l2)) as Hn'.
  { eapply sublist_NoDup; [exact Hn|]. apply sublist_app; [done|]. by apply sublist_skip, sublist_cons. }
  apply elem_of_app in Hq as [(a & b & ->)%list_elem_of_split|(a & b & ->)%list_elem_of_split].
  - rewrite <- !app_assoc in *. cbn [app] in *. rewrite !lk_of_at by done. f_equal. by destruct b.
  - destruct a as [|x a]; [done|].
    rewrite (app_assoc l1 (p :: r :: x :: a) (q :: b) : l1 ++ p :: r :: (x :: a) ++ q :: b = _) in *.
    rewrite (app_assoc l1 (p :: x :: a) (q :: b) : l1 ++ p :: (x :: a) ++ q :: b = _) in *.
    rewrite !lk_of_at by done. f_equal. rewrite !last_app, !last_cons_cons. by destruct (last (x :: a)).
Qed.

(** * The whole tree *)

Record represents (mn mx : nat) (T : BPlusTree) (t : tree) : Prop := {
  rep_owns : owns T (cells (lk_of (leaves t)) None t);
  rep_root : root T = ptr t;
  rep_shape : exists n, root_ok mn mx n t;
  rep_sorted : StronglySorted token_lt (tokens t);
  rep_max : maxKeys T = Z.of_nat mx;
  rep_count : count T = Z.of_nat (length (entries (tokens t)));
}.

Lemma sub_height mn mx lk par n t : sub mn mx n t -> n < length (cells lk par t).
Proof.
  revert par t. induction n as [|n IH]; intros par t Ht; [unfold cells; simpl; lia|]. destruct t as [|p ks ts]; [done|].
  destruct Ht as (_ & Hl & Hs). rewrite cells_Node. cbn [length]. destruct ts as [|t ts]; [done|]. apply Forall_cons in Hs as [Hs _].
  rewrite forest_cons, length_app. specialize (IH (Some p) t Hs). lia.
Qed.

Lemma root_height mn mx lk par n t : root_ok mn mx n t -> n < length (cells lk par t).
Proof.
  destruct n as [|n]; [unfold cells; simpl; lia|]. destruct t as [|p ks ts]; [done|]. intros (_ & Hl & Hs).
  rewrite cells_Node. cbn [length]. destruct ts as [|t ts]; [done|]. apply Forall_cons in Hs as [Hs _].
  rewrite forest_cons, length_app. pose proof (sub_height _ _ lk (Some p) _ _ Hs). lia.
Qed.

Lemma findLeaf_spec mn mx T t key : represents mn mx T t ->
  exists ctx p kvs, findLeaf T key = Some p /\ t = plug ctx (Leaf p kvs) /\ place_ok mn mx 0 ctx (Leaf p kvs) /\
    Forall (before_key key) (ctx_left ctx) /\ Forall (after_key key) (ctx_right ctx).
Proof.
  intros [Ho Hr [n Hn] Hs _ _]. unfold findLeaf. rewrite Hr.
  destruct (find_leaf_spec mn mx (lk_of (leaves t)) T key n [] t (fresh T)) as (ctx & p & kvs & Hf & Hp & Hc & Hb & Ha).
  - pose proof (root_height _ _ (lk_of (leaves t)) None _ _ Hn). pose proof (owns_length _ _ Ho). lia.
  - done.
  - done.
  - cbn. by rewrite app_nil_r.
  - done.
  - done.
  - exists ctx, p, kvs. by split_and!.
Qed.

(** A leaf of the tree and the nodes around it. *)
Lemma owns_at mn mx T ctx x : represents mn mx T (plug ctx x) ->
  owns T (cells (lk_of (leaves (plug ctx x))) (par_of ctx) x ++ ctx_cells (lk_of (leaves (plug ctx x))) ctx (ptr x)).
Proof. intros H. rewrite <- cells_plug. apply H. Qed.

Lemma tokens_at mn mx ctx x n : place_ok mn mx n ctx x -> tokens (plug ctx x) = ctx_left ctx ++ tokens x ++ ctx_right ctx.
Proof. intros [Hc _]. by eapply tokens_plug. Qed.

(** Entries in the tokens on one side of a key. *)
Lemma entries_before key l : Forall (before_key key) l -> Forall (fun kv => key_lt kv.1 key) (entries l).
Proof. induction 1 as [|[k v|s] l Ha _ IH]; simpl; [done| |done]. by constructor. Qed.

Lemma entries_after key l : Forall (after_key key) l -> Forall (fun kv => key_lt key kv.1) (entries l).
Proof. induction 1 as [|[k v|s] l Ha _ IH]; simpl; [done| |done]. by constructor. Qed.

Lemma entries_app l1 l2 : entries (l1 ++ l2) = entries l1 ++ entries l2.
Proof. apply omap_app. Qed.

Lemma entries_entry kvs : entries (entry <$> kvs) = kvs.
Proof. induction kvs as [|[k v] kvs IH]; [done|]. unfold entries in *. rewrite fmap_cons. cbn. f_equal. exact IH. Qed.
