(* ===== verification/BPlusInsert.v ===== *)
(** Insertion into the B+ tree: the tree afterwards holds the entry, keeps its
    order, its balance and the chain of its leaves. *)

From stdpp Require Import base tactics option list gmap sets strings sorting.
From Stdlib Require Import ZArith Lia.
From S2P Require Import Prelude Ordered BPlus BPlusShape.

#[local] Open Scope nat_scope.

(** [T'] holds a tree with the given tokens and leaves. *)
Definition built (mn mx : nat) (lk : links) (T T' : BPlusTree) (toks : list token) (lvs : list nat) : Prop :=
  maxKeys T' = maxKeys T /\ count T' = count T /\
  exists n t, owns T' (cells lk None t) /\ root T' = ptr t /\ root_ok mn mx n t /\ tokens t = toks /\ leaves t = lvs.

Lemma insert_at_app {A} (x : A) l1 l2 : insert_at (length l1) x (l1 ++ l2) = l1 ++ x :: l2.
Proof. unfold insert_at. by rewrite take_app_length, drop_app_length. Qed.

Lemma inter_split m k ks tss :
  ks !! m = Some k -> length tss = S (length ks) ->
  inter ks tss = inter (take m ks) (take (S m) tss) ++ Sep k :: inter (drop (S m) ks) (drop (S m) tss).
Proof.
  revert m tss. induction ks as [|k' ks IH]; intros m tss Hm Hl; [done|].
  destruct tss as [|l tss]; [done|]. simpl in Hl. injection Hl as Hl. destruct m as [|m]; simpl in Hm.
  - simplify_eq. cbn. rewrite drop_0. by rewrite app_nil_r.
  - cbn [inter take drop]. rewrite (IH m tss Hm Hl). by rewrite <- app_assoc.
Qed.

Section insert.
Context (mn mx : nat) (lk : links).
Hypothesis Hmx : mx = 2 * mn.
Hypothesis Hmn : 1 <= mn.

(** A node with one key too many is split in two. *)
Lemma splitInternal_spec n p ks ts par T cs :
  owns T (cells lk par (Node p ks ts) ++ cs) -> length ks = S mx -> length ts = S (length ks) -> Forall (sub mn mx n) ts ->
  exists k q x1 x2 T', splitInternal p T = Some (k, q, T') /\ ptr x1 = p /\ ptr x2 = q /\
    owns T' (cells lk par x1 ++ cells lk par x2 ++ cs) /\ sub mn mx (S n) x1 /\ sub mn mx (S n) x2 /\
    tokens (Node p ks ts) = tokens x1 ++ Sep k :: tokens x2 /\ leaves (Node p ks ts) = leaves x1 ++ leaves x2 /\
    root T' = root T /\ maxKeys T' = maxKeys T /\ count T' = count T.
Proof.
  intros Ho Hks Hts Hsub. rewrite cells_Node in Ho. unfold splitInternal.
  rewrite (owns_lookup _ _ _ _ Ho). cbn [mbind option_bind inner_node keys children parent].
  assert (length ks / 2 = mn) as -> by (rewrite Hks, Hmx; symmetry; apply Nat.div_unique with 1; lia).
  destruct (lookup_lt_is_Some_2 ks mn) as [k Hk]; [lia|]. rewrite Hk. cbn [mbind option_bind alloc].
  set (right := inner_node par (drop (S mn) ks) (drop (S mn) (ptr <$> ts))).
  set (q := fresh T). set (T1 := (alloc right T).2).
  pose proof (alloc_owns _ right _ Ho) as Ho1. fold T1 q in Ho1.
  rewrite <- (take_drop (S mn) ts), forest_app in Ho1.
  destruct (set_parents_owns lk p q (drop (S mn) ts) T1
    ((q, right) :: (p, inner_node par ks (ptr <$> ts)) :: forest lk p (take (S mn) ts) ++ cs)) as (T2 & HT2 & Ho2 & Hsc).
  { eapply owns_perm; [|exact Ho1]. rewrite take_drop. solve_Permutation. }
  rewrite fmap_drop in HT2. fold T1. change (_ <| nodes := _ |> <| fresh := _ |>) with T1. rewrite HT2. cbn [mbind option_bind].
  assert (owns T2 ((p, inner_node par ks (ptr <$> ts)) :: (q, right) :: forest lk q (drop (S mn) ts) ++ forest lk p (take (S mn) ts) ++ cs)) as Ho3.
  { eapply owns_perm; [|exact Ho2]. solve_Permutation. }
  rewrite (modify_owns _ _ _ _ _ Ho3). cbn [mbind option_bind].
  eexists k, q, (Node p (take mn ks) (take (S mn) ts)), (Node q (drop (S mn) ks) (drop (S mn) ts)), _.
  split_and!; try done.
  - rewrite !cells_Node. eapply owns_perm; [|apply (owns_put _ _ _ _ _ Ho3)]. rewrite fmap_take, fmap_drop. fold right. solve_Permutation.
  - cbn [sub]. rewrite !length_take. split_and!; [lia..|by apply Forall_take].
  - cbn [sub]. rewrite !length_drop. split_and!; [lia..|by apply Forall_drop].
  - cbn [tokens]. rewrite (inter_split mn k) by (rewrite ?length_fmap; done). by rewrite fmap_take, fmap_drop.
  - cbn [leaves]. rewrite <- concat_app, <- fmap_app. by rewrite take_drop.
  - by destruct Hsc.
  - by destruct Hsc as (_ & ? & _).
  - by destruct Hsc as (_ & _ & ? & _).
Qed.

(** The separators of the parent on the two sides of a node. *)
Lemma frame_seps f ctx toks key : length (f_lk f) = length (f_lc f) -> length (f_rk f) = length (f_rc f) ->
  StronglySorted token_lt (ctx_left (f :: ctx) ++ toks ++ ctx_right (f :: ctx)) -> Sep key ∈ toks ->
  Forall (fun k => lt k key = true) (f_lk f) /\ (forall k, head (f_rk f) = Some k -> lt k key = false).
Proof.
  intros Hl Hr Hs Hk. cbn [ctx_left ctx_right] in Hs. rewrite <- !app_assoc in Hs.
  apply StronglySorted_app in Hs as (_ & _ & Hs). split.
  - apply StronglySorted_app in Hs as (Hs & _ & _). apply Forall_forall. intros k Hkl.
    apply bool_decide_eq_true. apply (Hs (Sep k) (Sep key)); [|set_solver].
    unfold left_tokens. apply list_elem_of_lookup_1 in Hkl as [i Hi].
    destruct (lookup_lt_is_Some_2 (f_lc f) i) as [t Ht]; [rewrite <- Hl; by eapply lookup_lt_Some|].
    apply list_elem_of_In, in_concat. exists (tokens t ++ [Sep k]). split; apply list_elem_of_In; [|set_solver].
    apply list_elem_of_lookup_2 with i. by rewrite lookup_zip_with, Ht, Hi.
  - apply StronglySorted_app in Hs as (_ & _ & Hs). apply StronglySorted_app in Hs as (Hs & _ & _).
    intros k Hhd. apply bool_decide_eq_false. apply key_lt_asym. apply (Hs (Sep key) (Sep k)); [done|].
    apply elem_of_app. left. unfold right_tokens. destruct (f_rk f) as [|k' rk]; [done|]. destruct (f_rc f) as [|t rc]; [done|].
    simplify_eq/=. left.
Qed.

Lemma insert_child par lks rks lcs rcs key (c d : nat) : length lks = length lcs ->
  let n := inner_node par (lks ++ rks) (lcs ++ c :: rcs) in
  inner_node par (lks ++ key :: rks) (lcs ++ c :: d :: rcs) =
  n <| keys := insert_at (length lks) key (keys n) |> <| children := insert_at (S (length lks)) d (children n) |>.
Proof.
  intros Hl. cbv zeta.
  assert (insert_at (S (length lks)) d (lcs ++ c :: rcs) = lcs ++ c :: d :: rcs) as E.
  { rewrite (cons_middle c), app_assoc. replace (S (length lks)) with (length (lcs ++ [c])) by (rewrite length_app; simpl; lia).
    rewrite insert_at_app. by rewrite <- app_assoc. }
  rewrite <- E, <- insert_at_app. done.
Qed.

(** A root that was split gets a new root above it. *)
Lemma insertIntoParent_root n l key r pr T fuel :
  owns T (cells lk None l ++ cells lk pr r) -> sub mn mx n l -> sub mn mx n r ->
  exists T', insertIntoParent (S fuel) (ptr l) key (ptr r) T = Some T' /\
    built mn mx lk T T' (tokens l ++ Sep key :: tokens r) (leaves l ++ leaves r).
Proof.
  intros Ho Hsl Hsr. cbn [insertIntoParent]. unfold cells in Ho. cbn [app] in Ho. rewrite (owns_lookup _ _ _ _ Ho). cbn [mbind option_bind].
  replace (parent (top lk None l)) with (None : option nat) by (by destruct l).
  cbn [alloc]. set (q := fresh T). set (T1 := (alloc (inner_node None [key] [ptr l; ptr r]) T).2).
  pose proof (alloc_owns _ (inner_node None [key] [ptr l; ptr r]) _ Ho) as Ho1. fold q T1 in Ho1.
  change (_ <| nodes := _ |> <| fresh := _ |>) with T1.
  assert (owns T1 ((ptr l, top lk None l) :: (ptr r, top lk pr r) :: (q, inner_node None [key] [ptr l; ptr r]) :: below lk l ++ below lk r)) as Ho2
    by (eapply owns_perm; [|exact Ho1]; solve_Permutation).
  rewrite (modify_owns _ _ _ _ _ Ho2). cbn [mbind option_bind].
  replace ((top lk None l) <| parent := Some q |>) with (top lk (Some q) l) by (by destruct l).
  pose proof (owns_put _ _ _ (top lk (Some q) l) _ Ho2) as Ho3.
  apply (owns_perm _ _ ((ptr r, top lk pr r) :: (ptr l, top lk (Some q) l) :: (q, inner_node None [key] [ptr l; ptr r]) :: below lk l ++ below lk r)) in Ho3; [|solve_Permutation].
  rewrite (modify_owns _ _ _ _ _ Ho3). cbn [mbind option_bind].
  replace ((top lk pr r) <| parent := Some q |>) with (top lk (Some q) r) by (by destruct r).
  pose proof (owns_put _ _ _ (top lk (Some q) r) _ Ho3) as Ho4. eexists. split; [done|]. split; [done|]. split; [done|].
  exists (S n), (Node q [key] [l; r]). split_and!; try done.
  - rewrite cells_Node. unfold forest, cells. cbn [fmap list_fmap concat]. rewrite app_nil_r.
    eapply owns_perm; [|exact Ho4]. solve_Permutation.
  - cbn [root_ok]. split_and!; [simpl; lia|simpl; lia|done|by repeat constructor].
  - cbn. by rewrite !app_nil_r.
  - cbn. by rewrite !app_nil_r.
Qed.

(** The parent with the new child behind the old one. *)
Definition widened (f : frame) (l : tree) (key : string) (r : tree) : tree :=
  Node (f_ptr f) (f_lk f ++ key :: f_rk f) (f_lc f ++ l :: r :: f_rc f).

Lemma tokens_widened f l key r : length (f_lk f) = length (f_lc f) -> length (f_rk f) = length (f_rc f) ->
  tokens (widened f l key r) = left_tokens f ++ (tokens l ++ Sep key :: tokens r) ++ right_tokens f.
Proof.
  intros Hl Hr. change (widened f l key r) with (fill {| f_ptr := f_ptr f; f_lk := f_lk f; f_lc := f_lc f; f_rk := key :: f_rk f; f_rc := r :: f_rc f |} l).
  rewrite tokens_fill by (simpl; lia). unfold left_tokens, right_tokens. cbn. by rewrite <- app_assoc.
Qed.

Lemma leaves_widened f l key r : leaves (widened f l key r) = concat (leaves <$> f_lc f) ++ (leaves l ++ leaves r) ++ concat (leaves <$> f_rc f).
Proof. cbn [leaves widened]. rewrite fmap_app, !fmap_cons, concat_app. cbn [concat]. by rewrite <- !app_assoc. Qed.

Lemma insertIntoParent_child f ctx l key r pr T fuel :
  owns T (cells lk (Some (f_ptr f)) l ++ cells lk pr r ++ ctx_cells lk (f :: ctx) (ptr l)) -> length (f_lk f) = length (f_lc f) ->
  Forall (fun k => lt k key = true) (f_lk f) -> (forall k, head (f_rk f) = Some k -> lt k key = false) ->
  exists T', same_scalars T T' /\ owns T' (cells lk (par_of ctx) (widened f l key r) ++ ctx_cells lk ctx (f_ptr f)) /\
    insertIntoParent (S fuel) (ptr l) key (ptr r) T =
      if (maxKeys T <? Z.of_nat (S (length (f_lk f) + length (f_rk f))))%Z then
        '(midKey, rightInternal, T') ← splitInternal (f_ptr f) T'; insertIntoParent fuel (f_ptr f) midKey rightInternal T'
      else Some T'.
Proof.
  intros Ho Hll Hlk Hrk. set (p := f_ptr f) in *. cbn [insertIntoParent]. pose proof Ho as Ho0. unfold cells in Ho0. cbn [app] in Ho0.
  rewrite (owns_lookup _ _ _ _ Ho0). cbn [mbind option_bind]. replace (parent (top lk (Some p) l)) with (Some p) by (by destruct l). clear Ho0.
  set (pn := inner_node (par_of ctx) (f_lk f ++ f_rk f) ((ptr <$> f_lc f) ++ ptr l :: (ptr <$> f_rc f))).
  assert (owns T ((p, pn) :: cells lk (Some p) l ++ cells lk pr r ++ forest lk p (f_lc f ++ f_rc f) ++ ctx_cells lk ctx p)) as Ho1
    by (eapply owns_perm; [|exact Ho]; cbn [ctx_cells]; fold p pn; unfold cells; solve_Permutation).
  rewrite (owns_lookup _ _ _ _ Ho1). cbn [mbind option_bind]. cbn [pn inner_node keys].
  rewrite (scan_app _ _ _ Hlk Hrk), (modify_owns _ _ _ _ _ Ho1). cbn [mbind option_bind].
  set (ks := f_lk f ++ key :: f_rk f). set (ts := f_lc f ++ l :: r :: f_rc f). set (pn' := inner_node (par_of ctx) ks (ptr <$> ts)).
  replace (pn <| keys := _ |> <| children := _ |>) with pn'
    by (unfold pn', ks, ts; rewrite fmap_app, !fmap_cons; apply insert_child; by rewrite length_fmap).
  pose proof (owns_put _ _ _ pn' _ Ho1) as Ho2.
  apply (owns_perm _ _ ((ptr r, top lk pr r) :: (p, pn') :: below lk r ++ cells lk (Some p) l ++ forest lk p (f_lc f ++ f_rc f) ++ ctx_cells lk ctx p)) in Ho2;
    [|unfold cells; solve_Permutation].
  rewrite (modify_owns _ _ _ _ _ Ho2). cbn [mbind option_bind].
  replace ((top lk pr r) <| parent := Some p |>) with (top lk (Some p) r) by (by destruct r).
  pose proof (owns_put _ _ _ (top lk (Some p) r) _ Ho2) as Ho3. set (T3 := put (ptr r) _ _) in *.
  assert (owns T3 (cells lk (par_of ctx) (widened f l key r) ++ ctx_cells lk ctx p)) as Ho4.
  { eapply owns_perm; [|exact Ho3]. unfold widened. rewrite cells_Node, !forest_app, !forest_cons. fold ks ts p pn'. unfold cells. solve_Permutation. }
  exists T3. split; [done|]. split; [exact Ho4|]. unfold widened in Ho4. rewrite cells_Node in Ho4. fold p ks ts in Ho4.
  rewrite (owns_lookup _ _ _ _ Ho4). cbn [mbind option_bind inner_node keys]. unfold len.
  replace (length ks) with (S (length (f_lk f) + length (f_rk f))) by (unfold ks; rewrite length_app; simpl; lia). done.
Qed.

Lemma built_plug n ctx x T T' : same_scalars T T' -> owns T' (cells lk (par_of ctx) x ++ ctx_cells lk ctx (ptr x)) -> place_ok mn mx n ctx x ->
  root T = ptr (plug ctx x) -> built mn mx lk T T' (ctx_left ctx ++ tokens x ++ ctx_right ctx) (left_leaves ctx ++ leaves x ++ right_leaves ctx).
Proof.
  intros (HR & HM & HC & _) Ho Hp Hr. split; [done|]. split; [done|]. exists (n + length ctx), (plug ctx x). split_and!.
  - by rewrite cells_plug.
  - by rewrite HR.
  - by apply root_plug.
  - by eapply tokens_at.
  - apply leaves_plug.
Qed.

Lemma built_trans T T1 T' toks lvs : maxKeys T1 = maxKeys T -> count T1 = count T -> built mn mx lk T1 T' toks lvs -> built mn mx lk T T' toks lvs.
Proof. intros HM HC (H1 & H2 & Hb). split; [congruence|]. split; [congruence|done]. Qed.

Lemma insertIntoParent_spec n ctx l key r pr T fuel :
  length ctx < fuel -> maxKeys T = Z.of_nat mx ->
  owns T (cells lk (par_of ctx) l ++ cells lk pr r ++ ctx_cells lk ctx (ptr l)) ->
  ctx_ok mn mx n ctx -> sub mn mx n l -> sub mn mx n r -> root T = ptr (plug ctx l) ->
  StronglySorted token_lt (ctx_left ctx ++ (tokens l ++ Sep key :: tokens r) ++ ctx_right ctx) ->
  exists T', insertIntoParent fuel (ptr l) key (ptr r) T = Some T' /\
    built mn mx lk T T' (ctx_left ctx ++ (tokens l ++ Sep key :: tokens r) ++ ctx_right ctx)
      (left_leaves ctx ++ (leaves l ++ leaves r) ++ right_leaves ctx).
Proof.
  revert n ctx l key r pr T. induction fuel as [|fuel IH]; intros n ctx l key r pr T Hfuel HM Ho Hc Hsl Hsr HR Hs; [lia|].
  destruct ctx as [|f ctx].
  { cbn [ctx_left ctx_right left_leaves right_leaves app ctx_cells] in *. rewrite !app_nil_r in *. by eapply insertIntoParent_root. }
  destruct Hc as (Hll & Hlr & Hfl & Hfr & Hsz & Hc). destruct (frame_seps f ctx _ key Hll Hlr Hs) as [Hlk Hrk]; [set_solver|].
  destruct (insertIntoParent_child f ctx l key r pr T fuel Ho Hll Hlk Hrk) as (T3 & HS3 & Ho3 & ->). rewrite HM.
  set (w := widened f l key r) in *.
  assert (ctx_left (f :: ctx) ++ (tokens l ++ Sep key :: tokens r) ++ ctx_right (f :: ctx) = ctx_left ctx ++ tokens w ++ ctx_right ctx) as Htok
    by (unfold w; rewrite tokens_widened by done; cbn [ctx_left ctx_right]; by rewrite <- !app_assoc).
  assert (left_leaves (f :: ctx) ++ (leaves l ++ leaves r) ++ right_leaves (f :: ctx) = left_leaves ctx ++ leaves w ++ right_leaves ctx) as Hlvs
    by (unfold w; rewrite leaves_widened; cbn [left_leaves right_leaves]; by rewrite <- !app_assoc).
  assert (root T = ptr (plug ctx w)) as HRw by (rewrite HR; by apply (ptr_plug_same ctx)).
  assert (length (f_lk f ++ key :: f_rk f) = S (length (f_lk f) + length (f_rk f))) as Hks by (rewrite length_app; simpl; lia).
  assert (length (f_lc f ++ l :: r :: f_rc f) = S (length (f_lk f ++ key :: f_rk f))) as Hts by (rewrite Hks, length_app; simpl; lia).
  assert (Forall (sub mn mx n) (f_lc f ++ l :: r :: f_rc f)) as Hsub by (apply Forall_app; by repeat constructor).
  rewrite Htok, Hlvs in *.
  destruct (Z.ltb_spec (Z.of_nat mx) (Z.of_nat (S (length (f_lk f) + length (f_rk f))))).
  - destruct HS3 as (HR3 & HM3 & HC3 & _). destruct (splitInternal_spec n _ _ _ (par_of ctx) T3 _ Ho3) as
      (k & q & x1 & x2 & T5 & -> & Hpx & <- & Ho5 & Hx1 & Hx2 & Ht & Hlv & HR5 & HM5 & HC5); [lia|done..|].
    fold (widened f l key r) in Ht, Hlv. fold w in Ht, Hlv. cbn [mbind option_bind]. rewrite <- Hpx.
    destruct (IH (S n) ctx x1 k x2 (par_of ctx) T5) as (T' & -> & Hb); try done.
    + simpl in Hfuel. lia.
    + by rewrite HM5, HM3.
    + by rewrite Hpx.
    + rewrite HR5, HR3, HRw. by apply ptr_plug_same.
    + by rewrite <- Ht.
    + exists T'. split; [done|]. rewrite Ht, Hlv. eapply built_trans; [by rewrite HM5, HM3|by rewrite HC5, HC3|exact Hb].
  - exists T3. split; [done|]. apply (built_plug (S n)); try done. split; [done|]. destruct ctx; cbn [root_ok sub w widened]; split_and!; done || lia.
Qed.
End insert.

(** A separator in front of an entry that has another one before it in its leaf. *)
Lemma sorted_insert_sep l1 kvs k v l2 : kvs <> [] ->
  StronglySorted token_lt (l1 ++ (entry <$> kvs) ++ Entry k v :: l2) ->
  StronglySorted token_lt (l1 ++ (entry <$> kvs) ++ Sep k :: Entry k v :: l2).
Proof.
  intros Hne Hs. rewrite app_assoc in *. apply StronglySorted_app in Hs as (Hb & Hs1 & Hs2).
  assert (Forall (token_lt (Sep k)) (Entry k v :: l2)) as Hk.
  { pose proof Hs2 as [_ Hf]%StronglySorted_inv. constructor; [apply key_lt_irrefl|]. eapply Forall_impl; [exact Hf|].
    intros a. apply token_lt_trans. apply key_lt_irrefl. }
  apply StronglySorted_app. split_and!; [|done|by constructor].
  intros a b Ha [->|Hin]%elem_of_cons; [|by apply Hb].
  destruct a as [k' v'|s]; [by apply (Hb (Entry k' v') (Entry k v)); [|left]|].
  apply elem_of_app in Ha as [Ha|(kv & ? & _)%list_elem_of_fmap]; [|done].
  destruct kvs as [|[k0 v0] kvs]; [done|]. apply StronglySorted_app in Hs1 as (Hm & _ & Hs1).
  apply (token_lt_trans _ (Entry k0 v0)); [apply Hm; [done|left]|].
  apply (Hb (Entry k0 v0) (Entry k v)); [|left]. apply elem_of_app. right. left.
Qed.

Lemma length_ctx_cells lk ctx h : length ctx <= length (ctx_cells lk ctx h).
Proof. revert h. induction ctx as [|f ctx IH]; intros h; simpl; [lia|]. rewrite length_app. specialize (IH (f_ptr f)). lia. Qed.

Section split_leaf.
Context (mn mx : nat).
Hypothesis Hmx : mx = 2 * mn.
Hypothesis Hmn : 1 <= mn.

(** The leaf in two, the new one behind the old one in the chain. *)
Lemma splitLeaf_owns ctx p kvs T :
  let lvs := left_leaves ctx ++ p :: right_leaves ctx in
  owns T (cells (lk_of lvs) (par_of ctx) (Leaf p kvs) ++ ctx_cells (lk_of lvs) ctx p) -> NoDup lvs -> length kvs = S mx ->
  exists r k v kr T', kvs = take mn kvs ++ (k, v) :: kr /\ root T' = root T /\ maxKeys T' = maxKeys T /\ count T' = count T /\
    let lk' := lk_of (left_leaves ctx ++ p :: r :: right_leaves ctx) in
    owns T' (cells lk' (par_of ctx) (Leaf p (take mn kvs)) ++ cells lk' None (Leaf r ((k, v) :: kr)) ++ ctx_cells lk' ctx p) /\
    splitLeaf p T = insertIntoParent (fresh T') p k r T'.
Proof.
  intros lvs Ho Hnd Hl. set (LL := left_leaves ctx) in *. set (RL := right_leaves ctx) in *. set (lk := lk_of lvs) in *.
  assert (lk p = (last LL, head RL)) as Hlkp by (by apply lk_of_at).
  unfold splitLeaf. rewrite cells_Leaf in Ho. cbn [app] in Ho. rewrite (owns_lookup _ _ _ _ Ho).
  cbn [mbind option_bind leaf_node keys values next]. rewrite Hlkp. cbn [snd].
  rewrite length_fmap. assert (length kvs / 2 = mn) as -> by (rewrite Hl, Hmx; symmetry; apply Nat.div_unique with 1; lia).
  destruct (drop mn kvs) as [|[k v] kr] eqn:Ekr; [apply (f_equal length) in Ekr; rewrite length_drop in Ekr; simpl in Ekr; lia|].
  cbn [alloc]. set (r := fresh T). set (rn := {| keys := drop mn kvs.*1; isLeaf := true; parent := None; next := head RL; prev := Some p;
    children := []; values := drop mn kvs.*2 |}).
  pose proof (alloc_owns _ rn _ Ho) as Ho1. set (T1 := (alloc rn T).2) in *. change (_ <| nodes := _ |> <| fresh := _ |>) with T1. fold r in Ho1.
  set (lvs' := LL ++ p :: r :: RL). set (lk' := lk_of lvs'). pose proof (leaf_cells_ctx lk ctx p) as Hlc. fold LL RL in Hlc.
  assert (NoDup lvs') as Hnd'.
  { pose proof (owns_new _ _ Ho) as Hnew. fold r in Hnew. assert (lvs' ≡ₚ r :: lvs) as -> by (unfold lvs', lvs; solve_Permutation). constructor; [|done].
    intros Hin. apply Hnew. unfold lvs in Hin. cbn. apply elem_of_app in Hin as [Hin|[->|Hin]%elem_of_cons]; [right|left|right];
      (destruct (proj2 Hlc r) as (n & Hn & _); [set_solver|]; apply list_elem_of_fmap; by exists (r, n)). }
  assert (lk' p = (last LL, Some r)) as Hlkp' by (by apply lk_of_at).
  assert (lk' r = (Some p, head RL)) as Hlkr.
  { unfold lk'. rewrite (lk_of_eq _ (LL ++ [p]) r RL Hnd') by (unfold lvs'; by rewrite <- app_assoc). by rewrite last_snoc. }
  destruct (modify_if_prev_owns lk lk' T1 [(r, rn); (p, leaf_node lk p (par_of ctx) kvs)] (ctx_cells lk ctx p) (LL ++ RL) (head RL) (Some r))
    as (T2 & -> & Ho2 & HS2); [done|done| |intros q Hq Hne; by apply lk_of_insert|].
  { intros q Hq. destruct RL as [|q' RL'] eqn:ERL; [done|]. simplify_eq/=. split; [set_solver|].
    unfold lk', lk. rewrite (lk_of_eq _ (LL ++ [p]) q RL' Hnd) by (unfold lvs; by rewrite <- app_assoc).
    rewrite (lk_of_eq _ (LL ++ [p; r]) q RL' Hnd') by (unfold lvs'; by rewrite <- app_assoc). by rewrite last_app. }
  cbn [mbind option_bind]. rewrite relink_ctx in Ho2.
  apply (owns_perm _ _ ((p, leaf_node lk p (par_of ctx) kvs) :: (r, rn) :: ctx_cells lk' ctx p)) in Ho2; [|solve_Permutation].
  rewrite (modify_owns _ _ _ _ _ Ho2). cbn [mbind option_bind].
  replace (drop mn kvs.*1 !! 0) with (Some k) by (rewrite <- fmap_drop; by rewrite Ekr). cbn [mbind option_bind].
  destruct HS2 as (HR2 & HM2 & HC2 & _). set (T3 := put p _ T2).
  exists r, k, v, kr, T3. split; [by rewrite <- Ekr, take_drop|]. split; [exact HR2|]. split; [exact HM2|]. split; [exact HC2|]. split; [|done].
  fold LL RL lvs' lk'. rewrite !cells_Leaf. eapply owns_perm; [|apply (owns_put _ _ _ _ _ Ho2)]. cbn [app].
  replace (leaf_node lk' p (par_of ctx) (take mn kvs)) with ((leaf_node lk p (par_of ctx) kvs) <| next := Some r |>
    <| keys := take mn (keys (leaf_node lk p (par_of ctx) kvs)) |> <| values := take mn (values (leaf_node lk p (par_of ctx) kvs)) |>)
    by (unfold leaf_node; cbn; rewrite Hlkp, Hlkp', !fmap_take; done).
  replace (leaf_node lk' r None ((k, v) :: kr)) with rn; [solve_Permutation|]. unfold leaf_node, rn. rewrite <- Ekr, Hlkr. by rewrite !fmap_drop.
Qed.

Lemma splitLeaf_spec ctx p kvs T :
  let lvs := left_leaves ctx ++ p :: right_leaves ctx in
  owns T (cells (lk_of lvs) (par_of ctx) (Leaf p kvs) ++ ctx_cells (lk_of lvs) ctx p) -> NoDup lvs ->
  maxKeys T = Z.of_nat mx -> ctx_ok mn mx 0 ctx -> length kvs = S mx -> root T = ptr (plug ctx (Leaf p kvs)) ->
  StronglySorted token_lt (ctx_left ctx ++ (entry <$> kvs) ++ ctx_right ctx) ->
  exists T' toks lvs', splitLeaf p T = Some T' /\ built mn mx (lk_of lvs') T T' toks lvs' /\
    StronglySorted token_lt toks /\ entries toks = entries (ctx_left ctx ++ (entry <$> kvs) ++ ctx_right ctx).
Proof.
  intros lvs Ho Hnd HM Hc Hl HR Hs. destruct (splitLeaf_owns ctx p kvs T Ho Hnd Hl) as (r & k & v & kr & T3 & Hkvs & HR3 & HM3 & HC3 & Ho3 & ->).
  set (kl := take mn kvs) in *. set (lvs' := left_leaves ctx ++ p :: r :: right_leaves ctx) in *.
  assert (length kl = mn /\ length kr = mn) as [Hkl Hkr].
  { apply (f_equal length) in Hkvs. rewrite length_app in Hkvs. simpl in Hkvs. unfold kl in *. rewrite length_take in *. lia. }
  rewrite Hkvs, fmap_app, fmap_cons in Hs |- *. change (entry (k, v)) with (Entry k v) in *.
  assert (StronglySorted token_lt (ctx_left ctx ++ (tokens (Leaf p kl) ++ Sep k :: tokens (Leaf r ((k, v) :: kr))) ++ ctx_right ctx)) as Hs'.
  { cbn [tokens]. rewrite <- app_assoc in Hs |- *. apply sorted_insert_sep; [by destruct kl; simpl in *; [lia|]|exact Hs]. }
  destruct (insertIntoParent_spec mn mx (lk_of lvs') Hmx Hmn 0 ctx (Leaf p kl) k (Leaf r ((k, v) :: kr)) None T3 (fresh T3)) as (T' & HT' & Hb); try done.
  - pose proof (owns_length _ _ Ho3) as Hlen. rewrite !length_app, !cells_Leaf in Hlen. cbn [length] in Hlen. pose proof (length_ctx_cells (lk_of lvs') ctx p). lia.
  - by rewrite HM3.
  - cbn [sub]. lia.
  - cbn [sub]. simpl. lia.
  - rewrite HR3, HR. by apply ptr_plug_same.
  - eexists T', _, lvs'. split; [exact HT'|]. split; [by eapply built_trans|]. split; [exact Hs'|]. rewrite !entries_app. done.
Qed.
End split_leaf.

(** * Insert *)

(** [l'] is [l] with the value of [key] set. *)
Definition set_entry (key value : string) (l l' : list (string * string)) : Prop :=
  exists l1 l2, Forall (fun kv => key_lt kv.1 key) l1 /\ Forall (fun kv => key_lt key kv.1) l2 /\
    (l = l1 ++ l2 \/ exists v, l = l1 ++ (key, v) :: l2) /\ l' = l1 ++ (key, value) :: l2.

(** One entry replaced or added between smaller and greater tokens. *)
Lemma sorted_set l1 l2 key value :
  StronglySorted token_lt (l1 ++ l2) -> Forall (before_key key) l1 -> Forall (after_key key) l2 ->
  StronglySorted token_lt (l1 ++ Entry key value :: l2).
Proof.
  intros (_ & H1 & H2)%StronglySorted_app Hb Ha. rewrite Forall_forall in Hb. apply StronglySorted_app. split_and!; [|done|].
  - intros a b Hain Hbin. assert (token_lt a (Entry key value)) as Hlt by (specialize (Hb a Hain); by destruct a).
    apply elem_of_cons in Hbin as [->|Hbin]; [done|]. eapply token_lt_trans; [exact Hlt|].
    rewrite Forall_forall in Ha. specialize (Ha b Hbin). by destruct b.
  - constructor; [done|]. eapply Forall_impl; [exact Ha|]. by intros [].
Qed.

Lemma entry_before key kvs : Forall (fun kv => key_lt kv.1 key) kvs -> Forall (before_key key) (entry <$> kvs).
Proof. intros H. apply Forall_fmap. eapply Forall_impl; [exact H|]. done. Qed.

Lemma entry_after key kvs : Forall (fun kv => key_lt key kv.1) kvs -> Forall (after_key key) (entry <$> kvs).
Proof. intros H. apply Forall_fmap. eapply Forall_impl; [exact H|]. done. Qed.

(** The place of a key among the sorted entries of a leaf. *)
Lemma leaf_position key kvs : StronglySorted token_lt (entry <$> kvs) ->
  exists l1 l2, kvs = l1 ++ l2 /\ scan (fun k => lt k key) kvs.*1 = length l1 /\
    Forall (fun kv => key_lt kv.1 key) l1 /\
    match l2 with
    | [] => True
    | (k, v) :: l2 => (k = key \/ key_lt key k) /\ Forall (fun kv => key_lt k kv.1) l2
    end.
Proof.
  intros Hs. destruct (scan_split (fun kv : string * string => lt kv.1 key) kvs) as (l1 & l2 & -> & Hi & H1 & H2).
  exists l1, l2. split; [done|]. split.
  - rewrite <- Hi. clear. induction (l1 ++ l2) as [|kv l IH]; [done|]. rewrite fmap_cons. cbn [scan]. by rewrite IH.
  - split; [eapply Forall_impl; [exact H1|]; intros kv Hkv; by apply bool_decide_eq_true in Hkv|].
    destruct l2 as [|[k v] l2]; [done|]. split.
    + specialize (H2 _ eq_refl). apply bool_decide_eq_false in H2. cbn in H2. destruct (key_not_lt _ _ H2) as [->|?]; auto.
    + rewrite fmap_app in Hs. apply StronglySorted_app in Hs as (_ & _ & Hs). rewrite fmap_cons in Hs.
      apply StronglySorted_inv in Hs as [_ Hs]. rewrite Forall_fmap in Hs. eapply Forall_impl; [exact Hs|]. done.
Qed.

Lemma leaf_sorted ctx kvs : StronglySorted token_lt (ctx_left ctx ++ (entry <$> kvs) ++ ctx_right ctx) -> StronglySorted token_lt (entry <$> kvs).
Proof. intros (_ & _ & Hs)%StronglySorted_app. by apply StronglySorted_app in Hs as (_ & Hs & _). Qed.

Section insert_top.
Context (mn mx : nat).
Hypothesis Hmx : mx = 2 * mn.
Hypothesis Hmn : 1 <= mn.

(** A leaf is overwritten in place. *)
Lemma represents_leaf T ctx p kvs kvs' n' c :
  represents mn mx T (plug ctx (Leaf p kvs)) -> place_ok mn mx 0 ctx (Leaf p kvs') ->
  n' = leaf_node (lk_of (leaves (plug ctx (Leaf p kvs)))) p (par_of ctx) kvs' ->
  StronglySorted token_lt (tokens (plug ctx (Leaf p kvs'))) ->
  c = Z.of_nat (length (entries (tokens (plug ctx (Leaf p kvs'))))) ->
  represents mn mx ((put p n' T) <| count := c |>) (plug ctx (Leaf p kvs')).
Proof.
  intros Hr Hp -> Hs ->. pose proof (owns_at _ _ _ _ _ Hr) as Ho. rewrite cells_Leaf in Ho. cbn [app] in Ho.
  assert (leaves (plug ctx (Leaf p kvs')) = leaves (plug ctx (Leaf p kvs))) as Hl by (by rewrite !leaves_plug).
  split; try done.
  - rewrite Hl, cells_plug, cells_Leaf. exact (owns_put _ _ _ _ _ Ho).
  - cbn. rewrite (rep_root _ _ _ _ Hr). by apply ptr_plug_same.
  - eexists. by apply root_plug.
  - cbn. apply Hr.
Qed.

Lemma put_count p n T : put p n T = (put p n T) <| count := count T |>.
Proof. by destruct T. Qed.

(** The tokens around a key in its leaf. *)
Lemma around key l1 l2 ctx :
  Forall (before_key key) (ctx_left ctx) -> Forall (after_key key) (ctx_right ctx) ->
  Forall (fun kv => key_lt kv.1 key) l1 -> Forall (fun kv => key_lt key kv.1) l2 ->
  Forall (before_key key) (ctx_left ctx ++ (entry <$> l1)) /\ Forall (after_key key) ((entry <$> l2) ++ ctx_right ctx).
Proof. intros. split; apply Forall_app; split; auto using entry_before, entry_after. Qed.

Lemma set_entry_around key value old l1 l2 ctx :
  Forall (before_key key) (ctx_left ctx) -> Forall (after_key key) (ctx_right ctx) ->
  Forall (fun kv => key_lt kv.1 key) l1 -> Forall (fun kv => key_lt key kv.1) l2 ->
  (old = [] \/ exists v, old = [(key, v)]) ->
  set_entry key value (entries (ctx_left ctx ++ (entry <$> (l1 ++ old ++ l2)) ++ ctx_right ctx))
    (entries (ctx_left ctx ++ (entry <$> (l1 ++ (key, value) :: l2)) ++ ctx_right ctx)).
Proof.
  intros Hb Ha H1 H2 Hold. rewrite !entries_app, !entries_entry.
  exists (entries (ctx_left ctx) ++ l1), (l2 ++ entries (ctx_right ctx)). split_and!.
  - apply Forall_app. split; [by apply entries_before|done].
  - apply Forall_app. split; [done|by apply entries_after].
  - destruct Hold as [->|[v ->]]; [left|right; exists v]; cbn [app]; by rewrite <- !app_assoc.
  - by rewrite <- !app_assoc.
Qed.

Lemma Insert_replaces T ctx p key v value l1 l2 :
  represents mn mx T (plug ctx (Leaf p (l1 ++ (key, v) :: l2))) -> place_ok mn mx 0 ctx (Leaf p (l1 ++ (key, v) :: l2)) ->
  Forall (before_key key) (ctx_left ctx) -> Forall (after_key key) (ctx_right ctx) ->
  Forall (fun kv => key_lt kv.1 key) l1 -> Forall (fun kv => key_lt key kv.1) l2 ->
  exists T', modify p (fun n => n <| values := <[length l1 := value]> (values n) |>) T = Some T' /\
    represents mn mx T' (plug ctx (Leaf p (l1 ++ (key, value) :: l2))).
Proof.
  intros Hr Hp Hb Ha H1 H2. pose proof (owns_at _ _ _ _ _ Hr) as Ho. rewrite cells_Leaf in Ho. cbn [app] in Ho.
  rewrite (modify_owns _ _ _ _ _ Ho), put_count. eexists. split; [done|].
  assert (place_ok mn mx 0 ctx (Leaf p (l1 ++ (key, value) :: l2))) as Hp'.
  { destruct Hp as [? Hp]. split; [done|]. destruct ctx; cbn [root_ok sub] in *; rewrite length_app in *; done. }
  assert (StronglySorted token_lt (tokens (plug ctx (Leaf p (l1 ++ (key, value) :: l2))))) as Hs.
  { pose proof (rep_sorted _ _ _ _ Hr) as Hs. erewrite tokens_at in Hs |- * by done. cbn [tokens] in *.
    rewrite !fmap_app, !fmap_cons, <- !app_assoc, <- !app_comm_cons in *. rewrite (app_assoc (ctx_left ctx)) in *.
    destruct (around key l1 l2 ctx Hb Ha H1 H2) as [Hb' Ha']. apply sorted_set; [|done|done].
    apply (StronglySorted_drop_middle _ _ [entry (key, v)]). exact Hs. }
  apply (represents_leaf _ _ _ _ _ _ _ Hr Hp'); [|done|].
  - unfold leaf_node. cbn. rewrite !fmap_app, !fmap_cons. f_equal.
    rewrite <- (length_fmap snd l1), insert_app_r_alt by lia. by rewrite Nat.sub_diag.
  - rewrite (rep_count _ _ _ _ Hr). erewrite !tokens_at by done. cbn [tokens]. rewrite !entries_app, !entries_entry, !length_app. done.
Qed.

Lemma Insert_adds T ctx p key value l1 l2 :
  represents mn mx T (plug ctx (Leaf p (l1 ++ l2))) -> place_ok mn mx 0 ctx (Leaf p (l1 ++ l2)) ->
  Forall (before_key key) (ctx_left ctx) -> Forall (after_key key) (ctx_right ctx) ->
  Forall (fun kv => key_lt kv.1 key) l1 -> Forall (fun kv => key_lt key kv.1) l2 ->
  let n' := leaf_node (lk_of (leaves (plug ctx (Leaf p (l1 ++ l2))))) p (par_of ctx) (l1 ++ (key, value) :: l2) in
  let T1 := (put p n' T) <| count := (count T + 1)%Z |> in
  exists T' t', (if (maxKeys T1 <? len (keys n'))%Z then splitLeaf p T1 else Some T1) = Some T' /\ represents mn mx T' t' /\
    entries (tokens t') = entries (ctx_left ctx ++ (entry <$> (l1 ++ (key, value) :: l2)) ++ ctx_right ctx).
Proof.
  intros Hr Hp Hb Ha H1 H2 n' T1. pose proof (owns_at _ _ _ _ _ Hr) as Ho. rewrite cells_Leaf in Ho. cbn [app] in Ho.
  set (kvs := l1 ++ (key, value) :: l2). destruct (around key l1 l2 ctx Hb Ha H1 H2) as [Hb' Ha'].
  assert (StronglySorted token_lt (ctx_left ctx ++ (entry <$> kvs) ++ ctx_right ctx)) as Hs.
  { pose proof (rep_sorted _ _ _ _ Hr) as Hs. erewrite tokens_at in Hs by done. cbn [tokens] in Hs. unfold kvs.
    rewrite fmap_app, ?fmap_cons, <- !app_assoc, <- ?app_comm_cons in *. rewrite (app_assoc (ctx_left ctx)) in *. by apply sorted_set. }
  assert (length (entries (ctx_left ctx ++ (entry <$> kvs) ++ ctx_right ctx)) = S (length (entries (tokens (plug ctx (Leaf p (l1 ++ l2))))))) as Hcnt.
  { erewrite tokens_at by done. cbn [tokens]. rewrite !entries_app, !entries_entry. unfold kvs. rewrite !length_app. simpl. lia. }
  pose proof Hp as [Hc Hsz].
  change (maxKeys T1) with (maxKeys T). rewrite (rep_max _ _ _ _ Hr). unfold len.
  change (keys n') with (kvs.*1). rewrite length_fmap.
  assert (length kvs = S (length (l1 ++ l2))) as Hlen by (unfold kvs; rewrite !length_app; simpl; lia).
  assert (length (l1 ++ l2) <= mx) as Hle by (destruct ctx; cbn in Hsz; lia).
  destruct (Z.ltb_spec (Z.of_nat mx) (Z.of_nat (length kvs))).
  - set (lvs := left_leaves ctx ++ p :: right_leaves ctx).
    assert (leaves (plug ctx (Leaf p (l1 ++ l2))) = lvs) as Hlv by (by rewrite leaves_plug).
    destruct (splitLeaf_spec mn mx Hmx Hmn ctx p kvs T1) as (T' & toks & lvs' & HT' & Hbd & Hst & Hen).
    + fold lvs. rewrite <- Hlv, cells_Leaf. exact (owns_put _ _ _ n' _ Ho).
    + fold lvs. rewrite <- Hlv. eapply (owns_leaves _ _ None (plug ctx (Leaf p (l1 ++ l2))) []). rewrite app_nil_r. apply Hr.
    + apply Hr.
    + done.
    + lia.
    + change (root T1) with (root T). rewrite (rep_root _ _ _ _ Hr). by apply ptr_plug_same.
    + done.
    + destruct Hbd as (HM' & HC' & n & t' & ? & ? & Hrt & Htk & Hlf). exists T', t'. split; [done|]. rewrite Htk. split; [|done].
      split; [by rewrite Hlf|done|by eexists|by rewrite Htk|rewrite HM'; apply Hr|].
      rewrite HC', Htk, Hen, Hcnt. cbn. rewrite (rep_count _ _ _ _ Hr). lia.
  - assert (place_ok mn mx 0 ctx (Leaf p kvs)) as Hp'.
    { split; [done|]. destruct ctx; cbn in Hsz |- *; lia. }
    eexists _, _. split; [done|]. split; [|by erewrite tokens_at by done].
    apply (represents_leaf _ _ _ _ _ _ _ Hr Hp'); [done|by erewrite tokens_at by done|].
    erewrite tokens_at by done. cbn [tokens]. rewrite Hcnt, (rep_count _ _ _ _ Hr). lia.
Qed.

Lemma leaf_insert lk p par l1 l2 key value :
  let n := leaf_node lk p par (l1 ++ l2) in
  leaf_node lk p par (l1 ++ (key, value) :: l2) =
  n <| keys := insert_at (length l1) key (keys n) |> <| values := insert_at (length l1) value (values n) |>.
Proof.
  assert (insert_at (length l1) key (l1 ++ l2).*1 = (l1 ++ (key, value) :: l2).*1) as E1.
  { rewrite !fmap_app, fmap_cons, <- (length_fmap fst l1). apply insert_at_app. }
  assert (insert_at (length l1) value (l1 ++ l2).*2 = (l1 ++ (key, value) :: l2).*2) as E2.
  { rewrite !fmap_app, fmap_cons, <- (length_fmap snd l1). apply insert_at_app. }
  unfold leaf_node. rewrite <- E1, <- E2. done.
Qed.

Lemma Insert_spec T t key value : represents mn mx T t ->
  exists T' t', Insert key value T = Some T' /\ represents mn mx T' t' /\
    set_entry key value (entries (tokens t)) (entries (tokens t')).
Proof.
  intros Hr. destruct (findLeaf_spec mn mx T t key Hr) as (ctx & p & kvs & Hf & -> & Hp & Hb & Ha).
  unfold Insert. rewrite Hf. cbn [mbind option_bind]. pose proof (owns_at _ _ _ _ _ Hr) as Ho. rewrite cells_Leaf in Ho. cbn [app] in Ho.
  rewrite (owns_lookup _ _ _ _ Ho). cbn [mbind option_bind leaf_node keys].
  destruct (leaf_position key kvs) as (l1 & l2 & -> & -> & H1 & H2).
  { eapply leaf_sorted. pose proof (rep_sorted _ _ _ _ Hr) as Hs. erewrite tokens_at in Hs by done. exact Hs. }
  erewrite (tokens_at _ _ _ (Leaf p (l1 ++ l2))) by done. cbn [tokens].
  assert ((l1 ++ l2).*1 !! length l1 = fst <$> head l2) as ->.
  { rewrite fmap_app, lookup_app_r by (rewrite length_fmap; lia). rewrite length_fmap, Nat.sub_diag. by destruct l2. }
  assert (fst <$> head l2 <> Some key -> Forall (fun kv => key_lt key kv.1) l2) as Hafter.
  { destruct l2 as [|[k v] l2]; [done|]. cbn. intros Hne. destruct H2 as [[->|Hk] H2]; [done|]. constructor; [done|].
    eapply Forall_impl; [exact H2|]. intros kv. by apply key_lt_trans. }
  destruct (bool_decide_reflect (fst <$> head l2 = Some key)) as [Hk|Hk].
  - destruct l2 as [|[k v] l2]; [done|]. cbn in Hk. injection Hk as ->. destruct H2 as [_ H2].
    destruct (Insert_replaces T ctx p key v value l1 l2) as (T' & -> & Hr'); try done. eexists _, _. split; [done|]. split; [exact Hr'|].
    erewrite tokens_at by (destruct Hp as [? Hp]; split; [done|]; destruct ctx; cbn [root_ok sub] in *; rewrite length_app in *; exact Hp).
    apply (set_entry_around key value [(key, v)]); eauto.
  - specialize (Hafter Hk). destruct (Insert_adds T ctx p key value l1 l2 Hr Hp Hb Ha H1 Hafter) as (T' & t' & HT' & Hr' & He).
    rewrite (modify_owns _ _ _ _ _ Ho). cbn [mbind option_bind].
    set (n' := leaf_node _ p _ (l1 ++ (key, value) :: l2)) in HT'.
    replace ((leaf_node _ p _ (l1 ++ l2)) <| keys := _ |> <| values := _ |>) with n'.
    2:{ apply leaf_insert. }
    cbn [nodes put]. change (nodes ((put p n' T) <| count := _ |>)) with (<[p := n']> (nodes T)). rewrite lookup_insert_eq. cbn [mbind option_bind].
    exists T', t'. split; [exact HT'|]. split; [done|]. rewrite He. apply (set_entry_around key value []); auto.
Qed.
End insert_top.
