(* ===== verification/BPlusDelete.v ===== *)
(** Deletion from the B+ tree: borrowing and merging leave the tokens of the
    tree as they are, up to the separators of leaves. *)

From stdpp Require Import base tactics option list gmap sets strings sorting.
From Stdlib Require Import ZArith Lia.
From S2P Require Import Prelude Ordered BPlus BPlusShape BPlusInsert.

#[local] Open Scope nat_scope.

(** ** Reading and writing owned nodes *)

Lemma lookup_in T cs p n : owns T cs -> (p, n) ∈ cs -> nodes T !! p = Some n.
Proof. intros (H & _) Hp. rewrite Forall_forall in H. apply (H _ Hp). Qed.

Lemma modify_nth T cs i p n f : owns T cs -> cs !! i = Some (p, n) ->
  exists T', modify p f T = Some T' /\ owns T' (<[i := (p, f n)]> cs) /\ same_scalars T T'.
Proof.
  intros Ho Hi. rewrite insert_take_drop by (by eapply lookup_lt_Some). rewrite <- (take_drop_middle _ _ _ Hi) in Ho.
  rewrite <- Permutation_middle in Ho. rewrite (modify_owns _ _ _ _ _ Ho). eexists. split; [done|].
  split; [|done]. rewrite <- Permutation_middle. by eapply owns_put.
Qed.

Lemma set_key_nth T cs i p n j k : owns T cs -> cs !! i = Some (p, n) -> j < length (keys n) ->
  exists T', set_key p j k T = Some T' /\ owns T' (<[i := (p, n <| keys := <[j := k]> (keys n) |>)]> cs) /\ same_scalars T T'.
Proof.
  intros Ho Hi Hj. unfold set_key. rewrite (lookup_in _ _ p n Ho) by (by eapply list_elem_of_lookup_2). cbn [mbind option_bind].
  destruct (Nat.ltb_spec j (length (keys n))); [|lia]. by apply (modify_nth T cs i p n (fun n => n <| keys := <[j := k]> (keys n) |>)).
Qed.

(** Read the node at a place of the list of owned nodes, or write it. *)
Ltac read i :=
  match goal with Ho : owns ?T ?cs |- context [nodes ?T !! ?p] =>
    erewrite (lookup_in T cs p _ Ho) by (apply (list_elem_of_lookup_2 _ i); reflexivity)
  end; cbn [mbind option_bind inner_node leaf_node parent keys children values next prev isLeaf].

Ltac write i :=
  match goal with Ho : owns ?T ?cs |- context [modify ?p ?f ?T] =>
    let T' := fresh "T" in let Hs := fresh "Hs" in
    destruct (modify_nth T cs i p _ f Ho eq_refl) as (T' & -> & Ho' & Hs); clear Ho; rename Ho' into Ho;
    cbn [insert list_insert] in Ho; cbn [mbind option_bind]
  end.

Lemma same_scalars_trans T1 T2 T3 : same_scalars T1 T2 -> same_scalars T2 T3 -> same_scalars T1 T3.
Proof. intros (? & ? & ? & ?) (? & ? & ? & ?). unfold same_scalars. split_and!; congruence. Qed.

Lemma delete_at_app {A} (l1 : list A) x l2 : delete_at (length l1) (l1 ++ x :: l2) = l1 ++ l2.
Proof. unfold delete_at. rewrite take_app_length. f_equal. rewrite (cons_middle x), app_assoc. apply drop_app_length'. rewrite length_app. simpl. lia. Qed.

Lemma insert_mid {A} (l1 : list A) x y l2 : <[length l1 := y]> (l1 ++ x :: l2) = l1 ++ y :: l2.
Proof. rewrite insert_app_r_alt by lia. by rewrite Nat.sub_diag. Qed.

Lemma lookup_mid {A} (l1 : list A) x l2 : (l1 ++ x :: l2) !! length l1 = Some x.
Proof. by apply list_lookup_middle. Qed.

(** ** Tokens of nodes that are joined or give up a child *)

Lemma inter_join ks1 tss1 k ks2 tss2 : length tss1 = S (length ks1) ->
  inter (ks1 ++ k :: ks2) (tss1 ++ tss2) = inter ks1 tss1 ++ Sep k :: inter ks2 tss2.
Proof.
  revert tss1. induction ks1 as [|k' ks1 IH]; intros [|l tss1] Hl; try done; simpl in Hl.
  - destruct tss1; [|done]. cbn. by rewrite app_nil_r.
  - cbn [app inter]. rewrite IH by lia. by rewrite <- app_assoc.
Qed.

Lemma inter_snoc ks tss k l : length tss = S (length ks) -> inter (ks ++ [k]) (tss ++ [l]) = inter ks tss ++ Sep k :: l.
Proof. intros H. rewrite inter_join by done. cbn. by rewrite app_nil_r. Qed.

Section internal.
Context (lk : links).

(** ** The four ways to rebalance *)

Lemma borrowLeft_owns T p fp ks cs lp lks mk lcs mc kL lks0 rks C par rest :
  owns T ((p, inner_node (Some fp) ks cs) :: (lp, inner_node (Some fp) (lks ++ [mk]) (lcs ++ [ptr mc]))
    :: (fp, inner_node par (lks0 ++ kL :: rks) C) :: cells lk (Some lp) mc ++ rest) ->
  exists T', borrowFromLeftInternal p lp (S (length lks0)) T = Some T' /\ same_scalars T T' /\
    owns T' ((p, inner_node (Some fp) (kL :: ks) (ptr mc :: cs)) :: (lp, inner_node (Some fp) lks lcs)
      :: (fp, inner_node par (lks0 ++ mk :: rks) C) :: cells lk (Some p) mc ++ rest).
Proof.
  intros Ho. unfold borrowFromLeftInternal. read 0. read 2. rewrite Nat.sub_succ, Nat.sub_0_r, lookup_mid. cbn [mbind option_bind].
  read 1. rewrite !last_snoc. cbn [mbind option_bind]. write 1. write 0. unfold cells in Ho. cbn [app] in Ho. write 3.
  match goal with Ho : owns ?T _ |- _ => destruct (set_key_nth T _ 2 fp _ (length lks0) mk Ho eq_refl) as (T4 & -> & Ho4 & Hs4) end.
  { cbn. rewrite length_app. simpl. lia. }
  exists T4. split; [done|]. split; [by eauto using same_scalars_trans|]. cbn [insert list_insert] in Ho4.
  unfold cells. cbn [app].
  replace (inner_node par (lks0 ++ mk :: rks) C) with ((inner_node par (lks0 ++ kL :: rks) C) <| keys := <[length lks0 := mk]> (lks0 ++ kL :: rks) |>)
    by (rewrite insert_mid; done).
  replace (top lk (Some p) mc) with ((top lk (Some lp) mc) <| parent := Some p |>) by (by destruct mc).
  replace (inner_node (Some fp) lks lcs) with ((inner_node (Some fp) (lks ++ [mk]) (lcs ++ [ptr mc]))
    <| keys := take (length (lks ++ [mk]) - 1) (lks ++ [mk]) |> <| children := take (length (lcs ++ [ptr mc]) - 1) (lcs ++ [ptr mc]) |>).
  2:{ rewrite !length_app. simpl length. rewrite !Nat.add_sub, !take_app_length. done. }
  exact Ho4.
Qed.

Lemma borrowRight_owns T p fp ks cs rp rks mk rcs mc kR lks0 rks0 C par rest :
  owns T ((p, inner_node (Some fp) ks cs) :: (rp, inner_node (Some fp) (mk :: rks) (ptr mc :: rcs))
    :: (fp, inner_node par (lks0 ++ kR :: rks0) C) :: cells lk (Some rp) mc ++ rest) ->
  exists T', borrowFromRightInternal p rp (length lks0) T = Some T' /\ same_scalars T T' /\
    owns T' ((p, inner_node (Some fp) (ks ++ [kR]) (cs ++ [ptr mc])) :: (rp, inner_node (Some fp) rks rcs)
      :: (fp, inner_node par (lks0 ++ mk :: rks0) C) :: cells lk (Some p) mc ++ rest).
Proof.
  intros Ho. unfold borrowFromRightInternal. read 0. read 2. rewrite lookup_mid. cbn [mbind option_bind].
  read 1. cbn [lookup list_lookup mbind option_bind]. write 1. write 0. unfold cells in Ho. cbn [app] in Ho. write 3.
  match goal with Ho : owns ?T _ |- _ => destruct (set_key_nth T _ 2 fp _ (length lks0) mk Ho eq_refl) as (T4 & -> & Ho4 & Hs4) end.
  { cbn. rewrite length_app. simpl. lia. }
  exists T4. split; [done|]. split; [by eauto using same_scalars_trans|]. cbn [insert list_insert] in Ho4.
  unfold cells. cbn [app].
  replace (inner_node par (lks0 ++ mk :: rks0) C) with ((inner_node par (lks0 ++ kR :: rks0) C) <| keys := <[length lks0 := mk]> (lks0 ++ kR :: rks0) |>)
    by (rewrite insert_mid; done).
  replace (top lk (Some p) mc) with ((top lk (Some rp) mc) <| parent := Some p |>) by (by destruct mc).
  exact Ho4.
Qed.

Lemma mergeLeft_owns T p fp ks ts lp lks lcs kL lks0 rks0 C par rest :
  owns T ((p, inner_node (Some fp) ks (ptr <$> ts)) :: (lp, inner_node (Some fp) lks lcs)
    :: (fp, inner_node par (lks0 ++ kL :: rks0) C) :: forest lk p ts ++ rest) ->
  exists T', mergeWithLeftInternal p lp (S (length lks0)) T = Some ((fp, length lks0, S (length lks0)), T') /\ same_scalars T T' /\
    owns T' ((lp, inner_node (Some fp) (lks ++ kL :: ks) (lcs ++ (ptr <$> ts)))
      :: (fp, inner_node par (lks0 ++ kL :: rks0) C) :: forest lk lp ts ++ rest).
Proof.
  intros Ho. unfold mergeWithLeftInternal. read 0. read 2. rewrite Nat.sub_succ, Nat.sub_0_r, lookup_mid. cbn [mbind option_bind].
  write 1. match goal with Ho : owns ?T (?x :: ?y :: ?z :: _) |- _ =>
    destruct (set_parents_owns lk p lp ts T (x :: y :: z :: rest)) as (T2 & HT2 & Ho2 & Hs2) end.
  { eapply owns_perm; [|exact Ho]. solve_Permutation. }
  rewrite HT2. cbn [mbind option_bind]. exists T2. split; [done|]. split; [by eauto using same_scalars_trans|].
  apply (owns_app_r _ [(p, inner_node (Some fp) ks (ptr <$> ts))]). eapply owns_perm; [|exact Ho2]. cbn. solve_Permutation.
Qed.

Lemma mergeRight_owns T p fp ks cs rp rks ts kR lks0 rks0 C par rest :
  owns T ((p, inner_node (Some fp) ks cs) :: (rp, inner_node (Some fp) rks (ptr <$> ts))
    :: (fp, inner_node par (lks0 ++ kR :: rks0) C) :: forest lk rp ts ++ rest) ->
  exists T', mergeWithRightInternal p rp (length lks0) T = Some ((fp, length lks0, length lks0 + 1), T') /\ same_scalars T T' /\
    owns T' ((p, inner_node (Some fp) (ks ++ kR :: rks) (cs ++ (ptr <$> ts)))
      :: (fp, inner_node par (lks0 ++ kR :: rks0) C) :: forest lk p ts ++ rest).
Proof.
  intros Ho. unfold mergeWithRightInternal. read 0. read 2. rewrite lookup_mid. cbn [mbind option_bind]. read 1.
  write 0. match goal with Ho : owns ?T (?x :: ?y :: ?z :: _) |- _ =>
    destruct (set_parents_owns lk rp p ts T (x :: y :: z :: rest)) as (T2 & HT2 & Ho2 & Hs2) end.
  { eapply owns_perm; [|exact Ho]. solve_Permutation. }
  rewrite HT2. cbn [mbind option_bind]. exists T2. split; [done|]. split; [by eauto using same_scalars_trans|].
  apply (owns_app_r _ [(rp, inner_node (Some fp) rks (ptr <$> ts))]). eapply owns_perm; [|exact Ho2]. cbn. solve_Permutation.
Qed.
End internal.

(** ** A node that is one key short *)

Lemma forest_nil lk p : forest lk p [] = [].
Proof. done. Qed.

(** Two lists of nodes that differ in their order only. *)
Ltac perm_cells :=
  cbn [ctx_cells f_ptr f_lk f_lc f_rk f_rc];
  repeat first [rewrite cells_Node | rewrite cells_Leaf | rewrite forest_app | rewrite forest_cons | rewrite forest_nil];
  repeat first [rewrite fmap_app | rewrite fmap_cons | rewrite fmap_nil];
  rewrite <- ?app_assoc; cbn [app ptr par_of]; solve_Permutation.

Lemma tokens_Node p ks ts : tokens (Node p ks ts) = inter ks (tokens <$> ts).
Proof. done. Qed.

Lemma leaves_Node p ks ts : leaves (Node p ks ts) = concat (leaves <$> ts).
Proof. done. Qed.

Lemma concat_snoc {A} (l : list (list A)) x : concat (l ++ [x]) = concat l ++ x.
Proof. rewrite concat_app. cbn. by rewrite app_nil_r. Qed.

Lemma leaves_fill f x : leaves (fill f x) = concat (leaves <$> f_lc f) ++ leaves x ++ concat (leaves <$> f_rc f).
Proof. unfold fill. rewrite leaves_Node, fmap_app, fmap_cons, concat_app. done. Qed.

(** Two trees with the same leaves. *)
Ltac flat_leaves :=
  rewrite ?leaves_fill; cbn [f_lc f_rc];
  repeat first [rewrite leaves_Node | rewrite fmap_app | rewrite fmap_cons | rewrite fmap_nil
               | rewrite concat_app | rewrite concat_cons | rewrite concat_nil];
  rewrite <- ?app_assoc, ?app_nil_r; cbn [app]; reflexivity.

Lemma snoc_cases {A B} (l : list A) (k : list B) : length l = length k ->
  (l = [] /\ k = []) \/ exists l' x k' y, l = l' ++ [x] /\ k = k' ++ [y] /\ length l' = length k'.
Proof.
  destruct l as [|x l] using rev_ind; destruct k as [|y k] using rev_ind; rewrite ?length_app; simpl; try lia; [by left|].
  intros. right. exists l, x, k, y. split_and!; [done..|lia].
Qed.

Lemma sub_root mn mx n t : 1 <= mn -> sub mn mx n t -> root_ok mn mx n t.
Proof. intros Hmn. destruct n, t; cbn; try done; [lia|]. intros (? & ? & ?). split_and!; try done; lia. Qed.

Section rebalance.
Context (mn mx : nat) (lk : links).
Hypothesis Hmx : mx = 2 * mn.
Hypothesis Hmn : 1 <= mn.

(** The node got a key from a sibling. *)
Definition settled (T T' : BPlusTree) (n : nat) (f : frame) (ctx : list frame) (x : tree) : Prop :=
  exists f' x', same_scalars T T' /\ f_ptr f' = f_ptr f /\
    owns T' (cells lk (Some (f_ptr f)) x' ++ ctx_cells lk (f' :: ctx) (ptr x')) /\ place_ok mn mx n (f' :: ctx) x' /\
    tokens (fill f' x') = tokens (fill f x) /\ leaves (fill f' x') = leaves (fill f x).

(** The node was merged with a sibling, and its parent must give up a key and
    a child. *)
Definition merged (T T' : BPlusTree) (n : nat) (f : frame) (ctx : list frame) (x : tree) (r : removal) : Prop :=
  exists K C ks ts, same_scalars T T' /\ r.1.1 = f_ptr f /\
    owns T' ((f_ptr f, inner_node (par_of ctx) K C) :: forest lk (f_ptr f) ts ++ ctx_cells lk ctx (f_ptr f)) /\
    delete_at r.1.2 K = ks /\ delete_at r.2 C = ptr <$> ts /\ length ts = S (length ks) /\ Forall (sub mn mx n) ts /\
    S (length ks) = length (f_lk f) + length (f_rk f) /\
    tokens (Node (f_ptr f) ks ts) = tokens (fill f x) /\ leaves (Node (f_ptr f) ks ts) = leaves (fill f x).

(** A parent that has [L] and [x] side by side. *)
Lemma tokens_pair fp lks kL rks lc L x rc : length lks = length lc -> length rks = length rc ->
  tokens (fill {| f_ptr := fp; f_lk := lks ++ [kL]; f_lc := lc ++ [L]; f_rk := rks; f_rc := rc |} x) =
  concat (zip_with (fun t k => tokens t ++ [Sep k]) lc lks) ++ (tokens L ++ Sep kL :: tokens x) ++ concat (zip_with (fun t k => Sep k :: tokens t) rc rks).
Proof.
  intros Hl Hr. rewrite tokens_fill by (cbn; rewrite ?length_app; simpl; lia). unfold left_tokens, right_tokens. cbn [f_lk f_lc f_rk f_rc].
  rewrite zip_with_app by done. cbn [zip_with]. rewrite concat_snoc. by rewrite <- !app_assoc.
Qed.

Lemma tokens_pair_right fp lks kR rks lc R x rc : length lks = length lc -> length rks = length rc ->
  tokens (fill {| f_ptr := fp; f_lk := lks; f_lc := lc; f_rk := kR :: rks; f_rc := R :: rc |} x) =
  concat (zip_with (fun t k => tokens t ++ [Sep k]) lc lks) ++ (tokens x ++ Sep kR :: tokens R) ++ concat (zip_with (fun t k => Sep k :: tokens t) rc rks).
Proof.
  intros Hl Hr. rewrite tokens_fill by (cbn; lia). unfold left_tokens, right_tokens. cbn. by rewrite <- !app_assoc.
Qed.

Lemma borrow_left_case n fp lks kL rks lc lp lks1 mk lts mc rc ctx p ks ts T :
  let f := {| f_ptr := fp; f_lk := lks ++ [kL]; f_lc := lc ++ [Node lp (lks1 ++ [mk]) (lts ++ [mc])]; f_rk := rks; f_rc := rc |} in
  owns T (cells lk (Some fp) (Node p ks ts) ++ ctx_cells lk (f :: ctx) p) -> ctx_ok mn mx (S n) (f :: ctx) ->
  length ts = S (length ks) -> Forall (sub mn mx n) ts -> S (length ks) = mn -> mn <= length lks1 ->
  exists T', borrowFromLeftInternal p lp (S (length lks)) T = Some T' /\ settled T T' (S n) f ctx (Node p ks ts).
Proof.
  intros f Ho (Hl & Hr & Hsl & Hsr & Hsz & Hc) Hts Hsub Hks Hlend. cbn [f f_lk f_lc f_rk f_rc] in *.
  rewrite !length_app in Hl. simpl length in Hl. apply Forall_app in Hsl as [Hsl HL]. rewrite Forall_singleton in HL.
  destruct HL as (HL1 & HL2 & HL3). rewrite !length_app in HL1. rewrite !length_app in HL2. simpl length in HL1, HL2.
  apply Forall_app in HL3 as [HL3 Hmc]. rewrite Forall_singleton in Hmc.
  set (C := (ptr <$> lc) ++ lp :: p :: (ptr <$> rc)). set (rest := forest lk lp lts ++ forest lk p ts ++ forest lk fp (lc ++ rc) ++ ctx_cells lk ctx fp).
  destruct (borrowLeft_owns lk T p fp ks (ptr <$> ts) lp lks1 mk (ptr <$> lts) mc kL lks rks C (par_of ctx) rest) as (T' & HT' & Hs & Ho').
  { eapply owns_perm; [|exact Ho]. unfold f, rest, C. perm_cells. }
  exists T'. split; [done|]. set (f' := {| f_ptr := fp; f_lk := lks ++ [mk]; f_lc := lc ++ [Node lp lks1 lts]; f_rk := rks; f_rc := rc |}).
  exists f', (Node p (kL :: ks) (mc :: ts)). split; [done|]. split; [done|]. split; [|split; [|split]].
  - eapply owns_perm; [|exact Ho']. unfold f', rest, C. cbn [f f_ptr]. perm_cells.
  - split; [|cbn [sub]; split_and!; [simpl; lia..|simpl; lia|by constructor]].
    cbn [ctx_ok f' f_lk f_lc f_rk f_rc]. rewrite !length_app in *. simpl length in *. split_and!; try done; try lia.
    apply Forall_app. split; [done|]. constructor; [|done]. cbn [sub]. split_and!; [lia..|done].
  - unfold f, f'. rewrite !tokens_pair by lia. f_equal. f_equal. rewrite !tokens_Node, fmap_app, !fmap_cons, fmap_nil. rewrite inter_snoc by (rewrite length_fmap; lia).
    cbn [inter]. by rewrite <- !app_assoc.
  - unfold f, f'. flat_leaves.
Qed.

Lemma borrow_right_case n fp lks kR rks lc rp rks1 mk rts mc rc ctx p ks ts T :
  let f := {| f_ptr := fp; f_lk := lks; f_lc := lc; f_rk := kR :: rks; f_rc := Node rp (mk :: rks1) (mc :: rts) :: rc |} in
  owns T (cells lk (Some fp) (Node p ks ts) ++ ctx_cells lk (f :: ctx) p) -> ctx_ok mn mx (S n) (f :: ctx) ->
  length ts = S (length ks) -> Forall (sub mn mx n) ts -> S (length ks) = mn -> mn <= length rks1 ->
  exists T', borrowFromRightInternal p rp (length lks) T = Some T' /\ settled T T' (S n) f ctx (Node p ks ts).
Proof.
  intros f Ho (Hl & Hr & Hsl & Hsr & Hsz & Hc) Hts Hsub Hks Hlend. cbn [f f_lk f_lc f_rk f_rc] in *.
  simpl length in Hr. apply Forall_cons in Hsr as [(HR1 & HR2 & HR3) Hsr]. simpl length in HR1, HR2. apply Forall_cons in HR3 as [Hmc HR3].
  set (C := (ptr <$> lc) ++ p :: rp :: (ptr <$> rc)). set (rest := forest lk rp rts ++ forest lk p ts ++ forest lk fp (lc ++ rc) ++ ctx_cells lk ctx fp).
  destruct (borrowRight_owns lk T p fp ks (ptr <$> ts) rp rks1 mk (ptr <$> rts) mc kR lks rks C (par_of ctx) rest) as (T' & HT' & Hs & Ho').
  { eapply owns_perm; [|exact Ho]. unfold f, rest, C. perm_cells. }
  exists T'. split; [done|]. set (f' := {| f_ptr := fp; f_lk := lks; f_lc := lc; f_rk := mk :: rks; f_rc := Node rp rks1 rts :: rc |}).
  exists f', (Node p (ks ++ [kR]) (ts ++ [mc])). split; [done|]. split; [done|]. split; [|split; [|split]].
  - eapply owns_perm; [|exact Ho']. unfold f', rest, C. cbn [f f_ptr]. perm_cells.
  - split; [|cbn [sub]; rewrite !length_app; simpl length; split_and!; [lia..|apply Forall_app; by repeat constructor]].
    cbn [ctx_ok f' f_lk f_lc f_rk f_rc]. simpl length in *. split_and!; try done; try lia.
    constructor; [|done]. cbn [sub]. split_and!; [lia..|done].
  - unfold f, f'. rewrite !tokens_pair_right by lia. f_equal. f_equal. rewrite !tokens_Node, fmap_app, !fmap_cons, fmap_nil.
    rewrite inter_snoc by (rewrite length_fmap; lia). cbn [inter]. by rewrite <- !app_assoc.
  - unfold f, f'. flat_leaves.
Qed.

Lemma merge_left_case n fp lks kL rks lc lp lks1 lts rc ctx p ks ts T :
  let f := {| f_ptr := fp; f_lk := lks ++ [kL]; f_lc := lc ++ [Node lp lks1 lts]; f_rk := rks; f_rc := rc |} in
  owns T (cells lk (Some fp) (Node p ks ts) ++ ctx_cells lk (f :: ctx) p) -> ctx_ok mn mx (S n) (f :: ctx) ->
  length ts = S (length ks) -> Forall (sub mn mx n) ts -> S (length ks) = mn -> length lks1 <= mn ->
  exists r T', mergeWithLeftInternal p lp (S (length lks)) T = Some (r, T') /\ merged T T' (S n) f ctx (Node p ks ts) r.
Proof.
  intros f Ho (Hl & Hr & Hsl & Hsr & Hsz & Hc) Hts Hsub Hks Hlend. cbn [f f_lk f_lc f_rk f_rc] in *.
  rewrite !length_app in Hl. simpl length in Hl. apply Forall_app in Hsl as [Hsl HL]. rewrite Forall_singleton in HL.
  destruct HL as (HL1 & HL2 & HL3).
  set (C := (ptr <$> lc) ++ lp :: p :: (ptr <$> rc)). set (rest := forest lk lp lts ++ forest lk fp (lc ++ rc) ++ ctx_cells lk ctx fp).
  destruct (mergeLeft_owns lk T p fp ks ts lp lks1 (ptr <$> lts) kL lks rks C (par_of ctx) rest) as (T' & HT' & Hs & Ho').
  { eapply owns_perm; [|exact Ho]. unfold f, rest, C. perm_cells. }
  eexists _, T'. split; [done|]. exists (lks ++ kL :: rks), C, (lks ++ rks), (lc ++ Node lp (lks1 ++ kL :: ks) (lts ++ ts) :: rc).
  cbn [fst snd f f_ptr f_lk f_rk]. split; [done|]. split; [done|]. split_and!.
  - eapply owns_perm; [|exact Ho']. unfold rest. perm_cells.
  - by rewrite delete_at_app.
  - unfold C. replace (S (length lks)) with (length ((ptr <$> lc) ++ [lp])) by (rewrite length_app, length_fmap; simpl; lia).
    rewrite (app_assoc _ [lp] (p :: _) : _ ++ lp :: p :: _ = _), delete_at_app, fmap_app, fmap_cons. by rewrite <- app_assoc.
  - rewrite !length_app. simpl. lia.
  - apply Forall_app. split; [done|]. constructor; [|done]. cbn [sub]. rewrite !length_app. simpl length.
    split_and!; [lia..|by apply Forall_app].
  - rewrite !length_app. simpl. lia.
  - unfold f. rewrite tokens_pair by lia. change (Node fp (lks ++ rks) _) with
      (fill {| f_ptr := fp; f_lk := lks; f_lc := lc; f_rk := rks; f_rc := rc |} (Node lp (lks1 ++ kL :: ks) (lts ++ ts))).
    rewrite tokens_fill by (cbn; lia). unfold left_tokens, right_tokens. cbn [f_lc f_lk f_rc f_rk]. f_equal. f_equal.
    rewrite !tokens_Node, fmap_app. apply inter_join. rewrite length_fmap. lia.
  - unfold f. flat_leaves.
Qed.

Lemma merge_right_case n fp lks kR rks lc rp rks1 rts rc ctx p ks ts T :
  let f := {| f_ptr := fp; f_lk := lks; f_lc := lc; f_rk := kR :: rks; f_rc := Node rp rks1 rts :: rc |} in
  owns T (cells lk (Some fp) (Node p ks ts) ++ ctx_cells lk (f :: ctx) p) -> ctx_ok mn mx (S n) (f :: ctx) ->
  length ts = S (length ks) -> Forall (sub mn mx n) ts -> S (length ks) = mn -> length rks1 <= mn ->
  exists r T', mergeWithRightInternal p rp (length lks) T = Some (r, T') /\ merged T T' (S n) f ctx (Node p ks ts) r.
Proof.
  intros f Ho (Hl & Hr & Hsl & Hsr & Hsz & Hc) Hts Hsub Hks Hlend. cbn [f f_lk f_lc f_rk f_rc] in *.
  simpl length in Hr. apply Forall_cons in Hsr as [(HR1 & HR2 & HR3) Hsr].
  set (C := (ptr <$> lc) ++ p :: rp :: (ptr <$> rc)). set (rest := forest lk p ts ++ forest lk fp (lc ++ rc) ++ ctx_cells lk ctx fp).
  destruct (mergeRight_owns lk T p fp ks (ptr <$> ts) rp rks1 rts kR lks rks C (par_of ctx) rest) as (T' & HT' & Hs & Ho').
  { eapply owns_perm; [|exact Ho]. unfold f, rest, C. perm_cells. }
  eexists _, T'. split; [done|]. exists (lks ++ kR :: rks), C, (lks ++ rks), (lc ++ Node p (ks ++ kR :: rks1) (ts ++ rts) :: rc).
  cbn [fst snd f f_ptr f_lk f_rk]. split; [done|]. split; [done|]. split_and!.
  - eapply owns_perm; [|exact Ho']. unfold rest. perm_cells.
  - by rewrite delete_at_app.
  - unfold C. replace (length lks + 1) with (length ((ptr <$> lc) ++ [p])) by (rewrite length_app, length_fmap; simpl; lia).
    rewrite (app_assoc _ [p] (rp :: _) : _ ++ p :: rp :: _ = _), delete_at_app, fmap_app, fmap_cons. by rewrite <- app_assoc.
  - rewrite !length_app. simpl. lia.
  - apply Forall_app. split; [done|]. constructor; [|done]. cbn [sub]. rewrite !length_app. simpl length.
    split_and!; [lia..|by apply Forall_app].
  - rewrite !length_app. simpl. lia.
  - unfold f. rewrite tokens_pair_right by lia. change (Node fp (lks ++ rks) _) with
      (fill {| f_ptr := fp; f_lk := lks; f_lc := lc; f_rk := rks; f_rc := rc |} (Node p (ks ++ kR :: rks1) (ts ++ rts))).
    rewrite tokens_fill by (cbn; lia). unfold left_tokens, right_tokens. cbn [f_lc f_lk f_rc f_rk]. f_equal. f_equal.
    rewrite !tokens_Node, fmap_app. apply inter_join. rewrite length_fmap. lia.
  - unfold f. flat_leaves.
Qed.

Lemma minKeys_mn T : maxKeys T = Z.of_nat mx -> minKeys T = Z.of_nat mn.
Proof. intros HM. unfold minKeys. rewrite HM, Hmx, Z.quot_div_nonneg by lia. symmetry. apply Z.div_unique with 1%Z; lia. Qed.

Lemma sibling_pointers T f ctx x par : owns T (cells lk par x ++ ctx_cells lk (f :: ctx) (ptr x)) -> ptr x ∉ ptr <$> f_lc f.
Proof.
  intros (_ & Hn & _) (t & Hx & Ht)%list_elem_of_fmap. rewrite fmap_app in Hn. apply NoDup_app in Hn as (_ & Hd & _).
  apply (Hd (ptr x)); [by left|]. cbn [ctx_cells]. rewrite fmap_cons, fmap_app. right. apply elem_of_app. left.
  rewrite Hx. apply list_elem_of_split in Ht as (t1 & t2 & ->). rewrite !forest_app, forest_cons, !fmap_app.
  apply elem_of_app. left. apply elem_of_app. right. left.
Qed.

Lemma findNodeIndex_spec T f ctx x : owns T (cells lk (Some (f_ptr f)) x ++ ctx_cells lk (f :: ctx) (ptr x)) ->
  findNodeIndex T (ptr x) = Some (Some (length (f_lc f))).
Proof.
  intros Ho. pose proof (sibling_pointers _ _ _ _ _ Ho) as Hni. unfold findNodeIndex.
  assert (nodes T !! ptr x = Some (top lk (Some (f_ptr f)) x)) as -> by (eapply lookup_in; [exact Ho|left]).
  cbn [mbind option_bind]. replace (parent (top lk (Some (f_ptr f)) x)) with (Some (f_ptr f)) by (by destruct x).
  erewrite (lookup_in _ _ (f_ptr f)); [|exact Ho|apply elem_of_app; right; left]. cbn [mbind option_bind inner_node children].
  do 2 f_equal. assert (list_find (fun c => c = ptr x) ((ptr <$> f_lc f) ++ ptr x :: (ptr <$> f_rc f)) = Some (length (f_lc f), ptr x)) as ->; [|done].
  apply list_find_Some. split_and!; [|done|].
  - rewrite <- (length_fmap ptr (f_lc f)). apply lookup_mid.
  - intros j y Hj Hlt ->. apply Hni. rewrite lookup_app_l in Hj by (by rewrite length_fmap). by eapply list_elem_of_lookup_2.
Qed.

Lemma can_lend_spec T cs s par ks C : maxKeys T = Z.of_nat mx -> owns T cs -> (s, inner_node par ks C) ∈ cs ->
  can_lend (Some s) T = Some (mn <? length ks).
Proof.
  intros HM Ho Hs. unfold can_lend. rewrite (lookup_in _ _ _ _ Ho Hs). cbn [mbind option_bind inner_node keys].
  rewrite minKeys_mn by done. unfold len. f_equal. destruct (Z.ltb_spec (Z.of_nat mn) (Z.of_nat (length ks))), (Nat.ltb_spec mn (length ks)); lia || done.
Qed.

Lemma sub_inner n t : sub mn mx (S n) t -> exists p ks ts, t = Node p ks ts /\ mn <= length ks <= mx /\ length ts = S (length ks) /\ Forall (sub mn mx n) ts.
Proof. destruct t as [|p ks ts]; [done|]. intros H. by exists p, ks, ts. Qed.

(** A sibling on the left or right that is a node of the frame. *)
Lemma sibling_in fp lc rc lks rks ctx hole t :
  t ∈ lc ++ rc -> (ptr t, top lk (Some fp) t) ∈ ctx_cells lk ({| f_ptr := fp; f_lk := lks; f_lc := lc; f_rk := rks; f_rc := rc |} :: ctx) hole.
Proof.
  intros (t1 & t2 & E)%list_elem_of_split. cbn [ctx_cells f_ptr f_lk f_lc f_rk f_rc]. right. rewrite E, forest_app, forest_cons.
  apply elem_of_app. left. apply elem_of_app. right. left.
Qed.

(** What [rebalanceInternal] finds on the right: nothing, a sibling with a key
    to spare, or one without. *)
Lemma right_sibling n T cs fp lc rks rc lks ctx hole :
  maxKeys T = Z.of_nat mx -> owns T (cs ++ ctx_cells lk ({| f_ptr := fp; f_lk := lks; f_lc := lc; f_rk := rks; f_rc := rc |} :: ctx) hole) ->
  Forall (sub mn mx (S n)) rc -> length rks = length rc ->
  (rc = [] /\ can_lend (ptr <$> head rc) T = Some false) \/
  (exists kR rks' rp mk rks1 mc rts rc', rks = kR :: rks' /\ rc = Node rp (mk :: rks1) (mc :: rts) :: rc' /\ mn <= length rks1 /\ can_lend (Some rp) T = Some true) \/
  (exists kR rks' rp rks1 rts rc', rks = kR :: rks' /\ rc = Node rp rks1 rts :: rc' /\ length rks1 <= mn /\ can_lend (Some rp) T = Some false).
Proof.
  intros HM Ho Hsr Hr. destruct rc as [|R rc]; [by left|right]. destruct rks as [|kR rks]; [done|]. apply Forall_cons in Hsr as [HR _].
  destruct (sub_inner _ _ HR) as (rp & rks1 & rts & -> & HR1 & HR2 & _).
  assert (can_lend (Some rp) T = Some (mn <? length rks1)) as Hlend.
  { eapply can_lend_spec; [done|exact Ho|]. apply elem_of_app. right. apply (sibling_in fp _ _ _ _ _ _ (Node rp rks1 rts)). set_solver. }
  revert Hlend. destruct (Nat.ltb_spec mn (length rks1)); intros Hlend.
  - left. destruct rks1 as [|mk rks1]; [simpl in *; lia|]. destruct rts as [|mc rts]; [done|].
    eexists _, _, _, _, _, _, _, _. split; [done|]. split; [done|]. split; [simpl in *; lia|done].
  - right. eexists _, _, _, _, _, _. split; [done|]. split; [done|]. split; [lia|done].
Qed.

Lemma rebalanceInternal_spec n f ctx p ks ts T :
  owns T (cells lk (Some (f_ptr f)) (Node p ks ts) ++ ctx_cells lk (f :: ctx) p) -> ctx_ok mn mx (S n) (f :: ctx) ->
  length ts = S (length ks) -> Forall (sub mn mx n) ts -> S (length ks) = mn -> maxKeys T = Z.of_nat mx ->
  exists T', (rebalanceInternal p T = Some (None, T') /\ settled T T' (S n) f ctx (Node p ks ts)) \/
    exists r, rebalanceInternal p T = Some (Some r, T') /\ merged T T' (S n) f ctx (Node p ks ts) r.
Proof.
  intros Ho Hok Hts Hsub Hks HM. pose proof (findNodeIndex_spec T f ctx (Node p ks ts) Ho) as Hidx.
  unfold rebalanceInternal. cbn [ptr] in Hidx. rewrite Hidx. cbn [mbind option_bind].
  erewrite (lookup_in _ _ p); [|exact Ho|left]. cbn [mbind option_bind top inner_node parent].
  erewrite (lookup_in _ _ (f_ptr f)); [|exact Ho|apply elem_of_app; right; left]. cbn [mbind option_bind inner_node children].
  pose proof Hok as (Hl & Hr & Hsl & Hsr & Hsz & _). destruct f as [fp lks lc rks rc]. cbn [f_ptr f_lk f_lc f_rk f_rc] in *.
  assert (1 <= length lks + length rks) as Hone by (destruct ctx; lia).
  assert (((ptr <$> lc) ++ p :: (ptr <$> rc)) !! S (length lc) = ptr <$> head rc) as ->.
  { rewrite lookup_app_r by (rewrite length_fmap; lia). rewrite length_fmap. replace (S (length lc) - length lc) with 1 by lia. by destruct rc. }
  pose proof (right_sibling n T _ fp lc rks rc lks ctx p HM Ho Hsr Hr) as Hright.
  destruct (snoc_cases lks lc Hl) as [[-> ->]|(lks' & kL & lc' & L & -> & -> & Hl')].
  - cbn [can_lend mbind option_bind]. destruct Hright as [[-> _]|[Hright|Hright]]; [destruct rks; [simpl in Hone; lia|done]| |].
    + destruct Hright as (kR & rks' & rp & mk & rks1 & mc & rts & rc' & -> & -> & Hlen & Hlend). cbn [head fmap option_fmap option_map ptr].
      rewrite Hlend. cbn [mbind option_bind].
      destruct (borrow_right_case n fp [] kR rks' [] rp rks1 mk rts mc rc' ctx p ks ts T) as (T' & HT' & Hst); try done.
      cbn [length] in HT' |- *. rewrite HT'. exists T'. by left.
    + destruct Hright as (kR & rks' & rp & rks1 & rts & rc' & -> & -> & Hlen & Hlend). cbn [head fmap option_fmap option_map ptr].
      rewrite Hlend. cbn [mbind option_bind].
      destruct (merge_right_case n fp [] kR rks' [] rp rks1 rts rc' ctx p ks ts T) as (r & T' & HT' & Hm); try done.
      cbn [length] in HT' |- *. rewrite HT'. exists T'. right. by exists r.
  - assert (length (lc' ++ [L]) = S (length lks')) as Hlc by (rewrite length_app; simpl; lia). rewrite Hlc.
    assert (((ptr <$> lc' ++ [L]) ++ p :: (ptr <$> rc)) !! length lks' = Some (ptr L)) as ->.
    { rewrite fmap_app, <- app_assoc. cbn [fmap list_fmap app]. rewrite Hl', <- (length_fmap ptr lc'). apply lookup_mid. }
    apply Forall_app in Hsl as [_ HL]. rewrite Forall_singleton in HL. destruct (sub_inner _ _ HL) as (lp & lks1 & lts & -> & HL1 & HL2 & _). cbn [ptr].
    assert (can_lend (Some lp) T = Some (mn <? length lks1)) as ->.
    { eapply can_lend_spec; [done|exact Ho|]. apply elem_of_app. right. apply (sibling_in fp _ _ _ _ _ _ (Node lp lks1 lts)). set_solver. }
    cbn [mbind option_bind]. destruct (Nat.ltb_spec mn (length lks1)) as [Hlt|Hge].
    + assert (exists b, can_lend (ptr <$> head rc) T = Some b) as [b ->] by (destruct Hright as [[_ ->]|[(?&?&?&?&?&?&?&?&_&->&_&?)|(?&?&?&?&?&?&_&->&_&?)]]; by eexists).
      destruct lks1 as [|mk lks1 _] using rev_ind; [simpl in *; lia|]. rewrite length_app in Hlt. simpl in Hlt.
      destruct lts as [|mc lts _] using rev_ind; [done|]. cbn [mbind option_bind].
      destruct (borrow_left_case n fp lks' kL rks lc' lp lks1 mk lts mc rc ctx p ks ts T) as (T' & -> & Hst); try done; [lia|].
      exists T'. by left.
    + destruct Hright as [[-> ->]|[(kR & rks' & rp & mk & rks1 & mc & rts & rc' & -> & -> & Hlen & Hlend)|(kR & rks' & rp & rks1 & rts & rc' & -> & -> & _ & Hlend)]];
        cbn [head fmap option_fmap option_map ptr]; rewrite ?Hlend; cbn [mbind option_bind].
      2:{ destruct (borrow_right_case n fp (lks' ++ [kL]) kR rks' (lc' ++ [Node lp lks1 lts]) rp rks1 mk rts mc rc' ctx p ks ts T) as (T' & HT' & Hst); try done.
          rewrite Hl, Hlc in HT'. rewrite HT'. exists T'. by left. }
      all: edestruct (merge_left_case n fp lks' kL) as (r & T' & HT' & Hm); [exact Ho|exact Hok|done|done|done|done|]; rewrite HT'; exists T'; right; by exists r.
Qed.

Lemma root_above T cs f ctx p x : owns T ((p, x) :: cs ++ ctx_cells lk (f :: ctx) p) -> p <> ptr (plug (f :: ctx) (Leaf p [])).
Proof.
  intros (_ & Hn & _) Hp. rewrite ptr_plug in Hp. rewrite fmap_cons in Hn. apply NoDup_cons in Hn as [Hn _]. apply Hn. rewrite fmap_app. apply elem_of_app. right.
  clear Hn. assert (forall h, exists g, last (f :: ctx) = Some g /\ f_ptr g ∈ (ctx_cells lk (f :: ctx) h).*1) as Hl.
  { clear. revert f. induction ctx as [|g ctx IH]; intros f h; [exists f; split; [done|left]|].
    destruct (IH g (f_ptr f)) as (g' & Hg & Hin). exists g'. split; [by rewrite last_cons_cons|].
    cbn [ctx_cells]. rewrite fmap_cons, fmap_app. right. apply elem_of_app. right. exact Hin. }
  destruct (Hl p) as (g & Hg & Hin). rewrite Hg in Hp. cbn in Hp. by rewrite Hp at 1.
Qed.

(** A root without keys gives way to its only child. *)
Lemma shrink_root n p ks ts T : owns T (cells lk None (Node p ks ts)) -> root T = p -> length ts = S (length ks) -> Forall (sub mn mx n) ts -> length ks <= mx ->
  exists T', match ks, ptr <$> ts with
             | [], [c] => t ← modify c (fun m => m <| parent := None |>) T; Some (t <| root := c |>)
             | _, _ => Some T
             end = Some T' /\ built mn mx lk T T' (tokens (Node p ks ts)) (leaves (Node p ks ts)).
Proof.
  intros Ho HR Hts Hsub Hle. destruct ks as [|k ks].
  - destruct ts as [|t [|]]; try done. cbn [fmap list_fmap]. rewrite Forall_singleton in Hsub.
    rewrite cells_Node in Ho. assert (owns T ((ptr t, top lk (Some p) t) :: (p, inner_node None [] [ptr t]) :: below lk t)) as Ho2
      by (eapply owns_perm; [|exact Ho]; rewrite forest_cons, forest_nil; unfold cells; rewrite !app_nil_r; solve_Permutation).
    rewrite (modify_owns _ _ _ _ _ Ho2). cbn [mbind option_bind]. eexists. split; [done|]. split; [done|]. split; [done|].
    exists n, t. split_and!; [|done|by apply sub_root|by cbn; rewrite app_nil_r|by cbn; rewrite app_nil_r].
    apply (owns_app_r _ [(p, inner_node None [] [ptr t])]).
    replace ((top lk (Some p) t) <| parent := None |>) with (top lk None t) by (by destruct t).
    eapply owns_perm; [|apply (owns_put _ _ _ (top lk None t) _ Ho2)]. unfold cells. cbn. solve_Permutation.
  - exists T. split; [done|]. split; [done|]. split; [done|]. exists (S n), (Node p (k :: ks) ts). split_and!; try done.
    cbn [root_ok]. split_and!; [simpl; lia|done|done|done].
Qed.

Lemma settled_built n f ctx x T T' : settled T T' n f ctx x -> ctx_ok mn mx n (f :: ctx) -> root T = ptr (plug (f :: ctx) x) ->
  built mn mx lk T T' (ctx_left (f :: ctx) ++ tokens x ++ ctx_right (f :: ctx)) (left_leaves (f :: ctx) ++ leaves x ++ right_leaves (f :: ctx)).
Proof.
  intros (f' & x' & HS & Hfp & Ho & Hp & Ht & Hl) Hok HR. erewrite <- tokens_plug, <- leaves_plug by done.
  change (plug (f :: ctx) x) with (plug ctx (fill f x)). destruct Hok as (_ & _ & _ & _ & _ & Hok).
  erewrite tokens_plug, leaves_plug, <- Ht, <- Hl by done. erewrite <- (tokens_plug _ _ _ ctx (fill f' x')), <- leaves_plug by done.
  change (plug ctx (fill f' x')) with (plug (f' :: ctx) x'). erewrite (tokens_at mn mx (f' :: ctx)), leaves_plug by done.
  apply (built_plug mn mx lk n); try done.
  - cbn [par_of head fmap option_fmap option_map]. by rewrite Hfp.
  - rewrite HR. by apply (ptr_plug_same ctx).
Qed.

Lemma remove_spec fuel n ctx p ks ts K C keyIdx childIdx T :
  length ctx < fuel -> maxKeys T = Z.of_nat mx ->
  owns T ((p, inner_node (par_of ctx) K C) :: forest lk p ts ++ ctx_cells lk ctx p) ->
  delete_at keyIdx K = ks -> delete_at childIdx C = ptr <$> ts -> ctx_ok mn mx (S n) ctx -> root T = ptr (plug ctx (Node p ks ts)) ->
  length ts = S (length ks) -> Forall (sub mn mx n) ts -> length ks <= mx -> (ctx <> [] -> mn <= S (length ks)) ->
  exists T', removeChildFromInternal fuel p keyIdx childIdx T = Some T' /\
    built mn mx lk T T' (ctx_left ctx ++ tokens (Node p ks ts) ++ ctx_right ctx) (left_leaves ctx ++ leaves (Node p ks ts) ++ right_leaves ctx).
Proof.
  revert n ctx p ks ts K C keyIdx childIdx T. induction fuel as [|fuel IH]; intros n ctx p ks ts K C keyIdx childIdx T Hfuel HM Ho HK HC Hok HR Hts Hsub Hle Hge; [lia|].
  cbn [removeChildFromInternal]. unfold drop_child. rewrite (modify_owns _ _ _ _ _ Ho). cbn [mbind option_bind].
  set (T1 := put p _ T). assert (owns T1 (cells lk (par_of ctx) (Node p ks ts) ++ ctx_cells lk ctx p)) as Ho1.
  { rewrite cells_Node, <- HK, <- HC. exact (owns_put _ _ _ _ _ Ho). }
  assert (nodes T1 !! p = Some (inner_node (par_of ctx) ks (ptr <$> ts))) as -> by (eapply lookup_in; [exact Ho1|left]).
  cbn [mbind option_bind inner_node keys children]. change (root T1) with (root T).
  destruct ctx as [|f ctx].
  { cbn [plug foldl ptr] in HR. rewrite HR, Nat.eqb_refl. cbn [ctx_left ctx_right left_leaves right_leaves app ctx_cells] in *. rewrite !app_nil_r in *.
    destruct (shrink_root n p ks ts T1 Ho1) as (T' & HT' & Hb); [done..|]. exists T'. split; [exact HT'|]. by apply (built_trans mn mx lk T T1). }
  destruct (Nat.eqb_spec p (root T)) as [E|_].
  { exfalso. eapply (root_above T1 (forest lk p ts) f ctx p); [rewrite cells_Node in Ho1; exact Ho1|]. rewrite E at 1. rewrite HR. by apply ptr_plug_same. }
  rewrite minKeys_mn by done. unfold len. specialize (Hge ltac:(done)). pose proof Hok as (Hll & Hlr & Hsl & Hsr & Hsz & Hok').
  destruct (Z.ltb_spec (Z.of_nat (length ks)) (Z.of_nat mn)).
  2:{ exists T1. split; [done|]. apply (built_plug mn mx lk (S n)); try done. split; [done|]. cbn [sub]. split_and!; [lia..|done|done]. }
  destruct (rebalanceInternal_spec n f ctx p ks ts T1 Ho1 Hok Hts Hsub) as (T2 & [[-> Hst]|(r & -> & Hm)]); [lia|exact HM| |]; cbn [mbind option_bind].
  - exists T2. split; [done|]. apply (built_trans mn mx lk T T1); [done..|]. by apply (settled_built (S n)).
  - destruct r as [[fp kI] cI]. destruct Hm as (K2 & C2 & ks2 & ts2 & (HR2 & HM2 & HC2 & _) & Hfp & Ho2 & HK2 & HC2' & Hl2 & Hs2 & Hsz2 & Ht2 & Hv2).
    cbn [fst snd] in *. subst fp. destruct (IH (S n) ctx (f_ptr f) ks2 ts2 K2 C2 kI cI T2) as (T' & -> & Hb); try done.
    + simpl in Hfuel. lia.
    + by rewrite HM2.
    + rewrite HR2. change (root T1) with (root T). rewrite HR. by apply (ptr_plug_same ctx).
    + lia.
    + destruct ctx; [done|]. intros _. lia.
    + exists T'. split; [done|]. apply (built_trans mn mx lk T T2); [done..|]. rewrite Ht2, Hv2 in Hb. rewrite tokens_fill, leaves_fill in Hb by done.
      cbn [ctx_left ctx_right left_leaves right_leaves]. by rewrite <- !app_assoc in *.
Qed.
End rebalance.
