(* ===== verification/BPlusDeleteLeaf.v ===== *)
(** Deletion from the leaves of the B+ tree: separators, borrowing and merging
    of leaves, and [Delete] as a whole. *)

From stdpp Require Import base tactics option list gmap sets strings sorting.
From Stdlib Require Import ZArith Lia.
From S2P Require Import Prelude Ordered BPlus BPlusShape BPlusInsert BPlusDelete.

#[local] Open Scope nat_scope.

(** ** Parents *)

Lemma cells_parent lk par t q n : (q, n) ∈ below lk t -> exists p, parent n = Some p /\ p ∈ (cells lk par t).*1.
Proof.
  revert par q n. induction t as [p kvs|p ks ts IH] using tree_induction; intros par q n Hq; [by apply elem_of_nil in Hq|].
  change (below lk (Node p ks ts)) with (forest lk p ts) in Hq. rewrite cells_Node, fmap_cons.
  induction IH as [|t ts Ht _ IHt]; [by apply elem_of_nil in Hq|]. rewrite forest_cons in Hq |- *. rewrite fmap_app.
  apply elem_of_app in Hq as [Hq|Hq].
  - unfold cells in Hq. apply elem_of_cons in Hq as [Hq|Hq].
    + exists p. injection Hq as -> ->. split; [by destruct t|left].
    + destruct (Ht (Some p) q n Hq) as (p' & Hp' & Hin). exists p'. split; [done|]. right. apply elem_of_app. by left.
  - destruct (IHt Hq) as (p' & Hp' & Hin). exists p'. split; [done|].
    apply elem_of_cons in Hin as [->|Hin]; [left|right]. apply elem_of_app. by right.
Qed.

Lemma forest_parent lk p ts q n : (q, n) ∈ forest lk p ts -> exists p', parent n = Some p' /\ (p' = p \/ p' ∈ (forest lk p ts).*1).
Proof.
  intros Hq. destruct (cells_parent lk None (Node p [] ts) q n Hq) as (p' & Hp' & Hin). exists p'. split; [done|].
  rewrite cells_Node, fmap_cons in Hin. by apply elem_of_cons in Hin.
Qed.

Lemma ctx_parent lk ctx h q n : (q, n) ∈ ctx_cells lk ctx h -> parent n = None \/ exists p, parent n = Some p /\ p ∈ (ctx_cells lk ctx h).*1.
Proof.
  revert h. induction ctx as [|f ctx IH]; intros h Hq; [by apply elem_of_nil in Hq|]. cbn [ctx_cells] in Hq |- *.
  rewrite fmap_cons, fmap_app. apply elem_of_cons in Hq as [Hq|[Hq|Hq]%elem_of_app].
  - injection Hq as -> ->. destruct ctx as [|g ctx]; [by left|right]. exists (f_ptr g). split; [done|]. right. apply elem_of_app. right. left.
  - right. destruct (forest_parent _ _ _ _ _ Hq) as (p' & Hp' & [->|Hin]); exists p' || eexists; (split; [done|]); [left|right].
    apply elem_of_app. by left.
  - destruct (IH _ Hq) as [?|(p' & Hp' & Hin)]; [by left|right]. exists p'. split; [done|]. right. apply elem_of_app. by right.
Qed.

Section leaves.
Context (mn mx : nat).
Hypothesis Hmx : mx = 2 * mn.
Hypothesis Hmn : 1 <= mn.

Lemma sub_leaf t : sub mn mx 0 t -> exists p kvs, t = Leaf p kvs /\ mn <= length kvs <= mx.
Proof. destruct t as [p kvs|]; [|done]. intros H. by exists p, kvs. Qed.

Lemma leaves_of_leaves ts : Forall (sub mn mx 0) ts -> concat (leaves <$> ts) = ptr <$> ts.
Proof.
  induction 1 as [|t ts Ht _ IH]; [done|]. destruct (sub_leaf t Ht) as (p & kvs & -> & _). rewrite !fmap_cons, concat_cons, IH. done.
Qed.

(** The neighbour in the chain is a sibling exactly when the parent has a child
    on that side. *)
Lemma outer_leaf_parent lk T fp cs1 ctx q cs :
  owns T ((fp, cs1) :: cs ++ ctx_cells lk ctx fp) -> q ∈ left_leaves ctx ++ right_leaves ctx ->
  exists n, nodes T !! q = Some n /\ parent n <> Some fp.
Proof.
  intros Ho Hq. destruct (proj2 (leaf_cells_ctx lk ctx fp) q Hq) as (n & Hn & _). exists n. split.
  - eapply lookup_in; [exact Ho|]. right. apply elem_of_app. by right.
  - intros Hp. destruct (ctx_parent _ _ _ _ _ Hn) as [?|(p & Hp' & Hin)]; [congruence|]. assert (p = fp) as -> by congruence.
    destruct Ho as (_ & Hnd & _). rewrite fmap_cons, fmap_app in Hnd. apply NoDup_cons in Hnd as [Hnd _]. apply Hnd. apply elem_of_app. by right.
Qed.

Definition sibling_info (t : option tree) : option (nat * bool) :=
  match t with Some (Leaf p kvs) => Some (p, mn <? length kvs) | _ => None end.

Lemma true_sibling_spec lk T fp ctx nb cs t outer :
  maxKeys T = Z.of_nat mx -> owns T ((fp, nb) :: cs ++ ctx_cells lk ctx fp) ->
  (forall x, t = Some x -> sub mn mx 0 x /\ (ptr x, top lk (Some fp) x) ∈ cs) ->
  (forall q, outer = Some q -> q ∈ left_leaves ctx ++ right_leaves ctx) ->
  true_sibling (match t with Some x => Some (ptr x) | None => outer end) (Some fp) T = Some (sibling_info t).
Proof.
  intros HM Ho Ht Hout. destruct t as [x|].
  - destruct (Ht x eq_refl) as [Hs Hx]. destruct (sub_leaf x Hs) as (p & kvs & -> & _). cbn [true_sibling ptr sibling_info] in *.
    erewrite (lookup_in _ _ p); [|exact Ho|right; apply elem_of_app; left; exact Hx]. cbn [mbind option_bind top leaf_node parent keys].
    rewrite bool_decide_true by done. rewrite (minKeys_mn mn mx Hmx) by done. unfold len. rewrite length_fmap. do 3 f_equal.
    destruct (Z.ltb_spec (Z.of_nat mn) (Z.of_nat (length kvs))), (Nat.ltb_spec mn (length kvs)); lia || done.
  - destruct outer as [q|]; [|done]. cbn [true_sibling sibling_info].
    destruct (outer_leaf_parent lk T fp nb ctx q cs Ho (Hout q eq_refl)) as (n & -> & Hp). cbn [mbind option_bind]. by rewrite bool_decide_false.
Qed.
End leaves.

(** ** Borrowing *)

Lemma leaf_node_keys lk p par kvs ks vs : ks = kvs.*1 -> vs = kvs.*2 -> forall kvs0,
  (leaf_node lk p par kvs0) <| keys := ks |> <| values := vs |> = leaf_node lk p par kvs.
Proof. by intros -> -> kvs0. Qed.

Lemma inner_set_key par lks k k' rks C :
  (inner_node par (lks ++ k :: rks) C) <| keys := <[length lks := k']> (keys (inner_node par (lks ++ k :: rks) C)) |> =
  inner_node par (lks ++ k' :: rks) C.
Proof. cbn [inner_node keys]. rewrite insert_mid. done. Qed.

Lemma borrowLeftLeaf_owns lk T p fp kvs lp lkv mk mv kL lks rks C par rest :
  owns T ((p, leaf_node lk p (Some fp) kvs) :: (lp, leaf_node lk lp (Some fp) (lkv ++ [(mk, mv)]))
    :: (fp, inner_node par (lks ++ kL :: rks) C) :: rest) ->
  exists T', borrowFromLeftLeaf p lp (S (length lks)) T = Some T' /\ same_scalars T T' /\
    owns T' ((p, leaf_node lk p (Some fp) ((mk, mv) :: kvs)) :: (lp, leaf_node lk lp (Some fp) lkv)
      :: (fp, inner_node par (lks ++ mk :: rks) C) :: rest).
Proof.
  intros Ho. unfold borrowFromLeftLeaf. read 1.
  assert (last ((lkv ++ [(mk, mv)]).*1) = Some mk) as -> by (by rewrite fmap_app, fmap_cons, fmap_nil, last_snoc).
  assert (last ((lkv ++ [(mk, mv)]).*2) = Some mv) as -> by (by rewrite fmap_app, fmap_cons, fmap_nil, last_snoc). cbn [mbind option_bind].
  write 1. write 0. read 0.
  match goal with Ho : owns ?T _ |- _ => destruct (set_key_nth T _ 2 fp _ (length lks) mk Ho eq_refl) as (T4 & HT4 & Ho4 & Hs4) end.
  { cbn. rewrite length_app. simpl. lia. }
  match goal with |- context [parent ?n] => change (parent n) with (Some fp) end; cbv iota beta.
  rewrite HT4. exists T4. split; [done|]. split; [by eauto using same_scalars_trans|].
  cbn [insert list_insert] in Ho4. rewrite inner_set_key in Ho4. rewrite (leaf_node_keys _ lp _ lkv) in Ho4.
  - exact Ho4.
  - cbn. rewrite fmap_app, length_app. cbn. by rewrite Nat.add_sub, take_app_length.
  - cbn. rewrite fmap_app, length_app. cbn. by rewrite Nat.add_sub, take_app_length.
Qed.

Lemma borrowRightLeaf_owns lk T p fp kvs rp mk mv k2 v2 rkv kR lks rks C par rest :
  owns T ((p, leaf_node lk p (Some fp) kvs) :: (rp, leaf_node lk rp (Some fp) ((mk, mv) :: (k2, v2) :: rkv))
    :: (fp, inner_node par (lks ++ kR :: rks) C) :: rest) ->
  exists T', borrowFromRightLeaf p rp (length lks) T = Some T' /\ same_scalars T T' /\
    owns T' ((p, leaf_node lk p (Some fp) (kvs ++ [(mk, mv)])) :: (rp, leaf_node lk rp (Some fp) ((k2, v2) :: rkv))
      :: (fp, inner_node par (lks ++ k2 :: rks) C) :: rest).
Proof.
  intros Ho. unfold borrowFromRightLeaf. read 1. cbn [fmap list_fmap lookup list_lookup fst snd mbind option_bind].
  write 1. write 0. read 0. match goal with |- context [parent ?n] => change (parent n) with (Some fp) end; cbv iota beta. read 2. rewrite length_app. cbn [length].
  destruct (Nat.ltb_spec (length lks) (length lks + S (length rks))); [|lia]. read 1.
  match goal with |- context [keys ?n !! 0] => change (keys n !! 0) with (Some k2) end. cbn [mbind option_bind].
  match goal with Ho : owns ?T _ |- _ => destruct (set_key_nth T _ 2 fp _ (length lks) k2 Ho eq_refl) as (T4 & HT4 & Ho4 & Hs4) end.
  { cbn. rewrite length_app. simpl. lia. }
  rewrite HT4. exists T4. split; [done|]. split; [by eauto using same_scalars_trans|].
  cbn [insert list_insert] in Ho4. rewrite inner_set_key in Ho4. rewrite (leaf_node_keys _ p _ (kvs ++ [(mk, mv)])) in Ho4.
  - exact Ho4.
  - by rewrite fmap_app.
  - by rewrite fmap_app.
Qed.

(** The separator moves along with an entry. *)
Lemma sorted_move_left A l mk mv kL B : l <> [] ->
  StronglySorted token_lt (A ++ (entry <$> l) ++ Entry mk mv :: Sep kL :: B) ->
  StronglySorted token_lt (A ++ (entry <$> l) ++ Sep mk :: Entry mk mv :: B).
Proof.
  intros Hl Hs. apply sorted_insert_sep; [done|]. rewrite (cons_middle (Entry mk mv) (entry <$> l) B).
  rewrite (app_assoc A), app_assoc. apply (StronglySorted_drop_middle _ _ [Sep kL]). rewrite <- !app_assoc. exact Hs.
Qed.

Lemma sorted_move_right A mk mv kR k v B :
  StronglySorted token_lt (A ++ Sep kR :: Entry mk mv :: Entry k v :: B) ->
  StronglySorted token_lt (A ++ Entry mk mv :: Sep k :: Entry k v :: B).
Proof.
  intros Hs. apply (StronglySorted_drop_middle _ A [Sep kR]) in Hs. by apply (sorted_insert_sep A [(mk, mv)]).
Qed.

Section cases.
Context (mn mx : nat).
Hypothesis Hmx : mx = 2 * mn.
Hypothesis Hmn : 1 <= mn.

(** The tree afterwards has the same entries, in order. *)
Definition rebuilt (T T' : BPlusTree) (old : list token) : Prop :=
  exists toks lvs, built mn mx (lk_of lvs) T T' toks lvs /\ StronglySorted token_lt toks /\ entries toks = entries old.

(** A leaf and its place. *)
Record at_leaf (T : BPlusTree) (lvs : list nat) (f : frame) (ctx : list frame) (p : nat) (kvs : list (string * string)) : Prop := {
  al_owns : owns T (cells (lk_of lvs) (Some (f_ptr f)) (Leaf p kvs) ++ ctx_cells (lk_of lvs) (f :: ctx) p);
  al_lvs : lvs = left_leaves (f :: ctx) ++ p :: right_leaves (f :: ctx);
  al_ok : ctx_ok mn mx 0 (f :: ctx);
  al_sorted : StronglySorted token_lt (ctx_left (f :: ctx) ++ (entry <$> kvs) ++ ctx_right (f :: ctx));
  al_root : root T = ptr (plug (f :: ctx) (Leaf p kvs));
  al_max : maxKeys T = Z.of_nat mx;
}.

(** Settled within the same parent. *)
Lemma settle_leaf T T' lvs f f' ctx p kvs kvs' :
  at_leaf T lvs f ctx p kvs -> same_scalars T T' -> f_ptr f' = f_ptr f -> leaves (fill f' (Leaf p kvs')) = leaves (fill f (Leaf p kvs)) ->
  owns T' (cells (lk_of lvs) (Some (f_ptr f)) (Leaf p kvs') ++ ctx_cells (lk_of lvs) (f' :: ctx) p) -> place_ok mn mx 0 (f' :: ctx) (Leaf p kvs') ->
  StronglySorted token_lt (ctx_left (f' :: ctx) ++ (entry <$> kvs') ++ ctx_right (f' :: ctx)) ->
  entries (ctx_left (f' :: ctx) ++ (entry <$> kvs') ++ ctx_right (f' :: ctx)) = entries (ctx_left (f :: ctx) ++ (entry <$> kvs) ++ ctx_right (f :: ctx)) ->
  rebuilt T T' (ctx_left (f :: ctx) ++ (entry <$> kvs) ++ ctx_right (f :: ctx)).
Proof.
  intros Ha (HR & HM & HC & _) Hf Hlf Ho Hp Hs He. eexists _, lvs. split; [|split; [exact Hs|exact He]].
  split; [done|]. split; [done|]. exists (0 + length (f' :: ctx)), (plug (f' :: ctx) (Leaf p kvs')). split_and!.
  - rewrite cells_plug. cbn [par_of head fmap option_fmap option_map ptr]. by rewrite Hf.
  - rewrite HR, (al_root _ _ _ _ _ _ Ha). by apply (ptr_plug_same ctx).
  - by apply root_plug.
  - by eapply tokens_at.
  - rewrite (al_lvs _ _ _ _ _ _ Ha). change (plug (f' :: ctx) (Leaf p kvs')) with (plug ctx (fill f' (Leaf p kvs'))).
    rewrite leaves_plug, Hlf, leaves_fill. cbn [left_leaves right_leaves leaves]. by rewrite <- !app_assoc.
Qed.

Lemma borrow_left_leaf T lvs fp lks kL rks lc lp lkv mk mv rc ctx p kvs :
  let f := {| f_ptr := fp; f_lk := lks ++ [kL]; f_lc := lc ++ [Leaf lp (lkv ++ [(mk, mv)])]; f_rk := rks; f_rc := rc |} in
  at_leaf T lvs f ctx p kvs -> S (length kvs) = mn -> mn <= length lkv ->
  exists T', borrowFromLeftLeaf p lp (S (length lks)) T = Some T' /\
    rebuilt T T' (ctx_left (f :: ctx) ++ (entry <$> kvs) ++ ctx_right (f :: ctx)).
Proof.
  intros f Ha Hk Hlend. pose proof Ha as [Ho _ (Hl & Hr & Hsl & Hsr & Hsz & Hc) Hs _ _]. set (lk := lk_of lvs) in *.
  cbn [f f_ptr f_lk f_lc f_rk f_rc] in *.
  rewrite !length_app in Hl. simpl length in Hl. apply Forall_app in Hsl as [Hsl HL]. rewrite Forall_singleton in HL. cbn [sub] in HL. rewrite length_app in HL. simpl in HL.
  set (C := (ptr <$> lc) ++ lp :: p :: (ptr <$> rc)).
  destruct (borrowLeftLeaf_owns lk T p fp kvs lp lkv mk mv kL lks rks C (par_of ctx) (forest lk fp (lc ++ rc) ++ ctx_cells lk ctx fp)) as (T' & HT' & HS & Ho').
  { eapply owns_perm; [|exact Ho]. unfold f, C. perm_cells. }
  exists T'. split; [done|]. set (f' := {| f_ptr := fp; f_lk := lks ++ [mk]; f_lc := lc ++ [Leaf lp lkv]; f_rk := rks; f_rc := rc |}).
  assert (left_tokens f = concat (zip_with (fun t k => tokens t ++ [Sep k]) lc lks) ++ (entry <$> lkv) ++ [Entry mk mv; Sep kL]) as Hlt.
  { unfold left_tokens. cbn [f f_lc f_lk]. rewrite zip_with_app by lia. cbn [zip_with]. rewrite concat_snoc. cbn [tokens]. rewrite fmap_app. by rewrite <- app_assoc. }
  assert (left_tokens f' = concat (zip_with (fun t k => tokens t ++ [Sep k]) lc lks) ++ (entry <$> lkv) ++ [Sep mk]) as Hlt'.
  { unfold left_tokens. cbn [f' f_lc f_lk]. rewrite zip_with_app by lia. cbn [zip_with]. rewrite concat_snoc. done. }
  set (A := ctx_left ctx ++ concat (zip_with (fun t k => tokens t ++ [Sep k]) lc lks)).
  assert (ctx_left (f :: ctx) = A ++ (entry <$> lkv) ++ [Entry mk mv; Sep kL]) as HA by (cbn [ctx_left]; rewrite Hlt; unfold A; by rewrite <- !app_assoc).
  assert (ctx_left (f' :: ctx) = A ++ (entry <$> lkv) ++ [Sep mk]) as HA' by (cbn [ctx_left]; rewrite Hlt'; unfold A; by rewrite <- !app_assoc).
  change (ctx_right (f :: ctx)) with (ctx_right (f' :: ctx)) in *. set (B := ctx_right (f' :: ctx)) in *.
  apply (settle_leaf T T' lvs f f' ctx p kvs ((mk, mv) :: kvs) Ha HS); try done.
  - unfold f, f'. flat_leaves.
  - eapply owns_perm; [|exact Ho']. unfold f', C. cbn [f f_ptr]. perm_cells.
  - split; [|cbn [sub]; simpl length; lia]. cbn [ctx_ok f' f_lk f_lc f_rk f_rc]. rewrite !length_app in *. simpl length in *.
    split_and!; try done; try lia. apply Forall_app. split; [done|]. constructor; [cbn [sub]; lia|done].
  - rewrite HA'. fold B. rewrite HA in Hs. rewrite <- !app_assoc in *. apply (sorted_move_left A lkv mk mv kL).
    + by destruct lkv; simpl in *; [lia|].
    + exact Hs.
  - rewrite HA, HA'. fold B. rewrite <- !app_assoc. rewrite !entries_app. cbn. by rewrite !entries_app.
Qed.

Lemma borrow_right_leaf T lvs fp lks kR rks lc rp mk mv k2 v2 rkv rc ctx p kvs :
  let f := {| f_ptr := fp; f_lk := lks; f_lc := lc; f_rk := kR :: rks; f_rc := Leaf rp ((mk, mv) :: (k2, v2) :: rkv) :: rc |} in
  at_leaf T lvs f ctx p kvs -> S (length kvs) = mn -> mn <= S (length rkv) ->
  exists T', borrowFromRightLeaf p rp (length lks) T = Some T' /\
    rebuilt T T' (ctx_left (f :: ctx) ++ (entry <$> kvs) ++ ctx_right (f :: ctx)).
Proof.
  intros f Ha Hk Hlend. pose proof Ha as [Ho _ (Hl & Hr & Hsl & Hsr & Hsz & Hc) Hs _ _]. set (lk := lk_of lvs) in *.
  cbn [f f_ptr f_lk f_lc f_rk f_rc] in *.
  simpl length in Hr. apply Forall_cons in Hsr as [HR Hsr]. cbn [sub] in HR. simpl in HR.
  set (C := (ptr <$> lc) ++ p :: rp :: (ptr <$> rc)).
  destruct (borrowRightLeaf_owns lk T p fp kvs rp mk mv k2 v2 rkv kR lks rks C (par_of ctx) (forest lk fp (lc ++ rc) ++ ctx_cells lk ctx fp)) as (T' & HT' & HS & Ho').
  { eapply owns_perm; [|exact Ho]. unfold f, C. perm_cells. }
  exists T'. split; [done|]. set (f' := {| f_ptr := fp; f_lk := lks; f_lc := lc; f_rk := k2 :: rks; f_rc := Leaf rp ((k2, v2) :: rkv) :: rc |}).
  set (B := (entry <$> rkv) ++ concat (zip_with (fun t k => Sep k :: tokens t) rc rks) ++ ctx_right ctx).
  assert (ctx_right (f :: ctx) = Sep kR :: Entry mk mv :: Entry k2 v2 :: B) as HB.
  { cbn [ctx_right]. unfold right_tokens. cbn [f f_rc f_rk zip_with concat tokens]. rewrite !fmap_cons. unfold B. cbn [app]. by rewrite <- !app_assoc. }
  assert (ctx_right (f' :: ctx) = Sep k2 :: Entry k2 v2 :: B) as HB'.
  { cbn [ctx_right]. unfold right_tokens. cbn [f' f_rc f_rk zip_with concat tokens]. rewrite !fmap_cons. unfold B. cbn [app]. by rewrite <- !app_assoc. }
  change (ctx_left (f :: ctx)) with (ctx_left (f' :: ctx)) in *. set (A := ctx_left (f' :: ctx)) in *.
  apply (settle_leaf T T' lvs f f' ctx p kvs (kvs ++ [(mk, mv)]) Ha HS); try done.
  - unfold f, f'. flat_leaves.
  - eapply owns_perm; [|exact Ho']. unfold f', C. cbn [f f_ptr]. perm_cells.
  - split; [|cbn [sub]; rewrite length_app; simpl length; lia]. cbn [ctx_ok f' f_lk f_lc f_rk f_rc]. simpl length in *.
    split_and!; try done; try lia. constructor; [cbn [sub]; simpl; lia|done].
  - fold A. rewrite HB'. rewrite HB in Hs. rewrite fmap_app, <- app_assoc. rewrite app_assoc in Hs |- *. by apply (sorted_move_right _ mk mv kR).
  - fold A. rewrite HB, HB', fmap_app, <- app_assoc. rewrite !entries_app. done.
Qed.

(** ** Merging *)

(** The leaf [a] takes over the entries of [b] behind it, which leaves the chain. *)
Lemma join_owns T LL a ka b kb RL fp K C lc rc ctx :
  let lvs := LL ++ a :: b :: RL in let lk := lk_of lvs in let lk' := lk_of (LL ++ a :: RL) in
  NoDup lvs -> LL = left_leaves ctx ++ concat (leaves <$> lc) -> RL = concat (leaves <$> rc) ++ right_leaves ctx ->
  owns T ((a, leaf_node lk a (Some fp) ka) :: (b, leaf_node lk b (Some fp) kb) :: (fp, inner_node (par_of ctx) K C)
    :: forest lk fp (lc ++ rc) ++ ctx_cells lk ctx fp) ->
  exists T1 T2,
    modify a (fun l => l <| keys := keys l ++ kb.*1 |> <| values := values l ++ kb.*2 |> <| next := head RL |>) T = Some T1 /\
    modify_if (head RL) (fun m => m <| prev := Some a |>) T1 = Some T2 /\ same_scalars T T2 /\
    owns T2 ((a, leaf_node lk' a (Some fp) (ka ++ kb)) :: (fp, inner_node (par_of ctx) K C)
      :: forest lk' fp (lc ++ rc) ++ ctx_cells lk' ctx fp).
Proof.
  intros lvs lk lk' Hnd HLL HRL Ho.
  assert (NoDup (LL ++ a :: RL)) as Hnd'.
  { eapply sublist_NoDup; [exact Hnd|]. apply sublist_app; [done|]. by apply sublist_skip, sublist_cons. }
  set (cs := (fp, inner_node (par_of ctx) K C) :: forest lk fp (lc ++ rc) ++ ctx_cells lk ctx fp) in *.
  assert (leaf_cells lk cs (LL ++ RL)) as Hlc.
  { apply leaf_cells_inner; [done|]. eapply leaf_cells_perm; [|apply leaf_cells_app; [apply leaf_cells_trees|apply leaf_cells_ctx]].
    rewrite fmap_app, concat_app, HLL, HRL. solve_Permutation. }
  clear HLL HRL. write 0. assert (lk a = (last LL, Some b)) as Hla by (by apply lk_of_at).
  assert (lk' a = (last LL, head RL)) as Hla' by (by apply lk_of_at).
  match type of Ho with owns _ (?x :: ?y :: cs) => destruct (modify_if_prev_owns lk lk' T0 [x; y] cs (LL ++ RL) (head RL) (Some a)) as (T2 & HT2 & Ho2 & HS2) end.
  - exact Ho.
  - exact Hlc.
  - intros q Hq. destruct RL as [|q' RL'] eqn:ERL; [done|]. simplify_eq/=. split; [set_solver|].
    unfold lk', lk. rewrite (lk_of_eq _ (LL ++ [a]) q RL' Hnd') by (by rewrite <- app_assoc).
    rewrite (lk_of_eq _ (LL ++ [a; b]) q RL' Hnd) by (unfold lvs; by rewrite <- app_assoc). by rewrite last_snoc.
  - intros q Hq Hne. symmetry. by apply lk_of_insert.
  - exists T0, T2. split; [done|]. split; [done|]. split; [by eapply same_scalars_trans|].
    apply (owns_app_r _ [(b, leaf_node lk b (Some fp) kb)]). eapply owns_perm; [|exact Ho2].
    unfold cs. rewrite fmap_cons, fmap_app, relink_forest, relink_ctx. change (relink lk' (fp, ?n)) with (fp, n).
    replace (leaf_node lk' a (Some fp) (ka ++ kb)) with ((leaf_node lk a (Some fp) ka) <| keys := keys (leaf_node lk a (Some fp) ka) ++ kb.*1 |>
      <| values := values (leaf_node lk a (Some fp) ka) ++ kb.*2 |> <| next := head RL |>); [solve_Permutation|].
    unfold leaf_node. rewrite Hla, Hla', !fmap_app. done.
Qed.

(** The tokens of a parent that has the leaves [ka] and [kb] side by side. *)
Definition pair_tokens (lks : list string) (lc : list tree) (ka : list (string * string)) (k : string) (kb : list (string * string))
    (rks : list string) (rc : list tree) (ctx : list frame) : list token :=
  ctx_left ctx ++ concat (zip_with (fun t k => tokens t ++ [Sep k]) lc lks) ++ (entry <$> ka) ++ Sep k :: (entry <$> kb)
  ++ concat (zip_with (fun t k => Sep k :: tokens t) rc rks) ++ ctx_right ctx.

Lemma merge_leaves T LL a ka b kb RL fp lks k rks lc rc ctx :
  let lvs := LL ++ a :: b :: RL in let lk := lk_of lvs in let C := (ptr <$> lc) ++ a :: b :: (ptr <$> rc) in
  NoDup lvs -> LL = left_leaves ctx ++ concat (leaves <$> lc) -> RL = concat (leaves <$> rc) ++ right_leaves ctx ->
  owns T ((a, leaf_node lk a (Some fp) ka) :: (b, leaf_node lk b (Some fp) kb) :: (fp, inner_node (par_of ctx) (lks ++ k :: rks) C)
    :: forest lk fp (lc ++ rc) ++ ctx_cells lk ctx fp) ->
  length lks = length lc -> length rks = length rc -> Forall (sub mn mx 0) lc -> Forall (sub mn mx 0) rc -> mn <= length (ka ++ kb) <= mx ->
  match ctx with [] => 1 | _ => mn end <= S (length lks + length rks) <= mx -> ctx_ok mn mx 1 ctx ->
  maxKeys T = Z.of_nat mx -> root T = ptr (plug ctx (Node fp [] [])) -> StronglySorted token_lt (pair_tokens lks lc ka k kb rks rc ctx) ->
  exists T1 T2 T3,
    modify a (fun l => l <| keys := keys l ++ kb.*1 |> <| values := values l ++ kb.*2 |> <| next := head RL |>) T = Some T1 /\
    modify_if (head RL) (fun m => m <| prev := Some a |>) T1 = Some T2 /\ (parent <$> nodes T2 !! a = Some (Some fp)) /\
    removeChildFromInternal (fresh T2) fp (length lks) (S (length lks)) T2 = Some T3 /\ rebuilt T T3 (pair_tokens lks lc ka k kb rks rc ctx).
Proof.
  intros lvs lk C Hnd HLL HRL Ho Hl Hr Hsl Hsr Hsz Hpar Hc HM HR Hs.
  destruct (join_owns T LL a ka b kb RL fp (lks ++ k :: rks) C lc rc ctx Hnd HLL HRL Ho) as (T1 & T2 & HT1 & HT2 & (HR2 & HM2 & HC2 & HF2) & Ho2).
  exists T1, T2. set (lk' := lk_of (LL ++ a :: RL)) in *. set (ts := lc ++ Leaf a (ka ++ kb) :: rc).
  destruct (remove_spec mn mx lk' Hmx Hmn (fresh T2) 0 ctx fp (lks ++ rks) ts (lks ++ k :: rks) C (length lks) (S (length lks)) T2) as (T3 & HT3 & Hb).
  - pose proof (owns_length _ _ Ho2) as Hlen. cbn [length] in Hlen. rewrite length_app in Hlen. pose proof (length_ctx_cells lk' ctx fp). lia.
  - by rewrite HM2.
  - eapply owns_perm; [|exact Ho2]. unfold ts. perm_cells.
  - by rewrite delete_at_app.
  - unfold C, ts. replace (S (length lks)) with (length ((ptr <$> lc) ++ [a])) by (rewrite length_app, length_fmap; simpl; lia).
    rewrite (app_assoc _ [a] (b :: _) : _ ++ a :: b :: _ = _), delete_at_app, fmap_app, fmap_cons. by rewrite <- app_assoc.
  - done.
  - rewrite HR2, HR. by apply ptr_plug_same.
  - unfold ts. rewrite !length_app. simpl. lia.
  - unfold ts. apply Forall_app. split; [done|]. by constructor.
  - rewrite length_app. lia.
  - rewrite length_app. destruct ctx; [done|]. lia.
  - exists T3. split; [done|]. split; [done|]. split; [by rewrite (owns_lookup _ _ _ _ Ho2)|]. split; [done|].
    assert (tokens (Node fp (lks ++ rks) ts) = concat (zip_with (fun t k => tokens t ++ [Sep k]) lc lks) ++ (entry <$> (ka ++ kb))
      ++ concat (zip_with (fun t k => Sep k :: tokens t) rc rks)) as Htok.
    { exact (tokens_fill {| f_ptr := fp; f_lk := lks; f_lc := lc; f_rk := rks; f_rc := rc |} (Leaf a (ka ++ kb)) Hl Hr). }
    assert (left_leaves ctx ++ leaves (Node fp (lks ++ rks) ts) ++ right_leaves ctx = LL ++ a :: RL) as Hlv.
    { unfold ts. rewrite leaves_Node, fmap_app, fmap_cons, concat_app, concat_cons, HLL, HRL. cbn [leaves]. by rewrite <- !app_assoc. }
    rewrite Hlv, Htok in Hb. eexists _, (LL ++ a :: RL). split; [|split].
    + destruct Hb as (Hb1 & Hb2 & Hb3). split; [by rewrite Hb1|]. split; [by rewrite Hb2|exact Hb3].
    + unfold pair_tokens in Hs. rewrite fmap_app, <- !app_assoc. set (Z := concat (zip_with _ lc lks)) in *.
      rewrite (app_assoc Z), app_assoc in Hs |- *. by apply (StronglySorted_drop_middle _ _ [Sep k]) in Hs.
    + unfold pair_tokens. rewrite !entries_app, !fmap_app. change (Sep k :: ?l) with ([Sep k] ++ l). rewrite !entries_app. cbn [entries omap list_omap token_entry]. by rewrite <- !app_assoc.
Qed.

Lemma at_leaf_nodup T lvs f ctx p kvs : at_leaf T lvs f ctx p kvs -> NoDup lvs.
Proof.
  intros Ha. assert (lvs = leaves (plug (f :: ctx) (Leaf p kvs))) as Hl by (rewrite leaves_plug; apply Ha). rewrite Hl at 1.
  eapply (owns_leaves (lk_of lvs) T None (plug (f :: ctx) (Leaf p kvs)) []). rewrite app_nil_r, cells_plug. apply Ha.
Qed.

Lemma merge_left_leaf T lvs fp lks kL rks lc lp lkv rc ctx p kvs :
  let f := {| f_ptr := fp; f_lk := lks ++ [kL]; f_lc := lc ++ [Leaf lp lkv]; f_rk := rks; f_rc := rc |} in
  at_leaf T lvs f ctx p kvs -> S (length kvs) = mn -> length lkv <= mn ->
  exists T', mergeWithLeftLeaf p lp (S (length lks)) T = Some T' /\
    rebuilt T T' (ctx_left (f :: ctx) ++ (entry <$> kvs) ++ ctx_right (f :: ctx)).
Proof.
  intros f Ha Hk Hlend. pose proof (at_leaf_nodup _ _ _ _ _ _ Ha) as Hnd. pose proof Ha as [Ho Hlv (Hl & Hr & Hsl & Hsr & Hsz & Hc) Hs HR HM].
  cbn [f f_ptr f_lk f_lc f_rk f_rc] in *. rewrite !length_app in Hl. rewrite !length_app in Hsz. simpl length in Hl, Hsz.
  apply Forall_app in Hsl as [Hsl HL]. rewrite Forall_singleton in HL. cbn [sub] in HL.
  set (LL := left_leaves ctx ++ concat (leaves <$> lc)). set (RL := concat (leaves <$> rc) ++ right_leaves ctx).
  assert (lvs = LL ++ lp :: p :: RL) as Hlvs.
  { rewrite Hlv. cbn [f left_leaves right_leaves f_lc f_rc]. rewrite fmap_app, concat_app. unfold LL, RL. cbn [fmap list_fmap concat leaves app]. by rewrite <- !app_assoc. }
  clear Hlv. subst lvs. set (lk := lk_of (LL ++ lp :: p :: RL)) in *.
  assert (ctx_left (f :: ctx) ++ (entry <$> kvs) ++ ctx_right (f :: ctx) = pair_tokens lks lc lkv kL kvs rks rc ctx) as Htok.
  { cbn [ctx_left ctx_right]. unfold left_tokens, right_tokens, pair_tokens. cbn [f f_lc f_lk f_rc f_rk]. rewrite zip_with_app by lia.
    cbn [zip_with]. rewrite concat_snoc. cbn [tokens]. by rewrite <- !app_assoc. }
  rewrite Htok in Hs |- *.
  assert (lk p = (Some lp, head RL)) as Hlkp.
  { unfold lk. rewrite (lk_of_eq _ (LL ++ [lp]) p RL Hnd) by (by rewrite <- app_assoc). by rewrite last_snoc. }
  destruct (merge_leaves T LL lp lkv p kvs RL fp lks kL rks lc rc ctx) as (T1 & T2 & T3 & HT1 & HT2 & Hpar & HT3 & Hb); try done.
  - eapply owns_perm; [|exact Ho]. fold lk. unfold f. perm_cells.
  - lia.
  - rewrite length_app. lia.
  - destruct ctx; lia.
  - rewrite HR. by apply (ptr_plug_same ctx).
  - exists T3. split; [|done]. unfold mergeWithLeftLeaf. erewrite (lookup_in _ _ p); [|exact Ho|left].
    cbn [mbind option_bind top leaf_node keys values next parent]. rewrite Hlkp. cbn [snd]. rewrite HT1. cbn [mbind option_bind]. rewrite HT2. cbn [mbind option_bind].
    rewrite Nat.sub_1_r. exact HT3.
Qed.

Lemma merge_right_leaf T lvs fp lks kR rks lc rp rkv rc ctx p kvs :
  let f := {| f_ptr := fp; f_lk := lks; f_lc := lc; f_rk := kR :: rks; f_rc := Leaf rp rkv :: rc |} in
  at_leaf T lvs f ctx p kvs -> S (length kvs) = mn -> length rkv <= mn ->
  exists T', mergeWithRightLeaf p rp (length lks) T = Some T' /\
    rebuilt T T' (ctx_left (f :: ctx) ++ (entry <$> kvs) ++ ctx_right (f :: ctx)).
Proof.
  intros f Ha Hk Hlend. pose proof (at_leaf_nodup _ _ _ _ _ _ Ha) as Hnd. pose proof Ha as [Ho Hlv (Hl & Hr & Hsl & Hsr & Hsz & Hc) Hs HR HM].
  cbn [f f_ptr f_lk f_lc f_rk f_rc] in *. simpl length in Hr, Hsz. apply Forall_cons in Hsr as [HL Hsr]. cbn [sub] in HL.
  set (LL := left_leaves ctx ++ concat (leaves <$> lc)). set (RL := concat (leaves <$> rc) ++ right_leaves ctx).
  assert (lvs = LL ++ p :: rp :: RL) as Hlvs.
  { rewrite Hlv. cbn [f left_leaves right_leaves f_lc f_rc]. rewrite fmap_cons, concat_cons. unfold LL, RL. cbn [leaves app]. by rewrite <- !app_assoc. }
  clear Hlv. subst lvs. set (lk := lk_of (LL ++ p :: rp :: RL)) in *.
  assert (ctx_left (f :: ctx) ++ (entry <$> kvs) ++ ctx_right (f :: ctx) = pair_tokens lks lc kvs kR rkv rks rc ctx) as Htok.
  { cbn [ctx_left ctx_right]. unfold left_tokens, right_tokens, pair_tokens. cbn [f f_lc f_lk f_rc f_rk zip_with concat tokens]. by rewrite <- !app_assoc. }
  rewrite Htok in Hs |- *.
  assert (lk rp = (Some p, head RL)) as Hlkr.
  { unfold lk. rewrite (lk_of_eq _ (LL ++ [p]) rp RL Hnd) by (by rewrite <- app_assoc). by rewrite last_snoc. }
  destruct (merge_leaves T LL p kvs rp rkv RL fp lks kR rks lc rc ctx) as (T1 & T2 & T3 & HT1 & HT2 & Hpar & HT3 & Hb); try done.
  - eapply owns_perm; [|exact Ho]. fold lk. unfold f. perm_cells.
  - lia.
  - rewrite length_app. lia.
  - destruct ctx; lia.
  - rewrite HR. by apply (ptr_plug_same ctx).
  - exists T3. split; [|done]. unfold mergeWithRightLeaf.
    erewrite (lookup_in _ _ rp); [|exact Ho|]. 2:{ apply elem_of_app. right. apply (sibling_in lk fp _ _ _ _ _ _ (Leaf rp rkv)). set_solver. }
    cbn [mbind option_bind top leaf_node keys values next parent]. rewrite Hlkr. cbn [snd]. rewrite HT1. cbn [mbind option_bind]. rewrite HT2. cbn [mbind option_bind].
    destruct (nodes T2 !! p) as [n2|]; [|done]. cbn in Hpar |- *. injection Hpar as ->. cbn. rewrite Nat.add_1_r. exact HT3.
Qed.

(** ** Rebalancing a leaf *)

Lemma child_cell lk fp ts x : x ∈ ts -> (ptr x, top lk (Some fp) x) ∈ forest lk fp ts.
Proof. intros (t1 & t2 & ->)%list_elem_of_split. rewrite forest_app, forest_cons. apply elem_of_app. right. left. Qed.

Lemma siblings_spec T lvs f ctx p kvs : at_leaf T lvs f ctx p kvs ->
  exists n, nodes T !! p = Some n /\ parent n = Some (f_ptr f) /\
    true_sibling (prev n) (parent n) T = Some (sibling_info mn (last (f_lc f))) /\
    true_sibling (next n) (parent n) T = Some (sibling_info mn (head (f_rc f))).
Proof.
  intros Ha. pose proof (at_leaf_nodup _ _ _ _ _ _ Ha) as Hnd. pose proof Ha as [Ho Hlv (Hl & Hr & Hsl & Hsr & _ & _) _ _ HM].
  set (lk := lk_of lvs) in *. exists (leaf_node lk p (Some (f_ptr f)) kvs). split; [eapply lookup_in; [exact Ho|left]|]. split; [done|].
  set (nb := inner_node (par_of ctx) (f_lk f ++ f_rk f) ((ptr <$> f_lc f) ++ p :: (ptr <$> f_rc f))).
  set (cs := (p, leaf_node lk p (Some (f_ptr f)) kvs) :: forest lk (f_ptr f) (f_lc f ++ f_rc f)).
  assert (owns T ((f_ptr f, nb) :: cs ++ ctx_cells lk ctx (f_ptr f))) as Ho'.
  { eapply owns_perm; [|exact Ho]. unfold cs, nb. cbn [ctx_cells]. rewrite cells_Leaf. solve_Permutation. }
  assert (lk p = (last (left_leaves (f :: ctx)), head (right_leaves (f :: ctx)))) as Hlk by (by apply lk_of_eq).
  cbn [left_leaves right_leaves] in Hlk. rewrite (leaves_of_leaves mn mx _ Hsl), (leaves_of_leaves mn mx _ Hsr) in Hlk.
  cbn [leaf_node prev next parent]. rewrite Hlk. cbn [fst snd]. split.
  - rewrite last_app, fmap_last. rewrite <- (true_sibling_spec mn mx Hmx Hmn lk T (f_ptr f) ctx nb cs (last (f_lc f)) (last (left_leaves ctx)) HM Ho').
    + f_equal. by destruct (last (f_lc f)).
    + intros x Hx. apply last_Some in Hx as [l' Hx]. rewrite Hx in Hsl. apply Forall_app in Hsl as [_ Hx']. rewrite Forall_singleton in Hx'.
      split; [done|]. right. apply child_cell. rewrite Hx. set_solver.
    + intros q Hq. apply last_Some in Hq as [l' ->]. set_solver.
  - rewrite <- (true_sibling_spec mn mx Hmx Hmn lk T (f_ptr f) ctx nb cs (head (f_rc f)) (head (right_leaves ctx)) HM Ho').
    + f_equal. by destruct (f_rc f).
    + intros x Hx. destruct (f_rc f) as [|x' rc]; [done|]. injection Hx as ->. apply Forall_cons in Hsr as [? _].
      split; [done|]. right. apply child_cell. set_solver.
    + intros q Hq. destruct (right_leaves ctx); [done|]. injection Hq as ->. set_solver.
Qed.

Lemma rebalanceLeaf_spec T lvs f ctx p kvs : at_leaf T lvs f ctx p kvs -> S (length kvs) = mn ->
  exists T', rebalanceLeaf p T = Some T' /\ rebuilt T T' (ctx_left (f :: ctx) ++ (entry <$> kvs) ++ ctx_right (f :: ctx)).
Proof.
  intros Ha Hk. destruct (siblings_spec _ _ _ _ _ _ Ha) as (n & Hn & Hpar & HL & HR). pose proof Ha as [Ho _ (Hl & Hr & Hsl & Hsr & Hsz & _) _ _ _].
  unfold rebalanceLeaf. pose proof (findNodeIndex_spec (lk_of lvs) T f ctx (Leaf p kvs) Ho) as Hidx. cbn [ptr] in Hidx. rewrite Hidx.
  cbn [mbind option_bind]. rewrite Hn. cbn [mbind option_bind]. rewrite HL, HR. cbn [mbind option_bind]. clear Hidx HL HR Hpar Hn n Ho.
  destruct f as [fp lks lc rks rc]. cbn [f_ptr f_lk f_lc f_rk f_rc] in *.
  destruct (snoc_cases lks lc Hl) as [[-> ->]|(lks' & kL & lc' & L & -> & -> & Hl')].
  - cbn [last sibling_info length]. destruct rc as [|R rc]; destruct rks as [|kR rks]; try done; [simpl in *; destruct ctx; lia|].
    apply Forall_cons in Hsr as [HR _]. destruct (sub_leaf mn mx R HR) as (rp & rkv & -> & Hrkv). cbn [head sibling_info].
    destruct (Nat.ltb_spec mn (length rkv)).
    + destruct rkv as [|[mk mv] [|[k2 v2] rkv]]; simpl length in *; [lia..|].
      apply (borrow_right_leaf T lvs fp [] kR rks [] rp mk mv k2 v2 rkv rc ctx p kvs Ha); lia.
    + by apply (merge_right_leaf T lvs fp [] kR rks [] rp rkv rc ctx p kvs Ha).
  - rewrite last_snoc. apply Forall_app in Hsl as [_ HL]. rewrite Forall_singleton in HL. destruct (sub_leaf mn mx L HL) as (lp & lkv & -> & Hlkv).
    cbn [sibling_info]. assert (length (lc' ++ [Leaf lp lkv]) = S (length lks')) as Hlc by (rewrite length_app; simpl; lia).
    destruct (Nat.ltb_spec mn (length lkv)) as [Hlt|Hge].
    + destruct lkv as [|[mk mv] lkv _] using rev_ind; [simpl in *; lia|]. rewrite length_app in Hlt. simpl in Hlt. rewrite Hlc.
      apply (borrow_left_leaf T lvs fp lks' kL rks lc' lp lkv mk mv rc ctx p kvs Ha); lia.
    + assert (exists T', mergeWithLeftLeaf p lp (length (lc' ++ [Leaf lp lkv])) T = Some T' /\ rebuilt T T' (ctx_left ({| f_ptr := fp; f_lk := lks' ++ [kL];
        f_lc := lc' ++ [Leaf lp lkv]; f_rk := rks; f_rc := rc |} :: ctx) ++ (entry <$> kvs) ++ ctx_right ({| f_ptr := fp; f_lk := lks' ++ [kL];
        f_lc := lc' ++ [Leaf lp lkv]; f_rk := rks; f_rc := rc |} :: ctx))) as Hmerge.
      { rewrite Hlc. by apply (merge_left_leaf T lvs fp lks' kL rks lc' lp lkv rc ctx p kvs Ha). }
      destruct rc as [|R rc]; destruct rks as [|kR rks]; try done. apply Forall_cons in Hsr as [HR _].
      destruct (sub_leaf mn mx R HR) as (rp & rkv & -> & Hrkv). cbn [head sibling_info]. destruct (Nat.ltb_spec mn (length rkv)); [|done].
      destruct rkv as [|[mk mv] [|[k2 v2] rkv]]; simpl length in *; [lia..|]. rewrite <- Hl.
      apply (borrow_right_leaf T lvs fp (lks' ++ [kL]) kR rks (lc' ++ [Leaf lp lkv]) rp mk mv k2 v2 rkv rc ctx p kvs Ha); lia.
Qed.

(** ** The separator in front of a leaf *)

Lemma left_tokens_snoc fp lks k lc x rks rc : length lks = length lc ->
  left_tokens {| f_ptr := fp; f_lk := lks ++ [k]; f_lc := lc ++ [x]; f_rk := rks; f_rc := rc |} =
  concat (zip_with (fun t k => tokens t ++ [Sep k]) lc lks) ++ tokens x ++ [Sep k].
Proof. intros Hl. unfold left_tokens. cbn [f_lc f_lk]. rewrite zip_with_app by done. cbn [zip_with]. by rewrite concat_snoc. Qed.

Lemma update_separator T lvs fp lks kL lc lp lkv rks rc ctx p k v kvs :
  at_leaf T lvs {| f_ptr := fp; f_lk := lks ++ [kL]; f_lc := lc ++ [Leaf lp lkv]; f_rk := rks; f_rc := rc |} ctx p ((k, v) :: kvs) ->
  exists T', set_key fp (length lks) k T = Some T' /\ same_scalars T T' /\
    at_leaf T' lvs {| f_ptr := fp; f_lk := lks ++ [k]; f_lc := lc ++ [Leaf lp lkv]; f_rk := rks; f_rc := rc |} ctx p ((k, v) :: kvs).
Proof.
  intros [Ho Hlv (Hl & Hr & Hsl & Hsr & Hsz & Hc) Hs HR HM]. cbn [f_ptr f_lk f_lc f_rk f_rc] in *. set (lk := lk_of lvs) in *.
  rewrite !length_app in Hl. rewrite !length_app in Hsz. simpl length in Hl, Hsz.
  set (f := Build_frame fp (lks ++ [kL]) (lc ++ [Leaf lp lkv]) rks rc) in *. set (f' := Build_frame fp (lks ++ [k]) (lc ++ [Leaf lp lkv]) rks rc).
  set (C := (ptr <$> lc ++ [Leaf lp lkv]) ++ p :: (ptr <$> rc)).
  set (rest := cells lk (Some fp) (Leaf p ((k, v) :: kvs)) ++ forest lk fp ((lc ++ [Leaf lp lkv]) ++ rc) ++ ctx_cells lk ctx fp).
  assert (owns T ((fp, inner_node (par_of ctx) ((lks ++ [kL]) ++ rks) C) :: rest)) as Ho'.
  { eapply owns_perm; [|exact Ho]. unfold f, rest, C. perm_cells. }
  destruct (set_key_nth T _ 0 fp _ (length lks) k Ho' eq_refl) as (T' & HT' & Ho2 & Hs2).
  { cbn. rewrite !length_app. simpl. lia. }
  exists T'. split; [done|]. split; [done|]. destruct Hs2 as (HR2 & HM2 & _). split.
  - cbn [insert list_insert] in Ho2. rewrite <- !app_assoc in Ho2. cbn [app] in Ho2. rewrite inner_set_key in Ho2.
    eapply owns_perm; [|exact Ho2]. unfold f', rest, C. fold lk. perm_cells.
  - done.
  - cbn [f' ctx_ok f_lk f_lc f_rk f_rc]. rewrite !length_app. simpl length. split_and!; try done; lia.
  - fold f'. change (ctx_right (f' :: ctx)) with (ctx_right (f :: ctx)). cbn [ctx_left] in *. unfold f, f' in *.
    rewrite left_tokens_snoc in Hs |- * by lia. cbn [tokens] in *. rewrite fmap_cons, <- !app_assoc in *. cbn [app] in *.
    rewrite (app_assoc (ctx_left ctx)) in Hs |- *. apply sorted_insert_sep.
    + apply Forall_app in Hsl as [_ HL]. rewrite Forall_singleton in HL. cbn [sub] in HL. destruct lkv; simpl in *; [lia|done].
    + rewrite app_assoc in Hs |- *. by apply (StronglySorted_drop_middle _ _ [Sep kL]).
  - rewrite HR2, HR. by apply (ptr_plug_same ctx).
  - by rewrite HM2.
Qed.

Lemma updateSeparator_spec T lvs f ctx p kvs : at_leaf T lvs f ctx p kvs ->
  exists T' f', updateParentSeparatorAfterLeafDelete p T = Some T' /\ same_scalars T T' /\ at_leaf T' lvs f' ctx p kvs /\
    entries (ctx_left (f' :: ctx) ++ (entry <$> kvs) ++ ctx_right (f' :: ctx)) = entries (ctx_left (f :: ctx) ++ (entry <$> kvs) ++ ctx_right (f :: ctx)).
Proof.
  intros Ha. pose proof Ha as [Ho _ (Hl & _ & Hsl & _) _ _ _]. unfold updateParentSeparatorAfterLeafDelete.
  erewrite (lookup_in _ _ p); [|exact Ho|left]. cbn [mbind option_bind top leaf_node parent keys].
  pose proof (findNodeIndex_spec (lk_of lvs) T f ctx (Leaf p kvs) Ho) as Hidx. cbn [ptr] in Hidx. rewrite Hidx. cbn [mbind option_bind]. clear Ho Hidx.
  destruct f as [fp lks lc rks rc]. cbn [f_ptr f_lk f_lc] in *.
  destruct (snoc_cases lks lc Hl) as [[-> ->]|(lks' & kL & lc' & L & -> & -> & Hl')]; [by eexists T, _|].
  destruct kvs as [|[k v] kvs]; [eexists T, _; split; [by rewrite length_app, Nat.add_1_r|by split_and!]|].
  apply Forall_app in Hsl as [_ HL]. rewrite Forall_singleton in HL. destruct (sub_leaf mn mx L HL) as (lp & lkv & -> & _).
  destruct (update_separator _ _ _ _ _ _ _ _ _ _ _ _ _ _ _ Ha) as (T' & HT' & HS & Ha').
  eexists T', _. split; [|split; [done|split; [exact Ha'|]]].
  - rewrite length_app, Nat.add_1_r, <- Hl'. exact HT'.
  - cbn [ctx_left]. rewrite !left_tokens_snoc by done. change (ctx_right (?f :: ctx)) with (concat (zip_with (fun t k => Sep k :: tokens t) rc rks) ++ ctx_right ctx).
    rewrite !entries_app. done.
Qed.
End cases.
