(* ===== verification/BPlusChain.v ===== *)
(** The leaves of the B+ tree in the order of their chain: scanning a range and
    moving an iterator walk through the entries of the tree. *)

From stdpp Require Import base tactics option list gmap sets strings sorting.
From Stdlib Require Import ZArith Lia.
From S2P Require Import Prelude Ordered BPlus BPlusShape BPlusInsert BPlusDelete BPlusDeleteLeaf.

#[local] Open Scope nat_scope.

#[local] Notation leaf_entries := (nat * list (string * string))%type.

Fixpoint leaf_list (t : tree) : list leaf_entries :=
  match t with Leaf p kvs => [(p, kvs)] | Node _ _ ts => concat (leaf_list <$> ts) end.

Lemma leaf_list_leaves t : (leaf_list t).*1 = leaves t.
Proof.
  induction t as [p kvs|p ks ts IH] using tree_induction; [done|]. cbn [leaf_list leaves].
  induction IH as [|t ts Ht _ IHt]; [done|]. rewrite !fmap_cons, !concat_cons, fmap_app. by f_equal.
Qed.

Lemma entries_concat tss : entries (concat tss) = concat (entries <$> tss).
Proof. induction tss as [|l tss IH]; [done|]. rewrite fmap_cons, !concat_cons, entries_app. by f_equal. Qed.

Lemma entries_inter ks tss : entries (inter ks tss) = concat (entries <$> tss).
Proof.
  revert ks. induction tss as [|l tss IH]; intros [|k ks]; try done; cbn [inter]; rewrite entries_app, fmap_cons, concat_cons; f_equal.
  - apply entries_concat.
  - apply IH.
Qed.

Lemma leaf_list_entries t : concat (leaf_list t).*2 = entries (tokens t).
Proof.
  induction t as [p kvs|p ks ts IH] using tree_induction; [cbn [leaf_list tokens]; rewrite entries_entry; cbn; by rewrite app_nil_r|].
  cbn [leaf_list tokens]. rewrite entries_inter.
  induction IH as [|t ts Ht _ IHt]; [done|]. rewrite !fmap_cons, !concat_cons, fmap_app, concat_app. by f_equal.
Qed.

Lemma leaf_list_cells lk par t p kvs : (p, kvs) ∈ leaf_list t -> exists par', (p, leaf_node lk p par' kvs) ∈ cells lk par t.
Proof.
  revert par. induction t as [q kvs'|q ks ts IH] using tree_induction; intros par Hin.
  - apply list_elem_of_singleton in Hin. simplify_eq. exists par. left.
  - rewrite cells_Node. cbn [leaf_list] in Hin. setoid_rewrite elem_of_cons. induction IH as [|t ts Ht _ IHt]; [by apply elem_of_nil in Hin|].
    rewrite fmap_cons, concat_cons in Hin. rewrite forest_cons. setoid_rewrite elem_of_app. apply elem_of_app in Hin as [Hin|Hin].
    + destruct (Ht (Some q) Hin) as (par' & ?). exists par'. auto.
    + destruct (IHt Hin) as (par' & [?|?]); [done|]. exists par'. auto.
Qed.

(** The leaves around a place of the tree. *)
Lemma leaf_list_plug mn mx n ctx t : ctx_ok mn mx n ctx ->
  exists L1 L2, leaf_list (plug ctx t) = L1 ++ leaf_list t ++ L2 /\
    concat L1.*2 = entries (ctx_left ctx) /\ concat L2.*2 = entries (ctx_right ctx).
Proof.
  revert n t. induction ctx as [|f ctx IH]; intros n t Hok; [exists [], []; split_and!; [cbn; by rewrite app_nil_r|done..]|].
  destruct Hok as (Hl & Hr & _ & _ & _ & Hok). destruct (IH _ (fill f t) Hok) as (L1 & L2 & HL & H1 & H2).
  exists (L1 ++ concat (leaf_list <$> f_lc f)), (concat (leaf_list <$> f_rc f) ++ L2). split_and!.
  - change (plug (f :: ctx) t) with (plug ctx (fill f t)). rewrite HL. cbn [fill leaf_list].
    rewrite fmap_app, fmap_cons, concat_app, concat_cons. by rewrite <- !app_assoc.
  - cbn [ctx_left]. rewrite fmap_app, concat_app, entries_app, H1. f_equal. unfold left_tokens. rewrite entries_concat. clear -Hl.
    revert Hl. generalize (f_lk f). induction (f_lc f) as [|x lc IH]; intros [|k lk] Hl; try done. cbn [zip_with].
    rewrite !fmap_cons, !concat_cons, fmap_app, concat_app, entries_app, leaf_list_entries, app_nil_r. f_equal. apply IH. by injection Hl.
  - cbn [ctx_right]. rewrite fmap_app, concat_app, entries_app, H2. f_equal. unfold right_tokens. rewrite entries_concat. clear -Hr.
    revert Hr. generalize (f_rk f). induction (f_rc f) as [|x rc IH]; intros [|k rk] Hr; try done. cbn [zip_with].
    rewrite !fmap_cons, !concat_cons, fmap_app, concat_app, leaf_list_entries. f_equal. apply IH. by injection Hr.
Qed.

(** ** What the heap holds for a leaf *)

Record leaf_at (T : BPlusTree) (L1 : list leaf_entries) (p : nat) (kvs : list (string * string)) (L2 : list leaf_entries) (n : node) : Prop := {
  la_node : nodes T !! p = Some n;
  la_keys : keys n = kvs.*1;
  la_values : values n = kvs.*2;
  la_prev : prev n = fst <$> last L1;
  la_next : next n = fst <$> head L2;
}.

(** The item a scan returns for an entry. *)
Definition item (kv : string * string) : KVItem := {| Key := kv.1; Val := kv.2 |}.

Lemma scan_leaf_spec last kvs : StronglySorted key_lt kvs.*1 ->
  scan_leaf kvs.*1 kvs.*2 last = Some (item <$> filter (fun kv => ~ key_lt last kv.1) kvs, bool_decide (Exists (fun kv => key_lt last kv.1) kvs)).
Proof.
  induction kvs as [|[k v] kvs IH]; intros Hs; [done|]. rewrite !fmap_cons in *. cbn [scan_leaf fst snd]. apply StronglySorted_inv in Hs as [Hs Hk].
  unfold lt. destruct (bool_decide_reflect (key_lt last k)) as [Hlt|Hlt].
  - assert (filter (fun kv => ~ key_lt last kv.1) ((k, v) :: kvs) = []) as ->.
    { apply list_filter_none. constructor; [by intros H; apply H|]. rewrite Forall_fmap in Hk. eapply Forall_impl; [exact Hk|].
      intros kv Hkv H. apply H. by eapply key_lt_trans. }
    rewrite bool_decide_true by (by left). done.
  - rewrite IH by done. cbn [mbind option_bind]. rewrite filter_cons_True by done. rewrite fmap_cons. do 2 f_equal. apply bool_decide_ext.
    rewrite Exists_cons. naive_solver.
Qed.

(** Behind a key beyond the range there is nothing in range. *)
Lemma beyond_last last (l1 l2 : list (string * string)) :
  StronglySorted key_lt (l1 ++ l2).*1 -> Exists (fun kv => key_lt last kv.1) l1 -> Forall (fun kv => ~ ~ key_lt last kv.1) l2.
Proof.
  rewrite fmap_app. intros (Hs & _ & _)%StronglySorted_app (kv & Hin & Hlt)%Exists_exists. apply Forall_forall. intros kv' Hin' H. apply H.
  eapply key_lt_trans; [exact Hlt|]. apply Hs; apply list_elem_of_fmap; eauto.
Qed.

Lemma filter_ext_Forall {A} (P Q : A -> Prop) `{!forall x, Decision (P x), !forall x, Decision (Q x)} l :
  Forall (fun x => P x <-> Q x) l -> filter P l = filter Q l.
Proof. induction 1 as [|x l Hx _ IH]; [done|]. rewrite !filter_cons, IH. by repeat case_decide; try tauto. Qed.

Section chain.
Context (mn mx : nat) (T : BPlusTree) (t : tree).
Hypothesis Hmn : 1 <= mn.
Hypothesis Hr : represents mn mx T t.

Lemma chain_leaf L1 p kvs L2 : leaf_list t = L1 ++ (p, kvs) :: L2 -> exists n, leaf_at T L1 p kvs L2 n.
Proof.
  intros HL. destruct (leaf_list_cells (lk_of (leaves t)) None t p kvs) as (par & Hin); [rewrite HL; set_solver|].
  assert (lk_of (leaves t) p = (last L1.*1, head L2.*1)) as Hlk.
  { apply lk_of_eq; [eapply (owns_leaves _ _ None t []); rewrite app_nil_r; apply Hr|]. by rewrite <- leaf_list_leaves, HL, fmap_app, fmap_cons. }
  eexists. split; [eapply lookup_in; [apply Hr|exact Hin]|done|done| |]; cbn [leaf_node prev next]; rewrite Hlk; cbn [fst snd].
  - apply fmap_last.
  - by destruct L2.
Qed.

(** Only the empty tree has an empty leaf. *)
Lemma sub_leaves_full n x : sub mn mx n x -> Forall (fun l : leaf_entries => l.2 <> []) (leaf_list x).
Proof.
  revert n. induction x as [p kvs|p ks ts IH] using tree_induction; intros [|n] Hx; try done.
  - cbn [sub leaf_list] in *. constructor; [|done]. destruct kvs; simpl in *; [lia|done].
  - destruct Hx as (_ & _ & Hx). cbn [leaf_list]. induction IH as [|y ts Hy _ IHts]; [constructor|]. apply Forall_cons in Hx as [Hx1 Hx2].
    rewrite fmap_cons, concat_cons. apply Forall_app. split; [by eapply Hy|by apply IHts].
Qed.

Lemma leaves_full : entries (tokens t) <> [] -> Forall (fun l : leaf_entries => l.2 <> []) (leaf_list t).
Proof.
  intros Hne. destruct (rep_shape _ _ _ _ Hr) as [n Hn]. destruct t as [p kvs|p ks ts].
  - cbn [tokens] in Hne. rewrite entries_entry in Hne. by repeat constructor.
  - destruct n as [|n]; [done|]. destruct Hn as (_ & _ & Hs). cbn [leaf_list]. clear -Hs Hmn.
    induction Hs as [|x ts Hx _ IH]; [constructor|]. rewrite fmap_cons, concat_cons. apply Forall_app. split; [by eapply sub_leaves_full|done].
Qed.

Lemma tree_entries_sorted : StronglySorted key_lt (entries (tokens t)).*1.
Proof.
  pose proof (rep_sorted _ _ _ _ Hr) as Hs. induction Hs as [|a l _ IH Ha]; [constructor|]. destruct a as [k v|s]; [|done].
  cbn. constructor; [done|]. clear -Ha. induction Ha as [|[k' v'|s] l Hb _ IH]; [constructor| |done]. cbn. by constructor.
Qed.

Lemma leaf_list_length : length (leaf_list t) <= fresh T.
Proof.
  rewrite <- (length_fmap fst (leaf_list t)), leaf_list_leaves. etrans; [|exact (owns_length _ _ (rep_owns _ _ _ _ Hr))].
  rewrite <- (length_fmap fst (cells _ _ _)). apply sublist_length, sublist_leaves.
Qed.

(** ** Range scans *)

Lemma scan_leaves_spec last L1 p kvs L2 i fuel : leaf_list t = L1 ++ (p, kvs) :: L2 -> length L2 < fuel ->
  scan_leaves fuel T (Some p) i last = Some (item <$> filter (fun kv => ~ key_lt last kv.1) (drop i kvs ++ concat L2.*2)).
Proof.
  revert L1 p kvs i fuel. induction L2 as [|[q kvs2] L2 IH]; intros L1 p kvs i [|fuel] HL Hf; try (simpl in Hf; lia);
    destruct (chain_leaf L1 p kvs _ HL) as [n [Hn Hk Hv _ Hnx]]; cbn [scan_leaves]; rewrite Hn; cbn [mbind option_bind];
    rewrite Hk, Hv, <- !fmap_drop; pose proof tree_entries_sorted as Hs; rewrite <- leaf_list_entries, HL in Hs;
    rewrite !fmap_app, fmap_cons, concat_app, concat_cons in Hs; cbn [snd] in Hs; rewrite !fmap_app in Hs;
    apply StronglySorted_app in Hs as (_ & _ & Hs); rewrite <- (take_drop i kvs), fmap_app, <- app_assoc in Hs;
    apply StronglySorted_app in Hs as (_ & _ & Hs); rewrite <- fmap_app in Hs; rewrite scan_leaf_spec
      by (rewrite fmap_app in Hs; by apply StronglySorted_app in Hs as (_ & Hs & _)); cbn [mbind option_bind]; rewrite filter_app.
  - rewrite Hnx. cbn [fmap option_fmap option_map head list_fmap concat] in *. rewrite filter_nil, app_nil_r. case_bool_decide; [done|].
    destruct fuel; cbn [scan_leaves mbind option_bind]; by rewrite app_nil_r.
  - case_bool_decide as Hex.
    + f_equal. f_equal. rewrite (list_filter_none _ (concat _)); [by rewrite app_nil_r|]. by eapply beyond_last.
    + rewrite Hnx. cbn [head fmap option_fmap option_map fst]. rewrite (IH (L1 ++ [(p, kvs)]) q kvs2 0 fuel).
      * cbn [mbind option_bind]. by rewrite drop_0, fmap_app.
      * by rewrite <- app_assoc.
      * simpl in Hf. lia.
Qed.

(** The leaf of a key, its place in the chain and the place of the key in it. *)
Lemma findLeaf_chain key : exists L1 p kvs L2 l1 l2 n,
  findLeaf T key = Some p /\ leaf_list t = L1 ++ (p, kvs) :: L2 /\ leaf_at T L1 p kvs L2 n /\ kvs = l1 ++ l2 /\
  scan (fun k => lt k key) (keys n) = length l1 /\
  Forall (fun kv => key_lt kv.1 key) (concat L1.*2 ++ l1) /\ Forall (fun kv => ~ key_lt kv.1 key) (l2 ++ concat L2.*2).
Proof.
  destruct (findLeaf_spec mn mx T t key Hr) as (ctx & p & kvs & Hf & Ht & Hp & Hb & Ha).
  destruct (leaf_list_plug mn mx 0 ctx (Leaf p kvs) (proj1 Hp)) as (L1 & L2 & HL & H1 & H2). rewrite <- Ht in HL.
  destruct (chain_leaf L1 p kvs L2 HL) as [n Hn].
  destruct (leaf_position key kvs) as (l1 & l2 & Hkvs & Hsc & Hl1 & Hl2).
  { eapply leaf_sorted. pose proof (rep_sorted _ _ _ _ Hr) as Hs. rewrite Ht in Hs. erewrite tokens_at in Hs by done. exact Hs. }
  exists L1, p, kvs, L2, l1, l2, n. split_and!; try done.
  - by rewrite (la_keys _ _ _ _ _ _ Hn).
  - rewrite H1. apply Forall_app. split; [by apply entries_before|done].
  - rewrite H2. apply Forall_app. split; [|eapply Forall_impl; [exact (entries_after _ _ Ha)|]; intros kv; apply key_lt_asym].
    destruct l2 as [|[k v] l2]; [done|]. destruct Hl2 as [Hk Hl2]. assert (~ key_lt k key) as Hk' by (destruct Hk as [->|?]; [apply key_lt_irrefl|by apply key_lt_asym]).
    constructor; [done|]. eapply Forall_impl; [exact Hl2|]. intros kv Hkv Hlt. apply Hk'. exact (key_lt_trans _ _ _ Hkv Hlt).
Qed.

Lemma RangeScan_spec start last : ~ key_lt last start ->
  RangeScan T start last = Some (Ok (item <$> filter (fun kv => ~ key_lt kv.1 start /\ ~ key_lt last kv.1) (entries (tokens t)))).
Proof.
  intros Hlt. unfold RangeScan, lt at 1. rewrite bool_decide_false by done. destruct (Z.eqb_spec (count T) 0) as [E|_].
  { rewrite (rep_count _ _ _ _ Hr) in E. destruct (entries (tokens t)); [done|]. simpl in E. lia. }
  destruct (findLeaf_chain start) as (L1 & p & kvs & L2 & l1 & l2 & n & Hf & HL & Hn & Hkvs & Hsc & Hbefore & Hafter).
  rewrite Hf. cbn [mbind option_bind]. rewrite (la_node _ _ _ _ _ _ Hn). cbn [mbind option_bind]. rewrite Hsc.
  rewrite (scan_leaves_spec last L1 p kvs L2 (length l1) (fresh T) HL).
  2:{ pose proof leaf_list_length as Hlen. rewrite HL, length_app in Hlen. simpl in Hlen. lia. }
  cbn [mbind option_bind]. do 3 f_equal. rewrite <- leaf_list_entries, HL, fmap_app, fmap_cons, concat_app, concat_cons. cbn [snd].
  rewrite Hkvs, drop_app_length, <- app_assoc, app_assoc, (filter_app _ (concat _ ++ l1)). rewrite (list_filter_none _ (concat _ ++ l1)).
  - cbn [app]. apply filter_ext_Forall. eapply Forall_impl; [exact Hafter|]. intros kv Hkv. cbn in *. tauto.
  - eapply Forall_impl; [exact Hbefore|]. intros kv Hkv. cbn in *. tauto.
Qed.
End chain.
