(* ===== verification/BPlusMap.v ===== *)
(** [Delete] and [Search] of the B+ tree as a whole: what they do to its entries. *)

From stdpp Require Import base tactics option list gmap sets strings sorting.
From Stdlib Require Import ZArith Lia.
From S2P Require Import Prelude Ordered BPlus BPlusShape BPlusInsert BPlusDelete BPlusDeleteLeaf.

#[local] Open Scope nat_scope.

(** [l'] is [l] without [key], and [found] says whether it was there. *)
Definition del_entry (key : string) (found : bool) (l l' : list (string * string)) : Prop :=
  if found then exists l1 v l2, l = l1 ++ (key, v) :: l2 /\ l' = l1 ++ l2
  else key ∉ l.*1 /\ l' = l.

(** The index of a key in a leaf. *)
Lemma index_of_cases key (kvs : list (string * string)) :
  (index_of key kvs.*1 = None /\ key ∉ kvs.*1) \/
  exists l1 v l2, kvs = l1 ++ (key, v) :: l2 /\ index_of key kvs.*1 = Some (length l1).
Proof.
  unfold index_of. destruct (list_find (fun k => k = key) kvs.*1) as [[i k]|] eqn:E.
  - right. apply list_find_Some in E as (Hi & -> & _). apply list_lookup_fmap_Some in Hi as ([k v] & -> & Hi).
    exists (take i kvs), v, (drop (S i) kvs). split; [by rewrite take_drop_middle|]. apply lookup_lt_Some in Hi. rewrite length_take. cbn. f_equal. lia.
  - left. split; [done|]. apply list_find_None in E. rewrite Forall_forall in E. intros Hin. by apply (E key Hin).
Qed.

Lemma key_outside key l : Forall (fun kv : string * string => key_lt kv.1 key) l \/ Forall (fun kv => key_lt key kv.1) l -> key ∉ l.*1.
Proof.
  intros H ([k v] & -> & Hin)%list_elem_of_fmap. destruct H as [H|H]; rewrite Forall_forall in H; specialize (H _ Hin); by apply key_lt_irrefl in H.
Qed.

Lemma empty_tree mn mx T t : represents mn mx T t -> count T = 0%Z -> entries (tokens t) = [].
Proof. intros Hr Hc. rewrite (rep_count _ _ _ _ Hr) in Hc. destruct (entries (tokens t)); [done|]. simpl in Hc. lia. Qed.

Section top.
Context (mn mx : nat).
Hypothesis Hmx : mx = 2 * mn.
Hypothesis Hmn : 1 <= mn.

(** ** Deletion *)

Lemma delete_leaf_node lk p par l1 k v l2 :
  let n := leaf_node lk p par (l1 ++ (k, v) :: l2) in
  n <| keys := delete_at (length l1) (keys n) |> <| values := delete_at (length l1) (values n) |> = leaf_node lk p par (l1 ++ l2).
Proof.
  cbn zeta. apply leaf_node_keys; cbn [leaf_node keys values].
  - rewrite !fmap_app, fmap_cons, <- (length_fmap fst l1). apply delete_at_app.
  - rewrite !fmap_app, fmap_cons, <- (length_fmap snd l1). apply delete_at_app.
Qed.

Lemma deleteFromLeaf_spec T ctx p l1 key v l2 :
  represents mn mx T (plug ctx (Leaf p (l1 ++ (key, v) :: l2))) -> place_ok mn mx 0 ctx (Leaf p (l1 ++ (key, v) :: l2)) ->
  exists T', deleteFromLeaf p (length l1) T = Some T' /\ rebuilt mn mx T T' (ctx_left ctx ++ (entry <$> (l1 ++ l2)) ++ ctx_right ctx).
Proof.
  intros Hr [Hc Hsz]. pose proof (owns_at _ _ _ _ _ Hr) as Ho. pose proof (rep_sorted _ _ _ _ Hr) as Hs. erewrite tokens_plug in Hs by done.
  rewrite leaves_plug in Ho. cbn [leaves app tokens ptr] in Ho, Hs. set (lvs := left_leaves ctx ++ p :: right_leaves ctx) in *.
  rewrite cells_Leaf in Ho. cbn [app] in Ho. unfold deleteFromLeaf. rewrite (modify_owns _ _ _ _ _ Ho). cbn [mbind option_bind].
  rewrite delete_leaf_node. set (T1 := put p _ T). set (kvs := l1 ++ l2) in *.
  assert (owns T1 (cells (lk_of lvs) (par_of ctx) (Leaf p kvs) ++ ctx_cells (lk_of lvs) ctx p)) as Ho1 by exact (owns_put _ _ _ _ _ Ho).
  assert (StronglySorted token_lt (ctx_left ctx ++ (entry <$> kvs) ++ ctx_right ctx)) as Hs1.
  { unfold kvs. rewrite fmap_app in Hs |- *. rewrite fmap_cons, <- !app_assoc in Hs. rewrite <- app_assoc. rewrite app_assoc in Hs |- *.
    by apply (StronglySorted_drop_middle _ _ [entry (key, v)]). }
  assert (length (l1 ++ (key, v) :: l2) = S (length kvs)) as Hlen by (unfold kvs; rewrite !length_app; simpl; lia).
  change (root T1) with (root T). destruct ctx as [|f ctx].
  - rewrite (rep_root _ _ _ _ Hr). cbn [plug foldl ptr]. rewrite Nat.eqb_refl. exists T1. split; [done|].
    eexists _, lvs. split; [|split; [exact Hs1|done]]. split; [done|]. split; [done|]. exists 0, (Leaf p kvs). split_and!.
    + rewrite <- (app_nil_r (cells _ _ _)). exact Ho1.
    + change (root T1) with (root T). apply (rep_root _ _ _ _ Hr).
    + cbn [root_ok] in *. lia.
    + cbn. by rewrite app_nil_r.
    + done.
  - destruct (Nat.eqb_spec p (root T)) as [E|_].
    { exfalso. eapply (root_above _ T1 [] f ctx p); [exact Ho1|]. rewrite E at 1. rewrite (rep_root _ _ _ _ Hr). by apply ptr_plug_same. }
    assert (at_leaf mn mx T1 lvs f ctx p kvs) as Ha.
    { split; try done; [|apply Hr]. change (root T1) with (root T). rewrite (rep_root _ _ _ _ Hr). by apply ptr_plug_same. }
    destruct (updateSeparator_spec mn mx Hmx Hmn _ _ _ _ _ _ Ha) as (T2 & f' & -> & (HR2 & HM2 & HC2 & HF2) & Ha' & He). cbn [mbind option_bind].
    erewrite (lookup_in _ _ p); [|apply (al_owns _ _ _ _ _ _ _ _ Ha')|left]. cbn [mbind option_bind top leaf_node keys].
    rewrite (minKeys_mn mn mx Hmx Hmn) by apply Ha'. unfold len. rewrite length_fmap.
    assert (exists T', (if (Z.of_nat (length kvs) <? Z.of_nat mn)%Z then rebalanceLeaf p T2 else Some T2) = Some T' /\
      rebuilt mn mx T2 T' (ctx_left (f' :: ctx) ++ (entry <$> kvs) ++ ctx_right (f' :: ctx))) as (T' & -> & toks & lvs' & (HM' & HC' & Hb) & Hs' & He').
    { destruct (Z.ltb_spec (Z.of_nat (length kvs)) (Z.of_nat mn)).
      - apply (rebalanceLeaf_spec mn mx Hmx Hmn T2 lvs f' ctx p kvs Ha'). cbn [sub] in Hsz. lia.
      - exists T2. split; [done|]. apply (settle_leaf mn mx T2 T2 lvs f' f' ctx p kvs kvs Ha'); try done; try apply Ha'.
        split; [apply Ha'|]. cbn [sub] in *. lia. }
    exists T'. split; [done|]. exists toks, lvs'. split; [|by rewrite He', He]. split; [by rewrite HM', HM2|]. split; [by rewrite HC', HC2|done].
Qed.

Lemma tree_Delete_spec T t key : represents mn mx T t ->
  exists b T' t', Delete key T = Some (b, T') /\ represents mn mx T' t' /\ del_entry key b (entries (tokens t)) (entries (tokens t')).
Proof.
  intros Hr. unfold Delete. destruct (Z.eqb_spec (count T) 0) as [E|_].
  { exists false, T, t. split_and!; [done..|]. rewrite (empty_tree _ _ _ _ Hr E). split; [|done]. apply not_elem_of_nil. }
  destruct (findLeaf_spec mn mx T t key Hr) as (ctx & p & kvs & Hf & -> & Hp & Hb & Ha).
  rewrite Hf. cbn [mbind option_bind]. pose proof (owns_at _ _ _ _ _ Hr) as Ho. rewrite cells_Leaf in Ho. cbn [app] in Ho.
  rewrite (owns_lookup _ _ _ _ Ho). cbn [mbind option_bind leaf_node keys].
  destruct (index_of_cases key kvs) as [[-> Hni]|(l1 & v & l2 & -> & ->)].
  - exists false, T. eexists. split; [done|]. split; [exact Hr|]. split; [|done]. erewrite tokens_at by done. cbn [tokens].
    rewrite !entries_app, entries_entry, !fmap_app, !elem_of_app. intros [H|[H|H]]; [|done|]; revert H; apply key_outside; auto using entries_before, entries_after.
  - destruct (deleteFromLeaf_spec T ctx p l1 key v l2 Hr Hp) as (T' & -> & toks & lvs' & (HM' & HC' & n & t' & Ho' & HR' & Hn & Ht & Hl) & Hs' & He).
    cbn [mbind option_bind]. exists true. eexists _, t'. split; [done|].
    assert (entries (tokens t') = (entries (ctx_left ctx) ++ l1) ++ (l2 ++ entries (ctx_right ctx))) as Hent.
    { rewrite Ht, He, !entries_app, entries_entry. by rewrite <- !app_assoc. }
    assert (entries (tokens (plug ctx (Leaf p (l1 ++ (key, v) :: l2)))) = (entries (ctx_left ctx) ++ l1) ++ (key, v) :: l2 ++ entries (ctx_right ctx)) as Hold.
    { erewrite tokens_at by done. cbn [tokens]. rewrite !entries_app, entries_entry. by rewrite <- !app_assoc. }
    split.
    + split; try done.
      * rewrite Hl. exact Ho'.
      * by eexists.
      * by rewrite Ht.
      * cbn. rewrite HM'. apply Hr.
      * cbn. rewrite HC', (rep_count _ _ _ _ Hr), Hold, Hent. rewrite !length_app. cbn [length]. rewrite length_app. lia.
    + rewrite Hold, Hent. by eexists _, _, _.
Qed.

(** ** Search *)

Lemma tree_Search_spec T t key : represents mn mx T t ->
  exists r, Search T key = Some r /\
    match r with Some v => (key, v) ∈ entries (tokens t) | None => key ∉ (entries (tokens t)).*1 end.
Proof.
  intros Hr. unfold Search. destruct (Z.eqb_spec (count T) 0) as [E|_].
  { exists None. split; [done|]. rewrite (empty_tree _ _ _ _ Hr E). apply not_elem_of_nil. }
  destruct (findLeaf_spec mn mx T t key Hr) as (ctx & p & kvs & Hf & -> & Hp & Hb & Ha).
  rewrite Hf. cbn [mbind option_bind]. pose proof (owns_at _ _ _ _ _ Hr) as Ho. rewrite cells_Leaf in Ho. cbn [app] in Ho.
  rewrite (owns_lookup _ _ _ _ Ho). cbn [mbind option_bind leaf_node keys values]. erewrite tokens_at by done. cbn [tokens].
  rewrite !entries_app, entries_entry.
  destruct (index_of_cases key kvs) as [[-> Hni]|(l1 & v & l2 & -> & ->)].
  - exists None. split; [done|]. rewrite !fmap_app, !elem_of_app. intros [H|[H|H]]; [|done|]; revert H; apply key_outside; auto using entries_before, entries_after.
  - exists (Some v). rewrite fmap_app, fmap_cons, <- (length_fmap snd l1), lookup_mid. split; [done|]. set_solver.
Qed.
End top.
