(* ===== verification/BPlusIter.v ===== *)
(** Iterators of the B+ tree: a valid iterator is a position in the sorted list
    of the entries. *)

From stdpp Require Import base tactics option list gmap sets strings sorting.
From Stdlib Require Import ZArith Lia.
From S2P Require Import Prelude Ordered BPlus BPlusShape BPlusInsert BPlusDelete BPlusDeleteLeaf BPlusChain BPlusMap.

#[local] Open Scope nat_scope.

(** The iterator stands on the entry [i] of the tree. *)
Definition at_pos (t : tree) (it : Iterator) (i : nat) : Prop :=
  exists L1 p kvs L2 j k v, leaf_list t = L1 ++ (p, kvs) :: L2 /\ kvs !! j = Some (k, v) /\ i = length (concat L1.*2) + j /\
    it = {| it_node := Some p; it_index := Z.of_nat j; it_key := k; it_valid := true |}.

Definition at_cursor (t : tree) (it : Iterator) (c : option nat) : Prop :=
  match c with Some i => at_pos t it i | None => it_valid it = false end.

(** The first entry whose key is not below [key]. *)
Definition seek (key : string) (l : list (string * string)) : option nat :=
  let i := length (filter (fun kv => key_lt kv.1 key) l) in if i <? length l then Some i else None.

Lemma seek_split key l1 l2 : Forall (fun kv : string * string => key_lt kv.1 key) l1 -> Forall (fun kv => ~ key_lt kv.1 key) l2 ->
  seek key (l1 ++ l2) = match l2 with [] => None | _ => Some (length l1) end.
Proof.
  intros H1 H2. unfold seek. rewrite filter_app, (list_filter_all _ _ H1), (list_filter_none _ _ H2), app_nil_r, length_app.
  destruct l2; simpl; destruct (Nat.ltb_spec (length l1) (length l1 + 0)); destruct (Nat.ltb_spec (length l1) (length l1 + S (length l2))) || idtac; done || lia.
Qed.

Lemma at_index_nat {A} (l : list A) j : at_index l (Z.of_nat j) = l !! j.
Proof. unfold at_index. destruct (Z.leb_spec 0 (Z.of_nat j)); [|lia]. by rewrite Nat2Z.id. Qed.

Section iter.
Context (mn mx : nat) (T : BPlusTree) (t : tree).
Hypothesis Hmn : 1 <= mn.
Hypothesis Hr : represents mn mx T t.

Lemma entries_around L1 p kvs L2 : leaf_list t = L1 ++ (p, kvs) :: L2 -> entries (tokens t) = concat L1.*2 ++ kvs ++ concat L2.*2.
Proof. intros HL. by rewrite <- leaf_list_entries, HL, fmap_app, fmap_cons, concat_app, concat_cons. Qed.

Lemma at_pos_lookup it i : at_pos t it i -> exists v, entries (tokens t) !! i = Some (it_key it, v).
Proof.
  intros (L1 & p & kvs & L2 & j & k & v & HL & Hj & -> & ->). exists v. rewrite (entries_around _ _ _ _ HL), lookup_app_r by lia.
  replace (_ + j - _) with j by lia. rewrite lookup_app_l by (by eapply lookup_lt_Some). done.
Qed.

(** A leaf with entries gives an iterator on any of them. *)
Lemma iterator_at_spec L1 p kvs L2 j k v : leaf_list t = L1 ++ (p, kvs) :: L2 -> kvs !! j = Some (k, v) ->
  exists it, iterator_at T p j = Some it /\ at_pos t it (length (concat L1.*2) + j).
Proof.
  intros HL Hj. destruct (chain_leaf mn mx T t Hmn Hr _ _ _ _ HL) as [n Hn]. unfold iterator_at. rewrite (la_node _ _ _ _ _ _ Hn). cbn [mbind option_bind].
  rewrite (la_keys _ _ _ _ _ _ Hn), list_lookup_fmap, Hj. cbn [fmap option_fmap option_map mbind option_bind fst]. eexists. split; [done|].
  by exists L1, p, kvs, L2, j, k, v.
Qed.

Lemma full_leaf L1 p kvs L2 : entries (tokens t) <> [] -> leaf_list t = L1 ++ (p, kvs) :: L2 -> exists k v kvs', kvs = (k, v) :: kvs'.
Proof.
  intros Hne HL. pose proof (leaves_full mn mx T t Hmn Hr Hne) as Hf. rewrite HL in Hf. apply Forall_app in Hf as [_ Hf].
  apply Forall_cons in Hf as [Hf _]. destruct kvs as [|[k v] kvs]; [done|]. by eexists _, _, _.
Qed.

Lemma it_Key_spec it i k v : at_pos t it i -> entries (tokens t) !! i = Some (k, v) -> it_Key T it = Some (Ok k) /\ it_Value T it = Some (Ok v).
Proof.
  intros (L1 & p & kvs & L2 & j & k' & v' & HL & Hj & -> & ->) Hi. rewrite (entries_around _ _ _ _ HL), lookup_app_r in Hi by lia.
  replace (_ + j - _) with j in Hi by lia. rewrite lookup_app_l in Hi by (by eapply lookup_lt_Some). rewrite Hj in Hi. simplify_eq.
  destruct (chain_leaf mn mx T t Hmn Hr _ _ _ _ HL) as [n Hn]. unfold it_Key, it_Value. cbn [it_valid negb it_node it_index mbind option_bind].
  rewrite (la_node _ _ _ _ _ _ Hn). cbn [mbind option_bind]. rewrite !at_index_nat, (la_keys _ _ _ _ _ _ Hn), (la_values _ _ _ _ _ _ Hn), !list_lookup_fmap, Hj.
  done.
Qed.

(** ** Next and Prev *)

Definition moved (it' : Iterator) (err : option Error) (c : option nat) : Prop :=
  err = match c with Some _ => None | None => Some ErrIteratorDone end /\ at_cursor t it' c.

Lemma it_Next_spec it i : at_pos t it i ->
  exists err it', it_Next T it = Some (err, it') /\ moved it' err (if S i <? length (entries (tokens t)) then Some (S i) else None).
Proof.
  intros Hp. assert (entries (tokens t) <> []) as Hne by (destruct (at_pos_lookup _ _ Hp) as [v Hv]; by intros E; rewrite E in Hv).
  destruct Hp as (L1 & p & kvs & L2 & j & k & v & HL & Hj & -> & ->).
  destruct (chain_leaf mn mx T t Hmn Hr _ _ _ _ HL) as [n Hn]. unfold it_Next. cbn [it_valid negb it_node it_index mbind option_bind].
  cbn -[Z.of_nat Z.add Nat.ltb]. rewrite (la_node _ _ _ _ _ _ Hn). cbn [mbind option_bind]. replace (Z.of_nat j + 1)%Z with (Z.of_nat (S j)) by lia.
  unfold len. rewrite at_index_nat, (la_keys _ _ _ _ _ _ Hn), length_fmap, list_lookup_fmap. pose proof (lookup_lt_Some _ _ _ Hj) as Hlt.
  assert (length (entries (tokens t)) = length (concat L1.*2) + length kvs + length (concat L2.*2)) as Hlen
    by (rewrite (entries_around _ _ _ _ HL), !length_app; lia).
  destruct (Z.ltb_spec (Z.of_nat (S j)) (Z.of_nat (length kvs))).
  - destruct (lookup_lt_is_Some_2 kvs (S j)) as [[k' v'] Hj']; [lia|]. rewrite Hj'. cbn [fmap option_fmap option_map mbind option_bind fst].
    eexists _, _. split; [done|]. destruct (Nat.ltb_spec (S (length (concat L1.*2) + j)) (length (entries (tokens t)))); [|lia].
    split; [done|]. exists L1, p, kvs, L2, (S j), k', v'. split_and!; [done..|lia|done].
  - rewrite (la_next _ _ _ _ _ _ Hn). destruct L2 as [|[q kvs2] L2]; cbn [head fmap option_fmap option_map fst].
    + eexists _, _. split; [done|]. simpl in Hlen. destruct (Nat.ltb_spec (S (length (concat L1.*2) + j)) (length (entries (tokens t)))); [lia|]. done.
    + assert (leaf_list t = (L1 ++ [(p, kvs)]) ++ (q, kvs2) :: L2) as HL2 by (by rewrite <- app_assoc).
      destruct (full_leaf _ _ _ _ Hne HL2) as (k2 & v2 & kvs2' & ->). destruct (chain_leaf mn mx T t Hmn Hr _ _ _ _ HL2) as [n2 Hn2].
      rewrite (la_node _ _ _ _ _ _ Hn2). cbn [mbind option_bind]. rewrite (la_keys _ _ _ _ _ _ Hn2). cbn [fmap list_fmap fst].
      eexists _, _. split; [done|]. simpl in Hlen. destruct (Nat.ltb_spec (S (length (concat L1.*2) + j)) (length (entries (tokens t)))); [|lia].
      split; [done|]. exists (L1 ++ [(p, kvs)]), q, ((k2, v2) :: kvs2'), L2, 0, k2, v2. split_and!; [done..| |done].
      rewrite fmap_app, concat_app, length_app. simpl. rewrite app_nil_r. lia.
Qed.

Lemma it_Prev_spec it i : at_pos t it i ->
  exists err it', it_Prev T it = Some (err, it') /\ moved it' err (match i with O => None | S i => Some i end).
Proof.
  intros Hp. assert (entries (tokens t) <> []) as Hne by (destruct (at_pos_lookup _ _ Hp) as [v Hv]; by intros E; rewrite E in Hv).
  destruct Hp as (L1 & p & kvs & L2 & j & k & v & HL & Hj & -> & ->).
  destruct (chain_leaf mn mx T t Hmn Hr _ _ _ _ HL) as [n Hn]. unfold it_Prev. cbn [it_valid negb it_node it_index mbind option_bind].
  cbn -[Z.of_nat Z.sub Nat.add]. rewrite (la_node _ _ _ _ _ _ Hn). cbn [mbind option_bind].
  destruct j as [|j].
  - change (Z.of_nat 0 - 1)%Z with (-1)%Z. cbn [Z.leb Z.compare]. rewrite (la_prev _ _ _ _ _ _ Hn), Nat.add_0_r.
    destruct L1 as [|[q kvs1] L1 _] using rev_ind; [by eexists _, _|]. rewrite last_snoc. cbn [fmap option_fmap option_map fst].
    assert (leaf_list t = L1 ++ (q, kvs1) :: (p, kvs) :: L2) as HL1 by (by rewrite HL, <- app_assoc).
    destruct (full_leaf _ _ _ _ Hne HL1) as (k1 & v1 & kvs1' & E). destruct (chain_leaf mn mx T t Hmn Hr _ _ _ _ HL1) as [n1 Hn1].
    rewrite (la_node _ _ _ _ _ _ Hn1). cbn [mbind option_bind]. unfold len. rewrite (la_keys _ _ _ _ _ _ Hn1), length_fmap.
    assert (exists m, length kvs1 = S m) as [m Hm] by (rewrite E; by eexists). rewrite Hm. replace (Z.of_nat (S m) - 1)%Z with (Z.of_nat m) by lia.
    cbn -[Z.of_nat Z.leb Nat.add]. destruct (Z.leb_spec 0 (Z.of_nat m)); [|lia]. rewrite at_index_nat, list_lookup_fmap.
    destruct (lookup_lt_is_Some_2 kvs1 m) as [[k' v'] Hk']; [lia|]. rewrite Hk'. cbn [fmap option_fmap option_map mbind option_bind fst].
    eexists _, _. split; [done|]. rewrite fmap_app, concat_app, length_app. cbn [fmap list_fmap concat snd]. rewrite app_nil_r, Hm, Nat.add_succ_r.
    split; [done|]. by exists L1, q, kvs1, ((p, kvs) :: L2), m, k', v'.
  - replace (Z.of_nat (S j) - 1)%Z with (Z.of_nat j) by lia. destruct (Z.leb_spec 0 (Z.of_nat j)); [|lia].
    rewrite at_index_nat, (la_keys _ _ _ _ _ _ Hn), list_lookup_fmap. destruct (lookup_lt_is_Some_2 kvs j) as [[k' v'] Hk']; [apply lookup_lt_Some in Hj; lia|].
    rewrite Hk'. cbn [fmap option_fmap option_map mbind option_bind fst]. eexists _, _. split; [done|]. rewrite Nat.add_succ_r. split; [done|].
    by exists L1, p, kvs, L2, j, k', v'.
Qed.

(** ** New iterators *)

Lemma NewIteratorAt_spec key : exists it, NewIteratorAt T key = Some it /\ at_cursor t it (seek key (entries (tokens t))).
Proof.
  unfold NewIteratorAt. destruct (Z.eqb_spec (count T) 0) as [E|Hc].
  { exists no_iterator. split; [done|]. by rewrite (empty_tree mn mx T t Hr E). }
  assert (entries (tokens t) <> []) as Hne by (intros E; apply Hc; by rewrite (rep_count _ _ _ _ Hr), E).
  destruct (findLeaf_chain mn mx T t Hmn Hr key) as (L1 & p & kvs & L2 & l1 & l2 & n & Hf & HL & Hn & Hkvs & Hsc & Hbefore & Hafter).
  rewrite Hf. cbn [mbind option_bind]. rewrite (la_node _ _ _ _ _ _ Hn). cbn [mbind option_bind]. rewrite Hsc, (la_keys _ _ _ _ _ _ Hn), length_fmap.
  assert (entries (tokens t) = (concat L1.*2 ++ l1) ++ l2 ++ concat L2.*2) as He by (rewrite (entries_around _ _ _ _ HL), Hkvs; by rewrite <- !app_assoc).
  rewrite He, seek_split by done. rewrite Hkvs, length_app. destruct l2 as [|[k v] l2].
  - destruct (Nat.leb_spec (length l1 + length (@nil (string * string))) (length l1)); [|simpl in *; lia]. rewrite (la_next _ _ _ _ _ _ Hn).
    destruct L2 as [|[q kvs2] L2]; [by exists no_iterator|]. assert (leaf_list t = (L1 ++ [(p, kvs)]) ++ (q, kvs2) :: L2) as HL2 by (by rewrite <- app_assoc).
    destruct (full_leaf _ _ _ _ Hne HL2) as (k2 & v2 & kvs2' & ->). cbn [head fmap option_fmap option_map fst].
    destruct (iterator_at_spec _ _ _ _ 0 k2 v2 HL2 eq_refl) as (it & Hit & Hp). exists it. split; [done|].
    rewrite fmap_app, concat_app, length_app, Nat.add_0_r in Hp. cbn [fmap list_fmap concat snd app] in *. rewrite Hkvs, !app_nil_r in Hp.
    rewrite length_app. exact Hp.
  - destruct (Nat.leb_spec (length l1 + length ((k, v) :: l2)) (length l1)); [simpl in *; lia|].
    destruct (iterator_at_spec _ _ _ _ (length l1) k v HL) as (it & Hit & Hp); [rewrite Hkvs; apply lookup_mid|].
    exists it. split; [done|]. cbn [app]. rewrite length_app. exact Hp.
Qed.

Lemma first_leaf_spec lk par n x fuel cs : n < fuel -> owns T (cells lk par x ++ cs) -> root_ok mn mx n x ->
  exists p kvs L2, leaf_list x = (p, kvs) :: L2 /\ first_leaf fuel T (ptr x) = Some p.
Proof.
  revert par x fuel cs. induction n as [|n IH]; intros par x [|fuel] cs Hf Ho Hx; try lia; cbn [first_leaf];
    unfold cells in Ho; cbn [app] in Ho; rewrite (owns_lookup _ _ _ _ Ho); cbn [mbind option_bind]; destruct x as [p kvs|p ks ts]; try done.
  - by eexists _, _, _.
  - destruct Hx as (_ & Hl & Hs). destruct ts as [|y ts]; [done|]. apply Forall_cons in Hs as [Hy Hs].
    cbn [top inner_node isLeaf children fmap list_fmap lookup list_lookup mbind option_bind].
    destruct (IH (Some p) y fuel (forest lk p ts ++ (p, top lk par (Node p ks (y :: ts))) :: cs)) as (q & kvs & L2 & HL & Hq).
    + lia.
    + eapply owns_perm; [|exact Ho]. change (below lk (Node p ks (y :: ts))) with (forest lk p (y :: ts)). rewrite forest_cons. cbn [ptr]. solve_Permutation.
    + by apply sub_root.
    + exists q, kvs, (L2 ++ concat (leaf_list <$> ts)). split; [|exact Hq]. cbn [leaf_list]. rewrite fmap_cons, concat_cons, HL. done.
Qed.

Lemma NewIterator_spec : exists it, NewIterator T = Some it /\ at_cursor t it (match entries (tokens t) with [] => None | _ => Some 0 end).
Proof.
  unfold NewIterator. destruct (Z.eqb_spec (count T) 0) as [E|Hc].
  { exists no_iterator. split; [done|]. by rewrite (empty_tree mn mx T t Hr E). }
  assert (entries (tokens t) <> []) as Hne by (intros E; apply Hc; by rewrite (rep_count _ _ _ _ Hr), E).
  destruct (rep_shape _ _ _ _ Hr) as [n Hn]. pose proof (rep_owns _ _ _ _ Hr) as Ho.
  destruct (first_leaf_spec (lk_of (leaves t)) None n t (fresh T) []) as (p & kvs & L2 & HL & Hf); [|by rewrite app_nil_r|done|].
  { pose proof (root_height _ _ (lk_of (leaves t)) None _ _ Hn). pose proof (owns_length _ _ Ho). lia. }
  rewrite (rep_root _ _ _ _ Hr), Hf. cbn [mbind option_bind]. destruct (full_leaf [] p kvs L2 Hne HL) as (k & v & kvs' & ->).
  destruct (iterator_at_spec [] p _ L2 0 k v HL eq_refl) as (it & Hit & Hp). exists it. split; [done|]. by destruct (entries (tokens t)).
Qed.
End iter.

(** ** Delete *)

(** Where an iterator stands after it deleted entry [i]: on the next entry if
    there is one, else on the one before. *)
Definition after_delete (i n : nat) : option nat :=
  if i <? n then Some i else match i with O => None | S i => Some i end.

Lemma sorted_around (l1 : list (string * string)) k v l2 : StronglySorted key_lt (l1 ++ (k, v) :: l2).*1 ->
  Forall (fun kv => key_lt kv.1 k) l1 /\ Forall (fun kv => ~ key_lt kv.1 k) l2 /\ k ∉ (l1 ++ l2).*1.
Proof.
  rewrite fmap_app, fmap_cons. intros (H1 & _ & [_ H2]%StronglySorted_inv)%StronglySorted_app. cbn [fst] in *. rewrite Forall_fmap in H2.
  assert (Forall (fun kv => key_lt kv.1 k) l1) as H1'.
  { apply Forall_forall. intros kv Hkv. apply H1; [apply list_elem_of_fmap; by exists kv|left]. }
  split; [done|]. split; [eapply Forall_impl; [exact H2|]; intros kv; apply key_lt_asym|].
  rewrite fmap_app, elem_of_app. intros [H|H]; revert H; apply key_outside; auto.
Qed.

Lemma del_entry_at key l l' i v b : StronglySorted key_lt l.*1 -> l !! i = Some (key, v) -> del_entry key b l l' -> b = true /\ l' = delete i l.
Proof.
  intros Hs Hi Hd. apply list_elem_of_split_length in Hi as (l1 & l2 & -> & ->). destruct (sorted_around _ _ _ _ Hs) as (_ & _ & Hni).
  destruct b; cbn in Hd.
  - split; [done|]. destruct Hd as (m1 & w & m2 & E & ->). rewrite delete_middle.
    clear -E Hni. revert m1 E. induction l1 as [|kv l1 IH]; intros [|kv' m1] E; simplify_eq/=; [done|..].
    + exfalso. apply Hni. rewrite fmap_app, fmap_cons. set_solver.
    + exfalso. apply Hni. by left.
    + f_equal. apply IH; [|done]. set_solver.
  - exfalso. destruct Hd as [Hd _]. apply Hd. rewrite fmap_app, fmap_cons. set_solver.
Qed.

Section delete.
Context (mn mx : nat) (T : BPlusTree) (t : tree).
Hypothesis Hmx : mx = 2 * mn.
Hypothesis Hmn : 1 <= mn.
Hypothesis Hr : represents mn mx T t.

Lemma it_Delete_spec it i : at_pos t it i ->
  exists it' T' t', it_Delete it T = Some (None, it', T') /\ represents mn mx T' t' /\ entries (tokens t') = delete i (entries (tokens t)) /\
    at_cursor t' it' (after_delete i (length (entries (tokens t')))).
Proof.
  intros Hp. destruct (at_pos_lookup mn t Hmn it i Hp) as [v Hi]. destruct (it_Key_spec mn mx T t Hmn Hr it i _ v Hp Hi) as [Hkey _].
  destruct (it_Prev_spec mn mx T t Hmn Hr it i Hp) as (err & before & Hprev & Herr & Hbefore).
  destruct (tree_Delete_spec mn mx Hmx Hmn T t (it_key it) Hr) as (b & T' & t' & HD & Hr' & Hd).
  pose proof (tree_entries_sorted mn mx T t Hr) as Hs. destruct (del_entry_at _ _ _ _ _ _ Hs Hi Hd) as [-> Hl'].
  assert (exists p n, it_node it = Some p /\ it_valid it = true /\ nodes T !! p = Some n /\ at_index (keys n) (it_index it) = Some (it_key it)) as (p & n & Hnode & Hval & Hn & Hidx).
  { destruct Hp as (L1 & p & kvs & L2 & j & k & w & HL & Hj & -> & ->). destruct (chain_leaf mn mx T t Hmn Hr _ _ _ _ HL) as [n Hn].
    exists p, n. split_and!; [done|done|apply Hn|]. cbn [it_index it_key]. by rewrite at_index_nat, (la_keys _ _ _ _ _ _ Hn), list_lookup_fmap, Hj. }
  unfold it_Delete. rewrite Hval. cbn [negb]. rewrite Hnode. cbn [mbind option_bind]. rewrite Hn. cbn [mbind option_bind].
  rewrite bool_decide_true by done. cbn [negb]. rewrite Hprev. cbn [mbind option_bind]. rewrite HD. cbn [mbind option_bind negb].
  destruct (NewIteratorAt_spec mn mx T' t' Hmn Hr' (it_key it)) as (nextIt & -> & Hnext). cbn [mbind option_bind].
  apply list_elem_of_split_length in Hi as (l1 & l2 & Hl & ->). rewrite Hl, delete_middle in Hl'. rewrite Hl in Hs.
  destruct (sorted_around _ _ _ _ Hs) as (H1 & H2 & _). rewrite Hl', seek_split in Hnext by done. rewrite Hl, delete_middle.
  destruct l2 as [|kv l2].
  2:{ assert (it_valid nextIt = true) as -> by (by destruct Hnext as (? & ? & ? & ? & ? & ? & ? & _ & _ & _ & ->)).
      exists nextIt, T', t'. split; [done|]. split; [done|]. split; [done|]. rewrite Hl', length_app. unfold after_delete.
      destruct (Nat.ltb_spec (length l1) (length l1 + length (kv :: l2))); [done|simpl in *; lia]. }
  cbn [at_cursor] in Hnext. rewrite Hnext. rewrite app_nil_r in Hl' |- *.
  destruct l1 as [|[pk pv] l1 _] using rev_ind.
  - cbn [length] in Herr. rewrite Herr. eexists _, T', t'. split; [done|]. split; [done|]. split; [done|]. by rewrite Hl'.
  - rewrite length_app, Nat.add_1_r in Herr, Hbefore. rewrite Herr. cbn [at_cursor] in Hbefore.
    destruct (at_pos_lookup mn t Hmn _ _ Hbefore) as [pv' Hpk]. rewrite Hl, <- !app_assoc in Hpk. cbn [app] in Hpk. rewrite lookup_mid in Hpk. injection Hpk as -> ->.
    destruct (NewIteratorAt_spec mn mx T' t' Hmn Hr' (it_key before)) as (prevIt & -> & Hpos). cbn [mbind option_bind].
    rewrite Hl' in Hpos. rewrite <- !app_assoc in Hs. apply (sorted_around l1 _ _ _) in Hs as (H3 & _ & _).
    rewrite seek_split in Hpos; [|done|constructor; [apply key_lt_irrefl|done]].
    assert (it_valid prevIt = true) as -> by (by destruct Hpos as (? & ? & ? & ? & ? & ? & ? & _ & _ & _ & ->)).
    exists prevIt, T', t'. split; [done|]. split; [done|]. split; [done|]. rewrite Hl', length_app, Nat.add_1_r. unfold after_delete.
    by rewrite Nat.ltb_irrefl.
Qed.
End delete.
