(* ===== verification/BPlusProofs.v ===== *)
(** The B+ tree answers as a finite map and its iterators as cursors in the
    sorted list of the entries, after any history of calls; the tree stays
    balanced. *)

From stdpp Require Import base tactics option list gmap sets strings sorting.
From Stdlib Require Import ZArith Lia.
From S2P Require Import Prelude Ordered BPlus BPlusShape BPlusInsert BPlusDelete BPlusDeleteLeaf BPlusChain BPlusMap BPlusIter.

#[local] Open Scope nat_scope.

(** ** Histories of calls *)

Inductive op := OpInsert (k v : string) | OpDelete (k : string) | OpSearch (k : string) | OpRange (start last : string) | OpCount.

Inductive answer := AUnit | ABool (b : bool) | AValue (v : option string) | ARange (r : result Error (list KVItem)) | ACount (n : Z).

Definition exec (o : op) (T : BPlusTree) : option (answer * BPlusTree) :=
  match o with
  | OpInsert k v => T ← Insert k v T; Some (AUnit, T)
  | OpDelete k => '(b, T) ← Delete k T; Some (ABool b, T)
  | OpSearch k => v ← Search T k; Some (AValue v, T)
  | OpRange a b => r ← RangeScan T a b; Some (ARange r, T)
  | OpCount => Some (ACount (Count T), T)
  end.

Fixpoint execs (ops : list op) (T : BPlusTree) : option (list answer * BPlusTree) :=
  match ops with
  | [] => Some ([], T)
  | o :: ops => '(r, T) ← exec o T; '(rs, T) ← execs ops T; Some (r :: rs, T)
  end.

(** ** The finite map *)

Definition map_step (m : gmap string string) (o : op) : gmap string string :=
  match o with OpInsert k v => <[k := v]> m | OpDelete k => delete k m | _ => m end.

(** The items of a range scan: in order, and exactly the entries of the range. *)
Definition range_of (m : gmap string string) (start last : string) (items : list KVItem) : Prop :=
  StronglySorted key_lt (Key <$> items) /\
  forall k v, {| Key := k; Val := v |} ∈ items <-> m !! k = Some v /\ ~ key_lt k start /\ ~ key_lt last k.

Definition map_answer (m : gmap string string) (o : op) (r : answer) : Prop :=
  match o, r with
  | OpInsert _ _, AUnit => True
  | OpDelete k, ABool b => b = bool_decide (is_Some (m !! k))
  | OpSearch k, AValue v => v = m !! k
  | OpRange start last, ARange (Err e) => key_lt last start /\ e = ErrInvalidRange
  | OpRange start last, ARange (Ok items) => ~ key_lt last start /\ range_of m start last items
  | OpCount, ACount n => n = Z.of_nat (size m)
  | _, _ => False
  end.

Fixpoint map_answers (m : gmap string string) (ops : list op) (rs : list answer) : Prop :=
  match ops, rs with
  | [], [] => True
  | o :: ops, r :: rs => map_answer m o r /\ map_answers (map_step m o) ops rs
  | _, _ => False
  end.

(** ** Sorted lists as maps *)

Lemma tree_keys_nodup (l : list (string * string)) : StronglySorted key_lt l.*1 -> NoDup l.*1.
Proof.
  generalize (l.*1). clear. induction 1 as [|k l _ IH Hk]; constructor; [|done]. intros Hin. rewrite Forall_forall in Hk. exact (key_lt_irrefl k (Hk k Hin)).
Qed.

Lemma set_entry_map key value l l' : set_entry key value l l' -> NoDup l.*1 ->
  list_to_map l' =@{gmap string string} <[key := value]> (list_to_map l).
Proof.
  intros (l1 & l2 & H1 & H2 & Hl & ->) Hnd. assert (key ∉ l1.*1) as Hk1 by (apply key_outside; auto).
  assert (list_to_map (l1 ++ (key, value) :: l2) =@{gmap string string} <[key := value]> (list_to_map (l1 ++ l2))) as E.
  { rewrite !list_to_map_app, list_to_map_cons. symmetry. apply insert_union_r. by apply not_elem_of_list_to_map. }
  destruct Hl as [->|[v ->]]; [done|]. rewrite E. rewrite !list_to_map_app, list_to_map_cons.
  rewrite !insert_union_r by (by apply not_elem_of_list_to_map). f_equal. symmetry. apply insert_insert_eq.
Qed.

Lemma del_entry_map key b l l' : del_entry key b l l' -> StronglySorted key_lt l.*1 ->
  list_to_map l' =@{gmap string string} delete key (list_to_map l) /\ b = bool_decide (is_Some ((list_to_map l : gmap string string) !! key)).
Proof.
  destruct b; cbn [del_entry].
  - intros (l1 & v & l2 & -> & ->) Hs. destruct (sorted_around _ _ _ _ Hs) as (_ & _ & Hni). rewrite fmap_app in Hni.
    assert (list_to_map (l1 ++ (key, v) :: l2) =@{gmap string string} <[key := v]> (list_to_map (l1 ++ l2))) as ->.
    { rewrite !list_to_map_app, list_to_map_cons. symmetry. apply insert_union_r. apply not_elem_of_list_to_map. set_solver. }
    split; [|symmetry; apply bool_decide_true; rewrite lookup_insert_eq; by eexists].
    rewrite delete_insert_id; [done|]. apply not_elem_of_list_to_map. by rewrite fmap_app.
  - intros [Hni ->] _. apply not_elem_of_list_to_map in Hni. rewrite delete_id by done. split; [done|]. rewrite Hni. symmetry. apply bool_decide_false. by intros [].
Qed.

(** ** The simulation *)

Section refinement.
Context (mn mx : nat).
Hypothesis Hmx : mx = 2 * mn.
Hypothesis Hmn : 1 <= mn.

Definition holds (T : BPlusTree) (m : gmap string string) : Prop :=
  exists t, represents mn mx T t /\ list_to_map (entries (tokens t)) = m.

Lemma exec_refines T m o : holds T m -> exists r T', exec o T = Some (r, T') /\ map_answer m o r /\ holds T' (map_step m o).
Proof.
  intros (t & Hr & <-). pose proof (tree_entries_sorted _ _ _ _ Hr) as Hs. pose proof (tree_keys_nodup _ Hs) as Hnd. destruct o as [k v|k|k|a b|]; cbn [exec].
  - destruct (Insert_spec mn mx Hmx Hmn T t k v Hr) as (T' & t' & -> & Hr' & He). eexists _, T'. split; [done|]. split; [done|].
    exists t'. split; [done|]. by apply set_entry_map.
  - destruct (tree_Delete_spec mn mx Hmx Hmn T t k Hr) as (b & T' & t' & -> & Hr' & He). eexists _, T'. split; [done|].
    destruct (del_entry_map _ _ _ _ He Hs) as [Hm Hb]. split; [exact Hb|]. by exists t'.
  - destruct (tree_Search_spec mn mx Hmx Hmn T t k Hr) as (v & -> & Hv). eexists _, T. split; [done|]. split; [|by exists t]. cbn. destruct v as [v|].
    + symmetry. by apply elem_of_list_to_map.
    + symmetry. by apply not_elem_of_list_to_map.
  - destruct (decide (key_lt b a)) as [Hlt|Hge].
    + unfold RangeScan, lt at 1. rewrite bool_decide_true by done. eexists _, T. split; [done|]. split; [done|by exists t].
    + rewrite (RangeScan_spec mn mx T t Hmn Hr a b Hge). eexists _, T. split; [done|]. split; [|by exists t]. split; [done|]. split.
      * rewrite <- list_fmap_compose. change (Key ∘ item) with (fst (A := string) (B := string)). clear -Hs. induction (entries (tokens t)) as [|kv l IH]; [constructor|].
        rewrite fmap_cons in Hs. apply StronglySorted_inv in Hs as [Hs Hk]. rewrite filter_cons. destruct (decide _); [|by apply IH].
        rewrite fmap_cons. constructor; [by apply IH|]. rewrite Forall_fmap in Hk |- *. apply Forall_forall. intros kv' [_ Hin]%list_elem_of_filter.
        rewrite Forall_forall in Hk. by apply Hk.
      * intros k v. rewrite <- elem_of_list_to_map by done. rewrite list_elem_of_fmap. setoid_rewrite list_elem_of_filter. split.
        -- intros ([k' v'] & E & (? & ?) & ?). unfold item in E. cbn in *. simplify_eq. done.
        -- intros (? & ? & ?). by exists (k, v).
  - eexists _, T. split; [done|]. split; [|by exists t]. cbn. unfold Count. rewrite (rep_count _ _ _ _ Hr). f_equal.
    rewrite <- length_map_to_list. by rewrite map_to_list_to_map.
Qed.

Lemma execs_refines ops T m : holds T m ->
  exists rs T', execs ops T = Some (rs, T') /\ map_answers m ops rs /\ holds T' (foldl map_step m ops).
Proof.
  revert T m. induction ops as [|o ops IH]; intros T m Hh; [by exists [], T|].
  destruct (exec_refines T m o Hh) as (r & T1 & HT1 & Hr & Hh1). destruct (IH T1 _ Hh1) as (rs & T2 & HT2 & Hrs & Hh2).
  exists (r :: rs), T2. cbn [execs]. rewrite HT1. cbn [mbind option_bind]. rewrite HT2. done.
Qed.
End refinement.

(** ** The empty tree *)

(** The number of keys a node may hold, as [NewBPlusTreeWithConfig] sets it. *)
Definition max_keys (cfg : Config) : nat := Z.to_nat (maxKeys (NewBPlusTreeWithConfig cfg)).

(** A number of keys for which [make] can reserve the slices of a node (of 16
    bytes a string, in an address space of 48 bits). *)
Definition config_ok (cfg : Config) : Prop := (MaxKeys cfg < 2 ^ 44)%Z.

Lemma max_keys_even cfg : config_ok cfg ->
  exists mn, max_keys cfg = 2 * mn /\ 1 <= mn /\ maxKeys (NewBPlusTreeWithConfig cfg) = Z.of_nat (2 * mn).
Proof.
  intros Hcfg. unfold max_keys, NewBPlusTreeWithConfig. cbn [maxKeys].
  set (m := (if (MaxKeys cfg <? 2)%Z then 32 else MaxKeys cfg)%Z). assert (2 <= m < 2 ^ 44)%Z as Hm.
  { unfold m, config_ok in *. destruct (Z.ltb_spec (MaxKeys cfg) 2); lia. }
  pose proof (Z.rem_mod_nonneg m 2 ltac:(lia) ltac:(lia)) as Hrem. pose proof (Z.div_mod m 2 ltac:(lia)) as Hdm. rewrite Hrem.
  pose proof (Z.mod_pos_bound m 2 ltac:(lia)).
  destruct (Z.eqb_spec (m mod 2) 0) as [E|E]; cbn [negb].
  - exists (Z.to_nat (m / 2)). lia.
  - rewrite int64_small by lia. exists (Z.to_nat (m / 2 + 1)). lia.
Qed.

Lemma new_represents cfg mn : maxKeys (NewBPlusTreeWithConfig cfg) = Z.of_nat (2 * mn) ->
  represents mn (2 * mn) (NewBPlusTreeWithConfig cfg) (Leaf 0 []).
Proof.
  intros HM. split; try done.
  - cbn. split_and!; [by repeat constructor|by repeat constructor; set_solver|]. intros p [n Hn]. cbn in *. apply lookup_singleton_Some in Hn as [<- _]. lia.
  - exists 0. cbn. lia.
  - constructor.
Qed.

(** ** Balance *)

Lemma sub_entries mn mx n t : 1 <= mn -> sub mn mx n t -> mn * (mn + 1) ^ n <= length (entries (tokens t)).
Proof.
  intros Hmn. revert t. induction n as [|n IH]; intros t Ht.
  - destruct t as [p kvs|]; [|done]. cbn [sub tokens] in *. rewrite entries_entry. simpl. lia.
  - destruct t as [|p ks ts]; [done|]. destruct Ht as (Hks & Hts & Hs). cbn [tokens]. rewrite entries_inter.
    assert (length ts * (mn * (mn + 1) ^ n) <= length (concat (entries <$> (tokens <$> ts)))) as Hle.
    { clear Hts. induction Hs as [|x ts Hx _ IHs]; [simpl; lia|]. rewrite !fmap_cons, concat_cons, length_app. specialize (IH x Hx). cbn [length]. lia. }
    rewrite Nat.pow_succ_r'. nia.
Qed.

Lemma root_entries mn mx n t : 1 <= mn -> root_ok mn mx (S n) t -> 2 * mn * (mn + 1) ^ n <= length (entries (tokens t)).
Proof.
  intros Hmn Ht. destruct t as [|p ks ts]; [done|]. destruct Ht as (Hks & Hts & Hs). cbn [tokens]. rewrite entries_inter.
  destruct ts as [|x [|y ts]]; [done|simpl in *; lia|]. apply Forall_cons in Hs as [Hx Hs]. apply Forall_cons in Hs as [Hy _].
  rewrite !fmap_cons, !concat_cons, !length_app. pose proof (sub_entries _ _ _ _ Hmn Hx). pose proof (sub_entries _ _ _ _ Hmn Hy). lia.
Qed.

(** ** Cursors *)

Inductive cop := CFirst | CSeek (k : string) | CNext | CPrev | CKey | CValue | CDelete.

Inductive canswer := CValid (b : bool) | CErr (e : option Error) | CResult (r : result Error string).

Definition cexec (o : cop) (s : BPlusTree * Iterator) : option (canswer * (BPlusTree * Iterator)) :=
  let '(T, it) := s in
  match o with
  | CFirst => it ← NewIterator T; Some (CValid (it_Valid it), (T, it))
  | CSeek k => it ← NewIteratorAt T k; Some (CValid (it_Valid it), (T, it))
  | CNext => '(e, it) ← it_Next T it; Some (CErr e, (T, it))
  | CPrev => '(e, it) ← it_Prev T it; Some (CErr e, (T, it))
  | CKey => r ← it_Key T it; Some (CResult r, (T, it))
  | CValue => r ← it_Value T it; Some (CResult r, (T, it))
  | CDelete => '(e, it, T) ← it_Delete it T; Some (CErr e, (T, it))
  end.

Fixpoint cexecs (ops : list cop) (s : BPlusTree * Iterator) : option (list canswer * (BPlusTree * Iterator)) :=
  match ops with
  | [] => Some ([], s)
  | o :: ops => '(r, s) ← cexec o s; '(rs, s) ← cexecs ops s; Some (r :: rs, s)
  end.

(** The same calls on the sorted list of the entries and a position in it. *)
Definition cursor_step (o : cop) (s : list (string * string) * option nat) : canswer * (list (string * string) * option nat) :=
  let '(l, c) := s in
  match o, c with
  | CFirst, _ => let c := match l with [] => None | _ => Some 0 end in (CValid (bool_decide (is_Some c)), (l, c))
  | CSeek k, _ => let c := seek k l in (CValid (bool_decide (is_Some c)), (l, c))
  | (CKey | CValue), None => (CResult (Err ErrIteratorInvalid), s)
  | _, None => (CErr (Some ErrIteratorInvalid), s)
  | CNext, Some i => if S i <? length l then (CErr None, (l, Some (S i))) else (CErr (Some ErrIteratorDone), (l, None))
  | CPrev, Some (S i) => (CErr None, (l, Some i))
  | CPrev, Some O => (CErr (Some ErrIteratorDone), (l, None))
  | CKey, Some i => (CResult (from_option (fun kv => Ok kv.1) (Err ErrIteratorInvalid) (l !! i)), s)
  | CValue, Some i => (CResult (from_option (fun kv => Ok kv.2) (Err ErrIteratorInvalid) (l !! i)), s)
  | CDelete, Some i => (CErr None, (delete i l, after_delete i (length (delete i l))))
  end.

Fixpoint cursor_run (ops : list cop) (s : list (string * string) * option nat) : list canswer :=
  match ops with
  | [] => []
  | o :: ops => let '(r, s) := cursor_step o s in r :: cursor_run ops s
  end.

Section cursors.
Context (mn mx : nat).
Hypothesis Hmx : mx = 2 * mn.
Hypothesis Hmn : 1 <= mn.

Definition tracks (s : BPlusTree * Iterator) (a : list (string * string) * option nat) : Prop :=
  exists t, represents mn mx s.1 t /\ entries (tokens t) = a.1 /\ at_cursor t s.2 a.2.

Lemma cursor_valid t it c : at_cursor t it c -> it_Valid it = bool_decide (is_Some c).
Proof. destruct c as [i|]; [|done]. by intros (? & ? & ? & ? & ? & ? & ? & _ & _ & _ & ->). Qed.

Lemma moved_tracks T t it err c : represents mn mx T t -> moved t it err c ->
  err = (match c with Some _ => None | None => Some ErrIteratorDone end) /\ tracks (T, it) (entries (tokens t), c).
Proof. intros Hr [-> Hc]. split; [done|]. by exists t. Qed.

Lemma cexec_refines o s a : tracks s a -> exists s', cexec o s = Some ((cursor_step o a).1, s') /\ tracks s' (cursor_step o a).2.
Proof.
  destruct s as [T it], a as [l c]. intros (t & Hr & Hl & Hc). cbn [fst snd] in *. subst l. destruct o as [|k| | | | |]; cbn [cexec cursor_step].
  - destruct (NewIterator_spec mn mx T t Hmn Hr) as (it' & -> & Hc'). cbn [mbind option_bind]. rewrite (cursor_valid _ _ _ Hc'). eexists. split; [done|]. by exists t.
  - destruct (NewIteratorAt_spec mn mx T t Hmn Hr k) as (it' & -> & Hc'). cbn [mbind option_bind]. rewrite (cursor_valid _ _ _ Hc'). eexists. split; [done|]. by exists t.
  - destruct c as [i|]; [|unfold it_Next; cbn in Hc; rewrite Hc; eexists; split; [done|by exists t]].
    destruct (it_Next_spec mn mx T t Hmn Hr it i Hc) as (err & it' & -> & Hm). apply (moved_tracks T) in Hm as [-> Hm]; [|done]. cbn [mbind option_bind].
    destruct (S i <? length (entries (tokens t))); by eexists.
  - destruct c as [i|]; [|unfold it_Prev; cbn in Hc; rewrite Hc; eexists; split; [done|by exists t]].
    destruct (it_Prev_spec mn mx T t Hmn Hr it i Hc) as (err & it' & -> & Hm). apply (moved_tracks T) in Hm as [-> Hm]; [|done]. cbn [mbind option_bind].
    destruct i; by eexists.
  - destruct c as [i|]; [|unfold it_Key; cbn in Hc; rewrite Hc; eexists; split; [done|by exists t]].
    destruct (at_pos_lookup mn t Hmn it i Hc) as [v Hi]. destruct (it_Key_spec mn mx T t Hmn Hr it i _ v Hc Hi) as [-> _]. rewrite Hi.
    eexists; split; [done|by exists t].
  - destruct c as [i|]; [|unfold it_Value; cbn in Hc; rewrite Hc; eexists; split; [done|by exists t]].
    destruct (at_pos_lookup mn t Hmn it i Hc) as [v Hi]. destruct (it_Key_spec mn mx T t Hmn Hr it i _ v Hc Hi) as [_ ->]. rewrite Hi.
    eexists; split; [done|by exists t].
  - destruct c as [i|]; [|unfold it_Delete; cbn in Hc; rewrite Hc; eexists; split; [done|by exists t]].
    destruct (it_Delete_spec mn mx T t Hmx Hmn Hr it i Hc) as (it' & T' & t' & -> & Hr' & He & Hc'). eexists. split; [done|]. exists t'. cbn [fst snd].
    by rewrite <- He.
Qed.

Lemma cexecs_refines ops s a : tracks s a -> exists s', cexecs ops s = Some (cursor_run ops a, s').
Proof.
  revert s a. induction ops as [|o ops IH]; intros s a Ha; [by eexists|]. cbn [cexecs cursor_run].
  destruct (cexec_refines o s a Ha) as (s' & -> & Ha'). destruct (cursor_step o a) as [r a']. cbn [fst snd mbind option_bind] in *.
  destruct (IH s' a' Ha') as (s'' & ->). by eexists.
Qed.
End cursors.

(** ** Theorems *)

Lemma new_holds cfg : config_ok cfg ->
  exists mn, max_keys cfg = 2 * mn /\ 1 <= mn /\ represents mn (2 * mn) (NewBPlusTreeWithConfig cfg) (Leaf 0 []).
Proof. intros (mn & H1 & H2 & HM)%max_keys_even. exists mn. split_and!; [done..|by apply new_represents]. Qed.

(** C14: after any history of Insert, Delete, Search, RangeScan and Count on a
    new tree no call panics or runs out of fuel, and every call answers as the
    finite map of the entries does: a search the value last inserted, a delete
    whether the key was there, a range scan the entries of the range in the
    order of their keys, and the count the number of keys. *)
Theorem bplustree_refines_map (cfg : Config) (ops : list op) :
  config_ok cfg -> exists rs T, execs ops (NewBPlusTreeWithConfig cfg) = Some (rs, T) /\ map_answers ∅ ops rs.
Proof.
  intros (mn & _ & Hmn & Hr)%new_holds.
  destruct (execs_refines mn (2 * mn) eq_refl Hmn ops (NewBPlusTreeWithConfig cfg) ∅) as (rs & T & HT & Hrs & _); [by exists (Leaf 0 [])|].
  by exists rs, T.
Qed.

(** C20: the tree stays balanced: after any history its nodes form a tree whose
    leaves are all at the same depth, whose nodes other than the root are at
    least half full and none too full, whose keys and separators are in order
    and whose leaves are chained from left to right; a tree of height [n + 1]
    has at least [2 * h * (h + 1) ^ n] entries, [h] being half of the maximum. *)
Theorem bplustree_balanced (cfg : Config) (ops : list op) :
  config_ok cfg -> exists rs T t n, execs ops (NewBPlusTreeWithConfig cfg) = Some (rs, T) /\
    let h := max_keys cfg / 2 in
    represents h (max_keys cfg) T t /\ root_ok h (max_keys cfg) n t /\
    match n with O => True | S n => (Z.of_nat (2 * h * (h + 1) ^ n) <= Count T)%Z end.
Proof.
  intros (mn & HM & Hmn & Hr)%new_holds.
  destruct (execs_refines mn (2 * mn) eq_refl Hmn ops (NewBPlusTreeWithConfig cfg) ∅) as (rs & T & HT & _ & t & Ht & _); [by exists (Leaf 0 [])|].
  destruct (rep_shape _ _ _ _ Ht) as [n Hn]. exists rs, T, t, n. split; [done|]. rewrite HM.
  assert (2 * mn / 2 = mn) as -> by (rewrite Nat.mul_comm; by apply Nat.div_mul). split; [done|]. split; [done|].
  destruct n as [|n]; [done|]. unfold Count. rewrite (rep_count _ _ _ _ Ht). pose proof (root_entries _ _ _ _ Hmn Hn). lia.
Qed.

(** C26: an iterator is a cursor in the sorted list of the entries: after any
    history of the tree, any sequence of NewIterator, NewIteratorAt, Next, Prev,
    Key, Value and Delete on the iterator answers as the position in that list
    does.  Delete removes the entry under the iterator, which then stands on the
    next one, or on the one before if there is none. *)
Theorem iterator_refines_cursor (cfg : Config) (ops : list op) (cops : list cop) :
  config_ok cfg -> exists rs T l s', execs ops (NewBPlusTreeWithConfig cfg) = Some (rs, T) /\
    StronglySorted key_lt l.*1 /\ list_to_map l = foldl map_step ∅ ops /\
    cexecs cops (T, no_iterator) = Some (cursor_run cops (l, None), s').
Proof.
  intros (mn & _ & Hmn & Hr)%new_holds.
  destruct (execs_refines mn (2 * mn) eq_refl Hmn ops (NewBPlusTreeWithConfig cfg) ∅) as (rs & T & HT & _ & t & Ht & Hm); [by exists (Leaf 0 [])|].
  destruct (cexecs_refines mn (2 * mn) eq_refl Hmn cops (T, no_iterator) (entries (tokens t), None)) as (s' & Hs'); [by exists t|].
  exists rs, T, (entries (tokens t)), s'. split_and!; try done. by eapply tree_entries_sorted.
Qed.

(** ** A small tree *)

Definition small : Config := {| MaxKeys := 2 |}.

Definition small_ops : list op :=
  [OpInsert "e" "5"; OpInsert "b" "2"; OpInsert "g" "7"; OpInsert "a" "1"; OpInsert "d" "4"; OpInsert "c" "3"; OpInsert "f" "6";
   OpDelete "e"; OpDelete "x"; OpInsert "b" "9"; OpSearch "b"; OpRange "b" "f"; OpRange "f" "b"; OpDelete "a"; OpDelete "d"; OpCount].

Lemma bplustree_refines_map_witness : config_ok small /\
  exists rs T, execs small_ops (NewBPlusTreeWithConfig small) = Some (rs, T) /\ map_answers ∅ small_ops rs.
Proof. split; [reflexivity|]. apply (bplustree_refines_map small small_ops). reflexivity. Defined.

Lemma bplustree_balanced_witness : config_ok small /\
  exists rs T t n, execs small_ops (NewBPlusTreeWithConfig small) = Some (rs, T) /\ let h := max_keys small / 2 in
    represents h (max_keys small) T t /\ root_ok h (max_keys small) n t /\ match n with O => True | S n => (Z.of_nat (2 * h * (h + 1) ^ n) <= Count T)%Z end.
Proof. split; [reflexivity|]. apply (bplustree_balanced small small_ops). reflexivity. Defined.

Definition small_walk : list cop := [CKey; CFirst; CValue; CNext; CKey; CDelete; CKey; CSeek "f"; CDelete; CNext; CDelete; CKey].

Lemma iterator_refines_cursor_witness : config_ok small /\
  exists rs T l s', execs small_ops (NewBPlusTreeWithConfig small) = Some (rs, T) /\ StronglySorted key_lt l.*1 /\
    list_to_map l = foldl map_step ∅ small_ops /\ cexecs small_walk (T, no_iterator) = Some (cursor_run small_walk (l, None), s').
Proof. split; [reflexivity|]. apply (iterator_refines_cursor small small_ops small_walk). reflexivity. Defined.

(** The answers themselves. *)
Example small_answers : fst <$> execs small_ops (NewBPlusTreeWithConfig small) =
  Some [AUnit; AUnit; AUnit; AUnit; AUnit; AUnit; AUnit; ABool true; ABool false; AUnit; AValue (Some "9");
        ARange (Ok (item <$> [("b", "9"); ("c", "3"); ("d", "4"); ("f", "6")])); ARange (Err ErrInvalidRange); ABool true; ABool true; ACount 4].
Proof. vm_compute. reflexivity. Qed.
