(* ===== verification/SkipCore.v ===== *)
(** The descent of a skip list, shared by the two packages that contain one
    (src/internal/skiplist and src/internal/lsm/skiplist.go).

    A skip list is a heap of nodes; all that matters for searching is
    [fwd x i], the pointer [x.forward[i]] ([None] when [i] is out of range, a
    panic in Go; [Some None] for nil), and [key_of x], the key of a node.  [chain fwd i x l]
    says that following level [i] from [x] visits the nodes [l] and ends. *)

From stdpp Require Import base tactics option list sets sorting.
From Stdlib Require Import Lia.
From S2P Require Import Ordered.

Section core.
Context {K : Type} `{!Ordered K}.
Implicit Types (fwd : nat -> nat -> option (option nat)) (key_of : nat -> option K).

(** [for x.forward[i] != nil && x.forward[i].key < key { x = x.forward[i] }] *)
Fixpoint advance fwd key_of (fuel i : nat) (key : K) (x : nat) : option nat :=
  match fuel with
  | O => None
  | S fuel =>
      next ← fwd x i;
      match next with
      | None => Some x
      | Some y => k ← key_of y; if decide (key_lt k key) then advance fwd key_of fuel i key y else Some x
      end
  end.

(** [for i := i-1; i >= 0; i-- { advance; update[i] = x }]: the last [x] and
    the slice [update]. *)
Fixpoint descend fwd key_of (fuel : nat) (key : K) (i x : nat) (update : list nat)
    : option (nat * list nat) :=
  match i with
  | O => Some (x, update)
  | S i => x ← advance fwd key_of fuel i key x; descend fwd key_of fuel key i x (x :: update)
  end.

(** ** Chains *)

Fixpoint chain fwd (i x : nat) (l : list nat) : Prop :=
  match l with
  | [] => fwd x i = Some None
  | y :: l => fwd x i = Some (Some y) /\ chain fwd i y l
  end.

Lemma chain_app fwd i x l1 y l2 :
  chain fwd i x (l1 ++ y :: l2) -> chain fwd i y l2.
Proof.
  revert x. induction l1 as [|z l1 IH]; simpl; intros x [? ?]; [done|]. by eapply IH.
Qed.

(** From any node of a chain, or from its start, the rest is a chain. *)
Lemma chain_from fwd i x l1 y l2 l3 :
  x :: l1 = l2 ++ y :: l3 -> forall l, chain fwd i x (l1 ++ l) -> chain fwd i y (l3 ++ l).
Proof.
  destruct l2 as [|z l2]; simpl; intros E l Hc; simplify_eq; [done|].
  rewrite <- app_assoc in Hc. simpl in Hc. by eapply chain_app.
Qed.

Lemma chain_defined fwd i x l : chain fwd i x l -> Forall (fun y => is_Some (fwd y i)) (x :: l).
Proof.
  revert x. induction l as [|y l IH]; simpl; intros x Hc.
  - by repeat constructor; exists None.
  - destruct Hc as [Hx Hc]. constructor; [by eexists|]. by apply IH.
Qed.

Lemma chain_ext fwd fwd' i x l :
  (forall y, y ∈ x :: l -> fwd' y i = fwd y i) -> chain fwd i x l -> chain fwd' i x l.
Proof.
  revert x. induction l as [|y l IH]; simpl; intros x He Hc.
  - rewrite He; [done|set_solver].
  - destruct Hc. rewrite He by set_solver. split; [done|]. apply IH; [set_solver|done].
Qed.

(** Linking a new node [n] after the last node of a prefix. *)
Lemma chain_insert fwd fwd' i h l1 l2 n u :
  last (h :: l1) = Some u -> NoDup (h :: l1 ++ l2) -> n ∉ h :: l1 ++ l2 ->
  fwd' u i = Some (Some n) -> fwd' n i = fwd u i ->
  (forall y, y ∈ h :: l1 ++ l2 -> y <> u -> fwd' y i = fwd y i) ->
  chain fwd i h (l1 ++ l2) -> chain fwd' i h (l1 ++ n :: l2).
Proof.
  revert h. induction l1 as [|y l1 IH]; simpl; intros h Hu Hnd Hn Hu' Hn' He Hc.
  - simplify_eq. split; [done|]. apply NoDup_cons in Hnd as [Hh _].
    destruct l2 as [|z l2]; simpl in *.
    + by rewrite Hn'.
    + destruct Hc as [Hz Hc]. rewrite Hn'. split; [done|]. eapply chain_ext; [|exact Hc].
      intros w Hw. apply He; set_solver.
  - destruct Hc as [Hh Hc]. apply NoDup_cons in Hnd as [Hhy Hnd].
    assert (h <> u).
    { intros ->. apply Hhy. apply last_Some_elem_of in Hu. set_solver. }
    split; [by rewrite He by set_solver|]. apply IH; try done; [set_solver|].
    intros w Hw. apply He. set_solver.
Qed.

(** Unlinking the node [x] that follows the prefix. *)
Lemma chain_delete fwd fwd' i h l1 l2 x u :
  last (h :: l1) = Some u -> NoDup (h :: l1 ++ x :: l2) ->
  fwd' u i = fwd x i ->
  (forall y, y ∈ h :: l1 ++ l2 -> y <> u -> fwd' y i = fwd y i) ->
  chain fwd i h (l1 ++ x :: l2) -> chain fwd' i h (l1 ++ l2).
Proof.
  revert h. induction l1 as [|y l1 IH]; simpl; intros h Hu Hnd Hu' He Hc.
  - simplify_eq. destruct Hc as [_ Hc]. apply NoDup_cons in Hnd as [Hh Hnd].
    destruct l2 as [|z l2]; simpl in *; [by rewrite Hu'|].
    destruct Hc as [Hz Hc]. split; [by rewrite Hu'|]. eapply chain_ext; [|exact Hc].
    intros w Hw. apply He; set_solver.
  - destruct Hc as [Hh Hc]. apply NoDup_cons in Hnd as [Hhy Hnd].
    assert (h <> u).
    { intros ->. apply Hhy. apply last_Some_elem_of in Hu. set_solver. }
    split; [by rewrite He by set_solver|]. apply IH; try done.
    intros w Hw. apply He. set_solver.
Qed.

(** ** Searching *)

Definition below key_of (key : K) (x : nat) : Prop := exists k, key_of x = Some k /\ key_lt k key.
Definition not_below key_of (key : K) (x : nat) : Prop := exists k, key_of x = Some k /\ ~ key_lt k key.

Lemma advance_spec fwd key_of fuel i key x l1 l2 :
  chain fwd i x (l1 ++ l2) -> Forall (below key_of key) l1 ->
  (forall y, head l2 = Some y -> not_below key_of key y) -> (length l1 < fuel)%nat ->
  advance fwd key_of fuel i key x = last (x :: l1).
Proof.
  revert fuel x. induction l1 as [|y l1 IH]; intros [|fuel] x Hc Hl Hh Hf; simpl in *; try lia.
  - destruct l2 as [|z l2]; simpl in *; [by rewrite Hc|]. destruct Hc as [-> _]. simpl.
    destruct (Hh z eq_refl) as (k & -> & Hk). simpl. by rewrite decide_False.
  - destruct Hc as [-> Hc]. inversion Hl as [|? ? (k & Hk & Hlt) Hl']; subst. simpl. rewrite Hk. simpl.
    rewrite decide_True by done. apply IH; [done..|lia].
Qed.

(** The nodes of [l] that are linked at level [i]. *)
Definition at_level fwd (i : nat) (l : list nat) : list nat :=
  filter (fun y => is_Some (fwd y i)) l.

(** The node after which a key belongs, at level [i]: the last linked node of
    the prefix [l], or the header. *)
Definition pred_at fwd (h i : nat) (l : list nat) : nat := default h (last (at_level fwd i l)).

Lemma last_pred_at fwd h i l : last (h :: at_level fwd i l) = Some (pred_at fwd h i l).
Proof. unfold pred_at. rewrite last_cons. by destruct (last _). Qed.

Lemma pred_at_elem fwd h i l : pred_at fwd h i l ∈ h :: at_level fwd i l.
Proof. eapply last_Some_elem_of, last_pred_at. Qed.

Lemma at_level_app fwd i l1 l2 : at_level fwd i (l1 ++ l2) = at_level fwd i l1 ++ at_level fwd i l2.
Proof. apply filter_app. Qed.

Lemma elem_of_at_level fwd i l x : x ∈ at_level fwd i l <-> x ∈ l /\ is_Some (fwd x i).
Proof. unfold at_level. rewrite list_elem_of_filter. tauto. Qed.

Lemma length_at_level fwd i l : (length (at_level fwd i l) <= length l)%nat.
Proof. apply length_filter. Qed.

Lemma at_level_ext fwd fwd' i l :
  (forall y, y ∈ l -> is_Some (fwd' y i) <-> is_Some (fwd y i)) -> at_level fwd' i l = at_level fwd i l.
Proof.
  intros He. induction l as [|y l IH]; [done|]. unfold at_level in *. rewrite !filter_cons.
  rewrite IH by (intros; apply He; set_solver).
  specialize (He y ltac:(set_solver)). repeat case_decide; tauto || done.
Qed.

(** A node linked at a level is linked at every level below. *)
Definition downward fwd : Prop := forall x i, is_Some (fwd x (S i)) -> is_Some (fwd x i).

Lemma descend_spec fwd key_of fuel key h lo hi i x update :
  downward fwd ->
  (forall j, (j < i)%nat -> chain fwd j h (at_level fwd j (lo ++ hi))) ->
  Forall (below key_of key) lo -> Forall (not_below key_of key) hi -> (length lo < fuel)%nat ->
  (i = O \/ x ∈ h :: at_level fwd (pred i) lo) ->
  descend fwd key_of fuel key i x update =
    Some (if i is O then x else pred_at fwd h 0 lo, ((fun j => pred_at fwd h j lo) <$> seq 0 i) ++ update).
Proof.
  intros Hd. revert x update. induction i as [|i IH]; intros x update Hc Hlo Hhi Hf Hx; [done|].
  cbn [descend]. destruct Hx as [?|Hx]; [done|]. cbn [Nat.pred] in Hx.
  assert (advance fwd key_of fuel i key x = Some (pred_at fwd h i lo)) as ->.
  { rewrite <- last_pred_at. specialize (Hc i ltac:(lia)). rewrite at_level_app in Hc.
    apply list_elem_of_split in Hx as (l2 & l3 & E).
    rewrite (advance_spec fwd key_of fuel i key x l3 (at_level fwd i hi)).
    - rewrite E. by rewrite last_app_cons.
    - by eapply chain_from.
    - apply Forall_forall. intros y Hy. rewrite Forall_forall in Hlo. apply Hlo.
      destruct l2 as [|z l2]; simplify_eq/=.
      + by apply elem_of_at_level in Hy as [? _].
      + assert (y ∈ at_level fwd i lo) as Hy' by (rewrite H0; set_solver).
        by apply elem_of_at_level in Hy' as [? _].
    - intros y Hy. rewrite Forall_forall in Hhi. apply Hhi.
      apply head_Some_elem_of in Hy. by apply elem_of_at_level in Hy as [? _].
    - apply (f_equal length) in E. rewrite length_app in E. simpl in E.
      pose proof (length_at_level fwd i lo). lia. }
  cbn [mbind option_bind]. rewrite IH.
  - rewrite seq_S, fmap_app, <- app_assoc. simpl. do 2 f_equal. by destruct i.
  - intros j Hj. apply Hc. lia.
  - done.
  - done.
  - done.
  - destruct i as [|i]; [by left|right]. simpl. pose proof (pred_at_elem fwd h (S i) lo) as Hp.
    apply elem_of_cons in Hp as [->|Hp]; [by left|]. right.
    apply elem_of_at_level in Hp as [? ?]. apply elem_of_at_level. split; [done|]. by apply Hd.
Qed.

End core.
