(* ===== verification/SkipList.v ===== *)
(** Skip list (src/internal/skiplist/skiplist.go): data and operations.

    Nodes live in a heap [nodes] indexed by addresses; [forward] is a slice of
    optional addresses.  An operation returns [None] where the Go code would
    dereference nil or index a slice out of range (and where a loop would
    not end: the fuel [S (size nodes)] is more than the number of nodes).  What
    [Float64() < p] yields, toss after toss, is the argument [flips] of
    [Insert].  Every method runs under the lock.  Theorems: SkipListProofs.v. *)

From stdpp Require Import base tactics option list gmap sorting.
From Stdlib Require Import ZArith SpecFloat Lia.
From S2P Require Import Prelude Ordered SkipCore.

Inductive Error := ErrMaxLevel | ErrProbability.

Record Config := { MaxLevel : Z; P : float64 }.

Definition DefaultConfig : Config := {| MaxLevel := 32; P := S754_finite false 4503599627370496 (-54) |}.   (* 1/4 *)

Definition validate (c : Config) : result Error unit :=
  if MaxLevel c <=? 0 then Err ErrMaxLevel
  else if no_fraction (P c) then Err ErrProbability
  else Ok tt.

Record RangeOptions := {
  StartInclusive : bool; EndInclusive : bool; Limit : Z; Offset : Z;
}.

#[export] Instance eta_RangeOptions : Eta RangeOptions := fun o =>
  {| StartInclusive := StartInclusive o; EndInclusive := EndInclusive o; Limit := Limit o; Offset := Offset o |}.

Definition DefaultRangeOptions : RangeOptions :=
  {| StartInclusive := true; EndInclusive := true; Limit := 0; Offset := 0 |}.

Definition WithStartInclusive (v : bool) (o : RangeOptions) : RangeOptions := o <| StartInclusive := v |>.
Definition WithEndInclusive (v : bool) (o : RangeOptions) : RangeOptions := o <| EndInclusive := v |>.
Definition WithLimit (v : Z) (o : RangeOptions) : RangeOptions := o <| Limit := v |>.
Definition WithOffset (v : Z) (o : RangeOptions) : RangeOptions := o <| Offset := v |>.

Section skiplist.
Context {K V : Type} `{!Ordered K} (zeroK : K) (zeroV : V).

Record node := { key : K; value : V; forward : list (option nat) }.

#[export] Instance eta_node : Eta node := fun n =>
  {| key := key n; value := value n; forward := forward n |}.

Record Pair := { Key : K; Value : V }.

Record SkipList := {
  nodes : gmap nat node;     (* the heap *)
  header : nat;
  tail : option nat;
  level : nat;
  sl_length : Z;
  maxLevel : nat;
}.

#[export] Instance eta_SkipList : Eta SkipList := fun s =>
  {| nodes := nodes s; header := header s; tail := tail s; level := level s;
     sl_length := sl_length s; maxLevel := maxLevel s |}.

(** ** The heap *)

(** [x.forward[i]]; [None] is an index out of range. *)
Definition forward_at (h : gmap nat node) (x i : nat) : option (option nat) :=
  n ← h !! x; forward n !! i.

Definition key_at (h : gmap nat node) (x : nat) : option K := key <$> h !! x.

(** [x.forward[i] = v] *)
Definition set_forward (h : gmap nat node) (x i : nat) (v : option nat) : option (gmap nat node) :=
  n ← h !! x;
  if (i <? length (forward n))%nat then Some (<[x := n <| forward := <[i := v]> (forward n) |>]> h) else None.

Definition alloc (h : gmap nat node) (n : node) : nat * gmap nat node :=
  let a := fresh (dom h) in (a, <[a := n]> h).

(** ** Operations *)

Definition new_header (maxLevel : nat) : node :=
  {| key := zeroK; value := zeroV; forward := replicate maxLevel None |}.

(** [New(configs...)] with the first configuration, if there is a non-nil one. *)
Definition New (config : option Config) : result Error SkipList :=
  let cfg := default DefaultConfig config in
  let? _ := validate cfg in
  let m := Z.to_nat (MaxLevel cfg) in
  let '(a, h) := alloc ∅ (new_header m) in
  Ok {| nodes := h; header := a; tail := None; level := 1; sl_length := 0; maxLevel := m |}.

(** [flips]: the outcomes of [sl.random.Float64() < sl.p], in order. *)
Fixpoint random_loop (flips : list bool) (maxLevel level : nat) : nat :=
  match flips with
  | true :: flips => if (level <? maxLevel)%nat then random_loop flips maxLevel (S level) else level
  | _ => level
  end.

Definition randomLevel (flips : list bool) (sl : SkipList) : nat := random_loop flips (maxLevel sl) 1.

(** The loop over the levels that [Insert], [Delete], [Search] and [Range] begin
    with. *)
Definition find_path (sl : SkipList) (k : K) : option (nat * list nat) :=
  descend (forward_at (nodes sl)) (key_at (nodes sl)) (S (size (nodes sl))) k (level sl) (header sl) [].

(** [for i := i; i < i+n; i++ { newNode.forward[i] = update[i].forward[i];
    update[i].forward[i] = newNode }] *)
Fixpoint link (h : gmap nat node) (newNode : nat) (update : list nat) (i n : nat) : option (gmap nat node) :=
  match n with
  | O => Some h
  | S n =>
      u ← update !! i;
      next ← forward_at h u i;
      h ← set_forward h newNode i next;
      h ← set_forward h u i (Some newNode);
      link h newNode update (S i) n
  end.

Definition insert_new (flips : list bool) (k : K) (v : V) (update : list nat) (sl : SkipList) : option SkipList :=
  let lvl := randomLevel flips sl in
  let update := update ++ replicate (lvl - level sl) (header sl) in
  let '(newNode, h) := alloc (nodes sl) {| key := k; value := v; forward := replicate lvl None |} in
  h ← link h newNode update 0 lvl;
  next ← forward_at h newNode 0;
  Some (sl <| nodes := h |>
           <| level := if (level sl <? lvl)%nat then lvl else level sl |>
           <| tail := match next with None => Some newNode | Some _ => tail sl end |>
           <| sl_length := sl_length sl + 1 |>).

Definition Insert (flips : list bool) (k : K) (v : V) (sl : SkipList) : option SkipList :=
  '(x, update) ← find_path sl k;
  next ← forward_at (nodes sl) x 0;
  match next with
  | Some y =>
      n ← nodes sl !! y;
      if decide (key n = k) then Some (sl <| nodes := <[y := n <| value := v |>]> (nodes sl) |>)
      else insert_new flips k v update sl
  | None => insert_new flips k v update sl
  end.

(** [for i := i; i < i+n; i++ { if update[i].forward[i] != x { break };
    update[i].forward[i] = x.forward[i] }] *)
Fixpoint unlink (h : gmap nat node) (x : nat) (update : list nat) (i n : nat) : option (gmap nat node) :=
  match n with
  | O => Some h
  | S n =>
      u ← update !! i;
      next ← forward_at h u i;
      if decide (next = Some x) then
        target ← forward_at h x i;
        h ← set_forward h u i target;
        unlink h x update (S i) n
      else Some h
  end.

(** [for sl.level > 1 && sl.header.forward[sl.level-1] == nil { sl.level-- }] *)
Fixpoint shrink (h : gmap nat node) (header level : nat) : option nat :=
  match level with
  | S (S l as level') =>
      next ← forward_at h header level';
      match next with None => shrink h header level' | Some _ => Some level end
  | _ => Some level
  end.

(** The second component is [(value, true)] as [Some value], [(zero, false)] as
    [None]. *)
Definition Delete (k : K) (sl : SkipList) : option (SkipList * option V) :=
  '(x0, update) ← find_path sl k;
  next ← forward_at (nodes sl) x0 0;
  match next with
  | None => Some (sl, None)
  | Some x =>
      n ← nodes sl !! x;
      if decide (key n <> k) then Some (sl, None)
      else
        h ← unlink (nodes sl) x update 0 (level sl);
        lvl ← shrink h (header sl) (level sl);
        u0 ← update !! 0%nat;
        let tl := if decide (tail sl = Some x)
                  then if decide (u0 = header sl) then None else Some u0
                  else tail sl in
        Some (sl <| nodes := h |> <| level := lvl |> <| tail := tl |> <| sl_length := sl_length sl - 1 |>,
              Some (value n))
  end.

Definition Search (k : K) (sl : SkipList) : option (option V) :=
  '(x, _) ← find_path sl k;
  next ← forward_at (nodes sl) x 0;
  match next with
  | None => Some None
  | Some y => n ← nodes sl !! y; Some (if decide (key n = k) then Some (value n) else None)
  end.

Definition Contains (k : K) (sl : SkipList) : option bool :=
  r ← Search k sl; Some (bool_decide (is_Some r)).

(** The loop [for x != nil] of [Range]. *)
Fixpoint range_loop (fuel : nat) (h : gmap nat node) (start end_ : K) (options : RangeOptions)
    (x : option nat) (skipped : Z) (acc : list Pair) : option (list Pair) :=
  match x with
  | None => Some acc
  | Some y =>
      match fuel with
      | O => None
      | S fuel =>
          n ← h !! y;
          if decide (key_lt end_ (key n)) then Some acc
          else
            let includeStart := negb (bool_decide (key n = start) && negb (StartInclusive options)) in
            let includeEnd := negb (bool_decide (key n = end_) && negb (EndInclusive options)) in
            next ← forward n !! 0%nat;
            if includeStart && includeEnd then
              if skipped <? Offset options
              then range_loop fuel h start end_ options next (skipped + 1) acc
              else
                let acc := acc ++ [{| Key := key n; Value := value n |}] in
                if (0 <? Limit options) && (Limit options <=? Z.of_nat (length acc)) then Some acc
                else range_loop fuel h start end_ options next skipped acc
            else range_loop fuel h start end_ options next skipped acc
      end
  end.

(** [Range(start, end, opts...)] with the first options, if there are non-nil
    ones. *)
Definition Range (start end_ : K) (opts : option RangeOptions) (sl : SkipList) : option (list Pair) :=
  let options := default DefaultRangeOptions opts in
  if decide (key_lt end_ start) then Some []
  else
    '(x, _) ← find_path sl start;
    next ← forward_at (nodes sl) x 0;
    range_loop (S (size (nodes sl))) (nodes sl) start end_ options next 0 [].

Definition Len (sl : SkipList) : Z := sl_length sl.
Definition Level (sl : SkipList) : nat := level sl.

Fixpoint all_loop (fuel : nat) (h : gmap nat node) (x : option nat) (acc : list Pair) : option (list Pair) :=
  match x with
  | None => Some acc
  | Some y =>
      match fuel with
      | O => None
      | S fuel =>
          n ← h !! y;
          next ← forward n !! 0%nat;
          all_loop fuel h next (acc ++ [{| Key := key n; Value := value n |}])
      end
  end.

Definition All (sl : SkipList) : option (list Pair) :=
  first ← forward_at (nodes sl) (header sl) 0;
  all_loop (S (size (nodes sl))) (nodes sl) first [].

Definition Clear (sl : SkipList) : SkipList :=
  let '(a, h) := alloc (nodes sl) (new_header (maxLevel sl)) in
  sl <| nodes := h |> <| header := a |> <| tail := None |> <| level := 1%nat |> <| sl_length := 0 |>.

Definition pair_at (h : gmap nat node) (x : nat) : option Pair :=
  n ← h !! x; Some {| Key := key n; Value := value n |}.

Definition First (sl : SkipList) : option (option Pair) :=
  first ← forward_at (nodes sl) (header sl) 0;
  match first with None => Some None | Some x => p ← pair_at (nodes sl) x; Some (Some p) end.

Definition Last (sl : SkipList) : option (option Pair) :=
  match tail sl with None => Some None | Some x => p ← pair_at (nodes sl) x; Some (Some p) end.

End skiplist.
Arguments node K V : clear implicits.
Arguments SkipList K V : clear implicits.
Arguments Pair K V : clear implicits.
