(* ===== verification/SkipListProofs.v ===== *)
(** Theorems about the skip list (SkipList.v): it implements a sorted
    association list, every operation returns, and its level is exact. *)

From stdpp Require Import base tactics option list gmap strings sorting.
From Stdlib Require Import ZArith Lia.
From S2P Require Import Prelude Ordered SkipCore SkipList.

Section proofs.
Context {K V : Type} `{!Ordered K} (zeroK : K) (zeroV : V).
Implicit Types (h : gmap nat (node K V)) (sl : SkipList K V) (ns lo hi : list nat).

(** ** The heap *)

Lemma forward_at_downward h : downward (forward_at h).
Proof.
  intros x i. unfold forward_at. destruct (h !! x) as [n|]; simpl; [|done].
  intros Hs. apply lookup_lt_is_Some in Hs. apply lookup_lt_is_Some. lia.
Qed.

Lemma set_forward_spec h x i v :
  is_Some (forward_at h x i) -> exists h', set_forward h x i v = Some h' /\
    (forall y j, forward_at h' y j = if decide (y = x /\ j = i) then Some v else forward_at h y j) /\
    (forall y, pair_at h' y = pair_at h y) /\ dom h' = dom h.
Proof.
  unfold set_forward, forward_at, pair_at. destruct (h !! x) as [n|] eqn:Hx; simpl; [|by intros [? ?]].
  intros Hi. apply lookup_lt_is_Some in Hi. rewrite (proj2 (Nat.ltb_lt _ _)) by done.
  eexists. split; [done|]. split_and!.
  - intros y j. destruct (decide (y = x)) as [->|Hy].
    + rewrite lookup_insert_eq. simpl. rewrite Hx. simpl. destruct (decide (j = i)) as [->|Hj].
      * rewrite decide_True by done. by apply list_lookup_insert_eq.
      * rewrite decide_False by tauto. by apply list_lookup_insert_ne.
    + rewrite decide_False by tauto. by rewrite lookup_insert_ne.
  - intros y. destruct (decide (y = x)) as [->|Hy].
    + rewrite lookup_insert_eq, Hx. done.
    + by rewrite lookup_insert_ne.
  - rewrite dom_insert_L. apply elem_of_dom_2 in Hx. set_solver.
Qed.

Lemma link_spec h n update i m :
  (forall j, (i <= j < i + m)%nat -> exists u, update !! j = Some u /\ u <> n /\
     is_Some (forward_at h u j) /\ is_Some (forward_at h n j)) ->
  exists h', link h n update i m = Some h' /\
    (forall y j, forward_at h' y j =
       if decide (i <= j < i + m)%nat then
         if decide (y = n) then u ← update !! j; forward_at h u j
         else if decide (update !! j = Some y) then Some (Some n) else forward_at h y j
       else forward_at h y j) /\
    (forall y, pair_at h' y = pair_at h y) /\ dom h' = dom h.
Proof.
  revert h i. induction m as [|m IH]; intros h i Hu; simpl.
  { exists h. split_and!; try done. intros y j. by rewrite decide_False by lia. }
  destruct (Hu i ltac:(lia)) as (u & Eu & Hne & Hfu & Hfn). rewrite Eu. simpl.
  destruct Hfu as [next Hnext]. rewrite Hnext. simpl.
  destruct (set_forward_spec h n i next Hfn) as (h1 & -> & Hf1 & Hp1 & Hd1). simpl.
  destruct (set_forward_spec h1 u i (Some n)) as (h2 & -> & Hf2 & Hp2 & Hd2).
  { rewrite Hf1, decide_False by (intros [? ?]; congruence). by rewrite Hnext. }
  simpl. destruct (IH h2 (S i)) as (h' & -> & Hf' & Hp' & Hd').
  { intros j Hj. destruct (Hu j ltac:(lia)) as (w & Ew & Hw & Hfw & Hfn'). exists w.
    rewrite !Hf2, !Hf1, !decide_False by lia. done. }
  exists h'. split; [done|]. split_and!.
  - intros y j. rewrite Hf'. destruct (decide (S i <= j < S i + m)%nat) as [Hj|Hj].
    + rewrite (decide_True (P := (i <= j < i + S m)%nat)) by lia.
      assert (forall w, forward_at h2 w j = forward_at h w j) as E
        by (intros; by rewrite Hf2, Hf1, !decide_False by lia).
      destruct (update !! j) as [w|]; simpl; by rewrite ?E.
    + rewrite Hf2, Hf1. destruct (decide (j = i)) as [->|Hji].
      * rewrite (decide_True (P := (i <= i < i + S m)%nat)) by lia. rewrite Eu. simpl.
        destruct (decide (y = n)) as [->|Hy].
        { rewrite decide_False by (intros [? ?]; congruence). by rewrite decide_True, Hnext by done. }
        destruct (decide (y = u)) as [->|Hyu].
        { rewrite decide_True by done. by rewrite decide_True by done. }
        rewrite decide_False by tauto. rewrite decide_False by tauto. by rewrite decide_False by congruence.
      * rewrite (decide_False (P := (i <= j < i + S m)%nat)) by lia. by rewrite !decide_False by tauto.
  - intros y. by rewrite Hp', Hp2, Hp1.
  - by rewrite Hd', Hd2, Hd1.
Qed.

Lemma unlink_spec h x update i m t :
  (i <= t <= i + m)%nat ->
  (forall j, (i <= j < t)%nat -> exists u, update !! j = Some u /\ u <> x /\
     forward_at h u j = Some (Some x) /\ is_Some (forward_at h x j)) ->
  ((t < i + m)%nat -> exists u next, update !! t = Some u /\ forward_at h u t = Some next /\ next <> Some x) ->
  exists h', unlink h x update i m = Some h' /\
    (forall y j, forward_at h' y j =
       if decide ((i <= j < t)%nat /\ update !! j = Some y) then forward_at h x j else forward_at h y j) /\
    (forall y, pair_at h' y = pair_at h y) /\ dom h' = dom h.
Proof.
  revert h i. induction m as [|m IH]; intros h i Ht Hu He; simpl.
  { exists h. split_and!; try done. intros y j. by rewrite decide_False by lia. }
  destruct (decide (i = t)) as [->|Hit].
  { destruct He as (u & next & -> & Hn & Hne); [lia|]. simpl. rewrite Hn. simpl. rewrite decide_False by done.
    exists h. split_and!; try done. intros y j. by rewrite decide_False by lia. }
  destruct (Hu i ltac:(lia)) as (u & Eu & Hne & Hfu & [target Htar]). rewrite Eu. simpl.
  rewrite Hfu. simpl. rewrite decide_True by done. rewrite Htar. simpl.
  destruct (set_forward_spec h u i target) as (h1 & -> & Hf1 & Hp1 & Hd1); [by rewrite Hfu|]. simpl.
  destruct (IH h1 (S i)) as (h' & -> & Hf' & Hp' & Hd'); [lia| |..].
  { intros j Hj. destruct (Hu j ltac:(lia)) as (w & Ew & Hw & Hfw & Hfx). exists w.
    rewrite !Hf1, !decide_False by lia. done. }
  { intros Hlt. destruct (He ltac:(lia)) as (w & next & Ew & Hw & Hn). exists w, next.
    rewrite Hf1, decide_False by lia. done. }
  exists h'. split; [done|]. split_and!.
  - intros y j. rewrite Hf'. destruct (decide (j = i)) as [->|Hji].
    + rewrite decide_False by lia. rewrite Hf1, Eu. destruct (decide (y = u)) as [->|Hyu].
      * rewrite !decide_True by (split; [lia|done] || done). done.
      * rewrite !decide_False by (intros [? ?]; congruence). done.
    + rewrite !Hf1, !(decide_False (P := _ /\ j = i)) by tauto.
      destruct (decide ((S i <= j < t)%nat /\ update !! j = Some y)) as [[? ?]|Hn].
      * by rewrite decide_True by (split; [lia|done]).
      * rewrite decide_False; [done|]. intros [? ?]. apply Hn. split; [lia|done].
  - intros y. by rewrite Hp', Hp1.
  - by rewrite Hd', Hd1.
Qed.

(** ** The invariant *)

Definition key_before h (a b : nat) : Prop :=
  exists ka kb, key_at h a = Some ka /\ key_at h b = Some kb /\ key_lt ka kb.

(** [ns] are the nodes in the order of level 0. *)
Record sl_inv sl ns : Prop := {
  inv_chains : forall i, (i < maxLevel sl)%nat ->
    chain (forward_at (nodes sl)) i (header sl) (at_level (forward_at (nodes sl)) i ns);
  inv_heights : forall y i, y ∈ ns -> is_Some (forward_at (nodes sl) y i) -> (i < level sl)%nat;
  inv_linked : forall y, y ∈ ns -> is_Some (forward_at (nodes sl) y 0);
  inv_sorted : StronglySorted (key_before (nodes sl)) ns;
  inv_header : header sl ∉ ns;
  inv_level : (1 <= level sl <= maxLevel sl)%nat;
  inv_level_exact : (1 < level sl)%nat -> forward_at (nodes sl) (header sl) (level sl - 1) <> Some None;
  inv_tail : tail sl = last ns;
  inv_length : sl_length sl = Z.of_nat (length ns);
}.

(** What the list holds, in order. *)
Definition pairs h ns : list (Pair K V) := omap (pair_at h) ns.
Definition contents sl ns : list (Pair K V) := pairs (nodes sl) ns.

Lemma key_at_pair h x : key_at h x = Key <$> pair_at h x.
Proof. unfold key_at, pair_at. by destruct (h !! x). Qed.

Lemma pair_dom h x : is_Some (pair_at h x) <-> x ∈ dom h.
Proof. unfold pair_at. rewrite elem_of_dom. destruct (h !! x); simpl; split; intros [? ?]; by eauto. Qed.

Lemma forward_dom h x i : is_Some (forward_at h x i) -> x ∈ dom h.
Proof. unfold forward_at. rewrite elem_of_dom. destruct (h !! x); simpl; [eauto|by intros [? ?]]. Qed.

Lemma inv_nodup sl ns : sl_inv sl ns -> NoDup (header sl :: ns).
Proof.
  intros Hi. constructor; [apply Hi|]. pose proof (inv_sorted _ _ Hi) as Hs. clear Hi.
  induction Hs as [|a l Hs IH Ha]; [constructor|]. constructor; [|done].
  intros Hin. rewrite Forall_forall in Ha. destruct (Ha a Hin) as (ka & kb & E1 & E2 & Hlt).
  rewrite E1 in E2. simplify_eq. by apply key_lt_irrefl in Hlt.
Qed.

Lemma inv_dom sl ns y : sl_inv sl ns -> y ∈ header sl :: ns -> y ∈ dom (nodes sl).
Proof.
  intros Hi Hy. apply (forward_dom _ _ 0). apply elem_of_cons in Hy as [->|Hy]; [|by apply Hi].
  destruct (inv_level _ _ Hi). pose proof (inv_chains _ _ Hi 0 ltac:(lia)) as Hc.
  apply chain_defined in Hc. by inversion Hc.
Qed.

Lemma inv_size sl ns : sl_inv sl ns -> (length ns < S (size (nodes sl)))%nat.
Proof.
  intros Hi. pose proof (inv_nodup _ _ Hi) as Hnd. rewrite <- (size_dom (nodes sl)).
  assert (size (list_to_set ns : gset nat) <= size (dom (nodes sl)))%nat as Hle.
  { apply subseteq_size. intros y Hy. apply elem_of_list_to_set in Hy. apply (inv_dom sl ns); [done|set_solver]. }
  rewrite size_list_to_set in Hle by (by inversion Hnd). lia.
Qed.

(** ** Searching *)

Lemma sorted_split h (k : K) ns :
  (forall y, y ∈ ns -> is_Some (key_at h y)) -> StronglySorted (key_before h) ns ->
  exists lo hi, ns = lo ++ hi /\ Forall (below (key_at h) k) lo /\ Forall (not_below (key_at h) k) hi.
Proof.
  intros Hk Hs. induction Hs as [|a l Hs IH Ha]; [by exists [], []|].
  destruct (Hk a ltac:(set_solver)) as [ka Eka]. destruct (decide (key_lt ka k)) as [Hlt|Hge].
  - destruct IH as (lo & hi & -> & Hlo & Hhi); [set_solver|]. exists (a :: lo), hi.
    split_and!; try done. constructor; [|done]. by exists ka.
  - exists [], (a :: l). split_and!; try done. constructor; [by exists ka|].
    eapply Forall_impl; [exact Ha|]. intros b (ka' & kb & E & Eb & Hlt). exists kb. split; [done|].
    rewrite E in Eka. simplify_eq. intros Hb. by apply Hge, (key_lt_trans _ kb).
Qed.

Lemma inv_key sl ns y : sl_inv sl ns -> y ∈ ns -> is_Some (key_at (nodes sl) y).
Proof.
  intros Hi Hy. rewrite key_at_pair, fmap_is_Some. apply pair_dom. apply (inv_dom sl ns); [done|set_solver].
Qed.

Lemma at_level_0 sl ns lo hi : sl_inv sl ns -> ns = lo ++ hi -> at_level (forward_at (nodes sl)) 0 lo = lo.
Proof.
  intros Hi ->. unfold at_level. apply list_filter_all. apply Forall_forall. intros y Hy.
  apply (inv_linked _ _ Hi). set_solver.
Qed.

Lemma at_level_above sl ns lo hi i :
  sl_inv sl ns -> ns = lo ++ hi -> (level sl <= i)%nat -> at_level (forward_at (nodes sl)) i lo = [].
Proof.
  intros Hi -> Hl. apply list_filter_none. apply Forall_forall. intros y Hy Hs.
  apply (inv_heights _ _ Hi) in Hs; [lia|set_solver].
Qed.

Lemma find_path_spec sl ns lo hi k :
  sl_inv sl ns -> ns = lo ++ hi ->
  Forall (below (key_at (nodes sl)) k) lo -> Forall (not_below (key_at (nodes sl)) k) hi ->
  find_path sl k = Some (default (header sl) (last lo),
                         (fun j => pred_at (forward_at (nodes sl)) (header sl) j lo) <$> seq 0 (level sl)).
Proof.
  intros Hi E Hlo Hhi. unfold find_path. destruct (inv_level _ _ Hi) as [Hl1 Hl2].
  rewrite (descend_spec _ _ _ _ (header sl) lo hi); try done.
  - rewrite app_nil_r. destruct (level sl) as [|l]; [lia|]. unfold pred_at. by rewrite (at_level_0 sl ns lo hi).
  - apply forward_at_downward.
  - intros j Hj. rewrite <- E. apply Hi. lia.
  - pose proof (inv_size _ _ Hi). rewrite E, length_app in *. lia.
  - right. by left.
Qed.

(** The pointer out of the predecessor at level [j]. *)
Lemma pred_forward sl ns lo hi j :
  sl_inv sl ns -> ns = lo ++ hi -> (j < maxLevel sl)%nat ->
  forward_at (nodes sl) (pred_at (forward_at (nodes sl)) (header sl) j lo) j
    = Some (head (at_level (forward_at (nodes sl)) j hi)).
Proof.
  intros Hi E Hj. pose proof (inv_chains _ _ Hi j Hj) as Hc. rewrite E, at_level_app in Hc.
  pose proof (last_pred_at (forward_at (nodes sl)) (header sl) j lo) as Hp.
  apply last_Some in Hp as [l' Hl']. apply (chain_from _ _ _ _ _ _ _ Hl') in Hc.
  simpl in Hc. by destruct (at_level _ j hi); [|destruct Hc].
Qed.

Lemma find_path_next sl ns lo hi :
  sl_inv sl ns -> ns = lo ++ hi -> forward_at (nodes sl) (default (header sl) (last lo)) 0 = Some (head hi).
Proof.
  intros Hi E. destruct (inv_level _ _ Hi). pose proof (pred_forward sl ns lo hi 0 Hi E ltac:(lia)) as Hp.
  unfold pred_at in Hp. rewrite (at_level_0 sl ns lo hi Hi E) in Hp.
  rewrite Hp. f_equal. f_equal. unfold at_level. apply list_filter_all. apply Forall_forall. intros y Hy.
  apply (inv_linked _ _ Hi). rewrite E. set_solver.
Qed.

(** ** The specification: a sorted association list *)

Definition pair_lt (p q : Pair K V) : Prop := key_lt (Key p) (Key q).
Abbreviation sorted := (StronglySorted pair_lt).
Implicit Types (l A B : list (Pair K V)).

Definition spec_find (k : K) l : option (Pair K V) := List.find (fun p => bool_decide (Key p = k)) l.

Definition spec_insert (k : K) (v : V) l : list (Pair K V) :=
  filter (fun p => key_lt (Key p) k) l ++ {| Key := k; Value := v |} :: filter (fun p => key_lt k (Key p)) l.

Definition spec_delete (k : K) l : list (Pair K V) := filter (fun p => Key p <> k) l.

(** [B] without a leading pair of key [k]. *)
Definition skip_key (k : K) B : list (Pair K V) :=
  match B with p :: B' => if decide (Key p = k) then B' else B | [] => [] end.

Lemma spec_find_none l k : Forall (fun p => Key p <> k) l -> spec_find k l = None.
Proof. unfold spec_find. induction 1 as [|p l Hp _ IH]; [done|]. simpl. by rewrite bool_decide_false. Qed.

Lemma spec_find_app k l1 l2 :
  spec_find k (l1 ++ l2) = match spec_find k l1 with Some p => Some p | None => spec_find k l2 end.
Proof. unfold spec_find. induction l1 as [|p l1 IH]; [done|]. simpl. by case_bool_decide. Qed.

Section split.
Context (k : K) A B (HA : Forall (fun p => key_lt (Key p) k) A) (HB : Forall (fun p => ~ key_lt (Key p) k) B)
        (HS : sorted (A ++ B)).

Lemma skip_key_above : Forall (fun p => key_lt k (Key p)) (skip_key k B).
Proof.
  apply StronglySorted_app in HS as (_ & _ & Hs). destruct B as [|p B']; [constructor|]. simpl.
  apply StronglySorted_inv in Hs as [_ Hp]. inversion HB as [|? ? Hk _]; subst.
  apply key_not_lt in Hk as [Hk|Hk].
  - rewrite decide_True by done. eapply Forall_impl; [exact Hp|]. unfold pair_lt. intros q. by rewrite Hk.
  - rewrite decide_False by (intros E; rewrite E in Hk; by eapply key_lt_irrefl).
    constructor; [done|]. eapply Forall_impl; [exact Hp|]. intros q. unfold pair_lt. by apply key_lt_trans.
Qed.

Lemma filter_below : filter (fun p => key_lt (Key p) k) (A ++ B) = A.
Proof. rewrite filter_app, list_filter_all, list_filter_none by done. apply app_nil_r. Qed.

Lemma filter_above : filter (fun p => key_lt k (Key p)) (A ++ B) = skip_key k B.
Proof.
  rewrite filter_app, (list_filter_none _ A).
  2: { eapply Forall_impl; [exact HA|]. intros p. apply key_lt_asym. }
  pose proof skip_key_above as Hs. destruct B as [|p B']; [done|]. simpl in *. rewrite filter_cons.
  destruct (decide (Key p = k)) as [E|E].
  - rewrite decide_False by (rewrite E; apply key_lt_irrefl). by apply list_filter_all.
  - inversion Hs; subst. by rewrite decide_True, list_filter_all.
Qed.

Lemma spec_insert_split v : spec_insert k v (A ++ B) = A ++ {| Key := k; Value := v |} :: skip_key k B.
Proof. unfold spec_insert. by rewrite filter_below, filter_above. Qed.

Lemma spec_delete_split : spec_delete k (A ++ B) = A ++ skip_key k B.
Proof.
  unfold spec_delete. rewrite filter_app, (list_filter_all _ A).
  2: { eapply Forall_impl; [exact HA|]. intros p. apply key_lt_ne. }
  f_equal. pose proof skip_key_above as Hs. destruct B as [|p B']; [done|]. simpl in *. rewrite filter_cons.
  destruct (decide (Key p = k)) as [E|E]; [rewrite decide_False by tauto|rewrite decide_True by done; f_equal];
    apply list_filter_all; [exact (Forall_impl _ _ _ Hs (fun q H => not_eq_sym (key_lt_ne _ _ H)))|].
  inversion Hs; subst. by eapply Forall_impl; [eassumption|]; intros q H ?; apply (key_lt_ne _ _ H).
Qed.

Lemma spec_find_split :
  spec_find k (A ++ B) = match B with p :: _ => if decide (Key p = k) then Some p else None | [] => None end.
Proof.
  rewrite spec_find_app, (spec_find_none A k).
  2: { eapply Forall_impl; [exact HA|]. intros p. apply key_lt_ne. }
  pose proof skip_key_above as Hs. destruct B as [|p B']; [done|]. simpl in *.
  unfold spec_find. simpl. destruct (decide (Key p = k)) as [E|E].
  - by rewrite bool_decide_true.
  - rewrite bool_decide_false by done. apply spec_find_none. inversion Hs; subst.
    eapply Forall_impl; [eassumption|]. intros q H ?. by apply (key_lt_ne _ _ H).
Qed.

End split.

(** ** Nodes and pairs *)

Lemma pairs_app h (l1 l2 : list nat) : pairs h (l1 ++ l2) = pairs h l1 ++ pairs h l2.
Proof. apply omap_app. Qed.

Lemma pairs_ext h h' ns : (forall y, y ∈ ns -> pair_at h' y = pair_at h y) -> pairs h' ns = pairs h ns.
Proof.
  intros He. unfold pairs. induction ns as [|y ns IH]; [done|]. cbn.
  rewrite He by set_solver. fold (omap (pair_at h') ns). fold (omap (pair_at h) ns).
  rewrite IH by (intros; apply He; set_solver). done.
Qed.

Lemma pairs_cons h y ns p : pair_at h y = Some p -> pairs h (y :: ns) = p :: pairs h ns.
Proof. intros E. unfold pairs. simpl. by rewrite E. Qed.

Lemma pair_of h y n : h !! y = Some n -> pair_at h y = Some {| Key := key n; Value := value n |}.
Proof. unfold pair_at. by intros ->. Qed.

Lemma pairs_keys h ns (Q : K -> Prop) :
  Forall (fun y => exists k, key_at h y = Some k /\ Q k) ns -> Forall (fun p => Q (Key p)) (pairs h ns).
Proof.
  induction 1 as [|y ns (k & Hk & HQ) _ IH]; [constructor|]. rewrite key_at_pair in Hk.
  apply fmap_Some in Hk as (p & Hp & ->). rewrite (pairs_cons _ _ _ p) by done. by constructor.
Qed.

Lemma pairs_sorted h ns : StronglySorted (key_before h) ns -> sorted (pairs h ns).
Proof.
  induction 1 as [|y ns Hs IH Hy]; [constructor|].
  destruct (pair_at h y) as [p|] eqn:Ep.
  - rewrite (pairs_cons _ _ _ p) by done. constructor; [done|]. apply (pairs_keys h ns (fun k => key_lt (Key p) k)).
    eapply Forall_impl; [exact Hy|]. intros z (ka & kb & Ea & Eb & Hlt). exists kb. split; [done|].
    rewrite key_at_pair, Ep in Ea. by simplify_eq/=.
  - unfold pairs. simpl. by rewrite Ep.
Qed.

(** The nodes cut at a key, and the pairs with them. *)
Record cut sl ns (k : K) lo hi : Prop := {
  cut_eq : ns = lo ++ hi;
  cut_lo : Forall (below (key_at (nodes sl)) k) lo;
  cut_hi : Forall (not_below (key_at (nodes sl)) k) hi;
}.

Lemma cut_exists sl ns k : sl_inv sl ns -> exists lo hi, cut sl ns k lo hi.
Proof.
  intros Hi. destruct (sorted_split (nodes sl) k ns) as (lo & hi & ? & ? & ?).
  - intros y. by apply inv_key.
  - apply Hi.
  - exists lo, hi. done.
Qed.

Section at_cut.
Context sl ns (k : K) lo hi (Hi : sl_inv sl ns) (Hc : cut sl ns k lo hi).
#[local] Abbreviation h := (nodes sl).

Lemma cut_contents : contents sl ns = pairs h lo ++ pairs h hi.
Proof. unfold contents. rewrite (cut_eq _ _ _ _ _ Hc). apply pairs_app. Qed.

Lemma cut_pairs_lo : Forall (fun p => key_lt (Key p) k) (pairs h lo).
Proof. apply (pairs_keys h lo (fun k' => key_lt k' k)). apply Hc. Qed.

Lemma cut_pairs_hi : Forall (fun p => ~ key_lt (Key p) k) (pairs h hi).
Proof. apply (pairs_keys h hi (fun k' => ~ key_lt k' k)). apply Hc. Qed.

Lemma cut_sorted : sorted (pairs h lo ++ pairs h hi).
Proof. rewrite <- cut_contents. apply pairs_sorted, Hi. Qed.

Lemma cut_path : find_path sl k = Some (default (header sl) (last lo),
    (fun j => pred_at (forward_at h) (header sl) j lo) <$> seq 0 (level sl)).
Proof. apply (find_path_spec sl ns lo hi); [done|apply Hc..]. Qed.

Lemma cut_next : forward_at h (default (header sl) (last lo)) 0 = Some (head hi).
Proof. apply (find_path_next sl ns); [done|apply Hc]. Qed.

(** The node at the cut, if there is one, with its pair. *)
Lemma cut_cases :
  (hi = [] /\ pairs h hi = []) \/
  exists x hi' n, hi = x :: hi' /\ h !! x = Some n /\
    pairs h hi = {| Key := key n; Value := value n |} :: pairs h hi'.
Proof.
  assert (forall y, y ∈ hi -> y ∈ dom h) as Hx.
  { intros y Hy. apply (inv_dom sl ns); [done|]. rewrite (cut_eq _ _ _ _ _ Hc). set_solver. }
  destruct hi as [|x hi']; [by left|right].
  destruct (proj1 (elem_of_dom h x) (Hx x ltac:(set_solver))) as [n Hn].
  exists x, hi', n. split_and!; [done..|]. by apply pairs_cons, pair_of.
Qed.

Lemma Search_spec : Search k sl = Some (Value <$> spec_find k (contents sl ns)).
Proof.
  unfold Search. rewrite cut_path. simpl. rewrite cut_next. simpl.
  rewrite cut_contents, (spec_find_split k (pairs h lo) (pairs h hi) cut_pairs_lo cut_pairs_hi cut_sorted).
  destruct cut_cases as [[-> ->]|(x & hi' & n & -> & Hn & ->)]; [done|]. simpl.
  rewrite Hn. simpl. by case_decide.
Qed.

(** *** Insert *)

Lemma replace_value x hi' n v :
  hi = x :: hi' -> h !! x = Some n -> key n = k ->
  let sl' := sl <| nodes := <[x := n <| value := v |>]> h |> in
  sl_inv sl' ns /\ contents sl' ns = spec_insert k v (contents sl ns).
Proof.
  intros Ehi Hn Hk sl'.
  assert (forall y j, forward_at (nodes sl') y j = forward_at h y j) as Ef.
  { intros y j. unfold forward_at, sl'. simpl. destruct (decide (y = x)) as [->|Hy].
    - by rewrite lookup_insert_eq, Hn.
    - by rewrite lookup_insert_ne. }
  assert (forall y, key_at (nodes sl') y = key_at h y) as Ek.
  { intros y. unfold key_at, sl'. simpl. destruct (decide (y = x)) as [->|Hy].
    - by rewrite lookup_insert_eq, Hn.
    - by rewrite lookup_insert_ne. }
  split.
  - assert (forall i (ys : list nat), at_level (forward_at (nodes sl')) i ys = at_level (forward_at h) i ys) as Ea.
    { intros i ys. apply at_level_ext. intros y _. by rewrite Ef. }
    destruct Hi. split; try done.
    + intros i Hl. rewrite Ea. eapply chain_ext; [|by apply inv_chains0]. intros; apply Ef.
    + intros y i. rewrite Ef. apply inv_heights0.
    + intros y. rewrite Ef. apply inv_linked0.
    + clear - inv_sorted0 Ek. induction inv_sorted0 as [|a l Hs IH Ha]; constructor; [done|].
      eapply Forall_impl; [exact Ha|]. intros b. unfold key_before. by rewrite !Ek.
    + intros Hl. rewrite Ef. by apply inv_level_exact0.
  - pose proof (inv_nodup _ _ Hi) as Hnd. rewrite (cut_eq _ _ _ _ _ Hc), Ehi in Hnd.
    apply NoDup_cons in Hnd as [_ Hnd]. apply NoDup_app in Hnd as (_ & Hd & Hnd).
    apply NoDup_cons in Hnd as [Hx _].
    rewrite cut_contents, (spec_insert_split k _ _ cut_pairs_lo cut_pairs_hi cut_sorted).
    unfold contents. rewrite (cut_eq _ _ _ _ _ Hc), Ehi, !pairs_app.
    rewrite (pairs_cons (nodes sl') x hi' {| Key := k; Value := v |}).
    2: { unfold pair_at, sl'. simpl. by rewrite lookup_insert_eq, <- Hk. }
    rewrite (pairs_cons h x hi' {| Key := key n; Value := value n |}) by (by apply pair_of).
    simpl. rewrite decide_True by done. f_equal; [|f_equal]; apply pairs_ext; intros y Hy;
      unfold pair_at; rewrite lookup_insert_ne; try done; intros <-; set_solver.
Qed.

Abbreviation preds j := (pred_at (forward_at h) (header sl) j lo).

Lemma update_lookup lvl j : (j < Nat.max (level sl) lvl)%nat ->
  (((fun j => preds j) <$> seq 0 (level sl)) ++ replicate (lvl - level sl) (header sl)) !! j = Some (preds j).
Proof.
  intros Hj. destruct (decide (j < level sl)%nat) as [Hl|Hl].
  - rewrite lookup_app_l by (rewrite length_fmap, length_seq; done).
    by rewrite list_lookup_fmap, lookup_seq_lt by lia.
  - rewrite lookup_app_r by (rewrite length_fmap, length_seq; lia).
    rewrite length_fmap, length_seq, lookup_replicate_2 by lia. f_equal.
    unfold pred_at. rewrite (at_level_above sl ns lo hi); [done|done|apply Hc|lia].
Qed.

Lemma pred_ok j : (j < maxLevel sl)%nat -> preds j ∈ dom h /\ is_Some (forward_at h (preds j) j).
Proof.
  intros Hj. rewrite (pred_forward sl ns lo hi j Hi (cut_eq _ _ _ _ _ Hc) Hj).
  split; [|by eexists]. eapply forward_dom. by rewrite (pred_forward sl ns lo hi j Hi (cut_eq _ _ _ _ _ Hc) Hj).
Qed.

(** The heap after a new node has been linked in. *)
Record linked (v : V) (n lvl : nat) (h' : gmap nat (node K V)) : Prop := {
  linked_other : forall y j, y <> n -> forward_at h' y j =
    if decide ((j < lvl)%nat /\ y = preds j) then Some (Some n) else forward_at h y j;
  linked_new : forall j, forward_at h' n j = if decide (j < lvl)%nat then forward_at h (preds j) j else None;
  linked_pair : forall y, pair_at h' y = if decide (y = n) then Some {| Key := k; Value := v |} else pair_at h y;
}.

Lemma link_linked v lvl :
  (1 <= lvl <= maxLevel sl)%nat -> let n := fresh (dom h) in
  exists h', link (<[n := {| key := k; value := v; forward := replicate lvl None |}]> h) n
    (((fun j => preds j) <$> seq 0 (level sl)) ++ replicate (lvl - level sl) (header sl)) 0 lvl = Some h' /\
    linked v n lvl h'.
Proof.
  intros Hlvl n. assert (n ∉ dom h) as Hn by apply is_fresh. clearbody n.
  set (h0 := <[n := _]> h).
  assert (forall y j, y <> n -> forward_at h0 y j = forward_at h y j) as E1.
  { intros y j Hy. unfold forward_at, h0. by rewrite lookup_insert_ne. }
  assert (forall j, forward_at h0 n j = if decide (j < lvl)%nat then Some None else None) as E2.
  { intros j. unfold forward_at, h0. rewrite lookup_insert_eq. simpl. case_decide.
    - by rewrite lookup_replicate_2.
    - apply lookup_ge_None. rewrite length_replicate. lia. }
  destruct (link_spec h0 n (((fun j => preds j) <$> seq 0 (level sl)) ++ replicate (lvl - level sl) (header sl)) 0 lvl)
    as (h' & -> & Hf & Hp & _).
  { intros j Hj. exists (preds j). destruct (pred_ok j ltac:(lia)) as [Hd Hs].
    assert (preds j <> n) by (intros E; by rewrite E in Hd).
    split_and!; [apply update_lookup; lia|done|by rewrite E1|]. rewrite E2, decide_True by lia. by eexists. }
  exists h'. split; [done|]. split.
  - intros y j Hy. rewrite Hf, (decide_False (P := y = n)) by done. rewrite E1 by done.
    destruct (decide (0 <= j < 0 + lvl)%nat) as [Hj|Hj].
    + rewrite update_lookup by lia. destruct (decide (y = preds j)) as [->|Hne].
      * rewrite !decide_True by (split; [lia|done] || done). done.
      * rewrite !decide_False by (intros [? ?] || congruence; congruence). done.
    + by rewrite decide_False by lia.
  - intros j. rewrite Hf, (decide_True (P := n = n)) by done.
    destruct (decide (0 <= j < 0 + lvl)%nat) as [Hj|Hj].
    + rewrite update_lookup by lia. rewrite decide_True by lia. simpl. apply E1.
      intros E. destruct (pred_ok j ltac:(lia)) as [Hd _]. by rewrite E in Hd.
    + by rewrite E2, !decide_False by lia.
  - intros y. rewrite Hp. unfold pair_at, h0. case_decide as E.
    + subst y. by rewrite lookup_insert_eq.
    + by rewrite lookup_insert_ne.
Qed.

Section linked_inv.
Context (v : V) (n lvl : nat) (h' : gmap nat (node K V))
        (Hl : linked v n lvl h') (Hn : n ∉ dom h) (Hlvl : (1 <= lvl <= maxLevel sl)%nat).

Lemma new_not_old y : y ∈ header sl :: ns -> y <> n.
Proof. intros Hy ->. by apply Hn, (inv_dom sl ns). Qed.

Lemma linked_some y j : y ∈ header sl :: ns -> is_Some (forward_at h' y j) <-> is_Some (forward_at h y j).
Proof.
  intros Hy. rewrite (linked_other _ _ _ _ Hl) by (by apply new_not_old). case_decide as E; [|done].
  destruct E as [Hj ->]. split; intros _; [|by eexists]. apply pred_ok. lia.
Qed.

Lemma linked_level_old j ys : (forall y, y ∈ ys -> y ∈ ns) -> at_level (forward_at h') j ys = at_level (forward_at h) j ys.
Proof. intros Hy. apply at_level_ext. intros y Hin. apply linked_some. set_solver. Qed.

Lemma linked_level j : at_level (forward_at h') j (lo ++ n :: hi) =
  at_level (forward_at h) j lo ++ (if decide (j < lvl)%nat then [n] else []) ++ at_level (forward_at h) j hi.
Proof.
  pose proof (cut_eq _ _ _ _ _ Hc) as E.
  rewrite at_level_app, linked_level_old by (rewrite E; set_solver). f_equal.
  unfold at_level at 1. rewrite filter_cons. fold (at_level (forward_at h') j hi).
  rewrite linked_level_old by (rewrite E; set_solver). rewrite (linked_new _ _ _ _ Hl).
  destruct (decide (j < lvl)%nat) as [Hj|Hj].
  - rewrite decide_True; [done|]. apply pred_ok. lia.
  - rewrite decide_False; [done|]. by intros [? ?].
Qed.

Lemma linked_chain j : (j < maxLevel sl)%nat ->
  chain (forward_at h') j (header sl) (at_level (forward_at h') j (lo ++ n :: hi)).
Proof.
  intros Hj. pose proof (inv_chains _ _ Hi j Hj) as Hch. rewrite linked_level.
  rewrite (cut_eq _ _ _ _ _ Hc), at_level_app in Hch.
  assert (forall y, y ∈ header sl :: at_level (forward_at h) j lo ++ at_level (forward_at h) j hi ->
                    y ∈ header sl :: ns) as Hsub.
  { intros y. rewrite <- at_level_app, <- (cut_eq _ _ _ _ _ Hc), !elem_of_cons, elem_of_at_level. tauto. }
  destruct (decide (j < lvl)%nat) as [Hlt|Hge].
  - apply (chain_insert (forward_at h) _ _ _ _ _ _ (preds j)); try done.
    + apply last_pred_at.
    + rewrite <- at_level_app, <- (cut_eq _ _ _ _ _ Hc). pose proof (inv_nodup _ _ Hi) as Hnd.
      apply NoDup_cons in Hnd as [Hh Hnd]. constructor; [|by apply NoDup_filter].
      rewrite elem_of_at_level. tauto.
    + intros Hin. by apply (new_not_old n (Hsub _ Hin)).
    + rewrite (linked_other _ _ _ _ Hl); [by rewrite decide_True|].
      apply new_not_old, Hsub. pose proof (pred_at_elem (forward_at h) (header sl) j lo). set_solver.
    + rewrite (linked_new _ _ _ _ Hl). by rewrite decide_True.
    + intros y Hy Hne. rewrite (linked_other _ _ _ _ Hl) by (by apply new_not_old, Hsub).
      by rewrite decide_False by tauto.
  - eapply chain_ext; [|exact Hch]. intros y Hy.
    rewrite (linked_other _ _ _ _ Hl) by (by apply new_not_old, Hsub). by rewrite decide_False by tauto.
Qed.

Lemma linked_key y : key_at h' y = if decide (y = n) then Some k else key_at h y.
Proof. rewrite !key_at_pair, (linked_pair _ _ _ _ Hl). by case_decide. Qed.

Lemma linked_sorted : skip_key k (pairs h hi) = pairs h hi -> StronglySorted (key_before h') (lo ++ n :: hi).
Proof.
  intros Hsk. assert (forall y, y ∈ ns -> key_at h' y = key_at h y) as Ek.
  { intros y Hy. rewrite linked_key, decide_False; [done|]. apply new_not_old. set_solver. }
  pose proof (inv_sorted _ _ Hi) as Hs. rewrite (cut_eq _ _ _ _ _ Hc) in Hs.
  assert (key_at h' n = Some k) as Ekn by (by rewrite linked_key, decide_True).
  assert (forall y, y ∈ lo -> y ∈ ns) as Hlo by (rewrite (cut_eq _ _ _ _ _ Hc); set_solver).
  assert (forall y, y ∈ hi -> y ∈ ns) as Hhi by (rewrite (cut_eq _ _ _ _ _ Hc); set_solver).
  assert (forall ys, (forall y, y ∈ ys -> y ∈ ns) -> StronglySorted (key_before h) ys ->
                     StronglySorted (key_before h') ys) as Hmap.
  { intros ys Hys Hss. induction Hss as [|a l Hss IH Ha]; constructor; [apply IH; set_solver|].
    rewrite Forall_forall in Ha |- *. intros b Hb. unfold key_before. rewrite !Ek by set_solver. by apply Ha. }
  apply StronglySorted_app in Hs as (Hs12 & Hs1 & Hs2). apply StronglySorted_app. split_and!.
  - intros a b Ha Hb. apply elem_of_cons in Hb as [->|Hb].
    + pose proof (cut_lo _ _ _ _ _ Hc) as Hb. rewrite Forall_forall in Hb. destruct (Hb a Ha) as (ka & E & Hlt).
      exists ka, k. rewrite Ek by auto. done.
    + unfold key_before. rewrite !Ek by auto. by apply Hs12.
  - by apply Hmap.
  - constructor; [by apply Hmap|]. apply Forall_forall. intros b Hb.
    pose proof (skip_key_above k _ _ cut_pairs_hi cut_sorted) as Habove. rewrite Hsk in Habove.
    destruct (inv_key sl ns b Hi (Hhi b Hb)) as [kb Ekb].
    exists k, kb. rewrite (Ek b) by auto. split_and!; try done.
    rewrite key_at_pair in Ekb. apply fmap_Some in Ekb as (p & Hp & ->).
    rewrite Forall_forall in Habove. apply Habove. unfold pairs. apply list_elem_of_omap. eauto.
Qed.

Lemma linked_contents : pairs h' (lo ++ n :: hi) = pairs h lo ++ {| Key := k; Value := v |} :: pairs h hi.
Proof.
  rewrite pairs_app, (pairs_cons h' n hi {| Key := k; Value := v |}).
  2: by rewrite (linked_pair _ _ _ _ Hl), decide_True.
  f_equal; [|f_equal]; apply pairs_ext; intros y Hy; rewrite (linked_pair _ _ _ _ Hl), decide_False; try done;
    apply new_not_old; rewrite (cut_eq _ _ _ _ _ Hc); set_solver.
Qed.

Lemma linked_heights y j : y ∈ lo ++ n :: hi -> is_Some (forward_at h' y j) -> (j < Nat.max (level sl) lvl)%nat.
Proof.
  intros Hy Hs. destruct (decide (y = n)) as [->|Hne].
  - rewrite (linked_new _ _ _ _ Hl) in Hs. case_decide; [lia|by destruct Hs].
  - assert (y ∈ ns) as Hin by (rewrite (cut_eq _ _ _ _ _ Hc); set_solver).
    apply linked_some in Hs; [|set_solver]. apply (inv_heights _ _ Hi) in Hs; [lia|done].
Qed.

Lemma linked_top : (1 < Nat.max (level sl) lvl)%nat ->
  forward_at h' (header sl) (Nat.max (level sl) lvl - 1) <> Some None.
Proof.
  intros H1. rewrite (linked_other _ _ _ _ Hl) by (apply new_not_old; set_solver). case_decide as E; [done|].
  destruct (decide (level sl < lvl)%nat) as [Hlt|Hge].
  - exfalso. apply E. split; [lia|]. unfold pred_at.
    rewrite (at_level_above sl ns lo hi); [done|done|apply Hc|lia].
  - rewrite Nat.max_l in * by lia. by apply (inv_level_exact _ _ Hi).
Qed.

End linked_inv.

Lemma randomLevel_bounds flips : (1 <= randomLevel flips sl <= maxLevel sl)%nat.
Proof.
  unfold randomLevel. destruct (inv_level _ _ Hi) as [H1 H2].
  assert (forall m (l : nat), (1 <= l <= m)%nat -> (1 <= random_loop flips m l <= m)%nat) as Hr; [|apply Hr; lia].
  induction flips as [|[] flips IH]; intros m l Hl; simpl; [lia| |lia].
  destruct (Nat.ltb_spec l m); [apply IH|]; lia.
Qed.

Lemma insert_new_spec flips v :
  skip_key k (pairs h hi) = pairs h hi ->
  let n := fresh (dom h) in
  exists sl', insert_new flips k v ((fun j => preds j) <$> seq 0 (level sl)) sl = Some sl' /\
    maxLevel sl' = maxLevel sl /\ sl_inv sl' (lo ++ n :: hi) /\
    contents sl' (lo ++ n :: hi) = spec_insert k v (contents sl ns).
Proof.
  intros Hsk n. unfold insert_new, alloc. pose proof (randomLevel_bounds flips) as Hlvl.
  set (lvl := randomLevel flips sl) in *. fold n.
  assert (n ∉ dom h) as Hn by apply is_fresh.
  destruct (link_linked v lvl Hlvl) as (h' & Hlink & Hl). fold n in Hlink, Hl. rewrite Hlink. simpl.
  assert (forward_at h' n 0 = Some (head hi)) as Hnext.
  { rewrite (linked_new _ _ _ _ Hl), decide_True by lia. unfold pred_at.
    rewrite (at_level_0 sl ns lo hi Hi (cut_eq _ _ _ _ _ Hc)). apply cut_next. }
  rewrite Hnext. simpl. eexists. split; [done|]. split; [done|]. split.
  - destruct (inv_level _ _ Hi) as [Hl1 Hl2].
    assert ((if (level sl <? lvl)%nat then lvl else level sl) = Nat.max (level sl) lvl) as El
      by (destruct (Nat.ltb_spec (level sl) lvl); lia).
    split; simpl; rewrite ?El.
    + intros i. by apply (linked_chain v n lvl).
    + intros y i. by apply (linked_heights v n lvl).
    + intros y Hy. destruct (decide (y = n)) as [->|Hne]; [by rewrite Hnext|].
      assert (y ∈ ns) as Hin by (rewrite (cut_eq _ _ _ _ _ Hc); set_solver).
      apply (linked_some v n lvl); [done..|set_solver|by apply (inv_linked _ _ Hi)].
    + by apply (linked_sorted v n lvl).
    + pose proof (inv_header _ _ Hi) as Hh. rewrite (cut_eq _ _ _ _ _ Hc) in Hh.
      assert (header sl <> n) by (by apply new_not_old; [|set_solver]). set_solver.
    + lia.
    + by apply (linked_top v n lvl).
    + rewrite (inv_tail _ _ Hi), (cut_eq _ _ _ _ _ Hc). rewrite last_app_cons.
      destruct hi as [|y hi']; [done|]. simpl. by rewrite last_app_cons.
    + rewrite (inv_length _ _ Hi), (cut_eq _ _ _ _ _ Hc), !length_app. simpl. lia.
  - unfold contents at 1. simpl. rewrite (linked_contents v n lvl) by done.
    rewrite cut_contents, (spec_insert_split k _ _ cut_pairs_lo cut_pairs_hi cut_sorted). by rewrite Hsk.
Qed.

Lemma Insert_at flips v : exists sl' ns', Insert flips k v sl = Some sl' /\ maxLevel sl' = maxLevel sl /\
  sl_inv sl' ns' /\ contents sl' ns' = spec_insert k v (contents sl ns).
Proof.
  unfold Insert. rewrite cut_path. simpl. rewrite cut_next. simpl.
  destruct cut_cases as [[Eh Ep]|(x & hi' & n & Eh & Hn & Ep)]; rewrite Eh; simpl.
  - destruct (insert_new_spec flips v) as (sl' & -> & ? & ? & ?); [by rewrite Ep|by eexists _, _].
  - rewrite Hn. simpl. destruct (decide (key n = k)) as [Ek|Ek].
    + destruct (replace_value x hi' n v Eh Hn Ek). eexists _, ns. done.
    + destruct (insert_new_spec flips v) as (sl' & -> & ? & ? & ?); [|by eexists _, _].
      rewrite Ep. simpl. by rewrite decide_False.
Qed.

(** *** Delete *)

Section unlinked.
Context (x : nat) (hi' : list nat) (n : node K V) (Ehi : hi = x :: hi') (Hx : h !! x = Some n) (Hk : key n = k).

Abbreviation height := (length (forward n)).

Lemma height_spec j : is_Some (forward_at h x j) <-> (j < height)%nat.
Proof. unfold forward_at. rewrite Hx. simpl. apply lookup_lt_is_Some. Qed.

Lemma victim_in : x ∈ ns.
Proof. rewrite (cut_eq _ _ _ _ _ Hc), Ehi. set_solver. Qed.

Lemma height_bounds : (1 <= height <= level sl)%nat.
Proof.
  pose proof victim_in as Hin. pose proof (inv_linked _ _ Hi x Hin) as H0. apply height_spec in H0.
  split; [lia|]. assert (height - 1 < level sl)%nat; [|lia].
  apply (inv_heights _ _ Hi x); [done|]. apply height_spec. lia.
Qed.

Lemma victim_nodup : NoDup (header sl :: lo ++ x :: hi').
Proof. pose proof (inv_nodup _ _ Hi) as Hnd. by rewrite (cut_eq _ _ _ _ _ Hc), Ehi in Hnd. Qed.

Lemma victim_level j : at_level (forward_at h) j hi =
  (if decide (j < height)%nat then [x] else []) ++ at_level (forward_at h) j hi'.
Proof.
  rewrite Ehi. unfold at_level. rewrite filter_cons. pose proof (height_spec j) as Hh.
  repeat case_decide; tauto || done.
Qed.

Lemma pred_not_victim j : preds j <> x.
Proof.
  pose proof victim_nodup as Hnd. apply NoDup_cons in Hnd as [Hh Hnd]. apply NoDup_app in Hnd as (_ & Hd & _).
  pose proof (pred_at_elem (forward_at h) (header sl) j lo) as Hp. intros E. rewrite E in Hp.
  apply elem_of_cons in Hp as [Hp|Hp]; [subst; set_solver|].
  apply elem_of_at_level in Hp as [Hp _]. apply (Hd x Hp). set_solver.
Qed.

(** The heap after the node has been unlinked. *)
Record unlinked (h' : gmap nat (node K V)) : Prop := {
  unlinked_forward : forall y j, forward_at h' y j =
    if decide ((j < height)%nat /\ y = preds j) then forward_at h x j else forward_at h y j;
  unlinked_pair : forall y, pair_at h' y = pair_at h y;
}.

Lemma unlink_unlinked : exists h',
  unlink h x ((fun j => preds j) <$> seq 0 (level sl)) 0 (level sl) = Some h' /\ unlinked h'.
Proof.
  pose proof height_bounds as Hb. destruct (inv_level _ _ Hi) as [_ Hlm].
  assert (forall j, (j < level sl)%nat -> ((fun j => preds j) <$> seq 0 (level sl)) !! j = Some (preds j)) as Eu.
  { intros j Hj. by rewrite list_lookup_fmap, lookup_seq_lt. }
  assert (forall j, (j < level sl)%nat -> forward_at h (preds j) j = Some (head (at_level (forward_at h) j hi))) as Ef.
  { intros j Hj. apply (pred_forward sl ns); [done|apply Hc|lia]. }
  destruct (unlink_spec h x ((fun j => preds j) <$> seq 0 (level sl)) 0 (level sl) height) as (h' & -> & Hf & Hp & _).
  - lia.
  - intros j Hj. exists (preds j). split_and!; [apply Eu; lia|apply pred_not_victim| |apply height_spec; lia].
    rewrite Ef by lia. rewrite victim_level, decide_True by lia. done.
  - intros Hlt. eexists _, _. split_and!; [apply Eu; lia|apply Ef; lia|].
    rewrite victim_level, decide_False by lia. simpl. intros Hh. apply head_Some_elem_of in Hh.
    apply elem_of_at_level in Hh as [Hh _]. pose proof victim_nodup as Hnd.
    apply NoDup_cons in Hnd as [_ Hnd]. apply NoDup_app in Hnd as (_ & _ & Hnd). by inversion Hnd.
  - exists h'. split; [done|]. split; [|done]. intros y j. rewrite Hf.
    destruct (decide (j < height)%nat) as [Hj|Hj].
    + rewrite Eu by lia. repeat case_decide; try done; naive_solver lia.
    + rewrite !decide_False by lia. done.
Qed.

Context (h' : gmap nat (node K V)) (Hu : unlinked h').

Lemma unlinked_some y j : is_Some (forward_at h' y j) -> is_Some (forward_at h y j).
Proof.
  rewrite (unlinked_forward _ Hu). case_decide as E; [|done]. destruct E as [Hj ->]. intros _.
  pose proof height_bounds. destruct (inv_level _ _ Hi). apply pred_ok. lia.
Qed.

Lemma unlinked_some' y j : is_Some (forward_at h y j) -> is_Some (forward_at h' y j).
Proof.
  rewrite (unlinked_forward _ Hu). case_decide as E; [|done]. intros _. apply height_spec, E.
Qed.

Lemma unlinked_level j ys : at_level (forward_at h') j ys = at_level (forward_at h) j ys.
Proof. apply at_level_ext. split; [apply unlinked_some|apply unlinked_some']. Qed.

Lemma unlinked_chain j : (j < maxLevel sl)%nat ->
  chain (forward_at h') j (header sl) (at_level (forward_at h') j (lo ++ hi')).
Proof.
  intros Hj. pose proof (inv_chains _ _ Hi j Hj) as Hch.
  rewrite (cut_eq _ _ _ _ _ Hc), at_level_app, victim_level in Hch. rewrite unlinked_level, at_level_app.
  destruct (decide (j < height)%nat) as [Hlt|Hge].
  - apply (chain_delete (forward_at h) _ _ _ _ _ x (preds j)); try done.
    + apply last_pred_at.
    + pose proof victim_nodup as Hnd. apply NoDup_cons in Hnd as [Hh Hnd].
      assert (x :: at_level (forward_at h) j hi' = at_level (forward_at h) j hi) as ->
        by (rewrite victim_level; by rewrite decide_True).
      rewrite Ehi, <- at_level_app. constructor; [|by apply NoDup_filter]. rewrite elem_of_at_level. tauto.
    + rewrite (unlinked_forward _ Hu). by rewrite decide_True.
    + intros y Hy Hne. rewrite (unlinked_forward _ Hu). by rewrite decide_False by tauto.
  - eapply chain_ext; [|exact Hch]. intros y Hy. rewrite (unlinked_forward _ Hu). by rewrite decide_False by tauto.
Qed.

Lemma unlinked_sorted : StronglySorted (key_before h') (lo ++ hi').
Proof.
  pose proof (inv_sorted _ _ Hi) as Hs. rewrite (cut_eq _ _ _ _ _ Hc), Ehi in Hs.
  apply (StronglySorted_drop_middle _ lo [x] hi') in Hs.
  assert (forall y, key_at h' y = key_at h y) as Ek by (intros; by rewrite !key_at_pair, (unlinked_pair _ Hu)).
  induction Hs as [|a l Hs IH Ha]; constructor; [done|]. eapply Forall_impl; [exact Ha|].
  intros b. unfold key_before. by rewrite !Ek.
Qed.

Lemma unlinked_contents : pairs h' (lo ++ hi') = spec_delete k (contents sl ns).
Proof.
  rewrite cut_contents, (spec_delete_split k _ _ cut_pairs_lo cut_pairs_hi cut_sorted), pairs_app.
  rewrite !(pairs_ext h h') by (intros; apply (unlinked_pair _ Hu)).
  rewrite Ehi, (pairs_cons h x hi' _ (pair_of _ _ _ Hx)). simpl. by rewrite decide_True.
Qed.

Lemma unlinked_tail :
  (if decide (tail sl = Some x)
   then if decide (preds 0 = header sl) then None else Some (preds 0) else tail sl) = last (lo ++ hi').
Proof.
  pose proof victim_nodup as Hnd. apply NoDup_cons in Hnd as [Hh Hnd]. apply NoDup_app in Hnd as (_ & Hd & Hnd).
  rewrite (inv_tail _ _ Hi), (cut_eq _ _ _ _ _ Hc), Ehi, last_app_cons.
  unfold pred_at. rewrite (at_level_0 sl ns lo hi Hi (cut_eq _ _ _ _ _ Hc)).
  destruct hi' as [|y hi''].
  - rewrite app_nil_r. rewrite decide_True by done. destruct (last lo) as [u|] eqn:El; simpl.
    + rewrite decide_False; [done|]. intros ->. apply last_Some_elem_of in El. set_solver.
    + by rewrite decide_True.
  - rewrite last_app_cons. change (last (x :: y :: hi'')) with (last (y :: hi'')).
    rewrite decide_False; [done|]. intros El. apply last_Some_elem_of in El.
    apply NoDup_cons in Hnd as [? _]. done.
Qed.

End unlinked.

Lemma shrink_spec h0 (hd l : nat) :
  (1 <= l)%nat -> (forall j, (j < l)%nat -> is_Some (forward_at h0 hd j)) ->
  exists l' : nat, shrink h0 hd l = Some l' /\ (1 <= l' <= l)%nat /\
    (forall j, (l' <= j < l)%nat -> forward_at h0 hd j = Some None) /\
    ((1 < l')%nat -> forward_at h0 hd (l' - 1) <> Some None).
Proof.
  induction l as [|l IH]; [lia|]. intros _ Hs. destruct l as [|l].
  { exists 1%nat. split_and!; [done|lia..]. }
  destruct (Hs (S l) ltac:(lia)) as [next Hn].
  change (shrink h0 hd (S (S l))) with
    (next ← forward_at h0 hd (S l); match next with None => shrink h0 hd (S l) | Some _ => Some (S (S l)) end).
  rewrite Hn. destruct next as [y|]; cbn [mbind option_bind].
  - exists (S (S l)). split_and!; [done|lia..|]. intros _. simpl. by rewrite Hn.
  - destruct IH as (l' & -> & Hb & Hnil & Htop); [lia|intros; apply Hs; lia|].
    exists l'. split_and!; [done|lia..| |done]. intros j Hj.
    destruct (decide (j = S l)) as [->|]; [done|]. apply Hnil. lia.
Qed.

Lemma Delete_found x hi' n :
  hi = x :: hi' -> h !! x = Some n -> key n = k ->
  exists sl', Delete k sl = Some (sl', Some (value n)) /\ maxLevel sl' = maxLevel sl /\
    sl_inv sl' (lo ++ hi') /\ contents sl' (lo ++ hi') = spec_delete k (contents sl ns).
Proof.
  intros Ehi Hx Hk. unfold Delete. rewrite cut_path. simpl. rewrite cut_next, Ehi. simpl. rewrite Hx. simpl.
  rewrite decide_False by tauto.
  destruct (unlink_unlinked x hi' n Ehi Hx Hk) as (h' & -> & Hu). simpl.
  destruct (inv_level _ _ Hi) as [Hl1 Hl2].
  assert (forall y, y ∈ lo ++ hi' -> y ∈ ns) as Hsub
    by (rewrite (cut_eq _ _ _ _ _ Hc), Ehi; set_solver).
  destruct (shrink_spec h' (header sl) (level sl)) as (lvl & -> & Hlvl & Hnil & Htop); [lia| |].
  { intros j Hj. pose proof (unlinked_chain x hi' n Ehi Hx Hk h' Hu j ltac:(lia)) as Hch.
    apply chain_defined in Hch. by inversion Hch. }
  simpl. rewrite list_lookup_fmap, lookup_seq_lt by lia. simpl. eexists. split; [done|]. split; [done|]. split.
  - split; simpl.
    + by apply (unlinked_chain x hi' n).
    + intros y i Hy Hs. destruct (decide (i < lvl)%nat) as [|Hge]; [done|exfalso].
      apply (unlinked_some x hi' n Ehi Hx Hk h' Hu) in Hs as Hs0. apply (inv_heights _ _ Hi) in Hs0; [|auto].
      pose proof (unlinked_chain x hi' n Ehi Hx Hk h' Hu i ltac:(lia)) as Hch.
      assert (y ∈ at_level (forward_at h') i (lo ++ hi')) as Hin by (by apply elem_of_at_level).
      destruct (at_level (forward_at h') i (lo ++ hi')) as [|z zs]; [by apply not_elem_of_nil in Hin|].
      destruct Hch as [Hch _]. rewrite (Hnil i) in Hch by lia. done.
    + intros y Hy. apply (unlinked_some' x n Hx h' Hu), (inv_linked _ _ Hi). auto.
    + by apply (unlinked_sorted x hi' n).
    + intros Hin. by apply (inv_header _ _ Hi), Hsub.
    + lia.
    + done.
    + by apply (unlinked_tail x hi' n Ehi Hx Hk h' Hu).
    + rewrite (inv_length _ _ Hi), (cut_eq _ _ _ _ _ Hc), Ehi, !length_app. simpl. lia.
  - by apply (unlinked_contents x hi' n).
Qed.

Lemma Delete_at : exists sl' ns',
  Delete k sl = Some (sl', Value <$> spec_find k (contents sl ns)) /\ maxLevel sl' = maxLevel sl /\
  sl_inv sl' ns' /\ contents sl' ns' = spec_delete k (contents sl ns).
Proof.
  pose proof (spec_find_split k _ _ cut_pairs_lo cut_pairs_hi cut_sorted) as Ef.
  pose proof (spec_delete_split k _ _ cut_pairs_lo cut_pairs_hi cut_sorted) as Ed.
  rewrite <- cut_contents in Ef, Ed. rewrite Ef.
  destruct cut_cases as [[Eh Ep]|(x & hi' & n & Eh & Hn & Ep)].
  - unfold Delete. rewrite cut_path. simpl. rewrite cut_next, Ep, Eh. simpl.
    exists sl, ns. rewrite Ed, cut_contents, Ep. done.
  - rewrite Ep in Ed |- *. simpl in Ed |- *. destruct (decide (key n = k)) as [Ek|Ek].
    + destruct (Delete_found x hi' n Eh Hn Ek) as (sl' & -> & ? & ? & ?). by eexists _, _.
    + unfold Delete. rewrite cut_path. simpl. rewrite cut_next, Eh. simpl. rewrite Hn. simpl.
      rewrite decide_True by done. exists sl, ns. rewrite Ed, cut_contents, Ep. done.
Qed.

End at_cut.

(** ** Walking along level 0 *)

Definition selected (start end_ : K) (o : RangeOptions) (p : Pair K V) : Prop :=
  ~ key_lt (Key p) start /\ ~ key_lt end_ (Key p) /\
  (Key p = start -> StartInclusive o = true) /\ (Key p = end_ -> EndInclusive o = true).

#[local] Instance selected_dec start end_ o p : Decision (selected start end_ o p).
Proof. unfold selected. apply _. Defined.

Definition limited (o : RangeOptions) (used : Z) l : list (Pair K V) :=
  if 0 <? Limit o then take (Z.to_nat (Limit o - used)) l else l.

Definition spec_range (start end_ : K) (o : RangeOptions) l : list (Pair K V) :=
  if decide (key_lt end_ start) then []
  else limited o 0 (drop (Z.to_nat (Offset o)) (filter (selected start end_ o) l)).

(** The nodes [ys] follow one another at level 0, to the end. *)
Definition run_of h (ys : list nat) : Prop :=
  match ys with [] => True | y :: ys => chain (forward_at h) 0 y ys end.

Lemma run_cons h y ys : run_of h (y :: ys) ->
  exists n, h !! y = Some n /\ forward n !! 0%nat = Some (head ys) /\ run_of h ys /\
    pairs h (y :: ys) = {| Key := key n; Value := value n |} :: pairs h ys.
Proof.
  intros Hr. assert (forward_at h y 0 = Some (head ys)) as Hf by (by destruct ys; [|destruct Hr]).
  unfold forward_at in Hf. destruct (h !! y) as [n|] eqn:En; [|done]. exists n. split_and!; try done.
  - by destruct ys; [|destruct Hr].
  - by apply pairs_cons, pair_of.
Qed.

Lemma run_suffix sl ns lo hi : sl_inv sl ns -> ns = lo ++ hi -> run_of (nodes sl) hi.
Proof.
  intros Hi E. destruct (inv_level _ _ Hi). pose proof (inv_chains _ _ Hi 0 ltac:(lia)) as Hc.
  rewrite (at_level_0 sl ns ns []) in Hc by (done || by rewrite app_nil_r).
  destruct hi as [|y hi]; [done|]. rewrite E in Hc. by eapply chain_app.
Qed.

Lemma all_loop_spec fuel h ys acc : run_of h ys -> (length ys <= fuel)%nat ->
  all_loop fuel h (head ys) acc = Some (acc ++ pairs h ys).
Proof.
  revert fuel acc. induction ys as [|y ys IH]; intros fuel acc Hr Hf.
  { destruct fuel; simpl; by rewrite app_nil_r. }
  destruct fuel as [|fuel]; simpl in Hf; [lia|]. destruct (run_cons _ _ _ Hr) as (n & Hn & Hfw & Hr' & ->).
  simpl. rewrite Hn. simpl. rewrite Hfw. simpl. rewrite IH by (done || lia). by rewrite <- app_assoc.
Qed.

Lemma drop_skip (o k : Z) (p : Pair K V) l : k < o ->
  drop (Z.to_nat (o - k)) (p :: l) = drop (Z.to_nat (o - (k + 1))) l.
Proof. intros H. replace (Z.to_nat (o - k)) with (S (Z.to_nat (o - (k + 1)))) by lia. done. Qed.

Lemma limited_cons (o : RangeOptions) used (p : Pair K V) l :
  0 < Limit o -> used < Limit o -> limited o used (p :: l) = p :: limited o (used + 1) l.
Proof.
  intros H1 H2. unfold limited. rewrite (proj2 (Z.ltb_lt _ _)) by done.
  replace (Z.to_nat (Limit o - used)) with (S (Z.to_nat (Limit o - (used + 1)))) by lia. done.
Qed.

Lemma range_loop_spec start end_ o h fuel ys skipped acc :
  run_of h ys -> (length ys <= fuel)%nat -> sorted (pairs h ys) ->
  Forall (fun p => ~ key_lt (Key p) start) (pairs h ys) ->
  (0 < Limit o -> Z.of_nat (length acc) < Limit o) ->
  range_loop fuel h start end_ o (head ys) skipped acc =
    Some (acc ++ limited o (Z.of_nat (length acc))
                   (drop (Z.to_nat (Offset o - skipped)) (filter (selected start end_ o) (pairs h ys)))).
Proof.
  revert fuel skipped acc. induction ys as [|y ys IH]; intros fuel skipped acc Hr Hf Hs Hst Hlim.
  { assert (forall m, limited o m (drop (Z.to_nat (Offset o - skipped)) []) = []) as E.
    { intros m. unfold limited. rewrite drop_nil. destruct (0 <? _); [apply take_nil|done]. }
    change (pairs h []) with (@nil (Pair K V)). rewrite filter_nil, E, app_nil_r. by destruct fuel. }
  destruct fuel as [|fuel]; simpl in Hf; [lia|].
  destruct (run_cons _ _ _ Hr) as (n & Hn & Hfw & Hr' & Ep). rewrite Ep in *.
  apply StronglySorted_inv in Hs as [Hs Hfirst]. apply Forall_cons in Hst as [Hst1 Hst]. simpl in Hst1.
  simpl. rewrite Hn. simpl. destruct (decide (key_lt end_ (key n))) as [Hend|Hend].
  { rewrite list_filter_none.
    - unfold limited. rewrite drop_nil, take_nil. destruct (0 <? _); by rewrite app_nil_r.
    - constructor; [unfold selected; simpl; tauto|]. eapply Forall_impl; [exact Hfirst|].
      intros q Hq (_ & Hq' & _). by apply Hq', (key_lt_trans _ (key n)). }
  rewrite Hfw. simpl. rewrite filter_cons.
  set (p := {| Key := key n; Value := value n |}) in *.
  assert (negb (bool_decide (key n = start) && negb (StartInclusive o))
          && negb (bool_decide (key n = end_) && negb (EndInclusive o)) = bool_decide (selected start end_ o p)) as Esel.
  { apply eq_true_iff_eq. rewrite bool_decide_eq_true. unfold selected. simpl.
    destruct (StartInclusive o), (EndInclusive o); repeat case_bool_decide; simpl; intuition congruence. }
  rewrite Esel. destruct (decide (selected start end_ o p)) as [Hsel|Hsel].
  2: { rewrite bool_decide_false by done. apply IH; done || lia. }
  rewrite bool_decide_true by done. destruct (Z.ltb_spec skipped (Offset o)) as [Hsk|Hsk].
  { rewrite IH by (done || lia). by rewrite drop_skip. }
  replace (Z.to_nat (Offset o - skipped)) with 0%nat by lia. rewrite drop_0.
  set (rest := filter _ (pairs h ys)) in *. rewrite length_app. simpl.
  assert (Z.of_nat (length acc + 1) = Z.of_nat (length acc) + 1) as El by lia. rewrite El.
  assert (drop (Z.to_nat (Offset o - skipped)) rest = rest) as Ed
    by (replace (Z.to_nat (Offset o - skipped)) with 0%nat by lia; done).
  destruct (Z.ltb_spec 0 (Limit o)) as [Hl|Hl]; simpl.
  - rewrite limited_cons by (done || auto).
    destruct (Z.leb_spec (Limit o) (Z.of_nat (length acc) + 1)) as [Hfull|Hroom].
    + unfold limited. rewrite (proj2 (Z.ltb_lt 0 (Limit o))) by done. specialize (Hlim Hl).
      replace (Z.to_nat (Limit o - (Z.of_nat (length acc) + 1))) with 0%nat by lia. done.
    + rewrite IH, <- app_assoc; try done; [|lia|intros _; rewrite length_app; simpl; lia].
      fold rest. rewrite Ed, length_app. simpl. by rewrite El.
  - rewrite IH, <- app_assoc; try done; [|lia..]. fold rest. rewrite Ed. simpl.
    unfold limited. rewrite (proj2 (Z.ltb_ge 0 (Limit o))) by done. done.
Qed.

(** ** Refinement *)

Inductive op :=
| OInsert (flips : list bool) (k : K) (v : V) | ODelete (k : K) | OSearch (k : K) | OContains (k : K)
| ORange (start end_ : K) (opts : option RangeOptions) | OLen | OAll | OClear | OFirst | OLast.

Inductive response :=
| RUnit | RValue (v : option V) | RBool (b : bool) | RPairs (l : list (Pair K V)) | RLen (n : Z)
| RPair (p : option (Pair K V)).

Definition step sl (o : op) : option (SkipList K V * response) :=
  match o with
  | OInsert flips k v => sl ← Insert flips k v sl; Some (sl, RUnit)
  | ODelete k => '(sl, r) ← Delete k sl; Some (sl, RValue r)
  | OSearch k => r ← Search k sl; Some (sl, RValue r)
  | OContains k => r ← Contains k sl; Some (sl, RBool r)
  | ORange s e opts => r ← Range s e opts sl; Some (sl, RPairs r)
  | OLen => Some (sl, RLen (Len sl))
  | OAll => r ← All sl; Some (sl, RPairs r)
  | OClear => Some (Clear zeroK zeroV sl, RUnit)
  | OFirst => r ← First sl; Some (sl, RPair r)
  | OLast => r ← Last sl; Some (sl, RPair r)
  end.

(** The same operations on a sorted association list. *)
Definition spec_step l (o : op) : list (Pair K V) * response :=
  match o with
  | OInsert _ k v => (spec_insert k v l, RUnit)
  | ODelete k => (spec_delete k l, RValue (Value <$> spec_find k l))
  | OSearch k => (l, RValue (Value <$> spec_find k l))
  | OContains k => (l, RBool (bool_decide (is_Some (spec_find k l))))
  | ORange s e opts => (l, RPairs (spec_range s e (default DefaultRangeOptions opts) l))
  | OLen => (l, RLen (Z.of_nat (length l)))
  | OAll => (l, RPairs l)
  | OClear => ([], RUnit)
  | OFirst => (l, RPair (head l))
  | OLast => (l, RPair (last l))
  end.

Fixpoint run sl (os : list op) : option (SkipList K V * list response) :=
  match os with
  | [] => Some (sl, [])
  | o :: os => '(sl, r) ← step sl o; '(sl, rs) ← run sl os; Some (sl, r :: rs)
  end.

Fixpoint spec_run l (os : list op) : list response :=
  match os with [] => [] | o :: os => (spec_step l o).2 :: spec_run (spec_step l o).1 os end.

Lemma pairs_length sl ns : sl_inv sl ns -> length (contents sl ns) = length ns.
Proof.
  intros Hi. assert (forall y, y ∈ ns -> is_Some (pair_at (nodes sl) y)) as Hs.
  { intros y Hy. apply pair_dom, (inv_dom sl ns); [done|set_solver]. }
  unfold contents. clear Hi. induction ns as [|y ns IH]; [done|].
  destruct (Hs y ltac:(set_solver)) as [p Hp]. rewrite (pairs_cons _ _ _ p) by done. simpl.
  rewrite IH; [done|]. set_solver.
Qed.

Lemma Range_spec sl ns s e opts : sl_inv sl ns ->
  Range s e opts sl = Some (spec_range s e (default DefaultRangeOptions opts) (contents sl ns)).
Proof.
  intros Hi. unfold Range, spec_range. case_decide as Hlt; [done|].
  destruct (cut_exists sl ns s Hi) as (lo & hi & Hc). rewrite (cut_path sl ns s lo hi Hi Hc). cbn [mbind option_bind].
  rewrite (cut_next sl ns s lo hi Hi Hc). cbn [mbind option_bind].
  pose proof (cut_pairs_lo sl ns s lo hi Hc) as Hlo. pose proof (cut_sorted sl ns s lo hi Hi Hc) as Hs.
  rewrite (range_loop_spec s e (default DefaultRangeOptions opts)).
  - rewrite Z.sub_0_r, (cut_contents sl ns s lo hi Hc), filter_app, (list_filter_none _ (pairs (nodes sl) lo)); [done|].
    eapply Forall_impl; [exact Hlo|]. unfold selected. tauto.
  - by apply (run_suffix sl ns lo), Hc.
  - pose proof (inv_size _ _ Hi) as Hsz. rewrite (cut_eq _ _ _ _ _ Hc), length_app in Hsz. lia.
  - by apply StronglySorted_app in Hs as (_ & _ & ?).
  - by apply (cut_pairs_hi sl ns s lo hi).
  - done.
Qed.

Lemma first_node sl ns : sl_inv sl ns -> forward_at (nodes sl) (header sl) 0 = Some (head ns).
Proof. intros Hi. apply (find_path_next sl ns [] ns Hi eq_refl). Qed.

Lemma All_spec sl ns : sl_inv sl ns -> All sl = Some (contents sl ns).
Proof.
  intros Hi. unfold All. rewrite (first_node sl ns Hi). cbn [mbind option_bind]. apply all_loop_spec.
  - by apply (run_suffix sl ns []).
  - pose proof (inv_size _ _ Hi). lia.
Qed.

Lemma pair_lookup sl ns y : sl_inv sl ns -> y ∈ ns -> exists p, pair_at (nodes sl) y = Some p.
Proof. intros Hi Hy. apply pair_dom, (inv_dom sl ns); [done|set_solver]. Qed.

Lemma First_spec sl ns : sl_inv sl ns -> First sl = Some (head (contents sl ns)).
Proof.
  intros Hi. unfold First. rewrite (first_node sl ns Hi). simpl. destruct ns as [|y ns]; [done|].
  destruct (pair_lookup sl _ y Hi) as [p Hp]; [set_solver|].
  unfold contents. rewrite (pairs_cons _ _ _ p) by done. simpl. by rewrite Hp.
Qed.

Lemma Last_spec sl ns : sl_inv sl ns -> Last sl = Some (last (contents sl ns)).
Proof.
  intros Hi. unfold Last. rewrite (inv_tail _ _ Hi). destruct ns as [|y ns _] using rev_ind; [done|].
  destruct (pair_lookup sl _ y Hi) as [p Hp]; [set_solver|].
  unfold contents. rewrite pairs_app, (pairs_cons _ y [] p) by done. rewrite last_snoc, Hp.
  change (pairs (nodes sl) []) with (@nil (Pair K V)). by rewrite last_snoc.
Qed.

Lemma header_inv sl0 h a m : (1 <= m)%nat -> maxLevel sl0 = m ->
  let h' := <[a := new_header zeroK zeroV m]> h in
  sl_inv (sl0 <| nodes := h' |> <| header := a |> <| tail := None |> <| level := 1%nat |> <| sl_length := 0 |>) [].
Proof.
  intros Hm Em h'. split; simpl; try done; try set_solver; try lia.
  - intros i Hl. unfold forward_at, h'. rewrite lookup_insert_eq. simpl. apply lookup_replicate_2. lia.
  - constructor.
Qed.

Lemma New_inv_skiplist config sl : New zeroK zeroV config = Ok sl -> sl_inv sl [].
Proof.
  unfold New, validate. destruct (Z.leb_spec (MaxLevel (default DefaultConfig config)) 0) as [|Hm]; [done|].
  destruct (no_fraction _); [done|]. cbv [rbind]. intros [= <-].
  exact (header_inv {| nodes := ∅; header := 0; tail := None; level := 0; sl_length := 0;
                       maxLevel := Z.to_nat (MaxLevel (default DefaultConfig config)) |}
                    ∅ (fresh (dom (∅ : gmap nat (node K V)))) (Z.to_nat (MaxLevel (default DefaultConfig config)))
                    ltac:(lia) eq_refl).
Qed.

Lemma step_refines_sorted sl ns o : sl_inv sl ns -> exists sl' ns',
  step sl o = Some (sl', (spec_step (contents sl ns) o).2) /\ sl_inv sl' ns' /\
  contents sl' ns' = (spec_step (contents sl ns) o).1.
Proof.
  intros Hi. destruct o as [flips k v|k|k|k|s e opts| | | | |]; simpl.
  - destruct (cut_exists sl ns k Hi) as (lo & hi & Hc).
    destruct (Insert_at sl ns k lo hi Hi Hc flips v) as (sl' & ns' & -> & _ & ? & ?). by exists sl', ns'.
  - destruct (cut_exists sl ns k Hi) as (lo & hi & Hc).
    destruct (Delete_at sl ns k lo hi Hi Hc) as (sl' & ns' & -> & _ & ? & ?). by exists sl', ns'.
  - destruct (cut_exists sl ns k Hi) as (lo & hi & Hc).
    rewrite (Search_spec sl ns k lo hi Hi Hc). by exists sl, ns.
  - destruct (cut_exists sl ns k Hi) as (lo & hi & Hc). unfold Contains.
    rewrite (Search_spec sl ns k lo hi Hi Hc). exists sl, ns. simpl. split_and!; try done.
    do 3 f_equal. apply bool_decide_ext, fmap_is_Some.
  - rewrite (Range_spec sl ns) by done. by exists sl, ns.
  - exists sl, ns. unfold Len. by rewrite (inv_length _ _ Hi), pairs_length.
  - rewrite (All_spec sl ns) by done. by exists sl, ns.
  - eexists _, []. split; [done|]. split; [|done]. unfold Clear, alloc.
    destruct (inv_level _ _ Hi). apply header_inv; [lia|done].
  - rewrite (First_spec sl ns) by done. by exists sl, ns.
  - rewrite (Last_spec sl ns) by done. by exists sl, ns.
Qed.

Lemma run_refines_sorted sl ns os : sl_inv sl ns -> exists sl' ns',
  run sl os = Some (sl', spec_run (contents sl ns) os) /\ sl_inv sl' ns'.
Proof.
  revert sl ns. induction os as [|o os IH]; intros sl ns Hi; simpl; [by exists sl, ns|].
  destruct (step_refines_sorted sl ns o Hi) as (sl1 & ns1 & -> & Hi1 & E). simpl.
  destruct (IH sl1 ns1 Hi1) as (sl2 & ns2 & -> & Hi2). rewrite E. by exists sl2, ns2.
Qed.

(** C17: the skip list is a sorted map.  Whatever levels the random source
    yields, every sequence of insertions, deletions, searches, range queries
    (with exclusive bounds, offset and limit), enumerations and clears on a new
    list returns, without running into nil or an index out of range, exactly
    what a sorted association list returns. *)
Theorem skiplist_refines_sorted_map config sl os :
  New zeroK zeroV config = Ok sl -> exists sl', run sl os = Some (sl', spec_run [] os).
Proof.
  intros Hn%New_inv_skiplist. destruct (run_refines_sorted sl [] os Hn) as (sl' & ns' & -> & _). by exists sl'.
Qed.

End proofs.

(** ** Example *)

Definition demo_flips : list bool := [true; true; false].

Definition demo_ops : list (@op Z string) :=
  [OInsert demo_flips 5 "e"; OInsert [] 1 "a"; OInsert [true] 3 "c"; OInsert [] 3 "C"; ODelete 5;
   ORange 0 9 (Some (WithLimit 1 (WithOffset 1 DefaultRangeOptions))); OLast; OAll]%string.

Lemma skiplist_refines_sorted_map_witness :
  exists sl, New 0 ""%string None = Ok sl /\ exists sl',
    run 0 ""%string sl demo_ops = Some (sl', spec_run [] demo_ops) /\
    (spec_run [] demo_ops) !! 5%nat = Some (RPairs [{| Key := 3; Value := "C" |}]).
Proof.
  eexists. split; [reflexivity|].
  destruct (skiplist_refines_sorted_map 0 ""%string None _ demo_ops eq_refl) as [sl' H].
  exists sl'. split; [exact H|]. vm_compute. reflexivity.
Defined.
