(* ===== verification/LsmEntry.v ===== *)
(** Entries of the LSM tree and their encoding (src/internal/lsm/entry.go).

    A decoder consumes a [bytes.Reader], the list of the bytes that remain.
    [Reader.Read] fills what it can and only fails at the end of the data;
    [binary.Read] fails on a short read. *)

From stdpp Require Import base tactics option list strings.
From Stdlib Require Import ZArith Lia.
From S2P Require Import Prelude.

Record Entry := { Key : string; Value : string; Tombstone : bool; Timestamp : Z }.

#[export] Instance Entry_eq_dec : EqDecision Entry.
Proof. solve_decision. Defined.

Definition Size (e : Entry) : Z := Z.of_nat (String.length (Key e)) + Z.of_nat (String.length (Value e)) + 1 + 8.

(** ** Bytes *)

Definition le_encode (n : nat) (z : Z) : list Z := reverse (be_encode n z).
Definition le_decode (bs : list Z) : Z := be_decode (reverse bs).

(** [binary.Read] of [n] bytes, through [io.ReadFull]. *)
Definition read_full (n : nat) (r : list Z) : option (list Z * list Z) :=
  if (length r <? n)%nat then None else Some (take n r, drop n r).

(** [Reader.Read] into a slice of [n] zero bytes. *)
Definition read_some (n : nat) (r : list Z) : option (list Z * list Z) :=
  match r with
  | [] => None
  | _ => Some (take n r ++ replicate (n - length r) 0, drop n r)
  end.

(** ** Entries *)

Definition Encode (e : Entry) : list Z :=
  le_encode 4 (uint32 (Z.of_nat (String.length (Key e)))) ++ str_bytes (Key e) ++
  le_encode 4 (uint32 (Z.of_nat (String.length (Value e)))) ++ str_bytes (Value e) ++
  [if Tombstone e then 1 else 0] ++ le_encode 8 (uint64 (Timestamp e)).

(** The entry and the number of bytes read; [None] is an error of the reader. *)
Definition DecodeEntry (data : list Z) : option (Entry * Z) :=
  '(b, r) ← read_full 4 data;
  let keyLen := le_decode b in
  '(keyBytes, r) ← read_some (Z.to_nat keyLen) r;
  '(b, r) ← read_full 4 r;
  let valLen := le_decode b in
  '(valBytes, r) ← read_some (Z.to_nat valLen) r;
  '(t, r) ← read_full 1 r;
  '(b, r) ← read_full 8 r;
  Some ({| Key := bytes_str keyBytes; Value := bytes_str valBytes;
           Tombstone := bool_decide (t = [1]); Timestamp := int64 (le_decode b) |},
        4 + keyLen + 4 + valLen + 1 + 8).

Record IndexEntry := { ie_Key : string; ie_Offset : Z; ie_EntryLen : Z }.

Definition IndexEncode (ie : IndexEntry) : list Z :=
  le_encode 4 (uint32 (Z.of_nat (String.length (ie_Key ie)))) ++ str_bytes (ie_Key ie) ++
  le_encode 8 (uint64 (ie_Offset ie)) ++ le_encode 4 (uint32 (ie_EntryLen ie)).

Definition DecodeIndexEntry (data : list Z) : option (IndexEntry * Z) :=
  '(b, r) ← read_full 4 data;
  let keyLen := le_decode b in
  '(keyBytes, r) ← read_some (Z.to_nat keyLen) r;
  '(b, r) ← read_full 8 r;
  let offset := int64 (le_decode b) in
  '(b, r) ← read_full 4 r;
  Some ({| ie_Key := bytes_str keyBytes; ie_Offset := offset; ie_EntryLen := intw 32 (le_decode b) |},
        4 + keyLen + 8 + 4).

(** ** Round trips *)

Lemma length_le_encode n z : length (le_encode n z) = n.
Proof. unfold le_encode. by rewrite length_reverse, length_be_encode. Qed.

Lemma le_decode_encode n z : le_decode (le_encode n z) = z mod 2 ^ (8 * Z.of_nat n).
Proof. unfold le_decode, le_encode. by rewrite reverse_involutive, be_decode_encode. Qed.

Lemma read_full_app n l r : length l = n -> read_full n (l ++ r) = Some (l, r).
Proof.
  intros <-. unfold read_full. rewrite length_app.
  destruct (Nat.ltb_spec (length l + length r) (length l)); [lia|]. by rewrite take_app_length, drop_app_length.
Qed.

Lemma read_some_app n l r : length l = n -> r <> [] -> read_some n (l ++ r) = Some (l, r).
Proof.
  intros <- Hr. unfold read_some. destruct (l ++ r) eqn:E; [by destruct l|]. rewrite <- E.
  rewrite take_app_length, drop_app_length, length_app. by replace (_ - _)%nat with 0%nat by lia; rewrite app_nil_r.
Qed.

Lemma le_encode_nonempty n z r : (n <> 0)%nat -> le_encode n z ++ r <> [].
Proof. intros Hn E. apply (f_equal length) in E. rewrite length_app, length_le_encode in E. simpl in E. lia. Qed.

Lemma uint_le_decode n (z w : Z) : w = 8 * Z.of_nat n -> le_decode (le_encode n (uintw w z)) = uintw w z.
Proof. intros ->. rewrite le_decode_encode. unfold uintw. apply Z.mod_mod. lia. Qed.

Lemma int_uint w z : 0 < w -> - 2 ^ (w - 1) <= z < 2 ^ (w - 1) -> intw w (uintw w z) = z.
Proof.
  intros Hw Hz. rewrite <- (intw_small w z) at 2 by done. unfold intw, uintw. by rewrite Zplus_mod_idemp_l.
Qed.

(** The fields fit their widths on disk. *)
Definition entry_fits (e : Entry) : Prop :=
  Z.of_nat (String.length (Key e)) < 2 ^ 32 /\ Z.of_nat (String.length (Value e)) < 2 ^ 32 /\
  - 2 ^ 63 <= Timestamp e < 2 ^ 63.

Lemma decode_encode_entry e rest :
  entry_fits e -> DecodeEntry (Encode e ++ rest) = Some (e, Z.of_nat (length (Encode e))).
Proof.
  intros (Hk & Hv & Ht). unfold DecodeEntry, Encode. rewrite <- !app_assoc.
  rewrite read_full_app by apply length_le_encode. cbn [mbind option_bind].
  rewrite uint_le_decode, uintw_small by lia.
  rewrite read_some_app; [|rewrite length_str_bytes; lia|by apply le_encode_nonempty]. cbn [mbind option_bind].
  rewrite read_full_app by apply length_le_encode. cbn [mbind option_bind].
  rewrite uint_le_decode, uintw_small by lia.
  rewrite read_some_app; [|rewrite length_str_bytes; lia|done]. cbn [mbind option_bind].
  rewrite read_full_app by done. cbn [mbind option_bind].
  rewrite read_full_app by apply length_le_encode. cbn [mbind option_bind].
  rewrite uint_le_decode, int_uint, !bytes_str_bytes by lia.
  rewrite !length_app, !length_le_encode, !length_str_bytes. f_equal. f_equal.
  - by destruct e as [k v [] t].
  - simpl. lia.
Qed.

Definition index_fits (ie : IndexEntry) : Prop :=
  Z.of_nat (String.length (ie_Key ie)) < 2 ^ 32 /\ 0 <= ie_Offset ie < 2 ^ 63 /\ 0 <= ie_EntryLen ie < 2 ^ 31.

Lemma decode_encode_index ie rest :
  index_fits ie -> DecodeIndexEntry (IndexEncode ie ++ rest) = Some (ie, Z.of_nat (length (IndexEncode ie))).
Proof.
  intros (Hk & Ho & Hl). unfold DecodeIndexEntry, IndexEncode. rewrite <- !app_assoc.
  rewrite read_full_app by apply length_le_encode. cbn [mbind option_bind].
  rewrite uint_le_decode, uintw_small by lia.
  rewrite read_some_app; [|rewrite length_str_bytes; lia|by apply le_encode_nonempty]. cbn [mbind option_bind].
  rewrite read_full_app by apply length_le_encode. cbn [mbind option_bind].
  rewrite uint_le_decode, int_uint by lia.
  rewrite read_full_app by apply length_le_encode. cbn [mbind option_bind].
  rewrite uint_le_decode, int_uint, bytes_str_bytes by lia.
  rewrite !length_app, !length_le_encode, length_str_bytes. destruct ie. simpl. do 2 f_equal. lia.
Qed.

Lemma length_Encode e : Z.of_nat (length (Encode e)) = Size e + 8.
Proof.
  unfold Encode, Size. rewrite !length_app, !length_le_encode, !length_str_bytes. simpl. lia.
Qed.

(** Decoding never reads past the bytes of a complete entry, and a successful
    decode of any data consumes at least 17 bytes. *)
Lemma le_decode_nonneg bs : Forall is_byte bs -> 0 <= le_decode bs.
Proof.
  intros Hb. unfold le_decode, be_decode. apply Forall_reverse in Hb. revert Hb. generalize (reverse bs).
  assert (forall l acc, 0 <= acc -> Forall is_byte l -> 0 <= foldl (fun acc b => acc * 256 + b) acc l) as H; [|auto with lia].
  intros l. induction l as [|b l IH]; simpl; intros acc Ha Hl; [done|].
  inversion Hl as [|? ? Hb Hl']; subst. unfold is_byte in Hb. apply IH; [lia|done].
Qed.

Lemma le_encode_bytes n z : Forall is_byte (le_encode n z).
Proof. apply Forall_reverse, be_encode_bytes. Qed.
