(* ===== verification/LsmSkip.v ===== *)
(** The memtable of the LSM tree and its skip list
    (src/internal/lsm/skiplist.go, src/internal/lsm/memtable.go).

    As in SkipList.v the nodes live in a heap, [None] stands for a nil
    dereference or an index out of range, and [flips] are the outcomes of the
    coin.  The header has no entry; nodes also point back.  [time.Now] is the
    argument [now].  Locks are not modelled: the memtable's mutex makes every
    operation atomic.  The theorems are in LsmSkipProofs.v. *)

From stdpp Require Import base tactics option list gmap strings.
From Stdlib Require Import ZArith Lia.
From S2P Require Import Prelude Ordered SkipCore LsmEntry.

Definition maxLevel : nat := 16.

Record SkipListNode := { entry : option Entry; forward : list (option nat); backward : option nat }.

#[export] Instance eta_SkipListNode : Eta SkipListNode := fun n =>
  {| entry := entry n; forward := forward n; backward := backward n |}.

Record SkipList := {
  nodes : gmap nat SkipListNode;     (* the heap *)
  header : nat;
  tail : option nat;
  level : nat;
  sl_length : Z;
  sl_size : Z;
}.

#[export] Instance eta_lsm_SkipList : Eta SkipList := fun s =>
  {| nodes := nodes s; header := header s; tail := tail s; level := level s;
     sl_length := sl_length s; sl_size := sl_size s |}.

(** ** The heap *)

Definition forward_at (h : gmap nat SkipListNode) (x i : nat) : option (option nat) :=
  n ← h !! x; forward n !! i.

Definition entry_at (h : gmap nat SkipListNode) (x : nat) : option Entry := n ← h !! x; entry n.
Definition key_at (h : gmap nat SkipListNode) (x : nat) : option string := Key <$> entry_at h x.

Definition set_forward (h : gmap nat SkipListNode) (x i : nat) (v : option nat) : option (gmap nat SkipListNode) :=
  n ← h !! x;
  if (i <? length (forward n))%nat then Some (<[x := n <| forward := <[i := v]> (forward n) |>]> h) else None.

Definition set_backward (h : gmap nat SkipListNode) (x : nat) (v : option nat) : option (gmap nat SkipListNode) :=
  n ← h !! x; Some (<[x := n <| backward := v |>]> h).

Definition alloc (h : gmap nat SkipListNode) (n : SkipListNode) : nat * gmap nat SkipListNode :=
  let a := fresh (dom h) in (a, <[a := n]> h).

(** ** The skip list *)

Definition NewSkipList : SkipList :=
  let '(a, h) := alloc ∅ {| entry := None; forward := replicate maxLevel None; backward := None |} in
  {| nodes := h; header := a; tail := None; level := 1; sl_length := 0; sl_size := 0 |}.

Fixpoint random_loop (flips : list bool) (level : nat) : nat :=
  match flips with
  | true :: flips => if (level <? maxLevel)%nat then random_loop flips (S level) else level
  | _ => level
  end.

Definition randomLevel (flips : list bool) : nat := random_loop flips 1.

(** The descent that [Insert], [Get], [Delete] and [Seek] begin with. *)
Definition find_path (sl : SkipList) (k : string) : option (nat * list nat) :=
  descend (forward_at (nodes sl)) (key_at (nodes sl)) (S (size (nodes sl))) k (level sl) (header sl) [].

Fixpoint link (h : gmap nat SkipListNode) (newNode : nat) (update : list nat) (i n : nat)
    : option (gmap nat SkipListNode) :=
  match n with
  | O => Some h
  | S n =>
      u ← update !! i;
      next ← forward_at h u i;
      h ← set_forward h newNode i next;
      h ← set_forward h u i (Some newNode);
      link h newNode update (S i) n
  end.

Definition insert_new (flips : list bool) (e : Entry) (update : list nat) (sl : SkipList) : option SkipList :=
  let lvl := randomLevel flips in
  let update := update ++ replicate (lvl - level sl) (header sl) in
  let '(newNode, h) := alloc (nodes sl) {| entry := Some e; forward := replicate lvl None; backward := None |} in
  h ← link h newNode update 0 lvl;
  u0 ← update !! 0%nat;
  h ← set_backward h newNode (Some u0);
  next ← forward_at h newNode 0;
  h ← match next with Some y => set_backward h y (Some newNode) | None => Some h end;
  Some (sl <| nodes := h |>
           <| level := if (level sl <? lvl)%nat then lvl else level sl |>
           <| tail := match next with None => Some newNode | Some _ => tail sl end |>
           <| sl_length := sl_length sl + 1 |> <| sl_size := sl_size sl + Size e |>).

Definition Insert (flips : list bool) (e : Entry) (sl : SkipList) : option SkipList :=
  '(x, update) ← find_path sl (Key e);
  next ← forward_at (nodes sl) x 0;
  match next with
  | Some y =>
      n ← nodes sl !! y;
      old ← entry n;
      if decide (Key old = Key e)
      then Some (sl <| nodes := <[y := n <| entry := Some e |>]> (nodes sl) |>
                    <| sl_size := sl_size sl + (Size e - Size old) |>)
      else insert_new flips e update sl
  | None => insert_new flips e update sl
  end.

(** [(entry, true)] is [Some entry], [(nil, false)] is [None]. *)
Definition sl_Get (k : string) (sl : SkipList) : option (option Entry) :=
  '(x, _) ← find_path sl k;
  next ← forward_at (nodes sl) x 0;
  match next with
  | None => Some None
  | Some y => e ← entry_at (nodes sl) y; Some (if decide (Key e = k) then Some e else None)
  end.

Fixpoint unlink (h : gmap nat SkipListNode) (x : nat) (update : list nat) (i n : nat)
    : option (gmap nat SkipListNode) :=
  match n with
  | O => Some h
  | S n =>
      u ← update !! i;
      next ← forward_at h u i;
      if decide (next = Some x) then
        target ← forward_at h x i;
        h ← set_forward h u i target;
        unlink h x update (S i) n
      else Some h
  end.

Fixpoint shrink (h : gmap nat SkipListNode) (header level : nat) : option nat :=
  match level with
  | S (S l as level') =>
      next ← forward_at h header level';
      match next with None => shrink h header level' | Some _ => Some level end
  | _ => Some level
  end.

Definition sl_Delete (k : string) (sl : SkipList) : option (SkipList * option Entry) :=
  '(x0, update) ← find_path sl k;
  next ← forward_at (nodes sl) x0 0;
  match next with
  | None => Some (sl, None)
  | Some x =>
      n ← nodes sl !! x;
      e ← entry n;
      if decide (Key e <> k) then Some (sl, None)
      else
        h ← unlink (nodes sl) x update 0 (level sl);
        n' ← h !! x;
        next ← forward n' !! 0%nat;
        h' ← match next with Some y => set_backward h y (backward n') | None => Some h end;
        lvl ← shrink h' (header sl) (level sl);
        Some (sl <| nodes := h' |> <| level := lvl |>
                 <| tail := match next with Some _ => tail sl | None => backward n' end |>
                 <| sl_length := sl_length sl - 1 |> <| sl_size := sl_size sl - Size e |>,
              Some e)
  end.

Definition sl_Len (sl : SkipList) : Z := sl_length sl.
Definition sl_Size (sl : SkipList) : Z := sl_size sl.

(** ** The iterator *)

Record SkipListIterator := { current : option nat; started : bool }.

Definition Iterator (sl : SkipList) : option SkipListIterator :=
  first ← forward_at (nodes sl) (header sl) 0; Some {| current := first; started := false |}.

Definition it_Next (h : gmap nat SkipListNode) (it : SkipListIterator) : option (SkipListIterator * bool) :=
  if negb (started it) then
    Some ({| current := current it; started := true |}, bool_decide (is_Some (current it)))
  else
    match current it with
    | None => Some (it, false)
    | Some x =>
        next ← forward_at h x 0;
        Some ({| current := next; started := true |}, bool_decide (is_Some next))
    end.

Definition it_Entry (h : gmap nat SkipListNode) (it : SkipListIterator) : option Entry :=
  x ← current it; entry_at h x.

Definition it_HasNext (h : gmap nat SkipListNode) (it : SkipListIterator) : option bool :=
  match current it with
  | None => Some false
  | Some x => if negb (started it) then Some true
              else next ← forward_at h x 0; Some (bool_decide (is_Some next))
  end.

Definition it_Seek (sl : SkipList) (k : string) : option SkipListIterator :=
  '(x, _) ← find_path sl k;
  next ← forward_at (nodes sl) x 0;
  Some {| current := next; started := false |}.

(** [for iter.Next() { ... }] of [Range]. *)
Fixpoint range_loop (fuel : nat) (h : gmap nat SkipListNode) (start end_ : string) (it : SkipListIterator)
    (acc : list Entry) : option (list Entry) :=
  match fuel with
  | O => None
  | S fuel =>
      '(it, more) ← it_Next h it;
      if negb more then Some acc
      else
        e ← it_Entry h it;
        if decide (key_lt end_ (Key e)) then Some acc
        else range_loop fuel h start end_ it (if decide (key_lt (Key e) start) then acc else acc ++ [e])
  end.

Definition sl_Range (start end_ : string) (sl : SkipList) : option (list Entry) :=
  it ← Iterator sl; range_loop (S (S (size (nodes sl)))) (nodes sl) start end_ it [].

Fixpoint all_loop (fuel : nat) (h : gmap nat SkipListNode) (it : SkipListIterator) (acc : list Entry)
    : option (list Entry) :=
  match fuel with
  | O => None
  | S fuel =>
      '(it, more) ← it_Next h it;
      if negb more then Some acc
      else e ← it_Entry h it; all_loop fuel h it (acc ++ [e])
  end.

Definition sl_AllEntries (sl : SkipList) : option (list Entry) :=
  it ← Iterator sl; all_loop (S (S (size (nodes sl)))) (nodes sl) it [].

(** ** The memtable *)

Record MemTable := { data : SkipList; mt_size : Z; maxSize : Z; frozen : bool }.

#[export] Instance eta_MemTable : Eta MemTable := fun m =>
  {| data := data m; mt_size := mt_size m; maxSize := maxSize m; frozen := frozen m |}.

Definition NewMemTable (maxSize : Z) : MemTable :=
  {| data := NewSkipList; mt_size := 0; maxSize := maxSize; frozen := false |}.

(** What [Put] and [Delete] of the memtable share: replace the entry of a key
    and keep the size. *)
Definition mt_write (flips : list bool) (e : Entry) (mt : MemTable) : option MemTable :=
  old ← sl_Get (Key e) (data mt);
  let mt := match old with Some o => mt <| mt_size := mt_size mt - Size o |> | None => mt end in
  d ← Insert flips e (data mt);
  Some (mt <| data := d |> <| mt_size := mt_size mt + Size e |>).

Definition mt_Put (now : Z) (flips : list bool) (key value : string) (mt : MemTable) : option MemTable :=
  mt_write flips {| Key := key; Value := value; Tombstone := false; Timestamp := now |} mt.

Definition mt_Delete (now : Z) (flips : list bool) (key : string) (mt : MemTable) : option MemTable :=
  mt_write flips {| Key := key; Value := ""; Tombstone := true; Timestamp := now |} mt.

Definition mt_GetWithTombstone (key : string) (mt : MemTable) : option (option Entry) := sl_Get key (data mt).

Definition mt_Get (key : string) (mt : MemTable) : option (option Entry) :=
  r ← sl_Get key (data mt);
  Some (match r with Some e => if Tombstone e then None else Some e | None => None end).

Definition ShouldFlush (mt : MemTable) : bool := maxSize mt <=? mt_size mt.
Definition Freeze (mt : MemTable) : MemTable := mt <| frozen := true |>.
Definition IsFrozen (mt : MemTable) : bool := frozen mt.
Definition mt_Size (mt : MemTable) : Z := mt_size mt.
Definition mt_Len (mt : MemTable) : Z := sl_Len (data mt).

Definition mt_RangeWithTombstone (start end_ : string) (mt : MemTable) : option (list Entry) :=
  sl_Range start end_ (data mt).

Definition mt_Range (start end_ : string) (mt : MemTable) : option (list Entry) :=
  es ← sl_Range start end_ (data mt); Some (filter (fun e => Tombstone e = false) es).

Definition mt_AllEntries (mt : MemTable) : option (list Entry) := sl_AllEntries (data mt).
