(* ===== verification/LsmSkipProofs.v ===== *)
(** Theorems about the memtable of the LSM tree (LsmSkip.v).

    The skip list of the package is the one of src/internal/skiplist with back
    pointers added: [erase] forgets them, and the operations commute with it, so
    that the theorems of SkipListProofs.v carry over.  The result is that a
    memtable is a list of entries, strictly sorted by key. *)

From stdpp Require Import base tactics option list gmap strings sorting.
From Stdlib Require Import ZArith Lia.
From S2P Require Import Prelude Ordered SkipCore SkipList SkipListProofs LsmEntry LsmSkip.

Abbreviation gnode := (SkipList.node string Entry).
Implicit Types (h : gmap nat SkipListNode) (sl : SkipList) (e : Entry).

(** ** Erasure *)

Definition no_entry : Entry := {| Key := ""; Value := ""; Tombstone := false; Timestamp := 0 |}.

Definition erase_node (n : SkipListNode) : gnode :=
  {| SkipList.key := Key (default no_entry (entry n)); SkipList.value := default no_entry (entry n);
     SkipList.forward := forward n |}.

Definition erase_heap h : gmap nat gnode := erase_node <$> h.

Definition erase sl : SkipList.SkipList string Entry :=
  {| SkipList.nodes := erase_heap (nodes sl); SkipList.header := header sl;
     SkipList.tail := if decide (tail sl = Some (header sl)) then None else tail sl;
     SkipList.level := level sl; SkipList.sl_length := sl_length sl; SkipList.maxLevel := maxLevel |}.

Lemma erase_lookup h x : erase_heap h !! x = erase_node <$> h !! x.
Proof. apply lookup_fmap. Qed.

Lemma erase_forward h x i : SkipList.forward_at (erase_heap h) x i = forward_at h x i.
Proof. unfold SkipList.forward_at, forward_at, erase_heap. rewrite lookup_fmap. by destruct (h !! x). Qed.

Lemma erase_dom h : dom (erase_heap h) = dom h.
Proof. apply dom_fmap_L. Qed.

Lemma erase_insert h x n : erase_heap (<[x := n]> h) = <[x := erase_node n]> (erase_heap h).
Proof. apply fmap_insert. Qed.

Lemma erase_set_forward h x i v :
  SkipList.set_forward (erase_heap h) x i v = erase_heap <$> set_forward h x i v.
Proof.
  unfold SkipList.set_forward, set_forward. rewrite erase_lookup.
  destruct (h !! x) as [n|]; simpl; [|done]. destruct (i <? _)%nat; simpl; [|done]. by rewrite erase_insert.
Qed.

Lemma erase_link h n update i m :
  SkipList.link (erase_heap h) n update i m = erase_heap <$> link h n update i m.
Proof.
  revert h i. induction m as [|m IH]; intros h i; simpl; [done|].
  destruct (update !! i) as [u|]; simpl; [|done]. rewrite erase_forward.
  destruct (forward_at h u i) as [next|]; simpl; [|done]. rewrite erase_set_forward.
  destruct (set_forward h n i next) as [h1|]; simpl; [|done]. rewrite erase_set_forward.
  destruct (set_forward h1 u i (Some n)) as [h2|]; simpl; [|done]. apply IH.
Qed.

Lemma erase_unlink h x update i m :
  SkipList.unlink (erase_heap h) x update i m = erase_heap <$> unlink h x update i m.
Proof.
  revert h i. induction m as [|m IH]; intros h i; simpl; [done|].
  destruct (update !! i) as [u|]; simpl; [|done]. rewrite !erase_forward.
  destruct (forward_at h u i) as [next|]; simpl; [|done]. destruct (decide (next = Some x)); [|done].
  destruct (forward_at h x i) as [target|]; simpl; [|done]. rewrite erase_set_forward.
  destruct (set_forward h u i target) as [h1|]; simpl; [|done]. apply IH.
Qed.

Lemma erase_shrink h hd l : SkipList.shrink (erase_heap h) hd l = shrink h hd l.
Proof.
  induction l as [|[|l] IH]; [done..|].
  change (SkipList.shrink (erase_heap h) hd (S (S l))) with
    (next ← SkipList.forward_at (erase_heap h) hd (S l);
     match next with None => SkipList.shrink (erase_heap h) hd (S l) | Some _ => Some (S (S l)) end).
  change (shrink h hd (S (S l))) with
    (next ← forward_at h hd (S l); match next with None => shrink h hd (S l) | Some _ => Some (S (S l)) end).
  rewrite erase_forward, IH. done.
Qed.

Lemma erase_random flips l : SkipList.random_loop flips maxLevel l = random_loop flips l.
Proof. revert l. induction flips as [|[] flips IH]; intros l; simpl; try done. by rewrite IH. Qed.

(** ** Entries and back pointers are untouched by relinking *)

Definition back_at h (x : nat) : option (option nat) := backward <$> h !! x.

Definition same_data h h' : Prop :=
  forall y, entry_at h' y = entry_at h y /\ back_at h' y = back_at h y.

Lemma same_data_trans h1 h2 h3 : same_data h1 h2 -> same_data h2 h3 -> same_data h1 h3.
Proof. intros H1 H2 y. destruct (H1 y), (H2 y). split; congruence. Qed.

Lemma set_forward_data h x i v h' : set_forward h x i v = Some h' -> same_data h h'.
Proof.
  unfold set_forward. destruct (h !! x) as [n|] eqn:Hx; simpl; [|done]. case_match; [|done]. intros [= <-] y.
  unfold entry_at, back_at. destruct (decide (y = x)) as [->|Hy]; [by rewrite lookup_insert_eq, Hx|].
  by rewrite lookup_insert_ne.
Qed.

Lemma link_data h n update i m h' : link h n update i m = Some h' -> same_data h h'.
Proof.
  revert h i. induction m as [|m IH]; intros h i; simpl; [by intros [= <-] y|].
  intros (u & _ & H)%bind_Some. apply bind_Some in H as (next & _ & H).
  apply bind_Some in H as (h1 & H1 & H). apply bind_Some in H as (h2 & H2 & H).
  eapply same_data_trans; [by eapply set_forward_data|].
  eapply same_data_trans; [by eapply set_forward_data|]. by eapply IH.
Qed.

Lemma unlink_data h x update i m h' : unlink h x update i m = Some h' -> same_data h h'.
Proof.
  revert h i. induction m as [|m IH]; intros h i; simpl; [by intros [= <-] y|].
  intros (u & _ & H)%bind_Some. apply bind_Some in H as (next & _ & H).
  case_decide; [|by simplify_eq]. apply bind_Some in H as (t & _ & H).
  apply bind_Some in H as (h1 & H1 & H).
  eapply same_data_trans; [by eapply set_forward_data|]. by eapply IH.
Qed.

Lemma set_backward_spec h x v : x ∈ dom h -> exists h', set_backward h x v = Some h' /\
  erase_heap h' = erase_heap h /\ dom h' = dom h /\
  (forall y, entry_at h' y = entry_at h y) /\
  (forall y, back_at h' y = if decide (y = x) then Some v else back_at h y).
Proof.
  intros [n Hn]%elem_of_dom. unfold set_backward. rewrite Hn. simpl. eexists. split; [done|]. split_and!.
  - rewrite erase_insert. apply insert_id. unfold erase_heap. by rewrite lookup_fmap, Hn.
  - rewrite dom_insert_L. apply elem_of_dom_2 in Hn. set_solver.
  - intros y. unfold entry_at. destruct (decide (y = x)) as [->|]; [by rewrite lookup_insert_eq, Hn|].
    by rewrite lookup_insert_ne.
  - intros y. unfold back_at. case_decide as E; [subst; by rewrite lookup_insert_eq|]. by rewrite lookup_insert_ne.
Qed.

(** The back pointers of consecutive nodes [l], after [p]. *)
Fixpoint bchain (bk : nat -> option (option nat)) (p : nat) (l : list nat) : Prop :=
  match l with [] => True | y :: l => bk y = Some (Some p) /\ bchain bk y l end.

Lemma bchain_ext bk bk' p l : (forall y, y ∈ l -> bk' y = bk y) -> bchain bk p l -> bchain bk' p l.
Proof.
  revert p. induction l as [|y l IH]; simpl; intros p He Hb; [done|]. destruct Hb.
  rewrite He by set_solver. split; [done|]. apply IH; [set_solver|done].
Qed.

Lemma bchain_insert bk bk' p l1 l2 n :
  bk' n = Some (Some (default p (last l1))) ->
  (forall z, head l2 = Some z -> bk' z = Some (Some n)) ->
  (forall y, y ∈ l1 ++ drop 1 l2 -> bk' y = bk y) ->
  bchain bk p (l1 ++ l2) -> bchain bk' p (l1 ++ n :: l2).
Proof.
  revert p. induction l1 as [|y l1 IH]; simpl; intros p Hn Hz He Hb.
  - split; [done|]. destruct l2 as [|z l2]; [done|]. destruct Hb as [_ Hb]. split; [by apply Hz|].
    eapply bchain_ext; [|exact Hb]. intros w Hw. apply He. done.
  - destruct Hb as [Hy Hb]. rewrite He by set_solver. split; [done|]. apply IH; try done; [|set_solver].
    rewrite last_cons in Hn. destruct (last l1); done.
Qed.

Lemma bchain_delete bk bk' p l1 l2 x :
  (forall z, head l2 = Some z -> bk' z = Some (Some (default p (last l1)))) ->
  (forall y, y ∈ l1 ++ drop 1 l2 -> bk' y = bk y) ->
  bchain bk p (l1 ++ x :: l2) -> bchain bk' p (l1 ++ l2) /\ bk x = Some (Some (default p (last l1))).
Proof.
  revert p. induction l1 as [|y l1 IH]; simpl; intros p Hz He Hb.
  - destruct Hb as [Hx Hb]. split; [|done]. destruct l2 as [|z l2]; [done|]. destruct Hb as [_ Hb].
    split; [by apply Hz|]. eapply bchain_ext; [|exact Hb]. intros w Hw. by apply He.
  - destruct Hb as [Hy Hb]. rewrite He by set_solver.
    assert (default p (last (y :: l1)) = default y (last l1)) as E by (rewrite last_cons; by destruct (last l1)).
    rewrite E in *. destruct (IH y) as [? ?]; try done. set_solver.
Qed.

(** ** Sorted lists of entries *)

Implicit Types (es : list Entry).

Abbreviation e_sorted := (StronglySorted (fun a b => key_lt (Key a) (Key b))).
Definition e_find (k : string) es : option Entry := List.find (fun e => bool_decide (Key e = k)) es.
Definition e_insert e es : list Entry :=
  filter (fun x => key_lt (Key x) (Key e)) es ++ e :: filter (fun x => key_lt (Key e) (Key x)) es.
Definition e_delete (k : string) es : list Entry := filter (fun x => Key x <> k) es.

Definition tag e : SkipList.Pair string Entry := {| SkipList.Key := Key e; SkipList.Value := e |}.

#[export] Instance tag_inj : Inj (=) (=) tag.
Proof. by intros e1 e2 [= _ ->]. Qed.

Lemma filter_tag (P : SkipList.Pair string Entry -> Prop) (Q : Entry -> Prop)
    `{!forall p, Decision (P p), !forall e, Decision (Q e)} es :
  (forall e, P (tag e) <-> Q e) -> filter P (tag <$> es) = tag <$> filter Q es.
Proof.
  intros Hpq. induction es as [|e es IH]; [done|]. rewrite fmap_cons, !filter_cons, IH.
  specialize (Hpq e). repeat case_decide; tauto || done.
Qed.

Lemma tag_insert e es : spec_insert (Key e) e (tag <$> es) = tag <$> e_insert e es.
Proof.
  unfold spec_insert, e_insert. rewrite fmap_app. f_equal; [by apply filter_tag|].
  rewrite fmap_cons. f_equal. by apply filter_tag.
Qed.

Lemma tag_delete k es : spec_delete k (tag <$> es) = tag <$> e_delete k es.
Proof. by apply filter_tag. Qed.

Lemma tag_find k es : SkipList.Value <$> spec_find k (tag <$> es) = e_find k es.
Proof.
  unfold spec_find, e_find. induction es as [|e es IH]; [done|]. simpl. case_bool_decide; [done|]. apply IH.
Qed.

(** ** The invariant *)

Definition entries sl (ns : list nat) : list Entry := omap (entry_at (nodes sl)) ns.

Record lsm_inv sl (ns : list nat) : Prop := {
  li_erased : sl_inv (erase sl) ns;
  li_entries : forall y, y ∈ ns -> is_Some (entry_at (nodes sl) y);
  li_back : bchain (back_at (nodes sl)) (header sl) ns;
}.

Lemma entry_pair h y e : entry_at h y = Some e -> SkipList.pair_at (erase_heap h) y = Some (tag e).
Proof.
  unfold entry_at, SkipList.pair_at. rewrite erase_lookup. destruct (h !! y) as [n|]; simpl; [|done].
  intros En. unfold erase_node, tag. by rewrite En.
Qed.

Lemma entry_key h y e : entry_at h y = Some e -> SkipList.key_at (erase_heap h) y = key_at h y.
Proof. intros He. unfold key_at. rewrite SkipListProofs.key_at_pair, (entry_pair _ _ _ He), He. done. Qed.

Lemma contents_entries sl ns :
  (forall y, y ∈ ns -> is_Some (entry_at (nodes sl) y)) -> contents (erase sl) ns = tag <$> entries sl ns.
Proof.
  intros He. unfold contents, entries. induction ns as [|y ns IH]; [done|].
  destruct (He y ltac:(set_solver)) as [e Ee]. rewrite (pairs_cons _ _ _ (tag e)) by (by apply entry_pair).
  simpl. rewrite Ee. simpl. f_equal. apply IH. set_solver.
Qed.

Lemma entries_sorted sl ns : lsm_inv sl ns -> e_sorted (entries sl ns).
Proof.
  intros Hi. pose proof (pairs_sorted _ _ (inv_sorted _ _ (li_erased _ _ Hi))) as Hs.
  change (StronglySorted pair_lt (contents (erase sl) ns)) in Hs.
  rewrite contents_entries in Hs by apply Hi. revert Hs. generalize (entries sl ns). intros es.
  induction es as [|e es IH]; intros Hs; [constructor|]. rewrite fmap_cons in Hs. apply StronglySorted_inv in Hs as [Hs He].
  constructor; [by apply IH|]. rewrite Forall_fmap in He. exact He.
Qed.

Lemma lsm_path sl ns k : lsm_inv sl ns -> find_path sl k = SkipList.find_path (erase sl) k.
Proof.
  intros Hi. pose proof (li_erased _ _ Hi) as Hg.
  destruct (cut_exists (erase sl) ns k Hg) as (lo & hi & Hc). rewrite (cut_path _ _ _ _ _ Hg Hc).
  assert (forall y, y ∈ ns -> key_at (nodes sl) y = SkipList.key_at (erase_heap (nodes sl)) y) as Ek.
  { intros y Hy. destruct (li_entries _ _ Hi y Hy) as [e He]. symmetry. by eapply entry_key. }
  destruct (inv_level _ _ Hg) as [Hl1 Hl2]. simpl in Hl1, Hl2.
  pose proof (cut_eq _ _ _ _ _ Hc) as E.
  assert (forall y i, forward_at (nodes sl) y i = SkipList.forward_at (erase_heap (nodes sl)) y i) as Ef
    by (intros; by rewrite erase_forward).
  assert (forall i l, at_level (forward_at (nodes sl)) i l = at_level (SkipList.forward_at (erase_heap (nodes sl))) i l)
    as Ea by (intros; apply at_level_ext; intros; by rewrite Ef).
  unfold find_path. rewrite (descend_spec _ _ _ _ (header sl) lo hi).
  - rewrite app_nil_r. destruct (level sl) as [|l] eqn:El; [lia|]. pose proof (at_level_0 (erase sl) ns lo hi Hg E) as E0.
    cbn [erase SkipList.nodes SkipList.header SkipList.level] in *. rewrite El. unfold pred_at. rewrite Ea, E0.
    do 2 f_equal. apply list_fmap_ext. intros i j _. by rewrite Ea.
  - intros y i. rewrite !Ef. apply forward_at_downward.
  - intros j Hj. rewrite Ea, <- E. eapply chain_ext; [|apply (inv_chains _ _ Hg); simpl; lia].
    intros y _. apply Ef.
  - rewrite Forall_forall. intros y Hy. pose proof (cut_lo _ _ _ _ _ Hc) as Hlo. rewrite Forall_forall in Hlo.
    destruct (Hlo y Hy) as (k' & Hk & ?). exists k'. rewrite Ek by (rewrite E; set_solver). done.
  - rewrite Forall_forall. intros y Hy. pose proof (cut_hi _ _ _ _ _ Hc) as Hhi. rewrite Forall_forall in Hhi.
    destruct (Hhi y Hy) as (k' & Hk & ?). exists k'. rewrite Ek by (rewrite E; set_solver). done.
  - pose proof (inv_size _ _ Hg) as Hs. simpl in Hs. rewrite <- size_dom, erase_dom, size_dom in Hs.
    rewrite E, length_app in Hs. lia.
  - right. by left.
Qed.

(** ** Operations *)

Lemma lsm_next sl ns k lo hi : lsm_inv sl ns -> cut (erase sl) ns k lo hi ->
  forward_at (nodes sl) (default (header sl) (last lo)) 0 = Some (head hi).
Proof.
  intros Hi Hc. rewrite <- erase_forward. apply (cut_next (erase sl) ns k lo hi (li_erased _ _ Hi) Hc).
Qed.

Lemma node_entry h y e : entry_at h y = Some e -> exists n, h !! y = Some n /\ entry n = Some e.
Proof. unfold entry_at. destruct (h !! y) as [n|]; simpl; [eauto|done]. Qed.

Lemma entries_from_contents sl ns (l : list Entry) :
  (forall y, y ∈ ns -> is_Some (entry_at (nodes sl) y)) -> contents (erase sl) ns = tag <$> l -> entries sl ns = l.
Proof. intros He E. rewrite contents_entries in E by done. by apply (inj (fmap tag)) in E. Qed.

Lemma replace_lsm sl ns lo hi' x n old e :
  lsm_inv sl ns -> cut (erase sl) ns (Key e) lo (x :: hi') ->
  nodes sl !! x = Some n -> entry n = Some old -> Key old = Key e ->
  let sl' := sl <| nodes := <[x := n <| entry := Some e |>]> (nodes sl) |>
                <| sl_size := sl_size sl + (Size e - Size old) |> in
  lsm_inv sl' ns /\ entries sl' ns = e_insert e (entries sl ns).
Proof.
  intros Hi Hc Hn Ho Hk sl'.
  assert (erase sl' = (erase sl) <| SkipList.nodes :=
            <[x := (erase_node n) <| SkipList.value := e |>]> (SkipList.nodes (erase sl)) |>) as Ee.
  { unfold erase, sl'. simpl. rewrite erase_insert. unfold erase_node at 1. simpl.
    unfold set_field. simpl. rewrite <- Hk. by rewrite Ho. }
  destruct (replace_value (erase sl) ns (Key e) lo (x :: hi') (li_erased _ _ Hi) Hc x hi' (erase_node n) e)
    as [Hg Hcon]; [done| |by simpl; rewrite Ho|].
  { simpl. by rewrite erase_lookup, Hn. }
  rewrite <- Ee in Hg, Hcon.
  assert (forall y, y ∈ ns -> is_Some (entry_at (nodes sl') y)) as Hen.
  { intros y Hy. unfold entry_at, sl'. simpl. destruct (decide (y = x)) as [->|Hne].
    - by rewrite lookup_insert_eq.
    - rewrite lookup_insert_ne by done. by apply (li_entries _ _ Hi). }
  split; [split; try done|].
  - eapply bchain_ext; [|apply Hi]. intros y Hy. unfold back_at, sl'. simpl.
    destruct (decide (y = x)) as [->|Hne]; [by rewrite lookup_insert_eq, Hn|by rewrite lookup_insert_ne].
  - apply entries_from_contents; [done|]. rewrite Hcon, contents_entries by apply Hi. apply tag_insert.
Qed.

(** The two assignments to [backward] at the end of [Insert]. *)
Lemma relink_back h1 n u z : n ∈ dom h1 -> (forall y, z = Some y -> y ∈ dom h1) ->
  exists h2 h3, set_backward h1 n (Some u) = Some h2 /\ erase_heap h2 = erase_heap h1 /\
    (match z with Some y => set_backward h2 y (Some n) | None => Some h2 end) = Some h3 /\
    erase_heap h3 = erase_heap h1 /\ (forall y, entry_at h3 y = entry_at h1 y) /\
    (forall y, back_at h3 y = if decide (z = Some y) then Some (Some n)
                             else if decide (y = n) then Some (Some u) else back_at h1 y).
Proof.
  intros Hn Hz. destruct (set_backward_spec h1 n (Some u) Hn) as (h2 & -> & Er2 & Hd2 & He2 & Hb2).
  exists h2. destruct z as [y|].
  - destruct (set_backward_spec h2 y (Some n)) as (h3 & -> & Er3 & _ & He3 & Hb3); [rewrite Hd2; by apply Hz|].
    exists h3. split_and!; try done; [congruence|intros w; by rewrite He3|].
    intros w. rewrite Hb3, <- Hb2. repeat case_decide; congruence.
  - exists h2. split_and!; try done.
Qed.

(** The back pointers that [relink_back] leaves chain the list with the new node. *)
Lemma bchain_relinked bk bk' p l1 l2 n :
  NoDup (l1 ++ l2) -> n ∉ l1 ++ l2 ->
  (forall y, y ∈ l1 ++ n :: l2 -> bk' y = if decide (head l2 = Some y) then Some (Some n)
                                         else if decide (y = n) then Some (Some (default p (last l1))) else bk y) ->
  bchain bk p (l1 ++ l2) -> bchain bk' p (l1 ++ n :: l2).
Proof.
  intros Hnd Hn Hb. apply bchain_insert.
  - rewrite Hb by set_solver. rewrite decide_False; [by rewrite decide_True|]. intros Hh%head_Some_elem_of. set_solver.
  - intros z Hz. pose proof (head_Some_elem_of _ _ Hz). rewrite Hb by set_solver. by rewrite decide_True.
  - intros y Hy. apply NoDup_app in Hnd as (_ & Hdis & Hnd). assert (y ∈ l1 ++ l2) as Hin by (destruct l2; simpl in *; set_solver).
    rewrite Hb by set_solver. rewrite decide_False; [rewrite decide_False; [done|by intros ->]|].
    destruct l2 as [|z l2]; [done|]. simpl in *. intros [= <-]. apply NoDup_cons in Hnd as [? _].
    apply elem_of_app in Hy as [Hy|Hy]; [by apply (Hdis z Hy); set_solver|done].
Qed.

(** A heap with a new node that agrees with the old one elsewhere. *)
Lemma allocated_entries sl ns n nd e h1 :
  lsm_inv sl ns -> n ∉ dom (nodes sl) -> entry nd = Some e ->
  (forall y, entry_at h1 y = entry_at (<[n := nd]> (nodes sl)) y /\ back_at h1 y = back_at (<[n := nd]> (nodes sl)) y) ->
  entry_at h1 n = Some e /\ n ∉ ns /\ n ∈ dom h1 /\
  (forall y, y ∈ ns -> y ∈ dom h1 /\ entry_at h1 y = entry_at (nodes sl) y /\ back_at h1 y = back_at (nodes sl) y).
Proof.
  intros Hi Hfresh Hnd Hd. assert (entry_at h1 n = Some e) as Hen by (rewrite (proj1 (Hd n)); unfold entry_at; by rewrite lookup_insert_eq).
  assert (n ∉ ns) as Hn.
  { intros Hin. destruct (li_entries _ _ Hi n Hin) as [e' He']. apply node_entry in He' as (? & ? & _). by apply Hfresh, elem_of_dom. }
  split; [done|]. split; [done|]. split; [apply node_entry in Hen as (? & ? & _); by apply elem_of_dom|].
  intros y Hy. assert (y <> n) as Hne by (by intros ->). destruct (Hd y) as [E1 E2]. unfold entry_at in E1 at 2. unfold back_at in E2 at 2.
  rewrite lookup_insert_ne in E1, E2 by done. destruct (li_entries _ _ Hi y Hy) as [e' He']. split; [|done].
  fold (entry_at (nodes sl) y) in E1. rewrite He' in E1. apply node_entry in E1 as (? & ? & _). by apply elem_of_dom.
Qed.

Lemma insert_new_lsm sl ns lo hi flips e :
  lsm_inv sl ns -> cut (erase sl) ns (Key e) lo hi ->
  skip_key (Key e) (pairs (erase_heap (nodes sl)) hi) = pairs (erase_heap (nodes sl)) hi ->
  exists sl' ns',
    insert_new flips e ((fun j => pred_at (SkipList.forward_at (erase_heap (nodes sl))) (header sl) j lo)
                          <$> seq 0 (level sl)) sl = Some sl' /\
    lsm_inv sl' ns' /\ entries sl' ns' = e_insert e (entries sl ns).
Proof.
  intros Hi Hc Hsk. pose proof (li_erased _ _ Hi) as Hg.
  destruct (insert_new_spec (erase sl) ns (Key e) lo hi Hg Hc flips e Hsk) as (g' & Hins & _ & Hg' & Hcon).
  unfold SkipList.insert_new, SkipList.alloc, SkipList.randomLevel in Hins.
  cbn [erase SkipList.nodes SkipList.header SkipList.level SkipList.maxLevel] in Hins, Hg', Hcon.
  rewrite erase_dom in Hins, Hg', Hcon. rewrite erase_random in Hins. fold (randomLevel flips) in Hins.
  unfold insert_new, alloc. set (lvl := randomLevel flips) in *. set (n := fresh (dom (nodes sl))) in *.
  set (update := _ ++ replicate (lvl - level sl) (header sl)) in *.
  set (nd := {| entry := Some e; forward := replicate lvl None; backward := None |}).
  assert (n ∉ dom (nodes sl)) as Hfresh by apply is_fresh.
  replace (<[n := {| SkipList.key := Key e; SkipList.value := e; SkipList.forward := replicate lvl None |}]>
             (erase_heap (nodes sl))) with (erase_heap (<[n := nd]> (nodes sl))) in Hins
    by (rewrite erase_insert; done).
  rewrite erase_link in Hins. apply bind_Some in Hins as (gh & Hlink & Hins).
  apply fmap_Some in Hlink as (h1 & Hlink & ->). rewrite Hlink. cbn [mbind option_bind].
  apply bind_Some in Hins as (next & Hnext & Hins). rewrite erase_forward in Hnext.
  pose proof (link_data _ _ _ _ _ _ Hlink) as Hd.
  injection Hins as Eg. assert (SkipList.nodes g' = erase_heap h1) as En by (by rewrite <- Eg).
  assert (SkipList.header g' = header sl) as Eh by (by rewrite <- Eg).
  assert (next = head hi) as ->.
  { pose proof (find_path_next g' _ (lo ++ [n]) hi Hg') as Hf.
    rewrite <- app_assoc, last_snoc, En, erase_forward in Hf. simpl in Hf. rewrite Hf in Hnext by done. congruence. }
  assert (update !! 0%nat = Some (default (header sl) (last lo))) as Hu0.
  { destruct (inv_level _ _ Hg) as [Hl _]. simpl in Hl.
    pose proof (update_lookup (erase sl) ns (Key e) lo hi Hg Hc lvl 0 ltac:(simpl; lia)) as Hu.
    unfold pred_at in Hu at 2. rewrite (at_level_0 _ _ _ _ Hg (cut_eq _ _ _ _ _ Hc)) in Hu. exact Hu. }
  rewrite Hu0. cbn [mbind option_bind].
  destruct (allocated_entries sl ns n nd e h1 Hi Hfresh eq_refl Hd) as (Hen1 & Hns & Hnd1 & Hold). rewrite (cut_eq _ _ _ _ _ Hc) in Hns, Hold.
  destruct (relink_back h1 n (default (header sl) (last lo)) (head hi)) as (h2 & h3 & -> & Er2 & Hset & Er3 & He3 & Hb3).
  { done. }
  { intros y Hy. apply Hold. apply head_Some_elem_of in Hy. set_solver. }
  cbn [mbind option_bind]. rewrite <- (erase_forward h2), Er2, erase_forward, Hnext. cbn [mbind option_bind].
  rewrite Hset.
  cbn [mbind option_bind]. eexists _, (lo ++ n :: hi). split; [done|].
  assert (forall y, y ∈ lo ++ n :: hi -> is_Some (entry_at h3 y)) as Hens.
  { intros y Hy. rewrite He3. destruct (decide (y = n)) as [->|Hne]; [by rewrite Hen1|].
    assert (y ∈ lo ++ hi) as Hin by set_solver. rewrite (proj1 (proj2 (Hold y Hin))). apply (li_entries _ _ Hi). by rewrite (cut_eq _ _ _ _ _ Hc). }
  match goal with |- lsm_inv ?s _ /\ _ => assert (erase s = g') as Ee end.
  { rewrite <- Eg. unfold erase. simpl. rewrite Er3. unfold set_field. simpl. f_equal.
    destruct (head hi); [done|]. rewrite decide_False; [done|]. intros [= E].
    pose proof (inv_header _ _ Hg') as Hh. rewrite Eh, E in Hh. set_solver. }
  split; [split|].
  - by rewrite Ee.
  - exact Hens.
  - simpl. pose proof (inv_nodup _ _ Hg) as Hnd. rewrite (cut_eq _ _ _ _ _ Hc) in Hnd.
    pose proof (li_back _ _ Hi) as Hbk. rewrite (cut_eq _ _ _ _ _ Hc) in Hbk.
    apply NoDup_cons in Hnd as [_ Hnd]. eapply bchain_relinked; [done|done| |exact Hbk].
    intros y Hy. rewrite Hb3. repeat case_decide; try done; apply Hold; set_solver.
  - apply entries_from_contents; [exact Hens|]. rewrite Ee, Hcon, contents_entries by apply Hi. apply tag_insert.
Qed.

(** The entry at the cut, if there is one. *)
Lemma lsm_cut_cases sl ns k lo hi : lsm_inv sl ns -> cut (erase sl) ns k lo hi ->
  hi = [] \/ exists x hi' n e, hi = x :: hi' /\ nodes sl !! x = Some n /\ entry n = Some e /\
    pairs (erase_heap (nodes sl)) hi = tag e :: pairs (erase_heap (nodes sl)) hi'.
Proof.
  intros Hi Hc. destruct hi as [|x hi']; [by left|right].
  destruct (li_entries _ _ Hi x) as [e He]; [rewrite (cut_eq _ _ _ _ _ Hc); set_solver|].
  destruct (node_entry _ _ _ He) as (n & Hn & Hen). exists x, hi', n, e. split_and!; try done.
  by apply pairs_cons, entry_pair.
Qed.

Lemma Insert_lsm sl ns flips e : lsm_inv sl ns -> exists sl' ns',
  Insert flips e sl = Some sl' /\ lsm_inv sl' ns' /\ entries sl' ns' = e_insert e (entries sl ns).
Proof.
  intros Hi. pose proof (li_erased _ _ Hi) as Hg.
  destruct (cut_exists (erase sl) ns (Key e) Hg) as (lo & hi & Hc). unfold Insert.
  rewrite (lsm_path _ _ _ Hi), (cut_path _ _ _ _ _ Hg Hc). cbn [mbind option_bind].
  change (SkipList.header (erase sl)) with (header sl). rewrite (lsm_next _ _ _ _ _ Hi Hc). cbn [mbind option_bind].
  destruct (lsm_cut_cases _ _ _ _ _ Hi Hc) as [->|(x & hi' & n & old & -> & Hn & Ho & Ep)].
  - apply (insert_new_lsm sl ns lo []); done.
  - cbn [head]. rewrite Hn. cbn [mbind option_bind]. rewrite Ho. cbn [mbind option_bind].
    destruct (decide (Key old = Key e)) as [Ek|Ek].
    + eexists _, ns. split; [done|]. by eapply replace_lsm.
    + apply (insert_new_lsm sl ns lo (x :: hi')); [done..|]. rewrite Ep. simpl. by rewrite decide_False.
Qed.

Lemma Get_lsm sl ns k : lsm_inv sl ns -> sl_Get k sl = Some (e_find k (entries sl ns)).
Proof.
  intros Hi. pose proof (li_erased _ _ Hi) as Hg.
  destruct (cut_exists (erase sl) ns k Hg) as (lo & hi & Hc). unfold sl_Get.
  rewrite (lsm_path _ _ _ Hi), (cut_path _ _ _ _ _ Hg Hc). cbn [mbind option_bind].
  change (SkipList.header (erase sl)) with (header sl). rewrite (lsm_next _ _ _ _ _ Hi Hc). cbn [mbind option_bind].
  rewrite <- tag_find, <- contents_entries by apply Hi. rewrite (cut_contents _ _ _ _ _ Hc).
  rewrite (spec_find_split k _ _ (cut_pairs_lo _ _ _ _ _ Hc) (cut_pairs_hi _ _ _ _ _ Hc) (cut_sorted _ _ _ _ _ Hg Hc)).
  cbn [erase SkipList.nodes].
  destruct (lsm_cut_cases _ _ _ _ _ Hi Hc) as [->|(x & hi' & n & old & -> & Hn & Ho & Ep)]; [done|].
  rewrite Ep. simpl. unfold entry_at. rewrite Hn. simpl. rewrite Ho. simpl. by case_decide.
Qed.

(** ** Iteration *)

(** The iterator stands before the nodes [ys]. *)
Definition it_at h (it : SkipListIterator) (ys : list nat) : Prop :=
  (started it = false /\ current it = head ys) \/
  (exists p, started it = true /\ current it = Some p /\ forward_at h p 0 = Some (head ys)).

Lemma it_Next_end h it : it_at h it [] -> exists it', it_Next h it = Some (it', false).
Proof.
  intros [[Hs Hc]|(p & Hs & Hc & Hf)]; unfold it_Next; rewrite Hs, Hc; simpl; [by eexists|].
  rewrite Hf. by eexists.
Qed.

Lemma it_Next_more h it y ys e : it_at h it (y :: ys) -> run_of (erase_heap h) (y :: ys) -> entry_at h y = Some e ->
  exists it', it_Next h it = Some (it', true) /\ it_at h it' ys /\ it_Entry h it' = Some e.
Proof.
  intros Ha Hr He. exists {| current := Some y; started := true |}. split_and!.
  - destruct Ha as [[Hs Hc]|(p & Hs & Hc & Hf)]; unfold it_Next; rewrite Hs, Hc; simpl; [done|]. by rewrite Hf.
  - right. exists y. split_and!; try done. rewrite <- erase_forward. destruct ys; simpl in Hr; [done|by destruct Hr].
  - done.
Qed.

Lemma run_tail h y ys : run_of (erase_heap h) (y :: ys) -> run_of (erase_heap h) ys.
Proof. destruct ys; [done|]. by intros [_ ?]. Qed.

Lemma all_loop_lsm h it ys fuel acc :
  it_at h it ys -> run_of (erase_heap h) ys -> (forall y, y ∈ ys -> is_Some (entry_at h y)) ->
  (length ys < fuel)%nat -> all_loop fuel h it acc = Some (acc ++ omap (entry_at h) ys).
Proof.
  revert it fuel acc. induction ys as [|y ys IH]; intros it [|fuel] acc Ha Hr He Hf; simpl in Hf; try lia; simpl.
  - destruct (it_Next_end _ _ Ha) as [it' ->]. simpl. by rewrite app_nil_r.
  - destruct (He y ltac:(set_solver)) as [e Ee].
    destruct (it_Next_more _ _ _ _ _ Ha Hr Ee) as (it' & -> & Ha' & Hit). simpl. rewrite Hit. simpl.
    rewrite IH; [|done|by eapply run_tail|set_solver|lia]. simpl. rewrite Ee. simpl. by rewrite <- app_assoc.
Qed.

Definition within (start end_ : string) e : Prop := ~ key_lt (Key e) start /\ ~ key_lt end_ (Key e).

#[export] Instance within_dec start end_ e : Decision (within start end_ e).
Proof. unfold within. apply _. Defined.

Lemma range_loop_lsm h it ys start end_ fuel acc :
  it_at h it ys -> run_of (erase_heap h) ys -> (forall y, y ∈ ys -> is_Some (entry_at h y)) ->
  e_sorted (omap (entry_at h) ys) -> (length ys < fuel)%nat ->
  range_loop fuel h start end_ it acc = Some (acc ++ filter (within start end_) (omap (entry_at h) ys)).
Proof.
  revert it fuel acc. induction ys as [|y ys IH]; intros it [|fuel] acc Ha Hr He Hs Hf; simpl in Hf; try lia; simpl.
  - destruct (it_Next_end _ _ Ha) as [it' ->]. simpl. by rewrite app_nil_r.
  - destruct (He y ltac:(set_solver)) as [e Ee]. simpl in Hs. rewrite Ee in Hs. simpl in Hs.
    apply StronglySorted_inv in Hs as [Hs Hfirst].
    destruct (it_Next_more _ _ _ _ _ Ha Hr Ee) as (it' & -> & Ha' & Hit). simpl. rewrite Hit. simpl. rewrite Ee. simpl.
    destruct (decide (key_lt end_ (Key e))) as [Hend|Hend].
    + rewrite list_filter_none; [by rewrite app_nil_r|]. constructor; [unfold within; tauto|].
      eapply Forall_impl; [exact Hfirst|]. intros q Hq [_ Hq']. by apply Hq', (key_lt_trans _ (Key e)).
    + rewrite IH; [|done|by eapply run_tail|set_solver|done|lia]. rewrite filter_cons.
      destruct (decide (key_lt (Key e) start)) as [Hst|Hst].
      * by rewrite decide_False by (unfold within; tauto).
      * rewrite decide_True by done. by rewrite <- app_assoc.
Qed.

Lemma lsm_start sl ns : lsm_inv sl ns ->
  exists it, Iterator sl = Some it /\ it_at (nodes sl) it ns /\ run_of (erase_heap (nodes sl)) ns /\
    (length ns < S (S (size (nodes sl))))%nat.
Proof.
  intros Hi. pose proof (li_erased _ _ Hi) as Hg. unfold Iterator.
  rewrite <- erase_forward. pose proof (first_node _ _ Hg) as Hf. simpl in Hf. rewrite Hf. simpl.
  eexists. split; [done|]. split_and!.
  - by left.
  - by apply (run_suffix (erase sl) ns []).
  - pose proof (inv_size _ _ Hg) as Hs. simpl in Hs. rewrite <- size_dom, erase_dom, size_dom in Hs. lia.
Qed.

Lemma AllEntries_lsm sl ns : lsm_inv sl ns -> sl_AllEntries sl = Some (entries sl ns).
Proof.
  intros Hi. destruct (lsm_start sl ns Hi) as (it & Hit & Ha & Hr & Hf). unfold sl_AllEntries. rewrite Hit.
  cbn [mbind option_bind]. by rewrite (all_loop_lsm _ _ ns) by (done || apply Hi).
Qed.

Lemma Range_lsm sl ns start end_ : lsm_inv sl ns ->
  sl_Range start end_ sl = Some (filter (within start end_) (entries sl ns)).
Proof.
  intros Hi. destruct (lsm_start sl ns Hi) as (it & Hit & Ha & Hr & Hf). unfold sl_Range. rewrite Hit.
  cbn [mbind option_bind]. by rewrite (range_loop_lsm _ _ ns) by (done || apply Hi || by apply entries_sorted).
Qed.

(** ** Deletion *)

(** The assignment to [backward] in [Delete]. *)
Lemma unlink_back h1 u z : (forall y, z = Some y -> y ∈ dom h1) ->
  exists h2, (match z with Some y => set_backward h1 y (Some u) | None => Some h1 end) = Some h2 /\
    erase_heap h2 = erase_heap h1 /\ (forall y, entry_at h2 y = entry_at h1 y) /\
    (forall y, back_at h2 y = if decide (z = Some y) then Some (Some u) else back_at h1 y).
Proof.
  intros Hz. destruct z as [y|]; [|by exists h1].
  destruct (set_backward_spec h1 y (Some u)) as (h2 & -> & ? & _ & ? & Hb); [by apply Hz|].
  exists h2. split_and!; try done. intros w. rewrite Hb. repeat case_decide; congruence.
Qed.

Lemma head_after (p : nat) lo hi' x y :
  NoDup (p :: lo ++ x :: hi') -> y ∈ lo ++ drop 1 hi' -> head hi' <> Some y.
Proof.
  intros Hnd Hy Hh. apply NoDup_cons in Hnd as [_ Hnd]. apply NoDup_app in Hnd as (_ & Hdis & Hnd).
  apply NoDup_cons in Hnd as [_ Hnd]. destruct hi' as [|z hi']; [done|]. simplify_eq/=.
  apply NoDup_cons in Hnd as [? _]. apply elem_of_app in Hy as [Hy|Hy]; [apply (Hdis y Hy); set_solver|done].
Qed.

Lemma erase_eq sl g : erase_heap (nodes sl) = SkipList.nodes g -> header sl = SkipList.header g ->
  (if decide (tail sl = Some (header sl)) then None else tail sl) = SkipList.tail g ->
  level sl = SkipList.level g -> sl_length sl = SkipList.sl_length g -> SkipList.maxLevel g = maxLevel ->
  erase sl = g.
Proof. destruct g; simpl; intros; subst. reflexivity. Qed.

(** The tail after a deletion. *)
Lemma delete_tail sl lo hi' x : sl_inv (erase sl) (lo ++ x :: hi') ->
  let tl := match head hi' with Some _ => tail sl | None => Some (default (header sl) (last lo)) end in
  (if decide (tl = Some (header sl)) then None else tl) = last (lo ++ hi').
Proof.
  intros Hg tl. pose proof (inv_nodup _ _ Hg) as Hnd. apply NoDup_cons in Hnd as [Hh _]. simpl in Hh. subst tl.
  destruct hi' as [|z hi']; simpl.
  - rewrite app_nil_r. destruct (last lo) as [u|] eqn:El; simpl; [|by rewrite decide_True].
    rewrite decide_False; [done|]. intros [= ->]. apply last_Some_elem_of in El. set_solver.
  - pose proof (inv_tail _ _ Hg) as Ht. simpl in Ht. rewrite Ht. rewrite !last_app_cons. done.
Qed.

(** The node that is deleted still points to its neighbours after unlinking. *)
Lemma victim_pointers sl ns k lo hi' x n h1 :
  lsm_inv sl ns -> cut (erase sl) ns k lo (x :: hi') -> nodes sl !! x = Some n -> Key <$> entry n = Some k ->
  unlink (nodes sl) x ((fun j => pred_at (SkipList.forward_at (erase_heap (nodes sl))) (header sl) j lo)
                         <$> seq 0 (level sl)) 0 (level sl) = Some h1 ->
  exists n', h1 !! x = Some n' /\ forward n' !! 0%nat = Some (head hi') /\
    backward n' = Some (default (header sl) (last lo)).
Proof.
  intros Hi Hc Hn Hk Hun. pose proof (li_erased _ _ Hi) as Hg. pose proof (cut_eq _ _ _ _ _ Hc) as E.
  apply fmap_Some in Hk as (e & He & Hk).
  assert (SkipList.nodes (erase sl) !! x = Some (erase_node n)) as Hgn by (simpl; by rewrite erase_lookup, Hn).
  assert (SkipList.key (erase_node n) = k) as Hgk by (simpl; by rewrite He).
  destruct (unlink_unlinked (erase sl) ns k lo (x :: hi') Hg Hc x hi' (erase_node n) eq_refl Hgn Hgk) as (gh & Hgu & Hu).
  cbn [erase SkipList.nodes SkipList.header SkipList.level] in Hgu. rewrite erase_unlink, Hun in Hgu. injection Hgu as <-.
  pose proof (unlink_data _ _ _ _ _ _ Hun) as Hd. destruct (Hd x) as [Hex Hbx].
  unfold entry_at in Hex. rewrite Hn in Hex. simpl in Hex. rewrite He in Hex.
  destruct (h1 !! x) as [n'|] eqn:Hn'; [|done]. exists n'. split; [done|].
  destruct (bchain_delete (back_at (nodes sl)) (fun y => if decide (head hi' = Some y)
              then Some (Some (default (header sl) (last lo))) else back_at (nodes sl) y) (header sl) lo hi' x)
    as [_ Hb].
  { intros z Hz. by rewrite decide_True. }
  { intros y Hy. rewrite decide_False; [done|]. pose proof (inv_nodup _ _ Hg) as Hnd. rewrite E in Hnd.
    by apply (head_after (header sl) lo hi' x). }
  { rewrite <- E. apply Hi. }
  split.
  - transitivity (forward_at h1 x 0); [unfold forward_at; by rewrite Hn'|].
    rewrite <- erase_forward, (unlinked_forward _ _ _ _ _ Hu), decide_False.
    + pose proof (find_path_next (erase sl) ns (lo ++ [x]) hi' Hg) as Hf. rewrite <- app_assoc, last_snoc in Hf.
      by apply Hf.
    + intros [_ Hp]. by apply (pred_not_victim (erase sl) ns k lo (x :: hi') Hg Hc x hi' (erase_node n) eq_refl Hgn Hgk 0%nat).
  - unfold back_at in Hbx, Hb. rewrite Hn' in Hbx. rewrite <- Hbx in Hb. by simplify_eq/=.
Qed.

Lemma Delete_lsm_found sl ns lo hi' x n e :
  lsm_inv sl ns -> cut (erase sl) ns (Key e) lo (x :: hi') -> nodes sl !! x = Some n -> entry n = Some e ->
  exists sl', sl_Delete (Key e) sl = Some (sl', Some e) /\ lsm_inv sl' (lo ++ hi') /\
    entries sl' (lo ++ hi') = e_delete (Key e) (entries sl ns).
Proof.
  intros Hi Hc Hn He. pose proof (li_erased _ _ Hi) as Hg. pose proof (cut_eq _ _ _ _ _ Hc) as E.
  assert (SkipList.nodes (erase sl) !! x = Some (erase_node n)) as Hgn by (simpl; by rewrite erase_lookup, Hn).
  assert (SkipList.key (erase_node n) = Key e) as Hgk by (simpl; by rewrite He).
  destruct (Delete_found (erase sl) ns (Key e) lo (x :: hi') Hg Hc x hi' _ eq_refl Hgn Hgk)
    as (g' & Hdel & _ & Hg' & Hcon).
  unfold sl_Delete. unfold SkipList.Delete in Hdel.
  rewrite (lsm_path _ _ _ Hi). rewrite (cut_path _ _ _ _ _ Hg Hc) in Hdel |- *. cbn [mbind option_bind] in Hdel |- *.
  rewrite (cut_next _ _ _ _ _ Hg Hc) in Hdel. change (SkipList.header (erase sl)) with (header sl) in *.
  rewrite (lsm_next _ _ _ _ _ Hi Hc). cbn [head mbind option_bind] in Hdel |- *.
  rewrite Hgn in Hdel. rewrite Hn. cbn [mbind option_bind] in Hdel |- *. rewrite He. cbn [mbind option_bind].
  rewrite decide_False in Hdel by tauto. rewrite (decide_False (P := Key e <> Key e)) by tauto.
  change (SkipList.nodes (erase sl)) with (erase_heap (nodes sl)) in *.
  change (SkipList.level (erase sl)) with (level sl) in *.
  rewrite erase_unlink in Hdel. apply bind_Some in Hdel as (gh & Hun & Hdel).
  apply fmap_Some in Hun as (h1 & Hun & ->). rewrite Hun. cbn [mbind option_bind].
  pose proof (unlink_data _ _ _ _ _ _ Hun) as Hd.
  destruct (victim_pointers _ _ _ _ _ _ _ _ Hi Hc Hn ltac:(by rewrite He) Hun) as (n' & Hn' & Hf' & Hb').
  rewrite Hn'. cbn [mbind option_bind]. rewrite Hf'. cbn [mbind option_bind]. rewrite Hb'.
  assert (forall y, y ∈ ns -> is_Some (entry_at h1 y)) as Hens.
  { intros y Hy. rewrite (proj1 (Hd y)). by apply (li_entries _ _ Hi). }
  destruct (unlink_back h1 (default (header sl) (last lo)) (head hi')) as (h2 & -> & Er2 & He2 & Hb2).
  { intros y Hy. destruct (Hens y) as [e' He'].
    - rewrite E. apply head_Some_elem_of in Hy. set_solver.
    - apply node_entry in He' as (? & ? & _). by apply elem_of_dom. }
  cbn [mbind option_bind]. apply bind_Some in Hdel as (lvl & Hsh & Hdel).
  rewrite <- Er2, erase_shrink in Hsh. rewrite Hsh. cbn [mbind option_bind].
  apply bind_Some in Hdel as (u0 & _ & Hdel). injection Hdel as Eg.
  eexists. split; [done|].
  match goal with |- lsm_inv ?s _ /\ _ => set (sl' := s) end.
  assert (erase sl' = g') as Ee.
  { rewrite <- Eg. apply erase_eq; try done. rewrite Eg, (inv_tail _ _ Hg').
    apply (delete_tail sl lo hi' x). by rewrite <- E. }
  assert (forall y, y ∈ lo ++ hi' -> is_Some (entry_at (nodes sl') y)) as Hen.
  { intros y Hy. simpl. rewrite He2. apply Hens. rewrite E. set_solver. }
  split; [split|].
  - by rewrite Ee.
  - done.
  - apply (bchain_delete (back_at (nodes sl)) _ (header sl) lo hi' x); [| |rewrite <- E; apply Hi].
    + intros z Hz. simpl. by rewrite Hb2, decide_True.
    + intros y Hy. simpl. rewrite Hb2, decide_False; [by rewrite (proj2 (Hd y))|].
      pose proof (inv_nodup _ _ Hg) as Hnd. rewrite E in Hnd. by apply (head_after (header sl) lo hi' x).
  - apply entries_from_contents; [done|]. rewrite Ee, Hcon, contents_entries by apply Hi. apply tag_delete.
Qed.

(** ** Finding entries in sorted lists *)

Lemma sorted_same_key es e1 e2 : e_sorted es -> e1 ∈ es -> e2 ∈ es -> Key e1 = Key e2 -> e1 = e2.
Proof.
  induction 1 as [|e es Hs IH Hf]; [set_solver|]. rewrite Forall_forall in Hf.
  intros [->|H1]%elem_of_cons [->|H2]%elem_of_cons E; auto.
  - destruct (key_lt_ne _ _ (Hf _ H2) E).
  - destruct (key_lt_ne _ _ (Hf _ H1) (eq_sym E)).
Qed.

Lemma e_find_Some k es e : e_sorted es -> e_find k es = Some e <-> e ∈ es /\ Key e = k.
Proof.
  intros Hs. split.
  - intros H. apply List.find_some in H as [Hin Hk]. apply bool_decide_eq_true in Hk. by rewrite list_elem_of_In.
  - intros [Hin <-]. destruct (e_find (Key e) es) as [e'|] eqn:E.
    + apply List.find_some in E as [Hin' Hk]. apply bool_decide_eq_true in Hk. rewrite <- list_elem_of_In in Hin'.
      by rewrite (sorted_same_key es e' e).
    + apply (List.find_none _ _) with (x := e) in E; [|by rewrite <- list_elem_of_In].
      by rewrite bool_decide_eq_false in E.
Qed.

Lemma e_find_None k es : e_find k es = None <-> forall e, e ∈ es -> Key e <> k.
Proof.
  split.
  - intros E e Hin. apply (List.find_none _ _) with (x := e) in E; [|by rewrite <- list_elem_of_In].
    by apply bool_decide_eq_false in E.
  - intros H. destruct (e_find k es) as [e|] eqn:E; [|done]. apply List.find_some in E as [Hin Hk].
    apply bool_decide_eq_true in Hk. rewrite <- list_elem_of_In in Hin. by destruct (H e).
Qed.

Lemma elem_of_e_insert e x es : x ∈ e_insert e es <-> x = e \/ (x ∈ es /\ Key x <> Key e).
Proof.
  unfold e_insert. rewrite elem_of_app, elem_of_cons, !list_elem_of_filter. split.
  - intros [[H1 H2]|[->|[H1 H2]]]; [right|by left|right]; split; try done; [by apply key_lt_ne|].
    intros E. by apply (key_lt_ne _ _ H1).
  - intros [->|[Hin Hne]]; [by auto|]. destruct (trichotomy key_lt (Key x) (Key e)) as [?|[?|?]]; auto. done.
Qed.

(** The bytes that a list of entries accounts for. *)
Fixpoint total_size es : Z := match es with [] => 0 | e :: es => Size e + total_size es end.

Lemma total_size_app es1 es2 : total_size (es1 ++ es2) = total_size es1 + total_size es2.
Proof. induction es1 as [|e es1 IH]; simpl; [done|]. rewrite IH. lia. Qed.

Lemma total_size_insert e es : e_sorted es ->
  total_size (e_insert e es) = total_size es - match e_find (Key e) es with Some o => Size o | None => 0 end + Size e.
Proof.
  unfold e_insert. rewrite total_size_app. cbn [total_size]. intros Hs.
  cut (total_size (filter (fun x => key_lt (Key x) (Key e)) es) + total_size (filter (fun x => key_lt (Key e) (Key x)) es)
       = total_size es - match e_find (Key e) es with Some o => Size o | None => 0 end); [lia|].
  induction Hs as [|x es Hs IH Hf]; cbn [total_size e_find List.find]; [done|]. rewrite !filter_cons.
  destruct (decide (Key x = Key e)) as [E|E].
  - rewrite E, !decide_False, bool_decide_true by (done || by apply key_lt_irrefl).
    rewrite list_filter_none, (list_filter_all (fun y => key_lt (Key e) (Key y))).
    { cbn [total_size]; lia. } { by rewrite <- E. }
    eapply Forall_impl; [exact Hf|]. intros y Hy. rewrite <- E. by apply key_lt_asym.
  - rewrite bool_decide_false by done. destruct (trichotomy key_lt (Key x) (Key e)) as [H|[H|H]]; [|done|].
    + rewrite decide_True, decide_False by (done || by apply key_lt_asym). cbn [total_size]; unfold e_find in IH; lia.
    + rewrite decide_False, decide_True by (done || by apply key_lt_asym). cbn [total_size]; unfold e_find in IH; lia.
Qed.

(** ** The memtable *)

(** The memtable holds the entries [es] and accounts for their bytes. *)
Definition mt_inv (mt : MemTable) es : Prop :=
  (exists ns, lsm_inv (data mt) ns /\ entries (data mt) ns = es) /\ mt_size mt = total_size es.

Lemma mt_inv_sorted mt es : mt_inv mt es -> e_sorted es.
Proof. intros [(ns & Hi & <-) _]. by apply entries_sorted. Qed.

Lemma NewSkipList_inv : lsm_inv NewSkipList [].
Proof.
  split; [|set_solver|done].
  apply (New_inv_skiplist "" no_entry (Some {| SkipList.MaxLevel := 16; SkipList.P := SkipList.P SkipList.DefaultConfig |})). by vm_compute.
Qed.

Lemma NewMemTable_inv n : mt_inv (NewMemTable n) [].
Proof. split; [|done]. exists []. split; [apply NewSkipList_inv|done]. Qed.

Lemma Freeze_inv mt es : mt_inv mt es -> mt_inv (Freeze mt) es.
Proof. done. Qed.

Lemma mt_write_inv flips e mt es : mt_inv mt es ->
  exists mt', mt_write flips e mt = Some mt' /\ mt_inv mt' (e_insert e es) /\ maxSize mt' = maxSize mt.
Proof.
  intros [(ns & Hi & <-) Hsz]. unfold mt_write. rewrite (Get_lsm _ ns) by done. cbn [mbind option_bind].
  destruct (Insert_lsm (data mt) ns flips e Hi) as (d & ns' & Hins & Hi' & He).
  assert (forall mt', data mt' = data mt -> Insert flips e (data mt') = Some d) as Hd by (by intros mt' ->).
  pose proof (total_size_insert e _ (entries_sorted _ _ Hi)) as Ht.
  destruct (e_find (Key e) (entries (data mt) ns)) as [o|]; rewrite Hd by done; cbn [mbind option_bind];
    (eexists; split; [done|]; split; [|done]; split; [exists ns'; by rewrite <- He|]; simpl; lia).
Qed.

Section memtable.
Context mt es (Hmt : mt_inv mt es).

Lemma mt_GetWithTombstone_spec key : mt_GetWithTombstone key mt = Some (e_find key es).
Proof. destruct Hmt as [(ns & Hi & <-) _]. by apply Get_lsm. Qed.

Lemma mt_RangeWithTombstone_spec start end_ : mt_RangeWithTombstone start end_ mt = Some (filter (within start end_) es).
Proof. destruct Hmt as [(ns & Hi & <-) _]. by apply Range_lsm. Qed.

Lemma mt_AllEntries_spec : mt_AllEntries mt = Some es.
Proof. destruct Hmt as [(ns & Hi & <-) _]. by apply AllEntries_lsm. Qed.

Lemma mt_Len_spec : mt_Len mt = Z.of_nat (length es).
Proof.
  destruct Hmt as [(ns & Hi & <-) _]. pose proof (inv_length _ _ (li_erased _ _ Hi)) as Hl. simpl in Hl.
  unfold mt_Len, sl_Len. rewrite Hl. f_equal. pose proof (contents_entries _ _ (li_entries _ _ Hi)) as Hc.
  apply (f_equal length) in Hc. rewrite length_fmap in Hc. rewrite <- Hc.
  symmetry. by apply (pairs_length (erase (data mt)) ns), Hi.
Qed.

End memtable.
