(* ===== verification/LsmTable.v ===== *)
(** Sorted tables on disk (src/internal/lsm/sstable.go) and the errors of the
    package (errors.go).

    A [Disk] is the data directory: file names relative to it and the bytes of
    each file.  [writable] says whether files can be created and removed; reads
    fail on a missing file, at the end of a file and on bytes that do not
    decode.  Errors of the operating system and of the decoders are [ErrIO],
    whatever text the code wraps them in; [Panics] stands for a run-time panic,
    which is no error value.  Iteration over a Go map is followed by a sort in
    every place, so the entries of a map are its [map_to_list], sorted by the
    [SortSlice] at hand. *)

From stdpp Require Import base tactics option list gmap strings sorting.
From Stdlib Require Import ZArith Lia.
From S2P Require Import Prelude GoStrings Ordered LsmEntry.

Inductive Error :=
| ErrKeyNotFound | ErrInvalidRange | ErrInvalidLimit | ErrDBClosed | ErrEmptyKey | ErrMergeInProgress
| ErrIO | ErrEmptyEntries | Panics.

Abbreviation io A := (result Error A).

Definition of_option {A} (e : Error) (o : option A) : io A := match o with Some a => Ok a | None => Err e end.

(** ** Files *)

Record Disk := { files : gmap string (list Z); writable : bool }.

#[export] Instance eta_Disk : Eta Disk := fun d => {| files := files d; writable := writable d |}.

(** [os.Create] and the writes that follow: the file holds [bytes] afterwards. *)
Definition create_file (d : Disk) (name : string) (bytes : list Z) : io Disk :=
  if writable d then Ok (d <| files := <[name := bytes]> (files d) |>) else Err ErrIO.

Definition open_file (d : Disk) (name : string) : io (list Z) := of_option ErrIO (files d !! name).

Definition remove_file (d : Disk) (name : string) : Disk :=
  if writable d then d <| files := delete name (files d) |> else d.

(** [file.Seek(off, 0)], [make([]byte, n)] and [file.Read]: a read of no bytes
    succeeds anywhere, a short read leaves zeros behind. *)
Definition read_at (bytes : list Z) (off n : Z) : io (list Z) :=
  if off <? 0 then Err ErrIO
  else if n <? 0 then Err Panics
  else if n =? 0 then Ok []
  else of_option ErrIO (fst <$> read_some (Z.to_nat n) (drop (Z.to_nat off) bytes)).

(** ** The newest entry of every key *)

(** [existing, ok := m[e.Key]; if !ok || e.Timestamp > existing.Timestamp { m[e.Key] = e }] *)
Definition newest_step (m : gmap string Entry) (e : Entry) : gmap string Entry :=
  match m !! Key e with
  | Some existing => if Timestamp existing <? Timestamp e then <[Key e := e]> m else m
  | None => <[Key e := e]> m
  end.

Definition keep_newest (m : gmap string Entry) (es : list Entry) : gmap string Entry := foldl newest_step m es.

Section sorting.
Context `{!SortSlice}.

(** The values of a map, sorted by key. *)
Definition sorted_values (m : gmap string Entry) : list Entry := sort_slice Key (snd <$> map_to_list m).

(** [sort.Strings] of the keys of a map. *)
Definition sorted_keys {A} (m : gmap string A) : list string := sort_slice (fun k => k) (fst <$> map_to_list m).

(** ** Tables *)

Record SSTable := {
  filename : string; sst_level : Z; index : gmap string IndexEntry;
  indexOffset : Z; indexLen : Z; minKey : string; maxKey : string; entryCount : Z; fileSize : Z;
}.

#[export] Instance IndexEntry_eq_dec : EqDecision IndexEntry.
Proof. solve_decision. Defined.

#[export] Instance SSTable_eq_dec : EqDecision SSTable.
Proof. solve_decision. Defined.

(** The loop that writes the entries: the bytes, the index and the offset. *)
Definition write_entry (st : list Z * gmap string IndexEntry * Z) (e : Entry)
    : list Z * gmap string IndexEntry * Z :=
  let '(bytes, index, offset) := st in
  let encoded := Encode e in
  let n := Z.of_nat (length encoded) in
  (bytes ++ encoded,
   <[Key e := {| ie_Key := Key e; ie_Offset := offset; ie_EntryLen := intw 32 n |}]> index,
   int64 (offset + n)).

(** The loop that writes the index: the bytes and [indexLen]. *)
Definition write_index (index : gmap string IndexEntry) (st : list Z * Z) (key : string) : list Z * Z :=
  let '(bytes, len) := st in
  match index !! key with
  | Some ie => let encoded := IndexEncode ie in
               (bytes ++ encoded, intw 32 (len + intw 32 (Z.of_nat (length encoded))))
  | None => st
  end.

Definition NewSSTable (d : Disk) (name : string) (level : Z) (entries : list Entry) : io (Disk * SSTable) :=
  if decide (entries = []) then Err ErrEmptyEntries
  else
    let entries := sort_slice Key entries in
    let seen := keep_newest ∅ entries in
    let sortedEntries := sorted_values seen in
    let '(data, index, offset) := foldl write_entry ([], ∅, 0) sortedEntries in
    let sortedKeys := sorted_keys index in
    let '(idx, len) := foldl (write_index index) ([], 0) sortedKeys in
    let bytes := data ++ idx ++ le_encode 8 (uint64 offset) ++ le_encode 4 (uint32 len) in
    let? d := create_file d name bytes in
    match head sortedKeys, last sortedKeys with
    | Some min, Some max =>
        Ok (d, {| filename := name; sst_level := level; index := index; indexOffset := offset; indexLen := len;
                  minKey := min; maxKey := max; entryCount := Z.of_nat (length sortedEntries);
                  fileSize := Z.of_nat (length bytes) |})
    | _, _ => Err Panics
    end.

(** [for read < len(indexData)]: the bytes that remain, the index and the
    least and greatest key so far. *)
Fixpoint load_index (fuel : nat) (rest : list Z) (index : gmap string IndexEntry) (min max : string)
    : io (gmap string IndexEntry * string * string) :=
  match rest with
  | [] => Ok (index, min, max)
  | _ =>
      match fuel with
      | O => Err Panics
      | S fuel =>
          let? (ie, n) := of_option ErrIO (DecodeIndexEntry rest) in
          let k := ie_Key ie in
          load_index fuel (drop (Z.to_nat n) rest) (<[k := ie]> index)
            (if decide (min = "" \/ key_lt k min) then k else min)
            (if decide (max = "" \/ key_lt max k) then k else max)
      end
  end.

Definition LoadSSTable (d : Disk) (name : string) (level : Z) : io SSTable :=
  let? bytes := open_file d name in
  let fsize := Z.of_nat (length bytes) in
  if fsize <? 12 then Err ErrIO
  else
    let? (b, r) := of_option ErrIO (read_full 8 (drop (Z.to_nat (fsize - 12)) bytes)) in
    let offset := int64 (le_decode b) in
    let? (b, _) := of_option ErrIO (read_full 4 r) in
    let len := intw 32 (le_decode b) in
    let? indexData := read_at bytes offset len in
    let? (index, min, max) := load_index (length indexData) indexData ∅ "" "" in
    Ok {| filename := name; sst_level := level; index := index; indexOffset := offset; indexLen := len;
          minKey := min; maxKey := max; entryCount := Z.of_nat (size index); fileSize := fsize |}.

(** Seek to an entry, read it and decode it. *)
Definition read_entry (bytes : list Z) (ie : IndexEntry) : io Entry :=
  let? entryData := read_at bytes (ie_Offset ie) (ie_EntryLen ie) in
  let? (e, _) := of_option ErrIO (DecodeEntry entryData) in
  Ok e.

Definition sst_Get (d : Disk) (key : string) (sst : SSTable) : io (option Entry) :=
  match index sst !! key with
  | None => Ok None
  | Some ie =>
      if decide (key_lt key (minKey sst) \/ key_lt (maxKey sst) key) then Ok None
      else
        let? bytes := open_file d (filename sst) in
        let? e := read_entry bytes ie in
        Ok (Some e)
  end.

Fixpoint range_keys (bytes : list Z) (index : gmap string IndexEntry) (filterTombstone : bool)
    (keys : list string) (acc : list Entry) : io (list Entry) :=
  match keys with
  | [] => Ok acc
  | key :: keys =>
      let? ie := of_option Panics (index !! key) in
      let? e := read_entry bytes ie in
      range_keys bytes index filterTombstone keys
        (if negb filterTombstone || negb (Tombstone e) then acc ++ [e] else acc)
  end.

Definition sst_rangeInternal (d : Disk) (start end_ : string) (filterTombstone : bool) (sst : SSTable)
    : io (list Entry) :=
  if decide (key_lt end_ (minKey sst) \/ key_lt (maxKey sst) start) then Ok []
  else
    let? bytes := open_file d (filename sst) in
    let keys := filter (fun k => ~ key_lt k start /\ ~ key_lt end_ k) (fst <$> map_to_list (index sst)) in
    range_keys bytes (index sst) filterTombstone (sort_slice (fun k => k) keys) [].

Definition sst_Range (d : Disk) (start end_ : string) (sst : SSTable) : io (list Entry) :=
  sst_rangeInternal d start end_ true sst.

Definition sst_RangeWithTombstone (d : Disk) (start end_ : string) (sst : SSTable) : io (list Entry) :=
  sst_rangeInternal d start end_ false sst.

End sorting.

(** [for read < int(dataLen)] of [AllEntries]. *)
Fixpoint all_entries_loop (fuel : nat) (rest : list Z) (acc : list Entry) : io (list Entry) :=
  match rest with
  | [] => Ok acc
  | _ =>
      match fuel with
      | O => Err Panics
      | S fuel =>
          let? (e, n) := of_option ErrIO (DecodeEntry rest) in
          all_entries_loop fuel (drop (Z.to_nat n) rest) (acc ++ [e])
      end
  end.

Definition sst_AllEntries (d : Disk) (sst : SSTable) : io (list Entry) :=
  let? bytes := open_file d (filename sst) in
  let? data := read_at bytes 0 (indexOffset sst) in
  all_entries_loop (length data) data [].

Definition DeleteFile (sst : SSTable) (d : Disk) : Disk := remove_file d (filename sst).

Definition OverlapsWith (min max : string) (sst : SSTable) : bool :=
  negb (bool_decide (key_lt (maxKey sst) min \/ key_lt max (minKey sst))).

(** [fmt.Sprintf("L%d_%06d.sst", level, seqNum)], in the data directory. *)
Definition GenerateSSTableFilename (level seqNum : Z) : string :=
  "L" +:+ fmt_padded 0 level +:+ "_" +:+ fmt_padded 6 seqNum +:+ ".sst".
