(* ===== verification/LsmTableProofs.v ===== *)
(** Theorems about the sorted tables on disk (LsmTable.v): the file written for
    a list of entries reads back as the same table, and lookups, ranges and
    scans of the file are those of the list. *)

From stdpp Require Import base tactics option list gmap strings sorting.
From Stdlib Require Import ZArith Lia.
From S2P Require Import Prelude GoStrings Ordered LsmEntry LsmSkip LsmSkipProofs LsmTable.

Abbreviation zlen l := (Z.of_nat (length l)).
Implicit Types (e : Entry) (es : list Entry) (m : gmap string Entry) (d : Disk) (ie : IndexEntry).

(** ** The newest entries *)

(** A map that files entries under their own keys. *)
Definition keyed m : Prop := forall k e, m !! k = Some e -> Key e = k.

Lemma newest_step_keyed m e : keyed m -> keyed (newest_step m e).
Proof.
  intros Hm k x. unfold newest_step. repeat case_match; try apply Hm.
  all: destruct (decide (Key e = k)) as [<-|]; rewrite ?lookup_insert_eq, ?lookup_insert_ne by done; try apply Hm;
    congruence.
Qed.

Lemma keep_newest_keyed m es : keyed m -> keyed (keep_newest m es).
Proof. revert m. induction es as [|e es IH]; intros m Hm; [done|]. apply IH. by apply newest_step_keyed. Qed.

Lemma empty_keyed : keyed ∅.
Proof. intros k e H. by rewrite lookup_empty in H. Qed.

#[export] Hint Resolve empty_keyed keep_newest_keyed newest_step_keyed : core.

Lemma newest_step_lookup m e k :
  newest_step m e !! k =
    if decide (Key e = k)
    then match m !! k with Some x => if Timestamp x <? Timestamp e then Some e else Some x | None => Some e end
    else m !! k.
Proof.
  unfold newest_step. case_decide as E; subst.
  - destruct (m !! Key e) as [x|] eqn:Hx; [|by rewrite lookup_insert_eq].
    case_match; [by rewrite lookup_insert_eq|done].
  - repeat case_match; rewrite ?lookup_insert_ne by done; done.
Qed.

(** What the map holds for a key: one of the entries seen, and none is newer. *)
Lemma keep_newest_lookup m es k :
  match keep_newest m es !! k with
  | Some e => (m !! k = Some e \/ (e ∈ es /\ Key e = k)) /\
      (forall x, m !! k = Some x \/ (x ∈ es /\ Key x = k) -> Timestamp x <= Timestamp e)
  | None => m !! k = None /\ forall x, x ∈ es -> Key x <> k
  end.
Proof.
  revert m. induction es as [|e es IH]; intros m; simpl.
  { destruct (m !! k) as [e|]; [|set_solver]. split; [by left|]. intros x [[= ->]|[Hx _]]; [lia|set_solver]. }
  specialize (IH (newest_step m e)). rewrite newest_step_lookup in IH.
  destruct (keep_newest (newest_step m e) es !! k) as [r|].
  - destruct IH as [Hr Hmax]. case_decide as Ek; subst.
    + destruct (m !! Key e) as [x|] eqn:Hx.
      * destruct (Z.ltb_spec (Timestamp x) (Timestamp e)).
        -- split; [destruct Hr as [[= ->]|Hr]; [right|right]; set_solver|]. intros y Hy.
           pose proof (Hmax e (or_introl eq_refl)). destruct Hy as [[= ->]|[[->|Hy]%elem_of_cons E]]; [lia|lia|auto].
        -- split; [destruct Hr as [[= ->]|Hr]; [by left|right]; set_solver|]. intros y Hy.
           pose proof (Hmax x (or_introl eq_refl)). destruct Hy as [[= ->]|[[->|Hy]%elem_of_cons E]]; [lia|lia|auto].
      * split; [destruct Hr as [[= ->]|Hr]; right; set_solver|]. intros y Hy.
        pose proof (Hmax e (or_introl eq_refl)). destruct Hy as [[=]|[[->|Hy]%elem_of_cons E]]; [lia|auto].
    + split; [destruct Hr as [Hr|Hr]; [by left|right; set_solver]|]. intros y Hy.
      apply Hmax. destruct Hy as [Hy|[[->|Hy]%elem_of_cons E]]; [by left|done|by right].
  - destruct IH as [Hm Hes]. case_decide as Ek; [by repeat case_match|]. split; [done|]. set_solver.
Qed.

Section sorting.
Context `{!SortSlice}.

Lemma keyed_nodup m : keyed m -> NoDup (Key <$> (snd <$> map_to_list m)).
Proof.
  intros Hm. rewrite <- list_fmap_compose. rewrite (list_fmap_ext (Key ∘ snd) fst (map_to_list m)).
  - apply NoDup_fst_map_to_list.
  - intros i [k e] Hi. simpl. apply Hm. apply elem_of_map_to_list. by eapply list_elem_of_lookup_2.
Qed.

Lemma sorted_values_sorted m : keyed m -> e_sorted (sorted_values m).
Proof. intros Hm. by apply sort_slice_strict, keyed_nodup. Qed.

Lemma elem_of_sorted_values m e : keyed m -> e ∈ sorted_values m <-> m !! Key e = Some e.
Proof.
  intros Hm. unfold sorted_values. rewrite sort_slice_perm, list_elem_of_fmap. split.
  - intros ([k x] & -> & Hx). apply elem_of_map_to_list in Hx. simpl. by rewrite (Hm _ _ Hx).
  - intros He. exists (Key e, e). split; [done|]. by apply elem_of_map_to_list.
Qed.

(** Two sorted lists with the same members are equal. *)
Lemma sorted_ext es1 es2 : e_sorted es1 -> e_sorted es2 -> (forall e, e ∈ es1 <-> e ∈ es2) -> es1 = es2.
Proof.
  intros H1 H2 He. apply (sorted_perm_unique Key); [done| |].
  - induction H2 as [|x es2 Hs IH Hf] in es1, H1, He |- *; constructor.
    + clear -Hs. induction Hs as [|y es Hs IH Hf]; constructor; [done|].
      eapply Forall_impl; [exact Hf|]. intros z. by apply key_lt_asym.
    + eapply Forall_impl; [exact Hf|]. intros z. by apply key_lt_asym.
  - apply NoDup_Permutation; [| |done].
    all: match goal with H : e_sorted ?l |- NoDup ?l => clear -H; induction H as [|x l Hs IH Hf]; constructor; [|done] end.
    all: intros Hx; rewrite Forall_forall in Hf; by apply (key_lt_irrefl (Key x)), Hf.
Qed.

Lemma keep_newest_sorted es : e_sorted es -> sorted_values (keep_newest ∅ (sort_slice Key es)) = es.
Proof.
  intros Hs. apply sorted_ext; [by apply sorted_values_sorted, keep_newest_keyed|done|]. intros e.
  rewrite elem_of_sorted_values by auto. pose proof (keep_newest_lookup ∅ (sort_slice Key es) (Key e)) as Hk.
  rewrite lookup_empty in Hk. split.
  - intros E. rewrite E in Hk. destruct Hk as [[[=]|[Hk _]] _]. by rewrite sort_slice_perm in Hk.
  - intros He. destruct (keep_newest ∅ _ !! Key e) as [x|].
    + destruct Hk as [[[=]|[Hx Ek]] _]. rewrite sort_slice_perm in Hx. by rewrite (sorted_same_key es x e).
    + destruct Hk as [_ Hk]. destruct (Hk e); [by rewrite sort_slice_perm|done].
Qed.

End sorting.

(** ** The image of a table *)

Definition data_bytes es : list Z := concat (Encode <$> es).

(** The index entries of entries written from an offset on. *)
Fixpoint index_entries (off : Z) es : list IndexEntry :=
  match es with
  | [] => []
  | e :: es => {| ie_Key := Key e; ie_Offset := off; ie_EntryLen := zlen (Encode e) |}
               :: index_entries (off + zlen (Encode e)) es
  end.

Definition index_map (acc : gmap string IndexEntry) (ies : list IndexEntry) : gmap string IndexEntry :=
  foldl (fun acc ie => <[ie_Key ie := ie]> acc) acc ies.

Definition index_bytes es : list Z := concat (IndexEncode <$> index_entries 0 es).

Definition image es : list Z :=
  data_bytes es ++ index_bytes es ++ le_encode 8 (zlen (data_bytes es)) ++ le_encode 4 (zlen (index_bytes es)).

Definition table_of (name : string) (level : Z) es : SSTable :=
  {| filename := name; sst_level := level; index := index_map ∅ (index_entries 0 es);
     indexOffset := zlen (data_bytes es); indexLen := zlen (index_bytes es);
     minKey := default "" (head (Key <$> es)); maxKey := default "" (last (Key <$> es));
     entryCount := zlen es; fileSize := zlen (image es) |}.

(** The entries fit their widths on disk and the file is under 2 GiB. *)
Definition fits es : Prop := Forall entry_fits es /\ zlen (data_bytes es) + zlen (index_bytes es) < 2 ^ 31.

Lemma data_bytes_cons e es : data_bytes (e :: es) = Encode e ++ data_bytes es.
Proof. done. Qed.

Lemma data_bytes_app es1 es2 : data_bytes (es1 ++ es2) = data_bytes es1 ++ data_bytes es2.
Proof. unfold data_bytes. by rewrite fmap_app, concat_app. Qed.

Lemma index_entries_keys off es : ie_Key <$> index_entries off es = Key <$> es.
Proof. revert off. induction es as [|e es IH]; intros off; simpl; [done|]. by rewrite IH. Qed.

Lemma index_entries_app off es1 es2 :
  index_entries off (es1 ++ es2) = index_entries off es1 ++ index_entries (off + zlen (data_bytes es1)) es2.
Proof.
  revert off. induction es1 as [|e es1 IH]; intros off; cbn [app index_entries]; [by rewrite Z.add_0_r|].
  rewrite IH, data_bytes_cons, length_app. do 3 f_equal. lia.
Qed.

Lemma keys_nodup es : e_sorted es -> NoDup (Key <$> es).
Proof.
  induction 1 as [|e es Hs IH Hf]; simpl; constructor; [|done]. intros ([x Ex] & Hx & Hin)%list_elem_of_fmap.
  rewrite Forall_forall in Hf. specialize (Hf _ Hin). rewrite Hx in Hf. by apply key_lt_irrefl in Hf.
Qed.

Lemma index_map_lookup acc ies k : NoDup (ie_Key <$> ies) ->
  (forall ie, ie ∈ ies -> index_map acc ies !! ie_Key ie = Some ie) /\
  ((forall ie, ie ∈ ies -> ie_Key ie <> k) -> index_map acc ies !! k = acc !! k).
Proof.
  revert acc. induction ies as [|ie ies IH]; intros acc Hnd; [split; [set_solver|done]|]. rewrite fmap_cons in Hnd.
  apply NoDup_cons in Hnd as [Hie Hnd]. destruct (IH (<[ie_Key ie := ie]> acc) Hnd) as [IH1 IH2]. simpl. split.
  - intros x [->|Hx]%elem_of_cons; [|by apply IH1].
    assert (index_map (<[ie_Key ie := ie]> acc) ies !! ie_Key ie = <[ie_Key ie := ie]> acc !! ie_Key ie) as ->;
      [|by rewrite lookup_insert_eq].
    clear -Hie. assert (forall acc, index_map acc ies !! ie_Key ie = acc !! ie_Key ie) as ->; [|done].
    induction ies as [|y ies IH]; intros acc'; [done|]. simpl. rewrite IH by set_solver.
    rewrite lookup_insert_ne; [done|]. set_solver.
  - intros Hk. rewrite IH2 by set_solver. by rewrite lookup_insert_ne by set_solver.
Qed.

Lemma index_lookup es k : e_sorted es ->
  match e_find k es with
  | Some e => exists es1 es2, es = es1 ++ e :: es2 /\
      index_map ∅ (index_entries 0 es) !! k =
        Some {| ie_Key := k; ie_Offset := zlen (data_bytes es1); ie_EntryLen := zlen (Encode e) |}
  | None => index_map ∅ (index_entries 0 es) !! k = None
  end.
Proof.
  intros Hs. assert (NoDup (ie_Key <$> index_entries 0 es)) as Hnd by (rewrite index_entries_keys; by apply keys_nodup).
  destruct (index_map_lookup ∅ (index_entries 0 es) k Hnd) as [Hin Hout].
  destruct (e_find k es) as [e|] eqn:Hf.
  - apply e_find_Some in Hf as [He <-]; [|done]. apply list_elem_of_split in He as (es1 & es2 & ->).
    exists es1, es2. split; [done|].
    apply (Hin {| ie_Key := Key e; ie_Offset := zlen (data_bytes es1); ie_EntryLen := zlen (Encode e) |}).
    rewrite index_entries_app. simpl. set_solver.
  - rewrite Hout, lookup_empty; [done|]. intros ie Hie Hk. assert (k ∈ Key <$> es) as Hk'.
    { rewrite <- (index_entries_keys 0), <- Hk. by apply list_elem_of_fmap_2. }
    apply list_elem_of_fmap in Hk' as (e & -> & He). by apply (e_find_None (Key e) es) in He.
Qed.

Lemma index_map_dom es k : e_sorted es -> is_Some (index_map ∅ (index_entries 0 es) !! k) <-> k ∈ Key <$> es.
Proof.
  intros Hs. pose proof (index_lookup es k Hs) as Hl. rewrite list_elem_of_fmap.
  destruct (e_find k es) as [e|] eqn:Hf.
  - apply e_find_Some in Hf as [He <-]; [|done]. destruct Hl as (? & ? & _ & ->). split; [|by eexists]. by exists e.
  - rewrite Hl. split; [by intros [? ?]|]. intros (e & -> & He). by apply (e_find_None (Key e) es) in He.
Qed.

Lemma key_sorted_strings es : e_sorted es -> StronglySorted key_lt (Key <$> es).
Proof.
  induction 1 as [|e es Hs IH Hf]; simpl; constructor; [done|]. by apply Forall_fmap.
Qed.

Section sorting.
Context `{!SortSlice}.

(** The sorted keys of the index that pass a test are those of the entries. *)
Lemma sorted_index_keys es (P : string -> Prop) `{!forall k, Decision (P k)} : e_sorted es ->
  sort_slice (fun k => k) (filter P (fst <$> map_to_list (index_map ∅ (index_entries 0 es)))) = filter P (Key <$> es).
Proof.
  intros Hs. symmetry. apply (sorted_perm_unique (fun k => k)).
  - apply key_sorted_strings in Hs. induction Hs as [|k ks Hs IH Hf]; [constructor|]. rewrite filter_cons.
    case_decide; [|done]. constructor; [done|]. rewrite Forall_forall in Hf |- *. intros x [_ Hx]%list_elem_of_filter. by apply Hf.
  - apply sort_slice_sorted.
  - rewrite sort_slice_perm. apply NoDup_Permutation.
    + by apply NoDup_filter, keys_nodup.
    + apply NoDup_filter, NoDup_fst_map_to_list.
    + intros k. rewrite !list_elem_of_filter, <- index_map_dom by done.
      rewrite list_elem_of_fmap. split; intros [HP Hk]; (split; [done|]).
      * destruct Hk as [ie Hie]. exists (k, ie). split; [done|]. by apply elem_of_map_to_list.
      * destruct Hk as ([k' ie] & -> & Hie). apply elem_of_map_to_list in Hie. by exists ie.
Qed.

Lemma sorted_all_keys es : e_sorted es -> sorted_keys (index_map ∅ (index_entries 0 es)) = Key <$> es.
Proof.
  intros Hs. pose proof (sorted_index_keys es (fun _ => True) Hs) as Hk.
  by rewrite !list_filter_all in Hk by (apply Forall_true; done).
Qed.

End sorting.

(** ** Writing *)

Lemma data_bytes_length e es : (length (data_bytes (e :: es)) = length (Encode e) + length (data_bytes es))%nat.
Proof. by rewrite data_bytes_cons, length_app. Qed.

Lemma foldl_write_entry es bytes idx off :
  0 <= off -> off + zlen (data_bytes es) < 2 ^ 31 ->
  foldl write_entry (bytes, idx, off) es =
    (bytes ++ data_bytes es, index_map idx (index_entries off es), off + zlen (data_bytes es)).
Proof.
  revert bytes idx off. induction es as [|e es IH]; intros bytes idx off Ho Hl.
  - simpl. by rewrite app_nil_r, Z.add_0_r.
  - rewrite data_bytes_length in Hl |- *. cbn [foldl index_entries write_entry].
    rewrite !intw_small by lia. rewrite IH by lia. rewrite data_bytes_cons, <- app_assoc.
    rewrite Nat2Z.inj_add, Z.add_assoc. done.
Qed.

Lemma foldl_write_index (idx : gmap string IndexEntry) ies bytes len :
  (forall ie, ie ∈ ies -> idx !! ie_Key ie = Some ie) ->
  0 <= len -> len + zlen (concat (IndexEncode <$> ies)) < 2 ^ 31 ->
  foldl (write_index idx) (bytes, len) (ie_Key <$> ies) =
    (bytes ++ concat (IndexEncode <$> ies), len + zlen (concat (IndexEncode <$> ies))).
Proof.
  revert bytes len. induction ies as [|ie ies IH]; intros bytes len Hi Ho Hl.
  - simpl. by rewrite app_nil_r, Z.add_0_r.
  - rewrite (fmap_cons IndexEncode) in Hl |- *. rewrite (fmap_cons ie_Key). cbn [concat foldl] in Hl |- *. rewrite length_app in Hl |- *.
    unfold write_index at 2. rewrite Hi by set_solver. rewrite (intw_small 32 (zlen (IndexEncode ie))) by lia.
    rewrite intw_small by lia. rewrite IH by (set_solver || lia). rewrite <- app_assoc. f_equal. lia.
Qed.

Lemma index_map_entries es ie : e_sorted es -> ie ∈ index_entries 0 es ->
  index_map ∅ (index_entries 0 es) !! ie_Key ie = Some ie.
Proof.
  intros Hs. apply (proj1 (index_map_lookup ∅ (index_entries 0 es) "" ltac:(rewrite index_entries_keys; by apply keys_nodup))).
Qed.

Section sorting.
Context `{!SortSlice}.

Definition newest es : list Entry := sorted_values (keep_newest ∅ (sort_slice Key es)).

Lemma newest_sorted es : e_sorted (newest es).
Proof. by apply sorted_values_sorted, keep_newest_keyed. Qed.

Lemma newest_nonempty es : es <> [] -> newest es <> [].
Proof.
  intros Hne E. destruct es as [|e es]; [done|].
  pose proof (keep_newest_lookup ∅ (sort_slice Key (e :: es)) (Key e)) as Hk.
  destruct (keep_newest _ _ !! Key e) as [x|] eqn:Hx.
  - assert (x ∈ newest (e :: es)) as Hin.
    { apply elem_of_sorted_values; [auto|]. by rewrite (keep_newest_keyed ∅ _ empty_keyed _ _ Hx). }
    rewrite E in Hin. set_solver.
  - destruct Hk as [_ Hk]. apply (Hk e); [|done]. rewrite sort_slice_perm. set_solver.
Qed.

(** [NewSSTable] writes the image of the newest entries. *)
Lemma NewSSTable_spec d name level entries :
  entries <> [] -> writable d = true -> fits (newest entries) ->
  NewSSTable d name level entries =
    Ok (d <| files := <[name := image (newest entries)]> (files d) |>, table_of name level (newest entries)).
Proof.
  intros Hne Hw [Hf Hb]. unfold NewSSTable. rewrite decide_False by done. cbn zeta. fold (newest entries).
  pose proof (newest_sorted entries) as Hs. pose proof (newest_nonempty entries Hne) as Hn.
  set (es := newest entries) in *. clearbody es. unfold index_bytes in Hb.
  rewrite foldl_write_entry by lia. cbn [app]. rewrite Z.add_0_l. rewrite sorted_all_keys by done.
  rewrite <- (index_entries_keys 0). rewrite foldl_write_index; [|by intros; apply index_map_entries|lia|lia].
  rewrite index_entries_keys, Z.add_0_l. cbn [app].
  rewrite !uintw_small by lia. fold (index_bytes es). fold (image es). unfold create_file. rewrite Hw. cbn [rbind].
  destruct es as [|e es]; [done|].
  destruct (last (Key <$> e :: es)) as [k|] eqn:El; [|by apply last_None in El].
  unfold table_of. rewrite El. done.
Qed.

End sorting.

(** The table [t] is the one that was written for [es], and its file is there. *)
Record table_ok d (t : SSTable) es : Prop := {
  tk_sorted : e_sorted es;
  tk_nonempty : es <> [];
  tk_fits : fits es;
  tk_keys : Forall (fun e => Key e <> "") es;
  tk_file : files d !! filename t = Some (image es);
  tk_shape : t = table_of (filename t) (sst_level t) es;
}.

(** ** Reading *)

Lemma read_some_at pre l r : l <> [] -> r <> [] ->
  read_at (pre ++ l ++ r) (zlen pre) (zlen l) = Ok l.
Proof.
  intros Hl Hr. unfold read_at. destruct (Z.ltb_spec (zlen pre) 0); [lia|].
  destruct (Z.ltb_spec (zlen l) 0); [lia|]. destruct (Z.eqb_spec (zlen l) 0); [destruct l; simpl in *; done || lia|].
  rewrite !Nat2Z.id, drop_app_length, read_some_app by done. done.
Qed.

Lemma Encode_nonempty e : Encode e <> [].
Proof. unfold Encode. by apply le_encode_nonempty. Qed.

Lemma image_after es1 e es2 : exists rest, rest <> [] /\
  image (es1 ++ e :: es2) = data_bytes es1 ++ Encode e ++ rest.
Proof.
  set (es := es1 ++ e :: es2). exists (data_bytes es2 ++ index_bytes es ++ le_encode 8 (zlen (data_bytes es)) ++
    le_encode 4 (zlen (index_bytes es))). split.
  - intros E. apply app_nil in E as [_ E]. apply app_nil in E as [_ E]. by apply le_encode_nonempty in E.
  - unfold image. subst es. rewrite (data_bytes_app es1 (e :: es2)) at 1. rewrite data_bytes_cons, <- !app_assoc. done.
Qed.

Lemma read_entry_image es1 e es2 : entry_fits e ->
  read_entry (image (es1 ++ e :: es2))
    {| ie_Key := Key e; ie_Offset := zlen (data_bytes es1); ie_EntryLen := zlen (Encode e) |} = Ok e.
Proof.
  intros Hf. destruct (image_after es1 e es2) as (rest & Hr & ->). unfold read_entry. cbn [ie_Offset ie_EntryLen].
  rewrite read_some_at by (done || apply Encode_nonempty). cbn [rbind].
  pose proof (decode_encode_entry e [] Hf) as Hd. rewrite app_nil_r in Hd. by rewrite Hd.
Qed.

(** The bounds of the table are the bounds of its keys. *)
Lemma sorted_head_least es e : e_sorted es -> e ∈ es -> ~ key_lt (Key e) (default "" (head (Key <$> es))).
Proof.
  intros Hs He. destruct es as [|x es]; [set_solver|]. simpl. apply StronglySorted_inv in Hs as [_ Hf].
  rewrite Forall_forall in Hf. apply elem_of_cons in He as [->|He]; [by apply key_lt_irrefl|].
  by apply key_lt_asym, Hf.
Qed.

Lemma sorted_last_greatest es e : e_sorted es -> e ∈ es -> ~ key_lt (default "" (last (Key <$> es))) (Key e).
Proof.
  intros Hs He. destruct es as [|z l _] using rev_ind; [set_solver|]. rewrite fmap_app. change (Key <$> [z]) with [Key z]. rewrite last_snoc. simpl.
  apply elem_of_app in He as [He|He%list_elem_of_singleton]; [|subst; by apply key_lt_irrefl].
  apply key_lt_asym. apply (StronglySorted_app_1_elem_of (fun a b => key_lt (Key a) (Key b)) l [z]); [done|done|set_solver].
Qed.

Section table.
Context `{!SortSlice} (d : Disk) (t : SSTable) (es : list Entry) (Hok : table_ok d t es).

Lemma table_index : index t = index_map ∅ (index_entries 0 es).
Proof. by rewrite (tk_shape _ _ _ Hok). Qed.

Lemma table_bounds e : e ∈ es -> ~ key_lt (Key e) (minKey t) /\ ~ key_lt (maxKey t) (Key e).
Proof.
  intros He. rewrite (tk_shape _ _ _ Hok). simpl.
  split; [by apply sorted_head_least, He; apply Hok|by apply sorted_last_greatest, He; apply Hok].
Qed.

Lemma table_min : exists e, e ∈ es /\ Key e = minKey t.
Proof.
  rewrite (tk_shape _ _ _ Hok). pose proof (tk_nonempty _ _ _ Hok). destruct es as [|e es']; [done|].
  exists e. split; [set_solver|done].
Qed.

Lemma table_max : exists e, e ∈ es /\ Key e = maxKey t.
Proof.
  rewrite (tk_shape _ _ _ Hok). pose proof (tk_nonempty _ _ _ Hok). simpl.
  destruct (last (Key <$> es)) as [k|] eqn:El.
  - apply last_Some_elem_of, list_elem_of_fmap in El as (e & -> & He). by exists e.
  - apply last_None in El. by destruct es.
Qed.

Lemma open_table : open_file d (filename t) = Ok (image es).
Proof. unfold open_file. by rewrite (tk_file _ _ _ Hok). Qed.

Lemma fits_entry e : e ∈ es -> entry_fits e.
Proof. intros He. destruct (tk_fits _ _ _ Hok) as [Hf _]. rewrite Forall_forall in Hf. by apply Hf. Qed.

Lemma read_table_entry k e : e_find k es = Some e ->
  exists ie, index t !! k = Some ie /\ read_entry (image es) ie = Ok e.
Proof.
  intros Hf. pose proof (index_lookup es k (tk_sorted _ _ _ Hok)) as Hl. rewrite Hf in Hl.
  destruct Hl as (es1 & es2 & E & Hl). apply e_find_Some in Hf as [He <-]; [|apply Hok].
  rewrite table_index, Hl. eexists. split; [done|]. rewrite E. apply read_entry_image. by apply fits_entry.
Qed.

Lemma sst_Get_spec key : sst_Get d key t = Ok (e_find key es).
Proof.
  unfold sst_Get. destruct (e_find key es) as [e|] eqn:Hf.
  - destruct (read_table_entry key e Hf) as (ie & -> & Hr).
    apply e_find_Some in Hf as [He <-]; [|apply Hok]. destruct (table_bounds e He).
    rewrite decide_False by tauto. rewrite open_table. cbn [rbind]. by rewrite Hr.
  - rewrite table_index. pose proof (index_lookup es key (tk_sorted _ _ _ Hok)) as Hl. rewrite Hf in Hl. by rewrite Hl.
Qed.

Lemma range_keys_spec flt sub acc : (forall e, e ∈ sub -> e ∈ es) ->
  range_keys (image es) (index t) flt (Key <$> sub) acc =
    Ok (acc ++ filter (fun e => flt = false \/ Tombstone e = false) sub).
Proof.
  revert acc. induction sub as [|e sub IH]; intros acc Hsub; [simpl; by rewrite app_nil_r|].
  destruct (read_table_entry (Key e) e) as (ie & Hie & Hr).
  { apply e_find_Some; [apply Hok|]. split; [set_solver|done]. }
  rewrite fmap_cons. cbn [range_keys]. rewrite Hie. cbn [of_option rbind]. rewrite Hr. cbn [rbind].
  rewrite IH by set_solver. rewrite filter_cons.
  destruct flt, (Tombstone e) eqn:Et; cbn [negb orb].
  - by rewrite decide_False by intuition congruence.
  - by rewrite decide_True, <- app_assoc by intuition congruence.
  - by rewrite decide_True, <- app_assoc by intuition congruence.
  - by rewrite decide_True, <- app_assoc by intuition congruence.
Qed.

Lemma filter_keys start end_ :
  filter (fun k => ~ key_lt k start /\ ~ key_lt end_ k) (Key <$> es) = Key <$> filter (within start end_) es.
Proof.
  clear. induction es as [|e es' IH]; [done|]. rewrite fmap_cons, !filter_cons, IH. unfold within.
  repeat case_decide; done || tauto.
Qed.

Lemma sst_rangeInternal_spec start end_ flt :
  sst_rangeInternal d start end_ flt t =
    Ok (filter (fun e => flt = false \/ Tombstone e = false) (filter (within start end_) es)).
Proof.
  unfold sst_rangeInternal. case_decide as Hout.
  - rewrite (list_filter_none (within start end_)); [done|]. rewrite Forall_forall. intros e He [H1 H2].
    destruct (table_bounds e He) as [B1 B2]. destruct Hout as [Hout|Hout].
    + exact (key_not_lt_trans _ _ _ H2 B1 Hout).
    + exact (key_not_lt_trans _ _ _ B2 H1 Hout).
  - rewrite open_table. cbn [rbind]. rewrite table_index, sorted_index_keys by apply Hok.
    rewrite filter_keys, <- table_index, range_keys_spec; [done|]. intros e He. by apply list_elem_of_filter in He as [_ ?].
Qed.

Lemma sst_RangeWithTombstone_spec start end_ :
  sst_RangeWithTombstone d start end_ t = Ok (filter (within start end_) es).
Proof.
  unfold sst_RangeWithTombstone. rewrite sst_rangeInternal_spec, list_filter_all; [done|].
  apply Forall_true. auto.
Qed.

Lemma all_entries_loop_spec sub fuel acc : Forall entry_fits sub -> (length (data_bytes sub) <= fuel)%nat ->
  all_entries_loop fuel (data_bytes sub) acc = Ok (acc ++ sub).
Proof.
  clear. revert fuel acc. induction sub as [|e sub IH]; intros fuel acc Hf Hl; [destruct fuel; simpl; by rewrite app_nil_r|].
  rewrite data_bytes_cons, length_app in Hl. apply Forall_cons in Hf as [He Hf]. rewrite data_bytes_cons.
  pose proof (Encode_nonempty e) as Hne.
  destruct fuel as [|fuel]; [destruct (Encode e); simpl in *; done || lia|].
  destruct (Encode e ++ data_bytes sub) eqn:E; [by apply app_nil in E as [? _]|]. cbn [all_entries_loop].
  rewrite <- E, decode_encode_entry by done. cbn [of_option rbind].
  rewrite Nat2Z.id, drop_app_length, IH; [by rewrite <- app_assoc|done|].
  destruct (Encode e); simpl in *; [done|lia].
Qed.

Lemma sst_AllEntries_spec : sst_AllEntries d t = Ok es.
Proof.
  unfold sst_AllEntries. rewrite open_table. cbn [rbind].
  assert (indexOffset t = zlen (data_bytes es)) as -> by (by rewrite (tk_shape _ _ _ Hok)).
  pose proof (read_some_at [] (data_bytes es) (index_bytes es ++ le_encode 8 (zlen (data_bytes es)) ++
    le_encode 4 (zlen (index_bytes es)))) as Hr.
  cbn [app] in Hr. fold (image es) in Hr. change (zlen (@nil Z)) with 0 in Hr. rewrite Hr.
  - cbn [rbind]. rewrite all_entries_loop_spec; [done| |done]. apply (tk_fits _ _ _ Hok).
  - pose proof (tk_nonempty _ _ _ Hok). destruct es as [|e es']; [done|]. rewrite data_bytes_cons.
    intros E. apply app_nil in E as [E _]. by apply Encode_nonempty in E.
  - intros E. apply app_nil in E as [_ E]. by apply le_encode_nonempty in E.
Qed.

End table.

(** ** Loading *)

Lemma IndexEncode_nonempty ie : IndexEncode ie <> [].
Proof. unfold IndexEncode. by apply le_encode_nonempty. Qed.

Definition bound_min (min k : string) : string := if decide (min = "" \/ key_lt k min) then k else min.
Definition bound_max (max k : string) : string := if decide (max = "" \/ key_lt max k) then k else max.

Lemma load_index_spec ies fuel acc min max : Forall index_fits ies ->
  (length (concat (IndexEncode <$> ies)) <= fuel)%nat ->
  load_index fuel (concat (IndexEncode <$> ies)) acc min max =
    Ok (index_map acc ies, foldl bound_min min (ie_Key <$> ies), foldl bound_max max (ie_Key <$> ies)).
Proof.
  revert fuel acc min max. induction ies as [|ie ies IH]; intros fuel acc min max Hf Hl; [by destruct fuel|].
  rewrite (fmap_cons IndexEncode) in Hl |- *. cbn [concat] in Hl |- *. rewrite length_app in Hl.
  apply Forall_cons in Hf as [Hi Hf]. pose proof (IndexEncode_nonempty ie) as Hne.
  destruct fuel as [|fuel]; [destruct (IndexEncode ie); simpl in *; done || lia|].
  destruct (IndexEncode ie ++ concat (IndexEncode <$> ies)) eqn:E; [by apply app_nil in E as [? _]|].
  cbn [load_index]. rewrite <- E, decode_encode_index by done. cbn [of_option rbind].
  rewrite Nat2Z.id, drop_app_length, IH; [done|done|]. destruct (IndexEncode ie); simpl in *; [done|lia].
Qed.

Lemma foldl_bound_min min ks : min <> "" -> Forall (key_lt min) ks -> foldl bound_min min ks = min.
Proof.
  intros Hm. induction 1 as [|k ks Hk Hf IH]; [done|]. simpl. unfold bound_min at 2. rewrite decide_False; [done|].
  intros [|Hlt]; [done|]. by apply (key_lt_asym _ _ Hk).
Qed.

Lemma foldl_bound_max max ks : Forall (fun k => k <> "") ks -> StronglySorted key_lt (max :: ks) ->
  foldl bound_max max ks = List.last ks max.
Proof.
  revert max. induction ks as [|k ks IH]; intros max Hne Hs; [done|]. apply StronglySorted_inv in Hs as [Hs Hf].
  apply Forall_cons in Hne as [Hk Hne]. apply Forall_cons in Hf as [Hmk _]. cbn [foldl].
  unfold bound_max at 2. rewrite decide_True by auto. rewrite IH by done.
  destruct ks as [|k' ks]; [done|]. cbn [List.last]. clear. revert k'. induction ks as [|x ks IH]; intros k'; [done|].
  cbn [List.last]. apply IH.
Qed.

Lemma index_entries_fit off es : 0 <= off -> off + zlen (data_bytes es) < 2 ^ 31 -> Forall entry_fits es ->
  Forall index_fits (index_entries off es).
Proof.
  revert off. induction es as [|e es IH]; intros off Ho Hl Hf; cbn [index_entries]; [constructor|].
  apply Forall_cons in Hf as [(Hk & _) Hf]. rewrite data_bytes_length in Hl. constructor.
  - split; [exact Hk|]. cbn [ie_Offset ie_EntryLen]. lia.
  - apply IH; [lia|lia|done].
Qed.

Lemma last_default (ks : list string) k : List.last ks k = default "" (last (k :: ks)).
Proof.
  revert k. induction ks as [|x ks IH]; intros k; [done|]. destruct ks as [|y ks]; [done|].
  change (List.last (x :: y :: ks) k) with (List.last (y :: ks) k). by rewrite IH, !last_cons_cons.
Qed.

Lemma index_size es : e_sorted es -> size (index_map ∅ (index_entries 0 es)) = length es.
Proof.
  intros Hs. rewrite <- length_map_to_list, <- (length_fmap fst), <- (length_fmap Key es).
  apply Permutation_length, NoDup_Permutation; [apply NoDup_fst_map_to_list|by apply keys_nodup|].
  intros k. rewrite <- index_map_dom, list_elem_of_fmap by done. split.
  - intros ([k' ie] & -> & Hie%elem_of_map_to_list). by exists ie.
  - intros [ie Hie]. exists (k, ie). split; [done|]. by apply elem_of_map_to_list.
Qed.

(** Loading a file gives the table that was written. *)
Lemma LoadSSTable_spec d name level es :
  e_sorted es -> es <> [] -> fits es -> Forall (fun e => Key e <> "") es -> files d !! name = Some (image es) ->
  LoadSSTable d name level = Ok (table_of name level es).
Proof.
  intros Hs Hne [Hf Hb] Hk Hfile. unfold LoadSSTable, open_file. rewrite Hfile. cbn [of_option rbind].
  set (foot := le_encode 8 (zlen (data_bytes es)) ++ le_encode 4 (zlen (index_bytes es))).
  assert (image es = (data_bytes es ++ index_bytes es) ++ foot) as Ei by (unfold image, foot; by rewrite <- app_assoc).
  assert (length foot = 12%nat) as Hfl by (unfold foot; by rewrite length_app, !length_le_encode).
  assert (zlen (image es) = zlen (data_bytes es ++ index_bytes es) + 12) as Hl by (rewrite Ei, length_app; lia).
  destruct (Z.ltb_spec (zlen (image es)) 12); [lia|].
  replace (Z.to_nat (zlen (image es) - 12)) with (length (data_bytes es ++ index_bytes es)) by lia.
  rewrite Ei at 1. rewrite drop_app_length. unfold foot at 1. rewrite read_full_app by apply length_le_encode.
  cbn [of_option rbind].
  assert (read_full 4 (le_encode 4 (zlen (index_bytes es))) = Some (le_encode 4 (zlen (index_bytes es)), [])) as ->.
  { rewrite <- (app_nil_r (le_encode 4 _)) at 1. by apply read_full_app, length_le_encode. }
  cbn [of_option rbind]. rewrite !le_decode_encode, !Z.mod_small by lia. rewrite !intw_small by lia.
  unfold image at 1. rewrite read_some_at.
  - cbn [rbind]. unfold index_bytes at 1 2. rewrite load_index_spec; [|by apply index_entries_fit; [|lia|]|done].
    cbn [rbind]. rewrite !index_entries_keys. destruct es as [|e es]; [done|]. rewrite fmap_cons. cbn [foldl].
    unfold bound_min at 2, bound_max at 2. rewrite !decide_True by auto.
    apply Forall_cons in Hk as [Hke Hk]. pose proof (key_sorted_strings _ Hs) as Hss.
    pose proof Hss as Hss'. apply StronglySorted_inv in Hss' as [_ Hfst].
    rewrite foldl_bound_min, foldl_bound_max, last_default; [|by apply Forall_fmap|done|done|done].
    unfold table_of. by rewrite index_size.
  - destruct es as [|e es]; [done|]. unfold index_bytes. cbn [index_entries]. rewrite fmap_cons. cbn [concat].
    intros E. apply app_nil in E as [E _]. by apply IndexEncode_nonempty in E.
  - intros E. by apply le_encode_nonempty in E.
Qed.

(** ** The round trip *)

Lemma elem_of_newest `{!SortSlice} es e : e ∈ newest es ->
  e ∈ es /\ forall x, x ∈ es -> Key x = Key e -> Timestamp x <= Timestamp e.
Proof.
  intros He. apply elem_of_sorted_values in He; [|auto]. pose proof (keep_newest_lookup ∅ (sort_slice Key es) (Key e)) as Hk.
  rewrite He, lookup_empty in Hk. destruct Hk as [[[=]|[Hin _]] Hmax]. rewrite sort_slice_perm in Hin. split; [done|].
  intros x Hx Ek. apply Hmax. right. by rewrite sort_slice_perm.
Qed.

Lemma newest_covers `{!SortSlice} es x : x ∈ es -> is_Some (e_find (Key x) (newest es)).
Proof.
  intros Hx. pose proof (keep_newest_lookup ∅ (sort_slice Key es) (Key x)) as Hk.
  destruct (keep_newest ∅ (sort_slice Key es) !! Key x) as [y|] eqn:Hy.
  - exists y. assert (Key y = Key x) as Ey by (by apply (keep_newest_keyed ∅ (sort_slice Key es) empty_keyed)).
    apply e_find_Some; [apply newest_sorted|]. split; [|done]. apply elem_of_sorted_values; [auto|by rewrite Ey].
  - destruct Hk as [_ Hk]. destruct (Hk x); [by rewrite sort_slice_perm|done].
Qed.

(** A table reads back as it was written.  [NewSSTable] keeps the newest
    entry of every key; loading its file gives the same table, a scan gives
    these entries in the order of their keys, a lookup finds exactly them and a
    range those between its bounds.  The entries must fit their fields and the
    keys must not be empty. *)
Theorem sstable_roundtrip `{!SortSlice} d name level entries :
  entries <> [] -> writable d = true -> fits (newest entries) -> Forall (fun e => Key e <> "") entries ->
  exists d' t, NewSSTable d name level entries = Ok (d', t) /\ LoadSSTable d' name level = Ok t /\
    sst_AllEntries d' t = Ok (newest entries) /\
    (forall key, sst_Get d' key t = Ok (e_find key (newest entries))) /\
    (forall start end_, sst_RangeWithTombstone d' start end_ t = Ok (filter (within start end_) (newest entries))) /\
    (forall e, e ∈ newest entries -> e ∈ entries /\ forall x, x ∈ entries -> Key x = Key e -> Timestamp x <= Timestamp e) /\
    (forall x, x ∈ entries -> is_Some (e_find (Key x) (newest entries))).
Proof.
  intros Hne Hw Hf Hk. rewrite (NewSSTable_spec d name level entries) by done. eexists _, _. split; [done|].
  set (d' := d <| files := _ |>).
  assert (Forall (fun e => Key e <> "") (newest entries)) as Hk'.
  { rewrite Forall_forall in Hk |- *. intros e [He _]%elem_of_newest. by apply Hk. }
  assert (files d' !! name = Some (image (newest entries))) as Hfile by apply lookup_insert_eq.
  assert (table_ok d' (table_of name level (newest entries)) (newest entries)) as Hok.
  { split; try done; [apply newest_sorted|by apply newest_nonempty]. }
  split_and!.
  - apply LoadSSTable_spec; try done; [apply newest_sorted|by apply newest_nonempty].
  - by apply sst_AllEntries_spec.
  - intros key. by apply sst_Get_spec.
  - intros start end_. by apply sst_RangeWithTombstone_spec.
  - apply elem_of_newest.
  - apply newest_covers.
Qed.

Lemma sstable_roundtrip_witness : exists d' t,
  NewSSTable (H := stable_sort_slice) {| files := ∅; writable := true |} "L0_000001.sst" 0
    [{| Key := "b"; Value := "1"; Tombstone := false; Timestamp := 1 |};
     {| Key := "a"; Value := ""; Tombstone := true; Timestamp := 2 |};
     {| Key := "b"; Value := "2"; Tombstone := false; Timestamp := 3 |}] = Ok (d', t) /\
  sst_Get d' "b" t = Ok (Some {| Key := "b"; Value := "2"; Tombstone := false; Timestamp := 3 |}).
Proof.
  edestruct (sstable_roundtrip (H := stable_sort_slice) {| files := ∅; writable := true |} "L0_000001.sst" 0)
    as (d' & t & Hnew & _ & _ & Hget & _).
  5: { exists d', t. split; [exact Hnew|]. rewrite Hget. vm_compute. reflexivity. }
  - discriminate.
  - reflexivity.
  - split; [|vm_compute; reflexivity]. unfold entry_fits. apply (bool_decide_unpack _). vm_compute. exact I.
  - apply (bool_decide_unpack _). vm_compute. exact I.
Defined.
