(* ===== verification/LsmLevel.v ===== *)
(** Levels of tables (src/internal/lsm/level.go).

    [sort.Slice] orders the tables of a level by their least keys; the order of
    tables with equal least keys is the [SortSlice]'s own. *)

From stdpp Require Import base tactics option list gmap strings sorting.
From Stdlib Require Import ZArith Lia.
From S2P Require Import Prelude Ordered LsmEntry LsmTable.

Record Level := { lv_level : Z; tables : list SSTable; lv_maxSize : Z }.

#[export] Instance eta_Level : Eta Level := fun l =>
  {| lv_level := lv_level l; tables := tables l; lv_maxSize := lv_maxSize l |}.

Definition NewLevel (level maxSize : Z) : Level := {| lv_level := level; tables := []; lv_maxSize := maxSize |}.

(** [RemoveTable]: the first table with the file name goes. *)
Fixpoint remove_named (name : string) (ts : list SSTable) : list SSTable :=
  match ts with
  | [] => []
  | t :: ts => if decide (filename t = name) then ts else t :: remove_named name ts
  end.

Definition RemoveTable (sst : SSTable) (l : Level) : Level := l <| tables := remove_named (filename sst) (tables l) |>.

Definition RemoveTables (ts : list SSTable) (l : Level) : Level :=
  l <| tables := filter (fun t => filename t ∉ (filename <$> ts)) (tables l) |>.

Definition lv_Size (l : Level) : Z := Z.of_nat (length (tables l)).

Definition NeedsCompaction (l : Level) : bool := lv_maxSize l <=? Z.of_nat (length (tables l)).

(** The tables of level 0, asked one after the other. *)
Fixpoint get_tables (d : Disk) (key : string) (ts : list SSTable) : io (option Entry) :=
  match ts with
  | [] => Ok None
  | sst :: ts =>
      let? r := sst_Get d key sst in
      match r with Some e => Ok (Some e) | None => get_tables d key ts end
  end.

(** The binary search of [findTable]. *)
Fixpoint find_loop (fuel : nat) (ts : list SSTable) (key : string) (low high : Z) : io Z :=
  match fuel with
  | O => Err Panics
  | S fuel =>
      if high <? low then Ok (-1)
      else
        let mid := (low + high) / 2 in
        let? sst := of_option Panics (ts !! Z.to_nat mid) in
        if decide (key_lt key (minKey sst)) then find_loop fuel ts key low (mid - 1)
        else if decide (key_lt (maxKey sst) key) then find_loop fuel ts key (mid + 1) high
        else Ok mid
  end.

Definition findTable (key : string) (l : Level) : io Z :=
  let ts := tables l in
  if decide (ts = []) then Ok (-1) else find_loop (S (length ts)) ts key 0 (Z.of_nat (length ts) - 1).

Definition lv_Get (d : Disk) (key : string) (l : Level) : io (option Entry) :=
  if lv_level l =? 0 then get_tables d key (reverse (tables l))
  else
    let? idx := findTable key l in
    if (0 <=? idx) && (idx <? Z.of_nat (length (tables l))) then
      let? sst := of_option Panics (tables l !! Z.to_nat idx) in
      if decide (~ key_lt key (minKey sst) /\ ~ key_lt (maxKey sst) key) then sst_Get d key sst else Ok None
    else Ok None.

Definition FindOverlappingTables (min max : string) (l : Level) : list SSTable :=
  filter (fun t => OverlapsWith min max t = true) (tables l).

Definition GetTableForCompaction (l : Level) : option SSTable := head (tables l).

Section sorting.
Context `{!SortSlice}.

Definition sortTables (l : Level) : Level := l <| tables := sort_slice minKey (tables l) |>.

Definition AddTable (sst : SSTable) (l : Level) : Level := sortTables (l <| tables := tables l ++ [sst] |>).
Definition AddTables (ts : list SSTable) (l : Level) : Level := sortTables (l <| tables := tables l ++ ts |>).

(** Collect what each table answers, the newest entry of a key first. *)
Fixpoint collect (read : SSTable -> io (list Entry)) (ts : list SSTable) (m : gmap string Entry)
    : io (gmap string Entry) :=
  match ts with
  | [] => Ok m
  | sst :: ts => let? es := read sst in collect read ts (keep_newest m es)
  end.

Definition lv_rangeInternal (d : Disk) (start end_ : string) (l : Level) : io (list Entry) :=
  let? m :=
    if lv_level l =? 0 then collect (sst_RangeWithTombstone d start end_) (reverse (tables l)) ∅
    else collect (sst_RangeWithTombstone d start end_)
           (filter (fun sst => ~ (key_lt (maxKey sst) start \/ key_lt end_ (minKey sst))) (tables l)) ∅ in
  Ok (sorted_values m).

Definition lv_Range (d : Disk) (start end_ : string) (l : Level) : io (list Entry) :=
  let? es := lv_rangeInternal d start end_ l in Ok (filter (fun e => Tombstone e = false) es).

Definition lv_RangeWithTombstone (d : Disk) (start end_ : string) (l : Level) : io (list Entry) :=
  lv_rangeInternal d start end_ l.

Definition GetAllEntries (d : Disk) (l : Level) : io (list Entry) :=
  let? seen := collect (sst_AllEntries d) (tables l) ∅ in Ok (sorted_values seen).

End sorting.
