(* ===== verification/LsmLevelProofs.v ===== *)
(** Theorems about the levels of tables (LsmLevel.v): a lookup in a level finds
    an entry exactly when a table holds one, and a range holds the newest entry
    of every key. *)

From stdpp Require Import base tactics option list gmap strings sorting.
From Stdlib Require Import ZArith Lia.
From S2P Require Import Prelude GoStrings Ordered LsmEntry LsmSkip LsmSkipProofs LsmTable LsmTableProofs LsmLevel.

Implicit Types (e : Entry) (es : list Entry) (m : gmap string Entry) (d : Disk) (t : SSTable) (ts : list SSTable)
  (l : Level).

(** The entries in the file of a table. *)
Definition content d t : list Entry := match sst_AllEntries d t with Ok es => es | Err _ => [] end.

Definition table_valid d t : Prop := table_ok d t (content d t).

Lemma content_ok d t es : table_ok d t es -> content d t = es.
Proof. intros Hok. unfold content. by rewrite (sst_AllEntries_spec _ _ _ Hok). Qed.

Lemma table_ok_valid d t es : table_ok d t es -> table_valid d t.
Proof. intros Hok. unfold table_valid. by rewrite (content_ok _ _ _ Hok). Qed.

(** Tables of the lower levels lie apart, in the order of their keys. *)
Abbreviation apart := (StronglySorted (fun a b => key_lt (maxKey a) (minKey b))).

Record level_ok d (i : nat) l : Prop := {
  lk_level : lv_level l = Z.of_nat i;
  lk_tables : Forall (table_valid d) (tables l);
  lk_apart : i <> 0%nat -> apart (tables l);
  lk_sorted : StronglySorted (fun a b => ~ key_lt (minKey b) (minKey a)) (tables l);
}.

Definition level_entries d l : list Entry := concat (content d <$> tables l).

Lemma elem_of_contents d ts e : e ∈ concat (content d <$> ts) <-> exists t, t ∈ ts /\ e ∈ content d t.
Proof.
  induction ts as [|t ts IH]; simpl; [set_solver|]. rewrite elem_of_app, IH. split.
  - intros [H|(t' & H1 & H2)]; [exists t; set_solver|exists t'; set_solver].
  - intros (t' & [->|H1]%elem_of_cons & H2); [by left|right; by exists t'].
Qed.

Lemma elem_of_level d l e : e ∈ level_entries d l <-> exists t, t ∈ tables l /\ e ∈ content d t.
Proof. apply elem_of_contents. Qed.

(** The answer [r] to a lookup of [k] among the entries [es]. *)
Definition answers (k : string) es (r : option Entry) : Prop :=
  match r with Some e => e ∈ es /\ Key e = k | None => forall e, e ∈ es -> Key e <> k end.

Lemma answers_ext k es es' r : (forall e, Key e = k -> e ∈ es <-> e ∈ es') -> answers k es r -> answers k es' r.
Proof.
  intros He. destruct r as [e|]; simpl.
  - intros [Hin <-]. split; [by apply He|done].
  - intros Hn e Hin Ek. apply (Hn e); [by apply He|done].
Qed.

Lemma find_answers k es : e_sorted es -> answers k es (e_find k es).
Proof.
  intros Hs. destruct (e_find k es) as [e|] eqn:Hf; simpl; [by apply e_find_Some in Hf|by apply e_find_None].
Qed.

Lemma get_tables_spec d k ts : Forall (table_valid d) ts ->
  exists r, get_tables d k ts = Ok r /\ answers k (concat (content d <$> ts)) r.
Proof.
  induction 1 as [|t ts Ht Hts IH]; simpl; [by exists None; split; [|set_solver]|].
  rewrite (sst_Get_spec _ _ _ Ht). cbn [rbind]. pose proof (find_answers k _ (tk_sorted _ _ _ Ht)) as Ha.
  destruct (e_find k (content d t)) as [e|]; simpl in Ha |- *.
  - exists (Some e). split; [done|]. split; [set_solver|tauto].
  - destruct IH as (r & -> & Hr). exists r. split; [done|]. revert Hr. apply answers_ext.
    intros e Ek. rewrite elem_of_app. split; [by right|]. intros [He|He]; [by destruct (Ha e)|done].
Qed.

(** ** The binary search *)

Lemma apart_lookup ts i j a b : apart ts -> ts !! i = Some a -> ts !! j = Some b -> (i < j)%nat ->
  key_lt (maxKey a) (minKey b).
Proof.
  intros Hs. revert i j. induction Hs as [|x ts Hs IH Hf]; intros i j Hi Hj Hij; [done|].
  destruct i as [|i], j as [|j]; try lia; simpl in *; simplify_eq.
  - rewrite Forall_forall in Hf. apply Hf. by eapply list_elem_of_lookup_2.
  - eapply IH; [done|done|lia].
Qed.

(** The key is in the range of the table. *)
Definition spans (k : string) t : Prop := ~ key_lt k (minKey t) /\ ~ key_lt (maxKey t) k.

Lemma find_loop_spec d ts k fuel low high :
  Forall (table_valid d) ts -> apart ts -> 0 <= low <= high + 1 -> high < Z.of_nat (length ts) ->
  high - low + 1 < Z.of_nat fuel ->
  (forall i t, ts !! i = Some t -> spans k t -> low <= Z.of_nat i <= high) ->
  exists r, find_loop fuel ts k low high = Ok r /\
    ((r = -1 /\ forall t, t ∈ ts -> ~ spans k t) \/
     (exists t, 0 <= r < Z.of_nat (length ts) /\ ts !! Z.to_nat r = Some t /\ spans k t)).
Proof.
  intros Hv Hs. revert low high. induction fuel as [|fuel IH]; intros low high Hlow Hhigh Hfuel Hrange; cbn [find_loop].
  { lia. }
  destruct (Z.ltb_spec high low) as [Hlt|Hle].
  { exists (-1). split; [done|]. left. split; [done|]. intros t [i Ht]%list_elem_of_lookup Hsp.
    specialize (Hrange i t Ht Hsp). lia. }
  set (mid := (low + high) / 2). assert (low <= mid <= high) as Hmid by (subst mid; split; [apply Z.div_le_lower_bound|apply Z.div_le_upper_bound]; lia).
  destruct (lookup_lt_is_Some_2 ts (Z.to_nat mid)) as [t Ht]; [lia|]. rewrite Ht. cbn [of_option rbind].
  assert (table_valid d t) as Hvt by (rewrite Forall_forall in Hv; apply Hv; by eapply list_elem_of_lookup_2).
  assert (~ key_lt (maxKey t) (minKey t)) as Hmm.
  { destruct (table_min _ _ _ Hvt) as (e & He & <-). by apply (table_bounds _ _ _ Hvt). }
  destruct (decide (key_lt k (minKey t))) as [Hl|Hl]; [|destruct (decide (key_lt (maxKey t) k)) as [Hg|Hg]].
  - apply IH; [lia|lia|lia|]. intros i t' Ht' Hsp. specialize (Hrange i t' Ht' Hsp).
    destruct (Z.lt_trichotomy (Z.of_nat i) mid) as [?|[E|E]]; [lia| |].
    + replace i with (Z.to_nat mid) in Ht' by lia. rewrite Ht in Ht'. injection Ht' as <-. by destruct Hsp.
    + pose proof (apart_lookup ts (Z.to_nat mid) i t t' Hs Ht Ht' ltac:(lia)) as Hlt.
      destruct Hsp as [Hsp _]. destruct Hsp. eapply key_lt_trans; [exact Hl|].
      destruct (key_not_lt _ _ Hmm) as [<-|]; [done|]. by eapply key_lt_trans.
  - apply IH; [lia|lia|lia|]. intros i t' Ht' Hsp. specialize (Hrange i t' Ht' Hsp).
    destruct (Z.lt_trichotomy (Z.of_nat i) mid) as [E|[E|?]]; [| |lia].
    + pose proof (apart_lookup ts i (Z.to_nat mid) t' t Hs Ht' Ht ltac:(lia)) as Hlt.
      destruct Hsp as [_ Hsp]. destruct Hsp. eapply key_lt_trans; [exact Hlt|].
      destruct (key_not_lt _ _ Hmm) as [E'|]; [by rewrite <- E'|]. by eapply key_lt_trans.
    + replace i with (Z.to_nat mid) in Ht' by lia. rewrite Ht in Ht'. injection Ht' as <-. by destruct Hsp.
  - exists mid. split; [done|]. right. exists t. split; [lia|]. by split.
Qed.

Lemma table_spans d t e : table_valid d t -> e ∈ content d t -> spans (Key e) t.
Proof. intros Hv He. by apply (table_bounds _ _ _ Hv). Qed.

(** Tables that lie apart do not share a key. *)
Lemma apart_unique d ts k t t' : Forall (table_valid d) ts -> apart ts -> t ∈ ts -> t' ∈ ts -> spans k t -> spans k t' -> t = t'.
Proof.
  intros Hv Hs [i Ht]%list_elem_of_lookup [j Ht']%list_elem_of_lookup [H1 H2] [H3 H4].
  destruct (Nat.lt_trichotomy i j) as [Hij|[->|Hij]]; [|congruence|].
  - pose proof (apart_lookup _ _ _ _ _ Hs Ht Ht' Hij) as Hlt.
    destruct (key_not_lt_trans _ _ _ H2 H3 Hlt).
  - pose proof (apart_lookup _ _ _ _ _ Hs Ht' Ht Hij) as Hlt.
    destruct (key_not_lt_trans _ _ _ H4 H1 Hlt).
Qed.

Lemma lv_Get_spec d i l k : level_ok d i l ->
  exists r, lv_Get d k l = Ok r /\ answers k (level_entries d l) r.
Proof.
  intros [Hl Hv Ha _]. unfold lv_Get, level_entries. rewrite Hl. destruct (Z.eqb_spec (Z.of_nat i) 0) as [E|E].
  - destruct (get_tables_spec d k (reverse (tables l))) as (r & Hr & Hans).
    { by apply Forall_reverse. }
    exists r. split; [done|]. revert Hans. apply answers_ext. intros e _. rewrite !elem_of_contents.
    by setoid_rewrite elem_of_reverse.
  - specialize (Ha ltac:(lia)). unfold findTable. destruct (decide (tables l = [])) as [->|Hne]; cbn [rbind].
    { exists None. split; [done|]. simpl. set_solver. }
    assert (0 < length (tables l))%nat as Hpos by (destruct (tables l); simpl; [done|lia]).
    destruct (find_loop_spec d (tables l) k (S (length (tables l))) 0 (Z.of_nat (length (tables l)) - 1)) as (r & -> & Hr);
      [done|done|lia|lia|lia| |].
    { intros j t Ht _. apply lookup_lt_Some in Ht. lia. }
    cbn [rbind]. destruct Hr as [[-> Hno]|(t & Hb & Ht & Hsp)].
    + exists None. split; [done|]. intros e (t & Ht & He)%elem_of_contents <-. apply (Hno t Ht).
      apply (table_spans d); [|done]. rewrite Forall_forall in Hv. by apply Hv.
    + rewrite (proj2 (Z.leb_le _ _)), (proj2 (Z.ltb_lt _ _)) by lia. cbn [andb]. rewrite Ht. cbn [of_option rbind].
      rewrite decide_True by done. apply list_elem_of_lookup_2 in Ht.
      assert (table_valid d t) as Hvt by (rewrite Forall_forall in Hv; by apply Hv).
      exists (e_find k (content d t)). split; [by apply sst_Get_spec|].
      eapply answers_ext; [|by apply find_answers, Hvt]. intros e Ek. rewrite elem_of_contents. split; [by exists t|].
      intros (t' & Ht' & He). rewrite (apart_unique d (tables l) k t t'); try done.
      rewrite <- Ek. apply (table_spans d); [|done]. rewrite Forall_forall in Hv. by apply Hv.
Qed.

(** ** Ranges *)

(** [es] holds a newest entry for every key of [xs]. *)
Definition covers es (P : Entry -> Prop) : Prop :=
  (forall e, e ∈ es -> P e) /\
  (forall x, P x -> exists e, e ∈ es /\ Key e = Key x /\ Timestamp x <= Timestamp e).

Lemma covers_refl es : covers es (fun e => e ∈ es).
Proof. split; [done|]. intros x Hx. exists x. split_and!; [done|done|lia]. Qed.

Lemma covers_app es1 es2 (P Q : Entry -> Prop) :
  covers es1 P -> covers es2 Q -> covers (es1 ++ es2) (fun e => P e \/ Q e).
Proof.
  intros [P1 P2] [Q1 Q2]. split.
  - intros e [He|He]%elem_of_app; [left; by apply P1|right; by apply Q1].
  - intros x [Hx|Hx]; [destruct (P2 x Hx) as (e & ? & ?)|destruct (Q2 x Hx) as (e & ? & ?)]; exists e; set_solver.
Qed.

Lemma covers_ext es (P Q : Entry -> Prop) : (forall e, P e <-> Q e) -> covers es P -> covers es Q.
Proof. intros He [H1 H2]. split; [intros e Hin; by apply He, H1|]. intros x Hx. by apply H2, He. Qed.

Lemma keep_newest_app m es1 es2 : keep_newest m (es1 ++ es2) = keep_newest (keep_newest m es1) es2.
Proof. apply foldl_app. Qed.

Lemma covers_newest es (P : Entry -> Prop) `{!SortSlice} :
  covers es P -> covers (sorted_values (keep_newest ∅ es)) P.
Proof.
  intros [H1 H2]. split.
  - intros e He. apply elem_of_sorted_values in He; [|auto]. pose proof (keep_newest_lookup ∅ es (Key e)) as Hk.
    rewrite He, lookup_empty in Hk. destruct Hk as [[[=]|[Hin _]] _]. by apply H1.
  - intros x Hx. destruct (H2 x Hx) as (e & He & Ek & Hts). pose proof (keep_newest_lookup ∅ es (Key x)) as Hk.
    destruct (keep_newest ∅ es !! Key x) as [y|] eqn:Hy.
    + assert (Key y = Key x) as Ey by (by apply (keep_newest_keyed ∅ es empty_keyed)).
      exists y. split; [apply elem_of_sorted_values; [auto|by rewrite Ey]|]. split; [done|].
      destruct Hk as [_ Hk]. specialize (Hk e (or_intror (conj He Ek))). lia.
    + destruct Hk as [_ Hk]. by destruct (Hk e He).
Qed.

Lemma collect_spec read (f : SSTable -> list Entry) ts m :
  (forall t, t ∈ ts -> read t = Ok (f t)) -> collect read ts m = Ok (keep_newest m (concat (f <$> ts))).
Proof.
  revert m. induction ts as [|t ts IH]; intros m Hf; [done|]. cbn [collect]. rewrite Hf by set_solver. cbn [rbind].
  rewrite IH by set_solver. rewrite fmap_cons. cbn [concat]. by rewrite keep_newest_app.
Qed.

Lemma lv_rangeInternal_spec `{!SortSlice} d i l start end_ : level_ok d i l ->
  exists es, lv_rangeInternal d start end_ l = Ok es /\
    covers es (fun e => e ∈ level_entries d l /\ within start end_ e).
Proof.
  intros [Hl Hv _ _]. unfold lv_rangeInternal. rewrite Forall_forall in Hv.
  set (f := fun t => filter (within start end_) (content d t)).
  assert (forall t, t ∈ tables l -> sst_RangeWithTombstone d start end_ t = Ok (f t)) as Hf.
  { intros t Ht. by apply sst_RangeWithTombstone_spec, Hv. }
  assert (exists ts, (if lv_level l =? 0 then collect (sst_RangeWithTombstone d start end_) (reverse (tables l)) ∅
    else collect (sst_RangeWithTombstone d start end_)
           (filter (fun sst => ~ (key_lt (maxKey sst) start \/ key_lt end_ (minKey sst))) (tables l)) ∅)
    = Ok (keep_newest ∅ (concat (f <$> ts))) /\ (forall t, t ∈ ts -> t ∈ tables l) /\
      (forall t e, t ∈ tables l -> e ∈ f t -> t ∈ ts)) as (ts & -> & Hts & Hall).
  { destruct (lv_level l =? 0).
    - exists (reverse (tables l)). split_and!.
      + apply (collect_spec _ f). intros t Ht. apply Hf. by apply elem_of_reverse.
      + intros t Ht. by apply elem_of_reverse.
      + intros t e Ht _. by apply elem_of_reverse.
    - eexists. split; [apply (collect_spec _ f); intros t Ht; apply list_elem_of_filter in Ht as [_ Ht]; by apply Hf|].
      split; [by intros t [_ Ht]%list_elem_of_filter|]. intros t e Ht [[Hw1 Hw2] He]%list_elem_of_filter.
      apply list_elem_of_filter. split; [|done]. destruct (table_spans _ _ _ (Hv t Ht) He) as [S1 S2].
      intros [Ho|Ho]; [exact (key_not_lt_trans _ _ _ S2 Hw1 Ho)|exact (key_not_lt_trans _ _ _ Hw2 S1 Ho)]. }
  cbn [rbind]. eexists. split; [done|]. apply covers_newest.
  eapply covers_ext; [|apply covers_refl]. intros e. unfold level_entries. rewrite elem_of_contents.
  assert (e ∈ concat (f <$> ts) <-> exists t, t ∈ ts /\ e ∈ f t) as ->.
  { clear. induction ts as [|t ts IH]; simpl; [set_solver|]. rewrite elem_of_app, IH. set_solver. }
  split.
  - intros (t & Ht & [Hw He]%list_elem_of_filter). split; [exists t; auto|done].
  - intros ((t & Ht & He) & Hw). assert (e ∈ f t) as Hft by (by apply list_elem_of_filter). exists t. eauto.
Qed.
