(* ===== verification/LsmTree.v ===== *)
(** What the LSM tree promises, over the sources that a read consults.

    The abstract state [A] holds the last write of every key, a value or a
    tombstone.  [sources] are the entries of the memtables and levels in the
    order in which a read asks them.  [tree_inv] says that the sources
    represent [A]: a source never holds an older entry of a key than the ones
    behind it, no entry is newer than the last write, and the last write is
    there, unless it is a tombstone and nothing is left of the key.  The lemmas
    are the ways in which the tree moves entries between sources. *)

From stdpp Require Import base tactics option list gmap strings sorting.
From Stdlib Require Import ZArith Lia.
From S2P Require Import Prelude Ordered LsmEntry LsmSkipProofs LsmTable LsmTableProofs LsmLevelProofs.

Abbreviation source := (list Entry).
Implicit Types (e x y w : Entry) (s : source) (ss : list source) (A : gmap string Entry).

Definition newer s s' : Prop :=
  forall e e', e ∈ s -> e' ∈ s' -> Key e = Key e' -> Timestamp e' <= Timestamp e.

Record tree_inv A ss : Prop := {
  tr_keyed : keyed A;
  tr_order : StronglySorted newer ss;
  tr_bound : forall e, e ∈ concat ss ->
    exists w, A !! Key e = Some w /\ Timestamp e <= Timestamp w /\ (Timestamp e = Timestamp w -> e = w);
  tr_last : forall k w, A !! k = Some w ->
    w ∈ concat ss \/ (Tombstone w = true /\ forall e, e ∈ concat ss -> Key e <> k);
}.

Lemma elem_of_concat e ss : e ∈ concat ss <-> exists s, s ∈ ss /\ e ∈ s.
Proof. rewrite list_elem_of_In, in_concat. by setoid_rewrite <- list_elem_of_In. Qed.

Lemma newer_sub s1 s2 s1' s2' :
  (forall e, e ∈ s1' -> e ∈ s1) -> (forall e, e ∈ s2' -> e ∈ s2) -> newer s1 s2 -> newer s1' s2'.
Proof. intros H1 H2 Hn e e' He He' E. apply Hn; auto. Qed.

Lemma tree_empty : tree_inv ∅ [].
Proof.
  split; [apply empty_keyed|constructor|set_solver|]. intros k w H. by rewrite lookup_empty in H.
Qed.

(** *** Sources with the same entries *)

Abbreviation same_source := (Forall2 (fun s s' : source => forall e, e ∈ s <-> e ∈ s')).

Lemma same_concat ss ss' e : same_source ss ss' -> e ∈ concat ss <-> e ∈ concat ss'.
Proof. induction 1 as [|s s' ss ss' Hs Hss IH]; simpl; [done|]. by rewrite !elem_of_app, Hs, IH. Qed.

Lemma same_order ss ss' : same_source ss ss' -> StronglySorted newer ss -> StronglySorted newer ss'.
Proof.
  induction 1 as [|s s' ss ss' Hs Hss IH]; intros Ho; [constructor|]. apply StronglySorted_inv in Ho as [Ho Hf].
  constructor; [by apply IH|]. clear -Hs Hss Hf. induction Hss as [|a b ss ss' Hab Hss IH]; constructor.
  - apply Forall_cons in Hf as [Hf _]. eapply newer_sub; [| |exact Hf]; intros e; [apply Hs|apply Hab].
  - apply IH. by apply Forall_cons in Hf as [_ ?].
Qed.

Lemma tree_same A ss ss' : same_source ss ss' -> tree_inv A ss -> tree_inv A ss'.
Proof.
  intros Hs [Hk Ho Hb Hl]. split; [done|by eapply same_order| |].
  - intros e He. by apply Hb, (same_concat ss ss').
  - intros k w Hw. destruct (Hl k w Hw) as [Hin|[Ht Hno]]; [left|right; split; [done|]].
    + by apply (same_concat ss ss').
    + intros e He. by apply Hno, (same_concat ss ss').
Qed.

(** *** Changing the order and the entries *)

(** What a change of the sources must preserve. *)
Lemma tree_change A ss ss' :
  tree_inv A ss -> StronglySorted newer ss' -> (forall e, e ∈ concat ss' -> e ∈ concat ss) ->
  (forall w, w ∈ concat ss -> A !! Key w = Some w ->
    w ∈ concat ss' \/ (Tombstone w = true /\ forall e, e ∈ concat ss' -> Key e <> Key w)) ->
  tree_inv A ss'.
Proof.
  intros [Hk Ho Hb Hl] Ho' Hsub Hkeep. split; [done|done|auto|]. intros k w Hw.
  destruct (Hl k w Hw) as [Hin|[Ht Hno]]; [|right; split; [done|]; intros e He; by apply Hno, Hsub].
  destruct (Hkeep w Hin) as [?|[? Hn]]; [by rewrite (Hk _ _ Hw)|by left|right].
  split; [done|]. rewrite (Hk _ _ Hw) in Hn. done.
Qed.

Lemma sorted_empty_source ss1 ss2 : StronglySorted newer (ss1 ++ [] :: ss2) <-> StronglySorted newer (ss1 ++ ss2).
Proof.
  induction ss1 as [|s ss1 IH]; simpl; split; intros H.
  - by apply StronglySorted_inv in H as [? _].
  - constructor; [done|]. apply Forall_true. intros s e e' He. set_solver.
  - apply StronglySorted_inv in H as [H Hf]. constructor; [by apply IH|].
    apply Forall_app in Hf as [Hf1 Hf2]. apply Forall_cons in Hf2 as [_ Hf2]. by apply Forall_app.
  - apply StronglySorted_inv in H as [H Hf]. constructor; [by apply IH|].
    apply Forall_app in Hf as [Hf1 Hf2]. apply Forall_app. split; [done|]. constructor; [|done]. intros e e' _ He'. set_solver.
Qed.

Lemma tree_empty_source A ss1 ss2 : tree_inv A (ss1 ++ [] :: ss2) <-> tree_inv A (ss1 ++ ss2).
Proof.
  assert (forall e, e ∈ concat (ss1 ++ [] :: ss2) <-> e ∈ concat (ss1 ++ ss2)) as Hc by (intros e; by rewrite !concat_app).
  split; intros [Hk Ho Hb Hl]; (split; [done|by apply sorted_empty_source|intros e He; by apply Hb, Hc|]);
    intros k w Hw; destruct (Hl k w Hw) as [?|[? Hno]]; [left|right|left|right]; try (by apply Hc);
    (split; [done|]; intros e He; by apply Hno, Hc).
Qed.

(** *** Writing to the first source *)

Lemma tree_write A s ss e :
  tree_inv A (s :: ss) -> (forall w, A !! Key e = Some w -> Timestamp w < Timestamp e) ->
  tree_inv (<[Key e := e]> A) (e_insert e s :: ss).
Proof.
  intros [Hk Ho Hb Hl] Hts. apply StronglySorted_inv in Ho as [Ho Hf].
  assert (forall x, x ∈ concat (s :: ss) -> Key x = Key e -> Timestamp x < Timestamp e) as Hold.
  { intros x Hx E. destruct (Hb x Hx) as (w & Hw & Hle & _). rewrite E in Hw. specialize (Hts w Hw). lia. }
  assert (forall x, x ∈ concat (e_insert e s :: ss) <-> x = e \/ (x ∈ s /\ Key x <> Key e) \/ x ∈ concat ss) as Hin.
  { intros x. simpl. rewrite elem_of_app, elem_of_e_insert. tauto. }
  split.
  - intros k x Hx. destruct (decide (Key e = k)) as [<-|Hne].
    + rewrite lookup_insert_eq in Hx. by simplify_eq.
    + rewrite lookup_insert_ne in Hx by done. by apply Hk.
  - constructor; [done|]. rewrite Forall_forall in Hf |- *. intros s' Hs' x x' [->|[Hx _]]%elem_of_e_insert Hx' E.
    + assert (Timestamp x' < Timestamp e); [|lia]. apply Hold; [|done]. simpl. apply elem_of_app. right.
      apply elem_of_concat. by exists s'.
    + by apply (Hf s' Hs').
  - intros x [->|Hx]%Hin; [rewrite lookup_insert_eq; exists e; split_and!; [done|lia|done]|].
    assert (x ∈ concat (s :: ss)) as Hx' by (simpl; apply elem_of_app; tauto).
    destruct (decide (Key e = Key x)) as [E|E].
    + rewrite E, lookup_insert_eq. exists e. specialize (Hold x Hx' (eq_sym E)). split_and!; [done|lia|lia].
    + rewrite lookup_insert_ne by done. by apply Hb.
  - intros k w Hw. destruct (decide (Key e = k)) as [<-|Hne].
    + rewrite lookup_insert_eq in Hw. simplify_eq. left. apply Hin. by left.
    + rewrite lookup_insert_ne in Hw by done. pose proof (Hk _ _ Hw) as Ek.
      destruct (Hl k w Hw) as [Hin'|[Ht Hno]].
      * left. apply Hin. simpl in Hin'. apply elem_of_app in Hin' as [?|?]; [right; left|right; right]; try done.
        split; [done|]. congruence.
      * right. split; [done|]. intros x [->|Hx]%Hin; [done|]. apply Hno. simpl. apply elem_of_app. tauto.
Qed.

(** *** Merging two neighbouring sources *)

Lemma sorted_merge pre s1 s2 s post :
  (forall e, e ∈ s -> e ∈ s1 \/ e ∈ s2) ->
  StronglySorted newer (pre ++ s1 :: s2 :: post) -> StronglySorted newer (pre ++ s :: post).
Proof.
  intros Hs Ho. apply StronglySorted_app in Ho as (Hcross & Hpre & Ho). apply StronglySorted_inv in Ho as [Ho H1].
  apply StronglySorted_inv in Ho as [Ho H2]. apply Forall_cons in H1 as [_ H1].
  apply StronglySorted_app. split_and!; [|done|].
  - intros a b Ha [->|Hb]%elem_of_cons e e' He He' E; [|by apply (Hcross a b); [|set_solver|..]].
    destruct (Hs e' He') as [H|H]; [apply (Hcross a s1)|apply (Hcross a s2)]; set_solver.
  - constructor; [done|]. rewrite Forall_forall in H1, H2 |- *. intros b Hb e e' He He' E.
    destruct (Hs e He) as [H|H]; [by apply (H1 b)|by apply (H2 b)].
Qed.

Lemma tree_merge A pre s1 s2 s post :
  (forall e, e ∈ s <-> e ∈ s1 \/ e ∈ s2) ->
  tree_inv A (pre ++ s1 :: s2 :: post) -> tree_inv A (pre ++ s :: post).
Proof.
  intros Hs Ht. assert (forall e, e ∈ concat (pre ++ s :: post) <-> e ∈ concat (pre ++ s1 :: s2 :: post)) as Hc.
  { intros e. rewrite !concat_app. simpl. rewrite !elem_of_app, Hs. tauto. }
  apply (tree_change A (pre ++ s1 :: s2 :: post)); [done| | |].
  - eapply sorted_merge; [|apply Ht]. intros e. apply Hs.
  - intros e. apply Hc.
  - intros w Hw _. left. by apply Hc.
Qed.

(** *** Moving entries down *)

(** The source [s] gives up entries to the next one, [n], and the next one
    drops what is overwritten.  A tombstone may go when no older entry of its
    key is left behind it. *)
Record moves_down (s n s' n' : source) (post : list source) : Prop := {
  md_sub_s : forall e, e ∈ s' -> e ∈ s;
  md_sub_n : forall e, e ∈ n' -> e ∈ s \/ e ∈ n;
  md_newer : newer s' n';
  md_kept : forall x, x ∈ s \/ x ∈ n -> exists y, (y ∈ s \/ y ∈ n) /\ Key y = Key x /\ Timestamp x <= Timestamp y /\
    ((y ∈ s' \/ y ∈ n') \/
     (Tombstone y = true /\ forall e, e ∈ s' \/ e ∈ n' \/ e ∈ concat post -> Key e <> Key x));
}.

Lemma tree_move A pre s (n : source) s' n' post :
  tree_inv A (pre ++ s :: n :: post) -> moves_down s n s' n' post -> tree_inv A (pre ++ s' :: n' :: post).
Proof.
  intros Ht [Hs Hn Hnew Hkept]. pose proof (tr_order _ _ Ht) as Ho.
  assert (forall e, e ∈ concat (pre ++ s :: n :: post) <-> e ∈ concat pre \/ e ∈ s \/ e ∈ n \/ e ∈ concat post) as Hc
    by (intros e; rewrite concat_app; simpl; rewrite !elem_of_app; tauto).
  assert (forall e, e ∈ concat (pre ++ s' :: n' :: post) <-> e ∈ concat pre \/ e ∈ s' \/ e ∈ n' \/ e ∈ concat post) as Hc'
    by (intros e; rewrite concat_app; simpl; rewrite !elem_of_app; tauto).
  apply StronglySorted_app in Ho as (Hcross & Hpre & Ho).
  apply StronglySorted_inv in Ho as [Ho Hfs]. apply StronglySorted_inv in Ho as [Hpost Hfn].
  apply Forall_cons in Hfs as [Hsn Hfs]. rewrite Forall_forall in Hfs, Hfn.
  apply (tree_change A (pre ++ s :: n :: post)); [done| | |].
  - apply StronglySorted_app. split_and!; [|done|].
    + intros a b Ha Hb e e' He He' E. apply elem_of_cons in Hb as [->|[->|Hb]%elem_of_cons].
      * apply (Hcross a s); [done|set_solver|done|auto|done].
      * destruct (Hn e' He') as [H|H]; [apply (Hcross a s)|apply (Hcross a n)]; set_solver.
      * apply (Hcross a b); [done|set_solver|done..].
    + constructor; [constructor; [done|]|constructor; [done|]]; rewrite Forall_forall; intros b Hb e e' He He' E.
      * destruct (Hn e He) as [H|H]; [by apply (Hfs b)|by apply (Hfn b)].
      * apply (Hfs b); auto.
  - intros e [?|[?|[?|?]]]%Hc'; apply Hc; auto. destruct (Hn e ltac:(done)); auto.
  - intros w Hw Hlast.
    assert (forall e, e ∈ concat (pre ++ s :: n :: post) -> Key e = Key w -> Timestamp w <= Timestamp e -> e = w) as Hmax.
    { intros e He E Hle. destruct (tr_bound _ _ Ht e He) as (w' & Hw' & Hle' & Heq). rewrite E, Hlast in Hw'.
      simplify_eq. apply Heq. lia. }
    apply Hc in Hw. assert (w ∈ concat pre \/ w ∈ concat post \/ (w ∈ s \/ w ∈ n)) as [H|[H|H]] by tauto;
      [left; apply Hc'; auto..|].
    destruct (Hkept w H) as (y & Hy & Ek & Hle & Hcase).
    assert (y = w) as -> by (apply Hmax; [apply Hc; tauto|done|done]).
    destruct Hcase as [Hin|[Htomb Hno]]; [left; apply Hc'; tauto|].
    destruct (decide (w ∈ concat pre)) as [Hp|Hp]; [left; apply Hc'; auto|]. right. split; [done|].
    intros e [He|He]%Hc' E; [|by apply (Hno e)]. apply Hp.
    rewrite <- (Hmax e); [done|apply Hc; auto|done|]. apply elem_of_concat in He as (a & Ha & He).
    destruct H as [H|H]; [apply (Hcross a s)|apply (Hcross a n)]; set_solver.
Qed.

(** *** Reading *)

(** The first source that knows a key has its last write. *)
Lemma tree_first A ss1 s ss2 k e :
  tree_inv A (ss1 ++ s :: ss2) -> (forall x, x ∈ concat ss1 -> Key x <> k) ->
  (forall x, x ∈ s -> Key x = k -> x = e) -> e ∈ s -> Key e = k -> A !! k = Some e.
Proof.
  intros Ht Hno Huniq He Ek.
  destruct (tr_bound _ _ Ht e) as (w & Hw & Hle & Heq); [rewrite concat_app; simpl; set_solver|].
  rewrite Ek in Hw. rewrite Hw. f_equal.
  destruct (tr_last _ _ Ht k w Hw) as [Hin|[_ Hn]].
  - pose proof (tr_keyed _ _ Ht _ _ Hw) as Ekw. rewrite concat_app in Hin. simpl in Hin. rewrite !elem_of_app in Hin.
    destruct Hin as [Hin|[Hin|Hin]]; [by destruct (Hno w)|by apply Huniq|].
    symmetry. apply Heq. apply Z.le_antisymm; [done|]. pose proof (tr_order _ _ Ht) as Ho.
    apply StronglySorted_app in Ho as (_ & _ & Ho). apply StronglySorted_inv in Ho as [_ Hf].
    rewrite Forall_forall in Hf. apply elem_of_concat in Hin as (a & Ha & Hin). apply (Hf a Ha); congruence.
  - destruct (Hn e); [|done]. rewrite concat_app. simpl. set_solver.
Qed.

Lemma tree_absent A ss k : tree_inv A ss -> (forall x, x ∈ concat ss -> Key x <> k) ->
  forall w, A !! k = Some w -> Tombstone w = true.
Proof.
  intros Ht Hno w Hw. destruct (tr_last _ _ Ht k w Hw) as [Hin|[? _]]; [|done].
  destruct (Hno w Hin). by apply (tr_keyed _ _ Ht).
Qed.

(** The newest entries of the sources within a range are the last writes. *)
Lemma tree_newest A ss (P : Entry -> Prop) es :
  tree_inv A ss -> (forall e e', Key e = Key e' -> P e <-> P e') ->
  covers es (fun e => e ∈ concat ss /\ P e) ->
  forall e, Tombstone e = false ->
    keep_newest ∅ es !! Key e = Some e <-> A !! Key e = Some e /\ P e.
Proof.
  intros Ht HP [H1 H2] e Hlive. pose proof (keep_newest_lookup ∅ es (Key e)) as Hk. rewrite lookup_empty in Hk. split.
  - intros E. rewrite E in Hk. destruct Hk as [[[=]|[Hin _]] Hmax]. destruct (H1 e Hin) as [Hc Hp]. split; [|done].
    destruct (tr_bound _ _ Ht e Hc) as (w & Hw & Hle & Heq). rewrite Hw. f_equal. symmetry. apply Heq.
    destruct (tr_last _ _ Ht _ w Hw) as [Hwin|[_ Hno]]; [|by destruct (Hno e)].
    pose proof (tr_keyed _ _ Ht _ _ Hw) as Ekw.
    destruct (H2 w) as (y & Hy & Eky & Hley); [split; [done|by apply (HP e)]|].
    assert (Key y = Key e) as Eye by congruence. specialize (Hmax y (or_intror (conj Hy Eye))). lia.
  - intros [Hw Hp]. destruct (tr_last _ _ Ht _ e Hw) as [Hin|[? _]]; [|congruence].
    destruct (H2 e (conj Hin Hp)) as (y & Hy & Eky & Hley).
    destruct (keep_newest ∅ es !! Key e) as [z|] eqn:Ez; [|by destruct (proj2 Hk y)].
    destruct Hk as [[[=]|[Hz Ekz]] Hmax]. destruct (H1 z Hz) as [Hcz _].
    destruct (tr_bound _ _ Ht z Hcz) as (w & Hw' & Hle & Heq). rewrite Ekz, Hw in Hw'. simplify_eq.
    f_equal. apply Heq. specialize (Hmax y (or_intror (conj Hy Eky))). lia.
Qed.
