(* ===== verification/LsmDB.v ===== *)
(** The LSM tree (src/internal/lsm/db.go, config.go).

    The database owns its data directory, so the [Disk] is part of its state.
    Operations take the clock reading [now] and the coin [flips] of the skip
    list where the code asks for them.  The two buffered channels hold at most
    one signal each and are booleans.  Each operation runs under the locks that
    it takes and is one step here, apart from the flush of a memtable, which is
    the three steps between which the code drops [db.mu]; the checks of
    [closed] between the levels of a read, and a reader that sees the tables of
    a compaction half replaced, are outside the model.  A flush or a compaction
    returns the state it leaves behind together with its error.  [seqNum] is an
    unbounded integer; the theorems are about runs in which it stays an int64. *)

From stdpp Require Import base tactics option list gmap strings sorting.
From Stdlib Require Import Ascii ZArith Lia.
From S2P Require Import Prelude GoStrings Ordered LsmEntry LsmSkip LsmTable LsmLevel.

(** ** Configuration *)

Record Config := { MemTableSize : Z; MaxLevel : Z; LevelMaxFiles : list Z; TargetFileSize : Z; DataDir : string }.

Definition DefaultConfig : Config :=
  {| MemTableSize := 2 ^ 20; MaxLevel := 4; LevelMaxFiles := [4; 8; 16; 32]; TargetFileSize := 2 ^ 19;
     DataDir := "./lsm_data" |}.

(** [for len(c.LevelMaxFiles) < c.MaxLevel]: [n] more entries, each twice the last. *)
Fixpoint extend_files (n : nat) (l : list Z) : list Z :=
  match n with
  | O => l
  | S n => match last l with Some x => extend_files n (l ++ [int64 (x * 2)]) | None => l end
  end.

Definition validate (c : Config) : Config :=
  let maxLevel := if MaxLevel c <=? 0 then 4 else MaxLevel c in
  let files := if decide (LevelMaxFiles c = []) then [4; 8; 16; 32] else LevelMaxFiles c in
  {| MemTableSize := if MemTableSize c <=? 0 then 2 ^ 20 else MemTableSize c;
     MaxLevel := maxLevel;
     LevelMaxFiles := extend_files (Z.to_nat maxLevel - length files) files;
     TargetFileSize := if TargetFileSize c <=? 0 then 2 ^ 19 else TargetFileSize c;
     DataDir := if decide (DataDir c = "") then "./lsm_data" else DataDir c |}.

(** ** State *)

Record DB := {
  config : Config; memTable : MemTable; immutable : list MemTable; flushing : option MemTable;
  levels : list Level; seqNum : Z; closed : bool; merging : bool; flushCh : bool; mergeCh : bool; disk : Disk;
}.

#[export] Instance eta_DB : Eta DB := fun x =>
  {| config := config x; memTable := memTable x; immutable := immutable x; flushing := flushing x;
     levels := levels x; seqNum := seqNum x; closed := closed x; merging := merging x;
     flushCh := flushCh x; mergeCh := mergeCh x; disk := disk x |}.

(** ** Writing *)

(** What [Put] and [Delete] do after the memtable changed: freeze it when it is
    full and signal the flusher. *)
Definition rotate (db : DB) : DB :=
  if ShouldFlush (memTable db) then
    db <| immutable := immutable db ++ [Freeze (memTable db)] |>
       <| memTable := NewMemTable (MemTableSize (config db)) |> <| flushCh := true |>
  else db.

Definition Put (now : Z) (flips : list bool) (key value : string) (db : DB) : io DB :=
  if decide (key = "") then Err ErrEmptyKey
  else if closed db then Err ErrDBClosed
  else
    let? mt := of_option Panics (mt_Put now flips key value (memTable db)) in
    Ok (rotate (db <| memTable := mt |>)).

Definition Delete (now : Z) (flips : list bool) (key : string) (db : DB) : io DB :=
  if decide (key = "") then Err ErrEmptyKey
  else if closed db then Err ErrDBClosed
  else
    let? mt := of_option Panics (mt_Delete now flips key (memTable db)) in
    Ok (rotate (db <| memTable := mt |>)).

(** ** Reading *)

(** [if entry.Tombstone { return "", ErrKeyNotFound }; return entry.Value, nil] *)
Definition answer (e : Entry) : io string := if Tombstone e then Err ErrKeyNotFound else Ok (Value e).

Fixpoint get_memtables (key : string) (mts : list MemTable) : io (option Entry) :=
  match mts with
  | [] => Ok None
  | mt :: mts =>
      let? r := of_option Panics (mt_GetWithTombstone key mt) in
      match r with Some e => Ok (Some e) | None => get_memtables key mts end
  end.

Fixpoint get_levels (d : Disk) (key : string) (ls : list Level) : io (option Entry) :=
  match ls with
  | [] => Ok None
  | l :: ls =>
      let? r := lv_Get d key l in
      match r with Some e => Ok (Some e) | None => get_levels d key ls end
  end.

(** The memtables in the order in which they are asked. *)
Definition memtables (db : DB) : list MemTable :=
  memTable db :: reverse (immutable db) ++ option_list (flushing db).

Definition Get (key : string) (db : DB) : io string :=
  if decide (key = "") then Err ErrEmptyKey
  else if closed db then Err ErrDBClosed
  else
    let? r := get_memtables key (memtables db) in
    match r with
    | Some e => answer e
    | None =>
        let? r := get_levels (disk db) key (levels db) in
        match r with Some e => answer e | None => Err ErrKeyNotFound end
    end.

Fixpoint range_memtables (start end_ : string) (mts : list MemTable) (m : gmap string Entry)
    : io (gmap string Entry) :=
  match mts with
  | [] => Ok m
  | mt :: mts =>
      let? es := of_option Panics (mt_RangeWithTombstone start end_ mt) in
      range_memtables start end_ mts (keep_newest m es)
  end.

Section sorting.
Context `{!SortSlice}.

Fixpoint range_levels (d : Disk) (start end_ : string) (ls : list Level) (m : gmap string Entry)
    : io (gmap string Entry) :=
  match ls with
  | [] => Ok m
  | l :: ls =>
      let? es := lv_RangeWithTombstone d start end_ l in
      range_levels d start end_ ls (keep_newest m es)
  end.

Definition Range (start end_ : string) (db : DB) : io (list Entry) :=
  if decide (key_lt end_ start) then Err ErrInvalidRange
  else if closed db then Err ErrDBClosed
  else
    let? m := range_memtables start end_ (memtables db) ∅ in
    let? m := range_levels (disk db) start end_ (levels db) m in
    Ok (sort_slice Key (filter (fun e => Tombstone e = false) (snd <$> map_to_list m))).

(** ** Flushing *)

(** The first critical section of an iteration of [flushImmutable]. *)
Definition flush_begin (db : DB) : option (MemTable * DB) :=
  match immutable db with
  | [] => None
  | mt :: rest => Some (mt, db <| immutable := rest |> <| flushing := Some mt |>)
  end.

Definition update_level (i : nat) (f : Level -> Level) (db : DB) : DB := db <| levels := alter f i (levels db) |>.

Definition flushMemTable (mt : MemTable) (level : nat) (db : DB) : DB * option Error :=
  match mt_AllEntries mt with
  | None => (db, Some Panics)
  | Some [] => (db, None)
  | Some entries =>
      let name := GenerateSSTableFilename (Z.of_nat level) (seqNum db) in
      let db := db <| seqNum := seqNum db + 1 |> in
      match NewSSTable (disk db) name (Z.of_nat level) entries with
      | Err e => (db, Some e)
      | Ok (d, sst) => (update_level level (AddTable sst) (db <| disk := d |>) <| mergeCh := true |>, None)
      end
  end.

Definition flush_end (db : DB) : DB := db <| flushing := None |>.

(** The loop: an error is printed and forgotten. *)
Fixpoint flush_loop (n : nat) (db : DB) : DB :=
  match n with
  | O => db
  | S n =>
      match flush_begin db with
      | None => db
      | Some (mt, db) => flush_loop n (flush_end (fst (flushMemTable mt 0 db)))
      end
  end.

Definition flushImmutable (db : DB) : DB := flush_loop (length (immutable db)) db.

(** One signal received by [flushLoop]. *)
Definition flushLoop_step (db : DB) : DB :=
  if flushCh db then flushImmutable (db <| flushCh := false |>) else db.

(** ** Compaction *)

(** The tables of level 0 that overlap what has been chosen so far, widening
    the range as they are found. *)
Definition widen (name : string) (st : list SSTable * string * string) (t : SSTable)
    : list SSTable * string * string :=
  let '(chosen, min, max) := st in
  if decide (filename t <> name /\ OverlapsWith min max t = true) then
    (chosen ++ [t], if decide (key_lt (minKey t) min) then minKey t else min,
     if decide (key_lt max (maxKey t)) then maxKey t else max)
  else st.

Definition choose_tables (level : nat) (l : Level) : option (list SSTable * string * string) :=
  match GetTableForCompaction l with
  | None => None
  | Some sst =>
      let st := ([sst], minKey sst, maxKey sst) in
      Some (match level with O => foldl (widen (filename sst)) st (tables l) | _ => st end)
  end.

Definition hasDeeperOverlap (min max : string) (ls : list Level) : bool :=
  existsb (fun l => negb (bool_decide (FindOverlappingTables min max l = []))) ls.

(** The entries that survive a merge, sorted. *)
Definition merge_entries (deeper : bool) (allEntries : gmap string Entry) : list Entry :=
  sort_slice Key (filter (fun e => Tombstone e = false \/ deeper = true) (snd <$> map_to_list allEntries)).

(** Write [currentEntries] as a new table of the next level. *)
Definition emit (nextLevel : nat) (db : DB) (currentEntries : list Entry) : DB * io SSTable :=
  let name := GenerateSSTableFilename (Z.of_nat nextLevel) (seqNum db) in
  let db := db <| seqNum := seqNum db + 1 |> in
  match NewSSTable (disk db) name (Z.of_nat nextLevel) currentEntries with
  | Ok (d, sst) => (db <| disk := d |>, Ok sst)
  | Err e => (db, Err e)
  end.

(** The loop over the merged entries: the tables written so far, the entries
    of the current one and their size. *)
Fixpoint write_tables (nextLevel : nat) (es : list Entry) (newTables : list SSTable)
    (currentEntries : list Entry) (currentSize : Z) (db : DB) : DB * io (list SSTable) :=
  match es with
  | [] =>
      if decide (currentEntries = []) then (db, Ok newTables)
      else match emit nextLevel db currentEntries with
           | (db, Ok sst) => (db, Ok (newTables ++ [sst]))
           | (db, Err e) => (db, Err e)
           end
  | e :: es =>
      let entrySize := Size e in
      if (TargetFileSize (config db) <? currentSize + entrySize) && negb (bool_decide (currentEntries = [])) then
        match emit nextLevel db currentEntries with
        | (db, Ok sst) => write_tables nextLevel es (newTables ++ [sst]) [e] entrySize db
        | (db, Err e) => (db, Err e)
        end
      else write_tables nextLevel es newTables (currentEntries ++ [e]) (currentSize + entrySize) db
  end.

Definition delete_files (ts : list SSTable) (d : Disk) : Disk := foldl (fun d t => DeleteFile t d) d ts.

Definition compactLevel (level : nat) (db : DB) : DB * option Error :=
  match levels db !! level, levels db !! S level with
  | Some l, Some next =>
      match choose_tables level l with
      | None => (db, None)
      | Some (chosen, min, max) =>
          let overlapping := FindOverlappingTables min max next in
          let tablesToMerge := chosen ++ overlapping in
          match collect (sst_AllEntries (disk db)) tablesToMerge ∅ with
          | Err e => (db, Some e)
          | Ok allEntries =>
              let deeper := hasDeeperOverlap min max (drop (S (S level)) (levels db)) in
              let mergedEntries := merge_entries deeper allEntries in
              let drop_inputs (db : DB) :=
                update_level (S level) (RemoveTables overlapping) (update_level level (RemoveTables chosen) db) in
              let delete_inputs (db : DB) := db <| disk := delete_files tablesToMerge (disk db) |> in
              if decide (mergedEntries = []) then (delete_inputs (drop_inputs db), None)
              else
                match write_tables (S level) mergedEntries [] [] 0 db with
                | (db, Err e) => (db, Some e)
                | (db, Ok newTables) =>
                    (delete_inputs (update_level (S level) (AddTables newTables) (drop_inputs db)), None)
                end
          end
      end
  | _, _ => (db, Some Panics)
  end.

(** [for db.levels[level].NeedsCompaction()]: [None] when [fuel] rounds were not
    enough, and the error that stops the run otherwise. *)
Fixpoint compact_loop (fuel : nat) (level : nat) (db : DB) : option (DB * option Error) :=
  match levels db !! level with
  | None => Some (db, Some Panics)
  | Some l =>
      if negb (NeedsCompaction l) then Some (db, None)
      else match fuel with
           | O => None
           | S fuel =>
               match compactLevel level db with
               | (db, Some e) => Some (db, Some e)
               | (db, None) => compact_loop fuel level db
               end
           end
  end.

(** The levels from [level] on, [n] of them; a level with [k] tables is given
    [k] rounds. *)
Fixpoint compact_levels (n level : nat) (db : DB) : option (DB * option Error) :=
  match n with
  | O => Some (db, None)
  | S n =>
      match compact_loop (from_option (fun l => length (tables l)) 0%nat (levels db !! level)) level db with
      | Some (db, None) => compact_levels n (S level) db
      | r => r
      end
  end.

Definition runCompaction (db : DB) : option DB :=
  if merging db then Some db
  else r ← compact_levels (Z.to_nat (MaxLevel (config db) - 1)) 0 (db <| merging := true |>);
       Some ((fst r) <| merging := false |>).

Definition checkAndTriggerCompaction (db : DB) : DB :=
  if existsb NeedsCompaction (take (Z.to_nat (MaxLevel (config db) - 1)) (levels db))
  then db <| mergeCh := true |> else db.

(** One signal received by [mergeLoop]. *)
Definition mergeLoop_step (db : DB) : option DB :=
  if mergeCh db then runCompaction (db <| mergeCh := false |>) else Some db.

(** ** Opening and closing *)

(** The level and the number in a file name, when it is one of ours. *)
Definition parse_name (maxLevel : Z) (name : string) : option (Z * Z) :=
  if negb (has_suffix ".sst" name) then None
  else
    match split_on "_"%char (trim_suffix_len 4 name) with
    | [p0; p1] =>
        if negb (String.prefix "L" p0) then None
        else
          level ← Atoi (String.substring 1 (String.length p0 - 1) p0);
          seq ← Atoi p1;
          if (level <? 0) || (maxLevel <=? level) then None else Some (level, seq)
    | _ => None
    end.

(** The files of the directory, in the order of [os.ReadDir]. *)
Definition ReadDir (d : Disk) : list string := sort_slice (fun k => k) (fst <$> map_to_list (files d)).

Definition table_infos (db : DB) : list (Z * Z * string) :=
  omap (fun name => '(level, seq) ← parse_name (MaxLevel (config db)) name; Some (level, seq, name))
    (ReadDir (disk db)).

Fixpoint load_tables (infos : list (Z * Z * string)) (db : DB) : io DB :=
  match infos with
  | [] => Ok db
  | (level, seq, name) :: infos =>
      let? sst := LoadSSTable (disk db) name level in
      load_tables infos (update_level (Z.to_nat level) (AddTable sst) db)
  end.

Definition loadExistingSSTables (db : DB) : io DB :=
  let infos := table_infos db in
  let seq := foldl (fun acc '(_, seq, _) => Z.max acc seq) (seqNum db) infos in
  let? db := load_tables infos (db <| seqNum := seq |>) in
  Ok (db <| seqNum := seqNum db + 1 |>).

Definition NewDB (cfg : Config) (d : Disk) : io DB :=
  let cfg := validate cfg in
  let levels := imap (fun i n => NewLevel (Z.of_nat i) n) (take (Z.to_nat (MaxLevel cfg)) (LevelMaxFiles cfg)) in
  loadExistingSSTables
    {| config := cfg; memTable := NewMemTable (MemTableSize cfg); immutable := []; flushing := None;
       levels := levels; seqNum := 0; closed := false; merging := false; flushCh := false; mergeCh := false;
       disk := d |}.

(** After the background loops have stopped. *)
Definition Close (db : DB) : DB :=
  if closed db then db
  else
    let db := db <| closed := true |> in
    let db := if 0 <? mt_Len (memTable db) then
                db <| immutable := immutable db ++ [Freeze (memTable db)] |>
                   <| memTable := NewMemTable (MemTableSize (config db)) |>
              else db in
    flushImmutable db.

Definition SeqNum (db : DB) : Z := seqNum db.
Definition IsClosed (db : DB) : bool := closed db.

End sorting.
