(* ===== verification/LsmDBProofs.v ===== *)
(** Theorems about the LSM tree (LsmDB.v), first part: the invariant, reads,
    writes and flushes. *)

From stdpp Require Import base tactics option list gmap strings sorting.
From Stdlib Require Import Ascii ZArith Lia.
From S2P Require Import Prelude GoStrings Ordered LsmEntry LsmSkip LsmSkipProofs LsmTable LsmTableProofs LsmLevel LsmLevelProofs LsmTree LsmDB.

Implicit Types (e : Entry) (es : list Entry) (A : gmap string Entry) (d : Disk) (t : SSTable) (ts : list SSTable)
  (l : Level) (mt : MemTable) (db : DB).

(** ** File names *)

Lemma string_cons_app (c : ascii) (s : string) : String c s = String c EmptyString +:+ s.
Proof. done. Qed.

Lemma parse_generated maxLevel i n : 0 <= i < maxLevel -> i < 2 ^ 63 -> 0 <= n < 2 ^ 63 ->
  parse_name maxLevel (GenerateSSTableFilename i n) = Some (i, n).
Proof.
  intros Hi Hi' Hn. unfold parse_name, GenerateSSTableFilename. rewrite <- !string_assoc, has_suffix_app. cbn [negb].
  rewrite (trim_suffix_app _ ".sst"). rewrite string_assoc. change ("_" +:+ ?s) with (String "_"%char s).
  rewrite split_on_app, split_on_free.
  - rewrite string_length_app. change (String.length "L") with 1%nat.
    replace (1 + String.length (fmt_padded 0 i) - 1)%nat with (String.length (fmt_padded 0 i)) by lia.
    rewrite (substring_app_r "L"). rewrite !fmt_padded_Atoi by lia. cbn [mbind option_bind].
    change ("L" +:+ ?s) with (String "L"%char s). simpl. rewrite prefix_nil. cbn [negb].
    destruct (Z.ltb_spec i 0); [lia|]. destruct (Z.leb_spec maxLevel i); [lia|]. done.
  - apply fmt_padded_free; [lia|done].
  - split; [done|]. apply fmt_padded_free; [lia|done].
Qed.

Lemma generated_inj i n i' n' : 0 <= i < 2 ^ 62 -> 0 <= i' < 2 ^ 62 -> 0 <= n < 2 ^ 63 -> 0 <= n' < 2 ^ 63 ->
  GenerateSSTableFilename i n = GenerateSSTableFilename i' n' -> i = i' /\ n = n'.
Proof.
  intros Hi Hi' Hn Hn' E. apply (f_equal (parse_name (2 ^ 62))) in E.
  rewrite !parse_generated in E by lia. by simplify_eq.
Qed.

(** ** The invariant *)

Definition mt_content mt : list Entry := default [] (mt_AllEntries mt).

(** A memtable is well formed and its entries can be written. *)
Record mem_ok mt : Prop := {
  mk_inv : mt_inv mt (mt_content mt);
  mk_fits : Forall entry_fits (mt_content mt);
  mk_keys : Forall (fun e => Key e <> "") (mt_content mt);
}.

Lemma mt_content_inv mt es : mt_inv mt es -> mt_content mt = es.
Proof. intros Hi. unfold mt_content. by rewrite (mt_AllEntries_spec _ _ Hi). Qed.

Definition sources db : list source :=
  (mt_content <$> memtables db) ++ (level_entries (disk db) <$> levels db).

(** The name of a table of level [i] that was written before [seq]. *)
Definition named (i : nat) (seq : Z) t : Prop :=
  sst_level t = Z.of_nat i /\ exists n, 0 <= n < seq /\ filename t = GenerateSSTableFilename (Z.of_nat i) n.

Definition all_tables db : list SSTable := concat (tables <$> levels db).

Record db_inv A db : Prop := {
  di_mem : Forall mem_ok (memtables db);
  di_levels : forall i l, levels db !! i = Some l -> level_ok (disk db) i l;
  di_count : Z.of_nat (length (levels db)) = MaxLevel (config db) /\ 0 < MaxLevel (config db) < 2 ^ 62;
  di_names : forall i l t, levels db !! i = Some l -> t ∈ tables l -> named i (seqNum db) t;
  di_distinct : NoDup (filename <$> all_tables db);
  di_seq : 0 <= seqNum db < 2 ^ 63;
  di_files : forall name, is_Some (files (disk db) !! name) -> name ∈ filename <$> all_tables db;
  di_writable : writable (disk db) = true;
  di_tree : tree_inv A (sources db);
}.

(** ** Reads *)

Lemma get_memtables_spec k mts : Forall mem_ok mts ->
  exists r, get_memtables k mts = Ok r /\
    match r with
    | Some e => exists s1 mt s2, mts = s1 ++ mt :: s2 /\ e ∈ mt_content mt /\ Key e = k /\
        (forall x, x ∈ concat (mt_content <$> s1) -> Key x <> k) /\
        (forall x, x ∈ mt_content mt -> Key x = k -> x = e)
    | None => forall x, x ∈ concat (mt_content <$> mts) -> Key x <> k
    end.
Proof.
  induction 1 as [|mt mts [Hi _ _] Hmts IH]; cbn [get_memtables]; [by exists None; split; [|set_solver]|].
  rewrite (mt_GetWithTombstone_spec _ _ Hi). cbn [of_option rbind].
  pose proof (find_answers k _ (mt_inv_sorted _ _ Hi)) as Ha. destruct (e_find k (mt_content mt)) as [e|]; simpl in Ha.
  - exists (Some e). split; [done|]. exists [], mt, mts. destruct Ha as [Hin <-]. split_and!; [done..|set_solver|].
    intros x Hx Ek. by apply (sorted_same_key _ _ _ (mt_inv_sorted _ _ Hi)).
  - destruct IH as (r & -> & Hr). exists r. split; [done|]. destruct r as [e|].
    + destruct Hr as (s1 & mt' & s2 & -> & Hin & Ek & Hno & Hu). exists (mt :: s1), mt', s2. split_and!; try done.
      intros x. rewrite fmap_cons. simpl. intros [Hx|Hx]%elem_of_app; [by apply Ha|by apply Hno].
    + intros x. rewrite fmap_cons. simpl. intros [Hx|Hx]%elem_of_app; [by apply Ha|by apply Hr].
Qed.

(** The tables of level 0 agree on the key. *)
Definition level0_agrees (k : string) db : Prop :=
  forall l e e', levels db !! 0%nat = Some l -> e ∈ level_entries (disk db) l -> e' ∈ level_entries (disk db) l ->
    Key e = k -> Key e' = k -> e = e'.

Lemma level_unique d i l e e' : level_ok d i l -> i <> 0%nat -> e ∈ level_entries d l -> e' ∈ level_entries d l ->
  Key e = Key e' -> e = e'.
Proof.
  intros [_ Hv Ha _] Hi (t & Ht & He)%elem_of_level (t' & Ht' & He')%elem_of_level Ek.
  pose proof Hv as Hv'. rewrite Forall_forall in Hv'.
  assert (t = t') as <-.
  { eapply (apart_unique d (tables l) (Key e)); auto; [by eapply table_spans; [apply Hv'|]|].
    rewrite Ek. by eapply table_spans; [apply Hv'|]. }
  apply (sorted_same_key (content d t)); [apply (Hv' t Ht)|done..].
Qed.

Lemma get_levels_spec d k (ls : list Level) i :
  (forall j l, ls !! j = Some l -> level_ok d (i + j) l) ->
  exists r, get_levels d k ls = Ok r /\
    match r with
    | Some e => exists s1 l s2, ls = s1 ++ l :: s2 /\ e ∈ level_entries d l /\ Key e = k /\
        (forall x, x ∈ concat (level_entries d <$> s1) -> Key x <> k)
    | None => forall x, x ∈ concat (level_entries d <$> ls) -> Key x <> k
    end.
Proof.
  revert i. induction ls as [|l ls IH]; intros i Hl; cbn [get_levels]; [by exists None; split; [|set_solver]|].
  destruct (lv_Get_spec d (i + 0) l k) as (r & -> & Hr); [by apply Hl|]. cbn [rbind]. destruct r as [e|].
  - exists (Some e). split; [done|]. destruct Hr. exists [], l, ls. split_and!; [done..|set_solver].
  - destruct (IH (S i)) as (r & -> & Hr').
    { intros j l' Hj. replace (S i + j)%nat with (i + S j)%nat by lia. by apply Hl. }
    exists r. split; [done|]. simpl in Hr. destruct r as [e|].
    + destruct Hr' as (s1 & l' & s2 & -> & Hin & Ek & Hno). exists (l :: s1), l', s2. split_and!; try done.
      intros x. rewrite fmap_cons. simpl. intros [Hx|Hx]%elem_of_app; [by apply Hr|by apply Hno].
    + intros x. rewrite fmap_cons. simpl. intros [Hx|Hx]%elem_of_app; [by apply Hr|by apply Hr'].
Qed.

(** What [Get] should answer. *)
Definition spec_get A (k : string) : io string :=
  match A !! k with Some e => answer e | None => Err ErrKeyNotFound end.

Lemma spec_get_absent A k : (forall w, A !! k = Some w -> Tombstone w = true) -> spec_get A k = Err ErrKeyNotFound.
Proof.
  intros H. unfold spec_get. destruct (A !! k) as [w|]; [|done]. unfold answer. by rewrite H.
Qed.

Lemma Get_spec A db k : db_inv A db -> k <> "" -> closed db = false -> level0_agrees k db ->
  Get k db = spec_get A k.
Proof.
  intros Hi Hk Hc Hag. unfold Get. rewrite decide_False by done. rewrite Hc. pose proof (di_tree _ _ Hi) as Ht.
  destruct (get_memtables_spec k _ (di_mem _ _ Hi)) as (r & -> & Hr). cbn [rbind]. destruct r as [e|].
  - destruct Hr as (s1 & mt & s2 & E & He & Ek & Hno & Hu). unfold sources in Ht.
    rewrite E, fmap_app, fmap_cons, <- app_assoc in Ht. cbn [app] in Ht.
    unfold spec_get. by rewrite (tree_first _ _ _ _ _ _ Ht Hno Hu He Ek).
  - destruct (get_levels_spec (disk db) k (levels db) 0) as (r' & -> & Hr').
    { intros j l Hj. by apply (di_levels _ _ Hi). }
    cbn [rbind]. destruct r' as [e|].
    + destruct Hr' as (s1 & l & s2 & E & He & Ek & Hno). unfold sources in Ht.
      rewrite E, fmap_app, fmap_cons, app_assoc in Ht. unfold spec_get.
      rewrite (tree_first _ _ _ _ k e Ht); [done| | |done|done].
      * intros x. rewrite concat_app. intros [Hx|Hx]%elem_of_app; [by apply Hr|by apply Hno].
      * intros x Hx Ekx. assert (levels db !! length s1 = Some l) as Hl by (rewrite E; by apply list_lookup_middle).
        destruct (decide (length s1 = 0%nat)) as [E0|E0].
        -- rewrite E0 in Hl. by apply (Hag l).
        -- apply (level_unique (disk db) (length s1) l); try done; [by apply (di_levels _ _ Hi)|congruence].
    + symmetry. apply spec_get_absent. apply (tree_absent A (sources db)); [done|]. unfold sources. intros x.
      rewrite concat_app. intros [Hx|Hx]%elem_of_app; [by apply Hr|by apply Hr'].
Qed.

Lemma range_memtables_spec start end_ mts m : Forall mem_ok mts ->
  range_memtables start end_ mts m =
    Ok (keep_newest m (concat ((fun mt => filter (within start end_) (mt_content mt)) <$> mts))).
Proof.
  intros Hm. revert m. induction Hm as [|mt mts [Hi _ _] Hmts IH]; intros m; [done|]. cbn [range_memtables].
  rewrite (mt_RangeWithTombstone_spec _ _ Hi). cbn [of_option rbind]. rewrite IH, fmap_cons. cbn [concat].
  by rewrite keep_newest_app.
Qed.

Lemma covers_filter_concat start end_ (ss : list source) :
  covers (concat (filter (within start end_) <$> ss)) (fun e => e ∈ concat ss /\ within start end_ e).
Proof.
  eapply covers_ext; [|apply covers_refl]. intros e. induction ss as [|s ss IH]; simpl; [set_solver|].
  rewrite !elem_of_app, IH, list_elem_of_filter. tauto.
Qed.

Section sorting.
Context `{!SortSlice}.

Lemma range_levels_spec d start end_ (ls : list Level) i m :
  (forall j l, ls !! j = Some l -> level_ok d (i + j) l) ->
  exists es, range_levels d start end_ ls m = Ok (keep_newest m es) /\
    covers es (fun e => e ∈ concat (level_entries d <$> ls) /\ within start end_ e).
Proof.
  revert i m. induction ls as [|l ls IH]; intros i m Hl; cbn [range_levels].
  { exists []. split; [done|]. split; set_solver. }
  destruct (lv_rangeInternal_spec d (i + 0) l start end_) as (es & Hr & Hc); [by apply Hl|].
  unfold lv_RangeWithTombstone. rewrite Hr. cbn [rbind].
  destruct (IH (S i) (keep_newest m es)) as (es' & -> & Hc').
  { intros j l' Hj. replace (S i + j)%nat with (i + S j)%nat by lia. by apply Hl. }
  exists (es ++ es'). split; [by rewrite keep_newest_app|].
  eapply covers_ext; [|by apply covers_app]. intros e. rewrite fmap_cons. simpl. rewrite elem_of_app. tauto.
Qed.

(** What [Range] should answer: the live entries of the range, sorted. *)
Definition spec_range A (start end_ : string) : list Entry :=
  filter (fun e => Tombstone e = false /\ within start end_ e) (sorted_values A).

Lemma filter_sorted (P : Entry -> Prop) `{!forall e, Decision (P e)} es : e_sorted es -> e_sorted (filter P es).
Proof.
  induction 1 as [|e es Hs IH Hf]; [constructor|]. rewrite filter_cons. case_decide; [|done]. constructor; [done|].
  rewrite Forall_forall in Hf |- *. intros x [_ Hx]%list_elem_of_filter. by apply Hf.
Qed.

Lemma live_values_sorted (P : Entry -> Prop) `{!forall e, Decision (P e)} (m : gmap string Entry) : keyed m ->
  e_sorted (sort_slice Key (filter P (snd <$> map_to_list m))) /\
  forall e, e ∈ sort_slice Key (filter P (snd <$> map_to_list m)) <-> P e /\ m !! Key e = Some e.
Proof.
  intros Hm. split.
  - apply sort_slice_strict. eapply sublist_NoDup; [by apply keyed_nodup|]. apply fmap_sublist, sublist_filter.
  - intros e. rewrite sort_slice_perm, list_elem_of_filter.
    pose proof (elem_of_sorted_values m e Hm) as He. unfold sorted_values in He. rewrite sort_slice_perm in He.
    by rewrite He.
Qed.

Lemma db_Range_spec A db start end_ : db_inv A db -> ~ key_lt end_ start -> closed db = false ->
  Range start end_ db = Ok (spec_range A start end_).
Proof.
  intros Hi Hr Hc. unfold Range. rewrite decide_False by done. rewrite Hc.
  rewrite (range_memtables_spec _ _ _ _ (di_mem _ _ Hi)). cbn [rbind].
  set (es1 := concat _).
  destruct (range_levels_spec (disk db) start end_ (levels db) 0 (keep_newest ∅ es1)) as (es2 & -> & Hcov).
  { intros j l Hj. by apply (di_levels _ _ Hi). }
  cbn [rbind]. rewrite <- keep_newest_app. f_equal. pose proof (di_tree _ _ Hi) as Ht.
  assert (covers (es1 ++ es2) (fun e => e ∈ concat (sources db) /\ within start end_ e)) as Hcov'.
  { eapply covers_ext; [|apply covers_app; [|exact Hcov]].
    2: { assert (es1 = concat (filter (within start end_) <$> (mt_content <$> memtables db))) as ->
           by (unfold es1; by rewrite <- list_fmap_compose). apply covers_filter_concat. }
    intros e. cbn beta. unfold sources. rewrite concat_app, elem_of_app. tauto. }
  destruct (live_values_sorted (fun e => Tombstone e = false) (keep_newest ∅ (es1 ++ es2))) as [Hs Hin]; [auto|].
  apply sorted_ext; [done|by apply filter_sorted, sorted_values_sorted, Ht|]. intros e. rewrite Hin. unfold spec_range.
  rewrite list_elem_of_filter, elem_of_sorted_values by apply Ht.
  assert (forall e e', Key e = Key e' -> within start end_ e <-> within start end_ e') as HP
    by (intros x y E; unfold within; by rewrite E).
  pose proof (tree_newest A (sources db) _ _ Ht HP Hcov' e). tauto.
Qed.

End sorting.

(** ** Writes *)

(** The invariant does not look at the flags. *)
Lemma inv_flags A db db' : memtables db' = memtables db -> levels db' = levels db -> config db' = config db ->
  seqNum db' = seqNum db -> disk db' = disk db -> db_inv A db -> db_inv A db'.
Proof.
  intros Em El Ec Es Ed [H1 H2 H3 H4 H5 H6 H7 H8 H9].
  split; unfold all_tables, sources in *; rewrite ?Em, ?El, ?Ec, ?Es, ?Ed; done.
Qed.

Lemma freeze_inv A db : db_inv A db ->
  db_inv A (db <| immutable := immutable db ++ [Freeze (memTable db)] |>
               <| memTable := NewMemTable (MemTableSize (config db)) |>).
Proof.
  intros [Hm Hl Hc Hn Hd Hs Hf Hw Ht]. unfold memtables in Hm. apply Forall_cons in Hm as [Hm0 Hm]. split; try done.
  - unfold memtables. simpl. rewrite reverse_snoc. constructor; [|constructor; [destruct Hm0; by split|done]].
    pose proof (NewMemTable_inv (MemTableSize (config db))) as Hnew. split; rewrite (mt_content_inv _ _ Hnew); done.
  - unfold sources, memtables in Ht |- *. simpl. rewrite reverse_snoc. simpl.
    rewrite (mt_content_inv _ _ (NewMemTable_inv (MemTableSize (config db)))).
    by apply (tree_empty_source A []).
Qed.

Lemma rotate_inv A db : db_inv A db -> db_inv A (rotate db).
Proof.
  intros Hi. unfold rotate. destruct (ShouldFlush (memTable db)); [|done].
  eapply inv_flags; [..|by apply freeze_inv]; done.
Qed.

Lemma write_inv A db flips e mt : db_inv A db -> Key e <> "" -> entry_fits e ->
  (forall w, A !! Key e = Some w -> Timestamp w < Timestamp e) ->
  mt_write flips e (memTable db) = Some mt ->
  db_inv (<[Key e := e]> A) (db <| memTable := mt |>).
Proof.
  intros [Hm Hl Hc Hn Hd Hs Hf Hw Ht] Hk Hfit Hts Hmt.
  unfold memtables in Hm. apply Forall_cons in Hm as [[Hm0 Hm1 Hm2] Hm].
  destruct (mt_write_inv flips e _ _ Hm0) as (mt' & Hmt' & Hinv & _). rewrite Hmt in Hmt'. injection Hmt' as <-.
  pose proof (mt_content_inv _ _ Hinv) as Ec.
  assert (forall P : Entry -> Prop, P e -> Forall P (mt_content (memTable db)) -> Forall P (mt_content mt)) as Hall.
  { intros P HP HA. rewrite Ec. rewrite Forall_forall in HA |- *. intros x [->|[Hx _]]%elem_of_e_insert; auto. }
  split; try done.
  - unfold memtables. simpl. constructor; [|done]. split; [by rewrite Ec|by apply Hall|by apply Hall].
  - unfold sources, memtables in Ht |- *. simpl in Ht |- *. rewrite Ec. by apply tree_write.
Qed.

(** The clock of a write: after the last write of the key. *)
Definition fresh_write A now key value : Prop :=
  key <> "" /\ entry_fits {| Key := key; Value := value; Tombstone := false; Timestamp := now |} /\
  match A !! key with Some w => Timestamp w < now | None => True end.

Lemma Put_spec A db now flips key value : db_inv A db -> closed db = false -> fresh_write A now key value ->
  exists db', Put now flips key value db = Ok db' /\
    db_inv (<[key := {| Key := key; Value := value; Tombstone := false; Timestamp := now |}]> A) db' /\ closed db' = false.
Proof.
  intros Hi Hc (Hk & Hf & Hts). unfold Put, mt_Put.
  assert (forall w, A !! key = Some w -> Timestamp w < now) as Hts' by (intros w Hw; by rewrite Hw in Hts). rewrite decide_False by done. rewrite Hc.
  pose proof (di_mem _ _ Hi) as Hm. unfold memtables in Hm. apply Forall_cons in Hm as [[Hm0 _ _] _].
  set (e := {| Key := key; Value := value; Tombstone := false; Timestamp := now |}) in *. destruct (mt_write_inv flips e _ _ Hm0) as (mt & Hmt & _). rewrite Hmt.
  cbn [of_option rbind]. eexists. split; [done|]. split.
  - apply rotate_inv. by eapply (write_inv A db flips e).
  - unfold rotate. by destruct (ShouldFlush _).
Qed.

Lemma Delete_spec A db now flips key : db_inv A db -> closed db = false -> fresh_write A now key "" ->
  exists db', Delete now flips key db = Ok db' /\
    db_inv (<[key := {| Key := key; Value := ""; Tombstone := true; Timestamp := now |}]> A) db' /\ closed db' = false.
Proof.
  intros Hi Hc (Hk & Hf & Hts). unfold Delete, mt_Delete.
  assert (forall w, A !! key = Some w -> Timestamp w < now) as Hts' by (intros w Hw; by rewrite Hw in Hts). rewrite decide_False by done. rewrite Hc.
  pose proof (di_mem _ _ Hi) as Hm. unfold memtables in Hm. apply Forall_cons in Hm as [[Hm0 _ _] _].
  set (e := {| Key := key; Value := ""; Tombstone := true; Timestamp := now |}) in *. destruct (mt_write_inv flips e _ _ Hm0) as (mt & Hmt & _). rewrite Hmt.
  cbn [of_option rbind]. eexists. split; [done|]. split.
  - apply rotate_inv. by eapply (write_inv A db flips e).
  - unfold rotate. by destruct (ShouldFlush _).
Qed.

(** ** Tables and the disk *)

Lemma content_same_file d d' t : files d' !! filename t = files d !! filename t -> content d' t = content d t.
Proof. intros E. unfold content, sst_AllEntries, open_file. by rewrite E. Qed.

Lemma valid_same_file d d' t : files d' !! filename t = files d !! filename t -> table_valid d t -> table_valid d' t.
Proof.
  intros E [H1 H2 H3 H4 H5 H6]. unfold table_valid. rewrite (content_same_file d d' t E). split; try done. by rewrite E.
Qed.

Lemma level_entries_same d d' l : (forall t, t ∈ tables l -> files d' !! filename t = files d !! filename t) ->
  level_entries d' l = level_entries d l.
Proof.
  intros E. unfold level_entries. f_equal. apply list_fmap_ext. intros i t Ht. apply content_same_file, E.
  by eapply list_elem_of_lookup_2.
Qed.

Lemma level_ok_same d d' i l : (forall t, t ∈ tables l -> files d' !! filename t = files d !! filename t) ->
  level_ok d i l -> level_ok d' i l.
Proof.
  intros E [H1 H2 H3 H4]. split; try done. rewrite Forall_forall in H2 |- *. intros t Ht. eapply valid_same_file; auto.
Qed.

Lemma names_inj ts t t' : NoDup (filename <$> ts) -> t ∈ ts -> t' ∈ ts -> filename t = filename t' -> t = t'.
Proof.
  intros Hnd [a Ha]%list_elem_of_lookup [b Hb]%list_elem_of_lookup E.
  assert (a = b) as ->; [|congruence].
  apply (NoDup_lookup _ _ _ (filename t) Hnd); by rewrite list_lookup_fmap, ?Ha, ?Hb; simpl; rewrite ?E.
Qed.

Lemma elem_of_concat_tables (ls : list Level) t :
  t ∈ concat (tables <$> ls) <-> exists i l, ls !! i = Some l /\ t ∈ tables l.
Proof.
  rewrite list_elem_of_In, in_concat. setoid_rewrite <- list_elem_of_In. split.
  - intros (ts & (l & -> & Hl)%list_elem_of_fmap & Ht). apply list_elem_of_lookup in Hl as [i Hi]. by exists i, l.
  - intros (i & l & Hi & Ht). exists (tables l). split; [|done]. apply list_elem_of_fmap_2.
    by eapply list_elem_of_lookup_2.
Qed.

Lemma elem_of_all_tables db t : t ∈ all_tables db <-> exists i l, levels db !! i = Some l /\ t ∈ tables l.
Proof. apply elem_of_concat_tables. Qed.

Lemma all_tables_named A db t : db_inv A db -> t ∈ all_tables db ->
  exists i, (i < length (levels db))%nat /\ named i (seqNum db) t.
Proof.
  intros Hi (i & l & Hl & Ht)%elem_of_all_tables. exists i. split; [by eapply lookup_lt_Some|]. by eapply (di_names _ _ Hi).
Qed.

(** The next name of a level is not in use. *)
Lemma name_fresh A db (i : nat) n t : db_inv A db -> (i < length (levels db))%nat -> seqNum db <= n < 2 ^ 63 ->
  t ∈ all_tables db -> filename t <> GenerateSSTableFilename (Z.of_nat i) n.
Proof.
  intros Hi Hlt Hn Ht E. destruct (all_tables_named _ _ _ Hi Ht) as (j & Hj & _ & n' & Hn' & E').
  destruct (di_count _ _ Hi) as [Hc Hm]. rewrite E' in E. apply generated_inj in E; lia.
Qed.

Lemma named_later i seq seq' t : seq <= seq' -> named i seq t -> named i seq' t.
Proof. intros Hle (Hl & n & Hn & E). split; [done|]. exists n. split; [lia|done]. Qed.

Lemma table_of_ok d name level es : e_sorted es -> es <> [] -> fits es -> Forall (fun e => Key e <> "") es ->
  files d !! name = Some (image es) -> table_ok d (table_of name level es) es.
Proof. intros. by split. Qed.

Section sorting.
Context `{!SortSlice}.

Lemma NewSSTable_sorted d name level es : e_sorted es -> es <> [] -> writable d = true -> fits es ->
  NewSSTable d name level es = Ok (d <| files := <[name := image es]> (files d) |>, table_of name level es).
Proof.
  intros Hs Hne Hw Hf. assert (newest es = es) as E by (by apply keep_newest_sorted).
  rewrite NewSSTable_spec; rewrite ?E; done.
Qed.

Lemma AddTables_elem ts l t : t ∈ tables (AddTables ts l) <-> t ∈ tables l \/ t ∈ ts.
Proof. simpl. rewrite sort_slice_perm, elem_of_app. done. Qed.

Lemma AddTable_AddTables t l : AddTable t l = AddTables [t] l.
Proof. done. Qed.

(** ** Flushing *)

(** The end of an iteration of [flushImmutable]. *)
Definition flush_finish mt db : DB := flush_end (fst (flushMemTable mt 0 db)).

Lemma flush_begin_inv A db mt db' : db_inv A db -> flushing db = None -> flush_begin db = Some (mt, db') ->
  db_inv A db' /\ flushing db' = Some mt.
Proof.
  intros Hi Hf Hb. unfold flush_begin in Hb. destruct (immutable db) as [|x rest] eqn:E; [done|]. injection Hb as <- <-.
  assert (memtables (db <| immutable := rest |> <| flushing := Some x |>) = memtables db) as Em.
  { unfold memtables. simpl. rewrite E, Hf, reverse_cons. simpl. by rewrite app_nil_r. }
  split; [|done]. destruct Hi as [Hm Hl Hc Hn Hd Hs Hfi Hw Ht].
  split; try done; [by rewrite Em|]. unfold sources in Ht |- *. by rewrite Em.
Qed.

Lemma memtables_flushing db mt : flushing db = Some mt ->
  memtables db = memtables (flush_end db) ++ [mt].
Proof. intros E. unfold memtables. simpl. rewrite E, app_nil_r. done. Qed.

(** Adding a table with the entries of the flushed memtable to level 0. *)
Lemma flush_tree A (pre : list source) d d' l ls es t :
  table_ok d' t es ->
  (forall x, x ∈ tables l -> files d' !! filename x = files d !! filename x) ->
  (forall l' x, l' ∈ ls -> x ∈ tables l' -> files d' !! filename x = files d !! filename x) ->
  tree_inv A ((pre ++ [es]) ++ (level_entries d <$> l :: ls)) ->
  tree_inv A (pre ++ (level_entries d' <$> AddTable t l :: ls)).
Proof.
  intros Hok Hl Hls Ht. rewrite <- app_assoc, fmap_cons in Ht. rewrite fmap_cons. cbn [app] in Ht.
  rewrite (list_fmap_ext (level_entries d') (level_entries d) ls).
  - eapply tree_merge; [|exact Ht]. intros e. rewrite elem_of_level. setoid_rewrite AddTables_elem.
    rewrite elem_of_level. split.
    + intros (x & [Hx| ->%list_elem_of_singleton] & He).
      * right. exists x. split; [done|]. by rewrite <- (content_same_file d d') by (by apply Hl).
      * left. by rewrite (content_ok _ _ _ Hok) in He.
    + intros [He|(x & Hx & He)].
      * exists t. rewrite (content_ok _ _ _ Hok). set_solver.
      * exists x. rewrite (content_same_file d d') by (by apply Hl). auto.
  - intros i x Hx. apply level_entries_same. intros y Hy. eapply Hls; [by eapply list_elem_of_lookup_2|done].
Qed.

(** A new table in level 0. *)
Lemma AddTable_level_ok d t l : level_ok d 0 l -> table_valid d t -> level_ok d 0 (AddTable t l).
Proof.
  intros [H1 H2 _ _] Ht. split; [done| |done|apply sort_slice_sorted]. rewrite Forall_forall in H2 |- *.
  intros x [Hx| ->%list_elem_of_singleton]%AddTables_elem; [by apply H2|done].
Qed.

Lemma all_tables_AddTable t l0 ls db : levels db = l0 :: ls -> all_tables (update_level 0 (AddTable t) db) ≡ₚ t :: all_tables db.
Proof.
  intros El. unfold all_tables, update_level. simpl. rewrite El. simpl. rewrite sort_slice_perm, <- app_assoc. simpl.
  by rewrite <- (Permutation_middle _ _ t).
Qed.

Lemma flush_finish_inv A db mt : db_inv A db -> flushing db = Some mt -> fits (mt_content mt) ->
  seqNum (flush_finish mt db) < 2 ^ 63 ->
  db_inv A (flush_finish mt db).
Proof.
  intros Hi Hfl Hfit Hseq. pose proof (memtables_flushing _ _ Hfl) as Em.
  pose proof Hi as [Hm Hl [Hcount Hmax] Hn Hd Hs Hfi Hw Ht]. rewrite Em in Hm.
  apply Forall_app in Hm as [Hm [Hmt _]%Forall_cons]. unfold flush_finish, flushMemTable in *.
  rewrite (mt_AllEntries_spec _ _ (mk_inv _ Hmt)) in *. destruct (mt_content mt) as [|e es] eqn:Ec.
  - cbn [fst]. unfold sources in Ht. rewrite Em, fmap_app, <- app_assoc in Ht.
    change (mt_content <$> [mt]) with [mt_content mt] in Ht. rewrite Ec in Ht. split; try done.
    by apply (proj1 (tree_empty_source _ _ _)) in Ht.
  - rewrite <- Ec in Hfit. pose proof (mt_inv_sorted _ _ (mk_inv _ Hmt)) as Hsort. rewrite <- Ec in *.
    assert (mt_content mt <> []) as Hne by (by rewrite Ec).
    set (name := GenerateSSTableFilename (Z.of_nat 0) (seqNum db)) in *.
    rewrite NewSSTable_sorted in * by done. set (t := table_of name (Z.of_nat 0) (mt_content mt)) in *.
    change (disk (db <| seqNum := seqNum db + 1 |>)) with (disk db) in *.
    set (d' := (disk db) <| files := <[name := image (mt_content mt)]> (files (disk db)) |>) in *.
    destruct (levels db) as [|l0 ls] eqn:El; [simpl in Hcount; lia|].
    assert (table_ok d' t (mt_content mt)) as Hok.
    { apply table_of_ok; try done; [apply Hmt|]. apply lookup_insert_eq. }
    cbn [fst] in *. simpl in Hseq.
    assert (forall x, x ∈ all_tables db -> files d' !! filename x = files (disk db) !! filename x) as Hsame.
    { intros x Hx. simpl. rewrite lookup_insert_ne; [done|]. intros E.
      apply (name_fresh A db 0 (seqNum db) x Hi); [rewrite El; simpl; lia|lia|done|done]. }
    assert (all_tables (update_level 0 (AddTable t) (db <| disk := d' |>)) ≡ₚ t :: all_tables db) as Hperm.
    { etrans; [by apply (all_tables_AddTable t l0 ls)|done]. }
    assert (forall i l x, (l0 :: ls) !! i = Some l -> x ∈ tables l -> x ∈ all_tables db) as Hat.
    { intros i l x Hil Hx. apply elem_of_all_tables. rewrite El. by exists i, l. }
    split; try done.
    + intros [|i] l Hil; simpl in Hil; rewrite El in Hil; simpl in Hil; simplify_eq.
      * apply AddTable_level_ok; [|by eapply table_ok_valid]. apply (level_ok_same (disk db)); [|by apply (Hl 0%nat)].
        intros x Hx. by apply Hsame, (Hat 0%nat l0).
      * apply (level_ok_same (disk db)); [|by apply (Hl (S i))]. intros x Hx. by apply Hsame, (Hat (S i) l).
    + simpl. rewrite length_alter, El. done.
    + intros i l x Hil Hx. simpl in Hil. rewrite El in Hil.
      destruct i as [|i]; simpl in Hil; simplify_eq; [apply AddTables_elem in Hx as [Hx|Hx%list_elem_of_singleton]|].
      * apply (named_later _ (seqNum db)); [simpl; lia|by apply (Hn 0%nat l0)].
      * subst x. split; [done|]. exists (seqNum db). split; [simpl; lia|done].
      * apply (named_later _ (seqNum db)); [simpl; lia|by apply (Hn (S i) l)].
    + rewrite Hperm. rewrite fmap_cons. constructor; [|done]. intros (x & Hx & Hin)%list_elem_of_fmap.
      apply (name_fresh A db 0 (seqNum db) x Hi); [rewrite El; simpl; lia|lia|done|done].
    + simpl. lia.
    + intros nm Hnm. rewrite Hperm, fmap_cons. simpl in Hnm. destruct (decide (nm = name)) as [->|Hnn]; [set_solver|].
      rewrite lookup_insert_ne in Hnm by done. apply elem_of_cons. right. by apply Hfi.
    + unfold sources in Ht |- *. rewrite Em, fmap_app, El in Ht.
      change (tree_inv A ((mt_content <$> memtables (flush_end db)) ++
                          (level_entries d' <$> alter (AddTable t) 0%nat (levels db)))). rewrite El.
      eapply (flush_tree A _ (disk db) d' l0 ls); [done| | |exact Ht].
      * intros x Hx. by apply Hsame, (Hat 0%nat l0).
      * intros l' x Hl' Hx. apply list_elem_of_lookup in Hl' as [i Hil]. by apply Hsame, (Hat (S i) l').
Qed.

End sorting.
