(* ===== verification/LsmCompact.v ===== *)
(** Theorems about the LSM tree (LsmDB.v), second part: compaction. *)

From stdpp Require Import base tactics option list gmap strings sorting.
From Stdlib Require Import ZArith Lia.
From S2P Require Import Prelude GoStrings Ordered LsmEntry LsmSkip LsmSkipProofs LsmTable LsmTableProofs LsmLevel LsmLevelProofs LsmTree LsmDB LsmDBProofs.

Implicit Types (e : Entry) (es : list Entry) (A : gmap string Entry) (d : Disk) (t : SSTable) (ts : list SSTable)
  (l n : Level) (db : DB).

(** ** Choosing the tables *)

Lemma overlaps_iff min max t : OverlapsWith min max t = true <-> ~ key_lt (maxKey t) min /\ ~ key_lt max (minKey t).
Proof. unfold OverlapsWith. rewrite negb_true_iff, bool_decide_eq_false. tauto. Qed.

Lemma valid_bounds d t : table_valid d t -> ~ key_lt (maxKey t) (minKey t).
Proof. intros Hv. destruct (table_min _ _ _ Hv) as (e & He & <-). by apply (table_bounds _ _ _ Hv). Qed.

(** Nothing is chosen from tables beyond the range. *)
Lemma widen_none name ts chosen min max : Forall (fun t => key_lt max (minKey t)) ts ->
  foldl (widen name) (chosen, min, max) ts = (chosen, min, max).
Proof.
  induction 1 as [|t ts Ht Hts IH]; [done|]. cbn [foldl]. unfold widen at 2. rewrite decide_False; [done|].
  intros [_ Ho%overlaps_iff]. tauto.
Qed.

Lemma widen_spec d name ts chosen min max :
  Forall (table_valid d) ts -> Forall (fun t => filename t <> name) ts ->
  Forall (fun t => ~ key_lt (minKey t) min) ts -> StronglySorted (fun a b => ~ key_lt (minKey b) (minKey a)) ts ->
  exists sel max', foldl (widen name) (chosen, min, max) ts = (chosen ++ sel, min, max') /\
    ~ key_lt max' max /\ (forall t, t ∈ sel -> t ∈ ts /\ ~ key_lt max' (maxKey t)) /\
    (forall t, t ∈ ts -> t ∈ sel \/ key_lt max' (minKey t)).
Proof.
  intros Hv Hn Hm Hs. revert chosen max Hv Hn Hm. induction Hs as [|t ts Hs IH Hf]; intros chosen max Hv Hn Hm.
  { exists [], max. rewrite app_nil_r. split_and!; [done|by apply key_lt_irrefl|set_solver|set_solver]. }
  apply Forall_cons in Hv as [Hvt Hv]. apply Forall_cons in Hn as [Hnt Hn]. apply Forall_cons in Hm as [Hmt Hm].
  cbn [foldl]. unfold widen at 2. case_decide as Hov.
  - destruct Hov as [_ [Ho1 Ho2]%overlaps_iff]. rewrite decide_False by done.
    set (max1 := if decide (key_lt max (maxKey t)) then maxKey t else max).
    assert (~ key_lt max1 max /\ ~ key_lt max1 (maxKey t)) as [Hm1 Hm2].
    { unfold max1. case_decide as Hd; [split; [by apply key_lt_asym|by apply key_lt_irrefl]|].
      split; [by apply key_lt_irrefl|done]. }
    destruct (IH (chosen ++ [t]) max1 Hv Hn Hm) as (sel & max' & -> & Hle & Hsel & Hall).
    exists (t :: sel), max'. rewrite <- app_assoc. split_and!; [done| | |].
    + exact (key_not_lt_trans _ _ _ Hle Hm1).
    + intros x [->|Hx]%elem_of_cons; [split; [set_solver|exact (key_not_lt_trans _ _ _ Hle Hm2)]|].
      destruct (Hsel x Hx). split; [set_solver|done].
    + intros x [->|Hx]%elem_of_cons; [left; set_solver|]. destruct (Hall x Hx); [left; set_solver|by right].
  - assert (key_lt max (minKey t)) as Hlt.
    { destruct (decide (key_lt max (minKey t))) as [?|Hnl]; [done|]. destruct Hov. split; [done|]. apply overlaps_iff.
      split; [|done]. exact (key_not_lt_trans _ _ _ (valid_bounds _ _ Hvt) Hmt). }
    assert (Forall (fun x => key_lt max (minKey x)) (t :: ts)) as Hbeyond.
    { constructor; [done|]. eapply Forall_impl; [exact Hf|]. intros x Hx.
      destruct (key_not_lt _ _ Hx) as [E|?]; [by rewrite E|by eapply key_lt_trans]. }
    rewrite widen_none by (by apply Forall_cons in Hbeyond as [_ ?]).
    exists [], max. rewrite app_nil_r. split_and!; [done|by apply key_lt_irrefl|set_solver|].
    intros x Hx. right. rewrite Forall_forall in Hbeyond. by apply Hbeyond.
Qed.

(** The tables of a level that a compaction takes, and the range they span. *)
Record choice d l (chosen : list SSTable) (min max : string) : Prop := {
  ch_sub : forall t, t ∈ chosen -> t ∈ tables l;
  ch_range : forall t, t ∈ chosen -> ~ key_lt (minKey t) min /\ ~ key_lt max (maxKey t);
  ch_first : exists t, t ∈ chosen /\ head (tables l) = Some t;
  ch_order : ~ key_lt max min;
  ch_apart : forall t t' k, t ∈ tables l -> t ∉ chosen -> t' ∈ chosen -> spans k t -> ~ spans k t';
}.

Lemma spans_range d l chosen min max t k : choice d l chosen min max -> t ∈ chosen -> spans k t ->
  ~ key_lt k min /\ ~ key_lt max k.
Proof.
  intros Hc Ht [Hs1 Hs2]. destruct (ch_range _ _ _ _ _ Hc t Ht) as [Hr1 Hr2].
  split; [exact (key_not_lt_trans _ _ _ Hs1 Hr1)|exact (key_not_lt_trans _ _ _ Hr2 Hs2)].
Qed.

Lemma choose_tables_spec d i l : level_ok d i l -> NoDup (filename <$> tables l) ->
  match choose_tables i l with
  | Some (chosen, min, max) => choice d l chosen min max
  | None => tables l = []
  end.
Proof.
  intros [Hlv Hv Ha Hs] Hnd. unfold choose_tables, GetTableForCompaction.
  destruct (tables l) as [|t0 ts] eqn:El; [done|]. cbn [head]. pose proof Hv as Hv'. rewrite Forall_forall in Hv'.
  destruct i as [|i].
  - apply StronglySorted_inv in Hs as [Hs Hf]. apply Forall_cons in Hv as [Hv0 Hv].
    rewrite fmap_cons in Hnd. apply NoDup_cons in Hnd as [Hn0 Hnd].
    cbn [foldl]. unfold widen at 2. rewrite decide_False by tauto.
    destruct (widen_spec d (filename t0) ts [t0] (minKey t0) (maxKey t0)) as (sel & max' & -> & Hle & Hsel & Hall);
      [done| |done|done|].
    { rewrite Forall_forall. intros x Hx E. apply Hn0. rewrite <- E. by apply list_elem_of_fmap_2. }
    rewrite Forall_forall in Hf. cbn [app]. rewrite <- El in Hv'.
    split.
    + rewrite El. intros t [->|Ht]%elem_of_cons; [set_solver|]. destruct (Hsel t Ht). set_solver.
    + intros t [->|Ht]%elem_of_cons; [split; [by apply key_lt_irrefl|done]|].
      destruct (Hsel t Ht) as [Hts ?]. split; [by apply Hf|done].
    + exists t0. rewrite El. split; [set_solver|done].
    + exact (key_not_lt_trans _ _ _ Hle (valid_bounds _ _ Hv0)).
    + intros t t' k Ht Hnt Ht' [S1 S2] [S3 S4].
      assert (key_lt max' (minKey t)) as Hlt.
      { rewrite El in Ht. apply elem_of_cons in Ht as [->|Ht]; [set_solver|].
        destruct (Hall t Ht); [set_solver|done]. }
      assert (~ key_lt max' (maxKey t')) as Hmax'
        by (apply elem_of_cons in Ht' as [->|Ht']; [done|by apply (Hsel t')]).
      exact (key_not_lt_trans _ _ _ Hmax' (key_not_lt_trans _ _ _ S4 S1) Hlt).
  - specialize (Ha ltac:(done)). rewrite <- El in Ha, Hv, Hv'. split.
    + rewrite El. set_solver.
    + intros t ->%list_elem_of_singleton. split; apply key_lt_irrefl.
    + exists t0. rewrite El. split; [set_solver|done].
    + apply (valid_bounds d), Hv'. rewrite El. set_solver.
    + intros t t' k Ht Hnt ->%list_elem_of_singleton Hsp Hsp0. apply Hnt.
      rewrite (apart_unique d (tables l) k t t0); try done; [set_solver|]. rewrite El. set_solver.
Qed.

(** ** Writing the merged entries *)

Lemma length_index_entries off off' es :
  length (concat (IndexEncode <$> index_entries off es)) = length (concat (IndexEncode <$> index_entries off' es)).
Proof.
  revert off off'. induction es as [|e es IH]; intros off off'; [done|]. cbn [index_entries].
  rewrite !fmap_cons. cbn [concat]. rewrite !length_app, (IH _ (off' + zlen (Encode e))). f_equal.
  unfold IndexEncode. by rewrite !length_app, !length_le_encode.
Qed.

Lemma fits_app es1 es2 : fits (es1 ++ es2) -> fits es1 /\ fits es2.
Proof.
  intros [Hf Hb]. apply Forall_app in Hf as [Hf1 Hf2]. rewrite data_bytes_app, length_app in Hb.
  unfold index_bytes in Hb. rewrite index_entries_app, fmap_app, concat_app, length_app in Hb.
  rewrite (length_index_entries _ 0 es2) in Hb. unfold fits, index_bytes. split; (split; [done|lia]).
Qed.

(** A table of the next level with a name from an interval of numbers. *)
Definition numbered (next : nat) (lo hi : Z) t : Prop :=
  sst_level t = Z.of_nat next /\ exists j, lo <= j < hi /\ filename t = GenerateSSTableFilename (Z.of_nat next) j.

(** The tables [ts] hold exactly the entries [es] on the disk [d'], which
    differs from [d] in their files only. *)
Record written (next : nat) (lo hi : Z) d d' ts es : Prop := {
  wr_valid : Forall (table_valid d') ts;
  wr_content : concat (content d' <$> ts) = es;
  wr_numbered : Forall (numbered next lo hi) ts;
  wr_distinct : NoDup (filename <$> ts);
  wr_rest : forall name, name ∉ filename <$> ts -> files d' !! name = files d !! name;
  wr_writable : writable d' = true;
}.

Lemma written_cons next lo hi d d1 d' t ts es es' :
  Z.of_nat next < 2 ^ 62 -> 0 <= lo -> lo + 1 <= hi < 2 ^ 63 -> table_ok d1 t es -> sst_level t = Z.of_nat next ->
  filename t = GenerateSSTableFilename (Z.of_nat next) lo ->
  (forall name, name <> filename t -> files d1 !! name = files d !! name) ->
  written next (lo + 1) hi d1 d' ts es' -> written next lo hi d d' (t :: ts) (es ++ es').
Proof.
  intros Hnext Hlo Hhi Hok Hlev Hname Hd1 [Hv Hc Hn Hd Hr Hw].
  assert (filename t ∉ filename <$> ts) as Hnew.
  { intros (x & Hx & Hin)%list_elem_of_fmap. rewrite Forall_forall in Hn. destruct (Hn x Hin) as (_ & j & Hj & E).
    rewrite Hname, E in Hx. apply generated_inj in Hx; lia. }
  assert (files d' !! filename t = files d1 !! filename t) as Hsame by (by apply Hr). split.
  - constructor; [|done]. eapply valid_same_file; [exact Hsame|by eapply table_ok_valid].
  - rewrite fmap_cons. cbn [concat]. by rewrite (content_same_file d1 d'), (content_ok _ _ _ Hok), Hc.
  - constructor; [split; [done|]; exists lo; split; [lia|done]|].
    eapply Forall_impl; [exact Hn|]. intros x (? & j & Hj & ?). split; [done|]. exists j. split; [lia|done].
  - rewrite fmap_cons. by constructor.
  - intros name Hnm. rewrite fmap_cons in Hnm. apply not_elem_of_cons in Hnm as [??]. rewrite Hr by done. by apply Hd1.
  - done.
Qed.

Section sorting.
Context `{!SortSlice}.

Lemma emit_spec next db es : e_sorted es -> es <> [] -> fits es -> writable (disk db) = true ->
  emit next db es =
    (db <| seqNum := seqNum db + 1 |>
        <| disk := (disk db) <| files := <[GenerateSSTableFilename (Z.of_nat next) (seqNum db) := image es]>
                                          (files (disk db)) |> |>,
     Ok (table_of (GenerateSSTableFilename (Z.of_nat next) (seqNum db)) (Z.of_nat next) es)).
Proof. intros Hs Hne Hf Hw. unfold emit. by rewrite NewSSTable_sorted. Qed.

Lemma write_tables_spec next es new cur sz db :
  Z.of_nat next < 2 ^ 62 -> e_sorted (cur ++ es) -> fits (cur ++ es) -> Forall (fun e => Key e <> "") (cur ++ es) ->
  writable (disk db) = true -> 0 <= seqNum db ->
  exists ts hi d', write_tables next es new cur sz db = (db <| seqNum := hi |> <| disk := d' |>, Ok (new ++ ts)) /\
    seqNum db <= hi /\ (hi < 2 ^ 63 -> written next (seqNum db) hi (disk db) d' ts (cur ++ es)).
Proof.
  intros Hnext. revert new cur sz db.
  assert (forall cur rest (db : DB) ts hi d', e_sorted (cur ++ rest) -> fits (cur ++ rest) ->
    Forall (fun e => Key e <> "") (cur ++ rest) -> cur <> [] -> writable (disk db) = true -> 0 <= seqNum db ->
    let name := GenerateSSTableFilename (Z.of_nat next) (seqNum db) in
    let d1 := (disk db) <| files := <[name := image cur]> (files (disk db)) |> in
    seqNum db + 1 <= hi -> (hi < 2 ^ 63 -> written next (seqNum db + 1) hi d1 d' ts rest) ->
    hi < 2 ^ 63 -> written next (seqNum db) hi (disk db) d' (table_of name (Z.of_nat next) cur :: ts) (cur ++ rest)) as Hstep.
  { intros cur rest db ts hi d' Hs Hf Hk Hne Hw Hq name d1 Hhi Hwr Hb.
    apply StronglySorted_app in Hs as (_ & Hs & _). apply fits_app in Hf as [Hf _]. apply Forall_app in Hk as [Hk _].
    apply (written_cons next _ hi _ d1); try done; [| |by apply Hwr].
    - apply table_of_ok; try done. apply lookup_insert_eq.
    - intros nm Hnm. simpl. by rewrite lookup_insert_ne by (by intros ->). }
  induction es as [|e es IH]; intros new cur sz db Hs Hf Hk Hw Hq; cbn [write_tables].
  - rewrite app_nil_r in Hs, Hf, Hk |- *. case_decide as Hcur.
    + exists [], (seqNum db), (disk db). rewrite app_nil_r, Hcur. split; [by destruct db|]. split; [lia|]. intros _.
      split; try done; by constructor.
    + rewrite emit_spec by done.
      exists [table_of (GenerateSSTableFilename (Z.of_nat next) (seqNum db)) (Z.of_nat next) cur], (seqNum db + 1).
      eexists. split; [done|]. split; [lia|]. rewrite <- (app_nil_r cur) at 3. apply Hstep; try done.
      * by rewrite app_nil_r.
      * by rewrite app_nil_r.
      * by rewrite app_nil_r.
      * intros _. split; try done; by constructor.
  - destruct ((_ <? _) && negb (bool_decide (cur = []))) eqn:Hcond.
    + apply andb_prop in Hcond as [_ Hne]. apply negb_true_iff, bool_decide_eq_false in Hne.
      pose proof Hs as Hs'. apply StronglySorted_app in Hs' as (_ & Hs1 & Hs2). pose proof (fits_app _ _ Hf) as [Hf1 Hf2].
      pose proof Hk as Hk'. apply Forall_app in Hk' as [Hk1 Hk2]. rewrite emit_spec by done.
      match goal with |- context [write_tables _ _ _ _ _ ?x] => set (db1 := x) end.
      destruct (IH (new ++ [table_of (GenerateSSTableFilename (Z.of_nat next) (seqNum db)) (Z.of_nat next) cur])
                  [e] (Size e) db1) as (ts & hi & d' & -> & Hhi & Hwr); [done|done|done|done|simpl; lia|].
      eexists (_ :: ts), hi, d'. rewrite <- app_assoc. split; [done|]. simpl in Hhi. split; [lia|].
      by apply Hstep.
    + destruct (IH new (cur ++ [e]) (sz + Size e) db) as (ts & hi & d' & -> & Hhi & Hwr);
        [by rewrite <- app_assoc..|done|done|]. rewrite <- app_assoc in Hwr. by exists ts, hi, d'.
Qed.

End sorting.

(** Tables that hold a sorted list of entries between them lie apart. *)
Lemma content_apart d ts : Forall (table_valid d) ts -> e_sorted (concat (content d <$> ts)) -> apart ts.
Proof.
  induction 1 as [|t ts Ht Hts IH]; intros Hs; [constructor|]. rewrite fmap_cons in Hs. cbn [concat] in Hs.
  apply StronglySorted_app in Hs as (Hc & _ & Hs). constructor; [by apply IH|]. rewrite Forall_forall in Hts |- *.
  intros x Hx. destruct (table_max _ _ _ Ht) as (e & He & <-). destruct (table_min _ _ _ (Hts x Hx)) as (e' & He' & <-).
  apply Hc; [done|]. apply elem_of_contents. by exists x.
Qed.

(** Tables that are pairwise apart lie apart once they are sorted. *)
Lemma sorted_apart d ts : Forall (table_valid d) ts -> NoDup ts ->
  StronglySorted (fun a b => ~ key_lt (minKey b) (minKey a)) ts ->
  (forall a b, a ∈ ts -> b ∈ ts -> a <> b -> key_lt (maxKey a) (minKey b) \/ key_lt (maxKey b) (minKey a)) -> apart ts.
Proof.
  intros Hv Hnd Hs. induction Hs as [|t ts Hs IH Hf]; intros Hp; [constructor|].
  apply Forall_cons in Hv as [Hvt Hv]. apply NoDup_cons in Hnd as [Ht Hnd]. constructor.
  - apply IH; [done|done|]. intros a b Ha Hb. apply Hp; set_solver.
  - rewrite Forall_forall in Hf, Hv |- *. intros x Hx. destruct (Hp t x) as [?|Hlt]; [set_solver..| |done|].
    { intros ->. done. }
    exfalso. apply (Hf x Hx). destruct (key_not_lt _ _ (valid_bounds _ _ (Hv x Hx))) as [E|?]; [by rewrite <- E|].
    by eapply key_lt_trans.
Qed.

(** ** Replacing tables *)

Lemma delete_files_lookup ts d name : writable d = true ->
  writable (delete_files ts d) = true /\
  files (delete_files ts d) !! name = if decide (name ∈ filename <$> ts) then None else files d !! name.
Proof.
  revert d. induction ts as [|t ts IH]; intros d Hw; cbn [delete_files foldl].
  { split; [done|]. rewrite decide_False; [done|]. set_solver. }
  assert (writable (DeleteFile t d) = true) as Hw' by (unfold DeleteFile, remove_file; by rewrite Hw).
  destruct (IH (DeleteFile t d) Hw') as [IH1 IH2]. split; [done|].
  change (foldl (fun d t => DeleteFile t d) (DeleteFile t d) ts) with (delete_files ts (DeleteFile t d)). rewrite IH2.
  unfold DeleteFile, remove_file. rewrite Hw.
  change (files (d <| files := delete (filename t) (files d) |>)) with (delete (filename t) (files d)).
  destruct (decide (name = filename t)) as [->|Hne].
  - rewrite lookup_delete_eq, fmap_cons. rewrite (decide_True (P := _ ∈ _ :: _)) by set_solver. by case_decide.
  - rewrite lookup_delete_ne by done. rewrite fmap_cons.
    destruct (decide (name ∈ filename <$> ts)); [rewrite decide_True by set_solver|rewrite decide_False by set_solver]; done.
Qed.

Lemma RemoveTables_elem ts l t : t ∈ tables (RemoveTables ts l) <-> t ∈ tables l /\ filename t ∉ filename <$> ts.
Proof. simpl. rewrite list_elem_of_filter. tauto. Qed.

(** A level and the next one after a compaction: [chosen] has left the first,
    [overlapping] the second, and [new] has joined it. *)
Record replaced d' l n (chosen overlapping new : list SSTable) l' n' : Prop := {
  rp_level : lv_level l' = lv_level l /\ lv_level n' = lv_level n;
  rp_tables : tables l' = tables (RemoveTables chosen l);
  rp_next : tables n' ≡ₚ tables (RemoveTables overlapping n) ++ new;
  rp_sorted : StronglySorted (fun a b => ~ key_lt (minKey b) (minKey a)) (tables n');
  rp_valid : Forall (table_valid d') new;
  rp_apart : forall a b, a ∈ tables n' -> b ∈ tables n' -> a <> b ->
    key_lt (maxKey a) (minKey b) \/ key_lt (maxKey b) (minKey a);
}.

Lemma filter_sorted_tables (R : relation SSTable) (P : SSTable -> Prop) `{!forall t, Decision (P t)} ts :
  StronglySorted R ts -> StronglySorted R (filter P ts).
Proof.
  induction 1 as [|t ts Hs IH Hf]; [constructor|]. rewrite filter_cons. case_decide; [|done]. constructor; [done|].
  rewrite Forall_forall in Hf |- *. intros x [_ Hx]%list_elem_of_filter. by apply Hf.
Qed.

Lemma all_tables_split db lpre l n lpost : levels db = lpre ++ l :: n :: lpost ->
  all_tables db = concat (tables <$> lpre) ++ tables l ++ tables n ++ concat (tables <$> lpost).
Proof. intros E. unfold all_tables. rewrite E, fmap_app, concat_app. done. Qed.

Lemma middle_lookup {B} (pre : list B) x y post i z :
  (pre ++ x :: y :: post) !! i = Some z ->
  pre !! i = Some z \/ (i = length pre /\ z = x) \/ (i = S (length pre) /\ z = y) \/
  (exists j, i = S (S (length pre + j)) /\ post !! j = Some z).
Proof.
  intros [H|[Hlen H]]%lookup_app_Some; [by left|right].
  remember (i - length pre)%nat as j eqn:Ej. destruct j as [|[|j]]; simpl in H; simplify_eq.
  - left. split; [lia|done].
  - right; left. split; [lia|done].
  - right; right. exists j. split; [lia|done].
Qed.

Section install.
Context A db (Hi : db_inv A db) (lpre : list Level) l n (lpost : list Level) (El : levels db = lpre ++ l :: n :: lpost).
Context (chosen overlapping new : list SSTable) db' l' n'
  (Hch : forall t, t ∈ chosen -> t ∈ tables l) (Hov : forall t, t ∈ overlapping -> t ∈ tables n)
  (Hr : replaced (disk db') l n chosen overlapping new l' n')
  (Hmem : memtables db' = memtables db) (Hcfg : config db' = config db)
  (Hlev : levels db' = lpre ++ l' :: n' :: lpost)
  (Hseq : seqNum db <= seqNum db' < 2 ^ 63) (Hw : writable (disk db') = true)
  (Hnew : Forall (numbered (S (length lpre)) (seqNum db) (seqNum db')) new) (Hnd : NoDup (filename <$> new))
  (Hdisk : forall name, name ∉ filename <$> new -> name ∉ filename <$> (chosen ++ overlapping) ->
    files (disk db') !! name = files (disk db) !! name)
  (Hgone : forall name, is_Some (files (disk db') !! name) -> name ∉ filename <$> (chosen ++ overlapping)).

Let i := length lpre.

Lemma in_all j x t : levels db !! j = Some x -> t ∈ tables x -> t ∈ all_tables db.
Proof. intros Hx Ht. apply elem_of_all_tables. by exists j, x. Qed.

Lemma level_l : levels db !! i = Some l.
Proof. rewrite El. by apply list_lookup_middle. Qed.

Lemma level_n : levels db !! S i = Some n.
Proof. rewrite El, lookup_app_r by lia. subst i. by replace (S (length lpre) - length lpre)%nat with 1%nat by lia. Qed.

(** Names identify tables. *)
Lemma same_name t t' : t ∈ all_tables db -> t' ∈ all_tables db -> filename t = filename t' -> t = t'.
Proof. apply names_inj, (di_distinct _ _ Hi). Qed.

Lemma fresh_not_old t x : t ∈ new -> x ∈ all_tables db -> filename x <> filename t.
Proof.
  intros Ht Hx. rewrite Forall_forall in Hnew. destruct (Hnew t Ht) as (_ & j & Hj & ->).
  apply (name_fresh A db (S i) j x Hi); [|lia|done]. apply lookup_lt_is_Some. rewrite level_n. by eexists.
Qed.

Lemma input_old t : t ∈ chosen ++ overlapping -> t ∈ all_tables db.
Proof.
  intros [Ht|Ht]%elem_of_app; [apply (in_all i l), Hch, Ht|apply (in_all (S i) n), Hov, Ht]; [apply level_l|apply level_n].
Qed.

(** Old tables that stay keep their files. *)
Lemma kept_file t : t ∈ all_tables db -> t ∉ chosen ++ overlapping ->
  files (disk db') !! filename t = files (disk db) !! filename t.
Proof.
  intros Ht Hnt. apply Hdisk.
  - intros (x & Hx & Hin)%list_elem_of_fmap. by apply (fresh_not_old x t).
  - intros (x & Hx & Hin)%list_elem_of_fmap. apply Hnt. by rewrite (same_name t x) by (done || by apply input_old).
Qed.

Lemma removed_iff t x ts : t ∈ tables x -> (forall y, y ∈ ts -> y ∈ tables x) -> x ∈ levels db ->
  filename t ∉ filename <$> ts <-> t ∉ ts.
Proof.
  intros Ht Hts [j Hx]%list_elem_of_lookup. split; intros H1 H2; apply H1.
  - by apply list_elem_of_fmap_2.
  - apply list_elem_of_fmap in H2 as (y & Ey & Hy). rewrite (same_name t y); [done| | |done].
    + by apply (in_all j x).
    + by apply (in_all j x); auto.
Qed.

(** A table is on one level only. *)
Lemma one_level j x j' x' t : levels db !! j = Some x -> levels db !! j' = Some x' -> t ∈ tables x -> t ∈ tables x' -> j = j'.
Proof.
  intros Hx Hx' Ht Ht'. destruct (di_names _ _ Hi j x t Hx Ht) as (E & _).
  destruct (di_names _ _ Hi j' x' t Hx' Ht') as (E' & _). lia.
Qed.

Lemma kept_elsewhere j x t : levels db !! j = Some x -> j <> i -> j <> S i -> t ∈ tables x ->
  files (disk db') !! filename t = files (disk db) !! filename t.
Proof.
  intros Hx Hj Hj' Ht. apply kept_file; [by apply (in_all j x)|]. intros [Hc|Ho]%elem_of_app.
  - apply Hj. apply (one_level j x i l t); [done|apply level_l|done|auto].
  - apply Hj'. apply (one_level j x (S i) n t); [done|apply level_n|done|auto].
Qed.

Lemma kept_level t : t ∈ tables l' ->
  t ∈ tables l /\ t ∉ chosen /\ files (disk db') !! filename t = files (disk db) !! filename t.
Proof.
  rewrite (rp_tables _ _ _ _ _ _ _ _ Hr), RemoveTables_elem. intros [Ht Hf]. split; [done|].
  assert (t ∉ chosen) as Hc.
  { apply (removed_iff t l); try done. rewrite El. set_solver. }
  split; [done|]. apply kept_file; [by apply (in_all i l); [apply level_l|]|].
  intros [?|Ho]%elem_of_app; [done|]. apply Hov in Ho.
  pose proof (one_level i l (S i) n t level_l level_n Ht Ho). lia.
Qed.

Lemma kept_next t : t ∈ tables n' -> t ∈ new \/
  (t ∈ tables n /\ t ∉ overlapping /\ files (disk db') !! filename t = files (disk db) !! filename t).
Proof.
  rewrite (rp_next _ _ _ _ _ _ _ _ Hr), elem_of_app, RemoveTables_elem. intros [[Ht Hf]|Ht]; [right|by left].
  split; [done|]. assert (t ∉ overlapping) as Ho.
  { apply (removed_iff t n); try done. rewrite El. set_solver. }
  split; [done|]. apply kept_file; [by apply (in_all (S i) n); [apply level_n|]|].
  intros [Hc|?]%elem_of_app; [|done]. apply Hch in Hc.
  pose proof (one_level i l (S i) n t level_l level_n Hc Ht). lia.
Qed.

Lemma old_valid j x t : levels db !! j = Some x -> t ∈ tables x ->
  files (disk db') !! filename t = files (disk db) !! filename t -> table_valid (disk db') t.
Proof.
  intros Hx Ht E. eapply valid_same_file; [exact E|].
  pose proof (lk_tables _ _ _ (di_levels _ _ Hi j x Hx)) as Hv. rewrite Forall_forall in Hv. by apply Hv.
Qed.

Lemma all_tables_new : all_tables db' ≡ₚ new ++ (concat (tables <$> lpre) ++ tables (RemoveTables chosen l) ++
  tables (RemoveTables overlapping n) ++ concat (tables <$> lpost)).
Proof.
  rewrite (all_tables_split db' lpre l' n' lpost Hlev), (rp_next _ _ _ _ _ _ _ _ Hr), (rp_tables _ _ _ _ _ _ _ _ Hr).
  rewrite (Permutation_app_comm _ new), <- !app_assoc.
  by rewrite (Permutation_app_swap_app _ new), (Permutation_app_swap_app _ new).
Qed.

Lemma kept_sublist : concat (tables <$> lpre) ++ tables (RemoveTables chosen l) ++
  tables (RemoveTables overlapping n) ++ concat (tables <$> lpost) `sublist_of` all_tables db.
Proof.
  rewrite (all_tables_split db lpre l n lpost El). apply sublist_app; [done|]. apply sublist_app; [apply sublist_filter|].
  apply sublist_app; [apply sublist_filter|done].
Qed.

Lemma install_distinct : NoDup (filename <$> all_tables db').
Proof.
  rewrite all_tables_new, fmap_app. apply NoDup_app. split_and!; [done| |].
  - intros name (t & -> & Ht)%list_elem_of_fmap (x & Ex & Hx)%list_elem_of_fmap.
    apply (fresh_not_old t x); [done| |done]. eapply sublist_subseteq; [apply kept_sublist|done].
  - eapply sublist_NoDup; [apply (di_distinct _ _ Hi)|]. apply fmap_sublist, kept_sublist.
Qed.

Lemma install_files name : is_Some (files (disk db') !! name) -> name ∈ filename <$> all_tables db'.
Proof.
  intros Hn. pose proof (Hgone name Hn) as Hng. destruct (decide (name ∈ filename <$> new)) as [Hin|Hin].
  { rewrite all_tables_new, fmap_app. apply elem_of_app. by left. }
  rewrite Hdisk in Hn by done. apply (di_files _ _ Hi) in Hn.
  apply list_elem_of_fmap in Hn as (t & -> & Ht). rewrite all_tables_new. apply list_elem_of_fmap_2, elem_of_app. right.
  rewrite (all_tables_split db lpre l n lpost El) in Ht. rewrite fmap_app in Hng. apply not_elem_of_app in Hng as [Hn1 Hn2].
  rewrite !elem_of_app in Ht |- *. rewrite !RemoveTables_elem. tauto.
Qed.

Lemma install_levels j x : levels db' !! j = Some x -> level_ok (disk db') j x.
Proof.
  rewrite Hlev. intros Hx. destruct (rp_level _ _ _ _ _ _ _ _ Hr) as [Ev1 Ev2].
  pose proof (di_levels _ _ Hi i l level_l) as Hl. pose proof (di_levels _ _ Hi (S i) n level_n) as Hn.
  apply middle_lookup in Hx as [Hx|[[-> ->]|[[-> ->]|(j' & -> & Hx)]]].
  - assert (levels db !! j = Some x) as Hx' by (rewrite El; by apply lookup_app_l_Some).
    pose proof (lookup_lt_Some _ _ _ Hx). apply (level_ok_same (disk db)); [|by apply (di_levels _ _ Hi)].
    intros t Ht. apply (kept_elsewhere j x); [done|subst i; lia|subst i; lia|done].
  - split.
    + rewrite Ev1. apply Hl.
    + rewrite Forall_forall. intros t Ht. destruct (kept_level t Ht) as (? & _ & ?). by apply (old_valid i l); [apply level_l|..].
    + intros Hne. rewrite (rp_tables _ _ _ _ _ _ _ _ Hr). by apply filter_sorted_tables, Hl.
    + rewrite (rp_tables _ _ _ _ _ _ _ _ Hr). by apply filter_sorted_tables, Hl.
  - assert (Forall (table_valid (disk db')) (tables n')) as Hv.
    { rewrite Forall_forall. intros t Ht. destruct (kept_next t Ht) as [Hin|(? & _ & ?)].
      - pose proof (rp_valid _ _ _ _ _ _ _ _ Hr) as Hv. rewrite Forall_forall in Hv. by apply Hv.
      - by apply (old_valid (S i) n); [apply level_n|..]. }
    split; [rewrite Ev2; apply Hn|done| |apply Hr]. intros _. apply (sorted_apart (disk db')); [done| |apply Hr..].
    pose proof install_distinct as Hd. rewrite (all_tables_split db' lpre l' n' lpost Hlev) in Hd.
    rewrite !fmap_app in Hd. apply NoDup_app in Hd as (_ & _ & Hd). apply NoDup_app in Hd as (_ & _ & Hd).
    apply NoDup_app in Hd as (Hd & _ & _). by apply NoDup_fmap_1 in Hd.
  - assert (levels db !! S (S (length lpre + j')) = Some x) as Hx'.
    { rewrite El, lookup_app_r by lia. by replace (S (S (length lpre + j')) - length lpre)%nat with (S (S j')) by lia. }
    apply (level_ok_same (disk db)); [|by apply (di_levels _ _ Hi)].
    intros t Ht. eapply kept_elsewhere; [exact Hx'|subst i; lia|subst i; lia|done].
Qed.

Lemma install_names j x t : levels db' !! j = Some x -> t ∈ tables x -> named j (seqNum db') t.
Proof.
  rewrite Hlev. intros Hx Ht.
  assert (forall j x, levels db !! j = Some x -> t ∈ tables x -> named j (seqNum db') t) as Hold.
  { intros j0 x0 Hx0 Ht0. apply (named_later _ (seqNum db)); [lia|]. by apply (di_names _ _ Hi j0 x0). }
  apply middle_lookup in Hx as [Hx|[[-> ->]|[[-> ->]|(j' & -> & Hx)]]].
  - apply (Hold _ x); [|done]. rewrite El. by apply lookup_app_l_Some.
  - apply (Hold _ l level_l). by apply kept_level.
  - destruct (kept_next t Ht) as [Hin|(Hin & _)]; [|by apply (Hold _ n level_n)].
    rewrite Forall_forall in Hnew. destruct (Hnew t Hin) as (? & k & Hk & ?). split; [done|]. exists k.
    pose proof (di_seq _ _ Hi). split; [lia|done].
  - apply (Hold _ x); [|done]. rewrite El, lookup_app_r by lia.
    by replace (S (S (length lpre + j')) - length lpre)%nat with (S (S j')) by lia.
Qed.

Lemma install_inv : tree_inv A (sources db') -> db_inv A db'.
Proof.
  intros Ht. split.
  - rewrite Hmem. apply Hi.
  - apply install_levels.
  - rewrite Hcfg. pose proof (di_count _ _ Hi) as Hc. rewrite El in Hc. rewrite Hlev.
    rewrite !length_app in Hc |- *. simpl in *. done.
  - apply install_names.
  - apply install_distinct.
  - pose proof (di_seq _ _ Hi). lia.
  - apply install_files.
  - done.
  - done.
Qed.

Lemma elem_of_level' e : e ∈ level_entries (disk db') l' <->
  exists t, t ∈ tables l /\ t ∉ chosen /\ e ∈ content (disk db) t.
Proof.
  rewrite elem_of_level. split.
  - intros (t & Ht & He). destruct (kept_level t Ht) as (? & ? & Hf). rewrite (content_same_file _ _ _ Hf) in He. by exists t.
  - intros (t & Ht & Hc & He). assert (t ∈ tables l') as Ht'.
    { rewrite (rp_tables _ _ _ _ _ _ _ _ Hr), RemoveTables_elem. split; [done|].
      apply (removed_iff t l); try done. rewrite El. set_solver. }
    destruct (kept_level t Ht') as (_ & _ & Hf). exists t. by rewrite (content_same_file _ _ _ Hf).
Qed.

Lemma elem_of_next' e : e ∈ level_entries (disk db') n' <->
  e ∈ concat (content (disk db') <$> new) \/ exists t, t ∈ tables n /\ t ∉ overlapping /\ e ∈ content (disk db) t.
Proof.
  rewrite elem_of_level, elem_of_contents. split.
  - intros (t & Ht & He). destruct (kept_next t Ht) as [Hin|(? & ? & Hf)]; [left; by exists t|right].
    rewrite (content_same_file _ _ _ Hf) in He. by exists t.
  - intros [(t & Ht & He)|(t & Ht & Hc & He)]; exists t.
    + split; [|done]. rewrite (rp_next _ _ _ _ _ _ _ _ Hr). set_solver.
    + assert (t ∈ tables n') as Ht'.
      { rewrite (rp_next _ _ _ _ _ _ _ _ Hr). apply elem_of_app. left. apply RemoveTables_elem. split; [done|].
        apply (removed_iff t n); try done. rewrite El. set_solver. }
      split; [done|]. destruct (kept_next t Ht') as [Hin|(_ & _ & Hf)]; [|by rewrite (content_same_file _ _ _ Hf)].
      destruct (fresh_not_old t t Hin); [|done]. by apply (in_all (S i) n); [apply level_n|].
Qed.

Lemma install_tree :
  moves_down (level_entries (disk db) l) (level_entries (disk db) n)
    (level_entries (disk db') l') (level_entries (disk db') n') (level_entries (disk db) <$> lpost) ->
  db_inv A db'.
Proof.
  intros Hmv. apply install_inv. pose proof (di_tree _ _ Hi) as Ht. unfold sources in Ht |- *. rewrite Hmem, Hlev.
  rewrite El in Ht. rewrite fmap_app, !fmap_cons, app_assoc in Ht |- *.
  assert (level_entries (disk db') <$> lpre = level_entries (disk db) <$> lpre) as ->.
  { apply list_fmap_ext. intros j x Hx. pose proof (lookup_lt_Some _ _ _ Hx). apply level_entries_same. intros t Ht'.
    apply (kept_elsewhere j x); [rewrite El; by apply lookup_app_l_Some|subst i; lia|subst i; lia|done]. }
  assert (level_entries (disk db') <$> lpost = level_entries (disk db) <$> lpost) as ->.
  { apply list_fmap_ext. intros j x Hx. apply level_entries_same. intros t Ht'.
    apply (kept_elsewhere (S (S (length lpre + j))) x); [|subst i; lia|subst i; lia|done].
    rewrite El, lookup_app_r by lia. by replace (S (S (length lpre + j)) - length lpre)%nat with (S (S j)) by lia. }
  by eapply tree_move.
Qed.

End install.

(** ** Merging *)

Lemma apart_pair ts a b : apart ts -> a ∈ ts -> b ∈ ts -> a <> b ->
  key_lt (maxKey a) (minKey b) \/ key_lt (maxKey b) (minKey a).
Proof.
  intros Hs [i Ha]%list_elem_of_lookup [j Hb]%list_elem_of_lookup Hne.
  destruct (Nat.lt_trichotomy i j) as [Hij|[->|Hij]]; [left|congruence|right]; by eapply apart_lookup.
Qed.

Section merge.
Context `{!SortSlice} (d : Disk) (i : nat) (l n : Level) (Hl : level_ok d i l) (Hn : level_ok d (S i) n).
Context (chosen : list SSTable) (min max : string) (Hch : choice d l chosen min max).

Let overlapping := FindOverlappingTables min max n.
Let inputs := concat (content d <$> chosen ++ overlapping).
Let allEntries := keep_newest ∅ inputs.

Lemma elem_of_overlapping t : t ∈ overlapping <-> t ∈ tables n /\ ~ key_lt (maxKey t) min /\ ~ key_lt max (minKey t).
Proof. unfold overlapping, FindOverlappingTables. rewrite list_elem_of_filter, overlaps_iff. tauto. Qed.

Lemma chosen_valid t : t ∈ chosen -> table_valid d t.
Proof. intros Ht. pose proof (lk_tables _ _ _ Hl) as Hv. rewrite Forall_forall in Hv. by apply Hv, (ch_sub _ _ _ _ _ Hch). Qed.

Lemma next_valid t : t ∈ tables n -> table_valid d t.
Proof. intros Ht. pose proof (lk_tables _ _ _ Hn) as Hv. rewrite Forall_forall in Hv. by apply Hv. Qed.

Lemma elem_of_inputs e : e ∈ inputs <->
  (exists t, t ∈ chosen /\ e ∈ content d t) \/ (exists t, t ∈ overlapping /\ e ∈ content d t).
Proof. unfold inputs. rewrite fmap_app, concat_app, elem_of_app, !elem_of_contents. done. Qed.

(** A table of the next level that stays is beside all of the merged entries. *)
Lemma kept_beside t : t ∈ tables n -> t ∉ overlapping ->
  (forall e, e ∈ inputs -> key_lt (maxKey t) (Key e)) \/ (forall e, e ∈ inputs -> key_lt (Key e) (minKey t)).
Proof.
  intros Ht Hno. pose proof (lk_apart _ _ _ Hn ltac:(done)) as Ha. pose proof (next_valid t Ht) as Hvt.
  assert (key_lt (maxKey t) min \/ key_lt max (minKey t)) as [Hlt|Hlt].
  { destruct (decide (key_lt (maxKey t) min)); [by left|]. destruct (decide (key_lt max (minKey t))); [by right|].
    destruct Hno. by apply elem_of_overlapping. }
  - left. intros e [(x & Hx & He)|(x & Hx & He)]%elem_of_inputs.
    + destruct (spans_range d l chosen min max x (Key e) Hch Hx) as [Hm _]; [by apply (table_spans d); [apply chosen_valid|]|].
      destruct (key_not_lt _ _ Hm) as [->|?]; [done|]. by eapply key_lt_trans.
    + pose proof Hx as Hx'. apply elem_of_overlapping in Hx' as (Hxn & Ho1 & Ho2).
      destruct (table_spans d x e (next_valid x Hxn) He) as [Hs1 _].
      destruct (apart_pair _ t x Ha Ht Hxn) as [Hap|Hap]; [congruence| |].
      * destruct (key_not_lt _ _ Hs1) as [->|?]; [done|]. by eapply key_lt_trans.
      * destruct Ho1. eapply key_lt_trans; [exact Hap|]. destruct (key_not_lt _ _ (valid_bounds _ _ Hvt)) as [E|?]; [by rewrite <- E|].
        by eapply key_lt_trans.
  - right. intros e [(x & Hx & He)|(x & Hx & He)]%elem_of_inputs.
    + destruct (spans_range d l chosen min max x (Key e) Hch Hx) as [_ Hm]; [by apply (table_spans d); [apply chosen_valid|]|].
      destruct (key_not_lt _ _ Hm) as [<-|?]; [done|]. by eapply key_lt_trans.
    + pose proof Hx as Hx'. apply elem_of_overlapping in Hx' as (Hxn & Ho1 & Ho2).
      destruct (table_spans d x e (next_valid x Hxn) He) as [_ Hs2].
      destruct (apart_pair _ t x Ha Ht Hxn) as [Hap|Hap]; [congruence| |].
      * destruct Ho2. eapply key_lt_trans; [exact Hlt|]. destruct (key_not_lt _ _ (valid_bounds _ _ Hvt)) as [E|?]; [by rewrite <- E|].
        by eapply key_lt_trans.
      * destruct (key_not_lt _ _ Hs2) as [<-|?]; [done|]. by eapply key_lt_trans.
Qed.

(** So it holds no key of theirs. *)
Lemma kept_disjoint t e x : t ∈ tables n -> t ∉ overlapping -> e ∈ content d t -> x ∈ inputs -> Key e <> Key x.
Proof.
  intros Ht Hno He Hx E. destruct (table_spans d t e (next_valid t Ht) He) as [Hs1 Hs2]. rewrite E in *.
  destruct (kept_beside t Ht Hno) as [Hb|Hb]; specialize (Hb x Hx); done.
Qed.

Variable deeper : bool.

Lemma elem_of_merged e : e ∈ merge_entries deeper allEntries <->
  (Tombstone e = false \/ deeper = true) /\ allEntries !! Key e = Some e.
Proof. apply live_values_sorted. unfold allEntries. auto. Qed.

Lemma merged_sorted : e_sorted (merge_entries deeper allEntries).
Proof. apply live_values_sorted. unfold allEntries. auto. Qed.

Lemma allEntries_newest k : match allEntries !! k with
  | Some y => y ∈ inputs /\ Key y = k /\ forall x, x ∈ inputs -> Key x = k -> Timestamp x <= Timestamp y
  | None => forall x, x ∈ inputs -> Key x <> k
  end.
Proof.
  pose proof (keep_newest_lookup ∅ inputs k) as Hk. fold allEntries in Hk. rewrite lookup_empty in Hk.
  destruct (allEntries !! k) as [y|]; [|tauto]. destruct Hk as [[[=]|[Hin Ek]] Hmax]. split_and!; [done|done|].
  intros x Hx Exk. apply Hmax. auto.
Qed.

Lemma merged_in_inputs e : e ∈ merge_entries deeper allEntries -> e ∈ inputs.
Proof.
  intros [_ He]%elem_of_merged. pose proof (allEntries_newest (Key e)) as Hk. rewrite He in Hk. tauto.
Qed.

(** ** The move of the entries *)

(** No tombstone that a table of the next level contributes from outside the
    range hides an entry of a deeper level. *)
Definition tombstones_safe (lpost : list Level) : Prop :=
  forall t e, t ∈ overlapping -> e ∈ content d t -> Tombstone e = true ->
    (~ key_lt (Key e) min /\ ~ key_lt max (Key e)) \/
    (forall x, x ∈ concat (level_entries d <$> lpost) -> Key x <> Key e).

Context (lpost : list Level) (Hpost : forall x, x ∈ lpost -> Forall (table_valid d) (tables x)).
Context (Hsafe : tombstones_safe lpost) (Hdeep : deeper = hasDeeperOverlap min max lpost).

Lemma deeper_absent x : deeper = false -> x ∈ concat (level_entries d <$> lpost) ->
  ~ (~ key_lt (Key x) min /\ ~ key_lt max (Key x)).
Proof.
  intros Hd Hx [Hm1 Hm2]. apply elem_of_concat in Hx as (s & (y & -> & Hy)%list_elem_of_fmap & Hx).
  apply elem_of_level in Hx as (t & Ht & Hx). pose proof (Hpost y Hy) as Hv. rewrite Forall_forall in Hv.
  destruct (table_spans d t x (Hv t Ht) Hx) as [Hs1 Hs2].
  assert (hasDeeperOverlap min max lpost = true) as Htrue; [|congruence]. unfold hasDeeperOverlap.
  apply existsb_exists. exists y. split; [by rewrite <- list_elem_of_In|]. rewrite negb_true_iff, bool_decide_eq_false.
  intros Hnil. assert (t ∈ FindOverlappingTables min max y) as Hin; [|rewrite Hnil in Hin; set_solver].
  unfold FindOverlappingTables. apply list_elem_of_filter. split; [|done]. apply overlaps_iff.
  split; [exact (key_not_lt_trans _ _ _ Hs2 Hm1)|exact (key_not_lt_trans _ _ _ Hm2 Hs1)].
Qed.

Lemma tombstone_absent y x : deeper = false -> y ∈ inputs -> Tombstone y = true ->
  x ∈ concat (level_entries d <$> lpost) -> Key x <> Key y.
Proof.
  intros Hd [(t & Ht & Hy)|(t & Ht & Hy)]%elem_of_inputs Htomb Hx E.
  - apply (deeper_absent x Hd Hx). rewrite E.
    apply (spans_range d l chosen min max t (Key y) Hch Ht). by apply (table_spans d); [apply chosen_valid|].
  - destruct (Hsafe t y Ht Hy Htomb) as [Hr|Hr]; [|by apply (Hr x)]. apply (deeper_absent x Hd Hx). by rewrite E.
Qed.

Context (s' n' : source)
  (Hs' : forall e, e ∈ s' <-> exists t, t ∈ tables l /\ t ∉ chosen /\ e ∈ content d t)
  (Hn' : forall e, e ∈ n' <-> e ∈ merge_entries deeper allEntries \/
                              exists t, t ∈ tables n /\ t ∉ overlapping /\ e ∈ content d t)
  (Hnewer : newer (level_entries d l) (level_entries d n)).

Lemma kept_upper_newer e x : e ∈ s' -> x ∈ inputs -> Key e = Key x -> x ∈ level_entries d n.
Proof.
  intros (t & Ht & Hnt & He)%Hs' [(t' & Ht' & Hx)|(t' & Ht' & Hx)]%elem_of_inputs E.
  - exfalso. apply (ch_apart _ _ _ _ _ Hch t t' (Key e)); [done|done|done| |].
    + apply (table_spans d); [|done]. pose proof (lk_tables _ _ _ Hl) as Hv. rewrite Forall_forall in Hv. by apply Hv.
    + rewrite E. by apply (table_spans d); [apply chosen_valid|].
  - apply elem_of_level. exists t'. apply elem_of_overlapping in Ht'. tauto.
Qed.

Lemma upper_source e : e ∈ s' -> e ∈ level_entries d l.
Proof. intros (t & Ht & _ & He)%Hs'. apply elem_of_level. by exists t. Qed.

Lemma inputs_source e : e ∈ inputs -> e ∈ level_entries d l \/ e ∈ level_entries d n.
Proof.
  intros [(t & Ht & He)|(t & Ht & He)]%elem_of_inputs; [left|right]; apply elem_of_level; exists t; (split; [|done]).
  - by apply (ch_sub _ _ _ _ _ Hch).
  - apply elem_of_overlapping in Ht. tauto.
Qed.

Lemma dropped_absent y e : y ∈ inputs -> allEntries !! Key y = Some y -> y ∉ merge_entries deeper allEntries ->
  e ∈ n' \/ e ∈ concat (level_entries d <$> lpost) -> Key e <> Key y.
Proof.
  intros Hy Hyk Hnm Hcase E.
  assert (Tombstone y = true /\ deeper = false) as [Htomb Hd].
  { rewrite elem_of_merged in Hnm. destruct (Tombstone y), (decide (deeper = true)) as [|Hd]; try tauto.
    split; [done|]. by apply not_true_is_false. }
  destruct Hcase as [[Hm|(t & Ht & Hnt & He)]%Hn'|He].
  - pose proof Hm as [_ Hek]%elem_of_merged. rewrite E, Hyk in Hek. by simplify_eq.
  - by apply (kept_disjoint t e y Ht Hnt He Hy).
  - by apply (tombstone_absent y e).
Qed.

Lemma merge_moves_down :
  moves_down (level_entries d l) (level_entries d n) s' n' (level_entries d <$> lpost).
Proof.
  split.
  - apply upper_source.
  - intros e [He%merged_in_inputs|(t & Ht & _ & He)]%Hn'; [by apply inputs_source|right]. apply elem_of_level. by exists t.
  - intros e e' He He' E. apply (Hnewer e e'); [by apply upper_source| |done].
    apply Hn' in He' as [Hm|(t & Ht & _ & He')]; [|apply elem_of_level; by exists t].
    apply (kept_upper_newer e); [done|by apply merged_in_inputs|done].
  - intros x Hx.
    assert (x ∈ inputs \/ x ∈ s' \/ x ∈ n') as [Hin|Hin].
    { destruct Hx as [(t & Ht & Hx)%elem_of_level|(t & Ht & Hx)%elem_of_level].
      - destruct (decide (t ∈ chosen)); [left; apply elem_of_inputs; left; by exists t|].
        right; left. apply Hs'. by exists t.
      - destruct (decide (t ∈ overlapping)); [left; apply elem_of_inputs; right; by exists t|].
        right; right. apply Hn'. right. by exists t. }
    2: { exists x. split_and!; [done|done|lia|by left]. }
    pose proof (allEntries_newest (Key x)) as Hk. destruct (allEntries !! Key x) as [y|] eqn:Hy; [|by destruct (Hk x)].
    destruct Hk as (Hyin & Ek & Hmax). specialize (Hmax x Hin eq_refl).
    destruct (decide (y ∈ merge_entries deeper allEntries)) as [Hm|Hm].
    { exists y. split_and!; [by apply inputs_source|done|done|left; right; apply Hn'; by left]. }
    destruct (decide (Exists (fun z => Key z = Key x) s')) as [(z & Hz & Ez)%Exists_exists|Hnz].
    + exists z. split_and!; [left; by apply upper_source|done| |by left; left].
      assert (Timestamp y <= Timestamp z); [|lia].
      apply Hnewer; [by apply upper_source|by apply (kept_upper_newer z); [| |congruence]|congruence].
    + exists y. split_and!; [by apply inputs_source|done|done|right]. split.
      * destruct (Tombstone y) eqn:Et; [done|]. destruct Hm. apply elem_of_merged. rewrite Ek. auto.
      * intros e [He|He] E; [apply Hnz, Exists_exists; by exists e|]. rewrite <- Ek in E.
        apply (dropped_absent y e); [done|by rewrite Ek|done|done|done].
Qed.

End merge.

(** ** The compaction of a level *)

Lemma split_at {B} (xs : list B) i x y : xs !! i = Some x -> xs !! S i = Some y ->
  xs = take i xs ++ x :: y :: drop (S (S i)) xs.
Proof.
  intros Hx Hy. rewrite <- (take_drop i xs) at 1. f_equal. rewrite (drop_S _ _ _ Hx). f_equal. by apply drop_S.
Qed.

Lemma alter_middle {B} (f : B -> B) pre x post : alter f (length pre) (pre ++ x :: post) = pre ++ f x :: post.
Proof. induction pre as [|y pre IH]; simpl; [done|]. f_equal. apply IH. Qed.

Lemma alter_next {B} (f : B -> B) pre x y post :
  alter f (S (length pre)) (pre ++ x :: y :: post) = pre ++ x :: f y :: post.
Proof. induction pre as [|z pre IH]; simpl; [done|]. f_equal. apply IH. Qed.

Section compact.
Context `{!SortSlice}.

(** The entries that a compaction of [l] into [n] reads. *)
Definition merge_inputs d n (chosen : list SSTable) (min max : string) : list Entry :=
  concat (content d <$> chosen ++ FindOverlappingTables min max n).

(** What a compaction needs: no tombstone is dropped over an older entry, and
    the merged entries fit on disk. *)
Definition compaction_safe (level : nat) db : Prop :=
  match levels db !! level, levels db !! S level with
  | Some l, Some n =>
      match choose_tables level l with
      | Some (chosen, min, max) =>
          let lpost := drop (S (S level)) (levels db) in
          tombstones_safe (disk db) n min max lpost /\
          fits (merge_entries (hasDeeperOverlap min max lpost)
                  (keep_newest ∅ (merge_inputs (disk db) n chosen min max)))
      | None => True
      end
  | _, _ => False
  end.

Section run.
Context A db (Hi : db_inv A db) (lpre : list Level) l n (lpost : list Level) (El : levels db = lpre ++ l :: n :: lpost).
Context (chosen : list SSTable) (min max : string) (Hch : choice (disk db) l chosen min max).

Let overlapping := FindOverlappingTables min max n.
Let deeper := hasDeeperOverlap min max lpost.
Let merged := merge_entries deeper (keep_newest ∅ (merge_inputs (disk db) n chosen min max)).

Lemma run_level_l : level_ok (disk db) (length lpre) l.
Proof. apply (di_levels _ _ Hi). by apply (level_l db lpre l n lpost El). Qed.

Lemma run_level_n : level_ok (disk db) (S (length lpre)) n.
Proof. apply (di_levels _ _ Hi). by apply (level_n db lpre l n lpost El). Qed.

Lemma merged_keys : Forall (fun e => Key e <> "") merged.
Proof.
  rewrite Forall_forall. intros e He%merged_in_inputs. apply elem_of_inputs in He as [(t & Ht & He)|(t & Ht & He)].
  - pose proof (chosen_valid _ _ _ run_level_l _ _ _ Hch t Ht) as [_ _ _ Hk _ _].
    rewrite Forall_forall in Hk. by apply Hk.
  - apply elem_of_overlapping in Ht as [Ht _]. pose proof (next_valid _ _ _ run_level_n t Ht) as [_ _ _ Hk _ _].
    rewrite Forall_forall in Hk. by apply Hk.
Qed.

Lemma post_valid x : x ∈ lpost -> Forall (table_valid (disk db)) (tables x).
Proof.
  intros [j Hx]%list_elem_of_lookup.
  apply (lk_tables _ (S (S (length lpre + j)))). apply (di_levels _ _ Hi).
  rewrite El, lookup_app_r by lia. by replace (S (S (length lpre + j)) - length lpre)%nat with (S (S j)) by lia.
Qed.

(** The tables of the next level lie apart. *)
Lemma next_apart new d' n' : Forall (table_valid d') new -> concat (content d' <$> new) = merged ->
  tables n' ≡ₚ tables (RemoveTables overlapping n) ++ new ->
  forall a b, a ∈ tables n' -> b ∈ tables n' -> a <> b ->
    key_lt (maxKey a) (minKey b) \/ key_lt (maxKey b) (minKey a).
Proof.
  intros Hv Hc Hn'. assert (apart new) as Ha.
  { apply (content_apart d'); [done|]. rewrite Hc. apply merged_sorted. }
  pose proof (lk_apart _ _ _ run_level_n ltac:(done)) as Hna. rewrite Forall_forall in Hv.
  assert (forall a b, a ∈ tables n -> a ∉ overlapping -> b ∈ new ->
    key_lt (maxKey a) (minKey b) \/ key_lt (maxKey b) (minKey a)) as Hmix.
  { intros a b Hin Hno Hb.
    assert (forall e, e ∈ content d' b -> e ∈ merge_inputs (disk db) n chosen min max) as Hsub.
    { intros e He. apply (merged_in_inputs _ _ _ _ _ deeper). fold (merge_inputs (disk db) n chosen min max).
      fold merged. rewrite <- Hc. apply elem_of_contents. by exists b. }
    destruct (table_min _ _ _ (Hv b Hb)) as (e1 & He1 & <-). destruct (table_max _ _ _ (Hv b Hb)) as (e2 & He2 & <-).
    destruct (kept_beside _ _ _ _ run_level_l run_level_n _ _ _ Hch a Hin Hno) as [Hb'|Hb']; [left|right]; by apply Hb', Hsub. }
  assert (forall t, t ∈ tables n' -> t ∈ new \/ (t ∈ tables n /\ t ∉ overlapping)) as Hcase.
  { intros t. rewrite Hn', elem_of_app, RemoveTables_elem. intros [[Ht Hf]|Ht]; [right|by left]. split; [done|].
    intros Hin. apply Hf. by apply list_elem_of_fmap_2. }
  intros a b [Ha'|[Ha' Hna']]%Hcase [Hb'|[Hb' Hnb']]%Hcase Hne.
  - by apply (apart_pair new).
  - destruct (Hmix b a Hb' Hnb' Ha'); auto.
  - by apply Hmix.
  - by apply (apart_pair (tables n)).
Qed.

(** The state after the tables have been replaced. *)
Lemma replace_inv new db1 db' l' n' :
  tombstones_safe (disk db) n min max lpost ->
  written (S (length lpre)) (seqNum db) (seqNum db') (disk db) (disk db1) new merged ->
  tables l' = tables (RemoveTables chosen l) -> lv_level l' = lv_level l -> lv_level n' = lv_level n ->
  tables n' ≡ₚ tables (RemoveTables overlapping n) ++ new ->
  StronglySorted (fun a b => ~ key_lt (minKey b) (minKey a)) (tables n') ->
  disk db' = delete_files (chosen ++ overlapping) (disk db1) ->
  memtables db' = memtables db -> config db' = config db -> levels db' = lpre ++ l' :: n' :: lpost ->
  seqNum db <= seqNum db' < 2 ^ 63 ->
  db_inv A db'.
Proof.
  intros Hsafe [Wv Wc Wn Wd Wr Ww] Hl' Hll Hln Hn' Hsort Hdisk Hmem Hcfg Hlev Hseq.
  assert (forall t, t ∈ chosen -> t ∈ tables l) as Hc by apply Hch.
  assert (forall t, t ∈ overlapping -> t ∈ tables n) as Ho by (intros t Ht; apply elem_of_overlapping in Ht; tauto).
  assert (forall name, files (disk db') !! name =
    if decide (name ∈ filename <$> chosen ++ overlapping) then None else files (disk db1) !! name) as Hfiles.
  { intros name. rewrite Hdisk. by apply delete_files_lookup. }
  assert (forall t, t ∈ new -> files (disk db') !! filename t = files (disk db1) !! filename t) as Hnewf.
  { intros t Ht. rewrite Hfiles, decide_False; [done|]. intros (x & Ex & Hx)%list_elem_of_fmap.
    apply (fresh_not_old A db Hi lpre l n lpost El new db' Hseq Wn t x Ht); [|done].
    by apply (input_old db lpre l n lpost El chosen overlapping Hc Ho). }
  assert (concat (content (disk db') <$> new) = merged) as Hcon.
  { rewrite <- Wc. f_equal. apply list_fmap_ext. intros j t Ht. apply content_same_file, Hnewf.
    by eapply list_elem_of_lookup_2. }
  assert (Forall (table_valid (disk db')) new) as Hval.
  { rewrite Forall_forall in Wv |- *. intros t Ht. eapply valid_same_file; [by apply Hnewf|by apply Wv]. }
  assert (replaced (disk db') l n chosen overlapping new l' n') as Hr.
  { split; try done. by apply (next_apart new (disk db') n'). }
  assert (forall name, is_Some (files (disk db') !! name) -> name ∉ filename <$> (chosen ++ overlapping)) as Hgone.
  { intros name [x Hx]. rewrite Hfiles in Hx. by case_decide. }
  assert (forall name, name ∉ filename <$> new -> name ∉ filename <$> (chosen ++ overlapping) ->
    files (disk db') !! name = files (disk db) !! name) as Hkeep.
  { intros name Hn1 Hn2. rewrite Hfiles, decide_False by done. by apply Wr. }
  assert (writable (disk db') = true) as Hw by (rewrite Hdisk; by apply (delete_files_lookup _ _ "")).
  apply (install_tree A db Hi lpre l n lpost El chosen overlapping new db' l' n'); try done.
  eapply (merge_moves_down (disk db) (length lpre) l n run_level_l run_level_n chosen min max Hch deeper lpost post_valid);
    [done|done| | |].
  - intros e. by apply (elem_of_level' A db Hi lpre l n lpost El chosen overlapping new db' l' n').
  - intros e. unfold merged, merge_inputs in Hcon. rewrite <- Hcon.
    by apply (elem_of_next' A db Hi lpre l n lpost El chosen overlapping new db' l' n').
  - pose proof (tr_order _ _ (di_tree _ _ Hi)) as Hord. unfold sources in Hord.
    rewrite El, fmap_app, !fmap_cons, app_assoc in Hord. apply StronglySorted_app in Hord as (_ & _ & Hord).
    apply StronglySorted_inv in Hord as [_ Hord]. by apply Forall_cons in Hord as [? _].
Qed.

End run.
Lemma level_names A db i l : db_inv A db -> levels db !! i = Some l -> NoDup (filename <$> tables l).
Proof.
  intros Hi Hl. eapply sublist_NoDup; [apply (di_distinct _ _ Hi)|]. apply fmap_sublist. unfold all_tables.
  rewrite <- (take_drop_middle _ _ _ Hl), fmap_app, concat_app, fmap_cons. cbn [concat].
  by apply sublist_inserts_l, sublist_inserts_r.
Qed.

Lemma collect_inputs d i l n chosen min max : level_ok d i l -> level_ok d (S i) n -> choice d l chosen min max ->
  collect (sst_AllEntries d) (chosen ++ FindOverlappingTables min max n) ∅ =
    Ok (keep_newest ∅ (merge_inputs d n chosen min max)).
Proof.
  intros Hl Hn Hc. apply (collect_spec _ (content d)). intros t Ht.
  assert (table_valid d t) as Hv.
  { apply elem_of_app in Ht as [Ht|Ht]; [by apply (chosen_valid _ _ _ Hl _ _ _ Hc)|].
    apply elem_of_overlapping in Ht as [Ht _]. by apply (next_valid _ _ _ Hn). }
  by rewrite (sst_AllEntries_spec _ _ _ Hv).
Qed.

Lemma no_new_tables next db (Hw : writable (disk db) = true) :
  written next (seqNum db) (seqNum db) (disk db) (disk db) [] [].
Proof. split; try done; by constructor. Qed.

(** A compaction succeeds and keeps the invariant. *)
Lemma compactLevel_spec A db level : db_inv A db -> compaction_safe level db ->
  exists db', compactLevel level db = (db', None) /\ closed db' = closed db /\ flushing db' = flushing db /\
    (seqNum db' < 2 ^ 63 -> db_inv A db').
Proof.
  intros Hi Hsafe. unfold compaction_safe in Hsafe. unfold compactLevel.
  destruct (levels db !! level) as [l|] eqn:Hl; [|done]. destruct (levels db !! S level) as [n|] eqn:Hn; [|done].
  pose proof (choose_tables_spec _ _ _ (di_levels _ _ Hi _ _ Hl) (level_names _ _ _ _ Hi Hl)) as Hch.
  destruct (choose_tables level l) as [[[chosen min] max]|]; [|by exists db; auto].
  rewrite (collect_inputs _ level l n) by (done || by apply (di_levels _ _ Hi)).
  pose proof (split_at _ _ _ _ Hl Hn) as El. set (lpre := take level (levels db)) in *.
  set (lpost := drop (S (S level)) (levels db)) in *.
  assert (length lpre = level) as Elen by (apply length_take_le; apply lookup_lt_Some in Hl; lia).
  destruct Hsafe as [Hsafe Hfits]. cbn zeta.
  set (merged := merge_entries _ (keep_newest ∅ (merge_inputs (disk db) n chosen min max))) in *.
  pose proof (di_seq _ _ Hi) as Hseq. pose proof (di_writable _ _ Hi) as Hw. rewrite <- Elen.
  assert (forall f1 f2 : Level -> Level,
    levels (update_level (S (length lpre)) f2 (update_level (length lpre) f1 db)) = lpre ++ f1 l :: f2 n :: lpost) as Hupd.
  { intros f1 f2. simpl. rewrite El at 1. by rewrite alter_middle, alter_next. }
  case_decide as Hm.
  - eexists. split; [done|]. split; [done|]. split; [done|]. intros _.
    eapply (replace_inv A db Hi lpre l n lpost El chosen min max Hch [] db _ (RemoveTables chosen l)
              (RemoveTables (FindOverlappingTables min max n) n)); try done.
    + unfold merged in Hm. rewrite Hm. exact (no_new_tables _ db Hw).
    + by rewrite app_nil_r.
    + apply filter_sorted_tables. apply (lk_sorted _ _ _ (di_levels _ _ Hi _ _ Hn)).
    + apply Hupd.
    + simpl. lia.
  - destruct (write_tables_spec (S (length lpre)) merged [] [] 0 db) as (new & hi & d' & -> & Hhi & Hwr); try done.
    { destruct (di_count _ _ Hi) as [Hc Hmax]. rewrite El, length_app in Hc. simpl in Hc. lia. }
    { apply merged_sorted. }
    { by eapply (merged_keys A db Hi lpre l n lpost El). }
    { lia. }
    eexists. split; [done|]. split; [done|]. split; [done|]. intros Hlt. simpl in Hlt.
    eapply (replace_inv A db Hi lpre l n lpost El chosen min max Hch new (db <| seqNum := hi |> <| disk := d' |>) _
              (RemoveTables chosen l) (AddTables new (RemoveTables (FindOverlappingTables min max n) n))); try done.
    + by apply Hwr.
    + simpl. by rewrite sort_slice_perm.
    + apply sort_slice_sorted.
    + simpl. rewrite El at 1. by rewrite alter_middle, !alter_next.
Qed.

End compact.
