(* ===== verification/LsmRestart.v ===== *)
(** Theorems about the LSM tree (LsmDB.v), third part: opening and closing.
    Closing writes everything to disk, and opening the directory gives back the
    same contents. *)

From stdpp Require Import base tactics option list gmap strings sorting.
From Stdlib Require Import ZArith Lia.
From S2P Require Import Prelude GoStrings Ordered LsmEntry LsmSkip LsmSkipProofs LsmTable LsmTableProofs LsmLevel LsmLevelProofs LsmTree LsmDB LsmDBProofs LsmCompact.

Implicit Types (e : Entry) (es : list Entry) (A : gmap string Entry) (d : Disk) (t : SSTable) (ts : list SSTable)
  (l : Level) (db : DB) (cfg : Config).

(** ** Configuration *)

Lemma extend_files_length k xs : xs <> [] -> length (extend_files k xs) = (length xs + k)%nat.
Proof.
  revert xs. induction k as [|k IH]; intros xs Hx; simpl; [lia|].
  destruct (last xs) as [x|] eqn:El; [|by apply last_None in El].
  rewrite IH by (by destruct xs). rewrite length_app. simpl. lia.
Qed.

Lemma validate_levels cfg : 0 < MaxLevel (validate cfg) /\
  (Z.to_nat (MaxLevel (validate cfg)) <= length (LevelMaxFiles (validate cfg)))%nat.
Proof.
  unfold validate. simpl. split; [destruct (Z.leb_spec (MaxLevel cfg) 0); lia|].
  rewrite extend_files_length by (case_decide; done). lia.
Qed.

Section sorting.
Context `{!SortSlice}.

(** ** Closing *)

(** A flush of all frozen memtables. *)
Lemma flush_loop_inv A db : db_inv A db -> flushing db = None ->
  Forall (fun mt => fits (mt_content mt)) (immutable db) -> seqNum db + zlen (immutable db) < 2 ^ 63 ->
  let db' := flush_loop (length (immutable db)) db in
  db_inv A db' /\ immutable db' = [] /\ flushing db' = None /\ memTable db' = memTable db /\ config db' = config db.
Proof.
  remember (immutable db) as mts eqn:Em. revert db Em. induction mts as [|mt mts IH]; intros db Em Hi Hf Hfit Hseq; [done|].
  apply Forall_cons in Hfit as [Hmt Hfit]. cbn [length] in Hseq |- *. cbn [flush_loop].
  destruct (flush_begin db) as [[mt0 db1]|] eqn:Hb; [|unfold flush_begin in Hb; by rewrite <- Em in Hb].
  destruct (flush_begin_inv A db mt0 db1 Hi Hf Hb) as [Hi1 Hf1]. unfold flush_begin in Hb. rewrite <- Em in Hb.
  injection Hb as <- <-. set (db1 := db <| immutable := mts |> <| flushing := Some mt |>) in *.
  assert (seqNum db <= seqNum (flush_finish mt db1) <= seqNum db + 1 /\ immutable (flush_finish mt db1) = mts /\
    memTable (flush_finish mt db1) = memTable db /\ config (flush_finish mt db1) = config db) as (Hs & Him & Hmem & Hcfg).
  { unfold flush_finish, flushMemTable. repeat case_match; simpl; split_and!; try done; lia. }
  fold (flush_finish mt db1). destruct (IH (flush_finish mt db1)) as (? & ? & ? & ? & ?).
  - done.
  - apply flush_finish_inv; [done|done|done|]. lia.
  - done.
  - done.
  - lia.
  - split_and!; try done; congruence.
Qed.

Lemma Close_db_inv A db : db_inv A db -> flushing db = None -> closed db = false ->
  Forall (fun mt => fits (mt_content mt)) (memtables db) -> seqNum db + zlen (memtables db) < 2 ^ 63 ->
  db_inv A (Close db) /\ mt_content (memTable (Close db)) = [] /\ immutable (Close db) = [] /\
    flushing (Close db) = None /\ config (Close db) = config db /\ closed (Close db) = true.
Proof.
  intros Hi Hf Hc Hfit Hseq. unfold Close. rewrite Hc. cbn zeta.
  change (memTable (db <| closed := true |>)) with (memTable db).
  assert (mt_Len (memTable db) = zlen (mt_content (memTable db))) as Hlen.
  { apply mt_Len_spec. pose proof (di_mem _ _ Hi) as Hm. unfold memtables in Hm. by apply Forall_cons in Hm as [[? _ _] _]. }
  assert (forall db0, closed db0 = true -> closed (flushImmutable db0) = true) as Hcl.
  { intros db0 E. unfold flushImmutable. generalize (length (immutable db0)). intros k. revert db0 E.
    induction k as [|k IH]; intros db0 E; [done|]. cbn [flush_loop]. destruct (flush_begin db0) as [[mt db1]|] eqn:Hb; [|done].
    apply IH. unfold flush_begin in Hb. destruct (immutable db0); [done|]. injection Hb as <- <-.
    unfold flushMemTable. repeat case_match; done. }
  assert (db_inv A (db <| closed := true |>)) as Hi' by (eapply inv_flags; [..|exact Hi]; done).
  unfold memtables in Hfit, Hseq. rewrite Hf in Hfit, Hseq. simpl in Hseq. rewrite app_nil_r, length_reverse in Hseq.
  apply Forall_cons in Hfit as [Hf0 Hfit]. simpl in Hfit. rewrite app_nil_r in Hfit. apply Forall_reverse in Hfit. rewrite reverse_involutive in Hfit.
  rewrite Hlen. destruct (Z.ltb_spec 0 (zlen (mt_content (memTable db)))) as [Hpos|Hpos].
  - assert (mt_content (NewMemTable (MemTableSize (config db))) = []) as Enew by (apply mt_content_inv, NewMemTable_inv).
    set (db1 := (db <| closed := true |>) <| immutable := _ |> <| memTable := _ |>).
    pose proof (freeze_inv A _ Hi' : db_inv A db1) as Hi1.
    destruct (flush_loop_inv A db1) as (? & ? & ? & Em & ?); [done|done| |simpl; rewrite length_app; simpl; lia|].
    { simpl. apply Forall_app. split; [done|]. by constructor. }
    fold (flushImmutable db1) in *. rewrite Em. split_and!; try done. by apply Hcl.
  - destruct (flush_loop_inv A (db <| closed := true |>)) as (? & ? & ? & Em & ?); [done|done|done|simpl; lia|].
    fold (flushImmutable (db <| closed := true |>)) in *. rewrite Em. split_and!; try done; [|by apply Hcl].
    simpl. destruct (mt_content (memTable db)); [done|simpl in Hpos; lia].
Qed.

(** ** Opening *)

(** The tables [ts] account for the files of a directory. *)
Record directory (maxLevel : Z) d ts : Prop := {
  dr_valid : Forall (table_valid d) ts;
  dr_named : Forall (fun t => exists i : nat, Z.of_nat i < maxLevel /\ named i (2 ^ 63) t) ts;
  dr_distinct : NoDup (filename <$> ts);
  dr_files : forall name, is_Some (files d !! name) -> name ∈ filename <$> ts;
}.

(** The number in the name of a table. *)
Definition number maxLevel t : Z := from_option snd 0 (parse_name maxLevel (filename t)).

Lemma parse_table maxLevel d ts t : 0 < maxLevel < 2 ^ 62 -> directory maxLevel d ts -> t ∈ ts ->
  parse_name maxLevel (filename t) = Some (sst_level t, number maxLevel t) /\ 0 <= number maxLevel t /\
  filename t = GenerateSSTableFilename (sst_level t) (number maxLevel t) /\ 0 <= sst_level t < maxLevel.
Proof.
  intros Hm Hd Ht. pose proof (dr_named _ _ _ Hd) as Hn. rewrite Forall_forall in Hn.
  destruct (Hn t Ht) as (i & Hi & Hl & k & Hk & E).
  assert (parse_name maxLevel (filename t) = Some (Z.of_nat i, k)) as Hp by (rewrite E; apply parse_generated; lia).
  unfold number. rewrite Hp, Hl. simpl. split_and!; [done|lia|done|lia|lia].
Qed.

(** Loading a file of the directory gives its table. *)
Lemma load_table maxLevel d ts t : directory maxLevel d ts -> t ∈ ts ->
  LoadSSTable d (filename t) (sst_level t) = Ok t.
Proof.
  intros Hd Ht. pose proof (dr_valid _ _ _ Hd) as Hv. rewrite Forall_forall in Hv. destruct (Hv t Ht) as [H1 H2 H3 H4 H5 H6].
  rewrite (LoadSSTable_spec _ _ _ (content d t)) by done. by rewrite <- H6.
Qed.

(** The names of the directory are those of a permutation of the tables. *)
Lemma directory_names maxLevel d ts : directory maxLevel d ts ->
  exists us, us ≡ₚ ts /\ ReadDir d = filename <$> us.
Proof.
  intros Hd. assert (ReadDir d ≡ₚ filename <$> ts) as Hp.
  { unfold ReadDir. rewrite sort_slice_perm. apply NoDup_Permutation; [apply NoDup_fst_map_to_list|apply Hd|].
    intros name. rewrite list_elem_of_fmap. split.
    - intros ([k x] & -> & Hx%elem_of_map_to_list). apply (dr_files _ _ _ Hd). by exists x.
    - intros (t & -> & Ht)%list_elem_of_fmap. pose proof (dr_valid _ _ _ Hd) as Hv. rewrite Forall_forall in Hv.
      exists (filename t, image (content d t)). split; [done|]. apply elem_of_map_to_list. apply (Hv t Ht). }
  apply (Permutation_map_inv filename) in Hp as (us & E & Hus). exists us. split; [by symmetry|done].
Qed.

Lemma table_infos_names maxLevel db ts us : 0 < maxLevel < 2 ^ 62 -> maxLevel = MaxLevel (config db) ->
  directory maxLevel (disk db) ts -> (forall t, t ∈ us -> t ∈ ts) -> ReadDir (disk db) = filename <$> us ->
  table_infos db = (fun t => (sst_level t, number maxLevel t, filename t)) <$> us.
Proof.
  intros Hm -> Hd Hsub E. unfold table_infos. rewrite E. clear E. induction us as [|t us IH]; [done|].
  rewrite !fmap_cons. cbn [omap list_omap]. destruct (parse_table _ _ _ t Hm Hd) as [-> _]; [set_solver|].
  cbn [mbind option_bind]. f_equal. apply IH. set_solver.
Qed.

(** The tables of each level after loading [us]. *)
Definition loaded us (ls ls' : list Level) : Prop :=
  length ls' = length ls /\
  forall i l, ls !! i = Some l -> exists l', ls' !! i = Some l' /\ lv_level l' = lv_level l /\ lv_maxSize l' = lv_maxSize l /\
    tables l' ≡ₚ tables l ++ filter (fun t => sst_level t = Z.of_nat i) us /\
    (StronglySorted (fun a b => ~ key_lt (minKey b) (minKey a)) (tables l) ->
     StronglySorted (fun a b => ~ key_lt (minKey b) (minKey a)) (tables l')).

Lemma load_tables_spec maxLevel ts us db : directory maxLevel (disk db) ts -> (forall t, t ∈ us -> t ∈ ts) ->
  (forall t, t ∈ us -> 0 <= sst_level t) ->
  exists ls', load_tables ((fun t => (sst_level t, number maxLevel t, filename t)) <$> us) db =
    Ok (db <| levels := ls' |>) /\ loaded us (levels db) ls'.
Proof.
  revert db. induction us as [|t us IH]; intros db Hd Hsub Hpos.
  { exists (levels db). split; [by destruct db|]. split; [done|]. intros i l Hl. exists l. rewrite app_nil_r. done. }
  rewrite fmap_cons. cbn [load_tables]. rewrite (load_table maxLevel _ ts) by (done || apply Hsub; set_solver). cbn [rbind].
  set (db1 := update_level (Z.to_nat (sst_level t)) (AddTable t) db).
  destruct (IH db1) as (ls' & -> & Hlen & Hls); [done|set_solver|set_solver|]. exists ls'. split; [done|].
  split; [rewrite Hlen; apply length_alter|]. intros i l Hl. simpl in Hls. pose proof (Hpos t ltac:(set_solver)) as Hp.
  rewrite filter_cons. destruct (decide (sst_level t = Z.of_nat i)) as [E|E].
  - destruct (Hls i (AddTable t l)) as (l' & Hl' & ? & ? & Hperm & Hsort).
    { rewrite E, Nat2Z.id, list_lookup_alter_eq, Hl. done. }
    exists l'. split_and!; try done.
    + rewrite Hperm. simpl. rewrite sort_slice_perm, <- app_assoc. done.
    + intros _. apply Hsort, sort_slice_sorted.
  - destruct (Hls i l) as (l' & Hl' & ? & ? & Hperm & Hsort); [|by exists l'].
    rewrite list_lookup_alter_ne by lia. done.
Qed.

Lemma max_seq (infos : list (Z * Z * string)) acc :
  acc <= foldl (fun acc '(_, seq, _) => Z.max acc seq) acc infos /\
  (forall a s b, (a, s, b) ∈ infos -> s <= foldl (fun acc '(_, seq, _) => Z.max acc seq) acc infos) /\
  (forall m, acc <= m -> (forall a s b, (a, s, b) ∈ infos -> s <= m) ->
    foldl (fun acc '(_, seq, _) => Z.max acc seq) acc infos <= m).
Proof.
  revert acc. induction infos as [|[[a s] b] infos IH]; intros acc; cbn [foldl]; [split_and!; [lia|set_solver|auto]|].
  destruct (IH (Z.max acc s)) as (H1 & H2 & H3). split_and!.
  - lia.
  - intros a' s' b' [[= -> -> ->]|Hin]%elem_of_cons; [lia|by eapply H2].
  - intros m Hm Hall. apply H3; [|intros a' s' b' Hin; apply (Hall a' s' b'); set_solver].
    assert (s <= m) by (apply (Hall a s b); set_solver). lia.
Qed.

(** What opening a directory gives. *)
Lemma NewDB_loads cfg d ts : let maxLevel := MaxLevel (validate cfg) in
  maxLevel < 2 ^ 62 -> directory maxLevel d ts -> (forall t, t ∈ ts -> number maxLevel t < 2 ^ 63 - 1) ->
  exists db ls0 us, NewDB cfg d = Ok db /\ us ≡ₚ ts /\ config db = validate cfg /\ disk db = d /\ closed db = false /\
    memTable db = NewMemTable (MemTableSize (validate cfg)) /\ immutable db = [] /\ flushing db = None /\
    Z.of_nat (length ls0) = maxLevel /\ (forall i l, ls0 !! i = Some l -> lv_level l = Z.of_nat i /\ tables l = []) /\
    loaded us ls0 (levels db) /\ 0 <= seqNum db < 2 ^ 63 /\ (forall t, t ∈ ts -> number maxLevel t < seqNum db).
Proof.
  intros maxLevel Hmax Hd Hnum. destruct (validate_levels cfg) as [Hpos Hlen]. fold maxLevel in Hpos, Hlen.
  destruct (directory_names _ _ _ Hd) as (us & Hus & Hdir). unfold NewDB, loadExistingSSTables. cbn zeta.
  fold maxLevel. set (ls0 := imap _ _).
  match goal with |- context [table_infos ?x] => set (db0 := x) end.
  rewrite (table_infos_names maxLevel db0 ts us) by (done || (intros t; by rewrite Hus)).
  set (infos := _ <$> us). destruct (max_seq infos (seqNum db0)) as (Hs1 & Hs2 & Hs3).
  set (seq := foldl _ _ infos) in *. simpl in Hs1.
  assert (forall t, t ∈ ts -> 0 <= number maxLevel t /\ number maxLevel t <= seq) as Hseq.
  { intros t Ht. destruct (parse_table _ _ _ t (conj Hpos Hmax) Hd Ht) as (_ & ? & _). split; [done|].
    apply (Hs2 (sst_level t) _ (filename t)). unfold infos. apply list_elem_of_fmap. exists t. by rewrite Hus. }
  destruct (load_tables_spec maxLevel ts us (db0 <| seqNum := seq |>)) as (ls' & Hload & Hl).
  { done. }
  { intros t. by rewrite Hus. }
  { intros t Ht. rewrite Hus in Ht. destruct (parse_table _ _ _ t (conj Hpos Hmax) Hd Ht) as (_ & _ & _ & ? & _). done. }
  fold infos in Hload. rewrite Hload. cbn [rbind].
  eexists _, ls0, us. split; [done|]. split_and!; try done.
  - unfold ls0. rewrite length_imap, length_take. lia.
  - intros i l Hl0. unfold ls0 in Hl0. rewrite list_lookup_imap in Hl0. apply fmap_Some in Hl0 as (n & _ & ->). done.
  - simpl. lia.
  - simpl. assert (seq <= 2 ^ 63 - 2); [|lia]. apply Hs3; [simpl; lia|]. intros a s b Hin.
    unfold infos in Hin. apply list_elem_of_fmap in Hin as (t & [= _ -> _] & Ht). rewrite Hus in Ht. specialize (Hnum t Ht). lia.
  - intros t Ht. simpl. destruct (Hseq t Ht). lia.
Qed.

(** Names stay distinct when tables are spread over their levels. *)
Lemma spread_distinct (ls : list Level) k ts : NoDup (filename <$> ts) ->
  (forall i l t, ls !! i = Some l -> t ∈ tables l -> t ∈ ts /\ sst_level t = Z.of_nat (k + i)) ->
  (forall i l, ls !! i = Some l -> NoDup (filename <$> tables l)) ->
  NoDup (filename <$> concat (tables <$> ls)).
Proof.
  intros Hnd. revert k. induction ls as [|l ls IH]; intros k Hin Hl; [constructor|]. rewrite fmap_cons. cbn [concat].
  rewrite fmap_app. apply NoDup_app. split_and!.
  - by apply (Hl 0%nat).
  - intros name (t & -> & Ht)%list_elem_of_fmap (x & Ex & Hx)%list_elem_of_fmap.
    apply elem_of_concat_tables in Hx as (j & l' & Hj & Hx).
    destruct (Hin 0%nat l t eq_refl Ht) as [Htt Et]. destruct (Hin (S j) l' x Hj Hx) as [Hxt Exl].
    assert (t = x) as <- by (by eapply names_inj). lia.
  - apply (IH (S k)).
    + intros i l' t Hi Ht. replace (S k + i)%nat with (k + S i)%nat by lia. by apply (Hin (S i) l').
    + intros i l' Hi. by apply (Hl (S i)).
Qed.

(** The tables of level [i]. *)
Abbreviation on_level i := (filter (fun t => sst_level t = Z.of_nat i)).

(** Opening a directory whose tables, level by level, represent [A]. *)
Lemma NewDB_inv A cfg d ts : let maxLevel := MaxLevel (validate cfg) in
  maxLevel < 2 ^ 62 -> writable d = true -> directory maxLevel d ts -> (forall t, t ∈ ts -> number maxLevel t < 2 ^ 63 - 1) ->
  (forall i a b, (i <> 0)%nat -> a ∈ on_level i ts -> b ∈ on_level i ts -> a <> b ->
    key_lt (maxKey a) (minKey b) \/ key_lt (maxKey b) (minKey a)) ->
  tree_inv A ((fun i => concat (content d <$> on_level i ts)) <$> seq 0 (Z.to_nat maxLevel)) ->
  exists db, NewDB cfg d = Ok db /\ db_inv A db /\ closed db = false /\ flushing db = None /\ disk db = d /\
    config db = validate cfg.
Proof.
  intros maxLevel Hmax Hw Hd Hnum Hap Htree. destruct (validate_levels cfg) as [Hpos _]. fold maxLevel in Hpos.
  destruct (NewDB_loads cfg d ts Hmax Hd Hnum)
    as (db & ls0 & us & Hnew & Hus & Hcfg & Hdisk & Hcl & Hmem & Himm & Hfl & Hlen0 & Hls0 & [Hlen Hls] & Hseq & Hnums).
  fold maxLevel in Hlen0, Hnums. exists db. split_and!; try done.
  assert (forall i l, levels db !! i = Some l -> lv_level l = Z.of_nat i /\ tables l ≡ₚ on_level i ts /\
    StronglySorted (fun a b => ~ key_lt (minKey b) (minKey a)) (tables l)) as Hlv.
  { intros i l Hl. pose proof (lookup_lt_Some _ _ _ Hl) as Hlt. rewrite Hlen in Hlt.
    destruct (lookup_lt_is_Some_2 ls0 i Hlt) as [l0 Hl0]. destruct (Hls i l0 Hl0) as (l' & Hl' & E1 & _ & Hp & Hs).
    destruct (Hls0 i l0 Hl0) as [E0 Et]. rewrite Hl in Hl'. simplify_eq. rewrite Et in Hp, Hs. split_and!.
    - congruence.
    - rewrite Hp. simpl. by rewrite Hus.
    - apply Hs. constructor. }
  assert (forall i l t, levels db !! i = Some l -> t ∈ tables l <-> t ∈ ts /\ sst_level t = Z.of_nat i) as Hin.
  { intros i l t Hl. destruct (Hlv i l Hl) as (_ & Hp & _). rewrite Hp, list_elem_of_filter. tauto. }
  assert (forall i l, levels db !! i = Some l -> NoDup (filename <$> tables l)) as Hnd.
  { intros i l Hl. destruct (Hlv i l Hl) as (_ & Hp & _). rewrite Hp. eapply sublist_NoDup; [apply (dr_distinct _ _ _ Hd)|].
    apply fmap_sublist, sublist_filter. }
  assert (memtables db = [NewMemTable (MemTableSize (validate cfg))]) as Em
    by (unfold memtables; by rewrite Hmem, Himm, Hfl).
  pose proof (NewMemTable_inv (MemTableSize (validate cfg))) as Hmt.
  split.
  - rewrite Em. constructor; [|done]. split; rewrite (mt_content_inv _ _ Hmt); done.
  - intros i l Hl. destruct (Hlv i l Hl) as (E & Hp & Hs). rewrite Hdisk.
    assert (Forall (table_valid d) (tables l)) as Hv.
    { pose proof (dr_valid _ _ _ Hd) as Hv. rewrite Forall_forall in Hv |- *. intros t Ht. by apply Hv, (Hin i l t Hl). }
    split; [done|done| |done]. intros Hi. apply (sorted_apart d); [done| |done|].
    + by apply (NoDup_fmap_1 filename), (Hnd i).
    + intros a b Ha Hb. apply (Hap i); [done|by rewrite <- Hp|by rewrite <- Hp].
  - rewrite Hcfg, Hlen. fold maxLevel. lia.
  - intros i l t Hl Ht. apply (Hin i l t Hl) in Ht as [Ht E].
    destruct (parse_table _ _ _ t (conj Hpos Hmax) Hd Ht) as (_ & Hn0 & En & _).
    split; [done|]. exists (number maxLevel t). specialize (Hnums t Ht). rewrite <- E. split; [lia|done].
  - unfold all_tables. apply (spread_distinct _ 0 ts); [apply Hd| |done]. intros i l t Hl Ht. by apply (Hin i l t Hl).
  - done.
  - rewrite Hdisk. intros name Hname. apply (dr_files _ _ _ Hd) in Hname as (t & -> & Ht)%list_elem_of_fmap.
    apply list_elem_of_fmap_2, elem_of_all_tables.
    destruct (parse_table _ _ _ t (conj Hpos Hmax) Hd Ht) as (_ & _ & _ & Hlevel).
    destruct (lookup_lt_is_Some_2 (levels db) (Z.to_nat (sst_level t))) as [l Hl]; [lia|].
    exists (Z.to_nat (sst_level t)), l. split; [done|]. apply (Hin _ _ _ Hl). split; [done|lia].
  - by rewrite Hdisk.
  - unfold sources. rewrite Em. change (mt_content <$> [?x]) with [mt_content x].
    rewrite (mt_content_inv _ _ Hmt), Hdisk. apply (tree_empty_source A []). cbn [app].
    eapply tree_same; [|exact Htree]. apply Forall2_same_length_lookup. split; [rewrite !length_fmap, length_seq; lia|].
    intros i x y Hx Hy. rewrite list_lookup_fmap in Hx. rewrite list_lookup_fmap in Hy. apply fmap_Some in Hx as (j & Hj & ->). apply fmap_Some in Hy as (l & Hl & ->).
    apply lookup_seq in Hj as [-> _]. simpl. intros e. rewrite elem_of_contents, elem_of_level.
    setoid_rewrite (Hin i l _ Hl). setoid_rewrite list_elem_of_filter. split; intros (t & [? ?] & ?); exists t; auto.
Qed.

Lemma inv_directory A db : db_inv A db -> directory (MaxLevel (config db)) (disk db) (all_tables db).
Proof.
  intros Hi. split; [| |apply Hi|apply Hi]; rewrite Forall_forall; intros t (i & l & Hl & Ht)%elem_of_all_tables.
  - pose proof (lk_tables _ _ _ (di_levels _ _ Hi i l Hl)) as Hv. rewrite Forall_forall in Hv. by apply Hv.
  - exists i. pose proof (di_seq _ _ Hi). destruct (di_count _ _ Hi) as [Hc _]. apply lookup_lt_Some in Hl as Hlt.
    split; [lia|]. apply (named_later _ (seqNum db)); [lia|]. by apply (di_names _ _ Hi i l).
Qed.

Lemma inv_number A db t : db_inv A db -> t ∈ all_tables db -> number (MaxLevel (config db)) t < 2 ^ 63 - 1.
Proof.
  intros Hi (i & l & Hl & Ht)%elem_of_all_tables. destruct (di_names _ _ Hi i l t Hl Ht) as (_ & n & Hn & E).
  destruct (di_count _ _ Hi) as [Hc Hm]. apply lookup_lt_Some in Hl. pose proof (di_seq _ _ Hi).
  unfold number. rewrite E, parse_generated by lia. simpl. lia.
Qed.

Lemma inv_on_level A db i t : db_inv A db ->
  t ∈ on_level i (all_tables db) <-> exists l, levels db !! i = Some l /\ t ∈ tables l.
Proof.
  intros Hi. rewrite list_elem_of_filter, elem_of_all_tables. split.
  - intros (E & j & l & Hl & Ht). destruct (di_names _ _ Hi j l t Hl Ht) as (E' & _).
    assert (j = i) as -> by lia. by exists l.
  - intros (l & Hl & Ht). destruct (di_names _ _ Hi i l t Hl Ht) as (E & _). split; [done|]. by exists i, l.
Qed.

(** A database whose memtables are empty can be opened again. *)
Lemma reopen_inv A db cfg : db_inv A db -> Forall (fun s => s = []) (mt_content <$> memtables db) ->
  MaxLevel (validate cfg) = MaxLevel (config db) ->
  exists db', NewDB cfg (disk db) = Ok db' /\ db_inv A db' /\ closed db' = false /\ flushing db' = None /\
    disk db' = disk db.
Proof.
  intros Hi Hmem Hcfg. destruct (di_count _ _ Hi) as [Hc Hm].
  destruct (NewDB_inv A cfg (disk db) (all_tables db)) as (db' & ? & ? & ? & ? & ? & _); rewrite ?Hcfg.
  - lia.
  - apply Hi.
  - by eapply inv_directory.
  - intros t Ht. by eapply inv_number.
  - intros i a b Hi0 (l & Hl & Ha)%(inv_on_level A) (l' & Hl' & Hb)%(inv_on_level A) Hne; try done. simplify_eq.
    apply (apart_pair (tables l)); try done. by apply (lk_apart _ _ _ (di_levels _ _ Hi i l Hl)).
  - pose proof (di_tree _ _ Hi) as Ht. unfold sources in Ht. revert Hmem Ht. generalize (mt_content <$> memtables db).
    intros pre Hpre Ht. assert (tree_inv A (level_entries (disk db) <$> levels db)) as Ht'.
    { induction Hpre as [|s pre -> Hpre IH]; [done|]. apply IH. by apply (tree_empty_source A []). }
    eapply tree_same; [|exact Ht']. apply Forall2_same_length_lookup.
    split; [rewrite !length_fmap, length_seq; lia|].
    intros i x y Hx Hy. rewrite list_lookup_fmap in Hx. rewrite list_lookup_fmap in Hy.
    apply fmap_Some in Hx as (l & Hl & ->). apply fmap_Some in Hy as (j & Hj & ->).
    apply lookup_seq in Hj as [-> _]. simpl. intros e. rewrite elem_of_contents, elem_of_level.
    setoid_rewrite (inv_on_level A); [|done]. split.
    + intros (t & Ht1 & He). exists t. split; [by exists l|done].
    + intros (t & (l' & Hl' & Ht1) & He). exists t. by simplify_eq.
  - by exists db'.
Qed.

(** A fresh directory. *)
Lemma NewDB_empty cfg : MaxLevel (validate cfg) < 2 ^ 62 ->
  exists db, NewDB cfg {| files := ∅; writable := true |} = Ok db /\ db_inv ∅ db /\ closed db = false /\ flushing db = None.
Proof.
  intros Hm. destruct (NewDB_inv ∅ cfg {| files := ∅; writable := true |} []) as (db & ? & ? & ? & ? & _); try done.
  - split; [constructor|constructor|constructor|]. intros name [x Hx]. simpl in Hx. by rewrite lookup_empty in Hx.
  - intros t. set_solver.
  - intros i a b _. set_solver.
  - generalize (Z.to_nat (MaxLevel (validate cfg))), 0%nat. intros k. induction k as [|k IH]; intros i; [apply tree_empty|].
    simpl. apply (tree_empty_source ∅ []). apply IH.
  - by exists db.
Qed.

End sorting.
