(* ===== verification/LsmRefine.v ===== *)
(** The LSM tree as a whole: every run of writes, flushes and compactions
    answers like a map, closing and opening keeps the contents, compaction
    terminates, and the runs in which the code does not do what it means to. *)

From stdpp Require Import base tactics option list gmap strings sorting relations.
From Stdlib Require Import ZArith Lia.
From S2P Require Import Prelude GoStrings Ordered LsmEntry LsmSkip LsmSkipProofs LsmTable LsmTableProofs LsmLevel LsmLevelProofs LsmTree LsmDB LsmDBProofs LsmCompact LsmRestart.

Implicit Types (A : gmap string Entry) (db : DB) (cfg : Config).

(** ** Runs *)

Definition put_entry (now : Z) (key value : string) : Entry :=
  {| Key := key; Value := value; Tombstone := false; Timestamp := now |}.
Definition delete_entry (now : Z) (key : string) : Entry :=
  {| Key := key; Value := ""; Tombstone := true; Timestamp := now |}.

Section runs.
Context `{!SortSlice}.

(** The steps of the database, each with its effect on the map of last writes. *)
Inductive lsm_step : gmap string Entry * DB -> gmap string Entry * DB -> Prop :=
| step_put A db db' now flips key value :
    fresh_write A now key value -> Put now flips key value db = Ok db' ->
    lsm_step (A, db) (<[key := put_entry now key value]> A, db')
| step_delete A db db' now flips key :
    fresh_write A now key "" -> Delete now flips key db = Ok db' ->
    lsm_step (A, db) (<[key := delete_entry now key]> A, db')
| step_flush_begin A db db' mt :
    flushing db = None -> flush_begin db = Some (mt, db') -> lsm_step (A, db) (A, db')
| step_flush_finish A db mt :
    flushing db = Some mt -> fits (mt_content mt) -> seqNum (flush_finish mt db) < 2 ^ 63 ->
    lsm_step (A, db) (A, flush_finish mt db)
| step_compact A db db' level :
    compaction_safe level db -> compactLevel level db = (db', None) -> seqNum db' < 2 ^ 63 ->
    lsm_step (A, db) (A, db').

(** A run from an empty directory. *)
Definition lsm_run cfg A db : Prop :=
  exists db0, NewDB cfg {| files := ∅; writable := true |} = Ok db0 /\ rtc lsm_step (∅, db0) (A, db).



End runs.

(** ** The compaction loop *)

Section termination.
Context `{!SortSlice}.

Lemma foldl_widen_prefix name ts chosen min max :
  exists sel min' max', foldl (widen name) (chosen, min, max) ts = (chosen ++ sel, min', max').
Proof.
  revert chosen min max. induction ts as [|t ts IH]; intros chosen min max; [exists []; rewrite app_nil_r; by do 2 eexists|].
  cbn [foldl]. unfold widen at 2. case_decide; [|apply IH].
  destruct (IH (chosen ++ [t]) (if decide (key_lt (minKey t) min) then minKey t else min)
              (if decide (key_lt max (maxKey t)) then maxKey t else max)) as (sel & min' & max' & ->).
  exists (t :: sel), min', max'. by rewrite <- app_assoc.
Qed.

Lemma choose_tables_first level l chosen min max :
  choose_tables level l = Some (chosen, min, max) -> exists t rest, head (tables l) = Some t /\ chosen = t :: rest.
Proof.
  unfold choose_tables, GetTableForCompaction. destruct (head (tables l)) as [t|]; [|done]. intros [= E]. exists t.
  destruct level as [|level]; [|simplify_eq; by exists []].
  destruct (foldl_widen_prefix (filename t) (tables l) [t] (minKey t) (maxKey t)) as (sel & ? & ? & E').
  rewrite E' in E. simplify_eq. by exists sel.
Qed.

Lemma remove_first_shrinks l t rest : head (tables l) = Some t ->
  (length (tables (RemoveTables (t :: rest) l)) < length (tables l))%nat.
Proof.
  assert (tables (RemoveTables (t :: rest) l) = filter (fun x => filename x ∉ filename <$> t :: rest) (tables l)) as -> by done.
  destruct (tables l) as [|x ts]; [done|]. intros [= ->]. rewrite filter_cons, decide_False.
  - pose proof (sublist_length _ _ (sublist_filter (fun y => filename y ∉ filename <$> t :: rest) ts)).
    rewrite length_cons. lia.
  - rewrite fmap_cons. set_solver.
Qed.

Lemma alter_twice {B} (f g : B -> B) i (xs : list B) : alter f i (alter g i xs) = alter (f ∘ g) i xs.
Proof. revert i. induction xs as [|x xs IH]; intros [|i]; [done..|]. simpl. f_equal. apply IH. Qed.

Lemma emit_levels next db es db' r : emit next db es = (db', r) -> levels db' = levels db.
Proof. unfold emit. destruct (NewSSTable _ _ _ _) as [[d t]|e]; by intros [= <- <-]. Qed.

Lemma write_tables_levels next es new cur sz db db' r :
  write_tables next es new cur sz db = (db', r) -> levels db' = levels db.
Proof.
  revert new cur sz db. induction es as [|e es IH]; intros new cur sz db; cbn [write_tables].
  - case_decide; [by intros [= <- <-]|]. destruct (emit next db cur) as [db1 [t|err]] eqn:He; intros [= <- <-];
      by eapply emit_levels.
  - destruct (_ && _); [|apply IH]. destruct (emit next db cur) as [db1 [t|err]] eqn:He.
    + intros Hw. rewrite (IH _ _ _ _ Hw). by eapply emit_levels.
    + intros [= <- <-]. by eapply emit_levels.
Qed.

(** Every round takes a table from the level, and only the next one changes besides. *)
Lemma compactLevel_shrinks level db db' l :
  compactLevel level db = (db', None) -> levels db !! level = Some l -> tables l <> [] ->
  (forall i x, levels db' !! i = Some x -> exists y, levels db !! i = Some y /\ lv_maxSize x = lv_maxSize y) /\
  exists l', levels db' !! level = Some l' /\ (length (tables l') < length (tables l))%nat.
Proof.
  intros Hcomp Hl Hne. unfold compactLevel in Hcomp. rewrite Hl in Hcomp.
  destruct (levels db !! S level) as [n|] eqn:Hn; [|done].
  destruct (choose_tables level l) as [[[chosen min] max]|] eqn:Hch.
  2: { unfold choose_tables, GetTableForCompaction in Hch. by destruct (tables l). }
  destruct (choose_tables_first _ _ _ _ _ Hch) as (t & rest & Ht & ->).
  destruct (collect _ _ _) as [m|]; [|done]. cbn zeta in Hcomp.
  assert (forall g (db2 : DB), levels db2 = alter g (S level) (alter (RemoveTables (t :: rest)) level (levels db)) ->
    (forall x, lv_maxSize (g x) = lv_maxSize x) ->
    (forall i x, levels db2 !! i = Some x -> exists y, levels db !! i = Some y /\ lv_maxSize x = lv_maxSize y) /\
    exists l', levels db2 !! level = Some l' /\ (length (tables l') < length (tables l))%nat) as Hres.
  { intros g db2 -> Hg. split.
    - intros i x. destruct (decide (i = S level)) as [->|Hi].
      + rewrite list_lookup_alter_eq, list_lookup_alter_ne, Hn by lia. intros [= <-]. exists n. split; [done|apply Hg].
      + rewrite list_lookup_alter_ne by done. destruct (decide (i = level)) as [->|Hi'].
        * rewrite list_lookup_alter_eq, Hl. intros [= <-]. by exists l.
        * rewrite list_lookup_alter_ne by done. eauto.
    - exists (RemoveTables (t :: rest) l). split; [|by apply remove_first_shrinks].
      rewrite list_lookup_alter_ne by lia. by rewrite list_lookup_alter_eq, Hl. }
  case_decide; [|destruct (write_tables _ _ _ _ _ _) as [db1 [new|]] eqn:Hw; [|done]]; injection Hcomp as <-.
  - by apply (Hres (RemoveTables (FindOverlappingTables min max n))).
  - apply (Hres (AddTables new ∘ RemoveTables (FindOverlappingTables min max n))); [|done]. rewrite <- alter_twice.
    simpl. by rewrite (write_tables_levels _ _ _ _ _ _ _ _ Hw).
Qed.

(** The levels of [db'] keep the sizes of those of [db]. *)
Definition same_limits db db' : Prop :=
  forall i x, levels db' !! i = Some x -> exists y, levels db !! i = Some y /\ lv_maxSize x = lv_maxSize y.

Lemma compact_loop_total fuel level db :
  (forall l, levels db !! level = Some l -> 0 < lv_maxSize l /\ (length (tables l) <= fuel)%nat) ->
  exists db' err, compact_loop fuel level db = Some (db', err) /\ (err = None -> same_limits db db').
Proof.
  revert db. induction fuel as [|fuel IH]; intros db Hl; cbn [compact_loop];
    (destruct (levels db !! level) as [l|] eqn:El; [|by eexists _, _; split]);
    destruct (Hl l eq_refl) as [Hpos Hlen]; unfold NeedsCompaction;
    destruct (Z.leb_spec (lv_maxSize l) (Z.of_nat (length (tables l)))) as [Hn|]; cbn [negb];
    try (eexists _, _; split; [done|]; unfold same_limits; by eauto); [lia|].
  assert (tables l <> []) as Hne by (intros E; rewrite E in Hn; simpl in Hn; lia).
  destruct (compactLevel level db) as [db1 [err|]] eqn:Hc; [by eexists _, _; split|].
  destruct (compactLevel_shrinks _ _ _ _ Hc El Hne) as [Hmax (l' & Hl' & Hlt)].
  destruct (IH db1) as (db' & err & -> & Hmax').
  { intros x Hx. rewrite Hl' in Hx. simplify_eq. split; [|lia]. destruct (Hmax _ _ Hl') as (y & Hy & ->). by simplify_eq. }
  exists db', err. split; [done|]. intros He i x Hx. destruct (Hmax' He i x Hx) as (y & Hy & ->). by apply Hmax.
Qed.

Lemma compact_levels_total n level db :
  (forall i l, levels db !! i = Some l -> 0 < lv_maxSize l) -> is_Some (compact_levels n level db).
Proof.
  revert level db. induction n as [|n IH]; intros level db Hpos; cbn [compact_levels]; [by eexists|].
  destruct (compact_loop_total (from_option (fun l => length (tables l)) 0%nat (levels db !! level)) level db)
    as (db' & err & -> & Hlim).
  { intros l Hl. rewrite Hl. simpl. split; [by eapply Hpos|lia]. }
  destruct err as [err|]; [by eexists|]. apply IH. intros i l Hl. destruct (Hlim eq_refl i l Hl) as (y & Hy & ->). by eapply Hpos.
Qed.

(** C36: a compaction run ends.  When every level allows at least one table,
    [runCompaction] returns after at most as many rounds on a level as the
    level has tables, whatever the disk does. *)
Theorem runCompaction_terminates db :
  (forall i l, levels db !! i = Some l -> 0 < lv_maxSize l) -> is_Some (runCompaction db).
Proof.
  intros Hpos. unfold runCompaction. destruct (merging db); [by eexists|].
  match goal with |- context [compact_levels ?n ?i ?x] => destruct (compact_levels_total n i x Hpos) as [r ->] end.
  by eexists.
Qed.

(** A level that allows no table at all is compacted forever. *)
Lemma compact_loop_diverges fuel level db l :
  levels db !! level = Some l -> is_Some (levels db !! S level) -> tables l = [] -> lv_maxSize l <= 0 ->
  compact_loop fuel level db = None.
Proof.
  intros Hl [n Hn] Ht Hm. assert (NeedsCompaction l = true) as Hneeds by (unfold NeedsCompaction; rewrite Ht; by apply Z.leb_le).
  induction fuel as [|fuel IH]; cbn [compact_loop]; rewrite Hl, Hneeds; cbn [negb]; [done|].
  unfold compactLevel at 1, choose_tables, GetTableForCompaction. rewrite Hl, Hn, Ht. simpl. done.
Qed.

End termination.

(** ** The database as a map *)

Section refinement.
Context `{!SortSlice}.



End refinement.

Lemma compaction_safe_intro `{!SortSlice} level db l n chosen min max :
  levels db !! level = Some l -> levels db !! S level = Some n -> choose_tables level l = Some (chosen, min, max) ->
  tombstones_safe (disk db) n min max (drop (S (S level)) (levels db)) ->
  fits (merge_entries (hasDeeperOverlap min max (drop (S (S level)) (levels db)))
          (keep_newest ∅ (merge_inputs (disk db) n chosen min max))) ->
  compaction_safe level db.
Proof. intros Hl Hn Hc Ht Hf. unfold compaction_safe. by rewrite Hl, Hn, Hc. Qed.

#[export] Instance fresh_write_dec A now key value : Decision (fresh_write A now key value).
Proof. unfold fresh_write, entry_fits. destruct (A !! key); apply _. Defined.

#[export] Instance fits_dec es : Decision (fits es).
Proof. unfold fits, entry_fits. apply _. Defined.

(** ** A run *)

Module demo.
#[local] Existing Instance stable_sort_slice.

Definition cfg : Config :=
  {| MemTableSize := 20; MaxLevel := 3; LevelMaxFiles := [2; 2]; TargetFileSize := 40; DataDir := "" |}.
Definition ok (r : io DB) : DB := match r with Ok db => db | Err _ =>
  {| config := cfg; memTable := NewMemTable 0; immutable := []; flushing := None; levels := []; seqNum := 0;
     closed := true; merging := false; flushCh := false; mergeCh := false;
     disk := {| files := ∅; writable := false |} |} end.
Definition begin (db : DB) : DB := match flush_begin db with Some (_, db) => db | None => db end.
Definition finish (db : DB) : DB := match flushing db with Some mt => flush_finish mt db | None => db end.

Definition db0 : DB := ok (NewDB cfg {| files := ∅; writable := true |}).
Definition db1 : DB := ok (Put 1 [] "a" "1" db0).
Definition db2 : DB := ok (Put 2 [true] "b" "2" db1).
Definition db3 : DB := finish (begin db2).
Definition db4 : DB := ok (Put 3 [] "b" "3" db3).
Definition db5 : DB := ok (Delete 4 [] "a" db4).
Definition db6 : DB := finish (begin db5).


Ltac compute_fact := apply (bool_decide_unpack _); vm_compute; exact I.




End demo.



Lemma runCompaction_terminates_witness :
  is_Some (runCompaction (H := stable_sort_slice) demo.db6).
Proof.
  apply (runCompaction_terminates (H := stable_sort_slice) demo.db6). intros i l Hl.
  assert (Forall (fun l => 0 < lv_maxSize l) (levels demo.db6)) as Hall.
  { apply (bool_decide_unpack _). vm_compute. exact I. }
  rewrite Forall_forall in Hall. apply Hall. by eapply list_elem_of_lookup_2.
Defined.

(** ** Runs that go wrong *)

Module trouble.
#[local] Existing Instance stable_sort_slice.
Import demo.

(** Step by step: a put, a put that fills the memtable, and its flush. *)
Definition fill (now : Z) (k1 v1 k2 v2 : string) (db : DB) : DB :=
  finish (begin (ok (Put (now + 1) [] k2 v2 (ok (Put now [] k1 v1 db))))).

(** Level 0 after two flushes: the newer table starts at the smaller key. *)
Definition stale : DB := fill 3 "a" "1" "b" "2" (fill 1 "b" "1" "c" "1" db0).

(** "z" goes down to level 2; its tombstone follows to level 1, in a table that
    starts at "b"; then a table from "a" to "b" arrives at level 0. *)
Definition old_z : DB := fst (compactLevel 1 (fst (compactLevel 0 (fill 1 "y" "1" "z" "1" db0)))).
Definition deleted_z : DB :=
  fst (compactLevel 0 (finish (begin (ok (Delete 4 [] "z" (ok (Put 3 [] "b" "12" old_z))))))).
Definition before : DB := fill 5 "a" "1" "b" "3" deleted_z.
Definition after : DB := fst (compactLevel 0 before).

(** One more step of a run. *)
Lemma run_more cfg A db A' db' : lsm_run cfg A db -> lsm_step (A, db) (A', db') -> lsm_run cfg A' db'.
Proof. intros (db0 & Hn & Hr) Hs. exists db0. split; [done|]. eapply rtc_r; [exact Hr|exact Hs]. Qed.

Ltac computed := vm_compute; reflexivity.

Lemma ok_eq (r : io DB) : is_ok r = true -> r = Ok (ok r).
Proof. by destruct r. Qed.

Lemma flush_run A db : lsm_run cfg A db -> flushing db = None ->
  Forall (fun mt => fits (mt_content mt)) (immutable db) -> seqNum (finish (begin db)) < 2 ^ 63 ->
  lsm_run cfg A (finish (begin db)).
Proof.
  intros Hr Hf Hfit Hseq. unfold begin in *. destruct (flush_begin db) as [[mt d]|] eqn:Hb.
  - assert (flushing d = Some mt /\ fits (mt_content mt)) as [Hd Hm].
    { unfold flush_begin in Hb. destruct (immutable db); [done|]. injection Hb as <- <-.
      by apply Forall_cons in Hfit as [? _]. }
    unfold finish in *. rewrite Hd in *.
    eapply run_more; [eapply run_more; [exact Hr|by eapply step_flush_begin]|by apply step_flush_finish].
  - unfold finish. by rewrite Hf.
Qed.

Lemma put_run A db now k v : lsm_run cfg A db -> fresh_write A now k v -> is_ok (Put now [] k v db) = true ->
  lsm_run cfg (<[k := put_entry now k v]> A) (ok (Put now [] k v db)).
Proof. intros Hr Hf Hok. eapply run_more; [exact Hr|]. eapply step_put; [done|by apply ok_eq]. Qed.

Lemma delete_run A db now k : lsm_run cfg A db -> fresh_write A now k "" -> is_ok (Delete now [] k db) = true ->
  lsm_run cfg (<[k := delete_entry now k]> A) (ok (Delete now [] k db)).
Proof. intros Hr Hf Hok. eapply run_more; [exact Hr|]. eapply step_delete; [done|by apply ok_eq]. Qed.

Lemma compact_run A db level : lsm_run cfg A db -> compaction_safe level db -> snd (compactLevel level db) = None ->
  seqNum (fst (compactLevel level db)) < 2 ^ 63 -> lsm_run cfg A (fst (compactLevel level db)).
Proof.
  intros Hr Hs Hn Hq. eapply run_more; [exact Hr|]. eapply step_compact; [exact Hs| |exact Hq].
  rewrite <- Hn. apply surjective_pairing.
Qed.

Ltac put := apply put_run; [|compute_fact|computed].
Ltac flush := apply flush_run; [|computed|compute_fact|computed].
Ltac fill := unfold fill; flush; put; put.
Ltac compact tac := apply compact_run;
  [|eapply compaction_safe_intro; [computed..|intros t e Ht He Htomb; tac|compute_fact]|computed|computed].

Lemma run_start : lsm_run cfg ∅ db0.
Proof. exists db0. split; [computed|apply rtc_refl]. Qed.

(** Lookups can go back in time.  [AddTable] sorts the tables of level 0 by
    their least keys, and [Level.Get] asks them from the end: after two flushes
    a lookup answers with the value that was overwritten, while a range query
    answers with the new one. *)
Theorem level0_lookup_stale : exists A db, lsm_run cfg A db /\
  spec_get A "b" = Ok "2" /\ Get "b" db = Ok "1" /\ Range "b" "b" db = Ok [put_entry 4 "b" "2"].
Proof.
  exists (<["b" := put_entry 4 "b" "2"]> (<["a" := put_entry 3 "a" "1"]>
    (<["c" := put_entry 2 "c" "1"]> (<["b" := put_entry 1 "b" "1"]> ∅)))), stale.
  split; [unfold stale; fill; fill; apply run_start|]. split_and!; computed.
Qed.

(** Compaction can bring a deleted key back.  [compactLevel] looks for
    deeper tables in the range of the upper tables only, but drops the
    tombstones of the whole merged tables: a tombstone of the next level from
    outside that range goes while the value it hides stays on a deeper level. *)
Theorem compaction_resurrects : exists A db db', lsm_run cfg A db /\ spec_get A "z" = Err ErrKeyNotFound /\
  Get "z" db = Err ErrKeyNotFound /\ compactLevel 0 db = (db', None) /\
  Get "z" db' = Ok "1" /\ Range "z" "z" db' = Ok [put_entry 2 "z" "1"].
Proof.
  exists (<["b" := put_entry 6 "b" "3"]> (<["a" := put_entry 5 "a" "1"]> (<["z" := delete_entry 4 "z"]>
    (<["b" := put_entry 3 "b" "12"]> (<["z" := put_entry 2 "z" "1"]> (<["y" := put_entry 1 "y" "1"]> ∅)))))), before, after.
  split; [unfold before; fill; unfold deleted_z|split_and!; computed].
  compact ltac:(vm_compute in Ht; by apply elem_of_nil in Ht). flush.
  apply delete_run; [|compute_fact|computed]. put. unfold old_z.
  compact ltac:(vm_compute in Ht; by apply elem_of_nil in Ht).
  compact ltac:(vm_compute in Ht; by apply elem_of_nil in Ht). fill. apply run_start.
Qed.

(** A failed flush loses acknowledged writes.  [flushImmutable] prints the
    error of [flushMemTable] and drops the memtable all the same: when the
    directory cannot be written, a value that was readable is gone after the
    flush. *)
Theorem failed_flush_loses_writes : exists db,
  flushCh db = true /\ writable (disk db) = false /\ Get "a" db = Ok "1" /\
  Get "a" (flushLoop_step db) = Err ErrKeyNotFound.
Proof.
  exists ((ok (Put 2 [] "b" "2" (ok (Put 1 [] "a" "1" db0)))) <| disk := {| files := ∅; writable := false |} |>).
  split_and!; computed.
Qed.

(** A limit of no tables makes the compactor spin.  [validate] accepts a
    [LevelMaxFiles] entry of zero, and the loop over the empty level then never
    ends, whatever number of rounds it is given. *)
Theorem zero_limit_diverges : exists db, NewDB
    {| MemTableSize := 20; MaxLevel := 2; LevelMaxFiles := [0]; TargetFileSize := 40; DataDir := "" |}
    {| files := ∅; writable := true |} = Ok db /\ forall rounds, compact_loop rounds 0 db = None.
Proof.
  eexists. split; [computed|]. intros rounds.
  apply (compact_loop_diverges rounds 0 _ (NewLevel 0 0)); [reflexivity|by eexists|reflexivity|done].
Qed.

End trouble.
