(* ===== verification/Myers.v ===== *)
(** The edit scripts of diffpatch (diffpatch/myers.go, [myersDiff] and
    [backtrack]): the greedy algorithm over the array of furthest reaching
    points, the trace of its rounds and the walk back along it.  An index
    outside a slice is a panic, modelled as [None]. *)

From stdpp Require Import base tactics option numbers list strings.
From Stdlib Require Import ZArith Lia.
From S2P Require Import Prelude.

Module Myers.

Inductive editOp := opEqual | opDelete | opInsert.

Record editScript := { op : editOp; line : string }.

#[export] Instance editOp_eq_dec : EqDecision editOp.
Proof. solve_decision. Defined.

#[export] Instance editScript_eq_dec : EqDecision editScript.
Proof. solve_decision. Defined.

(** Slices indexed by a Go int. *)
Definition idx {A} (l : list A) (i : Z) : option A :=
  if i <? 0 then None else l !! Z.to_nat i.

Definition set_idx {A} (l : list A) (i : Z) (x : A) : option (list A) :=
  if (0 <=? i) && (i <? Z.of_nat (length l)) then Some (<[Z.to_nat i := x]> l) else None.

(** The inner loop [for x < n && y < m && a[x] == b[y]]. *)
Fixpoint snake (fuel : nat) (a b : list string) (x y : Z) : option (Z * Z) :=
  match fuel with
  | O => None
  | S fuel =>
      if (x <? Z.of_nat (length a)) && (y <? Z.of_nat (length b)) then
        ax ← idx a x;
        bY ← idx b y;
        if decide (ax = bY) then snake fuel a b (x + 1) (y + 1) else Some (x, y)
      else Some (x, y)
  end.

(** [k == -d || (k != d && v[offset+k-1] < v[offset+k+1])]: diagonal [k] is
    entered from above. *)
Definition goes_down (v : list Z) (offset k d : Z) : option bool :=
  if k =? - d then Some true
  else if k =? d then Some false
  else l ← idx v (offset + k - 1); r ← idx v (offset + k + 1); Some (l <? r).

(** One step of the loop over the diagonals: the new array, and whether the end
    of both texts is reached. *)
Definition extend (a b : list string) (offset d k : Z) (v : list Z) : option (list Z * bool) :=
  down ← goes_down v offset k d;
  x ← (if down : bool then idx v (offset + k + 1)
       else x ← idx v (offset + k - 1); Some (x + 1));
  '(x, y) ← snake (S (length a)) a b x (x - k);
  v ← set_idx v (offset + k) x;
  Some (v, (Z.of_nat (length a) <=? x) && (Z.of_nat (length b) <=? y)).

(** [for k := -d; k <= d; k += 2]. *)
Definition diagonals (d : Z) : list Z := (fun i => 2 * i - d) <$> seqZ 0 (d + 1).

Fixpoint round (a b : list string) (offset d : Z) (ks : list Z) (v : list Z) : option (list Z * bool) :=
  match ks with
  | [] => Some (v, false)
  | k :: ks =>
      '(v, found) ← extend a b offset d k v;
      if found : bool then Some (v, true) else round a b offset d ks v
  end.

(** The loop of [backtrack] that goes up a diagonal. *)
Fixpoint climb (fuel : nat) (a : list string) (x y prevX prevY : Z) (scripts : list editScript)
  : option (Z * Z * list editScript) :=
  match fuel with
  | O => None
  | S fuel =>
      if (prevX <? x) && (prevY <? y) then
        l ← idx a (x - 1);
        climb fuel a (x - 1) (y - 1) prevX prevY (scripts ++ [{| op := opEqual; line := l |}])
      else Some (x, y, scripts)
  end.

Fixpoint back_loop (trace : list (list Z)) (a b : list string) (offset : Z) (dd : nat) (x y : Z)
    (scripts : list editScript) : option (Z * Z * list editScript) :=
  match dd with
  | O => Some (x, y, scripts)
  | S dd' =>
      v ← trace !! dd;
      let k := x - y in
      down ← goes_down v offset k (Z.of_nat dd);
      let prevK := if down : bool then k + 1 else k - 1 in
      prevX ← idx v (offset + prevK);
      let prevY := prevX - prevK in
      '(x, y, scripts) ← climb (S (Z.to_nat x)) a x y prevX prevY scripts;
      if prevX <? x then
        l ← idx a (x - 1);
        back_loop trace a b offset dd' (x - 1) y (scripts ++ [{| op := opDelete; line := l |}])
      else if prevY <? y then
        l ← idx b (y - 1);
        back_loop trace a b offset dd' x (y - 1) (scripts ++ [{| op := opInsert; line := l |}])
      else back_loop trace a b offset dd' x y scripts
  end.

Definition backtrack (trace : list (list Z)) (a b : list string) (d : nat) (offset : Z)
  : option (list editScript) :=
  '(x, y, scripts) ← back_loop trace a b offset d (Z.of_nat (length a)) (Z.of_nat (length b)) [];
  '(_, _, scripts) ← climb (S (Z.to_nat x)) a x y 0 0 scripts;
  Some (reverse scripts).

(** [for d = 0; d <= max; d++]; [fuel] is the number of rounds left. *)
Fixpoint search (fuel : nat) (a b : list string) (offset : Z) (d : nat) (v : list Z)
    (trace : list (list Z)) : option (list editScript) :=
  match fuel with
  | O => Some []
  | S fuel =>
      let trace := trace ++ [v] in
      '(v, found) ← round a b offset (Z.of_nat d) (diagonals (Z.of_nat d)) v;
      if found : bool then backtrack trace a b d offset
      else search fuel a b offset (S d) v trace
  end.

Definition myersDiff (a b : list string) : option (list editScript) :=
  let n := length a in
  let m := length b in
  if decide (n = 0%nat /\ m = 0%nat) then Some []
  else if decide (n = 0%nat) then Some ((fun l => {| op := opInsert; line := l |}) <$> b)
  else if decide (m = 0%nat) then Some ((fun l => {| op := opDelete; line := l |}) <$> a)
  else
    let max := Z.of_nat (n + m) in
    v ← set_idx (replicate (Z.to_nat (2 * max + 1)) 0) (max + 1) 0;
    search (S (n + m)) a b max 0 v [].

Example myers_abc :
  myersDiff ["a"; "b"; "c"; "a"; "b"; "b"; "a"] ["c"; "b"; "a"; "b"; "a"; "c"] =
    Some [{| op := opDelete; line := "a" |}; {| op := opDelete; line := "b" |};
          {| op := opEqual; line := "c" |}; {| op := opInsert; line := "b" |};
          {| op := opEqual; line := "a" |}; {| op := opEqual; line := "b" |};
          {| op := opDelete; line := "b" |}; {| op := opEqual; line := "a" |};
          {| op := opInsert; line := "c" |}].
Proof. vm_compute. reflexivity. Qed.

(** ** What a script means *)

(** The text a script deletes from and the text it produces. *)
Definition old_side (s : list editScript) : list string :=
  omap (fun e => match op e with opInsert => None | _ => Some (line e) end) s.

Definition new_side (s : list editScript) : list string :=
  omap (fun e => match op e with opDelete => None | _ => Some (line e) end) s.

(** Lines deleted or inserted. *)
Definition edits (s : list editScript) : nat :=
  length (filter (fun e => op e <> opEqual) s).

Lemma old_side_app s t : old_side (s ++ t) = old_side s ++ old_side t.
Proof. apply omap_app. Qed.
Lemma new_side_app s t : new_side (s ++ t) = new_side s ++ new_side t.
Proof. apply omap_app. Qed.
Lemma edits_app s t : edits (s ++ t) = (edits s + edits t)%nat.
Proof. unfold edits. by rewrite filter_app, length_app. Qed.

End Myers.
