(* ===== verification/MyersProofs.v ===== *)
(** The greedy algorithm finds a shortest edit script.  [reach] is the furthest
    point of a diagonal that a number of edits can reach, as a function; the
    array of the program holds its values, the walk back along the trace spells
    out a script with that number of edits, and no script has fewer. *)

From stdpp Require Import base tactics option numbers list strings sets.
From Stdlib Require Import ZArith Lia.
From S2P Require Import Prelude Myers.

Import Myers.

(** ** Slices *)

Lemma idx_nat {A} (l : list A) (i : nat) : idx l (Z.of_nat i) = l !! i.
Proof. unfold idx. destruct (Z.ltb_spec (Z.of_nat i) 0); [lia|]. by rewrite Nat2Z.id. Qed.

Lemma idx_pos {A} (l : list A) i : 0 <= i -> idx l i = l !! Z.to_nat i.
Proof. intros. unfold idx. destruct (Z.ltb_spec i 0); [lia|done]. Qed.

Lemma set_idx_ok {A} (l : list A) i x :
  0 <= i < Z.of_nat (length l) -> set_idx l i x = Some (<[Z.to_nat i := x]> l).
Proof.
  intros. unfold set_idx.
  rewrite (proj2 (Z.leb_le 0 i)), (proj2 (Z.ltb_lt i _)) by lia. done.
Qed.

Lemma idx_set {A} (l : list A) i j x :
  0 <= i < Z.of_nat (length l) -> idx (<[Z.to_nat i := x]> l) j = if decide (i = j) then Some x else idx l j.
Proof.
  intros Hi. unfold idx. destruct (Z.ltb_spec j 0).
  - case_decide; [lia|done].
  - case_decide as E.
    + subst. rewrite list_lookup_insert_eq; [done|lia].
    + rewrite list_lookup_insert_ne; [done|lia].
Qed.

Lemma take_drop_app {A} (l : list A) s j : take s l ++ take j (drop s l) = take (s + j) l.
Proof. rewrite <- (take_drop s (take (s + j) l)), take_take, skipn_firstn_comm. do 2 f_equal; lia. Qed.

(** ** Common prefixes *)

Fixpoint lcp (a b : list string) : nat :=
  match a, b with
  | x :: a, y :: b => if decide (x = y) then S (lcp a b) else 0
  | _, _ => 0
  end.

Lemma lcp_take a b j : (j <= lcp a b)%nat -> take j a = take j b.
Proof.
  revert b j. induction a as [|x a IH]; intros [|y b] j; simpl; intros Hj; try by replace j with 0%nat by lia.
  case_decide; subst; [|by replace j with 0%nat by lia].
  destruct j as [|j]; [done|]. simpl. f_equal. apply IH. lia.
Qed.

Lemma lcp_bound a b : (lcp a b <= length a)%nat /\ (lcp a b <= length b)%nat.
Proof.
  revert b. induction a as [|x a IH]; intros [|y b]; simpl; try lia. case_decide; [|lia].
  specialize (IH b). lia.
Qed.

Lemma lcp_stops a b x : a !! lcp a b = Some x -> b !! lcp a b = Some x -> False.
Proof.
  revert b. induction a as [|y a IH]; intros [|z b]; simpl; try done.
  case_decide; simpl; [apply IH|]. congruence.
Qed.

Lemma lcp_drop a b x y :
  a !! x <> None -> b !! y <> None ->
  lcp (drop x a) (drop y b) = if decide (a !! x = b !! y) then S (lcp (drop (S x) a) (drop (S y) b)) else 0%nat.
Proof.
  destruct (a !! x) as [u|] eqn:Ha; [|done]. destruct (b !! y) as [w|] eqn:Hb; [|done]. intros _ _.
  rewrite (drop_S _ _ _ Ha), (drop_S _ _ _ Hb). simpl.
  repeat case_decide; congruence.
Qed.

(** ** The furthest reaching points *)

(** The diagonals of a round. *)
Definition diag (d : nat) (k : Z) : Prop := exists i, 0 <= i <= Z.of_nat d /\ k = 2 * i - Z.of_nat d.

(** Which neighbours of a diagonal the round before has reached. *)
Lemma diag_S d k : diag (S d) k ->
  (k = - Z.of_nat (S d) /\ diag d (k + 1)) \/ (k = Z.of_nat (S d) /\ diag d (k - 1)) \/
  (k <> - Z.of_nat (S d) /\ k <> Z.of_nat (S d) /\ diag d (k - 1) /\ diag d (k + 1)).
Proof.
  intros (i & Hi & Hk). destruct (Z.eq_dec i 0) as [->|]; [|destruct (Z.eq_dec i (Z.of_nat (S d))) as [->|]].
  - left. split; [lia|]. exists 0. lia.
  - right. left. split; [lia|]. exists (Z.of_nat d). lia.
  - right. right. split_and!; [lia|lia|exists (i - 1); lia|exists i; lia].
Qed.

Section reach.
Context (a b : list string).
Let n := Z.of_nat (length a).
Let m := Z.of_nat (length b).

(** Down diagonal [k] from [x] while the lines agree. *)
Definition slide (x k : Z) : Z :=
  x + Z.of_nat (lcp (drop (Z.to_nat x) a) (drop (Z.to_nat (x - k)) b)).

Definition enter (prev : Z -> Z) (d k : Z) : Z :=
  if (k =? - d) || (negb (k =? d) && (prev (k - 1) <? prev (k + 1))) then prev (k + 1)
  else prev (k - 1) + 1.

Fixpoint reach (d : nat) (k : Z) : Z :=
  slide (match d with O => 0 | S d' => enter (reach d') (Z.of_nat d) k end) k.

(** Where the last run of equal lines on the diagonal begins. *)
Definition start (d : nat) (k : Z) : Z :=
  match d with O => 0 | S d' => enter (reach d') (Z.of_nat d) k end.

Lemma reach_start d k : reach d k = slide (start d k) k.
Proof. by destruct d. Qed.

(** The two ways into a diagonal: the better one is taken. *)
Lemma start_cases d k : diag (S d) k ->
  (diag d (k + 1) /\ start (S d) k = reach d (k + 1) /\ enter (reach d) (Z.of_nat (S d)) k = reach d (k + 1)
    /\ (diag d (k - 1) -> reach d (k - 1) < reach d (k + 1))) \/
  (diag d (k - 1) /\ start (S d) k = reach d (k - 1) + 1
    /\ (diag d (k + 1) -> reach d (k + 1) <= reach d (k - 1))).
Proof.
  intros Hk. unfold start, enter. destruct (diag_S _ _ Hk) as [[E H1]|[[E H1]|(E1 & E2 & H1 & H2)]].
  - left. rewrite (proj2 (Z.eqb_eq _ _) E). simpl. split_and!; try done.
    intros (i & Hi & Hi'). lia.
  - right. rewrite (proj2 (Z.eqb_neq k (- _))) by lia. rewrite (proj2 (Z.eqb_eq _ _) E). simpl.
    split_and!; try done. intros (i & Hi & Hi'). lia.
  - rewrite (proj2 (Z.eqb_neq _ _) E1), (proj2 (Z.eqb_neq _ _) E2). simpl.
    destruct (Z.ltb_spec (reach d (k - 1)) (reach d (k + 1))); [left|right]; split_and!; auto; lia.
Qed.

Lemma slide_ge x k : x <= slide x k.
Proof. unfold slide. lia. Qed.

Lemma slide_bounds x k : 0 <= x -> 0 <= x - k -> slide x k <= Z.max x n /\ slide x k - k <= Z.max (x - k) m.
Proof.
  intros Hx Hy. unfold slide.
  destruct (lcp_bound (drop (Z.to_nat x) a) (drop (Z.to_nat (x - k)) b)) as [H1 H2].
  rewrite length_drop in H1, H2. lia.
Qed.

Lemma slide_stops x k l : 0 <= x -> 0 <= x - k ->
  idx a (slide x k) = Some l -> idx b (slide x k - k) = Some l -> False.
Proof.
  intros Hx Hy. pose proof (slide_ge x k). rewrite !idx_pos by lia. unfold slide.
  set (j := lcp _ _). replace (Z.to_nat (x + Z.of_nat j)) with (Z.to_nat x + j)%nat by lia.
  replace (Z.to_nat (x + Z.of_nat j - k)) with (Z.to_nat (x - k) + j)%nat by lia.
  rewrite <- !lookup_drop. apply lcp_stops.
Qed.

(** Coordinates are not negative, and every edit advances. *)
Lemma reach_low d k : diag d k ->
  0 <= start d k /\ 0 <= start d k - k /\ Z.of_nat d <= 2 * start d k - k.
Proof.
  revert k. induction d as [|d IH]; intros k Hk.
  - destruct Hk as (i & Hi & ->). simpl. lia.
  - assert (forall k, diag d k -> 0 <= reach d k /\ 0 <= reach d k - k /\ Z.of_nat d <= 2 * reach d k - k) as IH'.
    { intros k' Hk'. destruct (IH _ Hk') as (?&?&?). pose proof (slide_ge (start d k') k'). rewrite reach_start. lia. }
    destruct (start_cases _ _ Hk) as [(H1 & -> & _)|(H1 & -> & _)]; specialize (IH' _ H1); lia.
Qed.

Lemma reach_ge d k : start d k <= reach d k.
Proof. rewrite reach_start. apply slide_ge. Qed.

Lemma reach_bounds d k : diag d k ->
  start d k <= reach d k /\ reach d k <= Z.max (start d k) n
  /\ reach d k - k <= Z.max (start d k - k) m.
Proof.
  intros Hk. destruct (reach_low _ _ Hk) as (H0 & H1 & _).
  split; [apply reach_ge|]. rewrite reach_start. by apply slide_bounds.
Qed.

Lemma reach_from_above d k : diag (S d) k -> diag d (k + 1) -> reach d (k + 1) <= reach (S d) k.
Proof.
  intros Hk H1. pose proof (reach_ge (S d) k).
  destruct (start_cases _ _ Hk) as [(_ & E & _)|(_ & E & Hle)]; [lia|]. specialize (Hle H1). lia.
Qed.

Lemma reach_from_left d k : diag (S d) k -> diag d (k - 1) -> reach d (k - 1) + 1 <= reach (S d) k.
Proof.
  intros Hk H1. pose proof (reach_ge (S d) k).
  destruct (start_cases _ _ Hk) as [(_ & E & _ & Hlt)|(_ & E & _)]; [|lia]. specialize (Hlt H1). lia.
Qed.

(** A point beyond the end of a text was preceded by one at the end. *)
Lemma reach_beyond_a d k : diag d k -> n < reach d k ->
  exists e, (0 < e <= d)%nat /\ Z.of_nat e = reach d k - n
    /\ diag (d - e) (k - Z.of_nat e) /\ n <= reach (d - e) (k - Z.of_nat e).
Proof.
  revert k. induction d as [|d IH]; intros k Hk Hn.
  all: destruct (reach_bounds _ _ Hk) as (Hge & Hb & _).
  - simpl in *. subst n. lia.
  - assert (reach (S d) k = start (S d) k) as E by lia.
    destruct (start_cases _ _ Hk) as [(Hd & Es & _)|(Hd & Es & _)].
    + destruct (IH (k + 1) Hd ltac:(lia)) as (e & He & Ee & Hde & Hle). exists e.
      replace (S d - e)%nat with (S (d - e)) by lia.
      assert (diag (S (d - e)) (k - Z.of_nat e)) as Hk' by (destruct Hde as (j & ?); exists j; lia).
      split_and!; [lia|lia|lia|done|].
      etrans; [exact Hle|]. replace (k + 1 - Z.of_nat e) with (k - Z.of_nat e + 1) in * by lia.
      apply reach_from_above; done.
    + destruct (decide (reach d (k - 1) = n)) as [En|En].
      * exists 1%nat. replace (S d - 1)%nat with d by lia. change (Z.of_nat 1) with 1. split_and!; [lia|lia|lia|done|lia].
      * destruct (IH (k - 1) Hd ltac:(lia)) as (e & He & Ee & Hde & Hle). exists (S e).
        replace (S d - S e)%nat with (d - e)%nat by lia.
        replace (k - Z.of_nat (S e)) with (k - 1 - Z.of_nat e) by lia. split_and!; [lia|lia|lia|done|done].
Qed.

Lemma reach_beyond_b d k : diag d k -> m < reach d k - k ->
  exists e, (0 < e <= d)%nat /\ Z.of_nat e = reach d k - k - m
    /\ diag (d - e) (k + Z.of_nat e) /\ m <= reach (d - e) (k + Z.of_nat e) - (k + Z.of_nat e).
Proof.
  revert k. induction d as [|d IH]; intros k Hk Hn.
  all: destruct (reach_bounds _ _ Hk) as (Hge & _ & Hb).
  - destruct Hk as (i & Hi & ->). simpl in *. subst m. lia.
  - assert (reach (S d) k = start (S d) k) as E by lia.
    destruct (start_cases _ _ Hk) as [(Hd & Es & _)|(Hd & Es & _)].
    + destruct (decide (reach d (k + 1) - (k + 1) = m)) as [En|En].
      * exists 1%nat. replace (S d - 1)%nat with d by lia. change (Z.of_nat 1) with 1. split_and!; [lia|lia|lia|done|lia].
      * destruct (IH (k + 1) Hd ltac:(lia)) as (e & He & Ee & Hde & Hle). exists (S e).
        replace (S d - S e)%nat with (d - e)%nat by lia.
        replace (k + Z.of_nat (S e)) with (k + 1 + Z.of_nat e) by lia. split_and!; [lia|lia|lia|done|done].
    + destruct (IH (k - 1) Hd ltac:(lia)) as (e & He & Ee & Hde & Hle). exists e.
      replace (S d - e)%nat with (S (d - e)) by lia.
      assert (diag (S (d - e)) (k + Z.of_nat e)) as Hk' by (destruct Hde as (j & ?); exists (j + 1); lia).
      split_and!; [lia|lia|lia|done|].
      replace (k - 1 + Z.of_nat e) with (k + Z.of_nat e - 1) in * by lia.
      pose proof (reach_from_left _ _ Hk' Hde). lia.
Qed.

(** A round is over when both texts are used up. *)
Definition finished (d : nat) (k : Z) : Prop := diag d k /\ n <= reach d k /\ m <= reach d k - k.

(** The first point that ends both texts is their end exactly. *)
Lemma first_finish d k : finished d k -> (forall d' k', (d' < d)%nat -> ~ finished d' k') ->
  k = n - m /\ reach d k = n.
Proof.
  intros (Hk & Hx & Hy) Hfirst.
  destruct (decide (n < reach d k)) as [Hn|Hn].
  { destruct (reach_beyond_a _ _ Hk Hn) as (e & He & Ee & Hd & Hr).
    destruct (Hfirst (d - e)%nat (k - Z.of_nat e)); [lia|]. split_and!; [done..|lia]. }
  destruct (decide (m < reach d k - k)) as [Hm|Hm].
  { destruct (reach_beyond_b _ _ Hk Hm) as (e & He & Ee & Hd & Hr).
    destruct (Hfirst (d - e)%nat (k + Z.of_nat e)); [lia|]. split_and!; [done| |done]. lia. }
  lia.
Qed.

(** All texts are used up after as many edits as there are lines. *)
Lemma last_round_finishes : finished (length a + length b) (n - m).
Proof.
  assert (diag (length a + length b) (n - m)) as Hd. { exists n. subst n m. lia. }
  destruct (reach_low _ _ Hd) as (H1 & H2 & H3). pose proof (reach_ge (length a + length b) (n - m)).
  split_and!; [done|..]; subst n m; lia.
Qed.

(** No script gets further with as many edits. *)
Lemma reach_furthest s : forall x y : nat,
  old_side s = take x a -> new_side s = take y b -> (x <= length a)%nat -> (y <= length b)%nat ->
  diag (edits s) (Z.of_nat x - Z.of_nat y) /\ Z.of_nat x <= reach (edits s) (Z.of_nat x - Z.of_nat y).
Proof.
  induction s as [|[o l] s IH] using rev_ind; intros x y Ho Hn Hx Hy.
  - apply (f_equal length) in Ho, Hn. rewrite length_take in Ho, Hn. simpl in Ho, Hn.
    replace x with 0%nat by lia. replace y with 0%nat by lia. change (edits []) with 0%nat.
    split; [exists 0; lia|]. pose proof (reach_ge 0 (Z.of_nat 0 - Z.of_nat 0)). simpl in *. lia.
  - rewrite old_side_app in Ho. rewrite new_side_app in Hn. rewrite edits_app.
    assert (forall (t u : list string) z w, t ++ [z] = take w u -> (w <= length u)%nat ->
      exists w', w = S w' /\ t = take w' u /\ u !! w' = Some z) as Hsnoc.
    { intros t u z w E Hw. destruct w as [|w]; [by destruct t|]. exists w.
      assert (is_Some (u !! w)) as [z' Hz] by (apply lookup_lt_is_Some; lia).
      rewrite (take_S_r _ _ _ Hz) in E. apply app_inj_tail in E as [-> ->]. done. }
    destruct o; simpl in Ho, Hn; rewrite ?app_nil_r in *.
    + apply Hsnoc in Ho as (x' & -> & Ho & Ha); [|done]. apply Hsnoc in Hn as (y' & -> & Hn & Hb); [|done].
      change (edits [{| op := opEqual; line := l |}]) with 0%nat. rewrite !Nat.add_0_r.
      replace (Z.of_nat (S x') - Z.of_nat (S y')) with (Z.of_nat x' - Z.of_nat y') by lia.
      destruct (IH x' y') as [Hd Hr]; [done|done|lia|lia|]. split; [done|].
      destruct (decide (reach (edits s) (Z.of_nat x' - Z.of_nat y') = Z.of_nat x')) as [E|E]; [|lia].
      destruct (reach_low _ _ Hd) as (H1 & H2 & _). rewrite reach_start in E.
      exfalso. apply (slide_stops _ _ l H1 H2); rewrite E.
      * by rewrite idx_nat.
      * replace (Z.of_nat x' - (Z.of_nat x' - Z.of_nat y')) with (Z.of_nat y') by lia. by rewrite idx_nat.
    + apply Hsnoc in Ho as (x' & -> & Ho & Ha); [|done].
      destruct (IH x' y) as [Hd Hr]; [done|done|lia|lia|].
      change (edits [{| op := opDelete; line := l |}]) with 1%nat. rewrite Nat.add_1_r.
      assert (diag (S (edits s)) (Z.of_nat (S x') - Z.of_nat y)) as Hd'.
      { destruct Hd as (i & Hi & Hd). exists (i + 1). lia. }
      split; [done|]. pose proof (reach_from_left _ _ Hd') as Hl.
      replace (Z.of_nat (S x') - Z.of_nat y - 1) with (Z.of_nat x' - Z.of_nat y) in Hl by lia.
      etrans; [|exact (Hl Hd)]. lia.
    + apply Hsnoc in Hn as (y' & -> & Hn & Hb); [|done].
      destruct (IH x y') as [Hd Hr]; [done|done|lia|lia|].
      change (edits [{| op := opInsert; line := l |}]) with 1%nat. rewrite Nat.add_1_r.
      assert (diag (S (edits s)) (Z.of_nat x - Z.of_nat (S y'))) as Hd'.
      { destruct Hd as (i & Hi & Hd). exists i. lia. }
      split; [done|]. pose proof (reach_from_above _ _ Hd') as Hl.
      replace (Z.of_nat x - Z.of_nat (S y') + 1) with (Z.of_nat x - Z.of_nat y') in Hl by lia.
      etrans; [|exact (Hl Hd)]. lia.
Qed.

End reach.

(** ** The program computes [reach] *)

Lemma snake_slide fuel a b x k : 0 <= x -> 0 <= x - k -> (length a - Z.to_nat x < fuel)%nat ->
  snake fuel a b x (x - k) = Some (slide a b x k, slide a b x k - k).
Proof.
  revert x. induction fuel as [|fuel IH]; intros x Hx Hy Hf; [lia|]. simpl.
  destruct (Z.ltb_spec x (Z.of_nat (length a))); simpl; [destruct (Z.ltb_spec (x - k) (Z.of_nat (length b)))|].
  - unfold slide. rewrite !idx_pos by lia.
    destruct (lookup_lt_is_Some_2 a (Z.to_nat x)) as [u Hu]; [lia|].
    destruct (lookup_lt_is_Some_2 b (Z.to_nat (x - k))) as [w Hw]; [lia|].
    rewrite lcp_drop by (rewrite ?Hu, ?Hw; done). rewrite Hu, Hw. simpl.
    destruct (decide (u = w)) as [->|E]; [|rewrite decide_False by congruence; do 2 f_equal; lia].
    rewrite decide_True by done. replace (x - k + 1) with (x + 1 - k) by lia.
    rewrite IH by lia. unfold slide. replace (Z.to_nat (x + 1)) with (S (Z.to_nat x)) by lia.
    replace (Z.to_nat (x + 1 - k)) with (S (Z.to_nat (x - k))) by lia. do 2 f_equal; lia.
  - unfold slide. rewrite (drop_ge b) by lia. destruct (drop _ a); simpl; do 2 f_equal; lia.
  - unfold slide. rewrite (drop_ge a) by lia. simpl. do 2 f_equal; lia.
Qed.

Section rounds.
Context (a b : list string).
Let N := (length a + length b)%nat.
Let offset := Z.of_nat N.

(** The array after round [d]. *)
Definition holds (v : list Z) (d : nat) : Prop :=
  forall k, diag d k -> idx v (offset + k) = Some (reach a b d k).

(** The array before round [d]. *)
Definition ready (v : list Z) (d : nat) : Prop :=
  length v = (2 * N + 1)%nat /\ match d with O => idx v (offset + 1) = Some 0 | S d' => holds v d' end.

Lemma goes_down_reach v d k : holds v d -> diag (S d) k ->
  goes_down v offset k (Z.of_nat (S d)) =
    Some ((k =? - Z.of_nat (S d)) || (negb (k =? Z.of_nat (S d)) && (reach a b d (k - 1) <? reach a b d (k + 1)))).
Proof.
  intros Hv Hk. unfold goes_down. destruct (diag_S _ _ Hk) as [[E H1]|[[E H1]|(E1 & E2 & H1 & H2)]].
  - by rewrite (proj2 (Z.eqb_eq _ _) E).
  - rewrite (proj2 (Z.eqb_neq k (- _))) by lia. by rewrite (proj2 (Z.eqb_eq _ _) E).
  - rewrite (proj2 (Z.eqb_neq _ _) E1), (proj2 (Z.eqb_neq _ _) E2). simpl.
    replace (offset + k - 1) with (offset + (k - 1)) by lia.
    replace (offset + k + 1) with (offset + (k + 1)) by lia.
    by rewrite (Hv _ H1), (Hv _ H2).
Qed.

Lemma enter_reach v d k : ready v d -> diag d k ->
  (down ← goes_down v offset k (Z.of_nat d);
   if down : bool then idx v (offset + k + 1) else x ← idx v (offset + k - 1); Some (x + 1)) = Some (start a b d k).
Proof.
  intros [Hl Hv] Hk. destruct d as [|d].
  - destruct Hk as (i & Hi & ->). replace (2 * i - Z.of_nat 0) with 0 by lia. unfold goes_down.
    change (0 =? - Z.of_nat 0) with true. cbn [mbind option_bind]. rewrite Z.add_0_r. exact Hv.
  - rewrite (goes_down_reach v) by done. cbn [mbind option_bind].
    replace (offset + k - 1) with (offset + (k - 1)) by lia.
    replace (offset + k + 1) with (offset + (k + 1)) by lia.
    unfold start, enter. destruct (diag_S _ _ Hk) as [[E H1]|[[E H1]|(E1 & E2 & H1 & H2)]].
    + rewrite (proj2 (Z.eqb_eq _ _) E). simpl. by apply Hv.
    + rewrite (proj2 (Z.eqb_neq k (- _))), (proj2 (Z.eqb_eq k _) E) by lia. simpl. by rewrite (Hv _ H1).
    + destruct (_ || _); [by apply Hv|]. by rewrite (Hv _ H1).
Qed.

Lemma diag_range d k : diag d k -> (d <= N)%nat -> 0 <= offset + k < Z.of_nat (2 * N + 1).
Proof. intros (i & Hi & ->) Hd. subst offset. lia. Qed.

Definition done_at (d : nat) (k : Z) : bool :=
  (Z.of_nat (length a) <=? reach a b d k) && (Z.of_nat (length b) <=? reach a b d k - k).

Lemma done_at_finished d k : diag d k -> done_at d k = true <-> finished a b d k.
Proof.
  intros Hk. unfold done_at, finished. rewrite andb_true_iff, !Z.leb_le. tauto.
Qed.

Lemma extend_reach v d k : ready v d -> diag d k -> (d <= N)%nat ->
  extend a b offset (Z.of_nat d) k v = Some (<[Z.to_nat (offset + k) := reach a b d k]> v, done_at d k).
Proof.
  intros Hv Hk Hd. pose proof (enter_reach _ _ _ Hv Hk) as He.
  unfold extend. destruct (goes_down v offset k (Z.of_nat d)) as [down|]; [|done].
  cbn [mbind option_bind] in He |- *. rewrite He. cbn [mbind option_bind].
  destruct (reach_low a b _ _ Hk) as (H1 & H2 & _).
  rewrite snake_slide by lia. cbn [mbind option_bind].
  rewrite <- reach_start, set_idx_ok; [done|]. destruct Hv as [-> _]. by apply (diag_range d).
Qed.

(** Writing a diagonal of round [d] does not disturb the round before. *)
Lemma ready_insert v d k x : ready v d -> diag d k -> (d <= N)%nat ->
  ready (<[Z.to_nat (offset + k) := x]> v) d.
Proof.
  intros [Hl Hv] Hk Hd. pose proof (diag_range _ _ Hk Hd). split; [by rewrite length_insert|].
  destruct d as [|d].
  - destruct Hk as (i & Hi & ->). rewrite idx_set by lia. rewrite decide_False by lia. done.
  - intros k' Hk'. rewrite idx_set by lia. rewrite decide_False; [by apply Hv|].
    intros E. destruct Hk as (i & Hi & ->), Hk' as (j & Hj & ->). lia.
Qed.

(** A round: either every diagonal is updated and none is at the end, or the
    round stops at one that is. *)
Lemma round_reach d js : (d <= N)%nat -> forall v,
  (forall i, i ∈ js -> 0 <= i <= Z.of_nat d) -> NoDup js ->
  ready v d ->
  (forall i, 0 <= i <= Z.of_nat d -> i ∉ js -> idx v (offset + (2 * i - Z.of_nat d)) = Some (reach a b d (2 * i - Z.of_nat d))) ->
  exists v' found,
    round a b offset (Z.of_nat d) ((fun i => 2 * i - Z.of_nat d) <$> js) v = Some (v', found) /\
    if found then exists k, finished a b d k
    else ready v' (S d) /\ forall i, i ∈ js -> ~ finished a b d (2 * i - Z.of_nat d).
Proof.
  intros Hd. induction js as [|i js IH]; intros v His Hnd Hv Hrest; simpl.
  - exists v, false. split; [done|]. split; [|set_solver]. destruct Hv as [Hl _]. split; [done|].
    intros k (i & Hi & ->). apply Hrest; [done|set_solver].
  - assert (diag d (2 * i - Z.of_nat d)) as Hk by (exists i; split; [apply His; set_solver|done]).
    rewrite extend_reach by done. cbn [mbind option_bind].
    destruct (done_at d (2 * i - Z.of_nat d)) eqn:Ef.
    + exists (<[Z.to_nat (offset + (2 * i - Z.of_nat d)) := reach a b d (2 * i - Z.of_nat d)]> v), true.
      split; [done|]. exists (2 * i - Z.of_nat d). by apply done_at_finished.
    + apply NoDup_cons in Hnd as [Hi Hnd].
      destruct (IH (<[Z.to_nat (offset + (2 * i - Z.of_nat d)) := reach a b d (2 * i - Z.of_nat d)]> v)) as (v' & found & E & Hf).
      * set_solver.
      * done.
      * by apply ready_insert.
      * intros j Hj Hjs. pose proof (diag_range _ _ Hk Hd). destruct Hv as [Hl _].
        rewrite idx_set by lia. case_decide as Eij.
        { replace j with i by lia. done. }
        apply Hrest; [done|]. intros [->|?]%elem_of_cons; done.
      * exists v', found. split; [exact E|]. destruct found; [done|]. destruct Hf as [Hr Hf]. split; [done|].
        intros j [->|Hj]%elem_of_cons; [|by apply Hf]. rewrite <- done_at_finished by done. by rewrite Ef.
Qed.

Lemma round_spec v d : (d <= N)%nat -> ready v d ->
  exists v' found, round a b offset (Z.of_nat d) (diagonals (Z.of_nat d)) v = Some (v', found) /\
    if found then exists k, finished a b d k
    else ready v' (S d) /\ forall k, ~ finished a b d k.
Proof.
  intros Hd Hv. destruct (round_reach d (seqZ 0 (Z.of_nat d + 1)) Hd v) as (v' & found & E & Hf).
  - intros i Hi%elem_of_seqZ. lia.
  - apply NoDup_seqZ.
  - done.
  - intros i Hi Hn. destruct Hn. apply elem_of_seqZ. lia.
  - exists v', found. split; [exact E|]. destruct found; [done|]. destruct Hf as [Hr Hf]. split; [done|].
    intros k Hk. pose proof Hk as ((i & Hi & ->) & _). apply (Hf i); [|done]. apply elem_of_seqZ. lia.
Qed.

(** ** The walk back *)

Abbreviation equals := (fmap (fun l => {| op := opEqual; line := l |})).

Lemma old_side_equals l : old_side (equals l) = l.
Proof. induction l as [|x l IH]; [done|]. simpl. by f_equal. Qed.
Lemma new_side_equals l : new_side (equals l) = l.
Proof. induction l as [|x l IH]; [done|]. simpl. by f_equal. Qed.
Lemma edits_equals l : edits (equals l) = 0%nat.
Proof. unfold edits. rewrite list_filter_none; [done|]. apply Forall_fmap, Forall_forall. intros x _ H. by apply H. Qed.

(** A climb of [j] lines that ends at [(s, t)]. *)
Lemma climb_spec j : forall fuel s t px py acc,
  0 <= s -> s + Z.of_nat j <= Z.of_nat (length a) -> (j < fuel)%nat ->
  px <= s -> py <= t -> px = s \/ py = t ->
  climb fuel a (s + Z.of_nat j) (t + Z.of_nat j) px py acc =
    Some (s, t, acc ++ reverse (equals (take j (drop (Z.to_nat s) a)))).
Proof.
  induction j as [|j IH]; intros [|fuel] s t px py acc Hs Hj Hf Hx Hy Hstop; try lia; simpl climb.
  - rewrite !Z.add_0_r. replace ((px <? s) && (py <? t)) with false
      by (destruct (Z.ltb_spec px s), (Z.ltb_spec py t); (done || lia)).
    by rewrite app_nil_r.
  - rewrite (proj2 (Z.ltb_lt px _)), (proj2 (Z.ltb_lt py _)) by lia. cbn [andb].
    replace (s + Z.of_nat (S j) - 1) with (s + Z.of_nat j) by lia.
    replace (t + Z.of_nat (S j) - 1) with (t + Z.of_nat j) by lia.
    rewrite idx_pos by lia. destruct (lookup_lt_is_Some_2 a (Z.to_nat (s + Z.of_nat j))) as [l Hl]; [lia|].
    rewrite Hl. cbn [mbind option_bind]. rewrite IH by lia. do 2 f_equal.
    rewrite (take_S_r _ _ l); [|rewrite lookup_drop, <- Hl; f_equal; lia].
    rewrite fmap_app, reverse_app. simpl. by rewrite <- app_assoc.
Qed.

Lemma back_step v d k : holds v d -> diag (S d) k ->
  exists down, goes_down v offset k (Z.of_nat (S d)) = Some down /\
    if down : bool then diag d (k + 1) /\ start a b (S d) k = reach a b d (k + 1)
    else diag d (k - 1) /\ start a b (S d) k = reach a b d (k - 1) + 1.
Proof.
  intros Hv Hk. rewrite (goes_down_reach v) by done. eexists. split; [reflexivity|].
  unfold start, enter. destruct (diag_S _ _ Hk) as [[E H1]|[[E H1]|(E1 & E2 & H1 & H2)]].
  - by rewrite (proj2 (Z.eqb_eq _ _) E).
  - rewrite (proj2 (Z.eqb_neq k (- _))), (proj2 (Z.eqb_eq k _) E) by lia. done.
  - by destruct (_ || _).
Qed.

Lemma slide_same d k x : diag d k -> reach a b d k = Z.of_nat x ->
  exists s j : nat, start a b d k = Z.of_nat s /\ (s + j)%nat = x /\ 0 <= Z.of_nat s - k /\
    take j (drop s a) = take j (drop (Z.to_nat (Z.of_nat s - k)) b).
Proof.
  intros Hk Hx. destruct (reach_low a b _ _ Hk) as (H1 & H2 & _). rewrite reach_start in Hx. unfold slide in Hx.
  set (j := lcp _ _) in Hx. exists (Z.to_nat (start a b d k)), j.
  rewrite Z2Nat.id by lia. split_and!; [done|lia|done|]. apply lcp_take. done.
Qed.

(** A script to [(s, t)] continued by a run of [j] equal lines. *)
Lemma script_run sc s t j :
  old_side sc = take s a -> new_side sc = take t b -> take j (drop s a) = take j (drop t b) ->
  old_side (sc ++ equals (take j (drop s a))) = take (s + j) a /\
  new_side (sc ++ equals (take j (drop s a))) = take (t + j) b /\
  edits (sc ++ equals (take j (drop s a))) = edits sc.
Proof.
  intros Ho Hn Hsame. rewrite old_side_app, new_side_app, edits_app, old_side_equals, new_side_equals, edits_equals.
  rewrite Ho, Hn. split_and!; [apply take_drop_app|rewrite Hsame; apply take_drop_app|lia].
Qed.

(** A script from the point where a walk stops to the start of the run before. *)
Lemma back_script trace d : forall (x y : nat) acc,
  (forall i, (i < d)%nat -> exists v, trace !! S i = Some v /\ holds v i) ->
  diag d (Z.of_nat x - Z.of_nat y) -> reach a b d (Z.of_nat x - Z.of_nat y) = Z.of_nat x ->
  (x <= length a)%nat -> (y <= length b)%nat ->
  exists s, ('(x, y, scripts) ← back_loop trace a b offset d (Z.of_nat x) (Z.of_nat y) acc;
             '(_, _, scripts) ← climb (S (Z.to_nat x)) a x y 0 0 scripts; Some scripts) = Some (acc ++ reverse s)
    /\ old_side s = take x a /\ new_side s = take y b /\ edits s = d.
Proof.
  induction d as [|d IH]; intros x y acc Ht Hk Hr Hx Hy;
    destruct (slide_same _ _ _ Hk Hr) as (s & j & Es & <- & Hsk & Hsame).
  - assert (s = 0 /\ y = j)%nat as [-> ->] by (destruct Hk as (i & Hi & Hk); simpl in Es; lia).
    exists (equals (take j a)). cbn [back_loop mbind option_bind].
    replace (Z.of_nat (0 + j)) with (0 + Z.of_nat j) by lia. replace (Z.of_nat j) with (0 + Z.of_nat j) at 3 by lia.
    rewrite climb_spec by lia. cbn [mbind option_bind].
    rewrite old_side_equals, new_side_equals, edits_equals. split_and!; [done|done| |done].
    rewrite !drop_0 in Hsame. replace (Z.to_nat _) with 0%nat in Hsame by lia. by rewrite drop_0 in Hsame.
  - set (k := Z.of_nat (s + j) - Z.of_nat y) in *. set (t := Z.to_nat (Z.of_nat s - k)) in *.
    assert ((y = t + j)%nat /\ Z.of_nat t = Z.of_nat s - k) as [Ey Et] by lia. clearbody t.
    destruct (Ht d ltac:(lia)) as (v & Htr & Hv). destruct (back_step v d k Hv Hk) as (down & Hdown & Hcase).
    cbn [back_loop]. rewrite Htr. cbn [mbind option_bind]. fold k. rewrite Hdown. cbn [mbind option_bind].
    replace (Z.of_nat (s + j)) with (Z.of_nat s + Z.of_nat j) by lia.
    replace (Z.of_nat y) with (Z.of_nat t + Z.of_nat j) by lia.
    destruct down; destruct Hcase as [Hd' Es'].
    + rewrite (Hv _ Hd'). cbn [mbind option_bind]. rewrite climb_spec by lia. cbn [mbind option_bind].
      rewrite (proj2 (Z.ltb_ge _ _)) by lia. rewrite (proj2 (Z.ltb_lt _ _)) by lia.
      destruct t as [|t]; [destruct (reach_low a b _ _ Hd'); pose proof (reach_ge a b d (k + 1)); lia|]. replace (Z.of_nat (S t) - 1) with (Z.of_nat t) by lia. rewrite idx_nat.
      destruct (lookup_lt_is_Some_2 b t) as [l Hl]; [lia|]. rewrite Hl. cbn [mbind option_bind].
      destruct (IH s t ((acc ++ reverse (equals (take j (drop (Z.to_nat (Z.of_nat s)) a)))) ++ [{| op := opInsert; line := l |}]))
        as (sc & E & Ho & Hn & He); [intros; apply Ht; lia| | |lia|lia|].
      { replace (Z.of_nat s - Z.of_nat t) with (k + 1) by lia. done. }
      { replace (Z.of_nat s - Z.of_nat t) with (k + 1) by lia. lia. }
      rewrite E. exists ((sc ++ [{| op := opInsert; line := l |}]) ++ equals (take j (drop s a))).
      rewrite Nat2Z.id, reverse_app, reverse_app, !app_assoc. split; [done|]. rewrite Ey.
      destruct (script_run (sc ++ [{| op := opInsert; line := l |}]) s (S t) j) as (-> & -> & ->); [..|done|].
      { by rewrite old_side_app, app_nil_r. }
      { rewrite new_side_app, Hn. symmetry. by apply take_S_r. }
      split_and!; [done..|]. rewrite edits_app. change (edits [_]) with 1%nat. lia.
    + rewrite (Hv _ Hd'). cbn [mbind option_bind]. rewrite climb_spec by lia. cbn [mbind option_bind].
      rewrite (proj2 (Z.ltb_lt _ _)) by lia.
      destruct s as [|s]; [destruct (reach_low a b _ _ Hd'); pose proof (reach_ge a b d (k - 1)); lia|].
      replace (Z.of_nat (S s) - 1) with (Z.of_nat s) by lia. rewrite idx_nat.
      destruct (lookup_lt_is_Some_2 a s) as [l Hl]; [lia|]. rewrite Hl. cbn [mbind option_bind].
      destruct (IH s t ((acc ++ reverse (equals (take j (drop (Z.to_nat (Z.of_nat (S s))) a)))) ++ [{| op := opDelete; line := l |}]))
        as (sc & E & Ho & Hn & He); [intros; apply Ht; lia| | |lia|lia|].
      { replace (Z.of_nat s - Z.of_nat t) with (k - 1) by lia. done. }
      { replace (Z.of_nat s - Z.of_nat t) with (k - 1) by lia. lia. }
      rewrite E. exists ((sc ++ [{| op := opDelete; line := l |}]) ++ equals (take j (drop (S s) a))).
      rewrite Nat2Z.id, reverse_app, reverse_app, !app_assoc. split; [done|]. rewrite Ey.
      destruct (script_run (sc ++ [{| op := opDelete; line := l |}]) (S s) t j) as (-> & -> & ->); [..|done|].
      { rewrite old_side_app, Ho. symmetry. by apply take_S_r. }
      { by rewrite new_side_app, app_nil_r. }
      split_and!; [done..|]. rewrite edits_app. change (edits [_]) with 1%nat. lia.
Qed.

End rounds.

(** ** Shortest scripts *)

(** [s] turns [a] into [b] with the fewest deleted and inserted lines. *)
Definition shortest_script (a b : list string) (s : list editScript) : Prop :=
  old_side s = a /\ new_side s = b /\
  forall s', old_side s' = a -> new_side s' = b -> (edits s <= edits s')%nat.

Lemma finished_script a b d s :
  (forall d' k, (d' < d)%nat -> ~ finished a b d' k) ->
  old_side s = a -> new_side s = b -> edits s = d -> shortest_script a b s.
Proof.
  intros Hfirst Ho Hn He. split_and!; [done..|]. intros s' Ho' Hn'.
  destruct (decide (edits s' < edits s)%nat) as [Hlt|]; [|lia]. exfalso.
  destruct (reach_furthest a b s' (length a) (length b)) as [Hd Hr]; [by rewrite firstn_all..|lia|lia|].
  apply (Hfirst (edits s') (Z.of_nat (length a) - Z.of_nat (length b))); [lia|]. split_and!; [done|lia..].
Qed.

Lemma search_spec a b fuel : forall d v trace,
  (fuel + d = S (length a + length b))%nat -> length trace = d ->
  ready a b v d -> (forall i v, trace !! i = Some v -> ready a b v i) ->
  (forall d' k, (d' < d)%nat -> ~ finished a b d' k) ->
  exists s, search fuel a b (Z.of_nat (length a + length b)) d v trace = Some s /\ shortest_script a b s.
Proof.
  induction fuel as [|fuel IH]; intros d v trace Hf Hl Hv Ht Hfirst.
  { destruct (Hfirst (length a + length b)%nat (Z.of_nat (length a) - Z.of_nat (length b))); [lia|].
    apply last_round_finishes. }
  assert (forall i w, (trace ++ [v]) !! i = Some w -> ready a b w i) as Ht'.
  { intros i w [Hi|[Hge Hi]]%lookup_app_Some; [by apply Ht|].
    apply list_lookup_singleton_Some in Hi as [Hi <-]. by replace i with d by lia. }
  cbn [search]. destruct (round_spec a b v d ltac:(lia) Hv) as (v' & found & E & Hr). rewrite E.
  cbn [mbind option_bind]. destruct found.
  - destruct Hr as (k & Hk). destruct (first_finish _ _ _ _ Hk Hfirst) as [-> Hx]. destruct Hk as [Hd _].
    destruct (back_script a b (trace ++ [v]) d (length a) (length b) []) as (s & Es & Ho & Hn & He); try done.
    + intros i Hi. destruct (lookup_lt_is_Some_2 (trace ++ [v]) (S i)) as [w Hw]; [rewrite length_app; simpl; lia|].
      exists w. split; [done|]. by destruct (Ht' _ _ Hw).
    + unfold backtrack. destruct (back_loop _ _ _ _ _ _ _ _) as [[[x y] sc]|]; [|done]. cbn [mbind option_bind] in *.
      destruct (climb _ _ _ _ _ _ _) as [[[x' y'] sc']|]; [|done]. cbn [mbind option_bind] in *. simplify_eq.
      exists s. rewrite app_nil_l, reverse_involutive. split; [done|].
      rewrite firstn_all in Ho, Hn. by eapply finished_script; [exact Hfirst|..].
  - destruct Hr as [Hv' Hno]. apply IH; [lia|rewrite length_app; simpl; lia|done|done|].
    intros d' k Hd'. destruct (decide (d' = d)) as [->|]; [apply Hno|apply Hfirst; lia].
Qed.

Lemma initial_ready a b v :
  set_idx (replicate (Z.to_nat (2 * Z.of_nat (length a + length b) + 1)) 0) (Z.of_nat (length a + length b) + 1) 0 = Some v ->
  ready a b v 0.
Proof.
  unfold set_idx. rewrite length_replicate. case_match; [|done]. intros [= <-]. bools. split.
  - rewrite length_insert, length_replicate. lia.
  - rewrite idx_set; [by rewrite decide_True|]. rewrite length_replicate. lia.
Qed.

Lemma side_lengths s : (length (old_side s) <= length (new_side s) + edits s)%nat
  /\ (length (new_side s) <= length (old_side s) + edits s)%nat.
Proof.
  induction s as [|[o l] s IH]; [simpl; lia|]. change (?x :: ?s) with ([x] ++ s).
  rewrite old_side_app, new_side_app, edits_app, !length_app.
  destruct o; [change (edits [_]) with 0%nat|change (edits [_]) with 1%nat|change (edits [_]) with 1%nat]; simpl; lia.
Qed.

Lemma inserts_shortest b : shortest_script [] b ((fun l => {| op := opInsert; line := l |}) <$> b).
Proof.
  split_and!.
  - induction b; [done|]. simpl. done.
  - induction b as [|x b IH]; [done|]. simpl. by f_equal.
  - intros s Ho Hn. destruct (side_lengths s) as [_ Hl]. rewrite Ho, Hn in Hl. simpl in Hl.
    etrans; [|exact Hl]. unfold edits. rewrite length_filter. by rewrite length_fmap.
Qed.

Lemma deletes_shortest a : shortest_script a [] ((fun l => {| op := opDelete; line := l |}) <$> a).
Proof.
  split_and!.
  - induction a as [|x a IH]; [done|]. simpl. by f_equal.
  - induction a; [done|]. simpl. done.
  - intros s Ho Hn. destruct (side_lengths s) as [Hl _]. rewrite Ho, Hn in Hl. simpl in Hl.
    etrans; [|exact Hl]. unfold edits. rewrite length_filter. by rewrite length_fmap.
Qed.

(** A script is found for every two texts. *)
Lemma myersDiff_total a b : exists s, myersDiff a b = Some s /\ shortest_script a b s.
Proof.
  unfold myersDiff. case_decide as H0; [|case_decide as Ha; [|case_decide as Hb]].
  - destruct H0 as [Ha%nil_length_inv Hb%nil_length_inv]. subst. exists []. split; [done|]. apply (inserts_shortest []).
  - apply nil_length_inv in Ha as ->. eexists. split; [done|apply inserts_shortest].
  - apply nil_length_inv in Hb as ->. eexists. split; [done|apply deletes_shortest].
  - destruct (set_idx _ _ _) as [v|] eqn:E.
    + cbn [mbind option_bind]. apply search_spec; [lia|done|by apply initial_ready|done|lia].
    + exfalso. unfold set_idx in E. rewrite length_replicate in E. case_match; [done|].
      apply andb_false_iff in H as [H|H]; bools; lia.
Qed.

Lemma myersDiff_script a b : exists s, myersDiff a b = Some s /\ old_side s = a /\ new_side s = b.
Proof. destruct (myersDiff_total a b) as (s & E & Ho & Hn & _). by exists s. Qed.

(** C10: [myersDiff] returns for every two texts, without panicking, and what it
    returns is a shortest edit script: its deleted and kept lines are the old
    text, its inserted and kept lines the new one, and no script between the
    two texts deletes and inserts fewer lines. *)
Theorem myersDiff_shortest a b :
  exists s, myersDiff a b = Some s /\ old_side s = a /\ new_side s = b /\
    forall s', old_side s' = a -> new_side s' = b -> (edits s <= edits s')%nat.
Proof. destruct (myersDiff_total a b) as (s & E & Hs). exists s. split; [exact E|exact Hs]. Qed.
