(* ===== verification/Diff.v ===== *)
(** Line diffs and their application (diffpatch/diffpatch.go, [buildHunks] of
    diffpatch/myers.go, diffpatch/apply.go): splitting texts into lines, grouping
    an edit script into hunks with three lines of context, applying hunks. *)

From stdpp Require Import base tactics option numbers list strings.
From Stdlib Require Import ZArith Lia Ascii.
From S2P Require Import Prelude GoStrings Myers.

Import Myers.

Module Diff.

(** The sentinel errors, and a runtime panic. *)
Inductive Error :=
| ErrEmptyInput
| ErrInvalidPatch
| ErrPatchConflict
| ErrMergeConflict
| Panic.

Definition or_panic {A} (o : option A) : result Error A :=
  match o with Some x => Ok x | None => Err Panic end.

Inductive LineType := LineEqual | LineDelete | LineInsert.

#[export] Instance LineType_eq_dec : EqDecision LineType.
Proof. solve_decision. Defined.

Record Line := { Content : string; Type_ : LineType; OldLineNo : Z; NewLineNo : Z }.

#[export] Instance Line_eq_dec : EqDecision Line.
Proof. solve_decision. Defined.

Record Hunk := { OldStart : Z; OldCount : Z; NewStart : Z; NewCount : Z; Lines : list Line }.

#[export] Instance Hunk_eta : Eta Hunk :=
  fun h => {| OldStart := OldStart h; OldCount := OldCount h; NewStart := NewStart h;
              NewCount := NewCount h; Lines := Lines h |}.

Record DiffResult := { dr_Hunks : list Hunk }.

Record PatchHeader := { OldFile : string; NewFile : string }.

#[export] Instance PatchHeader_eta : Eta PatchHeader :=
  fun h => {| OldFile := OldFile h; NewFile := NewFile h |}.

Record Patch := { Header : PatchHeader; Hunks : list Hunk }.

Record ConflictRange := {
  StartLine : Z; EndLine : Z; Ours : list string; Theirs : list string; Base : list string
}.

Record ApplyResult := { Text : string; Rejected : bool; Conflicts : list ConflictRange }.

(** ** Lines of a text *)

Definition nl : ascii := "010"%char.

(** [cur] is [text[start:i]]. *)
Fixpoint split_loop (text cur : string) : list string :=
  match text with
  | EmptyString => if decide (cur = "") then [] else [cur]
  | String c text =>
      if decide (c = nl) then cur :: split_loop text "" else split_loop text (cur +:+ String c "")
  end.

Definition splitText (text : string) : list string := split_loop text "".

Definition splitLines (text : string) : list string :=
  if decide (text = "") then [] else splitText text.

(** [strings.Join(lines, "\n")]. *)
Fixpoint join_lines (lines : list string) : string :=
  match lines with
  | [] => ""
  | [l] => l
  | l :: lines => l +:+ String nl (join_lines lines)
  end.

(** ** Grouping into hunks *)

Definition contextSize : Z := 3.

(** The local variables of [buildHunks]. *)
Record builder := {
  hunks : list Hunk;
  currentLines : list Line;
  currentOldStart : Z; currentNewStart : Z;
  currentOldCount : Z; currentNewCount : Z;
  inHunk : bool;
  oldIdx : Z; newIdx : Z;
  pendingEquals : Z
}.

#[export] Instance builder_eta : Eta builder :=
  fun s => {| hunks := hunks s; currentLines := currentLines s;
              currentOldStart := currentOldStart s; currentNewStart := currentNewStart s;
              currentOldCount := currentOldCount s; currentNewCount := currentNewCount s;
              inHunk := inHunk s; oldIdx := oldIdx s; newIdx := newIdx s;
              pendingEquals := pendingEquals s |}.

Definition new_builder : builder :=
  {| hunks := []; currentLines := []; currentOldStart := 0; currentNewStart := 0;
     currentOldCount := 0; currentNewCount := 0; inHunk := false; oldIdx := 0; newIdx := 0;
     pendingEquals := 0 |}.

(** [s[:i]]. *)
Definition slice_to {A} (l : list A) (i : Z) : option (list A) :=
  if (0 <=? i) && (i <=? Z.of_nat (length l)) then Some (take (Z.to_nat i) l) else None.

Definition add_equal (content : string) (st : builder) : builder :=
  st <| currentLines := currentLines st ++
         [{| Content := content; Type_ := LineEqual; OldLineNo := oldIdx st + 1; NewLineNo := newIdx st + 1 |}] |>
     <| currentOldCount := currentOldCount st + 1 |>
     <| currentNewCount := currentNewCount st + 1 |>.

Definition advance_both (st : builder) : builder :=
  st <| oldIdx := oldIdx st + 1 |> <| newIdx := newIdx st + 1 |>.

Definition equal_step (content : string) (st : builder) : option builder :=
  if inHunk st then
    let st := st <| pendingEquals := pendingEquals st + 1 |> in
    let st' := add_equal content st in
    if contextSize * 2 <? pendingEquals st then
      kept ← slice_to (currentLines st') (Z.of_nat (length (currentLines st')) - contextSize);
      let h := {| OldStart := currentOldStart st'; OldCount := currentOldCount st' - contextSize;
                  NewStart := currentNewStart st'; NewCount := currentNewCount st' - contextSize;
                  Lines := kept |} in
      Some (advance_both (st' <| hunks := hunks st' ++ [h] |> <| currentLines := [] |>
                              <| inHunk := false |> <| pendingEquals := 0 |>))
    else Some (advance_both st')
  else Some (advance_both st).

(** The start of [case opDelete] and of [case opInsert]: open a hunk with the
    context before it, or go on with the open one. *)
Definition open_hunk (oldLines : list string) (st : builder) : option builder :=
  if inHunk st then Some (st <| pendingEquals := 0 |>)
  else
    let startOld := Z.max 0 (oldIdx st - contextSize) in
    let newStart := newIdx st - (oldIdx st - startOld) + 1 in
    context ← mapM (fun i => content ← idx oldLines i;
                      Some {| Content := content; Type_ := LineEqual; OldLineNo := i + 1; NewLineNo := i + 1 |})
                   (seqZ startOld (oldIdx st - startOld));
    Some (st <| inHunk := true |> <| pendingEquals := 0 |>
             <| currentOldStart := startOld + 1 |>
             <| currentNewStart := if newStart <? 1 then 1 else newStart |>
             <| currentOldCount := Z.of_nat (length context) |>
             <| currentNewCount := Z.of_nat (length context) |>
             <| currentLines := context |>).

Definition delete_step (oldLines : list string) (content : string) (st : builder) : option builder :=
  st ← open_hunk oldLines st;
  Some (st <| currentLines := currentLines st ++
                [{| Content := content; Type_ := LineDelete; OldLineNo := oldIdx st + 1; NewLineNo := 0 |}] |>
           <| currentOldCount := currentOldCount st + 1 |>
           <| oldIdx := oldIdx st + 1 |>).

Definition insert_step (oldLines : list string) (content : string) (st : builder) : option builder :=
  st ← open_hunk oldLines st;
  Some (st <| currentLines := currentLines st ++
                [{| Content := content; Type_ := LineInsert; OldLineNo := 0; NewLineNo := newIdx st + 1 |}] |>
           <| currentNewCount := currentNewCount st + 1 |>
           <| newIdx := newIdx st + 1 |>).

Definition build_step (oldLines : list string) (st : builder) (e : editScript) : option builder :=
  match op e with
  | opEqual => equal_step (line e) st
  | opDelete => delete_step oldLines (line e) st
  | opInsert => insert_step oldLines (line e) st
  end.

Fixpoint build_loop (oldLines : list string) (ses : list editScript) (st : builder) : option builder :=
  match ses with
  | [] => Some st
  | e :: ses => st ← build_step oldLines st e; build_loop oldLines ses st
  end.

(** The end of [buildHunks]: the open hunk keeps at most three lines of context. *)
Definition close_hunk (st : builder) : option (list Hunk) :=
  if inHunk st then
    let excess := Z.max 0 (pendingEquals st - contextSize) in
    kept ← slice_to (currentLines st) (Z.of_nat (length (currentLines st)) - excess);
    Some (hunks st ++ [{| OldStart := currentOldStart st; OldCount := currentOldCount st - excess;
                          NewStart := currentNewStart st; NewCount := currentNewCount st - excess;
                          Lines := kept |}])
  else Some (hunks st).

Definition buildHunks (ses : list editScript) (oldLines newLines : list string) : option (list Hunk) :=
  if decide (length ses = 0%nat) then Some []
  else st ← build_loop oldLines ses new_builder; close_hunk st.

Definition Diff (oldText newText : string) : result Error DiffResult :=
  if decide (oldText = "" /\ newText = "") then Err ErrEmptyInput
  else
    let oldLines := splitLines oldText in
    let newLines := splitLines newText in
    let? ses := or_panic (myersDiff oldLines newLines) in
    let? hs := or_panic (buildHunks ses oldLines newLines) in
    Ok {| dr_Hunks := hs |}.

(** ** Applying a patch *)

(** [for origIdx < hunk.OldStart-1]; [fuel] is the number of iterations. *)
Fixpoint copy_until (fuel : nat) (original : list string) (origIdx : Z) (res : list string) : Z * list string :=
  match fuel with
  | O => (origIdx, res)
  | S fuel =>
      let res := match idx original origIdx with Some l => res ++ [l] | None => res end in
      copy_until fuel original (origIdx + 1) res
  end.

Fixpoint verify_loop (original : list string) (origPos : Z) (lines : list Line) : bool :=
  match lines with
  | [] => true
  | l :: lines =>
      match Type_ l with
      | LineInsert => verify_loop original origPos lines
      | _ => match idx original origPos with
             | None => false
             | Some content =>
                 if decide (content = Content l) then verify_loop original (origPos + 1) lines else false
             end
      end
  end.

Definition collectContextLines (h : Hunk) : list Line := Lines h.

Definition verifyContext (originalLines : list string) (startIdx : Z) (contextLines : list Line) : bool :=
  verify_loop originalLines startIdx contextLines.

Definition extractNewLines (h : Hunk) : list string :=
  omap (fun l => match Type_ l with LineInsert => Some (Content l) | _ => None end) (Lines h).

(** A negative length of [make] panics. *)
Definition extractBaseLines (originalLines : list string) (startIdx count : Z) : option (list string) :=
  let last := Z.min (startIdx + count) (Z.of_nat (length originalLines)) in
  if Z.of_nat (length originalLines) <=? startIdx then Some []
  else if last - startIdx <? 0 then None
  else Some (take (Z.to_nat (last - startIdx)) (drop (Z.to_nat startIdx) originalLines)).

(** The conflict branch: [for i := 0; i < hunk.OldCount && origIdx < len]. *)
Fixpoint keep_lines (count : nat) (original : list string) (origIdx : Z) (res : list string) : Z * list string :=
  match count with
  | O => (origIdx, res)
  | S count =>
      match idx original origIdx with
      | Some l => keep_lines count original (origIdx + 1) (res ++ [l])
      | None => (origIdx, res)
      end
  end.

Definition apply_line (original : list string) (st : Z * list string) (l : Line) : Z * list string :=
  let '(origIdx, res) := st in
  match Type_ l with
  | LineEqual => match idx original origIdx with
                 | Some content => (origIdx + 1, res ++ [content])
                 | None => (origIdx, res)
                 end
  | LineDelete => (origIdx + 1, res)
  | LineInsert => (origIdx, res ++ [Content l])
  end.

Definition apply_hunk (original : list string) (st : Z * list string * list ConflictRange) (h : Hunk)
  : option (Z * list string * list ConflictRange) :=
  let '(origIdx, res, conflicts) := st in
  let '(origIdx, res) := copy_until (Z.to_nat (OldStart h - 1 - origIdx)) original origIdx res in
  let expectedStart := Z.max 0 (OldStart h - 1) in
  if verifyContext original expectedStart (collectContextLines h) then
    let '(origIdx, res) := foldl (apply_line original) (origIdx, res) (Lines h) in
    Some (origIdx, res, conflicts)
  else
    base ← extractBaseLines original expectedStart (OldCount h);
    let conflict := {| StartLine := OldStart h; EndLine := OldStart h + OldCount h - 1;
                       Theirs := extractNewLines h; Base := base; Ours := base |} in
    let '(origIdx, res) := keep_lines (Z.to_nat (OldCount h)) original origIdx res in
    Some (origIdx, res, conflicts ++ [conflict]).

Fixpoint apply_hunks (original : list string) (hs : list Hunk) (st : Z * list string * list ConflictRange)
  : option (Z * list string * list ConflictRange) :=
  match hs with
  | [] => Some st
  | h :: hs => st ← apply_hunk original st h; apply_hunks original hs st
  end.

(** [text[len(text)-1] == '\n'], false of the empty text. *)
Fixpoint ends_nl (text : string) : bool :=
  match text with
  | EmptyString => false
  | String c EmptyString => bool_decide (c = nl)
  | String _ text => ends_nl text
  end.

Definition ApplyPatchDirect (originalText : string) (p : Patch) : result Error ApplyResult :=
  let originalLines := splitLines originalText in
  let trailingNewline :=
    ends_nl originalText || (bool_decide (originalText = "") && negb (bool_decide (Hunks p = []))) in
  let? (origIdx, res, conflicts) := or_panic (apply_hunks originalLines (Hunks p) (0, [], [])) in
  let res := res ++ drop (Z.to_nat origIdx) originalLines in
  let text := join_lines res in
  Ok {| Text := if trailingNewline && negb (bool_decide (res = [])) then text +:+ String nl "" else text;
        Rejected := negb (bool_decide (conflicts = []));
        Conflicts := conflicts |}.

End Diff.
