(* ===== verification/DiffProofs.v ===== *)
(** Hunks fit the text they were made from, and applying them to it produces
    the other text. *)

From stdpp Require Import base tactics option numbers list strings sets.
From Stdlib Require Import ZArith Lia Ascii.
From S2P Require Import Prelude GoStrings Myers MyersProofs Diff.

Import Myers Diff.

(** ** Hunks that fit a text *)

(** The lines a hunk expects and the lines it leaves. *)
Definition lines_old (ls : list Line) : list string :=
  omap (fun l => match Type_ l with LineInsert => None | _ => Some (Content l) end) ls.

Definition lines_new (ls : list Line) : list string :=
  omap (fun l => match Type_ l with LineDelete => None | _ => Some (Content l) end) ls.

(** Kept and deleted lines carry their line number in the old text. *)
Fixpoint numbered (o : nat) (ls : list Line) : Prop :=
  match ls with
  | [] => True
  | l :: ls =>
      match Type_ l with
      | LineInsert => numbered o ls
      | _ => OldLineNo l = Z.of_nat (S o) /\ numbered (S o) ls
      end
  end.

(** Lines [i] to [j] of a text. *)
Definition slice (l : list string) (i j : nat) : list string := take (j - i) (drop i l).

(** A hunk that begins before line [s] of [old], where the new text has [t]
    lines: its numbers are exact and its old side is there. *)
Record fits (old : list string) (s t : nat) (h : Hunk) : Prop := {
  fit_start : OldStart h = Z.of_nat (S s);
  fit_count : OldCount h = Z.of_nat (length (lines_old (Lines h)));
  fit_new_start : NewStart h = Z.of_nat (S t);
  fit_new_count : NewCount h = Z.of_nat (length (lines_new (Lines h)));
  fit_old : lines_old (Lines h) = slice old s (s + length (lines_old (Lines h)));
  fit_bound : (s + length (lines_old (Lines h)) <= length old)%nat;
  fit_numbers : numbered s (Lines h)
}.

(** Every hunk but the first begins with a kept line. *)
Definition leads (hs : list Hunk) (ls : list Line) : Prop :=
  hs = [] \/ forall l, head ls = Some l -> Type_ l = LineEqual.

(** The hunks, applied to the first [o] lines of [old], give [res]. *)
Inductive patched (old : list string) : list Hunk -> nat -> list string -> Prop :=
| patched_nil : patched old [] 0 []
| patched_snoc hs o res h s :
    patched old hs o res -> (o <= s)%nat -> leads hs (Lines h) -> fits old s (length res + (s - o)) h ->
    patched old (hs ++ [h]) (s + length (lines_old (Lines h))) (res ++ slice old o s ++ lines_new (Lines h)).

Lemma lines_old_app l k : lines_old (l ++ k) = lines_old l ++ lines_old k.
Proof. apply omap_app. Qed.
Lemma lines_new_app l k : lines_new (l ++ k) = lines_new l ++ lines_new k.
Proof. apply omap_app. Qed.

Lemma numbered_app o l k : numbered o (l ++ k) <-> numbered o l /\ numbered (o + length (lines_old l)) k.
Proof.
  revert o. induction l as [|x l IH]; intros o; simpl.
  - rewrite Nat.add_0_r. tauto.
  - destruct (Type_ x); simpl; rewrite ?IH, ?Nat.add_succ_r; simpl; tauto.
Qed.

Lemma slice_join l i j k : (i <= j)%nat -> (j <= k)%nat -> slice l i j ++ slice l j k = slice l i k.
Proof.
  intros Hi Hj. unfold slice. replace (drop j l) with (drop (j - i) (drop i l)) by (rewrite drop_drop; f_equal; lia).
  rewrite take_drop_app. f_equal. lia.
Qed.

Lemma slice_self l i : slice l i i = [].
Proof. unfold slice. by rewrite Nat.sub_diag. Qed.

Lemma length_slice l i j : (j <= length l)%nat -> length (slice l i j) = (j - i)%nat.
Proof. intros. unfold slice. rewrite length_take, length_drop. lia. Qed.

Lemma slice_one l i x : l !! i = Some x -> slice l i (S i) = [x].
Proof.
  intros Hx. unfold slice. replace (S i - i)%nat with 1%nat by lia. rewrite (drop_S _ _ _ Hx). done.
Qed.

Lemma slice_end l i : slice l i (length l) = drop i l.
Proof. unfold slice. rewrite take_ge; [done|]. rewrite length_drop. lia. Qed.

(** ** Applying hunks that fit *)

Lemma copy_until_spec old s : forall j (o : nat) res, (o + j = s)%nat -> (s <= length old)%nat ->
  copy_until j old (Z.of_nat o) res = (Z.of_nat s, res ++ slice old o s).
Proof.
  induction j as [|j IH]; intros o res Hs Hl; simpl.
  - replace s with o by lia. by rewrite slice_self, app_nil_r.
  - rewrite idx_nat. destruct (lookup_lt_is_Some_2 old o) as [x Hx]; [lia|]. rewrite Hx.
    replace (Z.of_nat o + 1) with (Z.of_nat (S o)) by lia. rewrite IH by lia.
    rewrite <- app_assoc, <- (slice_one _ _ _ Hx), slice_join by lia. done.
Qed.

Lemma slice_cons l i j x rest : slice l i j = x :: rest -> l !! i = Some x /\ rest = slice l (S i) j.
Proof.
  unfold slice. intros E. destruct (l !! i) as [y|] eqn:Hy.
  - rewrite (drop_S _ _ _ Hy) in E. destruct (j - i)%nat as [|k] eqn:Ek; [done|]. simpl in E.
    replace (j - S i)%nat with k by lia. split; congruence.
  - rewrite drop_ge in E by (by apply lookup_ge_None). by rewrite take_nil in E.
Qed.

Lemma verify_fits old ls : forall s : nat,
  lines_old ls = slice old s (s + length (lines_old ls)) -> verify_loop old (Z.of_nat s) ls = true.
Proof.
  induction ls as [|l ls IH]; intros s Hs; [done|]. simpl in *.
  destruct (Type_ l); simpl in Hs; [symmetry in Hs; apply slice_cons in Hs as [Hl Hr]..|by apply IH].
  all: rewrite idx_nat, Hl, decide_True by done; replace (Z.of_nat s + 1) with (Z.of_nat (S s)) by lia;
    apply IH; by rewrite Nat.add_succ_l, <- Nat.add_succ_r.
Qed.

Lemma apply_lines_fit old ls : forall (s : nat) res,
  lines_old ls = slice old s (s + length (lines_old ls)) ->
  foldl (apply_line old) (Z.of_nat s, res) ls = (Z.of_nat (s + length (lines_old ls)), res ++ lines_new ls).
Proof.
  induction ls as [|l ls IH]; intros s res Hs; simpl.
  - by rewrite Nat.add_0_r, app_nil_r.
  - simpl in Hs. destruct (Type_ l); simpl in *; [symmetry in Hs; apply slice_cons in Hs as [Hl Hr]..|].
    + rewrite idx_nat, Hl. replace (Z.of_nat s + 1) with (Z.of_nat (S s)) by lia.
      rewrite IH by (by rewrite Nat.add_succ_l, <- Nat.add_succ_r). rewrite <- app_assoc. simpl. do 2 f_equal. lia.
    + replace (Z.of_nat s + 1) with (Z.of_nat (S s)) by lia.
      rewrite IH by (by rewrite Nat.add_succ_l, <- Nat.add_succ_r). do 2 f_equal. lia.
    + rewrite IH by done. by rewrite <- app_assoc.
Qed.

Lemma apply_hunks_app old hs h st :
  apply_hunks old (hs ++ [h]) st = st ← apply_hunks old hs st; apply_hunk old st h.
Proof.
  revert st. induction hs as [|h' hs IH]; intros st; simpl.
  - by destruct (apply_hunk old st h).
  - destruct (apply_hunk old st h'); [apply IH|done].
Qed.

Lemma patched_applies old hs o res :
  patched old hs o res -> apply_hunks old hs (0, [], []) = Some (Z.of_nat o, res, []) /\ (o <= length old)%nat.
Proof.
  induction 1 as [|hs o res h s Hp [IH Ho] Hs _ [? ? ? ? Hold Hb ?]]; [split; [done|lia]|].
  split; [|lia]. rewrite apply_hunks_app, IH. cbn [mbind option_bind]. unfold apply_hunk.
  rewrite fit_start0. replace (Z.to_nat _) with (s - o)%nat by lia. rewrite (copy_until_spec _ s) by lia.
  replace (Z.max 0 _) with (Z.of_nat s) by lia. unfold verifyContext, collectContextLines.
  rewrite verify_fits by done. rewrite apply_lines_fit by done. by rewrite <- app_assoc.
Qed.

(** ** Building hunks *)

Section build.
Context (old : list string).

(** The open hunk: it begins before line [s], and with the hunks closed so far
    accounts for the first [oldn] lines of the old text and all of [new]. *)
Record open_inv (oldn : nat) (new : list string) (o : nat) (res : list string) (s : nat) (st : builder) : Prop := {
  open_start : currentOldStart st = Z.of_nat (S s);
  open_after : (o <= s)%nat;
  open_new_start : currentNewStart st = Z.of_nat (S (length res + (s - o)));
  open_count : currentOldCount st = Z.of_nat (length (lines_old (currentLines st)));
  open_new_count : currentNewCount st = Z.of_nat (length (lines_new (currentLines st)));
  open_old : lines_old (currentLines st) = slice old s oldn;
  open_end : (s + length (lines_old (currentLines st)) = oldn)%nat;
  open_new : new = res ++ slice old o s ++ lines_new (currentLines st);
  open_numbers : numbered s (currentLines st);
  open_leads : hunks st = [] \/ exists l ls, currentLines st = l :: ls /\ Type_ l = LineEqual;
  open_pending : exists K E, currentLines st = K ++ E /\ Forall (fun l => Type_ l = LineEqual) E
                             /\ pendingEquals st = Z.of_nat (length E)
}.

Lemma equal_lines E : Forall (fun l => Type_ l = LineEqual) E ->
  lines_new E = lines_old E /\ length (lines_old E) = length E.
Proof.
  induction 1 as [|l E Hl _ [IH1 IH2]]; [done|]. simpl. rewrite Hl. simpl. split; congruence.
Qed.

(** Closing a hunk without its last kept lines. *)
Lemma close_fits oldn new o res s st K E :
  patched old (hunks st) o res -> open_inv oldn new o res s st -> (oldn <= length old)%nat ->
  currentLines st = K ++ E -> Forall (fun l => Type_ l = LineEqual) E ->
  exists res', patched old (hunks st ++ [{| OldStart := currentOldStart st;
      OldCount := currentOldCount st - Z.of_nat (length E); NewStart := currentNewStart st;
      NewCount := currentNewCount st - Z.of_nat (length E); Lines := K |}]) (oldn - length E) res'
    /\ new = res' ++ slice old (oldn - length E) oldn /\ (length E <= oldn)%nat.
Proof.
  intros Hp [Hs Ho Hns Hc Hnc Hold Hend Hnew Hnum Hlead _] Hb HK HE. destruct (equal_lines E HE) as [Hn Hl].
  rewrite HK in *. rewrite lines_old_app, length_app in *. rewrite lines_new_app, ?length_app in *. rewrite Hn in *.
  rewrite numbered_app in Hnum. destruct Hnum as [Hnum _].
  assert (oldn - length E = s + length (lines_old K))%nat as Eo by lia.
  rewrite <- (slice_join old s (s + length (lines_old K)) oldn) in Hold by lia.
  apply app_inj_1 in Hold as [HK' HE']; [|rewrite length_slice; lia].
  exists (res ++ slice old o s ++ lines_new K). split_and!; [|rewrite Hnew, HE', Eo, <- !app_assoc; done|lia].
  rewrite Eo. apply patched_snoc; [done|done| |by split; simpl; try (lia || done)].
  destruct Hlead as [|(l & ls & El & Ht)]; [by left|]. right. simpl. intros l' Hl'.
  destruct K as [|k K]; [done|]. simpl in Hl', El. congruence.
Qed.

Lemma slice_to_app {A} (K E : list A) e : e = Z.of_nat (length E) ->
  slice_to (K ++ E) (Z.of_nat (length (K ++ E)) - e) = Some K.
Proof.
  intros ->. unfold slice_to. rewrite length_app.
  rewrite (proj2 (Z.leb_le _ _)), (proj2 (Z.leb_le _ _)) by lia. simpl.
  replace (Z.to_nat _) with (length K) by lia. by rewrite take_app_length.
Qed.

Lemma slice_snoc i j x : (i <= j)%nat -> old !! j = Some x -> slice old i (S j) = slice old i j ++ [x].
Proof. intros Hi Hx. rewrite <- (slice_one _ _ _ Hx), slice_join by lia. done. Qed.

(** ** The invariant of the loop *)

Definition build_inv (P : list editScript) (st : builder) : Prop :=
  oldIdx st = Z.of_nat (length (old_side P)) /\ newIdx st = Z.of_nat (length (new_side P)) /\
  exists o res, patched old (hunks st) o res /\
    if inHunk st
    then pendingEquals st <= 6 /\ exists s, open_inv (length (old_side P)) (new_side P) o res s st
    else ((o + 3 <= length (old_side P))%nat \/ o = 0%nat /\ hunks st = []) /\ new_side P = res ++ slice old o (length (old_side P)).

Lemma patched_bound hs o res : patched old hs o res -> (o <= length old)%nat.
Proof. intros Hp. by destruct (patched_applies _ _ _ _ Hp). Qed.

Lemma leads_snoc (hs : list Hunk) (ls : list Line) x :
  hs = [] \/ (exists l ls', ls = l :: ls' /\ Type_ l = LineEqual) ->
  hs = [] \/ (exists l ls', ls ++ [x] = l :: ls' /\ Type_ l = LineEqual).
Proof. intros [|(l & ls' & -> & Hl)]; [by left|]. right. by exists l, (ls' ++ [x]). Qed.

Lemma add_equal_open oldn new o res s st x :
  open_inv oldn new o res s st -> old !! oldn = Some x -> oldIdx st = Z.of_nat oldn ->
  open_inv (S oldn) (new ++ [x]) o res s (add_equal x (st <| pendingEquals := pendingEquals st + 1 |>)).
Proof.
  intros [Hs Ho Hns Hc Hnc Hold Hend Hnew Hnum Hlead (K & E & HK & HE & Hp)] Hx Hi.
  split; simpl; try done; rewrite ?lines_old_app, ?lines_new_app, ?length_app; simpl; try lia.
  - rewrite Hold. symmetry. apply slice_snoc; [lia|done].
  - rewrite Hnew. by rewrite <- !app_assoc.
  - rewrite numbered_app. simpl. split_and!; [done| |done]. lia.
  - by apply leads_snoc.
  - exists K, (E ++ [{| Content := x; Type_ := LineEqual; OldLineNo := oldIdx st + 1; NewLineNo := newIdx st + 1 |}]).
    rewrite HK, <- app_assoc, length_app. simpl. split_and!; [done| |lia].
    apply Forall_app. split; [done|by repeat constructor].
Qed.

Lemma equal_step_inv P st x :
  build_inv P st -> old !! length (old_side P) = Some x ->
  exists st', equal_step x st = Some st' /\ build_inv (P ++ [{| op := opEqual; line := x |}]) st'.
Proof.
  intros (Hoi & Hni & o & res & Hp & Hcase) Hx. unfold build_inv.
  rewrite old_side_app, new_side_app, !length_app. simpl. rewrite !Nat.add_1_r.
  pose proof (lookup_lt_Some _ _ _ Hx) as Hlt. unfold equal_step.
  destruct (inHunk st) eqn:Eh; cbv zeta.
  - destruct Hcase as (Hpend & s & Hopen). pose proof (add_equal_open _ _ _ _ _ _ _ Hopen Hx Hoi) as Hopen'.
    set (st' := add_equal _ _) in *. simpl in Hopen'.
    destruct (Z.ltb_spec (contextSize * 2) (pendingEquals (st <| pendingEquals := pendingEquals st + 1 |>))) as [Hc|Hc];
      unfold contextSize in Hc; simpl in Hc.
    + pose proof (open_pending _ _ _ _ _ _ Hopen') as (K & E & HK & HE & HpE). simpl in HpE.
      assert (length E = 7)%nat as HE7 by lia.
      assert (currentLines st' = (K ++ take 4 E) ++ drop 4 E) as HK' by (by rewrite <- app_assoc, take_drop).
      assert (length (drop 4 E) = 3)%nat as H3 by (rewrite length_drop; lia).
      rewrite HK', slice_to_app by (by rewrite H3). cbn [mbind option_bind].
      destruct (close_fits (S (length (old_side P))) (new_side P ++ [x]) o res s st' (K ++ take 4 E) (drop 4 E))
        as (res' & Hp' & Hnew' & Hlen); [exact Hp|exact Hopen'|lia|exact HK'|by apply Forall_drop|].
      rewrite H3 in Hp', Hnew'. eexists. split; [reflexivity|]. simpl.
      split_and!; [lia|lia|]. exists (S (length (old_side P)) - 3)%nat, res'. split_and!; [exact Hp'|left; lia|done].
    + eexists. split; [reflexivity|]. simpl. split_and!; [lia|lia|]. exists o, res. split; [exact Hp|].
      rewrite Eh. split; [lia|]. exists s. destruct Hopen'. by split.
  - destruct Hcase as [Ho Hnew]. eexists. split; [reflexivity|]. simpl. rewrite Eh. split_and!; [lia|lia|].
    exists o, res. split_and!; [done|destruct Ho; [left; lia|by right]|]. rewrite (slice_snoc _ _ x); [|lia|done]. by rewrite Hnew, <- app_assoc.
Qed.

Lemma context_lines n : forall s, (s + n <= length old)%nat ->
  exists L, mapM (fun i => content ← idx old i;
                    Some {| Content := content; Type_ := LineEqual; OldLineNo := i + 1; NewLineNo := i + 1 |})
                 (seqZ (Z.of_nat s) (Z.of_nat n)) = Some L
    /\ lines_old L = slice old s (s + n) /\ Forall (fun l => Type_ l = LineEqual) L /\ numbered s L.
Proof.
  induction n as [|n IH]; intros s Hs.
  - exists []. rewrite Nat.add_0_r, slice_self. done.
  - destruct (lookup_lt_is_Some_2 old s) as [x Hx]; [lia|]. destruct (IH (S s)) as (L & HL & Ho & HE & Hn); [lia|].
    rewrite seqZ_cons by lia. cbn [mapM]. rewrite idx_nat, Hx. cbn [mbind option_bind].
    replace (Z.succ (Z.of_nat s)) with (Z.of_nat (S s)) by lia. replace (Z.pred (Z.of_nat (S n))) with (Z.of_nat n) by lia.
    rewrite HL. eexists. split; [reflexivity|]. simpl. split_and!; [|by constructor|lia|done].
    rewrite Ho, <- (slice_join old s (S s)), (slice_one _ _ _ Hx) by lia. simpl. do 2 f_equal. lia.
Qed.

Lemma open_hunk_inv P st : build_inv P st -> (length (old_side P) <= length old)%nat ->
  exists st' o res s, open_hunk old st = Some st' /\ inHunk st' = true /\
    oldIdx st' = Z.of_nat (length (old_side P)) /\ newIdx st' = Z.of_nat (length (new_side P)) /\
    patched old (hunks st') o res /\ open_inv (length (old_side P)) (new_side P) o res s st' /\
    pendingEquals st' = 0.
Proof.
  intros (Hoi & Hni & o & res & Hp & Hcase) Hl. unfold open_hunk. destruct (inHunk st) eqn:Eh; cbv zeta.
  - destruct Hcase as (_ & s & Hopen). eexists _, o, res, s. split; [reflexivity|]. simpl. split_and!; try done.
    destruct Hopen. split; try done. exists (currentLines st), []. simpl. by rewrite app_nil_r.
  - destruct Hcase as [Ho Hnew]. set (oldn := length (old_side P)) in *.
    pose proof (patched_bound _ _ _ Hp) as Hob. set (s := (oldn - 3)%nat).
    assert (length (new_side P) = length res + (oldn - o))%nat as Hlen
      by (rewrite Hnew, length_app, length_slice by lia; done).
    unfold contextSize. rewrite Hoi. replace (Z.max 0 (Z.of_nat oldn - 3)) with (Z.of_nat s) by lia.
    replace (Z.of_nat oldn - Z.of_nat s) with (Z.of_nat (oldn - s)) by lia.
    destruct (context_lines (oldn - s) s) as (L & HL & HLo & HE & Hn); [lia|]. rewrite HL. cbn [mbind option_bind].
    replace (s + (oldn - s))%nat with oldn in HLo by lia. destruct (equal_lines _ HE) as [Hln Hll].
    assert (length L = oldn - s)%nat as HLl by (rewrite <- Hll, HLo, length_slice; lia).
    eexists _, o, res, s. split; [reflexivity|]. simpl. split_and!; try done.
    split; simpl; rewrite ?Hln, ?Hll; try done; try lia.
    + rewrite (proj2 (Z.ltb_ge _ _)) by lia. lia.
    + rewrite Hnew, HLo, slice_join by lia. done.
    + destruct Ho as [Ho|[_ Ho]]; [right|by left]. destruct L as [|l L]; [simpl in HLl; lia|].
      exists l, L. by inversion HE.
    + exists L, []. simpl. by rewrite app_nil_r.
Qed.

Lemma delete_step_inv P st x :
  build_inv P st -> old !! length (old_side P) = Some x ->
  exists st', delete_step old x st = Some st' /\ build_inv (P ++ [{| op := opDelete; line := x |}]) st'.
Proof.
  intros Hinv Hx. pose proof (lookup_lt_Some _ _ _ Hx) as Hlt.
  destruct (open_hunk_inv _ _ Hinv ltac:(lia)) as (st' & o & res & s & Hst & Hh & Hoi & Hni & Hp & Hopen & Hz).
  unfold delete_step. rewrite Hst. cbn [mbind option_bind]. eexists. split; [reflexivity|].
  unfold build_inv. rewrite old_side_app, new_side_app, !length_app. simpl. rewrite app_nil_r, Hh.
  split_and!; [lia|lia|]. exists o, res. split; [done|]. split; [lia|]. exists s.
  destruct Hopen as [Hs Ho Hns Hc Hnc Hold Hend Hnew Hnum Hlead _]. rewrite Nat.add_1_r.
  split; simpl; try done; rewrite ?lines_old_app, ?lines_new_app, ?length_app; simpl; rewrite ?app_nil_r; try lia; try done.
  - rewrite Hold. symmetry. apply slice_snoc; [lia|done].
  - rewrite numbered_app. simpl. split_and!; [done| |done]. lia.
  - by apply leads_snoc.
  - eexists _, []. rewrite app_nil_r. split_and!; [done|done|by rewrite Hz].
Qed.

Lemma insert_step_inv P st x :
  build_inv P st -> (length (old_side P) <= length old)%nat ->
  exists st', insert_step old x st = Some st' /\ build_inv (P ++ [{| op := opInsert; line := x |}]) st'.
Proof.
  intros Hinv Hlt.
  destruct (open_hunk_inv _ _ Hinv Hlt) as (st' & o & res & s & Hst & Hh & Hoi & Hni & Hp & Hopen & Hz).
  unfold insert_step. rewrite Hst. cbn [mbind option_bind]. eexists. split; [reflexivity|].
  unfold build_inv. rewrite old_side_app, new_side_app, !length_app. simpl. rewrite Hh.
  split_and!; [lia|lia|]. exists o, res. split; [done|]. split; [lia|]. exists s.
  destruct Hopen as [Hs Ho Hns Hc Hnc Hold Hend Hnew Hnum Hlead _]. rewrite Nat.add_0_r.
  split; simpl; try done; rewrite ?lines_old_app, ?lines_new_app, ?length_app; simpl; rewrite ?app_nil_r; try lia; try done.
  - rewrite Hnew, <- !app_assoc. done.
  - rewrite numbered_app. simpl. done.
  - by apply leads_snoc.
  - eexists _, []. rewrite app_nil_r. split_and!; [done|done|by rewrite Hz].
Qed.

Lemma build_loop_inv rest : forall P st, old = old_side (P ++ rest) -> build_inv P st ->
  exists st', build_loop old rest st = Some st' /\ build_inv (P ++ rest) st'.
Proof.
  induction rest as [|[o x] rest IH]; intros P st Hold Hinv; simpl.
  - exists st. by rewrite app_nil_r.
  - assert (exists st', build_step old st {| op := o; line := x |} = Some st' /\
              build_inv (P ++ [{| op := o; line := x |}]) st') as (st' & Hst & Hinv').
    { rewrite old_side_app in Hold. unfold build_step. simpl.
      destruct o; [apply equal_step_inv|apply delete_step_inv|apply insert_step_inv]; try done.
      3: rewrite Hold, length_app; lia.
      all: rewrite Hold, lookup_app_r, Nat.sub_diag by lia; done. }
    rewrite Hst. cbn [mbind option_bind]. rewrite cons_middle, app_assoc. apply IH; [|done].
    by rewrite <- app_assoc.
Qed.

Lemma new_builder_inv : build_inv [] new_builder.
Proof. split_and!; [done..|]. exists 0%nat, []. split; [constructor|]. simpl. split; [by right|]. by rewrite slice_self. Qed.

Lemma close_hunk_inv P st : old = old_side P -> build_inv P st ->
  exists hs o res, close_hunk st = Some hs /\ patched old hs o res /\ new_side P = res ++ drop o old.
Proof.
  intros Hold (_ & _ & o & res & Hp & Hcase). rewrite <- Hold in Hcase. unfold close_hunk. destruct (inHunk st).
  - destruct Hcase as (Hpend & s & Hopen). destruct (open_pending _ _ _ _ _ _ Hopen) as (K & E & HK & HE & HpE).
    set (e := Z.to_nat (Z.max 0 (pendingEquals st - contextSize))).
    assert (currentLines st = (K ++ take (length E - e) E) ++ drop (length E - e) E) as HK'
      by (by rewrite <- app_assoc, take_drop).
    assert (length (drop (length E - e) E) = e) as He by (rewrite length_drop; unfold contextSize in *; lia).
    rewrite HK', slice_to_app by lia. cbn [mbind option_bind].
    destruct (close_fits (length old) (new_side P) o res s st (K ++ take (length E - e) E) (drop (length E - e) E))
      as (res' & Hp' & Hnew' & _); try done; [by apply Forall_drop|].
    rewrite slice_end in Hnew'. eexists _, _, _. split; [reflexivity|].
    replace (Z.max 0 (pendingEquals st - contextSize)) with (Z.of_nat (length (drop (length E - e) E))) by lia.
    split; [exact Hp'|done].
  - destruct Hcase as [_ Hnew]. rewrite slice_end in Hnew. by eexists _, _, _.
Qed.

Lemma buildHunks_spec ses new : old_side ses = old ->
  exists hs o res, buildHunks ses old new = Some hs /\ patched old hs o res /\ new_side ses = res ++ drop o old.
Proof.
  intros Hold. unfold buildHunks. case_decide as E.
  - apply nil_length_inv in E as ->. simpl in Hold. exists [], 0%nat, []. split_and!; [done|constructor|by rewrite <- Hold].
  - destruct (build_loop_inv ses [] new_builder) as (st & Hst & Hinv); [done|apply new_builder_inv|].
    rewrite Hst. cbn [mbind option_bind]. by apply close_hunk_inv.
Qed.

End build.

(** ** Texts and their lines *)

Lemma string_snoc_assoc s c t : (s +:+ String c "") +:+ t = s +:+ String c t.
Proof. by rewrite string_assoc. Qed.

Lemma string_app_nil s t : s +:+ t = "" -> s = "" /\ t = "".
Proof. by destruct s. Qed.

Lemma split_loop_nil text cur : split_loop text cur = [] -> text = "" /\ cur = "".
Proof.
  revert cur. induction text as [|c text IH]; intros cur; simpl.
  - by case_decide.
  - case_decide; [done|]. intros [_ E]%IH. by destruct cur.
Qed.

Lemma join_lines_cons l ls : ls <> [] -> join_lines (l :: ls) = l +:+ String nl (join_lines ls).
Proof. by destruct ls. Qed.

Lemma ends_nl_cons c t : t <> "" -> ends_nl (String c t) = ends_nl t.
Proof. by destruct t. Qed.

Lemma join_split_loop text cur :
  join_lines (split_loop text cur) +:+ (if ends_nl text then String nl "" else "") = cur +:+ text.
Proof.
  revert cur. induction text as [|c text IH]; intros cur; simpl split_loop.
  - case_decide; subst; [done|]. simpl. by rewrite string_nil_r.
  - case_decide as Ec.
    + destruct (decide (text = "")) as [->|Ht].
      * simpl. subst c. by rewrite bool_decide_eq_true_2.
      * rewrite ends_nl_cons by done. rewrite join_lines_cons; [|by intros [? _]%split_loop_nil].
        rewrite <- string_snoc_assoc, string_assoc, IH, string_snoc_assoc. by subst c.
    + destruct (decide (text = "")) as [->|Ht].
      * simpl. rewrite decide_False, bool_decide_eq_false_2 by (done || by intros [_ ?]%string_app_nil). simpl.
        by rewrite string_nil_r.
      * rewrite ends_nl_cons by done. by rewrite IH, string_snoc_assoc.
Qed.

(** A text is its lines, with a newline at the end if it has one. *)
Lemma join_splitLines text :
  join_lines (splitLines text) +:+ (if ends_nl text then String nl "" else "") = text.
Proof. unfold splitLines. case_decide; [by subst|]. unfold splitText. by rewrite join_split_loop. Qed.

Lemma splitLines_nil text : splitLines text = [] -> text = "".
Proof. unfold splitLines. case_decide; [done|]. by intros [? _]%split_loop_nil. Qed.

Lemma splitText_splitLines text : splitText text = splitLines text.
Proof. unfold splitLines. by case_decide; subst. Qed.

Lemma free_of_app c s t : free_of c (s +:+ t) <-> free_of c s /\ free_of c t.
Proof.
  induction s as [|x s IH]; [by intuition|].
  change (free_of c (String x (s +:+ t)) <-> free_of c (String x s) /\ free_of c t). simpl. rewrite IH. tauto.
Qed.

Lemma split_loop_free text cur : free_of nl cur -> Forall (free_of nl) (split_loop text cur).
Proof.
  revert cur. induction text as [|c text IH]; intros cur Hc; simpl.
  - case_decide; [done|]. by repeat constructor.
  - case_decide; [constructor; [done|]; by apply IH|]. apply IH, free_of_app. simpl. done.
Qed.

Lemma splitLines_free text : Forall (free_of nl) (splitLines text).
Proof. rewrite <- splitText_splitLines. by apply split_loop_free. Qed.

Lemma split_loop_line l rest cur : free_of nl l ->
  split_loop (l +:+ String nl rest) cur = (cur +:+ l) :: split_loop rest "".
Proof.
  revert cur. induction l as [|c l IH]; intros cur Hl.
  - change ("" +:+ String nl rest) with (String nl rest). simpl. by rewrite string_nil_r.
  - destruct Hl as [Hc Hl]. change (String c l +:+ String nl rest) with (String c (l +:+ String nl rest)).
    simpl. rewrite decide_False by done. by rewrite IH, string_snoc_assoc.
Qed.

(** ** Diffs apply *)

(** The text [ApplyPatchDirect] makes of the resulting lines. *)
Definition render (newline : bool) (lines : list string) : string :=
  if newline && negb (bool_decide (lines = [])) then join_lines lines +:+ String nl "" else join_lines lines.

Lemma Diff_patched oldText newText : oldText <> "" \/ newText <> "" ->
  exists hs o res, Diff oldText newText = Ok {| dr_Hunks := hs |} /\
    patched (splitLines oldText) hs o res /\ splitLines newText = res ++ drop o (splitLines oldText).
Proof.
  intros Hne. unfold Diff. rewrite decide_False by naive_solver. cbv zeta.
  destruct (myersDiff_script (splitLines oldText) (splitLines newText)) as (s & -> & Ho & Hn). simpl.
  destruct (buildHunks_spec _ s (splitLines newText) Ho) as (hs & o & res & -> & Hp & Hres). simpl.
  exists hs, o, res. by rewrite <- Hn.
Qed.

Lemma apply_patched text hdr hs o res : patched (splitLines text) hs o res ->
  ApplyPatchDirect text {| Header := hdr; Hunks := hs |} =
    Ok {| Text := render (ends_nl text || (bool_decide (text = "") && negb (bool_decide (hs = []))))
                    (res ++ drop o (splitLines text));
          Rejected := false; Conflicts := [] |}.
Proof.
  intros Hp. destruct (patched_applies _ _ _ _ Hp) as [Ha Ho]. unfold ApplyPatchDirect, render. simpl.
  rewrite Ha. simpl. by rewrite Nat2Z.id.
Qed.

(** The newline at the end of the result is that of the old text. *)
Lemma render_new oldText newText hs o res :
  patched (splitLines oldText) hs o res -> splitLines newText = res ++ drop o (splitLines oldText) ->
  newText = "" \/ ends_nl newText = ends_nl oldText || bool_decide (oldText = "") ->
  render (ends_nl oldText || (bool_decide (oldText = "") && negb (bool_decide (hs = [])))) (splitLines newText) = newText.
Proof.
  intros Hp Hnew Hend. unfold render. destruct (decide (newText = "")) as [->|Hn].
  { by rewrite andb_false_r. }
  destruct Hend as [?|Hend]; [done|].
  assert (ends_nl oldText || (bool_decide (oldText = "") && negb (bool_decide (hs = []))) = ends_nl newText) as ->.
  { rewrite Hend. destruct (decide (oldText = "")) as [->|Ho].
    - simpl. destruct (decide (hs = [])) as [->|Hh]; [|by rewrite bool_decide_eq_false_2].
      inversion Hp as [|hs' ? ? ? ? ? ? ? E]; [subst|by destruct hs'].
      simpl in Hnew. by apply splitLines_nil in Hnew.
    - by rewrite bool_decide_eq_false_2. }
  rewrite bool_decide_eq_false_2 by (by intros ?%splitLines_nil). rewrite andb_true_r.
  rewrite <- (join_splitLines newText) at 4. destruct (ends_nl newText); [done|]. by rewrite string_nil_r.
Qed.
