(* ===== verification/Patch.v ===== *)
(** Patches in the unified format (diffpatch/patch.go, [ApplyPatch] of
    diffpatch/apply.go): writing, parsing, and applying a patch text. *)

From stdpp Require Import base tactics option numbers list strings.
From Stdlib Require Import ZArith Lia Ascii.
From S2P Require Import Prelude GoStrings GoScan Myers Diff.

Import Diff.

Module Patch.

(** ** Writing *)

Definition line_prefix (t : LineType) : string :=
  match t with LineEqual => " " | LineDelete => "-" | LineInsert => "+" end.

Definition write_line (l : Line) : string := line_prefix (Type_ l) +:+ Content l +:+ String nl "".

Definition fmt_d (n : Z) : string := fmt_padded 0 n.

(** The line [@@ -a,b +c,d @@] without its newline. *)
Definition hunk_header (h : Hunk) : string :=
  "@@ -" +:+ fmt_d (OldStart h) +:+ "," +:+ fmt_d (OldCount h)
    +:+ " +" +:+ fmt_d (NewStart h) +:+ "," +:+ fmt_d (NewCount h) +:+ " @@".

Fixpoint write_lines (ls : list Line) : string :=
  match ls with [] => "" | l :: ls => write_line l +:+ write_lines ls end.

Fixpoint write_hunks (hs : list Hunk) : string :=
  match hs with
  | [] => ""
  | h :: hs => (hunk_header h +:+ String nl "") +:+ write_lines (Lines h) +:+ write_hunks hs
  end.

Definition PatchToUnified (p : Patch) : string :=
  ("--- " +:+ OldFile (Header p) +:+ String nl "") +:+ ("+++ " +:+ NewFile (Header p) +:+ String nl "")
    +:+ write_hunks (Hunks p).

Definition GeneratePatch (oldFile newFile oldText newText : string) : result Error string :=
  let? diffResult := Diff oldText newText in
  Ok (PatchToUnified {| Header := {| OldFile := oldFile; NewFile := newFile |}; Hunks := dr_Hunks diffResult |}).

(** ** Parsing *)

Definition parseRange (s : string) : result Error (Z * Z) :=
  let s := TrimPrefix s "-" in
  let s := TrimPrefix s "+" in
  let '(first, second) := SplitN2 s "," in
  match Sscanf_d first with
  | None => Err ErrInvalidPatch
  | Some start =>
      match second with
      | None => Ok (start, 1)
      | Some second =>
          match Sscanf_d second with
          | None => Err ErrInvalidPatch
          | Some count => Ok (start, count)
          end
      end
  end.

Definition parseHunkHeader (text : string) : result Error Hunk :=
  let text := TrimPrefix text "@@ " in
  match before " @@" text with
  | None => Err ErrInvalidPatch
  | Some rangePart =>
      match SplitN2 rangePart " " with
      | (_, None) => Err ErrInvalidPatch
      | (oldPart, Some newPart) =>
          let? (oldStart, oldCount) := parseRange oldPart in
          let? (newStart, newCount) := parseRange newPart in
          Ok {| OldStart := oldStart; OldCount := oldCount; NewStart := newStart;
                NewCount := newCount; Lines := [] |}
      end
  end.

(** The counters of [finalizeHunk]. *)
Definition count_old (ls : list Line) : Z :=
  Z.of_nat (length (filter (fun l => Type_ l <> LineInsert) ls)).

Definition count_new (ls : list Line) : Z :=
  Z.of_nat (length (filter (fun l => Type_ l <> LineDelete) ls)).

Definition finalizeHunk (currentHunk : option Hunk) (hs : list Hunk) : result Error (list Hunk) :=
  match currentHunk with
  | None => Ok hs
  | Some h =>
      if negb (count_old (Lines h) =? OldCount h) then Err ErrInvalidPatch
      else if negb (count_new (Lines h) =? NewCount h) then Err ErrInvalidPatch
      else Ok (hs ++ [h])
  end.

Definition parsed_line (t : LineType) (text : string) : Line :=
  {| Content := drop_string 1 text; Type_ := t; OldLineNo := 0; NewLineNo := 0 |}.

Definition hunk_line (text : string) : result Error Line :=
  if HasPrefix text "-" then Ok (parsed_line LineDelete text)
  else if HasPrefix text "+" then Ok (parsed_line LineInsert text)
  else if HasPrefix text " " then Ok (parsed_line LineEqual text)
  else Err ErrInvalidPatch.

Definition parse_line (st : PatchHeader * list Hunk * option Hunk) (text : string)
  : result Error (PatchHeader * list Hunk * option Hunk) :=
  let '(header, hs, currentHunk) := st in
  if HasPrefix text "--- " then Ok (header <| OldFile := TrimPrefix text "--- " |>, hs, currentHunk)
  else if HasPrefix text "+++ " then Ok (header <| NewFile := TrimPrefix text "+++ " |>, hs, currentHunk)
  else if HasPrefix text "@@ " then
    let? hs := finalizeHunk currentHunk hs in
    let? h := parseHunkHeader text in
    Ok (header, hs, Some h)
  else
    match currentHunk with
    | None => Ok (header, hs, None)
    | Some h => let? l := hunk_line text in Ok (header, hs, Some (h <| Lines := Lines h ++ [l] |>))
    end.

Fixpoint parse_loop (lines : list string) (st : PatchHeader * list Hunk * option Hunk)
  : result Error (PatchHeader * list Hunk * option Hunk) :=
  match lines with
  | [] => Ok st
  | text :: lines => let? st := parse_line st text in parse_loop lines st
  end.

Definition ParsePatch (patchText : string) : result Error Patch :=
  let lines := splitText patchText in
  if (length lines <? 2)%nat then Err ErrInvalidPatch
  else
    let? (header, hs, currentHunk) := parse_loop lines ({| OldFile := ""; NewFile := "" |}, [], None) in
    let? hs := finalizeHunk currentHunk hs in
    if decide (OldFile header = "" /\ NewFile header = "" /\ hs = []) then Err ErrInvalidPatch
    else Ok {| Header := header; Hunks := hs |}.

Definition ApplyPatch (originalText patchText : string) : result Error ApplyResult :=
  let? p := ParsePatch patchText in
  ApplyPatchDirect originalText p.

End Patch.
