(* ===== verification/PatchProofs.v ===== *)
(** What is written in the unified format parses back, a generated patch applies
    to the text it was made from, and where the format goes wrong. *)

From stdpp Require Import base tactics option numbers list strings sets.
From Stdlib Require Import ZArith Lia Ascii.
From S2P Require Import Prelude GoStrings GoScan Myers MyersProofs Diff DiffProofs Patch.

Import Myers Diff Patch.

(** ** Lines of a patch text *)

Definition line_text (l : Line) : string := line_prefix (Type_ l) +:+ Content l.

Definition hunk_texts (h : Hunk) : list string := hunk_header h :: (line_text <$> Lines h).

Definition patch_texts (p : Patch) : list string :=
  ("--- " +:+ OldFile (Header p)) :: ("+++ " +:+ NewFile (Header p)) :: concat (hunk_texts <$> Hunks p).

Lemma split_written l rest : free_of nl l -> splitText ((l +:+ String nl "") +:+ rest) = l :: splitText rest.
Proof. intros Hl. unfold splitText. rewrite string_snoc_assoc. by rewrite (split_loop_line l rest ""). Qed.

Lemma fmt_d_free n c : 0 <= n -> digit_value c = None -> free_of c (fmt_d n).
Proof. apply fmt_padded_free. Qed.

(** The numbers of a hunk are written without a sign. *)
Definition nonneg_numbers (h : Hunk) : Prop :=
  0 <= OldStart h < 2 ^ 63 /\ 0 <= OldCount h < 2 ^ 63 /\ 0 <= NewStart h < 2 ^ 63 /\ 0 <= NewCount h < 2 ^ 63.

Lemma hunk_header_free h : nonneg_numbers h -> free_of nl (hunk_header h).
Proof.
  intros (H1 & H2 & H3 & H4). unfold hunk_header. rewrite !free_of_app.
  repeat split; try (by apply fmt_d_free; [lia|]); done.
Qed.

Lemma split_lines ls rest : Forall (fun l => free_of nl (Content l)) ls ->
  splitText (write_lines ls +:+ rest) = (line_text <$> ls) ++ splitText rest.
Proof.
  induction 1 as [|l ls Hl _ IH]; [done|]. simpl. rewrite string_assoc. unfold write_line.
  rewrite <- (string_assoc (line_prefix _)). rewrite split_written; [by rewrite IH|].
  unfold line_text. apply free_of_app. split; [by destruct (Type_ l)|done].
Qed.

Lemma split_hunks hs :
  Forall nonneg_numbers hs -> Forall (fun h => Forall (fun l => free_of nl (Content l)) (Lines h)) hs ->
  splitText (write_hunks hs) = concat (hunk_texts <$> hs).
Proof.
  induction hs as [|h hs IH]; [done|]. intros [Hn Hns]%Forall_cons [Hl Hls]%Forall_cons. simpl.
  rewrite split_written by (by apply hunk_header_free). rewrite split_lines, IH by done. done.
Qed.

Lemma split_unified p :
  free_of nl (OldFile (Header p)) -> free_of nl (NewFile (Header p)) ->
  Forall nonneg_numbers (Hunks p) -> Forall (fun h => Forall (fun l => free_of nl (Content l)) (Lines h)) (Hunks p) ->
  splitText (PatchToUnified p) = patch_texts p.
Proof.
  intros Ho Hn Hnum Hl. unfold PatchToUnified, patch_texts.
  rewrite <- (string_assoc "--- "), <- (string_assoc "+++ ").
  rewrite !split_written by (apply free_of_app; split; [repeat split; done|done]).
  by rewrite split_hunks.
Qed.

(** ** Hunk headers *)

Lemma Sscanf_fmt_d n : 0 <= n < 2 ^ 63 -> Sscanf_d (fmt_d n) = Some n.
Proof.
  intros Hn. unfold fmt_d, fmt_padded. destruct (Z.ltb_spec n 0); [lia|]. rewrite Z.abs_eq by lia.
  apply Sscanf_numeric; [apply zeros_numeric, digits_numeric; lia| |lia].
  rewrite parse_zeros, parse_digits_digits; [done|]. lia.
Qed.

Lemma fmt_d_numeric n : 0 <= n -> numeric (fmt_d n).
Proof.
  intros Hn. unfold fmt_d, fmt_padded. destruct (Z.ltb_spec n 0); [lia|]. rewrite Z.abs_eq by lia.
  apply zeros_numeric, digits_numeric. lia.
Qed.

Lemma no_sign n c s : 0 <= n -> digit_value c = None -> TrimPrefix (fmt_d n +:+ s) (String c "") = fmt_d n +:+ s.
Proof.
  intros Hn Hc. pose proof (fmt_d_numeric n Hn) as Hd. unfold TrimPrefix, HasPrefix.
  destruct (fmt_d n) as [|d t]; [done|]. change (String d t +:+ s) with (String d (t +:+ s)). simpl.
  destruct (ascii_dec c d) as [->|]; [|done]. destruct Hd as [? Hd]. by rewrite Hc in Hd.
Qed.

Lemma parseRange_fmt sign a b : sign = "-" \/ sign = "+" -> 0 <= a < 2 ^ 63 -> 0 <= b < 2 ^ 63 ->
  parseRange (sign +:+ fmt_d a +:+ "," +:+ fmt_d b) = Ok (a, b).
Proof.
  intros Hs Ha Hb. unfold parseRange.
  assert (TrimPrefix (TrimPrefix (sign +:+ fmt_d a +:+ "," +:+ fmt_d b) "-") "+" = fmt_d a +:+ "," +:+ fmt_d b) as ->.
  { destruct Hs as [-> | ->].
    - rewrite TrimPrefix_app. by apply no_sign; [lia|].
    - assert (TrimPrefix ("+" +:+ fmt_d a +:+ "," +:+ fmt_d b) "-" = "+" +:+ fmt_d a +:+ "," +:+ fmt_d b) as -> by done.
      apply TrimPrefix_app. }
  change ("," +:+ fmt_d b) with (String "," (fmt_d b)).
  rewrite SplitN2_app by (apply fmt_d_free; [lia|done]). by rewrite !Sscanf_fmt_d.
Qed.

Lemma before_skip sub c s t : HasPrefix (String c (s +:+ t)) sub = false ->
  before sub (String c (s +:+ t)) = String c <$> before sub (s +:+ t).
Proof. intros H. cbn [before]. by rewrite H. Qed.

(** Nothing before the closing mark contains a blank followed by [@]. *)
Fixpoint no_mark (s : string) : Prop :=
  match s with
  | EmptyString => True
  | String c s => (c = " "%char -> match s with String "@" _ | EmptyString => False | _ => True end) /\ no_mark s
  end.

Lemma before_mark s : no_mark s -> before " @@" (s +:+ " @@") = Some s.
Proof.
  induction s as [|c s IH]; intros Hs; [done|]. destruct Hs as [Hc Hs].
  change (String c s +:+ " @@") with (String c (s +:+ " @@")).
  rewrite before_skip; [rewrite IH by done; done|]. unfold HasPrefix.
  cbn [String.prefix]. destruct (ascii_dec " " c) as [<-|]; [|done].
  specialize (Hc eq_refl). destruct s as [|d s]; [done|]. change (String d s +:+ " @@") with (String d (s +:+ " @@")).
  cbn [String.prefix]. destruct (ascii_dec "@" d) as [<-|]; done.
Qed.

Lemma no_mark_free s t : free_of " "%char s -> no_mark t -> no_mark (s +:+ t).
Proof.
  induction s as [|c s IH]; intros Hs Ht; [done|]. destruct Hs as [Hc Hs].
  change (String c s +:+ t) with (String c (s +:+ t)). split; [done|by apply IH].
Qed.

Lemma parseHunkHeader_fmt h : nonneg_numbers h -> parseHunkHeader (hunk_header h) = Ok (h <| Lines := [] |>).
Proof.
  intros (H1 & H2 & H3 & H4). unfold parseHunkHeader, hunk_header.
  assert (forall s, "@@ -" +:+ s = "@@ " +:+ ("-" +:+ s)) as -> by done. rewrite TrimPrefix_app.
  set (o := "-" +:+ fmt_d (OldStart h) +:+ "," +:+ fmt_d (OldCount h)).
  set (n := "+" +:+ fmt_d (NewStart h) +:+ "," +:+ fmt_d (NewCount h)).
  assert (free_of " "%char o /\ free_of " "%char n) as [Ho Hn].
  { subst o n. rewrite !free_of_app. repeat split; try (by apply fmt_d_free; [lia|]); done. }
  assert ("-" +:+ fmt_d (OldStart h) +:+ "," +:+ fmt_d (OldCount h) +:+ " +" +:+ fmt_d (NewStart h) +:+ ","
            +:+ fmt_d (NewCount h) +:+ " @@" = (o +:+ String " " n) +:+ " @@") as ->.
  { subst o n. change (String " " (?n)) with (" " +:+ n). rewrite !string_assoc. done. }
  rewrite before_mark.
  - rewrite SplitN2_app by exact Ho. subst o n.
    rewrite (parseRange_fmt "-"), (parseRange_fmt "+") by (auto; lia). by destruct h.
  - clearbody o. apply no_mark_free; [exact Ho|]. split; [intros _; exact I|]. clearbody n.
    rewrite <- (string_nil_r n). apply no_mark_free; [exact Hn|exact I].
Qed.

(** ** The round trip *)

(** Line numbers are not written. *)
Definition erase_line (l : Line) : Line :=
  {| Content := Content l; Type_ := Type_ l; OldLineNo := 0; NewLineNo := 0 |}.

Definition erase_hunk (h : Hunk) : Hunk := h <| Lines := erase_line <$> Lines h |>.

Definition erase_patch (p : Patch) : Patch := {| Header := Header p; Hunks := erase_hunk <$> Hunks p |}.

(** A changed line that, written, does not look like a file header. *)
Definition clean (l : Line) : Prop :=
  match Type_ l with
  | LineEqual => True
  | LineDelete => HasPrefix (Content l) "-- " = false
  | LineInsert => HasPrefix (Content l) "++ " = false
  end.

Record printable_hunk (h : Hunk) : Prop := {
  printable_numbers : nonneg_numbers h;
  printable_count : OldCount h = count_old (Lines h);
  printable_new_count : NewCount h = count_new (Lines h);
  printable_free : Forall (fun l => free_of nl (Content l)) (Lines h);
  printable_clean : Forall clean (Lines h)
}.

Record printable (p : Patch) : Prop := {
  printable_old : free_of nl (OldFile (Header p));
  printable_new : free_of nl (NewFile (Header p));
  printable_named : ~ (OldFile (Header p) = "" /\ NewFile (Header p) = "" /\ Hunks p = []);
  printable_hunks : Forall printable_hunk (Hunks p)
}.

Lemma parse_hunk_line header hs h l : clean l ->
  parse_line (header, hs, Some h) (line_text l) = Ok (header, hs, Some (h <| Lines := Lines h ++ [erase_line l] |>)).
Proof.
  unfold clean, line_text, parse_line, hunk_line, parsed_line, erase_line.
  destruct (Type_ l); intros Hc; simpl line_prefix.
  - change (" " +:+ Content l) with (String " " (Content l)). assert (HasPrefix (String " " (Content l)) " " = true) as -> by (exact (HasPrefix_app " " (Content l))). done.
  - change ("-" +:+ Content l) with (String "-" (Content l)).
    assert (HasPrefix (String "-" (Content l)) "--- " = false) as -> by exact Hc.
    assert (HasPrefix (String "-" (Content l)) "-" = true) as -> by (exact (HasPrefix_app "-" (Content l))).
    done.
  - change ("+" +:+ Content l) with (String "+" (Content l)).
    assert (HasPrefix (String "+" (Content l)) "+++ " = false) as -> by exact Hc.
    assert (HasPrefix (String "+" (Content l)) "+" = true) as -> by (exact (HasPrefix_app "+" (Content l))).
    done.
Qed.

Lemma parse_hunk_lines header hs ls rest : Forall clean ls -> forall h,
  parse_loop ((line_text <$> ls) ++ rest) (header, hs, Some h) =
  parse_loop rest (header, hs, Some (h <| Lines := Lines h ++ (erase_line <$> ls) |>)).
Proof.
  induction 1 as [|l ls Hl _ IH]; intros h.
  - simpl. rewrite app_nil_r. by destruct h.
  - rewrite fmap_cons. simpl app. cbn [parse_loop]. rewrite parse_hunk_line by done. simpl rbind. rewrite IH.
    simpl. by rewrite <- app_assoc.
Qed.

Lemma count_erase ls : count_old (erase_line <$> ls) = count_old ls /\ count_new (erase_line <$> ls) = count_new ls.
Proof.
  unfold count_old, count_new. induction ls as [|l ls [IH1 IH2]]; [done|]. rewrite fmap_cons, !filter_cons.
  change (Type_ (erase_line l)) with (Type_ l). repeat case_decide; simpl; lia.
Qed.

Lemma finalize_erased h hs : printable_hunk h -> finalizeHunk (Some (erase_hunk h)) hs = Ok (hs ++ [erase_hunk h]).
Proof.
  intros [_ Ho Hn _ _]. unfold finalizeHunk. simpl. destruct (count_erase (Lines h)) as [-> ->].
  by rewrite Ho, Hn, !Z.eqb_refl.
Qed.

Lemma parse_hunks header hs : Forall printable_hunk hs -> forall closed cur closed',
  finalizeHunk cur closed = Ok closed' ->
  (let? (header', hs', cur') := parse_loop (concat (hunk_texts <$> hs)) (header, closed, cur) in
   let? hs' := finalizeHunk cur' hs' in Ok (header', hs')) = Ok (header, closed' ++ (erase_hunk <$> hs)).
Proof.
  induction 1 as [|h hs Hh _ IH]; intros closed cur closed' Hf.
  - simpl. rewrite Hf. simpl. by rewrite app_nil_r.
  - rewrite fmap_cons. simpl concat. cbn [parse_loop].
    assert (parse_line (header, closed, cur) (hunk_header h) = Ok (header, closed', Some (h <| Lines := [] |>))) as ->.
    { unfold parse_line. change (HasPrefix (hunk_header h) "--- ") with false.
      change (HasPrefix (hunk_header h) "+++ ") with false.
      assert (HasPrefix (hunk_header h) "@@ " = true) as -> by reflexivity.
      rewrite Hf, parseHunkHeader_fmt by apply Hh. done. }
    simpl rbind. rewrite parse_hunk_lines by apply Hh. simpl.
    etrans; [apply (IH closed' (Some (erase_hunk h)) (closed' ++ [erase_hunk h])); by apply finalize_erased|].
    by rewrite <- app_assoc.
Qed.

(** Writing a patch and parsing the text gives the patch back. *)
Lemma ParsePatch_unified p : printable p -> ParsePatch (PatchToUnified p) = Ok (erase_patch p).
Proof.
  intros [Ho Hn Hnm Hh]. unfold ParsePatch. rewrite split_unified; [|done|done|..].
  2,3: eapply Forall_impl; [done|]; by intros ? [].
  change (length (patch_texts p) <? 2)%nat with false. unfold patch_texts. cbn [parse_loop].
  assert (forall s st, parse_line st ("--- " +:+ s) =
    let '(header, hs, cur) := st in Ok (header <| OldFile := s |>, hs, cur)) as Hold.
  { intros s [[hd hs] cur]. unfold parse_line. by rewrite HasPrefix_app, TrimPrefix_app. }
  assert (forall s st, parse_line st ("+++ " +:+ s) =
    let '(header, hs, cur) := st in Ok (header <| NewFile := s |>, hs, cur)) as Hnew.
  { intros s [[hd hs] cur]. unfold parse_line. change (HasPrefix ("+++ " +:+ s) "--- ") with false.
    by rewrite HasPrefix_app, TrimPrefix_app. }
  rewrite Hold. cbn [rbind]. rewrite Hnew. cbn [rbind].
  pose proof (parse_hunks (Header p) (Hunks p) Hh [] None [] eq_refl) as Hp. simpl in Hp.
  assert ({| OldFile := OldFile (Header p); NewFile := NewFile (Header p) |} = Header p) as Eh by (by destruct (Header p)).
  cbv [set_field]. simpl. rewrite Eh.
  destruct (parse_loop _ _) as [[[hd hs] cur]|]; [|done]. simpl in Hp |- *.
  destruct (finalizeHunk cur hs) as [hs'|]; [|done]. simpl in Hp |- *. injection Hp as -> ->.
  rewrite decide_False; [done|]. intros (H1 & H2 & H3). apply Hnm. split_and!; [done..|]. by destruct (Hunks p).
Qed.

(** ** Applying does not look at line numbers *)

Lemma verify_erase old ls : forall o, verify_loop old o (erase_line <$> ls) = verify_loop old o ls.
Proof.
  induction ls as [|l ls IH]; intros o; [done|]. simpl.
  destruct (Type_ l); [| |apply IH]; destruct (idx old o); try done; case_decide; [apply IH|done|apply IH|done].
Qed.

Lemma apply_lines_erase old ls : forall st,
  foldl (apply_line old) st (erase_line <$> ls) = foldl (apply_line old) st ls.
Proof. induction ls as [|l ls IH]; intros [o res]; [done|]. simpl. apply IH. Qed.

Lemma extractNewLines_erase h : extractNewLines (erase_hunk h) = extractNewLines h.
Proof.
  unfold extractNewLines. simpl. induction (Lines h) as [|l ls IH]; [done|]. simpl.
  destruct (Type_ l); [done..|]. f_equal. apply IH.
Qed.

Lemma apply_hunk_erase old st h : apply_hunk old st (erase_hunk h) = apply_hunk old st h.
Proof.
  destruct st as [[o res] cs]. unfold apply_hunk, verifyContext, collectContextLines.
  rewrite extractNewLines_erase. simpl. destruct (copy_until _ _ _ _) as [o' res'].
  by rewrite verify_erase, apply_lines_erase.
Qed.

Lemma apply_erase text p : ApplyPatchDirect text (erase_patch p) = ApplyPatchDirect text p.
Proof.
  unfold ApplyPatchDirect. simpl.
  assert (forall st, apply_hunks (splitLines text) (erase_hunk <$> Hunks p) st = apply_hunks (splitLines text) (Hunks p) st) as ->.
  { induction (Hunks p) as [|h hs IH]; intros st; [done|]. rewrite fmap_cons. cbn [apply_hunks]. rewrite apply_hunk_erase.
    destruct (apply_hunk _ st h) as [st'|]; cbn [mbind option_bind]; [apply IH|done]. }
  assert (bool_decide (erase_hunk <$> Hunks p = []) = bool_decide (Hunks p = [])) as -> by (by destruct (Hunks p)).
  done.
Qed.

(** ** Hunks of a diff can be written *)

Lemma count_old_lines ls : count_old ls = Z.of_nat (length (lines_old ls)).
Proof.
  unfold count_old. f_equal. induction ls as [|l ls IH]; [done|]. simpl. rewrite filter_cons.
  destruct (Type_ l); simpl; rewrite ?IH; done.
Qed.

Lemma count_new_lines ls : count_new ls = Z.of_nat (length (lines_new ls)).
Proof.
  unfold count_new. f_equal. induction ls as [|l ls IH]; [done|]. simpl. rewrite filter_cons.
  destruct (Type_ l); simpl; rewrite ?IH; done.
Qed.

Lemma elem_of_lines_old ls l : l ∈ ls -> Type_ l <> LineInsert -> Content l ∈ lines_old ls.
Proof. intros Hl Ht. apply list_elem_of_omap. exists l. split; [done|]. by destruct (Type_ l). Qed.

Lemma elem_of_lines_new ls l : l ∈ ls -> Type_ l <> LineDelete -> Content l ∈ lines_new ls.
Proof. intros Hl Ht. apply list_elem_of_omap. exists l. split; [done|]. by destruct (Type_ l). Qed.

Lemma elem_of_slice l i j x : x ∈ slice l i j -> x ∈ l.
Proof. intros (k & Hk & _)%elem_of_take. revert Hk. rewrite lookup_drop. apply list_elem_of_lookup_2. Qed.

Lemma patched_hunks old hs o res : patched old hs o res -> forall h, h ∈ hs ->
  exists s t, fits old s t h /\ (t + length (lines_new (Lines h)) <= length res)%nat
              /\ forall x, x ∈ lines_new (Lines h) -> x ∈ res.
Proof.
  induction 1 as [|hs o res h s Hp IH Hs _ Hf]; intros h' Hh'; [by apply elem_of_nil in Hh'|].
  apply elem_of_app in Hh' as [Hh'|Hh'].
  - destruct (IH h' Hh') as (s' & t & Hf' & Hl & Hin). exists s', t. rewrite length_app.
    split_and!; [done|lia|]. intros x Hx. apply elem_of_app. left. by apply Hin.
  - apply list_elem_of_singleton in Hh' as ->. exists s, (length res + (s - o))%nat.
    pose proof (fit_bound _ _ _ _ Hf) as Hb. split_and!; [done| |].
    + rewrite !length_app, length_slice by lia. lia.
    + intros x Hx. rewrite !elem_of_app. by right; right.
Qed.

(** The lines of a text that survive being printed as a deletion or insertion. *)
Definition no_dashes (text : string) : Prop := Forall (fun l => HasPrefix l "-- " = false) (splitLines text).
Definition no_pluses (text : string) : Prop := Forall (fun l => HasPrefix l "++ " = false) (splitLines text).

(** A text whose lines can be counted in an int64. *)
Definition countable_lines (text : string) : Prop := Z.of_nat (length (splitLines text)) < 2 ^ 63 - 1.

Lemma diff_printable oldText newText hs o res :
  patched (splitLines oldText) hs o res -> splitLines newText = res ++ drop o (splitLines oldText) ->
  no_dashes oldText -> no_pluses newText -> countable_lines oldText -> countable_lines newText ->
  Forall printable_hunk hs.
Proof.
  intros Hp Hnew Hd Hpl Hco Hcn. apply Forall_forall. intros h Hh.
  destruct (patched_hunks _ _ _ _ Hp h Hh) as (s & t & Hf & Hl & Hin).
  unfold countable_lines in Hco, Hcn. rewrite Hnew, length_app in Hcn.
  assert (forall x, x ∈ lines_new (Lines h) -> x ∈ splitLines newText) as Hin'.
  { intros x Hx. rewrite Hnew, elem_of_app. left. by apply Hin. }
  assert (forall x, x ∈ lines_old (Lines h) -> x ∈ splitLines oldText) as Hio.
  { intros x. rewrite (fit_old _ _ _ _ Hf). apply elem_of_slice. }
  destruct Hf as [Es Ec Ens Enc _ Hb _]. split.
  - unfold nonneg_numbers. rewrite Es, Ec, Ens, Enc. lia.
  - by rewrite count_old_lines.
  - by rewrite count_new_lines.
  - apply Forall_forall. intros l Hl'. pose proof (splitLines_free oldText) as Hfo. pose proof (splitLines_free newText) as Hfn.
    rewrite Forall_forall in Hfo, Hfn. destruct (decide (Type_ l = LineInsert)) as [Et|Et].
    + apply Hfn, Hin', elem_of_lines_new; [done|congruence].
    + by apply Hfo, Hio, elem_of_lines_old.
  - apply Forall_forall. intros l Hl'. unfold clean. unfold no_dashes, no_pluses in *. rewrite Forall_forall in Hd, Hpl.
    destruct (Type_ l) eqn:Et; [done|..].
    + apply Hd, Hio, elem_of_lines_old; [done|congruence].
    + apply Hpl, Hin', elem_of_lines_new; [done|congruence].
Qed.

(** C11: a generated patch applies: on the text it was made from, [ApplyPatch] of
    what [GeneratePatch] wrote reports no conflict and produces the new text,
    for texts of which not both are empty, that end in a newline alike (an empty
    old text counts as ending in one), and whose lines do not begin with
    two dashes or two pluses and a blank. *)
Theorem GeneratePatch_applies oldFile newFile oldText newText :
  oldText <> "" \/ newText <> "" ->
  free_of nl oldFile -> free_of nl newFile -> oldFile <> "" ->
  no_dashes oldText -> no_pluses newText -> countable_lines oldText -> countable_lines newText ->
  newText = "" \/ ends_nl newText = ends_nl oldText || bool_decide (oldText = "") ->
  exists patchText, GeneratePatch oldFile newFile oldText newText = Ok patchText /\
    ApplyPatch oldText patchText = Ok {| Text := newText; Rejected := false; Conflicts := [] |}.
Proof.
  intros Hne Hfo Hfn Hname Hd Hpl Hco Hcn Hend.
  destruct (Diff_patched _ _ Hne) as (hs & o & res & HD & Hp & Hnew).
  unfold GeneratePatch. rewrite HD. cbn [rbind]. eexists. split; [reflexivity|]. unfold ApplyPatch.
  rewrite ParsePatch_unified.
  - cbn [rbind]. rewrite apply_erase. simpl dr_Hunks. erewrite apply_patched by done.
    rewrite <- Hnew. by erewrite render_new.
  - split; simpl; [done|done|tauto|]. by eapply diff_printable.
Qed.


(** ** Examples *)

(** A text from its lines. *)
Definition text_of (lines : list string) : string :=
  foldr (fun l t => l +:+ String nl t) "" lines.

Lemma GeneratePatch_applies_witness :
  exists patchText,
    GeneratePatch "a.txt" "b.txt" (text_of ["one"; "two"; "three"]) (text_of ["one"; "2"; "three"; "four"]) = Ok patchText /\
    ApplyPatch (text_of ["one"; "two"; "three"]) patchText =
      Ok {| Text := text_of ["one"; "2"; "three"; "four"]; Rejected := false; Conflicts := [] |}.
Proof.
  apply (GeneratePatch_applies "a.txt" "b.txt").
  - left. discriminate.
  - repeat split; discriminate.
  - repeat split; discriminate.
  - discriminate.
  - repeat constructor.
  - repeat constructor.
  - reflexivity.
  - reflexivity.
  - right. reflexivity.
Defined.

(** Removing a line that begins with two dashes and a blank, such as a
    comment of SQL or Lua, prints a line that [ParsePatch] takes for a file
    header: [ApplyPatch] refuses the generated patch. *)
Theorem dashed_line_breaks_patch :
  exists patchText,
    GeneratePatch "q.sql" "q.sql" (text_of ["select 1"; "-- note"]) (text_of ["select 1"]) = Ok patchText /\
    ApplyPatch (text_of ["select 1"; "-- note"]) patchText = Err ErrInvalidPatch.
Proof. eexists. split; [vm_compute; reflexivity|]. vm_compute. reflexivity. Qed.

(** A newline at the end that only one of the texts has is not part of the
    diff: the patch leaves the text as it was. *)
Theorem final_newline_not_patched :
  exists patchText,
    GeneratePatch "a" "b" "x" (text_of ["x"]) = Ok patchText /\
    ApplyPatch "x" patchText = Ok {| Text := "x"; Rejected := false; Conflicts := [] |}.
Proof. eexists. split; [vm_compute; reflexivity|]. vm_compute. reflexivity. Qed.
