(* ===== verification/Merge.v ===== *)
(** Three-way merges (diffpatch/merge.go): the changes of the two sides against
    the base, conflicts between them, and the merged text with or without
    conflict markers. *)

From stdpp Require Import base tactics option numbers list gmap strings.
From Stdlib Require Import ZArith Lia Ascii.
From S2P Require Import Prelude GoStrings Myers Diff.

Import Myers Diff.

Module Merge.

Record MergeResult := { mr_Text : string; HasConflicts : bool; mr_Conflicts : list ConflictRange }.

Record change := { oldStart : Z; oldEnd : Z; newLines : list string }.

(** ** Changes of a diff *)

(** The local variables of [diffToChanges] within a hunk. *)
Record collector := { changes : list change; deleted : Z; inserted : list string; changeStart : Z }.

#[export] Instance collector_eta : Eta collector :=
  fun c => {| changes := changes c; deleted := deleted c; inserted := inserted c; changeStart := changeStart c |}.

(** [if deleted > 0 || len(inserted) > 0]: the change is recorded. *)
Definition flush_change (c : collector) : collector :=
  if (0 <? deleted c) || (0 <? Z.of_nat (length (inserted c))) then
    {| changes := changes c ++ [{| oldStart := changeStart c; oldEnd := changeStart c + deleted c;
                                   newLines := inserted c |}];
       deleted := 0; inserted := []; changeStart := changeStart c |}
  else c.

Definition collect_line (c : collector) (l : Line) : collector :=
  match Type_ l with
  | LineDelete => c <| deleted := deleted c + 1 |>
  | LineInsert => c <| inserted := inserted c ++ [Content l] |>
  | LineEqual => (flush_change c) <| changeStart := OldLineNo l |>
  end.

Definition hunk_changes (cs : list change) (h : Hunk) : list change :=
  let start := Z.max 0 (OldStart h - 1) in
  changes (flush_change (foldl collect_line
    {| changes := cs; deleted := 0; inserted := []; changeStart := start |} (Lines h))).

Definition diffToChanges (d : DiffResult) : list change := foldl hunk_changes [] (dr_Hunks d).

(** ** Conflicts *)

Definition rangesOverlap (aStart aEnd bStart bEnd : Z) : bool :=
  if aStart =? bStart then true
  else if (aStart <? bEnd) && (bStart <? aEnd) then true
  else false.

Definition sameContent (a b : list string) : bool := bool_decide (a = b).

Definition detectConflicts (oursChanges theirsChanges : list change) : list ConflictRange :=
  oc ← oursChanges;
  tc ← theirsChanges;
  if rangesOverlap (oldStart oc) (oldEnd oc) (oldStart tc) (oldEnd tc) then
    if negb (sameContent (newLines oc) (newLines tc)) then
      [{| StartLine := oldStart oc + 1; EndLine := oldEnd oc; Ours := newLines oc; Theirs := newLines tc; Base := [] |}]
    else []
  else [].

(** ** Merging the changes *)

(** The inner loop of the exchange sort: [x] is [all[i]], the list what follows. *)
Fixpoint exchange (x : change) (l : list change) : change * list change :=
  match l with
  | [] => (x, [])
  | y :: l =>
      if oldStart y <? oldStart x
      then let '(h, l) := exchange y l in (h, x :: l)
      else let '(h, l) := exchange x l in (h, y :: l)
  end.

Fixpoint exchange_sort (fuel : nat) (l : list change) : list change :=
  match fuel, l with
  | S fuel, x :: l => let '(h, l) := exchange x l in h :: exchange_sort fuel l
  | _, _ => l
  end.

Fixpoint dedup_loop (seen : gset Z) (l : list change) : list change :=
  match l with
  | [] => []
  | c :: l => if decide (oldStart c ∈ seen) then dedup_loop seen l
              else c :: dedup_loop ({[oldStart c]} ∪ seen) l
  end.

Definition deduplicateChanges (l : list change) : list change := dedup_loop ∅ l.

Definition mergeChanges (oursChanges theirsChanges : list change) : list change :=
  let all := oursChanges ++ theirsChanges in
  deduplicateChanges (exchange_sort (length all) all).

(** [for baseIdx < ch.oldStart && baseIdx < len(baseLines)]. *)
Fixpoint copy_base (fuel : nat) (baseLines : list string) (limit baseIdx : Z) (res : list string) : Z * list string :=
  match fuel with
  | O => (baseIdx, res)
  | S fuel =>
      if baseIdx <? limit then
        match idx baseLines baseIdx with
        | Some l => copy_base fuel baseLines limit (baseIdx + 1) (res ++ [l])
        | None => (baseIdx, res)
        end
      else (baseIdx, res)
  end.

Definition apply_change (baseLines : list string) (st : Z * list string) (ch : change) : Z * list string :=
  let '(baseIdx, res) := copy_base (length baseLines) baseLines (oldStart ch) (fst st) (snd st) in
  (if baseIdx <? oldEnd ch then oldEnd ch else baseIdx, res ++ newLines ch).

Definition applyBothChanges (baseLines : list string) (oursChanges theirsChanges : list change) : string :=
  let '(baseIdx, res) := foldl (apply_change baseLines) (0, []) (mergeChanges oursChanges theirsChanges) in
  join_lines (res ++ drop (Z.to_nat baseIdx) baseLines).

Definition is_conflict (conflicts : list ConflictRange) (ch : change) : bool :=
  existsb (fun c => (StartLine c - 1 <=? oldStart ch) && (oldStart ch <? EndLine c)) conflicts.

Definition content_at (cs : list change) (start : Z) : list string :=
  match List.find (fun c => oldStart c =? start) cs with Some c => newLines c | None => [] end.

Definition mark_change (baseLines : list string) (oursChanges theirsChanges : list change)
    (conflicts : list ConflictRange) (st : Z * list string) (ch : change) : Z * list string :=
  let '(_, res) := copy_base (length baseLines) baseLines (oldStart ch) (fst st) (snd st) in
  let res :=
    if is_conflict conflicts ch then
      res ++ ["<<<<<<< ours"] ++ content_at oursChanges (oldStart ch) ++ ["======="]
          ++ content_at theirsChanges (oldStart ch) ++ [">>>>>>> theirs"]
    else res ++ newLines ch in
  (oldEnd ch, res).

Definition mergeWithConflictMarkers (baseLines : list string) (oursChanges theirsChanges : list change)
    (conflicts : list ConflictRange) : string :=
  let '(baseIdx, res) := foldl (mark_change baseLines oursChanges theirsChanges conflicts) (0, [])
                               (mergeChanges oursChanges theirsChanges) in
  join_lines (res ++ drop (Z.to_nat baseIdx) baseLines).

Definition ThreeWayMerge (baseText oursText theirsText : string) : result Error MergeResult :=
  if decide (baseText = oursText) then Ok {| mr_Text := theirsText; HasConflicts := false; mr_Conflicts := [] |}
  else if decide (baseText = theirsText) then Ok {| mr_Text := oursText; HasConflicts := false; mr_Conflicts := [] |}
  else if decide (oursText = theirsText) then Ok {| mr_Text := oursText; HasConflicts := false; mr_Conflicts := [] |}
  else
    let? oursDiff := Diff baseText oursText in
    let? theirsDiff := Diff baseText theirsText in
    let oursChanges := diffToChanges oursDiff in
    let theirsChanges := diffToChanges theirsDiff in
    let conflicts := detectConflicts oursChanges theirsChanges in
    if decide (length conflicts = 0%nat) then
      Ok {| mr_Text := applyBothChanges (splitLines baseText) oursChanges theirsChanges;
            HasConflicts := false; mr_Conflicts := [] |}
    else
      Ok {| mr_Text := mergeWithConflictMarkers (splitLines baseText) oursChanges theirsChanges conflicts;
            HasConflicts := true; mr_Conflicts := conflicts |}.

Fixpoint write_plain (lines : list string) : string :=
  match lines with [] => "" | l :: lines => l +:+ String nl "" +:+ write_plain lines end.

Definition FormatConflict (c : ConflictRange) : string :=
  ("<<<<<<< ours" +:+ String nl "") +:+ write_plain (Ours c) +:+ ("=======" +:+ String nl "")
    +:+ write_plain (Theirs c) +:+ (">>>>>>> theirs" +:+ String nl "").

End Merge.
