(* ===== verification/MergeProofs.v ===== *)
(** Merging changes that do not touch applies both sides, whichever is called
    ours; and where merges of changes that touch lose text. *)

From stdpp Require Import base tactics option numbers list gmap sets strings sorting.
From Stdlib Require Import ZArith Lia Ascii.
From S2P Require Import Prelude GoStrings Myers MyersProofs Diff DiffProofs PatchProofs Merge.

Import Myers Diff Merge.

(** ** Changes applied in order *)

(** The changes, at increasing places, turn the first [i] lines of [base] into
    [res]. *)
Inductive replayed (base : list string) : list change -> nat -> list string -> Prop :=
| replayed_nil : replayed base [] 0 []
| replayed_snoc cs i res c s e :
    replayed base cs i res ->
    oldStart c = Z.of_nat s -> oldEnd c = Z.of_nat e ->
    (i <= s)%nat -> (s <= e)%nat -> (e <= length base)%nat ->
    Forall (fun c' => oldStart c' < oldStart c) cs ->
    replayed base (cs ++ [c]) e (res ++ slice base i s ++ newLines c).

(** The changes turn [base] into [lines]. *)
Definition replays (base : list string) (cs : list change) (lines : list string) : Prop :=
  exists i res, replayed base cs i res /\ lines = res ++ drop i base.

Lemma replayed_starts base cs i res : replayed base cs i res ->
  Forall (fun c => 0 <= oldStart c <= oldEnd c /\ oldEnd c <= Z.of_nat i) cs /\ (i <= length base)%nat.
Proof.
  induction 1 as [|cs i res c s e Hr [IH Hi] Hs He His Hse Heb Hlt]; [split; [constructor|lia]|].
  split; [|done]. apply Forall_app. split; [|repeat constructor; lia].
  eapply Forall_impl; [exact IH|]. simpl. intros c' Hc'. lia.
Qed.

(** ** A diff's changes *)

Section collect.
Context (base : list string) (s o : nat) (res : list string).

(** After the lines [L] of a hunk that begins before line [s]. *)
Definition collected (L : list Line) (c : collector) : Prop :=
  exists i r p d, replayed base (changes c) i r /\ changeStart c = Z.of_nat p /\ deleted c = Z.of_nat d /\
    (p + d = s + length (lines_old L))%nat /\ (i <= p)%nat /\
    Forall (fun ch => oldStart ch < Z.of_nat p) (changes c) /\
    res ++ slice base o s ++ lines_new L = r ++ slice base i p ++ inserted c.

Lemma flush_collected L c : collected L c -> (s + length (lines_old L) <= length base)%nat ->
  exists i r, replayed base (changes (flush_change c)) i r /\ (i <= s + length (lines_old L))%nat /\
    inserted (flush_change c) = [] /\ deleted (flush_change c) = 0 /\
    res ++ slice base o s ++ lines_new L = r ++ slice base i (s + length (lines_old L)).
Proof.
  intros (i & r & p & d & Hr & Hp & Hd & Hpd & Hip & Hlt & Hnew) Hb. unfold flush_change.
  destruct ((0 <? deleted c) || (0 <? Z.of_nat (length (inserted c)))) eqn:E; simpl.
  - exists (p + d)%nat, (r ++ slice base i p ++ inserted c). split_and!; [|lia|done|done|].
    + apply (replayed_snoc _ _ _ _ {| newLines := inserted c |} p); simpl; try lia; done || (rewrite ?Hp; done).
    + by rewrite Hnew, Hpd, slice_self, app_nil_r.
  - apply orb_false_iff in E as [E1 E2]. bools. assert (inserted c = []) as Ei by (destruct (inserted c); simpl in *; [done|lia]).
    exists i, r. rewrite Ei, app_nil_r in Hnew. split_and!; [done|lia|done|lia|].
    rewrite <- Hpd. by replace (p + d)%nat with p by lia.
Qed.

Lemma collect_collected L c l : collected L c -> numbered s (L ++ [l]) -> 
  lines_old (L ++ [l]) = slice base s (s + length (lines_old (L ++ [l]))) ->
  (s + length (lines_old (L ++ [l])) <= length base)%nat ->
  collected (L ++ [l]) (collect_line c l).
Proof.
  intros Hc Hn Hold Hb. rewrite numbered_app in Hn. destruct Hn as [_ Hn].
  rewrite lines_old_app, length_app in Hold, Hb. unfold collect_line, collected.
  rewrite lines_old_app, lines_new_app, length_app. simpl in *. destruct (Type_ l) eqn:Et; simpl in *.
  - destruct (flush_collected _ _ Hc ltac:(lia)) as (i & r & Hr & Hi & Ei & Ed & Hnew).
    destruct (replayed_starts _ _ _ _ Hr) as [Hst _].
    exists i, r, (s + length (lines_old L) + 1)%nat, 0%nat. split_and!; [done|lia|lia|lia|lia| |].
    + eapply Forall_impl; [exact Hst|]. simpl. intros c' Hc'. lia.
    + rewrite Ei, app_nil_r, <- (slice_join base i (s + length (lines_old L))) by lia.
      rewrite !app_assoc in *. rewrite Hnew. f_equal.
      rewrite <- (slice_join base s (s + length (lines_old L))) in Hold by lia.
      apply app_inj_1 in Hold as [_ Hl]; [|rewrite length_slice; lia].
      rewrite Hl. f_equal. lia.
  - destruct Hc as (i & r & p & d & Hr & Hp & Hd & Hpd & Hip & Hlt & Hnew).
    exists i, r, p, (S d). rewrite app_nil_r. split_and!; try done; lia.
  - destruct Hc as (i & r & p & d & Hr & Hp & Hd & Hpd & Hip & Hlt & Hnew).
    exists i, r, p, d. rewrite Nat.add_0_r. split_and!; try done.
    rewrite !app_assoc. rewrite !app_assoc in Hnew. by rewrite Hnew.
Qed.

Lemma collect_all rest : forall L c, collected L c -> numbered s (L ++ rest) ->
  lines_old (L ++ rest) = slice base s (s + length (lines_old (L ++ rest))) ->
  (s + length (lines_old (L ++ rest)) <= length base)%nat ->
  collected (L ++ rest) (foldl collect_line c rest).
Proof.
  induction rest as [|l rest IH]; intros L c Hc Hn Hold Hb; simpl.
  - by rewrite app_nil_r.
  - rewrite cons_middle, app_assoc in *. apply IH; [|done..].
    rewrite numbered_app in Hn. destruct Hn as [Hn _].
    rewrite lines_old_app, length_app in Hold, Hb.
    rewrite <- (slice_join base s (s + length (lines_old (L ++ [l])))) in Hold by lia.
    apply app_inj_1 in Hold as [Hold _]; [|rewrite length_slice; lia].
    apply collect_collected; [done..|lia].
Qed.

End collect.

Lemma hunks_replayed base hs o res : patched base hs o res ->
  exists i r, replayed base (foldl hunk_changes [] hs) i r /\ (i <= o)%nat /\ res = r ++ slice base i o.
Proof.
  induction 1 as [|hs o res h s Hp (i & r & Hr & Hio & Hres) Hs Hlead Hf].
  - exists 0%nat, []. split_and!; [constructor|lia|done].
  - rewrite foldl_app. simpl. set (cs := foldl hunk_changes [] hs) in *.
    destruct Hf as [Es _ _ _ Hold Hb Hnum]. unfold hunk_changes. rewrite Es.
    replace (Z.max 0 (Z.of_nat (S s) - 1)) with (Z.of_nat s) by lia.
    set (c0 := {| changes := cs; deleted := 0; inserted := []; changeStart := Z.of_nat s |}).
    assert (res ++ slice base o s = r ++ slice base i s) as Hmid.
    { by rewrite Hres, <- app_assoc, slice_join by lia. }
    destruct (Lines h) as [|l ls] eqn:El.
    { exists i, r. simpl. rewrite Nat.add_0_r, app_nil_r. split_and!; [done|lia|done]. }
    assert (collected base s o res (l :: ls) (foldl collect_line c0 (l :: ls))) as Hc.
    { destruct (replayed_starts _ _ _ _ Hr) as [Hst _]. destruct Hlead as [-> |Hl].
      - apply (collect_all base s o res (l :: ls) []); [|done|done|done].
        exists i, r, s, 0%nat. simpl. rewrite !app_nil_r. split_and!; (done || lia).
      - specialize (Hl l eq_refl). simpl foldl. apply (collect_all base s o res ls [l]); [|done|done|done].
        simpl in Hnum, Hold, Hb. unfold collect_line. rewrite Hl in *. simpl in *.
        exists i, r, (S s), 0%nat. simpl. rewrite Hl. simpl. split_and!; try (done || lia).
        + eapply Forall_impl; [exact Hst|]. simpl. intros c' Hc'. lia.
        + symmetry in Hold. apply slice_cons in Hold as [Hl0 _].
          rewrite app_nil_r, (slice_snoc base i s (Content l)) by (lia || done). rewrite !app_assoc. by rewrite Hmid. }
    destruct (flush_collected _ _ _ _ _ _ Hc Hb) as (i' & r' & Hr' & Hi' & _ & _ & Hnew).
    exists i', r'. split_and!; [exact Hr'|done|done].
Qed.

Lemma Diff_changes baseText text : baseText <> "" \/ text <> "" ->
  exists d, Diff baseText text = Ok d /\ replays (splitLines baseText) (diffToChanges d) (splitLines text).
Proof.
  intros Hne. destruct (Diff_patched _ _ Hne) as (hs & o & res & HD & Hp & Hnew). exists {| dr_Hunks := hs |}.
  split; [done|]. destruct (hunks_replayed _ _ _ _ Hp) as (i & r & Hr & Hi & Hres). exists i, r. split; [exact Hr|].
  pose proof (patched_bound _ _ _ _ Hp) as Hb.
  rewrite Hnew, Hres, <- app_assoc, <- !slice_end, slice_join by lia. done.
Qed.

(** ** Applying changes *)

Lemma copy_base_spec base s : (s <= length base)%nat -> forall fuel (i : nat) res, (i <= s)%nat -> (s - i <= fuel)%nat ->
  copy_base fuel base (Z.of_nat s) (Z.of_nat i) res = (Z.of_nat s, res ++ slice base i s).
Proof.
  intros Hs. induction fuel as [|fuel IH]; intros i res Hi Hf; simpl.
  - replace s with i by lia. by rewrite slice_self, app_nil_r.
  - destruct (Z.ltb_spec (Z.of_nat i) (Z.of_nat s)).
    + rewrite idx_nat. destruct (lookup_lt_is_Some_2 base i) as [x Hx]; [lia|]. rewrite Hx.
      replace (Z.of_nat i + 1) with (Z.of_nat (S i)) by lia. rewrite IH by lia.
      rewrite <- app_assoc, <- (slice_one _ _ _ Hx), slice_join by lia. done.
    + replace s with i by lia. by rewrite slice_self, app_nil_r.
Qed.

Lemma replayed_applies base cs i res : replayed base cs i res ->
  foldl (apply_change base) (0, []) cs = (Z.of_nat i, res).
Proof.
  induction 1 as [|cs i res c s e Hr IH Hs He His Hse Heb Hlt]; [done|].
  rewrite foldl_app, IH. simpl. unfold apply_change. simpl. rewrite Hs, copy_base_spec by lia. rewrite He.
  rewrite app_assoc. destruct (Z.ltb_spec (Z.of_nat s) (Z.of_nat e)); [done|]. by replace e with s by lia.
Qed.

(** ** The merged list of changes *)

Definition starts_before (c c' : change) : Prop := oldStart c < oldStart c'.

Lemma exchange_perm x l : forall h l', exchange x l = (h, l') -> h :: l' ≡ₚ x :: l.
Proof.
  revert x. induction l as [|y l IH]; intros x h l' E; simpl in E; [by simplify_eq|].
  case_match; destruct (exchange _ l) as [h' l''] eqn:E'; simplify_eq; apply IH in E';
    rewrite (Permutation_swap _ h), E'; [|by rewrite (Permutation_swap x)]. done.
Qed.

Lemma exchange_least x l : forall h l', exchange x l = (h, l') -> Forall (fun c => oldStart h <= oldStart c) (x :: l).
Proof.
  revert x. induction l as [|y l IH]; intros x h l' E; simpl in E; [simplify_eq; by repeat constructor|].
  destruct (Z.ltb_spec (oldStart y) (oldStart x)); destruct (exchange _ l) as [h' l''] eqn:E'; simplify_eq; apply IH in E';
    apply Forall_cons in E' as [E1 E2]; repeat (constructor; [lia|]); done.
Qed.

Lemma exchange_sort_spec fuel l : (length l <= fuel)%nat ->
  exchange_sort fuel l ≡ₚ l /\ StronglySorted (fun c c' => oldStart c <= oldStart c') (exchange_sort fuel l).
Proof.
  revert l. induction fuel as [|fuel IH]; intros [|x l] Hl; simpl in *; try lia; try (split; [done|constructor]).
  destruct (exchange x l) as [h l'] eqn:E. pose proof (exchange_perm _ _ _ _ E) as Hp. pose proof (exchange_least _ _ _ _ E) as Hle.
  assert (length l' = length l) as Hl' by (apply Permutation_length in Hp; simpl in Hp; lia).
  destruct (IH l') as [IH1 IH2]; [lia|]. split; [by rewrite IH1|]. constructor; [done|].
  rewrite IH1. rewrite <- Hp in Hle. by apply Forall_cons in Hle as [_ ?].
Qed.

Lemma dedup_distinct l : forall seen, NoDup (oldStart <$> l) -> (forall c, c ∈ l -> oldStart c ∉ seen) -> dedup_loop seen l = l.
Proof.
  induction l as [|c l IH]; intros seen Hnd Hs; [done|]. simpl. apply NoDup_cons in Hnd as [Hc Hnd].
  rewrite decide_False by (apply Hs; set_solver). f_equal. apply IH; [done|].
  intros c' Hc'. apply not_elem_of_union. split; [|apply Hs; set_solver]. apply not_elem_of_singleton.
  intros E. apply Hc. rewrite <- E. by apply list_elem_of_fmap_2.
Qed.

Lemma mergeChanges_spec ours theirs : NoDup (oldStart <$> ours ++ theirs) ->
  mergeChanges ours theirs ≡ₚ ours ++ theirs /\ StronglySorted starts_before (mergeChanges ours theirs).
Proof.
  intros Hnd. unfold mergeChanges, deduplicateChanges.
  destruct (exchange_sort_spec (length (ours ++ theirs)) (ours ++ theirs)) as [Hp Hs]; [lia|].
  set (l := exchange_sort _ _) in *. rewrite <- Hp in Hnd. rewrite dedup_distinct by set_solver. split; [done|].
  clear Hp. induction Hs as [|c l Hs IH Hc]; [constructor|]. apply NoDup_cons in Hnd as [Hn Hnd].
  constructor; [by apply IH|]. rewrite Forall_forall in *. intros c' Hc'. specialize (Hc c' Hc'). unfold starts_before.
  assert (oldStart c <> oldStart c'); [|lia]. intros E. apply Hn. rewrite E. by apply list_elem_of_fmap_2.
Qed.

Lemma mergeChanges_comm ours theirs : NoDup (oldStart <$> ours ++ theirs) ->
  mergeChanges theirs ours = mergeChanges ours theirs.
Proof.
  intros Hnd. destruct (mergeChanges_spec _ _ Hnd) as [Hp Hs].
  destruct (mergeChanges_spec theirs ours) as [Hp' Hs']; [by rewrite (Permutation_app_comm theirs)|].
  apply (StronglySorted_unique_strong starts_before); [|done|done|by rewrite Hp, Hp', (Permutation_app_comm theirs)].
  intros x y. unfold starts_before. lia.
Qed.

(** Changes one after the other, sorted by their start, can be replayed. *)
Lemma replayed_sorted base cs : StronglySorted starts_before cs ->
  (forall c, c ∈ cs -> 0 <= oldStart c <= oldEnd c /\ oldEnd c <= Z.of_nat (length base)) ->
  (forall c c', c ∈ cs -> c' ∈ cs -> oldStart c < oldStart c' -> oldEnd c <= oldStart c') ->
  exists i res, replayed base cs i res /\ (i = 0%nat \/ exists c, c ∈ cs /\ oldEnd c = Z.of_nat i).
Proof.
  induction cs as [|c cs IH] using rev_ind; intros Hs Hb Hd.
  - exists 0%nat, []. split; [constructor|by left].
  - apply StronglySorted_app in Hs as (Hlt & Hs & _).
    destruct IH as (i & res & Hr & Hi); [done|set_solver..|].
    destruct (Hb c) as [Hc1 Hc2]; [set_solver|].
    exists (Z.to_nat (oldEnd c)). eexists. split.
    + eapply (replayed_snoc _ _ _ _ c (Z.to_nat (oldStart c))); try done; try lia.
      * destruct Hi as [->|(c' & Hc' & Hi)]; [lia|].
        assert (oldEnd c' <= oldStart c); [|lia]. apply Hd; [set_solver|set_solver|].
        apply Hlt; [done|set_solver].
      * apply Forall_forall. intros c' Hc'. apply Hlt; [done|set_solver].
    + right. exists c. split; [set_solver|lia].
Qed.

Lemma replayed_apart base cs i res : replayed base cs i res ->
  NoDup (oldStart <$> cs) /\
  forall c c', c ∈ cs -> c' ∈ cs -> oldStart c < oldStart c' -> oldEnd c <= oldStart c'.
Proof.
  induction 1 as [|cs i res c s e Hr [IH1 IH2] Hs He His Hse Heb Hlt]; [split; [constructor|set_solver]|].
  rewrite Forall_forall in Hlt. destruct (replayed_starts _ _ _ _ Hr) as [Hst _]. rewrite Forall_forall in Hst. split.
  - rewrite fmap_app. apply NoDup_app. split_and!; [done| |apply NoDup_singleton].
    intros z (c' & -> & Hc')%list_elem_of_fmap. simpl. rewrite list_elem_of_singleton. specialize (Hlt _ Hc'). simpl in Hlt. lia.
  - intros c1 c2 [H1|H1%list_elem_of_singleton]%elem_of_app [H2|H2%list_elem_of_singleton]%elem_of_app Hc; subst.
    + by apply IH2.
    + specialize (Hst _ H1). simpl in Hst. lia.
    + specialize (Hlt _ H2). simpl in Hlt. lia.
    + lia.
Qed.

(** No change of one side touches one of the other. *)
Definition untouching (ours theirs : list change) : Prop :=
  forall oc tc, oc ∈ ours -> tc ∈ theirs ->
    rangesOverlap (oldStart oc) (oldEnd oc) (oldStart tc) (oldEnd tc) = false.

Lemma rangesOverlap_false a b c d : a <= b -> c <= d -> rangesOverlap a b c d = false <-> a <> c /\ (a < c -> b <= c) /\ (c < a -> d <= a).
Proof.
  intros. unfold rangesOverlap. destruct (Z.eqb_spec a c); [split; [done|lia]|].
  destruct (Z.ltb_spec a d), (Z.ltb_spec c b); simpl; split; intros; try done; lia.
Qed.

Lemma no_conflicts ours theirs : untouching ours theirs -> detectConflicts ours theirs = [].
Proof.
  intros H. unfold detectConflicts. apply elem_of_nil_inv. intros x Hx.
  apply list_elem_of_bind in Hx as (oc & Hx & Ho). apply list_elem_of_bind in Hx as (tc & Hx & Ht).
  rewrite H in Hx by done. by apply elem_of_nil in Hx.
Qed.

Section merge.
Context (base : list string) (ours theirs : list change) (oursLines theirsLines : list string).
Hypothesis (Hours : replays base ours oursLines) (Htheirs : replays base theirs theirsLines).
Hypothesis (Hu : untouching ours theirs).

Lemma side_bounds cs lines : replays base cs lines ->
  forall c, c ∈ cs -> 0 <= oldStart c <= oldEnd c /\ oldEnd c <= Z.of_nat (length base).
Proof.
  intros (i & res & Hr & _) c Hc. destruct (replayed_starts _ _ _ _ Hr) as [Hst Hi].
  rewrite Forall_forall in Hst. specialize (Hst c Hc). simpl in Hst. lia.
Qed.

Lemma untouching_sym : untouching theirs ours.
Proof.
  intros tc oc Ht Ho. specialize (Hu oc tc Ho Ht).
  pose proof (side_bounds _ _ Hours _ Ho). pose proof (side_bounds _ _ Htheirs _ Ht).
  rewrite rangesOverlap_false in * by lia. lia.
Qed.

Lemma merged_starts : NoDup (oldStart <$> ours ++ theirs).
Proof.
  destruct Hours as (i & r & Hro & _), Htheirs as (j & t & Hrt & _).
  destruct (replayed_apart _ _ _ _ Hro) as [Ho _]. destruct (replayed_apart _ _ _ _ Hrt) as [Ht _].
  rewrite fmap_app. apply NoDup_app. split_and!; [done| |done].
  intros z (oc & -> & Hoc)%list_elem_of_fmap (tc & E & Htc)%list_elem_of_fmap.
  specialize (Hu _ _ Hoc Htc). unfold rangesOverlap in Hu. by rewrite E, Z.eqb_refl in Hu.
Qed.

Lemma merged_replays : exists lines, replays base (mergeChanges ours theirs) lines /\
  applyBothChanges base ours theirs = join_lines lines.
Proof.
  destruct (mergeChanges_spec _ _ merged_starts) as [Hp Hs].
  pose proof (side_bounds _ _ Hours) as Hbo. pose proof (side_bounds _ _ Htheirs) as Hbt.
  destruct Hours as (i & r & Hro & _), Htheirs as (j & t & Hrt & _).
  destruct (replayed_apart _ _ _ _ Hro) as [_ Ho]. destruct (replayed_apart _ _ _ _ Hrt) as [_ Ht].
  destruct (replayed_sorted base (mergeChanges ours theirs) Hs) as (k & res & Hr & _).
  - intros c. rewrite Hp, elem_of_app. intros [Hc|Hc]; [by apply Hbo|by apply Hbt].
  - intros c c'. rewrite Hp, !elem_of_app. intros [Hc|Hc] [Hc'|Hc'] Hlt; [by apply Ho| | |by apply Ht].
    + specialize (Hu _ _ Hc Hc'). specialize (Hbo _ Hc). specialize (Hbt _ Hc').
      rewrite rangesOverlap_false in Hu by lia. lia.
    + specialize (Hu _ _ Hc' Hc). specialize (Hbo _ Hc'). specialize (Hbt _ Hc).
      rewrite rangesOverlap_false in Hu by lia. lia.
  - exists (res ++ drop k base). split; [by exists k, res|]. unfold applyBothChanges.
    rewrite (replayed_applies _ _ _ _ Hr). by rewrite Nat2Z.id.
Qed.

End merge.

(** C22: when no change of one side touches a change of the other, a merge
    succeeds without conflicts, the merged lines are those of the base with the
    changes of both sides applied (and of nothing else), where the changes of
    each side alone turn the base into that side's text; the result is the same
    when the sides are exchanged. *)
Theorem merge_applies_both baseText oursText theirsText oursDiff theirsDiff :
  baseText <> oursText -> baseText <> theirsText -> oursText <> theirsText ->
  Diff baseText oursText = Ok oursDiff -> Diff baseText theirsText = Ok theirsDiff ->
  untouching (diffToChanges oursDiff) (diffToChanges theirsDiff) ->
  replays (splitLines baseText) (diffToChanges oursDiff) (splitLines oursText) /\
  replays (splitLines baseText) (diffToChanges theirsDiff) (splitLines theirsText) /\
  exists cs lines,
    cs ≡ₚ diffToChanges oursDiff ++ diffToChanges theirsDiff /\
    replays (splitLines baseText) cs lines /\
    ThreeWayMerge baseText oursText theirsText = Ok {| mr_Text := join_lines lines; HasConflicts := false; mr_Conflicts := [] |} /\
    ThreeWayMerge baseText theirsText oursText = Ok {| mr_Text := join_lines lines; HasConflicts := false; mr_Conflicts := [] |}.
Proof.
  intros Hbo Hbt Hot Ho Ht Hu.
  destruct (Diff_changes baseText oursText) as (d & E & Hours); [destruct baseText; [right|left]; congruence|].
  rewrite Ho in E. injection E as <-.
  destruct (Diff_changes baseText theirsText) as (d & E & Htheirs); [destruct baseText; [right|left]; congruence|].
  rewrite Ht in E. injection E as <-. split_and!; [done..|].
  destruct (merged_replays _ _ _ _ _ Hours Htheirs Hu) as (lines & Hl & Hm).
  pose proof (merged_starts _ _ _ _ _ Hours Htheirs Hu) as Hnd.
  exists (mergeChanges (diffToChanges oursDiff) (diffToChanges theirsDiff)), lines.
  split; [by apply mergeChanges_spec|]. split; [done|].
  unfold ThreeWayMerge. rewrite !decide_False by congruence. rewrite Ho, Ht. cbn [rbind].
  rewrite (no_conflicts _ _ Hu), (no_conflicts _ _ (untouching_sym _ _ _ _ _ Hours Htheirs Hu)), !decide_True by done.
  unfold applyBothChanges in *. rewrite (mergeChanges_comm (diffToChanges oursDiff)) by done. by rewrite Hm.
Qed.

(** ** Examples *)

Definition num_base : string := text_of ["1"; "2"; "3"; "4"; "5"].
Definition num_ours : string := text_of ["1"; "two"; "3"; "4"; "5"].
Definition num_theirs : string := text_of ["1"; "2"; "3"; "4"; "five"; "6"].

(** The diff of two texts, for texts that have one. *)
Definition diff_of (a b : string) : DiffResult :=
  match Diff a b with Ok d => d | Err _ => {| dr_Hunks := [] |} end.

Lemma merge_applies_both_witness :
  exists cs lines,
    cs ≡ₚ diffToChanges (diff_of num_base num_ours) ++ diffToChanges (diff_of num_base num_theirs) /\
    replays (splitLines num_base) cs lines /\
    ThreeWayMerge num_base num_ours num_theirs = Ok {| mr_Text := join_lines lines; HasConflicts := false; mr_Conflicts := [] |} /\
    ThreeWayMerge num_base num_theirs num_ours = Ok {| mr_Text := join_lines lines; HasConflicts := false; mr_Conflicts := [] |}.
Proof.
  refine (proj2 (proj2 (merge_applies_both num_base num_ours num_theirs (diff_of num_base num_ours)
    (diff_of num_base num_theirs) _ _ _ _ _ _))); [discriminate..|vm_compute; reflexivity|vm_compute; reflexivity|].
  assert (diffToChanges (diff_of num_base num_ours) = [{| oldStart := 1; oldEnd := 2; newLines := ["two"] |}]) as -> by (vm_compute; reflexivity).
  assert (diffToChanges (diff_of num_base num_theirs) = [{| oldStart := 4; oldEnd := 5; newLines := ["five"; "6"] |}]) as -> by (vm_compute; reflexivity).
  intros oc tc ->%list_elem_of_singleton ->%list_elem_of_singleton. reflexivity.
Defined.

(** Deletions that begin at the same line are not a conflict, but only the
    first is kept: when ours deletes one line and theirs that line and the
    next, the merge reports no conflict and the second line is back; with the
    sides exchanged it is gone. *)
Theorem merge_drops_deletion :
  ThreeWayMerge (text_of ["a"; "b"; "c"]) (text_of ["b"; "c"]) (text_of ["c"]) =
    Ok {| mr_Text := join_lines ["b"; "c"]; HasConflicts := false; mr_Conflicts := [] |} /\
  ThreeWayMerge (text_of ["a"; "b"; "c"]) (text_of ["c"]) (text_of ["b"; "c"]) =
    Ok {| mr_Text := "c"; HasConflicts := false; mr_Conflicts := [] |}.
Proof. split; vm_compute; reflexivity. Qed.

(** Two different insertions at the same place are reported as a conflict, but
    the text has no markers and only one of them. *)
Theorem conflicting_insertions_unmarked :
  exists cs, length cs = 1%nat /\
    ThreeWayMerge (text_of ["a"; "z"]) (text_of ["a"; "x"; "z"]) (text_of ["a"; "y"; "z"]) =
      Ok {| mr_Text := join_lines ["a"; "x"; "z"]; HasConflicts := true; mr_Conflicts := cs |}.
Proof. eexists. split; [|vm_compute; reflexivity]. reflexivity. Qed.
