(* ===== verification/DistLock.v ===== *)
(** The lock manager with leases of distlock (distlock/distlock.go: [lockEntry],
    [LockManager], [MemoryLockNode]).  Times are nanoseconds of the monotonic
    clock; a method that reads [nowFunc] takes the reading as its argument, and
    durations do not overflow. *)

From stdpp Require Import base tactics option numbers list gmap strings.
From Stdlib Require Import ZArith Lia.
From S2P Require Import Prelude.

Module DistLock.

Inductive Error :=
| ErrLockNotHeld
| ErrLockAlreadyHeld
| ErrInvalidToken
| ErrLockExpired
| ErrEmptyKey
| ErrEmptyToken
| ErrInvalidTTL
| ErrMaxReentrancy
| ErrNodeFailure
| ErrQuorumNotReached
| ErrInvalidNodeCount
| ErrLockManagerStopped.

#[export] Instance Error_eq_dec : EqDecision Error.
Proof. solve_decision. Defined.

Definition DefaultMaxReentrancy : Z := 32.
Definition DefaultCleanInterval : Z := 100000000.

Record lockEntry := { le_key : string; le_token : string; expiresAt : Z; reentrancy : Z }.

#[export] Instance lockEntry_eta : Eta lockEntry :=
  fun e => {| le_key := le_key e; le_token := le_token e; expiresAt := expiresAt e; reentrancy := reentrancy e |}.

Definition isExpired (e : lockEntry) (now : Z) : bool := expiresAt e <? now.

Definition remainingTTL (e : lockEntry) (now : Z) : Z :=
  let d := expiresAt e - now in if d <? 0 then 0 else d.

Record LockManagerConfig := { MaxReentrancy : Z; CleanInterval : Z }.

#[export] Instance LockManagerConfig_eta : Eta LockManagerConfig :=
  fun c => {| MaxReentrancy := MaxReentrancy c; CleanInterval := CleanInterval c |}.

Definition DefaultLockManagerConfig : LockManagerConfig :=
  {| MaxReentrancy := DefaultMaxReentrancy; CleanInterval := DefaultCleanInterval |}.

Record LockManager := {
  cfg : LockManagerConfig;
  locks : gmap string lockEntry;
  running : bool;
  stopped : bool
}.

#[export] Instance LockManager_eta : Eta LockManager :=
  fun lm => {| cfg := cfg lm; locks := locks lm; running := running lm; stopped := stopped lm |}.

Definition NewLockManagerWithConfig (c : LockManagerConfig) : result Error LockManager :=
  let c := if MaxReentrancy c <? 1 then c <| MaxReentrancy := DefaultMaxReentrancy |> else c in
  if CleanInterval c <? 0 then Err ErrInvalidTTL
  else
    let c := if CleanInterval c =? 0 then c <| CleanInterval := DefaultCleanInterval |> else c in
    Ok {| cfg := c; locks := ∅; running := false; stopped := false |}.

Definition NewLockManager : LockManager :=
  match NewLockManagerWithConfig DefaultLockManagerConfig with
  | Ok lm => lm
  | Err _ => {| cfg := DefaultLockManagerConfig; locks := ∅; running := false; stopped := false |}
  end.

(** The cleaning goroutine runs while [running]. *)
Definition Start (lm : LockManager) : LockManager :=
  if stopped lm then lm else if running lm then lm else lm <| running := true |>.

Definition Stop (lm : LockManager) : LockManager :=
  if stopped lm then lm else lm <| stopped := true |> <| running := false |>.

(** A method's new state and its error. *)
Definition outcome : Type := LockManager * option Error.

Definition lockInternal (now : Z) (key token : string) (ttl : Z) (tryOnly : bool) (lm : LockManager) : outcome :=
  if decide (key = "") then (lm, Some ErrEmptyKey)
  else if decide (token = "") then (lm, Some ErrEmptyToken)
  else if ttl <=? 0 then (lm, Some ErrInvalidTTL)
  else if stopped lm then (lm, Some ErrLockManagerStopped)
  else
    let fresh := lm <| locks := <[key := {| le_key := key; le_token := token; expiresAt := now + ttl; reentrancy := 1 |}]> (locks lm) |> in
    match locks lm !! key with
    | None => (fresh, None)
    | Some entry =>
        if isExpired entry now then (fresh, None)
        else if decide (le_token entry = token) then
          if MaxReentrancy (cfg lm) <=? reentrancy entry then (lm, Some ErrMaxReentrancy)
          else (lm <| locks := <[key := entry <| reentrancy := reentrancy entry + 1 |> <| expiresAt := now + ttl |>]> (locks lm) |>, None)
        else if tryOnly then (lm, Some ErrLockAlreadyHeld)
        else (lm, Some ErrLockAlreadyHeld)
    end.

Definition Lock (now : Z) (key token : string) (ttl : Z) (lm : LockManager) : outcome :=
  lockInternal now key token ttl false lm.

Definition TryLock (now : Z) (key token : string) (ttl : Z) (lm : LockManager) : LockManager * result Error bool :=
  match lockInternal now key token ttl true lm with
  | (lm, None) => (lm, Ok true)
  | (lm, Some ErrLockAlreadyHeld) => (lm, Ok false)
  | (lm, Some e) => (lm, Err e)
  end.

Definition drop_lock (key : string) (lm : LockManager) : LockManager := lm <| locks := delete key (locks lm) |>.

Definition Unlock (now : Z) (key token : string) (lm : LockManager) : outcome :=
  if decide (key = "") then (lm, Some ErrEmptyKey)
  else if decide (token = "") then (lm, Some ErrEmptyToken)
  else if stopped lm then (lm, Some ErrLockManagerStopped)
  else
    match locks lm !! key with
    | None => (lm, Some ErrLockNotHeld)
    | Some entry =>
        if isExpired entry now then (drop_lock key lm, Some ErrLockExpired)
        else if decide (le_token entry <> token) then (lm, Some ErrInvalidToken)
        else
          let entry := entry <| reentrancy := reentrancy entry - 1 |> in
          if reentrancy entry <=? 0 then (drop_lock key lm, None)
          else (lm <| locks := <[key := entry]> (locks lm) |>, None)
    end.

Definition Heartbeat (now : Z) (key token : string) (ttl : Z) (lm : LockManager) : outcome :=
  if decide (key = "") then (lm, Some ErrEmptyKey)
  else if decide (token = "") then (lm, Some ErrEmptyToken)
  else if ttl <=? 0 then (lm, Some ErrInvalidTTL)
  else if stopped lm then (lm, Some ErrLockManagerStopped)
  else
    match locks lm !! key with
    | None => (lm, Some ErrLockNotHeld)
    | Some entry =>
        if isExpired entry now then (drop_lock key lm, Some ErrLockExpired)
        else if decide (le_token entry <> token) then (lm, Some ErrInvalidToken)
        else (lm <| locks := <[key := entry <| expiresAt := now + ttl |>]> (locks lm) |>, None)
    end.

Definition IsLocked (now : Z) (key : string) (lm : LockManager) : LockManager * result Error bool :=
  if decide (key = "") then (lm, Err ErrEmptyKey)
  else if stopped lm then (lm, Err ErrLockManagerStopped)
  else
    match locks lm !! key with
    | None => (lm, Ok false)
    | Some entry => if isExpired entry now then (drop_lock key lm, Ok false) else (lm, Ok true)
    end.

Definition GetHolder (now : Z) (key : string) (lm : LockManager) : LockManager * result Error (string * Z * Z) :=
  if decide (key = "") then (lm, Err ErrEmptyKey)
  else if stopped lm then (lm, Err ErrLockManagerStopped)
  else
    match locks lm !! key with
    | None => (lm, Err ErrLockNotHeld)
    | Some entry =>
        if isExpired entry now then (drop_lock key lm, Err ErrLockExpired)
        else (lm, Ok (le_token entry, reentrancy entry, remainingTTL entry now))
    end.

Definition ForceUnlock (key : string) (lm : LockManager) : outcome :=
  if decide (key = "") then (lm, Some ErrEmptyKey)
  else if stopped lm then (lm, Some ErrLockManagerStopped)
  else (drop_lock key lm, None).

Definition Count (now : Z) (lm : LockManager) : result Error Z :=
  if stopped lm then Err ErrLockManagerStopped
  else Ok (Z.of_nat (size (filter (fun p => isExpired p.2 now = false) (locks lm)))).

Definition Clear (lm : LockManager) : outcome :=
  if stopped lm then (lm, Some ErrLockManagerStopped) else (lm <| locks := ∅ |>, None).

Definition cleanExpiredLocked (now : Z) (lm : LockManager) : LockManager * Z :=
  (lm <| locks := filter (fun p => isExpired p.2 now = false) (locks lm) |>,
   Z.of_nat (size (filter (fun p => isExpired p.2 now = true) (locks lm)))).

Definition CleanExpired (now : Z) (lm : LockManager) : LockManager * result Error Z :=
  if stopped lm then (lm, Err ErrLockManagerStopped)
  else let '(lm, n) := cleanExpiredLocked now lm in (lm, Ok n).

(** What the cleaning goroutine does at a tick of its ticker. *)
Definition cleanLoop_tick (now : Z) (lm : LockManager) : LockManager :=
  if running lm then fst (CleanExpired now lm) else lm.

(** ** Nodes *)

(** The interface [LockNode], its readings of the clock made explicit.
    [node_background] is what a node does on its own. *)
Class LockNode (N : Type) := {
  ID : N -> string;
  node_Lock : Z -> string -> string -> Z -> N -> N * option Error;
  node_Unlock : Z -> string -> string -> N -> N * option Error;
  node_Heartbeat : Z -> string -> string -> Z -> N -> N * option Error;
  node_IsLocked : Z -> string -> N -> N * result Error bool;
  node_background : Z -> N -> N
}.

Record MemoryLockNode := { node_id : string; manager : LockManager }.

Definition NewMemoryLockNode (id : string) : MemoryLockNode := {| node_id := id; manager := NewLockManager |}.

Definition NewMemoryLockNodeWithConfig (id : string) (c : LockManagerConfig) : result Error MemoryLockNode :=
  let? mgr := NewLockManagerWithConfig c in Ok {| node_id := id; manager := mgr |}.

Definition on_manager {A} (f : LockManager -> LockManager * A) (n : MemoryLockNode) : MemoryLockNode * A :=
  let '(m, a) := f (manager n) in ({| node_id := node_id n; manager := m |}, a).

#[export] Instance memory_node : LockNode MemoryLockNode := {|
  ID := node_id;
  node_Lock now key token ttl := on_manager (Lock now key token ttl);
  node_Unlock now key token := on_manager (Unlock now key token);
  node_Heartbeat now key token ttl := on_manager (Heartbeat now key token ttl);
  node_IsLocked now key := on_manager (IsLocked now key);
  node_background now n := {| node_id := node_id n; manager := cleanLoop_tick now (manager n) |}
|}.

Definition GetRemainingTTL (now : Z) (key : string) (n : MemoryLockNode) : MemoryLockNode * result Error Z :=
  let '(n, r) := on_manager (GetHolder now key) n in
  (n, let? (_, _, ttl) := r in Ok ttl).

End DistLock.
