(* ===== verification/DistLockProofs.v ===== *)
(** The lock manager keeps leases: an entry that has run out is as good as gone,
    whether or not it is still in the map, and who holds what follows a map of
    unexpired leases. *)

From stdpp Require Import base tactics option numbers list gmap strings.
From Stdlib Require Import ZArith Lia Sorted.
From S2P Require Import Prelude DistLock.

Import DistLock.

(** ** The abstract state: unexpired leases *)

Record lease := { holder_token : string; holds : Z; until : Z }.

#[export] Instance lease_eq_dec : EqDecision lease.
Proof. solve_decision. Defined.

Definition lease_of (e : lockEntry) : lease :=
  {| holder_token := le_token e; holds := reentrancy e; until := expiresAt e |}.

(** The leases at a time. *)
Definition live (now : Z) (lm : LockManager) : gmap string lease :=
  lease_of <$> filter (fun p => isExpired p.2 now = false) (locks lm).

Definition purge (now : Z) (L : gmap string lease) : gmap string lease :=
  filter (fun p => now <= until p.2) L.

Inductive op :=
| OpLock (key token : string) (ttl : Z)
| OpTryLock (key token : string) (ttl : Z)
| OpUnlock (key token : string)
| OpHeartbeat (key token : string) (ttl : Z)
| OpIsLocked (key : string)
| OpGetHolder (key : string)
| OpForceUnlock (key : string)
| OpCount
| OpClear
| OpClean
| OpTick
| OpStart
| OpStop.

#[export] Instance op_eq_dec : EqDecision op.
Proof. solve_decision. Defined.

Inductive out :=
| ODone
| OError (e : Error)
| OBool (b : bool)
| OHolder (token : string) (count ttl : Z)
| OCount (n : Z).

(** That a lease ran out and that there is none are the same answer. *)
Definition same_error (e : Error) : Error :=
  match e with ErrLockExpired => ErrLockNotHeld | e => e end.

Definition out_of (e : option Error) : out :=
  match e with None => ODone | Some e => OError (same_error e) end.

Definition out_bool (r : result Error bool) : out :=
  match r with Ok b => OBool b | Err e => OError (same_error e) end.

(** The program. *)
Definition step_lm (now : Z) (o : op) (lm : LockManager) : LockManager * out :=
  match o with
  | OpLock key token ttl => let '(lm, e) := Lock now key token ttl lm in (lm, out_of e)
  | OpTryLock key token ttl => let '(lm, r) := TryLock now key token ttl lm in (lm, out_bool r)
  | OpUnlock key token => let '(lm, e) := Unlock now key token lm in (lm, out_of e)
  | OpHeartbeat key token ttl => let '(lm, e) := Heartbeat now key token ttl lm in (lm, out_of e)
  | OpIsLocked key => let '(lm, r) := IsLocked now key lm in (lm, out_bool r)
  | OpGetHolder key =>
      let '(lm, r) := GetHolder now key lm in
      (lm, match r with Ok (token, count, ttl) => OHolder token count ttl | Err e => OError (same_error e) end)
  | OpForceUnlock key => let '(lm, e) := ForceUnlock key lm in (lm, out_of e)
  | OpCount => (lm, match Count now lm with Ok n => OCount n | Err e => OError e end)
  | OpClear => let '(lm, e) := Clear lm in (lm, out_of e)
  | OpClean => let '(lm, r) := CleanExpired now lm in (lm, match r with Ok _ => ODone | Err e => OError e end)
  | OpTick => (cleanLoop_tick now lm, ODone)
  | OpStart => (Start lm, ODone)
  | OpStop => (Stop lm, ODone)
  end.

(** The specification: leases only, those that have run out dropped first. *)
Definition checked (key token : string) (ttl : Z) (L : gmap string lease) (k : gmap string lease * out) : gmap string lease * out :=
  if decide (key = "") then (L, OError ErrEmptyKey)
  else if decide (token = "") then (L, OError ErrEmptyToken)
  else if ttl <=? 0 then (L, OError ErrInvalidTTL) else k.

Definition spec_lock (max now : Z) (key token : string) (ttl : Z) (L : gmap string lease) : gmap string lease * out :=
  checked key token ttl L
    match L !! key with
    | None => (<[key := {| holder_token := token; holds := 1; until := now + ttl |}]> L, ODone)
    | Some l =>
        if decide (holder_token l = token) then
          if max <=? holds l then (L, OError ErrMaxReentrancy)
          else (<[key := {| holder_token := token; holds := holds l + 1; until := now + ttl |}]> L, ODone)
        else (L, OError ErrLockAlreadyHeld)
    end.

Definition spec_step (max now : Z) (o : op) (L : gmap string lease) : gmap string lease * out :=
  let L := purge now L in
  match o with
  | OpLock key token ttl => spec_lock max now key token ttl L
  | OpTryLock key token ttl =>
      match spec_lock max now key token ttl L with
      | (L, ODone) => (L, OBool true)
      | (L, OError ErrLockAlreadyHeld) => (L, OBool false)
      | r => r
      end
  | OpUnlock key token =>
      checked key token 1 L
        match L !! key with
        | None => (L, OError ErrLockNotHeld)
        | Some l =>
            if decide (holder_token l = token) then
              if holds l <=? 1 then (delete key L, ODone)
              else (<[key := {| holder_token := token; holds := holds l - 1; until := until l |}]> L, ODone)
            else (L, OError ErrInvalidToken)
        end
  | OpHeartbeat key token ttl =>
      checked key token ttl L
        match L !! key with
        | None => (L, OError ErrLockNotHeld)
        | Some l =>
            if decide (holder_token l = token)
            then (<[key := {| holder_token := token; holds := holds l; until := now + ttl |}]> L, ODone)
            else (L, OError ErrInvalidToken)
        end
  | OpIsLocked key =>
      if decide (key = "") then (L, OError ErrEmptyKey) else (L, OBool (bool_decide (is_Some (L !! key))))
  | OpGetHolder key =>
      if decide (key = "") then (L, OError ErrEmptyKey)
      else match L !! key with
           | None => (L, OError ErrLockNotHeld)
           | Some l => (L, OHolder (holder_token l) (holds l) (until l - now))
           end
  | OpForceUnlock key => if decide (key = "") then (L, OError ErrEmptyKey) else (delete key L, ODone)
  | OpCount => (L, OCount (Z.of_nat (size L)))
  | OpClear => (∅, ODone)
  | OpClean | OpTick | OpStart | OpStop => (L, ODone)
  end.

(** The answers of a manager that has been stopped: arguments are checked first. *)
Definition stopped_out (o : op) : out :=
  let refuse key token ttl := snd (checked key token ttl ∅ (∅, OError ErrLockManagerStopped)) in
  match o with
  | OpLock key token ttl | OpTryLock key token ttl | OpHeartbeat key token ttl => refuse key token ttl
  | OpUnlock key token => refuse key token 1
  | OpIsLocked key | OpGetHolder key | OpForceUnlock key =>
      if decide (key = "") then OError ErrEmptyKey else OError ErrLockManagerStopped
  | OpCount | OpClear | OpClean => OError ErrLockManagerStopped
  | OpTick | OpStart | OpStop => ODone
  end.

(** Leases until the manager is stopped, for good. *)
Definition spec_call (max now : Z) (o : op) (s : gmap string lease * bool) : gmap string lease * bool * out :=
  let '(L, stopped) := s in
  if stopped then (L, true, stopped_out o)
  else let '(L, r) := spec_step max now o L in (L, bool_decide (o = OpStop), r).

Fixpoint run_lm (h : list (Z * op)) (lm : LockManager) : LockManager * list out :=
  match h with
  | [] => (lm, [])
  | (now, o) :: h => let '(lm, r) := step_lm now o lm in let '(lm, rs) := run_lm h lm in (lm, r :: rs)
  end.

Fixpoint run_spec (max : Z) (h : list (Z * op)) (s : gmap string lease * bool) : list out :=
  match h with
  | [] => []
  | (now, o) :: h => let '(s, r) := spec_call max now o s in r :: run_spec max h s
  end.

(** ** Live entries *)

Lemma isExpired_false e now : isExpired e now = false <-> now <= expiresAt e.
Proof. unfold isExpired. apply Z.ltb_ge. Qed.

Lemma live_lookup now lm key :
  live now lm !! key = match locks lm !! key with
                       | Some e => if isExpired e now then None else Some (lease_of e)
                       | None => None
                       end.
Proof.
  unfold live. rewrite lookup_fmap. destruct (locks lm !! key) as [e|] eqn:E.
  - destruct (isExpired e now) eqn:Ee.
    + rewrite (map_lookup_filter_None_2 _ _ key); [done|]. right. intros e' He'. simplify_eq/=. by rewrite Ee.
    + rewrite (map_lookup_filter_Some_2 _ _ key e); done.
  - rewrite (map_lookup_filter_None_2 _ _ key); [done|]. by left.
Qed.

Lemma purge_live now now' lm : now <= now' -> purge now' (live now lm) = live now' lm.
Proof.
  intros Hn. apply map_eq. intros key. unfold purge. apply option_eq. intros l.
  rewrite map_lookup_filter_Some, !live_lookup. destruct (locks lm !! key) as [e|]; [|naive_solver]. simpl.
  destruct (isExpired e now) eqn:E1, (isExpired e now') eqn:E2; unfold isExpired in *; bools; split.
  all: try (intros [? ?]; simplify_eq/=; lia). all: try (intros ?; simplify_eq/=; lia).
  - naive_solver.
  - intros [= <-]. split; [done|]. simpl. lia.
Qed.

Lemma live_insert now lm key e : isExpired e now = false ->
  live now (lm <| locks := <[key := e]> (locks lm) |>) = <[key := lease_of e]> (live now lm).
Proof.
  intros He. apply map_eq. intros k. rewrite live_lookup. simpl. destruct (decide (k = key)) as [->|Hk].
  - rewrite !lookup_insert_eq. by rewrite He.
  - rewrite !lookup_insert_ne by done. by rewrite live_lookup.
Qed.

Lemma live_drop now lm key : live now (drop_lock key lm) = delete key (live now lm).
Proof.
  apply map_eq. intros k. rewrite live_lookup. unfold drop_lock. simpl. destruct (decide (k = key)) as [->|Hk].
  - by rewrite !lookup_delete_eq.
  - rewrite !lookup_delete_ne by done. by rewrite live_lookup.
Qed.

Lemma live_drop_expired now lm key e : locks lm !! key = Some e -> isExpired e now = true ->
  live now (drop_lock key lm) = live now lm.
Proof. intros Hl He. rewrite live_drop. apply delete_id. by rewrite live_lookup, Hl, He. Qed.

Lemma live_clean now lm : live now (fst (cleanExpiredLocked now lm)) = live now lm.
Proof.
  unfold live, cleanExpiredLocked. simpl. f_equal. rewrite map_filter_filter. apply map_filter_ext. naive_solver.
Qed.

Lemma lock_live now key token ttl b lm : stopped lm = false ->
  let '(lm', e) := lockInternal now key token ttl b lm in
  spec_lock (MaxReentrancy (cfg lm)) now key token ttl (live now lm) = (live now lm', out_of e)
  /\ stopped lm' = false /\ cfg lm' = cfg lm.
Proof.
  intros Hs. unfold lockInternal, spec_lock, checked. repeat case_decide; try done.
  destruct (ttl <=? 0) eqn:Et; [done|]. rewrite Hs. bools. rewrite live_lookup.
  assert (forall c, isExpired {| le_key := key; le_token := token; expiresAt := now + ttl; reentrancy := c |} now = false) as Hf
    by (intros; apply isExpired_false; simpl; lia).
  destruct (locks lm !! key) as [e|] eqn:El; [|by rewrite live_insert].
  destruct (isExpired e now) eqn:Ee; [by rewrite live_insert|]. simpl.
  destruct (decide (le_token e = token)) as [Ht|Ht]; [|by destruct b].
  destruct (MaxReentrancy (cfg lm) <=? reentrancy e); [done|].
  rewrite live_insert by (apply isExpired_false; simpl; lia). unfold lease_of. simpl. by rewrite Ht.
Qed.

Lemma step_live now o lm : stopped lm = false ->
  let '(lm', r) := step_lm now o lm in
  spec_step (MaxReentrancy (cfg lm)) now o (live now lm) = (live now lm', r)
  /\ stopped lm' = bool_decide (o = OpStop) /\ cfg lm' = cfg lm.
Proof.
  intros Hs. unfold spec_step. cbv zeta. rewrite (purge_live now now) by lia.
  destruct o as [key token ttl|key token ttl|key token|key token ttl|key|key|key| | | | | |]; simpl;
    rewrite ?(bool_decide_false (_ = OpStop)), ?(bool_decide_true (OpStop = OpStop)) by done.
  - pose proof (lock_live now key token ttl false lm Hs) as H. unfold Lock.
    by destruct (lockInternal _ _ _ _ _ _) as [lm' e].
  - pose proof (lock_live now key token ttl true lm Hs) as H. unfold TryLock.
    destruct (lockInternal _ _ _ _ _ _) as [lm' [e|]]; destruct H as (-> & ? & ?); simpl; [|done]. by destruct e.
  - unfold Unlock, checked. repeat case_decide; try done. rewrite Hs. change (1 <=? 0) with false. simpl.
    rewrite live_lookup. destruct (locks lm !! key) as [e|] eqn:El; [|done].
    destruct (isExpired e now) eqn:Ee; [by rewrite (live_drop_expired now lm key e)|]. simpl.
    destruct (decide (le_token e = token)) as [Ht|Ht].
    + rewrite decide_False by tauto. destruct (Z.leb_spec (reentrancy e - 1) 0), (Z.leb_spec (reentrancy e) 1); try lia.
      * by rewrite live_drop.
      * rewrite live_insert by done. unfold lease_of. simpl. by rewrite Ht.
    + by rewrite decide_True.
  - unfold Heartbeat, checked. repeat case_decide; try done. destruct (ttl <=? 0) eqn:Et; [done|]. rewrite Hs. bools.
    rewrite live_lookup. destruct (locks lm !! key) as [e|] eqn:El; [|done].
    destruct (isExpired e now) eqn:Ee; [by rewrite (live_drop_expired now lm key e)|]. simpl.
    destruct (decide (le_token e = token)) as [Ht|Ht].
    + rewrite decide_False by tauto. rewrite live_insert by (apply isExpired_false; simpl; lia). unfold lease_of. simpl. by rewrite Ht.
    + by rewrite decide_True.
  - unfold IsLocked. case_decide; [done|]. rewrite Hs, live_lookup. destruct (locks lm !! key) as [e|] eqn:El; [|done].
    destruct (isExpired e now) eqn:Ee; [by rewrite (live_drop_expired now lm key e)|]. done.
  - unfold GetHolder. case_decide; [done|]. rewrite Hs, live_lookup. destruct (locks lm !! key) as [e|] eqn:El; [|done].
    destruct (isExpired e now) eqn:Ee; [by rewrite (live_drop_expired now lm key e)|]. simpl. unfold remainingTTL.
    apply isExpired_false in Ee. by rewrite (proj2 (Z.ltb_ge _ _)) by lia.
  - unfold ForceUnlock. case_decide; [done|]. rewrite Hs. by rewrite live_drop.
  - unfold Count. rewrite Hs. unfold live. by rewrite map_size_fmap.
  - unfold Clear. by rewrite Hs.
  - unfold CleanExpired. rewrite Hs. simpl. split_and!; try done. f_equal. symmetry. exact (live_clean now lm).
  - unfold cleanLoop_tick, CleanExpired. destruct (running lm); [|done]. rewrite Hs. simpl.
    split_and!; try done. f_equal. symmetry. exact (live_clean now lm).
  - unfold Start. rewrite Hs. by destruct (running lm).
  - unfold Stop. by rewrite Hs.
Qed.

Lemma step_stopped now o lm : stopped lm = true -> step_lm now o lm = (lm, stopped_out o).
Proof.
  intros Hs.
  destruct o; simpl; unfold Lock, TryLock, lockInternal, Unlock, Heartbeat, IsLocked, GetHolder, ForceUnlock, Count, Clear,
    cleanLoop_tick, CleanExpired, Start, Stop, checked; rewrite ?Hs;
    repeat first [case_decide; [done|]|destruct (_ <=? 0); [done|]]; try done. by destruct (running lm).
Qed.

(** One call: with the manager running or stopped, at a time not before [t]. *)
Lemma call_live t now o lm : t <= now ->
  let '(lm', r) := step_lm now o lm in
  exists L, spec_call (MaxReentrancy (cfg lm)) now o (live t lm, stopped lm) = (L, stopped lm', r) /\
    (stopped lm' = false -> L = live now lm') /\ cfg lm' = cfg lm.
Proof.
  intros Hle. destruct (stopped lm) eqn:Hs.
  - rewrite step_stopped by done. exists (live t lm). by rewrite Hs.
  - pose proof (step_live now o lm Hs) as Hstep. destruct (step_lm now o lm) as [lm' r]. destruct Hstep as (Hst & Hs' & Hc).
    exists (live now lm'). split_and!; [|done|done]. simpl. rewrite Hs'.
    assert (spec_step (MaxReentrancy (cfg lm)) now o (live t lm) = (live now lm', r)) as ->; [|done].
    rewrite <- Hst. unfold spec_step. by rewrite !purge_live by lia.
Qed.

Lemma run_stopped max h L L' : run_spec max h (L, true) = run_spec max h (L', true).
Proof. revert L L'. induction h as [|[now o] h IH]; intros L L'; [done|]. simpl. f_equal. apply IH. Qed.

Lemma run_live h : forall t lm, Sorted Z.le (t :: (fst <$> h)) ->
  snd (run_lm h lm) = run_spec (MaxReentrancy (cfg lm)) h (live t lm, stopped lm).
Proof.
  induction h as [|[now o] h IH]; intros t lm Ht; [done|]. cbn [run_lm run_spec].
  apply Sorted_inv in Ht as [Ht Hd]. simpl in Hd. inversion Hd as [|? ? Hle]. subst.
  pose proof (call_live t now o lm Hle) as Hstep. destruct (step_lm now o lm) as [lm' r]. destruct Hstep as (L & -> & HL & Hc).
  specialize (IH now lm' Ht). rewrite <- Hc. destruct (run_lm h lm') as [lm'' rs]. simpl in *. f_equal. rewrite IH.
  destruct (stopped lm'); [apply run_stopped|by rewrite HL].
Qed.

(** C21: whatever the history of calls, starting, stopping and cleaning at times
    that do not go back, a lock manager answers as the map of unexpired leases does: a lock is
    granted exactly when no unexpired lease of another token is there, with the
    reentrancy limit, releases and renewals only for the holder; once stopped it
    refuses every call, after checking its arguments, for good.  Whether an
    expired entry is still in the map shows only in which of the two errors
    (expired, not held) a caller gets. *)
Theorem locks_refine_leases c lm t h :
  NewLockManagerWithConfig c = Ok lm -> Sorted Z.le (t :: (fst <$> h)) ->
  snd (run_lm h lm) = run_spec (if MaxReentrancy c <? 1 then DefaultMaxReentrancy else MaxReentrancy c) h (∅, false).
Proof.
  unfold NewLockManagerWithConfig. intros Hnew Ht.
  assert (stopped lm = false /\ locks lm = ∅ /\ MaxReentrancy (cfg lm) = if MaxReentrancy c <? 1 then DefaultMaxReentrancy else MaxReentrancy c)
    as (Hs & Hl & Hm).
  { destruct (MaxReentrancy c <? 1); simpl in Hnew; destruct (CleanInterval c <? 0); try done;
      destruct (CleanInterval c =? 0); simplify_eq/=; done. }
  rewrite (run_live h t lm Ht), Hm, Hs. unfold live. by rewrite Hl, map_filter_empty, fmap_empty.
Qed.

Definition demo_history : list (Z * op) :=
  [(0, OpLock "k" "a" 10); (1, OpLock "k" "a" 10); (2, OpLock "k" "b" 10); (3, OpUnlock "k" "b");
   (4, OpUnlock "k" "a"); (5, OpGetHolder "k"); (12, OpTryLock "k" "b" 5); (13, OpClean); (14, OpHeartbeat "k" "a" 3);
   (18, OpUnlock "k" "b"); (19, OpCount); (20, OpStart); (21, OpLock "k" "a" 10); (32, OpTick); (33, OpCount);
   (34, OpStop); (35, OpLock "k" "" 10); (36, OpLock "k" "a" 10)].

Lemma locks_refine_leases_witness :
  snd (run_lm demo_history NewLockManager) = run_spec 32 demo_history (∅, false) /\
  run_spec 32 demo_history (∅, false) =
    [ODone; ODone; OError ErrLockAlreadyHeld; OError ErrInvalidToken; ODone; OHolder "a" 1 6; OBool true; ODone;
     OError ErrInvalidToken; OError ErrLockNotHeld; OCount 0; ODone; ODone; ODone; OCount 0;
     ODone; OError ErrEmptyToken; OError ErrLockManagerStopped].
Proof.
  split; [|vm_compute; reflexivity].
  apply (locks_refine_leases DefaultLockManagerConfig NewLockManager 0 demo_history); [reflexivity|].
  simpl. repeat match goal with |- Sorted _ _ => constructor | |- HdRel _ _ _ => constructor; try lia end.
Defined.
