(* ===== verification/Redlock.v ===== *)
(** Locks over a majority of nodes (distlock/distlock.go: [Redlock]), over any
    [LockNode].  The calls run in a [Clock] world: every reading of the time is
    preceded by an arbitrary passing of it.  The pieces of [attemptLock] and
    [Heartbeat] between two node calls are definitions of their own, from which
    both the methods and their interleavings are composed. *)

From stdpp Require Import base tactics option numbers list gmap strings.
From Stdlib Require Import ZArith Lia.
From S2P Require Import Prelude DistLock.

Import DistLock.

Module Redlock.

Record RedlockConfig := { AcquireTimeout : Z; RetryDelay : Z; ClockDrift : Z }.

#[export] Instance RedlockConfig_eta : Eta RedlockConfig :=
  fun c => {| AcquireTimeout := AcquireTimeout c; RetryDelay := RetryDelay c; ClockDrift := ClockDrift c |}.

Definition DefaultRedlockConfig : RedlockConfig :=
  {| AcquireTimeout := 5000000000; RetryDelay := 100000000; ClockDrift := 50000000 |}.

Record LockAcquisition := {
  acq_Key : string;
  acq_Token : string;
  Expiry : Z;
  NodeExpiries : gmap string Z;
  acq_NodeCount : Z;
  SuccessCount : Z
}.

Definition IsValid (now : Z) (la : option LockAcquisition) : bool :=
  match la with None => false | Some la => now <? Expiry la end.

Definition RemainingTTL (now : Z) (la : option LockAcquisition) : Z :=
  match la with
  | None => 0
  | Some la => let d := Expiry la - now in if d <? 0 then 0 else d
  end.

Section redlock.
Context {N : Type} `{!LockNode N} {W : Type} `{!Clock W}.

Record Redlock := { r_cfg : RedlockConfig; nodes : list N }.

Definition NewRedlockWithConfig (ns : list N) (c : RedlockConfig) : result Error Redlock :=
  if decide (length ns = 0%nat) then Err ErrInvalidNodeCount
  else if decide (Z.of_nat (length ns) mod 2 = 0) then Err ErrInvalidNodeCount
  else if AcquireTimeout c <? 0 then Err ErrInvalidTTL
  else if RetryDelay c <? 0 then Err ErrInvalidTTL
  else if ClockDrift c <? 0 then Err ErrInvalidTTL
  else
    let c := if AcquireTimeout c =? 0 then c <| AcquireTimeout := AcquireTimeout DefaultRedlockConfig |> else c in
    let c := if RetryDelay c =? 0 then c <| RetryDelay := RetryDelay DefaultRedlockConfig |> else c in
    Ok {| r_cfg := c; nodes := ns |}.

Definition NewRedlock (ns : list N) : result Error Redlock := NewRedlockWithConfig ns DefaultRedlockConfig.

Definition majority (r : Redlock) : Z := Z.of_nat (length (nodes r)) / 2 + 1.

Definition NodeCount (r : Redlock) : Z := Z.of_nat (length (nodes r)).

Definition set_node (i : nat) (n : N) (r : Redlock) : Redlock :=
  {| r_cfg := r_cfg r; nodes := <[i := n]> (nodes r) |}.

(** The locals of [attemptLock] and [Heartbeat]. *)
Record tally := { nodeExpiries : gmap string Z; successCount : Z }.

Definition no_tally : tally := {| nodeExpiries := ∅; successCount := 0 |}.

(** [successCount++; nodeExpiries[node.ID()] = time.Now().Add(ttl)]. *)
Definition record_success (id : string) (now ttl : Z) (t : tally) : tally :=
  {| nodeExpiries := <[id := now + ttl]> (nodeExpiries t); successCount := successCount t + 1 |}.

(** The smallest expiry; there is one, since the majority is positive. *)
Definition min_expiry (m : gmap string Z) : option Z :=
  map_fold (fun _ exp acc => match acc with
                             | None => Some exp
                             | Some least => Some (if exp <? least then exp else least)
                             end) None m.

(** [attemptLock] after the loop: the acquisition, and the error. *)
Definition conclude (r : Redlock) (key token : string) (t : tally) (now : Z) : LockAcquisition * option Error :=
  let acq expiry := {| acq_Key := key; acq_Token := token; Expiry := expiry; NodeExpiries := nodeExpiries t;
                       acq_NodeCount := NodeCount r; SuccessCount := successCount t |} in
  if successCount t <? majority r then (acq 0, Some ErrQuorumNotReached)
  else
    let minExpiry := default 0 (min_expiry (nodeExpiries t)) - ClockDrift (r_cfg r) in
    if negb (now <? minExpiry) then (acq 0, Some ErrQuorumNotReached)
    else (acq minExpiry, None).

(** [for _, node := range r.nodes] of [attemptLock]. *)
Fixpoint attempt_loop (key token : string) (ttl : Z) (is_ : list nat) (w : W) (r : Redlock) (t : tally) : W * Redlock * tally :=
  match is_ with
  | [] => (w, r, t)
  | i :: is_ =>
      match nodes r !! i with
      | None => attempt_loop key token ttl is_ w r t
      | Some n =>
          let w := tick w in
          let '(n, err) := node_Lock (mono w) key token ttl n in
          let r := set_node i n r in
          match err with
          | Some _ => attempt_loop key token ttl is_ w r t
          | None =>
              let w := tick w in
              attempt_loop key token ttl is_ w r (record_success (ID n) (mono w) ttl t)
          end
      end
  end.

Definition attemptLock (key token : string) (ttl : Z) (w : W) (r : Redlock) : W * Redlock * LockAcquisition * option Error :=
  let '(w, r, t) := attempt_loop key token ttl (seq 0 (length (nodes r))) w r no_tally in
  let w := tick w in
  let '(acq, err) := conclude r key token t (mono w) in
  (w, r, acq, err).

(** The first node with an identity. *)
Definition find_node (id : string) (ns : list N) : option (nat * N) := list_find (fun n => ID n = id) ns.

Definition unlock_at (key token : string) (i : nat) (now : Z) (r : Redlock) : Redlock * option Error :=
  match nodes r !! i with
  | None => (r, None)
  | Some n => let '(n, err) := node_Unlock now key token n in (set_node i n r, err)
  end.

Fixpoint rollback_loop (key token : string) (ids : list string) (w : W) (r : Redlock) : W * Redlock :=
  match ids with
  | [] => (w, r)
  | id :: ids =>
      match find_node id (nodes r) with
      | None => rollback_loop key token ids w r
      | Some (i, _) =>
          let w := tick w in
          rollback_loop key token ids w (fst (unlock_at key token i (mono w) r))
      end
  end.

(** The acquisition of a failed attempt is not nil. *)
Definition rollbackPartialLock (key token : string) (acq : LockAcquisition) (w : W) (r : Redlock) : W * Redlock :=
  rollback_loop key token (fst <$> map_to_list (NodeExpiries acq)) w r.

Definition TryLock (key token : string) (ttl : Z) (w : W) (r : Redlock) : W * Redlock * result Error LockAcquisition :=
  if decide (key = "") then (w, r, Err ErrEmptyKey)
  else if decide (token = "") then (w, r, Err ErrEmptyToken)
  else if ttl <=? 0 then (w, r, Err ErrInvalidTTL)
  else
    let '(w, r, acq, err) := attemptLock key token ttl w r in
    match err with
    | Some e => let '(w, r) := rollbackPartialLock key token acq w r in (w, r, Err e)
    | None => (w, r, Ok acq)
    end.

(** The retry loop of [Lock]; [None] when the fuel runs out. *)
Fixpoint lock_loop (fuel : nat) (key token : string) (ttl deadline : Z) (w : W) (r : Redlock)
  : option (W * Redlock * result Error LockAcquisition) :=
  match fuel with
  | O => None
  | S fuel =>
      let w := tick w in
      if deadline <? mono w then Some (w, r, Err ErrQuorumNotReached)
      else
        let '(w, r, acq, err) := attemptLock key token ttl w r in
        match err with
        | None => Some (w, r, Ok acq)
        | Some _ =>
            let '(w, r) := rollbackPartialLock key token acq w r in
            let w := tick w in
            if deadline <? mono w then Some (w, r, Err ErrQuorumNotReached)
            else lock_loop fuel key token ttl deadline (sleep (RetryDelay (r_cfg r)) w) r
        end
  end.

Definition Lock (fuel : nat) (key token : string) (ttl : Z) (w : W) (r : Redlock)
  : option (W * Redlock * result Error LockAcquisition) :=
  if decide (key = "") then Some (w, r, Err ErrEmptyKey)
  else if decide (token = "") then Some (w, r, Err ErrEmptyToken)
  else if ttl <=? 0 then Some (w, r, Err ErrInvalidTTL)
  else
    let w := tick w in
    lock_loop fuel key token ttl (mono w + AcquireTimeout (r_cfg r)) w r.

(** The loop of [Unlock] over all nodes: successes and the last error. *)
Fixpoint unlock_loop (key token : string) (is_ : list nat) (w : W) (r : Redlock) (successes : Z) (lastErr : option Error)
  : W * Redlock * Z * option Error :=
  match is_ with
  | [] => (w, r, successes, lastErr)
  | i :: is_ =>
      let w := tick w in
      match unlock_at key token i (mono w) r with
      | (r, None) => unlock_loop key token is_ w r (successes + 1) lastErr
      | (r, Some e) => unlock_loop key token is_ w r successes (Some e)
      end
  end.

Definition Unlock (acq : option LockAcquisition) (w : W) (r : Redlock) : W * Redlock * option Error :=
  match acq with
  | None => (w, r, Some ErrLockNotHeld)
  | Some acq =>
      if decide (acq_Key acq = "") then (w, r, Some ErrEmptyKey)
      else if decide (acq_Token acq = "") then (w, r, Some ErrEmptyToken)
      else
        let '(w, r, successes, lastErr) :=
          unlock_loop (acq_Key acq) (acq_Token acq) (seq 0 (length (nodes r))) w r 0 None in
        match lastErr with
        | Some _ => if successes =? 0 then (w, r, Some ErrNodeFailure) else (w, r, None)
        | None => (w, r, None)
        end
  end.

Fixpoint heartbeat_loop (key token : string) (ttl : Z) (ids : list string) (w : W) (r : Redlock) (t : tally) : W * Redlock * tally :=
  match ids with
  | [] => (w, r, t)
  | id :: ids =>
      match find_node id (nodes r) with
      | None => heartbeat_loop key token ttl ids w r t
      | Some (i, n) =>
          let w := tick w in
          let '(n, err) := node_Heartbeat (mono w) key token ttl n in
          let r := set_node i n r in
          match err with
          | Some _ => heartbeat_loop key token ttl ids w r t
          | None =>
              let w := tick w in
              heartbeat_loop key token ttl ids w r (record_success (ID n) (mono w) ttl t)
          end
      end
  end.

Definition Heartbeat (acq : option LockAcquisition) (ttl : Z) (w : W) (r : Redlock) : W * Redlock * result Error LockAcquisition :=
  match acq with
  | None => (w, r, Err ErrLockNotHeld)
  | Some acq =>
      if decide (acq_Key acq = "") then (w, r, Err ErrEmptyKey)
      else if decide (acq_Token acq = "") then (w, r, Err ErrEmptyToken)
      else if ttl <=? 0 then (w, r, Err ErrInvalidTTL)
      else
        let '(w, r, t) := heartbeat_loop (acq_Key acq) (acq_Token acq) ttl (fst <$> map_to_list (NodeExpiries acq)) w r no_tally in
        let w := tick w in
        match conclude r (acq_Key acq) (acq_Token acq) t (mono w) with
        | (_, Some e) => (w, r, Err e)
        | (acq, None) => (w, r, Ok acq)
        end
  end.

Fixpoint locked_loop (key : string) (is_ : list nat) (w : W) (r : Redlock) (count : Z) : W * Redlock * Z :=
  match is_ with
  | [] => (w, r, count)
  | i :: is_ =>
      match nodes r !! i with
      | None => locked_loop key is_ w r count
      | Some n =>
          let w := tick w in
          let '(n, res) := node_IsLocked (mono w) key n in
          locked_loop key is_ w (set_node i n r) (match res with Ok true => count + 1 | _ => count end)
      end
  end.

Definition IsLocked (key : string) (w : W) (r : Redlock) : W * Redlock * result Error bool :=
  if decide (key = "") then (w, r, Err ErrEmptyKey)
  else
    let '(w, r, count) := locked_loop key (seq 0 (length (nodes r))) w r 0 in
    (w, r, Ok (majority r <=? count)).

End redlock.

Arguments Redlock N : clear implicits.

End Redlock.
