(* ===== verification/RedlockProofs.v ===== *)
(** Mutual exclusion of locks held by a majority, for every interleaving of
    clients' node calls: the system of clients, nodes and time, its invariant,
    and the limits of the argument. *)

From stdpp Require Import base tactics option numbers list gmap strings relations sets.
From Stdlib Require Import ZArith Lia.
From S2P Require Import Prelude DistLock Redlock.

Import DistLock Redlock.

(** ** What a node promises *)

(** [node_holder n key]: the token in the node's entry and the entry's end.
    An entry that has not run out is changed only by its own token. *)
Class LockNodeLaws (N : Type) `{!LockNode N} := {
  node_holder : N -> string -> option (string * Z);
  law_lock now key token ttl n n' :
    node_Lock now key token ttl n = (n', None) -> node_holder n' key = Some (token, now + ttl);
  law_heartbeat now key token ttl n n' :
    node_Heartbeat now key token ttl n = (n', None) -> node_holder n' key = Some (token, now + ttl);
  law_heartbeat_fails now key token ttl n n' err k :
    node_Heartbeat now key token ttl n = (n', Some err) ->
    forall t e, node_holder n k = Some (t, e) -> now <= e -> node_holder n' k = Some (t, e);
  law_lock_keeps now key token ttl n k t e :
    node_holder n k = Some (t, e) -> now <= e -> (k, t) <> (key, token) ->
    node_holder (node_Lock now key token ttl n).1 k = Some (t, e);
  law_unlock_keeps now key token n k t e :
    node_holder n k = Some (t, e) -> now <= e -> (k, t) <> (key, token) ->
    node_holder (node_Unlock now key token n).1 k = Some (t, e);
  law_heartbeat_keeps now key token ttl n k t e :
    node_holder n k = Some (t, e) -> now <= e -> (k, t) <> (key, token) ->
    node_holder (node_Heartbeat now key token ttl n).1 k = Some (t, e);
  law_query_keeps now key n k t e :
    node_holder n k = Some (t, e) -> now <= e -> node_holder (node_IsLocked now key n).1 k = Some (t, e);
  law_background_keeps now n k t e :
    node_holder n k = Some (t, e) -> now <= e -> node_holder (node_background now n) k = Some (t, e);
  law_lock_id now key token ttl n : ID (node_Lock now key token ttl n).1 = ID n;
  law_unlock_id now key token n : ID (node_Unlock now key token n).1 = ID n;
  law_heartbeat_id now key token ttl n : ID (node_Heartbeat now key token ttl n).1 = ID n;
  law_query_id now key n : ID (node_IsLocked now key n).1 = ID n;
  law_background_id now n : ID (node_background now n) = ID n
}.

(** *** Lock managers in memory keep the promise *)

Definition manager_holder (lm : LockManager) (k : string) : option (string * Z) :=
  e ← locks lm !! k; Some (le_token e, expiresAt e).

(** The entry behind a holder, unexpired, and whether it is the key's own. *)
Ltac entry_cases lm k key :=
  unfold manager_holder in *; destruct (locks lm !! k) as [x|] eqn:Ex; [|done]; simplify_eq/=;
  assert (isExpired x _ = false) as Hx by (by apply Z.ltb_ge);
  destruct (decide (k = key)) as [->|Hk];
  [rewrite ?Ex in *; simpl in *; rewrite ?Hx in *
  |repeat case_match; simplify_eq/=; rewrite ?lookup_insert_ne, ?lookup_delete_ne by done; by rewrite Ex].

Lemma manager_lock now key token ttl lm lm' :
  DistLock.Lock now key token ttl lm = (lm', None) -> manager_holder lm' key = Some (token, now + ttl).
Proof.
  unfold DistLock.Lock, lockInternal. intros H. unfold manager_holder.
  repeat case_match; simplify_eq/=; by rewrite lookup_insert_eq.
Qed.

Lemma manager_lock_keeps now key token ttl lm k t e :
  manager_holder lm k = Some (t, e) -> now <= e -> (k, t) <> (key, token) ->
  manager_holder (DistLock.Lock now key token ttl lm).1 k = Some (t, e).
Proof.
  intros Hh Hn Hne. unfold DistLock.Lock, lockInternal. entry_cases lm k key.
  repeat case_match; simplify_eq/=; by rewrite ?Ex.
Qed.

Lemma manager_unlock_keeps now key token lm k t e :
  manager_holder lm k = Some (t, e) -> now <= e -> (k, t) <> (key, token) ->
  manager_holder (DistLock.Unlock now key token lm).1 k = Some (t, e).
Proof.
  intros Hh Hn Hne. unfold DistLock.Unlock, drop_lock. entry_cases lm k key.
  repeat case_match; simplify_eq/=; try by rewrite ?Ex. all: destruct Hne; f_equal; by apply dec_stable.
Qed.

Lemma manager_heartbeat now key token ttl lm lm' :
  DistLock.Heartbeat now key token ttl lm = (lm', None) -> manager_holder lm' key = Some (token, now + ttl).
Proof.
  unfold DistLock.Heartbeat. intros H. unfold manager_holder.
  repeat case_match; simplify_eq/=; rewrite lookup_insert_eq; simpl. do 2 f_equal. by apply dec_stable.
Qed.

Lemma manager_heartbeat_keeps now key token ttl lm k t e :
  manager_holder lm k = Some (t, e) -> now <= e ->
  (k, t) <> (key, token) \/ (DistLock.Heartbeat now key token ttl lm).2 <> None ->
  manager_holder (DistLock.Heartbeat now key token ttl lm).1 k = Some (t, e).
Proof.
  intros Hh Hn Hne. unfold DistLock.Heartbeat, drop_lock in *. entry_cases lm k key.
  repeat case_match; simplify_eq/=; try by rewrite ?Ex. destruct Hne as [Hne|Hne]; [|done]. destruct Hne; f_equal; by apply dec_stable.
Qed.

Lemma manager_query_keeps now key lm k t e :
  manager_holder lm k = Some (t, e) -> now <= e -> manager_holder (DistLock.IsLocked now key lm).1 k = Some (t, e).
Proof.
  intros Hh Hn. unfold DistLock.IsLocked, drop_lock. entry_cases lm k key.
  repeat case_match; simplify_eq/=; by rewrite ?Ex.
Qed.

Lemma manager_clean_keeps now lm k t e :
  manager_holder lm k = Some (t, e) -> now <= e -> manager_holder (cleanLoop_tick now lm) k = Some (t, e).
Proof.
  intros Hh Hn. unfold cleanLoop_tick, CleanExpired, cleanExpiredLocked. repeat case_match; simplify_eq/=; try done.
  unfold manager_holder in *. simpl. destruct (locks lm !! k) as [x|] eqn:E; [|done]. simplify_eq/=.
  rewrite (map_lookup_filter_Some_2 _ _ k x); [done|done|]. simpl. unfold isExpired. apply Z.ltb_ge. lia.
Qed.

Lemma on_manager_fst {A} (f : LockManager -> LockManager * A) n :
  manager (on_manager f n).1 = (f (manager n)).1 /\ node_id (on_manager f n).1 = node_id n /\ (on_manager f n).2 = (f (manager n)).2.
Proof. unfold on_manager. by destruct (f (manager n)). Qed.

#[export] Program Instance memory_node_laws : LockNodeLaws MemoryLockNode := {|
  node_holder n := manager_holder (manager n)
|}.
Next Obligation.
  intros now key token ttl n n' H. simpl in H. destruct (on_manager_fst (DistLock.Lock now key token ttl) n) as (E1 & _ & E2).
  rewrite H in E1, E2. simpl in E1, E2. rewrite E1. eapply manager_lock. rewrite (surjective_pairing (DistLock.Lock _ _ _ _ _)). by rewrite <- E2.
Qed.
Next Obligation.
  intros now key token ttl n n' H. simpl in H. destruct (on_manager_fst (DistLock.Heartbeat now key token ttl) n) as (E1 & _ & E2).
  rewrite H in E1, E2. simpl in E1, E2. rewrite E1. eapply manager_heartbeat. rewrite (surjective_pairing (DistLock.Heartbeat _ _ _ _ _)). by rewrite <- E2.
Qed.
Next Obligation.
  intros now key token ttl n n' err k H t e Hh He. simpl in H.
  destruct (on_manager_fst (DistLock.Heartbeat now key token ttl) n) as (E1 & _ & E2). rewrite H in E1, E2. simpl in E1, E2. rewrite E1.
  apply manager_heartbeat_keeps; [done..|]. right. by rewrite <- E2.
Qed.
Next Obligation.
  intros. simpl. rewrite (proj1 (on_manager_fst _ _)). by apply manager_lock_keeps.
Qed.
Next Obligation.
  intros. simpl. rewrite (proj1 (on_manager_fst _ _)). by apply manager_unlock_keeps.
Qed.
Next Obligation.
  intros. simpl. rewrite (proj1 (on_manager_fst _ _)). apply manager_heartbeat_keeps; [done..|by left].
Qed.
Next Obligation.
  intros. simpl. rewrite (proj1 (on_manager_fst _ _)). by apply manager_query_keeps.
Qed.
Next Obligation. intros. simpl. by apply manager_clean_keeps. Qed.
Next Obligation. intros. simpl. apply on_manager_fst. Qed.
Next Obligation. intros. simpl. apply on_manager_fst. Qed.
Next Obligation. intros. simpl. apply on_manager_fst. Qed.
Next Obligation. intros. simpl. apply on_manager_fst. Qed.
Next Obligation. done. Qed.

(** ** The system *)

(** Where a client that works on a key with a token is.  After a node call that
    succeeded it has yet to read the clock; [at_] is when the node read its. *)
Inductive phase :=
| Locking (ttl : Z) (todo : list nat) (t : tally)
| Locked (ttl : Z) (todo : list nat) (t : tally) (i : nat) (at_ : Z)
| RollingBack (ids : list string)
| Owning (acq : LockAcquisition)
| Renewing (acq : LockAcquisition) (ttl : Z) (ids : list string) (t : tally)
| Renewed (acq : LockAcquisition) (ttl : Z) (ids : list string) (t : tally) (i : nat) (at_ : Z)
| Releasing (todo : list nat).

(** The acquisition a client relies on. *)
Definition relied_on (p : phase) : option LockAcquisition :=
  match p with Owning acq | Renewing acq _ _ _ | Renewed acq _ _ _ _ _ => Some acq | _ => None end.

(** A token begins [Lock] when it is idle, or when it owns the key (the lock is
    reentrant): then it relies on what the new call gives it, no longer on the
    acquisition it had. *)
Definition may_begin (p : option phase) : Prop :=
  match p with None | Some (Owning _) => True | _ => False end.

Section system.
Context {N : Type} `{!LockNode N, !LockNodeLaws N}.

Record system := { now : Z; red : Redlock N; clients : gmap (string * string) phase }.

Definition at_phase (key token : string) (p : phase) (s : system) : system :=
  {| now := now s; red := red s; clients := <[(key, token) := p]> (clients s) |}.

Definition with_red (r : Redlock N) (s : system) : system :=
  {| now := now s; red := r; clients := clients s |}.

(** Time passes; nodes clean up and answer queries; a client makes its next
    call, or reads the clock at most the configured drift after the node did. *)
Inductive sys_step (s : system) : system -> Prop :=
| step_time t : now s <= t -> sys_step s {| now := t; red := red s; clients := clients s |}
| step_background i n : nodes (red s) !! i = Some n ->
    sys_step s (with_red (set_node i (node_background (now s) n) (red s)) s)
| step_query i n key : nodes (red s) !! i = Some n ->
    sys_step s (with_red (set_node i (node_IsLocked (now s) key n).1 (red s)) s)
| step_begin key token ttl : may_begin (clients s !! (key, token)) -> 0 < ttl ->
    sys_step s (at_phase key token (Locking ttl (seq 0 (length (nodes (red s)))) no_tally) s)
| step_call key token ttl i todo t n n' err :
    clients s !! (key, token) = Some (Locking ttl (i :: todo) t) ->
    nodes (red s) !! i = Some n -> node_Lock (now s) key token ttl n = (n', err) ->
    sys_step s (at_phase key token (match err with None => Locked ttl todo t i (now s) | Some _ => Locking ttl todo t end)
                 (with_red (set_node i n' (red s)) s))
| step_record key token ttl todo t i at_ n :
    clients s !! (key, token) = Some (Locked ttl todo t i at_) -> nodes (red s) !! i = Some n ->
    now s - at_ <= ClockDrift (r_cfg (red s)) ->
    sys_step s (at_phase key token (Locking ttl todo (record_success (ID n) (now s) ttl t)) s)
| step_conclude key token ttl t acq err :
    clients s !! (key, token) = Some (Locking ttl [] t) ->
    conclude (red s) key token t (now s) = (acq, err) ->
    sys_step s (at_phase key token (match err with None => Owning acq | Some _ => RollingBack (fst <$> map_to_list (NodeExpiries acq)) end) s)
| step_rollback key token id ids i n :
    clients s !! (key, token) = Some (RollingBack (id :: ids)) -> find_node id (nodes (red s)) = Some (i, n) ->
    sys_step s (at_phase key token (RollingBack ids) (with_red (unlock_at key token i (now s) (red s)).1 s))
| step_rolled_back key token :
    clients s !! (key, token) = Some (RollingBack []) ->
    sys_step s {| now := now s; red := red s; clients := delete (key, token) (clients s) |}
| step_release key token acq :
    clients s !! (key, token) = Some (Owning acq) ->
    sys_step s (at_phase key token (Releasing (seq 0 (length (nodes (red s))))) s)
| step_release_node key token i todo :
    clients s !! (key, token) = Some (Releasing (i :: todo)) ->
    sys_step s (at_phase key token (Releasing todo) (with_red (unlock_at key token i (now s) (red s)).1 s))
| step_released key token :
    clients s !! (key, token) = Some (Releasing []) ->
    sys_step s {| now := now s; red := red s; clients := delete (key, token) (clients s) |}
| step_renew key token acq ttl :
    clients s !! (key, token) = Some (Owning acq) -> 0 < ttl -> Expiry acq <= now s + ttl ->
    sys_step s (at_phase key token (Renewing acq ttl (fst <$> map_to_list (NodeExpiries acq)) no_tally) s)
| step_renew_call key token acq ttl id ids t i n n' err :
    clients s !! (key, token) = Some (Renewing acq ttl (id :: ids) t) -> find_node id (nodes (red s)) = Some (i, n) ->
    node_Heartbeat (now s) key token ttl n = (n', err) ->
    sys_step s (at_phase key token (match err with None => Renewed acq ttl ids t i (now s) | Some _ => Renewing acq ttl ids t end)
                 (with_red (set_node i n' (red s)) s))
| step_renew_record key token acq ttl ids t i at_ n :
    clients s !! (key, token) = Some (Renewed acq ttl ids t i at_) -> nodes (red s) !! i = Some n ->
    now s - at_ <= ClockDrift (r_cfg (red s)) ->
    sys_step s (at_phase key token (Renewing acq ttl ids (record_success (ID n) (now s) ttl t)) s)
| step_renewed key token acq ttl t acq' err :
    clients s !! (key, token) = Some (Renewing acq ttl [] t) ->
    conclude (red s) key token t (now s) = (acq', err) ->
    sys_step s (at_phase key token (match err with None => Owning acq' | Some _ => Owning acq end) s).

(** No client at work, nodes with distinct identities. *)
Definition initial (s : system) : Prop := clients s = ∅ /\ NoDup (ID <$> nodes (red s)).

(** ** The invariant *)

(** Until [e], node [i] holds the key for the token, and for no shorter. *)
Definition secured (s : system) (key token : string) (i : nat) (e : Z) : Prop :=
  now s <= e -> exists n e', nodes (red s) !! i = Some n /\ node_holder n key = Some (token, e') /\ e <= e'.

(** The nodes counted in a tally: no more than the map has, and secured until
    their recorded expiry less the drift. *)
Definition tallied (s : system) (key token : string) (t : tally) (got : list nat) : Prop :=
  NoDup got /\ successCount t = Z.of_nat (length got) /\
  forall i, i ∈ got -> exists n x, nodes (red s) !! i = Some n /\ nodeExpiries t !! ID n = Some x /\
    secured s key token i (x - ClockDrift (r_cfg (red s))).

Definition owned (s : system) (key token : string) (acq : LockAcquisition) : Prop :=
  exists got, NoDup got /\ majority (red s) <= Z.of_nat (length got) /\
    forall i, i ∈ got -> (i < length (nodes (red s)))%nat /\ secured s key token i (Expiry acq).

(** The nodes of a tally are not among those still to be asked. *)
Definition apart_from (s : system) (got : list nat) (ids : list string) : Prop :=
  forall i n, i ∈ got -> nodes (red s) !! i = Some n -> ID n ∉ ids.

Definition phase_ok (s : system) (key token : string) (p : phase) : Prop :=
  match p with
  | Locking ttl todo t => exists got, tallied s key token t got /\ NoDup (got ++ todo)
  | Locked ttl todo t i at_ =>
      exists got, tallied s key token t got /\ NoDup (got ++ i :: todo) /\
        secured s key token i (at_ + ttl) /\ at_ <= now s
  | Owning acq => owned s key token acq
  | Renewing acq ttl ids t =>
      owned s key token acq /\ Expiry acq <= now s + ttl /\ NoDup ids /\
      exists got, tallied s key token t got /\ apart_from s got ids
  | Renewed acq ttl ids t i at_ =>
      owned s key token acq /\ Expiry acq <= now s + ttl /\ NoDup ids /\
      exists got, tallied s key token t got /\ apart_from s got ids /\ i ∉ got /\
        (forall n, nodes (red s) !! i = Some n -> ID n ∉ ids) /\
        secured s key token i (at_ + ttl) /\ at_ <= now s
  | RollingBack _ | Releasing _ => True
  end.

Definition sys_inv (s : system) : Prop :=
  NoDup (ID <$> nodes (red s)) /\
  forall key token p, clients s !! (key, token) = Some p -> phase_ok s key token p.

(** ** Steps keep it *)

Definition same_shape (s s' : system) : Prop :=
  now s <= now s' /\ r_cfg (red s') = r_cfg (red s) /\ ID <$> nodes (red s') = ID <$> nodes (red s).

Lemma shape_node s s' i n : same_shape s s' -> nodes (red s) !! i = Some n ->
  exists n', nodes (red s') !! i = Some n' /\ ID n' = ID n.
Proof.
  intros (_ & _ & E) Hn. assert ((ID <$> nodes (red s')) !! i = Some (ID n)) as H by (rewrite E, list_lookup_fmap, Hn; done).
  rewrite list_lookup_fmap in H. destruct (nodes (red s') !! i) as [n'|]; [|done]. exists n'. simpl in H. split; congruence.
Qed.

Lemma shape_node_rev s s' i n' : same_shape s s' -> nodes (red s') !! i = Some n' ->
  exists n, nodes (red s) !! i = Some n /\ ID n' = ID n.
Proof.
  intros (_ & _ & E) Hn. assert ((ID <$> nodes (red s)) !! i = Some (ID n')) as H by (rewrite <- E, list_lookup_fmap, Hn; done).
  rewrite list_lookup_fmap in H. destruct (nodes (red s) !! i) as [n|]; [|done]. exists n. simpl in H. split; congruence.
Qed.

Lemma shape_length s s' : same_shape s s' -> length (nodes (red s')) = length (nodes (red s)).
Proof. intros (_ & _ & E). apply (f_equal length) in E. by rewrite !length_fmap in E. Qed.

Lemma tallied_move s s' key token t got : same_shape s s' -> tallied s key token t got ->
  (forall i e, i ∈ got -> secured s key token i e -> secured s' key token i e) -> tallied s' key token t got.
Proof.
  intros Hs (Hnd & Hc & Hall) Hmove. split_and!; [done..|]. intros i Hi. destruct (Hall i Hi) as (n & x & Hn & Hx & Hsec).
  destruct (shape_node _ _ _ _ Hs Hn) as (n' & Hn' & Hid). exists n', x. rewrite Hid.
  pose proof (proj1 (proj2 Hs)) as Hcfg. split_and!; [done|done|]. rewrite Hcfg. by apply Hmove.
Qed.

Lemma owned_move s s' key token acq : same_shape s s' -> owned s key token acq ->
  (forall i, secured s key token i (Expiry acq) -> secured s' key token i (Expiry acq)) -> owned s' key token acq.
Proof.
  intros Hs (got & Hnd & Hm & Hall) Hmove. exists got. unfold majority in *. rewrite (shape_length _ _ Hs).
  split_and!; [done..|]. intros i Hi. destruct (Hall i Hi). split; [done|]. by apply Hmove.
Qed.

Lemma apart_move s s' got ids : same_shape s s' -> apart_from s got ids -> apart_from s' got ids.
Proof. intros Hs Ha i n' Hi Hn'. destruct (shape_node_rev _ _ _ _ Hs Hn') as (n & Hn & ->). by eapply Ha. Qed.

(** A step that leaves alone what is secured for a client keeps its phase. *)
Lemma phase_move s s' key token p : same_shape s s' -> phase_ok s key token p ->
  (forall i e, secured s key token i e -> secured s' key token i e) -> phase_ok s' key token p.
Proof.
  intros Hs Hp Hmove. pose proof (proj1 Hs) as Hn. destruct p as [ttl todo t|ttl todo t i at_| |acq|acq ttl ids t|acq ttl ids t i at_|]; simpl in *; try done.
  - destruct Hp as (got & Ht & Hnd). exists got. split; [|done]. eapply tallied_move; eauto.
  - destruct Hp as (got & Ht & Hnd & Hsec & Hat). exists got. split_and!; [|done|by apply Hmove|lia]. eapply tallied_move; eauto.
  - eapply owned_move; eauto.
  - destruct Hp as (Ho & He & Hnd & got & Ht & Ha). split_and!; [eapply owned_move; eauto|lia|done|].
    exists got. split; [eapply tallied_move; eauto|by eapply apart_move].
  - destruct Hp as (Ho & He & Hnd & got & Ht & Ha & Hi & Hid & Hsec & Hat).
    split_and!; [eapply owned_move; eauto|lia|done|]. exists got. split_and!; [eapply tallied_move; eauto|by eapply apart_move|done| |by apply Hmove|lia].
    intros n' Hn'. destruct (shape_node_rev _ _ _ _ Hs Hn') as (n & Hn0 & ->). by apply Hid.
Qed.

(** Replacing node [i] by one that keeps the unexpired entries of a client. *)
Definition keeps (t : Z) (n n' : N) (key token : string) : Prop :=
  forall e, node_holder n key = Some (token, e) -> t <= e -> node_holder n' key = Some (token, e).

Lemma set_node_shape s i n n' : nodes (red s) !! i = Some n -> ID n' = ID n ->
  same_shape s (with_red (set_node i n' (red s)) s).
Proof.
  intros Hn Hid. split_and!; [simpl; lia|done|]. simpl. rewrite list_fmap_insert, Hid. apply list_insert_id.
  by rewrite list_lookup_fmap, Hn.
Qed.

Lemma set_node_secured s i n n' key token j e : nodes (red s) !! i = Some n ->
  j <> i \/ keeps (now s) n n' key token ->
  secured s key token j e -> secured (with_red (set_node i n' (red s)) s) key token j e.
Proof.
  intros Hn Hk Hsec He. simpl in *. destruct (Hsec He) as (m & e' & Hm & Hh & Hle).
  destruct (decide (j = i)) as [->|Hji].
  - destruct Hk as [?|Hk]; [done|]. simplify_eq. exists n', e'.
    rewrite list_lookup_insert_eq by (by eapply lookup_lt_Some). split_and!; [done| |done]. apply Hk; [done|lia].
  - exists m, e'. by rewrite list_lookup_insert_ne.
Qed.

(** ** One client moves, the others are left alone *)

Lemma sys_move s s' key token p : sys_inv s -> same_shape s s' ->
  clients s' = <[(key, token) := p]> (clients s) -> phase_ok s' key token p ->
  (forall k t i e, (k, t) <> (key, token) -> secured s k t i e -> secured s' k t i e) -> sys_inv s'.
Proof.
  intros [Hid Hc] Hs Hcl Hp Hmove. split; [by rewrite (proj2 (proj2 Hs))|]. intros k t q Hq. rewrite Hcl in Hq.
  destruct (decide ((k, t) = (key, token))) as [E|Hne].
  - simplify_eq. rewrite lookup_insert_eq in Hq. by simplify_eq.
  - rewrite lookup_insert_ne in Hq by done. eapply phase_move; eauto.
Qed.

Lemma sys_keep s s' : sys_inv s -> same_shape s s' ->
  (forall kt p, clients s' !! kt = Some p -> clients s !! kt = Some p) ->
  (forall k t i e, secured s k t i e -> secured s' k t i e) -> sys_inv s'.
Proof.
  intros [Hid Hc] Hs Hcl Hmove. split; [by rewrite (proj2 (proj2 Hs))|]. intros k t q Hq. eapply phase_move; eauto.
Qed.

(** The phase alone changes. *)
Lemma at_phase_inv s key token p : sys_inv s -> phase_ok s key token p -> sys_inv (at_phase key token p s).
Proof. intros Hi Hp. eapply (sys_move s); [done|split_and!; [simpl; lia|done|done]|done|exact Hp|done]. Qed.

Lemma secured_weaken s key token i e e' : secured s key token i e -> e' <= e -> secured s key token i e'.
Proof. intros Hs He Hn. destruct (Hs ltac:(lia)) as (n & x & Hn' & Hh & Hx). exists n, x. split_and!; [done|done|lia]. Qed.

Lemma min_expiry_le m id e : m !! id = Some e -> exists x, min_expiry m = Some x /\ x <= e.
Proof.
  revert id e. unfold min_expiry.
  apply (map_fold_weak_ind (fun acc m => forall id e, m !! id = Some e -> exists x, acc = Some x /\ x <= e)).
  - intros id e He. by rewrite lookup_empty in He.
  - intros i x m' acc Hi IH id e He. apply lookup_insert_Some in He as [[-> ->]|[Hne He]].
    + destruct acc as [y|]; eexists; (split; [done|]); [|done]. destruct (Z.ltb_spec e y); lia.
    + destruct (IH _ _ He) as (y & -> & Hy). eexists. split; [done|]. destruct (Z.ltb_spec x y); lia.
Qed.

Lemma distinct_ids s i j n m : NoDup (ID <$> nodes (red s)) -> nodes (red s) !! i = Some n -> nodes (red s) !! j = Some m ->
  ID n = ID m -> i = j.
Proof.
  intros Hnd Hn Hm E. eapply NoDup_lookup; [exact Hnd|..]; rewrite list_lookup_fmap; [by rewrite Hn|]. by rewrite Hm, E.
Qed.

Lemma tallied_record s key token t got i n ttl at_ :
  NoDup (ID <$> nodes (red s)) -> tallied s key token t got -> i ∉ got -> nodes (red s) !! i = Some n ->
  secured s key token i (at_ + ttl) -> now s - at_ <= ClockDrift (r_cfg (red s)) ->
  tallied s key token (record_success (ID n) (now s) ttl t) (got ++ [i]).
Proof.
  intros Hids (Hnd & Hc & Hall) Hi Hn Hsec Hd. split_and!.
  - apply NoDup_app. split_and!; [done| |apply NoDup_singleton]. intros j Hj ->%list_elem_of_singleton. done.
  - simpl. rewrite Hc, length_app. simpl. lia.
  - intros j [Hj| ->%list_elem_of_singleton]%elem_of_app.
    + destruct (Hall j Hj) as (m & x & Hm & Hx & Hsj). exists m, x. simpl. rewrite lookup_insert_ne; [done|].
      intros E. apply Hi. by rewrite (distinct_ids s i j n m).
    + exists n, (now s + ttl). simpl. rewrite lookup_insert_eq. split_and!; [done..|]. eapply secured_weaken; [done|lia].
Qed.

Lemma conclude_owned s key token t got t0 acq : tallied s key token t got ->
  conclude (red s) key token t t0 = (acq, None) -> owned s key token acq.
Proof.
  intros (Hnd & Hc & Hall). unfold conclude. destruct (Z.ltb_spec (successCount t) (majority (red s))); [done|].
  destruct (negb _); [done|]. intros [= <-]. exists got. split_and!; [done|lia|].
  intros i Hi. destruct (Hall i Hi) as (n & x & Hn & Hx & Hsec). split; [by eapply lookup_lt_Some|]. simpl.
  destruct (min_expiry_le _ _ _ Hx) as (y & -> & Hy). eapply secured_weaken; [done|]. simpl. lia.
Qed.

Lemma find_node_Some id ns i (n : N) : find_node id ns = Some (i, n) -> ns !! i = Some n /\ ID n = id.
Proof. unfold find_node. intros (H1 & H2 & _)%list_find_Some. done. Qed.

(** A call at node [i] for a client touches no other client. *)
Lemma node_move s key token i n n' p : sys_inv s -> nodes (red s) !! i = Some n -> ID n' = ID n ->
  (forall k t, (k, t) <> (key, token) -> keeps (now s) n n' k t) ->
  phase_ok (with_red (set_node i n' (red s)) s) key token p ->
  sys_inv (at_phase key token p (with_red (set_node i n' (red s)) s)).
Proof.
  intros Hi Hn Hid Hk Hp. pose proof (set_node_shape s i n n' Hn Hid) as Hs.
  apply (sys_move s _ key token p); [done|exact Hs|done|exact Hp|].
  intros k t j e Hne Hsec. apply (set_node_secured s i n n'); [done|right; by apply Hk|done].
Qed.

Lemma unlock_move s key token i p : sys_inv s -> p = RollingBack [] \/ (exists ids, p = RollingBack ids) \/ (exists todo, p = Releasing todo) ->
  sys_inv (at_phase key token p (with_red (unlock_at key token i (now s) (red s)).1 s)).
Proof.
  intros Hi Hp. assert (forall s0 : system, phase_ok s0 key token p) as Hok by (by intros; destruct Hp as [->|[[? ->]|[? ->]]]).
  unfold unlock_at. destruct (nodes (red s) !! i) as [n|] eqn:Hn.
  - pose proof (law_unlock_id (now s) key token n) as Hid.
    assert (forall k t, (k, t) <> (key, token) -> keeps (now s) n (node_Unlock (now s) key token n).1 k t) as Hk
      by (intros k t Hne e Hh He; by apply law_unlock_keeps).
    destruct (node_Unlock (now s) key token n) as [n' err]. apply (node_move s key token i n); done.
  - apply (sys_move s _ key token p); [done|split_and!; [simpl; lia|done|done]|done|apply Hok|done].
Qed.

Lemma call_step_inv s key token ttl i todo t n n' err : sys_inv s ->
  clients s !! (key, token) = Some (Locking ttl (i :: todo) t) -> nodes (red s) !! i = Some n ->
  node_Lock (now s) key token ttl n = (n', err) ->
  sys_inv (at_phase key token (match err with None => Locked ttl todo t i (now s) | Some _ => Locking ttl todo t end)
             (with_red (set_node i n' (red s)) s)).
Proof.
  intros Hi Hc Hn Hl. pose proof (law_lock_id (now s) key token ttl n) as Hid. rewrite Hl in Hid. simpl in Hid.
  apply (node_move s key token i n); [done..| |].
  { intros k t' Hne e Hh He. pose proof (law_lock_keeps (now s) key token ttl n k t' e Hh He Hne) as H. by rewrite Hl in H. }
  destruct (proj2 Hi _ _ _ Hc) as (got & Ht & Hnd).
  assert (tallied (with_red (set_node i n' (red s)) s) key token t got) as Ht'.
  { eapply tallied_move; [by eapply set_node_shape|done|]. intros j e Hj. apply (set_node_secured s i n); [done|left].
    intros ->. apply NoDup_app in Hnd as (_ & Hd & _). apply (Hd i); [done|left]. }
  destruct err; simpl.
  - exists got. split; [done|]. apply NoDup_app in Hnd as (H1 & H2 & H3%NoDup_cons). apply NoDup_app. set_solver.
  - exists got. split_and!; [done|done| |lia]. intros _. exists n', (now s + ttl). simpl.
    rewrite list_lookup_insert_eq by (by eapply lookup_lt_Some). split_and!; [done|by eapply law_lock|lia].
Qed.

Lemma renew_call_inv s key token acq ttl id ids t i n n' err : sys_inv s ->
  clients s !! (key, token) = Some (Renewing acq ttl (id :: ids) t) -> find_node id (nodes (red s)) = Some (i, n) ->
  node_Heartbeat (now s) key token ttl n = (n', err) ->
  sys_inv (at_phase key token (match err with None => Renewed acq ttl ids t i (now s) | Some _ => Renewing acq ttl ids t end)
             (with_red (set_node i n' (red s)) s)).
Proof.
  intros Hi Hc [Hn Hnid]%find_node_Some Hl. pose proof (law_heartbeat_id (now s) key token ttl n) as Hid. rewrite Hl in Hid. simpl in Hid.
  apply (node_move s key token i n); [done..| |].
  { intros k t' Hne e Hh He. pose proof (law_heartbeat_keeps (now s) key token ttl n k t' e Hh He Hne) as H. by rewrite Hl in H. }
  destruct (proj2 Hi _ _ _ Hc) as (Ho & He & [Hnew Hnd]%NoDup_cons & got & Ht & Ha).
  assert (i ∉ got) as Hig by (intros Hig; apply (Ha i n Hig Hn); rewrite Hnid; left).
  pose proof (set_node_shape s i n n' Hn Hid) as Hs.
  assert (tallied (with_red (set_node i n' (red s)) s) key token t got) as Ht'.
  { eapply tallied_move; [done|done|]. intros j e Hj. apply (set_node_secured s i n); [done|left]. by intros ->. }
  assert (apart_from (with_red (set_node i n' (red s)) s) got ids) as Ha'.
  { eapply apart_move; [done|]. intros j m Hj Hm Hin. apply (Ha j m Hj Hm). by right. }
  assert (secured (with_red (set_node i n' (red s)) s) key token i (now s + ttl) \/ err <> None) as Hsec.
  { destruct err; [by right|left]. intros _. exists n', (now s + ttl). simpl.
    rewrite list_lookup_insert_eq by (by eapply lookup_lt_Some). split_and!; [done|by eapply law_heartbeat|lia]. }
  assert (owned (with_red (set_node i n' (red s)) s) key token acq) as Ho'.
  { eapply owned_move; [done|done|]. intros j Hj. destruct (decide (j = i)) as [->|]; [|by apply (set_node_secured s i n); [|left|]].
    destruct Hsec as [Hsec|Herr]; [by eapply secured_weaken|]. destruct err as [er|]; [|done].
    apply (set_node_secured s i n); [done|right|done]. intros e Hh Hle. by eapply law_heartbeat_fails. }
  destruct err; simpl.
  - split_and!; [done|done|done|]. by exists got.
  - split_and!; [done|done|done|]. exists got. destruct Hsec as [Hsec|]; [|done]. split_and!; [done|done|done| |done|lia].
    intros m Hm. rewrite list_lookup_insert_eq in Hm by (by eapply lookup_lt_Some). simplify_eq. by rewrite Hid.
Qed.

Lemma record_step_inv s key token ttl todo t i at_ n : sys_inv s ->
  clients s !! (key, token) = Some (Locked ttl todo t i at_) -> nodes (red s) !! i = Some n ->
  now s - at_ <= ClockDrift (r_cfg (red s)) ->
  sys_inv (at_phase key token (Locking ttl todo (record_success (ID n) (now s) ttl t)) s).
Proof.
  intros Hi Hc Hn Hd. apply at_phase_inv; [done|]. destruct (proj2 Hi _ _ _ Hc) as (got & Ht & Hnd & Hsec & _).
  exists (got ++ [i]). split; [|by rewrite <- app_assoc]. eapply tallied_record; eauto; [apply Hi|].
  apply NoDup_app in Hnd as (_ & Hnd & _). intros Hg. by apply (Hnd i Hg); left.
Qed.

Lemma renew_record_inv s key token acq ttl ids t i at_ n : sys_inv s ->
  clients s !! (key, token) = Some (Renewed acq ttl ids t i at_) -> nodes (red s) !! i = Some n ->
  now s - at_ <= ClockDrift (r_cfg (red s)) ->
  sys_inv (at_phase key token (Renewing acq ttl ids (record_success (ID n) (now s) ttl t)) s).
Proof.
  intros Hi Hc Hn Hd. apply at_phase_inv; [done|].
  destruct (proj2 Hi _ _ _ Hc) as (Ho & He & Hnd & got & Ht & Ha & Hig & Hid & Hsec & _).
  split_and!; [done..|]. exists (got ++ [i]). split; [eapply tallied_record; eauto; apply Hi|].
  intros j m [Hj| ->%list_elem_of_singleton]%elem_of_app Hm; [by eapply Ha|by apply Hid].
Qed.

Lemma no_tally_ok s key token : tallied s key token no_tally [].
Proof. split_and!; [constructor|done|]. intros i Hi. by apply elem_of_nil in Hi. Qed.

Lemma time_secured s t k tok i e : now s <= t -> secured s k tok i e ->
  secured {| now := t; red := red s; clients := clients s |} k tok i e.
Proof. intros Ht Hs He. apply Hs. simpl in He. lia. Qed.

Lemma node_keep s i n n' : sys_inv s -> nodes (red s) !! i = Some n -> ID n' = ID n ->
  (forall k t, keeps (now s) n n' k t) -> sys_inv (with_red (set_node i n' (red s)) s).
Proof.
  intros Hi Hn Hid Hk. apply (sys_keep s); [done|by eapply set_node_shape|done|].
  intros k t j e. apply (set_node_secured s i n); [done|right; apply Hk].
Qed.

Lemma clients_deleted s kt : sys_inv s -> sys_inv {| now := now s; red := red s; clients := delete kt (clients s) |}.
Proof.
  intros Hi. apply (sys_keep s); [done|split_and!; [simpl; lia|done|done]| |done].
  simpl. intros kt' p Hp. by apply lookup_delete_Some in Hp as [_ ?].
Qed.

Lemma sys_step_inv s s' : sys_inv s -> sys_step s s' -> sys_inv s'.
Proof.
  intros Hi. destruct 1 as [t Ht|i n Hn|i n key Hn|key token ttl Hc Ht|key token ttl i todo t n n' err Hc Hn Hl
    |key token ttl todo t i at_ n Hc Hn Hd|key token ttl t acq err Hc Hcon|key token id ids i n Hc Hf|key token Hc
    |key token acq Hc|key token i todo Hc|key token Hc|key token acq ttl Hc Ht He|key token acq ttl id ids t i n n' err Hc Hf Hh
    |key token acq ttl ids t i at_ n Hc Hn Hd|key token acq ttl t acq' err Hc Hcon].
  - apply (sys_keep s); [done|split_and!; [done|done|done]|done|]. intros. by apply time_secured.
  - apply (node_keep s i n); [done|done|apply law_background_id|]. intros k t e Hh He. by apply law_background_keeps.
  - apply (node_keep s i n); [done|done|apply law_query_id|]. intros k t e Hh He. by apply law_query_keeps.
  - apply at_phase_inv; [done|]. exists []. split; [apply no_tally_ok|]. apply NoDup_seq.
  - by eapply call_step_inv.
  - by eapply record_step_inv.
  - apply at_phase_inv; [done|]. destruct err; [done|]. destruct (proj2 Hi _ _ _ Hc) as (got & Ht & _). by eapply conclude_owned.
  - apply unlock_move; eauto.
  - by apply clients_deleted.
  - by apply at_phase_inv.
  - apply unlock_move; eauto.
  - by apply clients_deleted.
  - apply at_phase_inv; [done|]. split_and!; [by apply (proj2 Hi _ _ _ Hc)|done|apply NoDup_fst_map_to_list|].
    exists []. split; [apply no_tally_ok|]. intros i n Hin. by apply elem_of_nil in Hin.
  - by eapply renew_call_inv.
  - by eapply renew_record_inv.
  - apply at_phase_inv; [done|]. destruct (proj2 Hi _ _ _ Hc) as (Ho & _ & _ & got & Ht & _). destruct err; [done|].
    by eapply conclude_owned.
Qed.

Lemma reachable_sys_inv s0 s : initial s0 -> rtc sys_step s0 s -> sys_inv s.
Proof.
  intros [Hc Hid] Hr. assert (sys_inv s0) as H0 by (split; [done|]; intros k t p Hp; by rewrite Hc, lookup_empty in Hp).
  clear Hc Hid. induction Hr as [|s1 s2 s3 Hst _ IH]; [done|]. apply IH. by eapply sys_step_inv.
Qed.

(** Two majorities of the nodes have one in common. *)
Lemma majorities_meet (l1 l2 : list nat) k : NoDup l1 -> NoDup l2 ->
  (forall i, i ∈ l1 -> (i < k)%nat) -> (forall i, i ∈ l2 -> (i < k)%nat) -> (k < length l1 + length l2)%nat ->
  exists i, i ∈ l1 /\ i ∈ l2.
Proof.
  intros H1 H2 Hb1 Hb2 Hk. destruct (decide (Exists (fun i => i ∈ l2) l1)) as [He|He].
  - apply Exists_exists in He as (i & ? & ?). by exists i.
  - exfalso. assert (NoDup (l1 ++ l2)) as Hnd.
    { apply NoDup_app. split_and!; [done| |done]. intros i Hi Hi2. apply He, Exists_exists. by exists i. }
    assert (l1 ++ l2 ⊆+ seq 0 k) as Hsub.
    { apply NoDup_submseteq; [done|]. intros i [Hi|Hi]%elem_of_app; apply elem_of_seq; [specialize (Hb1 i Hi)|specialize (Hb2 i Hi)]; lia. }
    apply submseteq_length in Hsub. rewrite length_app, length_seq in Hsub. lia.
Qed.

Lemma relied_owned s key token p acq : phase_ok s key token p -> relied_on p = Some acq -> owned s key token acq.
Proof. destruct p; simpl; intros Hp [= <-]; [done|apply Hp|apply Hp]. Qed.

Lemma owners_agree s key t1 t2 acq1 acq2 : owned s key t1 acq1 -> owned s key t2 acq2 ->
  IsValid (now s) (Some acq1) = true -> IsValid (now s) (Some acq2) = true -> t1 = t2.
Proof.
  intros (g1 & Hn1 & Hm1 & Hs1) (g2 & Hn2 & Hm2 & Hs2) H1 H2. simpl in H1, H2. bools.
  unfold majority in Hm1, Hm2.
  destruct (majorities_meet g1 g2 (length (nodes (red s)))) as (i & Hi1 & Hi2); [done|done| | | |].
  - intros i Hi. by apply Hs1.
  - intros i Hi. by apply Hs2.
  - Z.to_euclidean_division_equations. lia.
  - destruct (proj2 (Hs1 i Hi1) ltac:(lia)) as (n & e & Hn & Hh & _).
    destruct (proj2 (Hs2 i Hi2) ltac:(lia)) as (n' & e' & Hn' & Hh' & _). congruence.
Qed.

End system.

(** C6: at any time at most one token has a valid acquisition of a key.  For
    every interleaving of clients' node calls, clock readings, renewals,
    releases and roll-backs with the nodes' own cleaning, over any nodes with
    distinct identities that keep the promises of [LockNodeLaws]: two clients
    that rely on acquisitions of one key whose expiry is not reached have the
    same token, provided a client reads the clock within the configured drift
    after the node did and renews for no shorter than it already holds.  One
    token has one call on a key under way at a time; it may lock a key it owns
    again, and then relies on the newest acquisition only
    ([relock_ends_first_acquisition] says why). *)
Theorem redlock_mutual_exclusion {N} `{!LockNode N, !LockNodeLaws N} (s0 s : system (N := N)) key t1 t2 p1 p2 acq1 acq2 :
  initial s0 -> rtc sys_step s0 s ->
  clients s !! (key, t1) = Some p1 -> relied_on p1 = Some acq1 -> IsValid (now s) (Some acq1) = true ->
  clients s !! (key, t2) = Some p2 -> relied_on p2 = Some acq2 -> IsValid (now s) (Some acq2) = true ->
  t1 = t2.
Proof.
  intros H0 Hr Hc1 Hp1 Hv1 Hc2 Hp2 Hv2. pose proof (reachable_sys_inv _ _ H0 Hr) as [_ Hinv].
  eapply owners_agree; [| |exact Hv1|exact Hv2]; eapply relied_owned; eauto.
Qed.

(** ** The methods are runs of the system *)

Section runs.
Context {N : Type} `{!LockNode N, !LockNodeLaws N} {W : Type} `{!Clock W, !ClockLaws W}.

Lemma attempt_loop_steps key token ttl cs todo : forall (w : W) (r : Redlock N) t w' r' t',
  (forall w : W, mono (tick w) - mono w <= ClockDrift (r_cfg r)) ->
  (forall i, i ∈ todo -> (i < length (nodes r))%nat) ->
  attempt_loop key token ttl todo w r t = (w', r', t') ->
  rtc sys_step {| now := mono w; red := r; clients := <[(key, token) := Locking ttl todo t]> cs |}
               {| now := mono w'; red := r'; clients := <[(key, token) := Locking ttl [] t']> cs |}.
Proof.
  induction todo as [|i todo IH]; intros w r t w' r' t' Hd Hi E; simpl in E; [by simplify_eq|].
  destruct (lookup_lt_is_Some_2 (nodes r) i) as [n Hn]; [apply Hi; left|]. rewrite Hn in E.
  set (w1 := tick w) in *. destruct (node_Lock (mono w1) key token ttl n) as [n' err] eqn:El.
  eapply rtc_l; [apply (step_time _ (mono w1)); apply tick_mono|]. simpl.
  eapply rtc_l.
  { eapply (step_call _ key token ttl i todo t n n' err); simpl; [by rewrite lookup_insert_eq|done|done]. }
  unfold at_phase, with_red. simpl. rewrite insert_insert_eq.
  assert (forall j, j ∈ todo -> (j < length (nodes (set_node i n' r)))%nat) as Hi'.
  { intros j Hj. simpl. rewrite length_insert. apply Hi. by right. }
  destruct err as [er|]; [by apply IH|].
  eapply rtc_l; [apply (step_time _ (mono (tick w1))); apply tick_mono|]. simpl.
  eapply rtc_l.
  { eapply (step_record _ key token ttl todo t i (mono w1) n'); simpl; [by rewrite lookup_insert_eq| |apply Hd].
    rewrite list_lookup_insert_eq; [done|]. by eapply lookup_lt_Some. }
  unfold at_phase. simpl. rewrite insert_insert_eq. by apply IH.
Qed.

(** An attempt that succeeds is one of the interleavings of the system:
    run alone, from a state without the client or with it as owner, it leads by steps of the system
    to the state in which the client owns the acquisition it returns. *)
Lemma attemptLock_reaches key token ttl cs (w w' : W) (r r' : Redlock N) acq :
  (forall w : W, mono (tick w) - mono w <= ClockDrift (r_cfg r)) -> 0 < ttl -> may_begin (cs !! (key, token)) ->
  attemptLock key token ttl w r = (w', r', acq, None) ->
  rtc sys_step {| now := mono w; red := r; clients := cs |}
               {| now := mono w'; red := r'; clients := <[(key, token) := Owning acq]> cs |}.
Proof.
  intros Hd Ht Hc. unfold attemptLock.
  destruct (attempt_loop key token ttl _ w r no_tally) as [[w1 r1] t1] eqn:E.
  destruct (conclude r1 key token t1 (mono (tick w1))) as [acq' err] eqn:Ec. intros [= <- <- <- ->].
  eapply rtc_l; [by apply (step_begin _ key token ttl)|]. unfold at_phase. simpl.
  etrans; [eapply attempt_loop_steps; [exact Hd| |exact E]; intros i Hi%elem_of_seq; lia|].
  eapply rtc_l; [apply (step_time _ (mono (tick w1))); apply tick_mono|]. simpl.
  eapply rtc_l; [|apply rtc_refl].
  replace (<[(key, token) := Owning acq']> cs) with
    (<[(key, token) := Owning acq']> (<[(key, token) := Locking ttl [] t1]> cs)) by apply insert_insert_eq.
  eapply (step_conclude {| now := _; red := _; clients := _ |} key token ttl t1 acq' None); simpl; [by rewrite lookup_insert_eq|done].
Qed.

(** ** Retries end *)

Lemma attempt_loop_mono key token ttl todo : forall (w : W) (r : Redlock N) t w' r' t',
  attempt_loop key token ttl todo w r t = (w', r', t') -> mono w <= mono w' /\ r_cfg r' = r_cfg r.
Proof.
  induction todo as [|i todo IH]; intros w r t w' r' t' E; simpl in E; [by simplify_eq|].
  destruct (nodes r !! i) as [n|]; [|by eapply IH].
  destruct (node_Lock _ _ _ _ _) as [n' [er|]]; apply IH in E as [Hm Hc];
    (split; [|done]); pose proof (tick_mono w); pose proof (tick_mono (tick w)); lia.
Qed.

Lemma rollback_loop_mono key token ids : forall (w : W) (r : Redlock N) w' r',
  rollback_loop key token ids w r = (w', r') -> mono w <= mono w' /\ r_cfg r' = r_cfg r.
Proof.
  induction ids as [|id ids IH]; intros w r w' r' E; simpl in E; [by simplify_eq|].
  destruct (find_node id (nodes r)) as [[i n]|]; [|by eapply IH]. apply IH in E as [Hm Hc]. pose proof (tick_mono w).
  split; [lia|]. rewrite Hc. unfold unlock_at. destruct (nodes r !! i); [|done]. by destruct (node_Unlock _ _ _ _).
Qed.

Lemma lock_loop_returns fuel : forall key token ttl deadline (w : W) (r : Redlock N),
  0 < RetryDelay (r_cfg r) -> deadline - mono w < Z.of_nat fuel * RetryDelay (r_cfg r) ->
  is_Some (lock_loop (S fuel) key token ttl deadline w r).
Proof.
  induction fuel as [|fuel IH]; intros key token ttl deadline w r Hd Hf; cbn [lock_loop].
  - pose proof (tick_mono w). rewrite (proj2 (Z.ltb_lt _ _)) by lia. by eexists.
  - case_match; [by eexists|]. unfold attemptLock.
    destruct (attempt_loop _ _ _ _ _ _ _) as [[w1 r1] t1] eqn:E1. destruct (conclude _ _ _ _ _) as [acq [err|]]; [|by eexists].
    unfold rollbackPartialLock. destruct (rollback_loop _ _ _ _ _) as [w2 r2] eqn:E2.
    apply attempt_loop_mono in E1 as [Hm1 Hc1]. apply rollback_loop_mono in E2 as [Hm2 Hc2].
    case_match; [by eexists|]. rewrite <- Hc1, <- Hc2 in Hd, Hf.
    apply IH; [done|].
    pose proof (sleep_mono (RetryDelay (r_cfg r2)) (tick w2)). pose proof (tick_mono w). pose proof (tick_mono w1). pose proof (tick_mono w2). lia.
Qed.

End runs.

(** [Lock] of a redlock made by the constructor returns, after at most the
    acquire timeout divided by the retry delay, plus two, attempts, whatever the
    nodes answer. *)
Theorem redlock_Lock_returns {N} `{!LockNode N} {W} `{!Clock W, !ClockLaws W} (ns : list N) c r key token ttl (w : W) :
  NewRedlockWithConfig ns c = Ok r ->
  is_Some (Redlock.Lock (Z.to_nat (AcquireTimeout (r_cfg r) / RetryDelay (r_cfg r) + 2)) key token ttl w r).
Proof.
  intros Hnew. assert (0 < AcquireTimeout (r_cfg r) /\ 0 < RetryDelay (r_cfg r)) as [Ha Hd].
  { unfold NewRedlockWithConfig in Hnew. repeat case_match; simplify_eq/=; bools; unfold DefaultRedlockConfig in *; simpl in *; lia. }
  unfold Redlock.Lock. repeat (case_match; [by eexists|]).
  assert (0 <= AcquireTimeout (r_cfg r) / RetryDelay (r_cfg r)) by (apply Z.div_pos; lia).
  replace (Z.to_nat _) with (S (Z.to_nat (AcquireTimeout (r_cfg r) / RetryDelay (r_cfg r) + 1))) by lia.
  apply lock_loop_returns; [done|]. pose proof (Z.mul_succ_div_gt (AcquireTimeout (r_cfg r)) (RetryDelay (r_cfg r)) Hd). nia.
Qed.

(** ** Examples *)

Definition three_nodes : list MemoryLockNode :=
  [NewMemoryLockNode "a"; NewMemoryLockNode "b"; NewMemoryLockNode "c"].

Definition demo_red : Redlock MemoryLockNode := {| r_cfg := DefaultRedlockConfig; nodes := three_nodes |}.

Definition demo_world : SimWorld := {| sim_ms := 0; sim_ns := 1000 |}.

Definition demo_attempt := attemptLock "k" "me" 1000000000 demo_world demo_red.

Definition demo_owner : system :=
  {| now := mono demo_attempt.1.1.1; red := demo_attempt.1.1.2;
     clients := <[("k", "me") := Owning demo_attempt.1.2]> ∅ |}.

Lemma demo_owner_reachable : rtc sys_step {| now := mono demo_world; red := demo_red; clients := ∅ |} demo_owner.
Proof.
  apply (attemptLock_reaches "k" "me" 1000000000); [intros [ms ns]; simpl; lia|lia|done|].
  vm_compute. reflexivity.
Qed.

Lemma redlock_mutual_exclusion_witness : IsValid (now demo_owner) (Some demo_attempt.1.2) = true /\ "me" = "me".
Proof.
  split; [vm_compute; reflexivity|].
  apply (redlock_mutual_exclusion {| now := mono demo_world; red := demo_red; clients := ∅ |} demo_owner "k" "me" "me"
           (Owning demo_attempt.1.2) (Owning demo_attempt.1.2) demo_attempt.1.2 demo_attempt.1.2);
    [split; [reflexivity|]|exact demo_owner_reachable|vm_compute; reflexivity..].
  apply (bool_decide_unpack _). vm_compute. exact I.
Defined.

Lemma redlock_Lock_returns_witness :
  is_Some (Redlock.Lock 52 "k" "me" 1000000000 demo_world demo_red).
Proof.
  apply (redlock_Lock_returns three_nodes DefaultRedlockConfig demo_red "k" "me" 1000000000 demo_world).
  vm_compute. reflexivity.
Defined.

(** A world given by its readings of the clock. *)
#[local] Instance readings_clock : Clock (list Z) :=
  {| wall w := 0; mono w := hd 0 w; tick w := tl w; sleep d w := w |}.

Definition driftless : RedlockConfig := {| AcquireTimeout := 0; RetryDelay := 0; ClockDrift := 0 |}.

Definition one_node : list MemoryLockNode := [NewMemoryLockNode "a"].

(** A drift of zero, which the constructor accepts as it is, gives no
    exclusion: the node reads the clock at 0, the first client only at 5, so the
    node's entry ends at 10 and the client's acquisition at 15; a second client
    locks at 12, and at 13 both acquisitions are valid. *)
Theorem zero_drift_two_owners :
  exists r w1 r1 acq1 w2 r2 acq2,
    NewRedlockWithConfig one_node driftless = Ok r /\
    Redlock.TryLock "k" "A" 10 [0; 0; 5; 6] r = (w1, r1, Ok acq1) /\
    Redlock.TryLock "k" "B" 10 [11; 12; 12; 12] r1 = (w2, r2, Ok acq2) /\
    IsValid 13 (Some acq1) = true /\ IsValid 13 (Some acq2) = true.
Proof.
  eexists _, _, _, _, _, _, _. split; [vm_compute; reflexivity|]. split; [vm_compute; reflexivity|].
  split; [vm_compute; reflexivity|]. split; vm_compute; reflexivity.
Qed.

(** A token that locks a key it owns again resets the end of the nodes' entries
    to the new one, earlier or not: A locks for 100, then again for 10 at time 5;
    at 20 B locks, while the acquisition that A's first call returned is valid
    until 99. *)
Theorem relock_ends_first_acquisition :
  exists r w1 r1 acq1 w2 r2 acq2 w3 r3 acq3,
    NewRedlockWithConfig one_node {| AcquireTimeout := 0; RetryDelay := 0; ClockDrift := 1 |} = Ok r /\
    Redlock.TryLock "k" "A" 100 [0; 0; 0; 0] r = (w1, r1, Ok acq1) /\
    Redlock.TryLock "k" "A" 10 [5; 5; 5; 5] r1 = (w2, r2, Ok acq2) /\
    Redlock.TryLock "k" "B" 10 [20; 20; 20; 20] r2 = (w3, r3, Ok acq3) /\
    IsValid 21 (Some acq1) = true /\ IsValid 21 (Some acq3) = true.
Proof.
  eexists _, _, _, _, _, _, _, _, _, _. split; [vm_compute; reflexivity|].
  do 3 (split; [vm_compute; reflexivity|]). split; vm_compute; reflexivity.
Qed.
