(* ===== verification/LeaderElect.v ===== *)
(** Leader election on top of a lock with leases (leaderelect/leaderelect.go),
    for any backend behind the interface [LockBackend]; the lock manager of
    distlock is one.

    Every elector has one goroutine, the loop, and any number of calls of its
    methods in progress.  [loop_step] and [call_step] are what each of them does
    next: one hold of a mutex, one call of the backend, or one part of [notify];
    [elect_step] interleaves them, for several electors with one backend.
    Factors are IEEE 754 numbers of 64 bits. *)

From stdpp Require Import base tactics option numbers list gmap strings.
From Stdlib Require Import ZArith Lia SpecFloat.
From S2P Require Import Prelude DistLock.

Module LeaderElect.

#[local] Existing Instance DistLock.Error_eq_dec.

Inductive Error :=
| ErrElectorStopped
| ErrElectorRunning
| ErrInvalidConfig (why : string)
| ErrEmptyNodeID
| ErrEmptyElectionKey
| BackendError (e : DistLock.Error).

Inductive NodeRole := RoleFollower | RoleCandidate | RoleLeader.

#[export] Instance role_eq_dec : EqDecision NodeRole.
Proof. solve_decision. Defined.

Definition role_String (r : NodeRole) : string :=
  match r with RoleFollower => "follower" | RoleCandidate => "candidate" | RoleLeader => "leader" end.

Inductive ElectionEventType :=
| EventBecomeLeader
| EventBecomeFollower
| EventElectionStart
| EventElectionEnd
| EventHeartbeat
| EventLeaderLost.

Definition event_String (t : ElectionEventType) : string :=
  match t with
  | EventBecomeLeader => "become_leader"
  | EventBecomeFollower => "become_follower"
  | EventElectionStart => "election_start"
  | EventElectionEnd => "election_end"
  | EventHeartbeat => "heartbeat"
  | EventLeaderLost => "leader_lost"
  end.

Record ElectionEvent := {
  ev_Type : ElectionEventType;
  ev_NodeID : string;
  ev_Role : NodeRole;
  ev_LeaderID : string;
  ev_Term : Z;
  ev_Timestamp : Z
}.

(** ** Configuration *)

Record Config := { LeaseDuration : Z; HeartbeatFactor : float64; CheckFactor : float64 }.

Definition DefaultLeaseDuration : Z := 5000000000.
Definition DefaultHeartbeatFactor : float64 := S754_finite false 5404319552844595 (-54).
Definition DefaultCheckFactor : float64 := S754_finite false 4503599627370496 (-53).

Definition DefaultConfig : Config :=
  {| LeaseDuration := DefaultLeaseDuration; HeartbeatFactor := DefaultHeartbeatFactor; CheckFactor := DefaultCheckFactor |}.

Definition Validate (c : Config) : option Error :=
  if LeaseDuration c <=? 0 then Some (ErrInvalidConfig "lease duration must be positive")
  else if no_fraction (HeartbeatFactor c) then Some (ErrInvalidConfig "heartbeat factor must be between 0 and 1")
  else if no_fraction (CheckFactor c) then Some (ErrInvalidConfig "check factor must be between 0 and 1")
  else if SFleb (CheckFactor c) (HeartbeatFactor c) then Some (ErrInvalidConfig "heartbeat factor must be less than check factor")
  else None.

Definition HeartbeatInterval (c : Config) : option Z := int_of_float (SFmul 53 1024 (float_of_int (LeaseDuration c)) (HeartbeatFactor c)).
Definition CheckInterval (c : Config) : option Z := int_of_float (SFmul 53 1024 (float_of_int (LeaseDuration c)) (CheckFactor c)).

(** ** The backend *)

(** A call gets the time at which it takes effect.  [be_background] is what the
    backend does on its own. *)
Class LockBackend (B : Type) := {
  be_TryLock : Z -> string -> string -> Z -> B -> B * result DistLock.Error bool;
  be_Heartbeat : Z -> string -> string -> Z -> B -> B * option DistLock.Error;
  be_Unlock : Z -> string -> string -> B -> B * option DistLock.Error;
  be_GetHolder : Z -> string -> B -> B * result DistLock.Error (string * Z * Z);
  be_IsLocked : Z -> string -> B -> B * result DistLock.Error bool;
  be_background : Z -> B -> B
}.

#[export] Instance lockManagerBackend : LockBackend DistLock.LockManager := {|
  be_TryLock := DistLock.TryLock;
  be_Heartbeat := DistLock.Heartbeat;
  be_Unlock := DistLock.Unlock;
  be_GetHolder := DistLock.GetHolder;
  be_IsLocked := DistLock.IsLocked;
  be_background := DistLock.cleanLoop_tick
|}.

(** ** The elector *)

(** Callbacks are named by numbers.  [stop_closed] tells whether [stopCh] is
    closed. *)
Record LeaderElector := {
  nodeID : string;
  electionKey : string;
  cfg : Config;
  callbacks : list nat;
  role : NodeRole;
  term : Z;
  leaderID : string;
  running : bool;
  stopped : bool;
  stop_closed : bool
}.

#[export] Instance LeaderElector_eta : Eta LeaderElector :=
  fun e => {| nodeID := nodeID e; electionKey := electionKey e; cfg := cfg e; callbacks := callbacks e; role := role e;
              term := term e; leaderID := leaderID e; running := running e; stopped := stopped e; stop_closed := stop_closed e |}.

Definition NewLeaderElector {B} (id key : string) (c : Config) (backend : option B) : result Error LeaderElector :=
  if decide (id = "") then Err ErrEmptyNodeID
  else if decide (key = "") then Err ErrEmptyElectionKey
  else match Validate c with
       | Some e => Err e
       | None =>
           match backend with
           | None => Err (ErrInvalidConfig "backend is nil")
           | Some _ => Ok {| nodeID := id; electionKey := key; cfg := c; callbacks := []; role := RoleFollower; term := 0;
                             leaderID := ""; running := false; stopped := false; stop_closed := false |}
           end
       end.

Definition RegisterCallback (cb : nat) (e : LeaderElector) : LeaderElector := e <| callbacks := callbacks e ++ [cb] |>.

Definition IsLeader (e : LeaderElector) : bool := bool_decide (role e = RoleLeader).

(** The error, and whether a loop is started. *)
Definition Start (e : LeaderElector) : option Error * bool * LeaderElector :=
  if stopped e then (Some ErrElectorStopped, false, e)
  else if running e then (Some ErrElectorRunning, false, e)
  else (None, true, e <| running := true |> <| stop_closed := false |>).

(** The first part of [Stop], and whether it goes on. *)
Definition Stop_begin (e : LeaderElector) : LeaderElector * bool :=
  if stopped e then (e, false)
  else
    let e := e <| stopped := true |> in
    (if running e then e <| running := false |> <| stop_closed := true |> else e, true).

(** The part after the wait, and whether the lock is given back. *)
Definition Stop_end (e : LeaderElector) : LeaderElector * bool := (e <| role := RoleFollower |>, IsLeader e).

(** The first part of [Resign]: an error, or whether it goes on. *)
Definition Resign_begin (e : LeaderElector) : result Error bool :=
  if negb (running e) then Err ErrElectorStopped else Ok (IsLeader e).

(** The critical sections of the loop and of [Resign]. *)
Definition step_down (e : LeaderElector) : LeaderElector := e <| role := RoleFollower |> <| leaderID := "" |>.
Definition becomeLeader (e : LeaderElector) : LeaderElector := e <| role := RoleLeader |> <| leaderID := nodeID e |>.
Definition enter_election (e : LeaderElector) : option LeaderElector :=
  if IsLeader e then None else Some (e <| role := RoleCandidate |> <| term := int64 (term e + 1) |>).

(** ** Goroutines *)

(** A notification: to be made, or made up and to be sent. *)
Inductive notice := Notice (t : ElectionEventType) | Prepared (ev : ElectionEvent).

(** Where the loop is: not started; started, but not yet counted in the wait
    group; in its select; about to do each of the steps of [checkLeader],
    [startElection], [becomeLeader] and [doHeartbeat]; returned; or dead of a
    panic. *)
Inductive position :=
| Unstarted
| Spawning
| Idle
| CheckGet
| CheckSet (holder : string)
| CheckRole (holder : string)
| Elect
| ElectTry
| ElectError
| ElectLost
| ElectLostGet
| ElectLostSet (holder : string)
| Become
| BeatTest
| BeatCall
| BeatFailed
| LoopDone
| LoopPanicked.

(** A call in progress: [Resign] before it gives the lock back and after that,
    [Stop] waiting for the loop, past the wait, and before it gives the lock
    back; or returned. *)
Inductive call_position := ResignUnlock | ResignSet | StopWait | StopSet | StopUnlock | Returned (err : option Error).

Record call := { c_at : call_position; c_todo : list notice }.

(** An elector with its goroutines.  [sent] are the events for which a
    goroutine was started, with the callbacks it runs.  [granted] is no part of
    the program: the end of the lease that the elector was last told of and has
    not given back. *)
Record node := {
  el : LeaderElector;
  pos : position;
  todo : list notice;
  calls : list call;
  sent : list (ElectionEvent * list nat);
  granted : option Z
}.

#[export] Instance node_eta : Eta node :=
  fun nd => {| el := el nd; pos := pos nd; todo := todo nd; calls := calls nd; sent := sent nd; granted := granted nd |}.

Definition new_node (e : LeaderElector) : node :=
  {| el := e; pos := Unstarted; todo := []; calls := []; sent := []; granted := None |}.

(** One of the two parts of [notify]: the rest of the list, and what is sent. *)
Definition notify_step (now : Z) (e : LeaderElector) (n : notice) (rest : list notice) : list notice * list (ElectionEvent * list nat) :=
  match n with
  | Notice t => (Prepared {| ev_Type := t; ev_NodeID := nodeID e; ev_Role := role e; ev_LeaderID := leaderID e; ev_Term := term e;
                             ev_Timestamp := 0 |} :: rest, [])
  | Prepared ev =>
      (rest, match callbacks e with
             | [] => []
             | cbs => [({| ev_Type := ev_Type ev; ev_NodeID := ev_NodeID ev; ev_Role := ev_Role ev; ev_LeaderID := ev_LeaderID ev;
                           ev_Term := ev_Term ev; ev_Timestamp := now |}, cbs)]
             end)
  end.

(** [time.NewTicker] panics unless the interval is positive. *)
Definition ticks (d : option Z) : bool := match d with Some d => 0 <? d | None => false end.

Section backend.
Context {B : Type} `{LockBackend B}.

(** The next step of a loop that is not in its select. *)
Definition loop_step (now : Z) (b : B) (nd : node) : option (B * node) :=
  let e := el nd in
  match todo nd with
  | n :: rest =>
      let '(rest, out) := notify_step now e n rest in
      Some (b, nd <| todo := rest |> <| sent := sent nd ++ out |>)
  | [] =>
      match pos nd with
      | Spawning =>
          Some (b, nd <| pos := if ticks (CheckInterval (cfg e)) && ticks (HeartbeatInterval (cfg e)) then CheckGet else LoopPanicked |>)
      | CheckGet =>
          let '(b, r) := be_GetHolder now (electionKey e) b in
          Some (b, match r with
                   | Err _ => nd <| pos := Elect |>
                   | Ok (holder, _, ttl) =>
                       let nd := if decide (holder = nodeID e) then nd <| granted := Some (now + ttl) |> else nd in
                       nd <| pos := CheckSet holder |>
                   end)
      | CheckSet holder =>
          let prevLeader := leaderID e in
          Some (b, nd <| el := e <| leaderID := holder |> |> <| pos := CheckRole holder |>
                      <| todo := if decide (prevLeader <> holder /\ holder <> "") then [Notice EventElectionEnd] else [] |>)
      | CheckRole holder =>
          Some (b, nd <| pos := if IsLeader e then Idle else if decide (holder = nodeID e) then Become else Idle |>)
      | Elect =>
          Some (b, match enter_election e with
                   | None => nd <| pos := Idle |>
                   | Some e => nd <| el := e |> <| pos := ElectTry |> <| todo := [Notice EventElectionStart] |>
                   end)
      | ElectTry =>
          let '(b, r) := be_TryLock now (electionKey e) (nodeID e) (LeaseDuration (cfg e)) b in
          Some (b, match r with
                   | Err _ => nd <| pos := ElectError |>
                   | Ok true => nd <| pos := Become |> <| granted := Some (now + LeaseDuration (cfg e)) |>
                   | Ok false => nd <| pos := ElectLost |>
                   end)
      | ElectError => Some (b, nd <| el := e <| role := RoleFollower |> |> <| pos := Idle |> <| todo := [Notice EventBecomeFollower] |>)
      | ElectLost => Some (b, nd <| el := step_down e |> <| pos := ElectLostGet |>)
      | ElectLostGet =>
          let '(b, r) := be_GetHolder now (electionKey e) b in
          let notices := [Notice EventElectionEnd; Notice EventBecomeFollower] in
          Some (b, match r with
                   | Ok (holder, _, _) =>
                       if decide (holder = "") then nd <| pos := Idle |> <| todo := notices |> else nd <| pos := ElectLostSet holder |>
                   | Err _ => nd <| pos := Idle |> <| todo := notices |>
                   end)
      | ElectLostSet holder =>
          Some (b, nd <| el := e <| leaderID := holder |> |> <| pos := Idle |>
                      <| todo := [Notice EventElectionEnd; Notice EventBecomeFollower] |>)
      | Become =>
          Some (b, nd <| el := becomeLeader e |> <| pos := Idle |>
                      <| todo := if IsLeader e then [] else [Notice EventElectionEnd; Notice EventBecomeLeader] |>)
      | BeatTest => Some (b, nd <| pos := if IsLeader e then BeatCall else Idle |>)
      | BeatCall =>
          let '(b, err) := be_Heartbeat now (electionKey e) (nodeID e) (LeaseDuration (cfg e)) b in
          Some (b, match err with
                   | Some _ => nd <| pos := BeatFailed |>
                   | None => nd <| pos := Idle |> <| todo := [Notice EventHeartbeat] |> <| granted := Some (now + LeaseDuration (cfg e)) |>
                   end)
      | BeatFailed =>
          Some (b, nd <| el := step_down e |> <| pos := Idle |>
                      <| todo := if IsLeader e then [Notice EventLeaderLost; Notice EventBecomeFollower] else [] |>)
      | Unstarted | Idle | LoopDone | LoopPanicked => None
      end
  end.

(** The wait group counts the loop. *)
Definition counted (p : position) : bool :=
  match p with Unstarted | Spawning | LoopDone => false | _ => true end.

(** The next step of a call. *)
Definition call_step (now : Z) (b : B) (nd : node) (c : call) : option (B * node * call) :=
  let e := el nd in
  match c_todo c with
  | n :: rest =>
      let '(rest, out) := notify_step now e n rest in
      Some (b, nd <| sent := sent nd ++ out |>, {| c_at := c_at c; c_todo := rest |})
  | [] =>
      match c_at c with
      | ResignUnlock =>
          let '(b, err) := be_Unlock now (electionKey e) (nodeID e) b in
          let nd := match err with None => nd <| granted := None |> | Some _ => nd end in
          Some (b, nd, {| c_at := match err with
                                  | Some err => if decide (err = DistLock.ErrLockNotHeld) then ResignSet else Returned (Some (BackendError err))
                                  | None => ResignSet
                                  end; c_todo := [] |})
      | ResignSet =>
          Some (b, nd <| el := step_down e |>, {| c_at := Returned None; c_todo := [Notice EventLeaderLost; Notice EventBecomeFollower] |})
      | StopWait => if counted (pos nd) then None else Some (b, nd, {| c_at := StopSet; c_todo := [] |})
      | StopSet =>
          let '(e, wasLeader) := Stop_end e in
          Some (b, nd <| el := e |>, {| c_at := if wasLeader then StopUnlock else Returned None; c_todo := [] |})
      | StopUnlock =>
          let '(b, err) := be_Unlock now (electionKey e) (nodeID e) b in
          let nd := match err with None => nd <| granted := None |> | Some _ => nd end in
          Some (b, nd, {| c_at := Returned None; c_todo := [Notice EventBecomeFollower] |})
      | Returned _ => None
      end
  end.

(** * Electors that compete *)

Record Election := { backend : B; clock : Z; nodes : list node }.

(** The loop is on its way through [checkLeader], or will be. *)
Definition checking (p : position) : bool :=
  match p with Idle | BeatTest | BeatCall | BeatFailed | LoopDone | LoopPanicked => false | _ => true end.

Definition resigning (nd : node) : bool := existsb (fun c => match c_at c with ResignUnlock => true | _ => false end) (calls nd).

(** [overlap] tells whether [Resign] may run beside [checkLeader] of the same
    elector, and [Stop] beside [Start]. *)
Context (overlap : bool).

Inductive node_step (now : Z) : B -> node -> B -> node -> Prop :=
| StepRegister cb b nd : node_step now b nd b (nd <| el := RegisterCallback cb (el nd) |>)
| StepStart err started e b nd :
    Start (el nd) = (err, started, e) ->
    node_step now b nd b (if started : bool then nd <| el := e |> <| pos := Spawning |> else nd)
| StepStop e goes b nd :
    Stop_begin (el nd) = (e, goes) ->
    node_step now b nd b (nd <| el := e |> <| calls := calls nd ++ (if goes : bool then [{| c_at := StopWait; c_todo := [] |}] else []) |>)
| StepResign r b nd :
    Resign_begin (el nd) = r -> r = Ok true -> overlap = true \/ checking (pos nd) = false ->
    node_step now b nd b (nd <| calls := calls nd ++ [{| c_at := ResignUnlock; c_todo := [] |}] |>)
| StepTickHeartbeat b nd : pos nd = Idle -> todo nd = [] -> node_step now b nd b (nd <| pos := BeatTest |>)
| StepTickCheck b nd :
    pos nd = Idle -> todo nd = [] -> overlap = true \/ resigning nd = false -> node_step now b nd b (nd <| pos := CheckGet |>)
| StepExit b nd : pos nd = Idle -> todo nd = [] -> stop_closed (el nd) = true -> node_step now b nd b (nd <| pos := LoopDone |>)
| StepLoop b nd b' nd' : loop_step now b nd = Some (b', nd') -> node_step now b nd b' nd'
| StepCall i c b nd b' nd' c' :
    calls nd !! i = Some c -> call_step now b nd c = Some (b', nd', c') ->
    (c_at c = StopWait -> overlap = true \/ pos nd <> Spawning) ->
    node_step now b nd b' (nd' <| calls := <[i := c']> (calls nd) |>).

Inductive elect_step : Election -> Election -> Prop :=
| StepNode i nd b' nd' sys :
    nodes sys !! i = Some nd -> node_step (clock sys) (backend sys) nd b' nd' ->
    elect_step sys {| backend := b'; clock := clock sys; nodes := <[i := nd']> (nodes sys) |}
| StepTime now sys : clock sys <= now -> elect_step sys {| backend := backend sys; clock := now; nodes := nodes sys |}
| StepBackground sys :
    elect_step sys {| backend := be_background (clock sys) (backend sys); clock := clock sys; nodes := nodes sys |}.

(** Electors for one key, with names of their own, and a backend in any state. *)
Definition reachable (key : string) (sys : Election) : Prop :=
  exists b t es, Forall (fun e => exists id c bk, @NewLeaderElector B id key c bk = Ok e) es /\ NoDup (nodeID <$> es) /\
    rtc elect_step {| backend := b; clock := t; nodes := new_node <$> es |} sys.
End backend.

Arguments Election : clear implicits.

End LeaderElect.
