(* ===== verification/LeaderElectProofs.v ===== *)
(** Leader election: what an elector may rely on.  The electors are verified
    against [LeaseLaws], the promises of a lock with leases, and the lock
    manager is shown to keep them. *)

From stdpp Require Import base tactics option numbers list gmap strings.
From Stdlib Require Import ZArith Lia SpecFloat.
From S2P Require Import Prelude DistLock DistLockProofs LeaderElect.

Import DistLock.
Import LeaderElect.

(** * The interface *)

Definition lapse (now : Z) (o : option (string * Z)) : option (string * Z) :=
  match o with Some (h, u) => if now <=? u then Some (h, u) else None | None => None end.

(** [holder_at] is who holds the lock and until when; a backend that is [up]
    does not fail for reasons of its own. *)
Class LeaseLaws (B : Type) `{LockBackend B} := {
  holder_at : Z -> string -> B -> option (string * Z);
  up : B -> bool;
  holder_later now now' key b : now <= now' -> holder_at now' key b = lapse now' (holder_at now key b);
  TryLock_law now key token ttl b b' r : be_TryLock now key token ttl b = (b', r) -> up b' = up b /\
    match r with
    | Ok true => (holder_at now key b = None \/ exists u, holder_at now key b = Some (token, u)) /\
                 holder_at now key b' = Some (token, now + ttl)
    | Ok false => holder_at now key b' = holder_at now key b /\ exists h u, holder_at now key b = Some (h, u) /\ h <> token
    | Err _ => holder_at now key b' = holder_at now key b /\
               (up b = true -> key <> "" -> token <> "" -> 0 < ttl -> holder_at now key b <> None)
    end;
  Heartbeat_law now key token ttl b b' err : be_Heartbeat now key token ttl b = (b', err) -> up b' = up b /\
    match err with
    | None => (exists u, holder_at now key b = Some (token, u)) /\ holder_at now key b' = Some (token, now + ttl)
    | Some _ => holder_at now key b' = holder_at now key b /\
                (up b = true -> key <> "" -> token <> "" -> 0 < ttl -> forall u, holder_at now key b <> Some (token, u))
    end;
  Unlock_law now key token b b' err : be_Unlock now key token b = (b', err) -> up b' = up b /\
    match err with
    | None => (exists u, holder_at now key b = Some (token, u)) /\ (holder_at now key b' = None \/ holder_at now key b' = holder_at now key b)
    | Some _ => holder_at now key b' = holder_at now key b
    end;
  GetHolder_law now key b b' r : be_GetHolder now key b = (b', r) -> up b' = up b /\ holder_at now key b' = holder_at now key b /\
    match r with
    | Ok (h, _, ttl) => holder_at now key b = Some (h, now + ttl)
    | Err _ => up b = true -> key <> "" -> holder_at now key b = None
    end;
  background_law now key b : holder_at now key (be_background now b) = holder_at now key b /\ up (be_background now b) = up b
}.

(** ** The lock manager keeps the promises *)

Definition manager_holder (now : Z) (key : string) (lm : DistLock.LockManager) : option (string * Z) :=
  match DistLock.locks lm !! key with
  | Some e => if DistLock.isExpired e now then None else Some (DistLock.le_token e, DistLock.expiresAt e)
  | None => None
  end.

Lemma manager_holder_clean now key lm : manager_holder now key (fst (DistLock.cleanExpiredLocked now lm)) = manager_holder now key lm.
Proof.
  unfold manager_holder, DistLock.cleanExpiredLocked. cbn. destruct (DistLock.locks lm !! key) as [e|] eqn:E.
  - destruct (DistLock.isExpired e now) eqn:Ee.
    + rewrite map_lookup_filter_None_2; [done|]. right. intros e' He'. cbn. congruence.
    + rewrite (map_lookup_filter_Some_2 _ _ _ e) by done. by rewrite Ee.
  - by rewrite map_lookup_filter_None_2 by (by left).
Qed.

(** What is left when a method of the manager is taken apart. *)
Ltac lease_done :=
  repeat match goal with
  | Hd : decide _ = _ |- _ => clear Hd
  | Hn : ~ (_ <> _) |- _ => apply dec_stable in Hn; subst
  end; bools; unfold manager_holder, drop_lock; cbn; rewrite ?lookup_insert_eq, ?lookup_delete_eq; cbn;
  repeat match goal with Hl : locks _ !! _ = _ |- _ => rewrite Hl; clear Hl end;
  repeat match goal with He : isExpired _ _ = _ |- _ => rewrite He; unfold isExpired in He; bools end;
  unfold isExpired; cbn; try (match goal with |- context [?a + ?b <? ?a] => rewrite (proj2 (Z.ltb_ge (a + b) a)) by lia end);
  repeat match goal with Hs : DistLock.stopped _ = _ |- _ => rewrite Hs end; cbn;
  split_and?; intros; try done; try lia; try congruence; eauto; repeat case_match; bools; first [lia|do 2 f_equal; lia|auto].

#[export, program] Instance manager_laws : LeaseLaws DistLock.LockManager := {|
  holder_at := manager_holder;
  up lm := negb (DistLock.stopped lm)
|}.
Next Obligation.
  intros now now' key lm Hle. unfold manager_holder. destruct (DistLock.locks lm !! key) as [e|]; [|done].
  unfold DistLock.isExpired. destruct (Z.ltb_spec (expiresAt e) now), (Z.ltb_spec (expiresAt e) now'); cbn; try done; try lia;
    by destruct (Z.leb_spec now' (expiresAt e)); try lia.
Qed.
Next Obligation.
  intros now key token ttl lm lm' r. cbn. unfold DistLock.TryLock, DistLock.lockInternal. intros Hr.
  repeat case_decide; repeat case_match; simplify_eq/=.
  all: lease_done.
Qed.
Next Obligation.
  intros now key token ttl lm lm' r. cbn. unfold DistLock.Heartbeat. intros Hr.
  repeat case_decide; repeat case_match; simplify_eq/=. all: lease_done.
Qed.
Next Obligation.
  intros now key token lm lm' r. cbn. unfold DistLock.Unlock. intros Hr.
  repeat case_decide; repeat case_match; simplify_eq/=. all: lease_done.
Qed.
Next Obligation.
  intros now key lm lm' r. cbn. unfold DistLock.GetHolder, remainingTTL. intros Hr.
  repeat case_decide; repeat case_match; simplify_eq/=. all: lease_done.
Qed.
Next Obligation.
  intros now key lm. cbn. unfold cleanLoop_tick, CleanExpired. destruct (DistLock.running lm); [|done].
  destruct (DistLock.stopped lm) eqn:Es; [cbn; by rewrite Es|]. pose proof (manager_holder_clean now key lm) as Hc.
  destruct (cleanExpiredLocked now lm) as [lm1 n] eqn:Ec. cbn in *. split; [done|]. unfold cleanExpiredLocked in Ec. simplify_eq/=. by rewrite Es.
Qed.

(** * The invariant *)

Section laws.
Context {B : Type} `{LeaseLaws B}.
(** The loop was told that its elector holds the lock. *)
Definition told (id : string) (p : position) : bool :=
  match p with Become => true | CheckSet h | CheckRole h => bool_decide (h = id) | _ => false end.

Definition at_rest (p : position) : Prop := p = Unstarted \/ p = LoopDone.

Definition call_ok (e : LeaderElector) (p : position) (c : call) : Prop :=
  match c_at c with
  | ResignUnlock => checking p = false
  | StopWait => stopped e = true
  | StopSet => stopped e = true /\ at_rest p
  | StopUnlock => stopped e = true /\ at_rest p /\ role e <> RoleLeader
  | _ => True
  end.

(** [h] is who holds the lock. *)
Record node_ok (key : string) (now : Z) (h : option (string * Z)) (nd : node) : Prop := {
  no_key : electionKey (el nd) = key;
  no_lease d : granted nd = Some d -> now <= d -> h = Some (nodeID (el nd), d);
  no_leader : role (el nd) = RoleLeader -> is_Some (granted nd) \/ Exists (fun c => c_at c = ResignSet) (calls nd);
  no_told : told (nodeID (el nd)) (pos nd) = true -> is_Some (granted nd);
  no_calls : Forall (call_ok (el nd) (pos nd)) (calls nd);
  no_fresh : running (el nd) = false -> stopped (el nd) = false -> pos nd = Unstarted;
}.

(** Nobody else has the lock. *)
Definition mine (id : string) (h : option (string * Z)) : Prop := forall x u, h = Some (x, u) -> x = id.

Definition moved (id : string) (h h' : option (string * Z)) : Prop := h' = h \/ (mine id h /\ mine id h').

Lemma others_ok key now h h' id nd : moved id h h' -> id <> nodeID (el nd) -> node_ok key now h nd -> node_ok key now h' nd.
Proof.
  intros Hm Hne [H1 H2 H3 H4 H5 H6]. split; try done. intros d Hd Hle. specialize (H2 d Hd Hle). destruct Hm as [->|[Hm _]]; [done|].
  by destruct Hne; rewrite (Hm _ _ H2).
Qed.

Lemma Exists_insert_keep {A} (P : A -> Prop) (l : list A) i x y : l !! i = Some x -> (P x -> P y) -> Exists P l -> Exists P (<[i := y]> l).
Proof.
  intros Hi Hxy (z & Hz & HP)%Exists_exists. apply Exists_exists. apply list_elem_of_lookup in Hz as [k Hk].
  destruct (decide (k = i)) as [->|Hne].
  - exists y. split; [|apply Hxy; congruence]. apply list_elem_of_lookup. exists i. apply list_lookup_insert_eq. by eapply lookup_lt_Some.
  - exists z. split; [|done]. apply list_elem_of_lookup. exists k. by rewrite list_lookup_insert_ne.
Qed.

(** The loop moves on. *)
Lemma node_moves key now h h' nd nd' :
  node_ok key now h nd ->
  electionKey (el nd') = electionKey (el nd) /\ nodeID (el nd') = nodeID (el nd) /\
  stopped (el nd') = stopped (el nd) /\ running (el nd') = running (el nd) /\ calls nd' = calls nd ->
  ~ at_rest (pos nd) -> (checking (pos nd) = false -> checking (pos nd') = false) ->
  (granted nd' = granted nd /\ h' = h) \/ (exists d, granted nd' = Some d /\ h' = Some (nodeID (el nd), d)) ->
  (role (el nd') = RoleLeader -> role (el nd) = RoleLeader \/ is_Some (granted nd')) ->
  (told (nodeID (el nd)) (pos nd') = true -> is_Some (granted nd')) ->
  node_ok key now h' nd'.
Proof.
  intros [H1 H2 H3 H4 H5 H6] (E1 & E2 & E3 & E5 & E4) Hr Hc Hg Hl Ht. split; rewrite ?E1, ?E2, ?E4; try done.
  - destruct Hg as [[-> ->]|(d & -> & ->)]; [done|]. by intros d' [= ->].
  - intros [Hx|?]%Hl; [|by left]. destruct (H3 Hx); [|by right]. destruct Hg as [[-> _]|(d & -> & _)]; by left.
  - eapply Forall_impl; [exact H5|]. intros [[] ?]; cbn; rewrite ?E3; auto; intros [_ ?]; naive_solver.
  - rewrite E3, E5. intros Ha Hb. destruct Hr. left. by apply H6.
Qed.

(** [node_moves] for a definite step of the loop; [Ep] is where it was. *)
Ltac move_on Ep tac := eapply node_moves;
  [eassumption|by cbn|done|rewrite Ep; cbn; repeat case_match; done|tac|cbn; auto; done|cbn; repeat case_match; bools; try done; eauto].

Lemma loop_step_ok key now (b b' : B) nd nd' :
  loop_step now b nd = Some (b', nd') -> node_ok key now (holder_at now key b) nd ->
  node_ok key now (holder_at now key b') nd' /\ moved (nodeID (el nd)) (holder_at now key b) (holder_at now key b').
Proof.
  intros Hs Hok. pose proof (no_key _ _ _ _ Hok) as <-. unfold loop_step in Hs. destruct (todo nd) as [|n rest].
  2:{ destruct (notify_step _ _ _ _). simplify_eq. split; [|by left]. destruct Hok. by split. }
  destruct (pos nd) eqn:Ep; simplify_eq.
  all: assert (~ at_rest (pos nd)) as Hr by (rewrite Ep; intros [?|?]; done).
  all: pose proof (no_told _ _ _ _ Hok) as Ht; rewrite Ep in Ht; cbn in Ht.
  all: try (split; [move_on Ep ltac:(by left); done|by left]).
  - destruct (be_GetHolder _ _ _) as [b1 r] eqn:Eb. destruct (GetHolder_law _ _ _ _ _ Eb) as (_ & Eh & Hr'). simplify_eq.
    rewrite Eh. split; [|by left]. destruct r as [[[h x] ttl]|]; [|by move_on Ep ltac:(by left)].
    case_decide as Hid; [subst h; move_on Ep ltac:(right; by eexists)|move_on Ep ltac:(by left); by intros ?%bool_decide_eq_true].
  - split; [|by left]. move_on Ep ltac:(by left). intros _. apply Ht. by rewrite bool_decide_true.
  - split; [|by left]. unfold enter_election. destruct (IsLeader (el nd)); move_on Ep ltac:(by left).
  - destruct (be_TryLock _ _ _ _ _) as [b1 r] eqn:Eb. destruct (TryLock_law _ _ _ _ _ _ _ Eb) as (_ & Hr'). destruct r as [[]|]; simplify_eq.
    + destruct Hr' as [Hfree Eh]. rewrite Eh. split; [move_on Ep ltac:(right; by eexists)|]. right. unfold mine. naive_solver.
    + destruct Hr' as [-> _]. split; [|by left]. move_on Ep ltac:(by left).
    + destruct Hr' as [-> _]. split; [|by left]. move_on Ep ltac:(by left).
  - destruct (be_GetHolder _ _ _) as [b1 r] eqn:Eb. destruct (GetHolder_law _ _ _ _ _ Eb) as (_ & Eh & Hr'). simplify_eq.
    rewrite Eh. split; [|by left]. destruct r as [[[h x] ttl]|]; [case_decide|]; move_on Ep ltac:(by left).
  - destruct (be_Heartbeat _ _ _ _ _) as [b1 err] eqn:Eb. destruct (Heartbeat_law _ _ _ _ _ _ _ Eb) as (_ & Hr'). destruct err; simplify_eq.
    + destruct Hr' as [-> _]. split; [|by left]. move_on Ep ltac:(by left).
    + destruct Hr' as [Hfree Eh]. rewrite Eh. split; [move_on Ep ltac:(right; by eexists)|]. right. unfold mine. naive_solver.
Qed.

(** A call moves on; it may give the lock back. *)
Lemma call_moves key now h h' nd nd' i c c' :
  node_ok key now h nd -> calls nd !! i = Some c ->
  electionKey (el nd') = electionKey (el nd) /\ nodeID (el nd') = nodeID (el nd) /\
  stopped (el nd') = stopped (el nd) /\ running (el nd') = running (el nd) /\ pos nd' = pos nd ->
  (role (el nd') = RoleLeader -> role (el nd) = RoleLeader /\ (c_at c = ResignSet -> c_at c' = ResignSet)) ->
  (granted nd' = granted nd /\ h' = h) \/
  (granted nd' = None /\ told (nodeID (el nd)) (pos nd) = false /\ (role (el nd') = RoleLeader -> c_at c' = ResignSet)) ->
  call_ok (el nd') (pos nd) c' -> node_ok key now h' (nd' <| calls := <[i := c']> (calls nd) |>).
Proof.
  intros [H1 H2 H3 H4 H5 H6] Hi (E1 & E2 & E3 & E5 & E4) Hr Hg Hc. split; cbn; rewrite ?E1, ?E2, ?E4; try done.
  - destruct Hg as [[-> ->]|(-> & _)]; [done|]. by intros d' [=].
  - intros Hx. destruct (Hr Hx) as [Hx' Hset]. destruct Hg as [[-> _]|(-> & _ & Hg)].
    + destruct (H3 Hx') as [?|?]; [by left|right]. by eapply Exists_insert_keep.
    + right. apply Exists_exists. exists c'. split; [|by apply Hg]. apply list_elem_of_lookup. exists i. apply list_lookup_insert_eq. by eapply lookup_lt_Some.
  - destruct Hg as [[-> _]|(_ & -> & _)]; done.
  - apply Forall_insert; [|done]. eapply Forall_impl; [exact H5|]. intros [[] ?]; cbn; rewrite ?E3; try done. naive_solver.
  - rewrite E3, E5. done.
Qed.

Lemma moved_back id h h' u : h = Some (id, u) -> h' = None \/ h' = h -> moved id h h'.
Proof. intros -> [->| ->]; [right|by left]. split; intros x v [=]; congruence. Qed.

Lemma call_step_ok key now (b b' : B) nd nd' i c c' :
  call_step now b nd c = Some (b', nd', c') -> calls nd !! i = Some c -> (c_at c = StopWait -> pos nd <> Spawning) ->
  node_ok key now (holder_at now key b) nd ->
  node_ok key now (holder_at now key b') (nd' <| calls := <[i := c']> (calls nd) |>) /\
  moved (nodeID (el nd)) (holder_at now key b) (holder_at now key b') /\ nodeID (el nd') = nodeID (el nd).
Proof.
  intros Hs Hi Hw Hok. pose proof (no_key _ _ _ _ Hok) as <-.
  assert (call_ok (el nd) (pos nd) c) as Hc by (pose proof (no_calls _ _ _ _ Hok) as Hc; rewrite Forall_forall in Hc; apply Hc; by eapply list_elem_of_lookup_2).
  destruct c as [ca ct]. unfold call_step in Hs. cbn [c_at c_todo] in *. destruct ct as [|n rest].
  2:{ destruct (notify_step _ _ _ _). simplify_eq. split; [|split; [by left|done]]. eapply call_moves; [done|done|done|done|by left|done]. }
  unfold call_ok in Hc. destruct ca; cbn [c_at] in Hc; simplify_eq/=.
  - destruct (be_Unlock _ _ _ _) as [b1 err] eqn:Eb. destruct (Unlock_law _ _ _ _ _ _ Eb) as (_ & Hu). simplify_eq. destruct err as [err|].
    + rewrite Hu. split; [|split; [by left|done]]. case_decide; (eapply call_moves; [done|done|done|done|by left|done]).
    + destruct Hu as [[u Hu] Hu']. split; [|split; [by eapply moved_back|done]].
      eapply call_moves; [done|done|done|done| |done]. right. split; [done|]. split; [|done]. by destruct (pos nd).
  - split; [|split; [by left|done]]. eapply call_moves; [done|done|done|done|by left|done].
  - destruct (counted (pos nd)) eqn:Ec; simplify_eq. split; [|split; [by left|done]].
    eapply call_moves; [done|done|done|done|by left|]. split; [done|]. unfold at_rest. destruct (pos nd'); try done; [by left|by destruct Hw|by right].
  - split; [|split; [by left|done]]. eapply call_moves; [done|done|done|done|by left|]. destruct Hc. case_match; done.
  - destruct (be_Unlock _ _ _ _) as [b1 err] eqn:Eb. destruct (Unlock_law _ _ _ _ _ _ Eb) as (_ & Hu). simplify_eq. destruct Hc as (_ & Hrest & Hnl).
    destruct err as [err|].
    + rewrite Hu. split; [|split; [by left|done]]. eapply call_moves; [done|done|done|done|by left|done].
    + destruct Hu as [[u Hu] Hu']. split; [|split; [by eapply moved_back|done]].
      eapply call_moves; [done|done|done|done| |done]. right. split; [done|]. split; [by destruct Hrest as [-> | ->]|done].
Qed.

Lemma loop_step_id now (b b' : B) nd nd' : loop_step now b nd = Some (b', nd') -> nodeID (el nd') = nodeID (el nd).
Proof.
  unfold loop_step, notify_step, enter_election. intros Hs. repeat case_match; simplify_eq/=; repeat case_match; simplify_eq/=; done.
Qed.

Lemma node_step_ok key now (b b' : B) nd nd' :
  node_step false now b nd b' nd' -> node_ok key now (holder_at now key b) nd ->
  node_ok key now (holder_at now key b') nd' /\ moved (nodeID (el nd)) (holder_at now key b) (holder_at now key b') /\
  nodeID (el nd') = nodeID (el nd).
Proof.
  intros Hs Hok. pose proof Hok as [H1 H2 H3 H4 H5 H6].
  destruct Hs as [cb b nd|err started e b nd Hs|e goes b nd Hs|r b nd Hs Hr Hg|b nd Hp Ht|b nd Hp Ht Hg|b nd Hp Ht Hg|b nd b' nd' Hs|i c b nd b' nd' c' Hi Hs Hw].
  - split; [|split; [by left|done]]. by split.
  - unfold Start in Hs. destruct (stopped (el nd)) eqn:Es; [simplify_eq; split; [done|split; [by left|done]]|].
    destruct (running (el nd)) eqn:Er; simplify_eq; [split; [done|split; [by left|done]]|].
    split; [|split; [by left|done]]. split; try done. cbn. eapply Forall_impl; [exact H5|]. rewrite (H6 eq_refl eq_refl).
    intros [[] ?]; cbn; clear -Es; rewrite ?Es; try done; by intros [? _].
  - unfold Stop_begin in Hs. split; [|split; [by left|repeat case_match; by simplify_eq]].
    destruct (stopped (el nd)) eqn:Es; simplify_eq/=.
    { split; cbn; rewrite ?app_nil_r, ?Es; done. }
    assert (forall e, stopped e = true -> role e = role (el nd) -> Forall (call_ok e (pos nd)) (calls nd ++ [{| c_at := StopWait; c_todo := [] |}])) as Hc.
    { intros e He Hrole. apply Forall_app. split; [|by repeat constructor]. eapply Forall_impl; [exact H5|].
      intros [[] ?]; cbn; rewrite ?He, ?Hrole; naive_solver. }
    destruct (running (el nd)); split; try done; cbn; try (by apply Hc); intros Hl; destruct (H3 Hl); [by left|right|by left|right];
      apply Exists_app; by left.
  - split; [|split; [by left|done]]. split; try done; cbn.
    + intros Hl. destruct (H3 Hl); [by left|right]. apply Exists_app. by left.
    + apply Forall_app. split; [done|]. repeat constructor. by destruct Hg.
  - split; [|split; [by left|done]]. eapply node_moves; [done|done|rewrite Hp; by intros [?|?]|done|by left|auto|done].
  - split; [|split; [by left|done]]. split; try done; cbn.
    + destruct Hg as [?|Hg]; [done|]. unfold resigning in Hg. apply Forall_forall. intros c Hc. rewrite Forall_forall in H5. specialize (H5 c Hc).
      unfold call_ok in *. rewrite Hp in H5. destruct (c_at c) eqn:Ec; try done; try (by destruct H5 as [? [?|?]]); try (by destruct H5 as (? & [?|?] & ?)).
      exfalso. rewrite <- not_true_iff_false in Hg. apply Hg. apply existsb_exists. exists c. rewrite Ec. split; [by apply list_elem_of_In|done].
    + intros Ha Hb. rewrite (H6 Ha Hb) in Hp. done.
  - split; [|split; [by left|done]]. eapply node_moves; [done|done|rewrite Hp; by intros [?|?]|done|by left|auto|done].
  - destruct (loop_step_ok _ _ _ _ _ _ Hs Hok). split; [done|]. split; [done|]. by eapply loop_step_id.
  - destruct (call_step_ok key now b b' nd nd' i c c' Hs Hi) as (? & ? & ?); [|done..]. intros Hc. by destruct (Hw Hc).
Qed.

Record election_ok (key : string) (sys : Election B) : Prop := {
  eo_ids : NoDup ((fun nd => nodeID (el nd)) <$> nodes sys);
  eo_nodes nd : nd ∈ nodes sys -> node_ok key (clock sys) (holder_at (clock sys) key (backend sys)) nd;
}.

Lemma node_ok_later key now now' h nd : now <= now' -> node_ok key now h nd -> node_ok key now' (lapse now' h) nd.
Proof.
  intros Hle [H1 H2 H3 H4 H5 H6]. split; try done. intros d Hd Hd'. rewrite (H2 d Hd) by lia. cbn. by rewrite (proj2 (Z.leb_le now' d)).
Qed.

Lemma elect_step_ok key (sys sys' : Election B) : elect_step false sys sys' -> election_ok key sys -> election_ok key sys'.
Proof.
  intros [i nd b' nd' sys0 Hi Hs|now sys0 Hle|sys0] [Hids Hok].
  - destruct (node_step_ok key _ _ _ _ _ Hs) as (Hnd & Hm & Eid); [apply Hok; by eapply list_elem_of_lookup_2|]. split; cbn.
    + rewrite list_fmap_insert, Eid. rewrite list_insert_id; [done|]. by rewrite list_lookup_fmap, Hi.
    + intros nd1 [k Hk]%list_elem_of_lookup. destruct (decide (k = i)) as [->|Hne].
      { rewrite list_lookup_insert_eq in Hk by (by eapply lookup_lt_Some). by simplify_eq. }
      rewrite list_lookup_insert_ne in Hk by done. eapply others_ok; [exact Hm| |apply Hok; by eapply list_elem_of_lookup_2].
      intros E. apply Hne. eapply (NoDup_lookup _ k i _ Hids); rewrite list_lookup_fmap, ?Hk, ?Hi; cbn; by rewrite ?E.
  - split; [done|]. intros nd Hnd. cbn in *. rewrite (holder_later (clock sys0) now) by done. eapply node_ok_later; [exact Hle|by apply Hok].
  - split; [done|]. intros nd Hnd. cbn in *. rewrite (proj1 (background_law _ _ _)). by apply Hok.
Qed.

Lemma new_node_ok key now h e id c (bk : option B) : NewLeaderElector id key c bk = Ok e -> node_ok key now h (new_node e).
Proof. unfold NewLeaderElector. intros He. repeat case_match; simplify_eq/=. by split. Qed.

Lemma reachable_election_ok key (sys : Election B) : reachable false key sys -> election_ok key sys.
Proof.
  intros (b & t & es & Hes & Hids & Hsteps). remember {| backend := b; clock := t; nodes := new_node <$> es |} as s0 eqn:E0.
  assert (election_ok key s0) as Hinit.
  { subst s0. split; cbn; [by rewrite <- list_fmap_compose|]. intros nd (e & -> & He)%list_elem_of_fmap. rewrite Forall_forall in Hes.
    destruct (Hes e He) as (id & c & bk & Hnew). by eapply new_node_ok. }
  clear E0. induction Hsteps as [|s1 s2 s3 Hs _ IH]; [done|]. apply IH. by eapply elect_step_ok.
Qed.

(** C7: when no [Resign] overlaps a check of the same elector and no [Stop] a
    [Start], an elector that calls itself leader was granted a lease, and until
    its end the backend has the lock for it, unless a [Resign] of the elector has
    given the lock back and has yet to make it step down; so no two electors are
    within their leases at once. *)
Theorem one_leader_per_lease key (sys : Election B) :
  reachable false key sys ->
  (forall nd, nd ∈ nodes sys -> IsLeader (el nd) = true -> ~ Exists (fun c => c_at c = ResignSet) (calls nd) ->
     exists d, granted nd = Some d /\ (clock sys <= d -> holder_at (clock sys) key (backend sys) = Some (nodeID (el nd), d))) /\
  (forall i j ndi ndj di dj, nodes sys !! i = Some ndi -> nodes sys !! j = Some ndj ->
     granted ndi = Some di -> granted ndj = Some dj -> clock sys <= di -> clock sys <= dj -> i = j).
Proof.
  intros [Hids Hok]%reachable_election_ok. split.
  - intros nd Hnd Hl%bool_decide_eq_true Hn. specialize (Hok nd Hnd). destruct (no_leader _ _ _ _ Hok Hl) as [[d Hd]|?]; [|done].
    exists d. split; [done|]. by apply (no_lease _ _ _ _ Hok).
  - intros i j ndi ndj di dj Hi Hj Hdi Hdj Hle1 Hle2.
    pose proof (no_lease _ _ _ _ (Hok ndi ltac:(by eapply list_elem_of_lookup_2)) di Hdi Hle1) as E1.
    pose proof (no_lease _ _ _ _ (Hok ndj ltac:(by eapply list_elem_of_lookup_2)) dj Hdj Hle2) as E2.
    eapply (NoDup_lookup _ i j (nodeID (el ndi)) Hids); rewrite list_lookup_fmap, ?Hi, ?Hj; cbn; [done|]. congruence.
Qed.

(** * Rounds of the loop that nothing interrupts *)

(** The loop runs at one time, nothing else does. *)
Definition alone (now : Z) : B * node -> B * node -> Prop := rtc (fun s s' => loop_step now s.1 s.2 = Some s').

Lemma alone_step now (b b1 : B) nd nd1 s : loop_step now b nd = Some (b1, nd1) -> alone now (b1, nd1) s -> alone now (b, nd) s.
Proof. intros. by eapply rtc_l. Qed.

(** Notifications change nothing but what is sent. *)
Lemma notices_sent now (b : B) ns nd : todo nd = Notice <$> ns ->
  exists out, alone now (b, nd) (b, nd <| todo := [] |> <| sent := out |>).
Proof.
  revert nd. induction ns as [|t ns IH]; intros nd Ht.
  - exists (sent nd). destruct nd. cbn in *. subst. apply rtc_refl.
  - set (nd1 := nd <| todo := (notify_step now (el nd) (Notice t) (Notice <$> ns)).1 |> <| sent := sent nd ++ [] |>).
    destruct (notify_step now (el nd1) (Prepared {| ev_Type := t; ev_NodeID := nodeID (el nd); ev_Role := role (el nd);
      ev_LeaderID := leaderID (el nd); ev_Term := term (el nd); ev_Timestamp := 0 |}) (Notice <$> ns)) as [rest out] eqn:En.
    destruct (IH (nd1 <| todo := Notice <$> ns |> <| sent := sent nd1 ++ out |>)) as [out' Ho]; [done|]. exists out'.
    apply (alone_step now b b nd nd1); [unfold loop_step; by rewrite Ht|].
    eapply alone_step; [|exact Ho]. unfold loop_step. cbn [todo nd1]. cbn in En |- *. by simplify_eq.
Qed.

(** A round of the loop, alone, that ends with the elector as leader of a new
    term, with a lease in the backend. *)
Definition takes_over (now : Z) (b : B) (nd : node) : Prop :=
  let e := el nd in
  exists b' nd', alone now (b, nd) (b', nd') /\ pos nd' = Idle /\ todo nd' = [] /\
    IsLeader (el nd') = true /\ leaderID (el nd') = nodeID e /\ term (el nd') = int64 (term e + 1) /\
    granted nd' = Some (now + LeaseDuration (cfg e)) /\ holder_at now (electionKey e) b' = Some (nodeID e, now + LeaseDuration (cfg e)).

Lemma check_takes_over now (b : B) nd :
  let e := el nd in
  pos nd = CheckGet -> todo nd = [] -> IsLeader e = false -> up b = true ->
  electionKey e <> "" -> nodeID e <> "" -> 0 < LeaseDuration (cfg e) ->
  holder_at now (electionKey e) b = None -> takes_over now b nd.
Proof.
  cbn zeta. intros Hp Ht Hl Hup Hk Hid Hd Hlapse. unfold takes_over. cbn zeta.
  destruct (be_GetHolder now (electionKey (el nd)) b) as [b1 r] eqn:Eg. destruct (GetHolder_law _ _ _ _ _ Eg) as (Hup1 & Eh1 & Hr).
  destruct r as [[[h x] ttl]|err]; [congruence|].
  set (e1 := (el nd) <| role := RoleCandidate |> <| term := int64 (term (el nd) + 1) |>).
  set (nd1 := nd <| pos := Elect |>). set (nd2 := nd1 <| el := e1 |> <| pos := ElectTry |> <| todo := Notice <$> [EventElectionStart] |>).
  destruct (notices_sent now b1 [EventElectionStart] nd2 eq_refl) as [out Ho].
  destruct (be_TryLock now (electionKey (el nd)) (nodeID (el nd)) (LeaseDuration (cfg (el nd))) b1) as [b2 r2] eqn:Et.
  destruct (TryLock_law _ _ _ _ _ _ _ Et) as (_ & Hr2). rewrite Eh1 in Hr2.
  destruct r2 as [[]|err2]; [|naive_solver|destruct Hr2 as [_ Hr2]; destruct Hr2; by rewrite ?Hup1].
  destruct Hr2 as [_ Eh2]. set (nd3 := nd2 <| todo := [] |> <| sent := out |> <| pos := Become |> <| granted := Some (now + LeaseDuration (cfg (el nd))) |>).
  set (nd4 := nd3 <| el := becomeLeader e1 |> <| pos := Idle |> <| todo := Notice <$> [EventElectionEnd; EventBecomeLeader] |>).
  destruct (notices_sent now b2 [EventElectionEnd; EventBecomeLeader] nd4 eq_refl) as [out' Ho'].
  exists b2, (nd4 <| todo := [] |> <| sent := out' |>). split; [|done].
  apply (alone_step now b b1 nd nd1); [unfold loop_step; by rewrite Ht, Hp, Eg|].
  apply (alone_step now b1 b1 nd1 nd2); [unfold loop_step; cbn; rewrite Ht; cbn; unfold enter_election; by rewrite Hl|].
  etrans; [exact Ho|]. eapply alone_step; [unfold loop_step; cbn; by rewrite Et|].
  eapply alone_step; [|exact Ho']. done.
Qed.

(** A heartbeat decides: within the lease it is extended and the elector
    stays leader; when the lock is gone or another has it, the elector steps
    down. *)
Theorem heartbeat_decides now (b : B) nd :
  let e := el nd in
  pos nd = BeatTest -> todo nd = [] -> IsLeader e = true -> up b = true ->
  electionKey e <> "" -> nodeID e <> "" -> 0 < LeaseDuration (cfg e) ->
  exists b' nd', alone now (b, nd) (b', nd') /\ pos nd' = Idle /\ todo nd' = [] /\ up b' = true /\
    match holder_at now (electionKey e) b with
    | Some (h, _) => if decide (h = nodeID e)
                     then el nd' = e /\ granted nd' = Some (now + LeaseDuration (cfg e)) /\
                          holder_at now (electionKey e) b' = Some (nodeID e, now + LeaseDuration (cfg e))
                     else el nd' = step_down e
    | None => el nd' = step_down e /\ holder_at now (electionKey e) b' = None
    end.
Proof.
  cbn zeta. intros Hp Ht Hl Hup Hk Hid Hd.
  destruct (be_Heartbeat now (electionKey (el nd)) (nodeID (el nd)) (LeaseDuration (cfg (el nd))) b) as [b1 err] eqn:Eb.
  destruct (Heartbeat_law _ _ _ _ _ _ _ Eb) as (Hup' & Hr). rewrite Hup in Hup'.
  set (nd1 := nd <| pos := BeatCall |>). assert (loop_step now b nd = Some (b, nd1)) as Es1 by (unfold loop_step; by rewrite Ht, Hp, Hl).
  destruct err as [err|].
  - destruct Hr as [Eh' Hr]. set (nd2 := nd1 <| pos := BeatFailed |>).
    set (nd3 := nd2 <| el := step_down (el nd) |> <| pos := Idle |> <| todo := Notice <$> [EventLeaderLost; EventBecomeFollower] |>).
    destruct (notices_sent now b1 [EventLeaderLost; EventBecomeFollower] nd3 eq_refl) as [out Ho].
    exists b1, (nd3 <| todo := [] |> <| sent := out |>). split.
    + eapply alone_step; [exact Es1|]. apply (alone_step now b b1 nd1 nd2); [unfold loop_step; cbn; rewrite Ht; cbn; by rewrite Eb|].
      eapply alone_step; [|exact Ho]. unfold loop_step. cbn. rewrite Ht. cbn. by rewrite Hl.
    + do 3 (split; [done|]). destruct (holder_at _ _ b) as [[h u]|] eqn:Eh; [|done]. case_decide; [|done]. subst h. by destruct (Hr Hup Hk Hid Hd u).
  - destruct Hr as [[u Hu] Hr]. set (nd2 := nd1 <| pos := Idle |> <| todo := Notice <$> [EventHeartbeat] |> <| granted := Some (now + LeaseDuration (cfg (el nd))) |>).
    destruct (notices_sent now b1 [EventHeartbeat] nd2 eq_refl) as [out Ho].
    exists b1, (nd2 <| todo := [] |> <| sent := out |>). split.
    + eapply alone_step; [exact Es1|]. eapply alone_step; [|exact Ho]. unfold loop_step. cbn. rewrite Ht. cbn. by rewrite Eb.
    + do 3 (split; [done|]). rewrite Hu. by rewrite decide_True.
Qed.
(** C39: after a lease has run out and the backend is up, electors take over in
    rounds of their loop that nothing interrupts.  An elector that does not call
    itself leader does so at its check: it becomes leader of a new term with a
    lease of its own, and the backend says so.  One that still calls itself
    leader steps down at its heartbeat, and its next check, at any later time,
    takes over in the same way. *)
Theorem failover_after_lease now t (b : B) nd :
  let e := el nd in
  todo nd = [] -> up b = true ->
  electionKey e <> "" -> nodeID e <> "" -> 0 < LeaseDuration (cfg e) ->
  t <= now -> lapse now (holder_at t (electionKey e) b) = None ->
  (pos nd = CheckGet -> IsLeader e = false -> takes_over now b nd) /\
  (pos nd = BeatTest -> IsLeader e = true ->
   exists b1 nd1, alone now (b, nd) (b1, nd1) /\ pos nd1 = Idle /\ todo nd1 = [] /\ el nd1 = step_down e /\
     forall later, now <= later -> takes_over later b1 (nd1 <| pos := CheckGet |>)).
Proof.
  cbn zeta. intros Ht Hup Hk Hid Hd Hle Hlapse. rewrite <- (holder_later t now) in Hlapse by done.
  split; [by intros; apply check_takes_over|]. intros Hp Hl.
  destruct (heartbeat_decides now b nd) as (b1 & nd1 & Ha & Hp1 & Ht1 & Hup1 & Hh); try done.
  rewrite Hlapse in Hh. destruct Hh as [He1 Hh1]. exists b1, nd1. do 4 (split; [done|]). intros later Hlater.
  apply check_takes_over; cbn; rewrite ?He1; try done.
  change (holder_at later (electionKey (el nd)) b1 = None). by rewrite (holder_later now later), Hh1.
Qed.

End laws.
