(* ===== verification/LeaderElectTraces.v ===== *)
(** Elections on the lock manager, step by step: the theorems at work, and what
    goes wrong when calls overlap the loop. *)

From stdpp Require Import base tactics option numbers list gmap strings.
From Stdlib Require Import ZArith Lia SpecFloat.
From S2P Require Import Prelude DistLock LeaderElect LeaderElectProofs.

Import LeaderElect.

Definition demo_elector (id : string) : LeaderElector :=
  match NewLeaderElector id "k" DefaultConfig (Some tt) with
  | Ok e => e
  | Err _ => {| nodeID := id; electionKey := ""; cfg := DefaultConfig; callbacks := []; role := RoleFollower; term := 0; leaderID := "";
                running := false; stopped := false; stop_closed := false |}
  end.

Lemma demo_new id : id <> "" -> NewLeaderElector id "k" DefaultConfig (Some DistLock.NewLockManager) = Ok (demo_elector id).
Proof. intros Hid. unfold demo_elector, NewLeaderElector. by rewrite decide_False. Qed.

(** Electors and a lock manager, at time 0. *)
Ltac demo_start es :=
  eexists DistLock.NewLockManager, 0, es; split;
  [repeat (apply Forall_cons; split; [do 3 eexists; apply demo_new; done|]); apply Forall_nil_2
  |split; [apply (bool_decide_unpack _); vm_compute; exact I|compute_state]].

(** Steps of the elector [i]: of its loop, of its call [k], or as given. *)
Ltac node_step_by i tac := trace_step (eapply (StepNode _ i); [compute_side|tac]).
Ltac loop_moves_by i := node_step_by i ltac:(eapply StepLoop; compute_side).
Ltac call_moves_by i k := node_step_by i ltac:(eapply (StepCall _ _ k); [compute_side|compute_side|by auto]).

(** ** Within the rules *)

Lemma elected_trace : exists sys : Election DistLock.LockManager,
  reachable false "k" sys /\ clock sys = 0 /\
  exists a b, nodes sys = [a; b] /\ IsLeader (el a) = true /\ IsLeader (el b) = false /\ leaderID (el b) = "a" /\ calls a = [] /\ nodeID (el a) = "a" /\ pos b = Idle.
Proof.
  eexists. split.
  { demo_start [demo_elector "a"; demo_elector "b"].
    node_step_by 0%nat ltac:(eapply StepStart; compute_side). do 11 loop_moves_by 0%nat.
    node_step_by 1%nat ltac:(eapply StepStart; compute_side). do 6 loop_moves_by 1%nat. apply rtc_refl. }
  split; [compute_side|]. do 2 eexists. split; [compute_side|]. split_and!; compute_side.
Qed.

Lemma one_leader_per_lease_witness : exists (sys : Election DistLock.LockManager) d,
  reachable false "k" sys /\ (0 <= d -> holder_at 0 "k" (backend sys) = Some ("a", d)).
Proof.
  destruct elected_trace as (sys & Hr & Hc & a & b & Hn & Hl & _ & _ & Hca & Hid & _).
  destruct (one_leader_per_lease "k" sys Hr) as [H1 _].
  destruct (H1 a) as (d & _ & Hd); [rewrite Hn; by left|exact Hl|rewrite Hca; by intros ?%Exists_nil|].
  exists sys, d. rewrite Hc, Hid in Hd. by split.
Defined.

(** An elector that finds the lock of a leader that is gone. *)
Definition orphaned : DistLock.LockManager :=
  fst (DistLock.TryLock 0 "k" "a" DefaultLeaseDuration DistLock.NewLockManager).

Definition watcher : node := (new_node (demo_elector "b")) <| pos := CheckGet |>.

Definition stale_leader : node := (new_node (becomeLeader (demo_elector "a"))) <| pos := BeatTest |>.

Lemma failover_after_lease_witness :
  (exists b' nd', alone 5000000001 (orphaned, watcher) (b', nd') /\ IsLeader (el nd') = true /\
     term (el nd') = 1 /\ holder_at 5000000001 "k" b' = Some ("b", 10000000001)) /\
  exists b1 nd1, alone 5000000001 (orphaned, stale_leader) (b1, nd1) /\ IsLeader (el nd1) = false /\
    takes_over 5000000002 b1 (nd1 <| pos := CheckGet |>).
Proof.
  split.
  - destruct (proj1 (failover_after_lease 5000000001 0 orphaned watcher eq_refl ltac:(done) ltac:(done) ltac:(done)
      ltac:(done) ltac:(lia) ltac:(done)) eq_refl eq_refl) as (b' & nd' & Ha & _ & _ & Hl & _ & Ht & _ & Hh).
    exists b', nd'. split; [exact Ha|]. split; [exact Hl|]. split; [exact Ht|exact Hh].
  - destruct (proj2 (failover_after_lease 5000000001 0 orphaned stale_leader eq_refl ltac:(done) ltac:(done) ltac:(done)
      ltac:(done) ltac:(lia) ltac:(done)) eq_refl eq_refl) as (b1 & nd1 & Ha & _ & _ & He & Hl).
    exists b1, nd1. split; [exact Ha|]. split; [by rewrite He|]. apply Hl. lia.
Defined.

Lemma heartbeat_decides_witness : exists b' nd',
  alone 3 (orphaned, (new_node (becomeLeader (demo_elector "a"))) <| pos := BeatTest |>) (b', nd') /\
  IsLeader (el nd') = true /\ holder_at 3 "k" b' = Some ("a", 5000000003).
Proof.
  destruct (heartbeat_decides 3 orphaned ((new_node (becomeLeader (demo_elector "a"))) <| pos := BeatTest |>)) as (b' & nd' & Ha & _ & _ & _ & He); try done.
  cbn in He. exists b', nd'. split; [exact Ha|]. destruct He as (-> & _ & Hh). split; [done|exact Hh].
Defined.

(** ** Against the rules, and at the limits *)

(** Two leaders at one time: [Resign] gives the lock back while [checkLeader]
    of the same elector, which has seen its own name, goes on to
    [becomeLeader]; another elector takes the lock. *)
Theorem resign_race_two_leaders : exists sys : Election DistLock.LockManager,
  reachable true "k" sys /\ clock sys = 0 /\
  exists a b, nodes sys = [a; b] /\ IsLeader (el a) = true /\ IsLeader (el b) = true /\
    pos a = Idle /\ todo a = [] /\ (c_at <$> calls a) = [Returned None] /\ holder_at 0 "k" (backend sys) = Some ("b", DefaultLeaseDuration).
Proof.
  eexists. split.
  { demo_start [demo_elector "a"; demo_elector "b"].
    node_step_by 0%nat ltac:(eapply StepStart; compute_side). do 11 loop_moves_by 0%nat.
    node_step_by 0%nat ltac:(eapply StepTickCheck; [compute_side|compute_side|by left]). loop_moves_by 0%nat.
    node_step_by 0%nat ltac:(eapply StepResign; [compute_side|compute_side|by left]). do 6 call_moves_by 0%nat 0%nat.
    do 9 loop_moves_by 0%nat.
    node_step_by 1%nat ltac:(eapply StepStart; compute_side). do 11 loop_moves_by 1%nat. apply rtc_refl. }
  split; [compute_side|]. do 2 eexists. split; [compute_side|]. split_and!; compute_side.
Qed.

(** A leader for ever: [Stop] that comes after [Start] has set [running] and
    before it has counted its goroutine returns at once; the loop then checks
    once, becomes leader, and exits. *)
Theorem stop_during_start_leaves_leader : exists sys : Election DistLock.LockManager,
  reachable true "k" sys /\
  exists a, nodes sys = [a] /\ IsLeader (el a) = true /\ stopped (el a) = true /\ pos a = LoopDone /\ todo a = [] /\ (c_at <$> calls a) = [Returned None].
Proof.
  eexists. split.
  { demo_start [demo_elector "a"]. node_step_by 0%nat ltac:(eapply StepStart; compute_side).
    node_step_by 0%nat ltac:(eapply StepStop; compute_side). do 2 call_moves_by 0%nat 0%nat. do 11 loop_moves_by 0%nat.
    node_step_by 0%nat ltac:(eapply StepExit; compute_side). apply rtc_refl. }
  eexists. split; [compute_side|]. split_and!; compute_side.
Qed.

(** [Resign] after the lease has run out fails with the backend's error for
    that, and the elector still calls itself leader. *)
Theorem resign_expired_keeps_role : exists sys : Election DistLock.LockManager,
  reachable false "k" sys /\ DefaultLeaseDuration < clock sys /\
  exists a, nodes sys = [a] /\ IsLeader (el a) = true /\ (c_at <$> calls a) = [Returned (Some (BackendError DistLock.ErrLockExpired))].
Proof.
  eexists. split.
  { demo_start [demo_elector "a"]. node_step_by 0%nat ltac:(eapply StepStart; compute_side). do 11 loop_moves_by 0%nat.
    trace_step (apply (StepTime _ 5000000001); by vm_compute).
    node_step_by 0%nat ltac:(eapply StepResign; [compute_side|compute_side|by right]). call_moves_by 0%nat 0%nat. apply rtc_refl. }
  split; [compute_side|]. eexists. split; [compute_side|]. split; compute_side.
Qed.

(** The default configuration: a heartbeat every 1.5 seconds, a check every 2.5. *)
Example default_intervals : Validate DefaultConfig = None /\ HeartbeatInterval DefaultConfig = Some 1500000000 /\ CheckInterval DefaultConfig = Some 2500000000.
Proof. repeat split. Qed.

(** [Validate] lets pass a lease so short that the intervals are zero, and
    factors that are not numbers; the tickers of the loop then panic. *)
Theorem valid_config_panics c nd (b : DistLock.LockManager) :
  c ∈ [{| LeaseDuration := 1; HeartbeatFactor := DefaultHeartbeatFactor; CheckFactor := DefaultCheckFactor |};
       {| LeaseDuration := DefaultLeaseDuration; HeartbeatFactor := S754_nan; CheckFactor := S754_nan |}] ->
  cfg (el nd) = c -> pos nd = Spawning -> todo nd = [] ->
  Validate c = None /\ loop_step 0 b nd = Some (b, nd <| pos := LoopPanicked |>).
Proof.
  intros Hc He Hp Ht. unfold loop_step. rewrite Ht, Hp, He. rewrite !elem_of_cons in Hc. by destruct Hc as [->|[->|?%elem_of_nil]].
Qed.
